(* ===== verification/_CoqProject ===== *)
-Q . S2P
Prelude.v
Wire.v
Metainfo.v
Geometry.v
Segments.v
Visits.v
RequestStrategy.v
OrderedBitmap.v
AllocLim.v
SmartBan.v
SwarmState.v
Swarm.v
SwarmWp.v
SwarmReq.v
Metadata.v
Requesting.v
Scenario.v
Desired.v
Availability.v
RequestBounds.v
System.v
AvailSystem.v
Bep40.v
Peers.v
Decimal.v
Bencode.v
BencodeTyped.v
TypedRoundTrip.v
Stream.v
Crypto.v
Mse.v
Handshake.v
Pex.v
IpList.v
Storage.v
PieceStore.v
Filepath.v
OpenTorrent.v
Reader.v
Percent.v
WebSeed.v
UdpTracker.v
Trackers.v
TrackerServer.v
GoHeap.v
WorseConns.v
Conns.v
ConnView.v
Duplicates.v
ConnSystem.v
InitialMessages.v
Accept.v
MsgWriter.v
UdpServer.v
HttpServer.v
WebseedPeer.v
Magnet.v
ResourcePieces.v
