(* ===== verification/Prelude.v ===== *)
(** * A verified model of the ReliableBT BitTorrent client

    The program (src/, Go) is a fork of the anacrolix/torrent client that adds
    the _baseline provider_: a peer named by a tracker that is always kept in
    the reserve, is handed to the dialler before every other peer, and is asked
    only for pieces of which at most one peer is known to have them.

    ** The parts of the program and how they interact

    A [Client] (client.go) accepts and dials connections; each goes through
    message stream encryption (mse/) and the BitTorrent handshake
    (handshake.go, peer_protocol/handshake.go) and becomes a [PeerConn]
    (peerconn.go) of a [Torrent] (torrent.go).  The connection reads messages
    (peer_protocol/) and calls handlers that change the torrent: its pieces
    and chunks (piece.go), the availability of pieces, the outstanding
    requests, the metadata (ut_metadata), the reserve of peers (ut_pex,
    trackers).  Pieces are kept by a storage (storage/) and read by readers
    (reader.go); web seeds (webseed/, webseed-peer.go) are peers over HTTP.
    What to ask for is decided by request-strategy/ and requesting.go over sets
    of request indices (ordered-bitmap.go).  Pieces that fail their hash blame
    peers (smartban/).  A tracker server (tracker/server/, tracker/udp/server/,
    tracker/http/server/) answers announces.  The files below build up
    the torrent from these parts; everything that changes its state holds the
    client lock, so a run of it is a sequence of the operations.

    ** Files

    Foundations
    - Prelude: outcomes of Go code ([go]: a value or a panic), machine
      integers, slices and shared lemmas, tactics and hint databases.
    - Decimal: numerals of package strconv and math/big.
    - Stream: programs that read and write a connection, and two of them
      talking to each other.
    - Crypto: SHA-1, RC4 and the Diffie-Hellman arithmetic, computing.
    - Bep40: net.IP, CRC-32C and the peer priority (bep40.go).

    Codecs
    - Wire: peer messages (peer_protocol/{int,protocol,msg,decoder}.go).
    - Bencode, BencodeTyped: bencode/ for dynamic and for typed values.
    - Metainfo: metainfo/, and [validateInfo] of misc.go.
    - IpList: the block list (iplist/).

    Requests
    - Geometry: bytes, pieces, chunks, requests and files (misc.go, piece.go,
      file.go, torrent.go).
    - Segments: segments/, the extents of files.
    - RequestStrategy: request-strategy/, the order of pieces and which of
      them are requestable.
    - OrderedBitmap: the set of requests in insertion order, and the
      iteration over chunks that are not dirty.
    - Requesting, Desired, RequestBounds: requesting.go; which requests are
      wanted of a peer, the rule for baseline providers, how many are made.

    The torrent
    - SwarmState, Swarm: the state and the operations of torrent.go, piece.go,
      peerconn.go, peer.go.
    - SwarmWp: weakest preconditions and frame rules for them.
    - SwarmReq, Availability: invariants of every operation.
    - System, AvailSystem: the torrent as a transition system, with the
      invariants over its runs.
    - Scenario: a concrete torrent, for witnesses.
    - Metadata: extension messages and the metadata exchange.
    - AllocLim, SmartBan: internal/alloclim, smartban/.

    Peers
    - Peers: the reserve of peers and the baseline provider
      (prioritized_peers.go, and parts of torrent.go, client.go,
      tracker_scraper.go).
    - Pex: peer exchange (pex.go, pexconn.go).
    - Mse, Handshake: how a connection is established (mse/mse.go,
      handshake.go, client.go).

    Storage and readers
    - Visits: the extents a read or write visits.
    - Storage: the file and memory map clients of storage/ over a file system,
      piece completion, and mmap_span/.
    - PieceStore: pieces of a storage, hashing and completing them.
    - ResourcePieces: storage/piece-resource.go, pieces as named resources.
    - Filepath, OpenTorrent: path/filepath and the paths of a torrent's files.
    - Reader: reader.go, and what readers do to priorities (t.go).

    Web seeds and trackers
    - Percent: percent encoding of package net/url.
    - WebSeed: webseed/, the requests over HTTP for a part of a torrent.
    - WebseedPeer: webseed-peer.go, the requesters of a web seed.
    - UdpTracker: tracker/udp/, the client: packets, transactions, time-outs.
    - Trackers: tracker/http/, tracker/udp.go and tracker_scraper.go.
    - TrackerServer: tracker/server/, the announce handler.
    - UdpServer, HttpServer: tracker/udp/server/ and tracker/http/server/, with
      the response of tracker/http/protocol.go.
    - TypedRoundTrip: encoding and decoding a typed value with bencode/.
    - Magnet: metainfo/magnet.go, spec.go and the merging of announce lists.

    Connections
    - GoHeap: container/heap.
    - WorseConns: worse-conns.go, which connection is given up.
    - Conns: a connection from the handshake to the end of its read loop
      (client.go, networks.go).
    - ConnView, Duplicates, ConnSystem: what the torrent knows of its
      connections, duplicate connections, and the torrent as a transition
      system with connection start-up.
    - InitialMessages: what two clients tell each other at first.
    - Accept: limits on accepted connections, and dialling.
    - MsgWriter: peer-conn-msg-writer.go, the writer and those who fill its
      buffer.

    ** What the theorems show

    - The torrent: outstanding requests stay consistent over every run
      ([System.requests_consistent]) and piece availability is exact, in a
      torrent added with its info, as long as no peer retracts a HaveAll
      ([AvailSystem.availability_exact]; what happens otherwise shows the
      example [haveNone_leaks]).
    - The baseline provider: it is never evicted from the reserve
      ([Peers.baseline_never_evicted]), one that a tracker names is dialled
      ([baseline_dialled]), and the requests made of it are those
      the rule allows ([Desired.getDesiredRequestState_spec]).
    - Requests: the selection of requestable pieces is that of a reference
      definition, making requests never meets a full write buffer
      ([applyRequestState_room]), and
      the optimised sets refine lists and maps
      ([orderedBitmap_refines_list], [pieceRequestOrder_refines]).
    - Connections: two clients with compatible policies complete encryption
      and handshake under every interleaving, and agree on the outcome
      ([Handshake.handshakes_agree]); an outgoing connection falls back to
      the other kind of header when that helps
      ([establishOutgoingConn_connects]).
    - Codecs: round trips; the decoder of messages panics on no input and
      accepts exactly the frames of well-formed messages
      ([Wire.decode_accepts_frames]), but where a 32-bit counter wraps
      ([decode_extended_underflow]); decoding of bencode agrees with a grammar
      ([Bencode.unmarshal_exact]), and decoding into Go values is type-safe
      and crashes for no type but one ([unmarshal_well_typed], with the
      example [bytes_pointer_panics]).
    - Metadata: what is installed has the info hash, and wrong metadata is
      thrown away.  Pex: what a peer has been told is the current view, if no
      peer reconnects while its drop is held ([pex_view_current], and the
      example [held_drop_withdraws]).
    - Storage: a piece downloaded is one that hashes to what the info says
      ([PieceStore.downloaded_piece_hashes]), a piece is
      reported complete exactly if it was marked so and os.Stat finds its
      files long enough ([completion_backed]), files stay below the
      directory of the torrent ([file_OpenTorrent_confined]), a piece kept as
      resources gives what was written to it ([resource_piece_stored]) and
      never anything else when reads fail ([resource_failures_safe]; the
      example [unnamed_chunks_lost] is a piece marked without its bytes), and a
      reader returns the bytes of the torrent at its position
      ([reader_reads]).
    - Connections: two clients keep the same one of two connections
      ([Duplicates.duplicate_connections_agree]), every connection has been
      told of every piece ([ConnSystem.connections_told]) and understands it
      ([initial_messages_understood]), the writer sends what was written, in
      order and without sleeping on it ([MsgWriter.writer_sends]), and the
      connection given up is the worst one ([worstBadConn_worst]).
    - Trackers: responses are matched with their requests
      ([UdpTracker.responses_matched]), announces are spaced, and a client
      that announces to the servers of this program gets what the announce
      handler answers, over UDP ([UdpServer.announce_served]) and over HTTP
      ([HttpServer.http_announce_served], for the fields of an announce that
      this server reads); without a valid connection id no packet is sent
      ([no_amplification]); what upstream trackers answer is returned and
      announced to the tracker ([TrackerServer.augmentation_exact]).
    - Web seeds: what is delivered are the bytes asked for
      ([webseed_delivers]); the requesters never panic and no wakeup is lost
      ([webseed_steps_safe], [webseed_no_lost_wakeup]).
    - Typed bencode and magnet links are read back as they were written
      ([typed_roundtrip], [magnet_roundtrip]); the two encodings of an info
      hash agree ([infohash_encodings_agree]).

    ** Conventions

    Integers are [Z], with the wrap-around of their Go width written out where
    it can matter.  Pointers that are shared are handles into a store.  A
    panic is [Panic] of the monad [go]; the monad of SwarmState.v also carries
    the state.  Go iterates over maps in an unspecified order: the parameter
    [mapOrder] of Swarm.v stands for it, and elsewhere the canonical order of
    the map.  Third-party packages are type classes that state what the code
    relies on, each with an instance: [Roaring], [GList], [Multiless],
    [BtreeSet], [GBtree], [KrpcIndex], [SpanStore], [Missinggo], [MMapLib],
    [BroadcastCond], [ResourceProvider], and the heap of Requesting.v.
    [AnnounceTracker] and [ConnectionTracker] are interfaces of the program
    that its users implement.
    Functions outside of src/ that only compute a value (a hash of pieces, a
    random permutation, net.ParseIP) are arguments.

    Loops run over lists where the code has a bounded loop.  Where they have
    fuel, a theorem gives fuel that suffices: the length of the input for the
    bencode and message decoders, the number of queued reservations for
    [AllocLim], the size of the reserve for [openNewConns], the length of a
    piece for copying it.

    ** Simplifications

    - Swarm: addresses are abstract identities; the peer of a web seed is
      modelled by itself, in WebseedPeer.v;
      [allStats] counts into the connection, the torrent and the client at
      once, as after the handshake has been reconciled; uploading takes the
      first ready request in the order of the map.
    - Stream, Mse, Handshake: a write never fails; deadlines are not
      modelled, a state in which neither side can move is one that times out;
      the kinds of end-of-file errors are one.
    - BencodeTyped: struct types without embedded or unexported fields;
      bencode.Bytes is the only type with a marshaler of its own.
    - Pex: the timer that paces messages is not modelled.
    - Handshake: the accepting side does not limit the rate of connections
      between two attempts (an option that is off by default).
    - TrackerServer: tracking the peers of an augmentation and forgetting it
      are one step.
    - Storage: of the permissions of a file the model keeps whether it can be
      opened and whether os.Stat succeeds.

    ** Not modelled

    Operating-system and network I/O (sockets, HTTP round trips, WebRTC), the
    databases of storage/ (bolt, sqlite), the
    command line programs and the FUSE file system, building an info from the
    file system, statistics printing and logging, and the DHT, which is a
    library.

    ** What is left

    Merging a specification into a torrent and adding one to a client, which
    compose operations that are modelled ([MergeSpec], [AddTorrentSpec]), and
    WebTorrent's tracker protocol (webtorrent/).
*)
From stdpp Require Import base numbers list gmap strings.
From Stdlib Require Import ZArith Lia Sorted.

Open Scope Z_scope.

(** ** Outcomes of Go code

    A Go function returns normally or panics.  [go A] is that choice; a
    function that also reports an error value returns it inside [A]. *)
Inductive go (A : Type) : Type :=
| Ok (a : A)
| Panic (why : string).
Arguments Ok {A} _.
Arguments Panic {A} _.

#[export] Instance go_ret : MRet go := λ A a, Ok a.
#[export] Instance go_bind : MBind go := λ A B f m,
  match m with Ok a => f a | Panic w => Panic w end.

Definition guard_go (b : bool) (why : string) : go unit :=
  if b then Ok tt else Panic why.

Lemma go_bind_Ok {A B} (m : go A) (f : A → go B) b :
  (m ≫= f) = Ok b ↔ ∃ a, m = Ok a ∧ f a = Ok b.
Proof. destruct m; cbn; split; [eauto | by intros (?&[= <-]&?) | done | by intros (?&?&?)]. Qed.

Lemma guard_go_Ok b w u : guard_go b w = Ok u ↔ b = true.
Proof. destruct b, u; cbn; naive_solver. Qed.

(** A returned value or a returned error: the Go result pair [(v, err)] of
    which the caller reads [v] only when [err == nil]. *)
Inductive result (E A : Type) : Type :=
| Good (a : A)
| Bad (e : E).
Arguments Good {E A} _.
Arguments Bad {E A} _.

#[export] Instance result_ret {E} : MRet (result E) := λ A a, Good a.
#[export] Instance result_bind {E} : MBind (result E) := λ A B f m,
  match m with Good a => f a | Bad e => Bad e end.

(** ** Machine integers

    A value of an unsigned w-bit Go type is a [Z] in [0, 2^w); arithmetic
    wraps by [modulo].  [int] is 64 bits wide, as on every platform the
    program is built for by default. *)
Definition u8 (z : Z) : Z := z mod 2 ^ 8.
Definition u16 (z : Z) : Z := z mod 2 ^ 16.
Definition u32 (z : Z) : Z := z mod 2 ^ 32.
Definition u64 (z : Z) : Z := z mod 2 ^ 64.
Definition i64 (z : Z) : Z := (z + 2 ^ 63) mod 2 ^ 64 - 2 ^ 63.

Abbreviation in_u8 z := (0 ≤ z < 2 ^ 8).
Abbreviation in_u16 z := (0 ≤ z < 2 ^ 16).
Abbreviation in_u32 z := (0 ≤ z < 2 ^ 32).
Abbreviation in_u64 z := (0 ≤ z < 2 ^ 64).
Abbreviation in_i64 z := (- 2 ^ 63 ≤ z < 2 ^ 63).

Lemma u8_range z : in_u8 (u8 z).
Proof. apply Z.mod_pos_bound; lia. Qed.
Lemma u32_range z : in_u32 (u32 z).
Proof. apply Z.mod_pos_bound; lia. Qed.
Lemma u8_small z : in_u8 z → u8 z = z.
Proof. apply Z.mod_small. Qed.
Lemma u16_small z : in_u16 z → u16 z = z.
Proof. apply Z.mod_small. Qed.
Lemma u32_small z : in_u32 z → u32 z = z.
Proof. apply Z.mod_small. Qed.
Lemma u64_small z : in_u64 z → u64 z = z.
Proof. apply Z.mod_small. Qed.
Lemma u32_sub a k :
  in_u32 a → in_u32 k → u32 (a - k) = if decide (k ≤ a) then a - k else a - k + 2 ^ 32.
Proof.
  intros Ha Hk. unfold u32. case_decide; [apply Z.mod_small; lia|].
  rewrite <- (Z.mod_add _ 1) by lia. apply Z.mod_small; lia.
Qed.
Lemma i64_small z : in_i64 z → i64 z = z.
Proof. intros H. unfold i64. rewrite Z.mod_small; lia. Qed.
Lemma i64_range z : in_i64 (i64 z).
Proof. unfold i64. pose proof (Z.mod_pos_bound (z + 2 ^ 63) (2 ^ 64)). lia. Qed.

(** ** Bytes

    A byte is a [Z] in [0, 256); a byte string is a [list Z]. *)
Definition bytes_ok (l : list Z) : Prop := Forall (λ b, in_u8 b) l.

#[export] Instance bytes_ok_dec l : Decision (bytes_ok l).
Proof. unfold bytes_ok. apply _. Defined.

Lemma bytes_ok_lookup (l : list Z) i b : bytes_ok l → l !! i = Some b → in_u8 b.
Proof. intros H Hi. exact (proj1 (Forall_lookup _ _) H i b Hi). Qed.

Lemma bytes_ok_app l1 l2 : bytes_ok (l1 ++ l2) ↔ bytes_ok l1 ∧ bytes_ok l2.
Proof. apply Forall_app. Qed.

(** Big-endian encoding in [n] bytes, as [encoding/binary.BigEndian]. *)
Fixpoint be_encode (n : nat) (z : Z) : list Z :=
  match n with
  | O => []
  | S k => (z / 256 ^ Z.of_nat k) mod 256 :: be_encode k z
  end.

Definition be_decode (l : list Z) : Z := fold_left (λ acc b, acc * 256 + b) l 0.

Lemma length_be_encode n z : length (be_encode n z) = n.
Proof. induction n; simpl; auto. Qed.

Lemma be_encode_bytes n z : bytes_ok (be_encode n z).
Proof. induction n; constructor; auto. apply Z.mod_pos_bound; lia. Qed.

Lemma fold_be_acc l a :
  fold_left (λ acc b, acc * 256 + b) l a = a * 256 ^ Z.of_nat (length l) + be_decode l.
Proof.
  unfold be_decode. revert a. induction l as [|b l IH]; intros a; cbn [fold_left length].
  - cbn. lia.
  - rewrite IH, (IH (0 * 256 + b)). rewrite Nat2Z.inj_succ, Z.pow_succ_r by lia. ring.
Qed.

Lemma be_decode_cons b l : be_decode (b :: l) = b * 256 ^ Z.of_nat (length l) + be_decode l.
Proof. unfold be_decode at 1. cbn [fold_left]. by rewrite fold_be_acc. Qed.

Lemma be_decode_encode_mod n z : be_decode (be_encode n z) = z mod 256 ^ Z.of_nat n.
Proof.
  induction n as [|n IH].
  - cbn. by rewrite Z.mod_1_r.
  - cbn [be_encode]. rewrite be_decode_cons, IH, length_be_encode.
    rewrite Nat2Z.inj_succ, Z.pow_succ_r by lia.
    rewrite (Z.mul_comm 256), Z.rem_mul_r by lia. ring.
Qed.

Lemma be_decode_encode n z : 0 ≤ z < 256 ^ Z.of_nat n → be_decode (be_encode n z) = z.
Proof. intros H. by rewrite be_decode_encode_mod, Z.mod_small. Qed.

Lemma be_decode_range l : bytes_ok l → 0 ≤ be_decode l < 256 ^ Z.of_nat (length l).
Proof.
  induction 1 as [|b l Hb Hl IH]; [cbn; lia|].
  rewrite be_decode_cons. cbn [length]. rewrite Nat2Z.inj_succ, Z.pow_succ_r by lia. nia.
Qed.

Lemma be_encode_decode l : bytes_ok l → be_encode (length l) (be_decode l) = l.
Proof.
  assert (Hadd : ∀ n a z, be_encode n (a * 256 ^ Z.of_nat n + z) = be_encode n z).
  { induction n as [|n IH]; intros a z; [done|]. cbn [be_encode].
    rewrite Nat2Z.inj_succ, Z.pow_succ_r by lia.
    replace (a * (256 * 256 ^ Z.of_nat n) + z)
      with ((a * 256) * 256 ^ Z.of_nat n + z) by ring.
    f_equal; [|apply IH].
    rewrite Z.add_comm, Z.div_add by lia. by rewrite Z.mod_add by lia. }
  induction 1 as [|b l Hb Hl IH]; [done|].
  rewrite be_decode_cons. cbn [length be_encode].
  pose proof (be_decode_range l Hl) as Hr.
  f_equal; [|by rewrite Hadd].
  rewrite Z.add_comm, Z.div_add by lia.
  rewrite (Z.div_small (be_decode l)) by lia. apply Z.mod_small. lia.
Qed.

#[global] Arguments be_encode : simpl never.
#[global] Arguments be_decode : simpl never.

(** ** Byte sources

    An [io.Reader] is the list of bytes it still delivers and the error it
    reports once they are used up. *)
Inductive ioerr : Type :=
| EOF
| ErrUnexpectedEOF
| OtherIOErr (code : Z).

#[export] Instance ioerr_eq_dec : EqDecision ioerr.
Proof. solve_decision. Defined.

Record Source : Type := mkSource { avail : list Z; fin : ioerr }.

(** [io.ReadFull(r, b)] with [len(b) = n]: the bytes read, the source left,
    the error.  EOF before the first byte is [EOF], EOF after it is
    [ErrUnexpectedEOF]; with [n = 0] nothing is read and there is no error. *)
Definition ReadFull (r : Source) (n : nat) : list Z * Source * option ioerr :=
  let got := take n (avail r) in
  let r' := mkSource (drop n (avail r)) (fin r) in
  if (n <=? length (avail r))%nat then (got, r', None)
  else (got, r',
        Some (if decide (fin r = EOF)
              then (if (length (avail r) =? 0)%nat then EOF else ErrUnexpectedEOF)
              else fin r)).

(** [ReadByte]. *)
Definition ReadByte (r : Source) : Z * Source * option ioerr :=
  match avail r with
  | b :: l => (b, mkSource l (fin r), None)
  | [] => (0, r, Some (fin r))
  end.

Lemma ReadFull_app l rest f :
  ReadFull (mkSource (l ++ rest) f) (length l) = (l, mkSource rest f, None).
Proof.
  unfold ReadFull; cbn [avail fin].
  rewrite length_app, take_app_length, drop_app_length.
  by rewrite (proj2 (Nat.leb_le _ _)) by lia.
Qed.

Lemma ReadFull_app_eq n l rest f :
  n = length l → ReadFull (mkSource (l ++ rest) f) n = (l, mkSource rest f, None).
Proof. intros ->. apply ReadFull_app. Qed.

Lemma ReadFull_None r n got r' :
  ReadFull r n = (got, r', None) →
  avail r = got ++ avail r' ∧ length got = n ∧ fin r' = fin r.
Proof.
  unfold ReadFull. destruct (Nat.leb_spec n (length (avail r))); [|done].
  intros [= <- <-]. cbn. by rewrite take_drop, length_take_le by lia.
Qed.

Lemma ReadFull_Some r n got r' e :
  ReadFull r n = (got, r', Some e) → (length (avail r) < n)%nat ∧ avail r' = [].
Proof.
  unfold ReadFull. destruct (Nat.leb_spec n (length (avail r))); [done|].
  intros [= <- <- _]. cbn. split; [done|]. apply drop_ge. lia.
Qed.

Lemma ReadByte_None r b r' :
  ReadByte r = (b, r', None) → avail r = b :: avail r' ∧ fin r' = fin r.
Proof. unfold ReadByte. destruct (avail r); [done|]. by intros [= <- <-]. Qed.

(** ** Lists *)
Lemma Forall_replicate {A} (P : A → Prop) x n : P x → Forall P (replicate n x).
Proof. intros H. induction n; constructor; auto. Qed.

Lemma list_eq_below {A} (l1 l2 : list A) n :
  length l1 = n → length l2 = n →
  (∀ i x y, (i < n)%nat → l1 !! i = Some x → l2 !! i = Some y → x = y) →
  l1 = l2.
Proof.
  intros H1 H2 H. apply list_eq. intros i.
  destruct (Nat.lt_ge_cases i n) as [Hi|Hi].
  - destruct (lookup_lt_is_Some_2 l1 i) as [x Hx]; [lia|].
    destruct (lookup_lt_is_Some_2 l2 i) as [y Hy]; [lia|].
    rewrite Hx, Hy. f_equal. eauto.
  - by rewrite !lookup_ge_None_2 by lia.
Qed.

Lemma filter_all {A} (P : A → Prop) `{∀ x, Decision (P x)} (l : list A) : Forall P l → filter P l = l.
Proof. induction 1; [done|]. by rewrite filter_cons_True, IHForall. Qed.

Lemma filter_ext_in {A} (P Q : A → Prop) `{∀ x, Decision (P x)} `{∀ x, Decision (Q x)} (l : list A) :
  (∀ x, x ∈ l → P x ↔ Q x) → filter P l = filter Q l.
Proof.
  induction l as [|x l IH]; intros Hl; [done|]. rewrite !filter_cons, IH by set_solver.
  pose proof (Hl x ltac:(set_solver)). repeat case_decide; naive_solver.
Qed.

Lemma NoDup_fmap_eq {A C} (f : A → C) (l : list A) x y :
  NoDup (f <$> l) → x ∈ l → y ∈ l → f x = f y → x = y.
Proof.
  induction l as [|z l IH]; cbn; [set_solver|].
  intros [Hz Hl]%NoDup_cons Hx Hy Hf. rewrite list_elem_of_fmap in Hz.
  apply elem_of_cons in Hx as [->|Hx], Hy as [->|Hy]; [done|..].
  - destruct Hz. eauto.
  - destruct Hz. eauto.
  - eauto.
Qed.

Lemma filter_of_fmap {A C} (f : A → C) (P : C → Prop) `{∀ x, Decision (P x)} (l : list A) :
  filter P (f <$> l) = f <$> filter (λ x, P (f x)) l.
Proof. induction l as [|x l IH]; [done|]. cbn [fmap list_fmap]. rewrite !filter_cons, IH. by case_decide. Qed.

Lemma StronglySorted_filter {A} (R : A → A → Prop) (P : A → Prop) `{∀ x, Decision (P x)} l :
  StronglySorted R l → StronglySorted R (filter P l).
Proof.
  induction 1 as [|x l Hl IH Hx]; [constructor|]. rewrite filter_cons. case_decide; [|done].
  constructor; [done|]. apply Forall_forall. intros y [_ Hy]%list_elem_of_filter. by eapply Forall_forall in Hx.
Qed.

(** ** Sums *)
Definition Zsum (l : list Z) : Z := foldr Z.add 0 l.

Lemma Zsum_app l1 l2 : Zsum (l1 ++ l2) = Zsum l1 + Zsum l2.
Proof. unfold Zsum. induction l1 as [|x l1 IH]; [done|]. cbn [app foldr]. rewrite IH. lia. Qed.

Lemma Zsum_perm {A} (f : A → Z) l1 l2 : l1 ≡ₚ l2 → Zsum (map f l1) = Zsum (map f l2).
Proof. unfold Zsum. induction 1; cbn [map foldr]; lia. Qed.

Lemma Zsum_ext {A} (f g : A → Z) l :
  (∀ x, In x l → f x = g x) → Zsum (map f l) = Zsum (map g l).
Proof. intros H. f_equal. by apply map_ext_in. Qed.

Lemma seqZ_snoc n : 0 ≤ n → seqZ 0 (n + 1) = seqZ 0 n ++ [n].
Proof. intros H. rewrite seqZ_app by lia. by rewrite Z.add_0_l. Qed.

(** Consecutive differences telescope. *)
Lemma Zsum_telescope (g : Z → Z) n :
  0 ≤ n → Zsum (map (λ i, g (i + 1) - g i) (seqZ 0 n)) = g n - g 0.
Proof.
  revert n. apply natlike_ind; [symmetry; apply Z.sub_diag|]. intros n Hn IH.
  unfold Z.succ. rewrite seqZ_snoc, map_app, Zsum_app, IH by done. cbn. lia.
Qed.

Lemma in_seqZ m n i : In i (seqZ m n) ↔ m ≤ i < m + n.
Proof. rewrite <- list_elem_of_In. apply elem_of_seqZ. Qed.

(** Ceiling division. *)
Lemma ceil_div_bounds a b : 0 < b → a ≤ (a + b - 1) / b * b < a + b.
Proof.
  intros Hb. pose proof (Z.div_mod (a + b - 1) b ltac:(lia)). pose proof (Z.mod_pos_bound (a + b - 1) b Hb). lia.
Qed.

Lemma div_le_iff a b i : 0 < b → a / b ≤ i ↔ a < (i + 1) * b.
Proof.
  intros Hb. split; intros H.
  - pose proof (Z.mul_succ_div_gt a b Hb). nia.
  - assert (a / b < i + 1); [|lia]. apply Z.div_lt_upper_bound; lia.
Qed.

Lemma lt_ceil_iff a b i : 0 < b → i < (a + b - 1) / b ↔ i * b < a.
Proof.
  intros Hb. split; intros H.
  - pose proof (ceil_div_bounds a b Hb). nia.
  - assert (i + 1 ≤ (a + b - 1) / b); [|lia]. apply Z.div_le_lower_bound; lia.
Qed.

Lemma Zsum_nonneg {A} (f : A → Z) l : (∀ x, 0 ≤ f x) → 0 ≤ Zsum (map f l).
Proof.
  intros H. unfold Zsum. induction l as [|x l IH]; cbn [map foldr]; [done|]. specialize (H x). lia.
Qed.

(** A constant summed over the members of a range that are not in a set. *)
Lemma Zsum_not_in (S : gset Z) k a n :
  0 ≤ n →
  Zsum (map (λ i, if decide (i ∈ S) then 0 else k) (seqZ a n)) =
  (n - Z.of_nat (size (filter (λ p, a ≤ p < a + n) S))) * k.
Proof.
  revert n. apply natlike_ind.
  { replace (filter (λ p, a ≤ p < a + 0) S) with (∅ : gset Z).
    - rewrite size_empty. change (0 = (0 - 0) * k). lia.
    - symmetry. apply elem_of_equiv_empty_L. intros x [? _]%elem_of_filter. lia. }
  intros n Hn IH. unfold Z.succ. rewrite seqZ_app, map_app, Zsum_app, IH by lia.
  change (seqZ (a + n) 1) with [a + n]. unfold Zsum at 1. cbn [map foldr].
  destruct (decide (a + n ∈ S)) as [Hin|Hin].
  - replace (filter (λ p, a ≤ p < a + (n + 1)) S)
      with ({[a + n]} ∪ filter (λ p, a ≤ p < a + n) S).
    + rewrite size_union, size_singleton by (intros x ?%elem_of_singleton [??]%elem_of_filter; lia). lia.
    + apply set_eq. intros x. rewrite elem_of_union, elem_of_singleton, !elem_of_filter.
      split; [intros [->|[??]]; (split; [lia|done])|].
      intros [? ?]. destruct (decide (x = a + n)); [by left|right; split; [lia|done]].
  - replace (filter (λ p, a ≤ p < a + (n + 1)) S) with (filter (λ p, a ≤ p < a + n) S); [lia|].
    apply set_eq. intros x. rewrite !elem_of_filter. split; intros [? ?]; (split; [|done]); [lia|].
    assert (x ≠ a + n) by congruence. lia.
Qed.

Lemma size_range_le (S : gset Z) a n :
  0 ≤ n → Z.of_nat (size (filter (λ p, a ≤ p < a + n) S)) ≤ n.
Proof.
  intros Hn. pose proof (Zsum_not_in S 1 a n Hn).
  assert (0 ≤ Zsum (map (λ i, if decide (i ∈ S) then 0 else 1) (seqZ a n))); [|lia].
  apply Zsum_nonneg. intros i. case_decide; lia.
Qed.

Lemma seqZ_ends b n :
  2 ≤ n → seqZ b n = [b] ++ seqZ (b + 1) (n - 2) ++ [b + n - 1].
Proof.
  intros Hn. change [b] with (seqZ b 1). change [b + n - 1] with (seqZ (b + n - 1) 1).
  replace (b + n - 1) with (b + 1 + (n - 2)) by lia. rewrite <- !seqZ_app by lia. f_equal. lia.
Qed.

(** ** Binary search

    [sort.Search(n, f)] of the Go standard library, with fuel for its loop. *)
Fixpoint searchLoop (fuel : nat) (f : nat → bool) (i j : nat) : nat :=
  match fuel with
  | O => i
  | S fuel =>
      if (i <? j)%nat then
        let h := ((i + j) / 2)%nat in
        if f h then searchLoop fuel f i h else searchLoop fuel f (S h) j
      else i
  end.

Definition sort_Search (n : nat) (f : nat → bool) : nat := searchLoop (S n) f 0 n.

Lemma searchLoop_spec f n : ∀ fuel i j,
  (i ≤ j ≤ n)%nat → (j - i < fuel)%nat →
  (∀ k, (k < i)%nat → f k = false) → (∀ k, (j ≤ k < n)%nat → f k = true) →
  (∀ a b, (a ≤ b < n)%nat → f a = true → f b = true) →
  let r := searchLoop fuel f i j in
  (r ≤ n)%nat ∧ (∀ k, (k < r)%nat → f k = false) ∧ (∀ k, (r ≤ k < n)%nat → f k = true).
Proof.
  induction fuel as [|fuel IH]; intros i j Hij Hf Hlo Hhi Hmono; [lia|].
  cbn [searchLoop]. destruct (Nat.ltb_spec i j) as [Hlt|Hge].
  - pose proof (Nat.div_mod_eq (i + j) 2). pose proof (Nat.mod_upper_bound (i + j) 2 ltac:(lia)).
    set (h := ((i + j) / 2)%nat) in *. assert (i ≤ h < j)%nat by lia.
    destruct (f h) eqn:Eh; apply IH; try lia; try done.
    + intros k Hk. apply (Hmono h k); [lia|done].
    + intros k Hk. destruct (f k) eqn:Ek; [|done].
      rewrite (Hmono k h) in Eh; [done|lia|done].
  - cbn zeta. split_and!; [lia|done|]. intros k Hk. apply Hhi. lia.
Qed.

(** For a predicate that stays true once it is true, [sort_Search] is the
    least index at which it holds, or [n]. *)
Lemma sort_Search_spec n f :
  (∀ a b, (a ≤ b < n)%nat → f a = true → f b = true) →
  (sort_Search n f ≤ n)%nat ∧
  (∀ k, (k < sort_Search n f)%nat → f k = false) ∧
  (∀ k, (sort_Search n f ≤ k < n)%nat → f k = true).
Proof. intros H. apply searchLoop_spec; [lia|lia|intros; lia|intros; lia|done]. Qed.

(** ** Automation

    [inv_go] takes a normal return of a chain of calls apart; [case_bool]
    splits on the boolean tests of the code and states them as
    propositions. *)
Create HintDb torrent.
Create Rewrite HintDb torrent.
#[export] Hint Resolve u8_range u32_range i64_range be_encode_bytes : torrent.
#[export] Hint Rewrite length_be_encode : torrent.

Ltac inv_go :=
  repeat match goal with
  | H : Ok _ = Ok _ |- _ => injection H as H; subst
  | H : Panic _ = Ok _ |- _ => discriminate H
  | H : (_ ≫= _) = Ok _ |- _ =>
      apply go_bind_Ok in H; let x := fresh "x" in let Hx := fresh "Hx" in
      destruct H as (x & Hx & H)
  | H : guard_go _ _ = Ok _ |- _ => apply guard_go_Ok in H
  end.

Ltac case_bool :=
  repeat match goal with
  | |- context [if Z.eqb ?a ?b then _ else _] => destruct (Z.eqb_spec a b)
  | |- context [if Z.leb ?a ?b then _ else _] => destruct (Z.leb_spec a b)
  | |- context [if Z.ltb ?a ?b then _ else _] => destruct (Z.ltb_spec a b)
  | H : context [if Z.eqb ?a ?b then _ else _] |- _ => destruct (Z.eqb_spec a b)
  | H : context [if Z.leb ?a ?b then _ else _] |- _ => destruct (Z.leb_spec a b)
  | H : context [if Z.ltb ?a ?b then _ else _] |- _ => destruct (Z.ltb_spec a b)
  end.

(** Decide a closed, decidable statement. *)
Ltac by_decide :=
  match goal with |- ?P => apply (bool_decide_unpack P); vm_compute; exact I end.

(** Evaluate a closed statement. *)
Ltac by_compute := vm_compute; repeat split; congruence || reflexivity.
