(* ===== verification/Wire.v ===== *)
(** Peer wire protocol messages: src/peer_protocol/{int,protocol,msg,decoder}.go.

    [Message] is the lazy union of the Go code; [MarshalBinary] and
    [Decoder.Decode] are its encoder and decoder, byte by byte, with the
    remaining length kept in a wrapping 32-bit [length] as the code keeps it. *)
From stdpp Require Import base numbers list strings.
From Stdlib Require Import ZArith Lia.
From S2P Require Import Prelude.
Open Scope Z_scope.

(** ** protocol.go, int.go, msg.go: data *)
Definition Choke : Z := 0.
Definition Unchoke : Z := 1.
Definition Interested : Z := 2.
Definition NotInterested : Z := 3.
Definition Have : Z := 4.
Definition Bitfield : Z := 5.
Definition Request : Z := 6.
Definition Piece : Z := 7.
Definition Cancel : Z := 8.
Definition Port : Z := 9.
Definition Suggest : Z := 13.
Definition HaveAll : Z := 14.
Definition HaveNone : Z := 15.
Definition Reject : Z := 16.
Definition AllowedFast : Z := 17.
Definition Extended : Z := 20.

Definition FastExtension (mt : Z) : bool := (Suggest <=? mt) && (mt <=? AllowedFast).

Definition IntegerMax : Z := 2 ^ 32 - 1.

Record Message : Type := mkMessage {
  Keepalive : bool;
  Type_ : Z;
  Index : Z; Begin : Z; Length : Z;
  PieceData : list Z;
  BitfieldBits : list bool;
  ExtendedID : Z;
  ExtendedPayload : list Z;
  PortNum : Z
}.

(** The zero value, [var msg pp.Message]. *)
Definition Message0 : Message := mkMessage false 0 0 0 0 [] [] 0 [] 0.

Definition set_type (m : Message) (t : Z) : Message :=
  mkMessage (Keepalive m) t (Index m) (Begin m) (Length m) (PieceData m)
    (BitfieldBits m) (ExtendedID m) (ExtendedPayload m) (PortNum m).

Definition set_ints (m : Message) (i b l : Z) : Message :=
  mkMessage (Keepalive m) (Type_ m) i b l (PieceData m)
    (BitfieldBits m) (ExtendedID m) (ExtendedPayload m) (PortNum m).

Definition MakeCancelMessage (piece offset length : Z) : Message :=
  set_ints (set_type Message0 Cancel) piece offset length.

Record RequestSpec : Type := mkRequestSpec { rsIndex : Z; rsBegin : Z; rsLength : Z }.

Definition Message_RequestSpec (m : Message) : RequestSpec :=
  mkRequestSpec (Index m) (Begin m)
    (if Type_ m =? Piece then u32 (Z.of_nat (length (PieceData m))) else Length m).

(** ** msg.go: encoding *)
Fixpoint marshalLoop (i : nat) (bf : list bool) (b : list Z) : list Z :=
  match bf with
  | [] => b
  | have :: bf' =>
      marshalLoop (S i) bf'
        (if have
         then alter (λ c, u8 (Z.lor c (Z.shiftl 1 (7 - Z.of_nat (i mod 8))))) (i / 8)%nat b
         else b)
  end.

Definition marshalBitfield (bf : list bool) : list Z :=
  marshalLoop 0 bf (replicate ((length bf + 7) / 8) 0).

Definition in_types (t : Z) (ts : list Z) : bool := existsb (Z.eqb t) ts.

(** The message body: what [buf] holds after the [switch], and the error
    of the default case. *)
Definition marshalBody (m : Message) : list Z * bool :=
  let t := Type_ m in
  if in_types t [Choke; Unchoke; Interested; NotInterested; HaveAll; HaveNone] then ([t], true)
  else if t =? Have then (t :: be_encode 4 (Index m), true)
  else if in_types t [Request; Cancel; Reject] then
    (t :: be_encode 4 (Index m) ++ be_encode 4 (Begin m) ++ be_encode 4 (Length m), true)
  else if t =? Bitfield then (t :: marshalBitfield (BitfieldBits m), true)
  else if t =? Piece then
    (t :: be_encode 4 (Index m) ++ be_encode 4 (Begin m) ++ PieceData m, true)
  else if t =? Extended then (t :: u8 (ExtendedID m) :: ExtendedPayload m, true)
  else if t =? Port then (t :: be_encode 2 (PortNum m), true)
  else ([t], false).

(** [MarshalBinary]: the bytes, and whether [err == nil].  Writes to a
    [bytes.Buffer] never fail, so the only error is an unknown type. *)
Definition MarshalBinary (m : Message) : list Z * bool :=
  let '(buf, ok) := if Keepalive m then ([], true) else marshalBody m in
  (be_encode 4 (u32 (Z.of_nat (length buf))) ++ buf, ok).

(** ** decoder.go *)
Inductive DecodeErr : Type :=
| ReadingMessageLength (e : ioerr)
| MessageTooLong
| IOError (e : ioerr)
| PieceDataLongerThanExpected
| ReadingPieceData (e : ioerr)
| UnknownMessageType (c : Z)
| UnusedBytes (length t : Z).

Record Decoder : Type := mkDecoder {
  Pool : option Z;  (** capacity of the buffers the pool hands out; [None] is a nil pool *)
  MaxLength : Z
}.

Definition unmarshalBitfield (b : list Z) : list bool :=
  concat (map (λ c, map (λ i, Z.eqb (Z.land (Z.shiftr c i) 1) 1) [7; 6; 5; 4; 3; 2; 1; 0]) b).

(** [Integer.Read]. *)
Definition Integer_Read (r : Source) : result ioerr (Z * Source) :=
  match ReadFull r 4 with
  | (b, r', None) => Good (be_decode b, r')
  | (_, _, Some e) => Bad e
  end.

Fixpoint Integers_Read (n : nat) (r : Source) : result ioerr (list Z * Source) :=
  match n with
  | O => Good ([], r)
  | S n => '(i, r1) ← Integer_Read r; '(js, r2) ← Integers_Read n r1; Good (i :: js, r2)
  end.

(** What the cases of the [switch] leave in [err] and [length]. *)
Definition io {A} (x : result ioerr A) : result DecodeErr A :=
  match x with Good a => Good a | Bad e => Bad (IOError e) end.

(** [b[:n]] of a slice with this capacity. *)
Definition reslice (cap n : Z) : go unit :=
  if (0 <=? n) && (n <=? cap) then Ok tt else Panic "slice bounds out of range".

Definition decodeBody (d : Decoder) (m : Message) (length : Z) (r : Source) :
    go (result DecodeErr (Message * Z * Source)) :=
  let c := Type_ m in
  if in_types c [Choke; Unchoke; Interested; NotInterested; HaveAll; HaveNone] then
    Ok (Good (m, length, r))
  else if in_types c [Have; AllowedFast; Suggest] then
    Ok ('(i, r') ← io (Integer_Read r); Good (set_ints m i (Begin m) (Length m), u32 (length - 4), r'))
  else if in_types c [Request; Cancel; Reject] then
    Ok ('(js, r') ← io (Integers_Read 3 r);
        Good (set_ints m (nth 0 js 0) (nth 1 js 0) (nth 2 js 0), u32 (length - 12), r'))
  else if c =? Bitfield then
    Ok (match ReadFull r (Z.to_nat length) with
        | (b, r', None) =>
            Good (mkMessage (Keepalive m) c (Index m) (Begin m) (Length m) (PieceData m)
                    (unmarshalBitfield b) (ExtendedID m) (ExtendedPayload m) (PortNum m), 0, r')
        | (_, _, Some e) => Bad (IOError e)
        end)
  else if c =? Piece then
    match Integers_Read 2 r with
    | Bad e => Ok (Bad (IOError e))
    | Good (js, r1) =>
        let length := u32 (length - 8) in
        match Pool d with
        | None => Panic "nil pointer dereference"
        | Some cap =>
            if cap <? length then Ok (Bad PieceDataLongerThanExpected)
            else
              _ ← reslice cap length;
              Ok (match ReadFull r1 (Z.to_nat length) with
                 | (b, r2, None) =>
                     Good (mkMessage (Keepalive m) c (nth 0 js 0) (nth 1 js 0) (Length m) b
                       (BitfieldBits m) (ExtendedID m) (ExtendedPayload m) (PortNum m), 0, r2)
                 | (_, _, Some e) => Bad (ReadingPieceData e)
                 end)
        end
    end
  else if c =? Extended then
    let length := u32 (length - 1) in
    match ReadByte r with
    | (_, _, Some e) => Ok (Bad (IOError e))
    | (b, r1, None) =>
        Ok (match ReadFull r1 (Z.to_nat length) with
            | (p, r2, None) =>
                Good (mkMessage (Keepalive m) c (Index m) (Begin m) (Length m) (PieceData m)
                  (BitfieldBits m) b p (PortNum m), 0, r2)
            | (_, _, Some e) => Bad (IOError (if decide (e = EOF) then ErrUnexpectedEOF else e))
            end)
    end
  else if c =? Port then
    Ok (match ReadFull r 2 with
        | (b, r', None) =>
            Good (mkMessage (Keepalive m) c (Index m) (Begin m) (Length m) (PieceData m)
              (BitfieldBits m) (ExtendedID m) (ExtendedPayload m) (be_decode b), u32 (length - 2), r')
        | (_, _, Some e) => Bad (IOError e)
        end)
  else Ok (Bad (UnknownMessageType c)).

(** [Decoder.Decode], on a message [msg] and the source [r]. *)
Definition Decode (d : Decoder) (msg : Message) (r : Source) :
    go (result DecodeErr (Message * Source)) :=
  match Integer_Read r with
  | Bad e => Ok (Bad (ReadingMessageLength e))
  | Good (length, r0) =>
      if MaxLength d <? length then Ok (Bad MessageTooLong)
      else if length =? 0 then
        Ok (Good (mkMessage true (Type_ msg) (Index msg) (Begin msg) (Length msg) (PieceData msg)
          (BitfieldBits msg) (ExtendedID msg) (ExtendedPayload msg) (PortNum msg), r0))
      else
        match ReadByte r0 with
        | (_, _, Some e) => Ok (Bad (IOError e))
        | (c, r1, None) =>
            let length := u32 (length - 1) in
            res ← decodeBody d (set_type msg c) length r1;
            Ok (match res with
                | Bad e => Bad e
                | Good (m, remaining, r2) =>
                    if remaining =? 0 then Good (m, r2) else Bad (UnusedBytes remaining (Type_ m))
                end)
        end
  end.

(** [Message.UnmarshalBinary] decodes with the zero [Decoder] around the
    reader: no pool, [MaxLength] 0. *)
Inductive UnmarshalErr : Type :=
| DecodeFailed (e : DecodeErr)
| TrailingBytes (n : Z).

Definition UnmarshalBinary (me : Message) (b : list Z) : go (result UnmarshalErr Message) :=
  res ← Decode (mkDecoder None 0) me (mkSource b EOF);
  Ok (match res with
      | Bad e => Bad (DecodeFailed e)
      | Good (m, r) =>
          match avail r with [] => Good m | l => Bad (TrailingBytes (Z.of_nat (length l))) end
      end).

Definition decode_example : go (result DecodeErr (Message * Source)) :=
  Decode (mkDecoder (Some 16384) 65536) Message0
    (mkSource [0;0;0;5;4;0;0;1;2;99] EOF).
Example decode_example_ok :
  decode_example = Ok (Good (set_ints (set_type Message0 Have) 258 0 0, mkSource [99] EOF)).
Proof. reflexivity. Qed.

(** ** Bitfields

    Bit [j] of byte [k], most significant first, is piece [8 k + j]. *)
Section Bitfields.
Lemma mod8_lt (n : nat) : (n mod 8 < 8)%nat.
Proof. by apply Nat.mod_upper_bound. Qed.

Lemma unmarshalBitfield_lookup b n :
  unmarshalBitfield b !! n =
  (λ c, Z.testbit c (7 - Z.of_nat (n mod 8))) <$> b !! (n / 8)%nat.
Proof.
  assert (Hbit : ∀ c i, 0 ≤ i → Z.eqb (Z.land (Z.shiftr c i) 1) 1 = Z.testbit c i).
  { intros c i Hi. change 1 with (Z.ones 1) at 1. rewrite Z.land_ones by lia.
    rewrite Z.shiftr_div_pow2 by lia. change (2 ^ 1) with 2.
    pose proof (Z.testbit_spec' c i Hi) as Hs. rewrite <- Hs.
    by destruct (Z.testbit c i). }
  revert n. induction b as [|c b IH]; intros n.
  { cbn. by rewrite lookup_nil. }
  destruct (Nat.lt_ge_cases n 8) as [Hn|Hn].
  - rewrite Nat.div_small, Nat.mod_small by lia.
    unfold unmarshalBitfield. cbn [map concat]. rewrite !Hbit by lia.
    do 8 (destruct n as [|n]; [done|]). lia.
  - replace n with (8 + (n - 8))%nat at 1 by lia.
    transitivity (unmarshalBitfield b !! (n - 8)%nat); [done|].
    assert (n mod 8 = (n - 8) mod 8)%nat as ->.
    { replace n with (n - 8 + 1 * 8)%nat at 1 by lia. by rewrite Nat.Div0.mod_add. }
    assert (n / 8 = S ((n - 8) / 8))%nat as ->.
    { replace n with (n - 8 + 1 * 8)%nat at 1 by lia. rewrite Nat.div_add by lia. lia. }
    by rewrite IH.
Qed.

Lemma marshalLoop_length i bf b : length (marshalLoop i bf b) = length b.
Proof.
  revert i b. induction bf as [|h bf IH]; intros i b; [done|].
  cbn [marshalLoop]. rewrite IH. destruct h; [|done]. by rewrite length_alter.
Qed.

Lemma setBit_testbit c (i n : nat) :
  in_u8 c → (i < 8)%nat → (n < 8)%nat →
  Z.testbit (u8 (Z.lor c (Z.shiftl 1 (7 - Z.of_nat i)))) (7 - Z.of_nat n) =
  Z.testbit c (7 - Z.of_nat n) || bool_decide (i = n).
Proof.
  intros Hc Hi Hn. unfold u8.
  rewrite Z.mod_pow2_bits_low by lia.
  rewrite Z.lor_spec, Z.shiftl_1_l, Z.pow2_bits_eqb by lia. f_equal.
  case_bool_decide; [subst; apply Z.eqb_refl|]. apply Z.eqb_neq. lia.
Qed.

(** The loop sets exactly the bits of [bf], the first of them being bit [i]. *)
Lemma marshalLoop_bit bf : ∀ i b n c,
  bytes_ok b → b !! (n / 8)%nat = Some c →
  ∃ c', marshalLoop i bf b !! (n / 8)%nat = Some c' ∧
    Z.testbit c' (7 - Z.of_nat (n mod 8)) =
      Z.testbit c (7 - Z.of_nat (n mod 8)) ||
      (if decide (i ≤ n)%nat then default false (bf !! (n - i)%nat) else false).
Proof.
  induction bf as [|h bf IH]; intros i b n c Hb Hc; cbn [marshalLoop].
  { exists c. split; [done|]. rewrite lookup_nil. by case_decide; rewrite orb_false_r. }
  pose proof (mod8_lt n). pose proof (mod8_lt i).
  set (b' := if h then _ else b).
  assert (Hb' : bytes_ok b').
  { unfold b'. destruct h; [|done]. apply Forall_alter; [done|]. intros ? _ _. apply u8_range. }
  assert (∃ c1, b' !! (n / 8)%nat = Some c1 ∧ Z.testbit c1 (7 - Z.of_nat (n mod 8)) =
    Z.testbit c (7 - Z.of_nat (n mod 8)) || (h && bool_decide (i = n))) as (c1 & Hc1 & Hbit).
  { unfold b'. destruct h; [|exists c; by rewrite orb_false_r].
    destruct (decide (i / 8 = n / 8)%nat) as [Heq|Hne].
    - rewrite Heq, list_lookup_alter_eq, Hc. eexists; split; [done|].
      pose proof (bytes_ok_lookup _ _ _ Hb Hc). rewrite setBit_testbit by lia.
      rewrite andb_true_l. f_equal. apply bool_decide_ext.
      pose proof (Nat.div_mod_eq i 8). pose proof (Nat.div_mod_eq n 8). lia.
    - rewrite list_lookup_alter_ne by done. exists c. split; [done|].
      rewrite bool_decide_eq_false_2; [by rewrite andb_false_r, orb_false_r|]. by intros ->. }
  destruct (IH (S i) b' n c1 Hb' Hc1) as (c' & Hc' & Ht). exists c'. split; [done|].
  rewrite Ht, Hbit, <- orb_assoc. f_equal.
  destruct (decide (i = n)) as [->|Hne].
  - rewrite bool_decide_eq_true_2, decide_False, decide_True, Nat.sub_diag by lia.
    cbn. by destruct h.
  - rewrite bool_decide_eq_false_2, andb_false_r by done. cbn [orb].
    destruct (decide (i ≤ n)%nat); [|by rewrite decide_False by lia].
    rewrite decide_True by lia. by replace (n - i)%nat with (S (n - S i)) by lia.
Qed.

(** Zero bits that complete the last byte. *)
Definition padding (bf : list bool) : list bool :=
  replicate (8 * ((length bf + 7) / 8) - length bf) false.

Lemma length_unmarshalBitfield b : length (unmarshalBitfield b) = (8 * length b)%nat.
Proof.
  induction b as [|c b IH]; [done|].
  change (length (unmarshalBitfield (c :: b))) with (8 + length (unmarshalBitfield b))%nat.
  rewrite IH. cbn [length]. lia.
Qed.

Lemma unmarshal_marshalBitfield bf :
  unmarshalBitfield (marshalBitfield bf) = bf ++ padding bf.
Proof.
  assert (Hlen : length (marshalBitfield bf) = ((length bf + 7) / 8)%nat).
  { unfold marshalBitfield. by rewrite marshalLoop_length, length_replicate. }
  apply list_eq_below with (n := (8 * ((length bf + 7) / 8))%nat).
  - by rewrite length_unmarshalBitfield, Hlen.
  - unfold padding. rewrite length_app, length_replicate.
    pose proof (Nat.div_mod_eq (length bf + 7) 8). pose proof (mod8_lt (length bf + 7)). lia.
  - intros n x y Hn Hx Hy. rewrite unmarshalBitfield_lookup in Hx.
    assert (Hz : (replicate ((length bf + 7) / 8) 0 : list Z) !! (n / 8)%nat = Some 0).
    { apply lookup_replicate_2. apply Nat.Div0.div_lt_upper_bound; lia. }
    assert (Hok : bytes_ok (replicate ((length bf + 7) / 8) 0)) by (apply Forall_replicate; lia).
    destruct (marshalLoop_bit bf 0 _ n 0 Hok Hz) as (c & Hc & Ht).
    unfold marshalBitfield in Hx. rewrite Hc in Hx. apply (inj Some) in Hx. subst x.
    rewrite Ht, Z.testbit_0_l, decide_True, Nat.sub_0_r by lia. cbn [orb].
    destruct (Nat.lt_ge_cases n (length bf)).
    + rewrite lookup_app_l in Hy by done. by rewrite Hy.
    + rewrite lookup_app_r in Hy by done. rewrite lookup_ge_None_2 by done.
      unfold padding in Hy. by apply lookup_replicate_1 in Hy as [-> _].
Qed.
Lemma marshalLoop_ok bf : ∀ i b, bytes_ok b → bytes_ok (marshalLoop i bf b).
Proof.
  induction bf as [|h bf IH]; intros i b Hb; [done|]. cbn [marshalLoop]. apply IH. destruct h; [|done].
  apply Forall_alter; [done|]. intros ? _ _. apply u8_range.
Qed.

Lemma byte_bits x y : in_u8 x → in_u8 y → (∀ j : nat, (j < 8)%nat → Z.testbit x (7 - Z.of_nat j) = Z.testbit y (7 - Z.of_nat j)) → x = y.
Proof.
  intros Hx Hy Hb. apply Z.bits_inj'. intros i Hi. destruct (Z.lt_ge_cases i 8) as [Hlt|Hge].
  - specialize (Hb (Z.to_nat (7 - i)) ltac:(lia)). by replace (7 - Z.of_nat (Z.to_nat (7 - i))) with i in Hb by lia.
  - assert (Hz : ∀ z, in_u8 z → Z.testbit z i = false).
    { intros z Hz. rewrite <- (u8_small z Hz). unfold u8. by rewrite Z.mod_pow2_bits_high by lia. }
    by rewrite !Hz.
Qed.

Lemma marshal_unmarshalBitfield b : bytes_ok b → marshalBitfield (unmarshalBitfield b) = b.
Proof.
  intros Hb. assert (Hdiv : ((8 * length b + 7) / 8 = length b)%nat).
  { pose proof (Nat.div_mod_eq (8 * length b + 7) 8). pose proof (mod8_lt (8 * length b + 7)). lia. }
  unfold marshalBitfield. rewrite length_unmarshalBitfield, Hdiv.
  assert (Hz : bytes_ok (replicate (length b) 0)) by (apply Forall_replicate; lia).
  apply list_eq_below with (n := length b); [by rewrite marshalLoop_length, length_replicate|done|].
  intros k x y Hk Hx Hy. apply byte_bits; [exact (bytes_ok_lookup _ _ _ (marshalLoop_ok _ 0 _ Hz) Hx)|exact (bytes_ok_lookup _ _ _ Hb Hy)|].
  intros j Hj. set (n := (j + k * 8)%nat).
  assert (Hn : (n / 8 = k)%nat ∧ (n mod 8 = j)%nat).
  { unfold n. split; [rewrite Nat.div_add, Nat.div_small by lia; lia|rewrite Nat.Div0.mod_add, Nat.mod_small by lia; lia]. }
  destruct Hn as [Hn1 Hn2].
  destruct (marshalLoop_bit (unmarshalBitfield b) 0 (replicate (length b) 0) n 0) as (c & Hc & Ht); [done|rewrite Hn1; by apply lookup_replicate_2|].
  rewrite Hn1 in Hc. rewrite Hx in Hc. injection Hc as <-. rewrite Hn2 in Ht. rewrite Ht, Z.testbit_0_l, decide_True, Nat.sub_0_r by lia.
  rewrite unmarshalBitfield_lookup, Hn1, Hn2, Hy. done.
Qed.
End Bitfields.

(** ** Reading what was written *)
Section Frames.
Implicit Types (r : Source) (d : Decoder).

Lemma Integer_Read_app z rest f :
  in_u32 z → Integer_Read (mkSource (be_encode 4 z ++ rest) f) = Good (z, mkSource rest f).
Proof.
  intros Hz. unfold Integer_Read.
  rewrite (ReadFull_app_eq 4) by by rewrite length_be_encode.
  by rewrite be_decode_encode by done.
Qed.

Lemma Integers_Read_app zs rest f :
  Forall (λ z, in_u32 z) zs →
  Integers_Read (length zs) (mkSource (concat (map (be_encode 4) zs) ++ rest) f) =
  Good (zs, mkSource rest f).
Proof.
  induction 1 as [|z zs Hz Hzs IH]; [done|].
  cbn [length Integers_Read map concat]. rewrite <- app_assoc.
  rewrite Integer_Read_app by done. unfold mbind, result_bind. by rewrite IH.
Qed.

Lemma Integers_Read_app1 z rest f :
  in_u32 z →
  Integer_Read (mkSource (concat (map (be_encode 4) [z]) ++ rest) f) = Good (z, mkSource rest f).
Proof. intros Hz. cbn [map concat]. rewrite app_nil_r. by apply Integer_Read_app. Qed.

(** Decoding a frame that is not longer than [MaxLength] is decoding its
    body. *)
Lemma Decode_frame d m c payload rest f :
  Z.of_nat (S (length payload)) ≤ MaxLength d → MaxLength d < 2 ^ 32 →
  Decode d m (mkSource (be_encode 4 (u32 (Z.of_nat (length (c :: payload)))) ++ (c :: payload) ++ rest) f) =
  (res ← decodeBody d (set_type m c) (Z.of_nat (length payload)) (mkSource (payload ++ rest) f);
   Ok (match res with
       | Bad e => Bad e
       | Good (m', remaining, r2) =>
           if remaining =? 0 then Good (m', r2) else Bad (UnusedBytes remaining (Type_ m'))
       end)).
Proof.
  intros Hmax H32. unfold Decode. cbn [length].
  rewrite u32_small by lia. rewrite Integer_Read_app by lia.
  destruct (Z.ltb_spec (MaxLength d) (Z.of_nat (S (length payload)))); [lia|].
  destruct (Z.eqb_spec (Z.of_nat (S (length payload))) 0); [lia|].
  cbn [ReadByte avail fin app].
  replace (u32 (Z.of_nat (S (length payload)) - 1)) with (Z.of_nat (length payload)); [done|].
  rewrite u32_small; lia.
Qed.
End Frames.

(** ** The messages of the protocol, without the union's unused fields *)
Inductive AMsg : Type :=
| AKeepalive
| ASimple (t : Z)
| AHave (i : Z)
| ARequest (t i b l : Z)
| ABitfield (bits : list bool)
| APiece (i b : Z) (data : list Z)
| AExtended (id : Z) (payload : list Z)
| APort (p : Z).

#[export] Instance AMsg_eq_dec : EqDecision AMsg.
Proof. solve_decision. Defined.

Definition concr (a : AMsg) : Message :=
  match a with
  | AKeepalive => mkMessage true 0 0 0 0 [] [] 0 [] 0
  | ASimple t => set_type Message0 t
  | AHave i => set_ints (set_type Message0 Have) i 0 0
  | ARequest t i b l => set_ints (set_type Message0 t) i b l
  | ABitfield bits => mkMessage false Bitfield 0 0 0 [] bits 0 [] 0
  | APiece i b data => mkMessage false Piece i b 0 data [] 0 [] 0
  | AExtended id payload => mkMessage false Extended 0 0 0 [] [] id payload 0
  | APort p => mkMessage false Port 0 0 0 [] [] 0 [] p
  end.

Definition wf_amsg (a : AMsg) : Prop :=
  match a with
  | AKeepalive => True
  | ASimple t => in_types t [Choke; Unchoke; Interested; NotInterested; HaveAll; HaveNone] = true
  | AHave i => in_u32 i
  | ARequest t i b l =>
      in_types t [Request; Cancel; Reject] = true ∧ in_u32 i ∧ in_u32 b ∧ in_u32 l
  | ABitfield _ => True
  | APiece i b data => in_u32 i ∧ in_u32 b
  | AExtended id payload => in_u8 id
  | APort p => in_u16 p
  end.

(** What arrives: a bitfield is completed to whole bytes. *)
Definition received (a : AMsg) : AMsg :=
  match a with ABitfield bits => ABitfield (bits ++ padding bits) | _ => a end.

(** The frame fits the decoder's limits. *)
Definition fits (d : Decoder) (a : AMsg) : Prop :=
  Z.of_nat (length (MarshalBinary (concr a)).1) - 4 ≤ MaxLength d < 2 ^ 32 ∧
  match a with
  | APiece _ _ data => ∃ cap, Pool d = Some cap ∧ Z.of_nat (length data) ≤ cap
  | _ => True
  end.

(** The wire format as BEP 3 tables it: a tag byte and a payload. *)
Definition tag (a : AMsg) : Z :=
  match a with
  | AKeepalive => 0 | ASimple t => t | AHave _ => Have | ARequest t _ _ _ => t
  | ABitfield _ => Bitfield | APiece _ _ _ => Piece | AExtended _ _ => Extended
  | APort _ => Port
  end.

Definition payload (a : AMsg) : list Z :=
  match a with
  | AKeepalive | ASimple _ => []
  | AHave i => concat (map (be_encode 4) [i])
  | ARequest _ i b l => concat (map (be_encode 4) [i; b; l])
  | ABitfield bits => marshalBitfield bits
  | APiece i b data => concat (map (be_encode 4) [i; b]) ++ data
  | AExtended id p => id :: p
  | APort p => be_encode 2 p
  end.

Lemma in_types_In t ts : in_types t ts = true ↔ In t ts.
Proof.
  unfold in_types. rewrite existsb_exists. split.
  - intros (x & Hx & ->%Z.eqb_eq). done.
  - intros H. exists t. by rewrite Z.eqb_refl.
Qed.

Ltac type_cases H :=
  apply in_types_In in H; cbn [In] in H;
  repeat match type of H with
  | _ ∨ _ => destruct H as [H|H]
  | False => destruct H
  end; subst.

Lemma MarshalBinary_frame a :
  wf_amsg a → a ≠ AKeepalive →
  MarshalBinary (concr a) =
  (be_encode 4 (u32 (Z.of_nat (length (tag a :: payload a)))) ++ tag a :: payload a, true).
Proof.
  intros Hwf Hk. destruct a as [|t|i|t i b l|bits|i b data|id p|p]; try done.
  - by type_cases Hwf.
  - destruct Hwf as [Ht _]. by type_cases Ht.
  - cbn in Hwf. unfold MarshalBinary.
    change (marshalBody (concr (AExtended id p))) with (Extended :: u8 id :: p, true).
    by rewrite u8_small.
Qed.

(** Evaluate the type tests of the [switch] on a known message type. *)
Ltac pick_case :=
  unfold decodeBody; cbn [Type_ set_type];
  repeat match goal with
  | |- context [in_types ?a ?b] =>
      let v := eval vm_compute in (in_types a b) in
      match v with true => idtac | false => idtac end;
      change (in_types a b) with v; cbv iota
  | |- context [?a =? ?b] =>
      let v := eval vm_compute in (a =? b) in
      match v with true => idtac | false => idtac end;
      change (a =? b) with v; cbv iota
  end.

Lemma reslice_ok cap n : 0 ≤ n ≤ cap → reslice cap n = Ok tt.
Proof. intros. unfold reslice. by rewrite (proj2 (Z.leb_le _ _)), (proj2 (Z.leb_le _ _)) by lia. Qed.

(** Decoding what was encoded. *)
Lemma decode_encode d a rest f :
  wf_amsg a → fits d a →
  Decode d Message0 (mkSource ((MarshalBinary (concr a)).1 ++ rest) f) =
  Ok (Good (concr (received a), mkSource rest f)).
Proof.
  intros Hwf [[Hlen H32] Hp].
  destruct (decide (a = AKeepalive)) as [->|Hk].
  { change (0 ≤ MaxLength d) in Hlen. unfold Decode.
    change ((MarshalBinary (concr AKeepalive)).1) with (be_encode 4 0).
    rewrite (Integer_Read_app 0) by lia. by rewrite (proj2 (Z.ltb_ge _ _)) by lia. }
  rewrite MarshalBinary_frame in Hlen |- * by done. cbn [fst] in *.
  rewrite length_app, length_be_encode in Hlen.
  rewrite <- app_assoc, Decode_frame by (cbn [length] in *; lia).
  destruct a as [|t|i|t i b l|bits|i b data|id p|p]; [done|..]; cbn [tag payload] in *.
  - by type_cases Hwf.
  - pick_case. rewrite (Integers_Read_app1 i) by done. by cbn.
  - destruct Hwf as (Ht & Hi & Hb & Hl).
    assert (Hr := Integers_Read_app [i; b; l] rest f ltac:(auto)). cbn [length] in Hr.
    type_cases Ht; pick_case; rewrite Hr; done.
  - pick_case. rewrite Nat2Z.id, ReadFull_app. cbn. by rewrite unmarshal_marshalBitfield.
  - destruct Hwf as [Hi Hb]. destruct Hp as (cap & Hcap & Hle).
    pick_case. rewrite <- app_assoc.
    rewrite (Integers_Read_app [i; b]) by auto. rewrite Hcap.
    cbn [length] in Hlen. rewrite length_app in Hlen |- *.
    change (length (concat (map (be_encode 4) [i; b]))) with 8%nat in *.
    replace (u32 _) with (Z.of_nat (length data)) by (rewrite u32_small; lia).
    rewrite (proj2 (Z.ltb_ge _ _)) by done. rewrite reslice_ok by lia. cbn [mbind go_bind].
    by rewrite Nat2Z.id, ReadFull_app.
  - pick_case. cbn [ReadByte avail app fin].
    replace (u32 _) with (Z.of_nat (length p)) by (cbn [length] in *; rewrite u32_small; lia).
    by rewrite Nat2Z.id, ReadFull_app.
  - pick_case. rewrite (ReadFull_app_eq 2) by by rewrite length_be_encode.
    rewrite be_decode_encode by done. by rewrite length_be_encode.
Qed.

(** C8.  Decoding the bytes of a well-formed message that fits the decoder's
    limits gives the message back (a bitfield with its last byte completed)
    and leaves exactly the bytes that follow the frame. *)
Theorem decode_encode_roundtrip d a rest f :
  wf_amsg a → fits d a →
  Decode d Message0 (mkSource ((MarshalBinary (concr a)).1 ++ rest) f) =
  Ok (Good (concr (received a), mkSource rest f)).
Proof. apply decode_encode. Qed.

Lemma decode_encode_roundtrip_witness :
  Decode (mkDecoder (Some 16384) 65536) Message0
    (mkSource ((MarshalBinary (concr (ABitfield [true; false; true]))).1 ++ [7]) EOF) =
  Ok (Good (concr (received (ABitfield [true; false; true])), mkSource [7] EOF)).
Proof.
  apply (decode_encode_roundtrip (mkDecoder (Some 16384) 65536) (ABitfield [true; false; true]) [7] EOF).
  - exact I.
  - split; [vm_compute; split; congruence | exact I].
Defined.

(** ** Framing *)
Section Framing.
Implicit Types (r : Source) (d : Decoder).

Lemma Integer_Read_Good r z r' :
  Integer_Read r = Good (z, r') →
  ∃ b, avail r = b ++ avail r' ∧ length b = 4%nat ∧ z = be_decode b ∧ fin r' = fin r.
Proof.
  unfold Integer_Read. destruct (ReadFull r 4) as [[b r1] [e|]] eqn:E; [done|].
  intros [= <- <-]. apply ReadFull_None in E as (?&?&?). by exists b.
Qed.

Lemma Integers_Read_Good n : ∀ r zs r',
  Integers_Read n r = Good (zs, r') →
  ∃ b, avail r = b ++ avail r' ∧ length b = (4 * n)%nat ∧ fin r' = fin r.
Proof.
  induction n as [|n IH]; intros r zs r'; cbn [Integers_Read].
  { intros [= <- <-]. by exists []. }
  unfold mbind, result_bind.
  destruct (Integer_Read r) as [[z r1]|] eqn:E1; [|done].
  destruct (Integers_Read n r1) as [[zs1 r2]|] eqn:E2; [|done].
  intros [= <- <-]. apply Integer_Read_Good in E1 as (b1 & H1 & ? & _ & ?).
  apply IH in E2 as (b2 & H2 & ? & ?). exists (b1 ++ b2).
  rewrite H1, H2, app_assoc, length_app. split_and!; [done|lia|congruence].
Qed.

Lemma Integers_Read_bytes n : ∀ r zs r', bytes_ok (avail r) →
  Integers_Read n r = Good (zs, r') →
  avail r = concat (map (be_encode 4) zs) ++ avail r' ∧ length zs = n ∧ Forall (λ z, in_u32 z) zs ∧ fin r' = fin r.
Proof.
  induction n as [|n IH]; intros r zs r' Hok; cbn [Integers_Read]; [by intros [= <- <-]|].
  unfold mbind, result_bind. destruct (Integer_Read r) as [[z r1]|] eqn:E1; [|done].
  destruct (Integers_Read n r1) as [[zs1 r2]|] eqn:E2; [|done]. intros [= <- <-].
  apply Integer_Read_Good in E1 as (b1 & H1 & Hl & -> & Hf). rewrite H1 in Hok |- *. apply bytes_ok_app in Hok as [Hb1 Hok].
  apply IH in E2 as (H2 & ? & ? & ?); [|done]. cbn [map concat length]. pose proof (be_encode_decode b1 Hb1) as He. rewrite Hl in He.
  rewrite He, <- app_assoc, <- H2. split_and!; [done|lia| |congruence]. constructor; [|done].
  pose proof (be_decode_range b1 Hb1) as Hr. by rewrite Hl in Hr.
Qed.

(** The payload of a message as a peer that follows BEP 3, 6 and 10 sends it:
    one that [MarshalBinary] writes, or an index in the messages of the fast
    extension that it does not write. *)
Definition bodyOf (cap c : Z) (m : Message) (p : list Z) : Prop :=
  (∃ a, wf_amsg a ∧ a ≠ AKeepalive ∧ received a = a ∧ tag a = c ∧ m = concr a ∧ p = payload a ∧
     match a with APiece _ _ data => Z.of_nat (length data) ≤ cap | _ => True end) ∨
  (∃ i, in_types c [AllowedFast; Suggest] = true ∧ in_u32 i ∧ m = set_ints (set_type Message0 c) i 0 0 ∧ p = be_encode 4 i).

(** [decodeBody] does not panic, and reads the payload of a message if nothing
    is left over (except where there is no room for the id of an extended
    message). *)
Definition bodyOk (cap c len : Z) (r : Source) (x : go (result DecodeErr (Message * Z * Source))) : Prop :=
  ∃ res, x = Ok res ∧ ∀ m' rem r', res = Good (m', rem, r') → ∃ p, avail r = p ++ avail r' ∧ fin r' = fin r ∧
    (rem = 0 → ¬ (c = Extended ∧ len = 0) → Z.of_nat (length p) = len ∧ bodyOf cap c m' p).

Lemma bodyOk_bad cap c len r e : bodyOk cap c len r (Ok (Bad e)).
Proof. by eexists. Qed.

Lemma bodyOk_good cap c len r m' rem r' p :
  avail r = p ++ avail r' → fin r' = fin r →
  (rem = 0 → ¬ (c = Extended ∧ len = 0) → Z.of_nat (length p) = len ∧ bodyOf cap c m' p) →
  bodyOk cap c len r (Ok (Good (m', rem, r'))).
Proof. intros Hp Hf Hd. eexists. split; [done|]. intros ? ? ? [= <- <- <-]. by exists p. Qed.

Lemma u32_none len k : in_u32 len → 0 ≤ k < 2 ^ 32 → u32 (len - k) = 0 → len = k.
Proof. intros Hl Hk H. unfold u32 in H. apply Z.mod_divide in H as [q Hq]; [|lia]. assert (q = 0) by nia. lia. Qed.

Lemma length_ints zs : length (concat (map (be_encode 4) zs)) = (4 * length zs)%nat.
Proof. induction zs as [|z zs IH]; [done|]. cbn [map concat length]. rewrite length_app, length_be_encode, IH. lia. Qed.

Lemma decodeInts_ok cap c len r k g :
  in_u32 len → bytes_ok (avail r) → 4 * Z.of_nat k < 2 ^ 32 →
  (∀ zs, length zs = k → Forall (λ z, in_u32 z) zs → bodyOf cap c (g zs) (concat (map (be_encode 4) zs))) →
  bodyOk cap c len r (Ok ('(js, r') ← io (Integers_Read k r); Good (g js, u32 (len - 4 * Z.of_nat k), r'))).
Proof.
  intros Hlen Hok Hk Hf. unfold mbind, result_bind. destruct (Integers_Read k r) as [[zs r']|e] eqn:E; [|apply bodyOk_bad].
  apply Integers_Read_bytes in E as (Hav & Hl & Hu & Hfin); [|done]. cbn [io].
  apply (bodyOk_good _ _ _ _ _ _ _ (concat (map (be_encode 4) zs))); [done|done|]. intros Hrem _.
  split; [|by apply Hf]. rewrite length_ints, Hl. apply u32_none in Hrem; lia.
Qed.

Lemma Integers_Read_one {A} r (g : Z → A) (n : Z) :
  ('(i, r') ← io (Integer_Read r); Good (g i, n, r') : result DecodeErr (A * Z * Source)) =
  ('(js, r') ← io (Integers_Read 1 r); Good (g (nth 0 js 0), n, r')).
Proof. cbn [Integers_Read]. unfold mbind, result_bind. by destruct (Integer_Read r) as [[i r']|]. Qed.

(** The types that take a fixed number of integers. *)
Lemma decodeFixed_ok cap c len r : in_u32 len → bytes_ok (avail r) →
  (in_types c [Have; AllowedFast; Suggest] = true →
     bodyOk cap c len r (Ok ('(i, r') ← io (Integer_Read r); Good (set_ints (set_type Message0 c) i 0 0, u32 (len - 4), r')))) ∧
  (in_types c [Request; Cancel; Reject] = true →
     bodyOk cap c len r (Ok ('(js, r') ← io (Integers_Read 3 r);
       Good (set_ints (set_type Message0 c) (nth 0 js 0) (nth 1 js 0) (nth 2 js 0), u32 (len - 12), r')))).
Proof.
  intros Hlen Hok. split; intros Hc.
  - rewrite (Integers_Read_one r (λ i, set_ints (set_type Message0 c) i 0 0)).
    apply (decodeInts_ok cap c len r 1 (λ js, set_ints (set_type Message0 c) (nth 0 js 0) 0 0)); [done|done|lia|].
    intros [|z [|]] Hz Hu; [done| |done]. apply Forall_cons in Hu as [Hu _]. cbn [nth map concat]. rewrite app_nil_r.
    type_cases Hc; [left; exists (AHave z); cbn; rewrite app_nil_r|right; exists z|right; exists z]; split_and!; done || lia.
  - apply (decodeInts_ok cap c len r 3 (λ js, set_ints (set_type Message0 c) (nth 0 js 0) (nth 1 js 0) (nth 2 js 0))); [done|done|lia|].
    intros [|x [|y [|z [|]]]] Hz Hu; try done. left. exists (ARequest c x y z).
    rewrite !Forall_cons in Hu. destruct Hu as (? & ? & ? & _). split_and!; done || lia.
Qed.

Lemma decodeBitfield_ok cap len r : 0 ≤ len → bytes_ok (avail r) →
  bodyOk cap Bitfield len r
    (Ok (match ReadFull r (Z.to_nat len) with
         | (b, r', None) => Good (mkMessage false Bitfield 0 0 0 [] (unmarshalBitfield b) 0 [] 0, 0, r')
         | (_, _, Some e) => Bad (IOError e)
         end)).
Proof.
  intros Hlen Hok. destruct (ReadFull r (Z.to_nat len)) as [[b r'] [e|]] eqn:E; [apply bodyOk_bad|].
  apply ReadFull_None in E as (Hav & Hl & Hf). apply (bodyOk_good _ _ _ _ _ _ _ b); [done|done|]. intros _ _.
  split; [lia|]. left. exists (ABitfield (unmarshalBitfield b)). rewrite Hav in Hok. apply bytes_ok_app in Hok as [Hb _].
  assert (Hp : padding (unmarshalBitfield b) = []).
  { unfold padding. rewrite length_unmarshalBitfield.
    replace (8 * ((8 * length b + 7) / 8) - 8 * length b)%nat with 0%nat; [done|].
    pose proof (Nat.div_mod_eq (8 * length b + 7) 8). pose proof (mod8_lt (8 * length b + 7)). lia. }
  split_and!; try done.
  - unfold received. by rewrite Hp, app_nil_r.
  - cbn [payload]. by rewrite marshal_unmarshalBitfield.
Qed.

Lemma decodePiece_ok cap len r : 0 ≤ cap < 2 ^ 32 - 8 → in_u32 len → bytes_ok (avail r) →
  bodyOk cap Piece len r
    (match Integers_Read 2 r with
     | Bad e => Ok (Bad (IOError e))
     | Good (js, r1) =>
         if cap <? u32 (len - 8) then Ok (Bad PieceDataLongerThanExpected)
         else
           _ ← reslice cap (u32 (len - 8));
           Ok (match ReadFull r1 (Z.to_nat (u32 (len - 8))) with
               | (b, r2, None) => Good (mkMessage false Piece (nth 0 js 0) (nth 1 js 0) 0 b [] 0 [] 0, 0, r2)
               | (_, _, Some e) => Bad (ReadingPieceData e)
               end)
     end).
Proof.
  intros Hcap Hlen Hok. destruct (Integers_Read 2 r) as [[zs r1]|e] eqn:E; [|apply bodyOk_bad].
  apply Integers_Read_bytes in E as (Hav & Hl & Hu & Hf); [|done]. pose proof (u32_range (len - 8)) as Hr.
  destruct (Z.ltb_spec cap (u32 (len - 8))) as [|Hle]; [apply bodyOk_bad|]. rewrite reslice_ok by lia. cbn [mbind go_bind].
  destruct (ReadFull r1 _) as [[b r2] [e|]] eqn:E2; [apply bodyOk_bad|]. apply ReadFull_None in E2 as (Hav2 & Hl2 & Hf2).
  apply (bodyOk_good _ _ _ _ _ _ _ (concat (map (be_encode 4) zs) ++ b)); [by rewrite Hav, Hav2, app_assoc|congruence|]. intros _ _.
  assert (Hb : u32 (len - 8) = len - 8) by (rewrite u32_sub in * by lia; case_decide; lia).
  split; [rewrite length_app, length_ints, Hl; lia|]. left.
  destruct zs as [|x [|y [|]]]; try done. rewrite !Forall_cons in Hu. destruct Hu as (? & ? & _).
  exists (APiece x y b). cbn [nth]. split_and!; done || lia.
Qed.

Lemma decodeExtended_ok cap len r : in_u32 len → bytes_ok (avail r) →
  bodyOk cap Extended len r
    (match ReadByte r with
     | (_, _, Some e) => Ok (Bad (IOError e))
     | (b, r1, None) =>
         Ok (match ReadFull r1 (Z.to_nat (u32 (len - 1))) with
             | (p, r2, None) => Good (mkMessage false Extended 0 0 0 [] [] b p 0, 0, r2)
             | (_, _, Some e) => Bad (IOError (if decide (e = EOF) then ErrUnexpectedEOF else e))
             end)
     end).
Proof.
  intros Hlen Hok. destruct (ReadByte r) as [[b r1] [e|]] eqn:E; [apply bodyOk_bad|]. apply ReadByte_None in E as (Hav & Hf).
  destruct (ReadFull r1 _) as [[p r2] [e|]] eqn:E2; [apply bodyOk_bad|]. apply ReadFull_None in E2 as (Hav2 & Hl2 & Hf2).
  apply (bodyOk_good _ _ _ _ _ _ _ (b :: p)); [by rewrite Hav, Hav2|congruence|]. intros _ Hn.
  rewrite Hav in Hok. apply Forall_cons in Hok as [Hb _].
  split; [cbn [length]; rewrite u32_sub in Hl2 by lia; case_decide; [lia|destruct Hn; split; [done|lia]]|].
  left. exists (AExtended b p). split_and!; done || lia.
Qed.

Lemma decodePort_ok cap len r : in_u32 len → bytes_ok (avail r) →
  bodyOk cap Port len r
    (Ok (match ReadFull r 2 with
         | (b, r', None) => Good (mkMessage false Port 0 0 0 [] [] 0 [] (be_decode b), u32 (len - 2), r')
         | (_, _, Some e) => Bad (IOError e)
         end)).
Proof.
  intros Hlen Hok. destruct (ReadFull r 2) as [[b r'] [e|]] eqn:E; [apply bodyOk_bad|]. apply ReadFull_None in E as (Hav & Hl & Hf).
  apply (bodyOk_good _ _ _ _ _ _ _ b); [done|done|]. intros Hrem _. apply u32_none in Hrem; [|done|lia].
  rewrite Hav in Hok. apply bytes_ok_app in Hok as [Hb _]. split; [lia|]. left. exists (APort (be_decode b)).
  pose proof (be_decode_range b Hb) as Hr. rewrite Hl in Hr. pose proof (be_encode_decode b Hb) as He. rewrite Hl in He.
  split_and!; done || lia.
Qed.

Lemma decodeBody_ok d cap c len r : Pool d = Some cap → 0 ≤ cap < 2 ^ 32 - 8 → in_u32 len → bytes_ok (avail r) →
  bodyOk cap c len r (decodeBody d (set_type Message0 c) len r).
Proof.
  intros Hpool Hcap Hlen Hok. unfold decodeBody. cbn [Type_ set_type].
  destruct (in_types c [Choke; Unchoke; Interested; NotInterested; HaveAll; HaveNone]) eqn:E1.
  { apply (bodyOk_good _ _ _ _ _ _ _ []); [done|done|]. intros -> _. split; [done|]. left. exists (ASimple c). split_and!; done. }
  destruct (in_types c [Have; AllowedFast; Suggest]) eqn:E2; [by apply decodeFixed_ok|].
  destruct (in_types c [Request; Cancel; Reject]) eqn:E3; [by apply decodeFixed_ok|].
  destruct (Z.eqb_spec c Bitfield) as [->|_]; [apply decodeBitfield_ok; [lia|done]|].
  destruct (Z.eqb_spec c Piece) as [->|_]; [rewrite Hpool; by apply decodePiece_ok|].
  destruct (Z.eqb_spec c Extended) as [->|_]; [by apply decodeExtended_ok|].
  destruct (Z.eqb_spec c Port) as [->|_]; [by apply decodePort_ok|apply bodyOk_bad].
Qed.
End Framing.

(** An extended message that declares one byte has no room for its id:
    the decoder's 32-bit count of remaining bytes wraps, the id is taken from
    the next frame, and the payload it allocates and reads is 2^32 - 1 bytes
    long, whatever [MaxLength] is. *)
Theorem decode_extended_underflow d m id rest f :
  1 ≤ MaxLength d →
  Decode d m (mkSource ([0; 0; 0; 1; Extended; id] ++ rest) f) =
  Ok (match ReadFull (mkSource rest f) (Z.to_nat (2 ^ 32 - 1)) with
      | (p, r2, None) =>
          Good (mkMessage (Keepalive m) Extended (Index m) (Begin m) (Length m) (PieceData m)
                  (BitfieldBits m) id p (PortNum m), r2)
      | (_, _, Some e) => Bad (IOError (if decide (e = EOF) then ErrUnexpectedEOF else e))
      end).
Proof.
  intros Hmax. unfold Decode.
  assert (Hi : Integer_Read (mkSource ([0; 0; 0; 1; Extended; id] ++ rest) f) =
    Good (1, mkSource (Extended :: id :: rest) f)) by reflexivity.
  rewrite Hi. rewrite (proj2 (Z.ltb_ge _ _)) by done.
  change (1 =? 0) with false. cbn [ReadByte avail fin].
  change (u32 (1 - 1)) with 0. pick_case. cbn [ReadByte avail fin].
  change (u32 (0 - 1)) with (2 ^ 32 - 1).
  destruct (ReadFull (mkSource rest f) _) as [[p r2] [e|]]; done.
Qed.

Lemma decode_extended_underflow_witness :
  1 ≤ MaxLength (mkDecoder (Some 16384) 65536) ∧
  Decode (mkDecoder (Some 16384) 65536) Message0 (mkSource ([0; 0; 0; 1; Extended; 3] ++ []) EOF) =
  Ok (match ReadFull (mkSource [] EOF) (Z.to_nat (2 ^ 32 - 1)) with
      | (p, r2, None) => Good (mkMessage false Extended 0 0 0 [] [] 3 p 0, r2)
      | (_, _, Some e) => Bad (IOError (if decide (e = EOF) then ErrUnexpectedEOF else e))
      end).
Proof.
  split; [cbn; lia|].
  apply (decode_extended_underflow (mkDecoder (Some 16384) 65536) Message0 3 [] EOF). cbn; lia.
Defined.

(** [Message.UnmarshalBinary] builds its decoder without a [MaxLength],
    so the only input it accepts is the keepalive frame; every other message
    is refused as too long. *)
Theorem unmarshalBinary_only_keepalive me b m :
  bytes_ok b → UnmarshalBinary me b = Ok (Good m) → b = [0; 0; 0; 0] ∧ Keepalive m = true.
Proof.
  intros Hok H. unfold UnmarshalBinary in H. inv_go.
  unfold Decode in Hx. destruct (Integer_Read _) as [[len r0]|] eqn:E; cycle 1.
  { by injection Hx as <-. }
  apply Integer_Read_Good in E as (hd & Hb & Hl & -> & _). cbn [avail] in Hb. subst b.
  apply bytes_ok_app in Hok as [Hhd _]. pose proof (be_decode_range hd Hhd) as Hr.
  cbn [MaxLength] in Hx. destruct (Z.ltb_spec 0 (be_decode hd)); [by injection Hx as <-|].
  assert (Hz : be_decode hd = 0) by lia. rewrite Hz in Hx. injection Hx as <-.
  destruct (avail r0); [|done]. injection H as <-. split; [|done].
  rewrite app_nil_r, <- (be_encode_decode hd Hhd), Hz, Hl. reflexivity.
Qed.

Lemma unmarshalBinary_only_keepalive_witness :
  UnmarshalBinary Message0 [0; 0; 0; 0] = Ok (Good (concr AKeepalive)) ∧
  [0; 0; 0; 0] = [0; 0; 0; 0] ∧ Keepalive (concr AKeepalive) = true.
Proof.
  split; [reflexivity|].
  apply (unmarshalBinary_only_keepalive Message0 [0; 0; 0; 0] (concr AKeepalive)).
  - by_decide.
  - reflexivity.
Defined.

Example unmarshalBinary_interested_rejected :
  UnmarshalBinary Message0 (MarshalBinary (concr (ASimple Interested))).1 =
  Ok (Bad (DecodeFailed MessageTooLong)).
Proof. reflexivity. Qed.

(** The source ends inside a message, and the error is a plain EOF. *)
Example decode_eof_inside_message :
  Decode (mkDecoder (Some 16384) 65536) Message0 (mkSource [0; 0; 0; 5; Have] EOF) =
  Ok (Bad (IOError EOF)).
Proof. reflexivity. Qed.

(** The bytes of a message that fits the decoder's limits: those that
    [MarshalBinary] writes, or a message of the fast extension with an index. *)
Definition isFrame (d : Decoder) (m : Message) (frame : list Z) : Prop :=
  (∃ a, wf_amsg a ∧ fits d a ∧ received a = a ∧ m = concr a ∧ frame = (MarshalBinary m).1) ∨
  (∃ t i, in_types t [AllowedFast; Suggest] = true ∧ in_u32 i ∧ 5 ≤ MaxLength d ∧
     m = set_ints (set_type Message0 t) i 0 0 ∧ frame = be_encode 4 5 ++ t :: be_encode 4 i).

Lemma Decode_isFrame d m frame rest f : MaxLength d < 2 ^ 32 → isFrame d m frame →
  Decode d Message0 (mkSource (frame ++ rest) f) = Ok (Good (m, mkSource rest f)).
Proof.
  intros H32 [(a & Hwf & Hfit & Hr & -> & ->)|(t & i & Ht & Hi & Hmax & -> & ->)].
  - by rewrite decode_encode, Hr.
  - change (be_encode 4 5) with (be_encode 4 (u32 (Z.of_nat (length (t :: be_encode 4 i))))). rewrite <- app_assoc.
    rewrite Decode_frame by (rewrite ?length_be_encode; lia). rewrite length_be_encode.
    type_cases Ht; pick_case; by rewrite Integer_Read_app.
Qed.

Lemma bodyOf_frame d cap c m p : Pool d = Some cap → Z.of_nat (S (length p)) ≤ MaxLength d < 2 ^ 32 → bodyOf cap c m p →
  isFrame d m (be_encode 4 (Z.of_nat (S (length p))) ++ c :: p).
Proof.
  intros Hpool Hmax [(a & Hwf & Hk & Hr & <- & -> & -> & Hcap)|(i & Hc & Hi & -> & ->)]; [left|right].
  - exists a. pose proof (MarshalBinary_frame a Hwf Hk) as Hm. cbn [length] in Hm. rewrite u32_small in Hm by lia.
    rewrite Hm. split; [done|]. split; [|by split_and!]. unfold fits. rewrite Hm. cbn [fst]. rewrite length_app, length_be_encode. cbn [length].
    split; [lia|]. destruct a; eauto.
  - exists c, i. rewrite length_be_encode in Hmax |- *. split_and!; done || lia.
Qed.

(** What [Decode] does with any bytes: it does not panic, it takes at least one
    byte for a message, and what it takes is the frame of the message. *)
Lemma Decode_sound d r cap :
  bytes_ok (avail r) → Pool d = Some cap → 0 ≤ cap < 2 ^ 32 - 8 → MaxLength d < 2 ^ 32 →
  ∃ res, Decode d Message0 r = Ok res ∧ ∀ m r', res = Good (m, r') →
    ∃ frame, avail r = frame ++ avail r' ∧ fin r' = fin r ∧ frame ≠ [] ∧
      (take 5 (avail r) ≠ [0; 0; 0; 1; Extended] → isFrame d m frame).
Proof.
  intros Hok Hpool Hcap H32. unfold Decode. destruct (Integer_Read r) as [[len r0]|] eqn:E; [|by eexists].
  apply Integer_Read_Good in E as (b & Hb & Hl & -> & Hf). rewrite Hb in Hok |- *. apply bytes_ok_app in Hok as [Hob Hor].
  pose proof (be_decode_range b Hob) as Hr. pose proof (be_encode_decode b Hob) as He. rewrite Hl in Hr, He. change (256 ^ Z.of_nat 4) with (2 ^ 32) in Hr.
  assert (Hbne : b ≠ []) by (by intros ->).
  destruct (Z.ltb_spec (MaxLength d) (be_decode b)) as [|Hmax]; [by eexists|].
  destruct (Z.eqb_spec (be_decode b) 0) as [H0|H0].
  { eexists. split; [done|]. intros m r' [= <- <-]. exists b. split_and!; [done|done|done|]. intros _. left. exists AKeepalive.
    split_and!; try done; [split; [change (0 ≤ MaxLength d < 2 ^ 32); lia|done]|by rewrite <- He, H0]. }
  destruct (ReadByte r0) as [[c r1] [e|]] eqn:E1; [by eexists|]. apply ReadByte_None in E1 as (H1 & Hf1).
  rewrite H1 in Hor |- *. apply Forall_cons in Hor as [Hc Hor]. rewrite u32_small by lia.
  destruct (decodeBody_ok d cap c (be_decode b - 1) r1 Hpool Hcap ltac:(lia) Hor) as (res & -> & Hres). cbn [mbind go_bind].
  eexists. split; [done|]. intros m r' Hg. destruct res as [[[m1 rem] r2]|]; [|done].
  destruct (Hres m1 rem r2 eq_refl) as (p & Hp & Hfp & Hbody). destruct (Z.eqb_spec rem 0) as [Hrem|]; [|done]. injection Hg as <- <-.
  exists (b ++ c :: p). split_and!; [by rewrite Hp, <- app_assoc|congruence|by destruct b|]. intros Hne.
  destruct (Hbody Hrem) as [Hlp Hof].
  { intros [-> Hz]. apply Hne. assert (Hone : be_decode b = 1) by lia. rewrite <- He, Hone. done. }
  assert (Hlen : Z.of_nat (S (length p)) = be_decode b) by lia. rewrite <- He, <- Hlen. by apply (bodyOf_frame d cap); [|lia|].
Qed.

(** C19.  Whatever bytes arrive, [Decode] with a pool of chunk buffers does not
    panic, and every message takes bytes from the source, so that a loop of
    [Decode] calls on a finite stream ends.  It accepts exactly the frames that
    fit its limits: it succeeds if and only if the source starts with the bytes
    of a well-formed message (of those that [MarshalBinary] writes, or
    [Suggest] and [AllowedFast] with an index), gives that message and leaves
    what follows the frame.  (The exception is [decode_extended_underflow]: an
    extended message that declares one byte.) *)
Theorem decode_accepts_frames d r cap :
  bytes_ok (avail r) → Pool d = Some cap → 0 ≤ cap < 2 ^ 32 - 8 → MaxLength d < 2 ^ 32 →
  ∃ res, Decode d Message0 r = Ok res ∧
    (∀ m r', res = Good (m, r') → (length (avail r') < length (avail r))%nat) ∧
    (take 5 (avail r) ≠ [0; 0; 0; 1; Extended] → ∀ m r',
       res = Good (m, r') ↔ ∃ frame, isFrame d m frame ∧ avail r = frame ++ avail r' ∧ fin r' = fin r).
Proof.
  intros Hok Hpool Hcap H32. destruct (Decode_sound d r cap Hok Hpool Hcap H32) as (res & E & Hs). exists res. split_and!; [done| |].
  - intros m r' Hg. destruct (Hs m r' Hg) as (frame & -> & _ & Hne & _). rewrite length_app. destruct frame; [done|cbn; lia].
  - intros Hne m r'. split.
    + intros Hg. destruct (Hs m r' Hg) as (frame & Hav & Hf & _ & Hfr). exists frame. split_and!; [by apply Hfr|done|done].
    + intros (frame & Hfr & Hav & Hf). pose proof (Decode_isFrame d m frame (avail r') (fin r) H32 Hfr) as Hd.
      rewrite <- Hav in Hd. destruct r as [av fi], r' as [av' fi']. cbn in *. subst fi'. congruence.
Qed.

Lemma decode_accepts_frames_witness :
  ∃ res, Decode (mkDecoder (Some 16384) 65536) Message0 (mkSource [0; 0; 0; 5; 4; 0; 0; 1; 2; 99] EOF) = Ok res ∧
    ∀ m r', res = Good (m, r') ↔
      ∃ frame, isFrame (mkDecoder (Some 16384) 65536) m frame ∧ [0; 0; 0; 5; 4; 0; 0; 1; 2; 99] = frame ++ avail r' ∧ fin r' = EOF.
Proof.
  destruct (decode_accepts_frames (mkDecoder (Some 16384) 65536) (mkSource [0; 0; 0; 5; 4; 0; 0; 1; 2; 99] EOF) 16384)
    as (res & E & _ & H); [by_decide|reflexivity|lia|cbn; lia|].
  exists res. split; [exact E|]. apply H. discriminate.
Defined.
