(* ===== verification/Metainfo.v ===== *)
(** Metainfo: src/metainfo/{info,fileinfo,piece,pieces,piece-length,announcelist,metainfo}.go
    and [validateInfo] of src/misc.go.

    [Info] is the info dictionary; its [int64] fields are [Z] and sums wrap
    as Go's do. *)
From stdpp Require Import base numbers list strings gmap.
From Stdlib Require Import ZArith Lia.
From S2P Require Import Prelude.
Open Scope Z_scope.

(** ** Data *)
Record FileInfo : Type := mkFileInfo {
  fiLength : Z;
  fiPath : list string;
  fiPathUtf8 : list string
}.

Record Info : Type := mkInfo {
  PieceLength : Z;
  Pieces : list Z;
  Name : string;
  NameUtf8 : string;
  infoLength : Z;
  Files : list FileInfo
}.

Definition HashSize : nat := 20.

(** ** info.go *)
Definition IsDir (info : Info) : bool := negb (length (Files info) =? 0)%nat.

(** [ret += fi.Length] over the files. *)
Fixpoint sumLengths (ret : Z) (fs : list FileInfo) : Z :=
  match fs with
  | [] => ret
  | f :: fs => sumLengths (i64 (ret + fiLength f)) fs
  end.

Definition TotalLength (info : Info) : Z :=
  if IsDir info then sumLengths 0 (Files info) else infoLength info.

Definition NumPieces (info : Info) : Z := Z.of_nat (length (Pieces info) / 20).

Definition UpvertedFiles (info : Info) : list FileInfo :=
  if (length (Files info) =? 0)%nat then [mkFileInfo (infoLength info) [] []] else Files info.

Definition BestName (info : Info) : string :=
  if negb (String.eqb (NameUtf8 info) "") then NameUtf8 info else Name info.

(** ** piece.go *)
Definition Piece_Length (info : Info) (i : Z) : Z :=
  if i =? NumPieces info - 1 then i64 (TotalLength info - i64 (i * PieceLength info))
  else PieceLength info.

Definition Piece_Offset (info : Info) (i : Z) : Z := i64 (i * PieceLength info).

(** A slice expression out of range panics. *)
Definition Piece_Hash (info : Info) (i : nat) : go (list Z) :=
  _ ← guard_go ((i + 1) * HashSize <=? length (Pieces info))%nat "slice bounds out of range";
  Ok (take HashSize (drop (i * HashSize) (Pieces info))).

(** [infoPieceHashes] of torrent.go; the last slice panics when the pieces
    string is not a multiple of 20 long. *)
Fixpoint infoPieceHashes (fuel : nat) (pieces : list Z) : go (list (list Z)) :=
  match fuel, pieces with
  | _, [] => Ok []
  | O, _ => Panic "out of fuel"
  | S fuel, _ =>
      _ ← guard_go (HashSize <=? length pieces)%nat "slice bounds out of range";
      rest ← infoPieceHashes fuel (drop HashSize pieces);
      Ok (take HashSize pieces :: rest)
  end.

(** ** fileinfo.go *)
Definition BestPath (fi : FileInfo) : list string :=
  if negb (length (fiPathUtf8 fi) =? 0)%nat then fiPathUtf8 fi else fiPath fi.

(** [strings.Join]. *)
Fixpoint Join (elems : list string) (sep : string) : string :=
  match elems with
  | [] => ""
  | [s] => s
  | s :: rest => s +:+ sep +:+ Join rest sep
  end.

Definition DisplayPath (fi : FileInfo) (info : Info) : string :=
  if IsDir info then Join (BestPath fi) "/" else BestName info.

Fixpoint offsetLoop (me : FileInfo) (info : Info) (ret : Z) (fs : list FileInfo) : go Z :=
  match fs with
  | [] => Panic "not found"
  | fi :: fs =>
      if String.eqb (DisplayPath me info) (DisplayPath fi info) then Ok ret
      else offsetLoop me info (i64 (ret + fiLength fi)) fs
  end.

Definition FileInfo_Offset (me : FileInfo) (info : Info) : go Z :=
  offsetLoop me info 0 (UpvertedFiles info).

(** ** piece-length.go *)
Definition minimumPieceLength : Z := 16 * 1024.
Definition targetPieceCountMin : Z := Z.shiftl 1 10.
Definition targetPieceCountMax : Z := Z.shiftl targetPieceCountMin 1.

Fixpoint choosePieceLengthLoop (fuel : nat) (pieceLength pieces : Z) : option Z :=
  match fuel with
  | O => None
  | S fuel =>
      if targetPieceCountMax <=? pieces
      then choosePieceLengthLoop fuel (i64 (Z.shiftl pieceLength 1)) (Z.shiftr pieces 1)
      else Some pieceLength
  end.

(** 64 rounds are enough for every [int64]: [choosePieceLength_spec]. *)
Definition ChoosePieceLength (totalLength : Z) : option Z :=
  choosePieceLengthLoop 64 minimumPieceLength (Z.quot totalLength minimumPieceLength).

(** ** announcelist.go, metainfo.go *)
Definition OverridesAnnounce (al : list (list string)) (announce : string) : bool :=
  existsb (existsb (λ url, negb (String.eqb url "") || String.eqb announce "")) al.

Fixpoint distinctLoop (seen : gset string) (vs : list string) : list string :=
  match vs with
  | [] => []
  | v :: vs =>
      if decide (v ∈ seen) then distinctLoop seen vs
      else v :: distinctLoop ({[v]} ∪ seen) vs
  end.

Definition DistinctValues (al : list (list string)) : list string := distinctLoop ∅ (concat al).

Definition UpvertedAnnounceList (announceList : list (list string)) (announce : string) :
    list (list string) :=
  if OverridesAnnounce announceList announce then announceList
  else if negb (String.eqb announce "") then [[announce]] else [].

(** ** validateInfo of misc.go *)
Inductive InfoErr : Type :=
| PiecesHasInvalidLength
| ZeroPieceLength
| PieceCountAndFileLengthsAtOdds.

Definition validateInfo (info : Info) : option InfoErr :=
  if negb (length (Pieces info) mod 20 =? 0)%nat then Some PiecesHasInvalidLength
  else if PieceLength info =? 0 then
    if negb (TotalLength info =? 0) then Some ZeroPieceLength else None
  else if negb (Z.quot (i64 (i64 (TotalLength info + PieceLength info) - 1)) (PieceLength info)
                =? NumPieces info)
  then Some PieceCountAndFileLengthsAtOdds
  else None.

(** ** Properties *)
Section PieceLengths.
Lemma choosePieceLengthLoop_spec total : ∀ fuel k,
  0 ≤ total < 2 ^ 63 → 0 ≤ k → (0 < fuel)%nat →
  let pl := minimumPieceLength * 2 ^ k in
  total / pl < 2 ^ (10 + Z.of_nat fuel) →
  (k = 0 ∨ 1024 ≤ total / pl) →
  ∃ k', 0 ≤ k' ∧
    choosePieceLengthLoop fuel pl (total / pl) = Some (minimumPieceLength * 2 ^ k') ∧
    total / (minimumPieceLength * 2 ^ k') < 2048 ∧
    (k' = 0 ∨ 1024 ≤ total / (minimumPieceLength * 2 ^ k')).
Proof.
  induction fuel as [|fuel IH]; intros k Ht Hk Hf pl Hlt Hlo; [lia|].
  cbn [choosePieceLengthLoop]. change targetPieceCountMax with 2048.
  assert (Hpl : 0 < pl) by (unfold pl, minimumPieceLength; nia).
  destruct (Z.leb_spec 2048 (total / pl)) as [Hge|Hge]; [|eauto].
  destruct fuel as [|fuel]; [change (2 ^ (10 + Z.of_nat 1)) with 2048 in Hlt; lia|].
  assert (Hmul : 2048 * pl ≤ total) by (pose proof (Z.mul_div_le total pl Hpl); nia).
  assert (Hsh : i64 (Z.shiftl pl 1) = minimumPieceLength * 2 ^ (k + 1)).
  { rewrite Z.shiftl_mul_pow2, i64_small by lia. rewrite Z.pow_add_r by lia. unfold pl. ring. }
  assert (Hhalf : Z.shiftr (total / pl) 1 = total / (minimumPieceLength * 2 ^ (k + 1))).
  { rewrite Z.shiftr_div_pow2, Z.div_div by lia. f_equal. rewrite Z.pow_add_r by lia. unfold pl. ring. }
  rewrite Hsh, Hhalf. apply IH; [done|lia|lia| |].
  - rewrite <- Hhalf, Z.shiftr_div_pow2 by lia. apply Z.div_lt_upper_bound; [lia|].
    rewrite <- Z.pow_add_r by lia. eapply Z.lt_le_trans; [exact Hlt|].
    apply Z.pow_le_mono_r; lia.
  - right. rewrite <- Hhalf, Z.shiftr_div_pow2 by lia. apply Z.div_le_lower_bound; lia.
Qed.

(** [ChoosePieceLength] returns for every torrent length; the result is
    16 KiB times a power of two, gives fewer than 2048 whole pieces, and at
    least 1024 of them unless it is the minimum. *)
Theorem choosePieceLength_spec total :
  0 ≤ total < 2 ^ 63 →
  ∃ k, 0 ≤ k ∧ ChoosePieceLength total = Some (minimumPieceLength * 2 ^ k) ∧
    total / (minimumPieceLength * 2 ^ k) < targetPieceCountMax ∧
    (k = 0 ∨ targetPieceCountMin ≤ total / (minimumPieceLength * 2 ^ k)).
Proof.
  intros Ht. unfold ChoosePieceLength.
  rewrite Z.quot_div_nonneg by (unfold minimumPieceLength; lia).
  apply (choosePieceLengthLoop_spec total 64 0); [done|lia|lia| |by left].
  apply Z.div_lt_upper_bound; [unfold minimumPieceLength; lia|].
  unfold minimumPieceLength. lia.
Qed.
End PieceLengths.

Lemma choosePieceLength_spec_witness :
  ∃ k, 0 ≤ k ∧ ChoosePieceLength 5000000000 = Some (minimumPieceLength * 2 ^ k) ∧
    5000000000 / (minimumPieceLength * 2 ^ k) < targetPieceCountMax ∧
    (k = 0 ∨ targetPieceCountMin ≤ 5000000000 / (minimumPieceLength * 2 ^ k)).
Proof. apply (choosePieceLength_spec 5000000000). lia. Defined.

(** ** Pieces of a valid info *)
Record info_ok (info : Info) : Prop := {
  io_valid : validateInfo info = None;
  io_pl : 0 < PieceLength info;
  io_total : 0 ≤ TotalLength info;
  io_width : TotalLength info + PieceLength info < 2 ^ 63
}.

Section ValidInfo.
Context (info : Info) (Hok : info_ok info).

Lemma NumPieces_ceil :
  NumPieces info = (TotalLength info + PieceLength info - 1) / PieceLength info.
Proof.
  destruct Hok as [Hv Hpl Ht Hw]. unfold validateInfo in Hv.
  destruct (_ =? _)%nat; [|done]. cbn [negb] in Hv.
  destruct (Z.eqb_spec (PieceLength info) 0); [lia|].
  destruct (Z.eqb_spec (Z.quot (i64 (i64 (TotalLength info + PieceLength info) - 1)) (PieceLength info))
              (NumPieces info)) as [<-|]; [|done].
  rewrite (i64_small (TotalLength info + PieceLength info)), i64_small by lia.
  by rewrite Z.quot_div_nonneg by lia.
Qed.

Lemma NumPieces_bounds :
  TotalLength info ≤ NumPieces info * PieceLength info < TotalLength info + PieceLength info.
Proof. rewrite NumPieces_ceil. apply ceil_div_bounds, Hok. Qed.

(** Where piece [i] starts, capped at the end of the data. *)
Definition pieceStart (i : Z) : Z := Z.min (i * PieceLength info) (TotalLength info).

Lemma Piece_Length_start i :
  0 ≤ i < NumPieces info → Piece_Length info i = pieceStart (i + 1) - pieceStart i.
Proof.
  intros Hi. pose proof NumPieces_bounds. destruct Hok as [_ Hpl Ht Hw].
  unfold Piece_Length, pieceStart.
  destruct (Z.eqb_spec i (NumPieces info - 1)) as [->|Hne].
  - assert (0 ≤ (NumPieces info - 1) * PieceLength info ≤ TotalLength info) by nia.
    replace (NumPieces info - 1 + 1) with (NumPieces info) by lia.
    rewrite (i64_small ((NumPieces info - 1) * PieceLength info)), i64_small by lia. lia.
  - assert ((i + 1) * PieceLength info ≤ (NumPieces info - 1) * PieceLength info) by nia. lia.
Qed.

Lemma Piece_bounds i :
  0 ≤ i < NumPieces info →
  Piece_Offset info i = i * PieceLength info ∧
  0 < Piece_Length info i ≤ PieceLength info ∧
  Piece_Offset info i + Piece_Length info i ≤ TotalLength info.
Proof.
  intros Hi. pose proof NumPieces_bounds. rewrite Piece_Length_start by done.
  destruct Hok as [_ Hpl Ht Hw]. unfold Piece_Offset, pieceStart.
  assert (i * PieceLength info ≤ (NumPieces info - 1) * PieceLength info) by nia.
  rewrite i64_small by nia. lia.
Qed.

(** The pieces of an info that [validateInfo] accepts tile the torrent:
    every piece is non-empty, at most a piece length long and within the
    data, and the lengths add up to the total length. *)
Theorem pieces_tile_torrent :
  (∀ i, 0 ≤ i < NumPieces info →
     Piece_Offset info i = i * PieceLength info ∧
     0 < Piece_Length info i ≤ PieceLength info ∧
     Piece_Offset info i + Piece_Length info i ≤ TotalLength info) ∧
  Zsum (map (Piece_Length info) (seqZ 0 (NumPieces info))) = TotalLength info.
Proof.
  split; [apply Piece_bounds|].
  rewrite (Zsum_ext _ (λ i, pieceStart (i + 1) - pieceStart i)).
  - rewrite Zsum_telescope by (unfold NumPieces; lia).
    pose proof NumPieces_bounds. destruct Hok. unfold pieceStart. lia.
  - intros i Hi%in_seqZ. apply Piece_Length_start. lia.
Qed.
End ValidInfo.

Definition exampleInfo : Info := mkInfo 32768 (replicate 60 7) "f" "" 70000 [].

Lemma exampleInfo_ok : info_ok exampleInfo.
Proof. split; vm_compute; congruence || (split; congruence) || reflexivity. Defined.

Lemma pieces_tile_torrent_witness :
  Zsum (map (Piece_Length exampleInfo) (seqZ 0 (NumPieces exampleInfo))) = 70000.
Proof. apply (pieces_tile_torrent exampleInfo exampleInfo_ok). Defined.

(** ** Piece hashes *)
Section Hashes.
Lemma infoPieceHashes_ok : ∀ n fuel pieces,
  length pieces = (n * 20)%nat → (n ≤ fuel)%nat →
  ∃ hs, infoPieceHashes fuel pieces = Ok hs ∧ length hs = n ∧
    ∀ i h, hs !! i = Some h → h = take HashSize (drop (i * HashSize) pieces).
Proof.
  induction n as [|n IH]; intros fuel pieces Hlen Hf.
  { destruct pieces; [|done]. exists []. by destruct fuel. }
  destruct fuel as [|fuel]; [lia|]. destruct pieces as [|x pieces]; [done|].
  cbn [infoPieceHashes]. set (ps := x :: pieces) in *.
  destruct (IH fuel (drop HashSize ps)) as (hs & -> & Hl & Hhs).
  { rewrite length_drop. unfold HashSize. lia. } { lia. }
  rewrite (proj2 (Nat.leb_le HashSize (length ps))) by (unfold HashSize; lia).
  exists (take HashSize ps :: hs). split_and!; [done|cbn; lia|].
  intros [|i] h Hi; cbn in Hi.
  - by injection Hi as <-.
  - rewrite (Hhs i h Hi), drop_drop. do 2 f_equal.
Qed.

(** For an info that [validateInfo] accepts, cutting the pieces string
    into hashes never slices out of range, gives one hash per piece, and hash
    [i] is the one [metainfo.Piece.Hash] returns. *)
Theorem infoPieceHashes_agree info :
  validateInfo info = None →
  ∃ hs, infoPieceHashes (length (Pieces info)) (Pieces info) = Ok hs ∧
    Z.of_nat (length hs) = NumPieces info ∧
    ∀ i h, hs !! i = Some h → Piece_Hash info i = Ok h ∧ length h = HashSize.
Proof.
  intros Hv. unfold validateInfo in Hv.
  destruct (Nat.eqb_spec (length (Pieces info) mod 20) 0) as [Hm|]; [|done]. clear Hv.
  pose proof (Nat.div_mod_eq (length (Pieces info)) 20) as Hd.
  destruct (infoPieceHashes_ok (length (Pieces info) / 20) (length (Pieces info)) (Pieces info))
    as (hs & Hh & Hl & Hhs); [lia|lia|].
  exists hs. split_and!; [done|unfold NumPieces; lia|].
  intros i h Hi. pose proof (lookup_lt_Some _ _ _ Hi).
  rewrite (Hhs i h Hi). unfold Piece_Hash.
  rewrite (proj2 (Nat.leb_le _ _)) by (unfold HashSize; lia). split; [done|].
  rewrite length_take, length_drop. unfold HashSize. lia.
Qed.
End Hashes.

Lemma infoPieceHashes_agree_witness :
  ∃ hs, infoPieceHashes (length (Pieces exampleInfo)) (Pieces exampleInfo) = Ok hs ∧
    Z.of_nat (length hs) = NumPieces exampleInfo ∧
    ∀ i h, hs !! i = Some h → Piece_Hash exampleInfo i = Ok h ∧ length h = HashSize.
Proof. apply (infoPieceHashes_agree exampleInfo). reflexivity. Defined.

(** ** Announce lists *)
Section AnnounceLists.
Lemma distinctLoop_spec vs : ∀ seen,
  NoDup (distinctLoop seen vs) ∧ sublist (distinctLoop seen vs) vs ∧
  ∀ v, v ∈ distinctLoop seen vs ↔ v ∈ vs ∧ v ∉ seen.
Proof.
  induction vs as [|v vs IH]; intros seen; cbn [distinctLoop].
  { split_and!; [constructor|constructor|set_solver]. }
  case_decide as Hin.
  - destruct (IH seen) as (?&?&Hm). split_and!; [done|by constructor|].
    intros w. rewrite Hm. set_solver.
  - destruct (IH ({[v]} ∪ seen)) as (?&?&Hm). split_and!.
    + constructor; [|done]. rewrite Hm. set_solver.
    + by constructor.
    + intros w. rewrite !elem_of_cons, Hm. destruct (decide (w = v)); set_solver.
Qed.

Lemma DistinctValues_spec al :
  NoDup (DistinctValues al) ∧ sublist (DistinctValues al) (concat al) ∧
  ∀ v, v ∈ DistinctValues al ↔ v ∈ concat al.
Proof.
  destruct (distinctLoop_spec (concat al) ∅) as (?&?&H). split_and!; [done..|].
  intros v. unfold DistinctValues. rewrite H. set_solver.
Qed.
End AnnounceLists.
