(* ===== verification/Geometry.v ===== *)
(** Pieces, chunks, requests and byte regions: the arithmetic of
    src/misc.go, src/torrent.go, src/piece.go, src/file.go, src/types/types.go
    and src/request-strategy/order.go.

    [Geo] holds the fields of [Torrent] that this arithmetic reads.  Indices
    and lengths keep their Go widths: [pp.Integer] and [RequestIndex] are
    32-bit and wrap, piece indices and byte offsets are 64-bit. *)
From stdpp Require Import base numbers list strings gmap.
From Stdlib Require Import ZArith Lia.
From S2P Require Import Prelude Metainfo Wire.
Open Scope Z_scope.

(** ** types.go *)
Record ChunkSpec : Type := mkChunkSpec { csBegin : Z; csLength : Z }.
Record Req : Type := mkReq { rIndex : Z; rChunk : ChunkSpec }.
Abbreviation rBegin r := (csBegin (rChunk r)).
Abbreviation rLength r := (csLength (rChunk r)).

#[export] Instance ChunkSpec_eq_dec : EqDecision ChunkSpec.
Proof. solve_decision. Defined.
#[export] Instance Req_eq_dec : EqDecision Req.
Proof. solve_decision. Defined.
#[export] Instance Req_countable : Countable Req.
Proof.
  refine (inj_countable' (λ r, (rIndex r, rBegin r, rLength r))
    (λ '(i, b, l), mkReq i (mkChunkSpec b l)) _). by intros [i [b l]].
Defined.

Definition ToMsg (r : Req) (mt : Z) : Message :=
  set_ints (set_type Message0 mt) (rIndex r) (rBegin r) (rLength r).

(** ** misc.go *)
Definition newRequest (index begin length : Z) : Req := mkReq index (mkChunkSpec begin length).

Definition newRequestFromMessage (msg : Message) : go Req :=
  if in_types (Type_ msg) [Request; Cancel; Reject]
  then Ok (newRequest (Index msg) (Begin msg) (Length msg))
  else if Type_ msg =? Piece
  then Ok (newRequest (Index msg) (Begin msg) (u32 (Z.of_nat (length (PieceData msg)))))
  else Panic "message type".

(** The size in bytes of a metadata extension piece. *)
Definition metadataPieceSize (totalSize piece : Z) : Z :=
  let ret := i64 (totalSize - i64 (piece * 2 ^ 14)) in
  if 2 ^ 14 <? ret then 2 ^ 14 else ret.

(** The request that would include the given offset into the torrent data;
    [None] is [!ok]. *)
Definition torrentOffsetRequest (torrentLength pieceSize chunkSize offset : Z) : option Req :=
  if (offset <? 0) || (torrentLength <=? offset) then None
  else
    let index := u32 (Z.quot offset pieceSize) in
    let begin := u32 (i64 (Z.quot (Z.rem offset pieceSize) chunkSize * chunkSize)) in
    let length := u32 chunkSize in
    let pieceLeft := u32 (i64 (pieceSize - begin)) in
    let length := if pieceLeft <? length then pieceLeft else length in
    let torrentLeft := i64 (i64 (torrentLength - i64 (index * pieceSize)) - begin) in
    let length := if torrentLeft <? length then u32 torrentLeft else length in
    Some (newRequest index begin length).

Definition torrentRequestOffset (torrentLength pieceSize : Z) (r : Req) : go Z :=
  let off := i64 (i64 (rIndex r * pieceSize) + rBegin r) in
  if (off <? 0) || (torrentLength <=? off) then Panic "invalid Request" else Ok off.

Definition chunkIndexSpec (index pieceLength chunkSize : Z) : ChunkSpec :=
  let begin := u32 (index * chunkSize) in
  if pieceLength <? u32 (begin + chunkSize)
  then mkChunkSpec begin (u32 (pieceLength - begin))
  else mkChunkSpec begin chunkSize.

(** peerconn.go: whether any part of the chunk would lie outside a piece. *)
Definition chunkOverflowsPiece (cs : ChunkSpec) (pieceLength : Z) : bool :=
  if pieceLength <? u32 (csBegin cs + csLength cs) then true
  else if u32 (IntegerMax - csLength cs) <? csBegin cs then true
  else false.

(** ** torrent.go *)
Record Geo : Type := mkGeo {
  ginfo : Info;
  chunkSize : Z;               (** [t.chunkSize] *)
  glength : Z;                 (** [t._length.Value] *)
  chunksPerRegularPiece : Z    (** [t._chunksPerRegularPiece] *)
}.

Definition cacheLength (info : Info) : Z := sumLengths 0 (UpvertedFiles info).

(** What [setInfo] derives from the info. *)
Definition setInfoGeo (info : Info) (chunkSize : Z) : Geo :=
  mkGeo info chunkSize (cacheLength info)
    (u32 (u32 (u32 (PieceLength info) + chunkSize) - 1) / chunkSize).

Definition numPieces (t : Geo) : Z := NumPieces (ginfo t).
Definition usualPieceSize (t : Geo) : Z := PieceLength (ginfo t).

Definition pieceLength (t : Geo) (piece : Z) : Z :=
  if PieceLength (ginfo t) =? 0 then 0
  else
    let last := u32 (Z.rem (glength t) (PieceLength (ginfo t))) in
    if (piece =? numPieces t - 1) && negb (last =? 0) then last
    else u32 (PieceLength (ginfo t)).

Definition pieceNumChunks (t : Geo) (piece : Z) : Z :=
  u32 (u32 (pieceLength t piece + chunkSize t) - 1) / chunkSize t.

Definition numChunks (t : Geo) : Z :=
  if numPieces t =? 0 then 0
  else u32 (u32 (u32 (numPieces t - 1) * chunksPerRegularPiece t)
            + pieceNumChunks t (numPieces t - 1)).

Definition pieceRequestIndexOffset (t : Geo) (piece : Z) : Z :=
  u32 (u32 piece * chunksPerRegularPiece t).

Definition pieceIndexOfRequestIndex (t : Geo) (ri : Z) : Z := ri / chunksPerRegularPiece t.

Definition requestIndexToRequest (t : Geo) (ri : Z) : Req :=
  let index := pieceIndexOfRequestIndex t ri in
  mkReq (u32 index)
    (chunkIndexSpec (ri mod chunksPerRegularPiece t) (pieceLength t index) (chunkSize t)).

Definition requestIndexFromRequest (t : Geo) (r : Req) : Z :=
  u32 (pieceRequestIndexOffset t (rIndex r) + rBegin r / chunkSize t).

Definition chunkIndexFromChunkSpec (cs : ChunkSpec) (chunkSize : Z) : Z := csBegin cs / chunkSize.

Definition requestOffset (t : Geo) (r : Req) : go Z :=
  torrentRequestOffset (glength t) (usualPieceSize t) r.

Definition offsetRequest (t : Geo) (off : Z) : option Req :=
  torrentOffsetRequest (glength t) (PieceLength (ginfo t)) (chunkSize t) off.

(** The range of pieces [begin, end) that contains the extent of bytes. *)
Definition byteRegionPieces (t : Geo) (off size : Z) : Z * Z :=
  if glength t <=? off then (0, 0)
  else
    let '(off, size) := if off <? 0 then (0, i64 (size + off)) else (off, size) in
    if size <=? 0 then (0, 0)
    else
      let pl := PieceLength (ginfo t) in
      let begin := Z.quot off pl in
      let end_ := Z.quot (i64 (i64 (i64 (off + size) + pl) - 1)) pl in
      (begin, if numPieces t <? end_ then numPieces t else end_).

Inductive ChunkErr : Type :=
| TorrentMissingInfo
| ChunkIndexErr (index numPieces : Z)
| ChunkBeginsBeyondEnd (begin pieceLength : Z).

(** [checkValidReceiveChunk]; the torrent may not have its info yet. *)
Definition checkValidReceiveChunk (t : option Geo) (r : Req) : option ChunkErr :=
  match t with
  | None => Some TorrentMissingInfo
  | Some t =>
      if numPieces t <=? rIndex r then Some (ChunkIndexErr (rIndex r) (numPieces t))
      else if pieceLength t (rIndex r) <=? rBegin r
      then Some (ChunkBeginsBeyondEnd (rBegin r) (pieceLength t (rIndex r)))
      else None
  end.

(** ** file.go *)
Record File : Type := mkFile { fOffset : Z; fLength : Z }.

Fixpoint initFilesLoop (offset : Z) (fs : list FileInfo) : list File :=
  match fs with
  | [] => []
  | fi :: fs => mkFile offset (fiLength fi) :: initFilesLoop (i64 (offset + fiLength fi)) fs
  end.

Definition initFiles (info : Info) : list File := initFilesLoop 0 (UpvertedFiles info).

Fixpoint pieceFirstFileIndexLoop (i : nat) (pieceOffset : Z) (files : list File) : nat :=
  match files with
  | [] => 0
  | f :: files =>
      if pieceOffset <? i64 (fOffset f + fLength f) then i
      else pieceFirstFileIndexLoop (S i) pieceOffset files
  end.
Definition pieceFirstFileIndex : Z → list File → nat := pieceFirstFileIndexLoop 0.

Fixpoint pieceEndFileIndexLoop (i : nat) (pieceEndOffset : Z) (files : list File) : nat :=
  match files with
  | [] => 0
  | f :: files =>
      if pieceEndOffset <=? i64 (fOffset f + fLength f) then S i
      else pieceEndFileIndexLoop (S i) pieceEndOffset files
  end.
Definition pieceEndFileIndex : Z → list File → nat := pieceEndFileIndexLoop 0.

Definition BeginPieceIndex (t : Geo) (f : File) : Z :=
  if usualPieceSize t =? 0 then 0 else Z.quot (fOffset f) (usualPieceSize t).

Definition EndPieceIndex (t : Geo) (f : File) : Z :=
  if usualPieceSize t =? 0 then 0
  else Z.quot (i64 (i64 (i64 (fOffset f + fLength f) + usualPieceSize t) - 1)) (usualPieceSize t).

Definition fileBytesLeft (torrentUsualPieceSize fileFirstPieceIndex fileEndPieceIndex
    fileTorrentOffset fileLength : Z) (torrentCompletedPieces : gset Z) : Z :=
  let numPiecesSpanned := fileEndPieceIndex - fileFirstPieceIndex in
  if numPiecesSpanned =? 0 then 0
  else if numPiecesSpanned =? 1 then
    if decide (fileFirstPieceIndex ∈ torrentCompletedPieces) then 0 else fileLength
  else
    let left :=
      if decide (fileFirstPieceIndex ∈ torrentCompletedPieces) then 0
      else i64 (torrentUsualPieceSize - Z.rem fileTorrentOffset torrentUsualPieceSize) in
    let left :=
      if decide (fileEndPieceIndex - 1 ∈ torrentCompletedPieces) then left
      else i64 (left + i64 (i64 (fileTorrentOffset + fileLength)
                            - i64 ((fileEndPieceIndex - 1) * torrentUsualPieceSize))) in
    let completedMiddlePieces :=
      filter (λ p, fileFirstPieceIndex + 1 ≤ p < fileEndPieceIndex - 1) torrentCompletedPieces in
    i64 (left + i64 ((numPiecesSpanned - 2 - Z.of_nat (size completedMiddlePieces))
                     * torrentUsualPieceSize)).

Definition File_bytesLeft (t : Geo) (completed : gset Z) (f : File) : Z :=
  fileBytesLeft (usualPieceSize t) (BeginPieceIndex t f) (EndPieceIndex t f)
    (fOffset f) (fLength f) completed.

Definition byteRegionExclusivePieces (off size pieceSize : Z) : Z * Z :=
  (Z.quot (i64 (i64 (off + pieceSize) - 1)) pieceSize, Z.quot (i64 (off + size)) pieceSize).

(** ** Well-formed geometry

    A valid info whose pieces and chunk counts fit the 32-bit types. *)
Record geo_ok (t : Geo) : Prop := {
  go_info : info_ok (ginfo t);
  go_chunk : 0 < chunkSize t;
  go_piece : PieceLength (ginfo t) + chunkSize t ≤ 2 ^ 32;
  go_len : glength t = TotalLength (ginfo t);
  go_cpp : chunksPerRegularPiece t =
           u32 (u32 (u32 (PieceLength (ginfo t)) + chunkSize t) - 1) / chunkSize t;
  go_fits : NumPieces (ginfo t) * ((PieceLength (ginfo t) + chunkSize t - 1) / chunkSize t) < 2 ^ 32
}.

Lemma sumLengths_range ret fs : in_i64 ret → in_i64 (sumLengths ret fs).
Proof. revert ret. induction fs; intros ret H; cbn; [done|]. auto using i64_range. Qed.

(** [cacheLength] and [TotalLength] agree. *)
Lemma cacheLength_TotalLength info : in_i64 (infoLength info) → cacheLength info = TotalLength info.
Proof.
  intros H. unfold cacheLength, TotalLength, UpvertedFiles, IsDir.
  destruct (length (Files info) =? 0)%nat; cbn [negb]; [|done]. cbn. by rewrite i64_small.
Qed.

Section Chunks.
Context (t : Geo) (Hg : geo_ok t).
Let pl := PieceLength (ginfo t).
Let cs := chunkSize t.

Local Lemma pl_pos : 0 < pl < 2 ^ 32.
Proof. destruct Hg as [[] ? ? ? ? ?]. unfold pl. lia. Qed.
Local Lemma cs_pos : 0 < cs < 2 ^ 32.
Proof. pose proof pl_pos. destruct Hg as [[] ? ? ? ? ?]. unfold pl, cs in *. lia. Qed.

(** The torrent's piece lengths are those of the metainfo. *)
Lemma pieceLength_Piece_Length i :
  0 ≤ i < numPieces t → pieceLength t i = Piece_Length (ginfo t) i.
Proof.
  intros Hi. pose proof pl_pos as Hpl. unfold pl in Hpl.
  pose proof (NumPieces_bounds _ (go_info t Hg)) as Hn.
  pose proof (io_total _ (go_info t Hg)).
  rewrite (Piece_Length_start _ (go_info t Hg) i Hi). unfold pieceStart, pieceLength.
  rewrite (go_len t Hg). unfold numPieces in *.
  destruct (Z.eqb_spec (PieceLength (ginfo t)) 0); [lia|].
  rewrite Z.rem_mod_nonneg by lia.
  pose proof (Z.mod_pos_bound (TotalLength (ginfo t)) (PieceLength (ginfo t))) as Hm.
  pose proof (Z.div_mod (TotalLength (ginfo t)) (PieceLength (ginfo t))) as Hd.
  rewrite !u32_small by lia.
  destruct (Z.eqb_spec i (NumPieces (ginfo t) - 1)) as [->|Hne]; cbn [andb].
  - specialize (Hd ltac:(lia)). specialize (Hm ltac:(lia)).
    set (r := TotalLength (ginfo t) mod _) in *. set (q := TotalLength (ginfo t) / _) in *.
    destruct (Z.eqb_spec r 0); cbn [negb].
    + assert (NumPieces (ginfo t) = q) as -> by nia. lia.
    + assert (NumPieces (ginfo t) = q + 1) as -> by nia. lia.
  - assert ((i + 1) * PieceLength (ginfo t) ≤ (NumPieces (ginfo t) - 1) * PieceLength (ginfo t)) by nia.
    lia.
Qed.

Lemma pieceLength_bounds i : 0 ≤ i < numPieces t → 0 < pieceLength t i ≤ pl.
Proof.
  intros Hi. rewrite pieceLength_Piece_Length by done.
  by apply (Piece_bounds _ (go_info t Hg) i Hi).
Qed.

Lemma ceil_chunks l : 0 < l ≤ pl →
  u32 (u32 (l + cs) - 1) / cs = (l + cs - 1) / cs.
Proof.
  intros Hl. pose proof pl_pos. pose proof cs_pos. pose proof (go_piece t Hg). unfold pl, cs in *.
  destruct (decide (l + chunkSize t = 2 ^ 32)) as [He|He].
  - rewrite He. change (u32 (u32 (2 ^ 32) - 1)) with (2 ^ 32 - 1). by rewrite <- He.
  - by rewrite (u32_small (l + chunkSize t)), u32_small by lia.
Qed.

Lemma pieceNumChunks_ceil i :
  0 ≤ i < numPieces t → pieceNumChunks t i = (pieceLength t i + cs - 1) / cs.
Proof. intros Hi. apply ceil_chunks. by apply pieceLength_bounds. Qed.

Lemma chunksPerRegularPiece_ceil : chunksPerRegularPiece t = (pl + cs - 1) / cs.
Proof.
  rewrite (go_cpp t Hg). pose proof pl_pos. unfold pl in *. rewrite (u32_small (PieceLength _)) by lia.
  apply ceil_chunks. lia.
Qed.

Lemma chunksPerRegularPiece_pos : 0 < chunksPerRegularPiece t.
Proof.
  rewrite chunksPerRegularPiece_ceil. pose proof pl_pos. pose proof cs_pos.
  apply Z.div_str_pos. lia.
Qed.

Lemma pieceNumChunks_bounds i :
  0 ≤ i < numPieces t → 0 < pieceNumChunks t i ≤ chunksPerRegularPiece t.
Proof.
  intros Hi. pose proof (pieceLength_bounds i Hi). pose proof cs_pos.
  rewrite pieceNumChunks_ceil, chunksPerRegularPiece_ceil by done. split.
  - apply Z.div_str_pos. lia.
  - apply Z.div_le_mono; lia.
Qed.

(** Chunk [c] of piece [i]. *)
Lemma chunkIndexSpec_eq i c :
  0 ≤ i < numPieces t → 0 ≤ c < pieceNumChunks t i →
  chunkIndexSpec c (pieceLength t i) cs =
  mkChunkSpec (c * cs) (Z.min cs (pieceLength t i - c * cs)) ∧
  0 ≤ c * cs < pieceLength t i.
Proof.
  intros Hi Hc. pose proof (pieceLength_bounds i Hi). pose proof pl_pos. pose proof cs_pos.
  rewrite pieceNumChunks_ceil in Hc by done.
  pose proof (ceil_div_bounds (pieceLength t i) cs ltac:(lia)).
  assert (0 ≤ c * cs < pieceLength t i) by nia. split; [|done].
  pose proof (go_piece t Hg) as Hp. fold cs pl in Hp. unfold chunkIndexSpec.
  rewrite (u32_small (c * cs)) by lia.
  destruct (decide (c * cs + cs < 2 ^ 32)); [|lia].
  rewrite (u32_small (c * cs + cs)) by lia.
  destruct (Z.ltb_spec (pieceLength t i) (c * cs + cs)).
  - rewrite u32_small by lia. f_equal. lia.
  - f_equal. lia.
Qed.

(** The chunks of a piece, as [chunkIndexSpec] gives them. *)
Definition pieceChunks (i : Z) : list ChunkSpec :=
  map (λ c, chunkIndexSpec c (pieceLength t i) cs) (seqZ 0 (pieceNumChunks t i)).

(** The chunks of a piece tile it: chunk [c] begins at [c * chunkSize],
    is non-empty and at most a chunk long, never overflows the piece, and the
    chunk lengths add up to the piece length. *)
Theorem chunks_tile_piece i :
  0 ≤ i < numPieces t →
  Zsum (map csLength (pieceChunks i)) = pieceLength t i ∧
  ∀ c, 0 ≤ c < pieceNumChunks t i →
    let s := chunkIndexSpec c (pieceLength t i) cs in
    csBegin s = c * cs ∧ 0 < csLength s ≤ cs ∧ chunkOverflowsPiece s (pieceLength t i) = false.
Proof.
  intros Hi. pose proof (pieceLength_bounds i Hi). pose proof pl_pos. pose proof cs_pos.
  pose proof (pieceNumChunks_bounds i Hi). split.
  - unfold pieceChunks. rewrite map_map.
    rewrite (Zsum_ext _ (λ c, Z.min ((c + 1) * cs) (pieceLength t i) - Z.min (c * cs) (pieceLength t i))).
    + rewrite (Zsum_telescope (λ c, Z.min (c * cs) (pieceLength t i))) by lia.
      rewrite pieceNumChunks_ceil by done.
      pose proof (ceil_div_bounds (pieceLength t i) cs ltac:(lia)). lia.
    + intros c Hc%in_seqZ. destruct (chunkIndexSpec_eq i c Hi) as [-> ?]; [lia|]. cbn [csLength]. lia.
  - intros c Hc. destruct (chunkIndexSpec_eq i c Hi Hc) as [-> ?]. cbn [csBegin csLength].
    split_and!; [done|lia|lia|]. unfold chunkOverflowsPiece, IntegerMax; cbn [csBegin csLength].
    rewrite u32_small by lia. rewrite (proj2 (Z.ltb_ge _ _)) by lia.
    rewrite u32_small by lia. by rewrite (proj2 (Z.ltb_ge _ _)) by lia.
Qed.

(** Request indices enumerate the chunks of all pieces. *)
Lemma pieceRequestIndexOffset_eq i :
  0 ≤ i ≤ numPieces t → pieceRequestIndexOffset t i = i * chunksPerRegularPiece t ∧
  0 ≤ i * chunksPerRegularPiece t < 2 ^ 32.
Proof.
  intros Hi. pose proof (go_fits t Hg) as Hf. pose proof chunksPerRegularPiece_pos.
  fold pl cs in Hf. rewrite <- chunksPerRegularPiece_ceil in Hf. fold (numPieces t) in Hf.
  assert (0 ≤ i * chunksPerRegularPiece t ≤ numPieces t * chunksPerRegularPiece t) by nia.
  assert (i ≤ i * chunksPerRegularPiece t) by nia.
  unfold pieceRequestIndexOffset. rewrite (u32_small i), u32_small by lia. lia.
Qed.

Lemma requestIndex_divmod i c :
  0 ≤ i → 0 ≤ c < chunksPerRegularPiece t →
  pieceIndexOfRequestIndex t (i * chunksPerRegularPiece t + c) = i ∧
  (i * chunksPerRegularPiece t + c) mod chunksPerRegularPiece t = c.
Proof.
  intros Hi Hc. unfold pieceIndexOfRequestIndex.
  rewrite Z.add_comm, Z.div_add, Z.mod_add by lia. by rewrite Z.div_small, Z.mod_small by lia.
Qed.

Lemma requestIndex_convert i c :
  0 ≤ i < numPieces t → 0 ≤ c < pieceNumChunks t i →
  let ri := pieceRequestIndexOffset t i + c in
  0 ≤ ri < numChunks t ∧
  pieceIndexOfRequestIndex t ri = i ∧
  requestIndexToRequest t ri = mkReq i (chunkIndexSpec c (pieceLength t i) cs) ∧
  checkValidReceiveChunk (Some t) (requestIndexToRequest t ri) = None ∧
  requestIndexFromRequest t (requestIndexToRequest t ri) = ri.
Proof.
  intros Hi Hc ri. subst ri. pose proof (pieceNumChunks_bounds i Hi).
  pose proof cs_pos. pose proof chunksPerRegularPiece_pos.
  destruct (pieceRequestIndexOffset_eq i) as [-> ?]; [lia|].
  destruct (requestIndex_divmod i c) as [Hd Hm]; [lia..|].
  destruct (pieceRequestIndexOffset_eq (i + 1)) as [_ ?]; [lia|].
  assert (Hto : requestIndexToRequest t (i * chunksPerRegularPiece t + c) =
    mkReq i (chunkIndexSpec c (pieceLength t i) cs)).
  { unfold requestIndexToRequest. rewrite Hd, Hm. f_equal. apply u32_small. nia. }
  rewrite Hto. destruct (chunkIndexSpec_eq i c Hi Hc) as [Hspec ?].
  split_and!; [lia| |done|done| |].
  - unfold numChunks. destruct (Z.eqb_spec (numPieces t) 0); [lia|].
    destruct (pieceRequestIndexOffset_eq (numPieces t)) as [_ ?]; [lia|].
    destruct (pieceRequestIndexOffset_eq (numPieces t - 1)) as [Ho ?]; [lia|].
    unfold pieceRequestIndexOffset in Ho. rewrite Ho.
    pose proof (pieceNumChunks_bounds (numPieces t - 1) ltac:(lia)).
    rewrite u32_small by nia.
    destruct (decide (i = numPieces t - 1)) as [->|]; [lia|nia].
  - unfold checkValidReceiveChunk. cbn [rIndex rChunk]. rewrite Hspec. cbn [csBegin].
    rewrite (proj2 (Z.leb_gt _ _)), (proj2 (Z.leb_gt _ _)) by lia. done.
  - unfold requestIndexFromRequest. cbn [rIndex rChunk].
    destruct (pieceRequestIndexOffset_eq i) as [-> ?]; [lia|].
    rewrite Hspec. cbn [csBegin]. rewrite Z.div_mul by lia. apply u32_small. nia.
Qed.

(** Request indices and requests are in bijection: the index of chunk
    [c] of piece [i] is below [numChunks], names that piece and that chunk,
    and converting it to a request and back is the identity. *)
Theorem requestIndex_roundtrip i c :
  0 ≤ i < numPieces t → 0 ≤ c < pieceNumChunks t i →
  let ri := pieceRequestIndexOffset t i + c in
  0 ≤ ri < numChunks t ∧
  pieceIndexOfRequestIndex t ri = i ∧
  requestIndexToRequest t ri = mkReq i (chunkIndexSpec c (pieceLength t i) cs) ∧
  checkValidReceiveChunk (Some t) (requestIndexToRequest t ri) = None ∧
  requestIndexFromRequest t (requestIndexToRequest t ri) = ri.
Proof. apply requestIndex_convert. Qed.

Lemma pieceLength_min i :
  0 ≤ i < numPieces t → pieceLength t i = Z.min pl (glength t - i * pl).
Proof.
  intros Hi. rewrite pieceLength_Piece_Length by done.
  rewrite (Piece_Length_start _ (go_info t Hg) i Hi), (go_len t Hg).
  pose proof (NumPieces_bounds _ (go_info t Hg)) as Hn. pose proof pl_pos.
  unfold pieceStart. fold pl in Hn |- *. unfold numPieces in Hi.
  assert (i * pl ≤ (NumPieces (ginfo t) - 1) * pl) by nia. lia.
Qed.

(** For every offset into the data [offsetRequest] finds the chunk that
    contains it: the request is the one of that chunk's request index, its
    [requestOffset] does not panic, and the offset lies inside it. *)
Theorem offsetRequest_covers off :
  0 ≤ off < glength t →
  ∃ i c, 0 ≤ i < numPieces t ∧ 0 ≤ c < pieceNumChunks t i ∧
    let r := requestIndexToRequest t (pieceRequestIndexOffset t i + c) in
    offsetRequest t off = Some r ∧
    requestOffset t r = Ok (i * pl + c * cs) ∧
    i * pl + c * cs ≤ off < i * pl + c * cs + rLength r.
Proof.
  intros Ho. pose proof pl_pos as Hpl. pose proof cs_pos as Hcs.
  pose proof (NumPieces_bounds _ (go_info t Hg)) as Hn. fold pl (numPieces t) in Hn.
  pose proof (go_len t Hg) as Hlen. pose proof (io_width _ (go_info t Hg)) as Hw. fold pl in Hw.
  pose proof (Z.div_mod off pl ltac:(lia)) as Hd. pose proof (Z.mod_pos_bound off pl ltac:(lia)) as Hm.
  set (i := off / pl) in *. set (b := off mod pl) in *.
  pose proof (Z.div_mod b cs ltac:(lia)) as Hd2. pose proof (Z.mod_pos_bound b cs ltac:(lia)) as Hm2.
  set (c := b / cs) in *. assert (Hi : 0 ≤ i < numPieces t) by nia.
  assert (0 ≤ c) by (apply Z.div_pos; lia).
  pose proof (pieceLength_min i Hi) as Hpm.
  assert (Hc : 0 ≤ c < pieceNumChunks t i).
  { rewrite pieceNumChunks_ceil by done. pose proof (ceil_div_bounds (pieceLength t i) cs ltac:(lia)). nia. }
  exists i, c. split_and!; [lia..|]. cbn zeta.
  destruct (requestIndex_convert i c Hi Hc) as (_ & _ & -> & _ & _).
  destruct (chunkIndexSpec_eq i c Hi Hc) as [-> ?]. cbn [rChunk csBegin csLength rIndex].
  destruct (pieceRequestIndexOffset_eq i) as [_ ?]; [lia|].
  assert (i < 2 ^ 32) by (pose proof chunksPerRegularPiece_pos; nia).
  assert (0 ≤ i * pl ≤ off) by nia.
  split_and!; [| |lia|lia].
  - unfold offsetRequest, torrentOffsetRequest. fold pl cs.
    rewrite (proj2 (Z.ltb_ge _ _)), (proj2 (Z.leb_gt _ _)) by lia. cbn [orb].
    rewrite Z.quot_div_nonneg, Z.rem_mod_nonneg by lia. fold i b.
    rewrite Z.quot_div_nonneg by lia. fold c.
    rewrite (i64_small (c * cs)), !(u32_small i), (u32_small (c * cs)), (u32_small cs) by lia.
    rewrite (i64_small (pl - c * cs)), (u32_small (pl - c * cs)) by lia.
    rewrite (i64_small (i * pl)), (i64_small (glength t - i * pl)), (i64_small (_ - c * cs)) by lia.
    unfold newRequest. do 2 f_equal.
    destruct (Z.ltb_spec (pl - c * cs) cs).
    + destruct (Z.ltb_spec (glength t - i * pl - c * cs) (pl - c * cs)).
      * rewrite u32_small by lia. f_equal. lia.
      * f_equal. lia.
    + destruct (Z.ltb_spec (glength t - i * pl - c * cs) cs).
      * rewrite u32_small by lia. f_equal. lia.
      * f_equal. lia.
  - unfold requestOffset, torrentRequestOffset, usualPieceSize. cbn [rIndex rChunk csBegin]. fold pl.
    rewrite (i64_small (i * pl)), i64_small by lia.
    rewrite (proj2 (Z.ltb_ge _ _)), (proj2 (Z.leb_gt _ _)) by lia. done.
Qed.

Lemma piece_start_in i : 0 ≤ i < numPieces t → 0 ≤ i * pl < glength t.
Proof.
  intros Hi. pose proof pl_pos. pose proof (NumPieces_bounds _ (go_info t Hg)) as Hn.
  fold pl (numPieces t) in Hn. rewrite (go_len t Hg).
  assert (i * pl ≤ (numPieces t - 1) * pl) by (apply Z.mul_le_mono_nonneg_r; lia). lia.
Qed.

(** [byteRegionPieces] returns exactly the pieces that share a byte
    with the region [off, off + size) of the torrent, also for a region that
    begins before the data or ends after it. *)
Theorem byteRegionPieces_exact off size :
  - 2 ^ 62 ≤ off → off + size + pl < 2 ^ 63 → - 2 ^ 62 ≤ size < 2 ^ 62 →
  let '(begin, end_) := byteRegionPieces t off size in
  ∀ i, begin ≤ i < end_ ↔
    0 ≤ i < numPieces t ∧
    ∃ x, i * pl ≤ x < i * pl + pieceLength t i ∧ off ≤ x < off + size.
Proof.
  intros Hoff Hov Hsz. pose proof pl_pos as Hpl.
  pose proof (NumPieces_bounds _ (go_info t Hg)) as Hn. fold pl (numPieces t) in Hn.
  pose proof (go_len t Hg) as Hlen.
  assert (Hnil : glength t ≤ off ∨ size ≤ 0 ∨ off + size ≤ 0 → ∀ i, 0 ≤ i < 0 ↔
    0 ≤ i < numPieces t ∧ ∃ x, i * pl ≤ x < i * pl + pieceLength t i ∧ off ≤ x < off + size).
  { intros Hc i. split; [lia|]. intros (Hi & x & Hx & ?).
    rewrite (pieceLength_min i Hi) in Hx. destruct (piece_start_in i Hi). lia. }
  unfold byteRegionPieces. fold pl.
  destruct (Z.leb_spec (glength t) off); [apply Hnil; lia|].
  assert (Hmain : ∀ o s, 0 ≤ o → (o < glength t ∨ numPieces t ≤ 0) → 0 < s → o + s + pl < 2 ^ 63 →
    (∀ x, 0 ≤ x → off ≤ x < off + size ↔ o ≤ x < o + s) →
    ∀ i, Z.quot o pl ≤ i < (let e := Z.quot (i64 (i64 (i64 (o + s) + pl) - 1)) pl in
                           if numPieces t <? e then numPieces t else e) ↔
    0 ≤ i < numPieces t ∧ ∃ x, i * pl ≤ x < i * pl + pieceLength t i ∧ off ≤ x < off + size).
  { intros o s Ho HoL Hs Hos Hx i. cbn zeta.
    rewrite (i64_small (o + s)), (i64_small (o + s + pl)), i64_small by lia.
    rewrite !Z.quot_div_nonneg by lia.
    pose proof (div_le_iff o pl i ltac:(lia)) as Hq.
    pose proof (lt_ceil_iff (o + s) pl i ltac:(lia)) as He.
    assert (0 ≤ o / pl) by (apply Z.div_pos; lia).
    assert (Hlim : (i < (let e := (o + s + pl - 1) / pl in if numPieces t <? e then numPieces t else e))
      ↔ i < numPieces t ∧ i * pl < o + s).
    { cbn zeta. destruct (Z.ltb_spec (numPieces t) ((o + s + pl - 1) / pl)); lia. }
    cbn zeta in Hlim. rewrite Hq, Hlim. split.
    - intros (H1 & H2 & H3). pose proof (proj2 Hq H1).
      assert (Hi : 0 ≤ i < numPieces t) by lia. split; [done|].
      destruct (piece_start_in i Hi).
      exists (Z.max o (i * pl)). rewrite Hx by lia. rewrite (pieceLength_min i Hi). lia.
    - intros (Hi & x & Hx1 & Hx2). rewrite (pieceLength_min i Hi) in Hx1.
      destruct (piece_start_in i Hi). rewrite Hx in Hx2 by lia. lia. }
  destruct (Z.ltb_spec off 0).
  - rewrite i64_small by lia. destruct (Z.leb_spec (size + off) 0); [apply Hnil; lia|].
    apply Hmain; [lia|nia|lia|lia|]. intros x Hx. lia.
  - destruct (Z.leb_spec size 0); [apply Hnil; lia|]. apply Hmain; [lia..|]. done.
Qed.

(** Bytes of the file that lie in piece [i]. *)
Definition overlap (f : File) (i : Z) : Z :=
  Z.min ((i + 1) * pl) (fOffset f + fLength f) - Z.max (i * pl) (fOffset f).

Lemma file_piece_range f :
  0 ≤ fOffset f → 0 ≤ fLength f → fOffset f + fLength f + pl < 2 ^ 63 →
  BeginPieceIndex t f = fOffset f / pl ∧
  EndPieceIndex t f = (fOffset f + fLength f + pl - 1) / pl ∧
  fOffset f / pl ≤ (fOffset f + fLength f + pl - 1) / pl.
Proof.
  intros Ho Hl Hw. pose proof pl_pos. unfold BeginPieceIndex, EndPieceIndex, usualPieceSize.
  fold pl. destruct (Z.eqb_spec pl 0); [lia|].
  rewrite (i64_small (fOffset f + fLength f)), (i64_small (_ + pl)), i64_small by lia.
  rewrite !Z.quot_div_nonneg by lia. split_and!; [done..|]. apply Z.div_le_mono; lia.
Qed.

(** [File.bytesLeft] is the number of bytes of the file that lie in
    pieces that are not complete: the sum of the file's overlap with each of
    them. *)
Theorem fileBytesLeft_exact completed f :
  0 ≤ fOffset f → 0 ≤ fLength f → fOffset f + fLength f + 2 * pl < 2 ^ 63 →
  File_bytesLeft t completed f =
  Zsum (map (λ i, if decide (i ∈ completed) then 0 else overlap f i)
          (seqZ (BeginPieceIndex t f) (EndPieceIndex t f - BeginPieceIndex t f))).
Proof.
  intros Ho Hl Hw. pose proof pl_pos as Hpl. unfold File_bytesLeft, usualPieceSize. fold pl.
  destruct (file_piece_range f Ho Hl ltac:(lia)) as (-> & -> & Hle).
  pose proof (Z.div_mod (fOffset f) pl ltac:(lia)) as Hd.
  pose proof (Z.mod_pos_bound (fOffset f) pl ltac:(lia)) as Hm.
  pose proof (ceil_div_bounds (fOffset f + fLength f) pl ltac:(lia)) as Hc.
  assert (0 ≤ fOffset f / pl) by (apply Z.div_pos; lia).
  set (b := fOffset f / pl) in *. set (e := (fOffset f + fLength f + pl - 1) / pl) in *.
  unfold fileBytesLeft. destruct (Z.eqb_spec (e - b) 0) as [->|]; [done|].
  destruct (Z.eqb_spec (e - b) 1) as [He|].
  { rewrite He. change (seqZ b 1) with [b]. unfold Zsum, overlap. cbn [map foldr].
    assert (e = b + 1) as Heb by lia. rewrite Heb in Hc. case_decide; lia. }
  rewrite seqZ_ends by lia. replace (b + (e - b) - 1) with (e - 1) by lia.
  rewrite !map_app, !Zsum_app.
  rewrite (Zsum_ext _ (λ i, if decide (i ∈ completed) then 0 else pl) (seqZ (b + 1) _)).
  2: { intros i Hi%in_seqZ. unfold overlap.
       assert (b * pl + pl ≤ i * pl ∧ i * pl + pl ≤ (e - 1) * pl) by nia.
       case_decide; lia. }
  rewrite Zsum_not_in by lia. replace (b + 1 + (e - b - 2)) with (e - 1) by lia.
  set (k := Z.of_nat (size _)).
  assert (0 ≤ k ≤ e - b - 2).
  { pose proof (size_range_le completed (b + 1) (e - b - 2) ltac:(lia)) as Hk.
    replace (b + 1 + (e - b - 2)) with (e - 1) in Hk by lia. lia. }
  unfold Zsum, overlap. cbn [map foldr].
  rewrite Z.rem_mod_nonneg by lia.
  assert (Hmid : 0 ≤ (e - b - 2 - k) * pl ≤ fOffset f + fLength f) by nia.
  assert (0 ≤ (e - 1) * pl ≤ fOffset f + fLength f) by nia.
  assert (b * pl + 2 * pl ≤ e * pl) by nia.
  rewrite (i64_small (fOffset f + fLength f)), (i64_small ((e - 1) * pl)), (i64_small (pl - _)),
    (i64_small (fOffset f + fLength f - _)), (i64_small ((e - b - 2 - k) * pl)) by lia.
  destruct (decide (b ∈ completed)), (decide (e - 1 ∈ completed)).
  all: rewrite ?(i64_small (_ + (fOffset f + fLength f - _))) by lia.
  all: rewrite i64_small by lia; lia.
Qed.
End Chunks.

(** [chunkOverflowsPiece] is exactly "the chunk ends past the piece",
    also where the 32-bit sum of begin and length wraps. *)
Theorem chunkOverflowsPiece_exact s l :
  in_u32 (csBegin s) → in_u32 (csLength s) → in_u32 l →
  chunkOverflowsPiece s l = true ↔ l < csBegin s + csLength s.
Proof.
  intros Hb Hl Hp. unfold chunkOverflowsPiece, IntegerMax.
  rewrite (u32_small (2 ^ 32 - 1 - csLength s)) by lia.
  destruct (decide (csBegin s + csLength s < 2 ^ 32)).
  - rewrite u32_small by lia. case_bool; split; intros; try done; lia.
  - assert (Hw : u32 (csBegin s + csLength s) = csBegin s + csLength s - 2 ^ 32).
    { unfold u32. rewrite <- (Z.mod_add _ (-1)) by lia. apply Z.mod_small. lia. }
    rewrite Hw. case_bool; split; intros; try done; lia.
Qed.

Lemma chunkOverflowsPiece_exact_witness :
  chunkOverflowsPiece (mkChunkSpec 4294967295 2) 16384 = true ↔ 16384 < 4294967295 + 2.
Proof. apply (chunkOverflowsPiece_exact (mkChunkSpec 4294967295 2) 16384); cbn; lia. Defined.

(** ** A concrete torrent: 70000 bytes, 32 KiB pieces, 16 KiB chunks *)
Definition exampleGeo : Geo := setInfoGeo exampleInfo 16384.

Lemma exampleGeo_ok : geo_ok exampleGeo.
Proof. split; [exact exampleInfo_ok|..]; vm_compute; congruence || reflexivity. Defined.

Lemma chunks_tile_piece_witness :
  Zsum (map csLength (pieceChunks exampleGeo 2)) = pieceLength exampleGeo 2 ∧
  ∀ c, 0 ≤ c < pieceNumChunks exampleGeo 2 →
    let s := chunkIndexSpec c (pieceLength exampleGeo 2) 16384 in
    csBegin s = c * 16384 ∧ 0 < csLength s ≤ 16384 ∧
    chunkOverflowsPiece s (pieceLength exampleGeo 2) = false.
Proof. apply (chunks_tile_piece exampleGeo exampleGeo_ok 2). vm_compute. split; congruence. Defined.

Lemma requestIndex_roundtrip_witness :
  requestIndexFromRequest exampleGeo (requestIndexToRequest exampleGeo 3) = 3.
Proof.
  apply (requestIndex_roundtrip exampleGeo exampleGeo_ok 1 1); vm_compute; split; congruence.
Defined.

Lemma offsetRequest_covers_witness :
  ∃ i c, 0 ≤ i < numPieces exampleGeo ∧ 0 ≤ c < pieceNumChunks exampleGeo i ∧
    let r := requestIndexToRequest exampleGeo (pieceRequestIndexOffset exampleGeo i + c) in
    offsetRequest exampleGeo 69999 = Some r ∧
    requestOffset exampleGeo r = Ok (i * 32768 + c * 16384) ∧
    i * 32768 + c * 16384 ≤ 69999 < i * 32768 + c * 16384 + rLength r.
Proof. apply (offsetRequest_covers exampleGeo exampleGeo_ok 69999). vm_compute. split; congruence. Defined.

Lemma byteRegionPieces_exact_witness :
  byteRegionPieces exampleGeo 40000 100000 = (1, 3) ∧
  let '(begin, end_) := byteRegionPieces exampleGeo 40000 100000 in
  ∀ i, begin ≤ i < end_ ↔
    0 ≤ i < numPieces exampleGeo ∧
    ∃ x, i * PieceLength (ginfo exampleGeo) ≤ x < i * PieceLength (ginfo exampleGeo) + pieceLength exampleGeo i ∧
         40000 ≤ x < 40000 + 100000.
Proof.
  split; [vm_compute; reflexivity|].
  apply (byteRegionPieces_exact exampleGeo exampleGeo_ok 40000 100000);
    [lia | change (40000 + 100000 + 32768 < 2 ^ 63); lia | lia].
Defined.

Lemma fileBytesLeft_exact_witness :
  File_bytesLeft exampleGeo {[1]} (mkFile 100 69000) =
  Zsum (map (λ i, if decide (i ∈ ({[1]} : gset Z)) then 0 else overlap exampleGeo (mkFile 100 69000) i)
          (seqZ (BeginPieceIndex exampleGeo (mkFile 100 69000))
             (EndPieceIndex exampleGeo (mkFile 100 69000) - BeginPieceIndex exampleGeo (mkFile 100 69000)))).
Proof. apply (fileBytesLeft_exact exampleGeo exampleGeo_ok); vm_compute; congruence. Defined.
