(* ===== verification/Segments.v ===== *)
(** Segments: src/segments/{segments,index}.go and
    [LengthIterFromUpvertedFiles] of src/common.

    A [LengthIter] is the list of lengths it still yields.  A callback is a
    state-passing function, so that what it was called with can be observed
    and its [false] stops the scan. *)
From stdpp Require Import base numbers list strings.
From Stdlib Require Import ZArith Lia.
From S2P Require Import Prelude Metainfo.
Open Scope Z_scope.

Record Extent : Type := mkExtent { Start : Z; eLength : Z }.

Definition End_ (e : Extent) : Z := i64 (Start e + eLength e).

Definition LengthIterFromUpvertedFiles (fis : list FileInfo) : list Z := map fiLength fis.

Section Scanning.
Context {S : Type} (callback : S → Z → Extent → S * bool).

Fixpoint Scan (i : Z) (haystack : list Z) (needle : Extent) (s : S) : S * bool :=
  if eLength needle =? 0 then (s, true)
  else
    match haystack with
    | [] => (s, false)
    | l :: haystack =>
        if (Start needle <? l) || (Start needle =? l) && (l =? 0) then
          let e1 := mkExtent (Start needle) (i64 (Z.min l (End_ needle) - Start needle)) in
          if 0 <=? eLength e1 then
            match callback s i e1 with
            | (s, false) => (s, true)
            | (s, true) =>
                Scan (i + 1) haystack (mkExtent 0 (i64 (eLength needle - eLength e1))) s
            end
          else Scan (i + 1) haystack needle s
        else Scan (i + 1) haystack (mkExtent (i64 (Start needle - l)) (eLength needle)) s
    end.
End Scanning.

(** ** index.go *)
Record Index : Type := mkIndex { segments : list Extent }.

Fixpoint newIndexLoop (start : Z) (lengths : list Z) : list Extent :=
  match lengths with
  | [] => []
  | l :: ls => mkExtent start l :: newIndexLoop (i64 (start + l)) ls
  end.

Definition NewIndex (lengths : list Z) : Index := mkIndex (newIndexLoop 0 lengths).

Definition iterSegments (me : Index) : list Z := map eLength (segments me).

Definition Locate {S} (me : Index) (e : Extent) (output : S → Z → Extent → S * bool) (s : S) : S * bool :=
  let first := sort_Search (length (segments me))
    (λ i, match segments me !! i with Some e0 => Start e <? End_ e0 | None => false end) in
  match segments me !! first with
  | None => (s, false)
  | Some seg =>
      Scan (λ s i e, output s (i + Z.of_nat first) e) 0
        (map eLength (drop first (segments me)))
        (mkExtent (i64 (Start e - Start seg)) (eLength e)) s
  end.

(** ** What a scan visits

    Let the segments hold data.  [slice] is what a callback is shown of one
    segment; [collect] gathers it. *)
Section Data.
Context {A : Type}.
Implicit Types (segs : list (list A)) (acc : list A).

Definition lens segs : list Z := map (λ d, Z.of_nat (length d)) segs.

Definition slice (d : list A) (e : Extent) : list A :=
  take (Z.to_nat (eLength e)) (drop (Z.to_nat (Start e)) d).

Definition collect segs (acc : list A) (i : Z) (e : Extent) : list A * bool :=
  (acc ++ slice (nth (Z.to_nat i) segs []) e, true).

Lemma slice_app d1 d2 s l :
  0 ≤ s ≤ Z.of_nat (length d1) → 0 ≤ l →
  slice (d1 ++ d2) (mkExtent s l) =
  slice d1 (mkExtent s (Z.min (Z.of_nat (length d1)) (s + l) - s)) ++
  slice d2 (mkExtent 0 (l - (Z.min (Z.of_nat (length d1)) (s + l) - s))).
Proof.
  intros Hs Hl. unfold slice; cbn [Start eLength].
  rewrite drop_app_le, take_app by lia. f_equal.
  - destruct (Z.min_spec (Z.of_nat (length d1)) (s + l)) as [[? ->]|[? ->]].
    + rewrite !take_ge by (rewrite length_drop; lia). done.
    + f_equal. lia.
  - rewrite length_drop, drop_0. f_equal. lia.
Qed.

Lemma slice_skip d1 d2 s l :
  Z.of_nat (length d1) ≤ s →
  slice (d1 ++ d2) (mkExtent s l) = slice d2 (mkExtent (s - Z.of_nat (length d1)) l).
Proof. intros Hs. unfold slice; cbn [Start eLength]. rewrite drop_app_ge by lia. do 2 f_equal. lia. Qed.

Lemma slice_empty d s : slice d (mkExtent s 0) = [].
Proof. done. Qed.

(** A scan shows the callback, in order, exactly the needle's bytes, and
    returns true exactly when the segments reach the needle's end. *)
Lemma Scan_slice (cb : list A → Z → Extent → list A * bool) segs : ∀ i s l acc,
  0 ≤ s → 0 ≤ l → s + l < 2 ^ 63 → Z.of_nat (length (concat segs)) < 2 ^ 63 →
  (∀ acc j e, (j < length segs)%nat →
     cb acc (i + Z.of_nat j) e = (acc ++ slice (nth j segs []) e, true)) →
  Scan cb i (lens segs) (mkExtent s l) acc =
  (acc ++ slice (concat segs) (mkExtent s l),
   (l =? 0) || (s + l <=? Z.of_nat (length (concat segs)))).
Proof.
  induction segs as [|d segs IH]; intros i s l acc Hs Hl Hsl Htot Hcb;
    cbn [Scan lens map eLength Start concat];
    (destruct (Z.eqb_spec l 0) as [->|Hl0]; [by rewrite slice_empty, app_nil_r|]); cbn [orb].
  { rewrite (proj2 (Z.leb_gt _ _)) by (cbn; lia). unfold slice. by rewrite drop_nil, take_nil, app_nil_r. }
  cbn [concat] in Htot. rewrite length_app, Nat2Z.inj_add in Htot |- *.
  assert (Hnext : ∀ acc j e, (j < length segs)%nat →
    cb acc (i + 1 + Z.of_nat j) e = (acc ++ slice (nth j segs []) e, true)).
  { intros acc' j e Hj. replace (i + 1 + Z.of_nat j) with (i + Z.of_nat (Datatypes.S j)) by lia.
    apply Hcb. cbn. lia. }
  set (n := Z.of_nat (length d)) in *.
  destruct ((s <? n) || (s =? n) && (n =? 0)) eqn:Htest.
  - assert (Hsn : s ≤ n) by (apply orb_true_iff in Htest as [?%Z.ltb_lt|[?%Z.eqb_eq ?]%andb_true_iff]; lia).
    unfold End_; cbn [Start eLength]. rewrite (i64_small (s + l)), i64_small by lia.
    rewrite (proj2 (Z.leb_le _ _)) by lia.
    specialize (Hcb acc 0%nat (mkExtent s (Z.min n (s + l) - s)) ltac:(cbn; lia)).
    rewrite Z.add_0_r in Hcb. rewrite Hcb. cbn [nth]. rewrite i64_small by lia.
    rewrite IH by (done || lia). rewrite (slice_app d) by lia. fold n. rewrite app_assoc. f_equal.
    case_bool; destruct (Z.leb_spec (s + l) (n + Z.of_nat (length (concat segs)))); cbn [orb]; try done;
      try destruct (Z.leb_spec (0 + (l - (Z.min n (s + l) - s))) (Z.of_nat (length (concat segs))));
      try destruct (Z.eqb_spec (l - (Z.min n (s + l) - s)) 0); try done; lia.
  - assert (Hsn : n ≤ s).
    { apply orb_false_iff in Htest as [?%Z.ltb_ge _]. lia. }
    rewrite i64_small by lia. rewrite IH by (done || lia).
    rewrite slice_skip by done. fold n. f_equal.
    destruct (Z.eqb_spec l 0); [done|]. cbn [orb].
    destruct (Z.leb_spec (s - n + l) (Z.of_nat (length (concat segs))));
      destruct (Z.leb_spec (s + l) (n + Z.of_nat (length (concat segs)))); done || lia.
Qed.

(** Where segment [k] starts. *)
Definition offset segs (k : nat) : Z := Z.of_nat (length (concat (take k segs))).

Lemma offset_S segs k d : segs !! k = Some d → offset segs (S k) = offset segs k + Z.of_nat (length d).
Proof.
  intros H. unfold offset. rewrite (take_S_r _ _ _ H), concat_app, length_app. cbn. rewrite app_nil_r. lia.
Qed.

Lemma offset_mono segs j k : (j ≤ k)%nat → offset segs j ≤ offset segs k.
Proof.
  intros H. unfold offset. replace k with (j + (k - j))%nat by lia.
  rewrite <- take_take_drop, concat_app, length_app. lia.
Qed.

Lemma offset_nonneg segs k : 0 ≤ offset segs k.
Proof. unfold offset. lia. Qed.

Lemma offset_all segs : offset segs (length segs) = Z.of_nat (length (concat segs)).
Proof. unfold offset. by rewrite take_ge. Qed.

Lemma newIndexLoop_lookup segs : ∀ s k,
  0 ≤ s → s + Z.of_nat (length (concat segs)) < 2 ^ 63 →
  newIndexLoop s (lens segs) !! k =
  (λ d, mkExtent (s + offset segs k) (Z.of_nat (length d))) <$> segs !! k.
Proof.
  induction segs as [|d segs IH]; intros s k Hs Hb; [by destruct k|].
  cbn [lens map newIndexLoop]. cbn [concat] in Hb. rewrite length_app in Hb.
  rewrite i64_small by lia. destruct k as [|k]; cbn [lookup list_lookup].
  - cbn. do 2 f_equal. unfold offset. cbn. lia.
  - change (map _ segs) with (lens segs). rewrite IH by lia. cbn [fmap option_fmap option_map].
    destruct (segs !! k); [|done]. cbn. do 2 f_equal. unfold offset. cbn [take concat].
    rewrite length_app. lia.
Qed.

Lemma newIndexLoop_lens s ls : map eLength (newIndexLoop s ls) = ls.
Proof. revert s. induction ls; intros s; cbn; [done|]. by f_equal. Qed.

(** Scanning with a callback that never stops shows it, in order and
    segment by segment, exactly the bytes [Start, Start + Length) of the
    concatenated segments, and reports whether the segments reach the end of
    the needle. *)
Theorem scan_visits_needle segs s l :
  0 ≤ s → 0 ≤ l → s + l < 2 ^ 63 → Z.of_nat (length (concat segs)) < 2 ^ 63 →
  Scan (collect segs) 0 (lens segs) (mkExtent s l) [] =
  (slice (concat segs) (mkExtent s l), (l =? 0) || (s + l <=? Z.of_nat (length (concat segs)))).
Proof.
  intros. rewrite Scan_slice with (segs := segs); [done..|].
  intros acc j e _. unfold collect. by rewrite Z.add_0_l, Nat2Z.id.
Qed.

(** [Index.Locate] on the index of the same segments visits the same
    bytes as the linear scan, and finds them exactly when the needle starts
    inside the data and the segments reach its end. *)
Theorem locate_visits_needle segs s l :
  0 ≤ s → 0 ≤ l → s + l < 2 ^ 63 → Z.of_nat (length (concat segs)) < 2 ^ 63 →
  Locate (NewIndex (lens segs)) (mkExtent s l) (collect segs) [] =
  (slice (concat segs) (mkExtent s l),
   (s <? Z.of_nat (length (concat segs))) && ((l =? 0) || (s + l <=? Z.of_nat (length (concat segs))))).
Proof.
  intros Hs Hl Hsl Htot. unfold Locate, NewIndex; cbn [segments Start eLength].
  assert (Hlen : length (newIndexLoop 0 (lens segs)) = length segs).
  { rewrite <- (length_map eLength), newIndexLoop_lens. apply length_map. }
  set (f := λ i : nat, _).
  assert (Hf : ∀ k, (k < length segs)%nat → f k = (s <? offset segs (S k))).
  { intros k Hk. destruct (lookup_lt_is_Some_2 segs k Hk) as [d Hd]. unfold f.
    rewrite newIndexLoop_lookup, Hd by lia. cbn. unfold End_; cbn.
    rewrite (offset_S _ _ _ Hd). pose proof (offset_mono segs (S k) (length segs) ltac:(lia)) as Hm.
    rewrite offset_all, (offset_S _ _ _ Hd) in Hm. by rewrite i64_small by (unfold offset in *; lia). }
  rewrite Hlen. destruct (sort_Search_spec (length segs) f) as (Hle & Hlo & Hhi).
  { intros a b Hab. rewrite !Hf by lia. pose proof (offset_mono segs (S a) (S b) ltac:(lia)).
    rewrite !Z.ltb_lt. lia. }
  set (first := sort_Search _ f) in *. rewrite newIndexLoop_lookup by lia.
  assert (Hbelow : offset segs first ≤ s).
  { destruct first as [|k]; [change (0 ≤ s); lia|].
    specialize (Hlo k ltac:(lia)). rewrite Hf in Hlo by lia. by apply Z.ltb_ge in Hlo. }
  destruct (segs !! first) as [d|] eqn:Hd; cbn [fmap option_fmap option_map].
  - pose proof (lookup_lt_Some _ _ _ Hd) as Hlt.
    specialize (Hhi first ltac:(lia)). rewrite Hf in Hhi by lia. apply Z.ltb_lt in Hhi.
    pose proof (offset_mono segs (S first) (length segs) ltac:(lia)) as Hm. rewrite offset_all in Hm.
    rewrite (proj2 (Z.ltb_lt s _)) by lia. cbn [andb Start].
    rewrite <- skipn_map, newIndexLoop_lens, Z.add_0_l.
    replace (drop first (lens segs)) with (lens (drop first segs)) by (unfold lens; by rewrite skipn_map).
    pose proof (take_drop first segs) as Htd.
    assert (Hcl : Z.of_nat (length (concat segs)) = offset segs first + Z.of_nat (length (concat (drop first segs)))).
    { unfold offset. rewrite <- Nat2Z.inj_add, <- length_app, <- concat_app, Htd. done. }
    pose proof (offset_nonneg segs first). rewrite (i64_small (s - _)) by lia.
    rewrite Scan_slice with (segs := drop first segs); [|lia..|].
    + assert (Hcc : concat segs = concat (take first segs) ++ concat (drop first segs))
        by by rewrite <- concat_app, Htd.
      rewrite Hcl, Hcc, slice_skip by done. cbn [app]. f_equal. f_equal.
      destruct (Z.leb_spec (s - offset segs first + l) (Z.of_nat (length (concat (drop first segs)))));
        destruct (Z.leb_spec (s + l) (offset segs first + Z.of_nat (length (concat (drop first segs)))));
        done || lia.
    + intros acc j e Hj. unfold collect.
      rewrite nth_skipn, Z.add_0_l, <- Nat2Z.inj_add, Nat2Z.id, Nat.add_comm. done.
  - apply lookup_ge_None in Hd. assert (first = length segs) as Hfl by lia.
    rewrite Hfl, offset_all in Hbelow. rewrite (proj2 (Z.ltb_ge s _)) by done.
    unfold slice; cbn. by rewrite drop_ge, take_nil by lia.
Qed.
End Data.

Lemma scan_visits_needle_witness :
  Scan (collect [[1;2;3]; []; [4;5]]) 0 (lens [[1;2;3]; []; [4;5]]) (mkExtent 1 3) [] =
  (slice (concat [[1;2;3]; []; [4;5]]) (mkExtent 1 3),
   (3 =? 0) || (1 + 3 <=? Z.of_nat (length (concat [[1;2;3]; []; [4;5]])))).
Proof. apply (scan_visits_needle [[1;2;3]; []; [4;5]] 1 3); cbn; lia. Defined.

Lemma locate_visits_needle_witness :
  Locate (NewIndex (lens [[1;2;3]; []; [4;5]])) (mkExtent 3 2) (collect [[1;2;3]; []; [4;5]]) [] =
  (slice (concat [[1;2;3]; []; [4;5]]) (mkExtent 3 2),
   (3 <? Z.of_nat (length (concat [[1;2;3]; []; [4;5]]))) &&
   ((2 =? 0) || (3 + 2 <=? Z.of_nat (length (concat [[1;2;3]; []; [4;5]]))))).
Proof. apply (locate_visits_needle [[1;2;3]; []; [4;5]] 3 2); cbn; lia. Defined.
