(* ===== verification/Visits.v ===== *)
(** What [Index.Locate] of src/segments/index.go calls back, for any callback:
    the parts of the segments that make up the needle, in order. *)
From stdpp Require Import base numbers list.
From Stdlib Require Import ZArith Lia.
From S2P Require Import Prelude Segments.
Open Scope Z_scope.

(** A list of calls, made until one answers false. *)
Fixpoint runCalls {S} (cb : S → Z → Extent → S * bool) (xs : list (Z * Extent)) (s : S) : S :=
  match xs with
  | [] => s
  | (i, e) :: xs => let '(s, ok) := cb s i e in if ok then runCalls cb xs s else s
  end.

(** The position of segment [k] in the whole. *)
Definition segStart (ls : list Z) (k : nat) : Z := Zsum (take k ls).

(** The calls [xs] cover the bytes from [pos] to [fin] of the whole, without
    gaps, and each takes as much of its segment as it can; only a call for an empty segment is empty. *)
Fixpoint tiles (ls : list Z) (pos fin : Z) (xs : list (Z * Extent)) : Prop :=
  match xs with
  | [] => pos = fin
  | (i, e) :: xs =>
      ∃ l, 0 ≤ i ∧ ls !! Z.to_nat i = Some l ∧ 0 ≤ Start e ∧ 0 ≤ eLength e ∧ eLength e = Z.min (l - Start e) (fin - pos) ∧
           (0 < eLength e ∨ l = 0) ∧ segStart ls (Z.to_nat i) + Start e = pos ∧ tiles ls (pos + eLength e) fin xs
  end.

Lemma segStart_S ls k l : ls !! k = Some l → segStart ls (S k) = segStart ls k + l.
Proof. intros H. unfold segStart. rewrite (take_S_r _ _ _ H), Zsum_app. cbn. lia. Qed.

Lemma Zsum_Forall_nonneg ls : Forall (λ l, 0 ≤ l) ls → 0 ≤ Zsum ls.
Proof. unfold Zsum. induction 1; cbn; lia. Qed.

Lemma Zsum_ge ls l : Forall (λ l, 0 ≤ l) ls → l ∈ ls → l ≤ Zsum ls.
Proof.
  induction 1 as [|x ls Hx Hf IH]; intros Hl; [by apply elem_of_nil in Hl|].
  pose proof (Zsum_Forall_nonneg ls Hf). change (Zsum (x :: ls)) with (x + Zsum ls).
  apply elem_of_cons in Hl as [->|Hl%IH]; lia.
Qed.

Section Laws.
Context (ls : list Z) (Hpos : Forall (λ l, 0 ≤ l) ls) (Hsum : Zsum ls < 2 ^ 63).

Lemma segStart_nonneg k : 0 ≤ segStart ls k.
Proof using Hpos. apply Zsum_Forall_nonneg. by apply Forall_take. Qed.

Lemma Zsum_split k : Zsum ls = segStart ls k + Zsum (drop k ls).
Proof. unfold segStart. by rewrite <- Zsum_app, take_drop. Qed.

Lemma Zsum_drop_nonneg k : 0 ≤ Zsum (drop k ls).
Proof using Hpos. apply Zsum_Forall_nonneg. by apply Forall_drop. Qed.

Lemma segStart_mono j k : (j ≤ k)%nat → segStart ls j ≤ segStart ls k.
Proof using Hpos.
  intros H. unfold segStart. replace k with (j + (k - j))%nat by lia.
  rewrite <- take_take_drop, Zsum_app.
  pose proof (Zsum_Forall_nonneg (take (k - j) (drop j ls)) ltac:(by apply Forall_take, Forall_drop)). lia.
Qed.

(** The calls of a scan that is [k] segments in and has to cover [len] bytes
    from offset [s] of the current segment. *)
Fixpoint visits (k : Z) (hay : list Z) (s len : Z) : list (Z * Extent) :=
  if len =? 0 then []
  else
    match hay with
    | [] => []
    | l :: hay =>
        if (s <? l) || (s =? l) && (l =? 0)
        then (k, mkExtent s (Z.min l (s + len) - s)) :: visits (k + 1) hay 0 (len - (Z.min l (s + len) - s))
        else visits (k + 1) hay (s - l) len
    end.

Lemma Scan_visits {S} (cb : S → Z → Extent → S * bool) off hay : ∀ k s len st,
  Forall (λ l, 0 ≤ l) hay → Zsum hay < 2 ^ 63 → 0 ≤ s → 0 ≤ len → s + len < 2 ^ 63 →
  (Scan (λ s i e, cb s (i + off) e) k hay (mkExtent s len) st).1 = runCalls cb (visits (k + off) hay s len) st.
Proof.
  clear Hpos Hsum. induction hay as [|l hay IH]; intros k s len st Hf Hs0 Hs Hl Hb; cbn [Scan visits eLength Start];
    (destruct (Z.eqb_spec len 0) as [->|Hl0]; [done|]); [done|].
  apply Forall_cons in Hf as [Hl' Hf]. pose proof (Zsum_Forall_nonneg hay Hf). change (Zsum (l :: hay)) with (l + Zsum hay) in Hs0.
  destruct ((s <? l) || (s =? l) && (l =? 0)) eqn:Htest.
  - assert (Hsl : s ≤ l) by (apply orb_true_iff in Htest as [?%Z.ltb_lt|[?%Z.eqb_eq ?]%andb_true_iff]; lia).
    unfold End_; cbn [Start eLength]. rewrite (i64_small (s + len)), i64_small by lia.
    rewrite (proj2 (Z.leb_le _ _)) by lia. cbn [runCalls].
    destruct (cb st (k + off) _) as [st' []]; [|done]. rewrite i64_small by lia.
    rewrite IH by (done || lia). by replace (k + 1 + off) with (k + off + 1) by lia.
  - assert (Hsl : l ≤ s) by (apply orb_false_iff in Htest as [?%Z.ltb_ge _]; lia).
    rewrite i64_small by lia. rewrite IH by (done || lia). by replace (k + 1 + off) with (k + off + 1) by lia.
Qed.

(** A callback that accepts everything sees a needle inside of the segments
    to its end. *)
Lemma Scan_found {S} (cb : S → Z → Extent → S * bool) hay : (∀ st i e, (cb st i e).2 = true) → ∀ k s len st,
  Forall (λ l, 0 ≤ l) hay → Zsum hay < 2 ^ 63 → 0 ≤ s → 0 ≤ len → s + len ≤ Zsum hay →
  (Scan cb k hay (mkExtent s len) st).2 = true.
Proof.
  clear Hpos Hsum. intros Hcb. induction hay as [|l hay IH]; intros k s len st Hf Hs0 Hs Hl Hb; cbn [Scan eLength Start];
    (destruct (Z.eqb_spec len 0) as [->|Hl0]; [done|]); [cbn in Hb; lia|].
  apply Forall_cons in Hf as [Hl' Hf]. pose proof (Zsum_Forall_nonneg hay Hf). change (Zsum (l :: hay)) with (l + Zsum hay) in *.
  destruct ((s <? l) || (s =? l) && (l =? 0)) eqn:Htest.
  - assert (Hsl : s ≤ l) by (apply orb_true_iff in Htest as [?%Z.ltb_lt|[?%Z.eqb_eq ?]%andb_true_iff]; lia).
    unfold End_; cbn [Start eLength]. rewrite (i64_small (s + len)), i64_small by lia.
    rewrite (proj2 (Z.leb_le _ _)) by lia. specialize (Hcb st k (mkExtent s (Z.min l (s + len) - s))).
    destruct (cb st k _) as [st' ok]. cbn in Hcb. subst ok. rewrite i64_small by lia. apply IH; done || lia.
  - assert (Hsl : l ≤ s) by (apply orb_false_iff in Htest as [?%Z.ltb_ge _]; lia).
    rewrite i64_small by lia. apply IH; done || lia.
Qed.

Lemma visits_tiles k : ∀ s len, (k ≤ length ls)%nat → 0 ≤ s → 0 ≤ len →
  segStart ls k + s ≤ Zsum ls →
  tiles ls (segStart ls k + s) (Z.min (segStart ls k + s + len) (Zsum ls)) (visits (Z.of_nat k) (drop k ls) s len).
Proof using Hpos.
  remember (length ls - k)%nat as n eqn:Hn. revert k Hn.
  induction n as [|n IH]; intros k Hn s len Hk Hs Hl Hin.
  - rewrite drop_ge by lia. pose proof (Zsum_split k) as Hsp. rewrite drop_ge in Hsp by lia. cbn in Hsp.
    cbn [visits]. destruct (len =? 0); cbn [tiles]; lia.
  - destruct (lookup_lt_is_Some_2 ls k) as [l Hlk]; [lia|]. rewrite (drop_S _ _ _ Hlk). cbn [visits].
    pose proof (proj1 (Forall_lookup _ _) Hpos _ _ Hlk) as Hl0. cbn in Hl0.
    destruct (Z.eqb_spec len 0) as [->|Hne]; [cbn [tiles]; lia|].
    pose proof (segStart_S _ _ _ Hlk) as HS. pose proof (Zsum_split (S k)). pose proof (Zsum_drop_nonneg (S k)).
    destruct ((s <? l) || (s =? l) && (l =? 0)) eqn:Htest.
    + assert (Hsl : s ≤ l) by (apply orb_true_iff in Htest as [?%Z.ltb_lt|[?%Z.eqb_eq ?]%andb_true_iff]; lia).
      cbn [tiles Start eLength]. exists l. rewrite Nat2Z.id. split_and!; [lia|done|lia|lia|lia| |lia|].
      { apply orb_true_iff in Htest as [?%Z.ltb_lt|[?%Z.eqb_eq ?%Z.eqb_eq]%andb_true_iff]; lia. }
      replace (Z.of_nat k + 1) with (Z.of_nat (S k)) by lia.
      destruct (Z.min_spec l (s + len)) as [[Hc ->]|[Hc ->]].
      * specialize (IH (S k) ltac:(lia) 0 (len - (l - s)) ltac:(lia) ltac:(lia) ltac:(lia) ltac:(lia)).
        rewrite HS in IH. replace (segStart ls k + s + (l - s)) with (segStart ls k + l + 0) by lia.
        by replace (segStart ls k + s + len) with (segStart ls k + l + 0 + (len - (l - s))) by lia.
      * replace (len - (s + len - s)) with 0 by lia.
        replace (visits _ _ _ _) with (@nil (Z * Extent)) by by destruct (drop (S k) ls). cbn [tiles]. lia.
    + assert (Hsl : l ≤ s) by (apply orb_false_iff in Htest as [?%Z.ltb_ge _]; lia).
      replace (Z.of_nat k + 1) with (Z.of_nat (S k)) by lia.
      specialize (IH (S k) ltac:(lia) (s - l) len ltac:(lia) ltac:(lia) Hl ltac:(lia)).
      rewrite HS in IH. by replace (segStart ls k + l + (s - l)) with (segStart ls k + s) in IH by lia.
Qed.

Lemma newIndexLoop_get : ∀ (hay : list Z) s k, 0 ≤ s → Forall (λ l, 0 ≤ l) hay → s + Zsum hay < 2 ^ 63 →
  newIndexLoop s hay !! k = (λ l, mkExtent (s + segStart hay k) l) <$> hay !! k.
Proof.
  clear Hpos Hsum. induction hay as [|l hay IH]; intros s k Hs Hf Hb; [by destruct k|].
  apply Forall_cons in Hf as [Hl Hf]. pose proof (Zsum_Forall_nonneg hay Hf).
  change (Zsum (l :: hay)) with (l + Zsum hay) in Hb. cbn [newIndexLoop]. rewrite i64_small by lia.
  destruct k as [|k]; cbn [lookup list_lookup].
  - cbn. do 2 f_equal. unfold segStart. cbn. lia.
  - rewrite IH by (done || lia). change (segStart (l :: hay) (S k)) with (l + segStart hay k).
    destruct (hay !! k); [|done]. cbn. do 2 f_equal. lia.
Qed.

Definition indexEnd (s : Z) (i : nat) : bool :=
  match newIndexLoop 0 ls !! i with Some e0 => s <? End_ e0 | None => false end.

Lemma indexEnd_spec s k : (k < length ls)%nat → indexEnd s k = (s <? segStart ls (S k)).
Proof using Hpos Hsum.
  intros Hk. destruct (lookup_lt_is_Some_2 ls k Hk) as [l Hl]. unfold indexEnd.
  rewrite newIndexLoop_get, Hl by (done || lia). cbn. unfold End_; cbn [Start eLength]. rewrite (segStart_S _ _ _ Hl).
  pose proof (segStart_nonneg k). pose proof (segStart_nonneg (S k)) as H1. rewrite (segStart_S _ _ _ Hl) in H1.
  pose proof (Zsum_split (S k)) as Hs. rewrite (segStart_S _ _ _ Hl) in Hs. pose proof (Zsum_drop_nonneg (S k)).
  by rewrite i64_small by lia.
Qed.

Lemma search_first s : 0 ≤ s →
  let first := sort_Search (length ls) (indexEnd s) in
  segStart ls first ≤ s ∧ (is_Some (ls !! first) → s < segStart ls (S first)) ∧ (s < Zsum ls → is_Some (ls !! first)).
Proof using Hpos Hsum.
  intros Hs first. destruct (sort_Search_spec (length ls) (indexEnd s)) as (Hle & Hlo & Hhi).
  { intros a b Hab. rewrite !indexEnd_spec by lia. pose proof (segStart_mono (S a) (S b) ltac:(lia)).
    rewrite !Z.ltb_lt. lia. }
  fold first in Hle, Hlo, Hhi. split.
  - destruct first as [|k]; [change (0 ≤ s); lia|].
    specialize (Hlo k ltac:(lia)). rewrite indexEnd_spec in Hlo by lia. by apply Z.ltb_ge in Hlo.
  - split.
    + intros [l Hd]. pose proof (lookup_lt_Some _ _ _ Hd). specialize (Hhi first ltac:(lia)).
      rewrite indexEnd_spec in Hhi by lia. by apply Z.ltb_lt in Hhi.
    + intros Hin. destruct (ls !! first) as [l|] eqn:Hd; [done|].
      apply lookup_ge_None in Hd. assert (Hk : first = length ls) by lia. clearbody first. subst first.
      destruct (length ls) as [|k] eqn:El; [destruct ls; [cbn in Hin; lia|done]|].
      specialize (Hlo k ltac:(lia)). rewrite indexEnd_spec in Hlo by lia. apply Z.ltb_ge in Hlo.
      rewrite <- El in Hlo. pose proof (Zsum_split (length ls)) as Hsp. rewrite drop_all in Hsp. cbn in Hsp. lia.
Qed.

Lemma Locate_found {S} (cb : S → Z → Extent → S * bool) s len st : (∀ st i e, (cb st i e).2 = true) →
  0 ≤ s → 0 ≤ len → s < Zsum ls → s + len ≤ Zsum ls →
  (Locate (NewIndex ls) (mkExtent s len) cb st).2 = true.
Proof using Hpos Hsum.
  intros Hcb Hs Hl Hin Hend. unfold Locate, NewIndex; cbn [segments Start eLength].
  assert (Hlen : length (newIndexLoop 0 ls) = length ls) by (by rewrite <- (length_map eLength), newIndexLoop_lens).
  rewrite Hlen. fold (indexEnd s). destruct (search_first s Hs) as (Hb & _ & Hf). destruct (Hf Hin) as [l Hd].
  rewrite newIndexLoop_get, Hd by (done || lia). cbn [fmap option_fmap option_map Start].
  pose proof (segStart_nonneg (sort_Search (length ls) (indexEnd s))).
  pose proof (Zsum_split (sort_Search (length ls) (indexEnd s))).
  rewrite Z.add_0_l, (i64_small (s - _)) by lia. rewrite <- skipn_map, newIndexLoop_lens.
  apply Scan_found; [intros st' i e; apply Hcb|by apply Forall_drop|lia..].
Qed.

(** [Locate] calls back parts that tile the needle as far as the segments
    reach; a needle that starts behind them is not called for at all. *)
Lemma Locate_tiles s len : 0 ≤ s → 0 ≤ len → s + len < 2 ^ 63 →
  ∃ xs, (∀ S (cb : S → Z → Extent → S * bool) st,
           (Locate (NewIndex ls) (mkExtent s len) cb st).1 = runCalls cb xs st) ∧
        (if s <? Zsum ls then tiles ls s (Z.min (s + len) (Zsum ls)) xs else xs = []).
Proof using Hpos Hsum.
  intros Hs Hl Hb. unfold Locate, NewIndex; cbn [segments Start eLength].
  assert (Hlen : length (newIndexLoop 0 ls) = length ls).
  { rewrite <- (length_map eLength), newIndexLoop_lens. done. }
  rewrite Hlen. fold (indexEnd s). destruct (search_first s Hs) as (Hbelow & Hfirst & _).
  set (first := sort_Search _ (indexEnd s)) in *. rewrite newIndexLoop_get by (done || lia).
  pose proof (segStart_nonneg first). pose proof (Zsum_split first). pose proof (Zsum_drop_nonneg first).
  destruct (ls !! first) as [l|] eqn:Hd; cbn [fmap option_fmap option_map].
  - pose proof (lookup_lt_Some _ _ _ Hd). specialize (Hfirst ltac:(done)).
    pose proof (Zsum_split (S first)). pose proof (Zsum_drop_nonneg (S first)).
    exists (visits (0 + Z.of_nat first) (drop first ls) (s - segStart ls first) len). split.
    + intros S cb st. cbn [Start]. rewrite Z.add_0_l, (i64_small (s - _)) by lia.
      rewrite <- skipn_map, newIndexLoop_lens. apply Scan_visits; [by apply Forall_drop|lia..].
    + rewrite (proj2 (Z.ltb_lt _ _)) by lia. rewrite Z.add_0_l.
      pose proof (visits_tiles first (s - segStart ls first) len ltac:(lia) ltac:(lia) Hl ltac:(lia)) as Ht.
      by replace (segStart ls first + (s - segStart ls first)) with s in Ht by lia.
  - apply lookup_ge_None in Hd. exists []. split; [done|].
    rewrite drop_ge in * by lia. cbn in *. by rewrite (proj2 (Z.ltb_ge _ _)) by lia.
Qed.
End Laws.
