(* ===== verification/RequestStrategy.v ===== *)
(** The request strategy: src/request-strategy/{order,piece-request-order,
    ajwerner-btree,peer,torrent}.go.

    Two third-party packages appear as type classes that state what the code
    relies on: [Multiless] (github.com/anacrolix/multiless, a lexicographic
    comparison built up call by call) and [BtreeSet]
    (github.com/ajwerner/btree, an ordered set over a comparison).  Both have
    an instance, used by the witnesses. *)
From stdpp Require Import base numbers list strings gmap.
From Stdlib Require Import ZArith Lia Sorted.
From S2P Require Import Prelude.
Open Scope Z_scope.

(** ** multiless *)
Definition then_compare (c d : comparison) : comparison := match c with Eq => d | _ => c end.

Class Multiless : Type := {
  Computation : Type;
  ordering : Computation → comparison;
  ml_New : Computation;
  ml_Int : Computation → Z → Z → Computation;
  ml_Bool : Computation → bool → bool → Computation;
  ml_Cmp : Computation → Z → Computation;
  ml_Lazy : Computation → (unit → Computation) → Computation;
  ml_Less : Computation → bool;
  ml_Ok : Computation → bool;
  ml_OrderingInt : Computation → Z;
  ml_New_ord : ordering ml_New = Eq;
  ml_Int_ord c l r : ordering (ml_Int c l r) = then_compare (ordering c) (l ?= r);
  ml_Bool_ord c l r :
    ordering (ml_Bool c l r) = then_compare (ordering c) (Z.b2z l ?= Z.b2z r);
  ml_Cmp_ord c i : ordering (ml_Cmp c i) = then_compare (ordering c) (i ?= 0);
  ml_Lazy_ord c f : ordering (ml_Lazy c f) = then_compare (ordering c) (ordering (f tt));
  ml_Less_ord c : ml_Less c = match ordering c with Lt => true | _ => false end;
  ml_Ok_ord c : ml_Ok c = match ordering c with Eq => false | _ => true end;
  ml_OrderingInt_ord c :
    ml_OrderingInt c = match ordering c with Lt => -1 | Eq => 0 | Gt => 1 end
}.

Create Rewrite HintDb multiless.
#[export] Hint Rewrite @ml_New_ord @ml_Int_ord @ml_Bool_ord @ml_Cmp_ord @ml_Lazy_ord
  @ml_Less_ord @ml_Ok_ord @ml_OrderingInt_ord : multiless.

(** The comparison itself is a model of the class. *)
#[export] Instance comparison_Multiless : Multiless.
Proof.
  refine {|
    Computation := comparison;
    ordering := λ c, c;
    ml_New := Eq;
    ml_Int := λ c l r, then_compare c (l ?= r);
    ml_Bool := λ c l r, then_compare c (Z.b2z l ?= Z.b2z r);
    ml_Cmp := λ c i, then_compare c (i ?= 0);
    ml_Lazy := λ c f, then_compare c (f tt);
    ml_Less := λ c, match c with Lt => true | _ => false end;
    ml_Ok := λ c, match c with Eq => false | _ => true end;
    ml_OrderingInt := λ c, match c with Lt => -1 | Eq => 0 | Gt => 1 end
  |}; reflexivity.
Defined.

(** ** Data: piece-request-order.go *)
Record PieceRequestOrderKey : Type := mkKey { InfoHash : list Z; keyIndex : Z }.

Record PieceRequestOrderState : Type := mkPState {
  Priority : Z;
  Partial : bool;
  Availability : Z
}.

Record pieceRequestOrderItem : Type := mkItem {
  key : PieceRequestOrderKey;
  state : PieceRequestOrderState
}.

#[export] Instance key_eq_dec : EqDecision PieceRequestOrderKey.
Proof. solve_decision. Defined.
#[export] Instance pstate_eq_dec : EqDecision PieceRequestOrderState.
Proof. solve_decision. Defined.
#[export] Instance item_eq_dec : EqDecision pieceRequestOrderItem.
Proof. solve_decision. Defined.
#[export] Instance key_countable : Countable PieceRequestOrderKey.
Proof.
  refine (inj_countable' (λ k, (InfoHash k, keyIndex k)) (λ '(h, i), mkKey h i) _). by intros [].
Defined.

(** [bytes.Compare]. *)
Fixpoint bytes_compare (a b : list Z) : comparison :=
  match a, b with
  | [], [] => Eq
  | [], _ => Lt
  | _, [] => Gt
  | x :: a, y :: b => then_compare (x ?= y) (bytes_compare a b)
  end.

Definition bytes_Compare (a b : list Z) : Z :=
  match bytes_compare a b with Lt => -1 | Eq => 0 | Gt => 1 end.

Section Order.
Context `{Multiless}.

Definition pieceOrderLess (i j : pieceRequestOrderItem) : Computation :=
  ml_Lazy
    (ml_Int
       (ml_Int
          (ml_Bool
             (ml_Int ml_New (Priority (state j)) (Priority (state i)))
             (Partial (state j)) (Partial (state i)))
          (Availability (state i)) (Availability (state j)))
       (keyIndex (key i)) (keyIndex (key j)))
    (λ _, ml_Cmp ml_New (bytes_Compare (InfoHash (key i)) (InfoHash (key j)))).

Definition item_Less (me other : pieceRequestOrderItem) : bool := ml_Less (pieceOrderLess me other).

Definition item_cmp (t t2 : pieceRequestOrderItem) : Z := ml_OrderingInt (pieceOrderLess t t2).
End Order.

(** ** The ordered set of ajwerner/btree

    [bt_elems] is what an iteration from [First] delivers. *)
Class BtreeSet (cmp : pieceRequestOrderItem → pieceRequestOrderItem → Z) (T : Type) : Type := {
  bt_elems : T → list pieceRequestOrderItem;
  bt_Make : T;
  bt_Upsert : T → pieceRequestOrderItem → T * bool;
  bt_Delete : T → pieceRequestOrderItem → T * bool;
  bt_Make_elems : bt_elems bt_Make = [];
  bt_sorted t : StronglySorted (λ a b, cmp a b < 0) (bt_elems t);
  bt_Upsert_overwrote t x : (bt_Upsert t x).2 = true ↔ ∃ y, y ∈ bt_elems t ∧ cmp x y = 0;
  bt_Upsert_elems t x y :
    y ∈ bt_elems (bt_Upsert t x).1 ↔ y = x ∨ (y ∈ bt_elems t ∧ cmp x y ≠ 0);
  bt_Delete_deleted t x : (bt_Delete t x).2 = true ↔ ∃ y, y ∈ bt_elems t ∧ cmp x y = 0;
  bt_Delete_elems t x y : y ∈ bt_elems (bt_Delete t x).1 ↔ y ∈ bt_elems t ∧ cmp x y ≠ 0
}.

(** ** ajwerner-btree.go and piece-request-order.go *)
Section PieceRequestOrder.
Context `{Multiless} {T : Type} {BT : BtreeSet item_cmp T}.

(** [mustValue] panics. *)
Definition btree_Delete (a : T) (item : pieceRequestOrderItem) : go T :=
  let '(a', deleted) := bt_Delete a item in
  _ ← guard_go deleted "item"; Ok a'.

Definition btree_Add (a : T) (item : pieceRequestOrderItem) : go T :=
  let '(a', overwrote) := bt_Upsert a item in
  _ ← guard_go (negb overwrote) "item"; Ok a'.

Record PieceRequestOrder : Type := mkPRO {
  tree : T;
  keys : gmap PieceRequestOrderKey PieceRequestOrderState
}.

Definition NewPieceOrder : PieceRequestOrder := mkPRO bt_Make ∅.

Definition PRO_Add (me : PieceRequestOrder) (k : PieceRequestOrderKey) (s : PieceRequestOrderState) :
    go PieceRequestOrder :=
  match keys me !! k with
  | Some _ => Panic "key"
  | None =>
      t ← btree_Add (tree me) (mkItem k s);
      Ok (mkPRO t (<[k := s]> (keys me)))
  end.

Definition PRO_Update (me : PieceRequestOrder) (k : PieceRequestOrderKey) (s : PieceRequestOrderState) :
    go PieceRequestOrder :=
  match keys me !! k with
  | None => Panic "key should have been added already"
  | Some oldState =>
      if decide (s = oldState) then Ok me
      else
        t ← btree_Delete (tree me) (mkItem k oldState);
        t ← btree_Add t (mkItem k s);
        Ok (mkPRO t (<[k := s]> (keys me)))
  end.

(** The zero value of [PieceRequestOrderState], for a map read of an absent
    key. *)
Definition PState0 : PieceRequestOrderState := mkPState 0 false 0.

Definition existingItemForKey (me : PieceRequestOrder) (k : PieceRequestOrderKey) : pieceRequestOrderItem :=
  mkItem k (default PState0 (keys me !! k)).

Definition PRO_Delete (me : PieceRequestOrder) (k : PieceRequestOrderKey) : go PieceRequestOrder :=
  t ← btree_Delete (tree me) (mkItem k (default PState0 (keys me !! k)));
  Ok (mkPRO t (delete k (keys me))).

Definition PRO_Len (me : PieceRequestOrder) : Z := Z.of_nat (size (keys me)).

(** ** order.go: GetRequestablePieces *)
Record RSTorrent : Type := mkRSTorrent { IgnorePiece : Z → bool; RSPieceLength : Z }.

Record Input : Type := mkInput {
  Torrent : list Z → RSTorrent;
  Capacity : option Z;        (** [None] is [!capped] *)
  MaxUnverifiedBytes : Z
}.

(** The variables the scan's callback closes over. *)
Record ScanState : Type := mkScan {
  storageLeft : option Z;
  allTorrentsUnverifiedBytes : Z;
  lastItem : option pieceRequestOrderItem
}.

(** The callback that [GetRequestablePieces] hands to [Scan]: whether the
    scan goes on, and the variables after it.  [f] threads a state of its
    own. *)
Definition visitPiece {S : Type} (input : Input) (f : S → pieceRequestOrderItem → S)
    (st : ScanState) (s : S) (_i : pieceRequestOrderItem) : go (bool * ScanState * S) :=
  _ ← guard_go (match lastItem st with Some l => negb (item_Less _i l) | None => true end)
        "scan not in order";
  let t := Torrent input (InfoHash (key _i)) in
  let pieceLength := RSPieceLength t in
  let unverified := allTorrentsUnverifiedBytes st in
  if match storageLeft st with Some room => room <? pieceLength | None => false end
  then Ok (false, mkScan (storageLeft st) unverified (Some _i), s)
  else
    let room := match storageLeft st with Some room => Some (i64 (room - pieceLength)) | None => None end in
    if IgnorePiece t (keyIndex (key _i)) then Ok (true, mkScan room unverified (Some _i), s)
    else if negb (MaxUnverifiedBytes input =? 0) && (MaxUnverifiedBytes input <? i64 (unverified + pieceLength))
    then Ok (true, mkScan room unverified (Some _i), s)
    else Ok (true, mkScan room (i64 (unverified + pieceLength)) (Some _i), f s _i).

(** [ajwernerBtree.Scan] over the elements the iterator delivers: stops where
    the callback returns false. *)
Fixpoint btree_Scan {S : Type} (callback : ScanState → S → pieceRequestOrderItem → go (bool * ScanState * S))
    (st : ScanState) (s : S) (items : list pieceRequestOrderItem) : go S :=
  match items with
  | [] => Ok s
  | _i :: items =>
      '(more, st, s) ← callback st s _i;
      if more : bool then btree_Scan callback st s items else Ok s
  end.

Definition GetRequestablePieces {S : Type} (input : Input) (pro : PieceRequestOrder)
    (f : S → pieceRequestOrderItem → S) (s : S) : go S :=
  btree_Scan (visitPiece input f) (mkScan (Capacity input) 0 None) s (bt_elems (tree pro)).
End PieceRequestOrder.
Arguments PieceRequestOrder : clear implicits.

(** ** The order *)
Lemma then_compare_opp a b : CompOpp (then_compare a b) = then_compare (CompOpp a) (CompOpp b).
Proof. by destruct a. Qed.

Lemma then_compare_Eq a b : then_compare a b = Eq ↔ a = Eq ∧ b = Eq.
Proof. destruct a; cbn; naive_solver. Qed.

(** Lexicographic combination keeps transitivity. *)
Lemma then_compare_trans (a1 a2 a3 b1 b2 b3 : comparison) :
  (a1 = Lt → a2 ≠ Gt → a3 = Lt) → (a2 = Lt → a1 ≠ Gt → a3 = Lt) → (a1 = Eq → a2 = Eq → a3 = Eq) →
  (b1 = Lt → b2 = Lt → b3 = Lt) →
  then_compare a1 b1 = Lt → then_compare a2 b2 = Lt → then_compare a3 b3 = Lt.
Proof. destruct a1, a2, a3, b1, b2, b3; cbn; naive_solver. Qed.

Lemma bytes_compare_opp a : ∀ b, bytes_compare b a = CompOpp (bytes_compare a b).
Proof.
  induction a as [|x a IH]; intros [|y b]; cbn; try done.
  by rewrite then_compare_opp, IH, Z.compare_antisym.
Qed.

Lemma bytes_compare_Eq a : ∀ b, bytes_compare a b = Eq ↔ a = b.
Proof.
  induction a as [|x a IH]; intros [|y b]; cbn; try done.
  rewrite then_compare_Eq, Z.compare_eq_iff, IH. naive_solver.
Qed.

Ltac lex_trans :=
  apply then_compare_trans;
  rewrite ?Z.compare_lt_iff, ?Z.compare_eq_iff, ?Z.compare_gt_iff; try lia.

Lemma bytes_compare_trans a : ∀ b c,
  bytes_compare a b = Lt → bytes_compare b c = Lt → bytes_compare a c = Lt.
Proof.
  induction a as [|x a IH]; intros [|y b] [|z c]; cbn; try done. lex_trans. apply IH.
Qed.

Section OrderLaws.
Context `{Multiless}.

(** The comparison spelled out. *)
Definition item_compare (i j : pieceRequestOrderItem) : comparison :=
  then_compare (Priority (state j) ?= Priority (state i))
    (then_compare (Z.b2z (Partial (state j)) ?= Z.b2z (Partial (state i)))
       (then_compare (Availability (state i) ?= Availability (state j))
          (then_compare (keyIndex (key i) ?= keyIndex (key j))
             (bytes_compare (InfoHash (key i)) (InfoHash (key j)))))).

Lemma pieceOrderLess_ordering i j : ordering (pieceOrderLess i j) = item_compare i j.
Proof.
  unfold pieceOrderLess, item_compare, bytes_Compare. autorewrite with multiless. cbn [then_compare].
  destruct (Priority (state j) ?= _), (Z.b2z (Partial (state j)) ?= _), (Availability _ ?= _),
    (keyIndex _ ?= _), (bytes_compare _ _); reflexivity.
Qed.

Lemma item_cmp_compare i j :
  item_cmp i j = match item_compare i j with Lt => -1 | Eq => 0 | Gt => 1 end.
Proof. unfold item_cmp. by rewrite ml_OrderingInt_ord, pieceOrderLess_ordering. Qed.

Lemma item_compare_opp i j : item_compare j i = CompOpp (item_compare i j).
Proof.
  unfold item_compare. rewrite !then_compare_opp, (bytes_compare_opp (InfoHash (key i))).
  do 4 (apply f_equal2; [apply Z.compare_antisym|]). reflexivity.
Qed.

Lemma item_compare_Eq i j : item_compare i j = Eq ↔ i = j.
Proof.
  unfold item_compare. rewrite !then_compare_Eq, !Z.compare_eq_iff, bytes_compare_Eq.
  destruct i as [[] [? p ?]], j as [[] [? q ?]]; cbn.
  split; [|by intros [=]; subst]. intros (-> & Hp & -> & -> & ->).
  by destruct p, q.
Qed.

Lemma item_compare_trans i j k :
  item_compare i j = Lt → item_compare j k = Lt → item_compare i k = Lt.
Proof. unfold item_compare. do 4 lex_trans. apply bytes_compare_trans. Qed.

Lemma item_cmp_lt i j : item_cmp i j < 0 ↔ item_compare i j = Lt.
Proof. rewrite item_cmp_compare. destruct (item_compare i j); split; done || lia. Qed.

Lemma item_cmp_eq i j : item_cmp i j = 0 ↔ i = j.
Proof. rewrite item_cmp_compare, <- item_compare_Eq. destruct (item_compare i j); split; done || lia. Qed.

Lemma item_Less_compare i j :
  item_Less i j = match item_compare i j with Lt => true | _ => false end.
Proof. unfold item_Less. by rewrite ml_Less_ord, pieceOrderLess_ordering. Qed.

Lemma item_Less_Lt i j : item_Less i j = true ↔ item_compare i j = Lt.
Proof. rewrite item_Less_compare. by destruct (item_compare i j). Qed.

(** The order in which pieces are requested is a strict total order on
    items: [Less] is irreflexive and transitive, two different items are
    always ordered one way, and the tree's comparison is zero only on equal
    items, so no piece hides another one. *)
Theorem pieceOrderLess_total i j k :
  item_Less i i = false ∧
  (item_Less i j && item_Less j k = true → item_Less i k = true) ∧
  (i ≠ j ↔ xorb (item_Less i j) (item_Less j i) = true) ∧
  (item_cmp i j = 0 ↔ i = j).
Proof.
  split_and!.
  - by rewrite item_Less_compare, (proj2 (item_compare_Eq i i) eq_refl).
  - rewrite andb_true_iff, !item_Less_Lt. intros []. by eapply item_compare_trans.
  - rewrite <- item_compare_Eq, !item_Less_compare, (item_compare_opp i j).
    destruct (item_compare i j); cbn; naive_solver.
  - apply item_cmp_eq.
Qed.
End OrderLaws.

(** ** The ordered set as a sorted list: an instance of [BtreeSet] *)
Section SortedList.
Context `{Multiless}.

Abbreviation ltI := (λ a b, item_cmp a b < 0).

Record sorted_items : Type := mkSorted { si_list : list pieceRequestOrderItem; si_ok : StronglySorted ltI si_list }.

Fixpoint insert_item (x : pieceRequestOrderItem) (l : list pieceRequestOrderItem) : list pieceRequestOrderItem :=
  match l with
  | [] => [x]
  | y :: l => if item_cmp x y <? 0 then x :: y :: l
              else if item_cmp x y =? 0 then x :: l else y :: insert_item x l
  end.

Definition remove_item (x : pieceRequestOrderItem) (l : list pieceRequestOrderItem) : list pieceRequestOrderItem :=
  filter (λ y, item_cmp x y ≠ 0) l.

Definition has_item (x : pieceRequestOrderItem) (l : list pieceRequestOrderItem) : bool :=
  existsb (λ y, item_cmp x y =? 0) l.

Lemma elem_insert_item x l y : y ∈ insert_item x l ↔ y = x ∨ (y ∈ l ∧ item_cmp x y ≠ 0).
Proof.
  rewrite item_cmp_eq. induction l as [|z l IH]; cbn [insert_item]; [set_solver|].
  destruct (Z.ltb_spec (item_cmp x z) 0); [|destruct (Z.eqb_spec (item_cmp x z) 0) as [->%item_cmp_eq|]].
  - destruct (decide (x = y)); set_solver.
  - destruct (decide (z = y)); set_solver.
  - rewrite !elem_of_cons, IH, item_cmp_eq in *. destruct (decide (x = y)); naive_solver.
Qed.

Lemma ltI_trans x y z : item_cmp x y < 0 → item_cmp y z < 0 → item_cmp x z < 0.
Proof. rewrite !item_cmp_lt. apply item_compare_trans. Qed.

Lemma insert_item_sorted x l : StronglySorted ltI l → StronglySorted ltI (insert_item x l).
Proof.
  induction 1 as [|z l Hl IH Hz]; cbn [insert_item]; [repeat constructor|].
  destruct (Z.ltb_spec (item_cmp x z) 0); [|destruct (Z.eqb_spec (item_cmp x z) 0) as [->%item_cmp_eq|]].
  - repeat constructor; try done. eapply Forall_impl; [exact Hz|]. intros y. by apply ltI_trans.
  - by constructor.
  - constructor; [done|]. apply Forall_forall. intros y [->|[Hy _]]%elem_insert_item.
    + rewrite item_cmp_lt, (item_compare_opp x z). rewrite item_cmp_compare in *.
      destruct (item_compare x z); cbn; done || lia.
    + by eapply Forall_forall in Hz.
Qed.

Lemma has_item_spec x l : has_item x l = true ↔ ∃ y, y ∈ l ∧ item_cmp x y = 0.
Proof.
  unfold has_item. rewrite existsb_exists. setoid_rewrite list_elem_of_In. by setoid_rewrite Z.eqb_eq.
Qed.

#[export] Instance sorted_BtreeSet : BtreeSet item_cmp sorted_items.
Proof.
  refine {|
    bt_elems := si_list;
    bt_Make := mkSorted [] (SSorted_nil _);
    bt_Upsert t x := (mkSorted (insert_item x (si_list t)) (insert_item_sorted x _ (si_ok t)),
                      has_item x (si_list t));
    bt_Delete t x := (mkSorted (remove_item x (si_list t)) (StronglySorted_filter _ _ _ (si_ok t)),
                      has_item x (si_list t))
  |}.
  - done.
  - apply si_ok.
  - intros t x. apply has_item_spec.
  - intros t x y. apply elem_insert_item.
  - intros t x. apply has_item_spec.
  - intros t x y. cbn. unfold remove_item. rewrite list_elem_of_filter. naive_solver.
Defined.
End SortedList.

(** ** The order as a map from pieces to their state

    The abstract state is the map alone; [PRO_ok] ties the tree to it. *)
Section Refinement.
Context `{Multiless} {T : Type} {BT : BtreeSet item_cmp T}.
Implicit Types (me : PieceRequestOrder T) (k : PieceRequestOrderKey) (s : PieceRequestOrderState).

Definition PRO_ok me : Prop := ∀ i, i ∈ bt_elems (tree me) ↔ keys me !! key i = Some (state i).

Lemma btree_Add_Ok (t : T) i :
  i ∉ bt_elems t → ∃ t', btree_Add t i = Ok t' ∧ ∀ y, y ∈ bt_elems t' ↔ y = i ∨ y ∈ bt_elems t.
Proof.
  intros Hi. unfold btree_Add. pose proof (bt_Upsert_overwrote t i) as Ho.
  pose proof (bt_Upsert_elems t i) as He. destruct (bt_Upsert t i) as [t' []]; cbn in *.
  - destruct Ho as [(y & Hy & ->%item_cmp_eq) _]; done.
  - exists t'. split; [done|]. intros y. rewrite He, item_cmp_eq. split; [naive_solver|].
    intros [->|Hy]; [by left|]. right. split; [done|]. by intros ->.
Qed.

Lemma btree_Delete_Ok (t : T) i :
  i ∈ bt_elems t → ∃ t', btree_Delete t i = Ok t' ∧ ∀ y, y ∈ bt_elems t' ↔ y ∈ bt_elems t ∧ y ≠ i.
Proof.
  intros Hi. unfold btree_Delete. pose proof (bt_Delete_deleted t i) as Ho.
  pose proof (bt_Delete_elems t i) as He. destruct (bt_Delete t i) as [t' []]; cbn in *.
  - exists t'. split; [done|]. intros y. rewrite He, item_cmp_eq. naive_solver.
  - destruct Ho as [_ Ho]. discriminate Ho. exists i. by rewrite item_cmp_eq.
Qed.

Lemma btree_Delete_Panic (t : T) i : i ∉ bt_elems t → btree_Delete t i = Panic "item".
Proof.
  intros Hi. unfold btree_Delete. pose proof (bt_Delete_deleted t i) as Ho.
  destruct (bt_Delete t i) as [t' []]; cbn in *; [|done].
  destruct Ho as [(y & Hy & ->%item_cmp_eq) _]; done.
Qed.

Lemma NewPieceOrder_ok : PRO_ok NewPieceOrder.
Proof. intros i. cbn. rewrite bt_Make_elems, lookup_empty. split; [by intros ?%not_elem_of_nil | done]. Qed.

(** A call that is [Ok] exactly when [ok], and then moves the map to [m]
    and keeps the tree in step. *)
Definition refines_map (r : go (PieceRequestOrder T)) (ok : bool) (m : gmap PieceRequestOrderKey PieceRequestOrderState) : Prop :=
  if ok then ∃ me', r = Ok me' ∧ keys me' = m ∧ PRO_ok me' else ∃ w, r = Panic w.

Lemma item_eta i : i = mkItem (key i) (state i).
Proof. by destruct i. Qed.

Lemma PRO_Add_refines me k s :
  PRO_ok me → refines_map (PRO_Add me k s) (bool_decide (keys me !! k = None)) (<[k := s]> (keys me)).
Proof.
  intros Hok. unfold refines_map, PRO_Add. unfold PRO_ok in *. destruct (keys me !! k) eqn:Ek; cbn; [eauto|].
  destruct (btree_Add_Ok (tree me) (mkItem k s)) as (t' & -> & Ht').
  { rewrite Hok. cbn. congruence. }
  eexists. split_and!; [reflexivity..|]. intros i. cbn. rewrite Ht', Hok, lookup_insert_Some.
  destruct i as [ki si]; cbn. split; [intros [[= -> ->]|Hi]; [by left|]|naive_solver].
  right. split; [congruence|done].
Qed.

Lemma PRO_Update_refines me k s :
  PRO_ok me → refines_map (PRO_Update me k s) (bool_decide (is_Some (keys me !! k))) (<[k := s]> (keys me)).
Proof.
  intros Hok. unfold refines_map, PRO_Update. unfold PRO_ok in *. destruct (keys me !! k) as [old|] eqn:Ek.
  2: { cbn; eauto. }
  cbn. case_decide as Es.
  { subst. exists me. rewrite insert_id by done. done. }
  destruct (btree_Delete_Ok (tree me) (mkItem k old)) as (t1 & -> & H1); [by rewrite Hok|]. cbn.
  destruct (btree_Add_Ok t1 (mkItem k s)) as (t2 & -> & H2).
  { rewrite H1, Hok. cbn. naive_solver congruence. }
  eexists. split_and!; [reflexivity..|]. intros [ki si]. cbn.
  rewrite H2, H1, Hok, lookup_insert_Some. cbn. split.
  - intros [[= -> ->]|[Hi Hne]]; [by left|]. right. split; [|done]. intros <-.
    apply Hne. f_equal. congruence.
  - intros [[-> ->]|[Hne Hi]]; [by left|]. right. split; [done|]. by intros [= -> ->].
Qed.

Lemma PRO_Delete_refines me k :
  PRO_ok me → refines_map (PRO_Delete me k) (bool_decide (is_Some (keys me !! k))) (delete k (keys me)).
Proof.
  intros Hok. unfold refines_map, PRO_Delete. unfold PRO_ok in *. destruct (keys me !! k) as [old|] eqn:Ek; cbn.
  - destruct (btree_Delete_Ok (tree me) (mkItem k old)) as (t1 & -> & H1); [by rewrite Hok|].
    eexists. split_and!; [reflexivity..|]. intros [ki si]. cbn.
    rewrite H1, Hok, lookup_delete_Some. cbn. split.
    + intros [Hi Hne]. split; [|done]. intros <-. apply Hne. f_equal. congruence.
    + intros [Hne Hi]. split; [done|]. by intros [= -> ->].
  - rewrite btree_Delete_Panic; [cbn; eauto|]. rewrite Hok. cbn. congruence.
Qed.

Inductive pro_op : Type :=
| OpAdd k s
| OpUpdate k s
| OpDelete k.

Definition run_op me (o : pro_op) : go (PieceRequestOrder T) :=
  match o with
  | OpAdd k s => PRO_Add me k s
  | OpUpdate k s => PRO_Update me k s
  | OpDelete k => PRO_Delete me k
  end.

(** What the operation does to the map, [None] where it panics. *)
Definition abs_op (m : gmap PieceRequestOrderKey PieceRequestOrderState) (o : pro_op) :
    option (gmap PieceRequestOrderKey PieceRequestOrderState) :=
  match o with
  | OpAdd k s => if decide (m !! k = None) then Some (<[k := s]> m) else None
  | OpUpdate k s => if decide (is_Some (m !! k)) then Some (<[k := s]> m) else None
  | OpDelete k => if decide (is_Some (m !! k)) then Some (delete k m) else None
  end.

Fixpoint run_ops me (os : list pro_op) : go (PieceRequestOrder T) :=
  match os with [] => Ok me | o :: os => me ← run_op me o; run_ops me os end.

Fixpoint abs_ops m (os : list pro_op) :=
  match os with [] => Some m | o :: os => m ← abs_op m o; abs_ops m os end.

Lemma run_op_refines me o :
  PRO_ok me →
  match abs_op (keys me) o with
  | Some m => ∃ me', run_op me o = Ok me' ∧ keys me' = m ∧ PRO_ok me'
  | None => ∃ w, run_op me o = Panic w
  end.
Proof.
  intros Hok. destruct o as [k s|k s|k]; cbn [abs_op run_op].
  - pose proof (PRO_Add_refines me k s Hok) as Hr. unfold refines_map in Hr.
    by destruct (keys me !! k).
  - pose proof (PRO_Update_refines me k s Hok) as Hr. unfold refines_map in Hr.
    by destruct (keys me !! k).
  - pose proof (PRO_Delete_refines me k Hok) as Hr. unfold refines_map in Hr.
    by destruct (keys me !! k).
Qed.

(** C16.  The piece request order refines a map from pieces to states: any
    sequence of [Add], [Update] and [Delete] from a new order panics exactly
    where the map has no (or already has) the key, ends with that map, and
    its tree then iterates over exactly the items of the map, each once and
    in order. *)
Theorem pieceRequestOrder_refines (os : list pro_op) :
  match abs_ops ∅ os with
  | Some m => ∃ me', run_ops NewPieceOrder os = Ok me' ∧ keys me' = m ∧
      (∀ i, i ∈ bt_elems (tree me') ↔ m !! key i = Some (state i)) ∧
      StronglySorted (λ a b, item_Less a b = true) (bt_elems (tree me'))
  | None => ∃ w, run_ops NewPieceOrder os = Panic w
  end.
Proof.
  assert (Hgen : ∀ me, PRO_ok me →
    match abs_ops (keys me) os with
    | Some m => ∃ me', run_ops me os = Ok me' ∧ keys me' = m ∧ PRO_ok me'
    | None => ∃ w, run_ops me os = Panic w
    end).
  { induction os as [|o os IH]; intros me Hok; cbn [abs_ops run_ops]; [eauto|].
    pose proof (run_op_refines me o Hok) as Ho. destruct (abs_op (keys me) o) as [m|]; cbn.
    - destruct Ho as (me' & -> & <- & Hok'). by apply IH.
    - destruct Ho as [w ->]. by exists w. }
  specialize (Hgen NewPieceOrder NewPieceOrder_ok). cbn [keys NewPieceOrder] in Hgen.
  destruct (abs_ops ∅ os); [|done]. destruct Hgen as (me' & -> & <- & Hok). exists me'. split_and!; try done.
  pose proof (bt_sorted (tree me')) as Hs. induction Hs; constructor; [done|].
  eapply Forall_impl; [eassumption|]. intros x. by rewrite item_cmp_lt, item_Less_Lt.
Qed.
End Refinement.

(** ** The scan for requestable pieces *)
Section Requestable.
Context `{Multiless} {T : Type} {BT : BtreeSet item_cmp T} (input : Input).

Definition itemLength (i : pieceRequestOrderItem) : Z := RSPieceLength (Torrent input (InfoHash (key i))).

Definition itemIgnored (i : pieceRequestOrderItem) : bool :=
  IgnorePiece (Torrent input (InfoHash (key i))) (keyIndex (key i)).

Definition totalLength (l : list pieceRequestOrderItem) : Z := Zsum (map itemLength l).

(** Piece lengths and limits are far from the ends of [int64]. *)
Record input_ok : Prop := {
  ri_length ih : 0 ≤ RSPieceLength (Torrent input ih) < 2 ^ 62;
  ri_max : 0 ≤ MaxUnverifiedBytes input < 2 ^ 62;
  ri_cap c : Capacity input = Some c → 0 ≤ c < 2 ^ 63
}.

Hypothesis Hin : input_ok.

Lemma itemLength_range i : 0 ≤ itemLength i < 2 ^ 62.
Proof. apply (ri_length Hin). Qed.

Lemma totalLength_cons i l : totalLength (i :: l) = itemLength i + totalLength l.
Proof. done. Qed.

Lemma totalLength_app l1 l2 : totalLength (l1 ++ l2) = totalLength l1 + totalLength l2.
Proof. unfold totalLength. by rewrite map_app, Zsum_app. Qed.

Lemma totalLength_filter_mono (P Q : pieceRequestOrderItem → Prop)
    `{∀ x, Decision (P x)} `{∀ x, Decision (Q x)} l :
  (∀ x, P x → Q x) → totalLength (filter P l) ≤ totalLength (filter Q l).
Proof.
  intros HPQ. induction l as [|x l IH]; [done|]. rewrite !filter_cons. pose proof (itemLength_range x).
  repeat case_decide; rewrite ?totalLength_cons; try lia. naive_solver.
Qed.

(** What a run of the scan over [items] from [st] has visited. *)
Record visited_ok (st : ScanState) (items vis : list pieceRequestOrderItem) : Prop := {
  vo_run S (f : S → pieceRequestOrderItem → S) s :
    btree_Scan (visitPiece input f) st s items = Ok (fold_left f vis s);
  vo_sub : vis `sublist_of` items;
  vo_live : Forall (λ i, itemIgnored i = false) vis;
  vo_max : MaxUnverifiedBytes input ≠ 0 →
    allTorrentsUnverifiedBytes st + totalLength vis ≤ MaxUnverifiedBytes input;
  vo_cap c : storageLeft st = Some c → totalLength vis ≤ c;
  vo_all pre i post : items = pre ++ i :: post → itemIgnored i = false → i ∉ vis →
    (∃ c, storageLeft st = Some c ∧ c < totalLength (pre ++ [i])) ∨
    (MaxUnverifiedBytes input ≠ 0 ∧
     MaxUnverifiedBytes input <
       allTorrentsUnverifiedBytes st + totalLength (filter (.∈ vis) pre) + itemLength i)
}.

Record scan_ok (st : ScanState) (items : list pieceRequestOrderItem) : Prop := {
  so_sorted : StronglySorted (λ a b, item_cmp a b < 0) items;
  so_last l : lastItem st = Some l → Forall (λ i, item_cmp l i < 0) items;
  so_max : MaxUnverifiedBytes input ≠ 0 → 0 ≤ allTorrentsUnverifiedBytes st ≤ MaxUnverifiedBytes input;
  so_cap c : storageLeft st = Some c → 0 ≤ c < 2 ^ 63
}.

Lemma visited_skip st i items vis room :
  visited_ok (mkScan room (allTorrentsUnverifiedBytes st) (Some i)) items vis →
  room = (match storageLeft st with Some c => Some (c - itemLength i) | None => None end) →
  (∀ S (f : S → _ → S) s, visitPiece input f st s i =
     Ok (true, mkScan room (allTorrentsUnverifiedBytes st) (Some i), s)) →
  (itemIgnored i = false → MaxUnverifiedBytes input ≠ 0 ∧
     MaxUnverifiedBytes input < allTorrentsUnverifiedBytes st + itemLength i) →
  visited_ok st (i :: items) vis.
Proof.
  intros [Hr Hs Hl Hm Hc Ha] Hroom Hv Hskip. pose proof (itemLength_range i). split.
  - intros S f s. cbn [btree_Scan]. rewrite Hv. cbn. apply Hr.
  - by constructor.
  - done.
  - done.
  - intros c Hcs. specialize (Hc (c - itemLength i)). cbn in Hc. rewrite Hroom, Hcs in Hc.
    specialize (Hc eq_refl). lia.
  - intros pre j post Hp Hj Hjv. destruct pre as [|x pre]; injection Hp as <- Hp.
    + right. destruct (Hskip Hj). split; [done|]. cbn. unfold totalLength, Zsum; cbn. lia.
    + destruct (Ha pre j post Hp Hj Hjv) as [(c & Hcs & Hlt)|[Hne Hlt]]; [left|right].
      * cbn in Hcs. destruct (storageLeft st) as [c0|]; [|congruence]. exists c0. split; [done|].
        cbn [app]. rewrite totalLength_cons. assert (c = c0 - itemLength i) by congruence. lia.
      * split; [done|]. cbn in Hlt. rewrite filter_cons. case_decide; rewrite ?totalLength_cons; lia.
Qed.

Lemma visited_take st i items vis room :
  visited_ok (mkScan room (i64 (allTorrentsUnverifiedBytes st + itemLength i)) (Some i)) items vis →
  room = (match storageLeft st with Some c => Some (c - itemLength i) | None => None end) →
  (∀ S (f : S → _ → S) s, visitPiece input f st s i =
     Ok (true, mkScan room (i64 (allTorrentsUnverifiedBytes st + itemLength i)) (Some i), f s i)) →
  itemIgnored i = false →
  (MaxUnverifiedBytes input ≠ 0 →
     i64 (allTorrentsUnverifiedBytes st + itemLength i) = allTorrentsUnverifiedBytes st + itemLength i) →
  visited_ok st (i :: items) (i :: vis).
Proof.
  intros [Hr Hs Hl Hm Hc Ha] Hroom Hv Hi Hw. pose proof (itemLength_range i). split.
  - intros S f s. cbn [btree_Scan]. rewrite Hv. cbn. apply Hr.
  - by constructor.
  - by constructor.
  - intros Hne. specialize (Hm Hne). cbn in Hm. rewrite (Hw Hne) in Hm. rewrite totalLength_cons. lia.
  - intros c Hcs. specialize (Hc (c - itemLength i)). cbn in Hc. rewrite Hroom, Hcs in Hc.
    specialize (Hc eq_refl). rewrite totalLength_cons. lia.
  - intros pre j post Hp Hj Hjv. destruct pre as [|x pre]; injection Hp as <- Hp; [set_solver|].
    destruct (Ha pre j post Hp Hj) as [(c & Hcs & Hlt)|[Hne Hlt]]; [set_solver|left|right].
    + cbn in Hcs. destruct (storageLeft st) as [c0|]; [|congruence]. exists c0. split; [done|].
      cbn [app]. rewrite totalLength_cons. assert (c = c0 - itemLength i) by congruence. lia.
    + split; [done|]. cbn in Hlt. rewrite (Hw Hne) in Hlt. rewrite filter_cons, decide_True by set_solver.
      rewrite totalLength_cons.
      assert (totalLength (filter (.∈ vis) pre) ≤ totalLength (filter (.∈ i :: vis) pre))
        by (apply totalLength_filter_mono; set_solver). lia.
Qed.

Definition outOfRoom (st : ScanState) (i : pieceRequestOrderItem) : bool :=
  match storageLeft st with Some c => c <? itemLength i | None => false end.

Definition roomAfter (st : ScanState) (i : pieceRequestOrderItem) : option Z :=
  match storageLeft st with Some c => Some (i64 (c - itemLength i)) | None => None end.

Definition overMax (st : ScanState) (i : pieceRequestOrderItem) : bool :=
  negb (MaxUnverifiedBytes input =? 0) &&
  (MaxUnverifiedBytes input <? i64 (allTorrentsUnverifiedBytes st + itemLength i)).

(** The scan delivers items in order, so the callback does not panic. *)
Lemma visitPiece_ordered {S} (f : S → pieceRequestOrderItem → S) st s i items :
  scan_ok st (i :: items) →
  visitPiece input f st s i =
  Ok (if outOfRoom st i then (false, mkScan (storageLeft st) (allTorrentsUnverifiedBytes st) (Some i), s)
      else if itemIgnored i || overMax st i
      then (true, mkScan (roomAfter st i) (allTorrentsUnverifiedBytes st) (Some i), s)
      else (true, mkScan (roomAfter st i) (i64 (allTorrentsUnverifiedBytes st + itemLength i)) (Some i), f s i)).
Proof.
  intros [_ Hlast _ _]. unfold visitPiece.
  replace (match lastItem st with Some l => negb (item_Less i l) | None => true end) with true.
  - cbn. unfold outOfRoom, overMax, roomAfter, itemIgnored, itemLength.
    destruct (storageLeft st) as [c|]; [destruct (c <? _); [done|]|];
      destruct (IgnorePiece _ _), (negb _ && _); done.
  - destruct (lastItem st) as [l|]; [|done]. specialize (Hlast l eq_refl).
    apply Forall_cons in Hlast as [Hl%item_cmp_lt _]. symmetry.
    apply negb_true_iff, not_true_iff_false. by rewrite item_Less_Lt, (item_compare_opp l i), Hl.
Qed.

Lemma totalLength_nonneg l : 0 ≤ totalLength l.
Proof. apply Zsum_nonneg. intros. apply itemLength_range. Qed.

(** A run that visits nothing more. *)
Lemma visited_nothing st items :
  scan_ok st items →
  (∀ S (f : S → pieceRequestOrderItem → S) s, btree_Scan (visitPiece input f) st s items = Ok s) →
  (∀ i items', items = i :: items' → outOfRoom st i = true) →
  visited_ok st items [].
Proof.
  intros [_ _ Hmax Hcap] Hrun Hroom. split; try done.
  - apply sublist_nil_l.
  - intros Hne. specialize (Hmax Hne). unfold totalLength, Zsum. cbn. lia.
  - intros c Hc. specialize (Hcap c Hc). unfold totalLength, Zsum. cbn. lia.
  - intros pre j post Hp _ _. left. assert (∃ i items', items = i :: items' ∧
      itemLength i ≤ totalLength (pre ++ [j])) as (i & items' & Hi & Hle).
    { rewrite Hp. destruct pre as [|x pre]; eexists _, _; (split; [done|]); cbn [app]; rewrite totalLength_cons.
      - pose proof (totalLength_nonneg []). lia.
      - pose proof (totalLength_nonneg (pre ++ [j])). lia. }
    specialize (Hroom i items' Hi). unfold outOfRoom in Hroom. destruct (storageLeft st) as [c|]; [|done].
    exists c. split; [done|]. apply Z.ltb_lt in Hroom. lia.
Qed.

Lemma roomAfter_ok st i items :
  scan_ok st (i :: items) → outOfRoom st i = false →
  roomAfter st i = (match storageLeft st with Some c => Some (c - itemLength i) | None => None end) ∧
  ∀ c, roomAfter st i = Some c → 0 ≤ c < 2 ^ 63.
Proof.
  intros [_ _ _ Hcap]. unfold outOfRoom, roomAfter. destruct (storageLeft st) as [c|]; [|done].
  intros Hle%Z.ltb_ge. specialize (Hcap c eq_refl). pose proof (itemLength_range i).
  rewrite i64_small by lia. split; [done|]. intros ? [= <-]. lia.
Qed.

Lemma unverified_small st i items :
  scan_ok st (i :: items) → MaxUnverifiedBytes input ≠ 0 →
  i64 (allTorrentsUnverifiedBytes st + itemLength i) = allTorrentsUnverifiedBytes st + itemLength i.
Proof.
  intros [_ _ Hmax _] Hne. specialize (Hmax Hne). pose proof (ri_max Hin).
  pose proof (itemLength_range i). apply i64_small. lia.
Qed.

Lemma scan_visits items : ∀ st, scan_ok st items → ∃ vis, visited_ok st items vis.
Proof.
  induction items as [|i items IH]; intros st Hok; [exists []; by apply visited_nothing|].
  pose proof (fun S f s => @visitPiece_ordered S f st s i items Hok) as Hrun.
  destruct (outOfRoom st i) eqn:Eroom.
  { exists []. apply visited_nothing; [done| |by intros ? ? [= <- <-]].
    intros S f s. cbn [btree_Scan]. by rewrite Hrun. }
  destruct (roomAfter_ok st i items Hok Eroom) as [Hroom Hroom'].
  pose proof (unverified_small st i items Hok) as Hw. destruct Hok as [Hsorted _ Hmax _].
  apply StronglySorted_inv in Hsorted as [Hsorted Hi].
  assert (Hnext : ∀ u, (MaxUnverifiedBytes input ≠ 0 → 0 ≤ u ≤ MaxUnverifiedBytes input) →
    scan_ok (mkScan (roomAfter st i) u (Some i)) items).
  { intros u Hu. split; cbn; try done. by intros l [= <-]. }
  destruct (itemIgnored i || overMax st i) eqn:Eskip.
  - destruct (IH _ (Hnext _ Hmax)) as [vis Hvis]. exists vis. eapply visited_skip; eauto.
    intros Hlive. rewrite Hlive in Eskip. apply andb_true_iff in Eskip as [Hne%negb_true_iff%Z.eqb_neq Hlt%Z.ltb_lt].
    split; [done|]. by rewrite Hw in Hlt.
  - apply orb_false_iff in Eskip as [Eig Emax].
    destruct (IH (mkScan (roomAfter st i) (i64 (allTorrentsUnverifiedBytes st + itemLength i)) (Some i))) as [vis Hvis];
      [apply Hnext|exists (i :: vis); by eapply visited_take].
    intros Hne. specialize (Hmax Hne). pose proof (itemLength_range i). rewrite (Hw Hne). unfold overMax in Emax.
    rewrite (Hw Hne), (proj2 (Z.eqb_neq _ _) Hne) in Emax. apply Z.ltb_ge in Emax. lia.
Qed.

Lemma requestable_visits (pro : PieceRequestOrder T) :
  ∃ vis, visited_ok (mkScan (Capacity input) 0 None) (bt_elems (tree pro)) vis.
Proof.
  apply scan_visits. split; cbn; [apply bt_sorted|done| |apply (ri_cap Hin)].
  intros _. pose proof (ri_max Hin). lia.
Qed.

(** C7.  [GetRequestablePieces] never panics and calls its callback on a
    sublist of the order: pieces that are not ignored, whose total length is
    within the unverified-bytes limit (when there is one) and within the
    storage capacity (when capped).  It leaves a wanted piece out only when
    the pieces up to it exceed the capacity, or when the pieces visited
    before it leave too little of the unverified-bytes limit. *)
Theorem GetRequestablePieces_spec (pro : PieceRequestOrder T) :
  ∃ vis,
    (∀ S (f : S → pieceRequestOrderItem → S) s,
       GetRequestablePieces input pro f s = Ok (fold_left f vis s)) ∧
    vis `sublist_of` bt_elems (tree pro) ∧
    Forall (λ i, itemIgnored i = false) vis ∧
    (MaxUnverifiedBytes input ≠ 0 → totalLength vis ≤ MaxUnverifiedBytes input) ∧
    (∀ c, Capacity input = Some c → totalLength vis ≤ c) ∧
    (∀ pre i post, bt_elems (tree pro) = pre ++ i :: post → itemIgnored i = false → i ∉ vis →
       (∃ c, Capacity input = Some c ∧ c < totalLength (pre ++ [i])) ∨
       (MaxUnverifiedBytes input ≠ 0 ∧
        MaxUnverifiedBytes input < totalLength (filter (.∈ vis) pre) + itemLength i)).
Proof.
  destruct (requestable_visits pro) as [vis [Hr Hs Hl Hm Hc Ha]]. exists vis. cbn in *. split_and!; auto.
Qed.
End Requestable.

(** ** A concrete order: three pieces, a capacity of two and a half pieces *)
Definition exampleOps : list pro_op :=
  [ OpAdd (mkKey [1] 0) (mkPState 1 false 1);
    OpAdd (mkKey [1] 1) (mkPState 1 false 2);
    OpAdd (mkKey [1] 2) (mkPState 0 false 0);
    OpUpdate (mkKey [1] 2) (mkPState 4 true 7) ].

Definition examplePro : go (PieceRequestOrder sorted_items) := run_ops NewPieceOrder exampleOps.

Definition exampleInput : Input :=
  mkInput (λ _, mkRSTorrent (λ i, i =? 0) 100) (Some 250) 1000.

Definition exampleVisit : go (list Z) :=
  pro ← examplePro; GetRequestablePieces exampleInput pro (λ s i, s ++ [keyIndex (key i)]) [].

Example exampleVisit_eq : exampleVisit = Ok [2].
Proof. vm_compute. reflexivity. Qed.

Lemma exampleInput_ok : input_ok exampleInput.
Proof. split; cbn; try lia. by intros c [= <-]. Defined.

Definition exampleOrder : PieceRequestOrder sorted_items :=
  match examplePro with Ok pro => pro | Panic _ => NewPieceOrder end.

Lemma GetRequestablePieces_spec_witness :
  length (bt_elems (tree exampleOrder)) = 3%nat ∧
  ∃ vis, ∀ S (f : S → pieceRequestOrderItem → S) s,
    GetRequestablePieces exampleInput exampleOrder f s = Ok (fold_left f vis s).
Proof.
  split; [vm_compute; reflexivity|].
  destruct (GetRequestablePieces_spec exampleInput exampleInput_ok exampleOrder) as (vis & H & _).
  exists vis. exact H.
Defined.
