(* ===== verification/OrderedBitmap.v ===== *)
(** Sets of request indices: src/ordered-bitmap.go, src/typed-roaring/*.go,
    src/undirtied-chunks-iter.go, src/roaring.go and the interface
    PeerRequests of src/request-strategy/peer.go.

    Two third-party packages appear as type classes that state what the
    code relies on: [Roaring] (github.com/RoaringBitmap/roaring, a set of
    uint32) and [GList] (github.com/bahlo/generic-list-go, a doubly linked
    list with element handles).  Each has an instance, used by the
    witnesses. *)
From stdpp Require Import base numbers list strings gmap sorting.
From Stdlib Require Import ZArith Lia Sorted.
From S2P Require Import Prelude.
Open Scope Z_scope.

(** ** roaring.Bitmap

    [rb_elems] are the members in the order of iteration, which is
    ascending. *)
Class Roaring (B : Type) : Type := {
  rb_elems : B → list Z;
  rb_new : B;
  rb_Contains : B → Z → bool;
  rb_Add : B → Z → B;
  rb_Remove : B → Z → B;
  rb_CheckedAdd : B → Z → B * bool;
  rb_CheckedRemove : B → Z → B * bool;
  rb_Rank : B → Z → Z;
  rb_IsEmpty : B → bool;
  rb_Clone : B → B;
  rb_sorted b : StronglySorted Z.lt (rb_elems b);
  rb_width b : Forall (λ x, in_u32 x) (rb_elems b);
  rb_new_elems : rb_elems rb_new = [];
  rb_Contains_elems b x : rb_Contains b x = true ↔ x ∈ rb_elems b;
  rb_Add_elems b x y : in_u32 x → y ∈ rb_elems (rb_Add b x) ↔ y = x ∨ y ∈ rb_elems b;
  rb_Remove_elems b x y : y ∈ rb_elems (rb_Remove b x) ↔ y ∈ rb_elems b ∧ y ≠ x;
  rb_CheckedAdd_eq b x : rb_CheckedAdd b x = (rb_Add b x, negb (rb_Contains b x));
  rb_CheckedRemove_eq b x : rb_CheckedRemove b x = (rb_Remove b x, rb_Contains b x);
  rb_Rank_elems b x : rb_Rank b x = Z.of_nat (length (filter (λ y, y ≤ x) (rb_elems b)));
  rb_IsEmpty_elems b : rb_IsEmpty b = true ↔ rb_elems b = [];
  rb_Clone_elems b : rb_elems (rb_Clone b) = rb_elems b
}.

(** ** list.List

    A list holds its elements with a handle for each; [Remove] of a handle
    that is not in the list changes nothing. *)
Class GList (L E : Type) : Type := {
  gl_eq_dec :: EqDecision E;
  gl_elems : L → list (E * Z);
  gl_new : L;
  gl_PushBack : L → Z → L * E;
  gl_Remove : L → E → L;
  gl_Len : L → Z;
  gl_new_elems : gl_elems gl_new = [];
  gl_PushBack_elems l x :
    gl_elems (gl_PushBack l x).1 = gl_elems l ++ [((gl_PushBack l x).2, x)];
  gl_PushBack_fresh l x : (gl_PushBack l x).2 ∉ (gl_elems l).*1;
  gl_Remove_elems l e : gl_elems (gl_Remove l e) = filter (λ p, p.1 ≠ e) (gl_elems l);
  gl_Len_elems l : gl_Len l = Z.of_nat (length (gl_elems l))
}.

(** ** typedRoaring.Bitmap: members pass through a conversion to uint32 *)
Section Typed.
Context `{Roaring B}.

Definition tb_Contains (b : B) (x : Z) : bool := rb_Contains b (u32 x).
Definition tb_Add (b : B) (x : Z) : B := rb_Add b (u32 x).
Definition tb_Rank (b : B) (x : Z) : Z := rb_Rank b (u32 x).
Definition tb_CheckedRemove (b : B) (x : Z) : B * bool := rb_CheckedRemove b (u32 x).
Definition tb_CheckedAdd (b : B) (x : Z) : B * bool := rb_CheckedAdd b (u32 x).
Definition tb_Remove (b : B) (x : Z) : B := rb_Remove b (u32 x).

(** [Iterate]: the callback returns whether to go on. *)
Fixpoint iterate_while {S : Type} (f : S → Z → S * bool) (s : S) (l : list Z) : S :=
  match l with
  | [] => s
  | x :: l => let '(s, more) := f s x in if more : bool then iterate_while f s l else s
  end.

Definition tb_Iterate {S : Type} (b : B) (f : S → Z → S * bool) (s : S) : S :=
  iterate_while f s (rb_elems b).

(** [roaringBitmapRangeCardinality] at T = RequestIndex: the arguments are
    uint32 and the result uint64. *)
Definition roaringBitmapRangeCardinality (Rank : Z → Z) (start end_ : Z) : Z :=
  let card := Rank (u32 (end_ - 1)) in
  if negb (start =? 0) then u64 (card - Rank (u32 (start - 1))) else card.

(** [iterBitmapUnsetInRange] at T = RequestIndex.  The iterator is the list
    of members it has still to deliver; [emit] is the call of [f] on
    [lo], ..., [hi - 1]. *)
Definition emit {S : Type} (f : S → Z → S) (s : S) (lo hi : Z) : S :=
  fold_left f (seqZ lo (hi - lo)) s.

Fixpoint unsetLoop {S : Type} (f : S → Z → S) (end_ : Z) (lastDirty : Z) (it : list Z) (s : S) : S :=
  match it with
  | [] => emit f s (u32 (lastDirty + 1)) end_
  | next :: it =>
      if end_ <=? next then emit f s (u32 (lastDirty + 1)) end_
      else unsetLoop f end_ next it (emit f s (u32 (lastDirty + 1)) next)
  end.

Definition iterBitmapUnsetInRange {S : Type} (b : B) (start end_ : Z) (f : S → Z → S) (s : S) : S :=
  unsetLoop f end_ (u32 (start - 1)) (filter (λ x, start ≤ x) (rb_elems b)) s.
End Typed.

(** ** The interface PeerRequests

    [pr_elems] are the requests in the order they were added. *)
Class PeerRequests (R : Type) : Type := {
  pr_ok : R → Prop;
  pr_elems : R → list Z;
  pr_new : R;
  pr_IsEmpty : R → bool;
  pr_GetCardinality : R → Z;
  pr_Contains : R → Z → bool;
  pr_Add : R → Z → R;
  pr_Rank : R → Z → Z;
  pr_CheckedRemove : R → Z → go (R * bool);
  pr_snapshot : R → list Z;
  pr_new_ok : pr_ok pr_new ∧ pr_elems pr_new = [];
  pr_NoDup r : pr_ok r → NoDup (pr_elems r);
  pr_IsEmpty_spec r : pr_ok r → pr_IsEmpty r = true ↔ pr_elems r = [];
  pr_GetCardinality_spec r : pr_ok r → pr_GetCardinality r = Z.of_nat (length (pr_elems r));
  pr_Contains_spec r x : pr_ok r → in_u32 x → pr_Contains r x = true ↔ x ∈ pr_elems r;
  pr_Add_spec r x : pr_ok r → in_u32 x →
    pr_ok (pr_Add r x) ∧
    pr_elems (pr_Add r x) = if decide (x ∈ pr_elems r) then pr_elems r else pr_elems r ++ [x];
  pr_Rank_spec r x : pr_ok r → in_u32 x →
    pr_Rank r x = Z.of_nat (length (filter (λ y, y ≤ x) (pr_elems r)));
  pr_CheckedRemove_spec r x : pr_ok r → in_u32 x →
    ∃ r', pr_CheckedRemove r x = Ok (r', bool_decide (x ∈ pr_elems r)) ∧
      pr_ok r' ∧ pr_elems r' = filter (λ y, y ≠ x) (pr_elems r);
  pr_snapshot_spec r : pr_ok r → pr_snapshot r ≡ₚ pr_elems r
}.

(** ** orderedBitmap *)
Section OrderedBitmap.
Context `{Roaring B} `{GList L E}.

Record orderedBitmap : Type := mkOB {
  ob_bitmap : B;
  ob_order : L;
  ob_elements : gmap Z E
}.

Definition newOrderedBitmap : orderedBitmap := mkOB rb_new gl_new ∅.

(** The members [IterateSnapshot] delivers, from a clone of the bitmap. *)
Definition ob_IterateSnapshot (o : orderedBitmap) : list Z := rb_elems (rb_Clone (ob_bitmap o)).

Definition ob_IsEmpty (o : orderedBitmap) : bool := rb_IsEmpty (ob_bitmap o).

Definition ob_GetCardinality (o : orderedBitmap) : Z := u64 (gl_Len (ob_order o)).

Definition ob_Contains (o : orderedBitmap) (index : Z) : bool := tb_Contains (ob_bitmap o) index.

Definition ob_Add (o : orderedBitmap) (index : Z) : orderedBitmap :=
  let bm := tb_Add (ob_bitmap o) index in
  match ob_elements o !! index with
  | Some _ => mkOB bm (ob_order o) (ob_elements o)
  | None =>
      let '(l, e) := gl_PushBack (ob_order o) index in
      mkOB bm l (<[index := e]> (ob_elements o))
  end.

Definition ob_Rank (o : orderedBitmap) (index : Z) : Z := tb_Rank (ob_bitmap o) index.

Definition ob_Iterate {S : Type} (o : orderedBitmap) (f : S → Z → S * bool) (s : S) : S :=
  iterate_while f s (gl_elems (ob_order o)).*2.

(** [order.Remove] of the nil element, where [elements] has no entry,
    dereferences nil. *)
Definition ob_CheckedRemove (o : orderedBitmap) (index : Z) : go (orderedBitmap * bool) :=
  let '(bm, removed) := tb_CheckedRemove (ob_bitmap o) index in
  if negb removed then Ok (mkOB bm (ob_order o) (ob_elements o), false)
  else
    match ob_elements o !! index with
    | None => Panic "nil element"
    | Some e => Ok (mkOB bm (gl_Remove (ob_order o) e) (delete index (ob_elements o)), true)
    end.
End OrderedBitmap.
Arguments orderedBitmap : clear implicits.

(** ** Ranges of bitmaps *)
Lemma ascending_length (l : list Z) hi :
  StronglySorted Z.lt l → ∀ lo, Forall (λ x, lo ≤ x < hi) l → lo ≤ hi → lo + Z.of_nat (length l) ≤ hi.
Proof.
  induction 1 as [|x l Hl IH Hx]; intros lo Hlo Hb; cbn [length]; [lia|].
  apply Forall_cons in Hlo as [Hxl Hlo].
  assert (x + 1 + Z.of_nat (length l) ≤ hi); [apply IH; [|lia]|lia].
  apply Forall_forall. intros y Hy. eapply Forall_forall in Hx, Hlo; [|exact Hy..]. cbn in *. lia.
Qed.

Lemma ascending_NoDup (l : list Z) : StronglySorted Z.lt l → NoDup l.
Proof.
  induction 1 as [|x l Hl IH Hx]; constructor; [|done]. intros Hin. eapply Forall_forall in Hx; [|exact Hin]. lia.
Qed.

Section Ranges.
Context `{Roaring B}.

Lemma rb_elems_length (b : B) : Z.of_nat (length (rb_elems b)) ≤ 2 ^ 32.
Proof. apply (ascending_length _ (2 ^ 32) (rb_sorted b) 0 (rb_width b)). lia. Qed.

Lemma unsetLoop_spec {S} (f : S → Z → S) end_ : in_u32 end_ → ∀ it lastDirty s,
  StronglySorted Z.lt it → Forall (λ x, u32 (lastDirty + 1) ≤ x) it →
  unsetLoop f end_ lastDirty it s =
  fold_left f (filter (.∉ it) (seqZ (u32 (lastDirty + 1)) (end_ - u32 (lastDirty + 1)))) s.
Proof.
  intros Hend. induction it as [|next it IH]; intros lastDirty s Hs Hge; cbn [unsetLoop].
  { unfold emit. rewrite filter_all; [done|]. apply Forall_forall. set_solver. }
  apply StronglySorted_inv in Hs as [Hs Hlt]. apply Forall_cons in Hge as [Hge _].
  pose proof (u32_range (lastDirty + 1)) as Hlo. set (lo := u32 (lastDirty + 1)) in *.
  assert (Hit : ∀ x, x ∈ it → next < x) by (intros x Hx; by eapply Forall_forall in Hlt).
  destruct (Z.leb_spec end_ next) as [Hle|Hlt'].
  - unfold emit. rewrite filter_all; [done|]. apply Forall_forall. intros x Hx%elem_of_seqZ.
    rewrite elem_of_cons. intros [->|Hx']; [lia|]. specialize (Hit x Hx'). lia.
  - assert (Hn : u32 (next + 1) = next + 1) by (apply u32_small; lia).
    rewrite IH; [|done|rewrite Hn; eapply Forall_impl; [exact Hlt|]; intros; lia].
    rewrite Hn. unfold emit.
    replace (end_ - lo) with ((next - lo) + (1 + (end_ - (next + 1)))) by lia.
    rewrite (seqZ_app _ (next - lo)) by lia.
    replace (lo + (next - lo)) with next by lia. rewrite (seqZ_app next 1) by lia.
    rewrite !filter_app, !fold_left_app.
    rewrite (filter_all _ (seqZ lo _)).
    2: { apply Forall_forall. intros x Hx%elem_of_seqZ. rewrite elem_of_cons.
         intros [->|Hx']; [lia|]. specialize (Hit x Hx'). lia. }
    change (seqZ next 1) with [next]. rewrite filter_cons_False by set_solver. cbn [filter list_filter fold_left].
    f_equal. apply filter_ext_in. intros x Hx%elem_of_seqZ. rewrite elem_of_cons. split; [|tauto].
    intros Hx' [->|?]; [lia|done].
Qed.

(** The same over the members from [start] on. *)
Lemma unsetLoop_range {S} (f : S → Z → S) start end_ l s :
  in_u32 start → in_u32 end_ → StronglySorted Z.lt l →
  unsetLoop f end_ (u32 (start - 1)) (filter (λ x, start ≤ x) l) s =
  fold_left f (filter (.∉ l) (seqZ start (end_ - start))) s.
Proof.
  intros Hs He Hl.
  assert (Hw : u32 (u32 (start - 1) + 1) = start).
  { unfold u32. rewrite Z.add_mod_idemp_l by lia. replace (start - 1 + 1) with start by lia.
    by apply Z.mod_small. }
  rewrite unsetLoop_spec; rewrite ?Hw.
  - f_equal. apply filter_ext_in. intros x Hx%elem_of_seqZ.
    rewrite list_elem_of_filter. split; [intros Hn Hi; apply Hn; split; [lia|done]|tauto].
  - done.
  - by apply StronglySorted_filter.
  - apply Forall_forall. by intros x [? _]%list_elem_of_filter.
Qed.

(** [iterBitmapUnsetInRange] calls its callback on exactly the indices
    of [start, end) that are not in the bitmap, in ascending order, also for
    [start = 0] where [lastDirty] begins at the largest uint32. *)
Theorem iterBitmapUnsetInRange_spec {S} (b : B) start end_ (f : S → Z → S) s :
  in_u32 start → in_u32 end_ →
  iterBitmapUnsetInRange b start end_ f s =
  fold_left f (filter (.∉ rb_elems b) (seqZ start (end_ - start))) s.
Proof. intros Hs He. apply unsetLoop_range; [done|done|apply rb_sorted]. Qed.

(** [roaringBitmapRangeCardinality] counts the members in
    [start, end); the difference of two ranks does not wrap. *)
Theorem roaringBitmapRangeCardinality_spec (b : B) start end_ :
  0 ≤ start ≤ end_ → 0 < end_ ≤ 2 ^ 32 →
  roaringBitmapRangeCardinality (rb_Rank b) start end_ =
  Z.of_nat (length (filter (λ x, start ≤ x < end_) (rb_elems b))).
Proof.
  intros Hs He. unfold roaringBitmapRangeCardinality.
  assert (Hcount : ∀ l : list Z, Forall (λ x, in_u32 x) l →
    length (filter (λ y, y ≤ end_ - 1) l) =
    Nat.add (length (filter (λ y, y ≤ start - 1) l)) (length (filter (λ x, start ≤ x < end_) l))).
  { induction 1 as [|x l Hx Hl IH]; [done|]. rewrite !filter_cons.
    repeat case_decide; cbn [length]; lia. }
  specialize (Hcount _ (rb_width b)).
  rewrite (u32_small (end_ - 1)) by lia. destruct (Z.eqb_spec start 0) as [->|Hne]; cbn [negb].
  - rewrite rb_Rank_elems. f_equal. f_equal. apply filter_ext_in. intros x Hx.
    pose proof (rb_width b) as Hw. eapply Forall_forall in Hw; [|exact Hx]. lia.
  - rewrite (u32_small (start - 1)) by lia. rewrite !rb_Rank_elems, Hcount.
    rewrite Nat2Z.inj_add, Z.add_simpl_l. apply u64_small. split; [lia|].
    pose proof (rb_elems_length b).
    pose proof (length_filter (λ x, start ≤ x < end_) (rb_elems b)). lia.
Qed.
End Ranges.

(** ** The ordered bitmap implements PeerRequests *)
Section Implements.
Context `{Roaring B} `{GList L E}.
Implicit Types o : orderedBitmap B L E.

Definition ob_elems o : list Z := (gl_elems (ob_order o)).*2.

Record ob_ok o : Prop := {
  oo_bitmap x : x ∈ rb_elems (ob_bitmap o) ↔ x ∈ ob_elems o;
  oo_values : NoDup (ob_elems o);
  oo_handles : NoDup (gl_elems (ob_order o)).*1;
  oo_elements x e : ob_elements o !! x = Some e ↔ (e, x) ∈ gl_elems (ob_order o)
}.

Lemma ob_perm o : ob_ok o → rb_elems (ob_bitmap o) ≡ₚ ob_elems o.
Proof.
  intros Hok. apply NoDup_Permutation; [apply ascending_NoDup, rb_sorted|apply (oo_values o Hok)|].
  apply (oo_bitmap o Hok).
Qed.

Lemma ob_length o : ob_ok o → Z.of_nat (length (ob_elems o)) ≤ 2 ^ 32.
Proof. intros Hok. rewrite <- (ob_perm o Hok). apply rb_elems_length. Qed.

Lemma elements_dom o x : ob_ok o → is_Some (ob_elements o !! x) ↔ x ∈ ob_elems o.
Proof.
  intros Hok. unfold ob_elems. rewrite list_elem_of_fmap. split.
  - intros [e He%(oo_elements o Hok)]. by exists (e, x).
  - intros [[e y] [-> He]]. exists e. by apply (oo_elements o Hok).
Qed.

Lemma ob_Add_spec o x : ob_ok o → in_u32 x →
  ob_ok (ob_Add o x) ∧
  ob_elems (ob_Add o x) = if decide (x ∈ ob_elems o) then ob_elems o else ob_elems o ++ [x].
Proof.
  intros Hok Hx. unfold ob_Add, tb_Add. rewrite u32_small by done.
  destruct (ob_elements o !! x) as [e|] eqn:Ex.
  { assert (Hin : x ∈ ob_elems o) by (apply elements_dom; eauto). rewrite decide_True by done.
    split; [|done]. destruct Hok as [Hb Hv Hh He]. split; try done. cbn. intros y.
    rewrite rb_Add_elems by done. rewrite Hb. split; [by intros [->|?]|tauto]. }
  assert (Hin : x ∉ ob_elems o).
  { intros Hin%(elements_dom o x Hok). rewrite Ex in Hin. by destruct Hin. }
  rewrite decide_False by done. destruct (gl_PushBack (ob_order o) x) as [l e] eqn:Ep.
  pose proof (gl_PushBack_elems (ob_order o) x) as Hl. pose proof (gl_PushBack_fresh (ob_order o) x) as Hf.
  rewrite Ep in Hl, Hf. cbn in Hl, Hf.
  assert (Hval : ob_elems (mkOB (rb_Add (ob_bitmap o) x) l (<[x:=e]> (ob_elements o))) = ob_elems o ++ [x]).
  { unfold ob_elems. cbn. by rewrite Hl, fmap_app. }
  split; [|done]. destruct Hok as [Hb Hv Hh He]. split.
  - intros y. rewrite Hval. cbn. rewrite rb_Add_elems by done. rewrite Hb. set_solver.
  - rewrite Hval. apply NoDup_app. split_and!; [done|set_solver|apply NoDup_singleton].
  - cbn. rewrite Hl, fmap_app. apply NoDup_app. split_and!; [done|set_solver|apply NoDup_singleton].
  - intros y e'. cbn. rewrite Hl, elem_of_app, list_elem_of_singleton, lookup_insert_Some, <- He.
    split; [naive_solver|]. intros [Hy|[= -> ->]]; [|by left]. right. split; [|done]. intros <-. congruence.
Qed.

Lemma ob_CheckedRemove_spec o x : ob_ok o → in_u32 x →
  ∃ o', ob_CheckedRemove o x = Ok (o', bool_decide (x ∈ ob_elems o)) ∧
    ob_ok o' ∧ ob_elems o' = filter (λ y, y ≠ x) (ob_elems o).
Proof.
  intros Hok Hx. unfold ob_CheckedRemove, tb_CheckedRemove. rewrite u32_small by done.
  rewrite rb_CheckedRemove_eq. pose proof (rb_Contains_elems (ob_bitmap o) x) as Hc.
  rewrite (oo_bitmap o Hok) in Hc. destruct (rb_Contains (ob_bitmap o) x); cbn [negb].
  2: { assert (Hin : x ∉ ob_elems o) by (intros Hin; by apply Hc in Hin).
       rewrite bool_decide_eq_false_2 by done. eexists. split; [done|].
       assert (Hf : filter (λ y, y ≠ x) (ob_elems o) = ob_elems o)
         by (apply filter_all, Forall_forall; by intros y Hy ->).
       rewrite Hf. split; [|done]. destruct Hok as [Hb Hv Hh He]. split; try done. cbn. intros y.
       rewrite rb_Remove_elems, Hb. unfold ob_elems in *; cbn. split; [tauto|]. intros Hy. split; [done|]. by intros ->. }
  assert (Hin : x ∈ ob_elems o) by (by apply Hc). rewrite bool_decide_eq_true_2 by done.
  destruct (proj2 (elements_dom o x Hok) Hin) as [e Ee]. rewrite Ee. eexists. split; [done|].
  destruct Hok as [Hb Hv Hh He]. pose proof (proj1 (He x e) Ee) as Hex.
  assert (Hsame : ∀ p, p ∈ gl_elems (ob_order o) → p.1 = e ↔ p.2 = x).
  { intros [e' y] Hp; cbn. split.
    - intros ->. by pose proof (NoDup_fmap_eq fst _ _ _ Hh Hp Hex eq_refl) as [= ->].
    - intros ->. apply He in Hp. congruence. }
  assert (Hval : (filter (λ p, p.1 ≠ e) (gl_elems (ob_order o))).*2 = filter (λ y, y ≠ x) (ob_elems o)).
  { unfold ob_elems. rewrite filter_of_fmap. f_equal. apply filter_ext_in. intros p Hp. cbn.
    rewrite (Hsame p Hp). done. }
  split; [|unfold ob_elems; cbn; by rewrite gl_Remove_elems].
  split; unfold ob_elems; cbn; rewrite ?gl_Remove_elems, ?Hval.
  - intros y. rewrite rb_Remove_elems, Hb, list_elem_of_filter. tauto.
  - by apply NoDup_filter.
  - apply (sublist_NoDup _ (gl_elems (ob_order o)).*1); [done|]. apply fmap_sublist, sublist_filter.
  - intros y e'. rewrite lookup_delete_Some, list_elem_of_filter, He. cbn. split.
    + intros [Hne Hp]. split; [|done]. intros ->. apply Hne. symmetry. by apply (Hsame (e, y)).
    + intros [Hne Hp]. split; [|done]. intros <-. apply Hne. by apply (Hsame (e', x)).
Qed.

#[export] Instance orderedBitmap_PeerRequests : PeerRequests (orderedBitmap B L E).
Proof.
  refine {|
    pr_ok := ob_ok;
    pr_elems := ob_elems;
    pr_new := newOrderedBitmap;
    pr_IsEmpty := ob_IsEmpty;
    pr_GetCardinality := ob_GetCardinality;
    pr_Contains := ob_Contains;
    pr_Add := ob_Add;
    pr_Rank := ob_Rank;
    pr_CheckedRemove := ob_CheckedRemove;
    pr_snapshot := ob_IterateSnapshot;
    pr_Add_spec := ob_Add_spec;
    pr_CheckedRemove_spec := ob_CheckedRemove_spec
  |}.
  - unfold ob_elems; cbn. rewrite gl_new_elems. split; [|done].
    split; unfold ob_elems; cbn; rewrite ?gl_new_elems, ?rb_new_elems; try constructor.
    all: rewrite ?lookup_empty; try done; by intros ?%not_elem_of_nil.
  - intros o. apply oo_values.
  - intros o Hok. unfold ob_IsEmpty. rewrite rb_IsEmpty_elems. pose proof (ob_perm o Hok) as Hp.
    split; intros Hz; rewrite Hz in Hp; [by apply Permutation_nil_l in Hp|by apply Permutation_nil_r in Hp].
  - intros o Hok. unfold ob_GetCardinality. rewrite gl_Len_elems. pose proof (ob_length o Hok) as Hl.
    unfold ob_elems in *. rewrite length_fmap in *. apply u64_small. lia.
  - intros o x Hok Hx. unfold ob_Contains, tb_Contains.
    by rewrite u32_small, rb_Contains_elems, (oo_bitmap o Hok).
  - intros o x Hok Hx. unfold ob_Rank, tb_Rank. rewrite u32_small, rb_Rank_elems by done.
    by rewrite (ob_perm o Hok).
  - intros o Hok. unfold ob_IterateSnapshot. rewrite rb_Clone_elems. by apply ob_perm.
Defined.
End Implements.

(** ** Sequences of operations against the interface *)
Section Sequences.
Context `{PeerRequests R}.

Inductive req_op : Type :=
| ReqAdd (x : Z)
| ReqRemove (x : Z).

Definition req_index (o : req_op) : Z := match o with ReqAdd x | ReqRemove x => x end.

Fixpoint run_reqs (r : R) (os : list req_op) : go R :=
  match os with
  | [] => Ok r
  | ReqAdd x :: os => run_reqs (pr_Add r x) os
  | ReqRemove x :: os => '(r, _) ← pr_CheckedRemove r x; run_reqs r os
  end.

(** The reference: a list without duplicates, in the order of the adds. *)
Fixpoint ref_reqs (l : list Z) (os : list req_op) : list Z :=
  match os with
  | [] => l
  | ReqAdd x :: os => ref_reqs (if decide (x ∈ l) then l else l ++ [x]) os
  | ReqRemove x :: os => ref_reqs (filter (λ y, y ≠ x) l) os
  end.

Lemma run_reqs_spec os : Forall (λ o, in_u32 (req_index o)) os → ∀ r, pr_ok r →
  ∃ r', run_reqs r os = Ok r' ∧ pr_ok r' ∧ pr_elems r' = ref_reqs (pr_elems r) os.
Proof.
  induction 1 as [|[x|x] os Hx Hos IH]; intros r Hok; cbn [run_reqs ref_reqs]; [eauto|..].
  - destruct (pr_Add_spec r x Hok Hx) as [Hok' <-]. by apply IH.
  - destruct (pr_CheckedRemove_spec r x Hok Hx) as (r' & -> & Hok' & <-). by apply IH.
Qed.
End Sequences.

(** C9.  The ordered bitmap is a duplicate-free list in the order of the
    adds: any sequence of [Add] and [CheckedRemove] from an empty one returns
    without the nil dereference, iterates in that order, and its cardinality,
    membership and rank (answered by the bitmap and not by the list) are
    those of the list. *)
Theorem orderedBitmap_refines_list `{Roaring B} `{GList L E} (os : list req_op) :
  Forall (λ o, in_u32 (req_index o)) os →
  let l := ref_reqs [] os in
  ∃ o : orderedBitmap B L E,
    run_reqs newOrderedBitmap os = Ok o ∧
    (∀ S (f : S → Z → S * bool) s, ob_Iterate o f s = iterate_while f s l) ∧
    ob_GetCardinality o = Z.of_nat (length l) ∧
    (ob_IsEmpty o = true ↔ l = []) ∧
    ob_IterateSnapshot o ≡ₚ l ∧
    ∀ x, in_u32 x →
      (ob_Contains o x = true ↔ x ∈ l) ∧
      ob_Rank o x = Z.of_nat (length (filter (λ y, y ≤ x) l)).
Proof.
  intros Hos l. destruct (@pr_new_ok _ (orderedBitmap_PeerRequests (B := B) (L := L) (E := E))) as [Hnew Hnil].
  destruct (run_reqs_spec os Hos _ Hnew) as (o & Hrun & Hok & He). rewrite Hnil in He.
  change (pr_elems o) with (ob_elems o) in He. exists o. fold l in He. rewrite <- He. split_and!.
  - exact Hrun.
  - done.
  - exact (pr_GetCardinality_spec o Hok).
  - exact (pr_IsEmpty_spec o Hok).
  - exact (pr_snapshot_spec o Hok).
  - intros x Hx. split; [exact (pr_Contains_spec o x Hok Hx)|exact (pr_Rank_spec o x Hok Hx)].
Qed.

(** ** Instances: a sorted list of distinct indices, and a list with counted
    handles *)
Lemma Forall_filter_2 {A} (P Q : A → Prop) `{∀ x, Decision (Q x)} (l : list A) :
  Forall P l → Forall P (filter Q l).
Proof. rewrite !Forall_forall. intros Hl x [_ Hx]%list_elem_of_filter. auto. Qed.

Record asc_list : Type := mkAsc {
  asc : list Z;
  asc_sorted : StronglySorted Z.lt asc;
  asc_width : Forall (λ x, in_u32 x) asc
}.

Lemma ascending_app (l1 l2 : list Z) :
  StronglySorted Z.lt l1 → StronglySorted Z.lt l2 → (∀ x y, x ∈ l1 → y ∈ l2 → x < y) →
  StronglySorted Z.lt (l1 ++ l2).
Proof.
  induction 1 as [|x l Hl IH Hx]; intros H2 Hlt; [done|]. cbn. constructor; [apply IH; [done|set_solver]|].
  apply Forall_app. split; [done|]. apply Forall_forall. set_solver.
Qed.

Definition asc_insert (x : Z) (l : list Z) : list Z :=
  filter (λ y, y < x) l ++ x :: filter (λ y, x < y) l.

Lemma elem_asc_insert x l y : y ∈ asc_insert x l ↔ y = x ∨ y ∈ l.
Proof.
  unfold asc_insert. rewrite elem_of_app, elem_of_cons, !list_elem_of_filter.
  destruct (Z.lt_trichotomy y x) as [|[|]]; intuition lia.
Qed.

Lemma asc_insert_sorted x l : StronglySorted Z.lt l → StronglySorted Z.lt (asc_insert x l).
Proof.
  intros Hl. apply ascending_app; [by apply StronglySorted_filter|constructor; [by apply StronglySorted_filter|]|].
  - apply Forall_forall. by intros y [? _]%list_elem_of_filter.
  - intros y z [? _]%list_elem_of_filter. rewrite elem_of_cons, list_elem_of_filter. intuition lia.
Qed.

Lemma asc_insert_width x l :
  in_u32 x → Forall (λ x, in_u32 x) l → Forall (λ x, in_u32 x) (asc_insert x l).
Proof.
  rewrite !Forall_forall. intros Hx Hl y [->|Hy]%elem_asc_insert; auto.
Qed.

Definition asc_Add (b : asc_list) (x : Z) : asc_list :=
  match decide (in_u32 x) with
  | left Hx => mkAsc (asc_insert x (asc b)) (asc_insert_sorted x _ (asc_sorted b))
                 (asc_insert_width x _ Hx (asc_width b))
  | right _ => b
  end.

Definition asc_Remove (b : asc_list) (x : Z) : asc_list :=
  mkAsc (filter (λ y, y ≠ x) (asc b)) (StronglySorted_filter _ _ _ (asc_sorted b))
    (Forall_filter_2 _ _ _ (asc_width b)).

#[export] Instance asc_Roaring : Roaring asc_list.
Proof.
  refine {|
    rb_elems := asc;
    rb_new := mkAsc [] (SSorted_nil _) (List.Forall_nil _);
    rb_Contains b x := bool_decide (x ∈ asc b);
    rb_Add := asc_Add;
    rb_Remove := asc_Remove;
    rb_CheckedAdd b x := (asc_Add b x, negb (bool_decide (x ∈ asc b)));
    rb_CheckedRemove b x := (asc_Remove b x, bool_decide (x ∈ asc b));
    rb_Rank b x := Z.of_nat (length (filter (λ y, y ≤ x) (asc b)));
    rb_IsEmpty b := bool_decide (asc b = []);
    rb_Clone b := b
  |}; try done.
  - apply asc_sorted.
  - apply asc_width.
  - intros b x. apply bool_decide_eq_true.
  - intros b x y Hx. unfold asc_Add. destruct (decide _); [apply elem_asc_insert|done].
  - intros b x y. cbn. rewrite list_elem_of_filter. tauto.
  - intros b. apply bool_decide_eq_true.
Defined.

(** A list that numbers its elements. *)
Record num_list : Type := mkNum {
  nl_next : nat;
  nl_items : list (nat * Z);
  nl_fresh : Forall (λ p, (p.1 < nl_next)%nat) nl_items
}.

Lemma nl_push_fresh l x : Forall (λ p, (p.1 < S (nl_next l))%nat) (nl_items l ++ [(nl_next l, x)]).
Proof.
  apply Forall_app. split; [eapply Forall_impl; [apply (nl_fresh l)|]; cbn; intros; lia|].
  repeat constructor.
Qed.

#[export] Instance num_GList : GList num_list nat.
Proof.
  refine {|
    gl_eq_dec := _;
    gl_elems := nl_items;
    gl_new := mkNum 0 [] (List.Forall_nil _);
    gl_PushBack l x := (mkNum (S (nl_next l)) (nl_items l ++ [(nl_next l, x)]) (nl_push_fresh l x), nl_next l);
    gl_Remove l e := mkNum (nl_next l) (filter (λ p, p.1 ≠ e) (nl_items l)) (Forall_filter_2 _ _ _ (nl_fresh l));
    gl_Len l := Z.of_nat (length (nl_items l))
  |}; try done.
  intros l x [[e y] [He Hin]]%list_elem_of_fmap. pose proof (nl_fresh l) as Hf.
  eapply Forall_forall in Hf; [|exact Hin]. cbn in *. lia.
Defined.

Definition exampleBits : asc_list := rb_Add (rb_Add (rb_Add rb_new 3) 0) 7.

Lemma iterBitmapUnsetInRange_spec_witness :
  iterBitmapUnsetInRange exampleBits 0 9 (λ l x, l ++ [x]) [] = [1; 2; 4; 5; 6; 8] ∧
  iterBitmapUnsetInRange exampleBits 0 9 (λ l x, l ++ [x]) [] =
  fold_left (λ l x, l ++ [x]) (filter (.∉ rb_elems exampleBits) (seqZ 0 (9 - 0))) [].
Proof. split; [vm_compute; reflexivity|apply (iterBitmapUnsetInRange_spec exampleBits); lia]. Defined.

Lemma roaringBitmapRangeCardinality_spec_witness :
  roaringBitmapRangeCardinality (rb_Rank exampleBits) 1 8 = 2.
Proof.
  rewrite (roaringBitmapRangeCardinality_spec exampleBits 1 8); [vm_compute; reflexivity|lia|lia].
Defined.

Definition exampleReqs : list req_op := [ReqAdd 9; ReqAdd 2; ReqAdd 9; ReqAdd 5; ReqRemove 2; ReqRemove 4].

Lemma orderedBitmap_refines_list_witness :
  ref_reqs [] exampleReqs = [9; 5] ∧
  ∃ o : orderedBitmap asc_list num_list nat,
    run_reqs newOrderedBitmap exampleReqs = Ok o ∧ ob_GetCardinality o = 2.
Proof.
  split; [vm_compute; reflexivity|].
  destruct (orderedBitmap_refines_list (B := asc_list) (L := num_list) (E := nat) exampleReqs)
    as (o & Hrun & _ & Hc & _).
  { repeat constructor; cbn; lia. }
  exists o. split; [exact Hrun|]. rewrite Hc. vm_compute. reflexivity.
Defined.
