(* ===== verification/AllocLim.v ===== *)
(** The allocation limiter: src/internal/alloclim/{l,r}.go.

    Reservations are objects shared between the limiter's queue and their
    owners, so they live in a store [store] and are referred to by handles.
    The mutexes serialise the operations; the goroutines that [Cancel] and
    [Drop] start are the pending calls counted in [wakeups], run by
    [doWakes]. *)
From stdpp Require Import base numbers list strings gmap.
From Stdlib Require Import ZArith Lia.
From S2P Require Import Prelude.
Open Scope Z_scope.

Record Reservation : Type := mkReservation {
  n : Z;
  granted : bool;
  cancelled : bool;
  released : bool      (** [releaseOnce] has run *)
}.

Record Limiter : Type := mkLimiter {
  Max : Z;
  value : Z;
  waiting : list nat;
  store : gmap nat Reservation;
  wakeups : nat
}.

(** A limiter after [init]. *)
Definition newLimiter (max : Z) : Limiter := mkLimiter max max [] ∅ 0.

Definition set_value (l : Limiter) (v : Z) : Limiter :=
  mkLimiter (Max l) v (waiting l) (store l) (wakeups l).
Definition set_waiting (l : Limiter) (w : list nat) : Limiter :=
  mkLimiter (Max l) (value l) w (store l) (wakeups l).
Definition set_res (l : Limiter) (id : nat) (r : Reservation) : Limiter :=
  mkLimiter (Max l) (value l) (waiting l) (<[id := r]> (store l)) (wakeups l).
Definition set_wakeups (l : Limiter) (k : nat) : Limiter :=
  mkLimiter (Max l) (value l) (waiting l) (store l) k.

Definition Reserve (me : Limiter) (amount : Z) : Limiter * nat :=
  let id := fresh (dom (store me)) in
  if amount <=? value me
  then (set_value (set_res me id (mkReservation amount true false false)) (i64 (value me - amount)), id)
  else (set_waiting (set_res me id (mkReservation amount false false false)) (waiting me ++ [id]), id).

(** [wake]: [granted.Set] returns whether it was not set before. *)
Definition wake (me : Limiter) (id : nat) (r : Reservation) : Limiter * bool :=
  if cancelled r then (me, false)
  else (set_res me id (mkReservation (n r) true (cancelled r) (released r)), negb (granted r)).

(** [doWakesLocked]: the loop over the queue, which each turn shortens. *)
Fixpoint wakeLoop (q : list nat) (me : Limiter) : Limiter :=
  match q with
  | [] => set_waiting me []
  | id :: q' =>
      match store me !! id with
      | None => set_waiting me q
      | Some r =>
          if cancelled r then wakeLoop q' me
          else if n r <=? value me then
            let '(me, woken) := wake me id r in
            wakeLoop q' (if woken then set_value me (i64 (value me - n r)) else me)
          else set_waiting me q
      end
  end.

Definition doWakesLocked (me : Limiter) : Limiter := wakeLoop (waiting me) me.

(** A goroutine started by [Cancel] or [Drop] runs. *)
Definition doWakes (me : Limiter) : Limiter := set_wakeups (doWakesLocked me) (pred (wakeups me)).

Definition addValue (me : Limiter) (amount : Z) : Limiter :=
  doWakesLocked (set_value me (i64 (value me + amount))).

(** [releaseOnce.Do(addValue)]. *)
Definition releaseRes (me : Limiter) (id : nat) (r : Reservation) : Limiter :=
  if released r then me
  else addValue (set_res me id (mkReservation (n r) (granted r) (cancelled r) true)) (n r).

Definition Release (me : Limiter) (id : nat) : go Limiter :=
  match store me !! id with
  | None => Panic "nil reservation"
  | Some r =>
      if cancelled r then Ok me
      else if granted r then Ok (releaseRes me id r)
      else Panic "not resolved"
  end.

(** [cancelled.Set]; the wake-up is started only by the call that sets it. *)
Definition cancelRes (me : Limiter) (id : nat) (r : Reservation) : Limiter :=
  if cancelled r then me
  else set_wakeups (set_res me id (mkReservation (n r) (granted r) true (released r))) (S (wakeups me)).

Definition Cancel (me : Limiter) (id : nat) : go (Limiter * bool) :=
  match store me !! id with
  | None => Panic "nil reservation"
  | Some r => if granted r then Ok (me, false) else Ok (cancelRes me id r, true)
  end.

Definition Drop (me : Limiter) (id : nat) : go Limiter :=
  match store me !! id with
  | None => Panic "nil reservation"
  | Some r => if granted r then Ok (releaseRes me id r) else Ok (cancelRes me id r)
  end.

Inductive WaitResult : Type :=
| WaitGranted
| WaitExceedsMax
| WaitCancelled
| WaitContext
| WaitBlocks.   (** no case of the select is ready *)

(** [Wait] at a moment when [ctxDone] says whether the context is done. *)
Definition Wait (me : Limiter) (id : nat) (ctxDone : bool) : go WaitResult :=
  match store me !! id with
  | None => Panic "nil reservation"
  | Some r =>
      if Max me <? n r then Ok WaitExceedsMax
      else if granted r then Ok WaitGranted
      else if cancelled r then Ok WaitCancelled
      else if ctxDone then Ok WaitContext
      else Ok WaitBlocks
  end.

(** ** The invariant *)
Definition weight (r : Reservation) : Z := if granted r && negb (released r) then n r else 0.

(** The space held by granted reservations that were not released. *)
Definition held (m : gmap nat Reservation) : Z := Zsum (map (λ p, weight p.2) (map_to_list m)).

Lemma held_insert_new m id r : m !! id = None → held (<[id := r]> m) = weight r + held m.
Proof. intros Hid. unfold held. rewrite (Zsum_perm _ _ _ (map_to_list_insert m id r Hid)). done. Qed.

Lemma held_insert m id r r' : m !! id = Some r → held (<[id := r']> m) = held m - weight r + weight r'.
Proof.
  intros Hid. rewrite <- (insert_delete_id m id r Hid) at 2. rewrite <- insert_delete_eq.
  rewrite !held_insert_new by apply lookup_delete_eq. lia.
Qed.

Record lim_ok (l : Limiter) : Prop := {
  lo_max : 0 ≤ Max l < 2 ^ 63;
  lo_value : 0 ≤ value l ∧ value l + held (store l) = Max l;
  lo_amount id r : store l !! id = Some r → 0 ≤ n r < 2 ^ 63;
  lo_once id r : store l !! id = Some r → granted r && cancelled r = false ∧ (released r = true → granted r = true);
  lo_nodup : NoDup (waiting l);
  lo_waiting id : id ∈ waiting l → ∃ r, store l !! id = Some r ∧ granted r = false;
  lo_queued id r : store l !! id = Some r → granted r = false → cancelled r = false → id ∈ waiting l
}.

(** Nothing that fits is left at the head of the queue. *)
Definition head_blocked (l : Limiter) : Prop :=
  ∀ id q r, waiting l = id :: q → store l !! id = Some r → cancelled r = false ∧ value l < n r.

(** Unless a wake-up is still to run. *)
Definition progress (l : Limiter) : Prop := head_blocked l ∨ (0 < wakeups l)%nat.

Lemma weight_nonneg r : 0 ≤ n r → 0 ≤ weight r.
Proof. unfold weight. destruct (granted r && negb (released r)); lia. Qed.

Lemma held_nonneg m : (∀ id r, m !! id = Some r → 0 ≤ n r) → 0 ≤ held m.
Proof.
  induction m as [|id r m Hid IH] using map_ind; intros Hn; [done|].
  rewrite held_insert_new by done. pose proof (weight_nonneg r (Hn id r (lookup_insert_eq _ _ _))).
  assert (0 ≤ held m); [|lia]. apply IH. intros id' r' Hr'. apply (Hn id').
  rewrite lookup_insert_ne; [done|]. by intros <-; rewrite Hid in Hr'.
Qed.

Lemma weight_held m id r : (∀ id r, m !! id = Some r → 0 ≤ n r) → m !! id = Some r → weight r ≤ held m.
Proof.
  intros Hn Hr. rewrite <- (insert_delete_id m id r Hr), held_insert_new by apply lookup_delete_eq.
  assert (0 ≤ held (delete id m)); [|lia]. apply held_nonneg. intros id' r' [_ H']%lookup_delete_Some. eauto.
Qed.

(** The queue as the loop has it: [lim_ok] with [q] in place of [waiting]. *)
Lemma wakeLoop_ok q : ∀ l, lim_ok (set_waiting l q) → lim_ok (wakeLoop q l) ∧ head_blocked (wakeLoop q l) ∧
  wakeups (wakeLoop q l) = wakeups l.
Proof.
  induction q as [|id q IH]; intros l Hok; cbn [wakeLoop]; [done|].
  destruct (lo_waiting _ Hok id) as (r & Hr & Hg); [by left|]. cbn in Hr. rewrite Hr.
  pose proof (lo_nodup _ Hok) as Hnd. cbn in Hnd. apply NoDup_cons in Hnd as [Hid Hnd].
  destruct (cancelled r) eqn:Ec.
  - apply IH. destruct Hok as [Hm Hv Ha Ho _ Hw Hq]. split; cbn in *; try done.
    + intros id' Hid'. apply Hw. by right.
    + intros id' r' Hr' Hg' Hc'. pose proof (Hq id' r' Hr' Hg' Hc') as Hin.
      apply elem_of_cons in Hin as [->|]; [congruence|done].
  - destruct (Z.leb_spec (n r) (value l)) as [Hle|Hlt].
    + unfold wake. rewrite Ec, Hg. cbn [negb].
      destruct (IH (set_value (set_res l id (mkReservation (n r) true false (released r)))
                      (i64 (value l - n r)))) as (H1 & H2 & H3); [|done].
      destruct Hok as [Hm [Hv Hh] Ha Ho _ Hw Hq]. cbn in *. pose proof (Ha id r Hr) as Hn.
      destruct (Ho id r Hr) as [_ Hrel].
      assert (Hrel' : released r = false) by (destruct (released r); [rewrite Hrel in Hg by done; done|done]).
      pose proof (held_nonneg (store l) (λ i x Hx, proj1 (Ha i x Hx))).
      rewrite i64_small by lia. split; cbn; try done.
      * split; [lia|]. rewrite (held_insert _ id r) by done. unfold weight; cbn. rewrite Hg, Hrel'. cbn. lia.
      * intros id' r' [[<- <-]|[_ Hr']]%lookup_insert_Some; [done|eauto].
      * intros id' r' [[<- <-]|[_ Hr']]%lookup_insert_Some; [done|eauto].
      * intros id' Hid'. destruct (Hw id') as (r' & Hr' & Hg'); [by right|].
        exists r'. rewrite lookup_insert_ne by (by intros ->). done.
      * intros id' r' [[<- <-]|[Hne Hr']]%lookup_insert_Some Hg' Hc'; [done|].
        pose proof (Hq id' r' Hr' Hg' Hc') as Hin. apply elem_of_cons in Hin as [->|]; done.
    + split_and!; [done| |done]. intros id' q' r' [= <- <-] Hr'. cbn in Hr'. rewrite Hr in Hr'.
      injection Hr' as <-. cbn. split; [done|lia].
Qed.

Lemma set_waiting_id l : set_waiting l (waiting l) = l.
Proof. by destruct l. Qed.

Lemma doWakesLocked_ok l : lim_ok l →
  lim_ok (doWakesLocked l) ∧ head_blocked (doWakesLocked l) ∧ wakeups (doWakesLocked l) = wakeups l.
Proof. intros Hok. apply wakeLoop_ok. by rewrite set_waiting_id. Qed.

(** Replacing a reservation by one with the same amount. *)
Lemma set_res_ok l id r r' v :
  lim_ok l → store l !! id = Some r → n r' = n r → 0 ≤ v →
  v + weight r' = value l + weight r →
  granted r' && cancelled r' = false → (released r' = true → granted r' = true) →
  granted r' = granted r → (cancelled r = true → cancelled r' = true) →
  lim_ok (set_value (set_res l id r') v).
Proof.
  intros [Hm [Hv Hh] Ha Ho Hnd Hw Hq] Hr Hn Hv' Hsum Hgc Hrel Hg Hc. split; cbn; try done.
  - split; [done|]. rewrite (held_insert _ id r) by done. lia.
  - intros id' x [[<- <-]|[_ Hx]]%lookup_insert_Some; [rewrite Hn|]; eauto.
  - intros id' x [[<- <-]|[_ Hx]]%lookup_insert_Some; [done|eauto].
  - intros id' Hid'. destruct (Hw id' Hid') as (x & Hx & Hgx). destruct (decide (id' = id)) as [->|Hne].
    + exists r'. rewrite lookup_insert_eq. split; [done|congruence].
    + exists x. by rewrite lookup_insert_ne.
  - intros id' x [[<- <-]|[_ Hx]]%lookup_insert_Some Hgx Hcx; [|eauto].
    apply (Hq id r Hr); [congruence|]. destruct (cancelled r); [|done]. by rewrite Hc in Hcx.
Qed.

Lemma releaseRes_ok l id r :
  lim_ok l → progress l → store l !! id = Some r → granted r = true →
  lim_ok (releaseRes l id r) ∧ progress (releaseRes l id r).
Proof.
  intros Hok Hp Hr Hg. unfold releaseRes. destruct (released r) eqn:Erel; [done|].
  pose proof (lo_amount l Hok id r Hr) as Hn. pose proof (lo_max l Hok). destruct (lo_value l Hok) as [Hv Hh].
  pose proof (weight_held (store l) id r (λ i x Hx, proj1 (lo_amount l Hok i x Hx)) Hr) as Hwh.
  assert (Hwr : weight r = n r) by (unfold weight; by rewrite Hg, Erel).
  unfold addValue. cbn [set_res value]. rewrite i64_small by lia.
  destruct (doWakesLocked_ok (set_value (set_res l id (mkReservation (n r) (granted r) (cancelled r) true))
    (value l + n r))) as (H1 & H2 & _); [|by split; [|left]].
  destruct (lo_once l Hok id r Hr) as [Hgc _].
  apply (set_res_ok l id r); try done; cbn; [lia|]. unfold weight at 1. cbn. rewrite andb_false_r. lia.
Qed.

Lemma cancelRes_ok l id r :
  lim_ok l → progress l → store l !! id = Some r → granted r = false →
  lim_ok (cancelRes l id r) ∧ progress (cancelRes l id r).
Proof.
  intros Hok Hp Hr Hg. unfold cancelRes. destruct (cancelled r) eqn:Ec; [done|]. split; [|right; cbn; lia].
  pose proof (set_res_ok l id r (mkReservation (n r) (granted r) true (released r)) (value l) Hok Hr) as H.
  destruct H as [H1 H2 H3 H4 H5 H6 H7]; try done; cbn.
  - apply (lo_value l Hok).
  - unfold weight. cbn. by rewrite Hg.
  - apply (lo_once l Hok id r Hr).
Qed.

Lemma Reserve_ok l amount :
  lim_ok l → progress l → 0 ≤ amount < 2 ^ 63 →
  lim_ok (Reserve l amount).1 ∧ progress (Reserve l amount).1.
Proof.
  intros Hok Hp Ha. unfold Reserve. pose proof (is_fresh (dom (store l))) as Hf.
  set (id := fresh (dom (store l))) in *. apply not_elem_of_dom in Hf.
  pose proof (lo_max l Hok). destruct (lo_value l Hok) as [Hv Hh].
  pose proof (held_nonneg (store l) (λ i x Hx, proj1 (lo_amount l Hok i x Hx))).
  assert (Hnw : id ∉ waiting l).
  { intros (r & Hr & _)%(lo_waiting l Hok). congruence. }
  destruct (Z.leb_spec amount (value l)); cbn [fst].
  - rewrite i64_small by lia. split.
    + destruct Hok as [Hm _ Hn Ho Hnd Hw Hq]. split; cbn; try done.
      * split; [lia|]. rewrite held_insert_new by done. unfold weight. cbn. lia.
      * intros id' x [[<- <-]|[_ Hx]]%lookup_insert_Some; [done|eauto].
      * intros id' x [[<- <-]|[_ Hx]]%lookup_insert_Some; [done|eauto].
      * intros id' Hid'. destruct (Hw id' Hid') as (x & Hx & Hgx). exists x.
        rewrite lookup_insert_ne by (intros <-; congruence). done.
      * intros id' x [[<- <-]|[_ Hx]]%lookup_insert_Some Hgx Hcx; [done|eauto].
    + destruct Hp as [Hb|Hw]; [left|by right]. intros id' q r Hq Hr. cbn in *.
      apply lookup_insert_Some in Hr as [[<- _]|[_ Hr]].
      * destruct Hnw. rewrite Hq. by left.
      * destruct (Hb id' q r Hq Hr). split; [done|lia].
  - split.
    + destruct Hok as [Hm _ Hn Ho Hnd Hw Hq]. split; cbn; try done.
      * split; [lia|]. rewrite held_insert_new by done. unfold weight. cbn. lia.
      * intros id' x [[<- <-]|[_ Hx]]%lookup_insert_Some; [done|eauto].
      * intros id' x [[<- <-]|[_ Hx]]%lookup_insert_Some; [done|eauto].
      * apply NoDup_app. split_and!; [done| |apply NoDup_singleton]. intros x Hx Hs%list_elem_of_singleton. by subst x.
      * intros id' [Hid'|Hid'%list_elem_of_singleton]%elem_of_app.
        -- destruct (Hw id' Hid') as (x & Hx & Hgx). exists x.
           rewrite lookup_insert_ne by (intros <-; congruence). done.
        -- subst id'. eexists. by rewrite lookup_insert_eq.
      * intros id' x [[<- <-]|[_ Hx]]%lookup_insert_Some Hgx Hcx; apply elem_of_app;
          [right; by apply list_elem_of_singleton|left; eauto].
    + destruct Hp as [Hb|Hw]; [left|by right]. intros id' q r Hq Hr. cbn in *.
      apply lookup_insert_Some in Hr as [[<- <-]|[Hne Hr]]; [done|].
      destruct (waiting l) as [|id0 q0] eqn:Ew; cbn in Hq; injection Hq as <- Hq; [done|].
      by apply (Hb id0 q0 r).
Qed.

(** ** Sequences of operations *)
Inductive lim_op : Type :=
| LReserve (amount : Z)
| LRelease (id : nat)
| LCancel (id : nat)
| LDrop (id : nat)
| LWakes.

Definition lim_step (l : Limiter) (o : lim_op) : go Limiter :=
  match o with
  | LReserve amount => Ok (Reserve l amount).1
  | LRelease id => Release l id
  | LCancel id => '(l, _) ← Cancel l id; Ok l
  | LDrop id => Drop l id
  | LWakes => Ok (doWakes l)
  end.

Fixpoint lim_run (l : Limiter) (os : list lim_op) : go Limiter :=
  match os with [] => Ok l | o :: os => l ← lim_step l o; lim_run l os end.

Definition op_ok (o : lim_op) : Prop := match o with LReserve amount => 0 ≤ amount < 2 ^ 63 | _ => True end.

Lemma lim_step_ok l o l' :
  lim_ok l → progress l → op_ok o → lim_step l o = Ok l' → lim_ok l' ∧ progress l'.
Proof.
  intros Hok Hp Ho. destruct o as [amount|id|id|id|]; cbn [lim_step].
  - intros [= <-]. by apply Reserve_ok.
  - unfold Release. destruct (store l !! id) as [r|] eqn:Er; [|done].
    destruct (cancelled r); [by intros [= <-]|]. destruct (granted r) eqn:Eg; [|done].
    intros [= <-]. by apply releaseRes_ok.
  - unfold Cancel. destruct (store l !! id) as [r|] eqn:Er; [|done].
    destruct (granted r) eqn:Eg; cbn; intros [= <-]; [done|by apply cancelRes_ok].
  - unfold Drop. destruct (store l !! id) as [r|] eqn:Er; [|done].
    destruct (granted r) eqn:Eg; intros [= <-]; [by apply releaseRes_ok|by apply cancelRes_ok].
  - intros [= <-]. unfold doWakes. destruct (doWakesLocked_ok l Hok) as (H1 & H2 & _).
    split; [by destruct H1|by left].
Qed.

Lemma wakeLoop_Max q : ∀ l, Max (wakeLoop q l) = Max l.
Proof.
  induction q as [|id q IH]; intros l; cbn [wakeLoop]; [done|]. destruct (store l !! id) as [r|]; [|done].
  destruct (cancelled r) eqn:Ec; [apply IH|]. destruct (n r <=? value l); [|done].
  unfold wake. rewrite Ec. destruct (negb (granted r)); by rewrite IH.
Qed.

Lemma releaseRes_Max l id r : Max (releaseRes l id r) = Max l.
Proof. unfold releaseRes, addValue, doWakesLocked. destruct (released r); [done|]. by rewrite wakeLoop_Max. Qed.

Lemma cancelRes_Max l id r : Max (cancelRes l id r) = Max l.
Proof. unfold cancelRes. by destruct (cancelled r). Qed.

Lemma lim_step_Max l o l' : lim_step l o = Ok l' → Max l' = Max l.
Proof.
  destruct o as [amount|id|id|id|]; cbn [lim_step].
  - intros [= <-]. unfold Reserve. by destruct (amount <=? value l).
  - unfold Release. destruct (store l !! id) as [r|]; [|done]. destruct (cancelled r); [by intros [= <-]|].
    destruct (granted r); [|done]. intros [= <-]. apply releaseRes_Max.
  - unfold Cancel. destruct (store l !! id) as [r|]; [|done].
    destruct (granted r); cbn; intros [= <-]; [done|apply cancelRes_Max].
  - unfold Drop. destruct (store l !! id) as [r|]; [|done].
    destruct (granted r); intros [= <-]; [apply releaseRes_Max|apply cancelRes_Max].
  - intros [= <-]. apply wakeLoop_Max.
Qed.

Lemma newLimiter_ok max : 0 ≤ max < 2 ^ 63 → lim_ok (newLimiter max).
Proof.
  intros Hm. split; cbn; try done; try (intros ? ? Hr; by rewrite lookup_empty in Hr).
  - split; [lia|]. unfold held. rewrite map_to_list_empty. cbn. lia.
  - constructor.
  - by intros id ?%not_elem_of_nil.
Qed.

(** C17.  Whatever sequence of [Reserve], [Release], [Cancel], [Drop] and
    delayed wake-ups is run on a limiter: the free space and the space held
    by granted, unreleased reservations add up to [Max] and neither is
    negative; no reservation is both granted and cancelled; every
    reservation that is neither is in the queue exactly once; and the head of
    the queue is one that does not fit, unless a wake-up is still to run. *)
Theorem limiter_accounts max os l :
  0 ≤ max < 2 ^ 63 → Forall op_ok os → lim_run (newLimiter max) os = Ok l →
  0 ≤ value l ∧ 0 ≤ held (store l) ∧ value l + held (store l) = max ∧
  NoDup (waiting l) ∧
  (∀ id r, store l !! id = Some r →
     granted r && cancelled r = false ∧
     (granted r = false → cancelled r = false → id ∈ waiting l)) ∧
  (head_blocked l ∨ (0 < wakeups l)%nat).
Proof.
  intros Hmax Hos Hrun.
  assert (Hgen : ∀ l0, lim_ok l0 → progress l0 → lim_run l0 os = Ok l → lim_ok l ∧ progress l ∧ Max l = Max l0).
  { clear Hrun. induction Hos as [|o os Ho Hos IH]; intros l0 Hok Hp; cbn [lim_run]; [by intros [= <-]|].
    intros (l1 & H1 & H2)%go_bind_Ok. destruct (lim_step_ok l0 o l1 Hok Hp Ho H1).
    rewrite <- (lim_step_Max l0 o l1 H1). eauto. }
  destruct (Hgen (newLimiter max)) as (Hok & Hp & Hm); [apply newLimiter_ok; done|left; by intros ???|done|].
  destruct Hok as [_ [Hv Hh] Ha Ho Hnd _ Hq]. cbn in Hm. split_and!; try done; [|lia|].
  - apply held_nonneg. intros id r Hr. apply (Ha id r Hr).
  - intros id r Hr. split; [by apply (Ho id)|eauto].
Qed.

Definition exampleLimOps : list lim_op :=
  [LReserve 6; LReserve 6; LReserve 4; LReserve 4; LCancel 1; LWakes; LDrop 0; LWakes].

Definition exampleLimiter : Limiter :=
  match lim_run (newLimiter 10) exampleLimOps with Ok l => l | Panic _ => newLimiter 0 end.

Lemma exampleLimiter_run : lim_run (newLimiter 10) exampleLimOps = Ok exampleLimiter.
Proof. vm_compute. reflexivity. Qed.

Lemma limiter_accounts_witness : value exampleLimiter + held (store exampleLimiter) = 10.
Proof.
  apply (limiter_accounts 10 exampleLimOps exampleLimiter);
    [lia | repeat constructor; cbn; lia | exact exampleLimiter_run].
Defined.
