(* ===== verification/SmartBan.v ===== *)
(** Smart banning: src/smartban/smartban.go and src/smartban.go.

    The cache remembers, per block, the hash of what each peer sent; when a
    piece later passes its check, the block checking writer compares the
    correct data with it, block by block. *)
From stdpp Require Import base numbers list strings gmap.
From Stdlib Require Import ZArith Lia.
From S2P Require Import Prelude.
Open Scope Z_scope.

Section SmartBan.
(** The hash of a block, [Cache.Hash]. *)
Context (Hash : list Z → list Z).

(** [Cache.blocks], with peers named by their bannable address. *)
Definition Cache : Type := gmap Z (gmap Z (list Z)).

Definition RecordBlock (me : Cache) (peer key : Z) (data : list Z) : Cache :=
  <[key := <[peer := Hash data]> (default ∅ (me !! key))]> me.

(** The peers to be blamed for the block; the order is that of the map. *)
Definition CheckBlock (me : Cache) (key : Z) (data : list Z) : list Z :=
  (filter (λ p, p.2 ≠ Hash data) (map_to_list (default ∅ (me !! key)))).*1.

Definition ForgetBlock (me : Cache) (key : Z) : Cache := delete key me.

(** ** blockCheckingWriter *)
Record blockCheckingWriter : Type := mkBCW {
  cache : Cache;
  requestIndex : Z;
  badPeers : gset Z;
  blockBuffer : list Z;
  bcwChunkSize : nat
}.

Definition checkBlock (me : blockCheckingWriter) : blockCheckingWriter :=
  let b := take (bcwChunkSize me) (blockBuffer me) in
  mkBCW (cache me) (u32 (requestIndex me + 1))
    (badPeers me ∪ list_to_set (CheckBlock (cache me) (requestIndex me) b))
    (drop (bcwChunkSize me) (blockBuffer me)) (bcwChunkSize me).

(** Loops of [checkBlock]; each turn takes a block off the buffer, so the
    length of the buffer is fuel enough. *)
Fixpoint checkFullBlocks (fuel : nat) (me : blockCheckingWriter) : blockCheckingWriter :=
  match fuel with
  | O => me
  | S fuel => if (bcwChunkSize me <=? length (blockBuffer me))%nat
              then checkFullBlocks fuel (checkBlock me) else me
  end.

Definition Write (me : blockCheckingWriter) (b : list Z) : blockCheckingWriter :=
  let me := mkBCW (cache me) (requestIndex me) (badPeers me) (blockBuffer me ++ b) (bcwChunkSize me) in
  checkFullBlocks (length (blockBuffer me)) me.

Fixpoint flushLoop (fuel : nat) (me : blockCheckingWriter) : blockCheckingWriter :=
  match fuel with
  | O => me
  | S fuel => if negb (length (blockBuffer me) =? 0)%nat then flushLoop fuel (checkBlock me) else me
  end.

Definition Flush (me : blockCheckingWriter) : blockCheckingWriter := flushLoop (length (blockBuffer me)) me.

(** ** What the writer computes, whatever the sizes of the writes *)
Fixpoint chunks (fuel k : nat) (l : list Z) : list (list Z) :=
  match fuel with
  | O => []
  | S fuel => match l with [] => [] | _ => take k l :: chunks fuel k (drop k l) end
  end.

(** The blocks of [data] with the request index of each. *)
Definition blocks (k : nat) (start : Z) (data : list Z) : list (Z * list Z) :=
  imap (λ j b, (start + Z.of_nat j, b)) (chunks (length data) k data).

Definition blamed (c : Cache) (bs : list (Z * list Z)) : gset Z :=
  list_to_set (concat (map (λ p, CheckBlock c p.1 p.2) bs)).

Lemma elem_blamed c bs peer :
  peer ∈ blamed c bs ↔
  ∃ key b, (key, b) ∈ bs ∧ ∃ m h, c !! key = Some m ∧ m !! peer = Some h ∧ h ≠ Hash b.
Proof.
  unfold blamed. rewrite elem_of_list_to_set, list_elem_of_In, in_concat. split.
  - intros (l & Hl & Hp). apply in_map_iff in Hl as ([key b] & <- & Hb).
    apply list_elem_of_In in Hb, Hp. exists key, b. split; [done|].
    unfold CheckBlock in Hp. apply list_elem_of_fmap in Hp as ([p h] & -> & Hp).
    apply list_elem_of_filter in Hp as [Hne Hp]. apply elem_of_map_to_list in Hp. cbn in *.
    destruct (c !! key) as [m|]; cbn in Hp; [eauto|by rewrite lookup_empty in Hp].
  - intros (key & b & Hb & m & h & Hm & Hh & Hne). exists (CheckBlock c key b). split.
    + apply in_map_iff. exists (key, b). split; [done|by apply list_elem_of_In].
    + apply list_elem_of_In. unfold CheckBlock. rewrite Hm. cbn. apply list_elem_of_fmap.
      exists (peer, h). split; [done|]. apply list_elem_of_filter. split; [done|by apply elem_of_map_to_list].
Qed.

Lemma chunks_fuel k : (0 < k)%nat → ∀ f1 f2 l, (length l ≤ f1)%nat → (length l ≤ f2)%nat →
  chunks f1 k l = chunks f2 k l.
Proof.
  intros Hk. induction f1 as [|f1 IH]; intros [|f2] [|x l] H1 H2; cbn [length] in *; try lia; try done.
  cbn [chunks].
  apply (f_equal2 cons); [done|]. apply IH; rewrite length_drop; cbn [length]; lia.
Qed.

Lemma blocks_cons k start l :
  (0 < k)%nat → l ≠ [] → blocks k start l = (start, take k l) :: blocks k (start + 1) (drop k l).
Proof.
  intros Hk Hl. unfold blocks. destruct l as [|x l]; [done|]. cbn [length chunks imap].
  f_equal; [by rewrite Z.add_0_r|].
  rewrite (chunks_fuel k Hk _ (length (drop k (x :: l)))); [|rewrite length_drop; cbn [length]; lia|lia].
  apply imap_ext. intros j b _. cbn. f_equal. lia.
Qed.

Lemma blamed_cons c key b bs :
  blamed c ((key, b) :: bs) = list_to_set (CheckBlock c key b) ∪ blamed c bs.
Proof. unfold blamed. cbn. by rewrite list_to_set_app_L. Qed.

(** What will be blamed once [fut] is written and flushed. *)
Definition potential (me : blockCheckingWriter) (fut : list Z) : gset Z :=
  badPeers me ∪ blamed (cache me) (blocks (bcwChunkSize me) (requestIndex me) (blockBuffer me ++ fut)).

Record bcw_ok (me : blockCheckingWriter) (fut : list Z) : Prop := {
  bo_chunk : (0 < bcwChunkSize me)%nat;
  bo_index : 0 ≤ requestIndex me;
  bo_room : requestIndex me +
    Z.of_nat (length (blocks (bcwChunkSize me) (requestIndex me) (blockBuffer me ++ fut))) < 2 ^ 32
}.

(** A block is complete, or it is the last one. *)
Lemma checkBlock_potential me fut :
  bcw_ok me fut → blockBuffer me ≠ [] → (bcwChunkSize me ≤ length (blockBuffer me))%nat ∨ fut = [] →
  bcw_ok (checkBlock me) fut ∧ potential (checkBlock me) fut = potential me fut ∧
  cache (checkBlock me) = cache me.
Proof.
  intros [Hk Hi Hr] Hne Hfull. rewrite blocks_cons in Hr; [|done|by destruct (blockBuffer me)].
  cbn [length] in Hr.
  assert (Htake : take (bcwChunkSize me) (blockBuffer me ++ fut) = take (bcwChunkSize me) (blockBuffer me) ∧
    drop (bcwChunkSize me) (blockBuffer me ++ fut) = drop (bcwChunkSize me) (blockBuffer me) ++ fut).
  { destruct Hfull as [Hle| ->]; [by rewrite take_app_le, drop_app_le by lia|by rewrite !app_nil_r]. }
  destruct Htake as [Ht Hd]. rewrite Hd in Hr.
  split_and!; [|unfold potential|done].
  - split; unfold checkBlock; cbn [bcwChunkSize requestIndex blockBuffer]; [done|apply u32_range|]. rewrite u32_small by lia. lia.
  - cbn. rewrite u32_small by lia.
    rewrite (blocks_cons _ (requestIndex me) (blockBuffer me ++ fut)); [|done|by destruct (blockBuffer me)].
    rewrite Ht, Hd, blamed_cons. set_solver.
Qed.

Lemma checkFullBlocks_potential fut fuel : ∀ me, bcw_ok me fut →
  bcw_ok (checkFullBlocks fuel me) fut ∧ potential (checkFullBlocks fuel me) fut = potential me fut.
Proof.
  induction fuel as [|fuel IH]; intros me Hok; cbn [checkFullBlocks]; [done|].
  destruct (Nat.leb_spec (bcwChunkSize me) (length (blockBuffer me))) as [Hle|]; [|done].
  destruct (checkBlock_potential me fut Hok) as (H1 & H2 & _); [|by left|].
  - intros Hn. rewrite Hn in Hle. pose proof (bo_chunk _ _ Hok). cbn in Hle. lia.
  - destruct (IH _ H1) as [H3 H4]. split; [done|congruence].
Qed.

Lemma Write_potential me b fut : bcw_ok me (b ++ fut) →
  bcw_ok (Write me b) fut ∧ potential (Write me b) fut = potential me (b ++ fut).
Proof.
  intros [Hk Hi Hr]. unfold Write, potential at 2. rewrite (app_assoc (blockBuffer me) b fut) in Hr |- *.
  apply (checkFullBlocks_potential fut _
    (mkBCW (cache me) (requestIndex me) (badPeers me) (blockBuffer me ++ b) (bcwChunkSize me))).
  by split.
Qed.

Lemma flushLoop_potential fuel : ∀ me, bcw_ok me [] → (length (blockBuffer me) ≤ fuel)%nat →
  badPeers (flushLoop fuel me) = potential me [].
Proof.
  assert (Hend : ∀ me, blockBuffer me = [] → badPeers me = potential me []).
  { intros me Hb. unfold potential. rewrite Hb. cbn. by rewrite union_empty_r_L. }
  induction fuel as [|fuel IH]; intros me Hok Hf; cbn [flushLoop].
  - apply Hend. by apply length_zero_iff_nil; lia.
  - destruct (Nat.eqb_spec (length (blockBuffer me)) 0) as [Hz|Hz]; cbn [negb].
    + apply Hend. by apply length_zero_iff_nil.
    + destruct (checkBlock_potential me [] Hok) as (H1 & H2 & _); [by intros Hn; rewrite Hn in Hz|by right|].
      rewrite IH; [done|done|]. cbn. rewrite length_drop. pose proof (bo_chunk _ _ Hok). lia.
Qed.

(** Whatever the writes, what is blamed is decided by the whole data. *)
Lemma writes_potential ws : ∀ me, bcw_ok me (concat ws) →
  badPeers (Flush (fold_left Write ws me)) = potential me (concat ws).
Proof.
  induction ws as [|w ws IH]; intros me Hok; cbn [fold_left concat].
  - by apply flushLoop_potential.
  - destruct (Write_potential me w (concat ws) Hok) as [H1 <-]. by apply IH.
Qed.

Lemma bcw_blames (c : Cache) (chunkSize : nat) (start : Z) (ws : list (list Z)) :
  (0 < chunkSize)%nat → 0 ≤ start →
  start + Z.of_nat (length (blocks chunkSize start (concat ws))) < 2 ^ 32 →
  badPeers (Flush (fold_left Write ws (mkBCW c start ∅ [] chunkSize))) = blamed c (blocks chunkSize start (concat ws)).
Proof.
  intros Hk Hs Hr. rewrite writes_potential by (by split). unfold potential. cbn. by rewrite union_empty_l_L.
Qed.

(** C18.  However the data of a piece is cut into writes, after [Flush] the
    bad peers of a block checking writer are exactly those that sent, for
    some block of the data, bytes with another hash. *)
Theorem blockCheckingWriter_blames (c : Cache) (chunkSize : nat) (start : Z) (ws : list (list Z)) :
  (0 < chunkSize)%nat → 0 ≤ start →
  start + Z.of_nat (length (blocks chunkSize start (concat ws))) < 2 ^ 32 →
  ∀ peer,
    peer ∈ badPeers (Flush (fold_left Write ws (mkBCW c start ∅ [] chunkSize))) ↔
    ∃ key b, (key, b) ∈ blocks chunkSize start (concat ws) ∧
      ∃ m h, c !! key = Some m ∧ m !! peer = Some h ∧ h ≠ Hash b.
Proof. intros Hk Hs Hr peer. rewrite bcw_blames by done. apply elem_blamed. Qed.
End SmartBan.

Definition exampleCache : Cache :=
  RecordBlock (λ b, b) (RecordBlock (λ b, b) (RecordBlock (λ b, b) ∅ 1 8 [1; 2]) 2 8 [1; 3]) 3 9 [7].

Lemma blockCheckingWriter_blames_witness :
  (2 ∈ badPeers (Flush (λ b, b) (fold_left (Write (λ b, b)) [[1]; [2; 7]] (mkBCW exampleCache 8 ∅ [] 2)))) ↔
  ∃ key b, (key, b) ∈ blocks 2 8 [1; 2; 7] ∧
    ∃ m h, exampleCache !! key = Some m ∧ m !! 2 = Some h ∧ h ≠ b.
Proof. apply (blockCheckingWriter_blames (λ b, b) exampleCache 2 8 [[1]; [2; 7]]); cbn; lia. Defined.
