(* ===== verification/SwarmState.v ===== *)
(** The state of a torrent and its peer connections: the fields of
    [Torrent] (src/torrent.go), [Piece] (src/piece.go), [Peer] and [PeerConn]
    (src/peerconn.go), [ConnStats] (src/conn_stats.go) and
    [PeerRequestState] (src/request-strategy/peer.go) that the operations of
    the following files read and write, and the monad these are written in.

    Pointers to peers are handles into the store [peers].  A roaring bitmap
    is the set of its members, the piece request order of
    src/request-strategy is the map it refines (RequestStrategy.v,
    [pieceRequestOrder_refines]) and a PeerRequests is the list of requests
    in the order they were added that the ordered bitmap refines
    (OrderedBitmap.v, [orderedBitmap_refines_list]).  Condition variables,
    logging and counters of expvar have no state here.  There are no web
    seeds. *)
From stdpp Require Import base numbers list strings gmap.
From Stdlib Require Import ZArith Lia.
From S2P Require Import Prelude Wire Metainfo Geometry RequestStrategy AllocLim SmartBan.
Open Scope Z_scope.

(** Counters of a connection; also kept for the torrent and the client. *)
Record ConnStats : Type := mkConnStats {
  BytesWrittenData : Z;
  BytesReadData : Z;
  BytesReadUsefulData : Z;
  BytesReadUsefulIntendedData : Z;
  ChunksWritten : Z;
  ChunksRead : Z;
  ChunksReadUseful : Z;
  ChunksReadWasted : Z;
  PiecesDirtiedGood : Z;
  PiecesDirtiedBad : Z;
  MetadataChunksRead : Z
}.

Definition set_BytesWrittenData (v : Z) (x : ConnStats) : ConnStats :=
  mkConnStats v (BytesReadData x) (BytesReadUsefulData x) (BytesReadUsefulIntendedData x) (ChunksWritten x) (ChunksRead x) (ChunksReadUseful x) (ChunksReadWasted x) (PiecesDirtiedGood x) (PiecesDirtiedBad x) (MetadataChunksRead x).
Definition set_BytesReadData (v : Z) (x : ConnStats) : ConnStats :=
  mkConnStats (BytesWrittenData x) v (BytesReadUsefulData x) (BytesReadUsefulIntendedData x) (ChunksWritten x) (ChunksRead x) (ChunksReadUseful x) (ChunksReadWasted x) (PiecesDirtiedGood x) (PiecesDirtiedBad x) (MetadataChunksRead x).
Definition set_BytesReadUsefulData (v : Z) (x : ConnStats) : ConnStats :=
  mkConnStats (BytesWrittenData x) (BytesReadData x) v (BytesReadUsefulIntendedData x) (ChunksWritten x) (ChunksRead x) (ChunksReadUseful x) (ChunksReadWasted x) (PiecesDirtiedGood x) (PiecesDirtiedBad x) (MetadataChunksRead x).
Definition set_BytesReadUsefulIntendedData (v : Z) (x : ConnStats) : ConnStats :=
  mkConnStats (BytesWrittenData x) (BytesReadData x) (BytesReadUsefulData x) v (ChunksWritten x) (ChunksRead x) (ChunksReadUseful x) (ChunksReadWasted x) (PiecesDirtiedGood x) (PiecesDirtiedBad x) (MetadataChunksRead x).
Definition set_ChunksWritten (v : Z) (x : ConnStats) : ConnStats :=
  mkConnStats (BytesWrittenData x) (BytesReadData x) (BytesReadUsefulData x) (BytesReadUsefulIntendedData x) v (ChunksRead x) (ChunksReadUseful x) (ChunksReadWasted x) (PiecesDirtiedGood x) (PiecesDirtiedBad x) (MetadataChunksRead x).
Definition set_ChunksRead (v : Z) (x : ConnStats) : ConnStats :=
  mkConnStats (BytesWrittenData x) (BytesReadData x) (BytesReadUsefulData x) (BytesReadUsefulIntendedData x) (ChunksWritten x) v (ChunksReadUseful x) (ChunksReadWasted x) (PiecesDirtiedGood x) (PiecesDirtiedBad x) (MetadataChunksRead x).
Definition set_ChunksReadUseful (v : Z) (x : ConnStats) : ConnStats :=
  mkConnStats (BytesWrittenData x) (BytesReadData x) (BytesReadUsefulData x) (BytesReadUsefulIntendedData x) (ChunksWritten x) (ChunksRead x) v (ChunksReadWasted x) (PiecesDirtiedGood x) (PiecesDirtiedBad x) (MetadataChunksRead x).
Definition set_ChunksReadWasted (v : Z) (x : ConnStats) : ConnStats :=
  mkConnStats (BytesWrittenData x) (BytesReadData x) (BytesReadUsefulData x) (BytesReadUsefulIntendedData x) (ChunksWritten x) (ChunksRead x) (ChunksReadUseful x) v (PiecesDirtiedGood x) (PiecesDirtiedBad x) (MetadataChunksRead x).
Definition set_PiecesDirtiedGood (v : Z) (x : ConnStats) : ConnStats :=
  mkConnStats (BytesWrittenData x) (BytesReadData x) (BytesReadUsefulData x) (BytesReadUsefulIntendedData x) (ChunksWritten x) (ChunksRead x) (ChunksReadUseful x) (ChunksReadWasted x) v (PiecesDirtiedBad x) (MetadataChunksRead x).
Definition set_PiecesDirtiedBad (v : Z) (x : ConnStats) : ConnStats :=
  mkConnStats (BytesWrittenData x) (BytesReadData x) (BytesReadUsefulData x) (BytesReadUsefulIntendedData x) (ChunksWritten x) (ChunksRead x) (ChunksReadUseful x) (ChunksReadWasted x) (PiecesDirtiedGood x) v (MetadataChunksRead x).
Definition set_MetadataChunksRead (v : Z) (x : ConnStats) : ConnStats :=
  mkConnStats (BytesWrittenData x) (BytesReadData x) (BytesReadUsefulData x) (BytesReadUsefulIntendedData x) (ChunksWritten x) (ChunksRead x) (ChunksReadUseful x) (ChunksReadWasted x) (PiecesDirtiedGood x) (PiecesDirtiedBad x) v.

Definition ConnStats0 : ConnStats := mkConnStats 0 0 0 0 0 0 0 0 0 0 0.

(** Our requests to the peer: [requestState.Requests], [requestState.Cancelled]
    and [validReceiveChunks]. *)
Record ReqSide : Type := mkReqSide {
  Requests : list Z  (** in the order they were made *);
  Cancelled : gset Z;
  validReceiveChunks : gmap Z Z
}.

Definition set_Requests (v : list Z) (x : ReqSide) : ReqSide :=
  mkReqSide v (Cancelled x) (validReceiveChunks x).
Definition set_Cancelled (v : gset Z) (x : ReqSide) : ReqSide :=
  mkReqSide (Requests x) v (validReceiveChunks x).
Definition set_validReceiveChunks (v : gmap Z Z) (x : ReqSide) : ReqSide :=
  mkReqSide (Requests x) (Cancelled x) v.

(** What the peer has, and whether the connection is closed. *)
Record HaveSide : Type := mkHaveSide {
  _peerPieces : gset Z;
  peerSentHaveAll : bool;
  peerClosed : bool
}.

Definition set__peerPieces (v : gset Z) (x : HaveSide) : HaveSide :=
  mkHaveSide v (peerSentHaveAll x) (peerClosed x).
Definition set_peerSentHaveAll (v : bool) (x : HaveSide) : HaveSide :=
  mkHaveSide (_peerPieces x) v (peerClosed x).
Definition set_peerClosed (v : bool) (x : HaveSide) : HaveSide :=
  mkHaveSide (_peerPieces x) (peerSentHaveAll x) v.

(** [peerRequestState] of src/peerconn.go: the data once it was read, and the
    handle of the reservation. *)
Record PeerRequestData : Type := mkPRD { prdData : option (list Z); prdReservation : nat }.

(** What we serve to the peer. *)
Record UpSide : Type := mkUpSide {
  choking : bool;
  peerInterested : bool;
  peerRequests : gmap Req PeerRequestData;
  limiter : Limiter  (** [peerRequestDataAllocLimiter] *);
  sentHaves : gset Z
}.

Definition set_choking (v : bool) (x : UpSide) : UpSide :=
  mkUpSide v (peerInterested x) (peerRequests x) (limiter x) (sentHaves x).
Definition set_peerInterested (v : bool) (x : UpSide) : UpSide :=
  mkUpSide (choking x) v (peerRequests x) (limiter x) (sentHaves x).
Definition set_peerRequests (v : gmap Req PeerRequestData) (x : UpSide) : UpSide :=
  mkUpSide (choking x) (peerInterested x) v (limiter x) (sentHaves x).
Definition set_limiter (v : Limiter) (x : UpSide) : UpSide :=
  mkUpSide (choking x) (peerInterested x) (peerRequests x) v (sentHaves x).
Definition set_sentHaves (v : gset Z) (x : UpSide) : UpSide :=
  mkUpSide (choking x) (peerInterested x) (peerRequests x) (limiter x) v.

(** Control of the connection.  [None] is the zero [time.Time]. *)
Record CtlSide : Type := mkCtlSide {
  needRequestUpdate : string;
  interested : bool  (** [requestState.Interested] *);
  peerChoking : bool;
  peerAllowedFast : gset Z;
  peakRequests : Z;
  PeerMaxRequests : Z;
  peerMinPieces : Z;
  peerTouchedPieces : gset Z;
  piecesReceivedSinceLastRequestUpdate : Z;
  chunksReceivedWhileExpecting : Z;
  lastMessageReceived : option Z;
  lastUsefulChunkReceived : option Z;
  lastChunkSent : option Z;
  lastBecameInterested : option Z;
  priorInterest : Z;
  lastStartedExpecting : option Z  (** [lastStartedExpectingToReceiveChunks] *);
  cumulativeExpected : Z  (** [cumulativeExpectedToReceiveChunks] *);
  lastRequestUpdate : option Z
}.

Definition set_needRequestUpdate (v : string) (x : CtlSide) : CtlSide :=
  mkCtlSide v (interested x) (peerChoking x) (peerAllowedFast x) (peakRequests x) (PeerMaxRequests x) (peerMinPieces x) (peerTouchedPieces x) (piecesReceivedSinceLastRequestUpdate x) (chunksReceivedWhileExpecting x) (lastMessageReceived x) (lastUsefulChunkReceived x) (lastChunkSent x) (lastBecameInterested x) (priorInterest x) (lastStartedExpecting x) (cumulativeExpected x) (lastRequestUpdate x).
Definition set_interested (v : bool) (x : CtlSide) : CtlSide :=
  mkCtlSide (needRequestUpdate x) v (peerChoking x) (peerAllowedFast x) (peakRequests x) (PeerMaxRequests x) (peerMinPieces x) (peerTouchedPieces x) (piecesReceivedSinceLastRequestUpdate x) (chunksReceivedWhileExpecting x) (lastMessageReceived x) (lastUsefulChunkReceived x) (lastChunkSent x) (lastBecameInterested x) (priorInterest x) (lastStartedExpecting x) (cumulativeExpected x) (lastRequestUpdate x).
Definition set_peerChoking (v : bool) (x : CtlSide) : CtlSide :=
  mkCtlSide (needRequestUpdate x) (interested x) v (peerAllowedFast x) (peakRequests x) (PeerMaxRequests x) (peerMinPieces x) (peerTouchedPieces x) (piecesReceivedSinceLastRequestUpdate x) (chunksReceivedWhileExpecting x) (lastMessageReceived x) (lastUsefulChunkReceived x) (lastChunkSent x) (lastBecameInterested x) (priorInterest x) (lastStartedExpecting x) (cumulativeExpected x) (lastRequestUpdate x).
Definition set_peerAllowedFast (v : gset Z) (x : CtlSide) : CtlSide :=
  mkCtlSide (needRequestUpdate x) (interested x) (peerChoking x) v (peakRequests x) (PeerMaxRequests x) (peerMinPieces x) (peerTouchedPieces x) (piecesReceivedSinceLastRequestUpdate x) (chunksReceivedWhileExpecting x) (lastMessageReceived x) (lastUsefulChunkReceived x) (lastChunkSent x) (lastBecameInterested x) (priorInterest x) (lastStartedExpecting x) (cumulativeExpected x) (lastRequestUpdate x).
Definition set_peakRequests (v : Z) (x : CtlSide) : CtlSide :=
  mkCtlSide (needRequestUpdate x) (interested x) (peerChoking x) (peerAllowedFast x) v (PeerMaxRequests x) (peerMinPieces x) (peerTouchedPieces x) (piecesReceivedSinceLastRequestUpdate x) (chunksReceivedWhileExpecting x) (lastMessageReceived x) (lastUsefulChunkReceived x) (lastChunkSent x) (lastBecameInterested x) (priorInterest x) (lastStartedExpecting x) (cumulativeExpected x) (lastRequestUpdate x).
Definition set_PeerMaxRequests (v : Z) (x : CtlSide) : CtlSide :=
  mkCtlSide (needRequestUpdate x) (interested x) (peerChoking x) (peerAllowedFast x) (peakRequests x) v (peerMinPieces x) (peerTouchedPieces x) (piecesReceivedSinceLastRequestUpdate x) (chunksReceivedWhileExpecting x) (lastMessageReceived x) (lastUsefulChunkReceived x) (lastChunkSent x) (lastBecameInterested x) (priorInterest x) (lastStartedExpecting x) (cumulativeExpected x) (lastRequestUpdate x).
Definition set_peerMinPieces (v : Z) (x : CtlSide) : CtlSide :=
  mkCtlSide (needRequestUpdate x) (interested x) (peerChoking x) (peerAllowedFast x) (peakRequests x) (PeerMaxRequests x) v (peerTouchedPieces x) (piecesReceivedSinceLastRequestUpdate x) (chunksReceivedWhileExpecting x) (lastMessageReceived x) (lastUsefulChunkReceived x) (lastChunkSent x) (lastBecameInterested x) (priorInterest x) (lastStartedExpecting x) (cumulativeExpected x) (lastRequestUpdate x).
Definition set_peerTouchedPieces (v : gset Z) (x : CtlSide) : CtlSide :=
  mkCtlSide (needRequestUpdate x) (interested x) (peerChoking x) (peerAllowedFast x) (peakRequests x) (PeerMaxRequests x) (peerMinPieces x) v (piecesReceivedSinceLastRequestUpdate x) (chunksReceivedWhileExpecting x) (lastMessageReceived x) (lastUsefulChunkReceived x) (lastChunkSent x) (lastBecameInterested x) (priorInterest x) (lastStartedExpecting x) (cumulativeExpected x) (lastRequestUpdate x).
Definition set_piecesReceivedSinceLastRequestUpdate (v : Z) (x : CtlSide) : CtlSide :=
  mkCtlSide (needRequestUpdate x) (interested x) (peerChoking x) (peerAllowedFast x) (peakRequests x) (PeerMaxRequests x) (peerMinPieces x) (peerTouchedPieces x) v (chunksReceivedWhileExpecting x) (lastMessageReceived x) (lastUsefulChunkReceived x) (lastChunkSent x) (lastBecameInterested x) (priorInterest x) (lastStartedExpecting x) (cumulativeExpected x) (lastRequestUpdate x).
Definition set_chunksReceivedWhileExpecting (v : Z) (x : CtlSide) : CtlSide :=
  mkCtlSide (needRequestUpdate x) (interested x) (peerChoking x) (peerAllowedFast x) (peakRequests x) (PeerMaxRequests x) (peerMinPieces x) (peerTouchedPieces x) (piecesReceivedSinceLastRequestUpdate x) v (lastMessageReceived x) (lastUsefulChunkReceived x) (lastChunkSent x) (lastBecameInterested x) (priorInterest x) (lastStartedExpecting x) (cumulativeExpected x) (lastRequestUpdate x).
Definition set_lastMessageReceived (v : option Z) (x : CtlSide) : CtlSide :=
  mkCtlSide (needRequestUpdate x) (interested x) (peerChoking x) (peerAllowedFast x) (peakRequests x) (PeerMaxRequests x) (peerMinPieces x) (peerTouchedPieces x) (piecesReceivedSinceLastRequestUpdate x) (chunksReceivedWhileExpecting x) v (lastUsefulChunkReceived x) (lastChunkSent x) (lastBecameInterested x) (priorInterest x) (lastStartedExpecting x) (cumulativeExpected x) (lastRequestUpdate x).
Definition set_lastUsefulChunkReceived (v : option Z) (x : CtlSide) : CtlSide :=
  mkCtlSide (needRequestUpdate x) (interested x) (peerChoking x) (peerAllowedFast x) (peakRequests x) (PeerMaxRequests x) (peerMinPieces x) (peerTouchedPieces x) (piecesReceivedSinceLastRequestUpdate x) (chunksReceivedWhileExpecting x) (lastMessageReceived x) v (lastChunkSent x) (lastBecameInterested x) (priorInterest x) (lastStartedExpecting x) (cumulativeExpected x) (lastRequestUpdate x).
Definition set_lastChunkSent (v : option Z) (x : CtlSide) : CtlSide :=
  mkCtlSide (needRequestUpdate x) (interested x) (peerChoking x) (peerAllowedFast x) (peakRequests x) (PeerMaxRequests x) (peerMinPieces x) (peerTouchedPieces x) (piecesReceivedSinceLastRequestUpdate x) (chunksReceivedWhileExpecting x) (lastMessageReceived x) (lastUsefulChunkReceived x) v (lastBecameInterested x) (priorInterest x) (lastStartedExpecting x) (cumulativeExpected x) (lastRequestUpdate x).
Definition set_lastBecameInterested (v : option Z) (x : CtlSide) : CtlSide :=
  mkCtlSide (needRequestUpdate x) (interested x) (peerChoking x) (peerAllowedFast x) (peakRequests x) (PeerMaxRequests x) (peerMinPieces x) (peerTouchedPieces x) (piecesReceivedSinceLastRequestUpdate x) (chunksReceivedWhileExpecting x) (lastMessageReceived x) (lastUsefulChunkReceived x) (lastChunkSent x) v (priorInterest x) (lastStartedExpecting x) (cumulativeExpected x) (lastRequestUpdate x).
Definition set_priorInterest (v : Z) (x : CtlSide) : CtlSide :=
  mkCtlSide (needRequestUpdate x) (interested x) (peerChoking x) (peerAllowedFast x) (peakRequests x) (PeerMaxRequests x) (peerMinPieces x) (peerTouchedPieces x) (piecesReceivedSinceLastRequestUpdate x) (chunksReceivedWhileExpecting x) (lastMessageReceived x) (lastUsefulChunkReceived x) (lastChunkSent x) (lastBecameInterested x) v (lastStartedExpecting x) (cumulativeExpected x) (lastRequestUpdate x).
Definition set_lastStartedExpecting (v : option Z) (x : CtlSide) : CtlSide :=
  mkCtlSide (needRequestUpdate x) (interested x) (peerChoking x) (peerAllowedFast x) (peakRequests x) (PeerMaxRequests x) (peerMinPieces x) (peerTouchedPieces x) (piecesReceivedSinceLastRequestUpdate x) (chunksReceivedWhileExpecting x) (lastMessageReceived x) (lastUsefulChunkReceived x) (lastChunkSent x) (lastBecameInterested x) (priorInterest x) v (cumulativeExpected x) (lastRequestUpdate x).
Definition set_cumulativeExpected (v : Z) (x : CtlSide) : CtlSide :=
  mkCtlSide (needRequestUpdate x) (interested x) (peerChoking x) (peerAllowedFast x) (peakRequests x) (PeerMaxRequests x) (peerMinPieces x) (peerTouchedPieces x) (piecesReceivedSinceLastRequestUpdate x) (chunksReceivedWhileExpecting x) (lastMessageReceived x) (lastUsefulChunkReceived x) (lastChunkSent x) (lastBecameInterested x) (priorInterest x) (lastStartedExpecting x) v (lastRequestUpdate x).
Definition set_lastRequestUpdate (v : option Z) (x : CtlSide) : CtlSide :=
  mkCtlSide (needRequestUpdate x) (interested x) (peerChoking x) (peerAllowedFast x) (peakRequests x) (PeerMaxRequests x) (peerMinPieces x) (peerTouchedPieces x) (piecesReceivedSinceLastRequestUpdate x) (chunksReceivedWhileExpecting x) (lastMessageReceived x) (lastUsefulChunkReceived x) (lastChunkSent x) (lastBecameInterested x) (priorInterest x) (lastStartedExpecting x) (cumulativeExpected x) v.

(** The extension protocol. *)
Record ExtSide : Type := mkExtSide {
  PeerExtensionIDs : gmap string Z;
  metadataRequests : list bool
}.

Definition set_PeerExtensionIDs (v : gmap string Z) (x : ExtSide) : ExtSide :=
  mkExtSide v (metadataRequests x).
Definition set_metadataRequests (v : list bool) (x : ExtSide) : ExtSide :=
  mkExtSide (PeerExtensionIDs x) v.

(** What the handshakes determine, and whether this is the torrent's baseline provider. *)
Record PeerStatic : Type := mkPeerStatic {
  PeerID : list Z;
  supportsFast : bool;        (** [PeerExtensionBytes.SupportsFast()] *)
  trusted : bool;
  bannable : option Z;        (** [bannableAddr] *)
  remoteIp : option Z;        (** [remoteIp()], [None] for nil *)
  isBaselineProvider : bool   (** what [isBaselineProvider()] answers *)
}.

(** A [PeerConn] with its [Peer]. *)
Record Peer : Type := mkPeer {
  pStatic : PeerStatic;
  pReq : ReqSide;
  pHave : HaveSide;
  pUp : UpSide;
  pCtl : CtlSide;
  pExt : ExtSide;
  stats : ConnStats;
  writeBuffer : list Message  (** the messages of the write buffer *)
}.

Definition set_pStatic (v : PeerStatic) (x : Peer) : Peer :=
  mkPeer v (pReq x) (pHave x) (pUp x) (pCtl x) (pExt x) (stats x) (writeBuffer x).
Definition set_pReq (v : ReqSide) (x : Peer) : Peer :=
  mkPeer (pStatic x) v (pHave x) (pUp x) (pCtl x) (pExt x) (stats x) (writeBuffer x).
Definition set_pHave (v : HaveSide) (x : Peer) : Peer :=
  mkPeer (pStatic x) (pReq x) v (pUp x) (pCtl x) (pExt x) (stats x) (writeBuffer x).
Definition set_pUp (v : UpSide) (x : Peer) : Peer :=
  mkPeer (pStatic x) (pReq x) (pHave x) v (pCtl x) (pExt x) (stats x) (writeBuffer x).
Definition set_pCtl (v : CtlSide) (x : Peer) : Peer :=
  mkPeer (pStatic x) (pReq x) (pHave x) (pUp x) v (pExt x) (stats x) (writeBuffer x).
Definition set_pExt (v : ExtSide) (x : Peer) : Peer :=
  mkPeer (pStatic x) (pReq x) (pHave x) (pUp x) (pCtl x) v (stats x) (writeBuffer x).
Definition set_stats (v : ConnStats) (x : Peer) : Peer :=
  mkPeer (pStatic x) (pReq x) (pHave x) (pUp x) (pCtl x) (pExt x) v (writeBuffer x).
Definition set_writeBuffer (v : list Message) (x : Peer) : Peer :=
  mkPeer (pStatic x) (pReq x) (pHave x) (pUp x) (pCtl x) (pExt x) (stats x) v.

(** [Piece]. *)
Record PieceS : Type := mkPieceS {
  hashing : bool;
  marking : bool;
  storageCompletionOk : bool;
  priority : Z;
  relativeAvailability : Z;
  pendingWrites : Z;
  dirtiers : gset nat;
  numVerifies : Z;
  filePrios : list Z  (** [f.prio] of the files of the piece *)
}.

Definition set_hashing (v : bool) (x : PieceS) : PieceS :=
  mkPieceS v (marking x) (storageCompletionOk x) (priority x) (relativeAvailability x) (pendingWrites x) (dirtiers x) (numVerifies x) (filePrios x).
Definition set_marking (v : bool) (x : PieceS) : PieceS :=
  mkPieceS (hashing x) v (storageCompletionOk x) (priority x) (relativeAvailability x) (pendingWrites x) (dirtiers x) (numVerifies x) (filePrios x).
Definition set_storageCompletionOk (v : bool) (x : PieceS) : PieceS :=
  mkPieceS (hashing x) (marking x) v (priority x) (relativeAvailability x) (pendingWrites x) (dirtiers x) (numVerifies x) (filePrios x).
Definition set_priority (v : Z) (x : PieceS) : PieceS :=
  mkPieceS (hashing x) (marking x) (storageCompletionOk x) v (relativeAvailability x) (pendingWrites x) (dirtiers x) (numVerifies x) (filePrios x).
Definition set_relativeAvailability (v : Z) (x : PieceS) : PieceS :=
  mkPieceS (hashing x) (marking x) (storageCompletionOk x) (priority x) v (pendingWrites x) (dirtiers x) (numVerifies x) (filePrios x).
Definition set_pendingWrites (v : Z) (x : PieceS) : PieceS :=
  mkPieceS (hashing x) (marking x) (storageCompletionOk x) (priority x) (relativeAvailability x) v (dirtiers x) (numVerifies x) (filePrios x).
Definition set_dirtiers (v : gset nat) (x : PieceS) : PieceS :=
  mkPieceS (hashing x) (marking x) (storageCompletionOk x) (priority x) (relativeAvailability x) (pendingWrites x) v (numVerifies x) (filePrios x).
Definition set_numVerifies (v : Z) (x : PieceS) : PieceS :=
  mkPieceS (hashing x) (marking x) (storageCompletionOk x) (priority x) (relativeAvailability x) (pendingWrites x) (dirtiers x) v (filePrios x).
Definition set_filePrios (v : list Z) (x : PieceS) : PieceS :=
  mkPieceS (hashing x) (marking x) (storageCompletionOk x) (priority x) (relativeAvailability x) (pendingWrites x) (dirtiers x) (numVerifies x) v.

(** The client's configuration. *)
Record Config : Type := mkConfig {
  cfgFast : bool;                       (** [Extensions.SupportsFast()] *)
  DropMutuallyCompletePeers : bool;
  NoUpload : bool;
  Seed : bool;
  DisableAggressiveUpload : bool;
  uploadBurst : option Z                (** [UploadRateLimiter.Burst()], [None] when unlimited *)
}.

(** Calls that leave the model: goroutines started and parts modelled
    elsewhere. *)
Inductive Event : Type :=
| EvOpenNewConns
| EvPublishPieceChange (i : Z)
| EvStartPieceHasher (i : Z)
| EvReadPeerRequestData (p : nat) (r : Req)
| EvStartWrite (p : nat) (r : Z)
| EvMarkComplete (i : Z)
| EvMarkNotComplete (i : Z)
| EvBan (p : nat)
| EvPexDrop (p : nat).

(** [Torrent], with what it uses of the [Client]. *)
Record Swarm : Type := mkSwarm {
  geo : option Geo  (** [info] with the lengths derived from it; [None] is a nil info *);
  hasStorage : bool  (** [storage != nil] *);
  pieces : list PieceS;
  peers : gmap nat Peer;
  conns : gset nat;
  connsWithAllPieces : gset nat;
  requestState : gmap Z (nat * Z)  (** peer and time *);
  dirtyChunks : gset Z;
  _completedPieces : gset Z;
  _pendingPieces : gset Z;
  piecesQueuedForHash : gset Z;
  activePieceHashes : Z;
  readerNow : gset Z  (** [_readerNowPieces] *);
  readerReadahead : gset Z  (** [_readerReadaheadPieces] *);
  order : gmap Z PieceRequestOrderState  (** the pieces of this torrent in [cl.pieceRequestOrder] *);
  storageCompletion : Z → bool * bool  (** what [Storage().Completion()] returns: Complete, Ok *);
  smartBanCache : Cache;
  badPeerIPs : gset Z;
  torrentClosed : bool;
  metadataBytes : list Z;
  metadataCompletedChunks : option (list bool)  (** [None] is nil *);
  dataDownloadDisallowed : bool;
  dataUploadDisallowed : bool;
  tstats : ConnStats;
  clstats : ConnStats;
  cfg : Config;
  clock : Z  (** [time.Now()] *);
  events : list Event
}.

Definition set_geo (v : option Geo) (x : Swarm) : Swarm :=
  mkSwarm v (hasStorage x) (pieces x) (peers x) (conns x) (connsWithAllPieces x) (requestState x) (dirtyChunks x) (_completedPieces x) (_pendingPieces x) (piecesQueuedForHash x) (activePieceHashes x) (readerNow x) (readerReadahead x) (order x) (storageCompletion x) (smartBanCache x) (badPeerIPs x) (torrentClosed x) (metadataBytes x) (metadataCompletedChunks x) (dataDownloadDisallowed x) (dataUploadDisallowed x) (tstats x) (clstats x) (cfg x) (clock x) (events x).
Definition set_hasStorage (v : bool) (x : Swarm) : Swarm :=
  mkSwarm (geo x) v (pieces x) (peers x) (conns x) (connsWithAllPieces x) (requestState x) (dirtyChunks x) (_completedPieces x) (_pendingPieces x) (piecesQueuedForHash x) (activePieceHashes x) (readerNow x) (readerReadahead x) (order x) (storageCompletion x) (smartBanCache x) (badPeerIPs x) (torrentClosed x) (metadataBytes x) (metadataCompletedChunks x) (dataDownloadDisallowed x) (dataUploadDisallowed x) (tstats x) (clstats x) (cfg x) (clock x) (events x).
Definition set_pieces (v : list PieceS) (x : Swarm) : Swarm :=
  mkSwarm (geo x) (hasStorage x) v (peers x) (conns x) (connsWithAllPieces x) (requestState x) (dirtyChunks x) (_completedPieces x) (_pendingPieces x) (piecesQueuedForHash x) (activePieceHashes x) (readerNow x) (readerReadahead x) (order x) (storageCompletion x) (smartBanCache x) (badPeerIPs x) (torrentClosed x) (metadataBytes x) (metadataCompletedChunks x) (dataDownloadDisallowed x) (dataUploadDisallowed x) (tstats x) (clstats x) (cfg x) (clock x) (events x).
Definition set_peers (v : gmap nat Peer) (x : Swarm) : Swarm :=
  mkSwarm (geo x) (hasStorage x) (pieces x) v (conns x) (connsWithAllPieces x) (requestState x) (dirtyChunks x) (_completedPieces x) (_pendingPieces x) (piecesQueuedForHash x) (activePieceHashes x) (readerNow x) (readerReadahead x) (order x) (storageCompletion x) (smartBanCache x) (badPeerIPs x) (torrentClosed x) (metadataBytes x) (metadataCompletedChunks x) (dataDownloadDisallowed x) (dataUploadDisallowed x) (tstats x) (clstats x) (cfg x) (clock x) (events x).
Definition set_conns (v : gset nat) (x : Swarm) : Swarm :=
  mkSwarm (geo x) (hasStorage x) (pieces x) (peers x) v (connsWithAllPieces x) (requestState x) (dirtyChunks x) (_completedPieces x) (_pendingPieces x) (piecesQueuedForHash x) (activePieceHashes x) (readerNow x) (readerReadahead x) (order x) (storageCompletion x) (smartBanCache x) (badPeerIPs x) (torrentClosed x) (metadataBytes x) (metadataCompletedChunks x) (dataDownloadDisallowed x) (dataUploadDisallowed x) (tstats x) (clstats x) (cfg x) (clock x) (events x).
Definition set_connsWithAllPieces (v : gset nat) (x : Swarm) : Swarm :=
  mkSwarm (geo x) (hasStorage x) (pieces x) (peers x) (conns x) v (requestState x) (dirtyChunks x) (_completedPieces x) (_pendingPieces x) (piecesQueuedForHash x) (activePieceHashes x) (readerNow x) (readerReadahead x) (order x) (storageCompletion x) (smartBanCache x) (badPeerIPs x) (torrentClosed x) (metadataBytes x) (metadataCompletedChunks x) (dataDownloadDisallowed x) (dataUploadDisallowed x) (tstats x) (clstats x) (cfg x) (clock x) (events x).
Definition set_requestState (v : gmap Z (nat * Z)) (x : Swarm) : Swarm :=
  mkSwarm (geo x) (hasStorage x) (pieces x) (peers x) (conns x) (connsWithAllPieces x) v (dirtyChunks x) (_completedPieces x) (_pendingPieces x) (piecesQueuedForHash x) (activePieceHashes x) (readerNow x) (readerReadahead x) (order x) (storageCompletion x) (smartBanCache x) (badPeerIPs x) (torrentClosed x) (metadataBytes x) (metadataCompletedChunks x) (dataDownloadDisallowed x) (dataUploadDisallowed x) (tstats x) (clstats x) (cfg x) (clock x) (events x).
Definition set_dirtyChunks (v : gset Z) (x : Swarm) : Swarm :=
  mkSwarm (geo x) (hasStorage x) (pieces x) (peers x) (conns x) (connsWithAllPieces x) (requestState x) v (_completedPieces x) (_pendingPieces x) (piecesQueuedForHash x) (activePieceHashes x) (readerNow x) (readerReadahead x) (order x) (storageCompletion x) (smartBanCache x) (badPeerIPs x) (torrentClosed x) (metadataBytes x) (metadataCompletedChunks x) (dataDownloadDisallowed x) (dataUploadDisallowed x) (tstats x) (clstats x) (cfg x) (clock x) (events x).
Definition set__completedPieces (v : gset Z) (x : Swarm) : Swarm :=
  mkSwarm (geo x) (hasStorage x) (pieces x) (peers x) (conns x) (connsWithAllPieces x) (requestState x) (dirtyChunks x) v (_pendingPieces x) (piecesQueuedForHash x) (activePieceHashes x) (readerNow x) (readerReadahead x) (order x) (storageCompletion x) (smartBanCache x) (badPeerIPs x) (torrentClosed x) (metadataBytes x) (metadataCompletedChunks x) (dataDownloadDisallowed x) (dataUploadDisallowed x) (tstats x) (clstats x) (cfg x) (clock x) (events x).
Definition set__pendingPieces (v : gset Z) (x : Swarm) : Swarm :=
  mkSwarm (geo x) (hasStorage x) (pieces x) (peers x) (conns x) (connsWithAllPieces x) (requestState x) (dirtyChunks x) (_completedPieces x) v (piecesQueuedForHash x) (activePieceHashes x) (readerNow x) (readerReadahead x) (order x) (storageCompletion x) (smartBanCache x) (badPeerIPs x) (torrentClosed x) (metadataBytes x) (metadataCompletedChunks x) (dataDownloadDisallowed x) (dataUploadDisallowed x) (tstats x) (clstats x) (cfg x) (clock x) (events x).
Definition set_piecesQueuedForHash (v : gset Z) (x : Swarm) : Swarm :=
  mkSwarm (geo x) (hasStorage x) (pieces x) (peers x) (conns x) (connsWithAllPieces x) (requestState x) (dirtyChunks x) (_completedPieces x) (_pendingPieces x) v (activePieceHashes x) (readerNow x) (readerReadahead x) (order x) (storageCompletion x) (smartBanCache x) (badPeerIPs x) (torrentClosed x) (metadataBytes x) (metadataCompletedChunks x) (dataDownloadDisallowed x) (dataUploadDisallowed x) (tstats x) (clstats x) (cfg x) (clock x) (events x).
Definition set_activePieceHashes (v : Z) (x : Swarm) : Swarm :=
  mkSwarm (geo x) (hasStorage x) (pieces x) (peers x) (conns x) (connsWithAllPieces x) (requestState x) (dirtyChunks x) (_completedPieces x) (_pendingPieces x) (piecesQueuedForHash x) v (readerNow x) (readerReadahead x) (order x) (storageCompletion x) (smartBanCache x) (badPeerIPs x) (torrentClosed x) (metadataBytes x) (metadataCompletedChunks x) (dataDownloadDisallowed x) (dataUploadDisallowed x) (tstats x) (clstats x) (cfg x) (clock x) (events x).
Definition set_readerNow (v : gset Z) (x : Swarm) : Swarm :=
  mkSwarm (geo x) (hasStorage x) (pieces x) (peers x) (conns x) (connsWithAllPieces x) (requestState x) (dirtyChunks x) (_completedPieces x) (_pendingPieces x) (piecesQueuedForHash x) (activePieceHashes x) v (readerReadahead x) (order x) (storageCompletion x) (smartBanCache x) (badPeerIPs x) (torrentClosed x) (metadataBytes x) (metadataCompletedChunks x) (dataDownloadDisallowed x) (dataUploadDisallowed x) (tstats x) (clstats x) (cfg x) (clock x) (events x).
Definition set_readerReadahead (v : gset Z) (x : Swarm) : Swarm :=
  mkSwarm (geo x) (hasStorage x) (pieces x) (peers x) (conns x) (connsWithAllPieces x) (requestState x) (dirtyChunks x) (_completedPieces x) (_pendingPieces x) (piecesQueuedForHash x) (activePieceHashes x) (readerNow x) v (order x) (storageCompletion x) (smartBanCache x) (badPeerIPs x) (torrentClosed x) (metadataBytes x) (metadataCompletedChunks x) (dataDownloadDisallowed x) (dataUploadDisallowed x) (tstats x) (clstats x) (cfg x) (clock x) (events x).
Definition set_order (v : gmap Z PieceRequestOrderState) (x : Swarm) : Swarm :=
  mkSwarm (geo x) (hasStorage x) (pieces x) (peers x) (conns x) (connsWithAllPieces x) (requestState x) (dirtyChunks x) (_completedPieces x) (_pendingPieces x) (piecesQueuedForHash x) (activePieceHashes x) (readerNow x) (readerReadahead x) v (storageCompletion x) (smartBanCache x) (badPeerIPs x) (torrentClosed x) (metadataBytes x) (metadataCompletedChunks x) (dataDownloadDisallowed x) (dataUploadDisallowed x) (tstats x) (clstats x) (cfg x) (clock x) (events x).
Definition set_storageCompletion (v : Z → bool * bool) (x : Swarm) : Swarm :=
  mkSwarm (geo x) (hasStorage x) (pieces x) (peers x) (conns x) (connsWithAllPieces x) (requestState x) (dirtyChunks x) (_completedPieces x) (_pendingPieces x) (piecesQueuedForHash x) (activePieceHashes x) (readerNow x) (readerReadahead x) (order x) v (smartBanCache x) (badPeerIPs x) (torrentClosed x) (metadataBytes x) (metadataCompletedChunks x) (dataDownloadDisallowed x) (dataUploadDisallowed x) (tstats x) (clstats x) (cfg x) (clock x) (events x).
Definition set_smartBanCache (v : Cache) (x : Swarm) : Swarm :=
  mkSwarm (geo x) (hasStorage x) (pieces x) (peers x) (conns x) (connsWithAllPieces x) (requestState x) (dirtyChunks x) (_completedPieces x) (_pendingPieces x) (piecesQueuedForHash x) (activePieceHashes x) (readerNow x) (readerReadahead x) (order x) (storageCompletion x) v (badPeerIPs x) (torrentClosed x) (metadataBytes x) (metadataCompletedChunks x) (dataDownloadDisallowed x) (dataUploadDisallowed x) (tstats x) (clstats x) (cfg x) (clock x) (events x).
Definition set_badPeerIPs (v : gset Z) (x : Swarm) : Swarm :=
  mkSwarm (geo x) (hasStorage x) (pieces x) (peers x) (conns x) (connsWithAllPieces x) (requestState x) (dirtyChunks x) (_completedPieces x) (_pendingPieces x) (piecesQueuedForHash x) (activePieceHashes x) (readerNow x) (readerReadahead x) (order x) (storageCompletion x) (smartBanCache x) v (torrentClosed x) (metadataBytes x) (metadataCompletedChunks x) (dataDownloadDisallowed x) (dataUploadDisallowed x) (tstats x) (clstats x) (cfg x) (clock x) (events x).
Definition set_torrentClosed (v : bool) (x : Swarm) : Swarm :=
  mkSwarm (geo x) (hasStorage x) (pieces x) (peers x) (conns x) (connsWithAllPieces x) (requestState x) (dirtyChunks x) (_completedPieces x) (_pendingPieces x) (piecesQueuedForHash x) (activePieceHashes x) (readerNow x) (readerReadahead x) (order x) (storageCompletion x) (smartBanCache x) (badPeerIPs x) v (metadataBytes x) (metadataCompletedChunks x) (dataDownloadDisallowed x) (dataUploadDisallowed x) (tstats x) (clstats x) (cfg x) (clock x) (events x).
Definition set_metadataBytes (v : list Z) (x : Swarm) : Swarm :=
  mkSwarm (geo x) (hasStorage x) (pieces x) (peers x) (conns x) (connsWithAllPieces x) (requestState x) (dirtyChunks x) (_completedPieces x) (_pendingPieces x) (piecesQueuedForHash x) (activePieceHashes x) (readerNow x) (readerReadahead x) (order x) (storageCompletion x) (smartBanCache x) (badPeerIPs x) (torrentClosed x) v (metadataCompletedChunks x) (dataDownloadDisallowed x) (dataUploadDisallowed x) (tstats x) (clstats x) (cfg x) (clock x) (events x).
Definition set_metadataCompletedChunks (v : option (list bool)) (x : Swarm) : Swarm :=
  mkSwarm (geo x) (hasStorage x) (pieces x) (peers x) (conns x) (connsWithAllPieces x) (requestState x) (dirtyChunks x) (_completedPieces x) (_pendingPieces x) (piecesQueuedForHash x) (activePieceHashes x) (readerNow x) (readerReadahead x) (order x) (storageCompletion x) (smartBanCache x) (badPeerIPs x) (torrentClosed x) (metadataBytes x) v (dataDownloadDisallowed x) (dataUploadDisallowed x) (tstats x) (clstats x) (cfg x) (clock x) (events x).
Definition set_dataDownloadDisallowed (v : bool) (x : Swarm) : Swarm :=
  mkSwarm (geo x) (hasStorage x) (pieces x) (peers x) (conns x) (connsWithAllPieces x) (requestState x) (dirtyChunks x) (_completedPieces x) (_pendingPieces x) (piecesQueuedForHash x) (activePieceHashes x) (readerNow x) (readerReadahead x) (order x) (storageCompletion x) (smartBanCache x) (badPeerIPs x) (torrentClosed x) (metadataBytes x) (metadataCompletedChunks x) v (dataUploadDisallowed x) (tstats x) (clstats x) (cfg x) (clock x) (events x).
Definition set_dataUploadDisallowed (v : bool) (x : Swarm) : Swarm :=
  mkSwarm (geo x) (hasStorage x) (pieces x) (peers x) (conns x) (connsWithAllPieces x) (requestState x) (dirtyChunks x) (_completedPieces x) (_pendingPieces x) (piecesQueuedForHash x) (activePieceHashes x) (readerNow x) (readerReadahead x) (order x) (storageCompletion x) (smartBanCache x) (badPeerIPs x) (torrentClosed x) (metadataBytes x) (metadataCompletedChunks x) (dataDownloadDisallowed x) v (tstats x) (clstats x) (cfg x) (clock x) (events x).
Definition set_tstats (v : ConnStats) (x : Swarm) : Swarm :=
  mkSwarm (geo x) (hasStorage x) (pieces x) (peers x) (conns x) (connsWithAllPieces x) (requestState x) (dirtyChunks x) (_completedPieces x) (_pendingPieces x) (piecesQueuedForHash x) (activePieceHashes x) (readerNow x) (readerReadahead x) (order x) (storageCompletion x) (smartBanCache x) (badPeerIPs x) (torrentClosed x) (metadataBytes x) (metadataCompletedChunks x) (dataDownloadDisallowed x) (dataUploadDisallowed x) v (clstats x) (cfg x) (clock x) (events x).
Definition set_clstats (v : ConnStats) (x : Swarm) : Swarm :=
  mkSwarm (geo x) (hasStorage x) (pieces x) (peers x) (conns x) (connsWithAllPieces x) (requestState x) (dirtyChunks x) (_completedPieces x) (_pendingPieces x) (piecesQueuedForHash x) (activePieceHashes x) (readerNow x) (readerReadahead x) (order x) (storageCompletion x) (smartBanCache x) (badPeerIPs x) (torrentClosed x) (metadataBytes x) (metadataCompletedChunks x) (dataDownloadDisallowed x) (dataUploadDisallowed x) (tstats x) v (cfg x) (clock x) (events x).
Definition set_cfg (v : Config) (x : Swarm) : Swarm :=
  mkSwarm (geo x) (hasStorage x) (pieces x) (peers x) (conns x) (connsWithAllPieces x) (requestState x) (dirtyChunks x) (_completedPieces x) (_pendingPieces x) (piecesQueuedForHash x) (activePieceHashes x) (readerNow x) (readerReadahead x) (order x) (storageCompletion x) (smartBanCache x) (badPeerIPs x) (torrentClosed x) (metadataBytes x) (metadataCompletedChunks x) (dataDownloadDisallowed x) (dataUploadDisallowed x) (tstats x) (clstats x) v (clock x) (events x).
Definition set_clock (v : Z) (x : Swarm) : Swarm :=
  mkSwarm (geo x) (hasStorage x) (pieces x) (peers x) (conns x) (connsWithAllPieces x) (requestState x) (dirtyChunks x) (_completedPieces x) (_pendingPieces x) (piecesQueuedForHash x) (activePieceHashes x) (readerNow x) (readerReadahead x) (order x) (storageCompletion x) (smartBanCache x) (badPeerIPs x) (torrentClosed x) (metadataBytes x) (metadataCompletedChunks x) (dataDownloadDisallowed x) (dataUploadDisallowed x) (tstats x) (clstats x) (cfg x) v (events x).
Definition set_events (v : list Event) (x : Swarm) : Swarm :=
  mkSwarm (geo x) (hasStorage x) (pieces x) (peers x) (conns x) (connsWithAllPieces x) (requestState x) (dirtyChunks x) (_completedPieces x) (_pendingPieces x) (piecesQueuedForHash x) (activePieceHashes x) (readerNow x) (readerReadahead x) (order x) (storageCompletion x) (smartBanCache x) (badPeerIPs x) (torrentClosed x) (metadataBytes x) (metadataCompletedChunks x) (dataDownloadDisallowed x) (dataUploadDisallowed x) (tstats x) (clstats x) (cfg x) (clock x) v.

(** ** The monad: the state is threaded, a panic ends the run *)
Definition act (A : Type) : Type := Swarm → go (A * Swarm).

#[export] Instance act_ret : MRet act := λ A a s, Ok (a, s).
#[export] Instance act_bind : MBind act := λ A B f m s,
  match m s with Ok (a, s') => f a s' | Panic w => Panic w end.

Definition gets {A} (f : Swarm → A) : act A := λ s, Ok (f s, s).
Definition modify (f : Swarm → Swarm) : act unit := λ s, Ok (tt, f s).
Definition panic {A} (w : string) : act A := λ s, Panic w.
Definition assert_go (b : bool) (w : string) : act unit := if b then mret tt else panic w.
Definition when (b : bool) (m : act unit) : act unit := if b then m else mret tt.
Definition emit_event (e : Event) : act unit := modify (λ s, set_events (events s ++ [e]) s).

(** A nil dereference where the handle is not in the store. *)
Definition peer (c : nat) : act Peer := λ s,
  match peers s !! c with Some p => Ok (p, s) | None => Panic "nil peer" end.
Definition modify_peer (c : nat) (f : Peer → Peer) : act unit :=
  modify (λ s, set_peers (alter f c (peers s)) s).
Definition on_req (c : nat) (f : ReqSide → ReqSide) : act unit :=
  modify_peer c (λ p, set_pReq (f (pReq p)) p).
Definition on_have (c : nat) (f : HaveSide → HaveSide) : act unit :=
  modify_peer c (λ p, set_pHave (f (pHave p)) p).
Definition on_up (c : nat) (f : UpSide → UpSide) : act unit :=
  modify_peer c (λ p, set_pUp (f (pUp p)) p).
Definition on_ctl (c : nat) (f : CtlSide → CtlSide) : act unit :=
  modify_peer c (λ p, set_pCtl (f (pCtl p)) p).
Definition on_ext (c : nat) (f : ExtSide → ExtSide) : act unit :=
  modify_peer c (λ p, set_pExt (f (pExt p)) p).

(** [&t.pieces[i]]: an index out of range panics. *)
Definition piece (i : Z) : act PieceS := λ s,
  match (if 0 <=? i then pieces s !! Z.to_nat i else None) with
  | Some p => Ok (p, s)
  | None => Panic "index out of range"
  end.
Definition modify_piece (i : Z) (f : PieceS → PieceS) : act unit :=
  _ ← piece i; modify (λ s, set_pieces (alter f (Z.to_nat i) (pieces s)) s).

(** [t.info] dereferenced. *)
Definition info : act Geo := λ s,
  match geo s with Some g => Ok (g, s) | None => Panic "nil info" end.

Fixpoint forEach {A} (l : list A) (f : A → act unit) : act unit :=
  match l with [] => mret tt | x :: l => _ ← f x; forEach l f end.
