(* ===== verification/Swarm.v ===== *)
(** The operations of a torrent and its peer connections: src/torrent.go,
    src/piece.go, src/peerconn.go, src/peer.go, src/torrent-piece-request-order.go
    and src/conn_stats.go.

    Every definition is the whole function, in the monad of SwarmState.v.
    [mapOrder] is the order in which Go happens to iterate over a map with
    these keys, and [sha1] the hash of the smart ban cache. *)
From stdpp Require Import base numbers list strings gmap sorting.
From Stdlib Require Import ZArith Lia.
From S2P Require Import Prelude Wire Metainfo Geometry RequestStrategy OrderedBitmap AllocLim SmartBan SwarmState.
Open Scope Z_scope.

(** ** Reading the state *)
Definition haveInfo (s : Swarm) : bool := match geo s with Some _ => true | None => false end.

Definition pieceComplete (s : Swarm) (i : Z) : bool := bool_decide (i ∈ _completedPieces s).

Definition wantPieceIndex (s : Swarm) (i : Z) : bool := bool_decide (i ∈ _pendingPieces s).

Definition haveAnyPieces (s : Swarm) : bool := negb (bool_decide (_completedPieces s = ∅)).

Definition haveAllPieces (s : Swarm) : bool :=
  match geo s with
  | None => false
  | Some g => Z.of_nat (size (_completedPieces s)) =? numPieces g
  end.

Definition havePiece (s : Swarm) (i : Z) : bool := haveInfo s && pieceComplete s i.

Definition needData (s : Swarm) : bool :=
  if torrentClosed s then false
  else if negb (haveInfo s) then true
  else negb (bool_decide (_pendingPieces s = ∅)).

Definition seeding (s : Swarm) : bool :=
  if torrentClosed s then false
  else if dataUploadDisallowed s then false
  else if NoUpload (cfg s) then false
  else if negb (Seed (cfg s)) then false
  else if DisableAggressiveUpload (cfg s) && needData s then false
  else true.

Definition requestingPeer (s : Swarm) (r : Z) : option nat := fst <$> requestState s !! r.

Definition fastEnabled (s : Swarm) (p : Peer) : bool := supportsFast (pStatic p) && cfgFast (cfg s).

(** "-TR" and a '-' at position 7. *)
Definition remoteIsTransmission (p : Peer) : bool :=
  bool_decide (take 3 (PeerID (pStatic p)) = [45; 84; 82]) && bool_decide (PeerID (pStatic p) !! 7%nat = Some 45).

(** [all, known]. *)
Definition peerHasAllPieces (s : Swarm) (p : Peer) : bool * bool :=
  if peerSentHaveAll (pHave p) then (true, true)
  else
    match geo s with
    | None => (false, false)
    | Some g => (Z.of_nat (size (_peerPieces (pHave p))) =? numPieces g, true)
    end.

Definition peerHasPiece (s : Swarm) (p : Peer) (i : Z) : bool :=
  let '(all, known) := peerHasAllPieces s p in
  if all && known then true else bool_decide (i ∈ _peerPieces (pHave p)).

Definition isLowOnRequests (p : Peer) : bool :=
  bool_decide (Requests (pReq p) = []) && bool_decide (Cancelled (pReq p) = ∅).

Definition peerHasWantedPieces (s : Swarm) (p : Peer) : bool :=
  if (peerHasAllPieces s p).1 then negb (haveAllPieces s) && negb (bool_decide (_pendingPieces s = ∅))
  else if negb (haveInfo s) then negb (bool_decide (_peerPieces (pHave p) = ∅))
  else negb (bool_decide (_peerPieces (pHave p) ∩ _pendingPieces s = ∅)).

Definition useful (s : Swarm) (p : Peer) : bool :=
  if peerClosed (pHave p) then false
  else if negb (haveInfo s) then bool_decide (is_Some (PeerExtensionIDs (pExt p) !! "ut_metadata"%string))
  else if seeding s && peerInterested (pUp p) then true
  else peerHasWantedPieces s p.

(** ** Chunks of a piece *)
Definition set_Rank (b : gset Z) (x : Z) : Z := Z.of_nat (size (filter (λ y, y ≤ x) b)).

Definition numDirtyChunks (s : Swarm) (g : Geo) (i : Z) : Z :=
  u32 (roaringBitmapRangeCardinality (set_Rank (dirtyChunks s))
         (pieceRequestIndexOffset g i) (pieceRequestIndexOffset g (i + 1))).

Definition hasDirtyChunks (s : Swarm) (g : Geo) (i : Z) : bool := negb (numDirtyChunks s g i =? 0).

Definition allChunksDirty (s : Swarm) (g : Geo) (i : Z) : bool :=
  numDirtyChunks s g i =? pieceNumChunks g i.

Definition chunkIndexDirty (s : Swarm) (g : Geo) (i chunk : Z) : bool :=
  bool_decide (u32 (pieceRequestIndexOffset g i + chunk) ∈ dirtyChunks s).

Definition pendingChunk (s : Swarm) (g : Geo) (i : Z) (cs : ChunkSpec) : bool :=
  negb (chunkIndexDirty s g i (chunkIndexFromChunkSpec cs (chunkSize g))).

Definition piecePartiallyDownloaded (s : Swarm) (g : Geo) (i : Z) : bool :=
  if pieceComplete s i then false
  else if allChunksDirty s g i then false
  else hasDirtyChunks s g i.

Definition pieceNumPendingChunks (s : Swarm) (g : Geo) (i : Z) : Z :=
  if pieceComplete s i then 0 else u32 (pieceNumChunks g i - numDirtyChunks s g i).

Definition numDirtyBytes (s : Swarm) (g : Geo) (i : Z) : Z :=
  let k := numDirtyChunks s g i in
  let last := u32 (pieceNumChunks g i - 1) in
  if chunkIndexDirty s g i last
  then u32 (csLength (chunkIndexSpec last (pieceLength g i) (chunkSize g)) + u32 (u32 (k - 1) * chunkSize g))
  else u32 (k * chunkSize g).

Definition Piece_bytesLeft (s : Swarm) (g : Geo) (i : Z) : Z :=
  if pieceComplete s i then 0 else u32 (pieceLength g i - numDirtyBytes s g i).

(** [bytesLeft]: [iterFlipped] delivers the pieces that are not complete. *)
Definition bytesLeft (s : Swarm) (g : Geo) : Z :=
  fold_left (λ acc i, if pieceComplete s i then acc
                      else i64 (acc + u32 (pieceLength g i - numDirtyBytes s g i)))
    (seqZ 0 (numPieces g)) 0.

Definition haveChunk (s : Swarm) (r : Req) : bool :=
  match geo s with
  | None => false
  | Some g => if pieceComplete s (rIndex r) then true else negb (pendingChunk s g (rIndex r) (rChunk r))
  end.

(** ** Priorities *)
Definition PiecePriorityNone : Z := 0.
Definition PiecePriorityNormal : Z := 1.
Definition PiecePriorityHigh : Z := 2.
Definition PiecePriorityReadahead : Z := 3.
Definition PiecePriorityNext : Z := 4.
Definition PiecePriorityNow : Z := 5.

Definition Raise (me maybe : Z) : Z := if me <? maybe then maybe else me.

Definition purePriority (s : Swarm) (i : Z) (p : PieceS) : Z :=
  let ret := fold_left Raise (filePrios p) 0 in
  let ret := if bool_decide (i ∈ readerNow s) then Raise ret PiecePriorityNow else ret in
  let ret := if bool_decide (i ∈ readerReadahead s) then Raise ret PiecePriorityReadahead else ret in
  Raise ret (priority p).

Definition uncachedPriority (s : Swarm) (i : Z) (p : PieceS) : Z :=
  if hashing p || marking p || pieceComplete s i || bool_decide (i ∈ piecesQueuedForHash s)
  then PiecePriorityNone
  else purePriority s i p.

Definition availability (s : Swarm) (p : PieceS) : Z :=
  Z.of_nat (size (connsWithAllPieces s)) + relativeAvailability p.

Definition requestStrategyPieceOrderState (s : Swarm) (g : Geo) (i : Z) (p : PieceS) : PieceRequestOrderState :=
  mkPState (purePriority s i p) (piecePartiallyDownloaded s g i) (availability s p).

Section Operations.
Context (mapOrder : gset nat → list nat) (sha1 : list Z → list Z).

(** ** Statistics and the write buffer *)
Definition allStats (c : nat) (f : ConnStats → ConnStats) : act unit :=
  _ ← modify_peer c (λ p, set_stats (f (stats p)) p);
  modify (λ s, set_clstats (f (clstats s)) (set_tstats (f (tstats s)) s)).

Definition wroteMsg (msg : Message) (cs : ConnStats) : ConnStats :=
  if Type_ msg =? Piece
  then set_BytesWrittenData (i64 (BytesWrittenData cs + Z.of_nat (length (PieceData msg))))
         (set_ChunksWritten (i64 (ChunksWritten cs + 1)) cs)
  else cs.

Definition receivedChunk (size : Z) (cs : ConnStats) : ConnStats :=
  set_BytesReadData (i64 (BytesReadData cs + size)) (set_ChunksRead (i64 (ChunksRead cs + 1)) cs).

Definition writeBufferHighWaterLen : Z := 2 ^ 15.
Definition writeBufferLowWaterLen : Z := writeBufferHighWaterLen / 2.

Definition msgLen (m : Message) : Z := Z.of_nat (length (MarshalBinary m).1).

(** [writeBuffer.Len()]. *)
Definition bufLen (p : Peer) : Z := Zsum (map msgLen (writeBuffer p)).

(** [PeerConn.write]: returns whether the buffer is not full. *)
Definition write (c : nat) (msg : Message) : act bool :=
  _ ← assert_go (MarshalBinary msg).2 "MustMarshalBinary";
  _ ← modify_peer c (λ p, set_writeBuffer (writeBuffer p ++ [msg]) p);
  p ← peer c;
  _ ← allStats c (wroteMsg msg);
  mret (negb (writeBufferHighWaterLen <=? bufLen p)).

Definition typeMsg (t : Z) : Message := set_type Message0 t.

(** ** The piece request order *)
Definition updatePieceRequestOrder (i : Z) : act unit :=
  b ← gets hasStorage;
  if negb b then mret tt
  else
    g ← info;
    p ← piece i;
    o ← gets order;
    match o !! i with
    | None => panic "key should have been added already"
    | Some _ => modify (λ s, set_order (<[i := requestStrategyPieceOrderState s g i p]> (order s)) s)
    end.

Definition addRequestOrderPiece (i : Z) : act unit :=
  b ← gets hasStorage;
  if negb b then mret tt
  else
    g ← info;
    p ← piece i;
    o ← gets order;
    match o !! i with
    | Some _ => panic "key"
    | None => modify (λ s, set_order (<[i := requestStrategyPieceOrderState s g i p]> (order s)) s)
    end.

Definition deletePieceRequestOrder : act unit :=
  b ← gets hasStorage;
  if negb b then mret tt
  else
    g ← info;
    forEach (seqZ 0 (numPieces g)) (λ i,
      o ← gets order;
      match o !! i with
      | None => panic "item"
      | Some _ => modify (λ s, set_order (delete i (order s)) s)
      end).

(** ** Updating requests *)
Definition peerUpdateRequestsTimerReason : string := "updateRequestsTimer".

Definition updateRequests (c : nat) (reason : string) : act unit :=
  p ← peer c;
  if negb (bool_decide (needRequestUpdate (pCtl p) = ""%string)) then mret tt
  else if negb (bool_decide (reason = peerUpdateRequestsTimerReason)) && negb (isLowOnRequests p) then mret tt
  else on_ctl c (set_needRequestUpdate reason).

(** [iterPeers] over the connections: an entry removed before it is reached
    is not visited. *)
Definition iterPeers (f : nat → act unit) : act unit :=
  cs ← gets conns;
  forEach (mapOrder cs) (λ c,
    cs ← gets conns;
    when (bool_decide (c ∈ cs)) (f c)).

(** [expectingChunks]. *)
Definition list_Rank (l : list Z) (x : Z) : Z := Z.of_nat (length (filter (λ y, y ≤ x) l)).

Definition expectingChunks (s : Swarm) (p : Peer) : go bool :=
  if bool_decide (Requests (pReq p) = []) then Ok false
  else if negb (interested (pCtl p)) then Ok false
  else if negb (peerChoking (pCtl p)) then Ok true
  else if bool_decide (peerAllowedFast (pCtl p) = ∅) then Ok false
  else
    match geo s with
    | None => Panic "nil info"
    | Some g =>
        Ok (existsb (λ i, roaringBitmapRangeCardinality (list_Rank (Requests (pReq p)))
                            (pieceRequestIndexOffset g i) (pieceRequestIndexOffset g (i + 1)) =? 0)
              (elements (peerAllowedFast (pCtl p))))
    end.

Definition lift_go {A} (m : go A) : act A := λ s, match m with Ok a => Ok (a, s) | Panic w => Panic w end.

Definition updateExpectingChunks (c : nat) : act unit :=
  p ← peer c;
  s ← gets (λ s, s);
  e ← lift_go (expectingChunks s p);
  if e : bool then
    match lastStartedExpecting (pCtl p) with
    | None => on_ctl c (set_lastStartedExpecting (Some (clock s)))
    | Some _ => mret tt
    end
  else
    match lastStartedExpecting (pCtl p) with
    | Some start => on_ctl c (λ x, set_lastStartedExpecting None
                                     (set_cumulativeExpected (cumulativeExpected x + (clock s - start)) x))
    | None => mret tt
    end.

(** ** Requests *)
Definition maxLocalToRemoteRequests : Z :=
  (writeBufferHighWaterLen - writeBufferLowWaterLen - msgLen (typeMsg Interested)) / msgLen (typeMsg Request).

Definition nominalMaxRequests (p : Peer) : Z :=
  Z.max 1 (Z.min (Z.min (PeerMaxRequests (pCtl p)) (i64 (peakRequests (pCtl p) * 2))) maxLocalToRemoteRequests).

Definition deleteRequest (c : nat) (r : Z) : act bool :=
  p ← peer c;
  if negb (bool_decide (r ∈ Requests (pReq p))) then mret false
  else
    _ ← on_req c (λ x, set_Requests (filter (λ y, y ≠ r) (Requests x)) x);
    _ ← updateExpectingChunks c;
    s ← gets (λ s, s);
    _ ← assert_go (bool_decide (requestingPeer s r = Some c)) "only one peer should have a given request at a time";
    _ ← modify (λ s, set_requestState (delete r (requestState s)) s);
    mret true.

Definition assertNoRequests (c : nat) : act unit :=
  p ← peer c;
  assert_go (bool_decide (Requests (pReq p) = [])) "assertNoRequests".

(** [IterateSnapshot] goes through a clone of the bitmap, in ascending
    order. *)
Definition deleteAllRequests (c : nat) (reason : string) : act unit :=
  p ← peer c;
  if bool_decide (Requests (pReq p) = []) then mret tt
  else
    _ ← forEach (merge_sort Z.le (Requests (pReq p))) (λ x,
          b ← deleteRequest c x;
          assert_go b "request should exist");
    _ ← assertNoRequests c;
    iterPeers (λ d, q ← peer d; when (isLowOnRequests q) (updateRequests d reason)).

Definition decPeakRequests (c : nat) : act unit :=
  on_ctl c (λ x, set_peakRequests (i64 (peakRequests x - 1)) x).

(** [_cancel]: whether an acknowledgement of the cancel is expected. *)
Definition _cancel (c : nat) (r : Z) : act bool :=
  g ← info;
  let q := requestIndexToRequest g r in
  _ ← write c (MakeCancelMessage (rIndex q) (rBegin q) (rLength q));
  p ← peer c;
  s ← gets (λ s, s);
  mret (fastEnabled s p && negb (remoteIsTransmission p)).

Definition cancel (c : nat) (r : Z) : act unit :=
  b ← deleteRequest c r;
  _ ← assert_go b "request not existing should have been guarded";
  acked ← _cancel c r;
  _ ← (if acked : bool then
         p ← peer c;
         _ ← assert_go (bool_decide (r ∉ Cancelled (pReq p))) "request already cancelled";
         on_req c (λ x, set_Cancelled ({[r]} ∪ Cancelled x) x)
       else mret tt);
  _ ← decPeakRequests c;
  p ← peer c;
  when (isLowOnRequests p) (updateRequests c "Peer.cancel").

Definition cancelAllRequests (c : nat) : act unit :=
  p ← peer c;
  _ ← forEach (merge_sort Z.le (Requests (pReq p))) (cancel c);
  assertNoRequests c.

Definition cancelRequest (r : Z) : act (option nat) :=
  s ← gets (λ s, s);
  let p := requestingPeer s r in
  _ ← (match p with Some d => cancel d r | None => mret tt end);
  s ← gets (λ s, s);
  _ ← assert_go (bool_decide (requestState s !! r = None)) "expected request state to be gone";
  mret p.

(** [shouldRequest] panics where the code panics; [request] panics on its
    errors. *)
Definition shouldRequest (c : nat) (r : Z) : act unit :=
  s ← gets (λ s, s);
  p ← peer c;
  g ← info;
  let pi := pieceIndexOfRequestIndex g r in
  _ ← assert_go (match checkValidReceiveChunk (geo s) (requestIndexToRequest g r) with None => true | Some _ => false end)
        "invalid chunk";
  _ ← assert_go (bool_decide (r ∉ Cancelled (pReq p))) "request is cancelled and waiting acknowledgement";
  _ ← assert_go (peerHasPiece s p pi) "requesting piece peer doesn't have";
  _ ← assert_go (bool_decide (c ∈ conns s)) "requesting but not in active conns";
  _ ← assert_go (negb (peerClosed (pHave p))) "requesting when connection is closed";
  ps ← piece pi;
  _ ← assert_go (negb (hashing ps)) "piece is being hashed";
  _ ← assert_go (bool_decide (pi ∉ piecesQueuedForHash s)) "piece is queued for hash";
  assert_go (negb (peerChoking (pCtl p) && bool_decide (pi ∉ peerAllowedFast (pCtl p)) &&
                   bool_decide (r ∉ Requests (pReq p))))
    "peer choking and piece not allowed fast".

(** [None] is the error "too many outstanding requests". *)
Definition request (c : nat) (r : Z) : act (option bool) :=
  _ ← shouldRequest c r;
  p ← peer c;
  if bool_decide (r ∈ Requests (pReq p)) then mret (Some true)
  else if nominalMaxRequests p <=? Z.of_nat (length (Requests (pReq p))) then mret None
  else
    _ ← on_req c (λ x,
          mkReqSide (Requests x ++ [r]) (Cancelled x)
            (<[r := default 0 (validReceiveChunks x !! r) + 1]> (validReceiveChunks x)));
    _ ← modify (λ s, set_requestState (<[r := (c, clock s)]> (requestState s)) s);
    _ ← updateExpectingChunks c;
    g ← info;
    more ← write c (ToMsg (requestIndexToRequest g r) Request);
    mret (Some more).

Definition mustRequest (c : nat) (r : Z) : act bool :=
  o ← request c r;
  match o with Some more => mret more | None => panic "too many outstanding requests" end.

Definition decExpectedChunkReceive (c : nat) (r : Z) : act unit :=
  p ← peer c;
  let count := default 0 (validReceiveChunks (pReq p) !! r) in
  if count =? 1 then on_req c (λ x, set_validReceiveChunks (delete r (validReceiveChunks x)) x)
  else if 1 <? count then on_req c (λ x, set_validReceiveChunks (<[r := count - 1]> (validReceiveChunks x)) x)
  else panic "decExpectedChunkReceive".

(** [Cancelled.CheckedRemove]. *)
Definition checkedRemoveCancelled (c : nat) (r : Z) : act bool :=
  p ← peer c;
  _ ← on_req c (λ x, set_Cancelled (Cancelled x ∖ {[r]}) x);
  mret (bool_decide (r ∈ Cancelled (pReq p))).

Definition remoteRejectedRequest (c : nat) (r : Z) : act bool :=
  b ← deleteRequest c r;
  ok ← (if b : bool then _ ← decPeakRequests c; mret true else checkedRemoveCancelled c r);
  if negb ok then mret false
  else
    p ← peer c;
    _ ← when (isLowOnRequests p) (updateRequests c "Peer.remoteRejectedRequest");
    _ ← decExpectedChunkReceive c r;
    mret true.

Definition setInterested (c : nat) (b : bool) : act bool :=
  p ← peer c;
  if bool_decide (interested (pCtl p) = b) then mret true
  else
    t ← gets clock;
    _ ← on_ctl c (λ x,
          let x := set_interested b x in
          if b then set_lastBecameInterested (Some t) x
          else match lastBecameInterested x with
               | Some since => set_priorInterest (priorInterest x + (t - since)) x
               | None => x
               end);
    _ ← updateExpectingChunks c;
    write c (typeMsg (if b then Interested else NotInterested)).

(** ** Availability of pieces *)
Definition decPieceAvailability (i : Z) : act unit :=
  s ← gets (λ s, s);
  if negb (haveInfo s) then mret tt
  else
    p ← piece i;
    _ ← assert_go (0 <? relativeAvailability p) "relativeAvailability";
    _ ← modify_piece i (set_relativeAvailability (relativeAvailability p - 1));
    updatePieceRequestOrder i.

Definition incPieceAvailability (i : Z) : act unit :=
  s ← gets (λ s, s);
  if haveInfo s then
    p ← piece i;
    _ ← modify_piece i (set_relativeAvailability (relativeAvailability p + 1));
    updatePieceRequestOrder i
  else mret tt.

Definition addConnWithAllPieces (c : nat) : act unit :=
  modify (λ s, set_connsWithAllPieces ({[c]} ∪ connsWithAllPieces s) s).

Definition deleteConnWithAllPieces (c : nat) : act bool :=
  s ← gets (λ s, s);
  _ ← modify (λ s, set_connsWithAllPieces (connsWithAllPieces s ∖ {[c]}) s);
  mret (bool_decide (c ∈ connsWithAllPieces s)).

(** The members of a bitmap in the order of iteration. *)
Definition ascending (b : gset Z) : list Z := merge_sort Z.le (elements b).

Definition decPeerPieceAvailability (c : nat) : act unit :=
  b ← deleteConnWithAllPieces c;
  if b : bool then mret tt
  else
    s ← gets (λ s, s);
    if negb (haveInfo s) then mret tt
    else
      p ← peer c;
      forEach (ascending (_peerPieces (pHave p))) decPieceAvailability.

(** ** Closing connections *)
Definition close (c : nat) : act unit :=
  p ← peer c;
  if peerClosed (pHave p) then mret tt
  else
    _ ← on_have c (set_peerClosed true);
    decPeerPieceAvailability c.

Definition deletePeerConn (c : nat) : act bool :=
  p ← peer c;
  _ ← assert_go (peerClosed (pHave p)) "connection is not closed";
  s ← gets (λ s, s);
  let ret := bool_decide (c ∈ conns s) in
  _ ← modify (λ s, set_conns (conns s ∖ {[c]}) s);
  _ ← when ret (emit_event (EvPexDrop c));
  _ ← deleteAllRequests c "Torrent.deletePeerConn";
  s ← gets (λ s, s);
  _ ← assert_go (negb (bool_decide (conns s = ∅) && negb (bool_decide (connsWithAllPieces s = ∅))))
        "connsWithAllPieces";
  mret ret.

Definition openNewConns : act unit := emit_event EvOpenNewConns.

Definition dropConnection (c : nat) : act unit :=
  _ ← close c;
  b ← deletePeerConn c;
  when b openNewConns.

Definition maybeDropMutuallyCompletePeer (c : nat) : act unit :=
  s ← gets (λ s, s);
  p ← peer c;
  if negb (DropMutuallyCompletePeers (cfg s)) then mret tt
  else if negb (haveAllPieces s) then mret tt
  else
    let '(all, known) := peerHasAllPieces s p in
    if negb (known && all) then mret tt
    else if useful s p then mret tt
    else dropConnection c.

(** ** What the peer has *)
Definition raisePeerMinPieces (c : nat) (newMin : Z) : act unit :=
  on_ctl c (λ x, if peerMinPieces x <? newMin then set_peerMinPieces newMin x else x).

(** The errors end the connection. *)
Inductive MsgErr : Type :=
| ErrInvalidPiece
| ErrFastDisabled
| ErrDuplicateRequest
| ErrChunkTooLong
| ErrMissingPiece
| ErrChunkOverflowsPiece
| ErrInvalidChunk (e : ChunkErr)
| ErrUnexpectedChunk
| ErrInvalidReject
| ErrExtended
| ErrUnknownType.

Definition peerSentHave (c : nat) (i : Z) : act (option MsgErr) :=
  s ← gets (λ s, s);
  p ← peer c;
  if match geo s with Some g => numPieces g <=? i | None => false end || (i <? 0)
  then mret (Some ErrInvalidPiece)
  else if peerHasPiece s p i then mret None
  else
    _ ← raisePeerMinPieces c (i + 1);
    p ← peer c;
    s ← gets (λ s, s);
    _ ← (if negb (peerHasPiece s p i) then incPieceAvailability i else mret tt);
    _ ← on_have c (λ x, set__peerPieces ({[i]} ∪ _peerPieces x) x);
    s ← gets (λ s, s);
    _ ← when (wantPieceIndex s i) (updateRequests c "have");
    _ ← maybeDropMutuallyCompletePeer c;
    mret None.

Definition onPeerHasAllPieces (c : nat) : act unit :=
  s ← gets (λ s, s);
  p ← peer c;
  _ ← when (haveInfo s) (forEach (ascending (_peerPieces (pHave p))) decPieceAvailability);
  _ ← addConnWithAllPieces c;
  _ ← on_have c (λ x, mkHaveSide ∅ true (peerClosed x));
  s ← gets (λ s, s);
  _ ← when (negb (bool_decide (_pendingPieces s = ∅))) (updateRequests c "Peer.onPeerHasAllPieces");
  maybeDropMutuallyCompletePeer c.

Definition boolSliceToBitmap (bf : list bool) : gset Z :=
  list_to_set (omap (λ p : nat * bool, if p.2 then Some (Z.of_nat p.1) else None) (imap pair bf)).

Definition symdiff (a b : gset Z) : gset Z := (a ∖ b) ∪ (b ∖ a).

(** The pieces that change: gained ones may be wanted.  Returns
    [shouldUpdateRequests]. *)
Definition applyBitfield (c : nat) (changed : gset Z) : act bool :=
  p ← peer c;
  s ← gets (λ s, s);
  _ ← forEach (ascending changed) (λ x,
        if bool_decide (x ∈ _peerPieces (pHave p)) then decPieceAvailability x else incPieceAvailability x);
  mret (existsb (λ x, negb (bool_decide (x ∈ _peerPieces (pHave p))) && wantPieceIndex s x) (elements changed)).

Definition peerSentBitfield (c : nat) (bf : list bool) : act (option MsgErr) :=
  _ ← assert_go ((length bf mod 8 =? 0)%nat) "expected bitfield length divisible by 8";
  _ ← raisePeerMinPieces c (Z.of_nat (length bf) - 7);
  s ← gets (λ s, s);
  let bf := match geo s with
            | Some g => if numPieces g <? Z.of_nat (length bf) then take (Z.to_nat (numPieces g)) bf else bf
            | None => bf
            end in
  let bm := boolSliceToBitmap bf in
  if match geo s with Some g => Z.of_nat (size bm) =? numPieces g | None => false end
  then _ ← onPeerHasAllPieces c; mret None
  else
    _ ← when (negb (bool_decide (bm = ∅))) (raisePeerMinPieces c (foldr Z.max 0 (elements bm) + 1));
    p ← peer c;
    changed ← (if peerSentHaveAll (pHave p) then
                 b ← deleteConnWithAllPieces c;
                 _ ← assert_go b "deleteConnWithAllPieces";
                 _ ← on_have c (set_peerSentHaveAll false);
                 _ ← assert_go (bool_decide (_peerPieces (pHave p) = ∅))
                       "if peer has all, we expect no individual peer pieces to be set";
                 mret bm
               else mret (symdiff bm (_peerPieces (pHave p))));
    _ ← on_have c (set_peerSentHaveAll false);
    shouldUpdateRequests ← applyBitfield c changed;
    _ ← on_have c (λ x, set__peerPieces (symdiff (_peerPieces x) changed) x);
    _ ← when shouldUpdateRequests (updateRequests c "bitfield");
    _ ← maybeDropMutuallyCompletePeer c;
    mret None.

Definition peerSentHaveNone (c : nat) : act (option MsgErr) :=
  p ← peer c;
  _ ← when (negb (peerSentHaveAll (pHave p))) (decPeerPieceAvailability c);
  _ ← on_have c (λ x, mkHaveSide ∅ false (peerClosed x));
  _ ← maybeDropMutuallyCompletePeer c;
  mret None.

(** ** Priorities, and pieces becoming complete or incomplete *)
Definition piecePriorityChanged (i : Z) (reason : string) : act unit :=
  s ← gets (λ s, s);
  _ ← when (wantPieceIndex s i) (iterPeers (λ c,
        p ← peer c;
        s ← gets (λ s, s);
        if negb (isLowOnRequests p) then mret tt
        else if negb (peerHasPiece s p i) then mret tt
        else if interested (pCtl p) && peerChoking (pCtl p) && bool_decide (i ∉ peerAllowedFast (pCtl p)) then mret tt
        else updateRequests c reason));
  _ ← openNewConns;
  emit_event (EvPublishPieceChange i).

Definition updatePiecePriority (i : Z) (reason : string) : act unit :=
  s ← gets (λ s, s);
  _ ← when (negb (torrentClosed s)) (updatePieceRequestOrder i);
  p ← piece i;
  s ← gets (λ s, s);
  if uncachedPriority s i p =? PiecePriorityNone then
    if negb (wantPieceIndex s i) then mret tt
    else _ ← modify (λ s, set__pendingPieces (_pendingPieces s ∖ {[i]}) s); piecePriorityChanged i reason
  else
    if wantPieceIndex s i then mret tt
    else _ ← modify (λ s, set__pendingPieces ({[i]} ∪ _pendingPieces s) s); piecePriorityChanged i reason.

Definition updatePiecePriorities (begin end_ : Z) (reason : string) : act unit :=
  forEach (seqZ begin (end_ - begin)) (λ i, updatePiecePriority i reason).

(** [RemoveRange] of the piece's chunks. *)
Definition pendAllChunkSpecs (i : Z) : act unit :=
  g ← info;
  modify (λ s, set_dirtyChunks
    (filter (λ r, ¬ (pieceRequestIndexOffset g i ≤ r < pieceRequestIndexOffset g (i + 1))) (dirtyChunks s)) s).

Definition have (c : nat) (i : Z) : act unit :=
  p ← peer c;
  if bool_decide (i ∈ sentHaves (pUp p)) then mret tt
  else
    _ ← write c (set_ints (typeMsg Have) (u32 i) 0 0);
    on_up c (λ x, set_sentHaves ({[i]} ∪ sentHaves x) x).

Definition cancelRequestsForPiece (i : Z) : act unit :=
  g ← info;
  let start := pieceRequestIndexOffset g i in
  let end_ := u32 (start + pieceNumChunks g i) in
  forEach (seqZ start (end_ - start)) (λ ri, _ ← cancelRequest ri; mret tt).

Definition onPieceCompleted (i : Z) : act unit :=
  _ ← pendAllChunkSpecs i;
  _ ← cancelRequestsForPiece i;
  iterPeers (λ c, _ ← have c i; maybeDropMutuallyCompletePeer c).

Definition onIncompletePiece (i : Z) : act unit :=
  g ← info;
  s ← gets (λ s, s);
  _ ← when (allChunksDirty s g i) (pendAllChunkSpecs i);
  s ← gets (λ s, s);
  if negb (wantPieceIndex s i) then mret tt
  else iterPeers (λ c, p ← peer c; s ← gets (λ s, s); when (peerHasPiece s p i) (updateRequests c "piece incomplete")).

Definition pieceCompletionChanged (i : Z) (reason : string) : act unit :=
  s ← gets (λ s, s);
  _ ← (if pieceComplete s i then onPieceCompleted i else onIncompletePiece i);
  updatePiecePriority i reason.

(** [pieceCompleteUncached]: Complete, Ok. *)
Definition pieceCompleteUncached (s : Swarm) (i : Z) : bool * bool :=
  if negb (hasStorage s) then (false, true) else storageCompletion s i.

Definition updatePieceCompletion (i : Z) : act bool :=
  p ← piece i;
  s ← gets (λ s, s);
  let uncached := pieceCompleteUncached s i in
  let changed := negb (bool_decide ((pieceComplete s i, storageCompletionOk p) = uncached)) in
  _ ← modify_piece i (set_storageCompletionOk uncached.2);
  _ ← (if uncached.1 then
         _ ← modify (λ s, set__completedPieces ({[i]} ∪ _completedPieces s) s); openNewConns
       else modify (λ s, set__completedPieces (_completedPieces s ∖ {[i]}) s));
  _ ← updatePieceRequestOrder i;
  _ ← when changed (pieceCompletionChanged i "Torrent.updatePieceCompletion");
  mret changed.

(** ** Hashing *)
Fixpoint firstNotHashing (l : list Z) : act (option Z) :=
  match l with
  | [] => mret None
  | i :: l => p ← piece i; if hashing p then firstNotHashing l else mret (Some i)
  end.

Definition getPieceToHash : act (option Z) :=
  q ← gets piecesQueuedForHash;
  firstNotHashing (ascending q).

Definition tryCreatePieceHasher : act bool :=
  b ← gets hasStorage;
  if negb b then mret false
  else
    o ← getPieceToHash;
    match o with
    | None => mret false
    | Some pi =>
        _ ← modify (λ s, set_piecesQueuedForHash (piecesQueuedForHash s ∖ {[pi]}) s);
        _ ← modify_piece pi (set_hashing true);
        _ ← emit_event (EvPublishPieceChange pi);
        _ ← updatePiecePriority pi "Torrent.tryCreatePieceHasher";
        _ ← modify (λ s, set_activePieceHashes (activePieceHashes s + 1) s);
        _ ← emit_event (EvStartPieceHasher pi);
        mret true
    end.

(** The loop stops once two hashers are active, so it runs at most as often
    as hashers are missing. *)
Fixpoint hasherLoop (fuel : nat) : act unit :=
  match fuel with
  | O => mret tt
  | S fuel =>
      s ← gets (λ s, s);
      if negb (torrentClosed s) && (activePieceHashes s <? 2) then
        b ← tryCreatePieceHasher;
        if b : bool then hasherLoop fuel else mret tt
      else mret tt
  end.

Definition tryCreateMorePieceHashers : act unit :=
  n ← gets activePieceHashes;
  hasherLoop (Z.to_nat (3 - n)).

Definition queuePieceCheck (i : Z) : act unit :=
  s ← gets (λ s, s);
  if bool_decide (i ∈ piecesQueuedForHash s) then mret tt
  else
    _ ← modify (λ s, set_piecesQueuedForHash ({[i]} ∪ piecesQueuedForHash s) s);
    _ ← emit_event (EvPublishPieceChange i);
    _ ← updatePiecePriority i "Torrent.queuePieceCheck";
    tryCreateMorePieceHashers.

Definition clearPieceTouchers (i : Z) : act unit :=
  p ← piece i;
  _ ← forEach (elements (dirtiers p)) (λ c,
        on_ctl c (λ x, set_peerTouchedPieces (peerTouchedPieces x ∖ {[i]}) x));
  modify_piece i (set_dirtiers ∅).

Definition incGood (cs : ConnStats) : ConnStats := set_PiecesDirtiedGood (i64 (PiecesDirtiedGood cs + 1)) cs.
Definition incBad (cs : ConnStats) : ConnStats := set_PiecesDirtiedBad (i64 (PiecesDirtiedBad cs + 1)) cs.
Definition torrentStats (f : ConnStats → ConnStats) : act unit :=
  modify (λ s, set_clstats (f (clstats s)) (set_tstats (f (tstats s)) s)).

(** [banPeerIP] for the peers of this torrent. *)
Definition banPeerIP (ip : Z) : act unit :=
  _ ← modify (λ s, set_badPeerIPs ({[ip]} ∪ badPeerIPs s) s);
  iterPeers (λ c, p ← peer c; when (bool_decide (remoteIp (pStatic p) = Some ip)) (dropConnection c)).

Definition dropBannedPeers : act unit :=
  iterPeers (λ c,
    p ← peer c;
    s ← gets (λ s, s);
    match remoteIp (pStatic p) with
    | None => mret tt
    | Some ip => when (bool_decide (ip ∈ badPeerIPs s)) (dropConnection c)
    end).

(** [pieceHashed] of a piece that failed its check: the part up to
    [updatePieceCompletion].  A sole untrusted dirtier is banned; [ban] of a
    peer without an address panics in [banPeerIP]. *)
Definition pieceHashedFailed (i : Z) (hashIoErr : bool) : act unit :=
  p ← piece i;
  g ← info;
  s ← gets (λ s, s);
  _ ← (if negb (bool_decide (dirtiers p = ∅)) && allChunksDirty s g i && negb hashIoErr then
         _ ← torrentStats incBad;
         _ ← forEach (elements (dirtiers p)) (λ c, modify_peer c (λ x, set_stats (incBad (stats x)) x));
         let bannableTouchers := List.filter (λ c, match peers s !! c with
                                                   | Some x => negb (trusted (pStatic x))
                                                   | None => false
                                                   end) (elements (dirtiers p)) in
         _ ← clearPieceTouchers i;
         match bannableTouchers with
         | [c] =>
             x ← peer c;
             _ ← emit_event (EvBan c);
             match remoteIp (pStatic x) with
             | Some ip => banPeerIP ip
             | None => panic "banPeerIP"
             end
         | _ => mret tt
         end
       else mret tt);
  _ ← onIncompletePiece i;
  emit_event (EvMarkNotComplete i).

(** [pieceHashed] of a piece that passed, before the client lock is released
    to mark it in the storage. *)
Definition pieceHashedPassed (i : Z) : act unit :=
  p ← piece i;
  _ ← when (negb (bool_decide (dirtiers p = ∅))) (torrentStats incGood);
  _ ← forEach (elements (dirtiers p)) (λ c, modify_peer c (λ x, set_stats (incGood (stats x)) x));
  _ ← clearPieceTouchers i;
  emit_event (EvMarkComplete i).

(** The end of [pieceHashed] and of [pieceHasher]. *)
Definition pieceHasherTail (i : Z) : act unit :=
  _ ← updatePiecePriority i "Torrent.pieceHasher";
  _ ← modify (λ s, set_activePieceHashes (activePieceHashes s - 1) s);
  tryCreateMorePieceHashers.

(** [pieceHasher] once the hash is computed.  Returns whether it has gone on
    to mark the piece, in which case [pieceMarked] follows. *)
Definition pieceHasher (i : Z) (correct : bool) (failedPeers : list Z) (copyErr : bool) : act bool :=
  g ← info;
  _ ← when correct (
        _ ← forEach failedPeers banPeerIP;
        _ ← dropBannedPeers;
        let start := pieceRequestIndexOffset g i in
        forEach (seqZ start (pieceRequestIndexOffset g (i + 1) - start)) (λ ri,
          modify (λ s, set_smartBanCache (ForgetBlock (smartBanCache s) ri) s)));
  _ ← modify_piece i (set_hashing false);
  p ← piece i;
  _ ← modify_piece i (set_numVerifies (numVerifies p + 1));
  s ← gets (λ s, s);
  if torrentClosed s then _ ← pieceHasherTail i; mret false
  else
    _ ← modify_piece i (set_marking true);
    _ ← emit_event (EvPublishPieceChange i);
    if correct then _ ← pieceHashedPassed i; mret true
    else
      _ ← pieceHashedFailed i copyErr;
      _ ← updatePieceCompletion i;
      _ ← modify_piece i (set_marking false);
      _ ← emit_event (EvPublishPieceChange i);
      _ ← pieceHasherTail i;
      mret false.

(** The rest of [pieceHashed] and [pieceHasher] after [MarkComplete]. *)
Definition pieceMarked (i : Z) : act unit :=
  s ← gets (λ s, s);
  _ ← when (negb (torrentClosed s)) (_ ← pendAllChunkSpecs i; _ ← updatePieceCompletion i; mret tt);
  _ ← modify_piece i (set_marking false);
  _ ← emit_event (EvPublishPieceChange i);
  pieceHasherTail i.

(** ** Receiving chunks *)
Definition onDirtiedPiece (c : nat) (i : Z) : act unit :=
  _ ← on_ctl c (λ x, set_peerTouchedPieces ({[i]} ∪ peerTouchedPieces x) x);
  p ← piece i;
  modify_piece i (set_dirtiers ({[c]} ∪ dirtiers p)).

Definition unpendChunkIndex (i chunk : Z) : act unit :=
  g ← info;
  _ ← modify (λ s, set_dirtyChunks ({[u32 (pieceRequestIndexOffset g i + chunk)]} ∪ dirtyChunks s) s);
  updatePieceRequestOrder i.

Definition pendRequest (r : Z) : act unit :=
  g ← info;
  let i := pieceIndexOfRequestIndex g r in
  _ ← modify (λ s, set_dirtyChunks
        (dirtyChunks s ∖ {[u32 (pieceRequestIndexOffset g i + r mod chunksPerRegularPiece g)]}) s);
  updatePieceRequestOrder i.

Inductive Received : Type :=
| ReceivedErr (e : MsgErr)
| ReceivedRedundant
| ReceivedWriting.   (** the chunk is being written; [chunkWritten] follows *)

(** [receiveChunk] up to the write to the storage, for which the client lock
    is released. *)
Definition receiveChunk (c : nat) (msg : Message) : act Received :=
  ppReq ← lift_go (newRequestFromMessage msg);
  s ← gets (λ s, s);
  match checkValidReceiveChunk (geo s) ppReq with
  | Some e => mret (ReceivedErr (ErrInvalidChunk e))
  | None =>
      g ← info;
      let req := requestIndexFromRequest g ppReq in
      p ← peer c;
      _ ← (match bannable (pStatic p) with
           | Some addr => modify (λ s, set_smartBanCache (RecordBlock sha1 (smartBanCache s) addr req (PieceData msg)) s)
           | None => mret tt
           end);
      if default 0 (validReceiveChunks (pReq p) !! req) <=? 0 then mret (ReceivedErr ErrUnexpectedChunk)
      else
        _ ← decExpectedChunkReceive c req;
        b ← deleteRequest c req;
        intended ← (if b : bool then mret true else checkedRemoveCancelled c req);
        _ ← when intended (
              p ← peer c;
              _ ← when (negb (peerChoking (pCtl p)))
                    (on_ctl c (λ x, set_chunksReceivedWhileExpecting (chunksReceivedWhileExpecting x + 1) x));
              when (isLowOnRequests p) (updateRequests c "Peer.receiveChunk deleted request"));
        s ← gets (λ s, s);
        if haveChunk s ppReq then
          _ ← allStats c (λ cs, set_ChunksReadWasted (i64 (ChunksReadWasted cs + 1)) cs);
          mret ReceivedRedundant
        else
          let len := Z.of_nat (length (PieceData msg)) in
          _ ← allStats c (λ cs, set_ChunksReadUseful (i64 (ChunksReadUseful cs + 1)) cs);
          _ ← allStats c (λ cs, set_BytesReadUsefulData (i64 (BytesReadUsefulData cs + len)) cs);
          _ ← when intended (
                _ ← on_ctl c (λ x, set_piecesReceivedSinceLastRequestUpdate (piecesReceivedSinceLastRequestUpdate x + 1) x);
                allStats c (λ cs, set_BytesReadUsefulIntendedData (i64 (BytesReadUsefulIntendedData cs + len)) cs));
          _ ← on_ctl c (set_lastUsefulChunkReceived (Some (clock s)));
          ps ← piece (rIndex ppReq);
          _ ← modify_piece (rIndex ppReq) (set_pendingWrites (pendingWrites ps + 1));
          _ ← unpendChunkIndex (rIndex ppReq) (chunkIndexFromChunkSpec (rChunk ppReq) (chunkSize g));
          s ← gets (λ s, s);
          _ ← (match requestingPeer s req with
               | None => mret tt
               | Some d =>
                   _ ← assert_go (negb (bool_decide (d = c)))
                         "should not be pending request from conn that just received it";
                   cancel d req
               end);
          _ ← emit_event (EvStartWrite c req);
          mret ReceivedWriting
  end.

(** The rest of [receiveChunk], with the client lock taken again. *)
Definition chunkWritten (c : nat) (msg : Message) (writeErr : bool) : act unit :=
  ppReq ← lift_go (newRequestFromMessage msg);
  g ← info;
  let req := requestIndexFromRequest g ppReq in
  ps ← piece (rIndex ppReq);
  _ ← assert_go (negb (pendingWrites ps =? 0)) "assertion";
  _ ← modify_piece (rIndex ppReq) (set_pendingWrites (pendingWrites ps - 1));
  if writeErr : bool then
    _ ← pendRequest req;
    _ ← updateRequests c "Peer.receiveChunk error writing chunk";
    modify (set_dataDownloadDisallowed true)
  else
    _ ← onDirtiedPiece c (rIndex ppReq);
    s ← gets (λ s, s);
    ps ← piece (rIndex ppReq);
    _ ← when (allChunksDirty s g (rIndex ppReq) && (pendingWrites ps =? 0)) (queuePieceCheck (rIndex ppReq));
    emit_event (EvPublishPieceChange (rIndex ppReq)).

(** ** Serving the peer *)
Definition localClientReqq : Z := 1024.

Definition withLimiter (c : nat) (f : Limiter → go Limiter) : act unit :=
  p ← peer c;
  l ← lift_go (f (limiter (pUp p)));
  on_up c (set_limiter l).

Definition deletePeerRequest (c : nat) (r : Req) : act unit :=
  on_up c (λ x, set_peerRequests (delete r (peerRequests x)) x).

Definition reject (c : nat) (r : Req) : act unit :=
  p ← peer c;
  s ← gets (λ s, s);
  _ ← assert_go (fastEnabled s p) "fast not enabled";
  _ ← write c (ToMsg r Reject);
  match peerRequests (pUp p) !! r with
  | None => mret tt
  | Some state =>
      _ ← withLimiter c (λ l, Drop l (prdReservation state));
      deletePeerRequest c r
  end.

Definition deleteAllPeerRequests (c : nat) : act unit :=
  p ← peer c;
  _ ← forEach (map_to_list (peerRequests (pUp p))) (λ q, withLimiter c (λ l, Drop l (prdReservation q.2)));
  on_up c (set_peerRequests ∅).

Definition choke (c : nat) : act bool :=
  p ← peer c;
  if choking (pUp p) then mret true
  else
    _ ← on_up c (set_choking true);
    more ← write c (typeMsg Choke);
    s ← gets (λ s, s);
    _ ← when (negb (fastEnabled s p)) (deleteAllPeerRequests c);
    mret more.

Definition unchoke (c : nat) : act bool :=
  p ← peer c;
  if negb (choking (pUp p)) then mret true
  else
    _ ← on_up c (set_choking false);
    write c (typeMsg Unchoke).

Definition onPeerSentCancel (c : nat) (r : Req) : act unit :=
  p ← peer c;
  s ← gets (λ s, s);
  match peerRequests (pUp p) !! r with
  | None => mret tt
  | Some _ => if fastEnabled s p then reject c r else deletePeerRequest c r
  end.

Definition maximumPeerRequestChunkLength (s : Swarm) : option Z := uploadBurst (cfg s).

Definition onReadRequest (c : nat) (r : Req) (startFetch : bool) : act (option MsgErr) :=
  p ← peer c;
  s ← gets (λ s, s);
  let fast := fastEnabled s p in
  if bool_decide (is_Some (peerRequests (pUp p) !! r)) then mret (if fast then Some ErrDuplicateRequest else None)
  else if choking (pUp p) then _ ← when fast (reject c r); mret None
  else if localClientReqq <=? Z.of_nat (size (peerRequests (pUp p))) then _ ← when fast (reject c r); mret None
  else if match maximumPeerRequestChunkLength s with Some m => m <? rLength r | None => false end then
    if fast then _ ← reject c r; mret None else mret (Some ErrChunkTooLong)
  else if negb (havePiece s (rIndex r)) then mret (Some ErrMissingPiece)
  else
    g ← info;
    if chunkOverflowsPiece (rChunk r) (pieceLength g (rIndex r)) then mret (Some ErrChunkOverflowsPiece)
    else
      let '(l, id) := Reserve (limiter (pUp p)) (rLength r) in
      _ ← on_up c (λ x, set_peerRequests (<[r := mkPRD None id]> (peerRequests x)) (set_limiter l x));
      _ ← when startFetch (emit_event (EvReadPeerRequestData c r));
      mret None.

(** [peerRequestDataReadFailed]. *)
Definition peerRequestDataReadFailed (c : nat) (r : Req) : act unit :=
  s ← gets (λ s, s);
  if torrentClosed s then mret tt
  else
    _ ← when (pieceComplete s (rIndex r)) (_ ← updatePieceCompletion (rIndex r); mret tt);
    p ← peer c;
    s ← gets (λ s, s);
    if fastEnabled s p then reject c r else _ ← choke c; mret tt.

(** [peerRequestDataReader] when the read has ended, for the request whose
    reservation is [id]: the data, or [None] for an error.  The state object
    may have left the map in the meantime. *)
Definition peerRequestDataReader (c : nat) (r : Req) (id : nat) (result : option (list Z)) : act unit :=
  match result with
  | None => peerRequestDataReadFailed c r
  | Some b =>
      on_up c (λ x,
        match peerRequests x !! r with
        | Some state => if bool_decide (prdReservation state = id)
                        then set_peerRequests (<[r := mkPRD (Some b) id]> (peerRequests x)) x else x
        | None => x
        end)
  end.

Definition uploadAllowed (s : Swarm) (p : Peer) : bool :=
  if NoUpload (cfg s) then false
  else if dataUploadDisallowed s then false
  else if seeding s then true
  else if negb (peerHasWantedPieces s p) then false
  else if i64 (BytesReadData (stats p) + Z.shiftl 100 10) <=? BytesWrittenData (stats p) then false
  else true.

Definition sendChunk (c : nat) (r : Req) (id : nat) (data : list Z) : act bool :=
  t ← gets clock;
  _ ← on_ctl c (set_lastChunkSent (Some t));
  _ ← withLimiter c (λ l, Release l id);
  write c (mkMessage false Piece (rIndex r) (rBegin r) 0 data [] 0 [] 0).

(** The requests whose data was read. *)
Definition readyRequests (p : Peer) : list (Req * nat * list Z) :=
  omap (λ q : Req * PeerRequestData,
          match prdData q.2 with Some b => Some (q.1, prdReservation q.2, b) | None => None end)
    (map_to_list (peerRequests (pUp p))).

(** [upload]; the code takes the requests that are ready in no particular
    order.  [reserveN] is what the upload rate limiter answers to the k-th
    reservation for a length: [None] is not OK, [Some d] a delay.  Every turn
    of the loop takes a request out of [peerRequests]. *)
Fixpoint uploadLoop (fuel : nat) (reserveN : nat → Z → option Z) (c : nat) : act bool :=
  match fuel with
  | O => mret true
  | S fuel =>
      s ← gets (λ s, s);
      p ← peer c;
      if negb (uploadAllowed s p) then choke c
      else
        more ← unchoke c;
        if negb more then mret false
        else
          match readyRequests p with
          | [] => mret true
          | (r, id, data) :: _ =>
              match reserveN fuel (rLength r) with
              | None => panic "upload rate limiter burst size"
              | Some delay =>
                  if 0 <? delay then mret true
                  else
                    more ← sendChunk c r id data;
                    _ ← deletePeerRequest c r;
                    if negb more then mret false else uploadLoop fuel reserveN c
              end
          end
  end.

Definition upload (reserveN : nat → Z → option Z) (c : nat) : act bool :=
  p ← peer c;
  uploadLoop (S (size (peerRequests (pUp p)))) reserveN c.

(** ** Messages: one turn of [mainReadLoop] *)
Definition unitErr (m : act unit) : act (option MsgErr) := _ ← m; mret None.

(** [onReadExtendedMsg] is a parameter; see Metadata.v.  The result is the
    error that ends the connection; a chunk that is being written continues
    with [chunkWritten]. *)
Definition handleMessage (onReadExtendedMsg : nat → Z → list Z → act (option MsgErr)) (c : nat) (msg : Message) :
    act (option MsgErr) :=
  p ← peer c;
  s ← gets (λ s, s);
  if torrentClosed s || peerClosed (pHave p) then mret None
  else
    _ ← on_ctl c (set_lastMessageReceived (Some (clock s)));
    if Keepalive msg then mret None
    else if FastExtension (Type_ msg) && negb (fastEnabled s p) then mret (Some ErrFastDisabled)
    else if Type_ msg =? Choke then unitErr (
      if peerChoking (pCtl p) then mret tt
      else
        _ ← when (negb (fastEnabled s p)) (deleteAllRequests c "choked by non-fast PeerConn");
        _ ← on_ctl c (set_peerChoking true);
        updateExpectingChunks c)
    else if Type_ msg =? Unchoke then unitErr (
      if negb (peerChoking (pCtl p)) then mret tt
      else
        _ ← on_ctl c (set_peerChoking false);
        s ← gets (λ s, s);
        _ ← when (negb (bool_decide (_pendingPieces s = ∅))) (updateRequests c "unchoked");
        updateExpectingChunks c)
    else if Type_ msg =? Interested then unitErr (on_up c (set_peerInterested true))
    else if Type_ msg =? NotInterested then unitErr (on_up c (set_peerInterested false))
    else if Type_ msg =? Have then peerSentHave c (Index msg)
    else if Type_ msg =? Bitfield then peerSentBitfield c (BitfieldBits msg)
    else if Type_ msg =? Request then
      r ← lift_go (newRequestFromMessage msg); onReadRequest c r true
    else if Type_ msg =? Piece then
      _ ← allStats c (receivedChunk (Z.of_nat (length (PieceData msg))));
      o ← receiveChunk c msg;
      mret (match o with ReceivedErr e => Some e | _ => None end)
    else if Type_ msg =? Wire.Cancel then unitErr (
      r ← lift_go (newRequestFromMessage msg); onPeerSentCancel c r)
    else if Type_ msg =? Port then mret None
    else if Type_ msg =? Suggest then unitErr (updateRequests c "suggested")
    else if Type_ msg =? HaveAll then unitErr (onPeerHasAllPieces c)
    else if Type_ msg =? HaveNone then peerSentHaveNone c
    else if Type_ msg =? Reject then
      r ← lift_go (newRequestFromMessage msg);
      o ← gets geo;
      b ← match o with
          | Some g => remoteRejectedRequest c (requestIndexFromRequest g r)
          | None => mret false   (** nothing is requested before the info is there *)
          end;
      mret (if b : bool then None else Some ErrInvalidReject)
    else if Type_ msg =? AllowedFast then unitErr (updateRequests c "PeerConn.mainReadLoop allowed fast")
    else if Type_ msg =? Extended then onReadExtendedMsg c (ExtendedID msg) (ExtendedPayload msg)
    else mret (Some ErrUnknownType).

(** ** Adding and closing *)
Inductive AddErr : Type :=
| ErrTorrentClosed
| ErrExistingPreferred
| ErrDontWantConns.

(** The loop over [conns] for duplicate peer ids; [preferred] is
    [hasPreferredNetworkOver].  [true] is the error. *)
Fixpoint dropDuplicates (preferred : nat → nat → bool) (c : nat) (cs : list nat) : act bool :=
  match cs with
  | [] => mret false
  | c0 :: cs =>
      p ← peer c;
      p0 ← peer c0;
      now ← gets conns;
      if bool_decide (c0 ∉ now) || negb (bool_decide (PeerID (pStatic p) = PeerID (pStatic p0)))
      then dropDuplicates preferred c cs
      else if preferred c c0 then
        _ ← close c0; _ ← deletePeerConn c0; dropDuplicates preferred c cs
      else mret true
  end.

Definition addPeerConn (preferred : nat → nat → bool) (worstBadConn : Swarm → option nat)
    (dropDuplicatePeerIds : bool) (maxEstablishedConns : Z) (c : nat) : act (option AddErr) :=
  s ← gets (λ s, s);
  if torrentClosed s then mret (Some ErrTorrentClosed)
  else
    dup ← (if dropDuplicatePeerIds then dropDuplicates preferred c (mapOrder (conns s)) else mret false);
    if dup : bool then mret (Some ErrExistingPreferred)
    else
      s ← gets (λ s, s);
      let add : act (option AddErr) :=
        s ← gets (λ s, s);
        _ ← assert_go (Z.of_nat (size (conns s)) <? maxEstablishedConns) "maxEstablishedConns";
        _ ← modify (λ s, set_conns ({[c]} ∪ conns s) s);
        mret None in
      if maxEstablishedConns <=? Z.of_nat (size (conns s)) then
        match worstBadConn s with
        | None => mret (Some ErrDontWantConns)
        | Some d => _ ← close d; _ ← deletePeerConn d; add
        end
      else add.

Definition assertAllPiecesRelativeAvailabilityZero : act unit :=
  s ← gets (λ s, s);
  assert_go (forallb (λ p, relativeAvailability p =? 0) (pieces s)) "piece has relative availability".

(** [Torrent.close]; [false] is the error "already closed". *)
Definition torrent_close : act bool :=
  s ← gets (λ s, s);
  if torrentClosed s then mret false
  else
    _ ← modify (set_torrentClosed true);
    _ ← iterPeers close;
    _ ← when (hasStorage s) deletePieceRequestOrder;
    _ ← assertAllPiecesRelativeAvailabilityZero;
    mret true.

(** ** Getting the info *)
Definition selectivePieceAvailabilityFromPeers (s : Swarm) (i : Z) : Z :=
  Z.of_nat (length (List.filter (λ c,
    negb (bool_decide (c ∈ connsWithAllPieces s)) &&
    match peers s !! c with Some p => peerHasPiece s p i | None => false end) (mapOrder (conns s)))).

(** [makePieces]: the files of a piece have no priority yet. *)
Definition makePiece (fs : list File) (g : Geo) (i : Z) : PieceS :=
  let begin_ := i64 (i * PieceLength (ginfo g)) in
  let end_ := i64 (begin_ + pieceLength g i) in
  let k := (pieceEndFileIndex end_ fs - pieceFirstFileIndex begin_ fs)%nat in
  mkPieceS false false false 0 0 0 ∅ 0 (replicate k 0).

(** [openTorrent] is the result of [storageOpener.OpenTorrent]: whether it
    succeeds, [None] without a storage.  [false] is an error. *)
Definition setInfo (inf : Info) (size : Z) (openTorrent : option bool) : act bool :=
  match validateInfo inf, openTorrent with
  | Some _, _ => mret false
  | None, Some false => mret false
  | None, _ =>
      let g := setInfoGeo inf size in
      _ ← when (bool_decide (openTorrent = Some true)) (modify (set_hasStorage true));
      _ ← modify (λ s, set_geo (Some g)
             (set_pieces (map (makePiece (initFiles inf) g) (seqZ 0 (numPieces g))) s));
      mret true
  end.

(** [PeerConn.onGotInfo]: [setNumPieces] removes the pieces beyond the end. *)
Definition onGotInfo (c : nat) : act unit :=
  g ← info;
  _ ← on_have c (λ x, set__peerPieces (filter (λ i, i < numPieces g) (_peerPieces x)) x);
  maybeDropMutuallyCompletePeer c.

Definition onSetInfo (initialPieceCheckDisabled : bool) : act unit :=
  g ← info;
  _ ← forEach (seqZ 0 (numPieces g)) (λ i,
        p ← piece i;
        _ ← assert_go (relativeAvailability p =? 0) "relativeAvailability";
        s ← gets (λ s, s);
        _ ← modify_piece i (set_relativeAvailability (selectivePieceAvailabilityFromPeers s i));
        _ ← addRequestOrderPiece i;
        _ ← updatePieceCompletion i;
        p ← piece i;
        when (negb initialPieceCheckDisabled && negb (storageCompletionOk p)) (queuePieceCheck i));
  _ ← modify (set_requestState ∅);
  _ ← tryCreateMorePieceHashers;
  iterPeers (λ c, _ ← onGotInfo c; updateRequests c "onSetInfo").

(** [Piece.SetPriority]. *)
Definition SetPriority (i prio : Z) : act unit :=
  _ ← modify_piece i (set_priority prio);
  updatePiecePriority i "Piece.SetPriority".

(** [Piece.VerifyData]: returns the number of verifications it waits for. *)
Definition VerifyData (i : Z) : act Z :=
  p ← piece i;
  let target := numVerifies p + 1 in
  let target := if hashing p then target + 1 else target in
  _ ← queuePieceCheck i;
  mret target.

(** [Piece.UpdateCompletion]. *)
Definition UpdateCompletion (i : Z) : act unit := _ ← updatePieceCompletion i; mret tt.

(** [peerConnMsgWriter.run] flips the buffers. *)
Definition flipBuffers (c : nat) : act unit := modify_peer c (set_writeBuffer []).
End Operations.

(** ** New connections and torrents *)

(** [newConnection], with [MaxAllocPeerRequestDataPerConn]. *)
Definition newConnection (st : PeerStatic) (maxAlloc : Z) : Peer :=
  mkPeer st (mkReqSide [] ∅ ∅) (mkHaveSide ∅ false false)
    (mkUpSide true false ∅ (newLimiter maxAlloc) ∅)
    (mkCtlSide "" false true ∅ 0 250 0 ∅ 0 0 None None None None 0 None 0 None)
    (mkExtSide ∅ []) ConnStats0 [].

(** [newTorrentOpt], for a client with this configuration. *)
Definition newTorrentOpt (conf : Config) (completion : Z → bool * bool) (now : Z) : Swarm :=
  mkSwarm None false [] ∅ ∅ ∅ ∅ ∅ ∅ ∅ ∅ 0 ∅ ∅ ∅ completion ∅ ∅ false [] None false false
    ConnStats0 ConnStats0 conf now [].
