(* ===== verification/SwarmWp.v ===== *)
(** Reasoning about the operations of Swarm.v: a weakest precondition that
    also says which panics are allowed, and frame rules for operations that
    leave a view of the state alone. *)
From stdpp Require Import base numbers list strings gmap sorting.
From Stdlib Require Import ZArith Lia.
From S2P Require Import Prelude Wire Metainfo Geometry RequestStrategy OrderedBitmap AllocLim SmartBan SwarmState Swarm.
Open Scope Z_scope.

(** [m] run in [s] returns with [Q], or panics for a reason in [E]. *)
Definition wp {A} (E : string → Prop) (m : act A) (Q : A → Swarm → Prop) (s : Swarm) : Prop :=
  match m s with Ok (a, s') => Q a s' | Panic w => E w end.

Section Wp.
Context (E : string → Prop).

Lemma wp_ret {A} (a : A) Q s : Q a s → wp E (mret a) Q s.
Proof. done. Qed.

Lemma wp_bind {A B} (m : act A) (f : A → act B) Q s :
  wp E m (λ a, wp E (f a) Q) s → wp E (m ≫= f) Q s.
Proof. unfold wp, mbind, act_bind. destruct (m s) as [[a s']|w]; done. Qed.

Lemma wp_mono {A} (m : act A) Q Q' s : wp E m Q s → (∀ a s', Q a s' → Q' a s') → wp E m Q' s.
Proof. unfold wp. destruct (m s) as [[a s']|w]; auto. Qed.

Lemma wp_gets {A} (f : Swarm → A) Q s : Q (f s) s → wp E (gets f) Q s.
Proof. done. Qed.

Lemma wp_modify f Q s : Q tt (f s) → wp E (modify f) Q s.
Proof. done. Qed.

Lemma wp_panic {A} w (Q : A → Swarm → Prop) s : E w → wp E (panic w) Q s.
Proof. done. Qed.

Lemma wp_assert b w Q s : (b = true → Q tt s) → (b = false → E w) → wp E (assert_go b w) Q s.
Proof. destruct b; [intros H _|intros _ H]; by apply H. Qed.

Lemma wp_when b m Q s : (b = true → wp E m Q s) → (b = false → Q tt s) → wp E (when b m) Q s.
Proof. destruct b; [intros H _|intros _ H]; by apply H. Qed.

Lemma wp_peer c Q s :
  (∀ p, peers s !! c = Some p → Q p s) → (peers s !! c = None → E "nil peer"%string) → wp E (peer c) Q s.
Proof. unfold wp, peer. destruct (peers s !! c); auto. Qed.

Lemma wp_info Q s :
  (∀ g, geo s = Some g → Q g s) → (geo s = None → E "nil info"%string) → wp E info Q s.
Proof. unfold wp, info. destruct (geo s); auto. Qed.

Lemma wp_forEach {A} (I : Swarm → Prop) (l : list A) f s :
  I s → (∀ x s, x ∈ l → I s → wp E (f x) (λ _, I) s) → wp E (forEach l f) (λ _, I) s.
Proof.
  revert s. induction l as [|x l IH]; intros s Hs Hf; cbn; [done|].
  apply wp_bind. eapply wp_mono; [apply Hf; [by left|done]|]. cbn. intros _ s' Hs'.
  apply IH; [done|]. intros y s'' Hy. apply Hf. by right.
Qed.
End Wp.

(** No panic at all. *)
Definition never (w : string) : Prop := False.

Lemma never_ok {A} (m : act A) Q s : wp never m Q s → ∃ a s', m s = Ok (a, s') ∧ Q a s'.
Proof. unfold wp. destruct (m s) as [[a s']|w]; [eauto|done]. Qed.

Lemma wp_ok {A} E (m : act A) (Q : A → Swarm → Prop) s a s' : m s = Ok (a, s') → Q a s' → wp E m Q s.
Proof. unfold wp. by intros ->. Qed.

(** A run step by step. *)
Lemma bind_run {A B} (m : act A) (f : A → act B) s a s' r : m s = Ok (a, s') → f a s' = r → (m ≫= f) s = r.
Proof. unfold mbind, act_bind. by intros ->. Qed.
Lemma bind_panics {A B} (m : act A) (f : A → act B) s w : m s = Panic w → (m ≫= f) s = Panic w.
Proof. unfold mbind, act_bind. by intros ->. Qed.
Lemma peer_run c s p : peers s !! c = Some p → peer c s = Ok (p, s).
Proof. unfold peer. by intros ->. Qed.

(** ** Frames *)
Definition Frame {X A} (V : Swarm → X) (E : string → Prop) (m : act A) : Prop :=
  ∀ s, wp E m (λ _ s', V s' = V s) s.

Section Frame.
Context {X : Type} (V : Swarm → X) (E : string → Prop).

Lemma frame_ret {A} (a : A) : Frame V E (mret a).
Proof. intros s. exact eq_refl. Qed.

Lemma frame_gets {A} (f : Swarm → A) : Frame V E (gets f).
Proof. intros s. exact eq_refl. Qed.

Lemma frame_panic {A} w : E w → Frame V E (panic (A := A) w).
Proof. intros HE s. exact HE. Qed.

Lemma frame_assert b w : E w → Frame V E (assert_go b w).
Proof. destruct b; [intros _; apply frame_ret|apply frame_panic]. Qed.

Lemma frame_bind {A B} (m : act A) (f : A → act B) :
  Frame V E m → (∀ a, Frame V E (f a)) → Frame V E (m ≫= f).
Proof.
  intros Hm Hf s. apply wp_bind. eapply wp_mono; [apply Hm|]. cbn. intros a s' Hs'.
  eapply wp_mono; [apply Hf|]. cbn. congruence.
Qed.

Lemma frame_when b m : Frame V E m → Frame V E (when b m).
Proof. destruct b; [done|intros _; apply frame_ret]. Qed.

Lemma frame_forEach {A} (l : list A) f : (∀ x, Frame V E (f x)) → Frame V E (forEach l f).
Proof. intros Hf. induction l; cbn; [apply frame_ret|by apply frame_bind]. Qed.

Lemma frame_iterPeers o f : (∀ c, Frame V E (f c)) → Frame V E (iterPeers o f).
Proof.
  intros Hf. apply frame_bind; [apply frame_gets|]. intros cs. apply frame_forEach. intros c.
  apply frame_bind; [apply frame_gets|]. intros cs'. by apply frame_when.
Qed.

Lemma frame_modify f : (∀ s, V (f s) = V s) → Frame V E (modify f).
Proof. intros Hf s. apply Hf. Qed.

Lemma frame_peer c : E "nil peer"%string → Frame V E (peer c).
Proof. intros HE s. by apply wp_peer. Qed.

Lemma frame_info : E "nil info"%string → Frame V E info.
Proof. intros HE s. by apply wp_info. Qed.

Lemma frame_piece i : E "index out of range"%string → Frame V E (piece i).
Proof. intros HE s. unfold wp, piece. by destruct (if 0 <=? i then _ else _). Qed.

Lemma frame_lift_go {A} (m : go A) : (∀ w, m = Panic w → E w) → Frame V E (lift_go m).
Proof. intros HE s. unfold wp, lift_go. destruct m; [done|by apply HE]. Qed.

(** What a frame gives: an assertion about the view survives. *)
Lemma frame_wp {A} (m : act A) (P : X → Prop) s :
  Frame V E m → P (V s) → wp E m (λ _ s', P (V s')) s.
Proof. intros Hm HP. eapply wp_mono; [apply Hm|]. cbn. by intros _ s' ->. Qed.
End Frame.

(** An update that a projection does not see. *)
Lemma fmap_alter_same {K A B} `{Countable K} (g : A → B) (f : A → A) (k : K) (m : gmap K A) :
  (∀ x, g (f x) = g x) → g <$> alter f k m = g <$> m.
Proof.
  intros Hf. apply map_eq. intros j. rewrite !lookup_fmap. destruct (decide (j = k)) as [->|Hne].
  - rewrite lookup_alter_eq. destruct (m !! k); cbn; by rewrite ?Hf.
  - by rewrite lookup_alter_ne.
Qed.

Lemma fmap_alter_comm {K A B} `{Countable K} (g : A → B) (f : A → A) (h : B → B) (k : K) (m : gmap K A) :
  (∀ x, g (f x) = h (g x)) → g <$> alter f k m = alter h k (g <$> m).
Proof.
  intros Hf. apply map_eq. intros j. rewrite lookup_fmap. destruct (decide (j = k)) as [->|Hne].
  - rewrite !lookup_alter_eq, lookup_fmap. destruct (m !! k); cbn; by rewrite ?Hf.
  - by rewrite !lookup_alter_ne, lookup_fmap.
Qed.

Lemma list_fmap_alter_same {A B} (g : A → B) (f : A → A) (i : nat) (l : list A) :
  (∀ x, g (f x) = g x) → g <$> alter f i l = g <$> l.
Proof.
  intros Hf. revert i. induction l as [|x l IH]; intros [|i]; cbn; try done; [by rewrite Hf|].
  f_equal. apply IH.
Qed.

(** [frame] takes an operation apart; lemmas about the operations it calls
    are found in the database [frame]. *)
Create HintDb frame.

Ltac frame_step :=
  match goal with
  | |- Frame _ _ (mbind _ _) => apply frame_bind; [|intros ?]
  | |- Frame _ _ (mret _) => apply frame_ret
  | |- Frame _ _ (gets _) => apply frame_gets
  | |- Frame _ _ (when _ _) => apply frame_when
  | |- Frame _ _ (forEach _ _) => apply frame_forEach; intros ?
  | |- Frame _ _ (iterPeers _ _) => apply frame_iterPeers; intros ?
  | |- Frame _ _ (assert_go _ _) => apply frame_assert
  | |- Frame _ _ (panic _) => apply frame_panic
  | |- Frame _ _ (peer _) => apply frame_peer
  | |- Frame _ _ info => apply frame_info
  | |- Frame _ _ (piece _) => apply frame_piece
  | |- Frame _ _ (modify _) => apply frame_modify; reflexivity
  | |- Frame _ _ (match ?x with _ => _ end) => destruct x
  | |- Frame _ _ (let _ := _ in _) => cbv zeta
  | |- _ => solve [eauto with frame nocore]
  end.

Ltac frame := repeat frame_step.

(** ** Operations that keep an invariant *)
Definition Keeps {A} (I : Swarm → Prop) (E : string → Prop) (m : act A) : Prop :=
  ∀ s, I s → wp E m (λ _, I) s.

Section Keeps.
Context (I : Swarm → Prop) (E : string → Prop).

Lemma keeps_ret {A} (a : A) : Keeps I E (mret a).
Proof. intros s Hs. exact Hs. Qed.

Lemma keeps_gets {A} (f : Swarm → A) : Keeps I E (gets f).
Proof. intros s Hs. exact Hs. Qed.

Lemma keeps_bind {A B} (m : act A) (f : A → act B) :
  Keeps I E m → (∀ a, Keeps I E (f a)) → Keeps I E (m ≫= f).
Proof.
  intros Hm Hf s Hs. apply wp_bind. eapply wp_mono; [by apply Hm|]. cbn. intros a s' Hs'. by apply Hf.
Qed.

Lemma keeps_when b m : Keeps I E m → Keeps I E (when b m).
Proof. destruct b; [done|intros _; apply keeps_ret]. Qed.

Lemma keeps_forEach {A} (l : list A) f : (∀ x, Keeps I E (f x)) → Keeps I E (forEach l f).
Proof. intros Hf s Hs. apply wp_forEach; [done|]. intros x s' _. apply Hf. Qed.

Lemma keeps_iterPeers o f : (∀ c, Keeps I E (f c)) → Keeps I E (iterPeers o f).
Proof.
  intros Hf. apply keeps_bind; [apply keeps_gets|]. intros cs. apply keeps_forEach. intros c.
  apply keeps_bind; [apply keeps_gets|]. intros cs'. by apply keeps_when.
Qed.

Lemma keeps_assert b w : E w → Keeps I E (assert_go b w).
Proof. destruct b; intros HE s Hs; [exact Hs|exact HE]. Qed.

Lemma keeps_panic {A} w : E w → Keeps I E (panic (A := A) w).
Proof. intros HE s _. exact HE. Qed.

(** An invariant of a view is kept by what frames the view. *)
Lemma frame_keeps {X A} (V : Swarm → X) (P : X → Prop) (m : act A) :
  (∀ s, I s ↔ P (V s)) → Frame V E m → Keeps I E m.
Proof.
  intros HI Hm s Hs. eapply wp_mono; [apply (frame_wp V E m P); [done|by apply HI]|].
  cbn. intros _ s'. apply HI.
Qed.
End Keeps.

Create HintDb keeps.

(** [keeps] does the same for invariants; [leaf] is what is tried on a call
    that the database does not know. *)
Ltac keeps_step leaf :=
  match goal with
  | |- Keeps _ _ (mbind _ _) => apply keeps_bind; [|intros ?]
  | |- Keeps _ _ (mret _) => apply keeps_ret
  | |- Keeps _ _ (gets _) => apply keeps_gets
  | |- Keeps _ _ (when _ _) => apply keeps_when
  | |- Keeps _ _ (forEach _ _) => apply keeps_forEach; intros ?
  | |- Keeps _ _ (iterPeers _ _) => apply keeps_iterPeers; intros ?
  | |- Keeps _ _ (match ?x with _ => _ end) => destruct x
  | |- Keeps _ _ (let _ := _ in _) => cbv zeta
  | |- _ => solve [eauto with keeps nocore]
  | |- _ => leaf
  end.
