(* ===== verification/SwarmReq.v ===== *)
(** Requests: every outstanding request belongs to one peer, a request is not
    both outstanding and cancelled, and a chunk that was asked for can be
    received.  The operations keep this, and none of the assertions the code
    makes about it fails. *)
From stdpp Require Import base numbers list strings gmap sorting.
From Stdlib Require Import ZArith Lia.
From S2P Require Import Prelude Wire Metainfo Geometry RequestStrategy OrderedBitmap AllocLim SmartBan SwarmState Swarm SwarmWp.
Open Scope Z_scope.

(** The panics of the request bookkeeping. *)
Definition req_panics : list string :=
  [ "only one peer should have a given request at a time";
    "request should exist";
    "assertNoRequests";
    "request not existing should have been guarded";
    "request already cancelled";
    "expected request state to be gone";
    "decExpectedChunkReceive";
    "should not be pending request from conn that just received it" ]%string.

Definition req_safe (w : string) : Prop := bool_decide (w ∈ req_panics) = false.

(** What the invariant is about: the requests of every peer, the peer of
    every request, and whether there is an info. *)
Record view : Type := mkView { vReq : gmap nat ReqSide; vState : gmap Z nat; vInfo : bool }.

Definition reqView (s : Swarm) : view := mkView (pReq <$> peers s) (fst <$> requestState s) (haveInfo s).

(** [X] are the pairs of a peer and a request for which the count of
    receivable chunks is not claimed: while a received chunk is being
    accounted for it is one too low. *)
Record req_okV (X : nat → Z → Prop) (v : view) : Prop := {
  ro_owner c q r : vReq v !! c = Some q → r ∈ Requests q ↔ vState v !! r = Some c;
  ro_known r c : vState v !! r = Some c → is_Some (vReq v !! c);
  ro_nodup c q : vReq v !! c = Some q → NoDup (Requests q);
  ro_disjoint c q r : vReq v !! c = Some q → r ∈ Requests q → r ∉ Cancelled q;
  ro_valid c q r : vReq v !! c = Some q → ¬ X c r → r ∈ Requests q ∨ r ∈ Cancelled q →
    1 ≤ default 0 (validReceiveChunks q !! r);
  ro_counts c q r k : vReq v !! c = Some q → validReceiveChunks q !! r = Some k → 1 ≤ k;
  ro_info : vInfo v = false → vState v = ∅
}.

Definition no_exempt (c : nat) (r : Z) : Prop := False.

Definition req_ok (s : Swarm) : Prop := req_okV no_exempt (reqView s).

#[export] Hint Extern 0 (req_safe _) => reflexivity : frame keeps.

Abbreviation RFrame := (Frame reqView req_safe).
Abbreviation RKeeps := (Keeps req_ok req_safe).

Lemma rframe_keeps {A} (m : act A) : RFrame m → RKeeps m.
Proof. by apply (frame_keeps req_ok req_safe reqView (req_okV no_exempt)). Qed.

(** Updates of the state that the view does not see. *)
Ltac view_same :=
  first [ reflexivity
        | intros ?; unfold reqView; cbn; try (f_equal; apply fmap_alter_same; intros ?); reflexivity ].

Lemma rframe_emit e : RFrame (emit_event e).
Proof. apply frame_modify. done. Qed.
Lemma rframe_modify_peer c f : (∀ p, pReq (f p) = pReq p) → RFrame (modify_peer c f).
Proof. intros Hf. apply frame_modify. intros s. unfold reqView. cbn. f_equal. by apply fmap_alter_same. Qed.
Lemma rframe_on_have c f : RFrame (on_have c f).
Proof. by apply rframe_modify_peer. Qed.
Lemma rframe_on_up c f : RFrame (on_up c f).
Proof. by apply rframe_modify_peer. Qed.
Lemma rframe_on_ctl c f : RFrame (on_ctl c f).
Proof. by apply rframe_modify_peer. Qed.
Lemma rframe_on_ext c f : RFrame (on_ext c f).
Proof. by apply rframe_modify_peer. Qed.
Lemma rframe_modify_piece i f : RFrame (modify_piece i f).
Proof. unfold modify_piece. frame. Qed.
#[export] Hint Resolve rframe_emit rframe_on_have rframe_on_up rframe_on_ctl rframe_on_ext rframe_modify_piece : frame.

Lemma rframe_allStats c f : RFrame (allStats c f).
Proof. unfold allStats. frame. by apply rframe_modify_peer. Qed.
#[export] Hint Resolve rframe_allStats : frame.
Lemma rframe_write c m : RFrame (write c m).
Proof. unfold write. frame. by apply rframe_modify_peer. Qed.
Lemma rframe_updatePieceRequestOrder i : RFrame (updatePieceRequestOrder i).
Proof. unfold updatePieceRequestOrder. frame. Qed.
Lemma rframe_updateRequests c r : RFrame (updateRequests c r).
Proof. unfold updateRequests. frame. Qed.
#[export] Hint Resolve rframe_write rframe_updatePieceRequestOrder rframe_updateRequests : frame.
Lemma expectingChunks_panic s p w : expectingChunks s p = Panic w → req_safe w.
Proof. unfold expectingChunks. intros H. repeat case_match; try done. by injection H as <-. Qed.
Lemma rframe_updateExpectingChunks c : RFrame (updateExpectingChunks c).
Proof. unfold updateExpectingChunks. frame. apply frame_lift_go. intros w. apply expectingChunks_panic. Qed.
#[export] Hint Resolve rframe_updateExpectingChunks : frame.
Lemma rframe_decPeakRequests c : RFrame (decPeakRequests c).
Proof. apply rframe_on_ctl. Qed.
Lemma rframe_setInterested c b : RFrame (setInterested c b).
Proof. unfold setInterested. frame. Qed.
Lemma rframe__cancel c r : RFrame (_cancel c r).
Proof. unfold _cancel. frame. Qed.
Lemma rframe_decPieceAvailability i : RFrame (decPieceAvailability i).
Proof. unfold decPieceAvailability. frame. Qed.
Lemma rframe_incPieceAvailability i : RFrame (incPieceAvailability i).
Proof. unfold incPieceAvailability. frame. Qed.
#[export] Hint Resolve rframe_decPeakRequests rframe_setInterested rframe__cancel
  rframe_decPieceAvailability rframe_incPieceAvailability : frame.
Lemma rframe_decPeerPieceAvailability c : RFrame (decPeerPieceAvailability c).
Proof. unfold decPeerPieceAvailability, deleteConnWithAllPieces. frame. Qed.
#[export] Hint Resolve rframe_decPeerPieceAvailability : frame.
Lemma rframe_close c : RFrame (close c).
Proof. unfold close. frame. Qed.
Lemma rframe_openNewConns : RFrame openNewConns.
Proof. apply rframe_emit. Qed.
#[export] Hint Resolve rframe_close rframe_openNewConns : frame.
Lemma rframe_piecePriorityChanged o i r : RFrame (piecePriorityChanged o i r).
Proof. unfold piecePriorityChanged. frame. Qed.
#[export] Hint Resolve rframe_piecePriorityChanged : frame.
Lemma rframe_updatePiecePriority o i r : RFrame (updatePiecePriority o i r).
Proof. unfold updatePiecePriority. frame. Qed.
Lemma rframe_pendAllChunkSpecs i : RFrame (pendAllChunkSpecs i).
Proof. unfold pendAllChunkSpecs. frame. Qed.
Lemma rframe_have c i : RFrame (have c i).
Proof. unfold have. frame. Qed.
#[export] Hint Resolve rframe_updatePiecePriority rframe_pendAllChunkSpecs rframe_have : frame.
Lemma rframe_onIncompletePiece o i : RFrame (onIncompletePiece o i).
Proof. unfold onIncompletePiece. frame. Qed.
Lemma rframe_unpendChunkIndex i k : RFrame (unpendChunkIndex i k).
Proof. unfold unpendChunkIndex. frame. Qed.
Lemma rframe_pendRequest r : RFrame (pendRequest r).
Proof. unfold pendRequest. frame. Qed.
Lemma rframe_onDirtiedPiece c i : RFrame (onDirtiedPiece c i).
Proof. unfold onDirtiedPiece. frame. Qed.
#[export] Hint Resolve rframe_onIncompletePiece rframe_unpendChunkIndex rframe_pendRequest rframe_onDirtiedPiece : frame.

(** ** Steps of the view *)
Definition v_delete (c : nat) (r : Z) (v : view) : view :=
  mkView (alter (λ x, set_Requests (filter (λ y, y ≠ r) (Requests x)) x) c (vReq v)) (delete r (vState v)) (vInfo v).

Definition v_req (c : nat) (f : ReqSide → ReqSide) (v : view) : view :=
  mkView (alter f c (vReq v)) (vState v) (vInfo v).

Lemma wp_on_req E c f (Q : unit → Swarm → Prop) s :
  (∀ s', reqView s' = v_req c f (reqView s) → Q tt s') → wp E (on_req c f) Q s.
Proof.
  intros HQ. apply HQ. unfold reqView, v_req. cbn. f_equal. by apply fmap_alter_comm.
Qed.

Lemma v_delete_ok X c r v q :
  req_okV X v → vReq v !! c = Some q → r ∈ Requests q → req_okV X (v_delete c r v).
Proof.
  intros [Ho Hk Hn Hd Hv Hco Hi0] Hq Hr. pose proof (proj1 (Ho c q r Hq) Hr) as Hc.
  assert (Hother : ∀ d x, vReq v !! d = Some x → d ≠ c → r ∉ Requests x).
  { intros d x Hx Hne Hin. apply (Ho d x r Hx) in Hin. congruence. }
  split; unfold v_delete; cbn.
  - intros d x y Hx. rewrite lookup_delete_Some. apply lookup_alter_Some in Hx as [(<- & z & Hz & ->)|[Hne Hx]].
    + rewrite Hq in Hz. injection Hz as <-. cbn. rewrite list_elem_of_filter, (Ho c q y Hq). naive_solver.
    + rewrite (Ho d x y Hx). split; [|tauto]. intros Hy. split; [|done]. intros <-. congruence.
  - intros y d [_ Hy]%lookup_delete_Some. rewrite lookup_alter_is_Some. eauto.
  - intros d x Hx. apply lookup_alter_Some in Hx as [(<- & z & Hz & ->)|[_ Hx]]; [|eauto].
    apply NoDup_filter. eauto.
  - intros d x y Hx. apply lookup_alter_Some in Hx as [(<- & z & Hz & ->)|[_ Hx]]; [|eauto].
    cbn. rewrite list_elem_of_filter. intros [_ Hy]. eauto.
  - intros d x y Hx. apply lookup_alter_Some in Hx as [(<- & z & Hz & ->)|[_ Hx]]; [|eauto].
    cbn. rewrite list_elem_of_filter. intros HX Hy. apply (Hv c z y Hz HX). tauto.
  - intros d x y k Hx. apply lookup_alter_Some in Hx as [(<- & z & Hz & ->)|[_ Hx]]; cbn; eauto.
  - intros Hi. by rewrite (Hi0 Hi), delete_empty.
Qed.

(** A step that changes [Cancelled] and the counts of one peer. *)
Lemma v_req_ok X X' c f v q :
  req_okV X v → vReq v !! c = Some q → Requests (f q) = Requests q →
  (∀ r, r ∈ Requests q → r ∉ Cancelled (f q)) →
  (∀ d r, d ≠ c → X d r → X' d r) →
  (∀ r, ¬ X' c r → r ∈ Requests q ∨ r ∈ Cancelled (f q) → 1 ≤ default 0 (validReceiveChunks (f q) !! r)) →
  (∀ r k, validReceiveChunks (f q) !! r = Some k → 1 ≤ k) →
  req_okV X' (v_req c f v).
Proof.
  intros [Ho Hk Hn Hd Hv Hco Hi0] Hq Hf Hdis HX Hval Hco'. split; unfold v_req; cbn.
  - intros d x y Hx. apply lookup_alter_Some in Hx as [(<- & z & Hz & ->)|[_ Hx]]; [|eauto].
    rewrite Hq in Hz. injection Hz as <-. rewrite Hf. eauto.
  - intros y d Hy. rewrite lookup_alter_is_Some. eauto.
  - intros d x Hx. apply lookup_alter_Some in Hx as [(<- & z & Hz & ->)|[_ Hx]]; [|eauto].
    rewrite Hq in Hz. injection Hz as <-. rewrite Hf. eauto.
  - intros d x y Hx. apply lookup_alter_Some in Hx as [(<- & z & Hz & ->)|[_ Hx]]; [|eauto].
    rewrite Hq in Hz. injection Hz as <-. rewrite Hf. eauto.
  - intros d x y Hx HnX. apply lookup_alter_Some in Hx as [(<- & z & Hz & ->)|[Hne Hx]].
    + rewrite Hq in Hz. injection Hz as <-. rewrite Hf. auto.
    + apply (Hv d x y Hx). intros HXd. by apply HnX, HX.
  - intros d x y k Hx. apply lookup_alter_Some in Hx as [(<- & z & Hz & ->)|[_ Hx]]; [|eauto].
    rewrite Hq in Hz. injection Hz as <-. apply Hco'.
  - exact Hi0.
Qed.

(** The exemption is void for a request that is neither outstanding nor
    cancelled. *)
Lemma exempt_void c r v q :
  req_okV (λ d y, d = c ∧ y = r) v → vReq v !! c = Some q → r ∉ Requests q → r ∉ Cancelled q → req_okV no_exempt v.
Proof.
  intros [Ho Hk Hn Hd Hv Hco Hi0] Hq Hr Hc. split; try done. intros d x y Hx _ Hy.
  apply (Hv d x y Hx); [|done]. intros [-> ->]. rewrite Hq in Hx. injection Hx as <-. tauto.
Qed.

Lemma reqView_peer s c p : peers s !! c = Some p → vReq (reqView s) !! c = Some (pReq p).
Proof. intros Hp. cbn. by rewrite lookup_fmap, Hp. Qed.

Lemma reqView_requesting s r : vState (reqView s) !! r = requestingPeer s r.
Proof. cbn. by rewrite lookup_fmap. Qed.

(** ** deleteRequest *)
Lemma deleteRequest_spec X c r s :
  req_okV X (reqView s) →
  wp req_safe (deleteRequest c r) (λ b s', ∃ q, vReq (reqView s) !! c = Some q ∧ b = bool_decide (r ∈ Requests q) ∧
    reqView s' = if b then v_delete c r (reqView s) else reqView s) s.
Proof.
  intros Hok. unfold deleteRequest. apply wp_bind, wp_peer; [|done]. intros p Hp.
  pose proof (reqView_peer s c p Hp) as Hq.
  case_bool_decide as Hr; cbn [negb]; [|apply wp_ret; exists (pReq p); by rewrite bool_decide_eq_false_2].
  pose proof (proj1 (ro_owner _ _ Hok c (pReq p) r Hq) Hr) as Hown.
  apply wp_bind, wp_on_req. intros s0 Hs0. apply wp_bind.
  eapply wp_mono; [apply rframe_updateExpectingChunks|]. cbv beta. intros _ s1 Hs1.
  rewrite Hs0 in Hs1. apply wp_bind, wp_gets, wp_bind, wp_assert.
  - intros _. apply wp_bind, wp_modify, wp_ret. exists (pReq p). rewrite bool_decide_eq_true_2 by done.
    split_and!; [done..|]. injection Hs1 as Hv1 Hv2 Hv3. unfold reqView in *. cbn in *. unfold v_delete. f_equal; cbn.
    + done.
    + by rewrite fmap_delete, Hv2.
    + done.
  - intros Hf. rewrite bool_decide_eq_false in Hf. destruct Hf.
    rewrite <- reqView_requesting, Hs1. exact Hown.
Qed.

Lemma v_delete_lookup c r v q :
  vReq v !! c = Some q →
  vReq (v_delete c r v) !! c = Some (set_Requests (filter (λ y, y ≠ r) (Requests q)) q).
Proof. intros Hq. cbn. by rewrite lookup_alter_eq, Hq. Qed.

Lemma deleteRequest_ok X c r s :
  req_okV X (reqView s) →
  wp req_safe (deleteRequest c r) (λ b s', req_okV X (reqView s') ∧
    ∃ q, vReq (reqView s) !! c = Some q ∧ b = bool_decide (r ∈ Requests q) ∧
      vReq (reqView s') !! c = Some (set_Requests (filter (λ y, y ≠ r) (Requests q)) q) ∧
      (b = true → vState (reqView s') !! r = None)) s.
Proof.
  intros Hok. eapply wp_mono; [by apply (deleteRequest_spec X)|]. cbv beta.
  intros b s' (q & Hq & -> & Hv). case_bool_decide as Hr; rewrite Hv.
  - split; [by apply (v_delete_ok X c r _ q)|]. exists q. split_and!; [done|by rewrite bool_decide_eq_true_2|by apply v_delete_lookup|].
    intros _. cbn. by rewrite lookup_delete_eq.
  - split; [done|]. exists q. split_and!; [done|by rewrite bool_decide_eq_false_2| |done]. rewrite Hq. f_equal.
    destruct q as [l ca va]. unfold set_Requests. cbn in *. f_equal. symmetry. apply filter_all, Forall_forall.
    by intros y Hy ->.
Qed.

Lemma deleteRequest_keeps c r : RKeeps (deleteRequest c r).
Proof. intros s Hs. eapply wp_mono; [by apply (deleteRequest_ok no_exempt)|]. by intros b s' [? _]. Qed.

Lemma deleteAll_loop c l : ∀ s q, req_ok s → vReq (reqView s) !! c = Some q → NoDup l →
  (∀ x, x ∈ Requests q ↔ x ∈ l) →
  wp req_safe (forEach l (λ x, b ← deleteRequest c x; assert_go b "request should exist"))
    (λ _ s', req_ok s' ∧ ∃ q', vReq (reqView s') !! c = Some q' ∧ Requests q' = []) s.
Proof.
  induction l as [|x l IH]; intros s q Hok Hq Hnd Hl; cbn [forEach].
  - apply wp_ret. split; [done|]. exists q. split; [done|].
    destruct (Requests q) as [|y ys]; [done|]. pose proof (proj1 (Hl y) (list_elem_of_here _ _)). set_solver.
  - apply NoDup_cons in Hnd as [Hx Hnd]. apply wp_bind, wp_bind.
    eapply wp_mono; [by apply (deleteRequest_ok no_exempt)|]. cbv beta.
    intros b s1 (Hok1 & q1 & Hq1 & -> & Hq' & _). rewrite Hq in Hq1. injection Hq1 as <-.
    rewrite bool_decide_eq_true_2 by (apply Hl; by left). apply wp_assert; [|done]. intros _.
    eapply IH; [done|exact Hq'|done|]. intros y. cbn. rewrite list_elem_of_filter, Hl, elem_of_cons.
    split; [tauto|]. intros Hy. split; [by intros ->|by right].
Qed.

Lemma deleteAllRequests_keeps o c r : RKeeps (deleteAllRequests o c r).
Proof.
  intros s Hok. unfold deleteAllRequests. apply wp_bind, wp_peer; [|done]. intros p Hp.
  case_bool_decide; [by apply wp_ret|]. pose proof (reqView_peer s c p Hp) as Hq.
  apply wp_bind. eapply wp_mono.
  { apply (deleteAll_loop c _ s (pReq p)); [done|done| |].
    - rewrite merge_sort_Permutation. by apply (ro_nodup _ _ Hok c).
    - intros x. by rewrite merge_sort_Permutation. }
  cbv beta. intros _ s1 (Hok1 & q1 & Hq1 & Hnil). apply wp_bind. unfold assertNoRequests.
  apply wp_bind, wp_peer; [|done]. intros p1 Hp1. apply reqView_peer in Hp1. rewrite Hq1 in Hp1. injection Hp1 as ->.
  rewrite Hnil. apply wp_assert; [|done]. intros _.
  eapply rframe_keeps; [|exact Hok1]. frame.
Qed.

(** ** cancel *)
Lemma cancel_ok c r s :
  req_ok s → requestingPeer s r = Some c →
  wp req_safe (cancel c r) (λ _ s', req_ok s' ∧ requestingPeer s' r = None) s.
Proof.
  intros Hok Hr. unfold cancel. apply wp_bind.
  eapply wp_mono; [by apply (deleteRequest_ok no_exempt)|]. cbv beta.
  intros b s1 (Hok1 & q & Hq & -> & Hq1 & Hgone).
  assert (Hin : r ∈ Requests q) by (apply (ro_owner _ _ Hok c q r Hq); by rewrite reqView_requesting).
  rewrite bool_decide_eq_true_2 in * by done. specialize (Hgone eq_refl).
  pose proof (ro_disjoint _ _ Hok c q r Hq Hin) as Hnc.
  pose proof (ro_valid _ _ Hok c q r Hq ltac:(by intros []) (or_introl Hin)) as Hval.
  set (q1 := set_Requests _ q) in *.
  apply wp_bind, wp_assert; [intros _|done]. apply wp_bind.
  eapply wp_mono; [apply rframe__cancel|]. cbv beta. intros acked s2 Hs2. rewrite <- Hs2 in *. apply wp_bind.
  eapply (wp_mono _ _ (λ _ s', req_ok s' ∧ requestingPeer s' r = None)).
  - destruct acked; [|apply wp_ret; split; [done|by rewrite <- reqView_requesting]].
    apply wp_bind, wp_peer; [|done]. intros p Hp. apply reqView_peer in Hp. rewrite Hq1 in Hp. injection Hp as Hp.
    apply wp_bind, wp_assert.
    + intros _. apply wp_on_req. intros s3 Hs3. unfold req_ok. rewrite <- reqView_requesting, Hs3.
      split; [|done]. apply (v_req_ok no_exempt no_exempt c _ _ q1); try done; cbn.
      * intros y [Hne Hy]%list_elem_of_filter. pose proof (ro_disjoint _ _ Hok c q y Hq Hy). set_solver.
      * intros y _ Hy. destruct (decide (y = r)) as [->|Hne]; [done|].
        apply (ro_valid _ _ Hok c q y Hq); [by intros []|]. rewrite list_elem_of_filter in Hy. set_solver.
      * intros y k. apply (ro_counts _ _ Hok c q y k Hq).
    + intros Hf. rewrite bool_decide_eq_false in Hf. destruct Hf. rewrite <- Hp. done.
  - cbv beta. intros _ s3 [Hok3 Hr3].
    eapply wp_mono.
    + apply (frame_wp reqView req_safe _ (λ v, req_okV no_exempt v ∧ vState v !! r = None)); [frame|].
      split; [done|by rewrite reqView_requesting].
    + cbv beta. intros _ s4 [? ?]. by rewrite <- reqView_requesting.
Qed.

Lemma cancelRequest_ok r s :
  req_ok s → wp req_safe (cancelRequest r) (λ _ s', req_ok s' ∧ requestingPeer s' r = None) s.
Proof.
  intros Hok. unfold cancelRequest. apply wp_bind, wp_gets, wp_bind.
  eapply (wp_mono _ _ (λ _ s', req_ok s' ∧ requestingPeer s' r = None)).
  - destruct (requestingPeer s r) as [d|] eqn:Er; [by apply cancel_ok|by apply wp_ret].
  - cbv beta. intros _ s1 [Hok1 Hr1]. apply wp_bind, wp_gets, wp_bind, wp_assert; [intros _; by apply wp_ret|].
    intros Hf. rewrite bool_decide_eq_false in Hf. destruct Hf. unfold requestingPeer in Hr1.
    by destruct (requestState s1 !! r).
Qed.

Lemma cancelRequest_keeps r : RKeeps (cancelRequest r).
Proof. intros s Hs. eapply wp_mono; [by apply cancelRequest_ok|]. by intros _ s' []. Qed.

(** ** request *)
Lemma shouldRequest_spec c r s :
  wp req_safe (shouldRequest c r) (λ _ s', reqView s' = reqView s ∧
    (∀ q, vReq (reqView s) !! c = Some q → r ∉ Cancelled q) ∧ vInfo (reqView s) = true) s.
Proof.
  unfold shouldRequest. apply wp_bind, wp_gets, wp_bind, wp_peer; [|done]. intros p Hp.
  apply wp_bind, wp_info; [|done]. intros g Hg.
  apply wp_bind, wp_assert; [|done]. intros _.
  apply wp_bind, wp_assert; [|done]. intros Hc%bool_decide_eq_true.
  eapply wp_mono; [apply (frame_wp reqView req_safe _ (λ v, v = reqView s)); [frame|done]|].
  cbv beta. intros _ s' Hs'. split_and!; [done| |by cbn; unfold haveInfo; rewrite Hg].
  intros q Hq. rewrite (reqView_peer s c p Hp) in Hq. by injection Hq as <-.
Qed.

Definition v_add (c : nat) (r : Z) (v : view) : view :=
  mkView (alter (λ x, mkReqSide (Requests x ++ [r]) (Cancelled x)
                        (<[r := default 0 (validReceiveChunks x !! r) + 1]> (validReceiveChunks x))) c (vReq v))
    (<[r := c]> (vState v)) (vInfo v).

(** Counts are positive where they are claimed, so one more keeps them so. *)
Lemma v_add_ok c r v q :
  req_okV no_exempt v → vReq v !! c = Some q → vState v !! r = None → r ∉ Cancelled q → vInfo v = true →
  req_okV no_exempt (v_add c r v).
Proof.
  intros [Ho Hk Hn Hd Hv Hco Hi0] Hq Hr Hc Hinfo.
  assert (Hge : 0 ≤ default 0 (validReceiveChunks q !! r)).
  { destruct (validReceiveChunks q !! r) as [k|] eqn:Ek; cbn; [|done]. pose proof (Hco c q r k Hq Ek). lia. }
  assert (Hfree : ∀ d x, vReq v !! d = Some x → r ∉ Requests x).
  { intros d x Hx Hin. apply (Ho d x r Hx) in Hin. congruence. }
  split; unfold v_add; cbn.
  - intros d x y Hx. rewrite lookup_insert_Some. apply lookup_alter_Some in Hx as [(<- & z & Hz & ->)|[Hne Hx]].
    + cbn. rewrite elem_of_app, list_elem_of_singleton, (Ho c z y Hz).
      split; [intros [Hy| ->]; [right; split; [by intros <-; congruence|done]|by left]|naive_solver].
    + rewrite (Ho d x y Hx). split; [|naive_solver]. intros Hy. right. split; [|done]. by intros <-; congruence.
  - intros y d Hy. rewrite lookup_alter_is_Some. apply lookup_insert_Some in Hy as [[_ <-]|[_ Hy]]; eauto.
  - intros d x Hx. apply lookup_alter_Some in Hx as [(<- & z & Hz & ->)|[_ Hx]]; [|eauto].
    cbn. apply NoDup_app. split_and!; [eauto| |apply NoDup_singleton].
    intros y Hy Hs%list_elem_of_singleton. subst y. by apply (Hfree c z).
  - intros d x y Hx. apply lookup_alter_Some in Hx as [(<- & z & Hz & ->)|[_ Hx]]; [|eauto].
    cbn. rewrite Hq in Hz. injection Hz as <-. rewrite elem_of_app, list_elem_of_singleton.
    intros [Hy| ->]; [eauto|done].
  - intros d x y Hx HX. apply lookup_alter_Some in Hx as [(<- & z & Hz & ->)|[_ Hx]]; [|eauto].
    cbn. rewrite Hq in Hz. injection Hz as <-. rewrite elem_of_app, list_elem_of_singleton.
    destruct (decide (y = r)) as [->|Hne]; [rewrite lookup_insert_eq; cbn; lia|].
    rewrite lookup_insert_ne by done. intros Hy. apply (Hv c q y Hq HX). tauto.
  - intros d x y k Hx. apply lookup_alter_Some in Hx as [(<- & z & Hz & ->)|[_ Hx]]; [|eauto]. cbn.
    rewrite Hq in Hz. injection Hz as <-. intros [[<- <-]|[_ Hy]]%lookup_insert_Some; [lia|eauto].
  - congruence.
Qed.

Lemma request_ok c r s :
  req_ok s → requestingPeer s r = None ∨ requestingPeer s r = Some c →
  wp req_safe (request c r) (λ _, req_ok) s.
Proof.
  intros Hok Hfree. unfold request. apply wp_bind. eapply wp_mono; [apply shouldRequest_spec|].
  cbv beta. intros _ s1 (Hs1 & Hc & Hinfo). apply wp_bind, wp_peer; [|done]. intros p Hp.
  pose proof (reqView_peer s1 c p Hp) as Hq. rewrite Hs1 in Hq. unfold req_ok in *. rewrite <- Hs1 in Hok.
  case_bool_decide as Hr; [by apply wp_ret|]. destruct (nominalMaxRequests p <=? _); [by apply wp_ret|].
  apply wp_bind, wp_on_req. intros s2 Hs2. apply wp_bind, wp_modify.
  eapply wp_mono; [apply (frame_wp reqView req_safe _ (req_okV no_exempt)); [frame|]|by cbv beta].
  set (s3 := set_requestState _ s2).
  assert (Hs3 : reqView s3 = v_add c r (reqView s1)).
  { unfold reqView at 1, s3. cbn. rewrite fmap_insert. injection Hs2 as H1 H2 H3. unfold v_add. f_equal; [done| |done].
    cbn. by rewrite H2. }
  rewrite Hs3. apply (v_add_ok c r _ (pReq p)); [done|by rewrite Hs1| |eauto|by rewrite Hs1].
  rewrite Hs1, reqView_requesting. destruct Hfree as [->|Hf]; [done|].
  destruct Hr. apply (ro_owner _ _ Hok c (pReq p) r); [by rewrite Hs1|]. by rewrite Hs1, reqView_requesting.
Qed.

(** ** Receiving: a chunk or a rejection *)
Lemma decExpected_spec c r s q :
  vReq (reqView s) !! c = Some q → 1 ≤ default 0 (validReceiveChunks q !! r) →
  wp req_safe (decExpectedChunkReceive c r) (λ _ s', ∃ vs,
    reqView s' = v_req c (set_validReceiveChunks vs) (reqView s) ∧
    (∀ y, y ≠ r → vs !! y = validReceiveChunks q !! y) ∧
    (∀ y k, vs !! y = Some k → 1 ≤ k ∨ validReceiveChunks q !! y = Some k)) s.
Proof.
  intros Hq Hge. unfold decExpectedChunkReceive. apply wp_bind, wp_peer; [|done]. intros p Hp.
  apply reqView_peer in Hp. rewrite Hq in Hp. injection Hp as ->.
  destruct (Z.eqb_spec (default 0 (validReceiveChunks (pReq p) !! r)) 1) as [H1|H1];
    [|destruct (Z.ltb_spec 1 (default 0 (validReceiveChunks (pReq p) !! r)))].
  - apply wp_on_req. intros s' Hs'. exists (delete r (validReceiveChunks (pReq p))).
    split_and!.
    + rewrite Hs'. unfold v_req. f_equal. apply alter_ext. intros x Hx. by rewrite Hq in Hx; injection Hx as <-.
    + intros y Hy. by rewrite lookup_delete_ne.
    + intros y k [_ Hy]%lookup_delete_Some. by right.
  - apply wp_on_req. intros s' Hs'. eexists. split_and!.
    + rewrite Hs'. unfold v_req. f_equal. apply alter_ext. intros x Hx. by rewrite Hq in Hx; injection Hx as <-.
    + intros y Hy. by rewrite lookup_insert_ne.
    + intros y k [[<- <-]|[_ Hy]]%lookup_insert_Some; [left; lia|by right].
  - lia.
Qed.

Lemma checkedRemoveCancelled_spec c r s :
  wp req_safe (checkedRemoveCancelled c r) (λ b s', ∃ q, vReq (reqView s) !! c = Some q ∧
    b = bool_decide (r ∈ Cancelled q) ∧
    reqView s' = v_req c (λ x, set_Cancelled (Cancelled x ∖ {[r]}) x) (reqView s)) s.
Proof.
  unfold checkedRemoveCancelled. apply wp_bind, wp_peer; [|done]. intros p Hp.
  apply wp_bind, wp_on_req. intros s' Hs'. apply wp_ret. exists (pReq p). by rewrite (reqView_peer s c p Hp).
Qed.

Lemma v_uncancel_ok X c r v q :
  req_okV X v → vReq v !! c = Some q → req_okV X (v_req c (λ x, set_Cancelled (Cancelled x ∖ {[r]}) x) v).
Proof.
  intros Hok Hq. apply (v_req_ok X X c _ v q); try done; cbn.
  - intros y Hy. pose proof (ro_disjoint _ _ Hok c q y Hq Hy). set_solver.
  - intros y HX Hy. apply (ro_valid _ _ Hok c q y Hq HX). set_solver.
  - intros y k. by apply (ro_counts _ _ Hok c q y k).
Qed.

(** A request that is gone on both sides, with a chunk still receivable. *)
Definition settled (c : nat) (r : Z) (v : view) : Prop :=
  ∃ q, vReq v !! c = Some q ∧ (r ∉ Requests q) ∧ (r ∉ Cancelled q) ∧ 1 ≤ default 0 (validReceiveChunks q !! r).

Lemma settle_ok c r s :
  req_ok s →
  wp req_safe (b ← deleteRequest c r;
               (if b : bool then (_ ← decPeakRequests c; mret true) else checkedRemoveCancelled c r))
    (λ ok s', req_ok s' ∧ (ok = true → settled c r (reqView s'))) s.
Proof.
  intros Hok. apply wp_bind. eapply wp_mono; [by apply (deleteRequest_ok no_exempt)|]. cbv beta.
  intros b s1 (Hok1 & q & Hq & -> & Hq1 & _). case_bool_decide as Hr.
  - eapply wp_mono; [apply (frame_wp reqView req_safe _ (λ v, v = reqView s1)); [frame|done]|]. cbv beta.
    intros ok s2 Hs2. unfold req_ok. rewrite Hs2. split; [done|]. intros _. eexists. split; [exact Hq1|].
    cbn. rewrite list_elem_of_filter. split_and!; [tauto|by apply (ro_disjoint _ _ Hok c q)|].
    apply (ro_valid _ _ Hok c q r Hq); [by intros []|by left].
  - eapply wp_mono; [apply checkedRemoveCancelled_spec|]. cbv beta. intros ok s2 (q' & Hq' & -> & Hs2).
    rewrite Hq1 in Hq'. injection Hq' as <-. unfold req_ok. rewrite Hs2.
    split; [by apply (v_uncancel_ok no_exempt c r _ _ Hok1 Hq1)|].
    intros Hc%bool_decide_eq_true. eexists. split; [cbn; rewrite lookup_alter_eq; cbn in Hq1; by rewrite Hq1|].
    cbn in *. rewrite list_elem_of_filter. split_and!; [tauto|set_solver|].
    apply (ro_valid _ _ Hok c q r Hq); [by intros []|by right].
Qed.

Lemma decExpected_settled c r s :
  req_ok s → settled c r (reqView s) → wp req_safe (decExpectedChunkReceive c r) (λ _, req_ok) s.
Proof.
  intros Hok (q & Hq & Hr & Hc & Hge). eapply wp_mono; [by apply (decExpected_spec c r s q)|].
  cbv beta. intros _ s' (vs & Hs' & Hne & Hpos). unfold req_ok. rewrite Hs'.
  apply (v_req_ok no_exempt no_exempt c _ _ q); try done; cbn.
  - intros y Hy. by apply (ro_disjoint _ _ Hok c q).
  - intros y _ Hy. rewrite Hne by (intros ->; tauto). apply (ro_valid _ _ Hok c q y Hq); [by intros []|done].
  - intros y k Hk. destruct (Hpos y k Hk) as [|Hy]; [done|]. by apply (ro_counts _ _ Hok c q y k).
Qed.

Lemma remoteRejectedRequest_keeps c r : RKeeps (remoteRejectedRequest c r).
Proof.
  intros s Hok. unfold remoteRejectedRequest.
  assert (Hassoc : ∀ (k : bool → act bool),
    wp req_safe (ok ← (b ← deleteRequest c r;
      (if b : bool then (_ ← decPeakRequests c; mret true) else checkedRemoveCancelled c r)); k ok) (λ _, req_ok) s →
    wp req_safe (b ← deleteRequest c r;
      ok ← (if b : bool then (_ ← decPeakRequests c; mret true) else checkedRemoveCancelled c r); k ok) (λ _, req_ok) s).
  { intros k. unfold wp, mbind, act_bind. by destruct (deleteRequest c r s) as [[b s1]|w]. }
  apply Hassoc, wp_bind. eapply wp_mono; [by apply settle_ok|]. cbv beta. intros ok s1 [Hok1 Hset].
  destruct ok; cbn [negb]; [|by apply wp_ret]. apply wp_bind, wp_peer; [|done]. intros p Hp.
  apply wp_bind. eapply wp_mono; [apply (frame_wp reqView req_safe _ (λ v, v = reqView s1)); [frame|done]|].
  cbv beta. intros _ s2 Hs2. apply wp_bind. eapply wp_mono.
  - apply decExpected_settled; unfold req_ok; rewrite Hs2; auto.
  - cbv beta. intros _ s3 Hs3. by apply wp_ret.
Qed.

Definition notRequested (c : nat) (r : Z) (v : view) : Prop := ∃ q, vReq v !! c = Some q ∧ r ∉ Requests q.

(** A receivable chunk arrives: the count goes down, then the request goes. *)
Lemma take_chunk_ok c r s q (k : bool → act Received) (Q : Received → Swarm → Prop) :
  req_ok s → vReq (reqView s) !! c = Some q → 1 ≤ default 0 (validReceiveChunks q !! r) →
  (∀ b s', req_ok s' → notRequested c r (reqView s') → wp req_safe (k b) Q s') →
  wp req_safe (_ ← decExpectedChunkReceive c r;
               b ← deleteRequest c r;
               intended ← (if b : bool then mret true else checkedRemoveCancelled c r);
               k intended) Q s.
Proof.
  intros Hok Hq Hge Hk. apply wp_bind. eapply wp_mono; [by apply (decExpected_spec c r s q)|].
  cbv beta. intros _ s1 (vs & Hs1 & Hne & Hpos).
  set (X := λ d y, d = c ∧ y = r).
  assert (Hok1 : req_okV X (reqView s1)).
  { rewrite Hs1. apply (v_req_ok no_exempt X c _ _ q); try done; cbn.
    - intros y Hy. by apply (ro_disjoint _ _ Hok c q).
    - intros y HX Hy. rewrite Hne by (intros ->; by apply HX).
      apply (ro_valid _ _ Hok c q y Hq); [by intros []|done].
    - intros y z Hz. destruct (Hpos y z Hz) as [|Hy]; [done|]. by apply (ro_counts _ _ Hok c q y z). }
  apply wp_bind. eapply wp_mono; [by apply (deleteRequest_ok X)|]. cbv beta.
  intros b s2 (Hok2 & q2 & Hq2 & -> & Hq2' & _). apply wp_bind. case_bool_decide as Hr.
  - apply wp_ret, Hk.
    + unfold req_ok. eapply exempt_void; [exact Hok2|exact Hq2'|cbn; rewrite list_elem_of_filter; tauto|].
      by apply (ro_disjoint _ _ Hok1 c q2).
    + eexists. split; [exact Hq2'|]. cbn. rewrite list_elem_of_filter. tauto.
  - eapply wp_mono; [apply checkedRemoveCancelled_spec|]. cbv beta. intros ok s3 (q3 & Hq3 & -> & Hs3).
    rewrite Hq2' in Hq3. injection Hq3 as <-.
    assert (Hq4 : vReq (reqView s3) !! c = Some (set_Cancelled (Cancelled q2 ∖ {[r]})
              (set_Requests (filter (λ y, y ≠ r) (Requests q2)) q2))).
    { rewrite Hs3. cbn. rewrite lookup_alter_eq. cbn in Hq2'. by rewrite Hq2'. }
    apply Hk.
    + unfold req_ok. eapply exempt_void; [rewrite Hs3; by eapply v_uncancel_ok|exact Hq4| |].
      * cbn. rewrite list_elem_of_filter. tauto.
      * cbn. set_solver.
    + eexists. split; [exact Hq4|]. cbn. rewrite list_elem_of_filter. tauto.
Qed.

(** The chunk was wanted: a request for it from another peer is cancelled. *)
Lemma cancel_others_ok c r s :
  req_ok s → notRequested c r (reqView s) →
  wp req_safe
    (match requestingPeer s r with
     | None => mret tt
     | Some d =>
         _ ← assert_go (negb (bool_decide (d = c)))
               "should not be pending request from conn that just received it";
         cancel d r
     end) (λ _, req_ok) s.
Proof.
  intros Hok (q & Hq & Hr).
  destruct (requestingPeer s r) as [d|] eqn:Ed; [|by apply wp_ret]. apply wp_bind, wp_assert.
  - intros _. eapply wp_mono; [by apply cancel_ok|]. by intros _ s' [].
  - rewrite negb_false_iff, bool_decide_eq_true. intros ->. destruct Hr.
    apply (ro_owner _ _ Hok c q r Hq). by rewrite reqView_requesting.
Qed.

(** The next operation frames the view, and [P] holds of the view. *)
Ltac through P :=
  apply wp_bind; eapply wp_mono; [apply (frame_wp reqView req_safe _ P); [frame|try done]|]; cbv beta.

Lemma receiveChunk_keeps h c msg : RKeeps (receiveChunk h c msg).
Proof.
  intros s Hok. unfold receiveChunk. through (req_okV no_exempt).
  { apply frame_lift_go; intros w; unfold newRequestFromMessage; repeat case_match; by intros [= <-]. }
  clear s Hok. intros ppReq s Hok. apply wp_bind, wp_gets.
  destruct (checkValidReceiveChunk (geo s) ppReq); [by apply wp_ret|].
  apply wp_bind, wp_info; [|done]. intros g _. set (req := requestIndexFromRequest g ppReq).
  apply wp_bind, wp_peer; [|done]. intros p Hp. pose proof (reqView_peer s c p Hp) as Hq.
  through (λ v, v = reqView s).
  intros _ s1 Hs1. rewrite <- Hs1 in Hq. rewrite <- Hs1 in Hok.
  destruct (Z.leb_spec (default 0 (validReceiveChunks (pReq p) !! req)) 0); [by apply wp_ret|].
  apply (take_chunk_ok c req s1 (pReq p)); [done|done|lia|]. intros b s2 Hok2 Hnr.
  through (λ v, req_okV no_exempt v ∧ notRequested c req v). clear s2 Hok2 Hnr. intros _ s2 [Hok2 Hnr].
  apply wp_bind, wp_gets. destruct (haveChunk s2 ppReq).
  { eapply rframe_keeps; [|exact Hok2]. frame. }
  do 7 (through (λ v, req_okV no_exempt v ∧ notRequested c req v); clear Hok2 Hnr; intros ? ? [Hok2 Hnr]).
  apply wp_bind, wp_gets, wp_bind. eapply wp_mono; [by apply cancel_others_ok|]. cbv beta. intros _ s3 Hok3.
  eapply rframe_keeps; [|exact Hok3]. frame.
Qed.

(** ** Everything else *)
Ltac rkeeps := repeat keeps_step ltac:(solve [apply rframe_keeps; frame]).

#[export] Hint Resolve deleteRequest_keeps deleteAllRequests_keeps cancelRequest_keeps
  remoteRejectedRequest_keeps receiveChunk_keeps : keeps.

(** What closes connections and completes pieces keeps every invariant of the
    view that [deleteAllRequests] and [cancelRequest] keep. *)
Section Chain.
Context (I : Swarm → Prop) (P : view → Prop) (HI : ∀ s, I s ↔ P (reqView s)).
Context (Hdelete : ∀ o c r, Keeps I req_safe (deleteAllRequests o c r)).
Context (Hcancel : ∀ r, Keeps I req_safe (cancelRequest r)).

Lemma chain_frame {A} (m : act A) : RFrame m → Keeps I req_safe m.
Proof. by apply (frame_keeps I req_safe reqView P). Qed.

#[local] Hint Resolve Hdelete Hcancel : keeps.
Ltac ckeeps := repeat keeps_step ltac:(solve [apply chain_frame; frame]).

Lemma chain_deletePeerConn o c : Keeps I req_safe (deletePeerConn o c).
Proof. unfold deletePeerConn. ckeeps. Qed.
#[local] Hint Resolve chain_deletePeerConn : keeps.
Lemma chain_dropConnection o c : Keeps I req_safe (dropConnection o c).
Proof. unfold dropConnection. ckeeps. Qed.
#[local] Hint Resolve chain_dropConnection : keeps.
Lemma chain_maybeDrop o c : Keeps I req_safe (maybeDropMutuallyCompletePeer o c).
Proof. unfold maybeDropMutuallyCompletePeer. ckeeps. Qed.
#[local] Hint Resolve chain_maybeDrop : keeps.
Lemma chain_onPieceCompleted o i : Keeps I req_safe (onPieceCompleted o i).
Proof. unfold onPieceCompleted, cancelRequestsForPiece. ckeeps. Qed.
#[local] Hint Resolve chain_onPieceCompleted : keeps.
Lemma chain_updatePieceCompletion o i : Keeps I req_safe (updatePieceCompletion o i).
Proof. unfold updatePieceCompletion, pieceCompletionChanged. ckeeps. Qed.
End Chain.

Definition deletePeerConn_keeps :=
  chain_deletePeerConn req_ok (req_okV no_exempt) (λ s, iff_refl _) deleteAllRequests_keeps.
Definition dropConnection_keeps :=
  chain_dropConnection req_ok (req_okV no_exempt) (λ s, iff_refl _) deleteAllRequests_keeps.
Definition maybeDrop_keeps :=
  chain_maybeDrop req_ok (req_okV no_exempt) (λ s, iff_refl _) deleteAllRequests_keeps.
Definition updatePieceCompletion_keeps :=
  chain_updatePieceCompletion req_ok (req_okV no_exempt) (λ s, iff_refl _) deleteAllRequests_keeps cancelRequest_keeps.
#[export] Hint Resolve deletePeerConn_keeps dropConnection_keeps maybeDrop_keeps updatePieceCompletion_keeps : keeps.

Lemma peerSentHave_keeps o c i : RKeeps (peerSentHave o c i).
Proof. unfold peerSentHave. rkeeps. Qed.
Lemma onPeerHasAllPieces_keeps o c : RKeeps (onPeerHasAllPieces o c).
Proof. unfold onPeerHasAllPieces. rkeeps. Qed.
#[export] Hint Resolve onPeerHasAllPieces_keeps : keeps.
Lemma peerSentBitfield_keeps o c bf : RKeeps (peerSentBitfield o c bf).
Proof. unfold peerSentBitfield, applyBitfield. rkeeps. Qed.
Lemma peerSentHaveNone_keeps o c : RKeeps (peerSentHaveNone o c).
Proof. unfold peerSentHaveNone. rkeeps. Qed.
#[export] Hint Resolve peerSentHave_keeps peerSentBitfield_keeps peerSentHaveNone_keeps : keeps.

Lemma rframe_firstNotHashing l : RFrame (firstNotHashing l).
Proof. induction l as [|i l IH]; cbn [firstNotHashing]; frame. Qed.
#[export] Hint Resolve rframe_firstNotHashing : frame.
Lemma rframe_tryCreatePieceHasher o : RFrame (tryCreatePieceHasher o).
Proof. unfold tryCreatePieceHasher, getPieceToHash. frame. Qed.
#[export] Hint Resolve rframe_tryCreatePieceHasher : frame.
Lemma rframe_hasherLoop o n : RFrame (hasherLoop o n).
Proof. induction n as [|n IH]; cbn [hasherLoop]; frame. Qed.
#[export] Hint Resolve rframe_hasherLoop : frame.
Lemma rframe_tryCreateMorePieceHashers o : RFrame (tryCreateMorePieceHashers o).
Proof. unfold tryCreateMorePieceHashers. frame. Qed.
#[export] Hint Resolve rframe_tryCreateMorePieceHashers : frame.
Lemma rframe_queuePieceCheck o i : RFrame (queuePieceCheck o i).
Proof. unfold queuePieceCheck. frame. Qed.
Lemma rframe_clearPieceTouchers i : RFrame (clearPieceTouchers i).
Proof. unfold clearPieceTouchers. frame. Qed.
Lemma rframe_torrentStats f : RFrame (torrentStats f).
Proof. unfold torrentStats. frame. Qed.
Lemma rframe_peerStats c f : RFrame (modify_peer c (λ x, set_stats (f (stats x)) x)).
Proof. by apply rframe_modify_peer. Qed.
Lemma rframe_pieceHasherTail o i : RFrame (pieceHasherTail o i).
Proof. unfold pieceHasherTail. frame. Qed.
#[export] Hint Resolve rframe_queuePieceCheck rframe_clearPieceTouchers rframe_torrentStats rframe_peerStats
  rframe_pieceHasherTail : frame.
Lemma rframe_pieceHashedPassed i : RFrame (pieceHashedPassed i).
Proof. unfold pieceHashedPassed. frame. Qed.
#[export] Hint Resolve rframe_pieceHashedPassed : frame.

Lemma banPeerIP_keeps o ip : RKeeps (banPeerIP o ip).
Proof. unfold banPeerIP. rkeeps. Qed.
Lemma dropBannedPeers_keeps o : RKeeps (dropBannedPeers o).
Proof. unfold dropBannedPeers. rkeeps. Qed.
#[export] Hint Resolve banPeerIP_keeps dropBannedPeers_keeps : keeps.
Lemma pieceHashedFailed_keeps o i e : RKeeps (pieceHashedFailed o i e).
Proof. unfold pieceHashedFailed. rkeeps. Qed.
#[export] Hint Resolve pieceHashedFailed_keeps : keeps.
Lemma pieceHasher_keeps o i b l e : RKeeps (pieceHasher o i b l e).
Proof. unfold pieceHasher. rkeeps. Qed.
Lemma pieceMarked_keeps o i : RKeeps (pieceMarked o i).
Proof. unfold pieceMarked. rkeeps. Qed.

Lemma rframe_newRequest msg : RFrame (lift_go (newRequestFromMessage msg)).
Proof. apply frame_lift_go. intros w. unfold newRequestFromMessage. repeat case_match; by intros [= <-]. Qed.
#[export] Hint Resolve rframe_newRequest : frame.
Lemma rframe_chunkWritten o c msg e : RFrame (chunkWritten o c msg e).
Proof. unfold chunkWritten. frame. Qed.

(** Serving the peer does not touch our requests. *)
Lemma Drop_safe l id w : Drop l id = Panic w → req_safe w.
Proof. unfold Drop. repeat case_match; try done. by intros [= <-]. Qed.
Lemma Release_safe l id w : Release l id = Panic w → req_safe w.
Proof. unfold Release. repeat case_match; try done; by intros [= <-]. Qed.
Lemma rframe_withLimiter c f : (∀ l w, f l = Panic w → req_safe w) → RFrame (withLimiter c f).
Proof. intros Hf. unfold withLimiter. frame. apply frame_lift_go. apply Hf. Qed.
Lemma rframe_dropReservation c id : RFrame (withLimiter c (λ l, Drop l id)).
Proof. apply rframe_withLimiter. intros l w. apply Drop_safe. Qed.
Lemma rframe_releaseReservation c id : RFrame (withLimiter c (λ l, Release l id)).
Proof. apply rframe_withLimiter. intros l w. apply Release_safe. Qed.
Lemma rframe_deletePeerRequest c r : RFrame (deletePeerRequest c r).
Proof. apply rframe_on_up. Qed.
#[export] Hint Resolve rframe_dropReservation rframe_releaseReservation rframe_deletePeerRequest : frame.
Lemma rframe_reject c r : RFrame (reject c r).
Proof. unfold reject. frame. Qed.
Lemma rframe_deleteAllPeerRequests c : RFrame (deleteAllPeerRequests c).
Proof. unfold deleteAllPeerRequests. frame. Qed.
#[export] Hint Resolve rframe_reject rframe_deleteAllPeerRequests : frame.
Lemma rframe_choke c : RFrame (choke c).
Proof. unfold choke. frame. Qed.
Lemma rframe_unchoke c : RFrame (unchoke c).
Proof. unfold unchoke. frame. Qed.
Lemma rframe_onPeerSentCancel c r : RFrame (onPeerSentCancel c r).
Proof. unfold onPeerSentCancel. frame. Qed.
Lemma rframe_onReadRequest c r b : RFrame (onReadRequest c r b).
Proof. unfold onReadRequest. frame. Qed.
Lemma rframe_sendChunk c r id d : RFrame (sendChunk c r id d).
Proof. unfold sendChunk. frame. Qed.
#[export] Hint Resolve rframe_choke rframe_unchoke rframe_onPeerSentCancel rframe_onReadRequest rframe_sendChunk : frame.
Lemma rframe_uploadLoop n f c : RFrame (uploadLoop n f c).
Proof. induction n as [|n IH]; cbn [uploadLoop]; frame. Qed.
#[export] Hint Resolve rframe_uploadLoop : frame.
Lemma rframe_upload f c : RFrame (upload f c).
Proof. unfold upload. frame. Qed.
Lemma peerRequestDataReader_keeps o c r id b : RKeeps (peerRequestDataReader o c r id b).
Proof. unfold peerRequestDataReader, peerRequestDataReadFailed. rkeeps. Qed.

Lemma handleMessage_keeps o h ext c msg :
  (∀ c id b, RKeeps (ext c id b)) → RKeeps (handleMessage o h ext c msg).
Proof.
  intros Hext. unfold handleMessage, unitErr. rkeeps.
Qed.

Lemma dropDuplicates_keeps o f c l : RKeeps (dropDuplicates o f c l).
Proof. induction l as [|c0 l IH]; cbn [dropDuplicates]; rkeeps. Qed.
#[export] Hint Resolve dropDuplicates_keeps : keeps.
Lemma addPeerConn_keeps o f w b n c : RKeeps (addPeerConn o f w b n c).
Proof. unfold addPeerConn. rkeeps. Qed.
Lemma rframe_deletePieceRequestOrder : RFrame deletePieceRequestOrder.
Proof. unfold deletePieceRequestOrder. frame. Qed.
#[export] Hint Resolve rframe_deletePieceRequestOrder : frame.
Lemma rframe_torrent_close o : RFrame (torrent_close o).
Proof. unfold torrent_close, assertAllPiecesRelativeAvailabilityZero. frame. Qed.

(** ** Getting the info: there are no requests yet *)
Definition idleV (v : view) : Prop := req_okV no_exempt v ∧ vState v = ∅.
Definition idle (s : Swarm) : Prop := idleV (reqView s).

Lemma idle_deleteAllRequests o c r : Keeps idle req_safe (deleteAllRequests o c r).
Proof.
  intros s [Hok Hv]. unfold deleteAllRequests. apply wp_bind, wp_peer; [|done]. intros p Hp.
  rewrite bool_decide_eq_true_2; [by apply wp_ret|].
  destruct (Requests (pReq p)) as [|r0 l] eqn:Er; [done|].
  pose proof (proj1 (ro_owner _ _ Hok c (pReq p) r0 (reqView_peer s c p Hp))) as Ho.
  rewrite Er, Hv, lookup_empty in Ho. discriminate Ho. by left.
Qed.

Lemma idle_cancelRequest r : Keeps idle req_safe (cancelRequest r).
Proof.
  intros s [Hok Hv]. unfold cancelRequest. apply wp_bind, wp_gets.
  pose proof (reqView_requesting s r) as Hr. rewrite Hv, lookup_empty in Hr. rewrite <- Hr.
  apply wp_bind, wp_ret, wp_bind, wp_gets, wp_bind, wp_assert; [intros _; by apply wp_ret|].
  intros Hf. rewrite bool_decide_eq_false in Hf. destruct Hf. unfold requestingPeer in Hr.
  by destruct (requestState s !! r).
Qed.

Lemma idle_frame {A} (m : act A) : RFrame m → Keeps idle req_safe m.
Proof. by apply (frame_keeps idle req_safe reqView idleV). Qed.

Definition idle_maybeDrop := chain_maybeDrop idle idleV (λ s, iff_refl _) idle_deleteAllRequests.
Definition idle_updatePieceCompletion :=
  chain_updatePieceCompletion idle idleV (λ s, iff_refl _) idle_deleteAllRequests idle_cancelRequest.

Lemma rframe_addRequestOrderPiece i : RFrame (addRequestOrderPiece i).
Proof. unfold addRequestOrderPiece. frame. Qed.
#[export] Hint Resolve rframe_addRequestOrderPiece : frame.

Lemma idle_clear : Keeps idle req_safe (modify (set_requestState ∅)).
Proof.
  intros s [Hok Hv]. unfold wp. cbn. unfold idle, idleV, reqView in *. cbn in *.
  rewrite fmap_empty. split; [|done]. by rewrite Hv in Hok.
Qed.

Lemma onSetInfo_idle o b : Keeps idle req_safe (onSetInfo o b).
Proof.
  unfold onSetInfo, onGotInfo.
  pose proof idle_maybeDrop. pose proof idle_updatePieceCompletion. pose proof idle_clear.
  repeat keeps_step ltac:(solve [apply idle_frame; frame | auto]).
Qed.
