(* ===== verification/Metadata.v ===== *)
(** The metadata exchange and the extension protocol: src/torrent.go
    (metadata pieces, setInfoBytesLocked), src/peerconn.go
    (onReadExtendedMsg, requestPendingMetadata), src/client.go
    (gotMetadataExtensionMsg) and src/peer_protocol/metadata.go.

    The payloads are decoded by bencode, whose results are the parameters
    [decodeHandshake], [decodeMetadata], [parseInfo] and [marshalMetadata];
    [hashOk] compares the hash of the info bytes with the info hash,
    [shuffle] is rand.Shuffle and [pexRecv] what peer exchange does. *)
From stdpp Require Import base numbers list strings gmap sorting.
From Stdlib Require Import ZArith Lia.
From S2P Require Import Prelude Wire Metainfo Geometry RequestStrategy OrderedBitmap AllocLim SmartBan SwarmState Swarm SwarmWp SwarmReq.
Open Scope Z_scope.

Definition maxMetadataSize : Z := 16 * 1024 * 1024.
Definition HandshakeExtendedID : Z := 0.
Definition metadataExtendedId : Z := 1.
Definition pexExtendedId : Z := 2.
Definition ExtensionNameMetadata : string := "ut_metadata".

(** The fields of [ExtendedHandshakeMessage] that are used. *)
Record ExtendedHandshakeMessage : Type := mkExtHandshake {
  ehM : list (string * Z);
  ehReqq : Z;
  ehMetadataSize : Z
}.

Record ExtendedMetadataRequestMsg : Type := mkMetadataMsg {
  mmPiece : Z;
  mmTotalSize : Z;
  mmType : Z
}.

Definition RequestMetadataExtensionMsgType : Z := 0.
Definition DataMetadataExtensionMsgType : Z := 1.
Definition RejectMetadataExtensionMsgType : Z := 2.

Definition PieceSize (me : ExtendedMetadataRequestMsg) : Z :=
  let ret := i64 (mmTotalSize me - i64 (mmPiece me * 2 ^ 14)) in
  if 2 ^ 14 <? ret then 2 ^ 14 else ret.

(** [a[i]] of a slice. *)
Definition at_ {A} (l : list A) (i : Z) : act A :=
  match (if 0 <=? i then l !! Z.to_nat i else None) with
  | Some x => mret x
  | None => panic "index out of range"
  end.

(** [copy(dst[from:], src)]. *)
Definition copyInto {A} (dst : list A) (from : Z) (src : list A) : act (list A) :=
  if (0 <=? from) && (from <=? Z.of_nat (length dst)) then
    let k := Z.to_nat from in
    mret (take k dst ++ take (length dst - k) src ++ drop (k + length src) dst)
  else panic "slice bounds out of range".

(** [l[lo:hi]]. *)
Definition sliceOf {A} (l : list A) (lo hi : Z) : act (list A) :=
  if (0 <=? lo) && (lo <=? hi) && (hi <=? Z.of_nat (length l))
  then mret (take (Z.to_nat (hi - lo)) (drop (Z.to_nat lo) l))
  else panic "slice bounds out of range".

Definition extendedMsg (id : Z) (payload : list Z) : Message := mkMessage false Extended 0 0 0 [] [] id payload 0.

Definition lenChunks (s : Swarm) : Z :=
  match metadataCompletedChunks s with Some l => Z.of_nat (length l) | None => 0 end.

Definition metadataPieceCount (s : Swarm) : Z :=
  Z.quot (i64 (Z.of_nat (length (metadataBytes s)) + 2 ^ 14 - 1)) (2 ^ 14).

Definition haveMetadataPiece (piece : Z) : act bool :=
  s ← gets (λ s, s);
  if haveInfo s then mret (i64 (2 ^ 14 * piece) <? Z.of_nat (length (metadataBytes s)))
  else if piece <? lenChunks s then at_ (default [] (metadataCompletedChunks s)) piece
  else mret false.

Definition saveMetadataPiece (index : Z) (data : list Z) : act unit :=
  s ← gets (λ s, s);
  if haveInfo s then mret tt
  else if lenChunks s <=? index then mret tt
  else
    b ← copyInto (metadataBytes s) (i64 (2 ^ 14 * index)) data;
    _ ← modify (set_metadataBytes b);
    _ ← at_ (default [] (metadataCompletedChunks s)) index;
    modify (λ s, set_metadataCompletedChunks (<[Z.to_nat index := true]> <$> metadataCompletedChunks s) s).

Definition haveAllMetadataPieces (s : Swarm) : bool :=
  if haveInfo s then true
  else match metadataCompletedChunks s with None => false | Some l => forallb id l end.

(** [t.info = nil] too, which it is when this is called. *)
Definition invalidateMetadata : act unit :=
  modify (λ s, set_geo None
    (set_metadataCompletedChunks (map (λ _, false) <$> metadataCompletedChunks s) s)).

Section Metadata.
Context (mapOrder : gset nat → list nat).
Context (decodeHandshake : list Z → option ExtendedHandshakeMessage).
Context (decodeMetadata : list Z → option ExtendedMetadataRequestMsg).
Context (marshalMetadata : ExtendedMetadataRequestMsg → list Z).
Context (hashOk : list Z → bool) (parseInfo : list Z → option Info).
Context (shuffle : list Z → list Z).
Context (pexRecv : nat → list Z → option MsgErr).
Context (chunk : Z) (openTorrent : option bool) (initialPieceCheckDisabled : bool).

(** [false] is an error. *)
Definition setInfoBytesLocked (b : list Z) : act bool :=
  if negb (hashOk b) then mret false
  else
    match parseInfo b with
    | None => mret false
    | Some inf =>
        _ ← modify (λ s, set_metadataCompletedChunks None (set_metadataBytes b s));
        s ← gets (λ s, s);
        if haveInfo s then mret true
        else
          ok ← setInfo inf chunk openTorrent;
          if negb ok then mret false
          else _ ← onSetInfo mapOrder initialPieceCheckDisabled; mret true
    end.

Definition maybeCompleteMetadata : act (option MsgErr) :=
  s ← gets (λ s, s);
  if haveInfo s then mret None
  else if negb (haveAllMetadataPieces s) then mret None
  else
    ok ← setInfoBytesLocked (metadataBytes s);
    if negb ok then _ ← invalidateMetadata; mret (Some ErrExtended) else mret None.

Definition metadataId (p : Peer) : Z := default 0 (PeerExtensionIDs (pExt p) !! ExtensionNameMetadata).

Definition MetadataExtensionRequestMsg (id piece : Z) : Message :=
  extendedMsg id (marshalMetadata (mkMetadataMsg piece 0 RequestMetadataExtensionMsgType)).

Definition newMetadataExtensionMessage (s : Swarm) (p : Peer) (msgType piece : Z) (data : list Z) : Message :=
  extendedMsg (metadataId p)
    (marshalMetadata (mkMetadataMsg piece (Z.of_nat (length (metadataBytes s))) msgType) ++ data).

Definition requestedMetadataPiece (c : nat) (index : Z) : act bool :=
  p ← peer c;
  if index <? Z.of_nat (length (metadataRequests (pExt p))) then at_ (metadataRequests (pExt p)) index
  else mret false.

Definition requestMetadataPiece (c : nat) (index : Z) : act unit :=
  p ← peer c;
  if metadataId p =? 0 then mret tt
  else
    b ← requestedMetadataPiece c index;
    if b : bool then mret tt
    else
      _ ← write c (MetadataExtensionRequestMsg (metadataId p) index);
      on_ext c (λ x,
        let l := metadataRequests x in
        let l := l ++ replicate (Z.to_nat (index + 1) - length l) false in
        set_metadataRequests (<[Z.to_nat index := true]> l) x).

(** The pieces that are neither there nor requested. *)
Fixpoint pendingMetadata (c : nat) (l : list Z) : act (list Z) :=
  match l with
  | [] => mret []
  | i :: l =>
      h ← haveMetadataPiece i;
      r ← (if h : bool then mret true else requestedMetadataPiece c i);
      rest ← pendingMetadata c l;
      mret (if r : bool then rest else i :: rest)
  end.

Definition requestPendingMetadata (c : nat) : act unit :=
  s ← gets (λ s, s);
  p ← peer c;
  if haveInfo s then mret tt
  else if metadataId p =? 0 then mret tt
  else
    pending ← pendingMetadata c (seqZ 0 (metadataPieceCount s));
    forEach (shuffle pending) (requestMetadataPiece c).

(** [false] is the error "bad size"; [make] panics on a negative length. *)
Definition setMetadataSize (size : Z) : act bool :=
  s ← gets (λ s, s);
  if haveInfo s then mret true
  else if maxMetadataSize <? u32 size then mret false
  else if Z.of_nat (length (metadataBytes s)) =? size then mret true
  else
    _ ← assert_go (0 <=? size) "makeslice: len out of range";
    _ ← modify (λ s, set_metadataCompletedChunks
          (Some (replicate (Z.to_nat (Z.quot (i64 (size + 2 ^ 14 - 1)) (2 ^ 14))) false))
          (set_metadataBytes (replicate (Z.to_nat size) 0) s));
    _ ← iterPeers mapOrder requestPendingMetadata;
    mret true.

Definition gotMetadataExtensionMsg (c : nat) (payload : list Z) : act (option MsgErr) :=
  match decodeMetadata payload with
  | None => mret (Some ErrExtended)
  | Some d =>
      let piece := mmPiece d in
      if mmType d =? DataMetadataExtensionMsgType then
        _ ← allStats c (λ cs, set_MetadataChunksRead (i64 (MetadataChunksRead cs + 1)) cs);
        b ← requestedMetadataPiece c piece;
        if negb b then mret (Some ErrExtended)
        else
          _ ← on_ext c (λ x, set_metadataRequests (<[Z.to_nat piece := false]> (metadataRequests x)) x);
          let len := Z.of_nat (length payload) in
          let begin := i64 (len - PieceSize d) in
          if (begin <? 0) || (len <=? begin) then mret (Some ErrExtended)
          else
            _ ← saveMetadataPiece piece (drop (Z.to_nat begin) payload);
            t ← gets clock;
            _ ← on_ctl c (set_lastUsefulChunkReceived (Some t));
            maybeCompleteMetadata
      else if mmType d =? RequestMetadataExtensionMsgType then
        h ← haveMetadataPiece piece;
        s ← gets (λ s, s);
        p ← peer c;
        if negb h then
          _ ← write c (newMetadataExtensionMessage s p RejectMetadataExtensionMsgType piece []);
          mret None
        else
          let start := i64 (2 ^ 14 * piece) in
          data ← sliceOf (metadataBytes s) start
                   (i64 (start + metadataPieceSize (Z.of_nat (length (metadataBytes s))) piece));
          _ ← write c (newMetadataExtensionMessage s p DataMetadataExtensionMsgType piece data);
          mret None
      else if mmType d =? RejectMetadataExtensionMsgType then mret None
      else mret (Some ErrExtended)
  end.

(** "-SD0100-" and "-XL0012-". *)
Definition usesOwnIds (p : Peer) : bool :=
  bool_decide (take 8 (PeerID (pStatic p)) = [45; 83; 68; 48; 49; 48; 48; 45]) ||
  bool_decide (take 8 (PeerID (pStatic p)) = [45; 88; 76; 48; 48; 49; 50; 45]).

Definition onExtendedHandshake (c : nat) (d : ExtendedHandshakeMessage) : act (option MsgErr) :=
  _ ← when (negb (ehReqq d =? 0)) (on_ctl c (set_PeerMaxRequests (ehReqq d)));
  _ ← on_ext c (λ x, set_PeerExtensionIDs (foldl (λ m q, <[q.1 := q.2]> m) (PeerExtensionIDs x) (ehM d)) x);
  ok ← (if negb (ehMetadataSize d =? 0) then setMetadataSize (ehMetadataSize d) else mret true);
  if negb ok then mret (Some ErrExtended)
  else _ ← requestPendingMetadata c; mret None.

Definition onReadExtendedMsg (c : nat) (id : Z) (payload : list Z) : act (option MsgErr) :=
  p ← peer c;
  err ← (if id =? HandshakeExtendedID then
           match decodeHandshake payload with
           | None => mret (Some ErrExtended)
           | Some d => onExtendedHandshake c d
           end
         else if id =? metadataExtendedId then gotMetadataExtensionMsg c payload
         else if id =? pexExtendedId then mret (pexRecv c payload)
         else mret (Some ErrExtended));
  mret (if usesOwnIds p then None else err).

(** ** The requests stay consistent *)
Lemma setInfo_idle inf n o : Keeps idle req_safe (setInfo inf n o).
Proof.
  assert (Hset : ∀ g l, Keeps idle req_safe (modify (λ s, set_geo (Some g) (set_pieces l s)))).
  { intros g l s [[Ho Hk Hn Hd Hv Hco Hi0] He]. split; [by split|done]. }
  unfold setInfo. repeat keeps_step ltac:(solve [apply Hset | apply idle_frame; frame]).
Qed.

Lemma setInfoBytesLocked_idle b : Keeps idle req_safe (setInfoBytesLocked b).
Proof.
  unfold setInfoBytesLocked. pose proof setInfo_idle. pose proof onSetInfo_idle.
  repeat keeps_step ltac:(solve [apply idle_frame; frame | auto]).
Qed.

Lemma invalidateMetadata_idle : Keeps idle req_safe invalidateMetadata.
Proof. intros s [[Ho Hk Hn Hd Hv Hco Hi0] He]. split; [by split|done]. Qed.

Lemma req_ok_idle s : req_ok s → haveInfo s = false → idle s.
Proof. intros Hok Hi. split; [done|]. by apply (ro_info _ _ Hok). Qed.

(** Without an info there are no requests, so it may be set. *)
Lemma whenNoInfo_keeps {A} (a : A) (m : act A) :
  Keeps idle req_safe m → RKeeps (s ← gets (λ s, s); if haveInfo s then mret a else m).
Proof.
  intros Hm s Hok. apply wp_bind, wp_gets. destruct (haveInfo s) eqn:Hi; [by apply wp_ret|].
  eapply wp_mono; [by apply Hm, req_ok_idle|]. cbv beta. by intros ? ? [? _].
Qed.

Lemma setInfoBytesLocked_keeps b : RKeeps (setInfoBytesLocked b).
Proof.
  unfold setInfoBytesLocked. destruct (negb (hashOk b)); [apply keeps_ret|].
  destruct (parseInfo b) as [inf|]; [|apply keeps_ret].
  apply keeps_bind; [apply rframe_keeps; frame|]. intros _. apply whenNoInfo_keeps.
  pose proof setInfo_idle. pose proof onSetInfo_idle.
  repeat keeps_step ltac:(solve [apply idle_frame; frame | auto]).
Qed.

Lemma maybeCompleteMetadata_keeps : RKeeps maybeCompleteMetadata.
Proof.
  intros s Hok. unfold maybeCompleteMetadata. apply wp_bind, wp_gets.
  destruct (haveInfo s) eqn:Hi; [by apply wp_ret|]. destruct (negb (haveAllMetadataPieces s)); [by apply wp_ret|].
  apply wp_bind. eapply wp_mono; [by apply setInfoBytesLocked_idle, req_ok_idle|]. cbv beta.
  intros ok s1 Hs1. destruct (negb ok); [|apply wp_ret; by destruct Hs1]. apply wp_bind.
  eapply wp_mono; [by apply invalidateMetadata_idle|]. cbv beta. intros _ s2 [Hs2 _]. by apply wp_ret.
Qed.

Lemma rframe_at {A} (l : list A) i : RFrame (at_ l i).
Proof. unfold at_. frame. Qed.
Lemma rframe_copyInto {A} (l : list A) i d : RFrame (copyInto l i d).
Proof. unfold copyInto. frame. Qed.
Lemma rframe_sliceOf {A} (l : list A) i j : RFrame (sliceOf l i j).
Proof. unfold sliceOf. frame. Qed.
#[local] Hint Resolve rframe_at rframe_copyInto rframe_sliceOf : frame.
Lemma rframe_haveMetadataPiece i : RFrame (haveMetadataPiece i).
Proof. unfold haveMetadataPiece. frame. Qed.
Lemma rframe_requestedMetadataPiece c i : RFrame (requestedMetadataPiece c i).
Proof. unfold requestedMetadataPiece. frame. Qed.
#[local] Hint Resolve rframe_haveMetadataPiece rframe_requestedMetadataPiece : frame.
Lemma rframe_saveMetadataPiece i d : RFrame (saveMetadataPiece i d).
Proof. unfold saveMetadataPiece. frame. Qed.
Lemma rframe_requestMetadataPiece c i : RFrame (requestMetadataPiece c i).
Proof. unfold requestMetadataPiece. frame. Qed.
Lemma rframe_pendingMetadata c l : RFrame (pendingMetadata c l).
Proof. induction l; cbn [pendingMetadata]; frame. Qed.
#[local] Hint Resolve rframe_saveMetadataPiece rframe_requestMetadataPiece rframe_pendingMetadata : frame.
Lemma rframe_requestPendingMetadata c : RFrame (requestPendingMetadata c).
Proof. unfold requestPendingMetadata. frame. Qed.
#[local] Hint Resolve rframe_requestPendingMetadata : frame.
Lemma rframe_setMetadataSize n : RFrame (setMetadataSize n).
Proof. unfold setMetadataSize. frame. Qed.
#[local] Hint Resolve rframe_setMetadataSize : frame.

Lemma onReadExtendedMsg_keeps c id payload : RKeeps (onReadExtendedMsg c id payload).
Proof.
  unfold onReadExtendedMsg, onExtendedHandshake, gotMetadataExtensionMsg.
  pose proof maybeCompleteMetadata_keeps. repeat keeps_step ltac:(solve [apply rframe_keeps; frame | auto]).
Qed.

(** ** Downloading the metadata *)
Definition metaCount (n : nat) : Z := (Z.of_nat n + 2 ^ 14 - 1) / 2 ^ 14.

(** What is announced and present of [md]. *)
Record assembling (md : list Z) (s : Swarm) : Prop := {
  as_noinfo : geo s = None;
  as_known : conns s ⊆ dom (peers s);
  as_size : length (metadataBytes s) = length md;
  as_chunks : ∃ l, metadataCompletedChunks s = Some l ∧ Z.of_nat (length l) = metaCount (length md) ∧
    ∀ k, l !! (k / 2 ^ 14)%nat = Some true → metadataBytes s !! k = md !! k
}.

Lemma metaCount_small (md : list Z) : Z.of_nat (length md) ≤ maxMetadataSize → 0 ≤ metaCount (length md) ≤ 1024.
Proof.
  unfold metaCount, maxMetadataSize. intros H. split; [apply Z.div_pos; lia|].
  apply Z.lt_succ_r, Z.div_lt_upper_bound; lia.
Qed.

Lemma copyInto_spec {A} (dst src : list A) (from : Z) s :
  0 ≤ from ≤ Z.of_nat (length dst) →
  wp never (copyInto dst from src) (λ r s', s' = s ∧ length r = length dst ∧
    ∀ x, (x < length dst)%nat → r !! x = if decide (Z.to_nat from ≤ x < Z.to_nat from + length src)%nat
                                  then src !! (x - Z.to_nat from)%nat else dst !! x) s.
Proof.
  intros H. unfold copyInto. rewrite (proj2 (Z.leb_le _ _)), (proj2 (Z.leb_le _ _)) by lia. apply wp_ret.
  split; [done|]. split; [rewrite !length_app, !length_take, length_drop; lia|]. intros x Hx.
  case_decide as Hd.
  - rewrite lookup_app_r by (rewrite length_take; lia). rewrite length_take, Nat.min_l by lia.
    rewrite lookup_app_l by (rewrite length_take; lia). by rewrite lookup_take_lt by lia.
  - destruct (decide (x < Z.to_nat from)%nat).
    + rewrite lookup_app_l by (rewrite length_take; lia). by rewrite lookup_take_lt by lia.
    + rewrite !lookup_app_r by (rewrite !length_take; lia). rewrite lookup_drop, !length_take. f_equal. lia.
Qed.

Definition mdPiece (md : list Z) (j : Z) : list Z := take (Z.to_nat (2 ^ 14)) (drop (Z.to_nat (2 ^ 14 * j)) md).

Definition completed (s : Swarm) (i : nat) : Prop := ∃ l, metadataCompletedChunks s = Some l ∧ l !! i = Some true.

Lemma at_ok {A} (l : list A) i s : 0 ≤ i < Z.of_nat (length l) → wp never (at_ l i) (λ x s', s' = s ∧ l !! Z.to_nat i = Some x) s.
Proof.
  intros Hi. unfold at_. rewrite (proj2 (Z.leb_le 0 i)) by lia.
  destruct (l !! Z.to_nat i) as [x|] eqn:E; [by apply wp_ret|]. apply lookup_ge_None in E. lia.
Qed.

Lemma saveMetadataPiece_assembling md j s :
  assembling md s → Z.of_nat (length md) ≤ maxMetadataSize → 0 ≤ j < metaCount (length md) →
  wp never (saveMetadataPiece j (mdPiece md j)) (λ _ s', assembling md s' ∧ completed s' (Z.to_nat j) ∧
    ∀ i, completed s i → completed s' i) s.
Proof.
  intros [Hg Hk Hs (l & Hl & Hlen & Hdata)] Hmax Hj. pose proof (metaCount_small md Hmax).
  assert (Hfrom : 0 ≤ 2 ^ 14 * j ≤ Z.of_nat (length (metadataBytes s))).
  { rewrite Hs. unfold metaCount in Hj. pose proof (proj1 (lt_ceil_iff (Z.of_nat (length md)) (2 ^ 14) j ltac:(lia)) (proj2 Hj)). lia. }
  unfold saveMetadataPiece, haveInfo. apply wp_bind, wp_gets. rewrite Hg.
  unfold lenChunks. rewrite Hl, (proj2 (Z.leb_gt _ _)) by lia. rewrite i64_small by lia.
  apply wp_bind. eapply wp_mono; [by apply copyInto_spec|]. cbv beta. intros r s1 (-> & Hr & Hx).
  apply wp_bind, wp_modify, wp_bind. eapply wp_mono; [apply at_ok; cbn; lia|]. cbv beta. intros b s2 [-> _].
  apply wp_modify. unfold completed. cbn. rewrite Hl. cbn.
  assert (Hjl : (Z.to_nat j < length l)%nat) by lia. split_and!.
  - split; [done|done|by rewrite <- Hs|]. cbn. exists (<[Z.to_nat j := true]> l).
    split; [done|]. rewrite length_insert. split; [done|]. intros k Hkt.
    destruct (decide (k < length md)%nat) as [Hlt|Hge].
    2: { rewrite !(proj2 (lookup_ge_None _ _)); [done|lia|lia]. }
    rewrite Hx by lia. unfold mdPiece. rewrite length_take, length_drop.
    assert (Hdiv : (2 ^ 14 * (k / 2 ^ 14) ≤ k < 2 ^ 14 * (k / 2 ^ 14) + 2 ^ 14)%nat).
    { pose proof (Nat.div_mod_eq k (2 ^ 14)). pose proof (Nat.mod_upper_bound k (2 ^ 14) ltac:(by vm_compute)). lia. }
    assert (E14 : Z.to_nat (2 ^ 14) = (2 ^ 14)%nat) by (vm_compute; reflexivity).
    assert (Ej : Z.to_nat (2 ^ 14 * j) = (2 ^ 14 * Z.to_nat j)%nat) by (rewrite Z2Nat.inj_mul, E14 by lia; done).
    rewrite E14, Ej. clear E14. destruct (decide (k / 2 ^ 14 = Z.to_nat j)%nat) as [Heq|Hne].
    + rewrite decide_True by lia. rewrite lookup_take_lt, lookup_drop by lia. f_equal. lia.
    + rewrite list_lookup_insert_ne in Hkt by done. rewrite decide_False; [by apply Hdata|].
      intros Hin. apply Hne. symmetry. apply (Nat.div_unique k (2 ^ 14) (Z.to_nat j) (k - 2 ^ 14 * Z.to_nat j)); lia.
  - eexists. split; [done|]. by apply list_lookup_insert_eq.
  - intros i (l' & [= <-] & Hi). eexists. split; [done|].
    destruct (decide (i = Z.to_nat j)) as [->|]; [by apply list_lookup_insert_eq|by rewrite list_lookup_insert_ne].
Qed.

(** What requesting pieces leaves alone. *)
Definition metaView (s : Swarm) : option Geo * gset nat * gset nat * list Z * option (list bool) :=
  (geo s, conns s, dom (peers s), metadataBytes s, metadataCompletedChunks s).

Lemma assembling_view md s s' : metaView s' = metaView s → assembling md s → assembling md s'.
Proof. intros [= H1 H2 H3 H4 H5] [Hg Hk Hs Hl]. split; rewrite ?H1, ?H2, ?H3, ?H4, ?H5; done. Qed.

Lemma modify_peer_view c f s : metaView (set_peers (alter f c (peers s)) s) = metaView s.
Proof. unfold metaView. cbn. by rewrite dom_alter_L. Qed.

Lemma write_view c m s :
  c ∈ dom (peers s) → (MarshalBinary m).2 = true → wp never (write c m) (λ _ s', metaView s' = metaView s) s.
Proof.
  intros [p Hp]%elem_of_dom Hm. unfold write. rewrite Hm. apply wp_bind, wp_ret, wp_bind, wp_modify, wp_bind.
  eapply wp_ok; [unfold peer; cbn; by rewrite lookup_alter_eq, Hp|]. unfold allStats.
  apply wp_bind, wp_bind, wp_modify, wp_modify, wp_ret. unfold metaView.
  cbn [geo conns peers metadataBytes metadataCompletedChunks set_peers set_clstats set_tstats].
  by rewrite !dom_alter_L.
Qed.

Lemma metaView_peer s s' c : metaView s' = metaView s → c ∈ dom (peers s) → c ∈ dom (peers s').
Proof. intros [= _ _ -> _ _]. done. Qed.

Lemma requestedMetadataPiece_ok c i s :
  c ∈ dom (peers s) → 0 ≤ i → wp never (requestedMetadataPiece c i) (λ _ s', s' = s) s.
Proof.
  intros [p Hp]%elem_of_dom Hi. unfold requestedMetadataPiece. apply wp_bind.
  eapply wp_ok; [unfold peer; by rewrite Hp|]. cbn. destruct (Z.ltb_spec i (Z.of_nat (length (metadataRequests (pExt p))))).
  - eapply wp_mono; [by apply at_ok|]. by intros b s' [-> _].
  - by apply wp_ret.
Qed.

Lemma requestMetadataPiece_ok c i s :
  c ∈ dom (peers s) → 0 ≤ i → wp never (requestMetadataPiece c i) (λ _ s', metaView s' = metaView s) s.
Proof.
  intros Hc Hi. unfold requestMetadataPiece. apply wp_bind. pose proof Hc as [p Hp]%elem_of_dom.
  eapply wp_ok; [unfold peer; by rewrite Hp|]. cbn. destruct (metadataId p =? 0); [by apply wp_ret|].
  apply wp_bind. eapply wp_mono; [by apply requestedMetadataPiece_ok|]. cbv beta. intros b s1 ->.
  destruct b; [by apply wp_ret|]. apply wp_bind. eapply wp_mono; [by apply write_view|]. cbv beta.
  intros _ s2 Hs2. apply wp_modify. by rewrite modify_peer_view.
Qed.

Lemma pendingMetadata_ok md c l : ∀ s,
  assembling md s → c ∈ dom (peers s) → Forall (λ i, 0 ≤ i) l →
  wp never (pendingMetadata c l) (λ r s', s' = s ∧ Forall (λ i, 0 ≤ i) r) s.
Proof.
  induction l as [|i l IH]; intros s Hs Hc Hl; cbn [pendingMetadata]; [by apply wp_ret|].
  inversion Hl; subst. apply wp_bind. eapply (wp_mono _ _ (λ _ s', s' = s)).
  - destruct Hs as [Hg _ _ (l' & Hl' & _)]. unfold haveMetadataPiece, haveInfo, lenChunks. apply wp_bind, wp_gets.
    rewrite Hg, Hl'. destruct (Z.ltb_spec i (Z.of_nat (length l'))); [|by apply wp_ret]. cbn.
    eapply wp_mono; [by apply at_ok|]. by intros b s' [-> _].
  - cbv beta. intros h s1 ->. apply wp_bind. eapply (wp_mono _ _ (λ _ s', s' = s)).
    + destruct h; [by apply wp_ret|by apply requestedMetadataPiece_ok].
    + cbv beta. intros r s1 ->. apply wp_bind. eapply wp_mono; [by apply IH|]. cbv beta.
      intros rest s1 [-> Hrest]. apply wp_ret. split; [done|]. destruct r; [done|by constructor].
Qed.

Context (shuffle_perm : ∀ l, shuffle l ≡ₚ l).

Lemma requestPendingMetadata_ok md c s :
  assembling md s → c ∈ dom (peers s) →
  wp never (requestPendingMetadata c) (λ _ s', metaView s' = metaView s) s.
Proof.
  intros Hs Hc. unfold requestPendingMetadata. apply wp_bind, wp_gets, wp_bind. pose proof Hc as [p Hp]%elem_of_dom.
  eapply wp_ok; [unfold peer; by rewrite Hp|]. cbn. destruct (haveInfo s); [by apply wp_ret|].
  destruct (metadataId p =? 0); [by apply wp_ret|]. apply wp_bind.
  eapply wp_mono; [apply (pendingMetadata_ok md); [done|done|]|].
  { apply Forall_forall. intros i Hi. apply list_elem_of_In, in_seqZ in Hi. lia. }
  cbv beta. intros r s1 [-> Hr].
  apply (wp_forEach _ (λ s', metaView s' = metaView s)); [done|]. intros i s2 Hi Hs2.
  eapply wp_mono; [apply requestMetadataPiece_ok; [by eapply metaView_peer|]|].
  - rewrite shuffle_perm in Hi. by apply (proj1 (Forall_forall _ _) Hr).
  - cbv beta. intros _ s3 Hs3. congruence.
Qed.

Lemma setMetadataSize_assembling md s :
  geo s = None → conns s ⊆ dom (peers s) →
  0 < Z.of_nat (length md) ≤ maxMetadataSize → length (metadataBytes s) ≠ length md →
  wp never (setMetadataSize (Z.of_nat (length md))) (λ ok s', ok = true ∧ assembling md s' ∧
    haveAllMetadataPieces s' = false) s.
Proof.
  intros Hg Hk Hlen Hne. unfold setMetadataSize, haveInfo. apply wp_bind, wp_gets. rewrite Hg.
  assert (Hmax : maxMetadataSize = 16777216) by reflexivity.
  rewrite u32_small by lia. rewrite (proj2 (Z.ltb_ge _ _)) by lia.
  rewrite (proj2 (Z.eqb_neq _ _)) by lia. rewrite (proj2 (Z.leb_le _ _)) by lia.
  apply wp_bind, wp_ret, wp_bind, wp_modify, wp_bind. rewrite i64_small, Z.quot_div_nonneg by lia. set (s1 := set_metadataCompletedChunks _ _).
  pose proof (metaCount_small md (proj2 Hlen)) as Hcnt.
  assert (Hpos : 0 < metaCount (length md)) by (unfold metaCount; apply Z.div_str_pos; lia).
  assert (Hs1 : assembling md s1 ∧ haveAllMetadataPieces s1 = false).
  { split.
    - split; [done|done|cbn; rewrite length_replicate; lia|]. eexists. split; [reflexivity|].
      rewrite length_replicate. split; [fold (metaCount (length md)); lia|].
      intros k Hkt. by apply lookup_replicate_1 in Hkt as [? _].
    - unfold haveAllMetadataPieces, haveInfo, s1. cbn -[Z.div]. rewrite Hg. fold (metaCount (length md)).
      by destruct (Z.to_nat (metaCount (length md))) eqn:E; [lia|]. }
  clearbody s1. destruct Hs1 as [Hs1 Hall].
  eapply (wp_mono _ _ (λ _ s', metaView s' = metaView s1)).
  - apply wp_bind, wp_gets. apply wp_forEach; [done|]. intros c s2 Hc Hs2. apply wp_bind, wp_gets.
    case_bool_decide as Hin; [|by apply wp_ret].
    eapply wp_mono; [apply (requestPendingMetadata_ok md); [by eapply assembling_view|]|].
    + by apply (as_known md s2 (assembling_view md s1 s2 Hs2 Hs1)).
    + cbv beta. intros _ s3 Hs3. congruence.
  - cbv beta. intros _ s2 Hs2. apply wp_ret. split_and!; [done|by eapply assembling_view|].
    unfold haveAllMetadataPieces, haveInfo in *. injection Hs2 as -> _ _ _ ->. done.
Qed.

Lemma saveAll_assembling md js : ∀ s,
  assembling md s → Z.of_nat (length md) ≤ maxMetadataSize → Forall (λ j, 0 ≤ j < metaCount (length md)) js →
  wp never (forEach js (λ j, saveMetadataPiece j (mdPiece md j))) (λ _ s', assembling md s' ∧
    (∀ j, j ∈ js → completed s' (Z.to_nat j)) ∧ ∀ i, completed s i → completed s' i) s.
Proof.
  induction js as [|j js IH]; intros s Hs Hmax Hjs; cbn [forEach].
  - apply wp_ret. split_and!; [done| |done]. by intros j ?%elem_of_nil.
  - inversion Hjs; subst. apply wp_bind. eapply wp_mono; [by apply saveMetadataPiece_assembling|].
    cbv beta. intros _ s1 (Hs1 & Hj1 & Hmono1). eapply wp_mono; [by apply IH|]. cbv beta.
    intros _ s2 (Hs2 & Hj2 & Hmono2). split_and!; [done| |by auto].
    intros i [->|Hi]%elem_of_cons; auto.
Qed.

Lemma assembled_all md s :
  assembling md s → (∀ j, 0 ≤ j < metaCount (length md) → completed s (Z.to_nat j)) →
  metadataBytes s = md ∧ haveAllMetadataPieces s = true.
Proof.
  intros [Hg _ Hs (l & Hl & Hlen & Hdata)] Hall.
  assert (Htrue : ∀ i, (i < length l)%nat → l !! i = Some true).
  { intros i Hi. destruct (Hall (Z.of_nat i)) as (l' & Hl' & Hi'); [lia|].
    rewrite Nat2Z.id in Hi'. by rewrite Hl in Hl'; injection Hl' as <-. }
  split.
  - apply list_eq. intros k. destruct (decide (k < length md)%nat) as [Hk|Hk].
    + apply Hdata, Htrue. apply Nat2Z.inj_lt. rewrite Hlen, Nat2Z.inj_div. unfold metaCount.
      change (Z.of_nat (2 ^ 14)) with (2 ^ 14). apply lt_ceil_iff; [lia|].
      pose proof (Z.mul_div_le (Z.of_nat k) (2 ^ 14) ltac:(lia)). lia.
    + rewrite !(proj2 (lookup_ge_None _ _)); [done|lia|lia].
  - unfold haveAllMetadataPieces, haveInfo. rewrite Hg, Hl. apply forallb_forall. intros b Hb.
    apply list_elem_of_In, list_elem_of_lookup in Hb as [i Hi].
    rewrite Htrue in Hi by (by apply lookup_lt_Some in Hi). by injection Hi as <-.
Qed.

(** C10. Metadata of an accepted size is assembled from its pieces: once its
    size was announced and every piece was saved, in any order and possibly
    several times, the metadata is complete and equals what was sent; before
    the first piece it is not complete.  Nothing panics on the way. *)
Theorem metadata_assembled md js s :
  geo s = None → conns s ⊆ dom (peers s) → 0 < Z.of_nat (length md) ≤ maxMetadataSize →
  length (metadataBytes s) ≠ length md →
  Forall (λ j, 0 ≤ j < metaCount (length md)) js → (∀ j, 0 ≤ j < metaCount (length md) → j ∈ js) →
  ∃ s1 s2, setMetadataSize (Z.of_nat (length md)) s = Ok (true, s1) ∧ haveAllMetadataPieces s1 = false ∧
    forEach js (λ j, saveMetadataPiece j (mdPiece md j)) s1 = Ok (tt, s2) ∧
    metadataBytes s2 = md ∧ haveAllMetadataPieces s2 = true.
Proof.
  intros Hg Hk Hlen Hne Hjs Hall.
  destruct (never_ok _ _ _ (setMetadataSize_assembling md s Hg Hk Hlen Hne)) as (ok & s1 & E1 & -> & Hs1 & Hn1).
  destruct (never_ok _ _ _ (saveAll_assembling md js s1 Hs1 (proj2 Hlen) Hjs)) as ([] & s2 & E2 & Hs2 & Hj2 & _).
  exists s1, s2. split_and!; try done; apply (assembled_all md s2 Hs2); auto.
Qed.

(** Metadata that is complete but has the wrong hash, or does not parse
    as an info, is discarded: the last sender gets an error, no piece counts
    as present any more and there is still no info. *)
Theorem wrong_metadata_discarded s l :
  geo s = None → metadataCompletedChunks s = Some l → forallb id l = true →
  hashOk (metadataBytes s) = false ∨ parseInfo (metadataBytes s) = None →
  maybeCompleteMetadata s =
    Ok (Some ErrExtended, set_geo None (set_metadataCompletedChunks (Some (map (λ _, false) l)) s)).
Proof.
  intros Hg Hl Hall Hbad. unfold maybeCompleteMetadata, mbind, act_bind, gets, haveAllMetadataPieces, haveInfo.
  rewrite Hg, Hl, Hall. cbn. unfold setInfoBytesLocked.
  destruct Hbad as [-> | ->]; cbn; [by rewrite Hl|]. destruct (hashOk (metadataBytes s)); cbn; by rewrite Hl.
Qed.

(** A metadata message for a negative piece ends the process: a data
    message is an index out of range, as is a request unless there is an
    info, and then the slice of the metadata is out of range. *)
Theorem negative_metadata_piece_panics c payload d p s :
  peers s !! c = Some p → decodeMetadata payload = Some d → - 2 ^ 49 < mmPiece d < 0 →
  mmType d = DataMetadataExtensionMsgType ∨ mmType d = RequestMetadataExtensionMsgType →
  ∃ w, gotMetadataExtensionMsg c payload s = Panic w.
Proof.
  intros Hp Hd Hneg Ht. unfold gotMetadataExtensionMsg. rewrite Hd. destruct Ht as [Ht|Ht]; rewrite Ht.
  - eexists. eapply bind_run; [reflexivity|]. apply bind_panics. eapply bind_run.
    { apply peer_run. cbn. by rewrite lookup_alter_eq, Hp. }
    cbn [pExt set_stats]. rewrite (proj2 (Z.ltb_lt _ _)) by lia.
    unfold at_. rewrite (proj2 (Z.leb_gt _ _)) by lia. reflexivity.
  - change (RequestMetadataExtensionMsgType =? DataMetadataExtensionMsgType) with false. cbv iota.
    change (RequestMetadataExtensionMsgType =? RequestMetadataExtensionMsgType) with true. cbv iota.
    destruct (geo s) eqn:Hg; eexists.
    + eapply bind_run; [eapply bind_run; [reflexivity|]; cbv beta; unfold haveInfo; rewrite Hg; reflexivity|].
      rewrite i64_small, (proj2 (Z.ltb_lt _ _)) by lia. eapply bind_run; [reflexivity|].
      eapply bind_run; [by apply peer_run|]. cbn [negb]. apply bind_panics.
      unfold sliceOf. rewrite (proj2 (Z.leb_gt _ _)) by lia. reflexivity.
    + apply bind_panics. eapply bind_run; [reflexivity|]. cbv beta. unfold haveInfo, lenChunks. rewrite Hg.
      rewrite (proj2 (Z.ltb_lt _ _)) by (destruct (metadataCompletedChunks s); lia).
      unfold at_. rewrite (proj2 (Z.leb_gt _ _)) by lia. reflexivity.
Qed.

(** The limit on the announced size is checked modulo 2^32: before the
    info is known, a negative size that is small modulo 2^32 panics, and a
    size of any multiple of 2^32 is allocated. *)
Theorem setMetadataSize_wraps k s :
  geo s = None → conns s = ∅ → 0 < k < 2 ^ 20 →
  setMetadataSize (- (k * 2 ^ 32)) s = Panic "makeslice: len out of range" ∧
  (Z.of_nat (length (metadataBytes s)) ≠ k * 2 ^ 32 →
   ∃ s', setMetadataSize (k * 2 ^ 32) s = Ok (true, s') ∧ Z.of_nat (length (metadataBytes s')) = k * 2 ^ 32).
Proof.
  intros Hg Hc Hk. assert (Hu : ∀ j, u32 (j * 2 ^ 32) = 0) by (intros j; apply Z.mod_mul; lia).
  unfold setMetadataSize. rewrite <- Z.mul_opp_l. split.
  - eapply bind_run; [reflexivity|]. cbv beta. unfold haveInfo. rewrite Hg, Hu.
    change (maxMetadataSize <? 0) with false. rewrite (proj2 (Z.eqb_neq _ _)) by lia. apply bind_panics.
    rewrite (proj2 (Z.leb_gt _ _)) by lia. reflexivity.
  - intros Hne. set (s1 := set_metadataCompletedChunks
      (Some (replicate (Z.to_nat (Z.quot (i64 (k * 2 ^ 32 + 2 ^ 14 - 1)) (2 ^ 14))) false))
      (set_metadataBytes (replicate (Z.to_nat (k * 2 ^ 32)) 0) s)).
    assert (Hit : wp never (iterPeers mapOrder requestPendingMetadata) (λ _ s', s' = s1) s1).
    { apply wp_bind, wp_gets, wp_forEach; [done|]. intros c s2 _ ->. apply wp_bind, wp_gets.
      rewrite bool_decide_eq_false_2; [by apply wp_ret|]. change (conns s1) with (conns s). rewrite Hc. apply not_elem_of_empty. }
    apply never_ok in Hit as ([] & s2 & Hit & ->). exists s1. split.
    + eapply bind_run; [reflexivity|]. cbv beta. unfold haveInfo. rewrite Hg, Hu.
      change (maxMetadataSize <? 0) with false. rewrite (proj2 (Z.eqb_neq _ _)), (proj2 (Z.leb_le _ _)) by lia.
      eapply bind_run; [reflexivity|]. eapply bind_run; [reflexivity|]. by eapply bind_run.
    + unfold s1. cbn [metadataBytes set_metadataCompletedChunks set_metadataBytes]. rewrite length_replicate. lia.
Qed.
End Metadata.

(** ** Concrete instances *)
Definition metaTorrent : Swarm :=
  set_conns {[0%nat]}
    (set_peers {[0%nat := set_pExt (mkExtSide {[ExtensionNameMetadata := 3]} [])
                            (newConnection (mkPeerStatic [1] true false None None false) 100)]}
       (newTorrentOpt (mkConfig true false false true false None) (λ _, (false, true)) 0)).

Definition exMd : list Z := replicate 100 7.

(** Announcing the size of small metadata requests its only piece. *)
Lemma metadata_assembled_witness :
  ∃ s1 s2, setMetadataSize elements (λ _, [1]) id 100 metaTorrent = Ok (true, s1) ∧ haveAllMetadataPieces s1 = false ∧
    forEach [0; 0] (λ j, saveMetadataPiece j (mdPiece exMd j)) s1 = Ok (tt, s2) ∧
    metadataBytes s2 = exMd ∧ haveAllMetadataPieces s2 = true.
Proof.
  apply (metadata_assembled elements (λ _, [1]) id (λ l, reflexivity l) exMd [0; 0] metaTorrent).
  - reflexivity.
  - vm_compute. set_solver.
  - vm_compute. split; congruence.
  - vm_compute. congruence.
  - repeat constructor; vm_compute; congruence.
  - change (metaCount (length exMd)) with 1. intros j Hj. replace j with 0 by lia. by left.
Defined.

Definition metaComplete : Swarm :=
  set_metadataCompletedChunks (Some [true]) (set_metadataBytes exMd metaTorrent).

Lemma wrong_metadata_discarded_witness :
  maybeCompleteMetadata elements (λ _, false) (λ _, None) 16384 None true metaComplete =
    Ok (Some ErrExtended, set_geo None (set_metadataCompletedChunks (Some [false]) metaComplete)).
Proof. apply (wrong_metadata_discarded elements (λ _, false) (λ _, None) 16384 None true metaComplete [true]); auto. Defined.

Lemma negative_metadata_piece_panics_witness :
  ∃ w, gotMetadataExtensionMsg elements (λ _, Some (mkMetadataMsg (-1) 0 0)) (λ _, []) (λ _, false) (λ _, None)
         16384 None true 0 [] metaTorrent = Panic w.
Proof.
  eapply (negative_metadata_piece_panics elements (λ _, Some (mkMetadataMsg (-1) 0 0)) (λ _, []) (λ _, false)
    (λ _, None) 16384 None true 0 [] (mkMetadataMsg (-1) 0 0) _ metaTorrent).
  - reflexivity.
  - reflexivity.
  - cbn. lia.
  - by right.
Defined.

Lemma setMetadataSize_wraps_witness :
  setMetadataSize elements (λ _, []) id (- (1 * 2 ^ 32)) (set_conns ∅ metaTorrent) = Panic "makeslice: len out of range".
Proof. apply (setMetadataSize_wraps elements (λ _, []) id 1 (set_conns ∅ metaTorrent)); [reflexivity|reflexivity|lia]. Defined.
