(* ===== verification/Requesting.v ===== *)
(** Deciding what to request from a peer: src/requesting.go and
    src/request-strategy-impls.go.

    [heapInit] and [heapPop] stand for github.com/lispad/go-generics-tools
    (binheap.FromSlice and Pop); what the code relies on is in [Heap].
    [pieceOrder] is the torrent's random permutation [pieceRequestOrder]. *)
From stdpp Require Import base numbers list strings gmap sorting.
From Stdlib Require Import ZArith Lia.
From S2P Require Import Prelude Wire Metainfo Geometry RequestStrategy OrderedBitmap AllocLim SmartBan SwarmState Swarm SwarmWp SwarmReq.
Open Scope Z_scope.

(** A heap keeps its elements in a slice. *)
Class Heap : Type := {
  heapInit : (Z → Z → bool) → list Z → list Z;
  heapPop : (Z → Z → bool) → list Z → option (Z * list Z);
  heapInit_perm less l : heapInit less l ≡ₚ l;
  heapPop_perm less l x l' : heapPop less l = Some (x, l') → l ≡ₚ x :: l';
  heapPop_none less l : heapPop less l = None ↔ l = []
}.

(** [desiredRequestState]. *)
Record desiredRequestState : Type := mkDesired {
  dRequests : list Z;                          (** [Requests.requestIndexes] *)
  dPieceStates : gmap Z PieceRequestOrderState;  (** the entries of [pieceStates] set in this run *)
  dInterested : bool
}.

Section Requesting.
Context (mapOrder : gset nat → list nat) (pieceOrder : Z → Z).
Context `{Multiless} {T : Type} {BT : BtreeSet item_cmp T} `{Heap}.
Context (infoHash : list Z).

(** ** Which requests are wanted first *)

(** Both requests are outstanding with other peers, or neither is: compare
    how much these have to do, then the times of the requests. *)
Definition compareRequesting (s : Swarm) (ml : Computation) (leftRequest rightRequest : Z) : go Computation :=
  match requestState s !! leftRequest, requestState s !! rightRequest with
  | None, _ => Ok ml
  | Some (l, leftLast), Some (r, rightLast) =>
      match peers s !! l, peers s !! r with
      | Some lp, Some rp =>
          Ok (ml_Cmp (ml_Int ml (Z.of_nat (length (Requests (pReq rp))))
                                (Z.of_nat (length (Requests (pReq lp)))))
                     (rightLast - leftLast))
      | _, _ => Panic "nil peer"
      end
  | Some _, None => Panic "nil peer"
  end.

Definition lessByValue (s : Swarm) (g : Geo) (c : nat) (p : Peer) (ps : gmap Z PieceRequestOrderState)
    (leftRequest rightRequest : Z) : go bool :=
  let leftPieceIndex := pieceIndexOfRequestIndex g leftRequest in
  let rightPieceIndex := pieceIndexOfRequestIndex g rightRequest in
  let ml := ml_New in
  let ml := if peerChoking (pCtl p)
            then ml_Bool ml (negb (bool_decide (leftPieceIndex ∈ peerAllowedFast (pCtl p))))
                            (negb (bool_decide (rightPieceIndex ∈ peerAllowedFast (pCtl p))))
            else ml in
  let leftPiece := default PState0 (ps !! leftPieceIndex) in
  let rightPiece := default PState0 (ps !! rightPieceIndex) in
  let ml := ml_Int ml (- Priority leftPiece) (- Priority rightPiece) in
  _ ← guard_go (ml_Ok ml || (Priority leftPiece =? Priority rightPiece)) "expected equal";
  if ml_Ok ml then Ok (ml_Less ml)
  else
    let leftPeer := requestingPeer s leftRequest in
    let rightPeer := requestingPeer s rightRequest in
    let ml := ml_Bool ml (bool_decide (rightPeer = Some c)) (bool_decide (leftPeer = Some c)) in
    let ml := ml_Bool ml (bool_decide (rightPeer = None)) (bool_decide (leftPeer = None)) in
    if ml_Ok ml then Ok (ml_Less ml)
    else
      ml ← compareRequesting s ml leftRequest rightRequest;
      let ml := ml_Int ml (Availability leftPiece) (Availability rightPiece) in
      let ml := if Priority leftPiece =? PiecePriorityReadahead
                then ml_Int ml leftPieceIndex rightPieceIndex
                else ml_Int ml (pieceOrder leftPieceIndex) (pieceOrder rightPieceIndex) in
      Ok (ml_Less ml).

(** ** What is wanted from a peer *)
Definition ignorePieceForRequests (s : Swarm) (i : Z) : bool := negb (wantPieceIndex s i).

(** [requestStrategyTorrent.IgnorePiece]. *)
Definition Torrent_IgnorePiece (s : Swarm) (g : Geo) (i : Z) : bool :=
  if ignorePieceForRequests s i then true else pieceNumPendingChunks s g i =? 0.

(** The members of the bitmap are delivered in ascending order. *)
Definition iterUndirtiedRequestIndexesInPiece {S : Type} (s : Swarm) (g : Geo) (i : Z) (f : S → Z → S) (a : S) : S :=
  let start := pieceRequestIndexOffset g i in
  unsetLoop f (u32 (start + pieceNumChunks g i)) (u32 (start - 1))
    (filter (λ x, start ≤ x) (ascending (dirtyChunks s))) a.

(** The inner callback, for one request of a piece. *)
Definition desireRequest (p : Peer) (allowedFast : bool) (st : PieceRequestOrderState)
    (d : desiredRequestState) (r : Z) : desiredRequestState :=
  let d := if allowedFast then d else mkDesired (dRequests d) (dPieceStates d) true in
  if negb allowedFast && peerChoking (pCtl p) && negb (bool_decide (r ∈ Requests (pReq p))) then d
  else if bool_decide (r ∈ Cancelled (pReq p)) then d
  else if isBaselineProvider (pStatic p) && (1 <? Availability st) then d
  else mkDesired (dRequests d ++ [r]) (dPieceStates d) (dInterested d).

Definition desirePiece (s : Swarm) (g : Geo) (p : Peer) (d : desiredRequestState) (it : pieceRequestOrderItem) :
    desiredRequestState :=
  let i := keyIndex (key it) in
  if negb (bool_decide (InfoHash (key it) = infoHash)) then d
  else if negb (peerHasPiece s p i) then d
  else
    let d := mkDesired (dRequests d) (<[i := state it]> (dPieceStates d)) (dInterested d) in
    iterUndirtiedRequestIndexesInPiece s g i
      (desireRequest p (bool_decide (i ∈ peerAllowedFast (pCtl p))) (state it)) d.

Definition desired0 : desiredRequestState := mkDesired [] ∅ false.

Definition getDesiredRequestState (s : Swarm) (input : Input) (pro : PieceRequestOrder T) (p : Peer) :
    go desiredRequestState :=
  match geo s with
  | None => Ok desired0
  | Some g =>
      if torrentClosed s then Ok desired0
      else GetRequestablePieces input pro (desirePiece s g p) desired0
  end.

(** ** Making the requests *)
Definition lessIn (s : Swarm) (g : Geo) (c : nat) (ps : gmap Z PieceRequestOrderState) (l r : Z) : bool :=
  match peers s !! c with
  | Some p => match lessByValue s g c p ps l r with Ok b => b | Panic _ => false end
  | None => false
  end.

Definition before (a b : option Z) : bool :=
  match a, b with
  | None, None => false
  | None, Some _ => true
  | Some _, None => false
  | Some x, Some y => x <? y
  end.

(** The loop of [applyRequestState]: each turn pops a request, so the length
    of the heap is fuel enough.  Returns [more]. *)
Fixpoint requestLoop (fuel : nat) (g : Geo) (c : nat) (ps : gmap Z PieceRequestOrderState) (heap : list Z) : act bool :=
  match fuel with
  | O => mret true
  | S fuel =>
      s ← gets (λ s, s);
      p ← peer c;
      let count := Z.of_nat (length (Requests (pReq p))) + Z.of_nat (size (Cancelled (pReq p))) in
      if count <? nominalMaxRequests p then
        match heapPop (lessIn s g c ps) heap with
        | None => mret true
        | Some (req, heap) =>
            let existing := requestingPeer s req in
            skip ← (match existing with
                    | Some e =>
                        if bool_decide (e = c) then mret false
                        else
                          q ← peer e;
                          let diff := Z.of_nat (length (Requests (pReq p))) + 1 -
                                      (Z.of_nat (length (Requests (pReq q))) - 1) in
                          if (1 <? diff) ||
                             ((diff =? 1) && before (lastUsefulChunkReceived (pCtl p)) (lastUsefulChunkReceived (pCtl q)))
                          then mret true
                          else _ ← cancelRequest req; mret false
                    | None => mret false
                    end);
            if skip : bool then requestLoop fuel g c ps heap
            else
              more ← mustRequest c req;
              if negb more then mret false else requestLoop fuel g c ps heap
        end
      else mret true
  end.

Definition applyRequestState (c : nat) (next : desiredRequestState) : act unit :=
  ok ← setInterested c (dInterested next);
  _ ← assert_go ok "insufficient write buffer";
  p ← peer c;
  let originalRequestCount := Z.of_nat (length (Requests (pReq p))) in
  _ ← assert_go ((originalRequestCount =? 0) ||
                 bool_decide (needRequestUpdate (pCtl p) = peerUpdateRequestsTimerReason))
        "expected zero existing requests";
  s ← gets (λ s, s);
  more ← (match geo s with
          | None => mret true
          | Some g => requestLoop (length (dRequests next)) g c (dPieceStates next)
                        (heapInit (lessIn s g c (dPieceStates next)) (dRequests next))
          end);
  _ ← assert_go more "couldn't fill apply entire request state";
  p ← peer c;
  t ← gets clock;
  on_ctl c (λ x,
    set_lastRequestUpdate (Some t)
      (set_needRequestUpdate ""
        (set_peakRequests (Z.of_nat (length (Requests (pReq p))) - originalRequestCount) x))).

Definition updateRequestsTimerDuration : Z := 3 * 10 ^ 9.   (** nanoseconds *)

Definition maybeUpdateActualRequestState (input : Input) (pro : PieceRequestOrder T) (c : nat) : act unit :=
  p ← peer c;
  if peerClosed (pHave p) then mret tt
  else if bool_decide (needRequestUpdate (pCtl p) = ""%string) then mret tt
  else
    s ← gets (λ s, s);
    _ ← assert_go (negb (bool_decide (needRequestUpdate (pCtl p) = peerUpdateRequestsTimerReason) &&
                         match lastRequestUpdate (pCtl p) with
                         | Some t => clock s - t <? updateRequestsTimerDuration
                         | None => false
                         end)) "update requests timer";
    next ← lift_go (getDesiredRequestState s input pro p);
    applyRequestState c next.

(** [fillWriteBuffer]: the check of the low water mark has no effect.  Peer
    exchange is not part of the model. *)
Definition fillWriteBuffer (reserveN : nat → Z → option Z) (input : Input) (pro : PieceRequestOrder T) (c : nat) : act unit :=
  p ← peer c;
  if peerClosed (pHave p) then mret tt
  else
    _ ← maybeUpdateActualRequestState input pro c;
    _ ← upload reserveN c;
    mret tt.
End Requesting.

(** ** The requests stay consistent *)
Section Consistent.
Context (pieceOrder : Z → Z) `{Multiless} `{Heap}.

Lemma mustRequest_ok c r s :
  req_ok s → requestingPeer s r = None ∨ requestingPeer s r = Some c →
  wp req_safe (mustRequest c r) (λ _, req_ok) s.
Proof.
  intros Hok Hr. unfold mustRequest. apply wp_bind. eapply wp_mono; [by apply request_ok|].
  cbv beta. intros [more|] s' Hs'; [by apply wp_ret|by apply wp_panic].
Qed.

Lemma requestLoop_keeps g c ps fuel : ∀ heap, Keeps req_ok req_safe (requestLoop pieceOrder fuel g c ps heap).
Proof.
  induction fuel as [|fuel IH]; intros heap s Hok; cbn [requestLoop]; [by apply wp_ret|].
  apply wp_bind, wp_gets, wp_bind, wp_peer; [|done]. intros p Hp.
  destruct (_ <? nominalMaxRequests p); [|by apply wp_ret].
  destruct (heapPop _ heap) as [[req heap']|]; [|by apply wp_ret]. apply wp_bind.
  eapply (wp_mono _ _ (λ skip s', req_ok s' ∧
    (skip = false → requestingPeer s' req = None ∨ requestingPeer s' req = Some c))).
  - destruct (requestingPeer s req) as [e|] eqn:Ee; [|apply wp_ret; by eauto].
    case_bool_decide as Hec; [subst e; apply wp_ret; by eauto|].
    apply wp_bind, wp_peer; [|done]. intros q Hq. destruct (_ || _); [by apply wp_ret|].
    apply wp_bind. eapply wp_mono; [by apply cancelRequest_ok|]. cbv beta. intros _ s1 [Hok1 Hr1].
    apply wp_ret. by eauto.
  - cbv beta. intros skip s1 [Hok1 Hr1]. destruct skip; [by apply IH|].
    apply wp_bind. eapply wp_mono; [by apply mustRequest_ok; eauto|]. cbv beta. intros more s2 Hok2.
    destruct (negb more); [by apply wp_ret|by apply IH].
Qed.

Lemma applyRequestState_keeps c next : Keeps req_ok req_safe (applyRequestState pieceOrder c next).
Proof.
  unfold applyRequestState. pose proof requestLoop_keeps as Hloop.
  repeat keeps_step ltac:(solve [apply Hloop | apply rframe_keeps; frame]).
Qed.
End Consistent.

(** ** A heap *)

(** [None] when the list is empty; otherwise an element that no other comes
    before, if [less] is a strict order. *)
Fixpoint popLeast (less : Z → Z → bool) (l : list Z) : option (Z * list Z) :=
  match l with
  | [] => None
  | x :: l =>
      match popLeast less l with
      | None => Some (x, [])
      | Some (y, l') => if less y x then Some (y, x :: l') else Some (x, l)
      end
  end.

Lemma popLeast_perm less l : ∀ x l', popLeast less l = Some (x, l') → l ≡ₚ x :: l'.
Proof.
  induction l as [|y l IH]; intros x l'; cbn; [done|].
  destruct (popLeast less l) as [[z l'']|] eqn:E.
  - destruct (less z y); intros [= <- <-]; [|done]. rewrite (IH z l'' eq_refl). constructor.
  - intros [= <- <-]. destruct l as [|z l]; [done|]. cbn in E. by repeat case_match.
Qed.

Lemma popLeast_none less l : popLeast less l = None ↔ l = [].
Proof.
  destruct l as [|y l]; cbn; [done|].
  destruct (popLeast less l) as [[z l'']|]; [destruct (less z y)|]; split; intros H; discriminate H.
Qed.

Definition list_Heap : Heap :=
  {| heapInit := λ _ l, l;
     heapPop := popLeast;
     heapInit_perm := λ _ l, reflexivity l;
     heapPop_perm := popLeast_perm;
     heapPop_none := popLeast_none |}.
