(* ===== verification/Scenario.v ===== *)
(** A concrete torrent with two peers, on which the theorems about the swarm
    are instantiated: the torrent of Geometry.v, one peer with all the pieces
    and one with the last piece only. *)
From stdpp Require Import base numbers list strings gmap sorting.
From Stdlib Require Import ZArith Lia.
From S2P Require Import Prelude Wire Metainfo Geometry RequestStrategy OrderedBitmap AllocLim SmartBan SwarmState Swarm SwarmWp SwarmReq Requesting.
Open Scope Z_scope.

Definition exOrder (l : gset nat) : list nat := elements l.
Definition exHash (b : list Z) : list Z := b.
Definition exExt (c : nat) (id : Z) (b : list Z) : act (option MsgErr) := mret None.

Definition exConfig : Config := mkConfig true false false true false None.
Definition exStatic (id : Z) : PeerStatic := mkPeerStatic [id] true false (Some id) (Some id) false.

Definition exFresh : Swarm :=
  set_conns {[0%nat; 1%nat]}
    (set_peers (<[0%nat := newConnection (exStatic 10) 1000000]>
                 (<[1%nat := newConnection (exStatic 11) 1000000]> ∅))
       (newTorrentOpt exConfig (λ _, (false, true)) 100)).

Definition exMessage (c : nat) (m : Message) : act unit := _ ← handleMessage exOrder exHash exExt c m; mret tt.

(** The info arrives, all pieces get normal priority, the peers announce what
    they have and peer 0 unchokes. *)
Definition exSetup : act unit :=
  _ ← setInfo exampleInfo 16384 (Some true);
  _ ← onSetInfo exOrder true;
  _ ← forEach [0; 1; 2] (λ i,
        _ ← modify_piece i (set_priority PiecePriorityNormal);
        updatePiecePriority exOrder i "Piece.SetPriority");
  _ ← exMessage 0 (typeMsg HaveAll);
  _ ← exMessage 1 (set_ints (typeMsg Have) 2 0 0);
  exMessage 0 (typeMsg Unchoke).

(** The state a run ends in, the initial one if it panics. *)
Definition finalState {A} (m : act A) (s : Swarm) : Swarm := match m s with Ok (_, s') => s' | Panic _ => s end.

Definition exSwarm : Swarm := finalState exSetup exFresh.

Example exSetup_runs : match exSetup exFresh with Ok _ => true | Panic _ => false end = true.
Proof. vm_compute. reflexivity. Qed.

(** All five chunks are wanted from peer 0. *)
Definition exDesired : desiredRequestState := mkDesired [0; 1; 2; 3; 4] (order exSwarm) true.

#[export] Existing Instance comparison_Multiless.
#[export] Existing Instance list_Heap.

Definition exApply : act unit := applyRequestState (λ i, i) 0 exDesired.

Example exApply_runs : match exApply exSwarm with Ok _ => true | Panic _ => false end = true.
Proof. vm_compute. reflexivity. Qed.
