(* ===== verification/Desired.v ===== *)
(** Which requests [getDesiredRequestState] (src/requesting.go) wants from a
    peer, and when it is interested in it; the rule for baseline providers. *)
From stdpp Require Import base numbers list strings gmap sorting.
From Stdlib Require Import ZArith Lia.
From S2P Require Import Prelude Wire Metainfo Geometry RequestStrategy OrderedBitmap AllocLim SmartBan SwarmState Swarm SwarmWp SwarmReq Requesting Scenario.
Open Scope Z_scope.

Lemma ascending_sorted b : StronglySorted Z.lt (ascending b).
Proof.
  unfold ascending. assert (Hp : merge_sort Z.le (elements b) ≡ₚ elements b) by apply merge_sort_Permutation.
  assert (Hnd : NoDup (merge_sort Z.le (elements b))) by (rewrite Hp; apply NoDup_elements).
  pose proof (StronglySorted_merge_sort Z.le (elements b)) as Hs. clear Hp.
  induction Hs as [|x l Hs IH Hx]; [constructor|]. apply NoDup_cons in Hnd as [Hn Hnd].
  constructor; [by apply IH|]. rewrite Forall_forall in *. intros y Hy.
  specialize (Hx y Hy). assert (x ≠ y) by (by intros ->). lia.
Qed.

Lemma elem_of_ascending b x : x ∈ ascending b ↔ x ∈ b.
Proof. unfold ascending. by rewrite merge_sort_Permutation, elem_of_elements. Qed.

Section Desired.
Context `{Multiless} {T : Type} {BT : BtreeSet item_cmp T} (infoHash : list Z).
Context (s : Swarm) (g : Geo) (p : Peer) (Hgeo : geo s = Some g) (Hg : geo_ok g).

(** The requests of a piece that are not dirty. *)
Definition undirtied (i : Z) : list Z :=
  filter (.∉ dirtyChunks s) (seqZ (pieceRequestIndexOffset g i) (pieceNumChunks g i)).

Definition allowedFast (i : Z) : bool := bool_decide (i ∈ peerAllowedFast (pCtl p)).

(** A piece of this torrent that the peer has. *)
Definition offered (it : pieceRequestOrderItem) : Prop :=
  InfoHash (key it) = infoHash ∧ peerHasPiece s p (keyIndex (key it)) = true.

(** Whether a request of the piece [it] may be made: the peer does not choke
    us, or the piece is allowed fast or the request is there already; its
    cancellation is not pending; and a baseline provider is only asked for
    what nobody else has. *)
Definition permitted (it : pieceRequestOrderItem) (r : Z) : Prop :=
  (allowedFast (keyIndex (key it)) = true ∨ peerChoking (pCtl p) = false ∨ r ∈ Requests (pReq p)) ∧
  (r ∉ Cancelled (pReq p)) ∧
  (isBaselineProvider (pStatic p) = true → Availability (state it) ≤ 1).

#[local] Instance permitted_dec it r : Decision (permitted it r).
Proof. unfold permitted. apply _. Defined.
#[local] Instance offered_dec it : Decision (offered it).
Proof. unfold offered. apply _. Defined.

Definition permittedb (af : bool) (st : PieceRequestOrderState) (r : Z) : bool :=
  (af || negb (peerChoking (pCtl p)) || bool_decide (r ∈ Requests (pReq p))) &&
  negb (bool_decide (r ∈ Cancelled (pReq p))) && negb (isBaselineProvider (pStatic p) && (1 <? Availability st)).

Lemma decide_permitted {A} it r (a b : A) :
  (if decide (permitted it r) then a else b) =
  if permittedb (allowedFast (keyIndex (key it))) (state it) r then a else b.
Proof.
  assert (Hb : permitted it r ↔ permittedb (allowedFast (keyIndex (key it))) (state it) r = true).
  { unfold permitted, permittedb.
    rewrite !andb_true_iff, !orb_true_iff, !negb_true_iff, bool_decide_eq_true, bool_decide_eq_false, andb_false_iff, Z.ltb_ge.
    destruct (isBaselineProvider (pStatic p)); naive_solver. }
  case_decide as Hp; rewrite Hb in Hp; [by rewrite Hp|]. by apply not_true_is_false in Hp as ->.
Qed.

Lemma desireRequest_eq it d r :
  desireRequest p (allowedFast (keyIndex (key it))) (state it) d r =
  mkDesired (if decide (permitted it r) then dRequests d ++ [r] else dRequests d) (dPieceStates d)
    (dInterested d || negb (allowedFast (keyIndex (key it)))).
Proof.
  rewrite decide_permitted. unfold desireRequest, permittedb.
  destruct (allowedFast (keyIndex (key it))), (peerChoking (pCtl p)), (bool_decide (r ∈ Requests (pReq p))),
    (bool_decide (r ∈ Cancelled (pReq p))), (isBaselineProvider (pStatic p)), (1 <? Availability (state it));
    cbn; rewrite ?orb_true_r, ?orb_false_r; by destruct d.
Qed.

Lemma desire_fold it l : ∀ d,
  fold_left (desireRequest p (allowedFast (keyIndex (key it))) (state it)) l d =
  mkDesired (dRequests d ++ filter (permitted it) l) (dPieceStates d)
    (dInterested d || (negb (allowedFast (keyIndex (key it))) && negb (bool_decide (l = [])))).
Proof.
  induction l as [|r l IH]; intros d; cbn [fold_left].
  - rewrite app_nil_r, andb_false_r, orb_false_r. by destruct d.
  - rewrite IH, desireRequest_eq. cbn [dRequests dPieceStates dInterested]. f_equal.
    + rewrite filter_cons. case_decide; [by rewrite <- app_assoc|done].
    + destruct (dInterested d), (allowedFast (keyIndex (key it))), (bool_decide (l = [])); done.
Qed.

(** The pieces in the order are pieces of the torrent. *)
Definition indexed (it : pieceRequestOrderItem) : Prop :=
  InfoHash (key it) = infoHash → 0 ≤ keyIndex (key it) < numPieces g.

Lemma desirePiece_eq it d :
  indexed it →
  dRequests (desirePiece infoHash s g p d it) =
    dRequests d ++ (if decide (offered it) then filter (permitted it) (undirtied (keyIndex (key it))) else []) ∧
  dInterested (desirePiece infoHash s g p d it) =
    dInterested d || bool_decide (offered it ∧ allowedFast (keyIndex (key it)) = false ∧ undirtied (keyIndex (key it)) ≠ []).
Proof.
  intros Hi. unfold desirePiece. case_bool_decide as Hih; cbn [negb].
  2: { rewrite decide_False, bool_decide_eq_false_2, app_nil_r, orb_false_r; unfold offered; naive_solver. }
  destruct (peerHasPiece s p (keyIndex (key it))) eqn:Eh; cbn [negb].
  2: { rewrite decide_False, bool_decide_eq_false_2, app_nil_r, orb_false_r; unfold offered; naive_solver congruence. }
  assert (Ho : offered it) by done. rewrite decide_True by done. specialize (Hi Hih).
  unfold iterUndirtiedRequestIndexesInPiece.
  destruct (pieceRequestIndexOffset_eq g Hg (keyIndex (key it))) as [Ei Hri]; [lia|].
  destruct (pieceRequestIndexOffset_eq g Hg (keyIndex (key it) + 1)) as [_ Hri1]; [lia|].
  pose proof (pieceNumChunks_bounds g Hg (keyIndex (key it)) Hi) as Hn.
  rewrite (u32_small (pieceRequestIndexOffset g _ + _)) by lia. rewrite unsetLoop_range by (lia || apply ascending_sorted).
  replace (_ + _ - _) with (pieceNumChunks g (keyIndex (key it))) by lia.
  replace (filter (.∉ ascending (dirtyChunks s)) _) with (undirtied (keyIndex (key it))).
  2: { unfold undirtied. apply filter_ext_in. intros x _. by rewrite elem_of_ascending. }
  fold (allowedFast (keyIndex (key it))). rewrite desire_fold. cbn [dRequests dInterested]. split; [done|]. f_equal.
  destruct (allowedFast (keyIndex (key it))) eqn:Ea; cbn; repeat case_bool_decide; naive_solver.
Qed.

Lemma desire_all vis : Forall indexed vis → ∀ d,
  let d' := fold_left (desirePiece infoHash s g p) vis d in
  (∀ r, r ∈ dRequests d' ↔ r ∈ dRequests d ∨
     ∃ it, it ∈ vis ∧ offered it ∧ r ∈ undirtied (keyIndex (key it)) ∧ permitted it r) ∧
  (dInterested d' = true ↔ dInterested d = true ∨
     ∃ it, it ∈ vis ∧ offered it ∧ allowedFast (keyIndex (key it)) = false ∧ undirtied (keyIndex (key it)) ≠ []).
Proof.
  induction 1 as [|it vis Hit _ IH]; intros d; cbn [fold_left].
  { split; [intros r|]; (split; [by left|]); intros [?|(it & ?%elem_of_nil & _)]; done. }
  destruct (desirePiece_eq it d Hit) as [Hr Hi]. destruct (IH (desirePiece infoHash s g p d it)) as [IHr IHi].
  split.
  - intros r. rewrite IHr, Hr, elem_of_app.
    assert (Hx : r ∈ (if decide (offered it) then filter (permitted it) (undirtied (keyIndex (key it))) else []) ↔
      offered it ∧ r ∈ undirtied (keyIndex (key it)) ∧ permitted it r).
    { case_decide as Ho; [rewrite list_elem_of_filter; tauto|]. rewrite elem_of_nil. tauto. }
    rewrite Hx. split.
    + intros [[?|?]|(it' & ? & ?)]; [by left|right; exists it|right; exists it']; rewrite elem_of_cons; auto.
    + intros [?|(it' & [->|?]%elem_of_cons & ?)]; [by left; left|by left; right|right; by exists it'].
  - rewrite IHi, Hi, orb_true_iff, bool_decide_eq_true. split.
    + intros [[?|?]|(it' & ? & ?)]; [by left|right; exists it|right; exists it']; rewrite elem_of_cons; auto.
    + intros [?|(it' & [->|?]%elem_of_cons & ?)]; [by left; left|by left; right|right; by exists it'].
Qed.

(** C5. [getDesiredRequestState] returns, and wants exactly the requests
    that are not dirty, of the pieces visited by [GetRequestablePieces] that
    the peer has, subject to choking and the fast set, that are not waiting
    for the acknowledgement of a cancel; from a baseline provider it only
    wants pieces whose availability is at most one.  It is interested exactly
    when there is such a piece, not allowed fast, with a chunk to get. *)
Theorem getDesiredRequestState_spec input (pro : PieceRequestOrder T) :
  torrentClosed s = false → input_ok input → Forall indexed (bt_elems (tree pro)) →
  ∃ d vis, getDesiredRequestState infoHash s input pro p = Ok d ∧
    (∀ S (f : S → pieceRequestOrderItem → S) a, GetRequestablePieces input pro f a = Ok (fold_left f vis a)) ∧
    (∀ r, r ∈ dRequests d ↔
       ∃ it, it ∈ vis ∧ offered it ∧ r ∈ undirtied (keyIndex (key it)) ∧ permitted it r) ∧
    (dInterested d = true ↔
       ∃ it, it ∈ vis ∧ offered it ∧ allowedFast (keyIndex (key it)) = false ∧ undirtied (keyIndex (key it)) ≠ []).
Proof.
  intros Hopen Hin Hix. destruct (requestable_visits input Hin pro) as [vis [Hrun Hsub _ _ _ _]].
  assert (Hvis : Forall indexed vis).
  { rewrite Forall_forall in *. intros it Hit. apply Hix. by eapply elem_of_sublist. }
  exists (fold_left (desirePiece infoHash s g p) vis desired0), vis. unfold getDesiredRequestState.
  rewrite Hgeo, Hopen. destruct (desire_all vis Hvis desired0) as [Hr Hi]. split_and!.
  - apply Hrun.
  - intros S f a. apply Hrun.
  - intros r. rewrite Hr. cbn. rewrite elem_of_nil. tauto.
  - rewrite Hi. cbn. split; [by intros [?|?]|by right].
Qed.
End Desired.

(** ** On the concrete torrent: peer 0 as a baseline provider *)
Definition exPro : PieceRequestOrder sorted_items :=
  match run_ops NewPieceOrder [ OpAdd (mkKey [1] 0) (mkPState 1 false 1);
                                OpAdd (mkKey [1] 1) (mkPState 1 false 2);
                                OpAdd (mkKey [1] 2) (mkPState 1 false 1) ] with
  | Ok pro => pro
  | Panic _ => NewPieceOrder
  end.

Definition exInput : Input := mkInput (λ _, mkRSTorrent (Torrent_IgnorePiece exSwarm exampleGeo) 32768) None 0.

Definition exBaseline : Peer :=
  let p := default (newConnection (exStatic 0) 0) (peers exSwarm !! 0%nat) in
  set_pStatic (mkPeerStatic [10] true false None None true) p.

Example exDesired_eq :
  match getDesiredRequestState [1] exSwarm exInput exPro exBaseline with Ok d => dRequests d | Panic _ => [] end
  = [0; 1; 4].
Proof. vm_compute. reflexivity. Qed.

Lemma getDesiredRequestState_spec_witness :
  ∃ d, getDesiredRequestState [1] exSwarm exInput exPro exBaseline = Ok d ∧
    ∀ r, r ∈ dRequests d → ∃ it, permitted exBaseline it r ∧ r ∈ undirtied exSwarm exampleGeo (keyIndex (key it)).
Proof.
  destruct (getDesiredRequestState_spec [1] exSwarm exampleGeo exBaseline ltac:(vm_compute; reflexivity)
    exampleGeo_ok exInput exPro) as (d & vis & Hd & _ & Hr & _).
  - vm_compute. reflexivity.
  - split; cbn; [lia|lia|done].
  - assert (Hall : forallb (λ it, (0 <=? keyIndex (key it)) && (keyIndex (key it) <? 3)) (bt_elems (tree exPro)) = true)
      by (vm_compute; reflexivity).
    apply Forall_forall. intros it Hit _. rewrite forallb_forall in Hall. apply list_elem_of_In in Hit.
    specialize (Hall it Hit). apply andb_true_iff in Hall as [?%Z.leb_le ?%Z.ltb_lt].
    assert (Hn : numPieces exampleGeo = 3) by (vm_compute; reflexivity). rewrite Hn. lia.
  - exists d. split; [exact Hd|]. intros r Hin. apply Hr in Hin as (it & _ & _ & ? & ?). exists it. by split.
Defined.
