(* ===== verification/Availability.v ===== *)
(** How available the pieces are: [relativeAvailability] of src/piece.go and
    the operations of src/torrent.go and src/peerconn.go that maintain it.

    A peer that has announced single pieces is counted at each of them; a
    peer that has everything is in [connsWithAllPieces] instead. *)
From stdpp Require Import base numbers list strings gmap sorting.
From Stdlib Require Import ZArith Lia.
From S2P Require Import Prelude Wire Metainfo Geometry RequestStrategy OrderedBitmap AllocLim SmartBan SwarmState Swarm SwarmWp SwarmReq Metadata Requesting Desired.
Open Scope Z_scope.

(** The panics of the bookkeeping. *)
Definition avail_panics : list string :=
  [ "relativeAvailability";
    "piece has relative availability";
    "deleteConnWithAllPieces";
    "if peer has all, we expect no individual peer pieces to be set";
    "connsWithAllPieces" ]%string.

Definition avail_safe (w : string) : Prop := bool_decide (w ∈ avail_panics) = false.
#[export] Hint Extern 0 (avail_safe _) => reflexivity : frame keeps.

Record aview : Type := mkAView {
  aRel : list Z;                (** of the pieces *)
  aHave : gmap nat HaveSide;
  aAll : gset nat;              (** [connsWithAllPieces] *)
  aConns : gset nat;
  aGeo : option Geo
}.

Definition availView (s : Swarm) : aview :=
  mkAView (relativeAvailability <$> pieces s) (pHave <$> peers s) (connsWithAllPieces s) (conns s) (geo s).

Abbreviation AFrame := (Frame availView avail_safe).

(** ** What does not touch it *)
Lemma aframe_emit e : AFrame (emit_event e).
Proof. apply frame_modify. done. Qed.
Lemma aframe_modify_peer c f : (∀ p, pHave (f p) = pHave p) → AFrame (modify_peer c f).
Proof. intros Hf. apply frame_modify. intros s. unfold availView. cbn. f_equal. by apply fmap_alter_same. Qed.
Lemma aframe_on_req c f : AFrame (on_req c f).
Proof. by apply aframe_modify_peer. Qed.
Lemma aframe_on_up c f : AFrame (on_up c f).
Proof. by apply aframe_modify_peer. Qed.
Lemma aframe_on_ctl c f : AFrame (on_ctl c f).
Proof. by apply aframe_modify_peer. Qed.
Lemma aframe_on_ext c f : AFrame (on_ext c f).
Proof. by apply aframe_modify_peer. Qed.
Lemma aframe_modify_piece i f :
  (∀ p, relativeAvailability (f p) = relativeAvailability p) → AFrame (modify_piece i f).
Proof.
  intros Hf. unfold modify_piece. frame. apply frame_modify. intros s. unfold availView. cbn. f_equal.
  by apply list_fmap_alter_same.
Qed.
#[export] Hint Resolve aframe_emit aframe_on_req aframe_on_up aframe_on_ctl aframe_on_ext : frame.
#[export] Hint Extern 1 (AFrame (modify_piece _ _)) => (apply aframe_modify_piece; reflexivity) : frame.
#[export] Hint Extern 1 (AFrame (modify_peer _ _)) => (apply aframe_modify_peer; reflexivity) : frame.

Lemma aframe_allStats c f : AFrame (allStats c f).
Proof. unfold allStats. frame. Qed.
#[export] Hint Resolve aframe_allStats : frame.
Lemma aframe_write c m : AFrame (write c m).
Proof. unfold write. frame. Qed.
#[export] Hint Resolve aframe_write : frame.
Lemma aframe_updatePieceRequestOrder i : AFrame (updatePieceRequestOrder i).
Proof. unfold updatePieceRequestOrder. frame. Qed.
#[export] Hint Resolve aframe_updatePieceRequestOrder : frame.
Lemma aframe_updateRequests c r : AFrame (updateRequests c r).
Proof. unfold updateRequests. frame. Qed.
#[export] Hint Resolve aframe_updateRequests : frame.
Lemma aframe_updateExpectingChunks c : AFrame (updateExpectingChunks c).
Proof.
  unfold updateExpectingChunks. frame. apply frame_lift_go. intros w. unfold expectingChunks.
  repeat case_match; try done. by intros [= <-].
Qed.
#[export] Hint Resolve aframe_updateExpectingChunks : frame.
Lemma aframe_decPeakRequests c : AFrame (decPeakRequests c).
Proof. unfold decPeakRequests. frame. Qed.
#[export] Hint Resolve aframe_decPeakRequests : frame.
Lemma aframe_setInterested c b : AFrame (setInterested c b).
Proof. unfold setInterested. frame. Qed.
#[export] Hint Resolve aframe_setInterested : frame.
Lemma aframe__cancel c r : AFrame (_cancel c r).
Proof. unfold _cancel. frame. Qed.
#[export] Hint Resolve aframe__cancel : frame.
Lemma aframe_deleteRequest c r : AFrame (deleteRequest c r).
Proof. unfold deleteRequest. frame. Qed.
#[export] Hint Resolve aframe_deleteRequest : frame.
Lemma aframe_assertNoRequests c : AFrame (assertNoRequests c).
Proof. unfold assertNoRequests. frame. Qed.
#[export] Hint Resolve aframe_assertNoRequests : frame.
Lemma aframe_deleteAllRequests o c r : AFrame (deleteAllRequests o c r).
Proof. unfold deleteAllRequests. frame. Qed.
#[export] Hint Resolve aframe_deleteAllRequests : frame.
Lemma aframe_cancel c r : AFrame (cancel c r).
Proof. unfold cancel. frame. Qed.
#[export] Hint Resolve aframe_cancel : frame.
Lemma aframe_cancelRequest r : AFrame (cancelRequest r).
Proof. unfold cancelRequest. frame. Qed.
#[export] Hint Resolve aframe_cancelRequest : frame.
Lemma aframe_shouldRequest c r : AFrame (shouldRequest c r).
Proof. unfold shouldRequest. frame. Qed.
#[export] Hint Resolve aframe_shouldRequest : frame.
Lemma aframe_request c r : AFrame (request c r).
Proof. unfold request. frame. Qed.
#[export] Hint Resolve aframe_request : frame.
Lemma aframe_mustRequest c r : AFrame (mustRequest c r).
Proof. unfold mustRequest. frame. Qed.
#[export] Hint Resolve aframe_mustRequest : frame.
Lemma aframe_decExpectedChunkReceive c r : AFrame (decExpectedChunkReceive c r).
Proof. unfold decExpectedChunkReceive. frame. Qed.
#[export] Hint Resolve aframe_decExpectedChunkReceive : frame.
Lemma aframe_checkedRemoveCancelled c r : AFrame (checkedRemoveCancelled c r).
Proof. unfold checkedRemoveCancelled. frame. Qed.
#[export] Hint Resolve aframe_checkedRemoveCancelled : frame.
Lemma aframe_remoteRejectedRequest c r : AFrame (remoteRejectedRequest c r).
Proof. unfold remoteRejectedRequest. frame. Qed.
#[export] Hint Resolve aframe_remoteRejectedRequest : frame.
Lemma aframe_openNewConns : AFrame openNewConns.
Proof. unfold openNewConns. frame. Qed.
#[export] Hint Resolve aframe_openNewConns : frame.
Lemma aframe_piecePriorityChanged o i r : AFrame (piecePriorityChanged o i r).
Proof. unfold piecePriorityChanged. frame. Qed.
#[export] Hint Resolve aframe_piecePriorityChanged : frame.
Lemma aframe_updatePiecePriority o i r : AFrame (updatePiecePriority o i r).
Proof. unfold updatePiecePriority. frame. Qed.
#[export] Hint Resolve aframe_updatePiecePriority : frame.
Lemma aframe_pendAllChunkSpecs i : AFrame (pendAllChunkSpecs i).
Proof. unfold pendAllChunkSpecs. frame. Qed.
#[export] Hint Resolve aframe_pendAllChunkSpecs : frame.
Lemma aframe_have c i : AFrame (have c i).
Proof. unfold have. frame. Qed.
#[export] Hint Resolve aframe_have : frame.
Lemma aframe_cancelRequestsForPiece i : AFrame (cancelRequestsForPiece i).
Proof. unfold cancelRequestsForPiece. frame. Qed.
#[export] Hint Resolve aframe_cancelRequestsForPiece : frame.
Lemma aframe_onIncompletePiece o i : AFrame (onIncompletePiece o i).
Proof. unfold onIncompletePiece. frame. Qed.
#[export] Hint Resolve aframe_onIncompletePiece : frame.
Lemma aframe_unpendChunkIndex i k : AFrame (unpendChunkIndex i k).
Proof. unfold unpendChunkIndex. frame. Qed.
#[export] Hint Resolve aframe_unpendChunkIndex : frame.
Lemma aframe_pendRequest r : AFrame (pendRequest r).
Proof. unfold pendRequest. frame. Qed.
#[export] Hint Resolve aframe_pendRequest : frame.
Lemma aframe_onDirtiedPiece c i : AFrame (onDirtiedPiece c i).
Proof. unfold onDirtiedPiece. frame. Qed.
#[export] Hint Resolve aframe_onDirtiedPiece : frame.
Lemma aframe_firstNotHashing l : AFrame (firstNotHashing l).
Proof. induction l as [|i l IH]; cbn [firstNotHashing]; frame. Qed.
#[export] Hint Resolve aframe_firstNotHashing : frame.
Lemma aframe_tryCreatePieceHasher o : AFrame (tryCreatePieceHasher o).
Proof. unfold tryCreatePieceHasher, getPieceToHash. frame. Qed.
#[export] Hint Resolve aframe_tryCreatePieceHasher : frame.
Lemma aframe_hasherLoop o n : AFrame (hasherLoop o n).
Proof. induction n as [|n IH]; cbn [hasherLoop]; frame. Qed.
#[export] Hint Resolve aframe_hasherLoop : frame.
Lemma aframe_tryCreateMorePieceHashers o : AFrame (tryCreateMorePieceHashers o).
Proof. unfold tryCreateMorePieceHashers. frame. Qed.
#[export] Hint Resolve aframe_tryCreateMorePieceHashers : frame.
Lemma aframe_queuePieceCheck o i : AFrame (queuePieceCheck o i).
Proof. unfold queuePieceCheck. frame. Qed.
#[export] Hint Resolve aframe_queuePieceCheck : frame.
Lemma aframe_clearPieceTouchers i : AFrame (clearPieceTouchers i).
Proof. unfold clearPieceTouchers. frame. Qed.
#[export] Hint Resolve aframe_clearPieceTouchers : frame.
Lemma aframe_torrentStats f : AFrame (torrentStats f).
Proof. unfold torrentStats. frame. Qed.
#[export] Hint Resolve aframe_torrentStats : frame.
Lemma aframe_pieceHasherTail o i : AFrame (pieceHasherTail o i).
Proof. unfold pieceHasherTail. frame. Qed.
#[export] Hint Resolve aframe_pieceHasherTail : frame.
Lemma aframe_pieceHashedPassed i : AFrame (pieceHashedPassed i).
Proof. unfold pieceHashedPassed. frame. Qed.
#[export] Hint Resolve aframe_pieceHashedPassed : frame.
Lemma aframe_newRequest msg : AFrame (lift_go (newRequestFromMessage msg)).
Proof. apply frame_lift_go. intros w. unfold newRequestFromMessage. repeat case_match; by intros [= <-]. Qed.
#[export] Hint Resolve aframe_newRequest : frame.
Lemma aframe_receiveChunk h c m : AFrame (receiveChunk h c m).
Proof. unfold receiveChunk. frame. Qed.
#[export] Hint Resolve aframe_receiveChunk : frame.
Lemma aframe_chunkWritten o c msg e : AFrame (chunkWritten o c msg e).
Proof. unfold chunkWritten. frame. Qed.
#[export] Hint Resolve aframe_chunkWritten : frame.
Lemma aframe_withLimiter c f : (∀ l w, f l = Panic w → avail_safe w) → AFrame (withLimiter c f).
Proof. intros Hf. unfold withLimiter. frame. apply frame_lift_go. apply Hf. Qed.
Lemma aframe_dropReservation c id : AFrame (withLimiter c (λ l, Drop l id)).
Proof. apply aframe_withLimiter. intros l w. unfold Drop. repeat case_match; try done. by intros [= <-]. Qed.
Lemma aframe_releaseReservation c id : AFrame (withLimiter c (λ l, Release l id)).
Proof. apply aframe_withLimiter. intros l w. unfold Release. repeat case_match; try done; by intros [= <-]. Qed.
#[export] Hint Resolve aframe_dropReservation aframe_releaseReservation : frame.
Lemma aframe_deletePeerRequest c r : AFrame (deletePeerRequest c r).
Proof. unfold deletePeerRequest. frame. Qed.
#[export] Hint Resolve aframe_deletePeerRequest : frame.
Lemma aframe_reject c r : AFrame (reject c r).
Proof. unfold reject. frame. Qed.
#[export] Hint Resolve aframe_reject : frame.
Lemma aframe_deleteAllPeerRequests c : AFrame (deleteAllPeerRequests c).
Proof. unfold deleteAllPeerRequests. frame. Qed.
#[export] Hint Resolve aframe_deleteAllPeerRequests : frame.
Lemma aframe_choke c : AFrame (choke c).
Proof. unfold choke. frame. Qed.
#[export] Hint Resolve aframe_choke : frame.
Lemma aframe_unchoke c : AFrame (unchoke c).
Proof. unfold unchoke. frame. Qed.
#[export] Hint Resolve aframe_unchoke : frame.
Lemma aframe_onPeerSentCancel c r : AFrame (onPeerSentCancel c r).
Proof. unfold onPeerSentCancel. frame. Qed.
#[export] Hint Resolve aframe_onPeerSentCancel : frame.
Lemma aframe_onReadRequest c r b : AFrame (onReadRequest c r b).
Proof. unfold onReadRequest. frame. Qed.
#[export] Hint Resolve aframe_onReadRequest : frame.
Lemma aframe_sendChunk c r id d : AFrame (sendChunk c r id d).
Proof. unfold sendChunk. frame. Qed.
#[export] Hint Resolve aframe_sendChunk : frame.
Lemma aframe_uploadLoop n f c : AFrame (uploadLoop n f c).
Proof. induction n as [|n IH]; cbn [uploadLoop]; frame. Qed.
#[export] Hint Resolve aframe_uploadLoop : frame.
Lemma aframe_upload f c : AFrame (upload f c).
Proof. unfold upload. frame. Qed.
#[export] Hint Resolve aframe_upload : frame.
Lemma aframe_deletePieceRequestOrder : AFrame deletePieceRequestOrder.
Proof. unfold deletePieceRequestOrder. frame. Qed.
#[export] Hint Resolve aframe_deletePieceRequestOrder : frame.
Lemma aframe_raisePeerMinPieces c n : AFrame (raisePeerMinPieces c n).
Proof. unfold raisePeerMinPieces. frame. Qed.
#[export] Hint Resolve aframe_raisePeerMinPieces : frame.

(** ** Counting the peers at a piece *)

(** The peer counts at piece [i]. *)
Definition counts (all : gset nat) (i : Z) (q : nat * HaveSide) : Prop :=
  peerClosed q.2 = false ∧ (q.1 ∉ all) ∧ i ∈ _peerPieces q.2.

#[export] Instance counts_dec all i q : Decision (counts all i q).
Proof. unfold counts. apply _. Defined.

Definition countAt (v : aview) (i : Z) : Z := Z.of_nat (size (filter (counts (aAll v) i) (aHave v))).

Definition ind (P : Prop) `{Decision P} : Z := if decide P then 1 else 0.

(** One peer changes. *)
Lemma size_filter_insert {A} (P P' : nat * A → Prop) `{∀ q, Decision (P q)} `{∀ q, Decision (P' q)} (m : gmap nat A) c x' :
  (∀ d y, d ≠ c → P (d, y) ↔ P' (d, y)) →
  Z.of_nat (size (filter P' (<[c := x']> m))) =
  Z.of_nat (size (filter P m)) - (match m !! c with Some x => ind (P (c, x)) | None => 0 end) + ind (P' (c, x')).
Proof.
  intros Hext.
  assert (Hdel : filter P (delete c m) = filter P' (delete c m)).
  { apply map_filter_ext. intros d y [Hne Hd]%lookup_delete_Some. by apply Hext. }
  assert (Hadd : ∀ (Q : nat * A → Prop) `{∀ q, Decision (Q q)} x, Z.of_nat (size (filter Q (<[c := x]> m))) =
    Z.of_nat (size (filter Q (delete c m))) + ind (Q (c, x))).
  { intros Q ? x. rewrite <- insert_delete_eq. unfold ind. case_decide as HQ.
    - rewrite map_filter_insert_True by done. rewrite map_size_insert_None; [lia|].
      apply map_lookup_filter_None. left. apply lookup_delete_eq.
    - rewrite map_filter_insert_False by done. rewrite delete_delete_eq. lia. }
  rewrite Hadd, <- Hdel. destruct (m !! c) as [x|] eqn:E.
  - rewrite <- (insert_id m c x E) at 2. rewrite Hadd. lia.
  - rewrite delete_id by done. lia.
Qed.

Record avail_okV (v : aview) : Prop := {
  av_geo : is_Some (aGeo v);
  av_count i n : 0 ≤ i → aRel v !! Z.to_nat i = Some n → n = countAt v i;
  av_all c h : aHave v !! c = Some h → peerClosed h = false → (peerSentHaveAll h = true ↔ c ∈ aAll v);
  av_open c : c ∈ aAll v → ∃ h, aHave v !! c = Some h ∧ peerClosed h = false;
  av_none c h : aHave v !! c = Some h → peerSentHaveAll h = true → _peerPieces h = ∅;
  av_range c h i : aHave v !! c = Some h → i ∈ _peerPieces h → 0 ≤ i;
  av_conns c h : aHave v !! c = Some h → peerClosed h = false →
    peerSentHaveAll h = true ∨ _peerPieces h ≠ ∅ → c ∈ aConns v
}.

Definition avail_ok (s : Swarm) : Prop := avail_okV (availView s).

Abbreviation AKeeps := (Keeps avail_ok avail_safe).

Lemma aframe_keeps {A} (m : act A) : AFrame m → AKeeps m.
Proof. by apply (frame_keeps avail_ok avail_safe availView avail_okV). Qed.

(** The step of one peer [c] from [h] to [h'], in or out of [aAll], with the
    pieces adjusted. *)
Lemma avail_step v v' c h h' :
  avail_okV v → aHave v !! c = Some h →
  aGeo v' = aGeo v → aConns v' = aConns v → aHave v' = <[c := h']> (aHave v) →
  (∀ d, d ≠ c → d ∈ aAll v' ↔ d ∈ aAll v) →
  (∀ i n, 0 ≤ i → aRel v' !! Z.to_nat i = Some n → ∃ k, aRel v !! Z.to_nat i = Some k ∧
     n = k - ind (counts (aAll v) i (c, h)) + ind (counts (aAll v') i (c, h'))) →
  (peerClosed h' = false → (peerSentHaveAll h' = true ↔ c ∈ aAll v')) →
  (peerClosed h' = true → c ∉ aAll v') →
  (peerSentHaveAll h' = true → _peerPieces h' = ∅) →
  (∀ i, i ∈ _peerPieces h' → 0 ≤ i) →
  (peerClosed h' = false → peerSentHaveAll h' = true ∨ _peerPieces h' ≠ ∅ → c ∈ aConns v) →
  avail_okV v'.
Proof.
  intros [Hgeo Hcnt Hall Hopen Hnone Hrange Hconns] Hh Eg Ec Ehave Eall Erel Hall' Hcl' Hnone' Hrange' Hconns'.
  split; rewrite ?Eg, ?Ec, ?Ehave; try done.
  - intros i n Hi Hn. destruct (Erel i n Hi Hn) as (k & Hk & ->). rewrite (Hcnt i k Hi Hk).
    unfold countAt. rewrite Ehave.
    rewrite (size_filter_insert (counts (aAll v) i) (counts (aAll v') i) (aHave v) c h'), Hh; [done|].
    intros d y Hd. unfold counts. cbn. by rewrite Eall.
  - intros d x. destruct (decide (d = c)) as [->|Hne].
    + rewrite lookup_insert_eq. intros [= <-]. apply Hall'.
    + rewrite lookup_insert_ne by done. rewrite Eall by done. apply Hall.
  - intros d Hd. destruct (decide (d = c)) as [->|Hne].
    + rewrite lookup_insert_eq. exists h'. split; [done|]. destruct (peerClosed h'); [by destruct Hcl'|done].
    + rewrite lookup_insert_ne by done. apply Hopen. by rewrite <- Eall.
  - intros d x. destruct (decide (d = c)) as [->|Hne]; [rewrite lookup_insert_eq; by intros [= <-]|].
    rewrite lookup_insert_ne by done. apply Hnone.
  - intros d x i. destruct (decide (d = c)) as [->|Hne]; [rewrite lookup_insert_eq; intros [= <-]; apply Hrange'|].
    rewrite lookup_insert_ne by done. apply Hrange.
  - intros d x. destruct (decide (d = c)) as [->|Hne]; [rewrite lookup_insert_eq; intros [= <-]; apply Hconns'|].
    rewrite lookup_insert_ne by done. apply Hconns.
Qed.

(** A peer at a piece makes its count positive. *)
Lemma counts_positive v c h i n :
  avail_okV v → aHave v !! c = Some h → counts (aAll v) i (c, h) → aRel v !! Z.to_nat i = Some n → 1 ≤ n.
Proof.
  intros Hok Hh Hc Hn. rewrite (av_count v Hok i n) by (done || by destruct Hc as (_ & _ & ?); eapply av_range).
  unfold countAt. assert (filter (counts (aAll v) i) (aHave v) !! c = Some h) as Hf by (by apply map_lookup_filter_Some).
  destruct (size (filter (counts (aAll v) i) (aHave v))) eqn:E; [|lia].
  apply map_size_empty_iff in E. rewrite E in Hf. done.
Qed.

(** ** Adjusting the pieces *)
Definition with_rel (r : list Z) (v : aview) : aview := mkAView r (aHave v) (aAll v) (aConns v) (aGeo v).

Lemma wp_piece E i Q s :
  (∀ p, 0 ≤ i → pieces s !! Z.to_nat i = Some p → Q p s) → E "index out of range"%string → wp E (piece i) Q s.
Proof.
  intros HQ HE. unfold wp, piece. destruct (Z.leb_spec 0 i) as [Hi|]; [|done].
  destruct (pieces s !! Z.to_nat i) eqn:Ep; [by apply HQ|done].
Qed.

(** [dec] or [inc] one piece. *)
Definition shift (d : bool) (x : Z) : Z := if d then x - 1 else x + 1.

Lemma set_rel_view i k s p :
  0 ≤ i → pieces s !! Z.to_nat i = Some p →
  wp avail_safe (modify_piece i (set_relativeAvailability (relativeAvailability p + k)))
    (λ _ s', availView s' = with_rel (alter (Z.add k) (Z.to_nat i) (aRel (availView s))) (availView s)) s.
Proof.
  intros Hi Hp. unfold modify_piece. apply wp_bind, wp_piece; [|done]. intros _ _ _. apply wp_modify.
  unfold availView, with_rel. cbn. f_equal. apply list_eq. intros j. rewrite list_lookup_fmap.
  destruct (decide (j = Z.to_nat i)) as [->|Hne].
  - rewrite !list_lookup_alter_eq, list_lookup_fmap, Hp. cbn. f_equal. lia.
  - by rewrite !list_lookup_alter_ne, list_lookup_fmap.
Qed.

Lemma shift_spec (d : bool) i s :
  is_Some (geo s) → (∀ n, d = true → aRel (availView s) !! Z.to_nat i = Some n → 1 ≤ n) →
  wp avail_safe (if d then decPieceAvailability i else incPieceAvailability i)
    (λ _ s', 0 ≤ i ∧ availView s' = with_rel (alter (shift d) (Z.to_nat i) (aRel (availView s))) (availView s)) s.
Proof.
  intros [g Hg] Hpos. unfold decPieceAvailability, incPieceAvailability, haveInfo. destruct d.
  - apply wp_bind, wp_gets. rewrite Hg. cbn [negb]. apply wp_bind, wp_piece; [|done]. intros p Hi Hp.
    apply wp_bind, wp_assert.
    + intros _. apply wp_bind. change (relativeAvailability p - 1) with (relativeAvailability p + -1).
      eapply wp_mono; [by apply set_rel_view|]. cbv beta. intros _ s1 Hs1.
      eapply wp_mono; [apply aframe_updatePieceRequestOrder|]. cbv beta. intros _ s2 ->. split; [done|]. rewrite Hs1.
      unfold with_rel. f_equal. apply list_alter_ext; [|done]. intros x _. unfold shift. lia.
    + intros Hf. apply Z.ltb_ge in Hf. specialize (Hpos (relativeAvailability p) eq_refl).
      cbn in Hpos. rewrite list_lookup_fmap, Hp in Hpos. specialize (Hpos eq_refl). lia.
  - apply wp_bind, wp_gets. rewrite Hg. apply wp_bind, wp_piece; [|done]. intros p Hi Hp. apply wp_bind.
    eapply wp_mono; [by apply set_rel_view|]. cbv beta. intros _ s1 Hs1.
    eapply wp_mono; [apply aframe_updatePieceRequestOrder|]. cbv beta. intros _ s2 ->. split; [done|]. rewrite Hs1.
    unfold with_rel. f_equal. apply list_alter_ext; [|done]. intros x _. unfold shift. lia.
Qed.

Definition adjust (d : Z → bool) (l : list Z) (r : list Z) : list Z :=
  imap (λ k x, if bool_decide (Z.of_nat k ∈ l) then shift (d (Z.of_nat k)) x else x) r.

Lemma lookup_adjust d l r k :
  adjust d l r !! k = (λ x, if bool_decide (Z.of_nat k ∈ l) then shift (d (Z.of_nat k)) x else x) <$> r !! k.
Proof. unfold adjust. by rewrite list_lookup_imap. Qed.

Lemma shift_loop d l : ∀ s,
  is_Some (geo s) → NoDup l → Forall (λ i, 0 ≤ i) l →
  (∀ i n, i ∈ l → d i = true → aRel (availView s) !! Z.to_nat i = Some n → 1 ≤ n) →
  wp avail_safe (forEach l (λ i, if d i then decPieceAvailability i else incPieceAvailability i))
    (λ _ s', availView s' = with_rel (adjust d l (aRel (availView s))) (availView s)) s.
Proof.
  induction l as [|i l IH]; intros s Hg Hnd Hge Hpos; cbn [forEach].
  - apply wp_ret. unfold with_rel. destruct (availView s) as [r h a c g]. cbn [aRel aHave aAll aConns aGeo].
    f_equal. apply list_eq. intros k.
    rewrite lookup_adjust. rewrite bool_decide_eq_false_2 by apply not_elem_of_nil. by destruct (r !! k).
  - apply NoDup_cons in Hnd as [Hni Hnd]. apply Forall_cons in Hge as [Hi Hge]. apply wp_bind.
    eapply wp_mono; [apply (shift_spec (d i) i s Hg); intros n; apply Hpos; by left|].
    cbv beta. intros _ s1 [_ Hs1].
    assert (Hgeo1 : geo s1 = geo s) by (change (aGeo (availView s1) = aGeo (availView s)); by rewrite Hs1).
    eapply wp_mono; [apply (IH s1); [by rewrite Hgeo1|done|done|]|].
    + rewrite Hs1. cbn [aRel with_rel]. intros j n Hj Hd Hn. apply (Hpos j n); [by right|done|].
      rewrite list_lookup_alter_ne in Hn; [done|]. intros E. apply Hni. rewrite Forall_forall in Hge.
      specialize (Hge j Hj). by replace i with j by lia.
    + cbv beta. intros _ s2 ->. rewrite Hs1. unfold with_rel. cbn [aRel aHave aAll aConns aGeo]. f_equal.
      apply list_eq. intros k. rewrite !lookup_adjust. destruct (decide (k = Z.to_nat i)) as [->|Hne].
      * rewrite list_lookup_alter_eq, Z2Nat.id by done. rewrite bool_decide_eq_false_2 by done.
        rewrite bool_decide_eq_true_2 by (by left). by destruct (aRel (availView s) !! Z.to_nat i).
      * rewrite list_lookup_alter_ne by done.
        replace (bool_decide (Z.of_nat k ∈ i :: l)) with (bool_decide (Z.of_nat k ∈ l)); [done|].
        apply bool_decide_ext. rewrite elem_of_cons. split; [by right|]. intros [E|?]; [|done]. lia.
Qed.

(** The loop over what a peer has. *)
Lemma dec_loop b s :
  is_Some (geo s) → (∀ i, i ∈ b → 0 ≤ i) →
  (∀ i n, i ∈ b → aRel (availView s) !! Z.to_nat i = Some n → 1 ≤ n) →
  wp avail_safe (forEach (ascending b) decPieceAvailability)
    (λ _ s', availView s' = with_rel (adjust (λ _, true) (ascending b) (aRel (availView s))) (availView s)) s.
Proof.
  intros Hg Hge Hpos. apply (shift_loop (λ _, true)); [done| | |].
  - unfold ascending. rewrite merge_sort_Permutation. apply NoDup_elements.
  - apply Forall_forall. intros i Hi%elem_of_ascending. by apply Hge.
  - intros i n Hi%elem_of_ascending _. by apply Hpos.
Qed.

Lemma on_have_view c f s h :
  aHave (availView s) !! c = Some h →
  availView (set_peers (alter (λ p, set_pHave (f (pHave p)) p) c (peers s)) s) =
  mkAView (aRel (availView s)) (<[c := f h]> (aHave (availView s))) (aAll (availView s)) (aConns (availView s)) (aGeo (availView s)).
Proof.
  intros Hh. unfold availView in *. cbn in *. f_equal. rewrite lookup_fmap in Hh.
  destruct (peers s !! c) as [p|] eqn:Ep; [|done]. injection Hh as <-.
  apply map_eq. intros d. rewrite lookup_fmap. destruct (decide (d = c)) as [->|Hne].
  - by rewrite lookup_alter_eq, Ep, lookup_insert_eq.
  - by rewrite lookup_alter_ne, lookup_insert_ne, lookup_fmap.
Qed.

(** ** Closing *)
Lemma ind_iff (P Q : Prop) `{Decision P} `{Decision Q} : (P ↔ Q) → ind P = ind Q.
Proof. unfold ind. intros E. repeat case_decide; tauto. Qed.

Lemma ind_false (P : Prop) `{Decision P} : ¬ P → ind P = 0.
Proof. unfold ind. by case_decide. Qed.

Lemma ind_true (P : Prop) `{Decision P} : P → ind P = 1.
Proof. unfold ind. by case_decide. Qed.

Lemma adjust_dec b r i n :
  0 ≤ i → adjust (λ _, true) (ascending b) r !! Z.to_nat i = Some n →
  ∃ k, r !! Z.to_nat i = Some k ∧ n = k - ind (i ∈ b).
Proof.
  intros Hi. rewrite lookup_adjust, Z2Nat.id by done. destruct (r !! Z.to_nat i) as [k|]; [|done]. cbn.
  intros [= <-]. exists k. split; [done|]. unfold ind, shift. case_decide as Hb.
  - by rewrite bool_decide_eq_true_2 by (by apply elem_of_ascending).
  - rewrite bool_decide_eq_false_2 by (by rewrite elem_of_ascending). lia.
Qed.

Lemma availView_peer s c p : peers s !! c = Some p → aHave (availView s) !! c = Some (pHave p).
Proof. intros Hp. cbn. by rewrite lookup_fmap, Hp. Qed.

Lemma peer_availView s c h : aHave (availView s) !! c = Some h → ∃ p, peers s !! c = Some p ∧ pHave p = h.
Proof. cbn. rewrite lookup_fmap. destruct (peers s !! c) as [p|]; [|done]. cbn. intros [= <-]. eauto. Qed.

(** Forgetting what an open peer has, when its own record says so already:
    the pieces go down by what it had. *)
Lemma decPeer_view c s h b :
  aHave (availView s) !! c = Some h → is_Some (geo s) → _peerPieces h = b → (∀ i, i ∈ b → 0 ≤ i) →
  (c ∉ aAll (availView s) → ∀ i n, i ∈ b → aRel (availView s) !! Z.to_nat i = Some n → 1 ≤ n) →
  wp avail_safe (decPeerPieceAvailability c) (λ _ s', let v := availView s in availView s' =
    mkAView (if bool_decide (c ∈ aAll v) then aRel v else adjust (λ _, true) (ascending b) (aRel v))
      (aHave v) (aAll v ∖ {[c]}) (aConns v) (aGeo v)) s.
Proof.
  intros Hh Hg Hb Hge Hpos. unfold decPeerPieceAvailability, deleteConnWithAllPieces.
  apply wp_bind, wp_bind, wp_gets, wp_bind, wp_modify, wp_ret. cbv zeta.
  change (connsWithAllPieces s) with (aAll (availView s)). case_bool_decide as Hin; [by apply wp_ret|].
  apply wp_bind, wp_gets. set (s1 := set_connsWithAllPieces _ s).
  assert (Hi : haveInfo s1 = true) by (unfold haveInfo, s1; cbn; by destruct Hg as [g ->]). rewrite Hi. cbn [negb].
  apply wp_bind, wp_peer; [|done]. intros p Hp. apply peer_availView in Hh as (p' & Hp' & <-).
  assert (p' = p) as -> by (cbn in Hp; congruence). rewrite Hb.
  eapply wp_mono; [apply (dec_loop b s1); [done|done|by apply Hpos]|]. cbv beta. by intros _ s2 ->.
Qed.

Lemma close_avail c : AKeeps (close c).
Proof.
  intros s Hok. unfold close. apply wp_bind, wp_peer; [|done]. intros p Hp. pose proof (availView_peer s c p Hp) as Hh.
  destruct (peerClosed (pHave p)) eqn:Hcl; [by apply wp_ret|]. apply wp_bind, wp_modify.
  pose proof (on_have_view c (set_peerClosed true) s _ Hh) as Hv. set (s1 := set_peers _ s) in *.
  set (v := availView s) in *. pose proof (av_geo v Hok) as Hg.
  assert (Hcount : ∀ i, counts (aAll v) i (c, pHave p) ↔ (c ∉ aAll v) ∧ i ∈ _peerPieces (pHave p)) by (unfold counts; cbn; naive_solver).
  eapply wp_mono; [apply (decPeer_view c s1 (set_peerClosed true (pHave p)) (_peerPieces (pHave p))); rewrite ?Hv|].
  - cbn. by rewrite lookup_insert_eq.
  - exact Hg.
  - done.
  - intros i. by apply (av_range v Hok c).
  - cbn [aAll aRel]. intros Hc i n Hi. apply (counts_positive v c (pHave p)); [done|done|]. by apply Hcount.
  - cbv beta zeta. rewrite Hv. cbn [aAll aRel aHave aConns aGeo]. intros _ s2 Hv2. unfold avail_ok.
    eapply (avail_step v (availView s2) c (pHave p) (set_peerClosed true (pHave p)) Hok Hh); rewrite ?Hv2; try done; cbn.
    + set_solver.
    + intros i n Hi Hn. rewrite (ind_false (counts _ _ (c, set_peerClosed true _))) by (by intros [? _]).
      rewrite (ind_iff _ _ (Hcount i)). case_bool_decide as Hin.
      * exists n. split; [done|]. rewrite ind_false by tauto. lia.
      * apply adjust_dec in Hn as (k & Hk & ->); [|done]. exists k. split; [done|].
        rewrite (ind_iff ((c ∉ aAll v) ∧ _) (i ∈ _peerPieces (pHave p))) by tauto. lia.
    + set_solver.
    + apply (av_none v Hok c _ Hh).
    + intros i. by apply (av_range v Hok c).
Qed.

Lemma wp_keeps {A} (m : act A) Q s : AKeeps m → avail_ok s → (∀ a s', avail_ok s' → Q a s') → wp avail_safe m Q s.
Proof. intros Hm Hs HQ. eapply wp_mono; [by apply Hm|]. cbv beta. auto. Qed.

Lemma drop_conn_ok s c h :
  avail_ok s → aHave (availView s) !! c = Some h → peerClosed h = true →
  avail_ok (set_conns (conns s ∖ {[c]}) s).
Proof.
  intros [Hgeo Hcnt Hall Hopen Hnone Hrange Hconns] Hh Hcl. split; try done. cbn in *.
  intros d x Hx Hd Hor. apply elem_of_difference. split; [eauto|]. intros ->%elem_of_singleton. congruence.
Qed.

Lemma no_conns_no_all s : avail_ok s → conns s = ∅ → connsWithAllPieces s = ∅.
Proof.
  intros [Hgeo Hcnt Hall Hopen Hnone Hrange Hconns] He. apply elem_of_equiv_empty_L. intros c Hc.
  destruct (Hopen c Hc) as (h & Hh & Hcl). apply (not_elem_of_empty (C := gset nat) c). rewrite <- He.
  apply (Hconns c h Hh Hcl). left. by apply (Hall c h Hh Hcl).
Qed.

Lemma deletePeerConn_avail o c : AKeeps (deletePeerConn o c).
Proof.
  intros s Hok. unfold deletePeerConn. apply wp_bind, wp_peer; [|done]. intros p Hp.
  apply wp_bind, wp_assert; [|done]. intros Hcl. apply wp_bind, wp_gets, wp_bind, wp_modify, wp_bind.
  set (s1 := set_conns _ s). assert (Hok1 : avail_ok s1) by (eapply drop_conn_ok; [done|by apply availView_peer|done]).
  eapply wp_keeps; [|exact Hok1|]; [apply aframe_keeps; frame|]. intros _ s2 Hok2. apply wp_bind.
  eapply wp_keeps; [|exact Hok2|]; [apply aframe_keeps; frame|]. intros _ s3 Hok3.
  apply wp_bind, wp_gets, wp_bind, wp_assert; [intros _; by apply wp_ret|].
  intros Hf. apply negb_false_iff, andb_true_iff in Hf as [He%bool_decide_eq_true Hn].
  by rewrite (no_conns_no_all s3 Hok3 He) in Hn.
Qed.

Ltac akeeps := repeat keeps_step ltac:(solve [apply aframe_keeps; frame]).
#[export] Hint Resolve close_avail deletePeerConn_avail : keeps.

Lemma dropConnection_avail o c : AKeeps (dropConnection o c).
Proof. unfold dropConnection. akeeps. Qed.
#[export] Hint Resolve dropConnection_avail : keeps.
Lemma maybeDrop_avail o c : AKeeps (maybeDropMutuallyCompletePeer o c).
Proof. unfold maybeDropMutuallyCompletePeer. akeeps. Qed.
#[export] Hint Resolve maybeDrop_avail : keeps.

(** ** What a peer announces *)

(** The connection is open and among the torrent's. *)
Definition live (c : nat) (h : HaveSide) (v : aview) : Prop :=
  aHave v !! c = Some h ∧ peerClosed h = false ∧ c ∈ aConns v.

Lemma not_all c h v : avail_okV v → live c h v → peerSentHaveAll h = false → c ∉ aAll v.
Proof. intros Hok (Hh & Hcl & _) Hs Hc. apply (av_all v Hok c h Hh Hcl) in Hc. congruence. Qed.

Lemma live_counts c h v i :
  avail_okV v → live c h v → counts (aAll v) i (c, h) ↔ i ∈ _peerPieces h.
Proof.
  intros Hok Hl. pose proof Hl as (Hh & Hcl & _). unfold counts. cbn. split; [tauto|]. intros Hi. split_and!; [done| |done].
  destruct (peerSentHaveAll h) eqn:Es; [|by apply (not_all c h v)].
  rewrite (av_none v Hok c h Hh Es) in Hi. set_solver.
Qed.

(** A live peer changes to [h'] and the pieces follow. *)
Lemma live_step v v' c h h' :
  avail_okV v → live c h v →
  aGeo v' = aGeo v → aConns v' = aConns v → aHave v' = <[c := h']> (aHave v) →
  (∀ d, d ≠ c → d ∈ aAll v' ↔ d ∈ aAll v) → (peerSentHaveAll h' = true ↔ c ∈ aAll v') →
  peerClosed h' = false → (peerSentHaveAll h' = true → _peerPieces h' = ∅) → (∀ i, i ∈ _peerPieces h' → 0 ≤ i) →
  (∀ i n, 0 ≤ i → aRel v' !! Z.to_nat i = Some n → ∃ k, aRel v !! Z.to_nat i = Some k ∧
     n = k - ind (i ∈ _peerPieces h) + ind (i ∈ _peerPieces h')) →
  avail_okV v'.
Proof.
  intros Hok Hl Eg Ec Eh Eall Hall' Hcl' Hnone' Hrange' Hrel. pose proof Hl as (Hh & _ & Hc).
  eapply (avail_step v v' c h h'); try done; [|intros ?; congruence].
  intros i n Hi Hn. destruct (Hrel i n Hi Hn) as (k & Hk & ->). exists k. split; [done|].
  rewrite (ind_iff _ _ (live_counts c h v i Hok Hl)). f_equal. apply ind_iff. unfold counts. cbn.
  split; [|tauto]. intros Hin. split_and!; [done| |done]. rewrite <- Hall'. intros Hs. rewrite (Hnone' Hs) in Hin. set_solver.
Qed.

(** What the frame lemmas do to a run. *)
Lemma wp_aframe {A} (m : act A) Q s :
  AFrame m → (∀ a s', availView s' = availView s → Q a s') → wp avail_safe m Q s.
Proof. intros Hm HQ. eapply wp_mono; [apply Hm|]. cbv beta. auto. Qed.

Lemma wp_live_peer c h s Q :
  live c h (availView s) → (∀ p, peers s !! c = Some p → pHave p = h → Q p s) → wp avail_safe (peer c) Q s.
Proof.
  intros (Hh & _) HQ. apply wp_peer; [|done]. intros p Hp. apply HQ; [done|].
  rewrite (availView_peer s c p Hp) in Hh. by injection Hh.
Qed.

Lemma peerHasPiece_view s s' p p' i : geo s' = geo s → pHave p' = pHave p → peerHasPiece s' p' i = peerHasPiece s p i.
Proof. intros Hg Hp. unfold peerHasPiece, peerHasAllPieces. by rewrite Hg, Hp. Qed.

Lemma geo_view s : geo s = aGeo (availView s).
Proof. done. Qed.

Lemma peerSentHave_avail o c i s h :
  avail_ok s → live c h (availView s) → wp avail_safe (peerSentHave o c i) (λ _, avail_ok) s.
Proof.
  intros Hok Hl. unfold peerSentHave. apply wp_bind, wp_gets, wp_bind. apply (wp_live_peer c h); [done|]. intros p Hp Hh.
  destruct (_ || (i <? 0)) eqn:Einv; [by apply wp_ret|].
  apply orb_false_iff in Einv as [_ Hi%Z.ltb_ge]. destruct (peerHasPiece s p i) eqn:Ehas; [by apply wp_ret|].
  apply wp_bind, wp_aframe; [frame|]. intros _ s1 Hv1. assert (Hl1 := Hl). rewrite <- Hv1 in Hl1.
  apply wp_bind, (wp_live_peer c h); [done|]. intros p1 Hp1 Hh1. apply wp_bind, wp_gets, wp_bind.
  rewrite (peerHasPiece_view s s1 p p1) by (rewrite ?geo_view, ?Hv1; congruence). rewrite Ehas. cbn [negb].
  eapply wp_mono; [apply (shift_spec false i s1); [rewrite geo_view, Hv1; apply (av_geo _ Hok)|done]|].
  cbv beta. intros _ s2 [_ Hv2]. rewrite Hv1 in Hv2. apply wp_bind, wp_modify.
  assert (Hsent : peerSentHaveAll h = false ∧ i ∉ _peerPieces h).
  { unfold peerHasPiece, peerHasAllPieces in Ehas. rewrite Hh in Ehas. destruct (peerSentHaveAll h); [done|].
    split; [done|]. intros Hin. destruct (geo s); cbn in Ehas; [destruct (_ =? _); [done|]|]; by rewrite bool_decide_eq_true_2 in Ehas. }
  destruct Hsent as [Hsent Hni].
  assert (Hl2 : aHave (availView s2) !! c = Some h) by (rewrite Hv2; apply Hl).
  pose proof (on_have_view c (λ x, set__peerPieces ({[i]} ∪ _peerPieces x) x) s2 h Hl2) as Hv3.
  set (s3 := set_peers _ s2) in *. rewrite Hv2 in Hv3. cbn in Hv3.
  assert (Hok3 : avail_ok s3).
  { unfold avail_ok. eapply (live_step (availView s) (availView s3) c h (set__peerPieces ({[i]} ∪ _peerPieces h) h));
      rewrite ?Hv3; try done; cbn.
    - pose proof (not_all c h _ Hok Hl Hsent). split; [congruence|done].
    - apply Hl.
    - congruence.
    - intros j [->%elem_of_singleton|Hj]%elem_of_union; [done|]. by apply (av_range _ Hok c h j); [apply Hl|].
    - intros j n Hj. destruct (decide (j = i)) as [->|Hne].
      + rewrite list_lookup_alter_eq, list_lookup_fmap. destruct (pieces s !! Z.to_nat i); [|done]. cbn. intros [= <-].
        eexists. split; [done|]. rewrite (ind_false (i ∈ _peerPieces h)), ind_true by set_solver. unfold shift. lia.
      + rewrite list_lookup_alter_ne by lia. intros Hn. exists n. split; [done|].
        rewrite (ind_iff (j ∈ {[i]} ∪ _peerPieces h) (j ∈ _peerPieces h)) by set_solver. lia. }
  apply wp_bind, wp_gets, wp_bind. eapply wp_keeps; [apply aframe_keeps; frame|done|]. intros _ s4 Hok4.
  apply wp_bind. eapply wp_keeps; [apply maybeDrop_avail|done|]. intros _ s5 Hok5. by apply wp_ret.
Qed.

Lemma onPeerHasAllPieces_avail o c s h :
  avail_ok s → live c h (availView s) → wp avail_safe (onPeerHasAllPieces o c) (λ _, avail_ok) s.
Proof.
  intros Hok Hl. pose proof Hl as (Hh & Hcl & Hc). pose proof (av_geo _ Hok) as Hg. unfold onPeerHasAllPieces.
  apply wp_bind, wp_gets, wp_bind, (wp_live_peer c h); [done|]. intros p Hp Eh. rewrite Eh.
  assert (Hi : haveInfo s = true) by (unfold haveInfo; cbn in Hg; by destruct Hg as [g ->]). rewrite Hi. cbn [when].
  apply wp_bind. eapply wp_mono; [apply (dec_loop (_peerPieces h) s Hg)|].
  - intros i. by apply (av_range _ Hok c h).
  - intros i n Hin. by apply (counts_positive _ c h), (live_counts c h).
  - cbv beta. intros _ s1 Hv1. apply wp_bind, wp_modify, wp_bind, wp_modify.
    set (s2 := set_connsWithAllPieces _ s1).
    assert (Hh2 : aHave (availView s2) !! c = Some h) by (change (aHave (availView s1) !! c = Some h); by rewrite Hv1).
    pose proof (on_have_view c (λ x, mkHaveSide ∅ true (peerClosed x)) s2 h Hh2) as Hv3.
    set (s3 := set_peers _ s2) in *.
    assert (Hv2 : availView s2 = mkAView (aRel (availView s1)) (aHave (availView s1)) ({[c]} ∪ aAll (availView s1))
      (aConns (availView s1)) (aGeo (availView s1))) by done.
    rewrite Hv2, Hv1 in Hv3. cbn [aRel aHave aAll aConns aGeo with_rel] in Hv3.
    assert (Hok3 : avail_ok s3).
    { unfold avail_ok. eapply (live_step (availView s) (availView s3) c h (mkHaveSide ∅ true (peerClosed h)));
        rewrite ?Hv3; try done; cbn [aRel aAll peerSentHaveAll _peerPieces].
      - set_solver.
      - split; [intros _; apply elem_of_union_l, elem_of_singleton_2|]; done.
      - intros i n Hi' Hn. apply adjust_dec in Hn as (k & Hk & ->); [|done]. exists k. split; [done|].
        rewrite (ind_false (i ∈ ∅)) by set_solver. lia. }
    apply wp_bind, wp_gets, wp_bind. eapply wp_keeps; [apply aframe_keeps; frame|done|]. intros _ s4 Hok4.
    eapply wp_keeps; [apply maybeDrop_avail|done|]. by intros _ s5 Hok5.
Qed.

Lemma peerSentHaveNone_avail o c s h :
  avail_ok s → live c h (availView s) → peerSentHaveAll h = false →
  wp avail_safe (peerSentHaveNone o c) (λ _, avail_ok) s.
Proof.
  intros Hok Hl Hs. pose proof Hl as (Hh & Hcl & Hc). pose proof (not_all c h _ Hok Hl Hs) as Hna.
  unfold peerSentHaveNone. apply wp_bind, (wp_live_peer c h); [done|]. intros p Hp Eh. rewrite Eh, Hs. cbn [negb when].
  apply wp_bind. eapply wp_mono; [apply (decPeer_view c s h (_peerPieces h) Hh (av_geo _ Hok) eq_refl)|].
  - intros i. by apply (av_range _ Hok c h).
  - intros _ i n Hi. by apply (counts_positive _ c h), (live_counts c h).
  - cbv beta zeta. rewrite bool_decide_eq_false_2 by done. intros _ s1 Hv1. apply wp_bind, wp_modify.
    assert (Hh1 : aHave (availView s1) !! c = Some h) by (by rewrite Hv1).
    pose proof (on_have_view c (λ x, mkHaveSide ∅ false (peerClosed x)) s1 h Hh1) as Hv2.
    set (s2 := set_peers _ s1) in *. rewrite Hv1 in Hv2. cbn [aRel aHave aAll aConns aGeo] in Hv2.
    assert (Hok2 : avail_ok s2).
    { unfold avail_ok. eapply (live_step (availView s) (availView s2) c h (mkHaveSide ∅ false (peerClosed h)));
        rewrite ?Hv2; try done; cbn [aRel aAll peerSentHaveAll _peerPieces].
      - set_solver.
      - split; [done|set_solver].
      - intros i n Hi' Hn. apply adjust_dec in Hn as (k & Hk & ->); [|done]. exists k. split; [done|].
        rewrite (ind_false (i ∈ ∅)) by set_solver. lia. }
    apply wp_bind. eapply wp_keeps; [apply maybeDrop_avail|done|]. intros _ s3 Hok3. by apply wp_ret.
Qed.

Lemma elem_of_symdiff a b x : x ∈ symdiff a b ↔ (x ∈ a ∧ x ∉ b) ∨ (x ∈ b ∧ x ∉ a).
Proof. unfold symdiff. set_solver. Qed.

Lemma symdiff_twice a b : symdiff a (symdiff b a) = b.
Proof.
  apply set_eq. intros x. rewrite !elem_of_symdiff. destruct (decide (x ∈ a)), (decide (x ∈ b)); tauto.
Qed.

Lemma boolSliceToBitmap_nonneg bf i : i ∈ boolSliceToBitmap bf → 0 ≤ i.
Proof.
  unfold boolSliceToBitmap. rewrite elem_of_list_to_set, list_elem_of_omap. intros ([k b] & _ & Hk).
  cbn in Hk. destruct b; [|done]. injection Hk as <-. lia.
Qed.

(** The pieces named by the bitfield replace those the peer had. *)
Lemma applyBitfield_avail c bm s h :
  avail_ok s → live c h (availView s) → peerSentHaveAll h = false → (∀ i, i ∈ bm → 0 ≤ i) →
  wp avail_safe (r ← applyBitfield c (symdiff bm (_peerPieces h));
                 _ ← on_have c (λ x, set__peerPieces (symdiff (_peerPieces x) (symdiff bm (_peerPieces h))) x);
                 mret r)
    (λ _, avail_ok) s.
Proof.
  intros Hok Hl Hs Hbm. pose proof Hl as (Hh & Hcl & Hc). pose proof (not_all c h _ Hok Hl Hs) as Hna.
  set (ch := symdiff bm (_peerPieces h)).
  assert (Hge : ∀ i, i ∈ ch → 0 ≤ i).
  { intros i [[Hi _]|[Hi _]]%elem_of_symdiff; [by apply Hbm|by apply (av_range _ Hok c h)]. }
  apply wp_bind. unfold applyBitfield. apply wp_bind, (wp_live_peer c h); [done|]. intros p Hp Eh. rewrite Eh.
  apply wp_bind, wp_gets, wp_bind.
  eapply wp_mono; [apply (shift_loop (λ x, bool_decide (x ∈ _peerPieces h)) (ascending ch) s (av_geo _ Hok))|].
  - unfold ascending. rewrite merge_sort_Permutation. apply NoDup_elements.
  - apply Forall_forall. intros i Hi%elem_of_ascending. by apply Hge.
  - intros i n _ Hi%bool_decide_eq_true. by apply (counts_positive _ c h), (live_counts c h).
  - cbv beta. intros _ s1 Hv1. apply wp_ret, wp_bind, wp_modify, wp_ret.
    assert (Hh1 : aHave (availView s1) !! c = Some h) by (by rewrite Hv1).
    pose proof (on_have_view c (λ x, set__peerPieces (symdiff (_peerPieces x) ch) x) s1 h Hh1) as Hv2.
    set (s2 := set_peers _ s1) in *. rewrite Hv1 in Hv2. cbn [aRel aHave aAll aConns aGeo with_rel] in Hv2.
    unfold ch in Hv2 at 2. rewrite symdiff_twice in Hv2. unfold avail_ok.
    eapply (live_step (availView s) (availView s2) c h (set__peerPieces bm h));
      rewrite ?Hv2; try done; cbn [aRel aAll peerSentHaveAll _peerPieces set__peerPieces].
    + split; [congruence|done].
    + congruence.
    + intros i n Hi. rewrite lookup_adjust, Z2Nat.id by done.
      destruct (aRel (availView s) !! Z.to_nat i) as [k|]; [|done]. cbn [fmap option_fmap option_map]. intros [= <-].
      exists k. split; [done|].
      assert (Hch : i ∈ ascending ch ↔ (i ∈ bm ∧ i ∉ _peerPieces h) ∨ (i ∈ _peerPieces h ∧ i ∉ bm))
        by (rewrite elem_of_ascending; unfold ch; apply elem_of_symdiff).
      unfold ind, shift. destruct (decide (i ∈ _peerPieces h)) as [Ha|Ha], (decide (i ∈ bm)) as [Hb|Hb];
        [rewrite (bool_decide_eq_false_2 (i ∈ ascending ch)) by tauto|rewrite (bool_decide_eq_true_2 (i ∈ ascending ch)) by tauto
        |rewrite (bool_decide_eq_true_2 (i ∈ ascending ch)) by tauto|rewrite (bool_decide_eq_false_2 (i ∈ ascending ch)) by tauto];
        rewrite ?(bool_decide_eq_true_2 (i ∈ _peerPieces h)) by done; rewrite ?(bool_decide_eq_false_2 (i ∈ _peerPieces h)) by done; lia.
Qed.

Lemma wp_bind2 {A B} E (m : act A) (m' : act unit) (k : A → act B) Q Q' s :
  wp E (r ← m; _ ← m'; mret r) Q' s → (∀ r s', Q' r s' → wp E (k r) Q s') → wp E (r ← m; _ ← m'; k r) Q s.
Proof.
  unfold wp, mbind, act_bind, mret, act_ret. destruct (m s) as [[a s1]|w]; [|done].
  destruct (m' s1) as [[[] s2]|w]; [|done]. intros H1 H2. by apply H2.
Qed.

(** Taking back that the peer has everything. *)
Lemma untell_all c s h :
  avail_ok s → live c h (availView s) → peerSentHaveAll h = true →
  let s' := set_peers (alter (λ p, set_pHave (set_peerSentHaveAll false (pHave p)) p) c (peers s))
              (set_connsWithAllPieces (connsWithAllPieces s ∖ {[c]}) s) in
  avail_ok s' ∧ live c (mkHaveSide ∅ false false) (availView s').
Proof.
  intros Hok Hl Hs s'. pose proof Hl as (Hh & Hcl & Hc). pose proof (av_none _ Hok c h Hh Hs) as He.
  assert (Ev : availView s' = mkAView (aRel (availView s)) (<[c := set_peerSentHaveAll false h]> (aHave (availView s)))
    (aAll (availView s) ∖ {[c]}) (aConns (availView s)) (aGeo (availView s))).
  { pose (s0 := set_connsWithAllPieces (connsWithAllPieces s ∖ {[c]}) s).
    exact (on_have_view c (set_peerSentHaveAll false) s0 h Hh). }
  assert (Eh : set_peerSentHaveAll false h = mkHaveSide ∅ false false) by (destruct h; cbn in *; by subst).
  rewrite Eh in Ev. split.
  - unfold avail_ok. eapply (live_step (availView s) (availView s') c h (mkHaveSide ∅ false false)); rewrite ?Ev; try done;
      cbn [aRel aAll peerSentHaveAll _peerPieces].
    + set_solver.
    + split; [done|set_solver].
    + intros i n _ Hn. exists n. split; [done|]. rewrite He. lia.
  - rewrite Ev. unfold live. cbn [aHave aConns peerClosed]. by rewrite lookup_insert_eq.
Qed.

Lemma set_sent_same c s h :
  live c h (availView s) → peerSentHaveAll h = false →
  availView (set_peers (alter (λ p, set_pHave (set_peerSentHaveAll false (pHave p)) p) c (peers s)) s) = availView s.
Proof.
  intros (Hh & _) Hs. rewrite (on_have_view c (set_peerSentHaveAll false) s h Hh).
  replace (set_peerSentHaveAll false h) with h by (destruct h; cbn in *; by subst).
  rewrite insert_id by done. done.
Qed.

Lemma peerSentBitfield_avail o c bf s h :
  avail_ok s → live c h (availView s) → wp avail_safe (peerSentBitfield o c bf) (λ _, avail_ok) s.
Proof.
  intros Hok Hl. unfold peerSentBitfield. apply wp_bind, wp_assert; [|done]. intros _.
  apply wp_bind, wp_aframe; [frame|]. intros _ s1 Hv1. unfold avail_ok in Hok. rewrite <- Hv1 in Hok, Hl. clear Hv1 s.
  apply wp_bind, wp_gets. cbv zeta. set (bm := boolSliceToBitmap _).
  assert (Hbm : ∀ i, i ∈ bm → 0 ≤ i) by (intros i; apply boolSliceToBitmap_nonneg).
  clearbody bm. destruct (match geo s1 with Some _ => _ | None => _ end).
  { apply wp_bind. eapply wp_mono; [by apply (onPeerHasAllPieces_avail o c s1 h)|]. cbv beta. intros _ s2 Hok2. by apply wp_ret. }
  apply wp_bind, wp_aframe; [frame|]. intros _ s2 Hv2. rewrite <- Hv2 in Hok, Hl. clear Hv2 s1.
  apply wp_bind, (wp_live_peer c h); [done|]. intros p Hp Eh. apply wp_bind.
  eapply (wp_mono _ _ (λ changed s', ∃ h', avail_ok s' ∧ live c h' (availView s') ∧ peerSentHaveAll h' = false ∧
    changed = symdiff bm (_peerPieces h'))).
  - rewrite Eh. destruct (peerSentHaveAll h) eqn:Hs; [|apply wp_ret; by exists h].
    unfold deleteConnWithAllPieces. apply wp_bind, wp_bind, wp_gets, wp_bind, wp_modify, wp_ret.
    pose proof Hl as (Hh & Hcl & Hc). pose proof (proj1 (av_all _ Hok c h Hh Hcl) Hs) as Hall.
    change (connsWithAllPieces s2) with (aAll (availView s2)). rewrite (bool_decide_eq_true_2 _ Hall).
    apply wp_bind, wp_ret, wp_bind, wp_modify.
    rewrite (av_none _ Hok c h Hh Hs), bool_decide_eq_true_2 by done. apply wp_bind, wp_ret, wp_ret.
    destruct (untell_all c s2 h Hok Hl Hs) as [Hok' Hl']. exists (mkHaveSide ∅ false false).
    split_and!; [done|done|done|]. unfold symdiff. cbn. set_solver.
  - cbv beta. intros changed s3 (h' & Hok3 & Hl3 & Hs3 & ->). apply wp_bind, wp_modify.
    pose proof (set_sent_same c s3 h' Hl3 Hs3) as Hv4. set (s4 := set_peers _ s3) in *.
    assert (Hok4 : avail_ok s4) by (unfold avail_ok; by rewrite Hv4). rewrite <- Hv4 in Hl3.
    eapply wp_bind2; [by apply (applyBitfield_avail c bm s4 h')|]. cbv beta. intros r s5 Hok5.
    apply wp_bind. eapply wp_keeps; [apply aframe_keeps; frame|done|]. intros _ s6 Hok6.
    apply wp_bind. eapply wp_keeps; [apply maybeDrop_avail|done|]. intros _ s7 Hok7. by apply wp_ret.
Qed.

(** ** The other operations *)
Lemma onPieceCompleted_avail o i : AKeeps (onPieceCompleted o i).
Proof. unfold onPieceCompleted. akeeps. Qed.
#[export] Hint Resolve onPieceCompleted_avail : keeps.
Lemma updatePieceCompletion_avail o i : AKeeps (updatePieceCompletion o i).
Proof. unfold updatePieceCompletion, pieceCompletionChanged. akeeps. Qed.
#[export] Hint Resolve updatePieceCompletion_avail : keeps.
Lemma banPeerIP_avail o ip : AKeeps (banPeerIP o ip).
Proof. unfold banPeerIP. akeeps. Qed.
Lemma dropBannedPeers_avail o : AKeeps (dropBannedPeers o).
Proof. unfold dropBannedPeers. akeeps. Qed.
#[export] Hint Resolve banPeerIP_avail dropBannedPeers_avail : keeps.
Lemma pieceHashedFailed_avail o i e : AKeeps (pieceHashedFailed o i e).
Proof. unfold pieceHashedFailed. akeeps. Qed.
#[export] Hint Resolve pieceHashedFailed_avail : keeps.
Lemma pieceHasher_avail o i b l e : AKeeps (pieceHasher o i b l e).
Proof. unfold pieceHasher. akeeps. Qed.
Lemma pieceMarked_avail o i : AKeeps (pieceMarked o i).
Proof. unfold pieceMarked. akeeps. Qed.
Lemma peerRequestDataReader_avail o c r id b : AKeeps (peerRequestDataReader o c r id b).
Proof. unfold peerRequestDataReader, peerRequestDataReadFailed. akeeps. Qed.

Section Requests.
Context (po : Z → Z) `{Multiless} `{Heap}.
Lemma aframe_requestLoop g c ps fuel : ∀ heap, AFrame (requestLoop po fuel g c ps heap).
Proof. induction fuel as [|fuel IH]; intros heap; cbn [requestLoop]; frame. Qed.
#[local] Hint Resolve aframe_requestLoop : frame.
Lemma aframe_applyRequestState c next : AFrame (applyRequestState po c next).
Proof. unfold applyRequestState. frame. Qed.
End Requests.

Lemma add_conn_ok s c : avail_ok s → avail_ok (set_conns ({[c]} ∪ conns s) s).
Proof.
  intros [Hgeo Hcnt Hall Hopen Hnone Hrange Hconns]. split; try done. cbn in *.
  intros d x Hx Hd Hor. apply elem_of_union_r. eauto.
Qed.

Lemma dropDuplicates_avail o f c l : AKeeps (dropDuplicates o f c l).
Proof. induction l as [|c0 l IH]; cbn [dropDuplicates]; akeeps. Qed.
#[export] Hint Resolve dropDuplicates_avail : keeps.
Lemma addPeerConn_avail o f w b n c : AKeeps (addPeerConn o f w b n c).
Proof.
  assert (Hadd : AKeeps (modify (λ s, set_conns ({[c]} ∪ conns s) s))) by (intros s Hs; by apply add_conn_ok).
  unfold addPeerConn. repeat keeps_step ltac:(solve [apply Hadd | apply aframe_keeps; frame]).
Qed.

(** A new connection has nothing yet. *)
Lemma new_peer_ok s c p :
  avail_ok s → peers s !! c = None → pHave p = mkHaveSide ∅ false false → avail_ok (set_peers (<[c := p]> (peers s)) s).
Proof.
  intros [Hgeo Hcnt Hall Hopen Hnone Hrange Hconns] Hc Hp.
  assert (Hna : c ∉ connsWithAllPieces s).
  { intros Hin. destruct (Hopen c Hin) as (h & Hh & _). cbn in Hh. by rewrite lookup_fmap, Hc in Hh. }
  split; cbn in *; try done; rewrite ?fmap_insert, ?Hp.
  - intros i n Hi Hn. rewrite (Hcnt i n Hi Hn). unfold countAt. cbn. rewrite fmap_insert, Hp.
    rewrite (size_filter_insert (counts (connsWithAllPieces s) i) (counts (connsWithAllPieces s) i)) by done.
    rewrite lookup_fmap, Hc. cbn. rewrite ind_false; [lia|]. unfold counts. cbn. set_solver.
  - intros d x. rewrite lookup_insert_Some. intros [[<- <-]|[_ Hx]]; [cbn; split; done|eauto].
  - intros d Hd. destruct (decide (d = c)) as [->|]; [done|]. rewrite lookup_insert_ne by done. eauto.
  - intros d x. rewrite lookup_insert_Some. intros [[<- <-]|[_ Hx]]; [done|eauto].
  - intros d x i. rewrite lookup_insert_Some. intros [[<- <-]|[_ Hx]]; [cbn; set_solver|eauto].
  - intros d x. rewrite lookup_insert_Some. intros [[<- <-]|[_ Hx]]; [cbn; naive_solver|eauto].
Qed.
