(* ===== verification/RequestBounds.v ===== *)
(** How many requests are made of a peer, and the room they need in its write
    buffer: bounds for src/requesting.go applyRequestState and
    src/peerconn.go (nominalMaxRequests, maxLocalToRemoteRequests, write). *)
From stdpp Require Import base numbers list strings gmap sorting.
From Stdlib Require Import ZArith Lia.
From S2P Require Import Prelude Wire Metainfo Geometry RequestStrategy OrderedBitmap AllocLim SmartBan SwarmState Swarm SwarmWp SwarmReq Requesting Scenario.
Open Scope Z_scope.

(** What the bounds depend on, for one peer. *)
Record Load : Type := mkLoad { ldReq : ReqSide; ldMax : Z; ldBuf : Z }.

Definition loadOf (p : Peer) : Load := mkLoad (pReq p) (nominalMaxRequests p) (bufLen p).

Definition load (c : nat) (s : Swarm) : option Load := loadOf <$> peers s !! c.

(** Any panic but those of a full buffer. *)
Definition buffer_panics : list string :=
  ["insufficient write buffer"; "couldn't fill apply entire request state"]%string.
Definition buffer_safe (w : string) : Prop := bool_decide (w ∈ buffer_panics) = false.

#[local] Hint Extern 0 (buffer_safe _) => reflexivity : frame.

Abbreviation LFrame c := (Frame (load c) buffer_safe).

Lemma lframe_modify_peer c d f : d ≠ c ∨ (∀ p, loadOf (f p) = loadOf p) → LFrame c (modify_peer d f).
Proof.
  intros Hf. apply frame_modify. intros s. unfold load. cbn. destruct (decide (d = c)) as [->|Hne].
  - destruct Hf as [|Hf]; [done|]. rewrite lookup_alter_eq. destruct (peers s !! c); cbn; by rewrite ?Hf.
  - by rewrite lookup_alter_ne.
Qed.

Lemma lframe_emit c e : LFrame c (emit_event e).
Proof. by apply frame_modify. Qed.
Lemma lframe_stats c d f : LFrame c (modify_peer d (λ p, set_stats (f (stats p)) p)).
Proof. apply lframe_modify_peer. by right. Qed.
Lemma lframe_allStats c d f : LFrame c (allStats d f).
Proof. unfold allStats. frame. apply lframe_stats. Qed.
#[local] Hint Resolve lframe_emit lframe_allStats : frame.

Lemma lframe_ctl c d f :
  (∀ x, PeerMaxRequests (f x) = PeerMaxRequests x ∧ peakRequests (f x) = peakRequests x) → LFrame c (on_ctl d f).
Proof.
  intros Hf. apply lframe_modify_peer. right. intros p. unfold loadOf, nominalMaxRequests, bufLen. cbn.
  by destruct (Hf (pCtl p)) as [-> ->].
Qed.

Lemma lframe_updateExpectingChunks c d : LFrame c (updateExpectingChunks d).
Proof.
  unfold updateExpectingChunks. frame; try by apply lframe_ctl.
  apply frame_lift_go. intros w. unfold expectingChunks. repeat case_match; try done. by intros [= <-].
Qed.
Lemma lframe_updateRequests c d r : LFrame c (updateRequests d r).
Proof. unfold updateRequests. frame. by apply lframe_ctl. Qed.
#[local] Hint Resolve lframe_updateExpectingChunks lframe_updateRequests : frame.

(** Operations on another peer. *)
Section Other.
Context (c d : nat) (Hne : d ≠ c).
Lemma lframe_other_req f : LFrame c (on_req d f).
Proof. apply lframe_modify_peer. by left. Qed.
Lemma lframe_other_ctl f : LFrame c (on_ctl d f).
Proof. apply lframe_modify_peer. by left. Qed.
Lemma lframe_other_buffer f : LFrame c (modify_peer d (λ p, set_writeBuffer (f p) p)).
Proof. apply lframe_modify_peer. by left. Qed.
#[local] Hint Resolve lframe_other_req lframe_other_ctl lframe_other_buffer : frame.

Lemma lframe_other_write m : LFrame c (write d m).
Proof. unfold write. frame. Qed.
#[local] Hint Resolve lframe_other_write : frame.
Lemma lframe_other_deleteRequest r : LFrame c (deleteRequest d r).
Proof. unfold deleteRequest. frame. Qed.
#[local] Hint Resolve lframe_other_deleteRequest : frame.
Lemma lframe_other_cancel r : LFrame c (cancel d r).
Proof. unfold cancel, _cancel, decPeakRequests. frame. Qed.
End Other.

(** ** What a write does to the load *)
Lemma bufLen_app m p : Zsum (map msgLen (writeBuffer p ++ [m])) = bufLen p + msgLen m.
Proof. unfold bufLen. rewrite map_app, Zsum_app. cbn. lia. Qed.

Lemma write_load c m s l :
  load c s = Some l → (MarshalBinary m).2 = true →
  wp buffer_safe (write c m) (λ more s', let b := ldBuf l + msgLen m in
    load c s' = Some (mkLoad (ldReq l) (ldMax l) b) ∧ more = (b <? writeBufferHighWaterLen)) s.
Proof.
  intros Hl Hm. unfold load in Hl. destruct (peers s !! c) as [p0|] eqn:Ep; [|done]. injection Hl as <-.
  unfold write. rewrite Hm. apply wp_bind, wp_ret, wp_bind, wp_modify, wp_bind, wp_peer; cbn.
  2: { by rewrite lookup_alter_eq, Ep. }
  intros p. rewrite lookup_alter_eq, Ep. intros [= <-].
  apply wp_bind. eapply wp_mono; [apply lframe_allStats|]. cbv beta. intros _ s' Hs'. apply wp_ret.
  rewrite Hs', Z.ltb_antisym. unfold load. cbn [peers set_peers]. rewrite lookup_alter_eq, Ep. cbn [fmap option_fmap option_map].
  unfold loadOf at 1. cbn [ldReq ldMax ldBuf loadOf]. unfold bufLen at 1 3. cbn [writeBuffer set_writeBuffer].
  by rewrite bufLen_app.
Qed.

(** ** Making requests *)
Definition count (q : ReqSide) : Z := Z.of_nat (length (Requests q)) + Z.of_nat (size (Cancelled q)).

Lemma marshal_request r t :
  t = Request ∨ t = Reject →
  (MarshalBinary (ToMsg r t)).2 = true ∧ msgLen (ToMsg r t) = 17.
Proof.
  intros [-> | ->]; (split; [reflexivity|]); unfold msgLen, MarshalBinary, marshalBody; cbn;
    by rewrite !length_app, !length_be_encode.
Qed.

Lemma request_load c r s l :
  load c s = Some l →
  wp buffer_safe (request c r) (λ o s',
    (load c s' = Some l ∧ (o = Some true ∨ o = None)) ∨
    (∃ q, load c s' = Some (mkLoad q (ldMax l) (ldBuf l + 17)) ∧ count q = count (ldReq l) + 1 ∧
       o = Some (ldBuf l + 17 <? writeBufferHighWaterLen))) s.
Proof.
  intros Hl. unfold request. apply wp_bind.
  eapply wp_mono; [apply (frame_wp (load c) buffer_safe _ (λ x, x = Some l)); [|done]|].
  { unfold shouldRequest. frame. }
  cbv beta. intros _ s1 Hl1. apply wp_bind, wp_peer; [|done]. intros p Hp.
  case_bool_decide; [apply wp_ret; by left; eauto|].
  destruct (nominalMaxRequests p <=? _); [apply wp_ret; by left; eauto|].
  unfold load in Hl1. rewrite Hp in Hl1. injection Hl1 as <-.
  set (f := λ x : ReqSide, mkReqSide (Requests x ++ [r]) (Cancelled x)
    (<[r := default 0 (validReceiveChunks x !! r) + 1]> (validReceiveChunks x))). apply wp_bind, wp_modify, wp_bind, wp_modify, wp_bind.
  set (s2 := set_requestState _ _).
  assert (Hs2 : load c s2 = Some (mkLoad (f (pReq p)) (nominalMaxRequests p) (bufLen p))).
  { unfold load. cbn. rewrite lookup_alter_eq, Hp. reflexivity. }
  eapply wp_mono; [apply lframe_updateExpectingChunks|]. cbv beta. intros _ s3 Hs3. rewrite Hs2 in Hs3.
  apply wp_bind, wp_info; [|done]. intros g _. destruct (marshal_request (requestIndexToRequest g r) Request) as [Hok Hlen]; [by left|].
  apply wp_bind. eapply wp_mono; [by apply (write_load c _ s3 _ Hs3)|]. cbv beta zeta. cbn [ldBuf ldMax ldReq].
  rewrite Hlen. intros more s4 [Hs4 ->]. apply wp_ret. right. exists (f (pReq p)). split_and!; [exact Hs4| |done].
  unfold count, f. cbn. rewrite length_app. cbn. lia.
Qed.

Lemma cancelRequest_load c r s e :
  requestingPeer s r = Some e → e ≠ c → wp buffer_safe (cancelRequest r) (λ _ s', load c s' = load c s) s.
Proof.
  intros He Hne. unfold cancelRequest. apply wp_bind, wp_gets. rewrite He. apply wp_bind.
  eapply wp_mono; [by apply lframe_other_cancel|]. cbv beta. intros _ s' Hs'.
  apply wp_bind, wp_gets, wp_bind, wp_assert; [|done]. intros _. by apply wp_ret.
Qed.

(** The loop never meets a full buffer if all the requests it may make fit. *)
Lemma requestLoop_fits po `{Multiless} `{Heap} g c ps fuel : ∀ heap s l,
  load c s = Some l →
  ldBuf l + 17 * Z.max 0 (ldMax l - count (ldReq l)) < writeBufferHighWaterLen →
  wp buffer_safe (requestLoop po fuel g c ps heap) (λ more s', more = true ∧
    ∃ q b, load c s' = Some (mkLoad q (ldMax l) b) ∧
      count (ldReq l) ≤ count q ≤ Z.max (count (ldReq l)) (ldMax l)) s.
Proof.
  induction fuel as [|fuel IH]; intros heap s l Hl Hfit; cbn [requestLoop].
  { apply wp_ret. split; [done|]. destruct l as [q m b]. exists q, b. cbn in *. split; [done|lia]. }
  assert (Hstop : ∃ q b, load c s = Some (mkLoad q (ldMax l) b) ∧
      count (ldReq l) ≤ count q ≤ Z.max (count (ldReq l)) (ldMax l)).
  { destruct l as [q m b]. exists q, b. cbn in *. split; [done|lia]. }
  apply wp_bind, wp_gets, wp_bind, wp_peer; [|done]. intros p Hp.
  assert (Hlp : l = loadOf p) by (unfold load in Hl; rewrite Hp in Hl; by injection Hl as <-).
  change (Z.of_nat (length (Requests (pReq p))) + Z.of_nat (size (Cancelled (pReq p)))) with (count (pReq p)).
  destruct (Z.ltb_spec (count (pReq p)) (nominalMaxRequests p)) as [Hlt|]; [|by apply wp_ret].
  destruct (heapPop _ heap) as [[req heap']|]; [|by apply wp_ret]. apply wp_bind.
  eapply (wp_mono _ _ (λ _ s', load c s' = Some l)).
  - destruct (requestingPeer s req) as [e|] eqn:Ee; [|by apply wp_ret].
    case_bool_decide as Hec; [by apply wp_ret|]. apply wp_bind, wp_peer; [|done]. intros q Hq.
    destruct (_ || _); [by apply wp_ret|]. apply wp_bind.
    eapply wp_mono; [by apply (cancelRequest_load c req s e)|]. cbv beta. intros _ s1 Hs1. apply wp_ret. congruence.
  - cbv beta. intros skip s1 Hl1. destruct skip; [by apply IH|]. unfold mustRequest. apply wp_bind, wp_bind.
    eapply wp_mono; [by apply request_load|]. cbv beta. intros o s2 [[Hl2 [->| ->]]|(q & Hl2 & Hcnt & ->)].
    + apply wp_ret. cbn [negb]. by apply IH.
    + by apply wp_panic.
    + apply wp_ret. assert (Hlq : ldReq l = pReq p ∧ ldMax l = nominalMaxRequests p) by (by subst l).
      destruct Hlq as [Hlq Hlm]. rewrite Hlq, Hlm in *.
      rewrite (proj2 (Z.ltb_lt _ _)) by lia. cbn [negb].
      eapply wp_mono; [apply (IH heap' s2 _ Hl2); cbn; lia|]. cbn. intros more s3 [-> (q' & b & Hl3 & Hc3)].
      split; [done|]. exists q', b. split; [done|lia].
Qed.

Lemma maxLocalToRemoteRequests_eq : maxLocalToRemoteRequests = 963.
Proof. vm_compute. reflexivity. Qed.

Lemma nominalMaxRequests_range p : 1 ≤ nominalMaxRequests p ≤ 963.
Proof. unfold nominalMaxRequests. rewrite maxLocalToRemoteRequests_eq. lia. Qed.

Lemma setInterested_load c b s l :
  load c s = Some l → ldBuf l + 5 < writeBufferHighWaterLen →
  wp buffer_safe (setInterested c b) (λ ok s', ok = true ∧
    ∃ k, load c s' = Some (mkLoad (ldReq l) (ldMax l) k) ∧ k ≤ ldBuf l + 5) s.
Proof.
  intros Hl Hroom. unfold setInterested. apply wp_bind, wp_peer; [|done]. intros p Hp.
  case_bool_decide. { apply wp_ret. split; [done|]. destruct l as [q m k]. exists k. cbn in *. split; [done|lia]. }
  apply wp_bind, wp_gets, wp_bind. eapply wp_mono.
  { apply (frame_wp (load c) buffer_safe _ (λ x, x = Some l)); [|done]. apply lframe_ctl. intros x.
    destruct b; cbn; [done|]. by destruct (lastBecameInterested x). }
  cbv beta. intros _ s1 Hl1. apply wp_bind. eapply wp_mono; [apply lframe_updateExpectingChunks|].
  cbv beta. intros _ s2 Hl2. rewrite Hl1 in Hl2.
  eapply wp_mono; [apply (write_load c _ s2 _ Hl2); by destruct b|]. cbv beta zeta.
  assert (Hlen : msgLen (typeMsg (if b then Interested else NotInterested)) = 5) by (by destruct b).
  rewrite Hlen. intros ok s3 [Hl3 ->]. split; [by apply Z.ltb_lt|]. eexists. split; [exact Hl3|lia].
Qed.

(** C6. Below the low water mark of the write buffer, [applyRequestState]
    never panics because the buffer is full, and the requests of the peer that
    are outstanding, or cancelled but not acknowledged, end at most at
    [nominalMaxRequests], or at as many as there were before if that was
    more. *)
Theorem applyRequestState_room po `{Multiless} `{Heap} c next s p :
  peers s !! c = Some p → bufLen p ≤ writeBufferLowWaterLen →
  wp buffer_safe (applyRequestState po c next) (λ _ s', ∃ p', peers s' !! c = Some p' ∧
    count (pReq p') ≤ Z.max (count (pReq p)) (nominalMaxRequests p)) s.
Proof.
  intros Hp Hroom. assert (Hl : load c s = Some (loadOf p)) by (unfold load; by rewrite Hp).
  assert (HL : writeBufferLowWaterLen = 16384) by reflexivity.
  assert (HH : writeBufferHighWaterLen = 32768) by reflexivity.
  pose proof (nominalMaxRequests_range p) as Hrange.
  unfold applyRequestState. apply wp_bind.
  eapply wp_mono; [apply (setInterested_load c _ s _ Hl); cbn; lia|]. cbv beta. intros ok s1 [-> (k & Hl1 & Hk)].
  cbn [ldReq ldMax ldBuf loadOf] in *. apply wp_bind, wp_ret, wp_bind, wp_peer; [|done]. intros p1 Hp1.
  apply wp_bind, wp_assert; [intros _|done]. apply wp_bind, wp_gets, wp_bind.
  eapply (wp_mono _ _ (λ more s', more = true ∧ ∃ q b, load c s' = Some (mkLoad q (nominalMaxRequests p) b) ∧
    count q ≤ Z.max (count (pReq p)) (nominalMaxRequests p))).
  - destruct (geo s1) as [g|]; [|apply wp_ret; split; [done|]; exists (pReq p), k; split; [done|lia]].
    eapply wp_mono; [apply (requestLoop_fits po g c _ _ _ s1 _ Hl1); cbn|].
    + assert (0 ≤ count (pReq p)) by (unfold count; lia). lia.
    + cbn. intros more s2 [-> (q & b & Hl2 & Hc)]. split; [done|]. exists q, b. split; [done|lia].
  - cbv beta. intros more s2 [-> (q & b & Hl2 & Hc)]. apply wp_bind, wp_ret.
    unfold load in Hl2. destruct (peers s2 !! c) as [p2|] eqn:Hp2; [|done]. injection Hl2 as Hq _ _.
    apply wp_bind, wp_peer; [|done]. intros p3 Hp3. apply wp_bind, wp_gets, wp_modify. cbn.
    rewrite lookup_alter_eq, Hp2. eexists. split; [done|]. cbn. by rewrite Hq.
Qed.

(** ** A full buffer *)

(** What a connection looks like that rejects all it is asked: we choke it,
    it supports the fast extension and nothing is outstanding. *)
Record rejecting (c : nat) (interest : bool) (k : Z) (s : Swarm) : Prop := {
  rj_open : torrentClosed s = false;
  rj_peer : ∃ p, peers s !! c = Some p ∧ fastEnabled s p = true ∧ peerClosed (pHave p) = false ∧
    choking (pUp p) = true ∧ peerRequests (pUp p) = ∅ ∧ Requests (pReq p) = [] ∧
    interested (pCtl p) = interest ∧ bufLen p = k
}.

Lemma write_rejecting c b k m s :
  rejecting c b k s → (MarshalBinary m).2 = true →
  wp never (write c m) (λ more, λ s', rejecting c b (k + msgLen m) s' ∧ more = (k + msgLen m <? writeBufferHighWaterLen)) s.
Proof.
  intros [Ho (p & Hp & Hf & Hc & Hch & Hr & Hq & Hi & Hk)] Hm. unfold write. rewrite Hm.
  apply wp_bind, wp_ret, wp_bind, wp_modify, wp_bind. unfold wp at 1, peer. cbn.
  rewrite lookup_alter_eq, Hp. unfold wp. cbn.
  change (bufLen (set_writeBuffer _ p)) with (Zsum (map msgLen (writeBuffer p ++ [m]))).
  rewrite bufLen_app, Hk, Z.ltb_antisym. split; [|done].
  split; [done|]. cbn. rewrite !lookup_alter_eq, Hp. eexists. split; [reflexivity|]. cbn.
  split_and!; try done. unfold bufLen. cbn. by rewrite bufLen_app, Hk.
Qed.

(** The k-th request that the peer sends is answered in the buffer. *)
Lemma request_rejecting o h ext c b k m r s :
  rejecting c b k s → Keepalive m = false → Type_ m = Request → newRequestFromMessage m = Ok r →
  wp never (handleMessage o h ext c m) (λ _, rejecting c b (k + 17)) s.
Proof.
  intros Hs Hka Ht Hr. pose proof Hs as [Ho (p & Hp & Hf & Hc & Hch & Hpr & Hq & Hi & Hk)].
  unfold handleMessage. apply wp_bind, wp_peer; [|by rewrite Hp]. rewrite Hp. intros ? [= <-].
  apply wp_bind, wp_gets. rewrite Ho, Hc, Hka, Ht. cbn [orb FastExtension andb].
  apply wp_bind, wp_modify. set (s1 := set_peers _ s).
  assert (Hs1 : rejecting c b k s1).
  { split; [done|]. unfold s1. cbn. rewrite lookup_alter_eq, Hp. eexists. split; [done|]. by split_and!. }
  change (FastExtension Request && negb (fastEnabled s p)) with false. cbn [Z.eqb Pos.eqb Request Choke Unchoke Interested NotInterested Have Bitfield].
  clearbody s1. clear dependent p. clear Hs Ho. destruct Hs1 as [Ho (p & Hp & Hf & Hc & Hch & Hpr & Hq & Hi & Hk)].
  apply wp_bind. unfold wp at 1, lift_go. rewrite Hr. unfold onReadRequest.
  apply wp_bind, wp_peer; [|by rewrite Hp]. rewrite Hp. intros ? [= <-]. apply wp_bind, wp_gets.
  rewrite Hf, Hpr, lookup_empty, Hch. rewrite bool_decide_eq_false_2 by (by intros [? ?]). cbn [when].
  unfold reject. apply wp_bind, wp_bind, wp_peer; [|by rewrite Hp]. rewrite Hp. intros ? [= <-].
  apply wp_bind, wp_gets, wp_bind. rewrite Hf. apply wp_ret, wp_bind.
  destruct (marshal_request r Reject) as [Hok Hlen]; [by right|].
  eapply wp_mono; [apply (write_rejecting c b k _ s1); [|done]; split; eauto 10|].
  cbv beta. rewrite Hlen. intros _ s2 [Hs2 _]. rewrite Hpr, lookup_empty. by apply wp_ret.
Qed.

Definition isRequest (m : Message) : Prop :=
  Keepalive m = false ∧ Type_ m = Request ∧ ∃ r, newRequestFromMessage m = Ok r.

Definition readAll (o : gset nat → list nat) (h : list Z → list Z) ext (c : nat) (ms : list Message) : act unit :=
  forEach ms (λ m, _ ← handleMessage o h ext c m; mret tt).

Lemma readAll_rejecting o h ext c b ms : ∀ k s,
  rejecting c b k s → Forall isRequest ms →
  wp never (readAll o h ext c ms) (λ _, rejecting c b (k + 17 * Z.of_nat (length ms))) s.
Proof.
  induction ms as [|m ms IH]; intros k s Hs Hms; unfold readAll; cbn [forEach].
  { apply wp_ret. cbn. by rewrite Z.add_0_r. }
  inversion Hms as [|? ? (Hk & Ht & r & Hr) Hms']; subst. apply wp_bind, wp_bind.
  eapply wp_mono; [by apply (request_rejecting o h ext c b k m r s)|]. cbv beta. intros _ s1 Hs1. apply wp_ret.
  eapply wp_mono; [by apply (IH (k + 17) s1)|]. cbv beta. intros _ s2. by replace (k + 17 + _) with (k + 17 * Z.of_nat (S (length ms))) by lia.
Qed.

Lemma setInterested_full c b k s :
  rejecting c (negb b) k s → writeBufferHighWaterLen ≤ k + 5 →
  wp never (setInterested c b) (λ ok _, ok = false) s.
Proof.
  intros [Ho (p & Hp & Hf & Hc & Hch & Hpr & Hq & Hi & Hk)] Hfull. unfold setInterested.
  apply wp_bind, wp_peer; [|by rewrite Hp]. rewrite Hp. intros ? [= <-]. rewrite Hi.
  rewrite bool_decide_eq_false_2 by (by destruct b). apply wp_bind, wp_gets, wp_bind, wp_modify.
  set (s1 := set_peers _ s).
  assert (Hs1 : rejecting c b k s1).
  { split; [done|]. unfold s1. cbn. rewrite lookup_alter_eq, Hp. eexists. split; [done|]. split_and!; try done.
    destruct b; cbn; [done|]. by destruct (lastBecameInterested _). }
  clearbody s1. apply wp_bind.
  eapply (wp_mono _ _ (λ _, rejecting c b k)).
  - clear -Hs1. destruct Hs1 as [Ho (p & Hp & Hf & Hc & Hch & Hpr & Hq & Hi & Hk)]. unfold updateExpectingChunks.
    apply wp_bind, wp_peer; [|by rewrite Hp]. rewrite Hp. intros ? [= <-]. apply wp_bind, wp_gets, wp_bind.
    unfold wp at 1, lift_go, expectingChunks. rewrite Hq. cbn.
    destruct (lastStartedExpecting (pCtl p)); [apply wp_modify|apply wp_ret]; (split; [done|]); cbn.
    + rewrite lookup_alter_eq, Hp. eexists. split; [done|]. by split_and!.
    + eauto 10.
  - cbv beta. intros _ s2 Hs2. eapply wp_mono; [by apply (write_rejecting c b k); [|by destruct b]|].
    cbv beta. replace (msgLen _) with 5 by (by destruct b). intros ok s3 [_ ->]. by apply Z.ltb_ge.
Qed.

(** The low water mark is not enforced: a peer that we choke and that
    uses the fast extension can send requests while it reads nothing, each is
    answered with a reject in the write buffer, and when the buffer is full
    the next [applyRequestState] that changes our interest panics. *)
Theorem reject_flood_panics o h ext po `{Multiless} `{Heap} c k ms next s :
  rejecting c (negb (dInterested next)) k s → Forall isRequest ms →
  writeBufferHighWaterLen ≤ k + 17 * Z.of_nat (length ms) + 5 →
  ∃ s', readAll o h ext c ms s = Ok (tt, s') ∧
    applyRequestState po c next s' = Panic "insufficient write buffer".
Proof.
  intros Hs Hms Hfull. destruct (never_ok _ _ _ (readAll_rejecting o h ext c _ ms k s Hs Hms)) as ([] & s' & Hrun & Hs').
  exists s'. split; [done|]. unfold applyRequestState, mbind, act_bind.
  destruct (never_ok _ _ _ (setInterested_full c _ _ s' Hs' Hfull)) as (ok & s2 & -> & ->). done.
Qed.

(** ** On the concrete torrent *)
Definition exPeer (c : nat) (s : Swarm) : Peer := default (newConnection (exStatic 0) 0) (peers s !! c).

Lemma applyRequestState_room_witness :
  match exApply exSwarm with
  | Ok (_, s') => length (Requests (pReq (exPeer 0 s'))) = 1%nat ∧
      ∃ p', peers s' !! 0%nat = Some p' ∧
        count (pReq p') ≤ Z.max (count (pReq (exPeer 0 exSwarm))) (nominalMaxRequests (exPeer 0 exSwarm))
  | Panic w => buffer_safe w
  end.
Proof.
  assert (Hp : peers exSwarm !! 0%nat = Some (exPeer 0 exSwarm)) by (vm_compute; reflexivity).
  assert (Hb : bufLen (exPeer 0 exSwarm) ≤ writeBufferLowWaterLen) by (vm_compute; congruence).
  pose proof (applyRequestState_room (λ i, i) 0 exDesired exSwarm (exPeer 0 exSwarm) Hp Hb) as H.
  unfold wp in H. fold exApply in H.
  assert (Hq : match exApply exSwarm with
               | Ok (_, s') => length (Requests (pReq (exPeer 0 s'))) = 1%nat
               | Panic _ => True
               end) by (vm_compute; reflexivity).
  destruct (exApply exSwarm) as [[a s']|w]; [by split|exact H].
Defined.

Definition exRequest : Message := ToMsg (mkReq 0 (mkChunkSpec 0 16384)) Request.

Lemma reject_flood_panics_witness :
  ∃ s', readAll exOrder exHash exExt 1 (replicate 1928 exRequest) exSwarm = Ok (tt, s') ∧
    applyRequestState (λ i, i) 1 (mkDesired [4] ∅ true) s' = Panic "insufficient write buffer".
Proof.
  apply (reject_flood_panics exOrder exHash exExt (λ i, i) 1 0 (replicate 1928 exRequest) (mkDesired [4] ∅ true) exSwarm).
  - split; [vm_compute; reflexivity|]. exists (exPeer 1 exSwarm). by vm_compute.
  - apply Forall_replicate. split; [reflexivity|]. split; [reflexivity|]. eexists. reflexivity.
  - rewrite length_replicate. vm_compute. congruence.
Defined.
