(* ===== verification/System.v ===== *)
(** The torrent as a transition system.  Everything that changes its state
    holds the client lock, so a run of the client is a sequence of the
    operations below; an operation that releases the lock is two steps. *)
From stdpp Require Import base numbers list strings gmap sorting.
From Stdlib Require Import ZArith Lia.
From S2P Require Import Prelude Wire Metainfo Geometry RequestStrategy OrderedBitmap AllocLim SmartBan SwarmState Swarm SwarmWp SwarmReq Metadata Requesting Scenario.
Open Scope Z_scope.

Inductive op : Type :=
| OpNewConnection (c : nat) (st : PeerStatic) (maxAlloc : Z)
| OpAddPeerConn (preferred : nat → nat → bool) (worstBadConn : Swarm → option nat)
    (dropDuplicatePeerIds : bool) (maxEstablishedConns : Z) (c : nat)
| OpMessage (c : nat) (m : Message)
| OpChunkWritten (c : nat) (m : Message) (writeErr : bool)
| OpPieceHasher (i : Z) (correct : bool) (failedPeers : list Z) (copyErr : bool)
| OpPieceMarked (i : Z)
| OpApplyRequestState (c : nat) (next : desiredRequestState)
| OpUpload (reserveN : nat → Z → option Z) (c : nat)
| OpDataRead (c : nat) (r : Req) (id : nat) (result : option (list Z))
| OpFlipBuffers (c : nat)
| OpDropConnection (c : nat)
| OpClosePeer (c : nat)
| OpSetInfoBytes (b : list Z)
| OpSetPriority (i prio : Z)
| OpVerifyData (i : Z)
| OpUpdateCompletion (i : Z)
| OpCancelRequestsTimer (c : nat)
| OpTorrentClose
| OpBaselineProvider (c : nat) (b : bool)
| OpTick (now : Z)
| OpStorage (completion : Z → bool * bool)
| OpReaders (now readahead : gset Z)
| OpDataAllowed (noDownload noUpload : bool).

Section System.
Context (mapOrder : gset nat → list nat) (sha1 : list Z → list Z) (pieceOrder : Z → Z).
Context `{Multiless} `{Heap}.
Context (decodeHandshake : list Z → option ExtendedHandshakeMessage).
Context (decodeMetadata : list Z → option ExtendedMetadataRequestMsg).
Context (marshalMetadata : ExtendedMetadataRequestMsg → list Z).
Context (hashOk : list Z → bool) (parseInfo : list Z → option Info).
Context (shuffle : list Z → list Z).
Context (pexRecv : nat → list Z → option MsgErr).
Context (chunk : Z) (openTorrent : option bool) (initialPieceCheckDisabled : bool).

Definition setInfoBytes : list Z → act bool :=
  setInfoBytesLocked mapOrder hashOk parseInfo chunk openTorrent initialPieceCheckDisabled.

Definition ext : nat → Z → list Z → act (option MsgErr) :=
  onReadExtendedMsg mapOrder decodeHandshake decodeMetadata marshalMetadata hashOk parseInfo shuffle pexRecv
    chunk openTorrent initialPieceCheckDisabled.

Definition discard {A} (m : act A) : act unit := _ ← m; mret tt.

(** A new connection gets a handle of its own. *)
Definition addPeer (c : nat) (st : PeerStatic) (maxAlloc : Z) : act unit :=
  s ← gets (λ s, s);
  match peers s !! c with
  | Some _ => mret tt
  | None => modify (λ s, set_peers (<[c := newConnection st maxAlloc]> (peers s)) s)
  end.

Definition setBaselineProvider (b : bool) (p : Peer) : Peer :=
  set_pStatic (let st := pStatic p in
    mkPeerStatic (PeerID st) (supportsFast st) (trusted st) (bannable st) (remoteIp st) b) p.

Definition exec (o : op) : act unit :=
  match o with
  | OpNewConnection c st k => addPeer c st k
  | OpAddPeerConn f w b n c => discard (addPeerConn mapOrder f w b n c)
  | OpMessage c m => discard (handleMessage mapOrder sha1 ext c m)
  | OpChunkWritten c m e => chunkWritten mapOrder c m e
  | OpPieceHasher i b l e => discard (pieceHasher mapOrder i b l e)
  | OpPieceMarked i => pieceMarked mapOrder i
  | OpApplyRequestState c next => applyRequestState pieceOrder c next
  | OpUpload f c => discard (upload f c)
  | OpDataRead c r id b => peerRequestDataReader mapOrder c r id b
  | OpFlipBuffers c => flipBuffers c
  | OpDropConnection c => dropConnection mapOrder c
  | OpClosePeer c => close c
  | OpSetInfoBytes b => discard (setInfoBytes b)
  | OpSetPriority i p => SetPriority mapOrder i p
  | OpVerifyData i => discard (VerifyData mapOrder i)
  | OpUpdateCompletion i => UpdateCompletion mapOrder i
  | OpCancelRequestsTimer c => updateRequests c peerUpdateRequestsTimerReason
  | OpTorrentClose => discard (torrent_close mapOrder)
  | OpBaselineProvider c b => modify_peer c (setBaselineProvider b)
  | OpTick t => modify (set_clock t)
  | OpStorage f => modify (set_storageCompletion f)
  | OpReaders n r => modify (λ s, set_readerReadahead r (set_readerNow n s))
  | OpDataAllowed d u => modify (λ s, set_dataUploadDisallowed u (set_dataDownloadDisallowed d s))
  end.

Inductive step : Swarm → Swarm → Prop :=
| step_exec o s s' : exec o s = Ok (tt, s') → step s s'.

(** A run starts with a new torrent. *)
Inductive reachable : Swarm → Prop :=
| reachable_new conf completion now : reachable (newTorrentOpt conf completion now)
| reachable_step s s' : reachable s → step s s' → reachable s'.

Definition runs (os : list op) : act unit := forEach os exec.

Lemma runs_reachable os : ∀ s s', reachable s → runs os s = Ok (tt, s') → reachable s'.
Proof.
  induction os as [|o os IH]; intros s s' Hs Hrun; cbn in Hrun; [by injection Hrun as <-|].
  unfold mbind, act_bind in Hrun. destruct (exec o s) as [[[] s1]|w] eqn:E; [|done].
  apply (IH s1); [|done]. eapply reachable_step; [done|by apply (step_exec o)].
Qed.

(** ** Every step keeps the requests consistent *)
Lemma addPeer_keeps c st k : RKeeps (addPeer c st k).
Proof.
  intros s Hok. unfold addPeer. apply wp_bind, wp_gets. destruct (peers s !! c) eqn:Ec; [by apply wp_ret|].
  destruct Hok as [Ho Hk Hn Hd Hv Hco Hi]. cbn in *.
  assert (Hfresh : ∀ r, (fst <$> requestState s) !! r ≠ Some c).
  { intros r Hr. apply Hk in Hr as [q Hq]. by rewrite lookup_fmap, Ec in Hq. }
  unfold wp, req_ok. cbn. unfold reqView. cbn. rewrite fmap_insert. cbn.
  split; cbn; [intros d q r| |intros d q|intros d q r|intros d q r|intros d q r n|done];
    rewrite ?lookup_insert_Some.
  - intros [[<- <-]|[_ Hq]]; [|eauto]. cbn. split; [intros Hr; by apply elem_of_nil in Hr|]. intros Hr. by destruct (Hfresh r).
  - intros r d Hr. destruct (decide (d = c)) as [->|]; [by destruct (Hfresh r)|].
    rewrite lookup_insert_ne by done. eauto.
  - intros [[<- <-]|[_ Hq]]; [constructor|eauto].
  - intros [[<- <-]|[_ Hq]]; [intros Hr; by apply elem_of_nil in Hr|eauto].
  - intros [[<- <-]|[_ Hq]] _; [|by apply (Hv d q r Hq); intros []]. cbn. intros [Hr|Hr]; [by apply elem_of_nil in Hr|set_solver].
  - intros [[<- <-]|[_ Hq]]; [done|eauto].
Qed.

Lemma exec_keeps o : RKeeps (exec o).
Proof.
  pose proof (onReadExtendedMsg_keeps mapOrder decodeHandshake decodeMetadata marshalMetadata hashOk parseInfo
    shuffle pexRecv chunk openTorrent initialPieceCheckDisabled) as Hext.
  pose proof (setInfoBytesLocked_keeps mapOrder hashOk parseInfo chunk openTorrent initialPieceCheckDisabled) as Hinfo.
  pose proof updatePieceCompletion_keeps as Hcomp. pose proof dropConnection_keeps as Hdrop.
  assert (Hd : ∀ A (m : act A), RKeeps m → RKeeps (discard m)).
  { intros A m Hm. apply keeps_bind; [done|]. intros a. apply keeps_ret. }
  destruct o; cbn [exec]; try apply Hd; auto using addPeer_keeps, addPeerConn_keeps, pieceHasher_keeps,
    pieceMarked_keeps, applyRequestState_keeps, peerRequestDataReader_keeps, handleMessage_keeps;
    try (apply rframe_keeps; auto using rframe_chunkWritten, rframe_upload, rframe_close, rframe_updateRequests,
      rframe_torrent_close, rframe_queuePieceCheck; unfold SetPriority, VerifyData, flipBuffers; frame;
      by apply rframe_modify_peer).
Qed.

Lemma newTorrent_ok conf completion now : req_ok (newTorrentOpt conf completion now).
Proof. split; cbn; intros *; rewrite ?fmap_empty, ?lookup_empty; done. Qed.

Lemma reachable_ok s : reachable s → req_ok s.
Proof.
  induction 1 as [|s s' _ Hok Hstep]; [apply newTorrent_ok|]. destruct Hstep as [o s s' E].
  pose proof (exec_keeps o s Hok) as H'. unfold wp in H'. by rewrite E in H'.
Qed.

(** C1. In every state that a run of the client can reach, the requests of
    the peers and the torrent's table of requests agree: each request is
    outstanding with exactly the peer the table names, once, is not at the
    same time waiting for the acknowledgement of its cancellation, and a
    chunk for it will be accepted.  No operation panics in one of the
    assertions about requests. *)
Theorem requests_consistent s :
  reachable s →
  (∀ c p r, peers s !! c = Some p → r ∈ Requests (pReq p) ↔ requestingPeer s r = Some c) ∧
  (∀ c p, peers s !! c = Some p → NoDup (Requests (pReq p))) ∧
  (∀ c p r, peers s !! c = Some p → r ∈ Requests (pReq p) → r ∉ Cancelled (pReq p)) ∧
  (∀ c p r, peers s !! c = Some p → r ∈ Requests (pReq p) ∨ r ∈ Cancelled (pReq p) →
     1 ≤ default 0 (validReceiveChunks (pReq p) !! r)) ∧
  (geo s = None → requestState s = ∅) ∧
  ∀ o w, exec o s = Panic w → w ∉ req_panics.
Proof.
  intros Hs%reachable_ok. pose proof Hs as [Ho _ Hn Hd Hv _ Hi]. split_and!.
  - intros c p r Hp. rewrite <- reqView_requesting. by apply Ho, reqView_peer.
  - intros c p Hp. by apply (Hn c), reqView_peer.
  - intros c p r Hp. by apply (Hd c), reqView_peer.
  - intros c p r Hp. apply (Hv c); [by apply reqView_peer|by intros []].
  - intros Hg. cbn in Hi. unfold haveInfo in Hi. rewrite Hg in Hi. by apply fmap_empty_inv in Hi.
  - intros o w E. pose proof (exec_keeps o s Hs) as Hk. unfold wp in Hk. rewrite E in Hk.
    by apply bool_decide_eq_false in Hk.
Qed.
End System.

(** ** A run on the concrete torrent *)
Definition exParseInfo (b : list Z) : option Info := Some exampleInfo.

Definition exExec : op → act unit :=
  exec exOrder exHash (λ i, i) (λ _, None) (λ _, None) (λ _, []) (λ _, true) exParseInfo id (λ _ _, None)
    16384 (Some true) true.

Definition exChunk : Message := mkMessage false Piece 0 0 0 (replicate (Z.to_nat 16384) 7) [] 0 [] 0.

Definition exOps : list op :=
  [ OpNewConnection 0 (exStatic 10) 1000000;
    OpAddPeerConn (λ _ _, false) (λ _, None) false 50 0;
    OpSetInfoBytes [1];
    OpSetPriority 0 PiecePriorityNormal; OpSetPriority 1 PiecePriorityNormal; OpSetPriority 2 PiecePriorityNormal;
    OpMessage 0 (typeMsg HaveAll);
    OpMessage 0 (typeMsg Unchoke);
    OpApplyRequestState 0 (mkDesired [0; 1; 2; 3; 4] ∅ true);
    OpMessage 0 exChunk;
    OpChunkWritten 0 exChunk false;
    OpFlipBuffers 0;
    OpApplyRequestState 0 (mkDesired [1; 2; 3; 4] ∅ true) ].

Definition exRun : Swarm := finalState (forEach exOps exExec) (newTorrentOpt exConfig (λ _, (false, true)) 100).

Lemma requests_consistent_witness :
  requestingPeer exRun 1 = Some 0%nat ∧ dirtyChunks exRun = {[0]} ∧
  ∀ o w, exExec o exRun = Panic w → w ∉ req_panics.
Proof.
  split; [vm_compute; reflexivity|]. split; [vm_compute; reflexivity|].
  assert (Hrun : forEach exOps exExec (newTorrentOpt exConfig (λ _, (false, true)) 100) = Ok (tt, exRun))
    by (vm_compute; reflexivity).
  refine (proj2 (proj2 (proj2 (proj2 (proj2 (requests_consistent _ _ _ _ _ _ _ _ _ _ _ _ _ exRun _)))))).
  eapply runs_reachable; [apply reachable_new|exact Hrun].
Defined.
