(* ===== verification/AvailSystem.v ===== *)
(** The availability of pieces over a run of the client: it is exact as long
    as no peer takes back a HaveAll with a HaveNone, and what happens when one
    does. *)
From stdpp Require Import base numbers list strings gmap sorting.
From Stdlib Require Import ZArith Lia.
From S2P Require Import Prelude Wire Metainfo Geometry RequestStrategy OrderedBitmap AllocLim SmartBan SwarmState Swarm SwarmWp SwarmReq Metadata Requesting Scenario Desired Availability System.
Open Scope Z_scope.

(** ** Messages *)

(** A connection that is not closed is among the torrent's, and does not take
    back that it has everything with a HaveNone. *)
Definition mayReceive (s : Swarm) (c : nat) (m : Message) : Prop :=
  ∀ p, peers s !! c = Some p → peerClosed (pHave p) = false →
    c ∈ conns s ∧ (Type_ m = HaveNone → peerSentHaveAll (pHave p) = false).

Lemma handleMessage_avail o h ext c m s :
  (∀ c id b, AKeeps (ext c id b)) → avail_ok s → mayReceive s c m →
  wp avail_safe (handleMessage o h ext c m) (λ _, avail_ok) s.
Proof.
  intros Hext Hok Hmay. unfold handleMessage. apply wp_bind, wp_peer; [|done]. intros p Hp.
  apply wp_bind, wp_gets. destruct (torrentClosed s || peerClosed (pHave p)) eqn:Ecl; [by apply wp_ret|].
  apply orb_false_iff in Ecl as [_ Hcl]. destruct (Hmay p Hp Hcl) as [Hc Hnone].
  assert (Hl : live c (pHave p) (availView s)) by (split_and!; [by apply availView_peer|done|done]).
  apply wp_bind, wp_aframe; [frame|]. intros _ s1 Hv1. unfold avail_ok in Hok. rewrite <- Hv1 in Hok, Hl. change (avail_ok s1) in Hok.
  assert (Hgen : ∀ A (mm : act A), AKeeps mm → wp avail_safe mm (λ _, avail_ok) s1).
  { intros A mm Hk. by apply (wp_keeps mm _ s1 Hk Hok). }
  assert (Hunit : ∀ mm : act unit, AKeeps mm → wp avail_safe (unitErr mm) (λ _, avail_ok) s1).
  { intros mm Hk. apply Hgen. apply keeps_bind; [done|]. intros _. apply keeps_ret. }
  destruct (Keepalive m); [by apply wp_ret|]. destruct (_ && _); [by apply wp_ret|].
  destruct (Type_ m =? Choke); [apply Hunit; akeeps|]. destruct (Type_ m =? Unchoke); [apply Hunit; akeeps|].
  destruct (Type_ m =? Interested); [apply Hunit; akeeps|]. destruct (Type_ m =? NotInterested); [apply Hunit; akeeps|].
  destruct (Type_ m =? Have); [by apply (peerSentHave_avail o c _ s1 (pHave p))|].
  destruct (Type_ m =? Bitfield); [by apply (peerSentBitfield_avail o c _ s1 (pHave p))|].
  destruct (Type_ m =? Request); [apply Hgen; akeeps|].
  destruct (Type_ m =? Piece); [apply Hgen; akeeps|].
  destruct (Type_ m =? Wire.Cancel); [apply Hunit; akeeps|]. destruct (Type_ m =? Port); [by apply wp_ret|].
  destruct (Type_ m =? Suggest); [apply Hunit; akeeps|].
  destruct (Type_ m =? HaveAll).
  { apply wp_bind. eapply wp_mono; [by apply (onPeerHasAllPieces_avail o c s1 (pHave p))|]. cbv beta. intros _ s2 Hok2. by apply wp_ret. }
  destruct (Z.eqb_spec (Type_ m) HaveNone); [apply (peerSentHaveNone_avail o c s1 (pHave p)); auto|].
  destruct (Type_ m =? Reject); [apply Hgen; akeeps|].
  destruct (Type_ m =? AllowedFast); [apply Hunit; akeeps|].
  destruct (Type_ m =? Extended); [apply Hgen, Hext|by apply wp_ret].
Qed.

(** ** Closing the torrent *)
Definition closedIn (c : nat) (s : Swarm) : Prop :=
  ∃ p, peers s !! c = Some p ∧ peerClosed (pHave p) = true.

Definition any (w : string) : Prop := True.
#[local] Hint Extern 0 (any _) => exact I : frame.

Lemma close_closes c s :
  avail_ok s →
  wp avail_safe (close c) (λ _ s', avail_ok s' ∧ conns s' = conns s ∧ closedIn c s' ∧
    ∀ d, closedIn d s → closedIn d s') s.
Proof.
  intros Hok. pose proof (close_avail c s Hok) as Hk.
  assert (Hv : wp any (close c) (λ _ s', conns s' = conns s ∧ closedIn c s' ∧ ∀ d, closedIn d s → closedIn d s') s).
  { unfold close. apply wp_bind, wp_peer; [|done]. intros p Hp.
    destruct (peerClosed (pHave p)) eqn:Hcl; [apply wp_ret; split_and!; [done|by exists p|done]|].
    apply wp_bind, wp_modify. set (s1 := set_peers _ s).
    eapply wp_mono; [apply (frame_wp (λ s, (conns s, pHave <$> peers s)) any (decPeerPieceAvailability c)
      (λ v, v = (conns s1, pHave <$> peers s1)))|]; [|done|].
    - unfold decPeerPieceAvailability, deleteConnWithAllPieces, decPieceAvailability, updatePieceRequestOrder, modify_piece. frame.
    - cbv beta. intros _ s2 Hv2. apply pair_eq in Hv2 as [Hc2 Hp2]. split; [done|].
      assert (Hcl2 : ∀ d, closedIn d s1 → closedIn d s2).
      { intros d (q & Hq & Hqc). unfold closedIn. assert (Hq2 : (pHave <$> peers s2) !! d = Some (pHave q)) by (by rewrite Hp2, lookup_fmap, Hq).
        rewrite lookup_fmap in Hq2. destruct (peers s2 !! d) as [q2|]; [|done]. injection Hq2 as Hq2. exists q2. by rewrite Hq2. }
      split.
      + apply Hcl2. exists (set_pHave (set_peerClosed true (pHave p)) p). split; [|done]. cbn. by rewrite lookup_alter_eq, Hp.
      + intros d (q & Hq & Hqc). apply Hcl2. unfold closedIn, s1. cbn. destruct (decide (d = c)) as [->|Hne].
        * rewrite lookup_alter_eq, Hp. eexists. split; [done|]. done.
        * rewrite lookup_alter_ne by done. eauto. }
  unfold wp in *. destruct (close c s) as [[a s']|w]; [|done]. tauto.
Qed.

Section Closing.
Context (mapOrder : gset nat → list nat) (order_all : ∀ b c, c ∈ b → c ∈ mapOrder b).

Lemma close_loop l : ∀ s, avail_ok s →
  wp avail_safe (forEach l (λ c, cs ← gets conns; when (bool_decide (c ∈ cs)) (close c)))
    (λ _ s', avail_ok s' ∧ conns s' = conns s ∧
       (∀ d, d ∈ l → d ∈ conns s → closedIn d s') ∧ ∀ d, closedIn d s → closedIn d s') s.
Proof.
  induction l as [|c l IH]; intros s Hok; cbn [forEach].
  { apply wp_ret. split; [exact Hok|]. split; [reflexivity|]. split; [|auto]. intros d Hd. by apply elem_of_nil in Hd. }
  apply wp_bind, wp_bind, wp_gets.
  eapply (wp_mono _ _ (λ _ s', avail_ok s' ∧ conns s' = conns s ∧ (c ∈ conns s → closedIn c s') ∧
    ∀ d, closedIn d s → closedIn d s')).
  - case_bool_decide; cbn [when]; [|by apply wp_ret]. eapply wp_mono; [by apply close_closes|].
    cbv beta. intros _ s1 (? & ? & ? & ?). by split_and!.
  - cbv beta. intros _ s1 (Hok1 & Hc1 & Hcl1 & Hmono1). eapply wp_mono; [by apply IH|]. cbv beta.
    intros _ s2 (Hok2 & Hc2 & Hcl2 & Hmono2). split_and!; [done|congruence| |by auto].
    intros d [->|Hd]%elem_of_cons Hin; [by auto|]. apply Hcl2; [done|congruence].
Qed.

(** When every connection is closed, nobody counts anywhere. *)
Lemma all_closed_zero s :
  avail_ok s → (∀ d, d ∈ conns s → closedIn d s) → forallb (λ p, relativeAvailability p =? 0) (pieces s) = true.
Proof.
  intros Hok Hall. apply forallb_forall. intros p Hp. apply list_elem_of_In, list_elem_of_lookup in Hp as [k Hk].
  apply Z.eqb_eq. assert (Hn : aRel (availView s) !! Z.to_nat (Z.of_nat k) = Some (relativeAvailability p))
    by (cbn; by rewrite Nat2Z.id, list_lookup_fmap, Hk).
  rewrite (av_count _ Hok (Z.of_nat k) _ ltac:(lia) Hn).
  unfold countAt. rewrite map_empty_filter_2; [done|]. intros c h Hh (Hcl & Hna & Hin). cbn in *.
  assert (Hc : c ∈ conns s) by (apply (av_conns _ Hok c h Hh Hcl); right; intros E; rewrite E in Hin; set_solver).
  destruct (Hall c Hc) as (q & Hq & Hqc). rewrite lookup_fmap, Hq in Hh. injection Hh as <-. congruence.
Qed.

Lemma torrent_close_avail : AKeeps (torrent_close mapOrder).
Proof.
  intros s Hok. unfold torrent_close. apply wp_bind, wp_gets. destruct (torrentClosed s); [by apply wp_ret|].
  apply wp_bind, wp_modify. set (s1 := set_torrentClosed true s). assert (Hok1 : avail_ok s1) by done.
  apply wp_bind. eapply wp_mono; [apply (wp_bind _ (gets conns)), wp_gets; by apply close_loop|]. cbv beta.
  intros _ s2 (Hok2 & Hc2 & Hcl2 & _). apply wp_bind, wp_aframe; [frame|].
  intros _ s3 Hv3. apply wp_bind. unfold assertAllPiecesRelativeAvailabilityZero. apply wp_bind, wp_gets, wp_assert.
  - intros _. apply wp_ret. unfold avail_ok. by rewrite Hv3.
  - intros Hf. rewrite all_closed_zero in Hf; [done|unfold avail_ok; by rewrite Hv3|].
    intros d Hd. change (conns s3) with (aConns (availView s3)) in Hd. rewrite Hv3 in Hd. cbn in Hd.
    destruct (Hcl2 d) as (q & Hq & Hqc); [apply order_all; congruence|congruence|].
    assert (Hh : aHave (availView s3) !! d = Some (pHave q)) by (rewrite Hv3; by apply availView_peer).
    apply peer_availView in Hh as (q3 & Hq3 & Eq3). exists q3. by rewrite Eq3.
Qed.
End Closing.

(** ** Establishing it *)
Lemma avail_fresh s g :
  geo s = Some g → Forall (λ p, relativeAvailability p = 0) (pieces s) → connsWithAllPieces s = ∅ →
  map_Forall (λ _ p, pHave p = mkHaveSide ∅ false false) (peers s) → avail_ok s.
Proof.
  intros Hg Hp Ha Hh.
  assert (Hhave : ∀ c h, (pHave <$> peers s) !! c = Some h → h = mkHaveSide ∅ false false).
  { intros c h. rewrite lookup_fmap. destruct (peers s !! c) as [p|] eqn:E; [|done]. intros [= <-]. by apply (Hh c). }
  split; cbn.
  - by rewrite Hg.
  - intros i n Hi Hn. rewrite list_lookup_fmap in Hn. destruct (pieces s !! Z.to_nat i) as [p|] eqn:E; [|done].
    injection Hn as <-. rewrite (proj1 (Forall_lookup _ _) Hp _ _ E). unfold countAt. rewrite map_empty_filter_2; [done|].
    intros c h Hc%Hhave. subst h. intros (_ & _ & Hin). cbn in Hin. set_solver.
  - intros c h Hc%Hhave _. subst h. rewrite Ha. cbn. split; [done|set_solver].
  - rewrite Ha. set_solver.
  - intros c h Hc%Hhave. by subst h.
  - intros c h i Hc%Hhave. subst h. cbn. set_solver.
  - intros c h Hc%Hhave _. subst h. cbn. intros [?|?]; done.
Qed.

(** ** A torrent added with its info *)

(** No connection yet, and no piece counted. *)
Definition unmetV (v : aview) : Prop :=
  is_Some (aGeo v) ∧ Forall (λ n, n = 0) (aRel v) ∧ aHave v = ∅ ∧ aAll v = ∅ ∧ aConns v = ∅.

Definition unmet (s : Swarm) : Prop := unmetV (availView s).

Abbreviation UKeeps := (Keeps unmet avail_safe).

Lemma unmet_avail s : unmet s → avail_ok s.
Proof.
  intros ([g Hg] & Hr & Hh & Ha & _). cbn in *. apply (avail_fresh s g); [done|by rewrite Forall_fmap in Hr|done|].
  apply fmap_empty_inv in Hh. rewrite Hh. apply map_Forall_empty.
Qed.

Lemma aframe_unmet {A} (m : act A) : AFrame m → UKeeps m.
Proof. by apply (frame_keeps unmet avail_safe availView unmetV). Qed.

(** Nobody is there to iterate over. *)
Lemma iterPeers_unmet o f : UKeeps (iterPeers o f).
Proof.
  unfold iterPeers. intros s Hs. apply wp_bind, wp_gets. apply wp_forEach; [done|]. intros c s1 _ Hs1.
  apply wp_bind, wp_gets. destruct Hs1 as (Hg & Hr & Hh & Ha & Hc). cbn in Hc. rewrite Hc.
  rewrite bool_decide_eq_false_2 by set_solver. by apply wp_ret.
Qed.

Ltac ukeeps := repeat first [apply iterPeers_unmet | keeps_step ltac:(solve [apply aframe_unmet; frame | auto])].

Lemma updatePieceCompletion_unmet o i : UKeeps (updatePieceCompletion o i).
Proof. unfold updatePieceCompletion, pieceCompletionChanged, onPieceCompleted. ukeeps. Qed.

Lemma aframe_addRequestOrderPiece i : AFrame (addRequestOrderPiece i).
Proof. unfold addRequestOrderPiece. frame. Qed.

Lemma selective_unmet o s i : unmet s → selectivePieceAvailabilityFromPeers o s i = 0.
Proof.
  intros (_ & _ & Hh & _ & _). cbn in Hh. apply fmap_empty_inv in Hh. unfold selectivePieceAvailabilityFromPeers. rewrite Hh.
  induction (o (conns s)) as [|c l IH]; [done|]. cbn [List.filter]. rewrite lookup_empty, andb_false_r. apply IH.
Qed.

Lemma unmet_piece s k p : unmet s → pieces s !! k = Some p → relativeAvailability p = 0.
Proof. intros (_ & Hr & _) Hp. cbn in Hr. rewrite Forall_fmap in Hr. exact (proj1 (Forall_lookup _ _) Hr _ _ Hp). Qed.

Lemma reset_unmet i s : unmet s → wp avail_safe (modify_piece i (set_relativeAvailability 0)) (λ _, unmet) s.
Proof.
  intros Hs. unfold modify_piece. apply wp_bind, wp_piece; [|done]. intros p Hi Hp. apply wp_modify.
  destruct Hs as (Hg & Hr & Hh & Ha & Hc). split_and!; [done| |done..]. cbn in *. rewrite Forall_fmap in *.
  apply Forall_alter; [done|]. by intros.
Qed.

Lemma onSetInfo_unmet o noCheck : UKeeps (onSetInfo o noCheck).
Proof.
  pose proof updatePieceCompletion_unmet. pose proof aframe_addRequestOrderPiece. unfold onSetInfo.
  apply keeps_bind; [ukeeps|]. intros g. apply keeps_bind; [|intros ?; ukeeps].
  apply keeps_forEach. intros i s Hs. apply wp_bind, wp_piece; [|done]. intros p Hi Hp. apply wp_bind, wp_assert.
  2: { rewrite (unmet_piece s (Z.to_nat i) p) by done. done. }
  intros _. apply wp_bind, wp_gets, wp_bind. rewrite selective_unmet by done.
  eapply wp_mono; [by apply reset_unmet|]. cbv beta. intros _ s1 Hs1.
  revert s1 Hs1. change (UKeeps (_ ← addRequestOrderPiece i; _ ← updatePieceCompletion o i; p0 ← piece i;
    when (negb noCheck && negb (storageCompletionOk p0)) (queuePieceCheck o i))). ukeeps.
Qed.

(** ** Every operation *)
Section Run.
Context (mapOrder : gset nat → list nat) (sha1 : list Z → list Z) (pieceOrder : Z → Z).
Context `{Multiless} `{Heap}.
Context (decodeHandshake : list Z → option ExtendedHandshakeMessage).
Context (decodeMetadata : list Z → option ExtendedMetadataRequestMsg).
Context (marshalMetadata : ExtendedMetadataRequestMsg → list Z).
Context (hashOk : list Z → bool) (parseInfo : list Z → option Info).
Context (shuffle : list Z → list Z).
Context (pexRecv : nat → list Z → option MsgErr).
Context (chunk : Z) (openTorrent : option bool) (initialPieceCheckDisabled : bool).

Abbreviation step_of := (exec mapOrder sha1 pieceOrder decodeHandshake decodeMetadata marshalMetadata hashOk parseInfo
  shuffle pexRecv chunk openTorrent initialPieceCheckDisabled).

Lemma avail_haveInfo s : avail_ok s → haveInfo s = true.
Proof. intros Hok. unfold haveInfo. pose proof (av_geo _ Hok) as Hg. cbn in Hg. by destruct Hg as [g ->]. Qed.

(** There is an info, so the metadata is not looked at again. *)
Lemma maybeCompleteMetadata_avail :
  AKeeps (maybeCompleteMetadata mapOrder hashOk parseInfo chunk openTorrent initialPieceCheckDisabled).
Proof.
  intros s Hok. unfold maybeCompleteMetadata. apply wp_bind, wp_gets. rewrite avail_haveInfo by done. by apply wp_ret.
Qed.

Lemma setInfoBytesLocked_avail b :
  AKeeps (setInfoBytesLocked mapOrder hashOk parseInfo chunk openTorrent initialPieceCheckDisabled b).
Proof.
  intros s Hok. unfold setInfoBytesLocked. destruct (negb (hashOk b)); [by apply wp_ret|].
  destruct (parseInfo b) as [inf|]; [|by apply wp_ret]. apply wp_bind, wp_aframe; [frame|]. intros _ s1 Hv1.
  apply wp_bind, wp_gets. unfold avail_ok in Hok. rewrite <- Hv1 in Hok. rewrite avail_haveInfo by done. by apply wp_ret.
Qed.

Lemma aframe_at {A} (l : list A) i : AFrame (at_ l i).
Proof. unfold at_. frame. Qed.
Lemma aframe_copyInto {A} (l : list A) i d : AFrame (copyInto l i d).
Proof. unfold copyInto. frame. Qed.
Lemma aframe_sliceOf {A} (l : list A) i j : AFrame (sliceOf l i j).
Proof. unfold sliceOf. frame. Qed.
#[local] Hint Resolve aframe_at aframe_copyInto aframe_sliceOf : frame.
Lemma aframe_haveMetadataPiece i : AFrame (haveMetadataPiece i).
Proof. unfold haveMetadataPiece. frame. Qed.
Lemma aframe_requestedMetadataPiece c i : AFrame (requestedMetadataPiece c i).
Proof. unfold requestedMetadataPiece. frame. Qed.
#[local] Hint Resolve aframe_haveMetadataPiece aframe_requestedMetadataPiece : frame.
Lemma aframe_pendingMetadata c l : AFrame (pendingMetadata c l).
Proof. induction l; cbn [pendingMetadata]; frame. Qed.
#[local] Hint Resolve aframe_pendingMetadata : frame.
Lemma aframe_requestPendingMetadata c : AFrame (requestPendingMetadata marshalMetadata shuffle c).
Proof. unfold requestPendingMetadata, requestMetadataPiece. frame. Qed.
#[local] Hint Resolve aframe_requestPendingMetadata : frame.
Lemma aframe_setMetadataSize n : AFrame (setMetadataSize mapOrder marshalMetadata shuffle n).
Proof. unfold setMetadataSize. frame. Qed.
Lemma aframe_saveMetadataPiece i d : AFrame (saveMetadataPiece i d).
Proof. unfold saveMetadataPiece. frame. Qed.
#[local] Hint Resolve aframe_setMetadataSize aframe_saveMetadataPiece : frame.

Lemma onReadExtendedMsg_avail c id b :
  AKeeps (onReadExtendedMsg mapOrder decodeHandshake decodeMetadata marshalMetadata hashOk parseInfo shuffle pexRecv
            chunk openTorrent initialPieceCheckDisabled c id b).
Proof.
  unfold onReadExtendedMsg, onExtendedHandshake, gotMetadataExtensionMsg. pose proof maybeCompleteMetadata_avail.
  repeat keeps_step ltac:(solve [apply aframe_keeps; frame | auto]).
Qed.

Definition avail_guard (s : Swarm) (o : op) : Prop :=
  match o with OpMessage c m => mayReceive s c m | _ => True end.

Context (order_all : ∀ b c, c ∈ b → c ∈ mapOrder b).

Lemma addPeer_avail c st k : AKeeps (addPeer c st k).
Proof.
  intros s Hok. unfold addPeer. apply wp_bind, wp_gets. destruct (peers s !! c) eqn:Ec; [by apply wp_ret|].
  apply wp_modify. by apply new_peer_ok.
Qed.

Lemma exec_avail o s : avail_ok s → avail_guard s o → wp avail_safe (step_of o) (λ _, avail_ok) s.
Proof.
  intros Hok Hguard.
  assert (Hd : ∀ A (m : act A), wp avail_safe m (λ _, avail_ok) s → wp avail_safe (discard m) (λ _, avail_ok) s).
  { intros A m Hm. apply wp_bind. eapply wp_mono; [done|]. cbv beta. intros a s' Hs'. by apply wp_ret. }
  assert (Hf : ∀ A (m : act A), AFrame m → wp avail_safe m (λ _, avail_ok) s).
  { intros A m Hm. by apply (aframe_keeps m Hm s Hok). }
  assert (Hk : ∀ A (m : act A), AKeeps m → wp avail_safe m (λ _, avail_ok) s) by (intros A m Hm; by apply Hm).
  destruct o; cbn [exec]; try apply Hd;
    first [ apply Hk; solve [auto using addPeer_avail, addPeerConn_avail, pieceHasher_avail, pieceMarked_avail,
              peerRequestDataReader_avail, dropConnection_avail, close_avail, torrent_close_avail, setInfoBytesLocked_avail]
          | apply Hf; solve [auto using aframe_applyRequestState, aframe_upload, aframe_chunkWritten, aframe_updateRequests]
          | apply Hf; unfold SetPriority, VerifyData, flipBuffers; solve [frame]
          | idtac ].
  - apply handleMessage_avail; [|done|done]. intros. apply onReadExtendedMsg_avail.
  - apply Hk, updatePieceCompletion_avail.
Qed.

(** Runs in which no peer takes back a HaveAll with a HaveNone. *)
Inductive guardedRun (s0 : Swarm) : Swarm → Prop :=
| guarded_here : guardedRun s0 s0
| guarded_step s s' o : guardedRun s0 s → avail_guard s o → step_of o s = Ok (tt, s') → guardedRun s0 s'.

Lemma guardedRun_ok s0 s : avail_ok s0 → guardedRun s0 s → avail_ok s.
Proof.
  intros Hs0. induction 1 as [|s s' o _ Hok Hg E]; [done|].
  pose proof (exec_avail o s Hok Hg) as Hw. unfold wp in Hw. by rewrite E in Hw.
Qed.

(** The state after the info has been set on a new torrent. *)
Lemma setInfoBytes_fresh conf completion now b s0 :
  step_of (OpSetInfoBytes b) (newTorrentOpt conf completion now) = Ok (tt, s0) → haveInfo s0 = true → avail_ok s0.
Proof.
  intros E. assert (Hw : wp avail_safe (step_of (OpSetInfoBytes b))
      (λ _ s', haveInfo s' = true → avail_ok s') (newTorrentOpt conf completion now)); [|unfold wp in Hw; by rewrite E in Hw].
  cbn [exec]. unfold discard, setInfoBytes, setInfoBytesLocked. apply wp_bind.
  destruct (negb (hashOk b)); [by apply wp_ret|]. destruct (parseInfo b) as [inf|]; [|by apply wp_ret].
  apply wp_bind, wp_modify, wp_bind, wp_gets. cbn [haveInfo geo newTorrentOpt set_metadataCompletedChunks set_metadataBytes].
  apply wp_bind.
  eapply (wp_mono _ _ (λ (ok : bool) s1, if ok then unmet s1 else haveInfo s1 = false)).
  - unfold setInfo. destruct (validateInfo inf); [by apply wp_ret|]. destruct openTorrent as [[|]|]; [|by apply wp_ret|];
      (split_and!; [by eexists| |done..]); cbn; rewrite !Forall_fmap; by apply Forall_true.
  - cbv beta. intros ok s1 Hs1. destruct ok; cbn [negb]; [|apply wp_ret, wp_ret; intros Hh; congruence].
    apply wp_bind. eapply wp_mono; [by apply onSetInfo_unmet|]. cbv beta. intros _ s2 Hs2. apply wp_ret, wp_ret.
    intros _. by apply unmet_avail.
Qed.

(** C4. In a torrent added with its info, in any run in which messages are
    read only from connections that have been added and no peer takes back a
    HaveAll with a HaveNone: the relative availability of every piece is the
    number of open connections that announced it and are not counted as
    having everything, exactly the open connections that sent HaveAll are
    counted as having everything, and no operation, closing the torrent
    included, panics in the assertions about availability. *)
Theorem availability_exact conf completion now b s0 s :
  step_of (OpSetInfoBytes b) (newTorrentOpt conf completion now) = Ok (tt, s0) → haveInfo s0 = true →
  guardedRun s0 s →
  (∀ i p, pieces s !! i = Some p → relativeAvailability p =
     Z.of_nat (size (filter (λ q, peerClosed q.2 = false ∧ (q.1 ∉ connsWithAllPieces s) ∧ Z.of_nat i ∈ _peerPieces q.2)
                       (pHave <$> peers s)))) ∧
  (∀ c p, peers s !! c = Some p → peerClosed (pHave p) = false →
     (peerSentHaveAll (pHave p) = true ↔ c ∈ connsWithAllPieces s)) ∧
  ∀ o w, avail_guard s o → step_of o s = Panic w → w ∉ avail_panics.
Proof.
  intros Hs0 Hinfo Hrun. pose proof (guardedRun_ok s0 s (setInfoBytes_fresh _ _ _ _ _ Hs0 Hinfo) Hrun) as Hok. split_and!.
  - intros i p Hp. assert (Hn : aRel (availView s) !! Z.to_nat (Z.of_nat i) = Some (relativeAvailability p))
      by (cbn; by rewrite Nat2Z.id, list_lookup_fmap, Hp).
    rewrite (av_count _ Hok (Z.of_nat i) _ ltac:(lia) Hn). unfold countAt. by f_equal.
  - intros c p Hp. by apply (av_all _ Hok c), availView_peer.
  - intros o w Hg E. pose proof (exec_avail o s Hok Hg) as Hw. unfold wp in Hw. rewrite E in Hw.
    by apply bool_decide_eq_false in Hw.
Qed.
End Run.

(** ** On the concrete torrent *)
Definition exHave : Message := set_ints (typeMsg Have) 2 0 0.

Definition exNew : Swarm := newTorrentOpt exConfig (λ _, (false, true)) 100.
Definition exWithInfo : Swarm := finalState (exExec (OpSetInfoBytes [1])) exNew.
Definition exConnect : op := OpNewConnection 1 (exStatic 10) 1000000.
Definition exAdd : op := OpAddPeerConn (λ _ _, false) (λ _, None) false 50 1.
Definition exAdded : Swarm := finalState (forEach [exConnect; exAdd] exExec) exWithInfo.
Definition exAvailable : Swarm := finalState (exExec (OpMessage 1 exHave)) exAdded.

Lemma availability_exact_witness :
  (relativeAvailability <$> pieces exAvailable) = [0; 0; 1] ∧
  ∀ i p, pieces exAvailable !! i = Some p → relativeAvailability p =
     Z.of_nat (size (filter (λ q, peerClosed q.2 = false ∧ (q.1 ∉ connsWithAllPieces exAvailable) ∧
                                  Z.of_nat i ∈ _peerPieces q.2) (pHave <$> peers exAvailable))).
Proof.
  split; [vm_compute; reflexivity|].
  assert (Hord : ∀ b c, c ∈ b → c ∈ exOrder b) by (intros b c; unfold exOrder; by rewrite elem_of_elements).
  assert (Hstart : exec exOrder exHash (λ i, i) (λ _, None) (λ _, None) (λ _, []) (λ _, true) exParseInfo id (λ _ _, None)
    16384 (Some true) true (OpSetInfoBytes [1]) (newTorrentOpt exConfig (λ _, (false, true)) 100) = Ok (tt, exWithInfo))
    by (vm_compute; reflexivity).
  assert (Hinfo : haveInfo exWithInfo = true) by (vm_compute; reflexivity).
  refine (proj1 (availability_exact _ _ _ _ _ _ _ _ _ _ _ _ _ Hord _ _ _ _ _ _ Hstart Hinfo _)).
  apply (guarded_step _ _ _ _ _ _ _ _ _ _ _ _ _ _ exAdded _ (OpMessage 1 exHave)); [| |vm_compute; reflexivity].
  2: { intros p _ _. split; [vm_compute; reflexivity|intros E; vm_compute in E; discriminate E]. }
  apply (guarded_step _ _ _ _ _ _ _ _ _ _ _ _ _ _ (finalState (exExec exConnect) exWithInfo) _ exAdd);
    [|exact I|vm_compute; reflexivity].
  apply (guarded_step _ _ _ _ _ _ _ _ _ _ _ _ _ _ exWithInfo _ exConnect); [|exact I|vm_compute; reflexivity].
  apply guarded_here.
Defined.

(** ** A HaveAll taken back *)

(** A connection that sends HaveAll, then HaveNone, then Have and is closed
    leaves the piece with a positive relative availability, and closing the
    torrent panics. *)
Example haveNone_leaks :
  ∃ s, forEach [ OpMessage 1 (typeMsg HaveAll); OpMessage 1 (typeMsg HaveNone); OpMessage 1 exHave; OpDropConnection 1 ]
         exExec exAdded = Ok (tt, s) ∧
    (relativeAvailability <$> pieces s) = [0; 0; 1] ∧
    forallb (λ q : nat * Peer, peerClosed (pHave q.2) || bool_decide (_peerPieces (pHave q.2) = ∅))
      (map_to_list (peers s)) = true ∧
    exExec OpTorrentClose s = Panic "piece has relative availability".
Proof.
  exists (finalState (forEach [ OpMessage 1 (typeMsg HaveAll); OpMessage 1 (typeMsg HaveNone); OpMessage 1 exHave;
    OpDropConnection 1 ] exExec) exAdded).
  split_and!; vm_compute; reflexivity.
Qed.
