(* ===== verification/Bep40.v ===== *)
(** IP addresses and the canonical peer priority: src/bep40.go, with the parts
    of package [net] it uses.

    A [net.IP] is the list of its bytes; [nil] is the empty list.  [To4],
    [To16], [Equal], [CIDRMask] and [Mask] are those of the standard library,
    which treats a 4-byte address and the 16-byte form [::ffff:a.b.c.d] as the
    same address in some operations and not in others; the code depends on
    which. *)
From stdpp Require Import base numbers list sets strings.
From Stdlib Require Import ZArith Lia.
From S2P Require Import Prelude RequestStrategy.
Open Scope Z_scope.

(** ** net.IP *)
Definition v4InV6Prefix : list Z := [0; 0; 0; 0; 0; 0; 0; 0; 0; 0; 255; 255].

Definition To4 (ip : list Z) : option (list Z) :=
  if Nat.eqb (length ip) 4 then Some ip
  else if Nat.eqb (length ip) 16 && bool_decide (take 12 ip = v4InV6Prefix) then Some (drop 12 ip)
  else None.

Definition To16 (ip : list Z) : option (list Z) :=
  if Nat.eqb (length ip) 4 then Some (v4InV6Prefix ++ ip)
  else if Nat.eqb (length ip) 16 then Some ip
  else None.

(** [IP.Equal]. *)
Definition IP_Equal (ip x : list Z) : bool :=
  if Nat.eqb (length ip) (length x) then bool_decide (ip = x)
  else if Nat.eqb (length ip) 4 && Nat.eqb (length x) 16 then
    bool_decide (take 12 x = v4InV6Prefix) && bool_decide (ip = drop 12 x)
  else if Nat.eqb (length ip) 16 && Nat.eqb (length x) 4 then
    bool_decide (take 12 ip = v4InV6Prefix) && bool_decide (drop 12 ip = x)
  else false.

(** [IP.Mask]. *)
Definition IP_Mask (ip mask : list Z) : list Z :=
  let mask := if Nat.eqb (length mask) 16 && Nat.eqb (length ip) 4 && forallb (Z.eqb 255) (take 12 mask)
              then drop 12 mask else mask in
  let ip := if Nat.eqb (length mask) 4 && Nat.eqb (length ip) 16 && bool_decide (take 12 ip = v4InV6Prefix)
            then drop 12 ip else ip in
  if Nat.eqb (length ip) (length mask) then zip_with Z.land ip mask else [].

(** [CIDRMask] of [bits] (32 or 128) bits, byte by byte. *)
Fixpoint CIDRMask (ones : nat) (bytes : nat) : list Z :=
  match bytes with
  | O => []
  | S bytes =>
      if Nat.leb 8 ones then 255 :: CIDRMask (ones - 8) bytes
      else (255 - Z.shiftr 255 (Z.of_nat ones)) :: CIDRMask 0 bytes
  end.

(** ** bep40.go *)
Record IpPort : Type := mkIpPort { IP : list Z; Port : Z }.

Definition sameSubnet (ones bits : nat) (a b : list Z) : bool :=
  let mask := CIDRMask ones (bits / 8) in
  IP_Equal (IP_Mask a mask) (IP_Mask b mask).

Definition ipv4Mask (a b : list Z) : list Z :=
  if negb (sameSubnet 16 32 a b) then [255; 255; 85; 85]
  else if negb (sameSubnet 24 32 a b) then [255; 255; 255; 85]
  else [255; 255; 255; 255].

(** [mask]: [prefix] bytes 0xff, the others 0x55. *)
Definition prefixMask (prefix bytes : nat) : list Z := replicate prefix 255 ++ replicate (bytes - prefix) 85.

Fixpoint ipv6MaskLoop (js : list nat) (a b : list Z) : go (list Z) :=
  match js with
  | [] => Panic "ipv6Mask"
  | i :: js => if negb (sameSubnet (i * 8) 128 a b) then Ok (prefixMask i 16) else ipv6MaskLoop js a b
  end.

Definition ipv6Mask (a b : list Z) : go (list Z) := ipv6MaskLoop (seq 6 11) a b.

(** [None] is the error "incomparable IPs". *)
Definition bep40PriorityBytes (a b : IpPort) : go (option (list Z)) :=
  if IP_Equal (IP a) (IP b) then Ok (Some (be_encode 2 (Port a) ++ be_encode 2 (Port b)))
  else
    match To4 (IP a), To4 (IP b) with
    | Some a4, Some b4 =>
        let m := ipv4Mask (IP a) (IP b) in
        Ok (Some (IP_Mask a4 m ++ IP_Mask b4 m))
    | _, _ =>
        match To16 (IP a), To16 (IP b) with
        | Some a6, Some b6 =>
            m ← ipv6Mask (IP a) (IP b);
            Ok (Some (IP_Mask a6 m ++ IP_Mask b6 m))
        | _, _ => Ok None
        end
    end.

(** [crc32.Checksum] with the Castagnoli table, bit by bit. *)
Definition crcBit (c : Z) : Z :=
  if Z.testbit c 0 then Z.lxor (Z.shiftr c 1) 0x82f63b78 else Z.shiftr c 1.

Definition crcByte (c b : Z) : Z := Nat.iter 8 crcBit (Z.lxor c b).

Definition Checksum (bs : list Z) : Z := Z.lxor (foldl crcByte 0xffffffff bs) 0xffffffff.

Definition bep40Priority (a b : IpPort) : go (option Z) :=
  o ← bep40PriorityBytes a b;
  Ok (match o with
      | None => None
      | Some bs =>
          let i := (length bs / 2)%nat in
          let _a := take i bs in
          let _b := drop i bs in
          Some (Checksum (if 0 <? bytes_Compare _a _b then _b ++ _a else bs))
      end).

Definition bep40PriorityIgnoreError (a b : IpPort) : go Z :=
  o ← bep40Priority a b;
  Ok (match o with Some prio => prio | None => 0 end).

(** The values of bep40_test.go. *)
Definition v4 (a b c d : Z) : IpPort := mkIpPort (v4InV6Prefix ++ [a; b; c; d]) 0.

Example bep40_test_values :
  bep40PriorityIgnoreError (v4 123 213 32 10) (v4 98 76 54 32) = Ok 0xec2d7224 ∧
  bep40PriorityIgnoreError (v4 98 76 54 32) (v4 123 213 32 10) = Ok 0xec2d7224 ∧
  bep40PriorityIgnoreError (v4 123 213 32 10) (v4 123 213 32 234) = Ok 0x99568189 ∧
  bep40PriorityIgnoreError (v4 206 248 98 111) (v4 142 147 89 224) = Ok 0x2b41d456 ∧
  bep40PriorityBytes (v4 123 213 32 234) (v4 123 213 32 234) = Ok (Some [0; 0; 0; 0]).
Proof. by_compute. Qed.

(** ** Lemmas *)
Lemma IP_Equal_sym a b : IP_Equal a b = IP_Equal b a.
Proof.
  unfold IP_Equal. rewrite (Nat.eqb_sym (length b) (length a)).
  destruct (Nat.eqb_spec (length a) (length b)) as [Hl|Hl]; [by apply bool_decide_ext|].
  destruct (Nat.eqb_spec (length a) 4), (Nat.eqb_spec (length b) 16), (Nat.eqb_spec (length a) 16),
    (Nat.eqb_spec (length b) 4); cbn [andb]; try lia; try done.
  all: f_equal; by apply bool_decide_ext.
Qed.

Lemma sameSubnet_sym ones bits a b : sameSubnet ones bits a b = sameSubnet ones bits b a.
Proof. apply IP_Equal_sym. Qed.

Lemma ipv4Mask_sym a b : ipv4Mask a b = ipv4Mask b a.
Proof. unfold ipv4Mask. by rewrite (sameSubnet_sym 16), (sameSubnet_sym 24). Qed.

Lemma ipv6Mask_sym a b : ipv6Mask a b = ipv6Mask b a.
Proof.
  unfold ipv6Mask. induction (seq 6 11) as [|i js IH]; [done|]. cbn. by rewrite sameSubnet_sym, IH.
Qed.

Lemma To16_Some ip x : To16 ip = Some x → length x = 16%nat ∧ (length ip = 4%nat ∨ length ip = 16%nat).
Proof.
  unfold To16. destruct (Nat.eqb_spec (length ip) 4) as [H4|]; [|destruct (Nat.eqb_spec (length ip) 16)];
    intros [= <-]; (split; [cbn; lia|auto]).
Qed.

Lemma To4_Some ip x : To4 ip = Some x → length x = 4%nat.
Proof.
  unfold To4. destruct (Nat.eqb_spec (length ip) 4); [by intros [= <-]|].
  destruct (Nat.eqb_spec (length ip) 16); [|done]. case_bool_decide; [|done]. cbn.
  intros [= <-]. rewrite length_drop. lia.
Qed.

Lemma zip_land_255 l n : bytes_ok l → n = length l → zip_with Z.land l (replicate n 255) = l.
Proof.
  intros Hl ->. induction Hl as [|b l Hb Hl IH]; [done|]. cbn. f_equal; [|exact IH].
  change 255 with (Z.ones 8). by rewrite Z.land_ones, Z.mod_small by (cbn in *; lia).
Qed.

(** The mask of all 128 bits keeps an address as it is. *)
Lemma IP_Mask_all ip : bytes_ok ip → length ip = 4%nat ∨ length ip = 16%nat → IP_Mask ip (CIDRMask 128 16) = ip.
Proof.
  intros Hb [H|H]; unfold IP_Mask; change (CIDRMask 128 16) with (replicate 16 255);
    change (length (replicate 16 255)) with 16%nat; rewrite H.
  - change (drop 12 (replicate 16 255)) with (replicate 4 255).
    change (Nat.eqb 16 16 && Nat.eqb 4 4 && forallb (Z.eqb 255) (take 12 (replicate 16 255))) with true.
    cbn [andb Nat.eqb length replicate]. rewrite H. by apply (zip_land_255 ip 4).
  - cbn [andb Nat.eqb]. change (length (replicate 16 255)) with 16%nat. cbn [andb Nat.eqb]. rewrite ?H. by apply (zip_land_255 ip 16).
Qed.

Lemma sameSubnet_all a b :
  bytes_ok a → bytes_ok b → (length a = 4 ∨ length a = 16)%nat → (length b = 4 ∨ length b = 16)%nat →
  sameSubnet 128 128 a b = IP_Equal a b.
Proof.
  intros. unfold sameSubnet. change (128 / 8)%nat with 16%nat. by rewrite !IP_Mask_all.
Qed.

Lemma ipv6MaskLoop_found js a b :
  (∃ i, i ∈ js ∧ sameSubnet (i * 8) 128 a b = false) →
  ∃ i, i ∈ js ∧ ipv6MaskLoop js a b = Ok (prefixMask i 16).
Proof.
  induction js as [|j js IH]; intros (i & Hi & Hs); [set_solver|]. cbn.
  destruct (sameSubnet (j * 8) 128 a b) eqn:Hj; cbn; [|set_solver].
  destruct IH as (k & ? & ?); [|exists k; set_solver].
  apply elem_of_cons in Hi as [->|Hi]; [congruence|eauto].
Qed.

(** The panic of [ipv6Mask] cannot happen: the last subnet it tries is the
    single address. *)
Lemma ipv6Mask_total a b x y :
  bytes_ok a → bytes_ok b → To16 a = Some x → To16 b = Some y → IP_Equal a b = false →
  ∃ m, ipv6Mask a b = Ok m ∧ length m = 16%nat.
Proof.
  intros Ha Hb [_ Hla]%To16_Some [_ Hlb]%To16_Some He.
  destruct (ipv6MaskLoop_found (seq 6 11) a b) as (i & Hi & Hm).
  { exists 16%nat. split; [apply elem_of_seq; lia|]. by rewrite sameSubnet_all. }
  exists (prefixMask i 16). split; [exact Hm|]. apply elem_of_seq in Hi.
  unfold prefixMask. rewrite length_app, !length_replicate. lia.
Qed.

Lemma length_IP_Mask ip m : length ip = length m → length (IP_Mask ip m) = length ip.
Proof.
  intros H. unfold IP_Mask.
  replace (Nat.eqb (length m) 16 && Nat.eqb (length ip) 4) with false
    by (destruct (Nat.eqb_spec (length m) 16), (Nat.eqb_spec (length ip) 4); cbn; lia).
  cbn [andb].
  replace (Nat.eqb (length m) 4 && Nat.eqb (length ip) 16) with false
    by (destruct (Nat.eqb_spec (length m) 4), (Nat.eqb_spec (length ip) 16); cbn; lia).
  cbn [andb]. rewrite <- H, Nat.eqb_refl, length_zip_with. lia.
Qed.

Lemma length_ipv4Mask a b : length (ipv4Mask a b) = 4%nat.
Proof. unfold ipv4Mask. by destruct (sameSubnet 16 32 a b), (sameSubnet 24 32 a b). Qed.

(** Both orders of the arguments give the same two halves, swapped. *)
Lemma bep40PriorityBytes_halves a b :
  bytes_ok (IP a) → bytes_ok (IP b) →
  (bep40PriorityBytes a b = Ok None ∧ bep40PriorityBytes b a = Ok None) ∨
  ∃ x y, length x = length y ∧
    bep40PriorityBytes a b = Ok (Some (x ++ y)) ∧ bep40PriorityBytes b a = Ok (Some (y ++ x)).
Proof.
  intros Ha Hb. unfold bep40PriorityBytes. rewrite (IP_Equal_sym (IP b)).
  destruct (IP_Equal (IP a) (IP b)) eqn:He.
  { right. exists (be_encode 2 (Port a)), (be_encode 2 (Port b)). by rewrite !length_be_encode. }
  rewrite (ipv4Mask_sym (IP b)), (ipv6Mask_sym (IP b)).
  assert (Hv6 : ∀ a6 b6, To16 (IP a) = Some a6 → To16 (IP b) = Some b6 →
    ∃ m, ipv6Mask (IP a) (IP b) = Ok m ∧ length (IP_Mask a6 m) = length (IP_Mask b6 m)).
  { intros a6 b6 H1 H2. destruct (ipv6Mask_total (IP a) (IP b) a6 b6) as (m & Hm & Hl); try done.
    exists m. split; [done|]. apply To16_Some in H1 as [H1 _]. apply To16_Some in H2 as [H2 _].
    rewrite !length_IP_Mask; congruence. }
  destruct (To4 (IP a)) as [a4|] eqn:Ha4, (To4 (IP b)) as [b4|] eqn:Hb4.
  { right. eexists _, _. split_and!; [|done|done].
    pose proof (length_ipv4Mask (IP a) (IP b)). apply To4_Some in Ha4, Hb4.
    rewrite !length_IP_Mask; congruence. }
  all: destruct (To16 (IP a)) as [a6|], (To16 (IP b)) as [b6|]; try (left; done).
  all: right; destruct (Hv6 a6 b6) as (m & -> & Hl); try done; by eexists _, _.
Qed.

Lemma bytes_Compare_swap x y : length x = length y →
  (if 0 <? bytes_Compare x y then y ++ x else x ++ y) = (if 0 <? bytes_Compare y x then x ++ y else y ++ x).
Proof.
  intros _. unfold bytes_Compare. rewrite (bytes_compare_opp x y).
  destruct (bytes_compare x y) eqn:H; cbn; [|done|done]. apply bytes_compare_Eq in H. by subst.
Qed.

Lemma half_app (x y : list Z) : length x = length y → (length (x ++ y) / 2)%nat = length x.
Proof. intros H. rewrite length_app. symmetry. apply (Nat.div_unique _ 2 _ 0); lia. Qed.

(** The priority of a pair of peers does not depend on the order in which
    they are given, whatever the forms of their addresses (4 or 16 bytes, of
    different families, or of no valid length): both ends of a connection
    compute the same number, or both get the error.  The panic at the end of
    [ipv6Mask] is never reached. *)
Theorem bep40Priority_symmetric a b :
  bytes_ok (IP a) → bytes_ok (IP b) →
  ∃ o, bep40Priority a b = Ok o ∧ bep40Priority b a = Ok o.
Proof.
  intros Ha Hb. unfold bep40Priority.
  destruct (bep40PriorityBytes_halves a b Ha Hb) as [[-> ->]|(x & y & Hl & -> & ->)]; [by exists None|].
  cbn -[Nat.div bytes_Compare Checksum]. eexists. split; [done|]. rewrite (half_app x y), (half_app y x) by done.
  rewrite (take_app_length y x), (drop_app_length y x), (take_app_length x y), (drop_app_length x y).
  do 3 f_equal. symmetry. by apply bytes_Compare_swap.
Qed.

Lemma bep40Priority_symmetric_witness :
  ∃ o, bep40Priority (v4 123 213 32 10) (mkIpPort [98; 76; 54; 32] 0) = Ok o ∧
       bep40Priority (mkIpPort [98; 76; 54; 32] 0) (v4 123 213 32 10) = Ok o.
Proof. apply (bep40Priority_symmetric (v4 123 213 32 10) (mkIpPort [98; 76; 54; 32] 0)); by_decide. Defined.

Lemma bep40PriorityIgnoreError_total a b :
  bytes_ok (IP a) → bytes_ok (IP b) → ∃ prio, bep40PriorityIgnoreError a b = Ok prio.
Proof.
  intros Ha Hb. unfold bep40PriorityIgnoreError, bep40Priority.
  destruct (bep40PriorityBytes_halves a b Ha Hb) as [[-> _]|(x & y & _ & -> & _)]; cbn; eauto.
Qed.
