(* ===== verification/Peers.v ===== *)
(** The reserve of peers to connect to and the baseline provider:
    src/prioritized_peers.go, peer_info.go, peer_infos.go and the operations of
    torrent.go, client.go, peerconn.go and tracker_scraper.go that use them.

    The google/btree package is the class [GBtree]: what the code relies on of
    an ordered set over [Less].  [hash/maphash] with its random seed is an
    arbitrary function [addrHash], so nothing depends on hashes being
    different.  What the operations read of the rest of the torrent and of the
    client is the record [PeerEnv]; it may change between two operations. *)
From stdpp Require Import base numbers list strings gmap.
From Stdlib Require Import ZArith Lia Sorted.
From S2P Require Import Prelude RequestStrategy Bep40.
Open Scope Z_scope.

(** ** Addresses

    The peers of trackers, PEX and the DHT carry an [ipPortAddr].  Its
    [String()] is represented by the pair of the 16-byte form of the address
    (the raw bytes if it has no valid length) and the port: two addresses have
    the same string exactly if they have the same pair. *)
Record ipPortAddr : Type := mkAddr { aIP : list Z; aPort : Z }.

Definition addrString (a : ipPortAddr) : list Z * Z :=
  (match To16 (aIP a) with Some ip => ip | None => aIP a end, aPort a).

(** [net.ParseIP] answers in the 16-byte form, or [nil]. *)
Definition tryIpPortFromNetAddr (a : ipPortAddr) : ipPortAddr * bool :=
  (mkAddr (match To16 (aIP a) with Some ip => ip | None => [] end) (aPort a), true).

(** [netip.AddrFromSlice]: a 4-byte address and its 16-byte form are
    different [netip.Addr] values. *)
Definition AddrFromSlice (ip : list Z) : option (list Z) :=
  if Nat.eqb (length ip) 4 || Nat.eqb (length ip) 16 then Some ip else None.

(** ** peer_info.go *)
Record PeerInfo : Type := mkPeerInfo {
  Id : list Z;
  Addr : ipPortAddr;
  PSource : string;
  SupportsEncryption : bool;
  PexPeerFlags : Z;
  Trusted : bool;
  isBaseline : bool  (** [BaselineProvider] *)
}.

#[export] Instance ipPortAddr_eq : EqDecision ipPortAddr.
Proof. solve_decision. Defined.
#[export] Instance PeerInfo_eq : EqDecision PeerInfo.
Proof. solve_decision. Defined.

Definition PeerInfo_equal (me other : PeerInfo) : bool :=
  bool_decide (Id me = Id other) && bool_decide (addrString (Addr me) = addrString (Addr other)) &&
  bool_decide (PSource me = PSource other) && Bool.eqb (SupportsEncryption me) (SupportsEncryption other) &&
  (PexPeerFlags me =? PexPeerFlags other) && Bool.eqb (Trusted me) (Trusted other).

Definition PeerInfo_addr (me : PeerInfo) : IpPort :=
  let a := (tryIpPortFromNetAddr (Addr me)).1 in mkIpPort (aIP a) (u16 (aPort a)).

(** [tracker.Peer] and [peerInfos.AppendFromTracker]. *)
Record trackerPeer : Type := mkTPeer { tIP : list Z; tPort : Z; tID : list Z }.

(** [copy(_p.Id[:], p.ID)] into a zeroed array of 20 bytes. *)
Definition copyId (id : list Z) : list Z := take 20 (id ++ replicate 20 0).

Definition AppendFromTracker (ret : list PeerInfo) (ps : list trackerPeer) : list PeerInfo :=
  ret ++ map (λ p, mkPeerInfo (copyId (tID p)) (mkAddr (tIP p) (tPort p)) "Tr" false 0 false false) ps.

(** ** prioritized_peers.go *)
Record prioritizedPeersItem : Type := mkPItem { prio : Z; pp : PeerInfo }.

#[export] Instance prioritizedPeersItem_eq : EqDecision prioritizedPeersItem.
Proof. solve_decision. Defined.

(** What the code uses of google/btree; [gb_elems] is what [Ascend]
    delivers. *)
Class GBtree {A : Type} (less : A → A → bool) (T : Type) : Type := {
  gb_elems : T → list A;
  gb_New : T;
  gb_ReplaceOrInsert : T → A → option A * T;
  gb_Delete : T → A → option A * T;
  gb_DeleteMin : T → option A * T;
  gb_DeleteMax : T → option A * T;
  gb_New_elems : gb_elems gb_New = [];
  gb_sorted t : StronglySorted (λ a b, less a b = true) (gb_elems t);
  gb_Replace_elems t x y :
    y ∈ gb_elems (gb_ReplaceOrInsert t x).2 ↔
    y = x ∨ (y ∈ gb_elems t ∧ (less x y = true ∨ less y x = true));
  gb_Replace_old t x y :
    (gb_ReplaceOrInsert t x).1 = Some y → y ∈ gb_elems t ∧ less x y = false ∧ less y x = false;
  gb_Delete_elems t x y :
    y ∈ gb_elems (gb_Delete t x).2 ↔ y ∈ gb_elems t ∧ (less x y = true ∨ less y x = true);
  gb_DeleteMin_elems t :
    match gb_elems t with
    | [] => gb_DeleteMin t = (None, t)
    | y :: l => (gb_DeleteMin t).1 = Some y ∧ gb_elems (gb_DeleteMin t).2 = l
    end;
  gb_DeleteMax_elems t :
    match last (gb_elems t) with
    | None => gb_DeleteMax t = (None, t)
    | Some y => (gb_DeleteMax t).1 = Some y ∧ gb_elems t = gb_elems (gb_DeleteMax t).2 ++ [y]
    end
}.

Section Item.
Context `{Multiless} (addrHash : list Z * Z → Z).

Definition pitem_Less (me other : prioritizedPeersItem) : bool :=
  ml_Less
    (ml_Int
       (ml_Int (ml_Bool ml_New (Trusted (pp me)) (Trusted (pp other))) (prio me) (prio other))
       (addrHash (addrString (Addr (pp me)))) (addrHash (addrString (Addr (pp other))))).
End Item.

(** ** The state of the reserve *)
Record Reserve (T : Type) : Type := mkReserve {
  rpeers : T  (** [t.peers.om] *);
  halfOpen : gmap (list Z * Z) PeerInfo;
  numHalfOpen : Z  (** [cl.numHalfOpen] *);
  BaselineProvider : trackerPeer;
  wantPeersEvent : bool
}.
Arguments mkReserve {T} _ _ _ _ _.
Arguments rpeers {T} _.
Arguments halfOpen {T} _.
Arguments numHalfOpen {T} _.
Arguments BaselineProvider {T} _.
Arguments wantPeersEvent {T} _.

(** What is read of the torrent, of its connections, of the client and of the
    configuration. *)
Record PeerEnv : Type := mkPeerEnv {
  envClosed : bool;
  networkingEnabled : bool;
  envNeedData : bool;
  envSeeding : bool;
  envHaveAnyPieces : bool;
  envHaveAllPieces : bool;
  Reliable : bool;
  connAddrs : list (list Z * Z)  (** remote addresses of [t.conns] *);
  numReceivedConns : Z;
  envMaxEstablished : Z;
  worstBadConnFound : bool;
  numDialers : nat;
  TotalHalfOpenConns : Z;
  HalfOpenConnsPerTorrent : Z;
  TorrentPeersHighWater : Z;
  TorrentPeersLowWater : Z;
  peerID : list Z;
  publicAddr : list Z → IpPort;
  dopplegangerAddr : list Z * Z → bool;
  ipBlocked : list Z → bool  (** [ipBlockRange] *);
  badPeerIPs : gset (list Z)
}.

Definition badPeerIPPort (e : PeerEnv) (ip : list Z) (port : Z) : go bool :=
  if (port =? 0) || bool_decide (ip = []) then Ok true
  else if dopplegangerAddr e (addrString (mkAddr ip port)) then Ok true
  else if ipBlocked e ip then Ok true
  else
    match AddrFromSlice ip with
    | None => Panic "badPeerIPPort"
    | Some ipAddr => Ok (bool_decide (ipAddr ∈ badPeerIPs e))
    end.

Definition badPeerAddr (e : PeerEnv) (addr : ipPortAddr) : go bool :=
  let '(ipa, ok) := tryIpPortFromNetAddr addr in
  if ok then badPeerIPPort e (aIP ipa) (aPort ipa) else Ok false.

(** The table update of [banPeerIP]; the connections it drops are in the model
    of the torrent. *)
Definition recordBan (e : PeerEnv) (ip : list Z) : go PeerEnv :=
  match AddrFromSlice ip with
  | None => Panic "banPeerIP"
  | Some ipAddr =>
      Ok (mkPeerEnv (envClosed e) (networkingEnabled e) (envNeedData e) (envSeeding e) (envHaveAnyPieces e)
            (envHaveAllPieces e) (Reliable e) (connAddrs e) (numReceivedConns e) (envMaxEstablished e)
            (worstBadConnFound e) (numDialers e) (TotalHalfOpenConns e) (HalfOpenConnsPerTorrent e)
            (TorrentPeersHighWater e) (TorrentPeersLowWater e) (peerID e) (publicAddr e) (dopplegangerAddr e)
            (ipBlocked e) ({[ipAddr]} ∪ badPeerIPs e))
  end.

Definition getPrio (e : PeerEnv) (p : PeerInfo) : go Z :=
  if isBaseline p then Ok (2 ^ 32 - 1)
  else
    let ipPort := PeerInfo_addr p in
    bep40PriorityIgnoreError (publicAddr e (IP ipPort)) ipPort.

Definition isCompleteReliable (e : PeerEnv) : bool := envHaveAllPieces e && Reliable e.

Definition wantConns (e : PeerEnv) : bool :=
  if negb (networkingEnabled e) then false
  else if envClosed e then false
  else if negb (envNeedData e) && (negb (envSeeding e) || negb (envHaveAnyPieces e)) then false
  else (Z.of_nat (length (connAddrs e)) <? envMaxEstablished e) || worstBadConnFound e.

Definition maxHalfOpen (e : PeerEnv) : Z :=
  let establishedHeadroom := envMaxEstablished e - Z.of_nat (length (connAddrs e)) in
  let extraIncoming := numReceivedConns e - Z.quot (envMaxEstablished e) 2 in
  Z.min (Z.max 5 extraIncoming + establishedHeadroom) (HalfOpenConnsPerTorrent e).

(** [isBaselineProvider] of a connection with the given remote address. *)
Definition isBaselineProviderAddr {T} (st : Reserve T) (remoteIp : list Z) (remotePort : Z) : bool :=
  if bool_decide (tIP (BaselineProvider st) = []) || bool_decide (remoteIp = []) then false
  else IP_Equal remoteIp (tIP (BaselineProvider st)) && (u16 remotePort =? u16 (tPort (BaselineProvider st))).

Definition addBaselineProvider {T} (st : Reserve T) (bp : trackerPeer) : Reserve T * bool :=
  if bool_decide (tIP (BaselineProvider st) = [])
  then (mkReserve (rpeers st) (halfOpen st) (numHalfOpen st) bp (wantPeersEvent st), true)
  else (st, false).

Section Operations.
Context `{Multiless} (addrHash : list Z * Z → Z) {T : Type} {BT : GBtree (pitem_Less addrHash) T}.
Implicit Types st : Reserve T.

Definition peers_Len (t : T) : Z := Z.of_nat (length (gb_elems t)).

Definition peers_Add (e : PeerEnv) (t : T) (p : PeerInfo) : go (bool * T) :=
  pr ← getPrio e p;
  let '(old, t) := gb_ReplaceOrInsert t (mkPItem pr p) in
  Ok (match old with Some _ => true | None => false end, t).

Definition AddReturningReplacedPeer (e : PeerEnv) (t : T) (p : PeerInfo) : go (option PeerInfo * T) :=
  pr ← getPrio e p;
  let '(old, t) := gb_ReplaceOrInsert t (mkPItem pr p) in
  Ok (match old with Some item => Some (pp item) | None => None end, t).

Definition peers_DeleteMin (t : T) : option prioritizedPeersItem * T := gb_DeleteMin t.

Definition PopMax (t : T) : go (PeerInfo * T) :=
  match gb_DeleteMax t with
  | (Some item, t) => Ok (pp item, t)
  | (None, _) => Panic "interface conversion: nil"
  end.

Definition DeleteBaseLineProvider (e : PeerEnv) (t : T) (bp : PeerInfo) : go T :=
  pr ← getPrio e bp;
  Ok (gb_Delete t (mkPItem pr bp)).2.

Definition set_rpeers (t : T) st : Reserve T :=
  mkReserve t (halfOpen st) (numHalfOpen st) (BaselineProvider st) (wantPeersEvent st).

Definition wantPeers (e : PeerEnv) st : bool :=
  if envClosed e then false
  else if TorrentPeersLowWater e <? peers_Len (rpeers st) then false
  else wantConns e.

Definition updateWantPeersEvent (e : PeerEnv) st : Reserve T :=
  mkReserve (rpeers st) (halfOpen st) (numHalfOpen st) (BaselineProvider st) (wantPeers e st).

Definition addrActive (e : PeerEnv) st (addr : list Z * Z) : bool :=
  bool_decide (is_Some (halfOpen st !! addr)) || bool_decide (addr ∈ connAddrs e).

Definition initiateConn (e : PeerEnv) st (peer : PeerInfo) : go (Reserve T) :=
  if bool_decide (Id peer = peerID e) then Ok st
  else
    bad ← badPeerAddr e (Addr peer);
    if bad && negb (Trusted peer) then Ok st
    else if addrActive e st (addrString (Addr peer)) then Ok st
    else Ok (mkReserve (rpeers st) (<[addrString (Addr peer) := peer]> (halfOpen st)) (numHalfOpen st + 1)
               (BaselineProvider st) (wantPeersEvent st)).

(** The loop of [openNewConns], with the peers it hands to [initiateConn]
    (their number is the result of the Go function).  One iteration per peer
    of the reserve is enough. *)
Fixpoint openLoop (fuel : nat) (e : PeerEnv) st : go (list PeerInfo * Reserve T) :=
  match fuel with
  | O => Ok ([], st)
  | S fuel =>
      if peers_Len (rpeers st) =? 0 then Ok ([], st)
      else if negb (wantConns e) then Ok ([], st)
      else if maxHalfOpen e <=? Z.of_nat (size (halfOpen st)) then Ok ([], st)
      else if Nat.eqb (numDialers e) 0 then Ok ([], st)
      else if TotalHalfOpenConns e <=? numHalfOpen st then Ok ([], st)
      else
        '(p, t) ← PopMax (rpeers st);
        st ← initiateConn e (set_rpeers t st) p;
        '(ps, st) ← openLoop fuel e st;
        Ok (p :: ps, st)
  end.

Definition openNewConns (e : PeerEnv) st : go (list PeerInfo * Reserve T) :=
  if isCompleteReliable e then Ok ([], st)
  else
    '(ps, st) ← openLoop (length (gb_elems (rpeers st))) e st;
    Ok (ps, updateWantPeersEvent e st).

(** The loop that discards excess peers; with a negative limit it does not
    end. *)
Fixpoint trimLoop (fuel : nat) (e : PeerEnv) (t : T) : go T :=
  if TorrentPeersHighWater e <? peers_Len t then
    match fuel with
    | O => Panic "does not end"
    | S fuel => trimLoop fuel e (peers_DeleteMin t).2
    end
  else Ok t.

Definition addPeer (e : PeerEnv) st (p : PeerInfo) : go (bool * list PeerInfo * Reserve T) :=
  if envClosed e then Ok (false, [], st)
  else
    bad ← badPeerAddr e (Addr p);
    if bad : bool then Ok (false, [], st)
    else
      '(replaced, t) ← AddReturningReplacedPeer e (rpeers st) p;
      let added := match replaced with Some r => negb (PeerInfo_equal r p) | None => true end in
      '(ps, st) ← openNewConns e (set_rpeers t st);
      t ← trimLoop (length (gb_elems (rpeers st))) e (rpeers st);
      Ok (added, ps, set_rpeers t st).

Fixpoint addPeers (e : PeerEnv) st (peers : list PeerInfo) : go (Z * list PeerInfo * Reserve T) :=
  match peers with
  | [] => Ok (0, [], st)
  | p :: peers =>
      '(added, ps, st) ← addPeer e st p;
      '(n, ps', st) ← addPeers e st peers;
      Ok (n + Z.b2z added, ps ++ ps', st)
  end.

(** [noLongerHalfOpen], for the torrent at hand. *)
Definition noLongerHalfOpen (e : PeerEnv) st (addr : list Z * Z) : go (list PeerInfo * Reserve T) :=
  match halfOpen st !! addr with
  | None => Panic "invariant broken"
  | Some _ =>
      openNewConns e (mkReserve (rpeers st) (delete addr (halfOpen st)) (numHalfOpen st - 1)
                        (BaselineProvider st) (wantPeersEvent st))
  end.

(** The [PeerInfo] an announce makes of the baseline provider. *)
Definition baselineInfo (bp : trackerPeer) : PeerInfo :=
  mkPeerInfo (copyId (tID bp)) (mkAddr (tIP bp) (tPort bp)) "Tr" false 0 true true.

(** The end of [trackerScraper.announce]: what a response does to the
    reserve. *)
Definition onAnnounced (e : PeerEnv) st (Peers : list trackerPeer) (bp : trackerPeer) :
    go (list PeerInfo * Reserve T) :=
  let peerInfos := AppendFromTracker [] Peers in
  let '(st, isNew) := if bool_decide (tIP bp = []) then (st, false) else addBaselineProvider st bp in
  if isNew then
    t ← DeleteBaseLineProvider e (rpeers st) (baselineInfo bp);
    '(_, ps, st) ← addPeers e (set_rpeers t st) (peerInfos ++ [baselineInfo bp]);
    Ok (ps, st)
  else
    '(_, ps, st) ← addPeers e st peerInfos;
    Ok (ps, st).
End Operations.

(** ** A model of the tree: sorted lists *)
Section SortedTree.
Context `{Multiless} (addrHash : list Z * Z → Z).
Abbreviation less := (pitem_Less addrHash).
Abbreviation ltP := (λ a b, less a b = true).

(** The comparison is the lexicographic one of trust, priority and hash. *)
Definition pitem_key (x : prioritizedPeersItem) : list Z :=
  [Z.b2z (Trusted (pp x)); prio x; addrHash (addrString (Addr (pp x)))].

Lemma pitem_Less_key x y :
  less x y = true ↔ bytes_compare (pitem_key x) (pitem_key y) = Lt.
Proof.
  unfold pitem_Less. autorewrite with multiless. cbn.
  destruct (Z.b2z _ ?= _), (prio x ?= _), (addrHash _ ?= _); naive_solver.
Qed.

Lemma pitem_Less_trans x y z : less x y = true → less y z = true → less x z = true.
Proof. rewrite !pitem_Less_key. apply bytes_compare_trans. Qed.

Lemma pitem_Less_irrefl x : less x x = false.
Proof.
  apply not_true_iff_false. rewrite pitem_Less_key.
  rewrite (proj2 (bytes_compare_Eq (pitem_key x) (pitem_key x))); done.
Qed.

Lemma pitem_Less_equiv x y : less x y = false → less y x = false → pitem_key x = pitem_key y.
Proof.
  rewrite <- !not_true_iff_false, !pitem_Less_key, (bytes_compare_opp (pitem_key x)).
  intros H1 H2. apply bytes_compare_Eq. by destruct (bytes_compare _ _).
Qed.

Lemma pitem_Less_key_l x x' y : pitem_key x = pitem_key x' → less x y = less x' y ∧ less y x = less y x'.
Proof.
  intros Hk. split; apply Bool.eq_true_iff_eq; by rewrite !pitem_Less_key, Hk.
Qed.

Fixpoint pinsert (x : prioritizedPeersItem) (l : list prioritizedPeersItem) : option prioritizedPeersItem * list prioritizedPeersItem :=
  match l with
  | [] => (None, [x])
  | y :: l =>
      if less x y then (None, x :: y :: l)
      else if less y x then ((pinsert x l).1, y :: (pinsert x l).2)
      else (Some y, x :: l)
  end.

Definition differs (x y : prioritizedPeersItem) : bool := less x y || less y x.

Lemma differs_true x y : differs x y = true ↔ less x y = true ∨ less y x = true.
Proof. apply orb_true_iff. Qed.

Definition pdelete (x : prioritizedPeersItem) (l : list prioritizedPeersItem) : option prioritizedPeersItem * list prioritizedPeersItem :=
  (list_find (λ y, differs x y = false) l ≫= λ q, Some q.2, filter (λ y, differs x y = true) l).

Lemma sorted_head_differs (x : prioritizedPeersItem) l z : Forall (ltP x) l → z ∈ l → less x z = true.
Proof. intros Hl Hz. by eapply Forall_forall in Hl. Qed.

Lemma pinsert_elems x l y : StronglySorted ltP l →
  y ∈ (pinsert x l).2 ↔ y = x ∨ (y ∈ l ∧ (less x y = true ∨ less y x = true)).
Proof.
  induction 1 as [|z l Hl IH Hz]; cbn; [rewrite list_elem_of_singleton, elem_of_nil; tauto|].
  destruct (less x z) eqn:Hxz; cbn; [|destruct (less z x) eqn:Hzx; cbn].
  - rewrite !elem_of_cons. assert (y ∈ l → less x y = true).
    { intros Hy. eapply pitem_Less_trans; [exact Hxz|]. by eapply sorted_head_differs. }
    naive_solver.
  - rewrite !elem_of_cons, IH. naive_solver.
  - destruct (pitem_Less_key_l x z y (pitem_Less_equiv _ _ Hxz Hzx)) as [E1 E2].
    rewrite !elem_of_cons, E1, E2. assert (y ∈ l → less z y = true) by (intros; by eapply sorted_head_differs).
    split; [intros [?|?]; auto|]. intros [?|[[->|?] Hd]]; auto.
    rewrite pitem_Less_irrefl in Hd. by destruct Hd.
Qed.

Lemma pinsert_sorted x l : StronglySorted ltP l → StronglySorted ltP (pinsert x l).2.
Proof.
  induction 1 as [|z l Hl IH Hz]; cbn; [repeat constructor|].
  destruct (less x z) eqn:Hxz; cbn; [|destruct (less z x) eqn:Hzx; cbn].
  - repeat constructor; try done. eapply Forall_impl; [exact Hz|]. intros y. by apply pitem_Less_trans.
  - constructor; [done|]. apply Forall_forall. intros y [->|[Hy _]]%pinsert_elems; [done| |done].
    by eapply sorted_head_differs.
  - constructor; [done|]. eapply Forall_impl; [exact Hz|]. intros y Hy. cbn in *.
    destruct (pitem_Less_key_l x z y (pitem_Less_equiv _ _ Hxz Hzx)) as [-> _]. done.
Qed.

Lemma pinsert_old x l y : (pinsert x l).1 = Some y → y ∈ l ∧ less x y = false ∧ less y x = false.
Proof.
  induction l as [|z l IH]; cbn; [done|].
  destruct (less x z) eqn:?; cbn; [done|]. rewrite elem_of_cons.
  destruct (less z x) eqn:?; cbn; [intros (?&?&?)%IH; auto|]. intros [= ->]. auto.
Qed.

Lemma StronglySorted_app_l {A} (R : A → A → Prop) l1 l2 : StronglySorted R (l1 ++ l2) → StronglySorted R l1.
Proof.
  induction l1 as [|x l1 IH]; cbn; [constructor|]. inversion 1 as [|? ? Hs Hf]; subst.
  constructor; [by apply IH|]. by apply Forall_app in Hf as [? _].
Qed.

Lemma StronglySorted_tl {A} (R : A → A → Prop) l : StronglySorted R l → StronglySorted R (tail l).
Proof. destruct 1; [constructor|done]. Qed.

Lemma StronglySorted_init {A} (R : A → A → Prop) (l : list A) :
  StronglySorted R l → StronglySorted R (take (pred (length l)) l).
Proof. intros Hs. apply (StronglySorted_app_l R _ (drop (pred (length l)) l)). by rewrite take_drop. Qed.

Record sorted_peers : Type := mkSP { sp_list : list prioritizedPeersItem; sp_ok : StronglySorted ltP sp_list }.

#[export] Instance sorted_GBtree : GBtree less sorted_peers.
Proof.
  refine {|
    gb_elems := sp_list;
    gb_New := mkSP [] (SSorted_nil _);
    gb_ReplaceOrInsert t x := ((pinsert x (sp_list t)).1, mkSP (pinsert x (sp_list t)).2 (pinsert_sorted x _ (sp_ok t)));
    gb_Delete t x := ((pdelete x (sp_list t)).1, mkSP (pdelete x (sp_list t)).2 (StronglySorted_filter _ _ _ (sp_ok t)));
    gb_DeleteMin t := match head (sp_list t) with
                      | None => (None, t)
                      | Some y => (Some y, mkSP _ (StronglySorted_tl _ _ (sp_ok t)))
                      end;
    gb_DeleteMax t := match last (sp_list t) with
                      | None => (None, t)
                      | Some y => (Some y, mkSP _ (StronglySorted_init _ _ (sp_ok t)))
                      end
  |}.
  - done.
  - apply sp_ok.
  - intros t x y. apply pinsert_elems, sp_ok.
  - intros t x y. apply pinsert_old.
  - intros t x y. cbn. rewrite list_elem_of_filter, differs_true. naive_solver.
  - intros [[|y l] Hs]; done.
  - intros t. destruct (last (sp_list t)) as [y|] eqn:Hl; [|done]. split; [done|]. cbn.
    apply last_Some in Hl as (l' & ->). rewrite length_app. cbn.
    by rewrite Nat.add_1_r, Nat.pred_succ, take_app_length.
Defined.
End SortedTree.

(** ** Properties of the reserve *)

(** A [net.IP] is a slice of bytes. *)
Definition info_ok (p : PeerInfo) : Prop := bytes_ok (aIP (Addr p)).

Record env_ok (e : PeerEnv) : Prop := {
  env_public ip : bytes_ok (IP (publicAddr e ip));
  env_highWater : 1 ≤ TorrentPeersHighWater e
}.

Lemma To16_bytes ip x : bytes_ok ip → To16 ip = Some x → bytes_ok x.
Proof.
  unfold To16. intros Hb. destruct (Nat.eqb _ 4); [|destruct (Nat.eqb _ 16)]; intros [= <-]; try done.
  repeat (constructor; [lia|]). exact Hb.
Qed.

Lemma badPeerAddr_spec e a :
  badPeerAddr e a = Ok (match To16 (aIP a) with
                        | None => true
                        | Some ip => (aPort a =? 0) || dopplegangerAddr e (ip, aPort a) || ipBlocked e ip ||
                                     bool_decide (ip ∈ badPeerIPs e)
                        end).
Proof.
  unfold badPeerAddr, tryIpPortFromNetAddr, badPeerIPPort. cbn [aIP aPort].
  destruct (To16 (aIP a)) as [ip|] eqn:Hip; [|by rewrite orb_true_r].
  apply To16_Some in Hip as [Hl _].
  assert (Hn : bool_decide (ip = []) = false) by (apply bool_decide_eq_false; by intros ->).
  assert (H16 : To16 ip = Some ip) by (unfold To16; by rewrite Hl).
  rewrite Hn, orb_false_r. unfold addrString, AddrFromSlice. cbn [aIP aPort]. rewrite H16, Hl. cbn [Nat.eqb orb].
  by destruct (aPort a =? 0), (dopplegangerAddr e _), (ipBlocked e ip).
Qed.

Lemma getPrio_total e p : env_ok e → info_ok p → ∃ pr, getPrio e p = Ok pr.
Proof.
  intros He Hp. unfold getPrio. destruct (isBaseline p); [eauto|].
  apply bep40PriorityIgnoreError_total; [apply env_public, He|]. cbn.
  destruct (To16 (aIP (Addr p))) as [ip|] eqn:H; cbn; [by eapply To16_bytes|constructor].
Qed.

Section ReserveLaws.
Context `{Multiless} (addrHash : list Z * Z → Z) {T : Type} {BT : GBtree (pitem_Less addrHash) T}.
Implicit Types (st : Reserve T) (e : PeerEnv) (t : T).
Abbreviation less := (pitem_Less addrHash).
Abbreviation elems t := (gb_elems (GBtree := BT) t).

Lemma trusted_last x y : Trusted (pp x) = true → Trusted (pp y) = false → less y x = true ∧ less x y = false.
Proof.
  intros Hx Hy. rewrite <- not_true_iff_false, !pitem_Less_key. unfold pitem_key. rewrite Hx, Hy. cbn. done.
Qed.

(** The reserve holds [b] and, apart from it, only peers that are not
    trusted. *)
Definition only_trusted (b : prioritizedPeersItem) t : Prop :=
  b ∈ elems t ∧ ∀ y, y ∈ elems t → y = b ∨ Trusted (pp y) = false.

Definition untrusted t : Prop := ∀ y, y ∈ elems t → Trusted (pp y) = false.

Lemma only_trusted_last b t : Trusted (pp b) = true → only_trusted b t → last (elems t) = Some b.
Proof.
  intros Hb [Hin Ho]. apply list_elem_of_split in Hin as (l1 & l2 & Hl). rewrite Hl.
  destruct l2 as [|z l2]; [apply last_snoc|].
  pose proof (gb_sorted t) as Hs. rewrite Hl in Hs.
  assert (Hbz : less b z = true).
  { clear - Hs. induction l1 as [|a l1 IH]; inversion Hs as [|? ? Hs' Hf]; subst; [by inversion Hf|auto]. }
  destruct (Ho z) as [->|Hz]; [rewrite Hl; set_solver| |].
  - by rewrite pitem_Less_irrefl in Hbz.
  - destruct (trusted_last b z Hb Hz) as [_ E]. by rewrite E in Hbz.
Qed.

Lemma initiateConn_total e st p : ∃ st', initiateConn e st p = Ok st' ∧ rpeers st' = rpeers st.
Proof.
  unfold initiateConn. case_bool_decide; [eauto|]. rewrite badPeerAddr_spec.
  match goal with |- context [Ok ?b ≫= _] => destruct b; cbn end;
    destruct (Trusted p); cbn; try (destruct (addrActive e st _); cbn); eauto.
Qed.

(** What [openNewConns] does to the reserve: nothing, or it hands over peers
    from the highest priority down. *)
Definition opened t (ps : list PeerInfo) t' : Prop :=
  (∀ y, y ∈ elems t' → y ∈ elems t) ∧
  ((ps = [] ∧ t' = t) ∨ ∃ b rest, last (elems t) = Some b ∧ ps = pp b :: rest).

Lemma openLoop_spec e fuel : ∀ st,
  ∃ ps st', openLoop addrHash fuel e st = Ok (ps, st') ∧ opened (rpeers st) ps (rpeers st').
Proof.
  induction fuel as [|fuel IH]; intros st; cbn [openLoop].
  { exists [], st. split; [done|]. split; auto. }
  assert (Hstop : ∃ ps st', Ok ([], st) = Ok (ps, st') ∧ opened (rpeers st) ps (rpeers st')).
  { exists [], st. split; [done|]. split; auto. }
  destruct (Z.eqb_spec (peers_Len addrHash (rpeers st)) 0) as [|Hn]; [done|].
  destruct (negb (wantConns e)); [done|]. destruct (_ <=? _); [done|]. destruct (Nat.eqb _ _); [done|].
  destruct (_ <=? _); [done|]. unfold PopMax. pose proof (gb_DeleteMax_elems (rpeers st)) as Hmax.
  destruct (last (elems (rpeers st))) as [b|] eqn:Hl.
  2: { apply last_None in Hl. unfold peers_Len in Hn. by rewrite Hl in Hn. }
  destruct (gb_DeleteMax (rpeers st)) as [o t]. cbn in Hmax. destruct Hmax as [-> Helems]. cbn.
  destruct (initiateConn_total e (set_rpeers t st) (pp b)) as (st1 & -> & H1). cbn.
  destruct (IH st1) as (ps & st' & -> & [Hsub _]). cbn. exists (pp b :: ps), st'. split; [done|]. split.
  - intros y Hy%Hsub. rewrite H1 in Hy. cbn in Hy. rewrite Helems. set_solver.
  - right. eauto.
Qed.

Lemma openNewConns_spec e st :
  ∃ ps st', openNewConns addrHash e st = Ok (ps, st') ∧ opened (rpeers st) ps (rpeers st').
Proof.
  unfold openNewConns. destruct (isCompleteReliable e).
  { exists [], st. split; [done|]. split; auto. }
  destruct (openLoop_spec e (length (elems (rpeers st))) st) as (ps & st' & -> & Ho). cbn. eauto.
Qed.

(** Trimming removes from the low end and never the last peer. *)
Lemma trimLoop_spec e fuel : env_ok e → ∀ t, (length (elems t) ≤ fuel)%nat →
  ∃ t', trimLoop addrHash fuel e t = Ok t' ∧ (∀ y, y ∈ elems t' → y ∈ elems t) ∧
        last (elems t') = last (elems t).
Proof.
  intros [_ Hw]. induction fuel as [|fuel IH]; intros t Hf; cbn [trimLoop]; unfold peers_Len;
    destruct (Z.ltb_spec (TorrentPeersHighWater e) (Z.of_nat (length (elems t)))); eauto; [lia|].
  pose proof (gb_DeleteMin_elems t) as Hmin. unfold peers_DeleteMin.
  destruct (elems t) as [|y l] eqn:Ht; [cbn in *; lia|]. destruct Hmin as [_ Hl].
  destruct (IH (gb_DeleteMin t).2) as (t' & Ht' & Hsub & Hlast); [rewrite Hl; cbn in Hf; lia|].
  exists t'. split; [done|]. rewrite Hl in *. split; [set_solver|].
  rewrite Hlast. destruct l; [cbn in *; lia|done].
Qed.

(** The common end of [addPeer] for a tree [t] into which the peer has been
    inserted. *)
Lemma addPeer_tail e st : env_ok e →
  ∃ ps st1 t', openNewConns addrHash e st = Ok (ps, st1) ∧
    trimLoop addrHash (length (elems (rpeers st1))) e (rpeers st1) = Ok t' ∧
    (∀ y, y ∈ elems t' → y ∈ elems (rpeers st)) ∧
    ((ps = [] ∧ last (elems t') = last (elems (rpeers st))) ∨
     ∃ b rest, last (elems (rpeers st)) = Some b ∧ ps = pp b :: rest).
Proof.
  intros He. destruct (openNewConns_spec e st) as (ps & st1 & Hopen & Hsub & Hps).
  destruct (trimLoop_spec e (length (elems (rpeers st1))) He (rpeers st1)) as (t' & Htrim & Hsub' & Hlast); [done|].
  exists ps, st1, t'. split_and!; auto. destruct Hps as [[-> E]|?]; [|auto]. left. by rewrite Hlast, E.
Qed.

(** How a step treats the one trusted peer: it keeps it, or hands it over
    before any other. *)
Definition favours (b : prioritizedPeersItem) t (ps : list PeerInfo) t' : Prop :=
  only_trusted b t → (ps = [] ∧ only_trusted b t') ∨ ∃ rest, ps = pp b :: rest.

Lemma favours_tail b t ps t' : Trusted (pp b) = true →
  (∀ y, y ∈ elems t' → y ∈ elems t) →
  ((ps = [] ∧ last (elems t') = last (elems t)) ∨ ∃ b' rest, last (elems t) = Some b' ∧ ps = pp b' :: rest) →
  favours b t ps t'.
Proof.
  intros Hb Hsub Hps Ho. pose proof (only_trusted_last b t Hb Ho) as Hl.
  destruct Hps as [[-> E]|(b' & rest & E & ->)].
  - left. split; [done|]. split; [|intros y Hy; by apply Ho, Hsub].
    rewrite Hl in E. apply last_Some in E as (l & ->). set_solver.
  - right. exists rest. congruence.
Qed.

Lemma AddReturningReplacedPeer_spec e t p : env_ok e → info_ok p →
  ∃ pr o t', getPrio e p = Ok pr ∧ AddReturningReplacedPeer addrHash e t p = Ok (o, t') ∧
    ∀ y, y ∈ elems t' ↔ y = mkPItem pr p ∨ (y ∈ elems t ∧ (less (mkPItem pr p) y = true ∨ less y (mkPItem pr p) = true)).
Proof.
  intros He Hp. destruct (getPrio_total e p He Hp) as (pr & Hpr). exists pr.
  unfold AddReturningReplacedPeer. rewrite Hpr. cbn.
  destruct (gb_ReplaceOrInsert t (mkPItem pr p)) as [o t'] eqn:Hr.
  eexists _, t'. split; [done|]. split; [done|]. intros y.
  pose proof (gb_Replace_elems t (mkPItem pr p) y) as Hy. by rewrite Hr in Hy.
Qed.

(** [addPeer] of a peer that is not trusted. *)
Lemma addPeer_untrusted e st p : env_ok e → info_ok p → Trusted p = false →
  ∃ added ps st', addPeer addrHash e st p = Ok (added, ps, st') ∧
    (untrusted (rpeers st) → untrusted (rpeers st')) ∧
    ∀ b, Trusted (pp b) = true → favours b (rpeers st) ps (rpeers st').
Proof.
  intros He Hp Ht. unfold addPeer.
  assert (Hstop : ∃ added ps st', Ok (false, [], st) = Ok (added, ps, st') ∧
    (untrusted (rpeers st) → untrusted (rpeers st')) ∧
    ∀ b, Trusted (pp b) = true → favours b (rpeers st) ps (rpeers st')).
  { exists false, [], st. split_and!; auto. intros b Hb Ho. auto. }
  destruct (envClosed e); [done|]. rewrite badPeerAddr_spec.
  match goal with |- context [Ok ?b ≫= _] => destruct b; cbn end; [done|].
  destruct (AddReturningReplacedPeer_spec e (rpeers st) p He Hp) as (pr & o & t & Hpr & -> & Hin). cbn.
  destruct (addPeer_tail e (set_rpeers t st) He) as (ps & st1 & t' & -> & Htrim & Hsub & Hps). cbn.
  rewrite Htrim. cbn. eexists _, ps, _. split; [done|]. cbn in *. split.
  - intros Hu y [->|[Hy _]]%Hsub%Hin; auto.
  - intros b Hb Ho. eapply favours_tail; eauto. split.
    + apply Hin. right. split; [apply Ho|]. left.
      destruct (trusted_last b (mkPItem pr p)) as [E1 E2]; auto.
    + intros y [->|[Hy _]]%Hin; [auto|]. by apply Ho.
Qed.

Lemma favours_trans b t1 ps1 t2 ps2 t3 :
  favours b t1 ps1 t2 → favours b t2 ps2 t3 → favours b t1 (ps1 ++ ps2) t3.
Proof.
  intros H1 H2 Ho. destruct (H1 Ho) as [[-> Ho2]|[rest ->]]; [by apply H2|right; cbn; eauto].
Qed.

Lemma addPeers_untrusted e ps : env_ok e → Forall (λ p, info_ok p ∧ Trusted p = false) ps → ∀ st,
  ∃ n hs st', addPeers addrHash e st ps = Ok (n, hs, st') ∧
    (untrusted (rpeers st) → untrusted (rpeers st')) ∧
    ∀ b, Trusted (pp b) = true → favours b (rpeers st) hs (rpeers st').
Proof.
  intros He. induction 1 as [|p ps [Hp Ht] Hps IH]; intros st; cbn [addPeers].
  { exists 0, [], st. split_and!; auto. intros b _ Ho. auto. }
  destruct (addPeer_untrusted e st p He Hp Ht) as (added & hs1 & st1 & -> & Hu1 & Hf1). cbn.
  destruct (IH st1) as (n & hs2 & st2 & -> & Hu2 & Hf2). cbn.
  eexists _, _, st2. split; [done|]. split; [auto|]. intros b Hb. eapply favours_trans; eauto.
Qed.

Lemma addPeers_app e ps1 ps2 : ∀ st n1 hs1 st1 n2 hs2 st2,
  addPeers addrHash e st ps1 = Ok (n1, hs1, st1) → addPeers addrHash e st1 ps2 = Ok (n2, hs2, st2) →
  ∃ n, addPeers addrHash e st (ps1 ++ ps2) = Ok (n, hs1 ++ hs2, st2).
Proof.
  induction ps1 as [|p ps1 IH]; cbn [addPeers app]; intros st n1 hs1 st1 n2 hs2 st2 H1 H2.
  { inv_go. eauto. }
  inv_go. destruct x as [[added hs] st']. inv_go. destruct x as [[n hs'] st'']. inv_go.
  destruct (IH _ _ _ _ _ _ _ Hx0 H2) as (m & E). rewrite Hx. cbn. rewrite E. cbn. rewrite app_assoc. eauto.
Qed.

(** The item under which the baseline provider is kept. *)
Definition baselineItem (bp : trackerPeer) : prioritizedPeersItem := mkPItem (2 ^ 32 - 1) (baselineInfo bp).

(** Adding the baseline provider to a reserve of peers that are not
    trusted. *)
Lemma addPeer_baseline e st bp : env_ok e → bytes_ok (tIP bp) → envClosed e = false →
  badPeerAddr e (mkAddr (tIP bp) (tPort bp)) = Ok false → untrusted (rpeers st) →
  ∃ added hs st', addPeer addrHash e st (baselineInfo bp) = Ok (added, hs, st') ∧
    ((hs = [] ∧ only_trusted (baselineItem bp) (rpeers st')) ∨ ∃ rest, hs = baselineInfo bp :: rest).
Proof.
  intros He Hb Hc Hbad Hu. unfold addPeer. rewrite Hc. cbn [Addr baselineInfo]. rewrite Hbad. cbn -[AddReturningReplacedPeer].
  destruct (AddReturningReplacedPeer_spec e (rpeers st) (baselineInfo bp) He Hb) as (pr & o & t & [= <-] & -> & Hin). cbn.
  destruct (addPeer_tail e (set_rpeers t st) He) as (ps & st1 & t' & -> & Htrim & Hsub & Hps). cbn in *.
  rewrite Htrim. cbn. eexists _, ps, _. split; [done|]. cbn.
  apply (favours_tail (baselineItem bp) t ps t'); [done|done|done|]. split.
  - apply Hin. by left.
  - intros y [->|[Hy _]]%Hin; [by left|right; auto].
Qed.

(** The tree entry that [DeleteBaseLineProvider] looks for is that of a
    trusted peer of the highest priority. *)
Lemma DeleteBaseLineProvider_spec e t bp : isBaseline bp = true → Trusted bp = true →
  ∃ t', DeleteBaseLineProvider addrHash e t bp = Ok t' ∧
    ∀ y, y ∈ elems t' ↔ y ∈ elems t ∧
           ¬ (Trusted (pp y) = true ∧ prio y = 2 ^ 32 - 1 ∧
              addrHash (addrString (Addr (pp y))) = addrHash (addrString (Addr bp))).
Proof.
  intros Hb Ht. unfold DeleteBaseLineProvider, getPrio. rewrite Hb. cbn. eexists. split; [done|].
  intros y. rewrite gb_Delete_elems, !pitem_Less_key, (bytes_compare_opp (pitem_key addrHash y)).
  assert (E : bytes_compare (pitem_key addrHash y) (pitem_key addrHash (mkPItem (2 ^ 32 - 1) bp)) = Eq ↔
    (Trusted (pp y) = true ∧ prio y = 2 ^ 32 - 1 ∧
              addrHash (addrString (Addr (pp y))) = addrHash (addrString (Addr bp)))).
  { rewrite bytes_compare_Eq. unfold pitem_key. cbn [prio pp]. rewrite Ht.
    split; [intros [= E1 E2 E3]; by destruct (Trusted (pp y))|by intros (-> & -> & ->)]. }
  rewrite <- E. destruct (bytes_compare _ _); cbn; naive_solver.
Qed.

(** *** Runs

    What happens to the reserve after an announce: peers are added, the
    torrent tries to open connections, a dial under way ends. *)
Inductive rop : Type :=
| OpAdd (ps : list PeerInfo)
| OpOpen
| OpDialed (addr : list Z * Z).

Definition rop_ok (o : rop) : Prop :=
  match o with OpAdd ps => Forall (λ p, info_ok p ∧ Trusted p = false) ps | _ => True end.

Definition runOp e st (o : rop) : go (list PeerInfo * Reserve T) :=
  match o with
  | OpAdd ps => '(_, hs, st) ← addPeers addrHash e st ps; Ok (hs, st)
  | OpOpen => openNewConns addrHash e st
  | OpDialed a => if bool_decide (is_Some (halfOpen st !! a)) then noLongerHalfOpen addrHash e st a else Ok ([], st)
  end.

Fixpoint runOps st (os : list (PeerEnv * rop)) : go (list PeerInfo * Reserve T) :=
  match os with
  | [] => Ok ([], st)
  | (e, o) :: os =>
      '(hs, st) ← runOp e st o;
      '(hs', st) ← runOps st os;
      Ok (hs ++ hs', st)
  end.

Lemma opened_favours b t ps t' : Trusted (pp b) = true → opened t ps t' → favours b t ps t'.
Proof.
  intros Hb [Hsub Hps]. apply favours_tail; [done|done|]. destruct Hps as [[-> ->]|?]; auto.
Qed.

Lemma runOp_favours e st o : env_ok e → rop_ok o →
  ∃ hs st', runOp e st o = Ok (hs, st') ∧ ∀ b, Trusted (pp b) = true → favours b (rpeers st) hs (rpeers st').
Proof.
  intros He Ho. destruct o as [ps| |a]; cbn [runOp].
  - destruct (addPeers_untrusted e ps He Ho st) as (n & hs & st' & -> & _ & Hf). cbn. eauto.
  - destruct (openNewConns_spec e st) as (hs & st' & E & Hop). eauto using opened_favours.
  - case_bool_decide as Ha.
    + destruct Ha as [p Hp]. unfold noLongerHalfOpen. rewrite Hp.
      match goal with |- context [openNewConns _ _ ?s] => destruct (openNewConns_spec e s) as (hs & st' & E & Hop) end.
      eauto using opened_favours.
    + exists [], st. split; [done|]. intros b _ Hb. auto.
Qed.

Lemma runOps_favours os : Forall (λ q, env_ok q.1 ∧ rop_ok q.2) os → ∀ st,
  ∃ hs st', runOps st os = Ok (hs, st') ∧ ∀ b, Trusted (pp b) = true → favours b (rpeers st) hs (rpeers st').
Proof.
  induction 1 as [|[e o] os [He Ho] Hos IH]; intros st; cbn [runOps].
  { exists [], st. split; [done|]. intros b _ Hb. auto. }
  destruct (runOp_favours e st o He Ho) as (hs1 & st1 & -> & Hf1). cbn.
  destruct (IH st1) as (hs2 & st2 & -> & Hf2). cbn.
  eexists _, st2. split; [done|]. intros b Hb. eapply favours_trans; eauto.
Qed.

(** An announce that brings the first baseline provider. *)
Lemma onAnnounced_baseline e st Peers bp : env_ok e → bytes_ok (tIP bp) →
  Forall (λ p, bytes_ok (tIP p)) Peers → envClosed e = false → tIP (BaselineProvider st) = [] →
  badPeerAddr e (mkAddr (tIP bp) (tPort bp)) = Ok false → untrusted (rpeers st) →
  ∃ hs st', onAnnounced addrHash e st Peers bp = Ok (hs, st') ∧
    (baselineInfo bp ∈ hs ∨ only_trusted (baselineItem bp) (rpeers st')).
Proof.
  intros He Hb Hps Hc Hnone Hbad Hu. unfold onAnnounced.
  rewrite bool_decide_false. 2: { intros E. rewrite badPeerAddr_spec in Hbad. cbn in Hbad. by rewrite E in Hbad. }
  unfold addBaselineProvider. rewrite bool_decide_true by done.
  set (st0 := mkReserve _ _ _ _ _).
  destruct (DeleteBaseLineProvider_spec e (rpeers st0) (baselineInfo bp)) as (t & -> & Ht); [done|done|].
  cbn -[addPeers AppendFromTracker set_rpeers].
  destruct (addPeers_untrusted e (AppendFromTracker [] Peers) He) with (st := set_rpeers t st0)
    as (n1 & hs1 & st1 & E1 & Hu1 & _).
  { unfold AppendFromTracker. cbn. apply Forall_map. eapply Forall_impl; [exact Hps|]. intros p Hp. by split. }
  destruct (addPeer_baseline e st1 bp) as (added & hs2 & st2 & E2 & Hend); try done.
  { apply Hu1. intros y [Hy _]%Ht. by apply Hu. }
  destruct (addPeers_app e (AppendFromTracker [] Peers) [baselineInfo bp] (set_rpeers t st0) n1 hs1 st1 (0 + Z.b2z added) (hs2 ++ []) st2)
    as (n & E); [done|cbn [addPeers]; by rewrite E2|].
  rewrite E. cbn. eexists _, st2. split; [done|]. rewrite app_nil_r.
  destruct Hend as [[-> Ho]|[rest ->]]; [by right|left; set_solver].
Qed.

(** The conditions under which [openNewConns] takes a peer. *)
Definition hasRoom e st : bool :=
  negb (isCompleteReliable e) && wantConns e && (Z.of_nat (size (halfOpen st)) <? maxHalfOpen e) &&
  negb (Nat.eqb (numDialers e) 0) && (numHalfOpen st <? TotalHalfOpenConns e).

Lemma openNewConns_room e st b : last (elems (rpeers st)) = Some b → hasRoom e st = true →
  ∃ rest st', openNewConns addrHash e st = Ok (pp b :: rest, st').
Proof.
  intros Hl. unfold hasRoom. rewrite !andb_true_iff, !negb_true_iff.
  intros [[[[Hr Hw] Hm%Z.ltb_lt] Hd] Ht%Z.ltb_lt]. unfold openNewConns. rewrite Hr.
  destruct (length (elems (rpeers st))) as [|n] eqn:Hn.
  { apply nil_length_inv in Hn. by rewrite Hn in Hl. }
  cbn [openLoop]. unfold peers_Len, PopMax. rewrite Hn, Hw, Hd. cbn [negb].
  rewrite !(proj2 (Z.leb_gt _ _)) by done. rewrite (proj2 (Z.eqb_neq _ _)) by lia.
  pose proof (gb_DeleteMax_elems (rpeers st)) as Hmax. rewrite Hl in Hmax.
  destruct (gb_DeleteMax (rpeers st)) as [o t]. destruct Hmax as [E _]. cbn in E. rewrite E. cbn.
  destruct (initiateConn_total e (set_rpeers t st) (pp b)) as (st1 & -> & _). cbn.
  destruct (openLoop_spec e n st1) as (ps & st' & -> & _). cbn. eauto.
Qed.

(** C2. The baseline provider is not lost from the reserve.  Let an announce
    bring a first baseline provider with an acceptable address to an open
    torrent whose reserve holds no trusted peer.  Then, whatever untrusted
    peers are added afterwards, however often the reserve overflows and
    whatever dials end, either the provider was handed to [initiateConn]
    already during the announce, or the first peer handed over later is the
    provider, or none was and the provider is still in the reserve.  No
    operation panics, and each ends.  ([TorrentPeersHighWater] is at least
    one.) *)
Theorem baseline_never_evicted e st Peers bp os :
  env_ok e → bytes_ok (tIP bp) → Forall (λ p, bytes_ok (tIP p)) Peers → envClosed e = false →
  tIP (BaselineProvider st) = [] → badPeerAddr e (mkAddr (tIP bp) (tPort bp)) = Ok false →
  untrusted (rpeers st) → Forall (λ q, env_ok q.1 ∧ rop_ok q.2) os →
  ∃ hs1 st1 hs2 st2,
    onAnnounced addrHash e st Peers bp = Ok (hs1, st1) ∧ runOps st1 os = Ok (hs2, st2) ∧
    (baselineInfo bp ∈ hs1 ∨
     (hs2 = [] ∧ baselineItem bp ∈ elems (rpeers st2)) ∨
     ∃ rest, hs2 = baselineInfo bp :: rest).
Proof.
  intros He Hb Hps Hc Hnone Hbad Hu Hos.
  destruct (onAnnounced_baseline e st Peers bp) as (hs1 & st1 & E1 & H1); try done.
  destruct (runOps_favours os Hos st1) as (hs2 & st2 & E2 & H2).
  exists hs1, st1, hs2, st2. split_and!; [done|done|]. destruct H1 as [|Ho]; [by left|right].
  destruct (H2 (baselineItem bp) eq_refl Ho) as [[? Ho']|?]; [left|by right]. split; [done|apply Ho'].
Qed.

(** C3. The baseline provider is dialled as soon as a connection may be
    opened.  After such an announce and any such run, if the provider has not
    been handed over yet and the torrent wants connections, has room for
    another half-open one and a dialer, the next [openNewConns] hands over the
    provider, before every other peer. *)
Theorem baseline_dialled e st Peers bp os e' hs1 st1 hs2 st2 :
  env_ok e → bytes_ok (tIP bp) → Forall (λ p, bytes_ok (tIP p)) Peers → envClosed e = false →
  tIP (BaselineProvider st) = [] → badPeerAddr e (mkAddr (tIP bp) (tPort bp)) = Ok false →
  untrusted (rpeers st) → Forall (λ q, env_ok q.1 ∧ rop_ok q.2) os →
  onAnnounced addrHash e st Peers bp = Ok (hs1, st1) → runOps st1 os = Ok (hs2, st2) →
  hasRoom e' st2 = true →
  baselineInfo bp ∈ hs1 ++ hs2 ∨
  ∃ rest st3, openNewConns addrHash e' st2 = Ok (baselineInfo bp :: rest, st3).
Proof.
  intros He Hb Hps Hc Hnone Hbad Hu Hos E1 E2 Hroom.
  destruct (onAnnounced_baseline e st Peers bp) as (hs1' & st1' & E1' & H1); try done.
  rewrite E1 in E1'. injection E1' as <- <-. destruct (runOps_favours os Hos st1) as (hs2' & st2' & E2' & H2).
  rewrite E2 in E2'. injection E2' as <- <-. destruct H1 as [|Ho]; [left; set_solver|].
  destruct (H2 (baselineItem bp) eq_refl Ho) as [[-> Ho']|[rest ->]]; [right|left; set_solver].
  apply (openNewConns_room e' st2 (baselineItem bp)); [|done]. by apply only_trusted_last.
Qed.

(** [DeleteBaseLineProvider] does not remove the regular entry of the
    baseline provider.  The caller's comment says it deletes the entry the
    provider has as a regular peer; but the entry is looked up with the trust
    and the priority of a baseline provider, so every entry of an untrusted
    peer stays, the one with the provider's own address included. *)
Theorem deleteBaseline_keeps_regular e t bp :
  isBaseline bp = true → Trusted bp = true → untrusted t →
  ∃ t', DeleteBaseLineProvider addrHash e t bp = Ok t' ∧ ∀ y, y ∈ elems t' ↔ y ∈ elems t.
Proof.
  intros Hb Ht Hu. destruct (DeleteBaseLineProvider_spec e t bp Hb Ht) as (t' & E & Hin).
  exists t'. split; [done|]. intros y. rewrite Hin. split; [by intros [? _]|]. intros Hy. split; [done|].
  rewrite (Hu y Hy). by intros [? _].
Qed.
End ReserveLaws.

(** Whom a ban keeps out.  A ban recorded for a 4-byte address (as the
    smart ban records the peers of an IPv4 connection) changes nothing for
    [badPeerAddr], which looks addresses up in their 16-byte form: the banned
    address can be added and dialled again.  A ban recorded for a 16-byte
    address is honoured for every port. *)
Theorem ban_effect e ip :
  (length ip = 4%nat → ∃ e', recordBan e ip = Ok e' ∧ ∀ a, badPeerAddr e' a = badPeerAddr e a) ∧
  (length ip = 16%nat → ∃ e', recordBan e ip = Ok e' ∧
     ∀ a, To16 (aIP a) = Some ip → badPeerAddr e' a = Ok true).
Proof.
  unfold recordBan, AddrFromSlice. split; intros Hlen; rewrite Hlen; cbn [Nat.eqb orb]; (eexists; split; [done|]); intros a.
  - rewrite !badPeerAddr_spec. cbn. destruct (To16 (aIP a)) as [x|] eqn:Hx; [|done].
    assert (Hd : x ∈ {[ip]} ∪ badPeerIPs e ↔ x ∈ badPeerIPs e).
    { apply To16_Some in Hx as [Hx _]. split; [|set_solver]. intros [->%elem_of_singleton|?]%elem_of_union; [|done]. lia. }
    by rewrite (bool_decide_ext _ _ Hd).
  - intros Hx. rewrite badPeerAddr_spec, Hx. cbn. rewrite bool_decide_true by set_solver. by rewrite orb_true_r.
Qed.

(** ** Witnesses *)
Module PeersExample.
Definition hash0 (a : list Z * Z) : Z := a.2.

Definition env (want : bool) : PeerEnv :=
  mkPeerEnv false true want false false false false [] 0 50 false 1 100 25 1 50 [1]
    (λ _, v4 1 2 3 4) (λ _, false) (λ _, false) ∅.

Definition regular (d port : Z) : PeerInfo := mkPeerInfo [] (mkAddr [10; 0; 0; d] port) "Tr" false 0 false false.

Definition tree : sorted_peers hash0 := (gb_ReplaceOrInsert gb_New (mkPItem 7 (regular 9 6881))).2.

Definition st : Reserve (sorted_peers hash0) := mkReserve tree ∅ 0 (mkTPeer [] 0 []) false.

Definition bp : trackerPeer := mkTPeer [10; 0; 0; 9] 6881 [].

Definition os : list (PeerEnv * rop) := [(env false, OpAdd [regular 1 1; regular 2 2]); (env false, OpOpen)].

(** The value of a computation that does not panic. *)
Definition value {A} (d : A) (m : go A) : A := match m with Ok a => a | Panic _ => d end.

Lemma value_Ok {A} (d : A) (m : go A) : (match m with Ok _ => true | Panic _ => false end) = true → m = Ok (value d m).
Proof. by destruct m. Qed.

Definition announced : list PeerInfo * Reserve (sorted_peers hash0) :=
  value ([], st) (onAnnounced hash0 (env false) st [mkTPeer [10; 0; 0; 3] 3 []] bp).

Definition ran : list PeerInfo * Reserve (sorted_peers hash0) :=
  value ([], st) (runOps hash0 announced.2 os).

Lemma env_good want : env_ok (env want).
Proof. split; [intros; by_decide|done]. Defined.

Lemma tree_untrusted : untrusted hash0 tree.
Proof. intros y Hy. vm_compute in Hy. apply list_elem_of_singleton in Hy. by rewrite Hy. Defined.

Lemma os_good : Forall (λ q, env_ok q.1 ∧ rop_ok q.2) os.
Proof.
  repeat constructor; try apply env_good; by_decide.
Defined.
End PeersExample.

Lemma baseline_never_evicted_witness :
  ∃ hs1 st1 hs2 st2,
    onAnnounced PeersExample.hash0 (PeersExample.env false) PeersExample.st [mkTPeer [10; 0; 0; 3] 3 []] PeersExample.bp = Ok (hs1, st1) ∧
    runOps PeersExample.hash0 st1 PeersExample.os = Ok (hs2, st2) ∧
    (baselineInfo PeersExample.bp ∈ hs1 ∨
     (hs2 = [] ∧ baselineItem PeersExample.bp ∈ gb_elems (rpeers st2)) ∨
     ∃ rest, hs2 = baselineInfo PeersExample.bp :: rest).
Proof.
  apply (baseline_never_evicted PeersExample.hash0 (PeersExample.env false) PeersExample.st [mkTPeer [10; 0; 0; 3] 3 []] PeersExample.bp PeersExample.os).
  - apply PeersExample.env_good.
  - by_decide.
  - by_decide.
  - reflexivity.
  - reflexivity.
  - vm_compute. reflexivity.
  - apply PeersExample.tree_untrusted.
  - apply PeersExample.os_good.
Defined.

Lemma baseline_dialled_witness :
  baselineInfo PeersExample.bp ∈ PeersExample.announced.1 ++ PeersExample.ran.1 ∨
  ∃ rest st3, openNewConns PeersExample.hash0 (PeersExample.env true) PeersExample.ran.2 = Ok (baselineInfo PeersExample.bp :: rest, st3).
Proof.
  apply (baseline_dialled PeersExample.hash0 (PeersExample.env false) PeersExample.st [mkTPeer [10; 0; 0; 3] 3 []] PeersExample.bp PeersExample.os
           (PeersExample.env true) PeersExample.announced.1 PeersExample.announced.2 PeersExample.ran.1 PeersExample.ran.2).
  - apply PeersExample.env_good.
  - by_decide.
  - by_decide.
  - reflexivity.
  - reflexivity.
  - vm_compute. reflexivity.
  - apply PeersExample.tree_untrusted.
  - apply PeersExample.os_good.
  - rewrite <- surjective_pairing. apply PeersExample.value_Ok. vm_compute. reflexivity.
  - rewrite <- surjective_pairing. apply PeersExample.value_Ok. vm_compute. reflexivity.
  - vm_compute. reflexivity.
Defined.

Lemma deleteBaseline_keeps_regular_witness :
  ∃ t', DeleteBaseLineProvider PeersExample.hash0 (PeersExample.env true) PeersExample.tree (baselineInfo PeersExample.bp) = Ok t' ∧
    ∀ y, y ∈ gb_elems t' ↔ y ∈ gb_elems PeersExample.tree.
Proof.
  apply (deleteBaseline_keeps_regular PeersExample.hash0 (PeersExample.env true) PeersExample.tree (baselineInfo PeersExample.bp));
    [reflexivity|reflexivity|apply PeersExample.tree_untrusted].
Defined.
