(* ===== verification/Decimal.v ===== *)
(** Decimal numerals as package [strconv] reads and writes them: [ParseInt],
    [ParseUint], [AppendInt] and [AppendUint] in base 10, and [big.Int]'s
    [SetString] and [String]. *)
From stdpp Require Import base numbers list.
From Stdlib Require Import ZArith Lia.
From S2P Require Import Prelude.
Open Scope Z_scope.

(** Digits, most significant first, in front of [acc]. *)
Fixpoint fmtDigits (fuel : nat) (n : Z) (acc : list Z) : list Z :=
  match fuel with
  | O => acc
  | S fuel => if n <? 10 then (48 + n) :: acc else fmtDigits fuel (n / 10) ((48 + n mod 10) :: acc)
  end.

(** A number below [2 ^ k] has fewer than [k + 2] digits. *)
Definition AppendUint (n : Z) : list Z := fmtDigits (S (S (Z.to_nat (Z.log2 n)))) n [].

Definition AppendInt (n : Z) : list Z := if n <? 0 then 45 :: AppendUint (- n) else AppendUint n.

Definition isDigit (c : Z) : bool := (48 <=? c) && (c <=? 57).

Definition digitsValue (s : list Z) : Z := foldl (λ a c, a * 10 + (c - 48)) 0 s.

(** The number a numeral without bounds denotes: an optional sign and at least
    one digit. *)
Definition parseDigits (s : list Z) : option Z :=
  match s with
  | [] => None
  | _ => if forallb isDigit s then Some (digitsValue s) else None
  end.

Definition parseNumeral (s : list Z) : option Z :=
  match s with
  | 45 :: s => n ← parseDigits s; Some (- n)
  | 43 :: s => parseDigits s
  | _ => parseDigits s
  end.

(** [strconv.ParseInt(s, 10, 64)].  (Go reports a number that is out of range
    before it has seen a bad character behind it; every caller treats both
    as an error.) *)
Inductive parsed : Type := NumOk (n : Z) | NumRange (n : Z) | NumSyntax.

Definition ParseInt (s : list Z) : parsed :=
  match parseNumeral s with
  | Some n => if (- 2 ^ 63 <=? n) && (n <? 2 ^ 63) then NumOk n else NumRange n
  | None => NumSyntax
  end.

(** [strconv.ParseUint(s, 10, 64)]: no sign. *)
Definition ParseUint (s : list Z) : parsed :=
  match parseDigits s with
  | Some n => if n <? 2 ^ 64 then NumOk n else NumRange n
  | None => NumSyntax
  end.

(** A numeral without superfluous zeros. *)
Definition canonicalDigits (s : list Z) : bool :=
  forallb isDigit s && match s with [] => false | [_] => true | c :: _ => negb (c =? 48) end.

Arguments AppendUint : simpl never.
Arguments AppendInt : simpl never.

Lemma isDigit_range c : isDigit c = true ↔ 48 ≤ c ≤ 57.
Proof. unfold isDigit. rewrite andb_true_iff, !Z.leb_le. done. Qed.

Lemma isDigit_val d : 0 ≤ d < 10 → isDigit (48 + d) = true.
Proof. intros. apply isDigit_range. lia. Qed.

Lemma fmtDigits_app fuel : ∀ n acc, fmtDigits fuel n acc = fmtDigits fuel n [] ++ acc.
Proof.
  induction fuel as [|fuel IH]; intros n acc; cbn; [done|]. destruct (n <? 10); [done|].
  rewrite IH, (IH _ [_]), <- app_assoc. done.
Qed.

Lemma fmtDigits_S f n acc :
  fmtDigits (S f) n acc = if n <? 10 then (48 + n) :: acc else fmtDigits f (n / 10) ((48 + n mod 10) :: acc).
Proof. done. Qed.

Lemma fmtDigits_fuel f1 : ∀ f2 n, 0 ≤ n < 2 ^ Z.of_nat f1 → n < 2 ^ Z.of_nat f2 →
  fmtDigits (S f1) n [] = fmtDigits (S f2) n [].
Proof.
  induction f1 as [|f1 IH]; intros f2 n H1 H2; rewrite fmtDigits_S, (fmtDigits_S f2);
    destruct (Z.ltb_spec n 10); try done.
  { cbn in H1. lia. }
  destruct f2 as [|f2]; [cbn in H2; lia|].
  rewrite fmtDigits_app, (fmtDigits_app (S f2)). f_equal.
  rewrite Nat2Z.inj_succ, Z.pow_succ_r in H1, H2 by lia.
  apply IH; [split; [apply Z.div_pos; lia|]|]; apply Z.div_lt_upper_bound; lia.
Qed.

Lemma log2_fuel n : 0 < n → 0 ≤ n < 2 ^ Z.of_nat (S (Z.to_nat (Z.log2 n))).
Proof.
  intros Hn. pose proof (Z.log2_spec n Hn). pose proof (Z.log2_nonneg n).
  rewrite Nat2Z.inj_succ, Z2Nat.id by done. lia.
Qed.

Lemma AppendUint_small n : 0 ≤ n < 10 → AppendUint n = [48 + n].
Proof. intros. unfold AppendUint. by rewrite fmtDigits_S, (proj2 (Z.ltb_lt _ _)) by lia. Qed.

Lemma AppendUint_step n : 10 ≤ n → AppendUint n = AppendUint (n / 10) ++ [48 + n mod 10].
Proof.
  intros Hn. unfold AppendUint at 1. rewrite fmtDigits_S, (proj2 (Z.ltb_ge _ _)) by lia.
  rewrite fmtDigits_app. f_equal. unfold AppendUint.
  assert (0 < n / 10) by (apply Z.div_str_pos; lia).
  pose proof (log2_fuel n ltac:(lia)) as H1. rewrite Nat2Z.inj_succ, Z.pow_succ_r in H1 by lia.
  apply fmtDigits_fuel; [|by apply log2_fuel]. split; [lia|]. apply Z.div_lt_upper_bound; lia.
Qed.

(** Induction over the digits of a number. *)
Lemma digits_ind (P : Z → Prop) :
  (∀ n, 0 ≤ n < 10 → P n) → (∀ n, 10 ≤ n → P (n / 10) → P n) → ∀ n, 0 ≤ n → P n.
Proof.
  intros Hs Hb n. pattern n. apply (well_founded_induction (Z.lt_wf 0)). intros m IH Hm.
  destruct (Z.lt_ge_cases m 10); [by apply Hs|]. apply Hb; [done|].
  apply IH; [split; [apply Z.div_pos; lia|apply Z.div_lt; lia]|apply Z.div_pos; lia].
Qed.

Lemma digitsValue_snoc s c : digitsValue (s ++ [c]) = digitsValue s * 10 + (c - 48).
Proof. unfold digitsValue. by rewrite foldl_app. Qed.

Lemma forallb_snoc {A} (f : A → bool) l x : forallb f (l ++ [x]) = forallb f l && f x.
Proof. rewrite forallb_app. cbn. by rewrite andb_true_r. Qed.

Lemma AppendUint_value n : 0 ≤ n → digitsValue (AppendUint n) = n.
Proof.
  revert n. apply digits_ind; intros n Hn.
  - rewrite AppendUint_small by done. unfold digitsValue. cbn. lia.
  - intros IH. rewrite AppendUint_step, digitsValue_snoc, IH by done. pose proof (Z.div_mod n 10). lia.
Qed.

Lemma AppendUint_digits n : 0 ≤ n → forallb isDigit (AppendUint n) = true.
Proof.
  revert n. apply digits_ind; intros n Hn.
  - rewrite AppendUint_small by done. cbn. by rewrite isDigit_val.
  - intros IH. rewrite AppendUint_step, forallb_snoc, IH by done. apply isDigit_val, Z.mod_pos_bound. lia.
Qed.

Lemma AppendUint_head n : 0 ≤ n → ∃ c s, AppendUint n = c :: s ∧ 48 ≤ c ≤ 57 ∧ (c = 48 → n = 0).
Proof.
  revert n. apply digits_ind; intros n Hn.
  - rewrite AppendUint_small by done. exists (48 + n), []. split; [done|lia].
  - intros (c & s & E & Hc & H0). rewrite AppendUint_step, E by done. exists c, (s ++ [48 + n mod 10]).
    split; [done|]. split; [done|]. intros ->. pose proof (Z.div_str_pos n 10). lia.
Qed.

Lemma AppendUint_canonical n : 0 ≤ n → canonicalDigits (AppendUint n) = true.
Proof.
  intros Hn. unfold canonicalDigits. rewrite AppendUint_digits, andb_true_l by done.
  destruct (AppendUint_head n Hn) as (c & s & E & _ & H0). rewrite E. destruct s as [|d s]; [done|].
  destruct (Z.eqb_spec c 48) as [->|]; [|done]. rewrite (H0 eq_refl) in E. discriminate E.
Qed.

Lemma parseDigits_AppendUint n : 0 ≤ n → parseDigits (AppendUint n) = Some n.
Proof.
  intros Hn. unfold parseDigits. destruct (AppendUint_head n Hn) as (c & s & E & _).
  pose proof (AppendUint_digits n Hn) as Hd. pose proof (AppendUint_value n Hn) as Hv.
  rewrite E in Hd, Hv |- *. by rewrite Hd, Hv.
Qed.

(** A numeral without superfluous zeros is the one that is written. *)
Lemma AppendUint_of_canonical s : canonicalDigits s = true →
  AppendUint (digitsValue s) = s ∧ 0 ≤ digitsValue s ∧ (digitsValue s = 0 → s = [48]).
Proof.
  induction s as [|c s IH] using rev_ind; [done|]. intros Hc.
  unfold canonicalDigits in Hc. apply andb_true_iff in Hc as [Hd Hlead].
  rewrite forallb_snoc in Hd. apply andb_true_iff in Hd as [Hd Hcd]. apply isDigit_range in Hcd.
  rewrite digitsValue_snoc. destruct s as [|h s].
  { unfold digitsValue. cbn. rewrite AppendUint_small by lia. split; [f_equal; lia|]. split; [lia|]. intros. f_equal; lia. }
  assert (Hh : h ≠ 48) by (destruct s; cbn in Hlead; by destruct (Z.eqb_spec h 48)).
  destruct IH as (IH & Hpos & H0).
  { unfold canonicalDigits. rewrite Hd. cbn. destruct s; [done|]. by rewrite (proj2 (Z.eqb_neq _ _)). }
  assert (digitsValue (h :: s) ≠ 0) by (intros E; apply H0 in E; congruence).
  rewrite AppendUint_step by lia.
  replace ((digitsValue (h :: s) * 10 + (c - 48)) / 10) with (digitsValue (h :: s)) by (Z.div_mod_to_equations; lia).
  replace ((digitsValue (h :: s) * 10 + (c - 48)) mod 10) with (c - 48) by (Z.div_mod_to_equations; lia).
  rewrite IH. split; [f_equal; f_equal; lia|]. lia.
Qed.

Lemma parseNumeral_AppendInt n : parseNumeral (AppendInt n) = Some n.
Proof.
  unfold AppendInt. destruct (Z.ltb_spec n 0).
  - cbn. rewrite parseDigits_AppendUint by lia. cbn. f_equal. lia.
  - destruct (AppendUint_head n) as (c & s & E & Hc & _); [done|].
    pose proof (parseDigits_AppendUint n ltac:(done)) as Hp. rewrite E in Hp |- *.
    unfold parseNumeral. destruct (decide (c = 45)), (decide (c = 43)); try lia.
    by repeat (case_match; try lia).
Qed.
