(* ===== verification/Bencode.v ===== *)
(** Bencode: src/bencode/{decode,encode,api,scanner,bytes}.go, for values of
    dynamic type ([interface{}]).

    The decoder keeps its unread input, the offset and a scratch buffer; a
    panic that [Decode] recovers from is [Throw].  A dictionary is the list of
    its entries; Go's map has them in no particular order, and the encoder
    sorts them. *)
From stdpp Require Import base numbers list sets strings.
From Stdlib Require Import ZArith Lia Sorted.
From S2P Require Import Prelude RequestStrategy Decimal.
Open Scope Z_scope.

(** ** Values and errors *)
Inductive ival : Type :=
| IInt (n : Z)                      (** int64 *)
| IBig (n : Z)                      (** *big.Int *)
| IStr (s : list Z)
| IList (l : list ival)
| IDict (d : list (list Z * ival)).

Inductive derr : Type :=
| ESyntax (off : Z)                 (** *SyntaxError *)
| EEOF                              (** io.EOF *)
| EUnexpectedEOF                    (** io.ErrUnexpectedEOF *)
| EType                             (** *UnmarshalTypeError *)
| ETrailing (n : Z)                 (** ErrUnusedTrailingBytes *)
| EOther (why : string)
| ERuntime (why : string).          (** a run-time panic, which is not recovered from *)

(** The decoder: [d.r], [d.Offset], [d.buf]. *)
Record dec : Type := mkDec { drest : list Z; Offset : Z; dbuf : list Z }.

Inductive dout (A : Type) : Type :=
| Ret (a : A) (st : dec)
| Throw (e : derr)
| NoFuel.
Arguments Ret {A} _ _.
Arguments Throw {A} _.
Arguments NoFuel {A}.

Definition M (A : Type) : Type := dec → dout A.

#[export] Instance M_ret : MRet M := λ A a st, Ret a st.
#[export] Instance M_bind : MBind M := λ A B f m st,
  match m st with Ret a st => f a st | Throw e => Throw e | NoFuel => NoFuel end.

Definition throw {A} (e : derr) : M A := λ _, Throw e.
Definition getOffset : M Z := λ st, Ret (Offset st) st.
Definition getBuf : M (list Z) := λ st, Ret (dbuf st) st.
Definition buf_Reset : M unit := λ st, Ret tt (mkDec (drest st) (Offset st) []).
Definition buf_Write (s : list Z) : M unit := λ st, Ret tt (mkDec (drest st) (Offset st) (dbuf st ++ s)).

(** ** decode.go *)
Definition DefaultDecodeMaxStrLen : Z := 2 ^ 27 - 1.

(** [d.MaxStrLen] as the parameter [maxStrLen] of the decoder. *)
Definition getMaxStrLen (maxStrLen : Z) : Z := if maxStrLen =? 0 then DefaultDecodeMaxStrLen else maxStrLen.

(** [d.r.ReadByte()] where the caller panics with the error. *)
Definition ReadByte_or (e : derr) : M Z := λ st,
  match drest st with
  | [] => Throw e
  | b :: r => Ret b (mkDec r (Offset st + 1) (dbuf st))
  end.

(** An end of file becomes a syntax error at the current offset. *)
Definition readByte : M Z := λ st, ReadByte_or (ESyntax (Offset st)) st.

Fixpoint readUntilLoop (sep : Z) (rest : list Z) (off : Z) (buf : list Z) : dout unit :=
  match rest with
  | [] => Throw (ESyntax off)
  | b :: rest =>
      if b =? sep then Ret tt (mkDec rest (off + 1) buf) else readUntilLoop sep rest (off + 1) (buf ++ [b])
  end.

Definition readUntil (sep : Z) : M unit := λ st, readUntilLoop sep (drest st) (Offset st) (dbuf st).

(** [checkBufferedInt]; [false] is the error "invalid leading digit". *)
Definition checkBufferedInt (b : list Z) : bool :=
  match b with
  | [] | [_] => true
  | c :: b' =>
      match (if c =? 45 then b' else b) with
      | d :: _ => negb ((d <? 49) || (57 <? d))
      | [] => false
      end
  end.

(** [readInt], with the error it returns. *)
Definition readInt : M (option derr) :=
  _ ← readUntil 101;
  b ← getBuf;
  mret (if checkBufferedInt b then None else Some (EOther "invalid leading digit")).

Definition parseStringLength (maxStrLen : Z) : M (result derr Z) :=
  start ← getOffset;
  _ ← readUntil 58;
  b ← getBuf;
  if negb (checkBufferedInt b) then mret (Bad (EOther "invalid leading digit"))
  else
    match ParseInt b with
    | NumOk length =>
        _ ← buf_Reset;
        mret (if getMaxStrLen maxStrLen <? length then Bad (EOther "parsed string length exceeds limit") else Good length)
    | _ => throw (ESyntax (start - 1))
    end.

Definition parseIntInterface : M ival :=
  start ← getOffset;
  err ← readInt;
  match err with
  | Some e => throw e
  | None =>
      b ← getBuf;
      ret ← (match ParseInt b with
             | NumOk n => mret (IInt n)
             | NumRange n => mret (IBig n)
             | NumSyntax => throw (ESyntax (start - 1))
             end);
      _ ← buf_Reset;
      mret ret
  end.

(** [readBytes]: [io.ReadAll] of a [LimitReader]. *)
Definition readBytes (length_ : Z) : M (list Z) := λ st,
  let b := take (Z.to_nat length_) (drest st) in
  if Z.of_nat (length b) =? length_
  then Ret b (mkDec (drop (Z.to_nat length_) (drest st)) (Offset st) (dbuf st))
  else Throw (EOther "read bytes").

Definition addOffset (n : Z) : M unit := λ st, Ret tt (mkDec (drest st) (Offset st + n) (dbuf st)).

Definition parseStringInterface (maxStrLen : Z) : M (list Z) :=
  len ← parseStringLength maxStrLen;
  match len with
  | Bad e => throw e
  | Good n =>
      b ← readBytes n;
      _ ← addOffset (Z.of_nat (length b));
      mret b
  end.

Definition bytes_le (a b : list Z) : bool := match bytes_compare a b with Gt => false | _ => true end.

Definition noFuel {A} : M A := λ _, NoFuel.

(** [parseValueInterface] ([None]: an 'e') with the loops of
    [parseDictInterface] and [parseListInterface]; [lastKey] is [lastKey] when
    [lastKeyOk].  One unit of fuel per call. *)
Fixpoint parseValueInterface (fuel : nat) (maxStrLen : Z) {struct fuel} : M (option ival) :=
  match fuel with
  | O => noFuel
  | S fuel =>
      b ← ReadByte_or EEOF;
      if b =? 101 then mret None
      else if b =? 100 then d ← parseDictInterface fuel maxStrLen None []; mret (Some (IDict d))
      else if b =? 108 then l ← parseListInterface fuel maxStrLen []; mret (Some (IList l))
      else if b =? 105 then n ← parseIntInterface; mret (Some n)
      else if isDigit b then
        _ ← buf_Write [b]; s ← parseStringInterface maxStrLen; mret (Some (IStr s))
      else
        off ← getOffset; throw (ESyntax (off - 1))
  end
with parseDictInterface (fuel : nat) (maxStrLen : Z) (lastKey : option (list Z)) (dict : list (list Z * ival))
    {struct fuel} : M (list (list Z * ival)) :=
  match fuel with
  | O => noFuel
  | S fuel =>
      start ← getOffset;
      keyi ← parseValueInterface fuel maxStrLen;
      match keyi with
      | None => mret dict
      | Some (IStr key) =>
          if match lastKey with Some last => bytes_le key last | None => false end
          then throw (ESyntax start)
          else
            start ← getOffset;
            valuei ← parseValueInterface fuel maxStrLen;
            match valuei with
            | None => throw (ESyntax start)
            | Some v => parseDictInterface fuel maxStrLen (Some key) (dict ++ [(key, v)])
            end
      | Some _ => off ← getOffset; throw (ESyntax off)
      end
  end
with parseListInterface (fuel : nat) (maxStrLen : Z) (list_ : list ival) {struct fuel} : M (list ival) :=
  match fuel with
  | O => noFuel
  | S fuel =>
      valuei ← parseValueInterface fuel maxStrLen;
      match valuei with
      | None => mret list_
      | Some v => parseListInterface fuel maxStrLen (list_ ++ [v])
      end
  end.

(** [Decode] into an [interface{}]: the end symbol leaves nothing to set, and
    [reflect] panics with an error. *)
Definition DecodeInterface (maxStrLen : Z) : M ival :=
  λ st,
    match (v ← parseValueInterface (2 * length (drest st) + 1) maxStrLen;
           match v with Some v => mret v | None => throw (EOther "reflect.Value.Set on zero Value") end) st with
    | Throw EEOF => Throw EUnexpectedEOF
    | r => r
    end.

(** [Unmarshal(data, &v)] for [var v interface{}]. *)
Definition Unmarshal (data : list Z) : result derr ival :=
  match DecodeInterface 0 (mkDec data 0 []) with
  | Ret v st => match drest st with [] => Good v | r => Bad (ETrailing (Z.of_nat (length r))) end
  | Throw e => Bad e
  | NoFuel => Bad (EOther "no fuel")
  end.

(** ** encode.go *)

(** [writeString] goes through a scratch array of 64 bytes; the result is
    what [w] receives. *)
Fixpoint writeStringLoop (fuel : nat) (s : list Z) : list Z :=
  match fuel with
  | O => []
  | S fuel => match s with [] => [] | _ => take 64 s ++ writeStringLoop fuel (drop 64 s) end
  end.

Definition writeString (s : list Z) : list Z := writeStringLoop (length s) s.

Definition writeStringPrefix (l : Z) : list Z := AppendInt l ++ writeString [58].

Definition reflectString (s : list Z) : list Z := writeStringPrefix (Z.of_nat (length s)) ++ writeString s.

(** [sort.Sort] of the entries of a map by key. *)
Fixpoint insertKey {A} (e : list Z * A) (l : list (list Z * A)) : list (list Z * A) :=
  match l with
  | [] => [e]
  | f :: l => if bytes_le e.1 f.1 then e :: f :: l else f :: insertKey e l
  end.

Definition sortKeys {A} (l : list (list Z * A)) : list (list Z * A) := foldr insertKey [] l.

(** [reflectValue] on the dynamic types; the values of a map are written in
    the order of the sorted keys. *)
Fixpoint reflectValue (v : ival) : list Z :=
  match v with
  | IInt n => writeString [105] ++ AppendInt n ++ writeString [101]
  | IBig n => writeString [105] ++ writeString (AppendInt n) ++ writeString [101]
  | IStr s => reflectString s
  | IList l => writeString [108] ++ concat (map reflectValue l) ++ writeString [101]
  | IDict d =>
      writeString [100] ++
      concat (map (λ e, reflectString e.1 ++ e.2) (sortKeys (map (λ e, (e.1, reflectValue e.2)) d))) ++
      writeString [101]
  end.

Definition Marshal (v : ival) : list Z := reflectValue v.

Example marshal_ex :
  Marshal (IDict [([98], IList [IInt (-3); IBig (2 ^ 64)]); ([97], IStr [120; 121])]) =
  [100; 49; 58; 97; 50; 58; 120; 121; 49; 58; 98; 108; 105; 45; 51; 101; 105] ++ AppendInt (2 ^ 64) ++ [101; 101; 101].
Proof. by_compute. Qed.

Example unmarshal_ex :
  Unmarshal (Marshal (IDict [([98], IList [IInt (-3); IBig (2 ^ 64)]); ([97], IStr [120; 121])])) =
  Good (IDict [([97], IStr [120; 121]); ([98], IList [IInt (-3); IBig (2 ^ 64)])]).
Proof. by_compute. Qed.

(** ** Lemmas *)

(** Induction over values, through the lists. *)
Lemma ival_ind' (P : ival → Prop) :
  (∀ n, P (IInt n)) → (∀ n, P (IBig n)) → (∀ s, P (IStr s)) →
  (∀ l, Forall P l → P (IList l)) → (∀ d, Forall (λ e, P e.2) d → P (IDict d)) → ∀ v, P v.
Proof.
  intros Hi Hb Hs Hl Hd. fix IH 1. intros [n|n|s|l|d]; [apply Hi|apply Hb|apply Hs|apply Hl|apply Hd].
  - induction l as [|v l IHl]; constructor; [apply IH|exact IHl].
  - induction d as [|[k v] d IHd]; constructor; [apply IH|exact IHd].
Qed.

Lemma bind_Ret {A B} (m : M A) (f : A → M B) st a st' : m st = Ret a st' → (m ≫= f) st = f a st'.
Proof. unfold mbind, M_bind. by intros ->. Qed.

Lemma bind_inv {A B} (m : M A) (f : A → M B) st b st' :
  (m ≫= f) st = Ret b st' → ∃ a st1, m st = Ret a st1 ∧ f a st1 = Ret b st'.
Proof. unfold mbind, M_bind. destruct (m st); naive_solver. Qed.

Ltac inv_M :=
  repeat match goal with
  | H : (_ ≫= _) _ = Ret _ _ |- _ =>
      apply bind_inv in H; let a := fresh "a" in let s := fresh "s" in let Ha := fresh "Ha" in
      destruct H as (a & s & Ha & H)
  | H : mret _ _ = Ret _ _ |- _ => first [injection H as <- <- | injection H as H; subst]
  | H : Ret _ _ = Ret _ _ |- _ => first [injection H as <- <- | injection H as H; subst]
  | H : throw _ _ = Ret _ _ |- _ => discriminate H
  | H : noFuel _ = Ret _ _ |- _ => discriminate H
  | H : Throw _ = Ret _ _ |- _ => discriminate H
  | H : NoFuel = Ret _ _ |- _ => discriminate H
  | H : getOffset _ = Ret _ _ |- _ => first [injection H as <- <- | injection H as H; subst]
  | H : getBuf _ = Ret _ _ |- _ => first [injection H as <- <- | injection H as H; subst]
  | H : buf_Reset _ = Ret _ _ |- _ => first [injection H as <- <- | injection H as H; subst]
  | H : buf_Write _ _ = Ret _ _ |- _ => first [injection H as <- <- | injection H as H; subst]
  | H : addOffset _ _ = Ret _ _ |- _ => first [injection H as <- <- | injection H as H; subst]
  end.

Lemma writeStringLoop_id fuel : ∀ s, (length s ≤ fuel)%nat → writeStringLoop fuel s = s.
Proof.
  induction fuel as [|fuel IH]; intros s Hs; [destruct s; cbn in *; [done|lia]|].
  destruct s as [|c s]; [done|]. cbn [writeStringLoop].
  rewrite IH by (rewrite length_drop; cbn in *; lia). apply take_drop.
Qed.

Lemma writeString_id s : writeString s = s.
Proof. by apply writeStringLoop_id. Qed.

Lemma reflectString_spec s : reflectString s = AppendInt (Z.of_nat (length s)) ++ 58 :: s.
Proof. unfold reflectString, writeStringPrefix. rewrite !writeString_id, <- app_assoc. done. Qed.

(** What the encoder writes, without the scratch array. *)
Lemma reflectValue_spec v : reflectValue v =
  match v with
  | IInt n | IBig n => 105 :: AppendInt n ++ [101]
  | IStr s => reflectString s
  | IList l => 108 :: concat (map reflectValue l) ++ [101]
  | IDict d => 100 :: concat (map (λ e, reflectString e.1 ++ e.2) (sortKeys (map (λ e, (e.1, reflectValue e.2)) d))) ++ [101]
  end.
Proof. destruct v; cbn [reflectValue]; rewrite ?writeString_id; done. Qed.

Arguments reflectValue : simpl never.
Arguments reflectString : simpl never.

(** *** Numerals *)
Lemma AppendInt_chars n c : c ∈ AppendInt n → c = 45 ∨ 48 ≤ c ≤ 57.
Proof.
  unfold AppendInt. assert (Hd : ∀ m, 0 ≤ m → c ∈ AppendUint m → 48 ≤ c ≤ 57).
  { intros m Hm Hc. pose proof (AppendUint_digits m Hm) as Hf. rewrite forallb_forall in Hf.
    apply isDigit_range, Hf. by apply list_elem_of_In. }
  destruct (Z.ltb_spec n 0); [intros [->|?]%elem_of_cons; [by left|]|intros ?]; right;
    [apply (Hd (- n))|apply (Hd n)]; done || lia.
Qed.

Lemma canonical_head c s d : canonicalDigits (c :: d :: s) = true → negb ((c <? 49) || (57 <? c)) = true.
Proof.
  unfold canonicalDigits. rewrite andb_true_iff. cbn [forallb]. rewrite andb_true_iff, isDigit_range.
  intros [[? _] ?%negb_true_iff%Z.eqb_neq]. apply negb_true_iff, orb_false_iff. rewrite !Z.ltb_ge. lia.
Qed.

Lemma checkBufferedInt_AppendInt n : checkBufferedInt (AppendInt n) = true.
Proof.
  unfold AppendInt. destruct (Z.ltb_spec n 0) as [Hn|Hn].
  - destruct (AppendUint_head (- n)) as (c & s & E & Hc & H0); [lia|].
    rewrite E. cbn. apply negb_true_iff, orb_false_iff. rewrite !Z.ltb_ge.
    assert (c ≠ 48) by (intros ->; lia). lia.
  - destruct (AppendUint_head n Hn) as (c & s & E & Hc & H0).
    pose proof (AppendUint_canonical n Hn) as Hcan. rewrite E in *. destruct s as [|d s]; [done|].
    cbn [checkBufferedInt]. rewrite (proj2 (Z.eqb_neq _ _)) by lia. by eapply canonical_head.
Qed.

Lemma parseNumeral_cases s n : parseNumeral s = Some n →
  (∃ t, s = 45 :: t ∧ parseDigits t = Some (- n)) ∨ (∃ t, s = 43 :: t ∧ t ≠ []) ∨ parseDigits s = Some n.
Proof.
  unfold parseNumeral. destruct s as [|c s]; [done|].
  assert (Hneg : (n' ← parseDigits s; Some (- n')) = Some n → parseDigits s = Some (- n)).
  { destruct (parseDigits s); cbn; [intros [= <-]; f_equal; lia|done]. }
  assert (Hne : parseDigits s = Some n → s ≠ []) by (by intros ? ->).
  repeat case_match; subst; eauto 10.
Qed.

Lemma parseDigits_inv s n : parseDigits s = Some n → s ≠ [] ∧ forallb isDigit s = true ∧ digitsValue s = n.
Proof. unfold parseDigits. destruct s; [done|]. destruct (forallb isDigit _); [|done]. intros [= <-]. done. Qed.

(** The numerals the decoder accepts are the ones the encoder writes. *)
Lemma accepted_numeral s n : checkBufferedInt s = true → parseNumeral s = Some n → AppendInt n = s.
Proof.
  intros Hc [(t & -> & Hp)|[(t & -> & Ht)|Hp]]%parseNumeral_cases.
  - apply parseDigits_inv in Hp as (Ht & Hd & Hv). destruct t as [|c t]; [done|]. cbn in Hc.
    apply negb_true_iff, orb_false_iff in Hc as [Hc1%Z.ltb_ge Hc2%Z.ltb_ge].
    destruct (AppendUint_of_canonical (c :: t)) as (E & Hpos & H0).
    { unfold canonicalDigits. rewrite Hd. destruct t; [done|]. rewrite (proj2 (Z.eqb_neq _ _)) by lia. done. }
    unfold AppendInt. destruct (Z.ltb_spec n 0) as [|Hn]; [by rewrite <- Hv, E|].
    assert (Hz : digitsValue (c :: t) = 0) by lia. apply H0 in Hz. injection Hz as -> ->. lia.
  - destruct t; [done|]. done.
  - apply parseDigits_inv in Hp as (Ht & Hd & Hv).
    destruct (AppendUint_of_canonical s) as (E & Hpos & H0).
    { unfold canonicalDigits. rewrite Hd. destruct s as [|c [|c' s]]; [done|done|]. cbn in Hc.
      cbn [forallb] in Hd. apply andb_true_iff in Hd as [Hd%isDigit_range _].
      rewrite (proj2 (Z.eqb_neq c 45)) in Hc by lia.
      apply negb_true_iff, orb_false_iff in Hc as [Hc1%Z.ltb_ge _]. cbn.
      by rewrite (proj2 (Z.eqb_neq c 48)) by lia. }
    unfold AppendInt. rewrite (proj2 (Z.ltb_ge _ _)) by lia. by rewrite <- Hv.
Qed.

(** *** Reading *)
Lemma readUntilLoop_app sep pre : ∀ rest off buf, sep ∉ pre →
  readUntilLoop sep (pre ++ sep :: rest) off buf =
  Ret tt (mkDec rest (off + Z.of_nat (length pre) + 1) (buf ++ pre)).
Proof.
  induction pre as [|c pre IH]; intros rest off buf Hs; cbn.
  - rewrite Z.eqb_refl, app_nil_r. do 2 f_equal. lia.
  - rewrite (proj2 (Z.eqb_neq _ _)) by set_solver. rewrite IH by set_solver. rewrite <- app_assoc.
    do 2 f_equal. lia.
Qed.

Lemma readUntilLoop_inv sep rest : ∀ off buf u st',
  readUntilLoop sep rest off buf = Ret u st' →
  ∃ pre, rest = pre ++ sep :: drest st' ∧ dbuf st' = buf ++ pre ∧ Offset st' = off + Z.of_nat (length pre) + 1.
Proof.
  induction rest as [|c rest IH]; intros off buf u st'; cbn; [done|].
  destruct (Z.eqb_spec c sep) as [->|].
  - intros [= <- <-]. exists []. rewrite app_nil_r. cbn. split_and!; [done|done|lia].
  - intros (pre & -> & E1 & E2)%IH. exists (c :: pre). rewrite <- app_assoc in E1. cbn. split_and!; [done|done|lia].
Qed.

(** The value of an integer of any size. *)
Definition int_val (n : Z) : ival := if (- 2 ^ 63 <=? n) && (n <? 2 ^ 63) then IInt n else IBig n.

Lemma reflectValue_int n : reflectValue (int_val n) = 105 :: AppendInt n ++ [101].
Proof. unfold int_val. destruct (_ && _); by rewrite reflectValue_spec. Qed.

(** Where the decoder stands: what is left and what was read add up. *)
Definition pos (st : dec) : Z := Offset st + Z.of_nat (length (drest st)).

Lemma readUntil_inv sep u st st' : readUntil sep st = Ret u st' →
  ∃ pre, drest st = pre ++ sep :: drest st' ∧ dbuf st' = dbuf st ++ pre ∧ pos st' = pos st.
Proof.
  intros (pre & E1 & E2 & E3)%readUntilLoop_inv. exists pre. split_and!; [done|done|].
  unfold pos. rewrite E1, E3, length_app. cbn. lia.
Qed.

Lemma ParseInt_int_val b v : (match ParseInt b with NumOk n => Some (IInt n) | NumRange n => Some (IBig n) | NumSyntax => None end) = Some v ↔
  ∃ n, parseNumeral b = Some n ∧ v = int_val n.
Proof.
  unfold ParseInt, int_val. destruct (parseNumeral b) as [n|]; [|naive_solver].
  destruct (_ && _) eqn:E; split; [intros [= <-]; exists n|intros (? & [= <-] & ->)|intros [= <-]; exists n|intros (? & [= <-] & ->)];
    by rewrite E.
Qed.

Lemma parseIntInterface_sound st v st' : dbuf st = [] → parseIntInterface st = Ret v st' →
  ∃ n, v = int_val n ∧ drest st = AppendInt n ++ 101 :: drest st' ∧ dbuf st' = [] ∧ pos st' = pos st.
Proof.
  intros Hb H. unfold parseIntInterface, readInt in H. inv_M.
  apply readUntil_inv in Ha1 as (pre & E1 & E2 & E3). rewrite Hb in E2. cbn in E2.
  destruct (checkBufferedInt (dbuf s1)) eqn:Hc; [|inv_M]. inv_M.
  pose proof (λ v, proj1 (ParseInt_int_val (dbuf s1) v)) as Hv.
  destruct (ParseInt (dbuf s1)) as [m|m|]; inv_M;
    (destruct (Hv _ eq_refl) as (n & Hn & ->); exists n; rewrite (accepted_numeral _ _ Hc Hn), E2; done).
Qed.

Lemma parseStringInterface_sound maxStrLen c st s st' :
  isDigit c = true → dbuf st = [c] → parseStringInterface maxStrLen st = Ret s st' →
  c :: drest st = reflectString s ++ drest st' ∧ Z.of_nat (length s) ≤ getMaxStrLen maxStrLen ∧
  dbuf st' = [] ∧ pos st' = pos st.
Proof.
  intros Hd Hb H. unfold parseStringInterface, parseStringLength in H. inv_M.
  apply readUntil_inv in Ha1 as (pre & E1 & E2 & E3). rewrite Hb in E2. cbn in E2.
  destruct (checkBufferedInt (dbuf s2)) eqn:Hc; cbn [negb] in Ha; [|inv_M].
  unfold ParseInt in Ha. destruct (parseNumeral (dbuf s2)) as [n|] eqn:Hn; [|inv_M].
  destruct (_ && _); [|inv_M]. inv_M. destruct (Z.ltb_spec (getMaxStrLen maxStrLen) n) as [|Hle]; inv_M.
  unfold readBytes in Ha. cbn in Ha.
  destruct (Z.eqb_spec (Z.of_nat (length (take (Z.to_nat n) (drest s2)))) n) as [Hlen|]; inv_M.
  pose proof (accepted_numeral _ _ Hc Hn) as Ha.
  rewrite reflectString_spec, E1, Hlen, Ha, E2. cbn. rewrite <- !app_assoc. cbn. rewrite take_drop. split_and!; [done|lia|done|].
  unfold pos in *. cbn [Offset drest]. rewrite <- E3.
  pose proof (f_equal length (take_drop (Z.to_nat n) (drest s2))) as Hl. rewrite length_app in Hl. lia.
Qed.

(** *** What the decoder accepts *)
Inductive ival_ok (maxStrLen : Z) : ival → Prop :=
| ok_int n : ival_ok maxStrLen (int_val n)
| ok_str s : Z.of_nat (length s) ≤ getMaxStrLen maxStrLen → ival_ok maxStrLen (IStr s)
| ok_list l : Forall (ival_ok maxStrLen) l → ival_ok maxStrLen (IList l)
| ok_dict d :
    StronglySorted (λ a b, bytes_compare a.1 b.1 = Lt) d →
    Forall (λ e, Z.of_nat (length e.1) ≤ getMaxStrLen maxStrLen ∧ ival_ok maxStrLen e.2) d →
    ival_ok maxStrLen (IDict d).

Lemma bytes_le_false a b : bytes_le a b = false ↔ bytes_compare b a = Lt.
Proof. unfold bytes_le. rewrite (bytes_compare_opp a b). destruct (bytes_compare a b); naive_solver. Qed.

Lemma bytes_le_lt a b : bytes_compare a b = Lt → bytes_le a b = true.
Proof. unfold bytes_le. by intros ->. Qed.

(** Sorting entries that are sorted changes nothing. *)
Lemma sortKeys_sorted {A} (d : list (list Z * A)) :
  StronglySorted (λ a b, bytes_compare a.1 b.1 = Lt) d → sortKeys d = d.
Proof.
  induction 1 as [|e d Hd IH He]; [done|]. cbn [sortKeys foldr]. change (foldr insertKey [] d) with (sortKeys d).
  rewrite IH. destruct d as [|f d]; [done|]. cbn. inversion He; subst. by rewrite bytes_le_lt.
Qed.

Lemma StronglySorted_fmap {A B} (f : A → B) (R : B → B → Prop) l :
  StronglySorted (λ a b, R (f a) (f b)) l → StronglySorted R (map f l).
Proof. induction 1; cbn; constructor; [done|]. by apply Forall_map. Qed.

(** What the entries of a dictionary with sorted keys are written as. *)
Definition entries (d : list (list Z * ival)) : list Z := concat (map (λ e, reflectString e.1 ++ reflectValue e.2) d).

Lemma reflectValue_dict d : StronglySorted (λ a b, bytes_compare a.1 b.1 = Lt) d →
  reflectValue (IDict d) = 100 :: entries d ++ [101].
Proof.
  intros Hs. rewrite reflectValue_spec, sortKeys_sorted.
  - unfold entries. rewrite map_map. done.
  - by apply (StronglySorted_fmap (λ e : list Z * ival, (e.1, reflectValue e.2))).
Qed.

Definition value_sound maxStrLen (st : dec) (o : option ival) (st' : dec) : Prop :=
  dbuf st' = [] ∧ pos st' = pos st ∧
  match o with
  | None => drest st = 101 :: drest st'
  | Some v => drest st = reflectValue v ++ drest st' ∧ ival_ok maxStrLen v
  end.

Lemma parse_sound maxStrLen fuel :
  (∀ st o st', dbuf st = [] → parseValueInterface fuel maxStrLen st = Ret o st' → value_sound maxStrLen st o st') ∧
  (∀ last dict st d st', dbuf st = [] → parseDictInterface fuel maxStrLen last dict st = Ret d st' →
     dbuf st' = [] ∧ pos st' = pos st ∧
     ∃ d', d = dict ++ d' ∧ drest st = entries d' ++ 101 :: drest st' ∧
       StronglySorted (λ a b, bytes_compare a.1 b.1 = Lt) d' ∧
       Forall (λ e, match last with Some k => bytes_compare k e.1 = Lt | None => True end) d' ∧
       Forall (λ e, Z.of_nat (length e.1) ≤ getMaxStrLen maxStrLen ∧ ival_ok maxStrLen e.2) d') ∧
  (∀ acc st l st', dbuf st = [] → parseListInterface fuel maxStrLen acc st = Ret l st' →
     dbuf st' = [] ∧ pos st' = pos st ∧
     ∃ l', l = acc ++ l' ∧ drest st = concat (map reflectValue l') ++ 101 :: drest st' ∧ Forall (ival_ok maxStrLen) l').
Proof.
  induction fuel as [|fuel (IHv & IHd & IHl)]; [split_and!; intros; discriminate|]. split_and!.
  - intros st o st' Hb H. cbn [parseValueInterface] in H. inv_M. unfold ReadByte_or in Ha.
    destruct (drest st) as [|b r] eqn:Hr; [done|]. inv_M.
    assert (Hpos : pos (mkDec r (Offset st + 1) (dbuf st)) = pos st) by (unfold pos; rewrite Hr; cbn; lia).
    unfold value_sound. rewrite Hr.
    destruct (Z.eqb_spec b 101) as [->|]; [inv_M; done|].
    destruct (Z.eqb_spec b 100) as [->|]; [|destruct (Z.eqb_spec b 108) as [->|]; [|destruct (Z.eqb_spec b 105) as [->|]; [|destruct (isDigit b) eqn:Hd]]]; inv_M.
    + apply IHd in Ha as (-> & -> & d' & -> & E & Hs & _ & Hf); [|done]. cbn in E |- *. split_and!; auto.
      * rewrite reflectValue_dict by done. cbn. rewrite <- app_assoc. by rewrite E.
      * by constructor.
    + apply IHl in Ha as (-> & -> & l' & -> & E & Hf); [|done]. cbn in E |- *. split_and!; auto.
      * rewrite reflectValue_spec. cbn. rewrite <- app_assoc. by rewrite E.
      * by constructor.
    + apply parseIntInterface_sound in Ha as (m & -> & E & -> & ->); [|done]. cbn in E. split_and!; auto.
      * rewrite reflectValue_int. cbn. rewrite <- app_assoc. by rewrite E.
      * constructor.
    + eapply parseStringInterface_sound in Ha0 as (E & Hl & -> & E2); [|exact Hd|cbn; by rewrite Hb].
      cbn in E. split_and!; [done|rewrite E2; exact Hpos|exact E|by constructor].
  - intros last dict st d st' Hb H. cbn [parseDictInterface] in H. inv_M.
    apply IHv in Ha0 as (Hb1 & Hp1 & Hk); [|done]. destruct a0 as [[n|n|key|l0|d0]|]; inv_M.
    2: { split_and!; auto. exists []. rewrite app_nil_r. split_and!; auto; constructor. }
    destruct Hk as [Hk Hlen]. inversion Hlen as [n E| | |]; subst. { unfold int_val in E. by destruct (_ && _). }
    destruct (match last with Some l => bytes_le key l | None => false end) eqn:Hlast; inv_M.
    apply IHv in Ha0 as (Hb2 & Hp2 & Hv); [|done]. destruct a0 as [v|]; inv_M. destruct Hv as [Hv Hvok].
    apply IHd in H as (Hb3 & Hp3 & d' & -> & Hd' & Hs & Hgt & Hok); [|done].
    split_and!; [done|congruence|]. exists ((key, v) :: d'). rewrite <- app_assoc. split_and!; auto.
    + rewrite Hk, Hv, Hd'. unfold entries. cbn. rewrite reflectValue_spec, <- !app_assoc. done.
    + constructor; [done|]. eapply Forall_impl; [exact Hgt|]. done.
    + destruct last as [k|]; [|by apply Forall_true]. apply bytes_le_false in Hlast. constructor; [done|].
      eapply Forall_impl; [exact Hgt|]. intros e He. cbn in *. by eapply bytes_compare_trans.
  - intros acc st l st' Hb H. cbn [parseListInterface] in H. inv_M.
    apply IHv in Ha as (Hb1 & Hp1 & Hv); [|done]. destruct a as [v|]; inv_M.
    2: { split_and!; auto. exists []. rewrite app_nil_r. split_and!; auto. }
    destruct Hv as [Hv Hok]. apply IHl in H as (Hb2 & Hp2 & l' & -> & E & Hf); [|done].
    split_and!; [done|congruence|]. exists (v :: l'). rewrite <- app_assoc. split_and!; auto.
    rewrite Hv, E. cbn. by rewrite <- app_assoc.
Qed.

(** *** What the encoder writes is accepted *)
Lemma readUntil_app sep pre st rest : drest st = pre ++ sep :: rest → sep ∉ pre →
  readUntil sep st = Ret tt (mkDec rest (Offset st + Z.of_nat (length pre) + 1) (dbuf st ++ pre)).
Proof. intros E Hs. unfold readUntil. rewrite E. by apply readUntilLoop_app. Qed.

Lemma parseIntInterface_complete n rest off :
  parseIntInterface (mkDec (AppendInt n ++ 101 :: rest) off []) =
  Ret (int_val n) (mkDec rest (off + Z.of_nat (length (AppendInt n)) + 1) []).
Proof.
  unfold parseIntInterface. erewrite bind_Ret by done. unfold readInt.
  erewrite bind_Ret.
  2: { erewrite bind_Ret; [|apply readUntil_app; [done|]; intros [?|?]%AppendInt_chars; lia].
       erewrite bind_Ret by done. cbn [dbuf app]. rewrite checkBufferedInt_AppendInt. done. }
  cbv beta iota. erewrite bind_Ret by done. cbn [dbuf app Offset]. unfold ParseInt, int_val. rewrite parseNumeral_AppendInt.
  by destruct (_ && _).
Qed.

Lemma parseString_complete maxStrLen s rest off : Z.of_nat (length s) ≤ getMaxStrLen maxStrLen →
  Z.of_nat (length s) < 2 ^ 63 →
  ∃ c t, AppendInt (Z.of_nat (length s)) = c :: t ∧ isDigit c = true ∧
    parseStringInterface maxStrLen (mkDec (t ++ 58 :: s ++ rest) off [c]) =
    Ret s (mkDec rest (off + Z.of_nat (length t + 1 + length s)) []).
Proof.
  intros Hmax H63. set (n := Z.of_nat (length s)) in *. assert (Hn : 0 ≤ n) by lia.
  destruct (AppendUint_head n Hn) as (c & t & E & Hc & _).
  assert (EI : AppendInt n = c :: t) by (unfold AppendInt; by rewrite (proj2 (Z.ltb_ge _ _))).
  exists c, t. split; [done|]. split; [by apply isDigit_range|].
  unfold parseStringInterface, parseStringLength.
  erewrite bind_Ret.
  2: { erewrite bind_Ret by done. erewrite bind_Ret.
       2: { apply readUntil_app; [done|]. intros Ht. assert (58 ∈ AppendInt n) as Hin by (rewrite EI; set_solver).
            apply AppendInt_chars in Hin as [|]; lia. }
       erewrite bind_Ret by done. cbn [dbuf app]. rewrite <- EI, checkBufferedInt_AppendInt. cbn [negb].
       unfold ParseInt. rewrite parseNumeral_AppendInt, (proj2 (Z.leb_le _ _)), (proj2 (Z.ltb_lt _ _)) by lia.
       cbn [andb]. erewrite bind_Ret by done. rewrite (proj2 (Z.ltb_ge _ _)) by lia. done. }
  cbn [mret M_ret drest Offset]. unfold readBytes. erewrite bind_Ret.
  2: { cbn [drest Offset dbuf]. unfold n. rewrite Nat2Z.id, take_app_length, drop_app_length, Z.eqb_refl. done. }
  unfold addOffset. erewrite bind_Ret by done. cbn. do 2 f_equal. lia.
Qed.

Lemma getMaxStrLen_i64 maxStrLen : maxStrLen < 2 ^ 63 → getMaxStrLen maxStrLen < 2 ^ 63.
Proof. unfold getMaxStrLen, DefaultDecodeMaxStrLen. destruct (_ =? _); lia. Qed.

Section Complete.
Context (maxStrLen : Z) (Hmax : maxStrLen < 2 ^ 63).

(** The decoder reads [v] off the front of any input. *)
Definition reads (v : ival) : Prop :=
  ∀ rest off fuel, (2 * (length (reflectValue v) + length rest) + 1 ≤ fuel)%nat →
  parseValueInterface fuel maxStrLen (mkDec (reflectValue v ++ rest) off []) =
  Ret (Some v) (mkDec rest (off + Z.of_nat (length (reflectValue v))) []).

Lemma reads_str s : Z.of_nat (length s) ≤ getMaxStrLen maxStrLen → reads (IStr s).
Proof using Hmax.
  intros Hs rest off [|fuel] Hf; [lia|]. pose proof (getMaxStrLen_i64 _ Hmax) as H63.
  destruct (parseString_complete maxStrLen s rest (off + 1)) as (c & t & E & Hc & Hp); [done|lia|].
  rewrite reflectValue_spec, reflectString_spec, E. cbn [parseValueInterface app].
  erewrite bind_Ret by done. apply isDigit_range in Hc as Hr.
  rewrite !(proj2 (Z.eqb_neq _ _)) by lia. rewrite Hc. unfold buf_Write. erewrite bind_Ret by done.
  cbn [dbuf drest Offset app]. rewrite <- app_assoc. cbn [app]. erewrite bind_Ret by exact Hp.
  cbn. rewrite length_app. cbn. do 2 f_equal. lia.
Qed.

Lemma reflectValue_length v : (1 ≤ length (reflectValue v))%nat.
Proof.
  rewrite reflectValue_spec. destruct v; cbn; try lia.
  rewrite reflectString_spec, length_app. cbn. lia.
Qed.

Lemma reads_end fuel rest off : (1 ≤ fuel)%nat →
  parseValueInterface fuel maxStrLen (mkDec (101 :: rest) off []) = Ret None (mkDec rest (off + 1) []).
Proof. by destruct fuel; [lia|]. Qed.

Lemma reads_list l : Forall reads l → ∀ acc rest off fuel,
  (2 * (length (concat (map reflectValue l)) + 1 + length rest) + 2 ≤ fuel)%nat →
  parseListInterface fuel maxStrLen acc (mkDec (concat (map reflectValue l) ++ 101 :: rest) off []) =
  Ret (acc ++ l) (mkDec rest (off + Z.of_nat (length (concat (map reflectValue l))) + 1) []).
Proof.
  induction 1 as [|v l Hv Hl IH]; intros acc rest off [|fuel] Hf; try lia; cbn [parseListInterface map concat].
  - erewrite bind_Ret by (apply reads_end; lia). cbn. rewrite app_nil_r. do 2 f_equal. lia.
  - cbn [map concat] in Hf. rewrite length_app in Hf. pose proof (reflectValue_length v).
    rewrite <- app_assoc. erewrite bind_Ret by (apply Hv; rewrite length_app; cbn; lia). cbn.
    rewrite IH by lia. rewrite <- app_assoc, length_app. cbn. do 2 f_equal. lia.
Qed.

Lemma reads_dict d : Forall (λ e, Z.of_nat (length e.1) ≤ getMaxStrLen maxStrLen ∧ reads e.2) d →
  StronglySorted (λ a b, bytes_compare a.1 b.1 = Lt) d → ∀ last acc rest off fuel,
  Forall (λ e, match last with Some k => bytes_compare k e.1 = Lt | None => True end) d →
  (2 * (length (entries d) + 1 + length rest) + 2 ≤ fuel)%nat →
  parseDictInterface fuel maxStrLen last acc (mkDec (entries d ++ 101 :: rest) off []) =
  Ret (acc ++ d) (mkDec rest (off + Z.of_nat (length (entries d)) + 1) []).
Proof using Hmax.
  unfold entries. induction 1 as [|[k v] d [Hk Hv] Hd IH]; intros Hs last acc rest off [|fuel] Hlast Hf; try lia;
    cbn [parseDictInterface map concat fst snd].
  - erewrite bind_Ret by done. erewrite bind_Ret by (apply reads_end; lia). cbn. rewrite app_nil_r. do 2 f_equal. lia.
  - cbn [map concat fst snd] in *. rewrite !length_app in Hf. inversion Hs as [|? ? Hs' Hlt]; subst.
    inversion Hlast as [|? ? Hk' Hlast']; subst. pose proof (reads_str k Hk) as Hkey.
    pose proof (reflectValue_length v). pose proof (reflectValue_length (IStr k)).
    erewrite bind_Ret by done. rewrite <- !app_assoc. change (reflectString k) with (reflectValue (IStr k)) in *.
    erewrite bind_Ret by (apply Hkey; rewrite !length_app; cbn; lia). cbn [fst] in *.
    replace (match last with Some l => bytes_le k l | None => false end) with false.
    2: { destruct last; [|done]. symmetry. by apply bytes_le_false. }
    erewrite bind_Ret by done. erewrite bind_Ret by (apply Hv; rewrite !length_app; cbn; lia).
    cbv beta iota. rewrite IH; [|done| |lia].
    + rewrite <- app_assoc, !length_app. cbn. do 2 f_equal. lia.
    + eapply Forall_impl; [exact Hlt|]. done.
Qed.

Lemma reads_int n : reads (int_val n).
Proof.
  intros rest off [|fuel] Hf; [lia|]. rewrite reflectValue_int. cbn [parseValueInterface app].
  erewrite bind_Ret by done. cbn [Z.eqb Pos.eqb]. rewrite <- app_assoc. cbn [app].
  erewrite bind_Ret by apply parseIntInterface_complete. cbn. rewrite length_app. cbn. do 2 f_equal. lia.
Qed.

Lemma parse_complete v : ival_ok maxStrLen v → reads v.
Proof using Hmax.
  induction v as [n|n|s|l IH|d IH] using ival_ind'; intros Hok.
  1, 2: inversion Hok as [m Hm| | |]; apply reads_int.
  - inversion Hok as [m Hm| | |]; [|by apply reads_str]. unfold int_val in Hm. by destruct (_ && _).
  - inversion Hok as [m Hm| |l' Hl Heq|]; [unfold int_val in Hm; by destruct (_ && _)|]. subst.
    intros rest off [|fuel] Hf; [lia|]. rewrite reflectValue_spec in *. cbn [parseValueInterface app].
    erewrite bind_Ret by done. cbn [Z.eqb Pos.eqb]. rewrite <- app_assoc. cbn [app].
    cbn [length] in Hf. rewrite length_app in Hf. cbn in Hf.
    erewrite bind_Ret.
    2: { apply reads_list; [|lia]. apply Forall_forall. intros v Hv. rewrite Forall_forall in IH, Hl. auto. }
    cbn. rewrite length_app. cbn. do 2 f_equal. lia.
  - inversion Hok as [m Hm| | |d' Hs Hd Heq]; [unfold int_val in Hm; by destruct (_ && _)|]. subst.
    intros rest off [|fuel] Hf; [lia|]. rewrite reflectValue_dict in * by done. cbn [parseValueInterface app].
    erewrite bind_Ret by done. cbn [Z.eqb Pos.eqb]. rewrite <- app_assoc. cbn [app].
    cbn [length] in Hf. rewrite length_app in Hf. cbn in Hf.
    erewrite bind_Ret.
    2: { apply reads_dict; [|done| |lia]; [|by apply Forall_true].
         apply Forall_forall. intros e He. rewrite Forall_forall in IH, Hd. destruct (Hd e He). auto. }
    cbn. rewrite length_app. cbn. do 2 f_equal. lia.
Qed.
End Complete.

(** *** Maps in any order

    [canon] lists the entries of every map by increasing key; [ival_wf] are
    the values Go can hold: an integer in a big.Int only if it needs one, no
    string beyond the decoder's limit, no key twice. *)
Fixpoint canon (v : ival) : ival :=
  match v with
  | IList l => IList (map canon l)
  | IDict d => IDict (sortKeys (map (λ e, (e.1, canon e.2)) d))
  | _ => v
  end.

Inductive ival_wf (maxStrLen : Z) : ival → Prop :=
| wf_int n : ival_wf maxStrLen (int_val n)
| wf_str s : Z.of_nat (length s) ≤ getMaxStrLen maxStrLen → ival_wf maxStrLen (IStr s)
| wf_list l : Forall (ival_wf maxStrLen) l → ival_wf maxStrLen (IList l)
| wf_dict d : NoDup (map fst d) →
    Forall (λ e, Z.of_nat (length e.1) ≤ getMaxStrLen maxStrLen ∧ ival_wf maxStrLen e.2) d →
    ival_wf maxStrLen (IDict d).

Lemma insertKey_perm {A} (e : list Z * A) l : insertKey e l ≡ₚ e :: l.
Proof.
  induction l as [|f l IH]; cbn; [done|]. destruct (bytes_le e.1 f.1); [done|]. rewrite IH. apply Permutation_swap.
Qed.

Lemma sortKeys_perm {A} (l : list (list Z * A)) : sortKeys l ≡ₚ l.
Proof. induction l as [|e l IH]; [done|]. cbn. rewrite insertKey_perm. by apply Permutation_skip. Qed.

Lemma sortKeys_map {A B} (f : A → B) (l : list (list Z * A)) :
  sortKeys (map (λ e, (e.1, f e.2)) l) = map (λ e, (e.1, f e.2)) (sortKeys l).
Proof.
  induction l as [|e l IH]; [done|]. cbn [map sortKeys foldr]. fold (sortKeys l).
  change (foldr insertKey [] ?m) with (sortKeys m). rewrite IH.
  clear IH. induction (sortKeys l) as [|g m IHm]; [done|]. cbn.
  destruct (bytes_le e.1 g.1); [done|]. cbn. by rewrite IHm.
Qed.

Lemma insertKey_sorted {A} (e : list Z * A) l : e.1 ∉ map fst l →
  StronglySorted (λ a b, bytes_compare a.1 b.1 = Lt) l →
  StronglySorted (λ a b, bytes_compare a.1 b.1 = Lt) (insertKey e l).
Proof.
  induction 2 as [|f l Hl IH Hf]; cbn in *; [repeat constructor|].
  destruct (bytes_le e.1 f.1) eqn:Hle.
  - assert (Hlt : bytes_compare e.1 f.1 = Lt).
    { unfold bytes_le in Hle. destruct (bytes_compare e.1 f.1) eqn:E; [|done|done].
      apply bytes_compare_Eq in E. set_solver. }
    repeat constructor; try done. eapply Forall_impl; [exact Hf|]. intros x. by apply bytes_compare_trans.
  - constructor; [apply IH; set_solver|]. apply Forall_forall. intros x Hx. rewrite insertKey_perm in Hx.
    apply elem_of_cons in Hx as [->|Hx]; [by apply bytes_le_false|]. by eapply Forall_forall in Hf.
Qed.

Lemma sortKeys_strict {A} (l : list (list Z * A)) : NoDup (map fst l) →
  StronglySorted (λ a b, bytes_compare a.1 b.1 = Lt) (sortKeys l).
Proof.
  induction l as [|e l IH]; cbn; [constructor|]. intros [He Hl]%NoDup_cons. apply insertKey_sorted; [|by apply IH].
  intros Hin. apply He. apply list_elem_of_fmap in Hin as (f & -> & Hf). apply list_elem_of_fmap.
  exists f. split; [done|]. by rewrite <- (sortKeys_perm l).
Qed.

Lemma map_ext_Forall {A B} (f g : A → B) l : Forall (λ x, f x = g x) l → map f l = map g l.
Proof. induction 1; cbn; congruence. Qed.

Lemma canon_ok maxStrLen v : ival_wf maxStrLen v → ival_ok maxStrLen (canon v) ∧ reflectValue (canon v) = reflectValue v.
Proof.
  induction v as [n|n|s|l IH|d IH] using ival_ind'; intros Hwf.
  1, 2: cbn [canon]; split; [|done]; inversion Hwf; constructor.
  - inversion Hwf as [m Hm| | |]; [unfold int_val in Hm; by destruct (_ && _)|]. split; [by constructor|done].
  - inversion Hwf as [m Hm| |l' Hl Heq|]; [unfold int_val in Hm; by destruct (_ && _)|]. subst.
    assert (Hall : Forall (λ v, ival_ok maxStrLen (canon v) ∧ reflectValue (canon v) = reflectValue v) l).
    { apply Forall_forall. intros v Hv. rewrite Forall_forall in IH, Hl. auto. }
    cbn. split.
    + constructor. apply Forall_map. eapply Forall_impl; [exact Hall|]. by intros ? [? _].
    + rewrite !reflectValue_spec, map_map. do 3 f_equal. apply map_ext_Forall.
      eapply Forall_impl; [exact Hall|]. by intros ? [_ ?].
  - inversion Hwf as [m Hm| | |d' Hn Hd Heq]; [unfold int_val in Hm; by destruct (_ && _)|]. subst.
    assert (Hall : Forall (λ e, Z.of_nat (length e.1) ≤ getMaxStrLen maxStrLen ∧ ival_ok maxStrLen (canon e.2) ∧
                                reflectValue (canon e.2) = reflectValue e.2) d).
    { apply Forall_forall. intros e He. rewrite Forall_forall in IH, Hd. destruct (Hd e He). naive_solver. }
    cbn. split.
    + constructor; [apply sortKeys_strict; rewrite map_map; exact Hn|]. rewrite sortKeys_perm. apply Forall_map.
      eapply Forall_impl; [exact Hall|]. by intros ? (? & ? & _).
    + rewrite !reflectValue_spec. do 2 f_equal. rewrite sortKeys_sorted.
      * rewrite !sortKeys_map, !map_map. cbn. f_equal. apply map_ext_Forall. rewrite sortKeys_perm.
        eapply Forall_impl; [exact Hall|]. intros e (_ & _ & E). cbn. by rewrite E.
      * apply (StronglySorted_fmap (λ e : list Z * ival, (e.1, reflectValue e.2))). apply sortKeys_strict. by rewrite map_map.
Qed.

Lemma Unmarshal_complete v : ival_ok 0 v → Unmarshal (Marshal v) = Good v.
Proof.
  intros Hok. unfold Unmarshal, DecodeInterface. pose proof (parse_complete 0 ltac:(lia) v Hok [] 0) as Hr.
  rewrite app_nil_r in Hr. cbn [drest]. unfold Marshal. erewrite bind_Ret by (apply Hr; cbn; lia). done.
Qed.

(** C14. The language of [Unmarshal] into an [interface{}] is exactly the
    canonical encodings: data is accepted with the value [v] if and only if
    [v] is representable (integers in an int64 or, beyond its range, in a
    big.Int; strings within the limit; map keys in increasing order) and the
    data is what [Marshal] writes for it.  In particular a number with a
    superfluous zero or sign, unsorted or repeated keys and trailing bytes are
    refused, and two different inputs never decode to the same value. *)
Theorem unmarshal_exact b v : Unmarshal b = Good v ↔ ival_ok 0 v ∧ Marshal v = b.
Proof.
  split; [|intros [Hok <-]; by apply Unmarshal_complete].
  unfold Unmarshal. destruct (DecodeInterface 0 (mkDec b 0 [])) as [v' st|e|] eqn:H; [|done|done].
  destruct (drest st) eqn:Hr; [|done]. intros [= ->].
  unfold DecodeInterface in H. cbn [drest] in H.
  match type of H with (match ?m with _ => _ end = _) => destruct m as [v'' st''|e|] eqn:Hp end;
    [injection H as -> ->|by destruct e|done].
  inv_M. destruct a as [w|]; inv_M. apply parse_sound in Ha as (_ & _ & E & Hok); [|done].
  cbn in E. rewrite E, Hr, app_nil_r. done.
Qed.

(** Encoding and decoding: a value Go can hold, with the entries of its
    maps in any order, survives [Marshal] followed by [Unmarshal]; the maps
    come back with the same entries. *)
Theorem marshal_roundtrip v : ival_wf 0 v → Unmarshal (Marshal v) = Good (canon v).
Proof.
  intros [Hok E]%canon_ok. unfold Marshal. rewrite <- E. by apply Unmarshal_complete.
Qed.

Lemma marshal_roundtrip_witness :
  Unmarshal (Marshal (IDict [([98], IList [int_val (-3); int_val (2 ^ 64)]); ([97], IStr [120; 121])])) =
  Good (IDict [([97], IStr [120; 121]); ([98], IList [int_val (-3); int_val (2 ^ 64)])]).
Proof.
  apply (marshal_roundtrip (IDict [([98], IList [int_val (-3); int_val (2 ^ 64)]); ([97], IStr [120; 121])])).
  constructor.
  - by_decide.
  - repeat constructor; vm_compute; congruence.
Defined.
