(* ===== verification/BencodeTyped.v ===== *)
(** Bencode into and out of typed Go values: the part of
    src/bencode/{decode,encode,tags,bytes}.go that works by reflection.

    [rty] is the universe of the Go types the program uses the package with
    and [rval] their values; [TRaw] is [bencode.Bytes], which takes the raw
    bytes of a value.  Struct types have no embedded and no unexported
    fields.  A decoding step is given the value to overwrite and yields
    [mkPv ok err v]: the two results of the Go function and what the value is
    afterwards; [Throw] is a panic that [Decode] recovers from. *)
From stdpp Require Import base numbers list sets strings.
From Stdlib Require Import ZArith Lia Ascii String.
From S2P Require Import Prelude RequestStrategy Decimal Bencode.
Open Scope Z_scope.

(** The bytes of a string literal. *)
Definition bs (s : string) : list Z := map (λ c, Z.of_nat (nat_of_ascii c)) (list_ascii_of_string s).

(** ** Types and values *)
Record fld : Type := mkFld { fName : list Z; fTag : list Z }.

Inductive width : Type := W8 | W16 | W32 | W64.

Definition bits (w : width) : Z := match w with W8 => 8 | W16 => 16 | W32 => 32 | W64 => 64 end.

Inductive rty : Type :=
| TInt (w : width)
| TUint (w : width)
| TBool
| TString
| TSlice (t : rty)
| TArray (n : nat) (t : rty)
| TMap (t : rty)                     (** map[string]t *)
| TStruct (fs : list (fld * rty))
| TIface                             (** interface{} *)
| TPtr (t : rty)
| TRaw                               (** bencode.Bytes *)
| TOther.                            (** a kind without bencode form *)

Inductive rval : Type :=
| VInt (n : Z)
| VUint (n : Z)
| VBool (b : bool)
| VStr (s : list Z)
| VSlice (o : option (list rval))    (** nil or elements *)
| VArr (l : list rval)
| VMap (o : option (list (list Z * rval)))
| VStruct (l : list rval)
| VIface (o : option ival)
| VPtr (o : option rval)
| VRaw (s : list Z)
| VOther.

(** [reflect.Zero]. *)
Fixpoint zero (t : rty) : rval :=
  match t with
  | TInt _ => VInt 0
  | TUint _ => VUint 0
  | TBool => VBool false
  | TString => VStr []
  | TSlice _ => VSlice None
  | TArray n t => VArr (replicate n (zero t))
  | TMap _ => VMap None
  | TStruct fs => VStruct (map (λ f, zero f.2) fs)
  | TIface => VIface None
  | TPtr _ => VPtr None
  | TRaw => VRaw []
  | TOther => VOther
  end.

(** ** tags.go *)
Fixpoint splitComma (s : list Z) (cur : list Z) : list (list Z) :=
  match s with
  | [] => [cur]
  | c :: s => if c =? 44 then cur :: splitComma s [] else splitComma s (cur ++ [c])
  end.

Definition parseTag (tagStr : list Z) : list (list Z) := splitComma tagStr [].

Definition tag_Key (me : list (list Z)) : list Z := default [] (head me).
Definition tag_Ignore (me : list (list Z)) : bool := bool_decide (tag_Key me = bs "-").
Definition HasOpt (me : list (list Z)) (opt : list Z) : bool := existsb (λ s, bool_decide (s = opt)) (tail me).
Definition OmitEmpty (me : list (list Z)) : bool := HasOpt me (bs "omitempty").
Definition IgnoreUnmarshalTypeError (me : list (list Z)) : bool := HasOpt me (bs "ignore_unmarshal_type_error").

(** ** decode.go *)

(** [parseStructFields]: position, key and tag of the fields. *)
Fixpoint parseStructFields (i : nat) (fs : list (fld * rty)) : list (list Z * (nat * rty * list (list Z))) :=
  match fs with
  | [] => []
  | (f, t) :: fs =>
      let rest := parseStructFields (S i) fs in
      if bool_decide (fTag f = bs "-") then rest
      else
        let tag := parseTag (fTag f) in
        let key := if bool_decide (tag_Key tag = []) then fName f else tag_Key tag in
        (key, (i, t, tag)) :: rest
  end.

(** [getStructFieldForKey]: of two fields with one key the later is kept in the
    map. *)
Definition getStructFieldForKey (fs : list (fld * rty)) (key : list Z) : option (nat * rty * list (list Z)) :=
  match list_find (λ e, bool_decide (e.1 = key)) (reverse (parseStructFields 0 fs)) with
  | Some (_, e) => Some e.2
  | None => None
  end.

(** What [getDictField] answers: a type to parse into, with the setter and the
    tag; [FDiscard] is the field without a type. *)
Inductive dictField : Type :=
| FMap (t : rty)
| FStruct (i : nat) (t : rty) (tag : list (list Z))
| FDiscard
| FErr.

Definition getDictField (t : rty) (key : list Z) : dictField :=
  match t with
  | TMap t => FMap t
  | TStruct fs =>
      match getStructFieldForKey fs key with
      | Some (i, t, tag) => FStruct i t tag
      | None => FDiscard
      end
  | _ => FErr
  end.

(** [SetMapIndex]. *)
Fixpoint setKey (k : list Z) (v : rval) (l : list (list Z * rval)) : list (list Z * rval) :=
  match l with
  | [] => [(k, v)]
  | e :: l => if bool_decide (e.1 = k) then (k, v) :: l else e :: setKey k v l
  end.

Definition dictSet (df : dictField) (key : list Z) (x : rval) (v : rval) : rval :=
  match df, v with
  | FMap _, VMap o => VMap (Some (setKey key x (default [] o)))
  | FStruct i _ _, VStruct l => VStruct (<[i := x]> l)
  | _, _ => v
  end.

Record pv : Type := mkPv { pvOk : bool; pvErr : option derr; pvVal : rval }.

(** [OverflowInt] and [OverflowUint], negated. *)
Definition inRangeInt (w : width) (n : Z) : bool := (- 2 ^ (bits w - 1) <=? n) && (n <? 2 ^ (bits w - 1)).
Definition inRangeUint (w : width) (n : Z) : bool := n <? 2 ^ bits w.

(** [parseInt]; the error paths leave the buffer as it is. *)
Definition parseInt (t : rty) (v : rval) : M (option derr * rval) :=
  start ← getOffset;
  err ← readInt;
  match err with
  | Some e => mret (Some e, v)
  | None =>
      s ← getBuf;
      match t with
      | TInt w =>
          match ParseInt s with
          | NumOk n => if inRangeInt w n then _ ← buf_Reset; mret (None, VInt n) else mret (Some EType, v)
          | _ => throw (ESyntax (start - 1))
          end
      | TUint w =>
          match ParseUint s with
          | NumOk n => if inRangeUint w n then _ ← buf_Reset; mret (None, VUint n) else mret (Some EType, v)
          | _ => throw (ESyntax (start - 1))
          end
      | TBool => _ ← buf_Reset; mret (None, VBool (negb (bool_decide (s = [48]))))
      | _ => mret (Some EType, v)
      end
  end.

(** [io.ReadFull] of [n] bytes; any shortfall is a syntax error. *)
Definition readFull (n : Z) : M (list Z) := λ st,
  let b := take (Z.to_nat n) (drest st) in
  let off := Offset st + Z.of_nat (List.length b) in
  if Z.of_nat (List.length b) <? n then Throw (ESyntax off)
  else Ret b (mkDec (drop (Z.to_nat n) (drest st)) off (dbuf st)).

Definition parseString (maxStrLen : Z) (t : rty) (v : rval) : M (option derr * rval) :=
  len ← parseStringLength maxStrLen;
  match len with
  | Bad e => mret (Some e, v)
  | Good n =>
      b ← readFull n;
      _ ← buf_Reset;
      mret (match t with
            | TString => (None, VStr b)
            | TSlice (TUint W8) => (None, VSlice (Some (map VUint b)))
            | TArray n (TUint W8) =>
                match v with
                | VArr l => (None, VArr (map VUint (take n b) ++ drop (List.length b) l))
                | _ => (None, v)
                end
            | _ => (Some EType, v)
            end)
  end.

(** [readOneValue]: copies one value to the buffer unparsed; [false] at an end
    symbol, which is left unread.  [readValues] is the loop over the members
    of a list or dictionary. *)
Fixpoint readOneValue (fuel : nat) : M bool :=
  match fuel with
  | O => noFuel
  | S fuel => λ st,
      match drest st with
      | [] => Throw EEOF
      | b :: r =>
          if b =? 101 then Ret false st
          else
            (_ ← buf_Write [b];
             if (b =? 100) || (b =? 108) then
               _ ← readValues fuel;
               c ← readByte;
               _ ← buf_Write [c];
               mret true
             else if b =? 105 then
               _ ← readUntil 101;
               _ ← buf_Write [101];
               mret true
             else if isDigit b then
               start ← (λ st, Ret (List.length (dbuf st) - 1)%nat st);
               _ ← readUntil 58;
               buf ← getBuf;
               off ← getOffset;
               match ParseInt (drop start buf) with
               | NumOk n =>
                   _ ← buf_Write [58];
                   s ← readFull n;
                   _ ← buf_Write s;
                   mret true
               | _ => throw (ESyntax (off - 1))
               end
             else
               off ← getOffset; throw (ESyntax (off - 1)))
            (mkDec r (Offset st + 1) (dbuf st))
      end
  end
with readValues (fuel : nat) : M unit :=
  match fuel with
  | O => noFuel
  | S fuel =>
      more ← readOneValue fuel;
      if more : bool then readValues fuel else mret tt
  end.

(** A type that is neither array nor slice takes the member of a singleton
    list. *)
Definition listLike (t : rty) : bool := match t with TSlice _ | TArray _ _ => true | _ => false end.

Definition okPv (r : option derr * rval) : pv := mkPv true r.1 r.2.

(** [parseValue] after the pointer, given the parsers of a dictionary and of a
    list: first the case of a type without Unmarshaler, then all. *)
Definition parsePlain (maxStrLen : Z) (dict list_ : rty → rval → M (option derr * rval)) (t : rty) (v : rval) : M pv := λ st,
  match drest st with
  | [] => Ret (mkPv false (Some EEOF) v) st
  | b :: r =>
      (if b =? 101 then mret (mkPv false None v)
       else if b =? 100 then q ← dict t v; mret (okPv q)
       else if b =? 108 then q ← list_ t v; mret (okPv q)
       else if b =? 105 then q ← parseInt t v; mret (okPv q)
       else if isDigit b then
         _ ← buf_Reset; _ ← buf_Write [b]; q ← parseString maxStrLen t v; mret (okPv q)
       else off ← getOffset; throw (ESyntax (off - 1)))
      (mkDec r (Offset st + 1) (dbuf st))
  end.

Definition parseDirect (fuel : nat) (maxStrLen : Z) (dict list_ : rty → rval → M (option derr * rval)) (t : rty) (v : rval) : M pv :=
  match t with
  | TRaw =>
      _ ← buf_Reset;
      read ← readOneValue fuel;
      if read : bool then buf ← getBuf; mret (mkPv true None (VRaw buf)) else parsePlain maxStrLen dict list_ t v
  | TPtr TRaw =>
      _ ← buf_Reset;
      read ← readOneValue fuel;
      if read : bool then
        match v with
        | VPtr None => throw (ERuntime "nil pointer dereference")
        | _ => buf ← getBuf; mret (mkPv true None (VPtr (Some (VRaw buf))))
        end
      else parsePlain maxStrLen dict list_ t v
  | TIface =>
      iface ← parseValueInterface fuel maxStrLen;
      match iface with
      | None => throw (EOther "reflect.Value.Set on zero Value")
      | Some i => mret (mkPv true None (VIface (Some i)))
      end
  | _ => parsePlain maxStrLen dict list_ t v
  end.

(** [parseValue], with [parseDict], [parseList] and the loops of the two as
    functions of their own.  One unit of fuel per call. *)
Fixpoint parseValue (fuel : nat) (maxStrLen : Z) (t : rty) (v : rval) {struct fuel} : M pv :=
  match fuel with
  | O => noFuel
  | S fuel =>
      match t, v with
      | TPtr t, VPtr o =>
          r ← parseDirect fuel maxStrLen (parseDict fuel maxStrLen) (parseList fuel maxStrLen) t (default (zero t) o);
          mret (mkPv (pvOk r) (pvErr r) (VPtr (Some (pvVal r))))
      | _, _ => parseDirect fuel maxStrLen (parseDict fuel maxStrLen) (parseList fuel maxStrLen) t v
      end
  end
with parseDict (fuel : nat) (maxStrLen : Z) (t : rty) (v : rval) {struct fuel} : M (option derr * rval) :=
  match fuel with
  | O => noFuel
  | S fuel =>
      k ← parseValue fuel maxStrLen TString (VStr []);
      match pvErr k, pvOk k, pvVal k with
      | Some e, _, _ => mret (Some e, v)
      | None, false, _ => mret (None, v)
      | None, true, VStr keyStr =>
          match getDictField t keyStr with
          | FErr => mret (Some (EOther "can't assign bencode dict items"), v)
          | FDiscard =>
              if_ ← parseValueInterface fuel maxStrLen;
              match if_ with
              | None => mret (Some (EOther "error parsing value for key"), v)
              | Some _ => parseDict fuel maxStrLen t v
              end
          | df =>
              let ty := match df with FMap t => t | FStruct _ t _ => t | _ => TOther end in
              let tags := match df with FStruct _ _ tag => tag | _ => [] end in
              r ← parseValue fuel maxStrLen ty (zero ty);
              match pvErr r with
              | Some EType => if IgnoreUnmarshalTypeError tags then
                                if pvOk r then parseDict fuel maxStrLen t (dictSet df keyStr (pvVal r) v)
                                else mret (Some (EOther "missing value for key"), v)
                              else mret (Some EType, v)
              | Some e => mret (Some e, v)
              | None => if pvOk r then parseDict fuel maxStrLen t (dictSet df keyStr (pvVal r) v)
                        else mret (Some (EOther "missing value for key"), v)
              end
          end
      | None, true, _ => throw (EOther "dict key")
      end
  end
with parseList (fuel : nat) (maxStrLen : Z) (t : rty) (v : rval) {struct fuel} : M (option derr * rval) :=
  match fuel with
  | O => noFuel
  | S fuel =>
      match t, v with
      | TSlice e, VSlice o =>
          '(err, i, l) ← parseElems fuel maxStrLen e true 0 (default [] o);
          mret (match err with Some x => (Some x, VSlice (Some l)) | None => (None, VSlice (Some (take i l))) end)
      | TArray n e, VArr l =>
          '(err, i, l) ← parseElems fuel maxStrLen e false 0 l;
          mret (match err with Some x => (Some x, VArr l) | None => (None, VArr (take i l ++ replicate (n - i) (zero e))) end)
      | _, _ =>
          '(err, l) ← parseList fuel maxStrLen (TSlice t) (VSlice None);
          mret (match err, l with
                | Some x, _ => (Some x, v)
                | None, VSlice (Some [x]) => (None, x)
                | None, _ => (Some EType, v)
                end)
      end
  end
with parseElems (fuel : nat) (maxStrLen : Z) (e : rty) (slice : bool) (i : nat) (l : list rval) {struct fuel} :
    M (option derr * nat * list rval) :=
  match fuel with
  | O => noFuel
  | S fuel =>
      let l := if slice && Nat.leb (List.length l) i then l ++ [zero e] else l in
      match l !! i with
      | Some x =>
          r ← parseValue fuel maxStrLen e x;
          let l := <[i := pvVal r]> l in
          match pvErr r with
          | Some err => mret (Some err, i, l)
          | None => if pvOk r then parseElems fuel maxStrLen e slice (S i) l else mret (None, i, l)
          end
      | None =>
          x ← parseValueInterface fuel maxStrLen;
          match x with
          | None => mret (None, i, l)
          | Some _ => parseElems fuel maxStrLen e slice (S i) l
          end
      end
  end.

(** [Decoder.Decode(&v)] of a value of type [t]. *)
Definition Decode (maxStrLen : Z) (t : rty) (v : rval) (st : dec) : dout (result derr rval) :=
  match parseValue (4 * List.length (drest st) + 2) maxStrLen t v st with
  | Ret r st =>
      match pvErr r with
      | Some e => Ret (Bad e) st
      | None => if pvOk r then Ret (Good (pvVal r)) st else Ret (Bad (ESyntax (Offset st - 1))) st
      end
  | Throw EEOF => Throw EUnexpectedEOF
  | Throw e => Throw e
  | NoFuel => NoFuel
  end.

(** [Unmarshal(data, &v)]; [UTrailing] is a value with trailing bytes. *)
Inductive unmarshalled : Type :=
| UGood (v : rval)
| UTrailing (v : rval) (n : Z)
| UBad (e : derr)
| UPanic (why : string)
| UNoFuel.

Definition UnmarshalTyped (t : rty) (v : rval) (data : list Z) : unmarshalled :=
  match Decode 0 t v (mkDec data 0 []) with
  | Ret (Good v) st => match drest st with [] => UGood v | r => UTrailing v (Z.of_nat (List.length r)) end
  | Throw (ERuntime w) => UPanic w
  | Ret (Bad e) _ | Throw e => UBad e
  | NoFuel => UNoFuel
  end.

(** ** Lemmas *)

(** A weakest precondition: the computation does not run out of fuel, and if
    it does not throw, [Q] holds of its result. *)
Definition wpM {A} (m : M A) (st : dec) (Q : A → dec → Prop) : Prop :=
  match m st with Ret a st' => Q a st' | Throw _ => True | NoFuel => False end.

Lemma wpM_bind {A B} (m : M A) (f : A → M B) st Q : wpM m st (λ a st', wpM (f a) st' Q) → wpM (m ≫= f) st Q.
Proof. unfold wpM, mbind, M_bind. by destruct (m st). Qed.

Lemma wpM_mono {A} (m : M A) st (P Q : A → dec → Prop) :
  wpM m st P → (∀ a st', P a st' → Q a st') → wpM m st Q.
Proof. unfold wpM. destruct (m st); auto. Qed.

Lemma wpM_bind_mono {A B} (m : M A) (f : A → M B) st P Q :
  wpM m st P → (∀ a st', P a st' → wpM (f a) st' Q) → wpM (m ≫= f) st Q.
Proof. intros Hm Hf. apply wpM_bind. by eapply wpM_mono. Qed.

(** The decoder moves forward, by at least one byte. *)
Definition adv (st st' : dec) : Prop := drest st' `suffix_of` drest st.
Definition adv1 (st st' : dec) : Prop := ∃ c l, drest st = c :: l ∧ drest st' `suffix_of` l.

Lemma adv_refl st : adv st st.
Proof. by exists []. Qed.
Lemma adv_trans a b c : adv a b → adv b c → adv a c.
Proof. unfold adv. intros. by etrans. Qed.
Lemma adv1_adv a b : adv1 a b → adv a b.
Proof. intros (c & l & E & H). unfold adv. rewrite E. by apply suffix_cons_r. Qed.
Lemma adv1_trans_l a b c : adv1 a b → adv b c → adv1 a c.
Proof. intros (x & l & E & H) H2. exists x, l. split; [done|]. by etrans. Qed.
Lemma adv1_trans_r a b c : adv a b → adv1 b c → adv1 a c.
Proof.
  intros [p Hp] (x & l & E & H). unfold adv1. rewrite Hp, E. destruct p as [|y p]; cbn; [eauto|].
  exists y, (p ++ x :: l). split; [done|]. apply suffix_app_r. by apply suffix_cons_r.
Qed.
#[local] Hint Resolve adv_refl adv1_adv adv1_trans_l adv1_trans_r adv_trans : core.

Lemma adv_length st st' : adv st st' → (List.length (drest st') ≤ List.length (drest st))%nat.
Proof. apply suffix_length. Qed.
Lemma adv1_length st st' : adv1 st st' → (List.length (drest st') < List.length (drest st))%nat.
Proof. intros (c & l & -> & H%suffix_length). cbn. lia. Qed.

Lemma readUntil_wp sep st : wpM (readUntil sep) st (λ _ st', adv1 st st').
Proof.
  unfold wpM, readUntil. destruct (readUntilLoop _ _ _ _) as [u st'|e|] eqn:E; [|done|].
  - apply readUntilLoop_inv in E as (pre & E & _ & _). unfold adv1. rewrite E.
    destruct pre as [|c pre]; cbn; eexists _, _; (split; [done|]); [done|].
    apply suffix_app_r. by apply suffix_cons_r.
  - exfalso. revert E. generalize (Offset st) (dbuf st).
    induction (drest st) as [|c l IH]; cbn; intros o b; [done|]. destruct (_ =? _); [done|]. apply IH.
Qed.

Lemma readInt_wp st : wpM readInt st (λ _ st', adv1 st st').
Proof.
  unfold readInt. eapply wpM_bind_mono; [apply readUntil_wp|]. intros [] st1 H. exact H.
Qed.

Lemma parseStringLength_wp maxStrLen st : wpM (parseStringLength maxStrLen) st (λ _ st', adv1 st st').
Proof.
  unfold parseStringLength. apply wpM_bind. cbn. eapply wpM_bind_mono; [apply readUntil_wp|]. intros [] st1 H.
  apply wpM_bind. cbn. destruct (checkBufferedInt _); cbn; [|exact H]. by destruct (ParseInt _).
Qed.

Lemma take_drop_suffix {A} n (l : list A) : drop n l `suffix_of` l.
Proof. exists (take n l). by rewrite take_drop. Qed.

Lemma readFull_wp n st : wpM (readFull n) st (λ b st', adv st st' ∧ b `prefix_of` drest st).
Proof.
  unfold wpM, readFull. destruct (_ <? _); [done|]. split; [apply take_drop_suffix|].
  exists (drop (Z.to_nat n) (drest st)). cbn. by rewrite take_drop.
Qed.

Lemma readBytes_wp n st : wpM (readBytes n) st (λ _ st', adv st st').
Proof. unfold wpM, readBytes. destruct (_ =? _); [|done]. apply take_drop_suffix. Qed.

Lemma parseStringInterface_wp maxStrLen st : wpM (parseStringInterface maxStrLen) st (λ _ st', adv1 st st').
Proof.
  unfold parseStringInterface. eapply wpM_bind_mono; [apply parseStringLength_wp|]. intros [n|e] st1 H; [|done].
  eapply wpM_bind_mono; [apply readBytes_wp|]. intros b st2 H2. cbn. exact (adv1_trans_l _ _ _ H H2).
Qed.

Lemma parseIntInterface_wp st : wpM parseIntInterface st (λ _ st', adv1 st st').
Proof.
  unfold parseIntInterface. apply wpM_bind. cbn. eapply wpM_bind_mono; [apply readInt_wp|].
  intros [e|] st1 H; [done|]. apply wpM_bind. cbn. apply wpM_bind. by destruct (ParseInt _).
Qed.

Lemma ReadByte_or_wp e st : wpM (ReadByte_or e) st (λ _ st', adv1 st st').
Proof. unfold wpM, ReadByte_or, adv1. destruct (drest st); [done|]. eauto. Qed.

Abbreviation L st := (List.length (drest st)).

(** Run the first computation of a sequence by its specification [lem]. *)
Ltac wp_step lem :=
  eapply wpM_bind_mono; [eapply lem; try lia | cbv beta; intros].
Ltac wp_last lem :=
  eapply wpM_mono; [eapply lem; try lia | cbv beta; intros].

(** Parsing an untyped value: fuel for twice the input is enough. *)
Lemma parseValueInterface_wp maxStrLen fuel :
  (∀ st, (2 * L st + 1 ≤ fuel)%nat → wpM (parseValueInterface fuel maxStrLen) st (λ _ st', adv1 st st')) ∧
  (∀ last dict st, (2 * L st + 2 ≤ fuel)%nat → wpM (parseDictInterface fuel maxStrLen last dict) st (λ _ st', adv1 st st')) ∧
  (∀ acc st, (2 * L st + 2 ≤ fuel)%nat → wpM (parseListInterface fuel maxStrLen acc) st (λ _ st', adv1 st st')).
Proof.
  induction fuel as [|fuel (IHv & IHd & IHl)]; [split_and!; intros; lia|]. split_and!.
  - intros st Hf. cbn [parseValueInterface]. wp_step ReadByte_or_wp. rename a into b, st' into st1, H into H1.
    pose proof (adv1_length _ _ H1). destruct (b =? 101); [exact H1|].
    destruct (b =? 100); [wp_step IHd; cbn; eauto|]. destruct (b =? 108); [wp_step IHl; cbn; eauto|].
    destruct (b =? 105); [wp_step parseIntInterface_wp; cbn; eauto|].
    destruct (isDigit b); [|done]. apply wpM_bind. cbn. wp_step parseStringInterface_wp. cbn.
    eapply adv1_trans_l; [exact H1|]. apply adv1_adv in H0. exact H0.
  - intros last dict st Hf. cbn [parseDictInterface]. apply wpM_bind. cbn. wp_step IHv.
    rename st' into st1, H into H1. pose proof (adv1_length _ _ H1). destruct a as [[n|n|key|l0|d0]|]; try done.
    destruct (match last with Some l => bytes_le key l | None => false end); [done|].
    apply wpM_bind. cbn. wp_step IHv. pose proof (adv1_length _ _ H0). destruct a; [|done].
    wp_last IHd. eauto.
  - intros acc st Hf. cbn [parseListInterface]. wp_step IHv. pose proof (adv1_length _ _ H).
    destruct a; [|done]. wp_last IHl. eauto.
Qed.

(** *** Typing *)
Fixpoint has_type (t : rty) (v : rval) : Prop :=
  match t, v with
  | TInt w, VInt n => inRangeInt w n = true
  | TUint w, VUint n => 0 ≤ n ∧ inRangeUint w n = true
  | TBool, VBool _ | TString, VStr _ | TIface, VIface _ | TRaw, VRaw _ | TOther, VOther => True
  | TSlice t, VSlice o => Forall (has_type t) (default [] o)
  | TArray n t, VArr l => List.length l = n ∧ Forall (has_type t) l
  | TMap t, VMap o => Forall (λ e, has_type t e.2) (default [] o)
  | TStruct fs, VStruct l =>
      (fix go (fs : list (fld * rty)) (l : list rval) : Prop :=
         match fs, l with
         | [], [] => True
         | (_, t) :: fs, v :: l => has_type t v ∧ go fs l
         | _, _ => False
         end) fs l
  | TPtr t, VPtr o => match o with Some v => has_type t v | None => True end
  | _, _ => False
  end.

Lemma has_type_struct fs l : has_type (TStruct fs) (VStruct l) ↔ Forall2 (λ f v, has_type f.2 v) fs l.
Proof.
  revert l. induction fs as [|[f t] fs IH]; intros [|v l]; cbn in *; rewrite ?Forall2_cons.
  - split; [by constructor|done].
  - split; [by intros []|by inversion 1].
  - split; [by intros []|by inversion 1].
  - by rewrite IH.
Qed.

Lemma rty_ind' (P : rty → Prop) :
  (∀ w, P (TInt w)) → (∀ w, P (TUint w)) → P TBool → P TString → (∀ t, P t → P (TSlice t)) →
  (∀ n t, P t → P (TArray n t)) → (∀ t, P t → P (TMap t)) → (∀ fs, Forall (λ f, P f.2) fs → P (TStruct fs)) →
  P TIface → (∀ t, P t → P (TPtr t)) → P TRaw → P TOther → ∀ t, P t.
Proof.
  intros Hi Hu Hb Hs Hsl Ha Hm Hst Hif Hp Hr Ho. fix IH 1.
  intros [w|w| | |t|n t|t|fs| |t| |]; [apply Hi|apply Hu|exact Hb|exact Hs|apply Hsl, IH|apply Ha, IH|apply Hm, IH|
    apply Hst|exact Hif|apply Hp, IH|exact Hr|exact Ho].
  induction fs as [|[f t] fs IHfs]; constructor; [exact (IH t)|exact IHfs].
Qed.

Lemma zero_has_type t : has_type t (zero t).
Proof.
  induction t as [w|w| | |t IH|n t IH|t IH|fs IH| |t IH| |] using rty_ind'; try done; try constructor.
  - by destruct w.
  - done.
  - by destruct w.
  - apply length_replicate.
  - apply Forall_replicate. exact IH.
  - cbn [zero]. apply has_type_struct. induction IH; cbn; constructor; auto.
Qed.

Lemma parseStructFields_lookup fs : ∀ k key i t tag,
  (key, (i, t, tag)) ∈ parseStructFields k fs → ∃ j f, i = (k + j)%nat ∧ fs !! j = Some (f, t).
Proof.
  induction fs as [|[f t0] fs IH]; cbn; intros k key i t tag H; [set_solver|].
  assert (Hrest : (key, (i, t, tag)) ∈ parseStructFields (S k) fs → ∃ j f', i = (k + j)%nat ∧ ((f, t0) :: fs) !! j = Some (f', t)).
  { intros (j & f' & -> & Hj)%IH. exists (S j), f'. split; [lia|done]. }
  case_bool_decide; [by apply Hrest|]. apply elem_of_cons in H as [H|H]; [|by apply Hrest].
  injection H as _ -> -> _. exists 0%nat, f. split; [lia|done].
Qed.

Lemma getDictField_struct fs key i t tag :
  getDictField (TStruct fs) key = FStruct i t tag → ∃ f, fs !! i = Some (f, t).
Proof.
  cbn. unfold getStructFieldForKey. destruct (list_find _ _) as [[k [key' [[i' t'] tag']]]|] eqn:E; [|done].
  intros [= -> -> ->]. apply list_find_Some in E as (E & _ & _). apply list_elem_of_lookup_2 in E.
  rewrite elem_of_reverse in E. apply parseStructFields_lookup in E as (j & f & -> & ?). eauto.
Qed.

(** Storing a value of the field's type keeps the type of the dictionary. *)
Lemma dictSet_has_type t key x v :
  has_type t v →
  (match getDictField t key with FMap t' => has_type t' x | FStruct _ t' _ => has_type t' x | _ => True end) →
  has_type t (dictSet (getDictField t key) key x v).
Proof.
  intros Hv. destruct t as [| | | |t|n t|t|fs| |t| |]; try done.
  - destruct v as [| | | | | |o| | | | |]; try done. cbn in *. intros Hx.
    induction (default [] o) as [|e l IH]; cbn; [by repeat constructor|]. inversion Hv; subst.
    case_bool_decide; constructor; auto.
  - destruct v as [| | | | | | |l| | | |]; try done.
    destruct (getDictField (TStruct fs) key) as [t|i t tag| |] eqn:E; cbn [dictSet]; intros Hx; try done.
    apply getDictField_struct in E as (f & Hf). apply has_type_struct in Hv. apply has_type_struct.
    apply Forall2_lookup. intros j. rewrite Forall2_lookup in Hv. specialize (Hv j).
    destruct (decide (i = j)) as [<-|]; [|by rewrite list_lookup_insert_ne].
    rewrite Hf in *. inversion Hv as [? y Hy E1 E2|]; subst.
    rewrite list_lookup_insert_eq by (eapply lookup_lt_Some; eauto). by constructor.
Qed.

(** *** The typed decoder: type soundness and termination *)
Lemma digitsValue_nonneg s : forallb isDigit s = true → 0 ≤ digitsValue s.
Proof.
  induction s as [|c s IH] using rev_ind; [done|]. rewrite forallb_snoc, andb_true_iff, isDigit_range, digitsValue_snoc.
  intros [? ?]. specialize (IH ltac:(done)). lia.
Qed.

Lemma ParseUint_nonneg s n : ParseUint s = NumOk n → 0 ≤ n.
Proof.
  unfold ParseUint. destruct (parseDigits s) eqn:E; [|done]. apply parseDigits_inv in E as (_ & Hd & <-).
  destruct (_ <? _); [|done]. intros [= <-]. by apply digitsValue_nonneg.
Qed.

Lemma parseInt_wp t v st : has_type t v → wpM (parseInt t v) st (λ q st', adv1 st st' ∧ has_type t q.2).
Proof.
  intros Hv. unfold parseInt. apply wpM_bind. cbn. wp_step readInt_wp. destruct a as [e|]; [by cbn|].
  apply wpM_bind. cbn. destruct t as [w|w| | |t|n t|t|fs| |t| |]; try (cbn; done).
  - destruct (ParseInt (dbuf st')) as [n|n|]; [|done|done]. destruct (inRangeInt w n) eqn:E; cbn; done.
  - destruct (ParseUint (dbuf st')) as [n|n|] eqn:En; [|done|done]. apply ParseUint_nonneg in En.
    destruct (inRangeUint w n) eqn:E; cbn; done.
Qed.

Lemma bytes_has_type b : bytes_ok b → Forall (has_type (TUint W8)) (map VUint b).
Proof.
  intros Hb. apply Forall_map. eapply Forall_impl; [exact Hb|]. intros x Hx. cbn in Hx |- *. split; [lia|].
  unfold inRangeUint. apply Z.ltb_lt. cbn. lia.
Qed.

Lemma adv_bytes st st' : adv st st' → bytes_ok (drest st) → bytes_ok (drest st').
Proof. intros [p E]. unfold bytes_ok. rewrite E, Forall_app. by intros [_ ?]. Qed.

Lemma parseString_wp maxStrLen t v st : bytes_ok (drest st) → has_type t v →
  wpM (parseString maxStrLen t v) st (λ q st', adv1 st st' ∧ has_type t q.2).
Proof.
  intros Hb Hv. unfold parseString. wp_step parseStringLength_wp. destruct a as [n|e]; [|by cbn].
  wp_step readFull_wp. destruct H0 as [H0 Hpre]. apply wpM_bind. cbn.
  assert (Hab : bytes_ok a).
  { destruct Hpre as [k Hk]. pose proof (adv_bytes _ _ (adv1_adv _ _ H) Hb) as Hr. rewrite Hk in Hr.
    by apply bytes_ok_app in Hr as [? _]. }
  split; [exact (adv1_trans_l _ _ _ H H0)|].
  destruct t as [w|w| | |t|m t|t|fs| |t| |]; try done.
  - destruct t as [| [] | | | | | | | | | |]; try done. by apply bytes_has_type.
  - destruct t as [| [] | | | | | | | | | |]; try done. destruct v as [| | | | |l| | | | | |]; try done.
    destruct Hv as [<- Hl]. cbn. split.
    + rewrite length_app, length_map, length_take, length_drop. lia.
    + apply Forall_app. split; [|by apply Forall_drop]. apply bytes_has_type. by apply Forall_take.
Qed.

Lemma readOneValue_wp fuel :
  (∀ st, (2 * L st + 1 ≤ fuel)%nat →
     wpM (readOneValue fuel) st (λ more st', adv st st' ∧ (more = true → adv1 st st'))) ∧
  (∀ st, (2 * L st + 2 ≤ fuel)%nat → wpM (readValues fuel) st (λ _ st', adv st st')).
Proof.
  induction fuel as [|fuel [IHo IHv]]; [split; intros; lia|]. split.
  - intros st Hf. cbn [readOneValue]. unfold wpM at 1. destruct (drest st) as [|b r] eqn:Er; [done|].
    destruct (b =? 101); [done|]. set (st1 := mkDec r (Offset st + 1) (dbuf st)).
    assert (H1 : adv1 st st1) by (exists b, r; done).
    match goal with |- match ?m st1 with _ => _ end => change (wpM m st1 (λ more st', adv st st' ∧ (more = true → adv1 st st'))) end.
    apply wpM_bind. cbn. set (st2 := mkDec r (Offset st + 1) (dbuf st ++ [b])).
    assert (H2 : adv1 st st2) by (exists b, r; done). cbn in Hf.
    assert (Hend : ∀ st', adv st2 st' → adv st st' ∧ (true = true → adv1 st st')) by eauto.
    destruct ((b =? 100) || (b =? 108)).
    + wp_step IHv; [cbn; lia|]. wp_step ReadByte_or_wp. cbn. apply Hend. eauto.
    + destruct (b =? 105); [wp_step readUntil_wp; cbn; apply Hend; eauto|].
      destruct (isDigit b); [|done]. apply wpM_bind. cbn. wp_step readUntil_wp. cbn.
      apply wpM_bind. cbn. apply wpM_bind. cbn. destruct (ParseInt _); [|done|done].
      apply wpM_bind. cbn. wp_step readFull_wp. cbn. destruct H0 as [H0 _]. apply Hend.
      eapply adv_trans; [by apply adv1_adv|]. exact H0.
  - intros st Hf. cbn [readValues]. wp_step IHo. destruct H as [H H1]. destruct a; [|exact H].
    pose proof (adv1_length _ _ (H1 eq_refl)). wp_last IHv. eauto.
Qed.

(** What a parsing step guarantees. *)
Definition pvGood (t : rty) (st : dec) (r : pv) (st' : dec) : Prop :=
  adv st st' ∧ (pvErr r = None → adv1 st st') ∧ has_type t (pvVal r).

Definition elemsGood (e : rty) (slice : bool) (l0 : list rval) (st : dec) (q : option derr * nat * list rval) (st' : dec) : Prop :=
  adv st st' ∧ Forall (has_type e) q.2 ∧ (slice = false → List.length q.2 = List.length l0).

Section Step.
Context (maxStrLen : Z) (fuel : nat).
Hypothesis IHvalue : ∀ t v st, (4 * L st + 2 ≤ fuel)%nat → bytes_ok (drest st) → has_type t v →
  wpM (parseValue fuel maxStrLen t v) st (pvGood t st).
Hypothesis IHdict : ∀ t v st, (4 * L st + 3 ≤ fuel)%nat → bytes_ok (drest st) → has_type t v →
  wpM (parseDict fuel maxStrLen t v) st (λ q st', adv st st' ∧ has_type t q.2).
Hypothesis IHlist : ∀ t v st, (4 * L st + (if listLike t then 4 else 5) ≤ fuel)%nat → bytes_ok (drest st) → has_type t v →
  wpM (parseList fuel maxStrLen t v) st (λ q st', adv st st' ∧ has_type t q.2).
Hypothesis IHelems : ∀ e slice i l st, (4 * L st + 3 ≤ fuel)%nat → bytes_ok (drest st) → Forall (has_type e) l →
  wpM (parseElems fuel maxStrLen e slice i l) st (elemsGood e slice l st).

Lemma iface_wp st : (2 * L st + 1 ≤ fuel)%nat →
  wpM (parseValueInterface fuel maxStrLen) st (λ _ st', adv1 st st').
Proof using Type. intros. by apply parseValueInterface_wp. Qed.

(** Storing a dictionary entry and going on. *)
Lemma dict_next t v st st1 key x : adv1 st st1 → (4 * L st + 3 ≤ S fuel)%nat → bytes_ok (drest st) → has_type t v →
  (match getDictField t key with FMap t' => has_type t' x | FStruct _ t' _ => has_type t' x | _ => True end) →
  wpM (parseDict fuel maxStrLen t (dictSet (getDictField t key) key x v)) st1 (λ q st', adv st st' ∧ has_type t q.2).
Proof using IHdict.
  intros H1 Hf Hb Hv Hx. pose proof (adv1_length _ _ H1). pose proof (adv_bytes _ _ (adv1_adv _ _ H1) Hb).
  wp_last IHdict; [done|by apply dictSet_has_type|]. destruct H2 as [? ?]. split; [|done]. eauto.
Qed.

Lemma parseDict_step t v st : (4 * L st + 3 ≤ S fuel)%nat → bytes_ok (drest st) → has_type t v →
  wpM (parseDict (S fuel) maxStrLen t v) st (λ q st', adv st st' ∧ has_type t q.2).
Proof using IHvalue IHdict.
  intros Hf Hb Hv. cbn [parseDict]. wp_step IHvalue; [done|done|]. destruct H as (Hadv & Hadv1 & Hkt).
  destruct (pvErr a) as [e|] eqn:He; [by cbn|]. specialize (Hadv1 eq_refl). pose proof (adv1_length _ _ Hadv1).
  pose proof (adv_bytes _ _ Hadv Hb) as Hb1. destruct (pvOk a); [|by cbn].
  destruct (pvVal a) as [| | |key| | | | | | | |]; try done.
  assert (Hstore : ∀ df ty tags, getDictField t key = df → (match df with FMap t' => t' = ty | FStruct _ t' _ => t' = ty | _ => False end) →
    wpM (r ← parseValue fuel maxStrLen ty (zero ty);
         match pvErr r with
         | Some EType => if IgnoreUnmarshalTypeError tags then
                           if pvOk r then parseDict fuel maxStrLen t (dictSet df key (pvVal r) v)
                           else mret (Some (EOther "missing value for key"), v)
                         else mret (Some EType, v)
         | Some e => mret (Some e, v)
         | None => if pvOk r then parseDict fuel maxStrLen t (dictSet df key (pvVal r) v)
                   else mret (Some (EOther "missing value for key"), v)
         end) st' (λ q st'', adv st st'' ∧ has_type t q.2)).
  { intros df ty tags <- Hty. wp_step IHvalue; [done|apply zero_has_type|]. destruct H0 as (Ha2 & _ & Hx).
    assert (Hnext : wpM (parseDict fuel maxStrLen t (dictSet (getDictField t key) key (pvVal a0) v)) st'0
                      (λ q st'', adv st st'' ∧ has_type t q.2)).
    { apply dict_next; try done; [by eapply adv1_trans_l|]. destruct (getDictField t key); by subst. }
    assert (Hret : ∀ e : option derr, wpM (mret (e, v)) st'0 (λ q st'', adv st st'' ∧ has_type t q.2)).
    { intros e. cbn. split; [by eapply adv_trans|done]. }
    destruct (pvErr a0) as [[]|]; try apply Hret; [destruct (IgnoreUnmarshalTypeError tags); [|apply Hret]|];
      (destruct (pvOk a0); [exact Hnext|apply Hret]). }
  destruct (getDictField t key) as [t'|i t' tag| |] eqn:Hdf.
  - by apply (Hstore (FMap t') t' []).
  - by apply (Hstore (FStruct i t' tag) t' tag).
  - wp_step iface_wp; try lia. destruct a0; [|cbn; split; [eauto|done]].
    wp_last IHdict; [pose proof (adv1_length _ _ H0); lia|eauto using adv_bytes|done|]. destruct H1. split; [eauto|done].
  - cbn. split; [eauto|done].
Qed.

Lemma parseElems_step e slice i l st : (4 * L st + 3 ≤ S fuel)%nat → bytes_ok (drest st) → Forall (has_type e) l →
  wpM (parseElems (S fuel) maxStrLen e slice i l) st (elemsGood e slice l st).
Proof using IHvalue IHelems.
  intros Hf Hb Hl. cbn [parseElems].
  set (l1 := if slice && Nat.leb (List.length l) i then l ++ [zero e] else l).
  assert (Hl1 : Forall (has_type e) l1).
  { unfold l1. destruct (slice && _); [|done]. apply Forall_app. split; [done|]. repeat constructor. apply zero_has_type. }
  assert (Hlen : slice = false → List.length l1 = List.length l) by (unfold l1; by intros ->).
  destruct (l1 !! i) as [x|] eqn:Hx.
  - assert (Hxt : has_type e x) by (by eapply Forall_lookup).
    wp_step IHvalue; [done|done|]. destruct H as (Ha & Ha1 & Ht).
    assert (Hl2 : Forall (has_type e) (<[i:=pvVal a]> l1)) by (by apply Forall_insert).
    assert (Hlen2 : slice = false → List.length (<[i:=pvVal a]> l1) = List.length l) by (rewrite length_insert; done).
    destruct (pvErr a) as [err|] eqn:He; [by cbn|]. specialize (Ha1 eq_refl). pose proof (adv1_length _ _ Ha1).
    destruct (pvOk a); [|by cbn]. wp_last IHelems; [eauto using adv_bytes|done|].
    destruct H0 as (Hb1 & Hb2 & Hb3). split_and!; [eauto|done|]. intros Hs. rewrite Hb3 by done. by apply Hlen2.
  - wp_step iface_wp; try lia. pose proof (adv1_length _ _ H). destruct a; [|cbn; split_and!; [eauto|done|done]].
    wp_last IHelems; [eauto using adv_bytes|done|]. destruct H1 as (Hb1 & Hb2 & Hb3).
    split_and!; [eauto|done|]. intros Hs. rewrite Hb3 by done. by apply Hlen.
Qed.

Lemma parseList_step t v st : (4 * L st + (if listLike t then 4 else 5) ≤ S fuel)%nat → bytes_ok (drest st) → has_type t v →
  wpM (parseList (S fuel) maxStrLen t v) st (λ q st', adv st st' ∧ has_type t q.2).
Proof using IHlist IHelems.
  intros Hf Hb Hv.
  assert (Hdef : listLike t = false →
    wpM ('(err, l) ← parseList fuel maxStrLen (TSlice t) (VSlice None);
         mret (match err, l with
               | Some x, _ => (Some x, v)
               | None, VSlice (Some [x]) => (None, x)
               | None, _ => (Some EType, v)
               end)) st (λ q st', adv st st' ∧ has_type t q.2)).
  { intros Hll. rewrite Hll in Hf. wp_step IHlist; [cbn; lia|done|by constructor|]. destruct a as [err l]. cbn in H |- *.
    destruct H as [Ha Ht]. split; [done|]. destruct err; [done|]. destruct l as [| | | |o| | | | | | |]; try done.
    destruct o as [[|x [|y l]]|]; try done. cbn in *. by inversion Ht. }
  cbn [parseList]. destruct t as [| | | |e|n e|t|fs| |t| |]; try (by apply Hdef).
  - destruct v as [| | | |o| | | | | | |]; try done. cbn [listLike] in Hf.
    wp_step IHelems; [done|exact Hv|]. destruct a as [[err i] l]. destruct H as (Ha & Hl & _). cbn in *.
    split; [done|]. destruct err; cbn; [done|]. by apply Forall_take.
  - destruct v as [| | | | |l0| | | | | |]; try done. cbn [listLike] in Hf. destruct Hv as [Hlen Hv].
    wp_step IHelems; [done|exact Hv|]. destruct a as [[err i] l]. destruct H as (Ha & Hl & Hll). cbn in *.
    specialize (Hll eq_refl). split; [done|]. destruct err; cbn; [split; [lia|done]|]. split.
    + rewrite length_app, length_take, length_replicate. lia.
    + apply Forall_app. split; [by apply Forall_take|]. apply Forall_replicate, zero_has_type.
Qed.

Lemma plain_wp t v st : (4 * L st + 2 ≤ S fuel)%nat → bytes_ok (drest st) → has_type t v →
  wpM (parsePlain maxStrLen (parseDict fuel maxStrLen) (parseList fuel maxStrLen) t v) st (pvGood t st).
Proof using IHdict IHlist.
  intros Hf Hb Hv. unfold parsePlain, wpM at 1. destruct (drest st) as [|b r] eqn:Er; [by split_and!|].
  set (st1 := mkDec r (Offset st + 1) (dbuf st)). assert (H1 : adv1 st st1) by (by exists b, r).
  match goal with |- match ?m st1 with _ => _ end => change (wpM m st1 (pvGood t st)) end.
  assert (Hb1 : bytes_ok (drest st1)) by (by inversion Hb). cbn [List.length] in Hf.
  assert (Hend : ∀ q st', adv st1 st' ∧ has_type t q.2 → wpM (mret (okPv q)) st' (pvGood t st)).
  { intros q st' [Ha Ht]. cbn. split_and!; [by eauto|by eauto|done]. }
  destruct (b =? 101); [cbn; split_and!; [by eauto|done|done]|].
  destruct (b =? 100); [wp_step IHdict; [cbn; lia|done|done|by apply Hend]|].
  destruct (b =? 108); [wp_step IHlist; [destruct (listLike t); cbn; lia|done|done|by apply Hend]|].
  destruct (b =? 105); [wp_step parseInt_wp; [done|apply Hend; destruct H; eauto]|].
  destruct (isDigit b); [|done]. apply wpM_bind. cbn. apply wpM_bind. cbn.
  wp_step parseString_wp; [done|done|]. destruct H as [Ha Ht]. apply Hend. split; [|done]. apply adv1_adv in Ha. exact Ha.
Qed.

(** A value taken raw, or the end symbol left to the parser of the kind. *)
Lemma raw_wp t v st (k : M pv) : (4 * L st + 2 ≤ S fuel)%nat → bytes_ok (drest st) → has_type t v →
  (∀ st', adv1 st st' → wpM k st' (pvGood t st)) →
  wpM (_ ← buf_Reset; read ← readOneValue fuel;
       if read : bool then k else parsePlain maxStrLen (parseDict fuel maxStrLen) (parseList fuel maxStrLen) t v) st (pvGood t st).
Proof using IHvalue IHdict IHlist IHelems.
  intros Hf Hb Hv Hk. apply wpM_bind. cbn. destruct (drest st) as [|b r] eqn:Er.
  { destruct fuel; [cbn in Hf; lia|]. done. }
  cbn in Hf. wp_step (proj1 (readOneValue_wp fuel)); [cbn; lia|]. destruct H as [Ha Ha1].
  assert (Ha' : adv st st') by (unfold adv; rewrite Er; exact Ha). destruct a.
  - apply Hk. specialize (Ha1 eq_refl). unfold adv1. rewrite Er. exact Ha1.
  - wp_last plain_wp; [|eauto using adv_bytes|done|].
    + pose proof (adv_length _ _ Ha'). rewrite Er in *. cbn in *. lia.
    + destruct H as (Hb1 & Hb2 & Hb3). split_and!; [eauto| |done]. intros He. specialize (Hb2 He). eauto.
Qed.

Lemma direct_wp t v st : (4 * L st + 2 ≤ S fuel)%nat → bytes_ok (drest st) → has_type t v →
  wpM (parseDirect fuel maxStrLen (parseDict fuel maxStrLen) (parseList fuel maxStrLen) t v) st (pvGood t st).
Proof using IHvalue IHdict IHlist IHelems.
  intros Hf Hb Hv. unfold parseDirect. destruct t as [| | | |e|n e|t|fs| |t| |]; try (by apply plain_wp).
  - destruct (drest st) as [|b r] eqn:Er.
    { destruct fuel; [cbn in Hf; lia|]. unfold wpM, mbind, M_bind. cbn. unfold mbind, M_bind, ReadByte_or. by rewrite Er. }
    cbn in Hf. wp_step (proj1 (parseValueInterface_wp maxStrLen fuel)); [rewrite Er; cbn; lia|].
    destruct a; [|done]. cbn. split_and!; [by eauto|by eauto|done].
  - destruct t; try (by apply plain_wp). apply raw_wp; [done..|]. intros st' Ha.
    destruct v as [| | | | | | | | |[v|]| |]; try done. cbn. by split_and!; [eauto|..].
  - apply raw_wp; [done..|]. intros st' Ha. cbn. by split_and!; [eauto|..].
Qed.

Lemma parseValue_step t v st : (4 * L st + 2 ≤ S fuel)%nat → bytes_ok (drest st) → has_type t v →
  wpM (parseValue (S fuel) maxStrLen t v) st (pvGood t st).
Proof using IHvalue IHdict IHlist IHelems.
  intros Hf Hb Hv. cbn [parseValue]. destruct t as [| | | |e|n e|t|fs| |t| |]; try (by apply direct_wp).
  destruct v as [| | | | | | | | |o| |]; try done.
  wp_step direct_wp; [done| |].
  - destruct o; [exact Hv|apply zero_has_type].
  - destruct H as (Ha & Ha1 & Ht). cbn. by split_and!.
Qed.
End Step.

Lemma typed_wp maxStrLen fuel :
  (∀ t v st, (4 * L st + 2 ≤ fuel)%nat → bytes_ok (drest st) → has_type t v →
     wpM (parseValue fuel maxStrLen t v) st (pvGood t st)) ∧
  (∀ t v st, (4 * L st + 3 ≤ fuel)%nat → bytes_ok (drest st) → has_type t v →
     wpM (parseDict fuel maxStrLen t v) st (λ q st', adv st st' ∧ has_type t q.2)) ∧
  (∀ t v st, (4 * L st + (if listLike t then 4 else 5) ≤ fuel)%nat → bytes_ok (drest st) → has_type t v →
     wpM (parseList fuel maxStrLen t v) st (λ q st', adv st st' ∧ has_type t q.2)) ∧
  (∀ e slice i l st, (4 * L st + 3 ≤ fuel)%nat → bytes_ok (drest st) → Forall (has_type e) l →
     wpM (parseElems fuel maxStrLen e slice i l) st (elemsGood e slice l st)).
Proof.
  induction fuel as [|fuel (IHv & IHd & IHl & IHe)].
  { split_and!; intros; try lia. destruct (listLike t); lia. }
  split_and!; intros.
  - by apply parseValue_step.
  - by apply parseDict_step.
  - by apply parseList_step.
  - by apply parseElems_step.
Qed.

(** *** Run-time panics

    The only one is the nil pointer of a [**bencode.Bytes]. *)
Fixpoint doubleBytes (t : rty) : bool :=
  match t with
  | TPtr t => match t with TPtr TRaw => true | _ => doubleBytes t end
  | TSlice t | TArray _ t | TMap t => doubleBytes t
  | TStruct fs => existsb (λ f, doubleBytes f.2) fs
  | _ => false
  end.

Definition safeM {A} (m : M A) : Prop := ∀ st w, m st ≠ Throw (ERuntime w).

Lemma safe_ret {A} (a : A) : safeM (mret a).
Proof. done. Qed.
Lemma safe_throw {A} (e : derr) : (∀ w, e ≠ ERuntime w) → safeM (throw e : M A).
Proof. intros H st w [= E]. by apply (H w). Qed.
Lemma safe_noFuel {A} : safeM (noFuel : M A).
Proof. done. Qed.
Lemma safe_bind {A B} (m : M A) (f : A → M B) : safeM m → (∀ a, safeM (f a)) → safeM (m ≫= f).
Proof.
  intros Hm Hf st w. unfold mbind, M_bind. specialize (Hm st w). destruct (m st); [apply Hf|congruence|done].
Qed.
Lemma safe_at {A} (m : M A) st : safeM m → ∀ w, m st ≠ Throw (ERuntime w).
Proof. intros H w. apply H. Qed.

Lemma safe_ReadByte_or e : (∀ w, e ≠ ERuntime w) → safeM (ReadByte_or e).
Proof. intros H st w. unfold ReadByte_or. destruct (drest st); [|done]. intros [= E]. by apply (H w). Qed.
Lemma safe_readByte : safeM readByte.
Proof. intros st w. unfold readByte. by apply safe_ReadByte_or. Qed.
Lemma safe_readUntil sep : safeM (readUntil sep).
Proof.
  intros st w. unfold readUntil. generalize (Offset st) (dbuf st).
  induction (drest st) as [|c l IH]; cbn; intros o b; [done|]. destruct (_ =? _); [done|apply IH].
Qed.
Lemma safe_readBytes n : safeM (readBytes n).
Proof. intros st w. unfold readBytes. by destruct (_ =? _). Qed.
Lemma safe_readFull n : safeM (readFull n).
Proof. intros st w. unfold readFull. by destruct (_ <? _). Qed.

Create HintDb safe.
#[export] Hint Resolve safe_ret safe_noFuel safe_readByte safe_readUntil safe_readBytes safe_readFull : safe.

(** Walk through a computation built of safe ones. *)
Ltac safe_go :=
  repeat match goal with
  | |- safeM (_ ≫= _) => apply safe_bind; [|intros ?]
  | |- safeM (throw _) => apply safe_throw; done
  | |- safeM (ReadByte_or _) => apply safe_ReadByte_or; done
  | |- safeM getOffset => done
  | |- safeM getBuf => done
  | |- safeM buf_Reset => done
  | |- safeM (buf_Write _) => done
  | |- safeM (addOffset _) => done
  | |- safeM (match ?x with _ => _ end) => destruct x
  | |- safeM _ => solve [eauto with safe]
  end.

Lemma safe_readInt : safeM readInt.
Proof. unfold readInt. safe_go. Qed.
Lemma safe_parseStringLength maxStrLen : safeM (parseStringLength maxStrLen).
Proof. unfold parseStringLength. safe_go. Qed.
#[export] Hint Resolve safe_readInt safe_parseStringLength : safe.

(** The errors that are returned first and thrown later are no run-time panics
    either. *)
Definition yields {A} (m : M A) (P : A → Prop) : Prop := ∀ st a st', m st = Ret a st' → P a.

Lemma safe_bind_yields {A B} (m : M A) (f : A → M B) P :
  safeM m → yields m P → (∀ a, P a → safeM (f a)) → safeM (m ≫= f).
Proof.
  intros Hm Hy Hf st w. unfold mbind, M_bind. specialize (Hm st w).
  destruct (m st) eqn:E; [eapply Hf, Hy, E|congruence|done].
Qed.

Lemma yields_readInt : yields readInt (λ r, ∀ w, r ≠ Some (ERuntime w)).
Proof. intros st r st' H. unfold readInt in H. inv_M. by destruct (checkBufferedInt _). Qed.
Lemma yields_parseStringLength maxStrLen : yields (parseStringLength maxStrLen) (λ r, ∀ w, r ≠ Bad (ERuntime w)).
Proof.
  intros st r st' H. unfold parseStringLength in H. inv_M. destruct (negb _); inv_M; [done|].
  destruct (ParseInt _); inv_M. by destruct (_ <? _).
Qed.

Lemma safe_parseIntInterface : safeM parseIntInterface.
Proof.
  unfold parseIntInterface. apply safe_bind; [done|intros start].
  apply (safe_bind_yields _ _ _ safe_readInt yields_readInt). intros [e|] He; [|safe_go].
  apply safe_throw. intros w ->. by apply (He w).
Qed.
Lemma safe_parseStringInterface maxStrLen : safeM (parseStringInterface maxStrLen).
Proof.
  unfold parseStringInterface. apply (safe_bind_yields _ _ _ (safe_parseStringLength _) (yields_parseStringLength _)).
  intros [n|e] He; [safe_go|]. apply safe_throw. intros w ->. by apply (He w).
Qed.
#[export] Hint Resolve safe_parseIntInterface safe_parseStringInterface : safe.

Lemma safe_interface maxStrLen fuel :
  safeM (parseValueInterface fuel maxStrLen) ∧
  (∀ last dict, safeM (parseDictInterface fuel maxStrLen last dict)) ∧
  (∀ acc, safeM (parseListInterface fuel maxStrLen acc)).
Proof.
  induction fuel as [|fuel (IHv & IHd & IHl)]; [done|]. split_and!; intros; cbn; safe_go.
Qed.
Lemma safe_parseValueInterface fuel maxStrLen : safeM (parseValueInterface fuel maxStrLen).
Proof. apply safe_interface. Qed.
Lemma safe_parseInt t v : safeM (parseInt t v).
Proof. unfold parseInt. safe_go. Qed.
Lemma safe_parseString maxStrLen t v : safeM (parseString maxStrLen t v).
Proof. unfold parseString. safe_go. Qed.
#[export] Hint Resolve safe_parseValueInterface safe_parseInt safe_parseString : safe.

Lemma safe_readOne fuel : safeM (readOneValue fuel) ∧ safeM (readValues fuel).
Proof.
  induction fuel as [|fuel [IHo IHv]]; [done|]. split; [|cbn; safe_go].
  intros st w. cbn [readOneValue]. destruct (drest st) as [|b r]; [done|]. destruct (b =? 101); [done|].
  apply safe_at. safe_go. by intros ?.
Qed.
Lemma safe_readOneValue fuel : safeM (readOneValue fuel).
Proof. apply safe_readOne. Qed.
#[export] Hint Resolve safe_readOneValue : safe.

Lemma safe_plain maxStrLen dict list_ t v : safeM (dict t v) → safeM (list_ t v) → safeM (parsePlain maxStrLen dict list_ t v).
Proof.
  intros Hd Hl st w. unfold parsePlain. destruct (drest st) as [|b r]; [done|]. apply safe_at. safe_go.
Qed.

Lemma safe_direct fuel maxStrLen dict list_ t v : safeM (dict t v) → safeM (list_ t v) →
  ¬ (t = TPtr TRaw ∧ v = VPtr None) → safeM (parseDirect fuel maxStrLen dict list_ t v).
Proof.
  intros Hd Hl Hv. pose proof (safe_plain maxStrLen dict list_ t v Hd Hl) as Hp. unfold parseDirect.
  destruct t as [| | | | | | | | |t| |]; try exact Hp; [safe_go| |safe_go].
  destruct t; try exact Hp. destruct v as [| | | | | | | | |[v|]| |]; [safe_go..| |safe_go|safe_go]. by destruct Hv.
Qed.

Lemma doubleBytes_ptr t : doubleBytes (TPtr t) = false → t ≠ TPtr TRaw ∧ doubleBytes t = false.
Proof. cbn. destruct t as [| | | | | | | | |t| |]; try done. destruct t; try done. Qed.

Lemma doubleBytes_field t key : doubleBytes t = false →
  match getDictField t key with FMap t' => doubleBytes t' = false | FStruct _ t' _ => doubleBytes t' = false | _ => True end.
Proof.
  intros H. destruct t as [| | | |t|n t|t|fs| |t| |]; try done.
  destruct (getDictField (TStruct fs) key) as [t|i t tag| |] eqn:E; try done.
  - cbn in E. by destruct (getStructFieldForKey fs key) as [[[??]?]|].
  - apply getDictField_struct in E as (f & Hf). apply list_elem_of_lookup_2 in Hf.
    destruct (doubleBytes t) eqn:Et; [|done]. rewrite <- H. symmetry. apply existsb_exists.
    exists (f, t). split; [by apply list_elem_of_In|done].
Qed.

Lemma safe_typed maxStrLen fuel :
  (∀ t v, doubleBytes t = false → safeM (parseValue fuel maxStrLen t v)) ∧
  (∀ t v, doubleBytes t = false → safeM (parseDict fuel maxStrLen t v)) ∧
  (∀ t v, doubleBytes t = false → safeM (parseList fuel maxStrLen t v)) ∧
  (∀ e slice i l, doubleBytes e = false → safeM (parseElems fuel maxStrLen e slice i l)).
Proof.
  induction fuel as [|fuel (IHv & IHd & IHl & IHe)]; [done|]. split_and!.
  - intros t v Ht. cbn [parseValue].
    assert (Hd : ¬ (t = TPtr TRaw ∧ v = VPtr None) →
      safeM (parseDirect fuel maxStrLen (parseDict fuel maxStrLen) (parseList fuel maxStrLen) t v))
      by (intros; apply safe_direct; auto).
    destruct t as [| | | | | | | | |t| |]; try (apply Hd; by intros []).
    destruct v as [| | | | | | | | |o| |]; try (apply Hd; by intros []).
    apply doubleBytes_ptr in Ht as [Hne Ht]. apply safe_bind; [|done]. apply safe_direct; auto. by intros [].
  - intros t v Ht. cbn [parseDict]. pose proof (λ k, doubleBytes_field t k Ht) as Hf.
    apply safe_bind; [by apply IHv|]. intros k. destruct (pvErr k), (pvOk k); try done.
    destruct (pvVal k) as [| | |key| | | | | | | |]; try by apply safe_throw.
    specialize (Hf key). destruct (getDictField t key); [..|done]; apply safe_bind; eauto with safe; intros ?; safe_go.
  - intros t v Ht. cbn [parseList].
    assert (Hdef : ∀ k : option derr * rval → M (option derr * rval), (∀ q, safeM (k q)) →
      safeM (parseList fuel maxStrLen (TSlice t) (VSlice None) ≫= k)) by (intros; apply safe_bind; auto).
    destruct t; try (apply Hdef; by intros []); destruct v; try (apply Hdef; by intros []);
      (apply safe_bind; [by apply IHe|]); by intros [[] ?].
  - intros e slice i l He. cbn [parseElems]. destruct (_ !! i); (apply safe_bind; [eauto with safe|]); intros ?; safe_go.
Qed.

(** What decoding of a value of type [t] promises. *)
Definition decodedWell (t : rty) (data : list Z) (r : unmarshalled) : Prop :=
  match r with
  | UGood v' => has_type t v'
  | UTrailing v' n => has_type t v' ∧ 0 < n ≤ Z.of_nat (List.length data)
  | UBad _ => True
  | UPanic _ => doubleBytes t = true
  | UNoFuel => False
  end.

Lemma UnmarshalTyped_ok t v data : bytes_ok data → has_type t v → decodedWell t data (UnmarshalTyped t v data).
Proof.
  intros Hb Hv. unfold UnmarshalTyped, Decode. cbn [drest].
  pose proof (proj1 (typed_wp 0 (4 * List.length data + 2)) t v (mkDec data 0 []) ltac:(cbn; lia) Hb Hv) as H.
  pose proof (λ Ht, proj1 (safe_typed 0 (4 * List.length data + 2)) t v Ht (mkDec data 0 [])) as Hs.
  unfold wpM in H. destruct (parseValue _ _ _ _ _) as [r st|e|]; [| |done].
  - destruct H as (Ha & _ & Ht). destruct (pvErr r) as [e|]; [|destruct (pvOk r)].
    + done.
    + apply adv_length in Ha. cbn in Ha. destruct (drest st); [done|]. split; [done|]. cbn in *. lia.
    + done.
  - destruct e as [| | | | | |w]; try done. cbn. destruct (doubleBytes t); [done|]. by destruct (Hs eq_refl w).
Qed.

(** C15. Decoding into a typed value is type-safe and ends.  For every type of
    the universe, every value of that type to overwrite and every input,
    [Unmarshal] comes back; when it reports a value (trailing bytes or not)
    the value has the type: integers fit their width, arrays keep their
    length, struct fields and map and slice elements have their types.  No
    input makes it crash with a run-time panic, unless the type holds a
    pointer to a pointer to a [bencode.Bytes].  The fuel of the model (four
    units per input byte) is never exhausted. *)
Theorem unmarshal_well_typed t v data : bytes_ok data → has_type t v →
  match UnmarshalTyped t v data with
  | UGood v' => has_type t v'
  | UTrailing v' n => has_type t v' ∧ 0 < n ≤ Z.of_nat (List.length data)
  | UBad _ => True
  | UPanic _ => doubleBytes t = true
  | UNoFuel => False
  end.
Proof. apply UnmarshalTyped_ok. Qed.

(** The one type that is excepted does crash: the nil pointer is called. *)
Example bytes_pointer_panics :
  UnmarshalTyped (TPtr (TPtr TRaw)) (VPtr None) (bs "i1e") = UPanic "nil pointer dereference".
Proof. by_compute. Qed.

Definition exStruct : rty :=
  TStruct [(mkFld (bs "Piece") (bs "piece"), TInt W64); (mkFld (bs "Name") (bs ",omitempty"), TString);
           (mkFld (bs "Raw") (bs "raw"), TRaw); (mkFld (bs "M") (bs "m"), TMap (TInt W8))].

Definition exData : list Z := bs "d1:md1:ai5ee4:Name2:xy5:piecei7e3:rawli1eee".

Lemma unmarshal_well_typed_witness :
  match UnmarshalTyped exStruct (zero exStruct) exData with
  | UGood v' => has_type exStruct v'
  | UTrailing v' n => has_type exStruct v' ∧ 0 < n ≤ Z.of_nat (List.length exData)
  | UBad _ => True
  | UPanic _ => doubleBytes exStruct = true
  | UNoFuel => False
  end.
Proof.
  apply (unmarshal_well_typed exStruct (zero exStruct) exData).
  - by_decide.
  - apply zero_has_type.
Defined.

Example unmarshal_struct_ex :
  UnmarshalTyped exStruct (zero exStruct) exData =
  UGood (VStruct [VInt 7; VStr (bs "xy"); VRaw (bs "li1ee"); VMap (Some [(bs "a", VInt 5)])]).
Proof. by_compute. Qed.

(** ** Raw values

    [readOneValue] copies exactly what it consumes. *)
Definition copied (st st' : dec) : Prop := ∃ p, drest st = p ++ drest st' ∧ dbuf st' = dbuf st ++ p.

Lemma copied_refl st : copied st st.
Proof. exists []. by rewrite app_nil_r. Qed.
Lemma copied_trans a b c : copied a b → copied b c → copied a c.
Proof. intros (p & E1 & E2) (q & E3 & E4). exists (p ++ q). rewrite E1, E3, E4, E2, !app_assoc. done. Qed.
Lemma copied_take c r off buf : copied (mkDec (c :: r) off buf) (mkDec r (off + 1) (buf ++ [c])).
Proof. by exists [c]. Qed.

Lemma readUntil_copied sep u st st' : readUntil sep st = Ret u st' →
  copied st (mkDec (drest st') (Offset st') (dbuf st' ++ [sep])).
Proof.
  intros (pre & E1 & E2 & _)%readUntil_inv. exists (pre ++ [sep]). cbn. rewrite E1, E2, <- !app_assoc. done.
Qed.

Lemma readFull_copied n b st st' : readFull n st = Ret b st' →
  copied st (mkDec (drest st') (Offset st') (dbuf st' ++ b)).
Proof.
  unfold readFull. destruct (_ <? _); [done|]. intros [= <- <-]. exists (take (Z.to_nat n) (drest st)). cbn.
  by rewrite take_drop.
Qed.

Lemma readOneValue_copied fuel :
  (∀ st b st', readOneValue fuel st = Ret b st' → copied st st' ∧ (b = false → st' = st ∧ head (drest st) = Some 101)) ∧
  (∀ st u st', readValues fuel st = Ret u st' → copied st st').
Proof.
  induction fuel as [|fuel [IHo IHv]]; [split; intros; discriminate|]. split.
  - intros st b st' H. cbn [readOneValue] in H. destruct st as [[|c r] off buf]; [done|]. cbn [drest Offset dbuf] in H.
    destruct (Z.eqb_spec c 101) as [->|]; [injection H as <- <-; split; [apply copied_refl|done]|].
    assert (Hc := copied_take c r off buf).
    destruct ((c =? 100) || (c =? 108)) eqn:?; [|destruct (c =? 105) eqn:?; [|destruct (isDigit c) eqn:?]]; inv_M.
    + apply IHv in Ha0. unfold readByte, ReadByte_or in Ha1. destruct (drest s0) as [|x r0] eqn:Er; [done|].
      injection Ha1 as <- <-. split; [|done]. eapply copied_trans; [exact Hc|]. eapply copied_trans; [exact Ha0|].
      exists [x]. by rewrite Er.
    + apply readUntil_copied in Ha0. split; [|done]. by eapply copied_trans.
    + apply readUntil_copied in Ha1. cbn in *. destruct (ParseInt _); inv_M. apply readFull_copied in Ha0. split; [|done].
      eapply copied_trans; [exact Hc|]. eapply copied_trans; [exact Ha1|]. exact Ha0.
  - intros st u st' H. cbn [readValues] in H. inv_M. apply IHo in Ha as [Ha _]. destruct a; inv_M; [|done].
    apply IHv in H. by eapply copied_trans.
Qed.

Lemma parseRaw_inv fuel maxStrLen v st r st' : parseValue fuel maxStrLen TRaw v st = Ret r st' →
  (∃ b, r = mkPv true None (VRaw b) ∧ drest st = b ++ drest st') ∨ (∃ e, pvErr r = Some e) ∨ (pvErr r = None ∧ pvOk r = false).
Proof.
  destruct fuel as [|fuel]; [done|]. cbn [parseValue parseDirect]. intros H. inv_M.
  apply readOneValue_copied in Ha0 as [(p & E1 & E2) Hsame]. cbn in E1, E2. destruct a0; inv_M.
  - left. exists p. by rewrite E2.
  - destruct (Hsame eq_refl) as [-> Hhd]. cbn in Hhd. right. unfold parsePlain in H. cbn [drest] in H.
    destruct (drest st) as [|c l]; [done|]. injection Hhd as ->. injection H as <- <-. eauto.
Qed.

(** A [bencode.Bytes] is exactly the bytes of the value: when [Unmarshal]
    into one succeeds it holds the data unchanged, and with trailing bytes the
    data up to them.  (The info hash is computed over such bytes, so they must
    not be re-encoded.) *)
Theorem raw_bytes_exact v data : bytes_ok data → has_type TRaw v →
  match UnmarshalTyped TRaw v data with
  | UGood v' => v' = VRaw data
  | UTrailing v' n => ∃ b rest, v' = VRaw b ∧ data = b ++ rest ∧ n = Z.of_nat (List.length rest)
  | UBad _ => True
  | UPanic _ => False
  | UNoFuel => False
  end.
Proof.
  intros Hb Hv. pose proof (UnmarshalTyped_ok TRaw v data Hb Hv) as Hok. revert Hok.
  unfold UnmarshalTyped, Decode. cbn [drest].
  destruct (parseValue _ 0 TRaw v (mkDec data 0 [])) as [r st|e|] eqn:E; [|by destruct e|done].
  apply parseRaw_inv in E as [(b & -> & Hd)|[(e & He)|[He Hk]]].
  - cbn [pvErr pvOk pvVal]. cbn in Hd. destruct (drest st) as [|c l] eqn:Er.
    + rewrite app_nil_r in Hd. by subst.
    + intros _. eauto.
  - by rewrite He.
  - by rewrite He, Hk.
Qed.

Lemma raw_bytes_exact_witness :
  match UnmarshalTyped TRaw (VRaw []) (bs "d1:ai-0ee") with
  | UGood v' => v' = VRaw (bs "d1:ai-0ee")
  | UTrailing v' n => ∃ b rest, v' = VRaw b ∧ bs "d1:ai-0ee" = b ++ rest ∧ n = Z.of_nat (List.length rest)
  | UBad _ => True
  | UPanic _ => False
  | UNoFuel => False
  end.
Proof. apply (raw_bytes_exact (VRaw []) (bs "d1:ai-0ee")); [by_decide|exact I]. Defined.

(** The scratch buffer is not cleared after a raw value, so a second [Decode]
    on the same decoder that starts with a number reads the raw value's bytes
    as part of it. *)
Example raw_leaves_buffer :
  match Decode 0 TRaw (VRaw []) (mkDec (bs "i1ei2e") 0 []) with
  | Ret (Good v) st => v = VRaw (bs "i1e") ∧
      match Decode 0 (TInt W64) (VInt 0) st with Ret (Bad (EOther _)) _ => True | _ => False end
  | _ => False
  end.
Proof. vm_compute. done. Qed.

(** The end symbol of a list of [interface{}] is taken for an element, and
    setting it fails. *)
Example iface_slice_refused :
  UnmarshalTyped (TSlice TIface) (VSlice None) (bs "li1ee") = UBad (EOther "reflect.Value.Set on zero Value").
Proof. vm_compute. done. Qed.

(** ** encode.go, typed

    [isEmptyValue] is that of github.com/anacrolix/missinggo.  [Ok None] is an
    error that [Encode] returns, [Panic] a crash. *)
Section Encode.
Context (isEmptyValue : rval → bool).

(** [makeEncodeFields]: key, position, type and omitempty of the fields, by
    key. *)
Fixpoint encodeFields (i : nat) (fs : list (fld * rty)) : list (list Z * (nat * bool)) :=
  match fs with
  | [] => []
  | (f, _) :: fs =>
      let tv := parseTag (fTag f) in
      let rest := encodeFields (S i) fs in
      if tag_Ignore tv then rest
      else (if bool_decide (tag_Key tv = []) then fName f else tag_Key tv, (i, OmitEmpty tv)) :: rest
  end.

Definition makeEncodeFields (fs : list (fld * rty)) : list (list Z * (nat * bool)) := sortKeys (encodeFields 0 fs).

(** Results one after the other. *)
Definition eapp (a b : go (option (list Z))) : go (option (list Z)) :=
  x ← a;
  match x with
  | None => Ok None
  | Some x => y ← b; Ok (match y with Some y => Some (x ++ y) | None => None end)
  end.

Definition ewrite (s : list Z) : go (option (list Z)) := Ok (Some (writeString s)).

Definition econcat (l : list (go (option (list Z)))) : go (option (list Z)) := foldr eapp (Ok (Some [])) l.

Definition bytesOf (l : list rval) : list Z := map (λ v, match v with VUint n => n | _ => 0 end) l.

Fixpoint reflectTyped (t : rty) (v : rval) : go (option (list Z)) :=
  match t, v with
  | TRaw, VRaw s => Ok (match s with [] => None | _ => Some s end)
  | TBool, VBool b => ewrite (bs (if b then "i1e" else "i0e"))
  | TInt _, VInt n => Ok (Some (writeString [105] ++ AppendInt n ++ writeString [101]))
  | TUint _, VUint n => Ok (Some (writeString [105] ++ AppendUint n ++ writeString [101]))
  | TString, VStr s => Ok (Some (reflectString s))
  | TStruct fs, VStruct l =>
      let vals := (fix go (fs : list (fld * rty)) (l : list rval) : list (go (option (list Z))) :=
                     match fs, l with
                     | (_, t) :: fs, v :: l => reflectTyped t v :: go fs l
                     | _, _ => []
                     end) fs l in
      eapp (ewrite [100])
        (eapp (econcat (map (λ e,
                 let '(key, (i, omitEmpty)) := e in
                 if omitEmpty && match l !! i with Some x => isEmptyValue x | None => true end then Ok (Some [])
                 else eapp (Ok (Some (reflectString key))) (default (Ok None) (vals !! i)))
               (makeEncodeFields fs)))
           (ewrite [101]))
  | TMap t, VMap None => ewrite (bs "de")
  | TMap t, VMap (Some d) =>
      eapp (ewrite [100])
        (eapp (econcat (map (λ e, eapp (Ok (Some (reflectString e.1))) e.2)
                          (sortKeys (map (λ e, (e.1, reflectTyped t e.2)) d))))
           (ewrite [101]))
  | TSlice (TUint W8), VSlice o =>
      Ok (Some (writeStringPrefix (Z.of_nat (List.length (default [] o))) ++ bytesOf (default [] o)))
  | TArray _ (TUint W8), VArr l => Ok (Some (writeStringPrefix (Z.of_nat (List.length l)) ++ bytesOf l))
  | TSlice _, VSlice None => ewrite (bs "le")
  | TSlice t, VSlice (Some l) => eapp (ewrite [108]) (eapp (econcat (map (reflectTyped t) l)) (ewrite [101]))
  | TArray _ _, VArr _ => Ok None   (** [IsNil] of an array panics with an error *)
  | TIface, VIface (Some i) => Ok (Some (reflectValue i))
  | TIface, VIface None => Ok None
  | TPtr TRaw, VPtr None => Panic "nil pointer dereference"
  | TPtr t, VPtr None => reflectTyped t (zero t)
  | TPtr t, VPtr (Some v) => reflectTyped t v
  | _, _ => Ok None
  end.

Definition MarshalTyped (t : rty) (v : rval) : go (option (list Z)) := reflectTyped t v.
End Encode.

Example marshal_struct_ex :
  MarshalTyped (λ v, match v with VStr [] => true | _ => false end) exStruct
    (VStruct [VInt 7; VStr []; VRaw (bs "li1ee"); VMap (Some [(bs "b", VInt 5); (bs "a", VInt 6)])]) =
  Ok (Some (bs "d1:md1:ai6e1:bi5ee5:piecei7e3:rawli1eee")).
Proof. by_compute. Qed.
