(* ===== verification/TypedRoundTrip.v ===== *)
(** Values of Go types survive bencoding: what src/bencode/encode.go writes
    for a value of a type, src/bencode/decode.go reads back into that type.

    The definitions are those of BencodeTyped.v; here are the values and types
    for which it holds ([codable], [wfv]), the value that comes back
    ([canonT]), and the proof. *)
From stdpp Require Import base numbers list sets strings.
From Stdlib Require Import ZArith Lia Ascii String Sorted.
From S2P Require Import Prelude RequestStrategy Decimal Bencode BencodeTyped.
Open Scope Z_scope.

(** ** Types and values *)

(** A list of these cannot be read: the end of the list is taken for one. *)
Definition isIface (t : rty) : bool := match t with TIface | TPtr TIface => true | _ => false end.
Definition isPtr (t : rty) : bool := match t with TPtr _ => true | _ => false end.

Definition maxLen : Z := DefaultDecodeMaxStrLen.

(** Of a struct's fields both directions skip the same, and no two share a
    key. *)
Definition tagOk (f : fld) : bool := Bool.eqb (bool_decide (fTag f = bs "-")) (tag_Ignore (parseTag (fTag f))).

Definition fieldsOk (fs : list (fld * rty)) : bool :=
  forallb (λ f, tagOk f.1) fs && bool_decide (NoDup (map fst (encodeFields 0 fs))) &&
  forallb (λ e, Z.of_nat (List.length e.1) <=? maxLen) (encodeFields 0 fs).

Fixpoint codable (t : rty) : bool :=
  match t with
  | TInt _ | TUint _ | TBool | TString | TIface | TRaw => true
  | TSlice t => codable t && negb (isIface t)
  | TArray n (TUint W8) => Z.of_nat n <=? maxLen
  | TArray _ _ | TOther => false
  | TMap t => codable t
  | TStruct fs => fieldsOk fs && forallb (λ f, codable f.2) fs
  | TPtr t => codable t && negb (isPtr t)
  end.

Definition strOk (s : list Z) : Prop := Z.of_nat (List.length s) ≤ maxLen.

Definition isByteVal (v : rval) : Prop := ∃ n, v = VUint n ∧ in_u8 n.

(** Values Go can hold, with strings within the decoder's limit; raw values
    are encodings. *)
Fixpoint wfv (t : rty) (v : rval) : Prop :=
  match t, v with
  | TInt w, VInt n => inRangeInt w n = true
  | TUint w, VUint n => 0 ≤ n ∧ inRangeUint w n = true
  | TBool, VBool _ => True
  | TString, VStr s => strOk s
  | TSlice (TUint W8), VSlice o => Forall isByteVal (default [] o) ∧ Z.of_nat (List.length (default [] o)) ≤ maxLen
  | TSlice t, VSlice o => Forall (wfv t) (default [] o)
  | TArray n (TUint W8), VArr l => List.length l = n ∧ Forall isByteVal l
  | TMap t, VMap o => NoDup (map fst (default [] o)) ∧ Forall (λ e, strOk e.1 ∧ wfv t e.2) (default [] o)
  | TStruct fs, VStruct l =>
      (fix go (fs : list (fld * rty)) (l : list rval) : Prop :=
         match fs, l with
         | [], [] => True
         | (_, t) :: fs, v :: l => wfv t v ∧ go fs l
         | _, _ => False
         end) fs l
  | TIface, VIface o => match o with Some i => ival_wf 0 i | None => True end
  | TPtr t, VPtr o => match o with Some v => wfv t v | None => True end
  | TRaw, VRaw s => s = [] ∨ ∃ i, ival_ok 0 i ∧ s = Marshal i
  | _, _ => False
  end.

Lemma wfv_struct fs l : wfv (TStruct fs) (VStruct l) ↔ Forall2 (λ f v, wfv f.2 v) fs l.
Proof.
  revert l. induction fs as [|[f t] fs IH]; intros [|v l]; cbn in *; rewrite ?Forall2_cons.
  - split; [by constructor|done].
  - split; [by intros []|by inversion 1].
  - split; [by intros []|by inversion 1].
  - by rewrite IH.
Qed.

(** What comes back: slices that are not nil, maps by key and nil if they are
    empty, pointers that point to something, and zero for fields without a
    key or omitted as empty. *)
Section Canon.
Context (isEmptyValue : rval → bool).

Definition fieldSkipped (f : fld) (v : rval) : bool :=
  let tag := parseTag (fTag f) in tag_Ignore tag || (OmitEmpty tag && isEmptyValue v).

Fixpoint canonT (t : rty) (v : rval) : rval :=
  match t, v with
  | TSlice (TUint W8), VSlice o => VSlice (Some (default [] o))
  | TSlice t, VSlice o => VSlice (Some (map (canonT t) (default [] o)))
  | TMap t, VMap o =>
      match sortKeys (default [] o) with
      | [] => VMap None
      | d => VMap (Some (map (λ e, (e.1, canonT t e.2)) d))
      end
  | TStruct fs, VStruct l =>
      VStruct ((fix go (fs : list (fld * rty)) (l : list rval) : list rval :=
         match fs, l with
         | (f, t) :: fs, v :: l => (if fieldSkipped f v then zero t else canonT t v) :: go fs l
         | _, _ => []
         end) fs l)
  | TIface, VIface (Some i) => VIface (Some (canon i))
  | TPtr t, VPtr o => VPtr (Some (canonT t (default (zero t) o)))
  | _, _ => v
  end.

Definition canonField (f : fld * rty) (v : rval) : rval := if fieldSkipped f.1 v then zero f.2 else canonT f.2 v.

Lemma canonT_struct fs l : canonT (TStruct fs) (VStruct l) = VStruct (zip_with canonField fs l).
Proof. cbn. f_equal. revert l. induction fs as [|[f t] fs IH]; intros [|v l]; try done. cbn. by rewrite IH. Qed.
End Canon.

(** ** Reading leaves *)

(** The buffer must be empty in front of these, and is then left empty. *)
Fixpoint needsClean (t : rty) : bool :=
  match t with
  | TInt _ | TUint _ | TBool | TIface => true
  | TSlice t | TPtr t => needsClean t
  | _ => false
  end.

(** The decoder reads [w] from the bytes [b] at the front of any input. *)
Definition readsT (t : rty) (w : rval) (b : list Z) : Prop :=
  ∀ rest off buf fuel, (needsClean t = true → buf = []) → (4 * (List.length b + List.length rest) ≤ fuel)%nat →
  ∃ buf', (needsClean t = true → buf' = []) ∧
    parseValue fuel 0 t (zero t) (mkDec (b ++ rest) off buf) =
    Ret (mkPv true None w) (mkDec rest (off + Z.of_nat (List.length b)) buf').

Lemma parseStringLength_complete n t c rest off : 0 ≤ n ≤ maxLen → AppendInt n = c :: t →
  parseStringLength 0 (mkDec (t ++ 58 :: rest) off [c]) = Ret (Good n) (mkDec rest (off + Z.of_nat (List.length t) + 1) []).
Proof.
  intros Hn E. assert (H63 : maxLen < 2 ^ 63) by done. unfold parseStringLength. erewrite bind_Ret by done. erewrite bind_Ret.
  2: { apply readUntil_app; [done|]. intros Ht. assert (58 ∈ AppendInt n) as Hin by (rewrite E; set_solver).
       apply AppendInt_chars in Hin as [|]; lia. }
  erewrite bind_Ret by done. cbn [dbuf app Offset]. rewrite <- E, checkBufferedInt_AppendInt. cbn [negb].
  unfold ParseInt. rewrite parseNumeral_AppendInt, (proj2 (Z.leb_le _ _)), (proj2 (Z.ltb_lt _ _)) by lia. cbn [andb].
  erewrite bind_Ret by done. change (getMaxStrLen 0) with maxLen. rewrite (proj2 (Z.ltb_ge _ _)) by lia. done.
Qed.

(** What a string is stored as. *)
Definition fromString (t : rty) (s : list Z) (v : rval) : option derr * rval :=
  match t with
  | TString => (None, VStr s)
  | TSlice (TUint W8) => (None, VSlice (Some (map VUint s)))
  | TArray n (TUint W8) =>
      match v with VArr l => (None, VArr (map VUint (take n s) ++ drop (List.length s) l)) | _ => (None, v) end
  | _ => (Some EType, v)
  end.

Lemma parseString_typed t v s : strOk s →
  ∃ c r, AppendInt (Z.of_nat (List.length s)) = c :: r ∧ isDigit c = true ∧
  ∀ rest off, parseString 0 t v (mkDec (r ++ 58 :: s ++ rest) off [c]) =
    Ret (fromString t s v) (mkDec rest (off + Z.of_nat (List.length r + 1 + List.length s)) []).
Proof.
  intros Hs. set (n := Z.of_nat (List.length s)) in *. assert (Hn : 0 ≤ n) by lia.
  destruct (AppendUint_head n Hn) as (c & r & E & Hc & _).
  assert (EI : AppendInt n = c :: r) by (unfold AppendInt; by rewrite (proj2 (Z.ltb_ge _ _))).
  exists c, r. split; [done|]. split; [by apply isDigit_range|]. intros rest off. unfold parseString.
  erewrite bind_Ret by (apply parseStringLength_complete; [|exact EI]; unfold strOk in Hs; lia). cbv beta iota.
  erewrite bind_Ret.
  2: { unfold readFull. cbn [drest Offset dbuf]. unfold n. rewrite Nat2Z.id, take_app_length, drop_app_length, Z.ltb_irrefl. done. }
  erewrite bind_Ret by done. unfold fromString. cbn [drest Offset dbuf]. unfold mret, M_ret, buf_Reset. f_equal.
  f_equal. lia.
Qed.

(** A string read as a value of a type that takes strings; the buffer is empty
    afterwards. *)
Lemma string_reads t s w rest off buf fuel : isPtr t = false → t ≠ TRaw → t ≠ TIface → strOk s → fromString t s (zero t) = (None, w) →
  (1 ≤ fuel)%nat →
  parseValue fuel 0 t (zero t) (mkDec (reflectString s ++ rest) off buf) =
  Ret (mkPv true None w) (mkDec rest (off + Z.of_nat (List.length (reflectString s))) []).
Proof.
  intros Hp Hr Hi Hs Hw Hf. destruct (parseString_typed t (zero t) s Hs) as (c & r & E & Hc & Hread). apply isDigit_range in Hc as Hr'.
  rewrite reflectString_spec, E. destruct fuel as [|fuel]; [lia|].
  transitivity (parsePlain 0 (parseDict fuel 0) (parseList fuel 0) t (zero t) (mkDec (((c :: r) ++ 58 :: s) ++ rest) off buf)).
  { by destruct t. }
  unfold parsePlain. cbn [drest app Offset dbuf].
  rewrite !(proj2 (Z.eqb_neq _ _)) by lia. rewrite (proj2 (isDigit_range c) Hr'). erewrite bind_Ret by done.
  erewrite bind_Ret by done. cbn [drest Offset dbuf app]. rewrite <- app_assoc. cbn [app]. erewrite bind_Ret by apply Hread.
  unfold okPv. rewrite Hw. unfold mret, M_ret. cbn [fst snd]. f_equal. f_equal. cbn [List.length]. rewrite length_app. cbn. lia.
Qed.

Lemma length_reflectString s : (2 ≤ List.length (reflectString s))%nat.
Proof.
  rewrite reflectString_spec, length_app. cbn. destruct (AppendUint_head (Z.of_nat (List.length s))) as (c & r & E & _); [lia|].
  unfold AppendInt. rewrite (proj2 (Z.ltb_ge _ _)), E by lia. cbn. lia.
Qed.

Lemma reads_string t s w : isPtr t = false → t ≠ TRaw → t ≠ TIface → strOk s → fromString t s (zero t) = (None, w) →
  readsT t w (reflectString s).
Proof.
  intros Hp Hr Hi Hs Hw rest off buf fuel _ Hf. exists []. split; [done|]. pose proof (length_reflectString s).
  apply string_reads; try done. lia.
Qed.

Lemma bytes_vals l : Forall isByteVal l → map VUint (bytesOf l) = l.
Proof. unfold bytesOf. induction 1 as [|v l (n & -> & _) _ IH]; [done|]. cbn. by rewrite IH. Qed.

Lemma length_bytesOf l : List.length (bytesOf l) = List.length l.
Proof. apply length_map. Qed.

(** Integers and booleans. *)
Lemma readInt_complete n rest off :
  readInt (mkDec (AppendInt n ++ 101 :: rest) off []) =
  Ret None (mkDec rest (off + Z.of_nat (List.length (AppendInt n)) + 1) (AppendInt n)).
Proof.
  unfold readInt. erewrite bind_Ret; [|apply readUntil_app; [done|]; intros [?|?]%AppendInt_chars; lia].
  erewrite bind_Ret by done. cbn [dbuf app]. by rewrite checkBufferedInt_AppendInt.
Qed.

Lemma reads_number t n w : t ≠ TRaw → t ≠ TIface → isPtr t = false → needsClean t = true →
  (∀ off rest, parseInt t (zero t) (mkDec (AppendInt n ++ 101 :: rest) off []) =
     Ret (None, w) (mkDec rest (off + Z.of_nat (List.length (AppendInt n)) + 1) [])) →
  readsT t w (105 :: AppendInt n ++ [101]).
Proof.
  intros Hr Hi Hp Hc Hw rest off buf fuel Hb Hf. rewrite (Hb Hc). exists []. split; [done|].
  destruct fuel as [|fuel]; [cbn in Hf; lia|].
  transitivity (parsePlain 0 (parseDict fuel 0) (parseList fuel 0) t (zero t) (mkDec ((105 :: AppendInt n ++ [101]) ++ rest) off [])).
  { by destruct t. }
  unfold parsePlain. cbn [drest app Offset dbuf Z.eqb Pos.eqb]. rewrite <- app_assoc. cbn [app].
  erewrite bind_Ret by apply Hw. unfold okPv, mret, M_ret. cbn [fst snd]. do 2 f_equal.
  cbn [List.length]. rewrite length_app. cbn. lia.
Qed.

Lemma inRangeInt_i64 w n : inRangeInt w n = true → (- 2 ^ 63 <=? n) && (n <? 2 ^ 63) = true.
Proof. unfold inRangeInt. destruct w; cbn -[Z.pow]; rewrite !andb_true_iff, !Z.leb_le, !Z.ltb_lt; lia. Qed.

Lemma inRangeUint_u64 w n : inRangeUint w n = true → (n <? 2 ^ 64) = true.
Proof. unfold inRangeUint. destruct w; cbn -[Z.pow]; rewrite !Z.ltb_lt; lia. Qed.

Lemma AppendUint_AppendInt n : 0 ≤ n → AppendUint n = AppendInt n.
Proof. intros Hn. unfold AppendInt. by rewrite (proj2 (Z.ltb_ge _ _)). Qed.

Lemma readsT_int w n : inRangeInt w n = true → readsT (TInt w) (VInt n) (105 :: AppendInt n ++ [101]).
Proof.
  intros Hn. apply reads_number; try done. intros off rest. unfold parseInt. erewrite bind_Ret by done.
  erewrite bind_Ret by apply readInt_complete. cbv beta iota. erewrite bind_Ret by done. cbn [dbuf].
  unfold ParseInt. rewrite parseNumeral_AppendInt, (inRangeInt_i64 _ _ Hn). cbv iota. rewrite Hn. done.
Qed.

Lemma reads_uint w n : 0 ≤ n → inRangeUint w n = true → readsT (TUint w) (VUint n) (105 :: AppendInt n ++ [101]).
Proof.
  intros H0 Hn. apply reads_number; try done. intros off rest. unfold parseInt. erewrite bind_Ret by done.
  erewrite bind_Ret by apply readInt_complete. cbv beta iota. erewrite bind_Ret by done. cbn [dbuf].
  unfold ParseUint. rewrite <- (AppendUint_AppendInt n H0), (parseDigits_AppendUint n H0), (inRangeUint_u64 _ _ Hn).
  cbv iota. rewrite Hn. done.
Qed.

Lemma reads_bool b : readsT TBool (VBool b) (105 :: AppendInt (if b then 1 else 0) ++ [101]).
Proof.
  apply reads_number; try done. intros off rest. unfold parseInt. erewrite bind_Ret by done.
  erewrite bind_Ret by apply readInt_complete. cbv beta iota. erewrite bind_Ret by done. cbn [dbuf].
  by destruct b.
Qed.

(** A value of dynamic type. *)
Lemma reads_iface i : ival_wf 0 i → readsT TIface (VIface (Some (canon i))) (reflectValue i).
Proof.
  intros [Hok E]%canon_ok rest off buf fuel Hb Hf. rewrite (Hb eq_refl). exists []. split; [done|].
  pose proof (reflectValue_length i). destruct fuel as [|fuel]; [lia|]. cbn [parseValue parseDirect].
  rewrite <- E in *. erewrite bind_Ret; [|apply (parse_complete 0 ltac:(lia) _ Hok); lia]. done.
Qed.

(** ** Reading raw values *)
Definition rawReads (b : list Z) : Prop :=
  ∀ rest off buf fuel, (3 * (List.length b + List.length rest) ≤ fuel)%nat →
  readOneValue fuel (mkDec (b ++ rest) off buf) = Ret true (mkDec rest (off + Z.of_nat (List.length b)) (buf ++ b)).

Lemma rawReads_int n : rawReads (105 :: AppendInt n ++ [101]).
Proof.
  intros rest off buf [|fuel] Hf; [cbn in Hf; lia|]. cbn [readOneValue drest app Z.eqb Pos.eqb Offset dbuf orb]. erewrite bind_Ret by done.
  rewrite <- app_assoc. cbn [app drest Offset dbuf].
  erewrite bind_Ret by (apply readUntil_app; [done|]; intros [?|?]%AppendInt_chars; lia).
  erewrite bind_Ret by done. unfold mret, M_ret. cbn [drest Offset dbuf]. f_equal. f_equal.
  - cbn [List.length]. rewrite length_app. cbn. lia.
  - by rewrite <- !app_assoc.
Qed.

Lemma rawReads_str s : strOk s → rawReads (reflectString s).
Proof.
  intros Hs rest off buf fuel Hf. set (n := Z.of_nat (List.length s)) in *. assert (Hn : 0 ≤ n) by lia.
  assert (H63 : maxLen < 2 ^ 63) by done. unfold strOk in Hs.
  destruct (AppendUint_head n Hn) as (c & r & E & Hc & _).
  assert (EI : AppendInt n = c :: r) by (unfold AppendInt; by rewrite (proj2 (Z.ltb_ge _ _))).
  rewrite reflectString_spec in *. fold n in Hf |- *. rewrite EI in *. destruct fuel as [|fuel]; [cbn in Hf; lia|].
  cbn [readOneValue drest app Offset dbuf]. rewrite !(proj2 (Z.eqb_neq _ _)) by lia. rewrite (proj2 (isDigit_range c) Hc). cbn [orb].
  erewrite bind_Ret by done. erewrite bind_Ret by done. cbn [drest Offset dbuf]. rewrite <- app_assoc. cbn [app].
  erewrite bind_Ret.
  2: { apply readUntil_app; [done|]. intros Ht. assert (58 ∈ AppendInt n) as Hin by (rewrite EI; set_solver).
       apply AppendInt_chars in Hin as [|]; lia. }
  do 2 (erewrite bind_Ret by done). cbn [drest Offset dbuf].
  replace (drop _ _) with (AppendInt n).
  2: { rewrite EI, length_app, <- app_assoc. cbn [List.length]. replace (_ - 1)%nat with (List.length buf) by lia. by rewrite drop_app_length. }
  unfold ParseInt. rewrite parseNumeral_AppendInt, (proj2 (Z.leb_le _ _)), (proj2 (Z.ltb_lt _ _)) by lia. cbn [andb].
  erewrite bind_Ret by done. cbn [drest Offset dbuf].
  erewrite bind_Ret.
  2: { unfold readFull. cbn [drest Offset dbuf]. unfold n. rewrite Nat2Z.id, take_app_length, drop_app_length, Z.ltb_irrefl. done. }
  erewrite bind_Ret by done. unfold mret, M_ret. cbn [drest Offset dbuf]. f_equal. f_equal.
  - cbn [List.length]. rewrite length_app. cbn. lia.
  - rewrite <- !app_assoc. done.
Qed.

Lemma rawReads_end fuel rest off buf : readOneValue (S fuel) (mkDec (101 :: rest) off buf) = Ret false (mkDec (101 :: rest) off buf).
Proof. done. Qed.

Lemma rawReads_values bs_ : Forall rawReads bs_ → Forall (λ b, b ≠ []) bs_ → ∀ rest off buf fuel,
  (3 * (List.length (List.concat bs_) + 1 + List.length rest) + 2 ≤ fuel)%nat →
  readValues fuel (mkDec (List.concat bs_ ++ 101 :: rest) off buf) =
  Ret tt (mkDec (101 :: rest) (off + Z.of_nat (List.length (List.concat bs_))) (buf ++ List.concat bs_)).
Proof.
  induction 1 as [|b bs_ Hb Hbs IH]; intros Hne rest off buf [|fuel] Hf; try (cbn in Hf; lia); cbn [readValues List.concat app].
  - destruct fuel; [cbn in Hf; lia|]. erewrite bind_Ret by apply rawReads_end. cbn. rewrite app_nil_r, Z.add_0_r. done.
  - inversion Hne as [|? ? Hne1 Hne2]; subst. cbn [List.concat] in Hf. rewrite length_app in Hf.
    assert (1 ≤ List.length b)%nat by (destruct b; cbn; [done|lia]).
    rewrite <- app_assoc. erewrite bind_Ret by (apply Hb; rewrite length_app; cbn; lia). cbv iota.
    rewrite IH by (done || lia). f_equal. f_equal; [rewrite length_app; lia|by rewrite app_assoc].
Qed.

Lemma rawReads_wrap c bs_ : c = 100 ∨ c = 108 → Forall rawReads bs_ → Forall (λ b, b ≠ []) bs_ → rawReads (c :: List.concat bs_ ++ [101]).
Proof.
  intros Hc Hb Hne rest off buf [|fuel] Hf; [cbn in Hf; lia|]. cbn [readOneValue drest app Offset dbuf].
  rewrite (proj2 (Z.eqb_neq c 101)) by lia.
  assert ((c =? 100) || (c =? 108) = true) as -> by (destruct Hc as [-> | ->]; done).
  erewrite bind_Ret by done. cbn [drest Offset dbuf]. rewrite <- app_assoc. cbn [app].
  cbn [List.length] in Hf. rewrite length_app in Hf. cbn in Hf.
  erewrite bind_Ret by (apply rawReads_values; [done|done|lia]).
  erewrite bind_Ret by done. erewrite bind_Ret by done. unfold mret, M_ret. cbn [drest Offset dbuf]. f_equal. f_equal.
  - cbn [List.length]. rewrite length_app. cbn. lia.
  - rewrite <- !app_assoc. done.
Qed.

Lemma reflectValue_ne v : reflectValue v ≠ [].
Proof. intros E. pose proof (reflectValue_length v) as H. rewrite E in H. cbn in H. lia. Qed.

Lemma entries_concat d : entries d = List.concat (map reflectValue (flat_map (λ e, [IStr e.1; e.2]) d)).
Proof. unfold entries. induction d as [|e d IH]; [done|]. cbn. by rewrite IH, app_assoc. Qed.

Lemma rawReads_Marshal v : ival_ok 0 v → rawReads (Marshal v).
Proof.
  unfold Marshal. induction v as [n|n|s|l IH|d IH] using ival_ind'; intros Hok.
  - rewrite reflectValue_spec. apply rawReads_int.
  - rewrite reflectValue_spec. apply rawReads_int.
  - inversion Hok as [m Hm| | |]; [unfold int_val in Hm; by destruct (_ && _)|]. by apply rawReads_str.
  - inversion Hok as [m Hm| |l' Hl Heq|]; [unfold int_val in Hm; by destruct (_ && _)|]. subst. rewrite reflectValue_spec.
    apply rawReads_wrap; [by right| |]; apply Forall_map, Forall_forall; intros v Hv; [|apply reflectValue_ne].
    rewrite Forall_forall in IH, Hl. auto.
  - inversion Hok as [m Hm| | |d' Hs Hd Heq]; [unfold int_val in Hm; by destruct (_ && _)|]. subst.
    rewrite reflectValue_dict, entries_concat by done.
    apply rawReads_wrap; [by left| |]; apply Forall_map, Forall_forall; intros v Hv; [|apply reflectValue_ne].
    apply list_elem_of_In, in_flat_map in Hv as (e & He & Hv). apply list_elem_of_In in He.
    rewrite Forall_forall in IH, Hd. destruct (Hd e He) as [Hk Hev]. destruct Hv as [<-|[<-|[]]]; [by apply rawReads_str|]. by apply IH.
Qed.

Lemma reads_raw b : b ≠ [] → rawReads b → readsT TRaw (VRaw b) b.
Proof.
  intros Hne Hb rest off buf fuel _ Hf. exists b. split; [done|]. assert (1 ≤ List.length b)%nat by (destruct b; cbn; [done|lia]).
  destruct fuel as [|fuel]; [lia|]. cbn [parseValue parseDirect]. erewrite bind_Ret by done. cbn [drest Offset dbuf].
  erewrite bind_Ret by (apply Hb; lia). cbv iota. erewrite bind_Ret by done. done.
Qed.

(** ** Reading lists and dictionaries *)
Lemma readsT_end e : isIface e = false → ∀ rest off buf fuel, (2 ≤ fuel)%nat → (needsClean e = true → buf = []) →
  ∃ w buf', (needsClean e = true → buf' = []) ∧
    parseValue fuel 0 e (zero e) (mkDec (101 :: rest) off buf) = Ret (mkPv false None w) (mkDec rest (off + 1) buf').
Proof.
  intros Hi rest off buf [|[|fuel]] Hf Hb; [lia..|].
  assert (Hplain : ∀ t v, parsePlain 0 (parseDict (S fuel) 0) (parseList (S fuel) 0) t v (mkDec (101 :: rest) off buf) =
    Ret (mkPv false None v) (mkDec rest (off + 1) buf)) by done.
  destruct e as [w|w| | |t|n t|t|fs| |t| |]; cbn [parseValue zero]; try done;
    try (eexists _, buf; split; [exact Hb|apply Hplain]).
  - assert (Hr : parseDirect (S fuel) 0 (parseDict (S fuel) 0) (parseList (S fuel) 0) TRaw (VRaw []) (mkDec (101 :: rest) off buf) =
      Ret (mkPv false None (VRaw [])) (mkDec rest (off + 1) [])) by (cbn [parseDirect]; by erewrite bind_Ret by done).
    assert (Hrp : parseDirect (S fuel) 0 (parseDict (S fuel) 0) (parseList (S fuel) 0) (TPtr TRaw) (VPtr None) (mkDec (101 :: rest) off buf) =
      Ret (mkPv false None (VPtr None)) (mkDec rest (off + 1) [])) by (cbn [parseDirect]; by erewrite bind_Ret by done).
    destruct t as [| | | | | | | | |[]| |]; try done;
      first [ eexists _, buf; split; [exact Hb|erewrite bind_Ret by apply Hplain; reflexivity]
            | eexists _, []; split; [done|erewrite bind_Ret by exact Hr; reflexivity]
            | eexists _, []; split; [done|erewrite bind_Ret by exact Hrp; reflexivity] ].
  - exists (VRaw []), []. split; [done|]. cbn [parseDirect]. by erewrite bind_Ret by done.
Qed.

Lemma insert_middle {A} (l k : list A) x y : <[List.length l := y]> (l ++ x :: k) = l ++ y :: k.
Proof. by rewrite insert_app_r_alt, Nat.sub_diag. Qed.

Lemma reads_elems e ws bs_ : isIface e = false → Forall2 (readsT e) ws bs_ → Forall (λ b, b ≠ []) bs_ →
  ∀ l rest off buf fuel, (needsClean e = true → buf = []) →
  (4 * (List.length (List.concat bs_) + 1 + List.length rest) + 1 ≤ fuel)%nat →
  ∃ w buf', (needsClean e = true → buf' = []) ∧
    parseElems fuel 0 e true (List.length l) l (mkDec (List.concat bs_ ++ 101 :: rest) off buf) =
    Ret (None, List.length (l ++ ws), l ++ ws ++ [w])
      (mkDec rest (off + Z.of_nat (List.length (List.concat bs_)) + 1) buf').
Proof.
  intros Hi. induction 1 as [|w b ws bs_ Hw Hws IH]; intros Hne l rest off buf [|fuel] Hb Hf; try (cbn in Hf; lia);
    cbn [parseElems List.concat app andb]; rewrite Nat.leb_refl, list_lookup_middle by done.
  - destruct (readsT_end e Hi rest off buf fuel) as (w & buf' & Hb' & E); [cbn in Hf; lia|done|].
    exists w, buf'. split; [done|]. erewrite bind_Ret by exact E. cbv beta iota. cbn [pvErr pvOk pvVal].
    rewrite insert_middle. rewrite !app_nil_r. cbn. unfold mret, M_ret. do 2 f_equal. lia.
  - inversion Hne as [|? ? Hne1 Hne2]; subst. cbn [List.concat] in Hf. rewrite length_app in Hf.
    assert (1 ≤ List.length b)%nat by (destruct b; cbn; [done|lia]).
    rewrite <- app_assoc. destruct (Hw (List.concat bs_ ++ 101 :: rest) off buf fuel Hb) as (buf1 & Hb1 & E).
    { rewrite length_app. cbn. lia. }
    destruct (IH Hne2 (l ++ [w]) rest (off + Z.of_nat (List.length b)) buf1 fuel Hb1) as (w2 & buf2 & Hb2 & E2); [lia|].
    exists w2, buf2. split; [done|]. erewrite bind_Ret by exact E. cbv beta iota. cbn [pvErr pvOk pvVal].
    rewrite insert_middle. replace (S (List.length l)) with (List.length (l ++ [w])) by (rewrite length_app; cbn; lia).
    rewrite E2, <- !app_assoc. cbn [app]. unfold mret, M_ret. do 2 f_equal. rewrite length_app. lia.
Qed.

Lemma reads_slice e ws bs_ : isIface e = false → Forall2 (readsT e) ws bs_ → Forall (λ b, b ≠ []) bs_ →
  readsT (TSlice e) (VSlice (Some ws)) (108 :: List.concat bs_ ++ [101]).
Proof.
  intros Hi Hws Hne rest off buf [|[|fuel]] Hb Hf; [cbn in Hf; lia..|].
  cbn [List.length] in Hf. rewrite length_app in Hf. cbn in Hf.
  destruct (reads_elems e ws bs_ Hi Hws Hne [] rest (off + 1) buf fuel Hb) as (w & buf' & Hb' & E); [lia|].
  exists buf'. split; [done|]. cbn [parseValue parseDirect zero]. unfold parsePlain. cbn [drest app Offset dbuf Z.eqb Pos.eqb].
  rewrite <- app_assoc. cbn [app]. erewrite bind_Ret.
  2: { cbn [parseList default]. erewrite bind_Ret by exact E. cbv beta iota. cbn [app]. by rewrite take_app_length. }
  unfold okPv, mret, M_ret. cbn [fst snd]. do 2 f_equal. cbn [List.length]. rewrite length_app. cbn. lia.
Qed.

(** An entry of a dictionary that is read: key, value and bytes. *)
Definition item : Type := (list Z * rval * list Z)%type.

Definition itemBytes (e : item) : list Z := reflectString e.1.1 ++ e.2.

Definition itemOk (t : rty) (e : item) : Prop :=
  strOk e.1.1 ∧ ∃ ty, readsT ty e.1.2 e.2 ∧ (getDictField t e.1.1 = FMap ty ∨ ∃ i tag, getDictField t e.1.1 = FStruct i ty tag).

Definition setItems (t : rty) (v : rval) (items : list item) : rval :=
  foldl (λ v e, dictSet (getDictField t e.1.1) e.1.1 e.1.2 v) v items.

Lemma reads_key s : strOk s → readsT TString (VStr s) (reflectString s).
Proof. intros Hs. by apply reads_string. Qed.

Lemma readsT_dict t items : Forall (itemOk t) items → ∀ v rest off buf fuel,
  (4 * (List.length (List.concat (map itemBytes items)) + 1 + List.length rest) + 1 ≤ fuel)%nat →
  ∃ buf', parseDict fuel 0 t v (mkDec (List.concat (map itemBytes items) ++ 101 :: rest) off buf) =
    Ret (None, setItems t v items) (mkDec rest (off + Z.of_nat (List.length (List.concat (map itemBytes items))) + 1) buf').
Proof.
  induction 1 as [|[[k x] b] items (Hk & ty & Hx & Hty) Hitems IH]; intros v rest off buf [|fuel] Hf; try (cbn in Hf; lia); cbn [parseDict map List.concat].
  - destruct (readsT_end TString eq_refl rest off buf fuel) as (w & buf' & _ & E); [cbn in Hf; lia|done|].
    exists buf'. erewrite bind_Ret by exact E. cbn. unfold mret, M_ret. do 2 f_equal. lia.
  - cbn [fst snd] in *. set (more := List.concat (map itemBytes items)) in *. unfold itemBytes at 1. cbn [fst snd].
    cbn [map List.concat] in Hf. fold more in Hf. unfold itemBytes in Hf. cbn [fst snd] in Hf. rewrite !length_app in Hf.
    assert (Hk1 : (1 ≤ List.length (reflectString k))%nat) by (rewrite reflectString_spec, length_app; cbn; lia).
    pose proof (length_reflectString k). rewrite <- !app_assoc.
    destruct (Hx (more ++ 101 :: rest) (off + Z.of_nat (List.length (reflectString k))) [] fuel) as (buf1 & _ & E1); [done|rewrite !length_app; cbn; lia|].
    destruct (IH (dictSet (getDictField t k) k x v) rest (off + Z.of_nat (List.length (reflectString k)) + Z.of_nat (List.length b)) buf1 fuel) as (buf2 & E2); [lia|].
    exists buf2. erewrite bind_Ret by (apply (string_reads TString k (VStr k)); done || lia). cbv beta iota. cbn [pvErr pvOk pvVal].
    transitivity (parseDict fuel 0 t (dictSet (getDictField t k) k x v)
      (mkDec (more ++ 101 :: rest) (off + Z.of_nat (List.length (reflectString k)) + Z.of_nat (List.length b)) buf1)).
    + destruct Hty as [-> |(i & tag & ->)]; (erewrite bind_Ret by exact E1); done.
    + rewrite E2. unfold setItems. cbn [foldl fst snd]. do 2 f_equal. unfold itemBytes. cbn [fst snd]. rewrite !length_app. lia.
Qed.

(** ** Structs and maps *)
Lemma reads_dictT t w items : match t with TMap _ | TStruct _ => True | _ => False end →
  Forall (itemOk t) items → setItems t (zero t) items = w →
  readsT t w (100 :: List.concat (map itemBytes items) ++ [101]).
Proof.
  intros Ht Hitems <- rest off buf [|[|fuel]] _ Hf; [cbn in Hf; lia..|].
  cbn [List.length] in Hf. rewrite length_app in Hf. cbn in Hf.
  destruct (readsT_dict t items Hitems (zero t) rest (off + 1) buf (S fuel)) as (buf' & E); [lia|].
  exists buf'. split; [by destruct t|].
  transitivity (parsePlain 0 (parseDict (S fuel) 0) (parseList (S fuel) 0) t (zero t)
    (mkDec ((100 :: List.concat (map itemBytes items) ++ [101]) ++ rest) off buf)).
  { by destruct t. }
  unfold parsePlain. cbn [drest app Offset dbuf Z.eqb Pos.eqb].
  rewrite <- app_assoc. cbn [app]. erewrite bind_Ret by exact E.
  unfold okPv, mret, M_ret. cbn [fst snd]. do 2 f_equal. cbn [List.length]. rewrite length_app. cbn. lia.
Qed.

(** Storing entries with different keys in a map. *)
Lemma setKey_fresh k x d : k ∉ map fst d → setKey k x d = d ++ [(k, x)].
Proof.
  induction d as [|e d IH]; [done|]. cbn. intros H. rewrite bool_decide_false by set_solver. rewrite IH by set_solver. done.
Qed.

Lemma setItems_map t items : NoDup (map (λ e : item, e.1.1) items) → ∀ d,
  (∀ k, k ∈ map (λ e : item, e.1.1) items → k ∉ map fst d) →
  setItems (TMap t) (VMap (Some d)) items = VMap (Some (d ++ map fst items)).
Proof.
  induction items as [|[[k x] b] items IH]; intros Hn d Hd; [cbn; by rewrite app_nil_r|].
  apply NoDup_cons in Hn as [Hk Hn]. cbn [fst] in Hk.
  change (setItems (TMap t) (VMap (Some d)) ((k, x, b) :: items)) with (setItems (TMap t) (VMap (Some (setKey k x d))) items).
  rewrite setKey_fresh by (apply Hd; cbn; set_solver). rewrite IH; [cbn; by rewrite <- app_assoc|done|].
  intros k' Hk'. rewrite map_app. cbn [map fst]. specialize (Hd k'). cbn [map fst] in Hd. set_solver.
Qed.

Lemma setItems_empty_map t items : NoDup (map (λ e : item, e.1.1) items) →
  setItems (TMap t) (VMap None) items = VMap (match items with [] => None | _ => Some (map fst items) end).
Proof.
  destruct items as [|[[k x] b] items]; [done|]. intros [Hk Hn]%NoDup_cons. cbn in Hk.
  change (setItems (TMap t) (VMap None) ((k, x, b) :: items)) with (setItems (TMap t) (VMap (Some [(k, x)])) items).
  rewrite setItems_map; [done|done|]. intros k' Hk' Hin. cbn in Hin. apply list_elem_of_singleton in Hin as ->. done.
Qed.

(** The two directions agree on the fields of a struct. *)
Lemma parseStructFields_keys fs : forallb (λ f, tagOk f.1) fs = true → ∀ k,
  map (λ e, (e.1, e.2.1.1)) (parseStructFields k fs) = map (λ e, (e.1, e.2.1)) (encodeFields k fs).
Proof.
  induction fs as [|[f t] fs IH]; [done|]. cbn [forallb fst]. intros [Hf Hfs]%andb_true_iff k.
  cbn [parseStructFields encodeFields]. unfold tagOk in Hf. apply eqb_prop in Hf. rewrite <- Hf.
  case_bool_decide; [by apply IH|]. cbn. by rewrite IH.
Qed.

Lemma getField fs key i omit : fieldsOk fs = true → (key, (i, omit)) ∈ encodeFields 0 fs →
  ∃ f t tag, fs !! i = Some (f, t) ∧ getDictField (TStruct fs) key = FStruct i t tag.
Proof.
  intros [[Htags Hn%bool_decide_eq_true]%andb_true_iff _]%andb_true_iff Hin.
  pose proof (parseStructFields_keys fs Htags 0) as Hk.
  assert (Hn' : NoDup (map fst (parseStructFields 0 fs))).
  { apply (f_equal (map fst)) in Hk. rewrite !map_map in Hk. cbn in Hk. unfold fst in *. by rewrite Hk. }
  assert (Hp : (key, i) ∈ map (λ e, (e.1, e.2.1.1)) (parseStructFields 0 fs)).
  { rewrite Hk. apply (list_elem_of_fmap_2' _ _ (key, (i, omit))); done. }
  apply list_elem_of_fmap in Hp as ([key' [[i' t] tag]] & [= -> ->] & Hp).
  destruct (parseStructFields_lookup _ _ _ _ _ _ Hp) as (j & f & -> & Hf). cbn in Hf.
  exists f, t, tag. split; [done|]. cbn [getDictField]. unfold getStructFieldForKey.
  destruct (list_find _ _) as [[n e]|] eqn:Ef.
  - apply list_find_Some in Ef as (He & Hkey & _). apply bool_decide_unpack in Hkey. apply list_elem_of_lookup_2 in He.
    rewrite elem_of_reverse in He. destruct e as [k2 [[i2 t2] tag2]]. cbn in *. subst k2.
    assert (Heq : (i2, t2, tag2) = (j, t, tag)); [|by injection Heq as -> -> ->].
    apply list_elem_of_lookup in He as [a Ha], Hp as [c Hc].
    assert (a = c) as ->. { eapply NoDup_lookup; [exact Hn'|..]; rewrite list_lookup_fmap; [rewrite Ha|rewrite Hc]; done. }
    congruence.
  - exfalso. apply list_find_None in Ef. rewrite Forall_forall in Ef. apply (Ef (key', (0 + j, t, tag)%nat)).
    + by rewrite elem_of_reverse.
    + by apply bool_decide_pack.
Qed.

(** ** What the encoder writes *)
Lemma eapp_Some a b c : eapp a b = Ok (Some c) → ∃ x y, a = Ok (Some x) ∧ b = Ok (Some y) ∧ c = x ++ y.
Proof. unfold eapp. destruct a as [[x|]|]; cbn; [|done|done]. destruct b as [[y|]|]; cbn; [|done|done]. intros [= <-]. eauto. Qed.

Lemma econcat_Some {A} (F : A → go (option (list Z))) (g : A → list Z) es b :
  (∀ e x, e ∈ es → F e = Ok (Some x) → x = g e) → econcat (map F es) = Ok (Some b) →
  Forall (λ e, F e = Ok (Some (g e))) es ∧ b = List.concat (map g es).
Proof.
  revert b. induction es as [|e es IH]; intros b Hg H; cbn in H; [injection H as <-; by split|].
  apply eapp_Some in H as (x & y & Hx & Hy & ->). apply IH in Hy as [Hall ->].
  - pose proof (Hg e x (list_elem_of_here _ _) Hx) as ->. split; [by constructor|done].
  - intros e' x' He'. apply Hg. by right.
Qed.

Lemma ewrite_id s : ewrite s = Ok (Some s).
Proof. unfold ewrite. by rewrite writeString_id. Qed.

(** Storing fields of a struct. *)
Definition ins (zs : list rval) (us : list (nat * rval)) : list rval := foldl (λ l u, <[u.1 := u.2]> l) zs us.

Lemma ins_perm us us' : us ≡ₚ us' → NoDup (map fst us) → ∀ zs, ins zs us = ins zs us'.
Proof.
  induction 1 as [|u us us' _ IH|u u' us|us us' us'' H1 IH1 _ IH2]; intros Hn zs; [done| | |].
  - apply NoDup_cons in Hn as [_ Hn]. cbn. by apply IH.
  - cbn in *. apply NoDup_cons in Hn as [Hu _]. f_equal. apply list_insert_insert_ne. set_solver.
  - rewrite IH1 by done. apply IH2. by rewrite <- H1.
Qed.

Section RoundTrip.
Context (isEmptyValue : rval → bool).
Notation reflectTyped := (BencodeTyped.reflectTyped isEmptyValue).
Notation canonT := (canonT isEmptyValue).
Notation canonField := (canonField isEmptyValue).
Notation fieldSkipped := (fieldSkipped isEmptyValue).

Lemma wfv_zero t : codable t = true → wfv t (zero t).
Proof.
  induction t as [w|w| | |t IH|n t IH|t IH|fs IH| |t IH| |] using rty_ind'; cbn [codable]; intros Hc; try done.
  - by destruct w.
  - cbn. split; [lia|]. by destruct w.
  - cbn. destruct t as [|[]| | | | | | | | | |]; by constructor.
  - destruct t as [|[]| | | | | | | | | |]; try done. cbn. rewrite length_replicate. split; [done|].
    apply Forall_replicate. by exists 0.
  - cbn. split; constructor.
  - apply andb_true_iff in Hc as [_ Hc]. cbn [zero]. apply wfv_struct. apply Forall2_fmap_r, Forall_Forall2_diag.
    apply Forall_forall. intros f Hf. rewrite Forall_forall in IH. apply IH; [done|]. rewrite forallb_forall in Hc. apply Hc. by apply list_elem_of_In.
  - cbn. by left.
Qed.

Lemma reflect_struct fs l :
  reflectTyped (TStruct fs) (VStruct l) =
  eapp (ewrite [100])
    (eapp (econcat (map (λ e : list Z * (nat * bool),
             if e.2.2 && match l !! e.2.1 with Some x => isEmptyValue x | None => true end then Ok (Some [])
             else eapp (Ok (Some (reflectString e.1))) (default (Ok None) (zip_with (λ f v, reflectTyped f.2 v) fs l !! e.2.1)))
           (makeEncodeFields fs)))
       (ewrite [101])).
Proof.
  cbn [BencodeTyped.reflectTyped].
  assert (E : (fix go (fs : list (fld * rty)) (l : list rval) : list (go (option (list Z))) :=
     match fs, l with (_, t) :: fs, v :: l => reflectTyped t v :: go fs l | _, _ => [] end) fs l = zip_with (λ f v, reflectTyped f.2 v) fs l).
  { revert l. induction fs as [|[f t] fs IH]; intros [|v l]; try done. cbn. by rewrite IH. }
  rewrite E. do 3 f_equal. apply map_ext. by intros [key [i omit]].
Qed.

(** The bytes of a field. *)
Definition encB (t : rty) (v : rval) : list Z := match reflectTyped t v with Ok (Some b) => b | _ => [] end.

Definition itemsOf (fs : list (fld * rty)) (l : list rval) (e : list Z * (nat * bool)) : list item :=
  match fs !! e.2.1, l !! e.2.1 with
  | Some (f, t), Some v => if e.2.2 && isEmptyValue v then [] else [(e.1, canonT t v, encB t v)]
  | _, _ => []
  end.

Definition updOf (fs : list (fld * rty)) (l : list rval) (e : list Z * (nat * bool)) : list (nat * rval) :=
  match fs !! e.2.1, l !! e.2.1 with
  | Some (f, t), Some v => if e.2.2 && isEmptyValue v then [] else [(e.2.1, canonT t v)]
  | _, _ => []
  end.

Fixpoint upds (k : nat) (fs : list (fld * rty)) (l : list rval) : list (nat * rval) :=
  match fs, l with
  | (f, t) :: fs, v :: l => (if fieldSkipped f v then [] else [(k, canonT t v)]) ++ upds (S k) fs l
  | _, _ => []
  end.

Lemma upds_encode fs : ∀ fs0 l0 l, List.length fs0 = List.length l0 → List.length fs = List.length l →
  flat_map (updOf (fs0 ++ fs) (l0 ++ l)) (encodeFields (List.length fs0) fs) = upds (List.length fs0) fs l.
Proof.
  induction fs as [|[f t] fs IH]; intros fs0 l0 [|v l] H0 Hl; try done. cbn [encodeFields upds].
  specialize (IH (fs0 ++ [(f, t)]) (l0 ++ [v]) l). rewrite !length_app, <- !app_assoc in IH. cbn [List.length app] in IH.
  rewrite Nat.add_1_r in IH. specialize (IH ltac:(lia) ltac:(by injection Hl)).
  unfold fieldSkipped. destruct (tag_Ignore _); cbn [orb]; [exact IH|].
  cbn [flat_map]. rewrite IH. f_equal. unfold updOf. cbn [fst snd]. rewrite list_lookup_middle by done. by rewrite list_lookup_middle by done.
Qed.

Lemma upds_above fs : ∀ k l u, u ∈ upds k fs l → (k ≤ u.1)%nat.
Proof.
  induction fs as [|[f t] fs IH]; intros k [|v l] u; cbn; try by intros ?%elem_of_nil.
  intros [Hu|Hu]%elem_of_app; [|apply IH in Hu; lia]. destruct (fieldSkipped f v); [by apply elem_of_nil in Hu|].
  apply list_elem_of_singleton in Hu as ->. done.
Qed.

Lemma upds_nodup fs : ∀ k l, NoDup (map fst (upds k fs l)).
Proof.
  induction fs as [|[f t] fs IH]; intros k [|v l]; cbn; try constructor. destruct (fieldSkipped f v); cbn; [apply IH|].
  apply NoDup_cons. split; [|apply IH]. intros Hin. apply list_elem_of_fmap in Hin as (u & E & Hu). apply upds_above in Hu. lia.
Qed.

Lemma ins_upds fs : ∀ pre l, List.length fs = List.length l →
  ins (pre ++ map (λ f, zero f.2) fs) (upds (List.length pre) fs l) = pre ++ zip_with canonField fs l.
Proof.
  induction fs as [|[f t] fs IH]; intros pre [|v l] Hl; try done. cbn [upds map zip_with snd]. injection Hl as Hl.
  unfold canonField at 1. cbn [fst snd]. destruct (fieldSkipped f v); cbn [app].
  - specialize (IH (pre ++ [zero t]) l Hl). rewrite length_app, <- !app_assoc, Nat.add_1_r in IH. exact IH.
  - unfold ins. cbn [foldl fst snd]. rewrite insert_middle.
    specialize (IH (pre ++ [canonT t v]) l Hl). rewrite length_app, <- !app_assoc, Nat.add_1_r in IH. exact IH.
Qed.

Lemma setItems_struct fs l es : fieldsOk fs = true → (∀ e, e ∈ es → e ∈ encodeFields 0 fs) → ∀ zs,
  setItems (TStruct fs) (VStruct zs) (flat_map (itemsOf fs l) es) = VStruct (ins zs (flat_map (updOf fs l) es)).
Proof.
  intros Hok. induction es as [|e es IH]; intros Hes zs; [done|]. cbn [flat_map].
  unfold setItems, ins. rewrite !foldl_app. fold (ins zs (updOf fs l e)). fold (setItems (TStruct fs) (VStruct zs) (itemsOf fs l e)).
  assert (E : setItems (TStruct fs) (VStruct zs) (itemsOf fs l e) = VStruct (ins zs (updOf fs l e))).
  { destruct e as [key [i omit]]. destruct (getField fs key i omit Hok (Hes _ (list_elem_of_here _ _))) as (f & t & tag & Hf & Hg).
    unfold itemsOf, updOf. cbn [fst snd]. rewrite Hf. destruct (l !! i) as [v|]; [|done]. destruct (omit && isEmptyValue v); [done|].
    cbn [setItems foldl fst snd]. unfold setItems. cbn [foldl fst snd]. by rewrite Hg. }
  rewrite E. apply IH. intros e' He'. apply Hes. by right.
Qed.

Definition good (t : rty) : Prop := ∀ v b, codable t = true → wfv t v → reflectTyped t v = Ok (Some b) →
  b ≠ [] ∧ readsT t (canonT t v) b.

Lemma good_struct fs : Forall (λ f, good f.2) fs → good (TStruct fs).
Proof.
  intros IH v b Hc Hv Hb. destruct v as [| | | | | | |l| | | |]; try done. apply wfv_struct in Hv. rewrite reflect_struct in Hb.
  cbn [codable] in Hc. apply andb_true_iff in Hc as [Hok Hc]. rewrite forallb_forall in Hc.
  pose proof (Forall2_length _ _ _ Hv) as Hlen.
  apply eapp_Some in Hb as (? & c & E1 & Hb & ->). rewrite ewrite_id in E1. injection E1 as <-.
  apply eapp_Some in Hb as (body & ? & Hb & E1 & ->). rewrite ewrite_id in E1. injection E1 as <-.
  assert (Hfield : ∀ e, e ∈ makeEncodeFields fs → ∃ f t v, fs !! e.2.1 = Some (f, t) ∧ l !! e.2.1 = Some v ∧
     codable t = true ∧ wfv t v ∧ good t).
  { intros [key [i omit]] He. unfold makeEncodeFields in He. rewrite sortKeys_perm in He.
    destruct (getField fs key i omit Hok He) as (f & t & tag & Hf & _).
    destruct (Forall2_lookup_l _ _ _ _ _ Hv Hf) as (v & Hlv & Hwf). exists f, t, v. split_and!; try done.
    - apply (Hc (f, t)), list_elem_of_In. by eapply list_elem_of_lookup_2.
    - eapply (proj1 (Forall_lookup _ _) IH) in Hf. exact Hf. }
  apply (econcat_Some _ (λ e, List.concat (map itemBytes (itemsOf fs l e)))) in Hb as [Hall ->].
  - split; [done|]. rewrite <- (map_map (itemsOf fs l) (λ x, List.concat (map itemBytes x))).
    replace (List.concat _) with (List.concat (map itemBytes (flat_map (itemsOf fs l) (makeEncodeFields fs)))).
    2: { clear. induction (makeEncodeFields fs) as [|e es IH]; [done|]. cbn. by rewrite map_app, concat_app, IH. }
    apply reads_dictT; [done| |].
    + apply Forall_forall. intros it (e & He & Hit)%list_elem_of_In%in_flat_map. apply list_elem_of_In in He, Hit.
      destruct (Hfield e He) as (f & t & v & Hf & Hlv & Hct & Hwf & Hg). destruct e as [key [i omit]]. cbn [fst snd] in *.
      pose proof He as He'. unfold makeEncodeFields in He'. rewrite sortKeys_perm in He'.
      unfold itemsOf in Hit. cbn [fst snd] in Hit. rewrite Hf, Hlv in Hit.
      destruct (omit && isEmptyValue v) eqn:Eo; [by apply elem_of_nil in Hit|]. apply list_elem_of_singleton in Hit as ->.
      split; cbn [fst snd].
      * apply andb_true_iff in Hok as [_ Hk]. rewrite forallb_forall in Hk. apply list_elem_of_In in He'. specialize (Hk _ He'). by apply Z.leb_le in Hk.
      * exists t. split.
        -- rewrite Forall_forall in Hall. specialize (Hall _ He). cbn [fst snd] in Hall. rewrite Hlv, Eo in Hall.
           rewrite lookup_zip_with, Hf, Hlv in Hall. cbn [mbind option_bind default snd from_option id] in Hall.
           apply eapp_Some in Hall as (? & y & _ & Ey & _). unfold encB. rewrite Ey. by apply Hg.
        -- right. destruct (getField fs key i omit Hok He') as (f' & t' & tag & Hf' & Hgd). rewrite Hf in Hf'. injection Hf' as <- <-. eauto.
    + cbn [zero]. rewrite setItems_struct; [|done|].
      2: { intros e He. unfold makeEncodeFields in He. by rewrite sortKeys_perm in He. }
      rewrite canonT_struct. f_equal.
      pose proof (upds_encode fs [] [] l eq_refl Hlen) as Hu. cbn [app List.length] in Hu.
      rewrite (ins_perm _ (upds 0 fs l)).
      * by apply (ins_upds fs []).
      * rewrite <- Hu. unfold makeEncodeFields. by rewrite sortKeys_perm.
      * unfold makeEncodeFields. rewrite sortKeys_perm, Hu. apply upds_nodup.
  - intros e x He. destruct (Hfield e He) as (f & t & v & Hf & Hlv & _). unfold itemsOf. rewrite Hf, Hlv.
    destruct (e.2.2 && isEmptyValue v); [by intros [= <-]|]. rewrite lookup_zip_with, Hf, Hlv. cbn [mbind option_bind default snd from_option id].
    intros (? & y & [= <-] & Ey & ->)%eapp_Some. cbn. unfold itemBytes, encB. cbn [fst snd]. by rewrite Ey, app_nil_r.
Qed.

Lemma good_map t : good t → good (TMap t).
Proof.
  intros IH v b Hc Hv Hb. destruct v as [| | | | | |o| | | | |]; try done. cbn [codable] in Hc. destruct Hv as [Hn Hall].
  pose (items := map (λ e : list Z * rval, (e.1, canonT t e.2, encB t e.2) : item) (sortKeys (default [] o))).
  assert (Hitems : b = 100 :: List.concat (map itemBytes items) ++ [101] ∧ Forall (itemOk (TMap t)) items).
  { destruct o as [d|]; [|cbn in Hb; rewrite ewrite_id in Hb; injection Hb as <-; by split].
    cbn [BencodeTyped.reflectTyped] in Hb. cbn [default] in *.
    apply eapp_Some in Hb as (? & c & E1 & Hb & ->). rewrite ewrite_id in E1. injection E1 as <-.
    apply eapp_Some in Hb as (body & ? & Hb & E1 & ->). rewrite ewrite_id in E1. injection E1 as <-.
    rewrite sortKeys_map, map_map in Hb. cbn [fst snd] in Hb.
    apply (econcat_Some _ (λ e, itemBytes (e.1, canonT t e.2, encB t e.2))) in Hb as [Hok ->].
    - unfold items. cbn [default]. split; [by rewrite map_map|]. apply Forall_map, Forall_forall. intros e He. cbn [fst snd].
      rewrite Forall_forall in Hok. specialize (Hok e He). rewrite sortKeys_perm in He. rewrite Forall_forall in Hall. destruct (Hall e He) as [Hk Hwf].
      split; [done|]. exists t. split; [|by left]. cbn [fst snd]. apply eapp_Some in Hok as (? & y & _ & Ey & _). unfold encB. rewrite Ey. by apply IH.
    - intros e x He (? & y & [= <-] & Ey & ->)%eapp_Some. unfold itemBytes, encB. cbn [fst snd]. by rewrite Ey. }
  destruct Hitems as [-> Hok]. split; [done|]. apply reads_dictT; [done|exact Hok|]. cbn [zero]. rewrite setItems_empty_map.
  - unfold items. cbn [canonT]. destruct (sortKeys (default [] o)) as [|e d]; [done|]. cbn. do 3 f_equal. rewrite map_map. done.
  - unfold items. rewrite map_map. cbn. rewrite sortKeys_perm. exact Hn.
Qed.

Definition isByte (t : rty) : bool := match t with TUint W8 => true | _ => false end.

Lemma good_bytes : good (TSlice (TUint W8)).
Proof.
  intros v b Hc Hv Hb. destruct v as [| | | |o| | | | | | |]; try done. destruct Hv as [Hbytes Hlen].
  cbn in Hb. injection Hb as <-.
  assert (E : writeStringPrefix (Z.of_nat (List.length (default [] o))) ++ bytesOf (default [] o) = reflectString (bytesOf (default [] o))).
  { unfold reflectString. by rewrite writeString_id, length_bytesOf. }
  rewrite E. split; [intros E'; pose proof (length_reflectString (bytesOf (default [] o))) as Hl; rewrite E' in Hl; cbn in Hl; lia|].
  apply reads_string; try done.
  - unfold strOk. by rewrite length_bytesOf.
  - cbn. by rewrite bytes_vals.
Qed.

Lemma good_list t : isByte t = false → good t → good (TSlice t).
Proof.
  intros Hby IH v b Hc Hv Hb. destruct v as [| | | |o| | | | | | |]; try (by destruct t as [|[]| | | | | | | | | |]).
  assert (Hv' : Forall (wfv t) (default [] o)) by (by destruct t as [|[]| | | | | | | | | |]).
  assert (Hcan : canonT (TSlice t) (VSlice o) = VSlice (Some (map (canonT t) (default [] o)))) by (by destruct t as [|[]| | | | | | | | | |]).
  cbn [codable] in Hc. apply andb_true_iff in Hc as [Hc Hif%negb_true_iff].
  assert (Hbs : ∃ bs_, b = 108 :: List.concat bs_ ++ [101] ∧ Forall2 (λ v b, reflectTyped t v = Ok (Some b)) (default [] o) bs_).
  { destruct o as [l|].
    - assert (Hb' : eapp (ewrite [108]) (eapp (econcat (map (reflectTyped t) l)) (ewrite [101])) = Ok (Some b))
        by (by destruct t as [|[]| | | | | | | | | |]).
      apply eapp_Some in Hb' as (? & c & E1 & Hb' & ->). rewrite ewrite_id in E1. injection E1 as <-.
      apply eapp_Some in Hb' as (body & ? & Hb' & E1 & ->). rewrite ewrite_id in E1. injection E1 as <-.
      apply (econcat_Some _ (encB t)) in Hb' as [Hall ->].
      + exists (map (encB t) l). split; [done|]. apply Forall2_fmap_r, Forall_Forall2_diag. exact Hall.
      + intros e x _ E. unfold encB. by rewrite E.
    - exists []. split; [|constructor]. assert (Hb' : ewrite (bs "le") = Ok (Some b)) by (by destruct t as [|[]| | | | | | | | | |]).
      rewrite ewrite_id in Hb'. by injection Hb' as <-. }
  destruct Hbs as (bs_ & -> & Hall). split; [done|]. rewrite Hcan.
  assert (Hgood : Forall2 (λ v b, b ≠ [] ∧ readsT t (canonT t v) b) (default [] o) bs_).
  { apply Forall2_same_length_lookup. split; [by eapply Forall2_length|]. intros i v b Hi Hbi.
    apply (IH v b Hc); [by eapply (proj1 (Forall_lookup _ _) Hv')|]. by eapply (Forall2_lookup_lr _ _ _ _ _ _ Hall). }
  apply reads_slice; [done| |].
  - apply Forall2_fmap_l. eapply Forall2_impl; [exact Hgood|]. by intros v b [_ H].
  - eapply Forall2_Forall_r; [exact Hgood|]. apply Forall_true. by intros v b [H _].
Qed.

Lemma parseValue_direct fuel t v : isPtr t = false →
  parseValue (S fuel) 0 t v = parseDirect fuel 0 (parseDict fuel 0) (parseList fuel 0) t v.
Proof. by destruct t. Qed.

Lemma good_ptr t : good t → good (TPtr t).
Proof.
  intros IH v b Hc Hv Hb. destruct v as [| | | | | | | | |o| |]; try done. cbn [codable] in Hc. apply andb_true_iff in Hc as [Hc Hp%negb_true_iff].
  assert (Hb' : reflectTyped t (default (zero t) o) = Ok (Some b)) by (by destruct o; destruct t).
  assert (Hv' : wfv t (default (zero t) o)) by (destruct o; [done|]; by apply wfv_zero).
  destruct (IH _ _ Hc Hv' Hb') as [Hne Hr]. split; [done|]. intros rest off buf fuel Hbuf Hf.
  destruct (Hr rest off buf fuel Hbuf Hf) as (buf' & Hbuf' & E). exists buf'. split; [done|].
  destruct fuel as [|fuel]; [done|]. rewrite parseValue_direct in E by done. cbn [zero parseValue default]. erewrite bind_Ret by exact E. done.
Qed.

Lemma all_good t : good t.
Proof.
  induction t as [w|w| | |t IH|n t IH|t IH|fs IH| |t IH| |] using rty_ind'.
  - intros v b Hc Hv Hb. destruct v; try done. cbn in Hb. injection Hb as <-. split; [done|]. by apply readsT_int.
  - intros v b Hc Hv Hb. destruct v; try done. destruct Hv as [H0 Hn]. cbn in Hb. rewrite AppendUint_AppendInt in Hb by done.
    injection Hb as <-. split; [done|]. by apply reads_uint.
  - intros v b Hc Hv Hb. destruct v as [| |x| | | | | | | | |]; try done. cbn in Hb. rewrite ewrite_id in Hb. injection Hb as <-.
    split; [by destruct x|]. pose proof (reads_bool x) as H. by destruct x.
  - intros v b Hc Hv Hb. destruct v; try done. cbn in Hb. injection Hb as <-.
    split; [|by apply reads_string]. intros E. pose proof (length_reflectString s) as Hl. rewrite E in Hl. cbn in Hl. lia.
  - destruct (isByte t) eqn:E; [|by apply good_list]. destruct t as [|[]| | | | | | | | | |]; try done. apply good_bytes.
  - intros v b Hc Hv Hb. destruct t as [|[]| | | | | | | | | |]; try done. destruct v as [| | | | |l| | | | | |]; try done.
    destruct Hv as [Hl Hbytes]. cbn [codable] in Hc. apply Z.leb_le in Hc. cbn in Hb. injection Hb as <-.
    assert (E : writeStringPrefix (Z.of_nat (List.length l)) ++ bytesOf l = reflectString (bytesOf l)).
    { unfold reflectString. by rewrite writeString_id, length_bytesOf. }
    rewrite E. split; [intros E'; pose proof (length_reflectString (bytesOf l)) as Hl'; rewrite E' in Hl'; cbn in Hl'; lia|].
    apply reads_string; try done.
    + unfold strOk. rewrite length_bytesOf. lia.
    + cbn. rewrite length_bytesOf, drop_ge, app_nil_r by (rewrite length_replicate; lia).
      rewrite take_ge by (rewrite length_bytesOf; lia). by rewrite bytes_vals.
  - by apply good_map.
  - by apply good_struct.
  - intros v b Hc Hv Hb. destruct v as [| | | | | | | |o| | |]; try done. destruct o as [i|]; [|done]. cbn in Hb. injection Hb as <-.
    split; [apply reflectValue_ne|]. by apply reads_iface.
  - by apply good_ptr.
  - intros v b Hc Hv Hb. destruct v as [| | | | | | | | | |s|]; try done. cbn in Hb. destruct s as [|c s]; [done|]. injection Hb as <-.
    split; [done|]. destruct Hv as [|(i & Hi & E)]; [done|]. apply reads_raw; [done|]. rewrite E. by apply rawReads_Marshal.
  - done.
Qed.

Lemma UnmarshalTyped_reads t w b : readsT t w b → UnmarshalTyped t (zero t) b = UGood w.
Proof.
  intros Hr. destruct (Hr [] 0 [] (4 * List.length b + 2)%nat) as (buf' & _ & E); [done|cbn; lia|]. rewrite app_nil_r in E.
  unfold UnmarshalTyped, Decode. cbn [drest]. by rewrite E.
Qed.

(** C35. Values survive bencoding: what [Marshal] writes for a value of a type
    that bencoding supports, [Unmarshal] into that type reads back without an
    error, to the same value up to what the format does not keep: fields left
    out because they are empty, nil slices, pointers and maps, and the order
    of a map. *)
Theorem typed_roundtrip t v b : codable t = true → wfv t v → MarshalTyped isEmptyValue t v = Ok (Some b) →
  UnmarshalTyped t (zero t) b = UGood (canonT t v).
Proof.
  intros Hc Hv Hb. destruct (all_good t v b Hc Hv Hb) as [_ Hr].
  by apply UnmarshalTyped_reads.
Qed.
End RoundTrip.

(** ** An example *)
Module RoundTripExample.
Definition isEmpty (v : rval) : bool :=
  match v with VInt 0 | VUint 0 | VStr [] | VBool false | VSlice None | VSlice (Some []) | VMap None | VMap (Some []) => true | _ => false end.
Definition value : rval := VStruct [VInt (-7); VStr []; VRaw (bs "li1ee"); VMap (Some [(bs "b", VInt 5); (bs "a", VInt 6)])].
End RoundTripExample.

Lemma typed_roundtrip_witness :
  UnmarshalTyped exStruct (zero exStruct) (bs "d1:md1:ai6e1:bi5ee5:piecei-7e3:rawli1eee") =
  UGood (VStruct [VInt (-7); VStr []; VRaw (bs "li1ee"); VMap (Some [(bs "a", VInt 6); (bs "b", VInt 5)])]).
Proof.
  apply (typed_roundtrip RoundTripExample.isEmpty exStruct RoundTripExample.value); [vm_compute; reflexivity| |vm_compute; reflexivity].
  assert (Hs : ∀ s, (List.length s ≤ 4)%nat → strOk s) by (intros s Hs; unfold strOk, maxLen, DefaultDecodeMaxStrLen; lia).
  unfold RoundTripExample.value, exStruct. apply wfv_struct.
  constructor; [reflexivity|]. constructor; [apply Hs; cbn; lia|]. constructor; [|constructor; [|constructor]].
  - right. exists (IList [IInt 1]). split; [|vm_compute; reflexivity]. apply ok_list. repeat constructor. exact (ok_int 0 1).
  - split; [by_decide|]. repeat constructor; apply Hs; cbn; lia.
Defined.
