(* ===== verification/Stream.v ===== *)
(** Programs that talk over a connection, and two of them talking to each
    other.

    The handshakes of src/mse/mse.go and src/peer_protocol/handshake.go read
    whole blocks with [io.ReadFull] and hand their writes to a goroutine, so
    that a write never blocks.  A [proc] is such a program: a tree of writes
    and full reads.  [None] is a read that met the end of the stream.

    [net] is a pair of programs with the bytes in flight in the two
    directions, and [step] lets either side move.  A side that returns a
    failure closes the connection, and the reads of the other side that cannot
    be served then fail.  Deadlines are not modelled: a state in which neither
    side can move is one that times out.

    The order in which the goroutines run is irrelevant: [step] has the
    diamond property, so one run that ends fixes the outcome of all
    ([net_outcome]). *)
From stdpp Require Import base numbers list relations.
From Stdlib Require Import ZArith Lia.
From S2P Require Import Prelude.
Open Scope Z_scope.

(** ** Programs *)
Inductive proc (A : Type) : Type :=
| PRet (a : A)
| PWrite (b : list Z) (k : proc A)
| PReadFull (n : nat) (k : option (list Z) → proc A).
Arguments PRet {A} _.
Arguments PWrite {A} _ _.
Arguments PReadFull {A} _ _.

#[export] Instance proc_ret : MRet proc := λ A a, PRet a.

Fixpoint proc_bind_def {A B} (f : A → proc B) (m : proc A) : proc B :=
  match m with
  | PRet a => f a
  | PWrite b k => PWrite b (proc_bind_def f k)
  | PReadFull n k => PReadFull n (λ o, proc_bind_def f (k o))
  end.
#[export] Instance proc_bind : MBind proc := λ A B f m, proc_bind_def f m.

Lemma proc_bind_ret {A B} (a : A) (f : A → proc B) : (PRet a ≫= f) = f a.
Proof. done. Qed.

Definition pwrite (b : list Z) : proc unit := PWrite b (PRet tt).
Definition preadFull (n : nat) : proc (option (list Z)) := PReadFull n PRet.

(** What a program does with a prefix of its input: [psteps p i p' i' o] when
    [p], given the input [i], becomes [p'] with [i'] left and [o] written. *)
Inductive psteps {A} : proc A → list Z → proc A → list Z → list Z → Prop :=
| ps_refl p i : psteps p i p i []
| ps_write b k i p' i' o : psteps k i p' i' o → psteps (PWrite b k) i p' i' (b ++ o)
| ps_read n k d i p' i' o :
    length d = n → psteps (k (Some d)) i p' i' o → psteps (PReadFull n k) (d ++ i) p' i' o.

Lemma ps_trans {A} (p q r : proc A) i j l o1 o2 :
  psteps p i q j o1 → psteps q j r l o2 → psteps p i r l (o1 ++ o2).
Proof.
  intros H1 H2. induction H1; [done|..].
  - rewrite <- app_assoc. constructor. auto.
  - constructor; auto.
Qed.

Lemma ps_after {A} (p q r : proc A) i j l o : psteps p i q j [] → psteps q j r l o → psteps p i r l o.
Proof. apply (ps_trans p q r i j l [] o). Qed.

Lemma ps_frame {A} (p q : proc A) i j o x : psteps p i q j o → psteps p (i ++ x) q (j ++ x) o.
Proof. induction 1; [constructor..|]; [done|]. rewrite <- app_assoc. by constructor. Qed.

Lemma ps_bind {A B} (m : proc A) (f : A → proc B) i q j o :
  psteps m i q j o → psteps (m ≫= f) i (q ≫= f) j o.
Proof. induction 1; [constructor..|]; [done|]. by constructor. Qed.

(** A first part that returns, then the rest. *)
Lemma ps_seq {A B} (m : proc A) (f : A → proc B) a i q j l o1 o2 :
  psteps m i (PRet a) j o1 → psteps (f a) j q l o2 → psteps (m ≫= f) i q l (o1 ++ o2).
Proof. intros H1 H2. eapply ps_trans; [by apply ps_bind|done]. Qed.

Lemma ps_seq_read {A B} (m : proc A) (f : A → proc B) a i q j l o :
  psteps m i (PRet a) j [] → psteps (f a) j q l o → psteps (m ≫= f) i q l o.
Proof. apply (ps_seq m f a i q j l [] o). Qed.

Lemma ps_readFull {A} n (f : option (list Z) → proc A) d i q j o :
  length d = n → psteps (f (Some d)) i q j o → psteps (preadFull n ≫= f) (d ++ i) q j o.
Proof. intros. by constructor. Qed.

Lemma ps_readFull_take {A} n (f : option (list Z) → proc A) i q j o :
  (n ≤ length i)%nat → psteps (f (Some (take n i))) (drop n i) q j o → psteps (preadFull n ≫= f) i q j o.
Proof. intros Hn H. rewrite <- (take_drop n i). apply ps_readFull; [rewrite length_take_le; lia|done]. Qed.

Lemma ps_pwrite {A} b (f : unit → proc A) i q j o :
  psteps (f tt) i q j o → psteps (pwrite b ≫= f) i q j (b ++ o).
Proof. intros. by constructor. Qed.

Lemma ps_pwrite_end {A} b (f : unit → proc A) i : psteps (pwrite b ≫= f) i (f tt) i b.
Proof. rewrite <- (app_nil_r b) at 2. apply ps_pwrite, ps_refl. Qed.

Lemma ps_pwrite1 b i : psteps (pwrite b) i (PRet tt) i b.
Proof. unfold pwrite. rewrite <- (app_nil_r b) at 2. apply ps_write, ps_refl. Qed.

Lemma ps_readFull_end {A} n (f : option (list Z) → proc A) d :
  length d = n → psteps (preadFull n ≫= f) d (f (Some d)) [] [].
Proof. intros. rewrite <- (app_nil_r d) at 1. apply ps_readFull; [done|apply ps_refl]. Qed.

(** ** Two programs on a connection *)
Section Net.
Context {A B : Type} (closesA : A → bool) (closesB : B → bool).

Definition closed {C} (c : C → bool) (p : proc C) : bool :=
  match p with PRet a => c a | _ => false end.

(** One move of a program whose input queue is [q]; [cl] says that the other
    side has closed.  The third component is what is written. *)
Definition move {C} (cl : bool) (p : proc C) (q : list Z) : option (proc C * list Z * list Z) :=
  match p with
  | PRet _ => None
  | PWrite b k => Some (k, q, b)
  | PReadFull n k =>
      if (n <=? length q)%nat then Some (k (Some (take n q)), drop n q, [])
      else if cl then Some (k None, [], []) else None
  end.

Record net : Type := mkNet { pa : proc A; pb : proc B; ab : list Z; ba : list Z }.

Inductive step : net → net → Prop :=
| step_a s p q o : move (closed closesB (pb s)) (pa s) (ba s) = Some (p, q, o) →
    step s (mkNet p (pb s) (ab s ++ o) q)
| step_b s p q o : move (closed closesA (pa s)) (pb s) (ab s) = Some (p, q, o) →
    step s (mkNet (pa s) p q (ba s ++ o)).

(** An executable scheduler: the first side moves whenever it can. *)
Definition moveA (s : net) : option net :=
  match move (closed closesB (pb s)) (pa s) (ba s) with
  | Some (p, q, o) => Some (mkNet p (pb s) (ab s ++ o) q)
  | None => None
  end.
Definition moveB (s : net) : option net :=
  match move (closed closesA (pa s)) (pb s) (ab s) with
  | Some (p, q, o) => Some (mkNet (pa s) p q (ba s ++ o))
  | None => None
  end.

Fixpoint runNet (fuel : nat) (s : net) : net :=
  match fuel with
  | O => s
  | S fuel =>
      match moveA s with
      | Some s => runNet fuel s
      | None => match moveB s with Some s => runNet fuel s | None => s end
      end
  end.

Lemma moveA_step s s' : moveA s = Some s' → step s s'.
Proof. unfold moveA. destruct (move _ _ _) as [[[p q] o]|] eqn:E; [|done]. intros [= <-]. by constructor. Qed.
Lemma moveB_step s s' : moveB s = Some s' → step s s'.
Proof. unfold moveB. destruct (move _ _ _) as [[[p q] o]|] eqn:E; [|done]. intros [= <-]. by constructor. Qed.

Lemma runNet_steps fuel : ∀ s, rtc step s (runNet fuel s).
Proof.
  induction fuel as [|fuel IH]; intros s; [done|]. cbn. destruct (moveA s) eqn:Ea.
  - eapply rtc_l; [by apply moveA_step|done].
  - destruct (moveB s) eqn:Eb; [|done]. eapply rtc_l; [by apply moveB_step|done].
Qed.

(** A move is not disturbed by more input. *)
Lemma move_more {C} cl (p : proc C) q p' q' o x :
  move false p q = Some (p', q', o) → move cl p (q ++ x) = Some (p', q' ++ x, o).
Proof.
  destruct p as [|b k|n k]; cbn; [done|by intros [= <- <- <-]|].
  rewrite length_app. destruct (Nat.leb_spec n (length q)); [|done]. intros [= <- <- <-].
  rewrite (proj2 (Nat.leb_le _ _)) by lia. rewrite take_app_le, drop_app_le by lia. done.
Qed.

Lemma move_open {C} cl (c : C → bool) (p : proc C) q r : move cl p q = Some r → closed c p = false.
Proof. by destruct p. Qed.

(** The diamond property. *)
Lemma step_diamond s s1 s2 : step s s1 → step s s2 → s1 = s2 ∨ ∃ s3, step s1 s3 ∧ step s2 s3.
Proof.
  assert (Hab : ∀ s p q o p' q' o', move (closed closesB (pb s)) (pa s) (ba s) = Some (p, q, o) →
    move (closed closesA (pa s)) (pb s) (ab s) = Some (p', q', o') →
    ∃ s3, step (mkNet p (pb s) (ab s ++ o) q) s3 ∧ step (mkNet (pa s) p' q' (ba s ++ o')) s3).
  { clear. intros s p q o p' q' o' Ha Hb. rewrite (move_open _ closesB _ _ _ Hb) in Ha.
    rewrite (move_open _ closesA _ _ _ Ha) in Hb. exists (mkNet p p' (q' ++ o) (q ++ o')). split.
    - apply (step_b (mkNet p (pb s) (ab s ++ o) q)). by apply move_more.
    - apply (step_a (mkNet (pa s) p' q' (ba s ++ o'))). by apply move_more. }
  intros H1 H2. inversion H1 as [? p q o E|? p q o E]; inversion H2 as [? p' q' o' E'|? p' q' o' E']; subst.
  - left. congruence.
  - right. eauto.
  - right. destruct (Hab _ _ _ _ _ _ _ E' E) as (s3 & ? & ?). eauto.
  - left. congruence.
Qed.

Lemma diamond_det n : ∀ s f, nsteps step n s f → (∀ s', ¬ step f s') →
  ∀ m s', nsteps step m s s' → (m ≤ n)%nat ∧ nsteps step (n - m) s' f.
Proof.
  induction n as [|n IH]; intros s f Hn Hf m s' Hm.
  - inversion Hn; subst. inversion Hm; subst; [split; [lia|constructor]|]. by edestruct Hf.
  - destruct Hm as [|m s s1 s' H1 Hm]; [split; [lia|done]|].
    inversion Hn as [|? ? s2 ? H2 Hn2]; subst.
    assert (Hn1 : nsteps step n s1 f).
    { destruct (step_diamond _ _ _ H1 H2) as [->|(s3 & H13 & H23)]; [done|].
      destruct (IH _ _ Hn2 Hf 1%nat s3) as [Hle H3]; [by apply nsteps_once|].
      replace n with (S (n - 1)) by lia. by econstructor. }
    destruct (IH _ _ Hn1 Hf m s' Hm). split; [lia|done].
Qed.

(** Every way of scheduling the two programs ends, and ends with the results
    [a] and [b]. *)
Definition outcome (s : net) (a : A) (b : B) : Prop :=
  ∃ f N, pa f = PRet a ∧ pb f = PRet b ∧ ∀ n s', nsteps step n s s' → (n ≤ N)%nat ∧ rtc step s' f.

Lemma net_outcome s f a b : rtc step s f → pa f = PRet a → pb f = PRet b → outcome s a b.
Proof.
  intros [N HN]%rtc_nsteps Ha Hb. exists f, N. split_and!; [done..|]. intros n s' Hn.
  assert (Hf : ∀ s', ¬ step f s').
  { intros s'' Hs. destruct f as [p q x y]. cbn in Ha, Hb. subst. inversion Hs; subst; done. }
  destruct (diamond_det N s f HN Hf n s' Hn) as [? Hr]. split; [done|]. apply rtc_nsteps. eauto.
Qed.

(** The executable scheduler finds the outcome. *)
Lemma outcome_run s a b : outcome s a b →
  ∃ fuel, ∀ fuel', (fuel ≤ fuel')%nat → pa (runNet fuel' s) = PRet a ∧ pb (runNet fuel' s) = PRet b.
Proof.
  intros (f & N & Ha & Hb & H). exists N.
  assert (Hrun : ∀ fuel s, (∀ n s', nsteps step n s s' → (n ≤ fuel)%nat ∧ rtc step s' f) → runNet fuel s = f).
  { assert (Hend : ∀ s, rtc step s f → moveA s = None → moveB s = None → s = f).
    { intros s0 Hs Hna Hnb. destruct Hs as [|s0 s1 f Hs]; [done|]. exfalso.
      inversion Hs as [? p q o E|? p q o E]; subst; [unfold moveA in Hna|unfold moveB in Hnb]; by rewrite E in *. }
    induction fuel as [|fuel IH]; intros s0 H0; cbn.
    - apply Hend; [by apply (H0 0%nat), nsteps_O|..].
      + destruct (moveA s0) eqn:E; [|done]. apply moveA_step, nsteps_once, H0 in E. lia.
      + destruct (moveB s0) eqn:E; [|done]. apply moveB_step, nsteps_once, H0 in E. lia.
    - assert (Hnext : ∀ s1, step s0 s1 → runNet fuel s1 = f).
      { intros s1 Hs. apply IH. intros n s' Hn. destruct (H0 (S n) s'); [by econstructor|]. split; [lia|done]. }
      destruct (moveA s0) eqn:Ea; [by apply Hnext, moveA_step|].
      destruct (moveB s0) eqn:Eb; [by apply Hnext, moveB_step|]. apply Hend; [by apply (H0 0%nat), nsteps_O|done..]. }
  intros fuel' Hf. rewrite (Hrun fuel' s); [done|]. intros n s' Hn. destruct (H n s' Hn). split; [lia|done].
Qed.

(** [psteps] of one side as steps of the network. *)
Lemma net_a p q p' q' o x y : psteps p q p' q' o →
  rtc step (mkNet p x y q) (mkNet p' x (y ++ o) q').
Proof.
  intros H. revert y. induction H as [p i|b k i p' i' o H IH|n k d i p' i' o Hn H IH]; intros y.
  - by rewrite app_nil_r.
  - eapply rtc_l; [apply (step_a (mkNet _ _ _ _)); cbn; reflexivity|]. rewrite app_assoc. apply IH.
  - eapply rtc_l; [apply (step_a (mkNet _ _ _ _)); cbn|].
    + rewrite length_app, (proj2 (Nat.leb_le _ _)) by lia. reflexivity.
    + rewrite take_app_length', drop_app_length', app_nil_r by done. apply IH.
Qed.

Lemma net_b p q p' q' o x y : psteps p q p' q' o →
  rtc step (mkNet x p q y) (mkNet x p' q' (y ++ o)).
Proof.
  intros H. revert y. induction H as [p i|b k i p' i' o H IH|n k d i p' i' o Hn H IH]; intros y.
  - by rewrite app_nil_r.
  - eapply rtc_l; [apply (step_b (mkNet _ _ _ _)); cbn; reflexivity|]. rewrite app_assoc. apply IH.
  - eapply rtc_l; [apply (step_b (mkNet _ _ _ _)); cbn|].
    + rewrite length_app, (proj2 (Nat.leb_le _ _)) by lia. reflexivity.
    + rewrite take_app_length', drop_app_length', app_nil_r by done. apply IH.
Qed.

(** A read that the closed other side can no longer serve. *)
Lemma net_a_eof n k b ab_ q : closesB b = true → (length q < n)%nat →
  step (mkNet (PReadFull n k) (PRet b) ab_ q) (mkNet (k None) (PRet b) ab_ []).
Proof.
  intros Hc Hn. pose proof (step_a (mkNet (PReadFull n k) (PRet b) ab_ q) (k None) [] []) as H.
  cbn in H. rewrite app_nil_r in H. apply H. rewrite (proj2 (Nat.leb_gt _ _)) by lia. by rewrite Hc.
Qed.

Lemma net_b_eof n k a q ba_ : closesA a = true → (length q < n)%nat →
  step (mkNet (PRet a) (PReadFull n k) q ba_) (mkNet (PRet a) (k None) [] ba_).
Proof.
  intros Hc Hn. pose proof (step_b (mkNet (PRet a) (PReadFull n k) q ba_) (k None) [] []) as H.
  cbn in H. rewrite app_nil_r in H. apply H. rewrite (proj2 (Nat.leb_gt _ _)) by lia. by rewrite Hc.
Qed.
End Net.
Arguments mkNet {A B} _ _ _ _.
Arguments pa {A B} _.
Arguments pb {A B} _.
Arguments ab {A B} _.
Arguments ba {A B} _.
