(* ===== verification/Crypto.v ===== *)
(** The cryptographic functions of the Go standard library that
    src/mse/mse.go uses: [crypto/sha1], [crypto/rc4] and the [math/big]
    operations of the key exchange.  All of them compute. *)
From stdpp Require Import base numbers list.
From Stdlib Require Import ZArith Lia Zpow_facts.
From S2P Require Import Prelude.
Open Scope Z_scope.

(** ** SHA-1 *)
Definition rotl (n x : Z) : Z := Z.lor (u32 (Z.shiftl x n)) (Z.shiftr x (32 - n)).
Definition not32 (x : Z) : Z := Z.lxor x (2 ^ 32 - 1).

Definition sha1_pad (m : list Z) : list Z :=
  let l := Z.of_nat (length m) in
  m ++ [128] ++ replicate (Z.to_nat ((55 - l) mod 64)) 0 ++ be_encode 8 (8 * l).

(** The message schedule, newest word first. *)
Fixpoint sha1_schedule (n : nat) (w : list Z) : list Z :=
  match n with
  | O => w
  | S n =>
      let x i := nth i w 0 in
      sha1_schedule n (rotl 1 (Z.lxor (Z.lxor (x 2%nat) (x 7%nat)) (Z.lxor (x 13%nat) (x 15%nat))) :: w)
  end.

Definition sha1_f (t b c d : Z) : Z * Z :=
  if t <? 20 then (Z.lor (Z.land b c) (Z.land (not32 b) d), 0x5A827999)
  else if t <? 40 then (Z.lxor b (Z.lxor c d), 0x6ED9EBA1)
  else if t <? 60 then (Z.lor (Z.land b c) (Z.lor (Z.land b d) (Z.land c d)), 0x8F1BBCDC)
  else (Z.lxor b (Z.lxor c d), 0xCA62C1D6).

Fixpoint sha1_rounds (t : Z) (w : list Z) (h : Z * Z * Z * Z * Z) : Z * Z * Z * Z * Z :=
  match w with
  | [] => h
  | x :: w =>
      let '(a, b, c, d, e) := h in
      let '(f, k) := sha1_f t b c d in
      sha1_rounds (t + 1) w (u32 (rotl 5 a + f + e + k + x), a, rotl 30 b, c, d)
  end.

Definition words (block : list Z) : list Z :=
  map (λ i, be_decode (take 4 (drop (4 * i) block))) (seq 0 16).

Definition sha1_block (h : Z * Z * Z * Z * Z) (block : list Z) : Z * Z * Z * Z * Z :=
  let w := reverse (sha1_schedule 64 (reverse (words block))) in
  let '(a, b, c, d, e) := h in
  let '(a', b', c', d', e') := sha1_rounds 0 w h in
  (u32 (a + a'), u32 (b + b'), u32 (c + c'), u32 (d + d'), u32 (e + e')).

Fixpoint sha1_blocks (n : nat) (h : Z * Z * Z * Z * Z) (m : list Z) : Z * Z * Z * Z * Z :=
  match n with
  | O => h
  | S n => sha1_blocks n (sha1_block h (take 64 m)) (drop 64 m)
  end.

Definition sha1 (m : list Z) : list Z :=
  let p := sha1_pad m in
  let '(a, b, c, d, e) :=
    sha1_blocks (length p / 64) (0x67452301, 0xEFCDAB89, 0x98BADCFE, 0x10325476, 0xC3D2E1F0) p in
  be_encode 4 a ++ be_encode 4 b ++ be_encode 4 c ++ be_encode 4 d ++ be_encode 4 e.

Example sha1_abc :
  sha1 [97; 98; 99] = be_encode 20 0xa9993e364706816aba3e25717850c26c9cd0d89d.
Proof. by_compute. Qed.

Example sha1_two_blocks :
  sha1 (replicate 70 97) = be_encode 20 0xed6c69d9e8b4373af86303dfaa3528dfbc129902.
Proof. by_compute. Qed.

Lemma length_sha1 m : length (sha1 m) = 20%nat.
Proof.
  unfold sha1. destruct (sha1_blocks _ _ _) as [[[[a b] c] d] e]. by rewrite !length_app, !length_be_encode.
Qed.

Lemma sha1_bytes m : bytes_ok (sha1 m).
Proof.
  unfold sha1. destruct (sha1_blocks _ _ _) as [[[[a b] c] d] e].
  rewrite !bytes_ok_app. split_and!; apply be_encode_bytes.
Qed.

(** ** RC4 *)
Record Cipher : Type := mkCipher { rs : list Z; ri : Z; rj : Z }.

Definition at_ (s : list Z) (i : Z) : Z := nth (Z.to_nat i) s 0.
Definition swap (s : list Z) (i j : Z) : list Z :=
  <[Z.to_nat j := at_ s i]> (<[Z.to_nat i := at_ s j]> s).

Fixpoint rc4_schedule (n : nat) (key : list Z) (i j : Z) (s : list Z) : list Z :=
  match n with
  | O => s
  | S n =>
      let j := u8 (j + at_ s i + at_ key (i mod Z.of_nat (length key))) in
      rc4_schedule n key (i + 1) j (swap s i j)
  end.

Definition NewCipher (key : list Z) : Cipher :=
  mkCipher (rc4_schedule 256 key 0 0 (map Z.of_nat (seq 0 256))) 0 0.

(** One byte of the key stream. *)
Definition rc4_next (c : Cipher) : Z * Cipher :=
  let i := u8 (ri c + 1) in
  let j := u8 (rj c + at_ (rs c) i) in
  let s := swap (rs c) i j in
  (at_ s (u8 (at_ s i + at_ s j)), mkCipher s i j).

(** [Cipher.XORKeyStream]: the output and the cipher afterwards. *)
Fixpoint XORKeyStream (c : Cipher) (src : list Z) : list Z * Cipher :=
  match src with
  | [] => ([], c)
  | x :: src =>
      let '(k, c) := rc4_next c in
      let '(dst, c) := XORKeyStream c src in
      (Z.lxor x k :: dst, c)
  end.

(** Output only, and the cipher after [n] bytes. *)
Definition crypt (c : Cipher) (src : list Z) : list Z := (XORKeyStream c src).1.
Fixpoint skip (c : Cipher) (n : nat) : Cipher :=
  match n with O => c | S n => skip (rc4_next c).2 n end.

Example rc4_key :
  crypt (NewCipher [75; 101; 121]) [80; 108; 97; 105; 110; 116; 101; 120; 116] =
  be_encode 9 0xBBF316E8D940AF0AD3.
Proof. by_compute. Qed.

Lemma crypt_cons c x l : crypt c (x :: l) = Z.lxor x (rc4_next c).1 :: crypt (rc4_next c).2 l.
Proof.
  unfold crypt. cbn [XORKeyStream]. destruct (rc4_next c) as [k c']. cbn [fst snd].
  by destruct (XORKeyStream c' l).
Qed.

Lemma XORKeyStream_eq c l : XORKeyStream c l = (crypt c l, skip c (length l)).
Proof.
  revert c. induction l as [|x l IH]; intros c; [done|]. rewrite crypt_cons. cbn [XORKeyStream length skip].
  destruct (rc4_next c) as [k c']. rewrite IH. done.
Qed.

Lemma crypt_app c a b : crypt c (a ++ b) = crypt c a ++ crypt (skip c (length a)) b.
Proof. revert c. induction a as [|x a IH]; intros c; [done|]. cbn [app length skip]. by rewrite !crypt_cons, IH. Qed.

Lemma skip_add c a b : skip c (a + b) = skip (skip c a) b.
Proof. revert c. induction a as [|a IH]; intros c; [done|]. cbn [Nat.add skip]. apply IH. Qed.

Lemma length_crypt c l : length (crypt c l) = length l.
Proof. revert c. induction l as [|x l IH]; intros c; [done|]. rewrite crypt_cons. cbn. by rewrite IH. Qed.

(** Encryption and decryption are one operation. *)
Lemma crypt_invol c l : crypt c (crypt c l) = l.
Proof.
  revert c. induction l as [|x l IH]; intros c; [done|]. rewrite !crypt_cons, IH. f_equal.
  by rewrite Z.lxor_assoc, Z.lxor_nilpotent, Z.lxor_0_r.
Qed.

Lemma crypt_nil c : crypt c [] = [].
Proof. done. Qed.

(** ** Big integers *)

(** [Int.Bytes]: big-endian without leading zeros. *)
Definition big_Bytes (z : Z) : list Z :=
  if z =? 0 then [] else be_encode (S (Z.to_nat (Z.log2 z / 8))) z.

Definition big_SetBytes (b : list Z) : Z := be_decode b.

(** [Int.Exp(x, y, m)] of non-negative numbers with [m] positive. *)
Definition big_Exp (x y m : Z) : Z := Zpow_mod x y m.

Lemma big_Exp_spec x y m : 0 ≤ y → 1 < m → big_Exp x y m = x ^ y mod m.
Proof. intros Hy Hm. unfold big_Exp. by rewrite Zpow_mod_correct by lia. Qed.

Lemma big_Exp_range x y m : 0 ≤ y → 1 < m → 0 ≤ big_Exp x y m < m.
Proof. intros. rewrite big_Exp_spec by lia. apply Z.mod_pos_bound. lia. Qed.

(** Key agreement. *)
Lemma big_Exp_comm g x y m : 0 ≤ x → 0 ≤ y → 1 < m →
  big_Exp (big_Exp g x m) y m = big_Exp (big_Exp g y m) x m.
Proof.
  intros Hx Hy Hm. rewrite !big_Exp_spec by lia. rewrite <- !Zpower_mod by lia.
  rewrite <- !Z.pow_mul_r by lia. by rewrite (Z.mul_comm x y).
Qed.

Lemma big_Bytes_length z : 0 < z → 256 ^ Z.of_nat (length (big_Bytes z) - 1) ≤ z < 256 ^ Z.of_nat (length (big_Bytes z)).
Proof.
  intros Hz. unfold big_Bytes. rewrite (proj2 (Z.eqb_neq _ _)) by lia. rewrite length_be_encode.
  pose proof (Z.log2_spec z Hz) as [Hlo Hhi]. pose proof (Z.log2_nonneg z).
  set (q := Z.log2 z / 8). assert (Hq : 0 ≤ q) by (apply Z.div_pos; lia).
  pose proof (Z.div_mod (Z.log2 z) 8 ltac:(lia)). pose proof (Z.mod_pos_bound (Z.log2 z) 8 ltac:(lia)). fold q in H0.
  change 256 with (2 ^ 8). rewrite <- !Z.pow_mul_r by lia.
  replace (Z.of_nat (S (Z.to_nat q) - 1)) with q by lia. replace (Z.of_nat (S (Z.to_nat q))) with (q + 1) by lia. split.
  - etransitivity; [apply (Z.pow_le_mono_r 2 (8 * q) (Z.log2 z)); lia|done].
  - eapply Z.lt_le_trans; [exact Hhi|]. apply Z.pow_le_mono_r; lia.
Qed.

Lemma be_encode_leading n k z : 0 ≤ z < 256 ^ Z.of_nat n → be_encode (k + n) z = replicate k 0 ++ be_encode n z.
Proof.
  intros Hz. induction k as [|k IH]; [done|]. cbn [Nat.add replicate app]. rewrite <- IH. unfold be_encode at 1; fold be_encode.
  f_equal. rewrite Z.div_small; [done|]. split; [lia|]. eapply Z.lt_le_trans; [apply Hz|]. apply Z.pow_le_mono_r; lia.
Qed.
