(* ===== verification/Mse.v ===== *)
(** Message stream encryption: src/mse/mse.go.

    The two handshakes are [proc]s over the raw connection.  What a handshake
    returns, an [io.ReadWriter], is an [rwState]: bytes to deliver first
    ([io.MultiReader]), and the ciphers of [cipherReader] and [cipherWriter];
    [layer] runs a program over it.  The random choices (private key, padding)
    are arguments.  A write is handed to the writer goroutine and never
    blocks; failing writes are not modelled. *)
From stdpp Require Import base numbers list.
From Stdlib Require Import ZArith Lia.
From S2P Require Import Prelude Stream Crypto.
Open Scope Z_scope.

Definition maxPadLen : nat := 512.
Definition CryptoMethodPlaintext : Z := 1.
Definition CryptoMethodRC4 : Z := 2.
Definition AllSupportedCrypto : Z := Z.lor CryptoMethodPlaintext CryptoMethodRC4.

Definition mse_p : Z :=
  0xFFFFFFFFFFFFFFFFC90FDAA22168C234C4C6628B80DC1CD129024E088A67CC74020BBEA63B139B22514A08798E3404DDEF9519B3CD3A431B302B0A6DF25F14374FE1356D6D51C245E485B576625E7EC6F44C42E9A63A36210000000000090563.
Definition mse_g : Z := 2.

Definition req1 : list Z := [114; 101; 113; 49].
Definition req2 : list Z := [114; 101; 113; 50].
Definition req3 : list Z := [114; 101; 113; 51].
Definition keyA : list Z := [107; 101; 121; 65].
Definition keyB : list Z := [107; 101; 121; 66].
Definition vc : list Z := replicate 8 0.

Definition hash (parts : list (list Z)) : list Z := sha1 (concat parts).

Definition newEncrypt (initer : bool) (s skey : list Z) : Cipher :=
  (XORKeyStream (NewCipher (hash [if initer then keyA else keyB; s; skey])) (replicate 1024 0)).2.

(** [paddedLeft]; the argument is never longer than [len] ([big_Bytes_fits]). *)
Definition paddedLeft (b : list Z) (len : nat) : list Z :=
  if (length b =? len)%nat then b else replicate (len - length b) 0 ++ b.

Definition xor (a b : list Z) : list Z := zip_with Z.lxor a b.

(** ** Streams over a connection *)
Record rwState : Type := mkRW { rwPre : list Z; rwR : option Cipher; rwW : option Cipher }.

Definition plainRW : rwState := mkRW [] None None.

Definition enc (c : option Cipher) (b : list Z) : list Z := match c with Some c => crypt c b | None => b end.
Definition adv (c : option Cipher) (n : nat) : option Cipher := match c with Some c => Some (skip c n) | None => None end.

(** A program run over such a stream, with the stream afterwards:
    [cipherReader.Read], [cipherWriter.Write] and [io.MultiReader]. *)
Fixpoint layer {A} (st : rwState) (p : proc A) : proc (A * rwState) :=
  match p with
  | PRet a => PRet (a, st)
  | PWrite b k => PWrite (enc (rwW st) b) (layer (mkRW (rwPre st) (rwR st) (adv (rwW st) (length b))) k)
  | PReadFull n k =>
      if (n <=? length (rwPre st))%nat
      then layer (mkRW (drop n (rwPre st)) (rwR st) (rwW st)) (k (Some (take n (rwPre st))))
      else PReadFull (n - length (rwPre st)) (λ o,
        match o with
        | Some d => layer (mkRW [] (adv (rwR st) (length d)) (rwW st)) (k (Some (rwPre st ++ enc (rwR st) d)))
        | None => layer (mkRW [] (rwR st) (rwW st)) (k None)
        end)
  end.

(** ** Searching for a marker *)

(** Whether the last [i] bytes of [a] are the first [i] of [b], compared from
    the end. *)
Definition tailMatches (a b : list Z) (i : nat) : bool :=
  forallb (λ j, bool_decide (b !! (i - 1 - j)%nat = a !! (length a - 1 - j)%nat)) (seq 0 i).

Fixpoint suffixMatchFrom (a b : list Z) (i : nat) : nat :=
  match i with
  | O => O
  | S i' => if tailMatches a b i then i else suffixMatchFrom a b i'
  end.

Definition suffixMatchLen (a b : list Z) : nat := suffixMatchFrom a b (Nat.min (length b) (length a)).

(** [readUntil(io.LimitReader(r, limit), b)]: whether [b] was found.  [pre] is
    the part of [b1] kept from the round before.  Every round reads at least a
    byte, so [S limit] rounds are enough. *)
Fixpoint readUntilLoop (fuel limit : nat) (b pre : list Z) : proc bool :=
  match fuel with
  | O => mret false
  | S fuel =>
      let n := (length b - length pre)%nat in
      if (limit <? n)%nat then _ ← preadFull limit; mret false
      else
        d ← preadFull n;
        match d with
        | None => mret false
        | Some d =>
            let b1 := pre ++ d in
            let i := suffixMatchLen b1 b in
            if (i =? length b)%nat then mret true
            else readUntilLoop fuel (limit - n) b (drop (length b1 - i) b1)
        end
  end.

Definition readUntil (limit : nat) (b : list Z) : proc bool := readUntilLoop (S limit) limit b [].

(** ** The handshakes *)
Inductive mseErr : Type :=
| ErrSecret              (** error while establishing secret *)
| ErrSync                (** failed to synchronize on VC or on the S hash *)
| ErrRead
| ErrPayloadTooLarge
| ErrMethod (method : Z) (** the method chosen is not supported *)
| ErrNoSecretKeyMatch.

(** [newX], and the lengths and bytes of the paddings. *)
Record mseRand : Type := mkRand { rndX : list Z; rndPad : list Z; rndPadLen : nat }.

Definition pubKey (x : Z) : list Z := paddedLeft (big_Bytes (big_Exp mse_g x mse_p)) 96.
Definition secret (x : Z) (Y : list Z) : list Z := paddedLeft (big_Bytes (big_Exp (big_SetBytes Y) x mse_p)) 96.

Definition postY (x : Z) : proc unit := pwrite (pubKey x).

Definition establishS (rnd : mseRand) : proc (option (list Z)) :=
  let x := big_SetBytes (rndX rnd) in
  _ ← postY x;
  b ← preadFull 96;
  mret (match b with Some Y => Some (secret x Y) | None => None end).

(** What the initiator sends encrypted after the hashes. *)
Definition initerBuf (provides : Z) (padLen : nat) (ia : list Z) : list Z :=
  vc ++ be_encode 4 provides ++ be_encode 2 (Z.of_nat padLen) ++ replicate padLen 0 ++
  be_encode 2 (Z.of_nat (length ia)) ++ ia.

(** [unmarshal(r, &method, &padLen)] and the discarded padding. *)
Definition readMethod : proc (option Z) :=
  m ← preadFull 4;
  match m with
  | None => mret None
  | Some m =>
      pl ← preadFull 2;
      match pl with
      | None => mret None
      | Some pl =>
          z ← preadFull (Z.to_nat (be_decode pl));
          mret (match z with Some _ => Some (be_decode m) | None => None end)
      end
  end.

(** The second half of [initerSteps], from the search for the VC on: [e] is the
    cipher of what is sent, [bC] that of what is received, after the VC. *)
Definition initerFinish (e bC : Cipher) (eVC : list Z) (provides : Z) : proc (result mseErr (rwState * Z)) :=
  found ← readUntil 520 eVC;
  if negb found then mret (Bad ErrSync)
  else
    '(method, st) ← layer (mkRW [] (Some bC) None) readMethod;
    mret (match method with
          | None => Bad ErrRead
          | Some method =>
              let selected := Z.land method provides in
              if selected =? CryptoMethodRC4 then Good (mkRW [] (rwR st) (Some e), selected)
              else if selected =? CryptoMethodPlaintext then Good (plainRW, selected)
              else Bad (ErrMethod method)
          end).

Definition initerSteps (rnd : mseRand) (s skey ia : list Z) (provides : Z) : proc (result mseErr (rwState * Z)) :=
  _ ← pwrite (hash [req1; s]);
  _ ← pwrite (xor (hash [req2; skey]) (hash [req3; s]));
  if 65535 <? Z.of_nat (length ia) then mret (Bad ErrPayloadTooLarge)
  else
    let '(be, e) := XORKeyStream (newEncrypt true s skey) (initerBuf provides (rndPadLen rnd) ia) in
    _ ← pwrite be;
    let '(eVC, bC) := XORKeyStream (newEncrypt false s skey) vc in
    initerFinish e bC eVC provides.

(** The first key whose hash matches. *)
Definition matchSkey (s b : list Z) (skeys : list (list Z)) : option (list Z) :=
  list_find (λ skey, xor (hash [req2; skey]) (hash [req3; s]) = b) skeys ≫= λ e, Some e.2.

(** The decrypted part of what the receiver reads: VC, crypto_provide and the
    initial payload.  Errors in the last two reads are ignored by the code. *)
Definition readProvides : proc (option (list Z * Z * list Z)) :=
  v ← preadFull 8;
  match v with
  | None => mret None
  | Some v =>
      p ← preadFull 4;
      match p with
      | None => mret None
      | Some p =>
          pl ← preadFull 2;
          match pl with
          | None => mret None
          | Some pl =>
              z ← preadFull (Z.to_nat (be_decode pl));
              match z with
              | None => mret None
              | Some _ =>
                  l ← preadFull 2;
                  let lenIA := match l with Some l => Z.to_nat (be_decode l) | None => O end in
                  if (lenIA =? 0)%nat then mret (Some (v, be_decode p, []))
                  else
                    ia ← preadFull lenIA;
                    mret (Some (v, be_decode p, default (replicate lenIA 0) ia))
              end
          end
      end
  end.

Definition receiverBuf (v : list Z) (chosen : Z) (padLen : nat) : list Z :=
  v ++ be_encode 4 chosen ++ be_encode 2 (Z.of_nat padLen) ++ replicate padLen 0.

Definition receiverSteps (rnd : mseRand) (s : list Z) (skeys : list (list Z)) (chooseMethod : Z → Z) :
    proc (result mseErr (rwState * Z * list Z)) :=
  found ← readUntil 532 (hash [req1; s]);
  if negb found then mret (Bad ErrSync)
  else
    b ← preadFull 20;
    match b with
    | None => mret (Bad ErrRead)
    | Some b =>
        match matchSkey s b skeys with
        | None => mret (Bad ErrNoSecretKeyMatch)
        | Some skey =>
            '(hdr, st) ← layer (mkRW [] (Some (newEncrypt true s skey)) None) readProvides;
            match hdr with
            | None => mret (Bad ErrRead)
            | Some (v, provides, ia) =>
                let chosen := chooseMethod provides in
                let '(reply, w) := XORKeyStream (newEncrypt false s skey) (receiverBuf v chosen (rndPadLen rnd)) in
                _ ← pwrite reply;
                mret (if chosen =? CryptoMethodRC4 then Good (mkRW ia (rwR st) (Some w), chosen, skey)
                      else if chosen =? CryptoMethodPlaintext then Good (mkRW ia None None, chosen, skey)
                      else Bad (ErrMethod chosen))
            end
        end
    end.

(** [Do], for the two roles. *)
Definition InitiateHandshake (rnd : mseRand) (skey ia : list Z) (provides : Z) : proc (result mseErr (rwState * Z)) :=
  s ← establishS rnd;
  match s with
  | None => mret (Bad ErrSecret)
  | Some s => _ ← pwrite (rndPad rnd); initerSteps rnd s skey ia provides
  end.

Definition ReceiveHandshakeEx (rnd : mseRand) (skeys : list (list Z)) (chooseMethod : Z → Z) :
    proc (result mseErr (rwState * Z * list Z)) :=
  s ← establishS rnd;
  match s with
  | None => mret (Bad ErrSecret)
  | Some s => _ ← pwrite (rndPad rnd); receiverSteps rnd s skeys chooseMethod
  end.

Definition DefaultCryptoSelector (provided : Z) : Z :=
  if Z.land provided CryptoMethodPlaintext =? 0 then CryptoMethodRC4 else CryptoMethodPlaintext.

(** ** The search for a marker *)

(** A program against a stream that ends: result, bytes left, output. *)
Fixpoint prun {A} (p : proc A) (i : list Z) : A * list Z * list Z :=
  match p with
  | PRet a => (a, i, [])
  | PWrite b k => let '(a, r, o) := prun k i in (a, r, b ++ o)
  | PReadFull n k =>
      if (n <=? length i)%nat then prun (k (Some (take n i))) (drop n i) else prun (k None) []
  end.

(** The reference: the number of bytes up to the end of the first occurrence
    of [b], after [seen] has been read. *)
Fixpoint firstEnd (b seen s : list Z) : option nat :=
  if decide (b `suffix_of` seen) then Some (length seen)
  else match s with [] => None | x :: s => firstEnd b (seen ++ [x]) s end.

Lemma tailMatches_spec a b i : (i ≤ length a)%nat → (i ≤ length b)%nat →
  tailMatches a b i = true ↔ take i b `suffix_of` a.
Proof.
  intros Ha Hb. unfold tailMatches. rewrite forallb_forall.
  assert (Hiff : take i b = drop (length a - i) a ↔ take i b `suffix_of` a).
  { split.
    - intros ->. exists (take (length a - i) a). by rewrite take_drop.
    - intros [k ->]. rewrite length_app, length_take_le by done.
      by replace (length k + i - i)%nat with (length k) by lia; rewrite drop_app_length. }
  rewrite <- Hiff. split.
  - intros H. apply (list_eq_below _ _ i); [by rewrite length_take_le|rewrite length_drop; lia|].
    intros k x y Hk Hx Hy. rewrite lookup_take_lt in Hx by done. rewrite lookup_drop in Hy.
    specialize (H (i - 1 - k)%nat). rewrite in_seq in H. specialize (H ltac:(lia)). apply bool_decide_eq_true in H.
    replace (i - 1 - (i - 1 - k))%nat with k in H by lia.
    replace (length a - 1 - (i - 1 - k))%nat with (length a - i + k)%nat in H by lia. congruence.
  - intros E j [_ Hj]%in_seq. apply bool_decide_eq_true.
    assert (Hl : take i b !! (i - 1 - j)%nat = drop (length a - i) a !! (i - 1 - j)%nat) by by rewrite E.
    rewrite lookup_take_lt, lookup_drop in Hl by lia. rewrite Hl. f_equal. lia.
Qed.

Lemma suffixMatchFrom_spec a b n : (n ≤ length a)%nat → (n ≤ length b)%nat →
  let i := suffixMatchFrom a b n in
  (i ≤ n)%nat ∧ take i b `suffix_of` a ∧ ∀ j, (j ≤ n)%nat → take j b `suffix_of` a → (j ≤ i)%nat.
Proof.
  induction n as [|n IH]; intros Ha Hb; cbn zeta.
  - cbn. split_and!; [lia|apply suffix_nil|lia].
  - cbn [suffixMatchFrom]. destruct (tailMatches a b (S n)) eqn:E.
    + apply tailMatches_spec in E; [|lia..]. split_and!; [lia|done|lia].
    + destruct IH as (H1 & H2 & H3); [lia..|]. split_and!; [lia|done|]. intros j Hj Hs.
      destruct (decide (j = S n)) as [->|]; [|apply H3; [lia|done]].
      apply tailMatches_spec in Hs; [congruence|lia..].
Qed.

Lemma firstEnd_skip b d : ∀ c r, (∀ k, (k < length d)%nat → ¬ b `suffix_of` c ++ take k d) →
  firstEnd b c (d ++ r) = firstEnd b (c ++ d) r.
Proof.
  induction d as [|x d IH]; intros c r H; [by rewrite app_nil_r|].
  cbn [app firstEnd]. rewrite decide_False.
  - rewrite IH; [by rewrite <- app_assoc|]. intros k Hk. rewrite <- app_assoc. apply (H (S k)). cbn. lia.
  - specialize (H 0%nat ltac:(cbn; lia)). by rewrite app_nil_r in H.
Qed.

Lemma firstEnd_found b c r : b `suffix_of` c → firstEnd b c r = Some (length c).
Proof. intros H. destruct r; cbn; by rewrite decide_True. Qed.

Lemma firstEnd_None b d c : (∀ k, (k ≤ length d)%nat → ¬ b `suffix_of` c ++ take k d) → firstEnd b c d = None.
Proof.
  intros H. rewrite <- (app_nil_r d), firstEnd_skip by (intros; apply H; lia). cbn. rewrite decide_False; [done|].
  specialize (H (length d) ltac:(lia)). by rewrite take_ge in H.
Qed.

(** What the loop knows of the bytes [c] read so far: [pre] is the longest end
    of [c] that a proper part of [b] starts with. *)
Definition scanInv (b c pre : list Z) : Prop :=
  pre `suffix_of` c ∧ pre `prefix_of` b ∧ (length pre < length b)%nat ∧
  ∀ t, t `suffix_of` c → t `prefix_of` b → (length t < length b)%nat → (length t ≤ length pre)%nat.

Lemma suffix_app_split {A} (b c d : list A) : b `suffix_of` c ++ d → (length d ≤ length b)%nat →
  ∃ t, b = t ++ d ∧ t `suffix_of` c.
Proof.
  intros [k E] Hl. exists (take (length b - length d) b).
  assert (Hd : drop (length b - length d) b = d).
  { assert (E2 : drop (length c) (c ++ d) = drop (length c) (k ++ b)) by by rewrite E. rewrite drop_app_length in E2.
    assert (length c + length d = length k + length b)%nat by (rewrite <- !length_app; by rewrite E).
    rewrite drop_app_ge in E2 by lia. rewrite E2 at 2. f_equal. lia. }
  assert (Hsplit : b = take (length b - length d) b ++ d).
  { rewrite <- (take_drop (length b - length d) b) at 1. by rewrite Hd. }
  split; [done|]. exists k. rewrite Hsplit, app_assoc in E at 1. by apply app_inv_tail in E.
Qed.

(** No occurrence ends inside the next block. *)
Lemma scanInv_gap b c pre d : scanInv b c pre → ¬ b `suffix_of` c → (length d < length b - length pre)%nat →
  ¬ b `suffix_of` c ++ d.
Proof.
  intros (_ & _ & Hp & Hmax) Hc Hd Hs. apply suffix_app_split in Hs as (t & -> & Ht); [|lia].
  rewrite length_app in *. destruct d as [|x d].
  - rewrite app_nil_r in Hc. done.
  - cbn in *. assert (length t ≤ length pre)%nat; [|lia]. apply Hmax; [done|by apply prefix_app_r|lia].
Qed.

Lemma scanInv_next b c pre d : b ≠ [] → scanInv b c pre → length d = (length b - length pre)%nat →
  let b1 := pre ++ d in let i := suffixMatchLen b1 b in
  (i = length b ↔ b `suffix_of` c ++ d) ∧ (i ≠ length b → scanInv b (c ++ d) (drop (length b1 - i) b1)).
Proof.
  intros Hb ((k & ->) & Hpre & Hp & Hmax) Hd b1 i.
  assert (Hl : length b1 = length b) by (unfold b1; rewrite length_app; lia).
  destruct (suffixMatchFrom_spec b1 b (Nat.min (length b) (length b1))) as (H1 & H2 & H3); [lia..|].
  change (suffixMatchFrom b1 b (Nat.min (length b) (length b1))) with i in *.
  rewrite <- app_assoc. fold b1. split; [split|].
  - intros E. rewrite E, take_ge in H2 by lia. destruct H2 as [u ->]. exists (k ++ u). by rewrite app_assoc.
  - intros Hs. destruct (suffix_app_split b k b1 Hs) as (t & E & _); [lia|].
    assert (t = []) by (destruct t; [done|]; apply (f_equal length) in E; rewrite length_app in E; cbn in E; lia). subst t.
    cbn in E. assert (length b ≤ i)%nat; [|lia]. apply H3; [lia|]. rewrite take_ge by lia. by rewrite E.
  - intros Hi. destruct H2 as [u E].
    assert (Hdrop : drop (length b1 - i) b1 = take i b).
    { rewrite E at 2. assert (length b1 = length u + i)%nat by (rewrite E at 1; rewrite length_app, length_take_le; lia).
      replace (length b1 - i)%nat with (length u) by lia. by rewrite drop_app_length. }
    rewrite Hdrop. split_and!.
    + exists (k ++ u). by rewrite E at 1; rewrite <- app_assoc.
    + apply prefix_take.
    + rewrite length_take_le; lia.
    + intros t Ht Hpt Hlt. rewrite length_take_le by lia. apply H3; [lia|].
      destruct Hpt as [v ->]. rewrite take_app_length.
      destruct Ht as [w Ew]. destruct (suffix_app_split b1 w t) as (t' & -> & _); [by exists k; rewrite Ew|lia|].
      by exists t'.
Qed.

Lemma readUntilLoop_exact b : b ≠ [] → ∀ fuel limit c pre r, scanInv b c pre → ¬ b `suffix_of` c → (limit < fuel)%nat →
  match firstEnd b c (take limit r) with
  | Some e => (length c ≤ e)%nat ∧ prun (readUntilLoop fuel limit b pre) r = (true, drop (e - length c) r, [])
  | None => (prun (readUntilLoop fuel limit b pre) r).1.1 = false
  end.
Proof.
  intros Hb. induction fuel as [|fuel IH]; intros limit c pre r Hinv Hc Hf; [lia|].
  assert (Hgap := λ d, scanInv_gap b c pre d Hinv Hc). pose proof Hinv as (_ & _ & Hp & _).
  set (n := (length b - length pre)%nat).
  assert (Hnone : ∀ s, (length s < n)%nat → firstEnd b c s = None).
  { intros s Hs. apply firstEnd_None. intros k Hk. apply Hgap. rewrite length_take. lia. }
  cbn [readUntilLoop]. fold n. destruct (Nat.ltb_spec limit n) as [Hlim|Hlim].
  { rewrite Hnone by (rewrite length_take; lia). cbn. by destruct (_ <=? _)%nat. }
  change (preadFull n ≫= ?f) with (PReadFull n f). cbn [prun].
  destruct (Nat.leb_spec n (length r)) as [Hr|Hr].
  2: { rewrite Hnone by (rewrite length_take; lia). done. }
  set (d := take n r). assert (Hd : length d = n) by (unfold d; rewrite length_take_le; lia).
  destruct (scanInv_next b c pre d Hb Hinv Hd) as [Hiff Hnext]. cbn zeta in *.
  assert (Htake : take limit r = d ++ take (limit - n) (drop n r)).
  { unfold d. rewrite take_drop_commute. replace (n + (limit - n))%nat with limit by lia.
    rewrite <- (take_drop n (take limit r)) at 1. by rewrite take_take, Nat.min_l by lia. }
  rewrite Htake, firstEnd_skip by (intros k Hk; apply Hgap; rewrite length_take; lia).
  destruct (Nat.eqb_spec (suffixMatchLen (pre ++ d) b) (length b)) as [E|E].
  - apply Hiff in E. rewrite firstEnd_found by done. rewrite length_app, Hd. split; [lia|].
    cbn [prun mret proc_ret]. by replace (length c + n - length c)%nat with n by lia.
  - specialize (IH (limit - n)%nat (c ++ d) _ (drop n r) (Hnext E)). rewrite length_app, Hd in IH.
    assert (Hs : ¬ b `suffix_of` c ++ d) by (by rewrite <- Hiff). specialize (IH Hs ltac:(lia)).
    destruct (firstEnd b (c ++ d) (take (limit - n) (drop n r))) as [e|]; [|done].
    destruct IH as [He ->]. split; [lia|]. rewrite drop_drop. do 3 f_equal. lia.
Qed.

Lemma readUntil_scan limit b s : b ≠ [] →
  match firstEnd b [] (take limit s) with
  | Some e => prun (readUntil limit b) s = (true, drop e s, [])
  | None => (prun (readUntil limit b) s).1.1 = false
  end.
Proof.
  intros Hb. assert (Hl : (0 < length b)%nat) by (destruct b; [done|cbn; lia]).
  assert (H0 : scanInv b [] []).
  { split_and!; [done|apply prefix_nil|done|]. by intros t ->%suffix_nil_inv. }
  assert (Hn : ¬ b `suffix_of` []) by (by intros ->%suffix_nil_inv).
  pose proof (readUntilLoop_exact b Hb (S limit) limit [] [] s H0 Hn ltac:(lia)) as H. cbn [length] in H.
  destruct (firstEnd b [] (take limit s)) as [e|].
  - unfold readUntil. destruct H as [_ ->]. by rewrite Nat.sub_0_r.
  - exact H.
Qed.

(** [readUntil], which keeps only as many bytes as the marker has and
    restarts from the longest partial match, finds exactly what a naive scan of
    the stream finds: when the marker occurs within the limit it stops right
    behind the first occurrence, whatever the bytes before it are, and
    otherwise it fails. *)
Theorem readUntil_exact limit b s : b ≠ [] →
  match firstEnd b [] (take limit s) with
  | Some e => prun (readUntil limit b) s = (true, drop e s, [])
  | None => (prun (readUntil limit b) s).1.1 = false
  end.
Proof. apply readUntil_scan. Qed.

Lemma readUntil_exact_witness :
  prun (readUntil 10 [1; 1; 2]) [1; 1; 1; 1; 2; 7] = (true, [7], []).
Proof. apply (readUntil_exact 10 [1; 1; 2] [1; 1; 1; 1; 2; 7]). done. Defined.

Lemma readUntilLoop_psteps b fuel : ∀ limit pre r r' o,
  prun (readUntilLoop fuel limit b pre) r = (true, r', o) →
  psteps (readUntilLoop fuel limit b pre) r (PRet true) r' o.
Proof.
  induction fuel as [|fuel IH]; intros limit pre r r' o; [done|]. cbn [readUntilLoop].
  destruct (limit <? _)%nat.
  { cbn. by destruct (_ <=? _)%nat. }
  set (n := (length b - length pre)%nat). change (preadFull n ≫= ?f) with (PReadFull n f). cbn [prun].
  destruct (Nat.leb_spec n (length r)) as [Hr|]; [|done]. intros H.
  rewrite <- (take_drop n r). apply ps_read; [rewrite length_take_le; lia|].
  destruct (suffixMatchLen _ _ =? _)%nat.
  - injection H as <- <-. constructor.
  - by apply IH.
Qed.

(** The marker first occurs behind the padding. *)
Definition syncs (pad b : list Z) : Prop := firstEnd b [] (pad ++ b) = Some (length pad + length b)%nat.

#[export] Instance syncs_dec pad b : Decision (syncs pad b).
Proof. unfold syncs. apply _. Defined.

Lemma readUntil_psteps limit pad b : b ≠ [] → syncs pad b → (length pad + length b ≤ limit)%nat →
  psteps (readUntil limit b) (pad ++ b) (PRet true) [] [].
Proof.
  intros Hb Hs Hl. apply readUntilLoop_psteps. pose proof (readUntil_scan limit b (pad ++ b) Hb) as H.
  rewrite take_ge in H by (rewrite length_app; lia). unfold syncs in Hs. rewrite Hs in H. fold (readUntil limit b).
  rewrite H. f_equal. f_equal. apply drop_ge. rewrite length_app. lia.
Qed.

(** ** Running over a stream *)
Definition view (st : rwState) (raw : list Z) : list Z := rwPre st ++ enc (rwR st) raw.

Lemma length_enc c l : length (enc c l) = length l.
Proof. destruct c; [apply length_crypt|done]. Qed.
Lemma enc_app c a b : enc c (a ++ b) = enc c a ++ enc (adv c (length a)) b.
Proof. destruct c; [apply crypt_app|done]. Qed.
Lemma enc_nil c : enc c [] = [].
Proof. by destruct c. Qed.
Lemma enc_invol c l : enc c (enc c l) = l.
Proof. destruct c; [apply crypt_invol|done]. Qed.
Lemma adv_add c a b : adv c (a + b) = adv (adv c a) b.
Proof. destruct c; [cbn; by rewrite skip_add|done]. Qed.
Lemma adv_0 c : adv c 0 = c.
Proof. by destruct c. Qed.

Lemma layer_psteps {A} (p p' : proc A) i i' o : psteps p i p' i' o → ∀ st raw, i = view st raw →
  ∃ st' used raw', raw = used ++ raw' ∧ i' = view st' raw' ∧
    rwR st' = adv (rwR st) (length used) ∧ rwW st' = adv (rwW st) (length o) ∧
    psteps (layer st p) raw (layer st' p') raw' (enc (rwW st) o).
Proof.
  induction 1 as [p i|b k i p' i' o H IH|n k d i p' i' o Hn H IH]; intros st raw E.
  - exists st, [], raw. rewrite enc_nil. cbn [length]. rewrite !adv_0. split_and!; try done. constructor.
  - destruct (IH (mkRW (rwPre st) (rwR st) (adv (rwW st) (length b))) raw E) as (st' & used & raw' & -> & -> & HR & HW & Hp).
    cbn [rwR rwW] in *. exists st', used, raw'. rewrite enc_app, length_app, adv_add. split_and!; try done.
    cbn [layer]. by constructor.
  - cbn [layer]. destruct (Nat.leb_spec n (length (rwPre st))) as [Hle|Hgt].
    + assert (Ed : take n (rwPre st) = d).
      { apply (f_equal (take n)) in E. unfold view in E. by rewrite take_app_length', take_app_le in E by done. }
      rewrite Ed. apply (IH (mkRW (drop n (rwPre st)) (rwR st) (rwW st)) raw).
      apply (f_equal (drop n)) in E. unfold view in *. cbn. by rewrite drop_app_length', drop_app_le in E by done.
    + set (m := (n - length (rwPre st))%nat).
      assert (Hraw : (m ≤ length raw)%nat).
      { apply (f_equal length) in E. unfold view in E. rewrite !length_app, length_enc in E. lia. }
      assert (Em : raw = take m raw ++ drop m raw) by by rewrite take_drop.
      assert (Hlm : length (take m raw) = m) by (rewrite length_take_le; lia).
      unfold view in E. rewrite Em, enc_app, Hlm, app_assoc in E.
      apply app_inj_1 in E as [Ed Ei]; [|rewrite length_app, length_enc; lia].
      destruct (IH (mkRW [] (adv (rwR st) m) (rwW st)) (drop m raw)) as (st' & used & raw' & Eu & -> & HR & HW & Hp); [done|].
      cbn [rwR rwW] in *. exists st', (take m raw ++ used), raw'.
      rewrite <- app_assoc, <- Eu, length_app, Hlm, adv_add. split_and!; try done.
      rewrite Em at 1. constructor; [done|]. by rewrite Hlm, <- Ed.
Qed.

(** The case in which everything is read. *)
Lemma layer_all {A} (p p' : proc A) st raw o : psteps p (view st raw) p' [] o →
  psteps (layer st p) raw (layer (mkRW [] (adv (rwR st) (length raw)) (adv (rwW st) (length o))) p') [] (enc (rwW st) o).
Proof.
  intros H. destruct (layer_psteps _ _ _ _ _ H st raw eq_refl) as (st' & used & raw' & -> & E & HR & HW & Hp).
  symmetry in E. unfold view in E. apply app_eq_nil in E as [E1 E2].
  assert (raw' = []) by (apply (f_equal length) in E2; rewrite length_enc in E2; by destruct raw'). subst raw'.
  rewrite app_nil_r in *. destruct st'. cbn in *. by subst.
Qed.

Lemma layer_read {A} (p : proc A) a c raw : psteps p (crypt c raw) (PRet a) [] [] →
  psteps (layer (mkRW [] (Some c) None) p) raw (PRet (a, mkRW [] (Some (skip c (length raw))) None)) [] [].
Proof. apply (layer_all p (PRet a) (mkRW [] (Some c) None) raw []). Qed.

(** ** Agreement *)
Lemma mse_p_range : 1 < mse_p < 256 ^ Z.of_nat 96.
Proof. split; reflexivity. Qed.

Lemma paddedLeft_be z n : 0 ≤ z < 256 ^ Z.of_nat n → paddedLeft (big_Bytes z) n = be_encode n z.
Proof.
  intros Hz. unfold paddedLeft. destruct (decide (z = 0)) as [->|Hnz].
  { cbn [big_Bytes Z.eqb length]. destruct n as [|n]; [done|]. cbn [Nat.eqb Nat.sub]. rewrite app_nil_r.
    pose proof (be_encode_leading 0 (S n) 0) as H. rewrite Nat.add_0_r in H. rewrite H by done. by rewrite app_nil_r. }
  pose proof (big_Bytes_length z ltac:(lia)) as [Hlo Hhi].
  assert (Hb : big_Bytes z = be_encode (length (big_Bytes z)) z).
  { unfold big_Bytes. rewrite (proj2 (Z.eqb_neq _ _)) by done. by rewrite length_be_encode. }
  set (l := length (big_Bytes z)) in *.
  assert (Hl : (l ≤ n)%nat).
  { destruct (Nat.le_gt_cases l n) as [|Hgt]; [done|]. exfalso.
    assert (256 ^ Z.of_nat n ≤ 256 ^ Z.of_nat (l - 1)) by (apply Z.pow_le_mono_r; lia). lia. }
  destruct (Nat.eqb_spec l n) as [<-|]; [done|]. rewrite Hb.
  rewrite <- be_encode_leading by lia. f_equal. lia.
Qed.

Lemma pubKey_be x : 0 ≤ x → pubKey x = be_encode 96 (big_Exp mse_g x mse_p).
Proof.
  intros Hx. apply paddedLeft_be. pose proof mse_p_range. pose proof (big_Exp_range mse_g x mse_p Hx ltac:(lia)). lia.
Qed.

Lemma length_pubKey x : 0 ≤ x → length (pubKey x) = 96%nat.
Proof. intros. by rewrite pubKey_be, length_be_encode. Qed.

(** Both sides compute the same secret. *)
Lemma secret_agree x y : 0 ≤ x → 0 ≤ y → secret x (pubKey y) = secret y (pubKey x).
Proof.
  intros Hx Hy. unfold secret, big_SetBytes. pose proof mse_p_range.
  rewrite !pubKey_be by done. rewrite !be_decode_encode.
  - by rewrite big_Exp_comm by lia.
  - pose proof (big_Exp_range mse_g x mse_p). lia.
  - pose proof (big_Exp_range mse_g y mse_p). lia.
Qed.

Lemma be2_nat n : Z.of_nat n < 65536 → Z.to_nat (be_decode (be_encode 2 (Z.of_nat n))) = n.
Proof. intros. rewrite be_decode_encode; [lia|]. change (256 ^ Z.of_nat 2) with 65536. lia. Qed.

Lemma length_initerBuf provides n ia : length (initerBuf provides n ia) = (16 + n + length ia)%nat.
Proof. unfold initerBuf, vc. rewrite !length_app, !length_be_encode, !length_replicate. lia. Qed.

Lemma length_hash parts : length (hash parts) = 20%nat.
Proof. apply length_sha1. Qed.

Lemma length_xor_hash a b : length (xor (hash a) (hash b)) = 20%nat.
Proof. unfold xor. by rewrite length_zip_with, !length_hash. Qed.

Lemma establishS_write rnd : psteps (establishS rnd) []
  (b ← preadFull 96; mret (match b with Some Y => Some (secret (big_SetBytes (rndX rnd)) Y) | None => None end)) []
  (pubKey (big_SetBytes (rndX rnd))).
Proof. apply ps_pwrite_end. Qed.

Lemma establishS_read x y : 0 ≤ y →
  psteps (b ← preadFull 96; mret (match b with Some Y => Some (secret x Y) | None => None end)) (pubKey y)
    (PRet (Some (secret x (pubKey y)))) [] [].
Proof. intros Hy. apply (ps_readFull_end 96 (λ b, mret _)). by apply length_pubKey. Qed.

#[local] Opaque pubKey secret newEncrypt hash crypt skip.

Section Agree.
Context (rA rB : mseRand) (skey ia : list Z) (skeys : list (list Z)) (provides : Z) (choose : Z → Z).
Let xA := big_SetBytes (rndX rA).
Let xB := big_SetBytes (rndX rB).
Let Ya := pubKey xA.
Let Yb := pubKey xB.
Let s := secret xA Yb.
Let chosen := choose provides.

(** What the two sides need: random bytes and paddings in range, an initial
    payload that fits its length field, a method both support, and no accident
    of the hashes: the markers do not occur in the random paddings, and only
    the key of the torrent has its hash. *)
Record mseReady : Prop := {
  mr_xA : bytes_ok (rndX rA);
  mr_xB : bytes_ok (rndX rB);
  mr_padA : (length (rndPad rA) ≤ maxPadLen)%nat;
  mr_padB : (length (rndPad rB) ≤ maxPadLen)%nat;
  mr_lenA : (rndPadLen rA ≤ maxPadLen)%nat;
  mr_lenB : (rndPadLen rB ≤ maxPadLen)%nat;
  mr_ia : Z.of_nat (length ia) ≤ 65535;
  mr_provides : in_u32 provides;
  mr_method : chosen = CryptoMethodRC4 ∨ chosen = CryptoMethodPlaintext;
  mr_provided : Z.land chosen provides = chosen;
  mr_skey : skey ∈ skeys;
  mr_hash : ∀ k, k ∈ skeys → xor (hash [req2; k]) (hash [req3; s]) = xor (hash [req2; skey]) (hash [req3; s]) → k = skey;
  mr_syncA : syncs (rndPad rA) (hash [req1; s]);
  mr_syncB : syncs (rndPad rB) (crypt (newEncrypt false s skey) vc) }.

Definition hashesA : list Z := hash [req1; s] ++ xor (hash [req2; skey]) (hash [req3; s]).
Definition encA : list Z := crypt (newEncrypt true s skey) (initerBuf provides (rndPadLen rA) ia).
Definition replyB : list Z := crypt (newEncrypt false s skey) (receiverBuf vc chosen (rndPadLen rB)).

(** The streams the two sides end with: what one encrypts with the other
    decrypts with, at the same position. *)
Definition cA : Cipher := skip (newEncrypt true s skey) (16 + rndPadLen rA + length ia).
Definition cB : Cipher := skip (newEncrypt false s skey) (14 + rndPadLen rB).
Definition stA : rwState := if chosen =? CryptoMethodRC4 then mkRW [] (Some cB) (Some cA) else plainRW.
Definition stB : rwState := if chosen =? CryptoMethodRC4 then mkRW ia (Some cA) (Some cB) else mkRW ia None None.

Hypothesis R : mseReady.

Lemma xA_nonneg : 0 ≤ xA.
Proof. pose proof (be_decode_range _ (mr_xA R)). unfold xA, big_SetBytes. lia. Qed.
Lemma xB_nonneg : 0 ≤ xB.
Proof. pose proof (be_decode_range _ (mr_xB R)). unfold xB, big_SetBytes. lia. Qed.

Lemma readMethod_psteps : psteps readMethod (be_encode 4 chosen ++ be_encode 2 (Z.of_nat (rndPadLen rB)) ++ replicate (rndPadLen rB) 0)
  (PRet (Some chosen)) [] [].
Proof.
  pose proof (mr_lenB R) as Hl. unfold maxPadLen in Hl. unfold readMethod.
  apply ps_readFull; [apply length_be_encode|]. apply ps_readFull; [apply length_be_encode|].
  rewrite <- (app_nil_r (replicate _ _)). apply ps_readFull; [rewrite length_replicate; by rewrite be2_nat by lia|].
  rewrite be_decode_encode; [constructor|]. destruct (mr_method R) as [->| ->]; done.
Qed.

Lemma initerFinish_psteps :
  psteps (initerFinish cA (skip (newEncrypt false s skey) 8) (crypt (newEncrypt false s skey) vc) provides)
    (rndPad rB ++ replyB) (PRet (Good (stA, chosen))) [] [].
Proof.
  unfold initerFinish, replyB, receiverBuf. rewrite crypt_app, app_assoc.
  change (length vc) with 8%nat. set (bC := skip _ 8).
  eapply ps_seq_read.
  { eapply ps_frame. apply readUntil_psteps; [|apply (mr_syncB R)|].
    - unfold vc. cbn [replicate]. by rewrite crypt_cons.
    - rewrite length_crypt. pose proof (mr_padB R). unfold maxPadLen in *. cbn. lia. }
  cbn [negb app]. eapply ps_seq_read.
  { apply layer_read. rewrite crypt_invol. apply readMethod_psteps. }
  cbn [rwR mret proc_ret]. rewrite (mr_provided R). fold chosen.
  rewrite length_crypt, !length_app, !length_be_encode, length_replicate. unfold stA. 
  destruct (mr_method R) as [->| ->]; cbn [Z.eqb Pos.eqb CryptoMethodRC4 CryptoMethodPlaintext].
  - unfold bC, cB. rewrite <- skip_add. constructor.
  - constructor.
Qed.

Lemma readProvides_psteps : psteps readProvides (initerBuf provides (rndPadLen rA) ia) (PRet (Some (vc, provides, ia))) [] [].
Proof.
  pose proof (mr_lenA R) as Hl. unfold maxPadLen in Hl. unfold readProvides, initerBuf.
  apply ps_readFull; [done|]. apply ps_readFull; [apply length_be_encode|]. apply ps_readFull; [apply length_be_encode|].
  apply ps_readFull; [rewrite length_replicate; by rewrite be2_nat by lia|].
  apply ps_readFull; [apply length_be_encode|]. cbn zeta. pose proof (mr_ia R).
  rewrite be2_nat, be_decode_encode by first [lia|apply (mr_provides R)].
  destruct ia as [|x l] eqn:E; [constructor|]. cbn [length Nat.eqb]. rewrite <- (app_nil_r (x :: l)) at 1.
  apply ps_readFull; [done|]. constructor.
Qed.

Lemma matchSkey_found : matchSkey s (xor (hash [req2; skey]) (hash [req3; s])) skeys = Some skey.
Proof.
  unfold matchSkey. destruct (list_find _ skeys) as [[i k]|] eqn:E; cbn.
  - apply list_find_Some in E as (Hk & Hh & _). apply list_elem_of_lookup_2 in Hk. by rewrite (mr_hash R k).
  - apply list_find_None in E. rewrite Forall_forall in E. by destruct (E skey (mr_skey R)).
Qed.

(** A search that succeeds, and a full read after it. *)
Lemma ps_found {A} (m : proc bool) (X : proc A) n (f : option (list Z) → proc A) d i j q l o :
  psteps m i (PRet true) [] [] → length d = n → psteps (f (Some d)) j q l o →
  psteps (found ← m; if negb found then X else preadFull n ≫= f) (i ++ d ++ j) q l o.
Proof.
  intros Hm Hd Hf. eapply ps_seq_read; [by apply ps_frame|]. cbn [negb app]. by apply ps_readFull.
Qed.

Lemma receiverSteps_psteps :
  psteps (receiverSteps rB s skeys choose) (rndPad rA ++ hashesA ++ encA) (PRet (Good (stB, chosen, skey))) [] replyB.
Proof.
  unfold receiverSteps, hashesA. rewrite <- app_assoc, (app_assoc (rndPad rA)).
  apply ps_found; [|apply length_xor_hash|].
  { apply readUntil_psteps; [|apply (mr_syncA R)|].
    - intros E. by pose proof (length_hash [req1; s]) as H; rewrite E in H.
    - rewrite length_hash. pose proof (mr_padA R). unfold maxPadLen in *. lia. }
  cbn beta iota. rewrite matchSkey_found.
  eapply ps_seq_read.
  { apply layer_read. unfold encA. rewrite crypt_invol. apply readProvides_psteps. }
  cbn beta iota. rewrite XORKeyStream_eq. cbn beta iota.
  change (choose provides) with chosen. unfold replyB.
  match goal with |- psteps _ _ _ _ ?o => rewrite <- (app_nil_r o) at 2 end. apply ps_pwrite. cbn [rwR]. unfold encA, stB, cA, cB. rewrite length_crypt, length_initerBuf.
  assert (Hlen : length (receiverBuf vc chosen (rndPadLen rB)) = (14 + rndPadLen rB)%nat).
  { unfold receiverBuf, vc. rewrite !length_app, !length_be_encode, !length_replicate. lia. }
  rewrite Hlen. destruct (mr_method R) as [->| ->]; constructor.
Qed.

(** The three parts of the initiator's run and the two of the receiver's. *)
Lemma initiate_parts : ∃ A1 A2,
  psteps (InitiateHandshake rA skey ia provides) [] A1 [] Ya ∧
  psteps A1 Yb A2 [] (rndPad rA ++ hashesA ++ encA) ∧
  psteps A2 (rndPad rB ++ replyB) (PRet (Good (stA, chosen))) [] [].
Proof.
  do 2 eexists. split_and!.
  - apply ps_bind, establishS_write.
  - eapply ps_seq_read; [apply establishS_read, xB_nonneg|]. cbn beta iota. apply ps_pwrite.
    unfold initerSteps, hashesA. rewrite <- app_assoc. apply ps_pwrite, ps_pwrite.
    rewrite (proj2 (Z.ltb_ge _ _)) by (pose proof (mr_ia R); lia). rewrite !XORKeyStream_eq. cbn beta iota.
    apply ps_pwrite_end.
  - rewrite length_initerBuf. apply initerFinish_psteps.
Qed.

Lemma receive_parts : ∃ B1,
  psteps (ReceiveHandshakeEx rB skeys choose) Ya B1 [] (Yb ++ rndPad rB) ∧
  psteps B1 (rndPad rA ++ hashesA ++ encA) (PRet (Good (stB, chosen, skey))) [] replyB.
Proof.
  eexists. split.
  - rewrite <- (app_nil_l Ya). eapply ps_trans; [apply ps_frame, ps_bind, establishS_write|].
    eapply ps_seq_read; [apply establishS_read, xA_nonneg|]. cbn beta iota.
    apply ps_pwrite_end.
  - fold xB. unfold Ya. rewrite secret_agree; [|apply xB_nonneg|apply xA_nonneg]. apply receiverSteps_psteps.
Qed.
End Agree.
