(* ===== verification/Handshake.v ===== *)
(** Connection handshakes: src/peer_protocol/handshake.go, src/handshake.go and
    the handshaking part of src/client.go.

    A client that initiates a connection runs [initiateHandshakes], the one
    that receives it runs [receiveHandshakes]; both are [proc]s over the raw
    connection, composed of the header obfuscation of Mse.v and the BitTorrent
    handshake.  The [io.ReadWriter] of a connection is a stack of streams, the
    one next to the socket first. *)
From stdpp Require Import base numbers list relations strings.
From Stdlib Require Import ZArith Lia.
From S2P Require Import Prelude Stream Crypto Mse.
Open Scope Z_scope.

(** ** Extension bits *)
Definition ExtensionBitDHT : Z := 0.
Definition ExtensionBitExtended : Z := 20.
Definition ExtensionBitFast : Z := 2.

(** [PeerExtensionBits] is an array of 8 bytes; an index out of range panics. *)
Definition SetBit (pex : list Z) (bit : Z) (on : bool) : go (list Z) :=
  let i := 7 - bit / 8 in
  _ ← guard_go (0 <=? i) "index out of range";
  let b := nth (Z.to_nat i) pex 0 in
  let mask := Z.shiftl 1 (bit mod 8) in
  Ok (<[Z.to_nat i := if on then Z.lor b mask else Z.ldiff b mask]> pex).

Definition GetBit (pex : list Z) (bit : Z) : go bool :=
  let i := 7 - bit / 8 in
  _ ← guard_go (0 <=? i) "index out of range";
  Ok (negb (Z.land (nth (Z.to_nat i) pex 0) (Z.shiftl 1 (bit mod 8)) =? 0)).

Fixpoint NewPeerExtensionBytes_loop (bits : list Z) (ret : list Z) : go (list Z) :=
  match bits with
  | [] => Ok ret
  | b :: bits => ret ← SetBit ret b true; NewPeerExtensionBytes_loop bits ret
  end.

Definition NewPeerExtensionBytes (bits : list Z) : go (list Z) := NewPeerExtensionBytes_loop bits (replicate 8 0).

Definition SupportsExtended (pex : list Z) : go bool := GetBit pex ExtensionBitExtended.
Definition SupportsDHT (pex : list Z) : go bool := GetBit pex ExtensionBitDHT.
Definition SupportsFast (pex : list Z) : go bool := GetBit pex ExtensionBitFast.

Definition defaultPeerExtensionBytes : go (list Z) :=
  NewPeerExtensionBytes [ExtensionBitDHT; ExtensionBitExtended; ExtensionBitFast].

Example default_bits : defaultPeerExtensionBytes = Ok [0; 0; 0; 0; 0; 16; 0; 5].
Proof. by_compute. Qed.

(** ** The BitTorrent handshake *)
Definition Protocol : list Z :=
  [19; 66; 105; 116; 84; 111; 114; 114; 101; 110; 116; 32; 112; 114; 111; 116; 111; 99; 111; 108].

Inductive hsErr : Type :=
| ErrReading                 (** the stream ended inside the handshake *)
| ErrProtocol                (** unexpected protocol string *)
| ErrInfohash                (** peer infohash didn't match *)
| ErrObfuscationDisabled     (** unexpected protocol string and header obfuscation disabled *)
| ErrObfuscationRequired     (** connection does not have required header obfuscation *)
| ErrMse (e : mseErr)
| ErrTimeout.                (** neither side could go on *)

Record HandshakeResult : Type := mkHR { hrExtensions : list Z; hrPeerID : list Z; hrHash : list Z }.

Definition Handshake (ih : option (list Z)) (peerID extensions : list Z) : proc (result hsErr HandshakeResult) :=
  _ ← pwrite Protocol;
  _ ← pwrite extensions;
  _ ← match ih with Some ih => _ ← pwrite ih; pwrite peerID | None => mret tt end;
  b ← preadFull 68;
  match b with
  | None => mret (Bad ErrReading)
  | Some b =>
      if bool_decide (take 20 b = Protocol) then
        let res := mkHR (take 8 (drop 20 b)) (take 20 (drop 48 b)) (take 20 (drop 28 b)) in
        _ ← match ih with Some _ => mret tt | None => _ ← pwrite (hrHash res); pwrite peerID end;
        mret (Good res)
      else mret (Bad ErrProtocol)
  end.

(** ** Stacks of streams *)
Fixpoint over {A} (sts : list rwState) (p : proc A) : proc (A * list rwState) :=
  match sts with
  | [] => a ← p; mret (a, [])
  | st :: sts => '(a, sts', st') ← layer st (over sts p); mret (a, st' :: sts')
  end.

(** ** Header obfuscation of received connections *)
Record HeaderObfuscationPolicy : Type := mkPolicy { RequirePreferred : bool; Preferred : bool }.

(** What a client brings to its handshakes: the configuration, and the info
    hashes of its torrents in the order in which the map is iterated. *)
Record hsClient : Type := mkClient {
  clPeerID : list Z;
  clExtensions : list Z;
  clPolicy : HeaderObfuscationPolicy;
  clProvides : Z;
  clSelector : Z → Z;
  clTorrents : list (list Z) }.

(** Stack, whether the header was obfuscated, crypto method. *)
Definition handleEncryption (rnd : mseRand) (skeys : list (list Z)) (policy : HeaderObfuscationPolicy) (selector : Z → Z) :
    proc (result hsErr (list rwState * bool * Z)) :=
  if negb (RequirePreferred policy) || negb (Preferred policy) then
    b ← preadFull 20;
    match b with
    | None => mret (Bad ErrReading)
    | Some protocol =>
        let rw := mkRW protocol None None in
        if bool_decide (protocol = Protocol) then mret (Good ([rw], false, 0))
        else if RequirePreferred policy then mret (Bad ErrObfuscationDisabled)
        else
          '(r, rw) ← layer rw (ReceiveHandshakeEx rnd skeys selector);
          mret (match r with
                | Good (st, method, _) => Good ([rw; st], true, method)
                | Bad e => Bad (ErrMse e)
                end)
    end
  else
    r ← ReceiveHandshakeEx rnd skeys selector;
    mret (match r with
          | Good (st, method, _) => Good ([st], true, method)
          | Bad e => Bad (ErrMse e)
          end).

(** ** The two sides *)

(** A connection whose handshakes are complete. *)
Record hsConn : Type := mkConn {
  hcTorrent : list Z;          (** info hash of its torrent *)
  hcPeerID : list Z;
  hcExtensions : list Z;
  hcHeaderEncrypted : bool;
  hcCryptoMethod : Z;
  hcRW : list rwState }.

(** What the two sides make of the result of [connBtHandshake]. *)
Definition initiated (infoHash : list Z) (headerEncrypted : bool) (method : Z)
    (res : result hsErr HandshakeResult * list rwState) : result hsErr hsConn :=
  match res with
  | (Bad e, _) => Bad e
  | (Good res, rw) =>
      if bool_decide (hrHash res = infoHash)
      then Good (mkConn infoHash (hrPeerID res) (hrExtensions res) headerEncrypted method rw)
      else Bad ErrInfohash
  end.

(** [Good None] is a connection for no torrent of this client, which is dropped
    without an error. *)
Definition received (cl : hsClient) (headerEncrypted : bool) (method : Z)
    (res : result hsErr HandshakeResult * list rwState) : result hsErr (option hsConn) :=
  match res with
  | (Bad e, _) => Bad e
  | (Good res, rw) =>
      if bool_decide (hrHash res ∈ clTorrents cl)
      then Good (Some (mkConn (hrHash res) (hrPeerID res) (hrExtensions res) headerEncrypted method rw))
      else Good None
  end.

Definition initiateHandshakes (rnd : mseRand) (cl : hsClient) (infoHash : list Z) (headerEncrypted : bool) :
    proc (result hsErr hsConn) :=
  hdr ← (if headerEncrypted : bool then
           r ← InitiateHandshake rnd infoHash [] (clProvides cl);
           mret (match r with Good (st, method) => Good ([st], method) | Bad e => Bad (ErrMse e) end)
         else mret (Good ([], 0)));
  match hdr with
  | Bad e => mret (Bad e)
  | Good (rw, method) =>
      res ← over rw (Handshake (Some infoHash) (clPeerID cl) (clExtensions cl));
      mret (initiated infoHash headerEncrypted method res)
  end.

Definition receiveHandshakes (rnd : mseRand) (cl : hsClient) : proc (result hsErr (option hsConn)) :=
  hdr ← handleEncryption rnd (clTorrents cl) (clPolicy cl) (clSelector cl);
  match hdr with
  | Bad (ErrMse ErrNoSecretKeyMatch) => mret (Good None)
  | Bad e => mret (Bad e)
  | Good (rw, headerEncrypted, method) =>
      if RequirePreferred (clPolicy cl) && negb (Bool.eqb headerEncrypted (Preferred (clPolicy cl)))
      then mret (Bad ErrObfuscationRequired)
      else
        res ← over rw (Handshake None (clPeerID cl) (clExtensions cl));
        mret (received cl headerEncrypted method res)
  end.

(** Who closes the connection: [establishOutgoingConnEx] on an error,
    [incomingConnection] when [runReceivedConn] has no torrent to run it for. *)
Definition closesInitiator (r : result hsErr hsConn) : bool := match r with Good _ => false | Bad _ => true end.
Definition closesReceiver (r : result hsErr (option hsConn)) : bool := match r with Good (Some _) => false | _ => true end.

Definition hsNet (rA rB : mseRand) (clA clB : hsClient) (infoHash : list Z) (headerEncrypted : bool) : net :=
  mkNet (initiateHandshakes rA clA infoHash headerEncrypted) (receiveHandshakes rB clB) [] [].

(** [establishOutgoingConnEx] against a peer that answers: the initiator's
    result of the run of the two. *)
Definition establishOutgoingConnEx (fuel : nat) (rA rB : bool → mseRand) (clA clB : hsClient) (infoHash : list Z)
    (obfuscatedHeader : bool) : result hsErr hsConn :=
  match pa (runNet closesInitiator closesReceiver fuel
              (hsNet (rA obfuscatedHeader) (rB obfuscatedHeader) clA clB infoHash obfuscatedHeader)) with
  | PRet r => r
  | _ => Bad ErrTimeout
  end.

(** [establishOutgoingConn]: the preferred kind of header first, then, unless
    it is required, the other. *)
Definition establishOutgoingConn (policy : HeaderObfuscationPolicy) (ex : bool → result hsErr hsConn) : result hsErr hsConn :=
  let obfuscatedHeaderFirst := Preferred policy in
  match ex obfuscatedHeaderFirst with
  | Good c => Good c
  | Bad e => if RequirePreferred policy then Bad e else ex (negb obfuscatedHeaderFirst)
  end.

(** ** Extension bits, the lemma *)
Lemma nth_insert_list (l : list Z) i j x : (i < List.length l)%nat →
  nth j (<[i := x]> l) 0 = if decide (i = j) then x else nth j l 0.
Proof.
  intros Hi. rewrite !nth_lookup. case_decide as E; [subst|].
  - by rewrite list_lookup_insert_eq.
  - by rewrite list_lookup_insert_ne.
Qed.

Lemma land_bit_test b k : 0 ≤ k → negb (Z.land b (Z.shiftl 1 k) =? 0) = Z.testbit b k.
Proof.
  intros Hk. rewrite Z.shiftl_1_l. destruct (Z.testbit b k) eqn:E.
  - destruct (Z.eqb_spec (Z.land b (2 ^ k)) 0) as [H|]; [|done].
    apply (f_equal (λ z, Z.testbit z k)) in H. by rewrite Z.land_spec, E, Z.pow2_bits_true, Z.bits_0 in H by lia.
  - destruct (Z.eqb_spec (Z.land b (2 ^ k)) 0) as [|H]; [done|]. destruct H. apply Z.bits_inj'. intros n Hn.
    rewrite Z.land_spec, Z.bits_0, Z.pow2_bits_eqb by lia. destruct (Z.eqb_spec k n) as [<-|]; [by rewrite E|].
    apply andb_false_r.
Qed.

(** Setting a bit sets that bit and no other. *)
Lemma GetBit_SetBit pex bit on bit' : List.length pex = 8%nat → 0 ≤ bit < 64 → 0 ≤ bit' < 64 →
  ∃ pex', SetBit pex bit on = Ok pex' ∧ List.length pex' = 8%nat ∧
    GetBit pex' bit' = if decide (bit = bit') then Ok on else GetBit pex bit'.
Proof.
  intros Hl Hb Hb'. unfold SetBit, GetBit.
  assert (Hr : ∀ b, 0 ≤ b < 64 → 0 ≤ 7 - b / 8 < 8 ∧ 0 ≤ b mod 8 < 8 ∧ b = 8 * (b / 8) + b mod 8).
  { intros b Hbb. pose proof (Z.div_mod b 8 ltac:(lia)). pose proof (Z.mod_pos_bound b 8 ltac:(lia)). lia. }
  destruct (Hr bit Hb) as (Hi & Hm & E), (Hr bit' Hb') as (Hi' & Hm' & E').
  rewrite !(proj2 (Z.leb_le _ _)) by lia. cbn [guard_go mbind go_bind]. eexists. split; [done|].
  split; [by rewrite length_insert|].
  rewrite nth_insert_list by lia. rewrite !land_bit_test by lia.
  case_decide as D; case_decide as D2; [|..|done].
  - subst bit'. destruct on; f_equal; rewrite ?Z.lor_spec, ?Z.ldiff_spec, Z.shiftl_1_l, Z.pow2_bits_true by lia.
    + apply orb_true_r.
    + apply andb_false_r.
  - assert (bit mod 8 ≠ bit' mod 8) by lia. rewrite <- D.
    destruct on; f_equal; rewrite ?Z.lor_spec, ?Z.ldiff_spec, Z.shiftl_1_l, Z.pow2_bits_false by lia.
    + apply orb_false_r.
    + apply andb_true_r.
  - subst. done.
Qed.

(** ** Stacks *)
Definition rdC (sts : list rwState) : list Cipher := omap rwR sts.
Definition wrC (sts : list rwState) : list Cipher := omap rwW sts.
Definition noPre (sts : list rwState) : Prop := Forall (λ st, rwPre st = []) sts.

(** What writing through a stack sends, and what reading through it yields. *)
Fixpoint stackEnc (sts : list rwState) (d : list Z) : list Z :=
  match sts with [] => d | st :: sts => enc (rwW st) (stackEnc sts d) end.
Fixpoint stackDec (sts : list rwState) (raw : list Z) : list Z :=
  match sts with [] => raw | st :: sts => stackDec sts (view st raw) end.
Fixpoint stackAdv (sts : list rwState) (i o : nat) : list rwState :=
  match sts with
  | [] => []
  | st :: sts => mkRW [] (adv (rwR st) i) (adv (rwW st) o) :: stackAdv sts (List.length (rwPre st) + i) o
  end.

Lemma length_stackEnc sts d : List.length (stackEnc sts d) = List.length d.
Proof. induction sts; cbn; [done|]. by rewrite length_enc. Qed.

Lemma stackEnc_nil sts : stackEnc sts [] = [].
Proof. induction sts as [|st sts IH]; [done|]. cbn. by rewrite IH, enc_nil. Qed.

Lemma over_ret {A} sts (a : A) : over sts (PRet a) = PRet (a, sts).
Proof. induction sts as [|st sts IH]; cbn; [done|]. by rewrite IH. Qed.

Lemma over_all {A} sts : ∀ (p p' : proc A) raw o, psteps p (stackDec sts raw) p' [] o →
  psteps (over sts p) raw (over (stackAdv sts (List.length raw) (List.length o)) p') [] (stackEnc sts o).
Proof.
  induction sts as [|st sts IH]; intros p p' raw o H; cbn [over stackAdv stackEnc stackDec] in *; [by apply ps_bind|].
  apply ps_bind. apply IH in H. apply layer_all in H. rewrite length_stackEnc in H.
  assert (Hv : List.length (view st raw) = (List.length (rwPre st) + List.length raw)%nat)
    by (unfold view; by rewrite length_app, length_enc).
  by rewrite Hv in H.
Qed.

(** Stacks whose ciphers mirror each other. *)
Definition mirror (sA sB : list rwState) : Prop :=
  noPre sA ∧ noPre sB ∧ rdC sB = wrC sA ∧ rdC sA = wrC sB.

Lemma stackEnc_wrC sts d : stackEnc sts d = foldr crypt d (wrC sts).
Proof. induction sts as [|[p r [w|]] sts IH]; cbn; [done|..]; by rewrite IH. Qed.
Lemma stackDec_rdC sts raw : noPre sts → stackDec sts raw = foldl (λ d c, crypt c d) raw (rdC sts).
Proof.
  intros H. revert raw. induction H as [|[p r w] sts Hp Hs IH]; intros raw; [done|]. cbn in Hp. subst p.
  cbn [stackDec]. rewrite IH. by destruct r.
Qed.

(** What one side writes the other reads. *)
Definition inSync (sA sB : list rwState) : Prop := ∀ d, stackDec sB (stackEnc sA d) = d.

Lemma mirror_inSync sA sB : mirror sA sB → inSync sA sB ∧ inSync sB sA.
Proof.
  assert (Hinv : ∀ l d, foldl (λ d c, crypt c d) (foldr crypt d l) l = d).
  { induction l as [|c l IH]; intros d; [done|]. cbn. by rewrite crypt_invol. }
  intros (HA & HB & E1 & E2). split; intros d; rewrite stackEnc_wrC, stackDec_rdC by done.
  - by rewrite E1.
  - by rewrite E2.
Qed.

Lemma noPre_adv sts i o : noPre (stackAdv sts i o).
Proof. revert i. induction sts; intros i; constructor; [done|apply IHsts]. Qed.
Lemma rdC_adv sts i o : noPre sts → rdC (stackAdv sts i o) = (λ c, skip c i) <$> rdC sts.
Proof.
  intros H. induction H as [|[p r w] sts Hp Hs IH]; [done|]. cbn in Hp. subst p. cbn [stackAdv List.length Nat.add rwPre].
  unfold rdC in *. cbn. rewrite IH. by destruct r.
Qed.
Lemma wrC_adv sts i o : wrC (stackAdv sts i o) = (λ c, skip c o) <$> wrC sts.
Proof. revert i. induction sts as [|[p r w] sts IH]; intros i; [done|]. unfold wrC in *. cbn. rewrite IH. by destruct w. Qed.

Lemma stackAdv_add sts a b c d : noPre sts → stackAdv (stackAdv sts a b) c d = stackAdv sts (a + c) (b + d).
Proof.
  induction 1 as [|[p r w] sts Hp Hs IH]; [done|]. cbn in Hp. subst p. cbn. rewrite <- !adv_add. by f_equal.
Qed.

Lemma mirror_adv sA sB a b : mirror sA sB → mirror (stackAdv sA b a) (stackAdv sB a b).
Proof.
  intros (HA & HB & E1 & E2). split_and!; [apply noPre_adv..| |]; rewrite rdC_adv, wrC_adv by done; congruence.
Qed.

(** ** The BitTorrent handshake *)
Definition hsMsg (cl : hsClient) (ih : list Z) : list Z := Protocol ++ clExtensions cl ++ ih ++ clPeerID cl.

(** Identifiers and extension bits have their lengths. *)
Definition clientOk (cl : hsClient) : Prop :=
  List.length (clPeerID cl) = 20%nat ∧ List.length (clExtensions cl) = 8%nat.

Definition hsResult (cl : hsClient) (ih : list Z) : HandshakeResult := mkHR (clExtensions cl) (clPeerID cl) ih.

Lemma length_hsMsg cl ih : clientOk cl → List.length ih = 20%nat → List.length (hsMsg cl ih) = 68%nat.
Proof. intros [H1 H2] H3. unfold hsMsg. rewrite !length_app, H1, H2, H3. done. Qed.

Lemma hsMsg_parse cl ih : clientOk cl → List.length ih = 20%nat →
  take 20 (hsMsg cl ih) = Protocol ∧
  mkHR (take 8 (drop 20 (hsMsg cl ih))) (take 20 (drop 48 (hsMsg cl ih))) (take 20 (drop 28 (hsMsg cl ih))) = hsResult cl ih.
Proof.
  intros [H1 H2] H3. unfold hsMsg. split; [by rewrite take_app_length'|].
  assert (E20 : drop 20 (hsMsg cl ih) = clExtensions cl ++ ih ++ clPeerID cl) by (by unfold hsMsg; rewrite drop_app_length').
  assert (E28 : drop 28 (hsMsg cl ih) = ih ++ clPeerID cl).
  { change 28%nat with (20 + 8)%nat. rewrite <- drop_drop, E20. by rewrite drop_app_length'. }
  assert (E48 : drop 48 (hsMsg cl ih) = clPeerID cl).
  { change 48%nat with (28 + 20)%nat. rewrite <- drop_drop, E28. by rewrite drop_app_length'. }
  unfold hsMsg in E20, E28, E48. rewrite E20, E28, E48. unfold hsResult.
  rewrite !take_app_length' by done. by rewrite take_ge by lia.
Qed.

Lemma Handshake_initiator clA clB ih : clientOk clB → List.length ih = 20%nat → ∃ H1,
  psteps (Handshake (Some ih) (clPeerID clA) (clExtensions clA)) [] H1 [] (hsMsg clA ih) ∧
  psteps H1 (hsMsg clB ih) (PRet (Good (hsResult clB ih))) [] [].
Proof.
  intros HB Hih. eexists. split.
  - unfold Handshake, hsMsg. apply ps_pwrite, ps_pwrite. eapply ps_trans; [|apply ps_pwrite_end].
    apply ps_bind, ps_pwrite_end.
  - cbn beta iota. eapply ps_after; [apply ps_readFull_end; by apply length_hsMsg|].
    destruct (hsMsg_parse clB ih HB Hih) as [E1 E2]. cbn beta iota. rewrite E1, bool_decide_eq_true_2 by done.
    cbn zeta. rewrite E2. apply ps_refl.
Qed.

Lemma Handshake_receiver clA clB ih : clientOk clA → List.length ih = 20%nat →
  psteps (Handshake None (clPeerID clB) (clExtensions clB)) (hsMsg clA ih) (PRet (Good (hsResult clA ih))) [] (hsMsg clB ih).
Proof.
  intros HA Hih. unfold Handshake. destruct (hsMsg_parse clA ih HA Hih) as [E1 E2]. unfold hsMsg at 2.
  apply ps_pwrite, ps_pwrite. eapply ps_seq_read; [apply ps_refl|].
  eapply ps_after; [apply ps_readFull_end; by apply length_hsMsg|].
  cbn beta iota. rewrite E1, bool_decide_eq_true_2 by done. cbn zeta. rewrite E2.
  rewrite <- (app_nil_r (ih ++ clPeerID clB)). eapply ps_seq; [|apply ps_refl].
  apply ps_pwrite, ps_pwrite1.
Qed.

Definition accepts (p : HeaderObfuscationPolicy) (h : bool) : bool :=
  negb (RequirePreferred p) || Bool.eqb (Preferred p) h.

#[local] Opaque pubKey secret newEncrypt hash crypt skip.

Section Agree.
Context (rA rB : mseRand) (clA clB : hsClient) (ih : list Z).
Hypothesis (HA : clientOk clA) (HB : clientOk clB) (Hih : List.length ih = 20%nat) (Hloaded : ih ∈ clTorrents clB).

Lemma bt_steps {A B} (cA : A → bool) (cB : B → bool) sA sB (fA : _ → proc A) (fB : _ → proc B) : mirror sA sB →
  ∃ sA' sB', mirror sA' sB' ∧
    rtc (step cA cB)
      (mkNet (over sA (Handshake (Some ih) (clPeerID clA) (clExtensions clA)) ≫= fA)
             (over sB (Handshake None (clPeerID clB) (clExtensions clB)) ≫= fB) [] [])
      (mkNet (fA (Good (hsResult clB ih), sA')) (fB (Good (hsResult clA ih), sB')) [] []).
Proof.
  intros Hm. destruct (mirror_inSync sA sB Hm) as [HAB HBA]. destruct (Handshake_initiator clA clB ih HB Hih) as (H1 & P1 & P2).
  assert (Hnil : ∀ sts, noPre sts → stackDec sts [] = []).
  { intros sts Hs. rewrite stackDec_rdC by done. clear. induction (rdC sts); [done|]. cbn. done. }
  assert (Q1 := over_all sA _ _ [] _ (eq_ind_r (λ x, psteps _ x _ _ _) P1 (Hnil sA (proj1 Hm)))).
  rewrite length_hsMsg in Q1 by done. cbn [List.length] in Q1. set (sA1 := stackAdv sA 0 68) in Q1.
  assert (Q2 := over_all sB _ _ (stackEnc sA (hsMsg clA ih)) _ (eq_ind_r (λ x, psteps _ x _ _ _) (Handshake_receiver clA clB ih HA Hih) (HAB _))).
  rewrite length_stackEnc, !length_hsMsg in Q2 by done. rewrite over_ret in Q2.
  set (sB1 := stackAdv sB 68 68) in *.
  assert (Hm2 : inSync sB sA1).
  { intros d. rewrite stackDec_rdC, stackEnc_wrC by apply noPre_adv. unfold sA1. rewrite rdC_adv by apply Hm.
    destruct Hm as (_ & _ & _ & E). rewrite E. replace ((λ c, skip c 0) <$> wrC sB) with (wrC sB).
    - clear. generalize (wrC sB). intros l. induction l as [|c l IH]; cbn; [done|]. by rewrite crypt_invol.
    - symmetry. rewrite <- (list_fmap_id (wrC sB)) at 2. apply list_fmap_ext. done. }
  assert (Q3 := over_all sA1 _ _ (stackEnc sB (hsMsg clB ih)) _ (eq_ind_r (λ x, psteps _ x _ _ _) P2 (Hm2 _))).
  rewrite length_stackEnc, !length_hsMsg in Q3 by done. rewrite over_ret in Q3. cbn [List.length] in Q3.
  exists (stackAdv sA1 68 0), sB1. split.
  - unfold sA1, sB1.
    rewrite stackAdv_add by apply Hm. by apply mirror_adv.
  - etransitivity; [apply (net_a cA cB), ps_bind, Q1|]. cbn [app].
    etransitivity; [apply (net_b cA cB), ps_bind, Q2|]. cbn [app].
    etransitivity; [apply (net_a cA cB), ps_bind, Q3|]. 
    by rewrite stackEnc_nil.
Qed.

(** Header obfuscation, given what the two sides send and end with. *)
Section Obfuscated.
Context (skey Ya Yb padB msgA reply : list Z) (method : Z) (st_A st_B : rwState).
Hypothesis
  (Hinit : ∃ A1 A2,
    psteps (InitiateHandshake rA ih [] (clProvides clA)) [] A1 [] Ya ∧
    psteps A1 Yb A2 [] msgA ∧
    psteps A2 (padB ++ reply) (PRet (Good (st_A, method))) [] [])
  (Hrecv : ∃ B1,
    psteps (ReceiveHandshakeEx rB (clTorrents clB) (clSelector clB)) Ya B1 [] (Yb ++ padB) ∧
    psteps B1 msgA (PRet (Good (st_B, method, skey))) [] reply)
  (Hmirror : mirror [st_A] [st_B])
  (Hacc : accepts (clPolicy clB) true = true) (HlYa : List.length Ya = 96%nat) (HYa : take 20 Ya ≠ Protocol).

Lemma handleEncryption_parts : ∃ B1 sB,
  mirror [st_A] sB ∧
  psteps (handleEncryption rB (clTorrents clB) (clPolicy clB) (clSelector clB)) Ya B1 [] (Yb ++ padB) ∧
  psteps B1 msgA (PRet (Good (sB, true, method))) [] reply.
Proof.
  destruct Hrecv as (B1 & P1 & P2). unfold handleEncryption. destruct (negb _ || negb _) eqn:Epeek.
  - assert (EY : Ya = take 20 Ya ++ drop 20 Ya) by by rewrite take_drop.
    set (rw := mkRW (take 20 Ya) None None).
    assert (EV : view rw (drop 20 Ya) = Ya) by (unfold view; cbn; by rewrite take_drop).
    assert (Q1 := layer_all _ _ rw (drop 20 Ya) _ (eq_ind_r (λ x, psteps _ x _ _ _) P1 EV)). cbn [rw rwR rwW adv enc] in Q1.
    assert (Q2 := layer_all _ _ plainRW _ _ P2). cbn [plainRW rwR rwW adv enc layer] in Q2.
    eexists _, [plainRW; st_B]. split_and!.
    + destruct Hmirror as (H1 & H2 & H3 & H4). split_and!; [done|by constructor|done..].
    + rewrite EY at 1. apply ps_readFull; [rewrite length_take_le; lia|]. cbn beta iota zeta. rewrite bool_decide_eq_false_2 by done.
      destruct (RequirePreferred (clPolicy clB)) eqn:Er.
      { exfalso. unfold accepts in Hacc. rewrite Er in *. by destruct (Preferred (clPolicy clB)). }
      apply ps_bind. exact Q1.
    + rewrite <- (app_nil_r reply). eapply ps_seq; [exact Q2|]. apply ps_refl.
  - eexists _, [st_B]. split_and!; [done|by apply ps_bind, P1|].
    rewrite <- (app_nil_r reply). eapply ps_seq; [exact P2|]. apply ps_refl.
Qed.

Lemma obfuscated_outcome_of : ∃ sA sB, mirror sA sB ∧
  outcome closesInitiator closesReceiver (hsNet rA rB clA clB ih true)
    (Good (mkConn ih (clPeerID clB) (clExtensions clB) true method sA))
    (Good (Some (mkConn ih (clPeerID clA) (clExtensions clA) true method sB))).
Proof.
  destruct handleEncryption_parts as (B1 & sB & Hm & P1 & P2), Hinit as (A1 & A2 & I1 & I2 & I3).
  unfold hsNet, initiateHandshakes, receiveHandshakes.
  destruct (bt_steps closesInitiator closesReceiver _ sB (λ res, mret (initiated ih true method res))
    (λ res, mret (received clB true method res)) Hm) as (sA' & sB' & Hm' & Hbt).
  exists sA', sB'. split; [done|]. eapply net_outcome.
  - etransitivity; [apply net_a, ps_bind, ps_bind, I1|]. cbn [app].
    etransitivity; [apply net_b, ps_bind, P1|]. cbn [app].
    etransitivity; [apply net_a, ps_bind, ps_bind, ps_frame, I2|]. cbn [app].
    etransitivity; [apply net_b, ps_bind, P2|].
    etransitivity; [apply net_a, ps_bind, ps_bind, I3|]. cbn [app]. rewrite !proc_bind_ret. cbn beta iota.
    replace (RequirePreferred (clPolicy clB) && negb (Bool.eqb true (Preferred (clPolicy clB)))) with false; [exact Hbt|].
    revert Hacc. unfold accepts. by destruct (RequirePreferred _), (Preferred _).
  - cbn. by rewrite bool_decide_eq_true_2.
  - cbn. by rewrite bool_decide_eq_true_2.
Qed.
End Obfuscated.

Lemma plain_outcome : accepts (clPolicy clB) false = true → ∃ sA sB, mirror sA sB ∧
  outcome closesInitiator closesReceiver (hsNet rA rB clA clB ih false)
    (Good (mkConn ih (clPeerID clB) (clExtensions clB) false 0 sA))
    (Good (Some (mkConn ih (clPeerID clA) (clExtensions clA) false 0 sB))).
Proof.
  intros Hacc. destruct (Handshake_initiator clA clB ih HB Hih) as (H1 & P1 & P2).
  set (rw := mkRW Protocol None None). set (raw := clExtensions clA ++ ih ++ clPeerID clA).
  assert (EV : stackDec [rw] raw = hsMsg clA ih) by done.
  assert (Q := over_all [rw] _ _ raw _ (eq_ind_r (λ x, psteps _ x _ _ _) (Handshake_receiver clA clB ih HA Hih) EV)).
  rewrite over_ret in Q. cbn [stackEnc rw rwW enc] in Q.
  exists [], (stackAdv [rw] (List.length raw) (List.length (hsMsg clB ih))). split; [by repeat constructor|].
  unfold hsNet, initiateHandshakes, receiveHandshakes, handleEncryption.
  rewrite proc_bind_ret. cbn beta iota. cbn [over].
  replace (negb _ || negb _) with true by (revert Hacc; unfold accepts; by destruct (RequirePreferred _), (Preferred _)).
  eapply net_outcome.
  - etransitivity; [apply net_a, ps_bind, ps_bind, P1|]. cbn [app].
    etransitivity; [apply net_b, ps_bind|].
    { unfold hsMsg. apply ps_readFull; [done|]. cbn beta iota zeta. rewrite bool_decide_eq_true_2 by done. apply ps_refl. }
    cbn [app]. unfold mret, proc_ret. rewrite proc_bind_ret. cbn beta iota.
    replace (RequirePreferred (clPolicy clB) && negb (Bool.eqb false (Preferred (clPolicy clB)))) with false
      by (revert Hacc; unfold accepts; by destruct (RequirePreferred _), (Preferred _)).
    etransitivity; [apply net_b, ps_bind, Q|]. cbn [app].
    etransitivity; [apply net_a, ps_bind, ps_bind, P2|]. rewrite !proc_bind_ret. reflexivity.
  - cbn. by rewrite bool_decide_eq_true_2.
  - cbn. by rewrite bool_decide_eq_true_2.
Qed.

(** A receiver that insists on the other kind of header: both sides fail. *)
Lemma refused_obfuscated : clPolicy clB = mkPolicy true false → bytes_ok (rndX rA) →
  take 20 (pubKey (big_SetBytes (rndX rA))) ≠ Protocol →
  outcome closesInitiator closesReceiver (hsNet rA rB clA clB ih true) (Bad (ErrMse ErrSecret)) (Bad ErrObfuscationDisabled).
Proof.
  intros Hpol Hx Hne. pose proof (establishS_write rA) as HE. revert Hne HE.
  assert (Hl : List.length (pubKey (big_SetBytes (rndX rA))) = 96%nat).
  { apply length_pubKey. pose proof (be_decode_range _ Hx). unfold big_SetBytes. lia. }
  revert Hl. generalize (pubKey (big_SetBytes (rndX rA))). intros Ya Hl Hne HE.
  unfold hsNet, initiateHandshakes, receiveHandshakes, handleEncryption, InitiateHandshake. rewrite Hpol. cbn [RequirePreferred Preferred negb orb].
  eapply net_outcome.
  - etransitivity; [apply net_a, ps_bind, ps_bind, ps_bind, HE|]. cbn [app].
    etransitivity; [apply net_b, ps_bind|].
    { apply ps_readFull_take; [lia|]. cbn beta iota zeta.
      rewrite bool_decide_eq_false_2 by done. apply ps_refl. }
    cbn [app]. eapply rtc_l; [apply net_a_eof; [done|cbn; lia]|]. reflexivity.
  - reflexivity.
  - reflexivity.
Qed.

Lemma refused_plain : clPolicy clB = mkPolicy true true → bytes_ok (rndX rB) →
  take 20 (pubKey (big_SetBytes (rndX rB))) ≠ Protocol →
  outcome closesInitiator closesReceiver (hsNet rA rB clA clB ih false) (Bad ErrProtocol) (Bad (ErrMse ErrSecret)).
Proof.
  intros Hpol Hx Hne. pose proof (establishS_write rB) as HE. revert Hne HE.
  assert (Hl : List.length (pubKey (big_SetBytes (rndX rB))) = 96%nat).
  { apply length_pubKey. pose proof (be_decode_range _ Hx). unfold big_SetBytes. lia. }
  revert Hl. generalize (pubKey (big_SetBytes (rndX rB))). intros Yb Hl Hne HE.
  unfold hsNet, initiateHandshakes, receiveHandshakes, handleEncryption, ReceiveHandshakeEx. rewrite Hpol. cbn [RequirePreferred Preferred negb orb].
  rewrite proc_bind_ret. cbn beta iota. cbn [over].
  eapply net_outcome.
  - etransitivity; [apply net_b, ps_bind, ps_bind, ps_bind, HE|]. cbn [app].
    etransitivity; [apply net_a, ps_bind, ps_bind|].
    { unfold Handshake. apply ps_pwrite, ps_pwrite. eapply ps_seq; [apply ps_pwrite, ps_pwrite1|].
      apply ps_readFull_take; [lia|]. cbn beta iota zeta.
      rewrite take_take, bool_decide_eq_false_2 by done. apply ps_refl. }
    cbn [app]. eapply rtc_l; [apply net_b_eof; [done|]|reflexivity].
    rewrite app_nil_r, !length_app. destruct HA as [-> ->]. rewrite Hih. cbn. lia.
  - reflexivity.
  - reflexivity.
Qed.
End Agree.

(** The public key of a side does not start with the protocol string. *)
Definition keyDiffers (rnd : mseRand) : Prop := take 20 (pubKey (big_SetBytes (rndX rnd))) ≠ Protocol.

#[export] Instance keyDiffers_dec rnd : Decision (keyDiffers rnd).
Proof. unfold keyDiffers. apply _. Defined.

(** The connections the two sides end with: each knows the other, both have the
    torrent and the method, and what one writes the other reads. *)
Definition agreed (clA clB : hsClient) (ih : list Z) (h : bool) (cA cB : hsConn) : Prop :=
  hcTorrent cA = ih ∧ hcTorrent cB = ih ∧
  hcPeerID cA = clPeerID clB ∧ hcPeerID cB = clPeerID clA ∧
  hcExtensions cA = clExtensions clB ∧ hcExtensions cB = clExtensions clA ∧
  hcHeaderEncrypted cA = h ∧ hcHeaderEncrypted cB = h ∧
  hcCryptoMethod cA = hcCryptoMethod cB ∧
  inSync (hcRW cA) (hcRW cB) ∧ inSync (hcRW cB) (hcRW cA).

Lemma mirror_mse rA rB skey provides choose : mirror [stA rA rB skey [] provides choose] [stB rA rB skey [] provides choose].
Proof. unfold mirror, noPre, stA, stB. destruct (_ =? _); split_and!; by repeat constructor. Qed.

Lemma agree rA rB clA clB ih h :
  clientOk clA → clientOk clB → List.length ih = 20%nat → ih ∈ clTorrents clB →
  accepts (clPolicy clB) h = true →
  (h = true → mseReady rA rB ih [] (clTorrents clB) (clProvides clA) (clSelector clB) ∧ keyDiffers rA) →
  ∃ cA cB, agreed clA clB ih h cA cB ∧
    outcome closesInitiator closesReceiver (hsNet rA rB clA clB ih h) (Good cA) (Good (Some cB)).
Proof.
  intros HA HB Hih Hin Hacc Hready. destruct h.
  - destruct (Hready eq_refl) as [HR HY].
    destruct (obfuscated_outcome_of rA rB clA clB ih HA HB Hih Hin _ _ _ _ _ _ _ _ _
      (initiate_parts _ _ _ _ _ _ _ HR) (receive_parts _ _ _ _ _ _ _ HR) (mirror_mse _ _ _ _ _) Hacc
      (length_pubKey _ (xA_nonneg _ _ _ _ _ _ _ HR)) HY) as (sA & sB & [H1 H2]%mirror_inSync & Ho).
    eexists _, _. split; [|exact Ho]. done.
  - destruct (plain_outcome rA rB clA clB ih HA HB Hih Hin Hacc) as (sA & sB & [H1 H2]%mirror_inSync & Ho).
    eexists _, _. split; [|exact Ho]. done.
Qed.

(** C12. Two clients that talk to each other complete their handshakes.  When
    the receiver has the torrent and its policy admits the kind of header the
    initiator uses, every way of scheduling the two ends, and ends with
    connections on which both know the other's peer id and extension bits, the
    torrent and the crypto method, and whose streams are in step: what one side
    writes after the handshakes the other reads, in both directions. *)
Theorem handshakes_agree rA rB clA clB ih h :
  clientOk clA → clientOk clB → List.length ih = 20%nat → ih ∈ clTorrents clB →
  accepts (clPolicy clB) h = true →
  (h = true → mseReady rA rB ih [] (clTorrents clB) (clProvides clA) (clSelector clB) ∧ keyDiffers rA) →
  ∃ cA cB, agreed clA clB ih h cA cB ∧
    outcome closesInitiator closesReceiver (hsNet rA rB clA clB ih h) (Good cA) (Good (Some cB)).
Proof. apply agree. Qed.

(** Two attempts, each with its own random choices. *)
Record hsReady (rA rB : bool → mseRand) (clA clB : hsClient) (ih : list Z) : Prop := {
  hr_A : clientOk clA;
  hr_B : clientOk clB;
  hr_ih : List.length ih = 20%nat;
  hr_loaded : ih ∈ clTorrents clB;
  hr_mse : mseReady (rA true) (rB true) ih [] (clTorrents clB) (clProvides clA) (clSelector clB);
  hr_x : bytes_ok (rndX (rB false));
  hr_keyA : keyDiffers (rA true);
  hr_keyB : keyDiffers (rB false) }.

Lemma ex_outcome rA rB clA clB ih h a b :
  outcome closesInitiator closesReceiver (hsNet (rA h) (rB h) clA clB ih h) a b →
  ∃ f, ∀ fuel, (f ≤ fuel)%nat → establishOutgoingConnEx fuel rA rB clA clB ih h = a.
Proof.
  intros [f Hf]%outcome_run. exists f. intros fuel Hle. unfold establishOutgoingConnEx. by destruct (Hf fuel Hle) as [-> _].
Qed.

Lemma ex_result rA rB clA clB ih h : hsReady rA rB clA clB ih →
  ∃ f r, (∀ fuel, (f ≤ fuel)%nat → establishOutgoingConnEx fuel rA rB clA clB ih h = r) ∧
    if accepts (clPolicy clB) h then ∃ cA cB, r = Good cA ∧ agreed clA clB ih h cA cB else ∃ e, r = Bad e.
Proof.
  intros []. destruct (accepts (clPolicy clB) h) eqn:Hacc.
  - destruct (agree (rA h) (rB h) clA clB ih h) as (cA & cB & Hag & Ho); [done..| |].
    { intros ->. done. }
    apply ex_outcome in Ho as [f Hf]. eauto 10.
  - assert (Hpol : clPolicy clB = mkPolicy true (negb h)).
    { revert Hacc. unfold accepts. by destruct (clPolicy clB) as [[] []], h. }
    assert (∃ e b, outcome closesInitiator closesReceiver (hsNet (rA h) (rB h) clA clB ih h) (Bad e) b) as (e & b & Ho).
    { destruct h; do 2 eexists.
      - by apply refused_obfuscated; [..|apply hr_mse0|].
      - by apply refused_plain. }
    apply ex_outcome in Ho as [f Hf]. eauto 10.
Qed.

(** C11. Establishing an outgoing connection falls back correctly.  Whatever the
    two header obfuscation policies are, dialling a client that has the torrent
    yields a connection exactly when some kind of header suits both policies;
    the connection then uses the kind the initiator prefers if the receiver
    admits it, and otherwise the other one. *)
Theorem establishOutgoingConn_connects rA rB clA clB ih : hsReady rA rB clA clB ih →
  ∃ f, ∀ fuel, (f ≤ fuel)%nat →
    let pA := clPolicy clA in let pB := clPolicy clB in
    match establishOutgoingConn pA (establishOutgoingConnEx fuel rA rB clA clB ih) with
    | Good c => ∃ c', agreed clA clB ih (hcHeaderEncrypted c) c c' ∧
        accepts pA (hcHeaderEncrypted c) = true ∧ accepts pB (hcHeaderEncrypted c) = true ∧
        (accepts pB (Preferred pA) = true → hcHeaderEncrypted c = Preferred pA)
    | Bad _ => ∀ h, accepts pA h && accepts pB h = false
    end.
Proof.
  intros HR. destruct (ex_result rA rB clA clB ih (Preferred (clPolicy clA)) HR) as (f1 & r1 & H1 & C1).
  destruct (ex_result rA rB clA clB ih (negb (Preferred (clPolicy clA))) HR) as (f2 & r2 & H2 & C2).
  exists (f1 + f2)%nat. intros fuel Hf. cbn zeta. unfold establishOutgoingConn. rewrite H1, H2 by lia.
  destruct (clPolicy clA) as [rq pf]. cbn [RequirePreferred Preferred] in *.
  destruct (accepts (clPolicy clB) pf) eqn:E1.
  - destruct C1 as (cA & cB & -> & Hag). exists cB. assert (hcHeaderEncrypted cA = pf) as -> by apply Hag.
    split_and!; try done. unfold accepts. cbn. by destruct rq, pf.
  - destruct C1 as (e & ->). destruct rq.
    + intros h. unfold accepts at 1. cbn. by destruct pf, h; rewrite ?E1.
    + destruct (accepts (clPolicy clB) (negb pf)) eqn:E2.
      * destruct C2 as (cA & cB & -> & Hag). exists cB. assert (hcHeaderEncrypted cA = negb pf) as -> by apply Hag. done.
      * destruct C2 as (e2 & ->). intros h. destruct (Bool.eqb_spec pf h) as [<-|Hne]; [by rewrite E1, andb_false_r|].
        assert (h = negb pf) as -> by (by destruct pf, h). by rewrite E2, andb_false_r.
Qed.

(** ** Witnesses: the handshakes computed *)
Module HandshakeExample.
Definition ih : list Z := replicate 20 7.
Definition rnd (seed : Z) : mseRand :=
  mkRand (replicate 19 0 ++ [seed]) (map (λ i, (seed * 3 + i) mod 256) (seqZ 0 11)) 5.
Definition rA (h : bool) : mseRand := rnd (if h then 101 else 102).
Definition rB (h : bool) : mseRand := rnd (if h then 103 else 104).

(** The initiator prefers an obfuscated header, the receiver insists on a plain
    one; or it takes either. *)
Definition clA : hsClient :=
  mkClient (replicate 20 65) [0; 0; 0; 0; 0; 16; 0; 5] (mkPolicy false true) AllSupportedCrypto DefaultCryptoSelector [ih].
Definition clB (p : HeaderObfuscationPolicy) : hsClient :=
  mkClient (replicate 20 66) [0; 0; 0; 0; 0; 16; 0; 4] p AllSupportedCrypto (λ _, CryptoMethodRC4) [ih].

Lemma ready p : mseReady (rA true) (rB true) ih [] (clTorrents (clB p)) (clProvides clA) (clSelector (clB p)).
Proof.
  constructor.
  - by_decide.
  - by_decide.
  - by_decide.
  - by_decide.
  - by_decide.
  - by_decide.
  - done.
  - done.
  - by left.
  - done.
  - by apply list_elem_of_singleton.
  - intros k Hk _. exact (proj1 (list_elem_of_singleton k ih) Hk).
  - by_decide.
  - by_decide.
Qed.

Lemma okA : clientOk clA.
Proof. done. Qed.
Lemma okB p : clientOk (clB p).
Proof. done. Qed.
End HandshakeExample.

Lemma handshakes_agree_witness :
  let clB := HandshakeExample.clB (mkPolicy false true) in
  ∃ cA cB, agreed HandshakeExample.clA clB HandshakeExample.ih true cA cB ∧
    outcome closesInitiator closesReceiver
      (hsNet (HandshakeExample.rA true) (HandshakeExample.rB true) HandshakeExample.clA clB HandshakeExample.ih true)
      (Good cA) (Good (Some cB)).
Proof.
  cbn zeta. apply (handshakes_agree (HandshakeExample.rA true) (HandshakeExample.rB true)).
  - apply HandshakeExample.okA.
  - apply HandshakeExample.okB.
  - done.
  - by apply list_elem_of_singleton.
  - done.
  - intros _. split; [apply HandshakeExample.ready|by_decide].
Defined.

Lemma establishOutgoingConn_connects_witness :
  let clB := HandshakeExample.clB (mkPolicy true false) in
  ∃ f, ∀ fuel, (f ≤ fuel)%nat →
    match establishOutgoingConn (clPolicy HandshakeExample.clA)
      (establishOutgoingConnEx fuel HandshakeExample.rA HandshakeExample.rB HandshakeExample.clA clB HandshakeExample.ih) with
    | Good c => hcHeaderEncrypted c = false ∧ hcPeerID c = clPeerID clB
    | Bad _ => False
    end.
Proof.
  cbn zeta. destruct (establishOutgoingConn_connects HandshakeExample.rA HandshakeExample.rB HandshakeExample.clA
    (HandshakeExample.clB (mkPolicy true false)) HandshakeExample.ih) as [f Hf].
  - constructor; [apply HandshakeExample.okA|apply HandshakeExample.okB|done|by apply list_elem_of_singleton|apply HandshakeExample.ready|
      by_decide..].
  - exists f. intros fuel Hle. specialize (Hf fuel Hle). cbn zeta in Hf.
    destruct (establishOutgoingConn _ _) as [c|e].
    + destruct Hf as (c' & Hag & _ & Hacc & _). split; [by destruct (hcHeaderEncrypted c)|apply Hag].
    + by specialize (Hf false).
Defined.
