(* ===== verification/Pex.v ===== *)
(** Peer exchange: src/pex.go, src/pexconn.go and src/peer_protocol/pex.go.

    The torrent keeps a feed of events (a linked list, of which every
    connection holds the last element it has seen), a hold-back buffer of drops
    and an initial message that summarises the feed.  Events live in a store;
    [pnext] is their [next] pointer, so that a connection's pointer stays valid
    when the torrent's list is reset.

    The lists of compact addresses are those of the krpc package, of which the
    code uses [Index]; addresses are in the 16-byte form that [net.ParseIP]
    answers in. *)
From stdpp Require Import base numbers list strings gmap sets.
From Stdlib Require Import ZArith Lia.
From S2P Require Import Prelude RequestStrategy Bep40 Peers.
Open Scope Z_scope.

Definition pexTargAdded : Z := 25.
Definition pexMaxHold : Z := 25.
Definition pexMaxDelta : Z := 50.

(** [krpc.NodeAddr]: address and port. *)
Definition NodeAddr : Type := list Z * Z.

Definition NodeAddr_Equal (a b : NodeAddr) : bool := IP_Equal a.1 b.1 && (a.2 =? b.2).

(** What the code relies on of [CompactIPv4NodeAddrs.Index] and its IPv6
    counterpart: the first index of an equal address, or none. *)
Class KrpcIndex : Type := {
  na_Index : list NodeAddr → NodeAddr → option nat;
  na_Index_Some l x i : na_Index l x = Some i →
    ∃ y, l !! i = Some y ∧ NodeAddr_Equal y x = true ∧ ∀ j z, (j < i)%nat → l !! j = Some z → NodeAddr_Equal z x = false;
  na_Index_None l x : na_Index l x = None → ∀ y, y ∈ l → NodeAddr_Equal y x = false }.

(** ** Connections *)
Inductive netAddr : Type := TCPAddr (a : ipPortAddr) | UDPAddr (a : ipPortAddr) | OtherAddr (a : ipPortAddr).

Definition netAddrOf (a : netAddr) : ipPortAddr := match a with TCPAddr a | UDPAddr a | OtherAddr a => a end.

Record pexPeer : Type := mkPexPeer {
  ppRemoteAddr : netAddr;
  ppOutgoing : bool;
  ppListenPort : Z;
  ppPrefersEncryption : bool;
  ppUtp : bool }.

Definition pexPeerFlags (c : pexPeer) : Z :=
  let f := 0 in
  let f := if ppPrefersEncryption c then Z.lor f 1 else f in
  let f := if ppOutgoing c then Z.lor f 16 else f in
  if ppUtp c then Z.lor f 4 else f.

Definition dialAddr (c : pexPeer) : ipPortAddr :=
  if negb (ppOutgoing c) && negb (ppListenPort c =? 0) then
    match ppRemoteAddr c with
    | TCPAddr a | UDPAddr a => mkAddr (aIP a) (ppListenPort c)
    | OtherAddr a => a
    end
  else netAddrOf (ppRemoteAddr c).

Inductive pexEventType : Type := pexAdd | pexDrop.

Record pexEvent : Type := mkEvent { pet : pexEventType; peaddr : ipPortAddr; pef : Z }.

Definition mkPexEvent (c : pexPeer) (t : pexEventType) : pexEvent := mkEvent t (dialAddr c) (pexPeerFlags c).

Definition nodeAddr (addr : ipPortAddr) : NodeAddr * bool :=
  let ipport := (tryIpPortFromNetAddr addr).1 in
  ((aIP ipport, aPort ipport), bool_decide (aIP ipport ≠ [])).

(** ** Messages *)
Record PexMsg : Type := mkPexMsg {
  pmAdded : list NodeAddr;
  pmAddedFlags : list Z;
  pmAdded6 : list NodeAddr;
  pmAdded6Flags : list Z;
  pmDropped : list NodeAddr;
  pmDropped6 : list NodeAddr }.

Definition emptyPexMsg : PexMsg := mkPexMsg [] [] [] [] [] [].

Definition PexMsg_Len (m : PexMsg) : Z :=
  Z.of_nat (length (pmAdded m)) + Z.of_nat (length (pmAdded6 m)) + Z.of_nat (length (pmDropped m)) + Z.of_nat (length (pmDropped6 m)).

(** [addrKey] is the string of an address, a pair as in Peers.v. *)
Record pexMsgFactory : Type := mkFactory { fmsg : PexMsg; fadded : gset NodeAddr; fdropped : gset NodeAddr }.

Definition emptyFactory : pexMsgFactory := mkFactory emptyPexMsg ∅ ∅.

Definition DeltaLen (me : pexMsgFactory) : Z := Z.max (Z.of_nat (size (fadded me))) (Z.of_nat (size (fdropped me))).

(** [append(l[:i], l[i+1:]...)]. *)
Definition removeAt {A} (i : nat) (l : list A) : list A := take i l ++ drop (S i) l.

Section Factory.
Context `{KrpcIndex}.

Definition fadd (me : pexMsgFactory) (e : pexEvent) : go pexMsgFactory :=
  let key := addrString (peaddr e) in
  if bool_decide (key ∈ fadded me) then Ok me
  else
    let '(addr, ok) := nodeAddr (peaddr e) in
    if negb ok then Ok me
    else
      let m := fmsg me in
      match To4 addr.1 with
      | Some _ =>
          if bool_decide (key ∈ fdropped me) then
            let dropped := match na_Index (pmDropped m) addr with Some i => removeAt i (pmDropped m) | None => pmDropped m end in
            Ok (mkFactory (mkPexMsg (pmAdded m) (pmAddedFlags m) (pmAdded6 m) (pmAdded6Flags m) dropped (pmDropped6 m))
                  (fadded me) (fdropped me ∖ {[key]}))
          else
            Ok (mkFactory (mkPexMsg (pmAdded m ++ [addr]) (pmAddedFlags m ++ [pef e]) (pmAdded6 m) (pmAdded6Flags m)
                             (pmDropped m) (pmDropped6 m))
                  ({[key]} ∪ fadded me) (fdropped me))
      | None =>
          if Nat.eqb (length addr.1) 16 then
            if bool_decide (key ∈ fdropped me) then
              let dropped6 := match na_Index (pmDropped6 m) addr with Some i => removeAt i (pmDropped6 m) | None => pmDropped6 m end in
              Ok (mkFactory (mkPexMsg (pmAdded m) (pmAddedFlags m) (pmAdded6 m) (pmAdded6Flags m) (pmDropped m) dropped6)
                    (fadded me) (fdropped me ∖ {[key]}))
            else
              Ok (mkFactory (mkPexMsg (pmAdded m) (pmAddedFlags m) (pmAdded6 m ++ [addr]) (pmAdded6Flags m ++ [pef e])
                               (pmDropped m) (pmDropped6 m))
                    ({[key]} ∪ fadded me) (fdropped me))
          else Panic "pexMsgFactory.add"
      end.

Definition fdrop (me : pexMsgFactory) (e : pexEvent) : pexMsgFactory :=
  let '(addr, ok) := nodeAddr (peaddr e) in
  if negb ok then me
  else
    let key := addrString (peaddr e) in
    if bool_decide (key ∈ fdropped me) then me
    else
      let m := fmsg me in
      match To4 addr.1 with
      | Some _ =>
          if bool_decide (key ∈ fadded me) then
            let '(added, flags) := match na_Index (pmAdded m) addr with
                                   | Some i => (removeAt i (pmAdded m), removeAt i (pmAddedFlags m))
                                   | None => (pmAdded m, pmAddedFlags m)
                                   end in
            mkFactory (mkPexMsg added flags (pmAdded6 m) (pmAdded6Flags m) (pmDropped m) (pmDropped6 m))
              (fadded me ∖ {[key]}) (fdropped me)
          else
            mkFactory (mkPexMsg (pmAdded m) (pmAddedFlags m) (pmAdded6 m) (pmAdded6Flags m) (pmDropped m ++ [addr]) (pmDropped6 m))
              (fadded me) ({[key]} ∪ fdropped me)
      | None =>
          if Nat.eqb (length addr.1) 16 then
            if bool_decide (key ∈ fadded me) then
              let '(added6, flags) := match na_Index (pmAdded6 m) addr with
                                      | Some i => (removeAt i (pmAdded6 m), removeAt i (pmAdded6Flags m))
                                      | None => (pmAdded6 m, pmAdded6Flags m)
                                      end in
              mkFactory (mkPexMsg (pmAdded m) (pmAddedFlags m) added6 flags (pmDropped m) (pmDropped6 m))
                (fadded me ∖ {[key]}) (fdropped me)
            else
              mkFactory (mkPexMsg (pmAdded m) (pmAddedFlags m) (pmAdded6 m) (pmAdded6Flags m) (pmDropped m) (pmDropped6 m ++ [addr]))
                (fadded me) ({[key]} ∪ fdropped me)
          else mkFactory m (fadded me) ({[key]} ∪ fdropped me)
      end.

Definition fappend (me : pexMsgFactory) (e : pexEvent) : go pexMsgFactory :=
  match pet e with pexAdd => fadd me e | pexDrop => Ok (fdrop me e) end.

(** ** The state of a torrent *)
Record pexState : Type := mkPex {
  pevents : list pexEvent  (** the store: an event is known by its index *);
  pnext : gmap nat nat;
  ptail : option nat;
  phold : list pexEvent;
  pnc : Z;
  pmsg0 : pexMsgFactory }.

Definition newPexState : pexState := mkPex [] ∅ None [] 0 emptyFactory.

Definition pex_Reset (s : pexState) : pexState := mkPex (pevents s) (pnext s) None [] 0 emptyFactory.

Definition pex_append (s : pexState) (e : pexEvent) : go pexState :=
  let id := length (pevents s) in
  m ← fappend (pmsg0 s) e;
  Ok (mkPex (pevents s ++ [e])
        (match ptail s with Some k => <[k := id]> (pnext s) | None => pnext s end)
        (Some id) (phold s) (pnc s) m).

Fixpoint appendAll (s : pexState) (l : list pexEvent) : go pexState :=
  match l with
  | [] => Ok s
  | e :: l => s ← pex_append s e; appendAll s l
  end.

(** [Add]; setting [c.pex.Listed] is up to the caller. *)
Definition pex_Add (s : pexState) (c : pexPeer) : go pexState :=
  let s := mkPex (pevents s) (pnext s) (ptail s) (phold s) (pnc s + 1) (pmsg0 s) in
  s ← (if pexTargAdded <=? pnc s then
         s ← appendAll s (phold s);
         Ok (mkPex (pevents s) (pnext s) (ptail s) [] (pnc s) (pmsg0 s))
       else Ok s);
  pex_append s (mkPexEvent c pexAdd).

Definition pex_Drop (s : pexState) (listed : bool) (c : pexPeer) : go pexState :=
  if negb listed then Ok s
  else
    let e := mkPexEvent c pexDrop in
    let s := mkPex (pevents s) (pnext s) (ptail s) (phold s) (pnc s - 1) (pmsg0 s) in
    if (pnc s <? pexTargAdded) && (Z.of_nat (length (phold s)) <? pexMaxHold)
    then Ok (mkPex (pevents s) (pnext s) (ptail s) (phold s ++ [e]) (pnc s) (pmsg0 s))
    else pex_append s e.

(** The loop of [Genmsg]: [e] is the next event, [last] the last one used. *)
Fixpoint genLoop (fuel : nat) (s : pexState) (msg : pexMsgFactory) (last : nat) : go (PexMsg * nat) :=
  match fuel with
  | O => Ok (fmsg msg, last)
  | S fuel =>
      match pnext s !! last with
      | None => Ok (fmsg msg, last)
      | Some e =>
          if pexMaxDelta <=? DeltaLen msg then Ok (fmsg msg, last)
          else
            match pevents s !! e with
            | None => Panic "nil pointer dereference"
            | Some ev => msg ← fappend msg ev; genLoop fuel s msg e
            end
      end
  end.

Definition Genmsg (s : pexState) (start : option nat) : go (PexMsg * option nat) :=
  match start with
  | None => Ok (fmsg (pmsg0 s), ptail s)
  | Some start =>
      '(m, last) ← genLoop (length (pevents s)) s emptyFactory start;
      Ok (m, Some last)
  end.

(** [pexConnState.genmsg], with the new value of [last]. *)
Definition genmsg (s : pexState) (last : option nat) : go (option PexMsg * option nat) :=
  '(tx, last') ← Genmsg s last;
  if PexMsg_Len tx =? 0 then Ok (None, last) else Ok (Some tx, last').
End Factory.

(** ** Receiving *)
Definition PexFlags_Get (me f : Z) : bool := Z.land me f =? f.

Definition FromPex (na : NodeAddr) (fs : Z) : PeerInfo :=
  mkPeerInfo (replicate 20 0) (mkAddr na.1 na.2) "X" (PexFlags_Get fs 1) fs false false.

Definition AppendFromPex (me : list PeerInfo) (nas : list NodeAddr) (fs : list Z) : list PeerInfo :=
  me ++ imap (λ i na, FromPex na (nth i fs 0)) nas.

(** [Recv]: the peers handed to [addPeers] and the new cooldown deadline.  [load]
    is [LoadPexMsg], [now] the time in nanoseconds. *)
Definition pex_Recv (load : list Z → option PexMsg) (wantPeers : bool) (now rest : Z) (payload : list Z) :
    result string (list PeerInfo * Z) :=
  if negb wantPeers then Good ([], rest)
  else if now <? rest then Good ([], rest)
  else
    match load payload with
    | None => Bad "error unmarshalling PEX message"
    | Some rx =>
        let peers := AppendFromPex (AppendFromPex [] (pmAdded6 rx) (pmAdded6Flags rx)) (pmAdded rx) (pmAddedFlags rx) in
        if Nat.ltb 0 (length peers) then Good (peers, now + 60 * 10 ^ 9) else Good ([], rest)
    end.

(** ** Addresses and lists of them *)
Definition isV4 (na : NodeAddr) : bool := bool_decide (is_Some (To4 na.1)).

Lemma nodeAddr_valid a na : nodeAddr a = (na, true) → length na.1 = 16%nat ∧ addrString a = na.
Proof.
  unfold nodeAddr, tryIpPortFromNetAddr, addrString, To16. cbn. intros [= <- H%bool_decide_eq_true]. cbn in *.
  destruct (Nat.eqb_spec (length (aIP a)) 4) as [E|]; [|destruct (Nat.eqb_spec (length (aIP a)) 16)]; [..|done].
  - split; [cbn; by rewrite E|done].
  - done.
Qed.

Lemma NodeAddr_Equal_16 (a b : NodeAddr) : length a.1 = 16%nat → length b.1 = 16%nat →
  NodeAddr_Equal a b = true ↔ a = b.
Proof.
  intros Ha Hb. unfold NodeAddr_Equal, IP_Equal. rewrite Ha, Hb, Nat.eqb_refl, andb_true_iff, bool_decide_eq_true, Z.eqb_eq.
  destruct a, b; cbn. naive_solver.
Qed.

(** A list of distinct addresses of one family. *)
Definition alist (v4 : bool) (l : list NodeAddr) : Prop :=
  NoDup l ∧ ∀ na, na ∈ l → length na.1 = 16%nat ∧ isV4 na = v4.

Lemma alist_app v l na : alist v l → na ∉ l → length na.1 = 16%nat → isV4 na = v → alist v (l ++ [na]).
Proof.
  intros [Hnd Hl] Hn H16 Hv. split.
  - apply NoDup_app. split_and!; [done|set_solver|apply NoDup_singleton].
  - intros x [Hx|Hx%list_elem_of_singleton]%elem_of_app; [by apply Hl|by subst].
Qed.

Section FactoryLemmas.
Context `{KrpcIndex}.

Lemma alist_remove v l na : alist v l → na ∈ l → ∃ i, na_Index l na = Some i ∧ (i < length l)%nat ∧
  alist v (removeAt i l) ∧ ∀ x, x ∈ removeAt i l ↔ x ∈ l ∧ x ≠ na.
Proof.
  intros [Hnd Hl] Hna. destruct (Hl na Hna) as [H16 _].
  destruct (na_Index l na) as [i|] eqn:Ei.
  2: { pose proof (na_Index_None l na Ei na Hna) as E. by rewrite (proj2 (NodeAddr_Equal_16 na na H16 H16)) in E. }
  apply na_Index_Some in Ei as (y & Hy & Heq & _). assert (y = na) as ->.
  { apply NodeAddr_Equal_16; [|done..]. by eapply Hl, list_elem_of_lookup_2. }
  exists i. split; [done|]. split; [by eapply lookup_lt_Some|].
  assert (E : removeAt i l = delete i l) by (unfold removeAt; by rewrite delete_take_drop).
  pose proof (delete_Permutation l i na Hy) as Hp. rewrite Hp in Hnd. apply NoDup_cons in Hnd as [Hn Hnd].
  assert (Hel : ∀ x, x ∈ l ↔ x = na ∨ x ∈ delete i l).
  { intros x. rewrite <- elem_of_cons. by apply elem_of_Permutation_proper. }
  rewrite E. split; [split; [done|]|].
  - intros x Hx. apply Hl, Hel. by right.
  - intros x. rewrite Hel. split; [|naive_solver]. intros Hx. split; [by right|]. by intros ->.
Qed.

(** The factory's sets are those of its message. *)
Record FInv (f : pexMsgFactory) : Prop := {
  fi_added : alist true (pmAdded (fmsg f));
  fi_added6 : alist false (pmAdded6 (fmsg f));
  fi_dropped : alist true (pmDropped (fmsg f));
  fi_dropped6 : alist false (pmDropped6 (fmsg f));
  fi_aset x : x ∈ fadded f ↔ x ∈ pmAdded (fmsg f) ∨ x ∈ pmAdded6 (fmsg f);
  fi_dset x : x ∈ fdropped f ↔ x ∈ pmDropped (fmsg f) ∨ x ∈ pmDropped6 (fmsg f);
  fi_disj : fadded f ## fdropped f;
  fi_flags : length (pmAddedFlags (fmsg f)) = length (pmAdded (fmsg f));
  fi_flags6 : length (pmAdded6Flags (fmsg f)) = length (pmAdded6 (fmsg f)) }.

Lemma FInv_empty : FInv emptyFactory.
Proof. constructor; cbn; try (split; [constructor|set_solver]); set_solver. Qed.

(** What an event does to the sets. *)
Definition addSets (na : NodeAddr) (s : gset NodeAddr * gset NodeAddr) : gset NodeAddr * gset NodeAddr :=
  if decide (na ∈ s.1) then s else if decide (na ∈ s.2) then (s.1, s.2 ∖ {[na]}) else ({[na]} ∪ s.1, s.2).

Definition fsets (f : pexMsgFactory) : gset NodeAddr * gset NodeAddr := (fadded f, fdropped f).

Lemma length_removeAt {A B} i (l : list A) (k : list B) : length l = length k → length (removeAt i l) = length (removeAt i k).
Proof. intros E. unfold removeAt. by rewrite !length_app, !length_take, !length_drop, E. Qed.

Lemma fadd_spec f e na : FInv f → nodeAddr (peaddr e) = (na, true) →
  ∃ f', fadd f e = Ok f' ∧ FInv f' ∧ fsets f' = addSets na (fsets f).
Proof.
  intros HI Hna. destruct (nodeAddr_valid _ _ Hna) as [H16 Hkey]. unfold fadd, addSets. rewrite Hna, Hkey. cbn [fsets fst snd negb].
  destruct (decide (na ∈ fadded f)) as [Ha|Ha]; [rewrite bool_decide_eq_true_2 by done; eauto|].
  rewrite bool_decide_eq_false_2 by done. pose proof (fi_aset f HI na) as Has. pose proof (fi_dset f HI na) as Hds.
  destruct (To4 na.1) as [ip4|] eqn:E4; [assert (Hv : isV4 na = true) by (apply bool_decide_eq_true; rewrite E4; eauto)|
    assert (Hv : isV4 na = false) by (apply bool_decide_eq_false; rewrite E4; by intros [??]); rewrite H16; cbn [Nat.eqb]];
  destruct (decide (na ∈ fdropped f)) as [Hd|Hd];
    [rewrite bool_decide_eq_true_2 by done|rewrite bool_decide_eq_false_2 by done|
     rewrite bool_decide_eq_true_2 by done|rewrite bool_decide_eq_false_2 by done].
  - assert (Hin : na ∈ pmDropped (fmsg f)).
    { apply Hds in Hd as [|Hd]; [done|]. destruct (fi_dropped6 f HI) as [_ H6]. destruct (H6 na Hd). congruence. }
    destruct (alist_remove true _ na (fi_dropped f HI) Hin) as (i & Ei & _ & Hal & Hx). rewrite Ei.
    eexists. split; [done|]. split; [|done]. destruct HI as [I1 I2 I3 I4 I5 I6 I7 I8 I9]. constructor; cbn; try done; [|set_solver].
    intros x. rewrite elem_of_difference, elem_of_singleton, I6, Hx. split; [tauto|].
    intros [[? ?]|H6]; [tauto|]. split; [by right|]. intros ->. destruct I4 as [_ Hl]. destruct (Hl na H6). congruence.
  - eexists. split; [done|]. split; [|done]. destruct HI as [I1 I2 I3 I4 I5 I6 I7 I8 I9]. constructor; cbn; try done.
    + apply alist_app; [done|naive_solver|done..].
    + intros x. rewrite elem_of_union, elem_of_singleton, I5, elem_of_app, list_elem_of_singleton. tauto.
    + set_solver.
    + rewrite !length_app. cbn. lia.
  - assert (Hin : na ∈ pmDropped6 (fmsg f)).
    { apply Hds in Hd as [Hd|]; [|done]. destruct (fi_dropped f HI) as [_ H6]. destruct (H6 na Hd). congruence. }
    destruct (alist_remove false _ na (fi_dropped6 f HI) Hin) as (i & Ei & _ & Hal & Hx). rewrite Ei.
    eexists. split; [done|]. split; [|done]. destruct HI as [I1 I2 I3 I4 I5 I6 I7 I8 I9]. constructor; cbn; try done; [|set_solver].
    intros x. rewrite elem_of_difference, elem_of_singleton, I6, Hx. split; [tauto|].
    intros [H6|[? ?]]; [|tauto]. split; [by left|]. intros ->. destruct I3 as [_ Hl]. destruct (Hl na H6). congruence.
  - eexists. split; [done|]. split; [|done]. destruct HI as [I1 I2 I3 I4 I5 I6 I7 I8 I9]. constructor; cbn; try done.
    + apply alist_app; [done|naive_solver|done..].
    + intros x. rewrite elem_of_union, elem_of_singleton, I5, elem_of_app, list_elem_of_singleton. tauto.
    + set_solver.
    + rewrite !length_app. cbn. lia.
Qed.

Lemma fdrop_spec f e na : FInv f → nodeAddr (peaddr e) = (na, true) →
  FInv (fdrop f e) ∧ (fdropped (fdrop f e), fadded (fdrop f e)) = addSets na (fdropped f, fadded f).
Proof.
  intros HI Hna. destruct (nodeAddr_valid _ _ Hna) as [H16 Hkey]. unfold fdrop, addSets. rewrite Hna, Hkey. cbn [fst snd negb].
  destruct (decide (na ∈ fdropped f)) as [Ha|Ha]; [rewrite bool_decide_eq_true_2 by done; eauto|].
  rewrite bool_decide_eq_false_2 by done. pose proof (fi_dset f HI na) as Has. pose proof (fi_aset f HI na) as Hds.
  destruct (To4 na.1) as [ip4|] eqn:E4; [assert (Hv : isV4 na = true) by (apply bool_decide_eq_true; rewrite E4; eauto)|
    assert (Hv : isV4 na = false) by (apply bool_decide_eq_false; rewrite E4; by intros [??]); rewrite H16; cbn [Nat.eqb]];
  destruct (decide (na ∈ fadded f)) as [Hd|Hd];
    [rewrite bool_decide_eq_true_2 by done|rewrite bool_decide_eq_false_2 by done|
     rewrite bool_decide_eq_true_2 by done|rewrite bool_decide_eq_false_2 by done].
  - assert (Hin : na ∈ pmAdded (fmsg f)).
    { apply Hds in Hd as [|Hd]; [done|]. destruct (fi_added6 f HI) as [_ H6]. destruct (H6 na Hd). congruence. }
    destruct (alist_remove true _ na (fi_added f HI) Hin) as (i & Ei & _ & Hal & Hx). rewrite Ei.
    split; [|done]. destruct HI as [I1 I2 I3 I4 I5 I6 I7 I8 I9]. constructor; cbn; try done; [|set_solver|by apply length_removeAt].
    intros x. rewrite elem_of_difference, elem_of_singleton, I5, Hx. split; [tauto|].
    intros [[? ?]|H6]; [tauto|]. split; [by right|]. intros ->. destruct I2 as [_ Hl]. destruct (Hl na H6). congruence.
  - split; [|done]. destruct HI as [I1 I2 I3 I4 I5 I6 I7 I8 I9]. constructor; cbn; try done.
    + apply alist_app; [done|naive_solver|done..].
    + intros x. rewrite elem_of_union, elem_of_singleton, I6, elem_of_app, list_elem_of_singleton. tauto.
    + set_solver.
  - assert (Hin : na ∈ pmAdded6 (fmsg f)).
    { apply Hds in Hd as [Hd|]; [|done]. destruct (fi_added f HI) as [_ H6]. destruct (H6 na Hd). congruence. }
    destruct (alist_remove false _ na (fi_added6 f HI) Hin) as (i & Ei & _ & Hal & Hx). rewrite Ei.
    split; [|done]. destruct HI as [I1 I2 I3 I4 I5 I6 I7 I8 I9]. constructor; cbn; try done; [|set_solver|by apply length_removeAt].
    intros x. rewrite elem_of_difference, elem_of_singleton, I5, Hx. split; [tauto|].
    intros [H6|[? ?]]; [|tauto]. split; [by left|]. intros ->. destruct I1 as [_ Hl]. destruct (Hl na H6). congruence.
  - split; [|done]. destruct HI as [I1 I2 I3 I4 I5 I6 I7 I8 I9]. constructor; cbn; try done.
    + apply alist_app; [done|naive_solver|done..].
    + intros x. rewrite elem_of_union, elem_of_singleton, I6, elem_of_app, list_elem_of_singleton. tauto.
    + set_solver.
Qed.

Lemma fappend_invalid f e na : nodeAddr (peaddr e) = (na, false) → fappend f e = Ok f.
Proof.
  intros Hna. unfold fappend, fadd, fdrop. rewrite Hna. destruct (pet e); [|done]. by destruct (bool_decide _).
Qed.

(** ** What a receiver makes of messages *)

(** The peers a receiver knows after a message. *)
Definition applyMsg (m : PexMsg) (S : gset NodeAddr) : gset NodeAddr :=
  (S ∖ (list_to_set (pmDropped m) ∪ list_to_set (pmDropped6 m))) ∪ (list_to_set (pmAdded m) ∪ list_to_set (pmAdded6 m)).

Lemma applyMsg_sets f S : FInv f → applyMsg (fmsg f) S = (S ∖ fdropped f) ∪ fadded f.
Proof.
  intros HI. apply set_eq. intros x. unfold applyMsg. rewrite !elem_of_union, !elem_of_difference, !elem_of_union, !elem_of_list_to_set.
  rewrite <- (fi_aset f HI), <- (fi_dset f HI). done.
Qed.

(** The peers according to the events. *)
Definition replay1 (S : gset NodeAddr) (e : pexEvent) : gset NodeAddr :=
  match nodeAddr (peaddr e) with
  | (na, true) => match pet e with pexAdd => {[na]} ∪ S | pexDrop => S ∖ {[na]} end
  | (_, false) => S
  end.
Definition replay (S : gset NodeAddr) (l : list pexEvent) : gset NodeAddr := foldl replay1 S l.

(** Only absent peers are added, only present ones dropped. *)
Definition proper1 (S : gset NodeAddr) (e : pexEvent) : Prop :=
  match nodeAddr (peaddr e) with
  | (na, true) => match pet e with pexAdd => na ∉ S | pexDrop => na ∈ S end
  | (_, false) => True
  end.
Fixpoint properFeed (S : gset NodeAddr) (l : list pexEvent) : Prop :=
  match l with [] => True | e :: l => proper1 S e ∧ properFeed (replay1 S e) l end.

Lemma replay_app S a b : replay S (a ++ b) = replay (replay S a) b.
Proof. apply foldl_app. Qed.
Lemma replay_snoc S a e : replay S (a ++ [e]) = replay1 (replay S a) e.
Proof. by rewrite replay_app. Qed.
Lemma properFeed_app S a b : properFeed S (a ++ b) ↔ properFeed S a ∧ properFeed (replay S a) b.
Proof. revert S. induction a as [|e a IH]; intros S; cbn; [tauto|]. rewrite IH. tauto. Qed.

(** Set algebra of the four cases. *)
Definition deltaOk (S0 A D S : gset NodeAddr) : Prop := S = (S0 ∖ D) ∪ A ∧ A ## S0 ∧ D ⊆ S0.

Ltac delta_tac na :=
  intros (HS & HAS & HDS) HAD Hin Hna; subst; unfold deltaOk; set_unfold;
  split_and!; [intros x; destruct (decide (x = na)); [subst|]; naive_solver|naive_solver..].

Lemma delta_add_cancel S0 A D S na : deltaOk S0 A D S → A ## D → na ∉ S → na ∈ D → deltaOk S0 A (D ∖ {[na]}) ({[na]} ∪ S).
Proof. delta_tac na. Qed.
Lemma delta_add_new S0 A D S na : deltaOk S0 A D S → A ## D → na ∉ S → na ∉ D → deltaOk S0 ({[na]} ∪ A) D ({[na]} ∪ S).
Proof. delta_tac na. Qed.
Lemma delta_drop_cancel S0 A D S na : deltaOk S0 A D S → A ## D → na ∈ S → na ∈ A → deltaOk S0 (A ∖ {[na]}) D (S ∖ {[na]}).
Proof. delta_tac na. Qed.
Lemma delta_drop_new S0 A D S na : deltaOk S0 A D S → A ## D → na ∈ S → na ∉ A → deltaOk S0 A ({[na]} ∪ D) (S ∖ {[na]}).
Proof. delta_tac na. Qed.

(** A factory that has taken the events from [S0] to [S]. *)
Definition FRel (S0 : gset NodeAddr) (f : pexMsgFactory) (S : gset NodeAddr) : Prop :=
  FInv f ∧ deltaOk S0 (fadded f) (fdropped f) S.

Lemma FRel_empty S : FRel S emptyFactory S.
Proof. split; [apply FInv_empty|]. unfold deltaOk. cbn. set_solver. Qed.

Lemma size_insert_le (na : NodeAddr) (X : gset NodeAddr) : Z.of_nat (size ({[na]} ∪ X)) ≤ Z.of_nat (size X) + 1.
Proof.
  pose proof (size_union_alt {[na]} X) as E. rewrite size_singleton in E.
  pose proof (subseteq_size (X ∖ {[na]}) X ltac:(set_solver)). lia.
Qed.
Lemma size_remove_le (na : NodeAddr) (X : gset NodeAddr) : Z.of_nat (size (X ∖ {[na]})) ≤ Z.of_nat (size X).
Proof. pose proof (subseteq_size (X ∖ {[na]}) X ltac:(set_solver)). lia. Qed.

Lemma fappend_rel S0 f S e : FRel S0 f S → proper1 S e →
  ∃ f', fappend f e = Ok f' ∧ FRel S0 f' (replay1 S e) ∧ DeltaLen f' ≤ DeltaLen f + 1.
Proof.
  intros [HI HD] Hp. destruct (nodeAddr (peaddr e)) as [na []] eqn:Hna.
  2: { exists f. rewrite (fappend_invalid f e na Hna). unfold replay1. rewrite Hna. split_and!; [done|done|lia]. }
  unfold proper1, replay1, fappend in *. rewrite Hna in *. pose proof (fi_disj f HI) as Hdisj.
  pose proof (size_insert_le na (fadded f)). pose proof (size_insert_le na (fdropped f)).
  pose proof (size_remove_le na (fadded f)). pose proof (size_remove_le na (fdropped f)).
  unfold DeltaLen. destruct (pet e).
  - destruct (fadd_spec f e na HI Hna) as (f' & E & HI' & Hs). exists f'. split; [done|].
    unfold addSets, fsets in Hs. cbn [fst snd] in Hs. rewrite decide_False in Hs by (destruct HD as (-> & _); set_solver).
    destruct (decide (na ∈ fdropped f)); injection Hs as Ea Ed; unfold FRel; rewrite Ea, Ed; (split; [split; [done|]|lia]).
    + by apply delta_add_cancel.
    + by apply delta_add_new.
  - destruct (fdrop_spec f e na HI Hna) as (HI' & Hs). exists (fdrop f e). split; [done|].
    unfold addSets in Hs. cbn [fst snd] in Hs. rewrite decide_False in Hs by (destruct HD as (-> & _); set_solver).
    destruct (decide (na ∈ fadded f)); injection Hs as Ed Ea; unfold FRel; rewrite Ea, Ed; (split; [split; [done|]|lia]).
    + by apply delta_drop_cancel.
    + by apply delta_drop_new.
Qed.
End FactoryLemmas.

(** ** The feed as a whole *)
Definition naOf (a : ipPortAddr) : option NodeAddr := match nodeAddr a with (na, true) => Some na | (_, false) => None end.
#[local] Arguments naOf : simpl never.
#[local] Arguments replay1 : simpl never.
#[local] Arguments proper1 : simpl never.
#[local] Arguments fappend : simpl never.
Definition liveNas (live : list pexPeer) : list NodeAddr := omap (λ c, naOf (dialAddr c)) live.
Definition holdNas (hold : list pexEvent) : list NodeAddr := omap (λ e, naOf (peaddr e)) hold.

(** The peers known up to a position in the feed. *)
Definition knownAt (s : pexState) (last : option nat) : gset NodeAddr :=
  match last with None => ∅ | Some p => replay ∅ (take (S p) (pevents s)) end.

Lemma replay1_naOf S e : replay1 S e =
  match naOf (peaddr e) with
  | Some na => match pet e with pexAdd => {[na]} ∪ S | pexDrop => S ∖ {[na]} end
  | None => S
  end.
Proof. unfold replay1, naOf. by destruct (nodeAddr (peaddr e)) as [na []]. Qed.
Lemma proper1_naOf S e : proper1 S e ↔
  match naOf (peaddr e) with Some na => match pet e with pexAdd => na ∉ S | pexDrop => na ∈ S end | None => True end.
Proof. unfold proper1, naOf. by destruct (nodeAddr (peaddr e)) as [na []]. Qed.

Section Feed.
Context `{KrpcIndex}.

(** The store is one list, in order; the initial message summarises it. *)
Record feedOk (s : pexState) : Prop := {
  fo_tail : ptail s = match length (pevents s) with O => None | S n => Some n end;
  fo_next k : pnext s !! k = if decide (S k < length (pevents s))%nat then Some (S k) else None;
  fo_proper : properFeed ∅ (pevents s);
  fo_msg0 : FRel ∅ (pmsg0 s) (replay ∅ (pevents s)) }.

Lemma feedOk_new : feedOk newPexState.
Proof. constructor; cbn; [done| |done|apply FRel_empty]. intros k. by rewrite lookup_empty, decide_False by lia. Qed.

Lemma pex_append_ok s e : feedOk s → proper1 (replay ∅ (pevents s)) e →
  ∃ s', pex_append s e = Ok s' ∧ feedOk s' ∧ pevents s' = pevents s ++ [e] ∧ phold s' = phold s ∧ pnc s' = pnc s.
Proof.
  intros [Ht Hn Hp Hm] He. destruct (fappend_rel _ _ _ _ Hm He) as (f' & E & Hf & _).
  unfold pex_append. rewrite E. eexists. split; [reflexivity|]. split; [|done]. constructor; cbn.
  - rewrite length_app. cbn. by rewrite Nat.add_1_r.
  - intros k. rewrite length_app. cbn. rewrite Ht. destruct (length (pevents s)) as [|n] eqn:El.
    + rewrite Hn. by rewrite !decide_False by lia.
    + destruct (decide (k = n)) as [->|Hk]; [rewrite lookup_insert_eq, decide_True by lia; done|].
      rewrite lookup_insert_ne, Hn by done. repeat case_decide; try done; lia.
  - apply properFeed_app. cbn. done.
  - by rewrite replay_snoc.
Qed.

(** Flushing the held drops. *)
Lemma appendAll_ok l : ∀ s, feedOk s → Forall (λ e, pet e = pexDrop) l → NoDup (holdNas l) →
  (∀ na, na ∈ holdNas l → na ∈ replay ∅ (pevents s)) →
  ∃ s', appendAll s l = Ok s' ∧ feedOk s' ∧ phold s' = phold s ∧ pnc s' = pnc s ∧ pevents s `prefix_of` pevents s' ∧
    replay ∅ (pevents s') = replay ∅ (pevents s) ∖ list_to_set (holdNas l).
Proof.
  induction l as [|e l IH]; intros s Hs Hd Hnd Hin.
  { exists s. split_and!; try done. cbn. by rewrite difference_empty_L. }
  apply Forall_cons in Hd as [He Hd]. unfold holdNas in *. cbn [omap list_omap] in *.
  assert (Hp : proper1 (replay ∅ (pevents s)) e).
  { apply proper1_naOf. rewrite He. destruct (naOf (peaddr e)); [|done]. apply Hin. left. }
  destruct (pex_append_ok s e Hs Hp) as (s1 & E1 & Hs1 & Ev & Hh & Hc).
  assert (Er : replay ∅ (pevents s1) = replay ∅ (pevents s) ∖ match naOf (peaddr e) with Some na => {[na]} | None => ∅ end).
  { rewrite Ev, replay_snoc, replay1_naOf, He. destruct (naOf _); [done|]. by rewrite difference_empty_L. }
  assert (Hrest : NoDup (omap (λ e, naOf (peaddr e)) l) ∧ (∀ na, na ∈ omap (λ e, naOf (peaddr e)) l → naOf (peaddr e) ≠ Some na)).
  { destruct (naOf (peaddr e)) as [na|]; [|done]. apply NoDup_cons in Hnd as [Hn Hnd]. split; [done|]. by intros x Hx [= ->]. }
  destruct Hrest as [Hnd' Hne].
  destruct (IH s1 Hs1 Hd Hnd') as (s2 & E2 & Hs2 & Hh2 & Hc2 & Hpre & Er2).
  { intros na Hna. rewrite Er. apply elem_of_difference. split.
    - apply Hin. destruct (naOf (peaddr e)); [by right|done].
    - specialize (Hne na Hna). destruct (naOf (peaddr e)); [|set_solver]. rewrite elem_of_singleton. congruence. }
  exists s2. cbn [appendAll]. rewrite E1. cbn. split_and!; [done|done|congruence|congruence| |].
  - etransitivity; [|exact Hpre]. rewrite Ev. by apply prefix_app_r.
  - rewrite Er2, Er. destruct (naOf (peaddr e)); cbn [list_to_set]; [by rewrite difference_difference_l_L|by rewrite difference_empty_L].
Qed.

Lemma feed_next s p ev : feedOk s → pevents s !! S p = Some ev →
  take (S (S p)) (pevents s) = take (S p) (pevents s) ++ [ev] ∧ proper1 (replay ∅ (take (S p) (pevents s))) ev.
Proof.
  intros Hs Hev. split; [by apply take_S_r|]. pose proof (fo_proper s Hs) as Hp.
  rewrite <- (take_drop_middle _ _ _ Hev) in Hp. apply properFeed_app in Hp as [_ [Hp _]]. done.
Qed.

Lemma genLoop_ok s S0 : feedOk s → ∀ fuel f p, (p < length (pevents s))%nat → (length (pevents s) ≤ fuel + S p)%nat →
  FRel S0 f (knownAt s (Some p)) → DeltaLen f ≤ pexMaxDelta →
  ∃ f' p', genLoop fuel s f p = Ok (fmsg f', p') ∧ (p ≤ p' < length (pevents s))%nat ∧
    FRel S0 f' (knownAt s (Some p')) ∧ DeltaLen f' ≤ pexMaxDelta ∧
    (p' = p → f' = f) ∧ (S p' = length (pevents s) ∨ pexMaxDelta ≤ DeltaLen f').
Proof.
  intros Hs. induction fuel as [|fuel IH]; intros f p Hp Hf HR HD; cbn [genLoop].
  { exists f, p. split_and!; try done; lia. }
  rewrite (fo_next s Hs p). case_decide as Hn.
  2: { exists f, p. split_and!; try done; lia. }
  destruct (Z.leb_spec pexMaxDelta (DeltaLen f)) as [Hd|Hd].
  { exists f, p. split_and!; done || lia || by right. }
  destruct (lookup_lt_is_Some_2 (pevents s) (S p) Hn) as [ev Hev]. rewrite Hev.
  destruct (feed_next s p ev Hs Hev) as [Et Hpr].
  destruct (fappend_rel _ _ _ _ HR Hpr) as (f1 & E1 & HR1 & HD1). rewrite E1. cbn [mbind go_bind].
  destruct (IH f1 (S p)) as (f' & p' & E & Hpp & HR' & HD' & _ & Hend); [lia|lia| |lia|].
  { unfold knownAt in *. rewrite Et, replay_snoc. done. }
  exists f', p'. split_and!; [done|lia|lia|done|done|lia|done].
Qed.

Definition ptrOk (s : pexState) (last : option nat) : Prop :=
  match last with None => True | Some p => (p < length (pevents s))%nat end.
Definition ptrPos (last : option nat) : nat := match last with None => O | Some p => S p end.

Lemma msg_length f : FInv f →
  (length (pmAdded (fmsg f)) + length (pmAdded6 (fmsg f)) = size (fadded f))%nat ∧
  (length (pmDropped (fmsg f)) + length (pmDropped6 (fmsg f)) = size (fdropped f))%nat.
Proof.
  intros [[N1 A1] [N2 A2] [N3 A3] [N4 A4] Ha Hd _ _ _].
  assert (Hgen : ∀ l l' (X : gset NodeAddr), NoDup l → NoDup l' → (∀ na, na ∈ l → isV4 na = true) → (∀ na, na ∈ l' → isV4 na = false) →
    (∀ x, x ∈ X ↔ x ∈ l ∨ x ∈ l') → (length l + length l' = size X)%nat).
  { intros l l' X H1 H2 H3 H4 H5. rewrite <- length_app.
    rewrite <- (size_list_to_set (C := gset NodeAddr) (l ++ l')).
    - f_equal. apply set_eq. intros x. by rewrite elem_of_list_to_set, elem_of_app, H5.
    - apply NoDup_app. split_and!; [done| |done]. intros x Hx Hx'. specialize (H3 x Hx). specialize (H4 x Hx'). congruence. }
  split; apply Hgen; try done; intros na Hna; [by apply A1|by apply A2|by apply A3|by apply A4].
Qed.

Lemma Len_zero f : FInv f → PexMsg_Len (fmsg f) = 0 → fadded f = ∅ ∧ fdropped f = ∅.
Proof.
  intros HI Hl. destruct (msg_length f HI) as [H1 H2]. unfold PexMsg_Len in Hl.
  split; apply leibniz_equiv, size_empty_inv; lia.
Qed.

(** One call of [genmsg]. *)
Lemma genmsg_ok s last : feedOk s → ptrOk s last →
  ∃ r last', genmsg s last = Ok (r, last') ∧ ptrOk s last' ∧
  match r with
  | Some m =>
      applyMsg m (knownAt s last) = knownAt s last' ∧ (ptrPos last < ptrPos last')%nat ∧
      (last ≠ None → Z.of_nat (length (pmAdded m) + length (pmAdded6 m)) ≤ pexMaxDelta ∧
                     Z.of_nat (length (pmDropped m) + length (pmDropped6 m)) ≤ pexMaxDelta)
  | None => last' = last ∧ knownAt s last = replay ∅ (pevents s)
  end.
Proof.
  intros Hs Hptr. unfold genmsg, Genmsg. destruct last as [p|].
  - cbn in Hptr. destruct (genLoop_ok s (knownAt s (Some p)) Hs (length (pevents s)) emptyFactory p) as
      (f & p' & E & Hpp & [HI HD] & HDl & Hsame & Hend); [done|lia|apply FRel_empty|done|].
    rewrite E. cbn [mbind go_bind]. pose proof (msg_length f HI) as [L1 L2]. unfold DeltaLen in *.
    destruct (Z.eqb_spec (PexMsg_Len (fmsg f)) 0) as [E0|E0].
    + exists None, (Some p). split_and!; try done. destruct (Len_zero f HI E0) as [Ea Ed].
      destruct HD as (HS & _). rewrite Ea, Ed in HS. rewrite Ea, Ed, !size_empty in Hend.
      destruct Hend as [Hend|Hend]; [|unfold pexMaxDelta in Hend; cbn in Hend; lia].
      rewrite union_empty_r_L, difference_empty_L in HS. rewrite <- HS. cbn. by rewrite Hend, take_ge by lia.
    + exists (Some (fmsg f)), (Some p'). split_and!; try done; [cbn; lia| | |].
      * rewrite applyMsg_sets by done. symmetry. apply HD.
      * cbn. destruct (decide (p' = p)) as [->|]; [|lia]. by rewrite (Hsame eq_refl) in E0.
      * intros _. lia.
  - cbn [mbind go_bind]. pose proof (fo_msg0 s Hs) as [HI HD].
    destruct (Z.eqb_spec (PexMsg_Len (fmsg (pmsg0 s))) 0) as [E0|E0].
    + exists None, None. split_and!; try done. destruct (Len_zero _ HI E0) as [Ea Ed]. destruct HD as (HS & _).
      rewrite HS, Ea, Ed. cbn. set_solver.
    + exists (Some (fmsg (pmsg0 s))), (ptail s). rewrite (fo_tail s Hs).
      destruct (length (pevents s)) as [|n] eqn:El.
      * exfalso. apply E0. destruct (pevents s); [|done]. destruct HD as (HS & _ & Ho). cbn in HS.
        assert (fadded (pmsg0 s) = ∅ ∧ fdropped (pmsg0 s) = ∅) as [Ea Ed] by set_solver.
        destruct (msg_length _ HI) as [L1 L2]. rewrite Ea, size_empty in L1. rewrite Ed, size_empty in L2.
        unfold PexMsg_Len. lia.
      * split_and!; try done; [cbn; lia| |cbn; lia]. rewrite applyMsg_sets by done. destruct HD as (HS & _).
        cbn. rewrite take_ge by lia. by rewrite HS at 1.
Qed.

(** ** The torrent and one observer

    [pexReach s live view last]: [live] are the listed connections, [view] is
    what a peer that was sent the messages so far knows, and [last] is the
    position kept for it.  A connection is listed under an address that is
    neither listed nor waiting to be dropped. *)
Definition freshAddr (s : pexState) (live : list pexPeer) (c : pexPeer) : Prop :=
  ∀ na, naOf (dialAddr c) = Some na → na ∉ liveNas live ++ holdNas (phold s).

Inductive pexReach : pexState → list pexPeer → gset NodeAddr → option nat → Prop :=
| reach_new : pexReach newPexState [] ∅ None
| reach_add s live view last c s' :
    pexReach s live view last → freshAddr s live c → pex_Add s c = Ok s' → pexReach s' (c :: live) view last
| reach_drop s live1 c live2 view last s' :
    pexReach s (live1 ++ c :: live2) view last → pex_Drop s true c = Ok s' → pexReach s' (live1 ++ live2) view last
| reach_send s live view last m last' :
    pexReach s live view last → genmsg s last = Ok (Some m, last') → pexReach s live (applyMsg m view) last'.

Record PInv (s : pexState) (live : list pexPeer) (view : gset NodeAddr) (last : option nat) : Prop := {
  pi_feed : feedOk s;
  pi_ptr : ptrOk s last;
  pi_view : view = knownAt s last;
  pi_drops : Forall (λ e, pet e = pexDrop) (phold s);
  pi_nodup : NoDup (liveNas live ++ holdNas (phold s));
  pi_known : replay ∅ (pevents s) = list_to_set (liveNas live) ∪ list_to_set (holdNas (phold s));
  pi_nc : pnc s = Z.of_nat (length live);
  pi_hold : Z.of_nat (length (phold s)) ≤ pexMaxHold;
  pi_flushed : pexTargAdded ≤ pnc s → phold s = [] }.

Lemma feedOk_ext s h n : feedOk s → feedOk (mkPex (pevents s) (pnext s) (ptail s) h n (pmsg0 s)).
Proof. by intros []. Qed.

Lemma knownAt_prefix s s' last : pevents s `prefix_of` pevents s' → ptrOk s last →
  ptrOk s' last ∧ knownAt s' last = knownAt s last.
Proof.
  intros [k E] Hp. destruct last as [p|]; [|done]. cbn in *. rewrite E, length_app. split; [lia|].
  by rewrite take_app_le by lia.
Qed.

Lemma liveNas_cons c live : liveNas (c :: live) = match naOf (dialAddr c) with Some na => [na] | None => [] end ++ liveNas live.
Proof. unfold liveNas. cbn. by destruct (naOf _). Qed.

Lemma NoDup_disj (a b : list NodeAddr) : NoDup (a ++ b) → (list_to_set a : gset NodeAddr) ## list_to_set b.
Proof. intros (_ & Hd & _)%NoDup_app x. rewrite !elem_of_list_to_set. apply Hd. Qed.

(** Taking the held drops out of what is known. *)
Lemma add_prepare s live view last : PInv s live view last →
  let s0 := mkPex (pevents s) (pnext s) (ptail s) (phold s) (pnc s + 1) (pmsg0 s) in
  ∃ s1, (if pexTargAdded <=? pnc s0 then
           s ← appendAll s0 (phold s0); Ok (mkPex (pevents s) (pnext s) (ptail s) [] (pnc s) (pmsg0 s))
         else Ok s0) = Ok s1 ∧
    feedOk s1 ∧ pnc s1 = pnc s + 1 ∧ pevents s `prefix_of` pevents s1 ∧
    (phold s1 = [] ∨ phold s1 = phold s ∧ pnc s + 1 < pexTargAdded) ∧
    replay ∅ (pevents s1) = list_to_set (liveNas live) ∪ list_to_set (holdNas (phold s1)).
Proof.
  intros HI s0. assert (Hs0 : feedOk s0) by apply feedOk_ext, (pi_feed _ _ _ _ HI).
  change (pnc s0) with (pnc s + 1). change (phold s0) with (phold s).
  destruct (Z.leb_spec pexTargAdded (pnc s + 1)) as [Hge|Hlt].
  - destruct (appendAll_ok (phold s) s0 Hs0) as (s1 & E & Hs1 & Hh & Hc & Hpre & Hr).
    + apply (pi_drops _ _ _ _ HI).
    + apply (NoDup_app (liveNas live)), (pi_nodup _ _ _ _ HI).
    + intros na Hna. cbn [s0 pevents]. rewrite (pi_known _ _ _ _ HI), elem_of_union, !elem_of_list_to_set. by right.
    + rewrite E. eexists. split; [reflexivity|]. split_and!; cbn [pevents phold pnc]; try done.
      * by apply feedOk_ext.
      * by left.
      * rewrite Hr. cbn [s0 pevents]. rewrite (pi_known _ _ _ _ HI).
        pose proof (NoDup_disj _ _ (pi_nodup _ _ _ _ HI)) as Hd. cbn [list_to_set holdNas omap list_omap]. set_solver +Hd.
  - exists s0. split_and!; try done; [by right|]. apply (pi_known _ _ _ _ HI).
Qed.

Lemma PInv_add s live view last c : PInv s live view last → freshAddr s live c →
  ∃ s', pex_Add s c = Ok s' ∧ PInv s' (c :: live) view last.
Proof.
  intros HI Hf. destruct (add_prepare s live view last HI) as (s1 & E1 & Hs1 & Hc1 & Hpre1 & Hh1 & Hr1).
  assert (Hfr : ∀ na, naOf (dialAddr c) = Some na → na ∉ liveNas live ++ holdNas (phold s1)).
  { intros na Hna. specialize (Hf na Hna). destruct Hh1 as [->|[-> _]]; [|done]. set_solver +Hf. }
  assert (Hp : proper1 (replay ∅ (pevents s1)) (mkPexEvent c pexAdd)).
  { apply proper1_naOf. cbn. destruct (naOf (dialAddr c)) as [na|] eqn:Ena; [|done].
    rewrite Hr1, elem_of_union, !elem_of_list_to_set. specialize (Hfr na eq_refl). set_solver +Hfr. }
  destruct (pex_append_ok s1 _ Hs1 Hp) as (s2 & E2 & Hs2 & Ev & Hh & Hc).
  exists s2. unfold pex_Add. cbn zeta. rewrite E1. cbn [mbind go_bind]. split; [done|].
  assert (Hpre2 : pevents s `prefix_of` pevents s2) by (rewrite Ev; by apply prefix_app_r).
  destruct (knownAt_prefix s s2 last Hpre2 (pi_ptr _ _ _ _ HI)) as [Hptr Hk].
  constructor; rewrite ?Hh, ?Hc, ?Hc1; try done.
  - rewrite Hk. apply HI.
  - destruct Hh1 as [->|[-> _]]; [constructor|apply HI].
  - rewrite liveNas_cons, <- app_assoc. destruct (naOf (dialAddr c)) as [na|] eqn:Ena.
    + apply NoDup_cons. split; [by apply Hfr|]. destruct Hh1 as [->|[-> _]]; [|apply HI].
      rewrite app_nil_r. apply (NoDup_app (liveNas live) (holdNas (phold s))), HI.
    + destruct Hh1 as [->|[-> _]]; [|apply HI]. cbn. rewrite app_nil_r. apply (NoDup_app (liveNas live) (holdNas (phold s))), HI.
  - rewrite Ev, replay_snoc, replay1_naOf, liveNas_cons, Hr1. cbn [mkPexEvent peaddr pet].
    destruct (naOf (dialAddr c)); cbn [app list_to_set]; [by rewrite assoc_L by apply _|done].
  - rewrite (pi_nc _ _ _ _ HI). cbn. lia.
  - destruct Hh1 as [->|[-> _]]; [done|apply HI].
  - intros Hge. destruct Hh1 as [->|[-> Hlt]]; [done|lia].
Qed.

Lemma drop_nodup live1 c live2 h : NoDup (liveNas (live1 ++ c :: live2) ++ holdNas h) →
  NoDup (liveNas (live1 ++ live2) ++ match naOf (dialAddr c) with Some na => [na] | None => [] end ++ holdNas h) ∧
  (list_to_set (liveNas (live1 ++ c :: live2)) : gset NodeAddr) =
    match naOf (dialAddr c) with Some na => {[na]} | None => ∅ end ∪ list_to_set (liveNas (live1 ++ live2)).
Proof.
  assert (Hp : liveNas (live1 ++ c :: live2) ≡ₚ match naOf (dialAddr c) with Some na => [na] | None => [] end ++ liveNas (live1 ++ live2)).
  { rewrite <- liveNas_cons. unfold liveNas. apply omap_Permutation. by rewrite Permutation_middle. }
  intros Hn. split.
  - rewrite Hp in Hn. rewrite app_assoc. rewrite (Permutation_app_comm (liveNas _)). done.
  - apply set_eq. intros x. rewrite elem_of_union, !elem_of_list_to_set, (elem_of_Permutation_proper x _ _ Hp), elem_of_app.
    destruct (naOf (dialAddr c)); set_solver +.
Qed.

Lemma PInv_drop s live1 c live2 view last : PInv s (live1 ++ c :: live2) view last →
  ∃ s', pex_Drop s true c = Ok s' ∧ PInv s' (live1 ++ live2) view last.
Proof.
  intros HI. destruct (drop_nodup live1 c live2 (phold s) (pi_nodup _ _ _ _ HI)) as [Hnd Hset].
  pose proof (pi_nc _ _ _ _ HI) as Hnc. rewrite length_app in Hnc. cbn [length] in Hnc.
  assert (Hnc' : pnc s - 1 = Z.of_nat (length (live1 ++ live2))) by (rewrite length_app; lia).
  unfold pex_Drop. cbn [negb]. cbn zeta. cbn [pnc phold].
  destruct ((pnc s - 1 <? pexTargAdded) && (Z.of_nat (length (phold s)) <? pexMaxHold)) eqn:Ehold.
  - apply andb_true_iff in Ehold as [Hlt%Z.ltb_lt Hl%Z.ltb_lt]. eexists. split; [reflexivity|].
    assert (Eh : holdNas (phold s ++ [mkPexEvent c pexDrop]) = holdNas (phold s) ++ match naOf (dialAddr c) with Some na => [na] | None => [] end).
    { unfold holdNas. rewrite omap_app. cbn. by destruct (naOf _). }
    constructor; cbn [phold pnc pevents]; rewrite ?Eh; try done.
    + exact (feedOk_ext s _ _ (pi_feed _ _ _ _ HI)).
    + exact (pi_ptr _ _ _ _ HI).
    + exact (pi_view _ _ _ _ HI).
    + apply Forall_app. split; [apply HI|by repeat constructor].
    + by rewrite (Permutation_app_comm (holdNas _)).
    + rewrite (pi_known _ _ _ _ HI), Hset, list_to_set_app_L. destruct (naOf (dialAddr c)); cbn [list_to_set]; set_solver +.
    + rewrite length_app. cbn. unfold pexMaxHold in *. lia.
    + lia.
  - set (s0 := mkPex (pevents s) (pnext s) (ptail s) (phold s) (pnc s - 1) (pmsg0 s)).
    assert (Hp : proper1 (replay ∅ (pevents s0)) (mkPexEvent c pexDrop)).
    { apply proper1_naOf. cbn [mkPexEvent peaddr pet s0 pevents]. rewrite (pi_known _ _ _ _ HI), Hset.
      destruct (naOf (dialAddr c)); [set_solver +|done]. }
    destruct (pex_append_ok s0 _ (feedOk_ext s _ _ (pi_feed _ _ _ _ HI)) Hp) as (s2 & E2 & Hs2 & Ev & Hh & Hc).
    exists s2. split; [done|].
    destruct (knownAt_prefix s s2 last) as [Hptr Hk]; [rewrite Ev; by apply prefix_app_r|apply HI|].
    constructor; rewrite ?Hh, ?Hc; cbn [s0 phold pnc]; try done.
    + rewrite Hk. apply HI.
    + apply HI.
    + destruct (naOf (dialAddr c)) as [na|]; [|exact Hnd]. cbn [app] in Hnd.
      rewrite <- Permutation_middle in Hnd. by apply NoDup_cons in Hnd as [_ Hnd].
    + rewrite Ev, replay_snoc, replay1_naOf. cbn [mkPexEvent peaddr pet s0 pevents]. rewrite (pi_known _ _ _ _ HI), Hset.
      destruct (naOf (dialAddr c)) as [na|]; [|set_solver +].
      apply NoDup_app in Hnd as (_ & Hd & [Hna _]%NoDup_cons). 
      apply set_eq. intros x. rewrite elem_of_difference, !elem_of_union, !elem_of_list_to_set, !elem_of_singleton.
      specialize (Hd x). set_solver +Hd Hna.
    + apply HI.
    + intros Hge. apply (pi_flushed _ _ _ _ HI). lia.
Qed.

Lemma pexReach_inv s live view last : pexReach s live view last → PInv s live view last.
Proof.
  induction 1 as [|s live view last c s' _ IH Hf E|s live1 c live2 view last s' _ IH E|s live view last m last' _ IH E].
  - constructor; cbn; try done; [apply feedOk_new|constructor].
  - destruct (PInv_add _ _ _ _ _ IH Hf) as (s2 & E2 & H2). congruence.
  - destruct (PInv_drop _ _ _ _ _ _ IH) as (s2 & E2 & H2). congruence.
  - destruct (genmsg_ok s last (pi_feed _ _ _ _ IH) (pi_ptr _ _ _ _ IH)) as (r & l & E2 & Hptr & Hr).
    rewrite E in E2. injection E2 as <- <-. destruct Hr as (Happ & _). destruct IH. subst. constructor; done.
Qed.
End Feed.

(** C13. As long as every connection is listed under an address that is neither
    listed nor held as a drop (no peer reconnects while its drop is held; what
    happens when one does is [held_drop_withdraws]), peer exchange tells every
    peer exactly who is connected.  Whatever the order in which connections are
    listed and dropped and messages are sent, [genmsg] works, and what a peer
    knows from the messages it was sent is current whenever there is no message
    for it: it knows the listed connections and the (at most 25) whose drop is
    held back, and with 25 or more connections exactly the listed ones.  Every
    message takes the peer forward in the feed, and a message that is not the
    first one adds at most 50 peers and drops at most 50. *)
Theorem pex_view_current `{KrpcIndex} s live view last : pexReach s live view last →
  ∃ r last', genmsg s last = Ok (r, last') ∧
  match r with
  | None =>
      view = list_to_set (liveNas live) ∪ list_to_set (holdNas (phold s)) ∧
      Z.of_nat (length (phold s)) ≤ pexMaxHold ∧
      (pexTargAdded ≤ Z.of_nat (length live) → view = list_to_set (liveNas live))
  | Some m =>
      (ptrPos last < ptrPos last' ≤ length (pevents s))%nat ∧
      (last ≠ None → Z.of_nat (length (pmAdded m) + length (pmAdded6 m)) ≤ pexMaxDelta ∧
                     Z.of_nat (length (pmDropped m) + length (pmDropped6 m)) ≤ pexMaxDelta)
  end.
Proof.
  intros HI%pexReach_inv. destruct (genmsg_ok s last (pi_feed _ _ _ _ HI) (pi_ptr _ _ _ _ HI)) as (r & last' & E & Hptr & Hr).
  exists r, last'. split; [done|]. destruct r as [m|].
  - destruct Hr as (_ & Hpos & Hb). split; [|done]. split; [done|]. destruct last'; cbn in *; lia.
  - destruct Hr as [_ Hk]. rewrite (pi_view _ _ _ _ HI), Hk, (pi_known _ _ _ _ HI). split_and!; [done|apply HI|].
    intros Hge. rewrite (pi_flushed _ _ _ _ HI); [cbn; set_solver|]. by rewrite (pi_nc _ _ _ _ HI).
Qed.

(** ** An instance of [Index], and runs *)
#[export, refine] Instance list_KrpcIndex : KrpcIndex := {
  na_Index l x := list_find (λ y, NodeAddr_Equal y x = true) l ≫= λ p, Some p.1 }.
Proof.
  - intros l x i E. destruct (list_find _ l) as [[j y]|] eqn:Ef; [|done]. injection E as <-.
    apply list_find_Some in Ef as (Hl & Hy & Hmin). exists y. split_and!; [done|done|].
    intros i z Hi Hz. apply not_true_is_false. by eapply Hmin.
  - intros l x E y Hy. destruct (list_find _ l) as [[j z]|] eqn:Ef; [done|].
    apply list_find_None in Ef. apply not_true_is_false. by eapply Forall_forall in Ef.
Defined.

Module PexExample.
(** Connection number [n], from an IPv4 address of its own. *)
Definition peer (n : Z) : pexPeer := mkPexPeer (TCPAddr (mkAddr [10; 0; 0; n] 1000)) true 0 false false.
Definition na (n : Z) : NodeAddr := (v4InV6Prefix ++ [10; 0; 0; n], 1000).

Fixpoint addAll (s : pexState) (l : list Z) : go pexState :=
  match l with [] => Ok s | n :: l => s ← pex_Add s (peer n); addAll s l end.

Definition unwrap (m : go pexState) : pexState := match m with Ok s => s | Panic _ => newPexState end.
Definition s1 : pexState := unwrap (pex_Add newPexState (peer 1)).
Definition s2 : pexState := unwrap (pex_Add s1 (peer 2)).
Definition s3 : pexState := unwrap (pex_Drop s2 true (peer 1)).
Definition m2 : PexMsg := mkPexMsg [na 1; na 2] [16; 16] [] [] [] [].

(** A peer reconnects while its drop is held back: when the drop is flushed the
    connected peer is withdrawn. *)
Definition reconnected : go pexState :=
  s ← pex_Add newPexState (peer 1);
  s ← pex_Drop s true (peer 1);
  s ← pex_Add s (peer 1);
  addAll s (seqZ 2 24).

(** A peer that sends its extended handshake twice is added twice and dropped
    once. *)
Definition twice : go pexState :=
  s ← pex_Add newPexState (peer 1);
  s ← pex_Add s (peer 1);
  pex_Drop s true (peer 1).
End PexExample.

Lemma freshAddr_check s live c :
  match naOf (dialAddr c) with Some na => bool_decide (na ∈ liveNas live ++ holdNas (phold s)) | None => false end = false →
  freshAddr s live c.
Proof. intros H na E. rewrite E in H. by apply bool_decide_eq_false in H. Qed.

Lemma pex_view_current_witness :
  ∃ r last', genmsg PexExample.s3 (Some 1%nat) = Ok (r, last') ∧
  match r with
  | None =>
      list_to_set [PexExample.na 1; PexExample.na 2] =
        list_to_set (liveNas [PexExample.peer 2]) ∪ (list_to_set (holdNas (phold PexExample.s3)) : gset NodeAddr) ∧
      Z.of_nat (length (phold PexExample.s3)) ≤ pexMaxHold ∧
      (pexTargAdded ≤ Z.of_nat (length [PexExample.peer 2]) →
        list_to_set [PexExample.na 1; PexExample.na 2] = (list_to_set (liveNas [PexExample.peer 2]) : gset NodeAddr))
  | Some m =>
      (ptrPos (Some 1%nat) < ptrPos last' ≤ length (pevents PexExample.s3))%nat ∧
      (Some 1%nat ≠ None → Z.of_nat (length (pmAdded m) + length (pmAdded6 m)) ≤ pexMaxDelta ∧
                     Z.of_nat (length (pmDropped m) + length (pmDropped6 m)) ≤ pexMaxDelta)
  end.
Proof.
  apply (pex_view_current PexExample.s3 [PexExample.peer 2]
    (list_to_set [PexExample.na 1; PexExample.na 2]) (Some 1%nat)).
  apply (reach_drop PexExample.s2 [PexExample.peer 2] (PexExample.peer 1) []); [|by_compute].
  replace (list_to_set [PexExample.na 1; PexExample.na 2] : gset NodeAddr) with (applyMsg PexExample.m2 ∅) by by_compute.
  apply (reach_send PexExample.s2 [PexExample.peer 2; PexExample.peer 1] ∅ None); [|by_compute].
  apply (reach_add PexExample.s1 [PexExample.peer 1]); [|apply freshAddr_check; by_compute|by_compute].
  apply (reach_add newPexState []); [constructor|apply freshAddr_check; by_compute|by_compute].
Defined.

(** The connected peer 1 is not in the initial message. *)
Example held_drop_withdraws :
  match PexExample.reconnected with
  | Ok s => bool_decide (PexExample.na 1 ∈ fadded (pmsg0 s)) = false ∧ pnc s = 25
  | Panic _ => False
  end.
Proof. vm_compute. done. Qed.

(** One connection too many is counted for good. *)
Example repeated_handshake_leaks :
  match PexExample.twice with Ok s => pnc s = 1 | Panic _ => False end.
Proof. vm_compute. done. Qed.

(** The initial message is not limited to [pexMaxDelta] peers. *)
Example initial_message_unbounded :
  match PexExample.addAll newPexState (seqZ 1 60) with
  | Ok s => length (pmAdded (fmsg (pmsg0 s))) = 60%nat
  | Panic _ => False
  end.
Proof. vm_compute. done. Qed.
