(* ===== verification/IpList.v ===== *)
(** The IP block list: src/iplist/{iplist,packed,cidr}.go.

    Addresses are byte strings of 4 or 16 bytes, compared as [bytes.Compare]
    does.  Parsing a text list needs [net.ParseIP] and [net.ParseCIDR], which
    are arguments; reading lines is [bufio]. *)
From stdpp Require Import base numbers list strings gmap.
From Stdlib Require Import ZArith Lia Sorted.
From S2P Require Import Prelude RequestStrategy Bep40 Bencode.
Open Scope Z_scope.

Record Range : Type := mkRange { First : list Z; Last : list Z; Description : list Z }.

(** ** iplist.go *)

(** [lookup]: the range and whether the address is in it; [None] when there is
    no range to look at. *)
Definition lookup (first : nat → list Z) (full : nat → go Range) (n : nat) (ip : list Z) : go (option (Range * bool)) :=
  let i := sort_Search n (λ i, if Nat.leb n (i + 1) then true else
                              match bytes_compare ip (first (i + 1)%nat) with Lt => true | _ => false end) in
  if Nat.eqb i n then Ok None
  else
    r ← full i;
    Ok (Some (r, bytes_le (First r) ip && bytes_le ip (Last r))).

Definition dummyRange : Range := mkRange [] [] [].

Definition ipl_lookup (ranges : list Range) (ip : list Z) : go (option (Range * bool)) :=
  lookup (λ i, First (nth i ranges dummyRange))
    (λ i, match ranges !! i with Some r => Ok r | None => Panic "index out of range" end) (length ranges) ip.

Definition badIP : Range := mkRange [] [] [98; 97; 100; 32; 73; 80].

(** [IPList.Lookup]: [Some r] when the address is blocked by [r]. *)
Definition ipl_Lookup (ranges : list Range) (ip : list Z) : go (option Range) :=
  let v6 := match To16 ip with
            | Some v6 => q ← ipl_lookup ranges v6; Ok (match q with Some (r, true) => Some r | _ => None end)
            | None => match To4 ip with None => Ok (Some badIP) | Some _ => Ok None end
            end in
  match To4 ip with
  | Some v4 =>
      q ← ipl_lookup ranges v4;
      match q with Some (r, true) => Ok (Some r) | _ => v6 end
  | None => v6
  end.

Definition minifyIP (ip : list Z) : list Z := match To4 ip with Some v4 => v4 | None => ip end.

(** [bytes.TrimSpace] of ASCII text. *)
Definition isSpace (c : Z) : bool := (c =? 32) || ((9 <=? c) && (c <=? 13)).
Fixpoint trimLeft (l : list Z) : list Z :=
  match l with [] => [] | c :: l' => if isSpace c then trimLeft l' else l end.
Definition TrimSpace (l : list Z) : list Z := reverse (trimLeft (reverse (trimLeft l))).

Fixpoint IndexByte (c : Z) (l : list Z) : option nat :=
  match l with
  | [] => None
  | x :: l => if x =? c then Some O else match IndexByte c l with Some i => Some (S i) | None => None end
  end.
Definition LastIndexByte (c : Z) (l : list Z) : option nat :=
  match IndexByte c (reverse l) with Some i => Some (length l - 1 - i)%nat | None => None end.

Section Parse.
Context (ParseIP : list Z → option (list Z)).

(** A range, a line without one, or an error. *)
Definition ParseBlocklistP2PLine (l : list Z) : result string (option Range) :=
  let l := TrimSpace l in
  if bool_decide (l = []) || bool_decide (head l = Some 35) then Good None
  else
    match LastIndexByte 58 l with
    | None => Bad "missing colon"
    | Some colon =>
        let rest := drop (colon + 1) l in
        match IndexByte 45 rest with
        | None => Bad "missing hyphen"
        | Some hyphen =>
            match ParseIP (take hyphen rest), ParseIP (drop (hyphen + 1) rest) with
            | Some a, Some b =>
                let first := minifyIP a in
                let last := minifyIP b in
                if Nat.eqb (length first) (length last) then Good (Some (mkRange first last (take colon l)))
                else Bad "bad IP range"
            | _, _ => Bad "bad IP range"
            end
        end
    end.

(** [NewFromReader] over the lines of the file; the number is that of the bad
    line. *)
Fixpoint NewFromLines (lines : list (list Z)) (lineNum : Z) (ranges : list Range) : result (Z * string) (list Range) :=
  match lines with
  | [] => Good ranges
  | l :: lines =>
      match ParseBlocklistP2PLine l with
      | Bad e => Bad (lineNum, e)
      | Good None => NewFromLines lines (lineNum + 1) ranges
      | Good (Some r) => NewFromLines lines (lineNum + 1) (ranges ++ [r])
      end
  end.
End Parse.

(** ** cidr.go *)
Definition IPNetLast (ip mask : list Z) : go (list Z) :=
  _ ← guard_go (Nat.eqb (length ip) (length mask)) "wat";
  Ok (zip_with (λ a m, Z.lor a (255 - m)) ip mask).

(** ** packed.go *)
Definition packedRangesOffset : Z := 8.
Definition packedRangeLen : Z := 44.

Definition le_encode (n : nat) (z : Z) : list Z := reverse (be_encode n z).
Definition le_decode (l : list Z) : Z := be_decode (reverse l).

(** The ranges of [WritePacked], with the offsets of the descriptions seen so
    far, their concatenation and its length. *)
Fixpoint packRanges (rs : list Range) (descOffsets : gmap (list Z) Z) (descs : list Z) (nextOffset : Z) :
    go (list Z * list Z) :=
  match rs with
  | [] => Ok ([], descs)
  | r :: rs =>
      match To16 (First r), To16 (Last r) with
      | Some a, Some b =>
          let '(descOff, offs, descs, next) :=
            match descOffsets !! Description r with
            | Some off => (off, descOffsets, descs, nextOffset)
            | None => (nextOffset, <[Description r := nextOffset]> descOffsets, descs ++ Description r,
                       i64 (nextOffset + Z.of_nat (length (Description r))))
            end in
          '(out, all) ← packRanges rs offs descs next;
          Ok (a ++ b ++ le_encode 8 (u64 descOff) ++ le_encode 4 (u32 (Z.of_nat (length (Description r)))) ++ out, all)
      | _, _ => Panic "short write"
      end
  end.

Definition WritePacked (ranges : list Range) : go (list Z) :=
  '(out, descs) ← packRanges ranges ∅ [] 0;
  Ok (le_encode 8 (Z.of_nat (length ranges)) ++ out ++ descs).

Definition pil_len (pil : list Z) : Z := i64 (le_decode (take 8 pil)).

Definition NewFromPacked (b : list Z) : go (list Z) :=
  _ ← guard_go (Nat.leb 8 (length b)) "slice bounds out of range";
  let minLen := i64 (packedRangesOffset + pil_len b * packedRangeLen) in
  _ ← guard_go (minLen <=? Z.of_nat (length b)) "packed len";
  Ok b.

(** [pil[a:b]]. *)
Definition slice (l : list Z) (a b : Z) : go (list Z) :=
  _ ← guard_go ((0 <=? a) && (a <=? b) && (b <=? Z.of_nat (length l))) "slice bounds out of range";
  Ok (take (Z.to_nat (b - a)) (drop (Z.to_nat a) l)).

Definition pil_getFirst (pil : list Z) (i : nat) : go (list Z) :=
  let off := packedRangesOffset + packedRangeLen * Z.of_nat i in slice pil off (off + 16).

Definition pil_getRange (pil : list Z) (i : nat) : go Range :=
  let rOff := packedRangesOffset + packedRangeLen * Z.of_nat i in
  last ← slice pil (rOff + 16) (rOff + 32);
  o ← slice pil (rOff + 32) (rOff + 40);
  l ← slice pil (rOff + 40) (rOff + 44);
  let descLen := le_decode l in
  let descOff := i64 (i64 (le_decode o) + (packedRangesOffset + packedRangeLen * pil_len pil)) in
  first ← pil_getFirst pil i;
  d ← slice pil descOff (descOff + descLen);
  Ok (mkRange first last d).

(** A first address that cannot be read would panic inside the search. *)
Definition pil_first (pil : list Z) (i : nat) : list Z := match pil_getFirst pil i with Ok f => f | Panic _ => [] end.

Definition pil_Lookup (pil : list Z) (ip : list Z) : go (option Range) :=
  match To16 ip with
  | None => Panic "bad IP"
  | Some ip16 =>
      q ← (if pil_len pil <? 0 then  (** [sort.Search] answers 0 *)
             r ← pil_getRange pil 0; Ok (Some (r, bytes_le (First r) ip16 && bytes_le ip16 (Last r)))
           else lookup (pil_first pil) (pil_getRange pil) (Z.to_nat (pil_len pil)) ip16);
      Ok (match q with Some (r, true) => Some r | _ => None end)
  end.

(** ** Looking up an address *)
Definition contains (ip : list Z) (r : Range) : bool := bytes_le (First r) ip && bytes_le ip (Last r).

(** Sorted and without overlap, as [New] asks for. *)
Definition rangesOk (l : list Range) : Prop :=
  StronglySorted (λ a b, bytes_compare (Last a) (First b) = Lt) l ∧ Forall (λ r, bytes_le (First r) (Last r) = true) l.

Lemma le_lt_trans a b c : bytes_le a b = true → bytes_compare b c = Lt → bytes_compare a c = Lt.
Proof.
  unfold bytes_le. destruct (bytes_compare a b) eqn:E; [|by intros _; apply bytes_compare_trans|done].
  by apply bytes_compare_Eq in E as ->.
Qed.
Lemma lt_le_trans a b c : bytes_compare a b = Lt → bytes_le b c = true → bytes_compare a c = Lt.
Proof.
  unfold bytes_le. destruct (bytes_compare b c) eqn:E; [|by intros ? _; eapply bytes_compare_trans|done].
  by apply bytes_compare_Eq in E as ->.
Qed.
Lemma bytes_lt_irrefl a : bytes_compare a a ≠ Lt.
Proof. by rewrite (proj2 (bytes_compare_Eq a a)). Qed.
Lemma bytes_le_not_lt a b : bytes_le a b = true ↔ bytes_compare b a ≠ Lt.
Proof. unfold bytes_le. rewrite (bytes_compare_opp a b). by destruct (bytes_compare a b). Qed.

Lemma sorted_lookup {A} (R : A → A → Prop) l i j x y : StronglySorted R l → (i < j)%nat →
  l !! i = Some x → l !! j = Some y → R x y.
Proof.
  intros Hs. revert i j. induction Hs as [|a l Hl IH Ha]; intros i j Hij Hi Hj; [done|].
  destruct j as [|j]; [lia|]. destruct i as [|i]; cbn in *.
  - injection Hi as ->. by eapply Forall_lookup in Ha.
  - eapply IH; [|done..]. lia.
Qed.

Section Search.
Context (l : list Range) (ip : list Z).
Hypothesis Hok : rangesOk l.
Abbreviation first := (λ i, First (nth i l dummyRange)).

Lemma first_lookup i r : l !! i = Some r → first i = First r.
Proof. intros H. cbn beta. by rewrite (nth_lookup_Some _ _ _ _ H). Qed.

Lemma last_lt_first i j r s : (i < j)%nat → l !! i = Some r → l !! j = Some s → bytes_compare (Last r) (First s) = Lt.
Proof. intros Hij Hi Hj. exact (sorted_lookup _ l i j r s (proj1 Hok) Hij Hi Hj). Qed.

Lemma first_lt i j r s : (i < j)%nat → l !! i = Some r → l !! j = Some s → bytes_compare (First r) (First s) = Lt.
Proof.
  intros Hij Hi Hj. eapply le_lt_trans; [|by eapply last_lt_first].
  destruct Hok as [_ Hf]. by eapply Forall_lookup in Hf.
Qed.

Lemma search_exact : (0 < length l)%nat →
  let i := sort_Search (length l) (λ i, if Nat.leb (length l) (i + 1) then true else
                              match bytes_compare ip (first (i + 1)%nat) with Lt => true | _ => false end) in
  (i < length l)%nat ∧ ∀ j r, l !! j = Some r → contains ip r = true → j = i.
Proof.
  intros Hn. set (P := λ i, if Nat.leb (length l) (i + 1) then true else
    match bytes_compare ip (first (i + 1)%nat) with Lt => true | _ => false end). cbn zeta.
  destruct (sort_Search_spec (length l) P) as (Hi & Hlo & Hhi).
  { intros a b Hab. unfold P. destruct (Nat.leb_spec (length l) (b + 1)); [done|].
    destruct (Nat.leb_spec (length l) (a + 1)); [lia|].
    destruct (decide (a = b)) as [->|]; [done|].
    destruct (lookup_lt_is_Some_2 l (a + 1)) as [ra Ha]; [lia|]. destruct (lookup_lt_is_Some_2 l (b + 1)) as [rb Hb]; [lia|].
    rewrite (first_lookup _ _ Ha), (first_lookup _ _ Hb). intros Hlt.
    assert (bytes_compare ip (First rb) = Lt) as ->; [|done].
    eapply bytes_compare_trans; [|exact (first_lt (a + 1) (b + 1) ra rb ltac:(lia) Ha Hb)]. by destruct (bytes_compare ip (First ra)). }
  set (i := sort_Search (length l) P) in *.
  assert (Hlt : (i < length l)%nat).
  { destruct (decide (i = length l)) as [E|]; [|lia]. specialize (Hlo (length l - 1)%nat ltac:(lia)). unfold P in Hlo.
    by rewrite (proj2 (Nat.leb_le _ _)) in Hlo by lia. }
  split; [done|]. intros j r Hj [Hc1 Hc2]%andb_true_iff. pose proof (lookup_lt_Some _ _ _ Hj) as Hjl.
  destruct (lt_eq_lt_dec j i) as [[Hji|]|Hij]; [|done|]; exfalso.
  - specialize (Hlo (i - 1)%nat ltac:(lia)). unfold P in Hlo. rewrite (proj2 (Nat.leb_gt _ _)) in Hlo by lia.
    replace (i - 1 + 1)%nat with i in Hlo by lia. destruct (lookup_lt_is_Some_2 l i Hlt) as [ri Hri].
    rewrite (first_lookup _ _ Hri) in Hlo. pose proof (last_lt_first j i r ri Hji Hj Hri) as Hll.
    pose proof (le_lt_trans _ _ _ Hc2 Hll) as Hlt2. by rewrite Hlt2 in Hlo.
  - specialize (Hhi i ltac:(lia)). unfold P in Hhi. rewrite (proj2 (Nat.leb_gt _ _)) in Hhi by lia.
    destruct (lookup_lt_is_Some_2 l (i + 1)) as [ri Hri]; [lia|]. rewrite (first_lookup _ _ Hri) in Hhi.
    assert (Hlt2 : bytes_compare ip (First ri) = Lt) by (by destruct (bytes_compare ip (First ri))).
    apply (bytes_lt_irrefl ip). eapply lt_le_trans; [exact Hlt2|].
    destruct (decide (j = i + 1)%nat) as [->|]; [by simplify_eq|].
    apply bytes_le_lt. eapply lt_le_trans; [exact (first_lt (i + 1) j ri r ltac:(lia) Hri Hj)|done].
Qed.
End Search.

Lemma ipl_lookup_exact l ip : rangesOk l → ∃ q, ipl_lookup l ip = Ok q ∧
  ∀ r, q = Some (r, true) ↔ r ∈ l ∧ contains ip r = true.
Proof.
  intros Hok. unfold ipl_lookup, lookup. destruct (decide (length l = O)) as [E0|E0].
  { destruct l; [|done]. exists None. split; [done|]. intros r. set_solver. }
  destruct (search_exact l ip Hok ltac:(lia)) as [Hi Huniq]. cbn zeta.
  set (i := sort_Search _ _) in *. rewrite (proj2 (Nat.eqb_neq _ _)) by lia.
  destruct (lookup_lt_is_Some_2 l i Hi) as [r Hr]. rewrite Hr. cbn [mbind go_bind]. eexists. split; [reflexivity|].
  fold (contains ip r). intros r'. split.
  - intros [= <- Hc]. split; [by eapply list_elem_of_lookup_2|done].
  - intros [[j Hj]%list_elem_of_lookup_1 Hc]. specialize (Huniq j r' Hj Hc) as ->. assert (r' = r) as -> by congruence. by rewrite Hc.
Qed.

(** The block list blocks exactly the listed addresses: for sorted ranges
    without overlap the binary search of [Lookup] reports an address if and
    only if some range contains it, in its 4-byte or in its 16-byte form, and
    the range it reports is such a range; an address of any other length is
    reported as bad. *)
Theorem ipl_Lookup_exact l ip : rangesOk l →
  match To16 ip with
  | None => ipl_Lookup l ip = Ok (Some badIP)
  | Some v6 =>
      let hits r := r ∈ l ∧ ((∃ v4, To4 ip = Some v4 ∧ contains v4 r = true) ∨ contains v6 r = true) in
      ∃ q, ipl_Lookup l ip = Ok q ∧ match q with Some r => hits r | None => ∀ r, ¬ hits r end
  end.
Proof.
  intros Hok. unfold ipl_Lookup. destruct (To16 ip) as [v6|] eqn:E6.
  2: { unfold To16, To4 in *. destruct (Nat.eqb (length ip) 4); [done|]. by destruct (Nat.eqb (length ip) 16). }
  cbn zeta. destruct (ipl_lookup_exact l v6 Hok) as (q6 & -> & H6). cbn [mbind go_bind].
  destruct (To4 ip) as [v4|] eqn:E4; [destruct (ipl_lookup_exact l v4 Hok) as (q4 & -> & H4); cbn [mbind go_bind];
    destruct q4 as [[r4 []]|]|]; [eexists; split; [reflexivity|]; naive_solver|..];
    destruct q6 as [[r6 []]|]; eexists; (split; [reflexivity|]); naive_solver.
Qed.

Definition exRanges : list Range := [mkRange [1; 0; 0; 0] [1; 255; 255; 255] [97]; mkRange [60; 0; 0; 0] [60; 0; 0; 9] [98]].

Lemma exRanges_ok : rangesOk exRanges.
Proof. split; [|by_decide]. by repeat constructor. Qed.

Lemma ipl_Lookup_exact_witness :
  ∃ q, ipl_Lookup exRanges [60; 0; 0; 3] = Ok q ∧
    match q with
    | Some r => r ∈ exRanges ∧ ((∃ v4, To4 [60; 0; 0; 3] = Some v4 ∧ contains v4 r = true) ∨
                  contains (v4InV6Prefix ++ [60; 0; 0; 3]) r = true)
    | None => ∀ r, ¬ (r ∈ exRanges ∧ ((∃ v4, To4 [60; 0; 0; 3] = Some v4 ∧ contains v4 r = true) ∨
                  contains (v4InV6Prefix ++ [60; 0; 0; 3]) r = true))
    end.
Proof. apply (ipl_Lookup_exact exRanges [60; 0; 0; 3]), exRanges_ok. Defined.

(** The comparison takes a 4-byte range for one of 16-byte addresses: the IPv6
    address 3c00:: is blocked by a range of IPv4 addresses that start with 60. *)
Example ipv6_hits_ipv4_range :
  ipl_Lookup exRanges ([60] ++ replicate 15 0) = Ok (Some (mkRange [60; 0; 0; 0] [60; 0; 0; 9] [98])).
Proof. by_compute. Qed.

Lemma contains_mapped v4 r : First r = [0; 0; 0; 0] → Last r = [0; 255; 255; 255] →
  contains (v4InV6Prefix ++ v4) r = true.
Proof. intros E1 E2. unfold contains. rewrite E1, E2. done. Qed.

(** A list with the range 0.0.0.0-0.255.255.255, which block lists have,
    blocks every IPv4 address: the 16-byte form that [Lookup] tries last starts
    with zeros and compares as inside the range. *)
Theorem zero_range_blocks_all l r ip : rangesOk l → r ∈ l → First r = [0; 0; 0; 0] → Last r = [0; 255; 255; 255] →
  length ip = 4%nat → ∃ r', ipl_Lookup l ip = Ok (Some r').
Proof.
  intros Hok Hr E1 E2 Hl. unfold ipl_Lookup, To16, To4. rewrite Hl. cbn [Nat.eqb].
  destruct (ipl_lookup_exact l ip Hok) as (q4 & -> & _). cbn [mbind go_bind].
  destruct q4 as [[r4 []]|]; [by eauto|..];
    destruct (ipl_lookup_exact l (v4InV6Prefix ++ ip) Hok) as (q6 & -> & H6); cbn [mbind go_bind];
    rewrite (proj2 (H6 r) (conj Hr (contains_mapped ip r E1 E2))); eauto.
Qed.

Lemma zero_range_blocks_all_witness :
  ∃ r', ipl_Lookup [mkRange [0; 0; 0; 0] [0; 255; 255; 255] []] [93; 184; 216; 34] = Ok (Some r').
Proof.
  apply (zero_range_blocks_all _ (mkRange [0; 0; 0; 0] [0; 255; 255; 255] [])); [|by apply list_elem_of_singleton|done..].
  split; [by repeat constructor|by_decide].
Defined.

(** ** The packed form *)
Lemma length_le_encode n z : length (le_encode n z) = n.
Proof. unfold le_encode. by rewrite length_reverse, length_be_encode. Qed.
Lemma le_decode_encode n z : 0 ≤ z < 256 ^ Z.of_nat n → le_decode (le_encode n z) = z.
Proof. intros. unfold le_decode, le_encode. rewrite reverse_involutive. by apply be_decode_encode. Qed.
Lemma To16_length ip v : To16 ip = Some v → length v = 16%nat.
Proof.
  unfold To16. destruct (Nat.eqb_spec (length ip) 4) as [E|]; [intros [= <-]; cbn; by rewrite E|].
  destruct (Nat.eqb_spec (length ip) 16) as [E|]; [by intros [= <-]|done].
Qed.

(** One range of the packed form. *)
Definition entry (a b : list Z) (off : Z) (d : list Z) : list Z :=
  a ++ b ++ le_encode 8 (u64 off) ++ le_encode 4 (u32 (Z.of_nat (length d))).

Definition isEntry (e a b : list Z) (off : Z) (d : list Z) : Prop :=
  ∃ o ln, e = a ++ b ++ o ++ ln ∧ length o = 8%nat ∧ length ln = 4%nat ∧ le_decode o = off ∧ le_decode ln = Z.of_nat (length d).

Lemma isEntry_encode a b off d : 0 ≤ off < 2 ^ 63 → Z.of_nat (length d) < 2 ^ 32 →
  isEntry (entry a b off d) a b off d.
Proof.
  unfold entry.
  intros Ho Hd. exists (le_encode 8 off), (le_encode 4 (Z.of_nat (length d))). rewrite u64_small, u32_small by lia.
  split_and!; [reflexivity|apply length_le_encode|apply length_le_encode|apply le_decode_encode|apply le_decode_encode].
  - change (256 ^ Z.of_nat 8) with (2 ^ 64). lia.
  - change (256 ^ Z.of_nat 4) with (2 ^ 32). lia.
Qed.

Definition descAt (all : list Z) (off : Z) (d : list Z) : Prop :=
  0 ≤ off ∧ off + Z.of_nat (length d) ≤ Z.of_nat (length all) ∧ take (length d) (drop (Z.to_nat off) all) = d.

Lemma descAt_app all ext off d : descAt all off d → descAt (all ++ ext) off d.
Proof.
  intros (H1 & H2 & H3). split_and!; [done|rewrite length_app; lia|].
  rewrite drop_app_le by lia. rewrite take_app_le; [done|]. rewrite length_drop. lia.
Qed.
Lemma descAt_end all d : descAt (all ++ d) (Z.of_nat (length all)) d.
Proof. split_and!; [lia|rewrite length_app; lia|]. rewrite Nat2Z.id, drop_app_length. by rewrite take_ge by lia. Qed.

Definition descTotal (rs : list Range) : Z := Zsum (map (λ r, Z.of_nat (length (Description r))) rs).

(** What is asked of a range to be packed. *)
Definition packable (r : Range) : Prop :=
  is_Some (To16 (First r)) ∧ is_Some (To16 (Last r)) ∧ Z.of_nat (length (Description r)) < 2 ^ 32.

Definition entryOk (all : list Z) (r : Range) (e : list Z) : Prop :=
  ∃ a b off, To16 (First r) = Some a ∧ To16 (Last r) = Some b ∧ isEntry e a b off (Description r) ∧
    off < 2 ^ 63 ∧ descAt all off (Description r).

Lemma packRanges_spec rs : ∀ offs descs next,
  Forall packable rs → next = Z.of_nat (length descs) → next + descTotal rs < 2 ^ 63 →
  (∀ d o, offs !! d = Some o → descAt descs o d) →
  ∃ es ext, packRanges rs offs descs next = Ok (concat es, descs ++ ext) ∧
    Forall2 (entryOk (descs ++ ext)) rs es ∧ Z.of_nat (length ext) ≤ descTotal rs.
Proof.
  induction rs as [|r rs IH]; intros offs descs next Hp Hn Ht Ho.
  { exists [], []. rewrite app_nil_r. done. }
  apply Forall_cons in Hp as [([a Ha] & [b Hb] & Hd) Hp]. cbn [packRanges]. rewrite Ha, Hb.
  assert (Hpos : 0 ≤ descTotal rs) by (apply Zsum_nonneg; lia).
  unfold descTotal in Ht. cbn [map] in Ht. unfold Zsum in Ht. cbn [foldr] in Ht. fold (Zsum (map (λ r, Z.of_nat (length (Description r))) rs)) in Ht.
  fold (descTotal rs) in Ht. assert (Et : descTotal (r :: rs) = Z.of_nat (length (Description r)) + descTotal rs) by done.
  destruct (offs !! Description r) as [off|] eqn:Eoff.
  - destruct (IH offs descs next Hp Hn ltac:(lia) Ho) as (es & ext & E & Hes & Hext). rewrite E. cbn [mbind go_bind].
    pose proof (Ho _ _ Eoff) as Hat. assert (off < 2 ^ 63) by (destruct Hat as (? & ? & _); lia).
    exists (entry a b off (Description r) :: es), ext. split_and!; [unfold entry; cbn [concat]; rewrite <- !app_assoc; reflexivity|constructor; [|done]|lia].
    exists a, b, off. split_and!; [done..| |done|by apply descAt_app]. apply isEntry_encode; [destruct Hat; lia|done].
  - rewrite i64_small by lia.
    destruct (IH (<[Description r := next]> offs) (descs ++ Description r) (next + Z.of_nat (length (Description r))) Hp) as (es & ext & E & Hes & Hext).
    + rewrite length_app. lia.
    + lia.
    + intros d o. rewrite lookup_insert_Some. intros [[<- <-]|[_ Hd2]]; [subst next; apply descAt_end|by apply descAt_app, Ho].
    + rewrite E. cbn [mbind go_bind]. exists (entry a b next (Description r) :: es), (Description r ++ ext).
      rewrite <- app_assoc in *. split_and!; [unfold entry; cbn [concat]; rewrite <- !app_assoc; reflexivity|constructor; [|done]|rewrite length_app; lia].
      exists a, b, next. split_and!; [done..|apply isEntry_encode; [lia|done]|lia|]. rewrite app_assoc. apply descAt_app. subst next. apply descAt_end.
Qed.

Lemma slice_mid l p m q a b : l = p ++ m ++ q → a = Z.of_nat (length p) → b = a + Z.of_nat (length m) → slice l a b = Ok m.
Proof.
  intros -> -> ->. unfold slice. rewrite !length_app.
  replace (_ && _) with true by (symmetry; rewrite !andb_true_iff, !Z.leb_le; lia). cbn [guard_go mbind go_bind].
  f_equal. rewrite Nat2Z.id, drop_app_length. replace (Z.to_nat _) with (length m) by lia. by rewrite take_app_length.
Qed.

Lemma slice_desc p all off d : descAt all off d →
  slice (p ++ all) (Z.of_nat (length p) + off) (Z.of_nat (length p) + off + Z.of_nat (length d)) = Ok d.
Proof.
  intros (H1 & H2 & H3). apply (slice_mid _ (p ++ take (Z.to_nat off) all) d (drop (length d) (drop (Z.to_nat off) all))).
  - rewrite <- app_assoc. f_equal. rewrite <- (take_drop (Z.to_nat off) all) at 1. f_equal.
    rewrite <- (take_drop (length d) (drop (Z.to_nat off) all)) at 1. by rewrite H3.
  - rewrite length_app, length_take_le; lia.
  - done.
Qed.

Lemma concat_split {A} k (es : list (list A)) i e : Forall (λ e, length e = k) es → es !! i = Some e →
  ∃ p q, concat es = p ++ e ++ q ∧ length p = (i * k)%nat.
Proof.
  intros Hk. revert i. induction Hk as [|x es Hx Hes IH]; intros i Hi; [done|]. destruct i as [|i]; cbn in Hi.
  - injection Hi as ->. exists [], (concat es). done.
  - destruct (IH i Hi) as (p & q & E & Hp). exists (x ++ p), q. cbn [concat]. rewrite E, length_app, Hx, Hp, <- app_assoc. done.
Qed.

Lemma length_concat_const {A} k (es : list (list A)) : Forall (λ e, length e = k) es → length (concat es) = (length es * k)%nat.
Proof. induction 1 as [|x es Hx Hes IH]; [done|]. cbn [concat]. rewrite length_app, Hx, IH. done. Qed.

Lemma searchLoop_ext f g n : (∀ i, (i < n)%nat → f i = g i) → ∀ fuel i j, (j ≤ n)%nat →
  searchLoop fuel f i j = searchLoop fuel g i j.
Proof.
  intros H. induction fuel as [|fuel IH]; intros i j Hj; [done|]. cbn [searchLoop].
  destruct (Nat.ltb_spec i j); [|done]. assert ((i + j) / 2 < j)%nat by (apply Nat.Div0.div_lt_upper_bound; lia).
  rewrite H by lia. destruct (g _); apply IH; lia.
Qed.

Lemma searchLoop_le f fuel : ∀ i j, (i ≤ j)%nat → (searchLoop fuel f i j ≤ j)%nat.
Proof.
  induction fuel as [|fuel IH]; intros i j Hij; cbn [searchLoop]; [done|]. destruct (Nat.ltb_spec i j); [|done].
  assert ((i + j) / 2 < j)%nat by (apply Nat.Div0.div_lt_upper_bound; lia).
  assert (i ≤ (i + j) / 2)%nat by (apply Nat.div_le_lower_bound; lia).
  destruct (f _); [etransitivity; [apply IH; lia|lia]|apply IH; lia].
Qed.

Lemma lookup_ext first first' full full' n ip :
  (∀ i, (i < n)%nat → first i = first' i ∧ full i = full' i) → lookup first full n ip = lookup first' full' n ip.
Proof.
  intros H. unfold lookup. set (f := λ i, if Nat.leb n (i + 1) then true else match bytes_compare ip (first (i + 1)%nat) with Lt => true | _ => false end).
  set (g := λ i, if Nat.leb n (i + 1) then true else match bytes_compare ip (first' (i + 1)%nat) with Lt => true | _ => false end).
  assert (E : sort_Search n f = sort_Search n g).
  { apply (searchLoop_ext f g n); [|lia]. intros i Hi. unfold f, g. destruct (Nat.leb_spec n (i + 1)) as [|Hlt]; [done|].
    by rewrite (proj1 (H _ Hlt)). }
  rewrite E. pose proof (searchLoop_le g (S n) 0 n ltac:(lia)) as Hle. fold (sort_Search n g) in Hle. cbn zeta.
  destruct (Nat.eqb_spec (sort_Search n g) n); [done|]. by rewrite (proj2 (H (sort_Search n g) ltac:(lia))).
Qed.

Definition expand (r : Range) : Range :=
  mkRange (default [] (To16 (First r))) (default [] (To16 (Last r))) (Description r).

Section Packed.
Context (l : list Range) (hdr : list Z) (es : list (list Z)) (all : list Z).
Hypothesis (Hes : Forall2 (entryOk all) l es) (Hsize : Z.of_nat (length l) * 44 + 8 + Z.of_nat (length all) < 2 ^ 63)
  (Lh : length hdr = 8%nat).

Lemma es_length : Forall (λ e, length e = 44%nat) es.
Proof.
  clear -Hes. induction Hes as [|r e rs es' Hr Hrs IH]; constructor; [|by apply IH].
  destruct Hr as (a & b & off & Ha & Hb & (o & ln & -> & Lo & Ll & _) & _).
  by rewrite !length_app, Lo, Ll, (To16_length _ _ Ha), (To16_length _ _ Hb).
Qed.

Lemma length_pil : Z.of_nat (length (hdr ++ concat es ++ all)) = 8 + Z.of_nat (length l) * 44 + Z.of_nat (length all).
Proof. rewrite !length_app, Lh, (length_concat_const 44 es es_length), <- (Forall2_length _ _ _ Hes). lia. Qed.

Lemma getRange_ok i r : pil_len (hdr ++ concat es ++ all) = Z.of_nat (length l) → l !! i = Some r →
  pil_getFirst (hdr ++ concat es ++ all) i = Ok (First (expand r)) ∧ pil_getRange (hdr ++ concat es ++ all) i = Ok (expand r).
Proof.
  intros Hlen Hi. destruct (Forall2_lookup_l _ _ _ _ _ Hes Hi) as (e & He & (a & b & off & Ha & Hb & (o & ln & -> & Lo & Ll & Do & Dl) & Hoff & Hat)).
  destruct (concat_split 44 es i _ es_length He) as (p & q & Ec & Hp).
  pose proof (To16_length _ _ Ha) as La. pose proof (To16_length _ _ Hb) as Lb.
  assert (Ed : slice (hdr ++ concat es ++ all) (off + (8 + 44 * Z.of_nat (length l))) (off + (8 + 44 * Z.of_nat (length l)) + Z.of_nat (length (Description r))) = Ok (Description r)).
  { rewrite app_assoc. pose proof (slice_desc (hdr ++ concat es) all off (Description r) Hat) as Hs.
    rewrite length_app, Lh, (length_concat_const 44 es es_length), <- (Forall2_length _ _ _ Hes) in Hs.
    replace (off + (8 + 44 * Z.of_nat (length l))) with (Z.of_nat (8 + length l * 44) + off) by lia. done. }
  set (pil := hdr ++ concat es ++ all) in *.
  assert (E : pil = (hdr ++ p) ++ a ++ b ++ o ++ ln ++ q ++ all) by (unfold pil; rewrite Ec; by rewrite <- !app_assoc).
  clearbody pil.
  assert (Hk : packedRangesOffset + packedRangeLen * Z.of_nat i = Z.of_nat (length hdr + length p)).
  { rewrite Hp, Lh. unfold packedRangesOffset, packedRangeLen. lia. }
  unfold pil_getRange, pil_getFirst, expand. cbn [First]. rewrite Ha, Hb, Hlen. cbn [default].
  set (k := packedRangesOffset + packedRangeLen * Z.of_nat i) in *. clearbody k.
  assert (Hf : slice pil k (k + 16) = Ok a) by (eapply slice_mid; [exact E|rewrite length_app; lia|rewrite La; lia]).
  rewrite Hf. split; [done|].
  rewrite (slice_mid pil ((hdr ++ p) ++ a) b (o ++ ln ++ q ++ all) (k + 16) (k + 32)); [|by rewrite E, <- !app_assoc|rewrite !length_app, La; lia|rewrite Lb; lia].
  rewrite (slice_mid pil ((hdr ++ p) ++ a ++ b) o (ln ++ q ++ all) (k + 32) (k + 40)); [|by rewrite E, <- !app_assoc|rewrite !length_app, La, Lb; lia|rewrite Lo; lia].
  rewrite (slice_mid pil ((hdr ++ p) ++ a ++ b ++ o) ln (q ++ all) (k + 40) (k + 44)); [|by rewrite E, <- !app_assoc|rewrite !length_app, La, Lb, Lo; lia|rewrite Ll; lia].
  cbn [mbind go_bind]. rewrite Do, Dl. destruct Hat as (H0 & H1 & H2). rewrite (i64_small off) by lia.
  unfold packedRangesOffset, packedRangeLen. rewrite i64_small by lia. rewrite Ed. done.
Qed.
End Packed.

Lemma pil_len_ok n rest : Z.of_nat n < 2 ^ 63 → pil_len (le_encode 8 (Z.of_nat n) ++ rest) = Z.of_nat n.
Proof.
  intros Hn. unfold pil_len. rewrite take_app_length' by by rewrite length_le_encode.
  rewrite le_decode_encode, i64_small; [done|lia|]. change (256 ^ Z.of_nat 8) with (2 ^ 64). lia.
Qed.

(** The packed form loses nothing: for ranges with proper addresses whose
    descriptions fit, [WritePacked] writes a file that [NewFromPacked] accepts,
    every range is read back from it (with 16-byte addresses and its own
    description, although equal descriptions are stored once), and [Lookup] in
    it is exact when the ranges are sorted in their 16-byte form. *)
Theorem packed_exact l : Forall packable l → Z.of_nat (length l) * 44 + 8 + descTotal l < 2 ^ 63 →
  ∃ pil, WritePacked l = Ok pil ∧ NewFromPacked pil = Ok pil ∧ pil_len pil = Z.of_nat (length l) ∧
    (∀ i r, l !! i = Some r → pil_getRange pil i = Ok (expand r)) ∧
    (rangesOk (expand <$> l) → ∀ ip v6, To16 ip = Some v6 →
      ∃ q, pil_Lookup pil ip = Ok q ∧ ∀ r, q = Some r ↔ r ∈ expand <$> l ∧ contains v6 r = true).
Proof.
  intros Hp Hsz. assert (Hpos : 0 ≤ descTotal l) by (apply Zsum_nonneg; lia).
  destruct (packRanges_spec l ∅ [] 0 Hp eq_refl ltac:(lia)) as (es & all & E & Hes & Hext).
  { intros d o. by rewrite lookup_empty. }
  cbn [app] in *. assert (Hsize : Z.of_nat (length l) * 44 + 8 + Z.of_nat (length all) < 2 ^ 63) by lia.
  set (pil := le_encode 8 (Z.of_nat (length l)) ++ concat es ++ all).
  assert (Hlen : pil_len pil = Z.of_nat (length l)) by (apply pil_len_ok; lia).
  assert (Lh := length_le_encode 8 (Z.of_nat (length l))).
  exists pil. split_and!.
  - unfold WritePacked. by rewrite E.
  - unfold NewFromPacked. rewrite Hlen. pose proof (length_pil l _ es all Hes Lh) as Hl. fold pil in Hl.
    rewrite (proj2 (Nat.leb_le _ _)) by lia. unfold packedRangesOffset, packedRangeLen. rewrite i64_small by lia.
    cbn [guard_go mbind go_bind]. by rewrite (proj2 (Z.leb_le _ _)) by lia.
  - done.
  - intros i r Hi. by apply (getRange_ok l _ es all Hes Hsize Lh).
  - intros Hok ip v6 H6. unfold pil_Lookup. rewrite H6, Hlen. rewrite (proj2 (Z.ltb_ge _ _)) by lia. rewrite Nat2Z.id.
    destruct (ipl_lookup_exact (expand <$> l) v6 Hok) as (q & Eq & Hq). exists (match q with Some (r, true) => Some r | _ => None end).
    assert (lookup (pil_first pil) (pil_getRange pil) (length l) v6 = Ok q) as ->.
    { rewrite <- Eq. unfold ipl_lookup. rewrite length_fmap. apply lookup_ext. intros i Hi.
      destruct (lookup_lt_is_Some_2 l i Hi) as [r Hr]. destruct (getRange_ok l _ es all Hes Hsize Lh i r Hlen Hr) as [Hf Hg].
      fold pil in Hf, Hg. rewrite Hg. unfold pil_first. rewrite Hf. rewrite list_lookup_fmap, Hr. split; [|done].
      by rewrite (nth_lookup_Some _ _ _ (expand r)) by (by rewrite list_lookup_fmap, Hr). }
    split; [done|]. intros r. rewrite <- Hq. destruct q as [[r' []]|]; naive_solver.
Qed.

Lemma packed_exact_witness :
  ∃ pil, WritePacked exRanges = Ok pil ∧ NewFromPacked pil = Ok pil ∧ pil_len pil = Z.of_nat (length exRanges) ∧
    (∀ i r, exRanges !! i = Some r → pil_getRange pil i = Ok (expand r)) ∧
    (rangesOk (expand <$> exRanges) → ∀ ip v6, To16 ip = Some v6 →
      ∃ q, pil_Lookup pil ip = Ok q ∧ ∀ r, q = Some r ↔ r ∈ expand <$> exRanges ∧ contains v6 r = true).
Proof.
  apply (packed_exact exRanges); [|by_compute].
  repeat constructor; try (eexists; reflexivity); by_compute.
Defined.

(** A list of ranges of both families that is sorted as [IPList] needs it is not
    sorted in the packed form, and the packed list misses an address. *)
Definition mixedRanges : list Range :=
  [mkRange ([32; 1] ++ replicate 14 0) ([32; 1] ++ replicate 14 255) [97]; mkRange [60; 0; 0; 0] [60; 0; 0; 9] [98]].

Example packed_misses :
  rangesOk mixedRanges ∧
  ipl_Lookup mixedRanges ([32; 1] ++ replicate 14 5) = Ok (Some (mkRange ([32; 1] ++ replicate 14 0) ([32; 1] ++ replicate 14 255) [97])) ∧
  (pil ← WritePacked mixedRanges; pil_Lookup pil ([32; 1] ++ replicate 14 5)) = Ok None.
Proof. split; [split; [by repeat constructor|by_decide]|]. vm_compute. done. Qed.
