(* ===== verification/Storage.v ===== *)
(** Storage of torrent data: src/storage/{interface,wrappers,file,file-piece,
    file-misc,mmap,map-piece-completion}.go and src/mmap_span/mmap_span.go.

    [FS] is the operating system's file system as the code sees it: the
    contents of the files that exist, and the paths on which opening and
    [os.Stat] fail for another reason than absence.  A memory map is a mutable byte string.
    A read answers the bytes it stored at the front of the caller's buffer,
    so the count the Go function returns is their number; only the length of
    the buffer matters to it. *)
From stdpp Require Import base numbers list gmap strings.
From Stdlib Require Import ZArith Lia.
From S2P Require Import Prelude Metainfo Segments Visits.
Open Scope Z_scope.

Inductive serr : Type :=
| SEOF
| SErrShortWrite
| SErrInvalid
| SNotExist
| SOther (path : string).

#[export] Instance serr_eq_dec : EqDecision serr.
Proof. solve_decision. Defined.

(** [b[:n]] and [b[n:]] of a buffer of [len] bytes; the capacity of the
    buffers is their length. *)
Definition sliceTo (len n : Z) : go Z := if (0 <=? n) && (n <=? len) then Ok n else Panic "slice bounds out of range".

Definition lenZ {A} (l : list A) : Z := Z.of_nat (length l).

(** ** Package os *)
Record FS : Type := mkFS { fsFiles : gmap string (list Z); fsBroken : gset string; fsUnstat : gset string }.

Definition os_Open (fs : FS) (path : string) : result serr (list Z) :=
  if decide (path ∈ fsBroken fs) then Bad (SOther path)
  else match fsFiles fs !! path with Some c => Good c | None => Bad SNotExist end.

(** [os.OpenFile] with [O_WRONLY|O_CREATE]. *)
Definition os_OpenFile (fs : FS) (path : string) : result serr FS :=
  if decide (path ∈ fsBroken fs) then Bad (SOther path)
  else match fsFiles fs !! path with
       | Some _ => Good fs
       | None => Good (mkFS (<[path := []]> (fsFiles fs)) (fsBroken fs) (fsUnstat fs))
       end.

Definition os_Stat (fs : FS) (path : string) : result serr Z :=
  if decide (path ∈ fsUnstat fs) then Bad (SOther path)
  else match fsFiles fs !! path with Some c => Good (lenZ c) | None => Bad SNotExist end.

(** The files as [os.Stat] sees them, whether they can be opened or not. *)
Definition seenByStat (fs : FS) : FS := mkFS (filter (λ pc, pc.1 ∉ fsUnstat fs) (fsFiles fs)) ∅ ∅.

(** [f.ReadAt] with a buffer of [n] bytes: what is there, and [io.EOF] if that
    is less. *)
Definition f_ReadAt (c : list Z) (n off : Z) : list Z * option serr :=
  if off <? 0 then ([], Some SErrInvalid)
  else
    let d := take (Z.to_nat n) (drop (Z.to_nat off) c) in
    (d, if lenZ d <? n then Some SEOF else None).

(** [f.WriteAt]: a gap before [off] reads as zeros. *)
Definition f_WriteAt (c p : list Z) (off : Z) : list Z :=
  if bool_decide (p = []) then c
  else
    take (Z.to_nat off) (c ++ replicate (Z.to_nat off - length c) 0) ++ p ++ drop (Z.to_nat off + length p) c.

(** ** Torrent data in files: file.go *)
Record file : Type := mkFile { path : string; flength : Z }.

Record fileTorrentImpl : Type := mkFileTorrent { files : list file; segmentLocater : Index }.

Definition newFileTorrentImpl (fs : list file) : fileTorrentImpl := mkFileTorrent fs (NewIndex (map flength fs)).

Fixpoint readFileLoop (fuel : nat) (c : list Z) (flen blen off : Z) (acc : list Z) : go (list Z * option serr) :=
  if (off <? flen) && negb (blen =? 0) then
    match fuel with
    | O => Panic "out of fuel"
    | S fuel =>
        let '(d, err1) := f_ReadAt c blen off in
        if lenZ d =? 0 then Ok (acc, err1)
        else readFileLoop fuel c flen (blen - lenZ d) (i64 (off + lenZ d)) (acc ++ d)
    end
  else Ok (acc, None).

Definition readFileAt (fs : FS) (f : file) (blen off : Z) : go (list Z * option serr) :=
  match os_Open fs (path f) with
  | Bad SNotExist => Ok ([], Some SEOF)
  | Bad e => Ok ([], Some e)
  | Good c =>
      blen ← (if i64 (flength f - off) <? blen then sliceTo blen (i64 (flength f - off)) else Ok blen);
      readFileLoop (S (Z.to_nat blen)) c (flength f) blen off []
  end.

(** What the closure of [ReadAt] shares with it: what is left of the buffer,
    what was read and the error. *)
Record rdState : Type := mkRd { rdLen : Z; rdGot : list Z; rdErr : option serr }.

Definition fileReadCb (fts : fileTorrentImpl) (fs : FS) (st : go rdState) (i : Z) (e : Extent) : go rdState * bool :=
  match st with
  | Panic w => (Panic w, false)
  | Ok st =>
      match files fts !! Z.to_nat i with
      | None => (Panic "index out of range", false)
      | Some f =>
          match (n ← sliceTo (rdLen st) (eLength e); readFileAt fs f n (Start e)) with
          | Panic w => (Panic w, false)
          | Ok (d, err1) => (Ok (mkRd (rdLen st - lenZ d) (rdGot st ++ d) err1), bool_decide (err1 = None))
          end
      end
  end.

Definition file_ReadAt (fts : fileTorrentImpl) (fs : FS) (blen off : Z) : go (list Z * option serr) :=
  st ← (Locate (segmentLocater fts) (mkExtent off blen) (fileReadCb fts fs) (Ok (mkRd blen [] None))).1;
  Ok (rdGot st, if negb (rdLen st =? 0) && bool_decide (rdErr st = None) then Some SEOF else rdErr st).

Record wrState : Type := mkWr { wrFS : FS; wrP : list Z; wrN : Z; wrErr : option serr }.

Definition fileWriteCb (fts : fileTorrentImpl) (st : go wrState) (i : Z) (e : Extent) : go wrState * bool :=
  match st with
  | Panic w => (Panic w, false)
  | Ok st =>
      match files fts !! Z.to_nat i with
      | None => (Panic "index out of range", false)
      | Some f =>
          match os_OpenFile (wrFS st) (path f) with
          | Bad err => (Ok (mkWr (wrFS st) (wrP st) (wrN st) (Some err)), false)
          | Good fs =>
              match sliceTo (lenZ (wrP st)) (eLength e) with
              | Panic w => (Panic w, false)
              | Ok n =>
                  let p1 := take (Z.to_nat n) (wrP st) in
                  let c := default [] (fsFiles fs !! path f) in
                  let fs := mkFS (<[path f := f_WriteAt c p1 (Start e)]> (fsFiles fs)) (fsBroken fs) (fsUnstat fs) in
                  let n1 := lenZ p1 in
                  let err := if negb (n1 =? eLength e) then Some SErrShortWrite else None in
                  (Ok (mkWr fs (drop (Z.to_nat n1) (wrP st)) (wrN st + n1) err), bool_decide (err = None))
              end
          end
      end
  end.

Definition file_WriteAt (fts : fileTorrentImpl) (fs : FS) (p : list Z) (off : Z) : go (FS * Z * option serr) :=
  st ← (Locate (segmentLocater fts) (mkExtent off (lenZ p)) (fileWriteCb fts) (Ok (mkWr fs p 0 None))).1;
  Ok (wrFS st, wrN st, wrErr st).

(** ** Torrent data in memory maps: mmap_span.go *)
Record MMapSpan : Type := mkSpan { mMaps : list (list Z); spanLocater : Index }.

Definition ms_Append (ms : MMapSpan) (mMap : list Z) : MMapSpan := mkSpan (mMaps ms ++ [mMap]) (spanLocater ms).

Definition ms_InitIndex (ms : MMapSpan) : MMapSpan := mkSpan (mMaps ms) (NewIndex (map lenZ (mMaps ms))).

(** [Close], when unmapping succeeds. *)
Definition ms_Close (ms : MMapSpan) : MMapSpan := ms_InitIndex (mkSpan [] (spanLocater ms)).

(** [locateCopy] towards the argument. *)
Definition copyOutCb (ms : MMapSpan) (st : go (Z * list Z)) (i : Z) (e : Extent) : go (Z * list Z) * bool :=
  match st with
  | Panic w => (Panic w, false)
  | Ok (plen, got) =>
      match mMaps ms !! Z.to_nat i with
      | None => (Panic "index out of range", false)
      | Some m =>
          if negb ((0 <=? Start e) && (Start e <=? lenZ m)) then (Panic "slice bounds out of range", false)
          else
            let d := take (Z.to_nat plen) (drop (Z.to_nat (Start e)) m) in
            if negb (lenZ d =? eLength e) then (Panic "did bytes, expected to do", false)
            else (Ok (plen - lenZ d, got ++ d), true)
      end
  end.

Definition ms_ReadAt (ms : MMapSpan) (blen off : Z) : go (list Z * option serr) :=
  '(_, got) ← (Locate (spanLocater ms) (mkExtent off blen) (copyOutCb ms) (Ok (blen, []))).1;
  Ok (got, if negb (lenZ got =? blen) then Some SEOF else None).

(** [locateCopy] from the argument into the maps. *)
Definition copyInCb (st : go (MMapSpan * list Z * Z)) (i : Z) (e : Extent) : go (MMapSpan * list Z * Z) * bool :=
  match st with
  | Panic w => (Panic w, false)
  | Ok (ms, p, n) =>
      match mMaps ms !! Z.to_nat i with
      | None => (Panic "index out of range", false)
      | Some m =>
          if negb ((0 <=? Start e) && (Start e <=? lenZ m)) then (Panic "slice bounds out of range", false)
          else
            let k := Nat.min (length p) (length m - Z.to_nat (Start e)) in
            let m' := take (Z.to_nat (Start e)) m ++ take k p ++ drop (Z.to_nat (Start e) + k) m in
            if negb (Z.of_nat k =? eLength e) then (Panic "did bytes, expected to do", false)
            else (Ok (mkSpan (<[Z.to_nat i := m']> (mMaps ms)) (spanLocater ms), drop k p, n + Z.of_nat k), true)
      end
  end.

Definition ms_WriteAt (ms : MMapSpan) (p : list Z) (off : Z) : go (MMapSpan * Z * option serr) :=
  '(ms', _, n) ← (Locate (spanLocater ms) (mkExtent off (lenZ p)) copyInCb (Ok (ms, p, 0))).1;
  Ok (ms', n, if negb (n =? lenZ p) then Some SErrShortWrite else None).

(** ** Byte ranges of a list *)
Definition range {A} (l : list A) (pos n : Z) : list A := take (Z.to_nat n) (drop (Z.to_nat pos) l).

Definition splice {A} (l : list A) (pos : Z) (d : list A) : list A :=
  take (Z.to_nat pos) l ++ d ++ drop (Z.to_nat pos + length d) l.

Lemma lenZ_app {A} (l k : list A) : lenZ (l ++ k) = lenZ l + lenZ k.
Proof. unfold lenZ. rewrite length_app. lia. Qed.

Lemma lenZ_range {A} (l : list A) pos n : 0 ≤ pos → 0 ≤ n → pos + n ≤ lenZ l → lenZ (range l pos n) = n.
Proof. unfold lenZ, range. rewrite length_take, length_drop. lia. Qed.

Lemma range_0 {A} (l : list A) pos : range l pos 0 = [].
Proof. done. Qed.

Lemma range_app {A} (l : list A) pos n k : 0 ≤ pos → 0 ≤ n → 0 ≤ k →
  range l pos n ++ range l (pos + n) k = range l pos (n + k).
Proof.
  intros. unfold range. rewrite !Z2Nat.inj_add by done. rewrite <- take_take_drop, drop_drop. done.
Qed.

Lemma lookup_range {A} (l : list A) pos n j : (j < Z.to_nat n)%nat → range l pos n !! j = l !! (Z.to_nat pos + j)%nat.
Proof. intros. unfold range. by rewrite lookup_take_lt, lookup_drop. Qed.

Lemma lenZ_splice {A} (l d : list A) pos : 0 ≤ pos → pos + lenZ d ≤ lenZ l → lenZ (splice l pos d) = lenZ l.
Proof. unfold lenZ, splice. rewrite !length_app, length_take, length_drop. lia. Qed.

Lemma splice_nil {A} (l : list A) pos : splice l pos [] = l.
Proof. unfold splice. cbn [app length]. by rewrite Nat.add_0_r, take_drop. Qed.

Lemma splice_splice {A} (l a b : list A) pos : 0 ≤ pos → pos + lenZ a ≤ lenZ l →
  splice (splice l pos a) (pos + lenZ a) b = splice l pos (a ++ b).
Proof.
  unfold lenZ. intros Hp Hl. unfold splice.
  replace (Z.to_nat (pos + Z.of_nat (length a))) with (Z.to_nat pos + length a)%nat by lia.
  rewrite !app_assoc. rewrite (take_app_length' (_ ++ a)) by (rewrite length_app, length_take; lia).
  rewrite <- !app_assoc. do 2 f_equal. rewrite length_app. f_equal.
  rewrite (drop_app_ge (take _ _)) by (rewrite length_take; lia).
  rewrite length_take, drop_app_ge, drop_drop by lia. f_equal. lia.
Qed.

Lemma lookup_splice_in {A} (l d : list A) pos j : (Z.to_nat pos ≤ length l)%nat → (j < length d)%nat →
  splice l pos d !! (Z.to_nat pos + j)%nat = d !! j.
Proof.
  intros. unfold splice. rewrite lookup_app_r by (rewrite length_take; lia).
  rewrite length_take, lookup_app_l by lia. f_equal. lia.
Qed.

Lemma lookup_splice_out {A} (l d : list A) pos k : (Z.to_nat pos + length d ≤ length l)%nat →
  ¬ (Z.to_nat pos ≤ k < Z.to_nat pos + length d)%nat → splice l pos d !! k = l !! k.
Proof.
  intros Hl Hk. unfold splice. destruct (Nat.lt_ge_cases k (Z.to_nat pos)).
  - rewrite lookup_app_l by (rewrite length_take; lia). by rewrite lookup_take_lt.
  - rewrite lookup_app_r by (rewrite length_take; lia). rewrite length_take, lookup_app_r by lia.
    rewrite lookup_drop. f_equal. lia.
Qed.

(** ** The memory maps as one byte string *)
Definition msBytes (ms : MMapSpan) : list Z := concat (mMaps ms).

Definition msOk (ms : MMapSpan) : Prop :=
  spanLocater ms = NewIndex (map lenZ (mMaps ms)) ∧ lenZ (msBytes ms) < 2 ^ 63.

Section Concat.
Context {A : Type}.
Implicit Types (segs : list (list A)).

Lemma lens_nonneg segs : Forall (λ l, 0 ≤ l) (map lenZ segs).
Proof. apply Forall_map, Forall_true. intros. unfold lenZ, compose. lia. Qed.

Lemma lenZ_concat segs : lenZ (concat segs) = Zsum (map lenZ segs).
Proof. induction segs as [|d segs IH]; [done|]. cbn. rewrite lenZ_app, IH. done. Qed.

Lemma segStart_concat segs k : segStart (map lenZ segs) k = lenZ (concat (take k segs)).
Proof. unfold segStart. by rewrite lenZ_concat, firstn_map. Qed.

Lemma concat_at segs k d : segs !! k = Some d →
  concat segs = concat (take k segs) ++ d ++ concat (drop (S k) segs).
Proof. intros H. rewrite <- (take_drop k segs) at 1. rewrite (drop_S _ _ _ H), concat_app. done. Qed.

Lemma range_concat segs k d s n : segs !! k = Some d → 0 ≤ s → 0 ≤ n → s + n ≤ lenZ d →
  range (concat segs) (segStart (map lenZ segs) k + s) n = range d s n.
Proof.
  intros H Hs Hn Hd. rewrite segStart_concat, (concat_at _ _ _ H). unfold lenZ in *. unfold range.
  rewrite drop_app_ge by lia. replace (_ - _)%nat with (Z.to_nat s) by lia.
  rewrite drop_app_le by lia. rewrite take_app_le; [done|]. rewrite length_drop. lia.
Qed.

Lemma splice_concat segs k d s p : segs !! k = Some d → 0 ≤ s → s + lenZ p ≤ lenZ d →
  concat (<[k := splice d s p]> segs) = splice (concat segs) (segStart (map lenZ segs) k + s) p.
Proof.
  intros H Hs Hp. pose proof (lookup_lt_Some _ _ _ H) as Hk. rewrite segStart_concat, (concat_at segs k d H).
  rewrite (concat_at (<[k:=splice d s p]> segs) k (splice d s p)) by (apply list_lookup_insert_eq; lia).
  rewrite take_insert_ge, drop_insert_lt by lia. unfold lenZ in *. unfold splice at 1 2.
  rewrite (take_app_ge (concat _)) by lia. rewrite <- !app_assoc. f_equal.
  replace (Z.to_nat (Z.of_nat (length (concat (take k segs))) + s) - length (concat (take k segs)))%nat
    with (Z.to_nat s) by lia.
  rewrite (take_app_le d) by lia. do 2 f_equal.
  rewrite (drop_app_ge (concat _)) by lia. rewrite (drop_app_le d) by lia. f_equal. f_equal. lia.
Qed.
End Concat.

(** A tile of the needle [pos, fin): what it covers, and how it sits in its
    segment. *)
Lemma tiles_cons_inv {A} (segs : list (list A)) pos fin i e xs :
  tiles (map lenZ segs) pos fin ((i, e) :: xs) →
  ∃ d, segs !! Z.to_nat i = Some d ∧ 0 ≤ Start e ∧ 0 ≤ eLength e ∧ Start e + eLength e ≤ lenZ d ∧
       eLength e = Z.min (lenZ d - Start e) (fin - pos) ∧ (0 < eLength e ∨ lenZ d = 0) ∧
       segStart (map lenZ segs) (Z.to_nat i) + Start e = pos ∧
       segStart (map lenZ segs) (Z.to_nat i) + lenZ d ≤ lenZ (concat segs) ∧
       tiles (map lenZ segs) (pos + eLength e) fin xs.
Proof.
  intros (l & Hi & Hl & Hs & He & Hm & Hz & Hp & Ht). rewrite list_lookup_fmap in Hl.
  destruct (segs !! Z.to_nat i) as [d|] eqn:Hd; [|done]. injection Hl as <-. exists d.
  assert (segStart (map lenZ segs) (Z.to_nat i) + lenZ d ≤ lenZ (concat segs)).
  { rewrite segStart_concat, (concat_at _ _ _ Hd), !lenZ_app. unfold lenZ. lia. }
  split_and!; [done|lia|lia|lia|lia|done|lia|lia|done].
Qed.

Lemma tiles_le ls pos fin xs : tiles ls pos fin xs → pos ≤ fin.
Proof.
  revert pos. induction xs as [|[i e] xs IH]; intros pos; cbn [tiles]; [lia|].
  intros (l & _ & _ & _ & ? & _ & _ & _ & H%IH). lia.
Qed.

Lemma copyOut_run ms xs : ∀ pos fin plen got,
  tiles (map lenZ (mMaps ms)) pos fin xs → fin - pos ≤ plen →
  plen = fin - pos ∨ fin = lenZ (msBytes ms) → 0 ≤ pos →
  runCalls (copyOutCb ms) xs (Ok (plen, got)) = Ok (plen - (fin - pos), got ++ range (msBytes ms) pos (fin - pos)).
Proof.
  induction xs as [|[i e] xs IH]; intros pos fin plen got Ht Hp Hc H0; cbn [runCalls].
  - cbn in Ht. subst. by rewrite Z.sub_diag, range_0, app_nil_r, Z.sub_0_r.
  - destruct (tiles_cons_inv _ _ _ _ _ _ Ht) as (m & Hm & Hs & He & Hle & Hmin & _ & Hpos & Htot & Ht'). clear Ht; rename Ht' into Ht.
    pose proof (tiles_le _ _ _ _ Ht). unfold msBytes in *. cbn [copyOutCb]. rewrite Hm.
    rewrite (proj2 (Z.leb_le 0 _)), (proj2 (Z.leb_le (Start e) _)) by lia. cbn [andb negb].
    replace (take (Z.to_nat plen) (drop (Z.to_nat (Start e)) m)) with (range m (Start e) (eLength e)).
    2:{ unfold range. destruct (Z.min_spec (lenZ m - Start e) (fin - pos)) as [[? Hx]|[? Hx]].
        - rewrite !take_ge by (rewrite length_drop; unfold lenZ in *; lia). done.
        - destruct Hc as [Hc|Hc]; [by rewrite Hc; f_equal; lia|].
          rewrite !take_ge by (rewrite length_drop; unfold lenZ in *; lia). done. }
    rewrite lenZ_range, Z.eqb_refl by lia. cbn [negb].
    rewrite (IH (pos + eLength e) fin) by (done || lia). f_equal. f_equal; [lia|]. rewrite <- app_assoc. f_equal.
    pose proof (range_concat (mMaps ms) _ m (Start e) (eLength e) Hm Hs He Hle) as Hr. rewrite Hpos in Hr.
    rewrite <- Hr, range_app by lia. f_equal. lia.
Qed.

Lemma copyIn_run xs : ∀ ms pos fin p n,
  tiles (map lenZ (mMaps ms)) pos fin xs → fin - pos ≤ lenZ p →
  lenZ p = fin - pos ∨ fin = lenZ (msBytes ms) → 0 ≤ pos → fin ≤ lenZ (msBytes ms) →
  ∃ ms', runCalls copyInCb xs (Ok (ms, p, n)) = Ok (ms', drop (Z.to_nat (fin - pos)) p, n + (fin - pos)) ∧
         map lenZ (mMaps ms') = map lenZ (mMaps ms) ∧ spanLocater ms' = spanLocater ms ∧
         msBytes ms' = splice (msBytes ms) pos (take (Z.to_nat (fin - pos)) p).
Proof.
  induction xs as [|[i e] xs IH]; intros ms pos fin p n Ht Hp Hc H0 Hf; cbn [runCalls].
  - cbn in Ht. subst. exists ms. rewrite Z.sub_diag, Z.add_0_r, drop_0, take_0, splice_nil. done.
  - destruct (tiles_cons_inv _ _ _ _ _ _ Ht) as (m & Hm & Hs & He & Hle & Hmin & _ & Hpos & Htot & Ht'). clear Ht.
    pose proof (tiles_le _ _ _ _ Ht'). unfold msBytes in *. cbn [copyInCb]. rewrite Hm.
    rewrite (proj2 (Z.leb_le 0 _)), (proj2 (Z.leb_le (Start e) _)) by lia. cbn [andb negb].
    replace (Nat.min (length p) (length m - Z.to_nat (Start e))) with (Z.to_nat (eLength e)) by (unfold lenZ in *; lia).
    set (k := Z.to_nat (eLength e)). assert (Hk : Z.of_nat k = eLength e) by lia.
    rewrite Hk, Z.eqb_refl. cbn [negb].
    replace (take (Z.to_nat (Start e)) m ++ take k p ++ drop (Z.to_nat (Start e) + k) m) with (splice m (Start e) (take k p))
      by (unfold splice; do 3 f_equal; rewrite length_take; unfold lenZ in *; lia).
    assert (Hlt : lenZ (take k p) = eLength e) by (unfold lenZ in *; rewrite length_take; lia).
    assert (Hsame : map lenZ (<[Z.to_nat i := splice m (Start e) (take k p)]> (mMaps ms)) = map lenZ (mMaps ms)).
    { change (map lenZ) with (fmap (M := list) (@lenZ Z)). rewrite list_fmap_insert, lenZ_splice by lia. apply list_insert_id.
      by rewrite list_lookup_fmap, Hm. }
    pose proof (splice_concat (mMaps ms) _ m (Start e) (take k p) Hm Hs ltac:(lia)) as Hsp. rewrite Hpos in Hsp.
    edestruct (IH (mkSpan (<[Z.to_nat i := splice m (Start e) (take k p)]> (mMaps ms)) (spanLocater ms))
      (pos + eLength e) fin (drop k p) (n + eLength e)) as (ms' & -> & Hl & Hi & Hb); cbn [mMaps spanLocater];
      [by rewrite Hsame|unfold lenZ in *; rewrite length_drop; lia| |lia|rewrite Hsp, lenZ_splice by lia; done|].
    { rewrite Hsp, lenZ_splice by lia. unfold lenZ in *. rewrite length_drop. lia. }
    exists ms'. split_and!; [|by rewrite Hl|done|].
    + rewrite drop_drop. replace (k + _)%nat with (Z.to_nat (fin - pos)) by lia.
      by replace (n + eLength e + _) with (n + (fin - pos)) by lia.
    + rewrite Hb. cbn [mMaps]. rewrite Hsp, <- Hlt, splice_splice by lia. f_equal. rewrite Hlt.
      rewrite take_take_drop. f_equal. lia.
Qed.

Lemma msOk_lens ms : msOk ms → spanLocater ms = NewIndex (map lenZ (mMaps ms)) ∧ Zsum (map lenZ (mMaps ms)) < 2 ^ 63.
Proof. intros [H1 H2]. split; [done|]. by rewrite <- lenZ_concat. Qed.

Lemma ms_ReadAt_spec ms n off : msOk ms → 0 ≤ off → 0 ≤ n → off + n < 2 ^ 63 →
  let got := range (msBytes ms) off (Z.max 0 (Z.min n (lenZ (msBytes ms) - off))) in
  ms_ReadAt ms n off = Ok (got, if lenZ got <? n then Some SEOF else None).
Proof.
  intros Hok Ho Hn Hb got. destruct (msOk_lens _ Hok) as [Hi Hz]. unfold ms_ReadAt. rewrite Hi.
  destruct (Locate_tiles _ (lens_nonneg (mMaps ms)) Hz off n Ho Hn Hb) as (xs & -> & Ht).
  rewrite <- lenZ_concat in Ht. fold (msBytes ms) in Ht. destruct (Z.ltb_spec off (lenZ (msBytes ms))) as [Hlt|Hge].
  - rewrite (copyOut_run _ _ _ _ _ _ Ht) by lia. cbn [mbind go_bind app].
    replace (_ `min` _ - off) with (Z.max 0 (Z.min n (lenZ (msBytes ms) - off))) by lia. fold got.
    pose proof (lenZ_range (msBytes ms) off (Z.max 0 (Z.min n (lenZ (msBytes ms) - off))) ltac:(lia) ltac:(lia) ltac:(lia)) as Hg.
    fold got in Hg. rewrite Hg. do 2 f_equal.
    destruct (Z.eqb_spec (Z.max 0 (Z.min n (lenZ (msBytes ms) - off))) n), (Z.ltb_spec (Z.max 0 (Z.min n (lenZ (msBytes ms) - off))) n); done || lia.
  - subst xs. cbn. unfold got. replace (Z.max 0 _) with 0 by lia. rewrite range_0. cbn.
    change (lenZ []) with 0. destruct (Z.eqb_spec 0 n), (Z.ltb_spec 0 n); done || lia.
Qed.

Lemma ms_WriteAt_spec ms p off : msOk ms → 0 ≤ off → off + lenZ p < 2 ^ 63 →
  let n := Z.max 0 (Z.min (lenZ p) (lenZ (msBytes ms) - off)) in
  ∃ ms', ms_WriteAt ms p off = Ok (ms', n, if n <? lenZ p then Some SErrShortWrite else None) ∧
         msOk ms' ∧ msBytes ms' = splice (msBytes ms) off (take (Z.to_nat n) p).
Proof.
  intros Hok Ho Hb n. destruct (msOk_lens _ Hok) as [Hi Hz]. unfold ms_WriteAt. rewrite Hi.
  assert (Hp : 0 ≤ lenZ p) by (unfold lenZ; lia).
  destruct (Locate_tiles _ (lens_nonneg (mMaps ms)) Hz off (lenZ p) Ho Hp Hb) as (xs & -> & Ht).
  rewrite <- lenZ_concat in Ht. fold (msBytes ms) in Ht.
  assert (Hif : (if negb (n =? lenZ p) then Some SErrShortWrite else None) = (if n <? lenZ p then Some SErrShortWrite else None)).
  { destruct (Z.eqb_spec n (lenZ p)), (Z.ltb_spec n (lenZ p)); done || lia. }
  destruct (Z.ltb_spec off (lenZ (msBytes ms))) as [Hlt|Hge].
  - destruct (copyIn_run _ _ _ _ p 0 Ht) as (ms' & -> & Hl & Hi' & Hm); [lia..|]. cbn [mbind go_bind].
    replace (_ `min` _ - off) with n in * by lia. rewrite Z.add_0_l, Hif. exists ms'. split_and!; [done| |done].
    split; [by rewrite Hi', Hl, Hi|]. rewrite Hm, lenZ_splice; [apply Hok|lia|]. unfold lenZ in *. rewrite length_take. lia.
  - subst xs. cbn [runCalls mbind go_bind]. exists ms. replace n with 0 in * by lia. rewrite Hif.
    split_and!; [done|done|]. by rewrite take_0, splice_nil.
Qed.

(** ** The files as one byte string

    A byte of the torrent is there if its file can be opened and reaches that
    far. *)
Definition contentOf (fs : FS) (p : string) : list Z :=
  match os_Open fs p with Good c => c | Bad _ => [] end.

Definition fileView (fs : FS) (f : file) : list (option Z) :=
  map (λ j, contentOf fs (path f) !! j) (seq 0 (Z.to_nat (flength f))).

Definition filesView (fs : FS) (l : list file) : list (option Z) := concat (map (fileView fs) l).

(** The bytes up to the first one that is missing. *)
Fixpoint known (l : list (option Z)) : list Z :=
  match l with
  | Some b :: l => b :: known l
  | _ => []
  end.

(** Lengths that make sense, and files without data that can be opened. *)
Record filesOk (fts : fileTorrentImpl) (fs : FS) : Prop := {
  fo_index : segmentLocater fts = NewIndex (map flength (files fts));
  fo_pos : Forall (λ f, 0 ≤ flength f) (files fts);
  fo_sum : Zsum (map flength (files fts)) < 2 ^ 63;
  fo_empty : ∀ f, f ∈ files fts → flength f = 0 → is_Some (fsFiles fs !! path f) ∧ path f ∉ fsBroken fs }.

Lemma lenZ_fileView fs f : 0 ≤ flength f → lenZ (fileView fs f) = flength f.
Proof. intros. unfold lenZ, fileView. rewrite length_map, length_seq. lia. Qed.

Lemma lookup_fileView fs f j : (j < Z.to_nat (flength f))%nat → fileView fs f !! j = Some (contentOf fs (path f) !! j).
Proof. intros. unfold fileView. change (map ?f ?l) with (f <$> l). rewrite list_lookup_fmap, lookup_seq_lt; done. Qed.

Lemma lens_filesView fs l : Forall (λ f, 0 ≤ flength f) l → map lenZ (map (fileView fs) l) = map flength l.
Proof. induction 1 as [|f l Hf _ IH]; [done|]. cbn. by rewrite lenZ_fileView, IH. Qed.

Lemma known_app l k : known (l ++ k) = if (length (known l) =? length l)%nat then known l ++ known k else known l.
Proof.
  induction l as [|[b|] l IH]; [done| |done]. cbn [app known length]. rewrite IH. cbn [Nat.eqb].
  by destruct (_ =? _)%nat.
Qed.

Lemma length_known l : (length (known l) ≤ length l)%nat.
Proof. induction l as [|[b|] l IH]; cbn; lia. Qed.

Lemma known_full l d : l = map Some d → known l = d.
Proof. intros ->. induction d; cbn; congruence. Qed.

Lemma known_view (c : list Z) s n : known (map (λ j, c !! j) (seq s n)) = take n (drop s c).
Proof.
  revert s. induction n as [|n IH]; intros s; [done|]. cbn [seq map known].
  destruct (c !! s) as [b|] eqn:Hb.
  - by rewrite IH, (drop_S _ _ _ Hb).
  - apply lookup_ge_None in Hb. by rewrite drop_ge, take_nil by lia.
Qed.

Lemma known_fileView fs f s n : 0 ≤ s → 0 ≤ n → s + n ≤ flength f →
  known (range (fileView fs f) s n) = range (contentOf fs (path f)) s n.
Proof.
  intros. unfold range, fileView. rewrite skipn_map, firstn_map, drop_seq, take_seq, known_view.
  by replace (Nat.min _ _) with (Z.to_nat n) by lia.
Qed.

(** A short read ends in an error, a full one does not. *)
Definition shortErr (n : Z) (d : list Z) (err : option serr) : Prop := err = None ↔ lenZ d = n.

Lemma readFileLoop_done fuel c flen blen off acc :
  (off <? flen) && negb (blen =? 0) = false → readFileLoop fuel c flen blen off acc = Ok (acc, None).
Proof. intros H. destruct fuel; cbn [readFileLoop]; by rewrite H. Qed.

Lemma readFileAt_spec fs f n s : 0 ≤ s → 0 ≤ n → s + n ≤ flength f → flength f < 2 ^ 63 →
  (n = 0 → is_Some (fsFiles fs !! path f) ∧ path f ∉ fsBroken fs) →
  ∃ err, readFileAt fs f n s = Ok (range (contentOf fs (path f)) s n, err) ∧
         shortErr n (range (contentOf fs (path f)) s n) err.
Proof.
  intros Hs Hn Hle Hf H0. unfold readFileAt, contentOf.
  destruct (os_Open fs (path f)) as [c|e] eqn:Ho.
  - rewrite i64_small, (proj2 (Z.ltb_ge _ _)) by lia. cbn [mbind go_bind readFileLoop].
    destruct (Z.eqb_spec n 0) as [->|Hn0]; cbn [negb andb].
    { rewrite andb_false_r. exists None. rewrite range_0. done. }
    rewrite (proj2 (Z.ltb_lt s _)) by lia. cbn [andb]. unfold f_ReadAt.
    rewrite (proj2 (Z.ltb_ge s 0)) by lia. fold (range c s n).
    assert (Hlen : lenZ (range c s n) ≤ n) by (unfold lenZ, range; rewrite length_take; lia).
    destruct (Z.eqb_spec (lenZ (range c s n)) 0) as [He|He].
    + exists (Some SEOF). assert (range c s n = []) as -> by (apply nil_length_inv; unfold lenZ in *; lia).
      change (lenZ []) with 0. rewrite (proj2 (Z.ltb_lt _ _)) by lia. split; [done|]. split; [done|]. change (lenZ []) with 0. lia.
    + cbn [app]. destruct (Z.eq_dec (lenZ (range c s n)) n) as [Heq|Hne].
      * rewrite readFileLoop_done; [exists None; done|]. rewrite Heq, Z.sub_diag. cbn. apply andb_false_r.
      * destruct (Z.to_nat n) as [|k] eqn:Hk; [lia|]. cbn [readFileLoop].
        assert (Hend : lenZ c ≤ s + lenZ (range c s n)).
        { assert (lenZ (range c s n) = Z.min n (Z.max 0 (lenZ c - s))); [|lia].
          unfold lenZ, range. rewrite length_take, length_drop. lia. }
        assert (0 ≤ lenZ (range c s n)) by (unfold lenZ; lia).
        rewrite i64_small by lia. rewrite (proj2 (Z.ltb_lt _ (flength f))) by lia.
        rewrite (proj2 (Z.eqb_neq (n - _) 0)) by lia. cbn [andb negb]. unfold f_ReadAt.
        rewrite (proj2 (Z.ltb_ge _ 0)) by lia. rewrite drop_ge by (unfold lenZ in *; lia). rewrite take_nil.
        change (lenZ []) with 0. cbn [Z.eqb]. rewrite (proj2 (Z.ltb_lt 0 _)) by lia. exists (Some SEOF). done.
  - unfold range. rewrite drop_nil, take_nil.
    assert (Hne : n ≠ 0).
    { intros ->. destruct (H0 eq_refl) as [[c Hc] Hb]. unfold os_Open in Ho. rewrite decide_False in Ho by done.
      by rewrite Hc in Ho. }
    destruct e; (eexists; split; [done|]; split; [done|]; change (lenZ []) with 0; lia).
Qed.

(** ** Writing *)

(** [p] was written at [off]: its bytes are there, and no other byte that was
    there is lost or changed.  (Bytes may appear: a gap in a file reads as
    zeros.) *)
Definition written (V V' : list (option Z)) (off : Z) (p : list Z) : Prop :=
  length V' = length V ∧
  (∀ j b, p !! j = Some b → V' !! (Z.to_nat off + j)%nat = Some (Some b)) ∧
  (∀ k b, ¬ (Z.to_nat off ≤ k < Z.to_nat off + length p)%nat → V !! k = Some (Some b) → V' !! k = Some (Some b)).

Lemma written_nil V off : written V V off [].
Proof. split_and!; [done|intros j b; by rewrite lookup_nil|done]. Qed.

Lemma written_app V V1 V2 off a b : 0 ≤ off →
  written V V1 off a → written V1 V2 (off + lenZ a) b → written V V2 off (a ++ b).
Proof.
  unfold lenZ. intros Ho (L1 & I1 & O1) (L2 & I2 & O2).
  replace (Z.to_nat (off + Z.of_nat (length a))) with (Z.to_nat off + length a)%nat in * by lia.
  split_and!; [congruence| |].
  - intros j x [Hj|[Hge Hj]]%lookup_app_Some.
    + pose proof (lookup_lt_Some _ _ _ Hj). apply O2; [lia|]. by apply I1.
    + apply I2 in Hj. rewrite <- Hj. f_equal. lia.
  - intros k x Hk Hv. rewrite length_app in Hk. apply O2; [lia|]. apply O1; [lia|done].
Qed.

Lemma f_WriteAt_in c p s j b : p !! j = Some b → f_WriteAt c p s !! (Z.to_nat s + j)%nat = Some b.
Proof.
  intros Hj. pose proof (lookup_lt_Some _ _ _ Hj). unfold f_WriteAt. rewrite bool_decide_false by by destruct p.
  assert (Hl : length (take (Z.to_nat s) (c ++ replicate (Z.to_nat s - length c) 0)) = Z.to_nat s)
    by (rewrite length_take, length_app, length_replicate; lia).
  rewrite lookup_app_r by lia. rewrite Hl, lookup_app_l by lia. rewrite <- Hj. f_equal. lia.
Qed.

Lemma f_WriteAt_out c p s k b : ¬ (Z.to_nat s ≤ k < Z.to_nat s + length p)%nat →
  c !! k = Some b → f_WriteAt c p s !! k = Some b.
Proof.
  intros Hk Hc. unfold f_WriteAt. case_bool_decide; [done|].
  assert (Hl : length (take (Z.to_nat s) (c ++ replicate (Z.to_nat s - length c) 0)) = Z.to_nat s)
    by (rewrite length_take, length_app, length_replicate; lia).
  destruct (Nat.lt_ge_cases k (Z.to_nat s)).
  - rewrite lookup_app_l, lookup_take_lt by lia. by apply lookup_app_l_Some.
  - rewrite lookup_app_r, Hl, lookup_app_r, lookup_drop by lia. rewrite <- Hc. f_equal. lia.
Qed.

(** Writing to one segment writes to the whole. *)
Lemma written_concat (segs : list (list (option Z))) k d d' s p :
  segs !! k = Some d → 0 ≤ s → s + lenZ p ≤ lenZ d → written d d' s p →
  written (concat segs) (concat (<[k := d']> segs)) (segStart (map lenZ segs) k + s) p.
Proof.
  intros Hd Hs Hle (HL & HI & HO). pose proof (lookup_lt_Some _ _ _ Hd).
  rewrite segStart_concat, (concat_at segs k d Hd).
  rewrite (concat_at (<[k:=d']> segs) k d') by (apply list_lookup_insert_eq; lia).
  rewrite take_insert_ge, drop_insert_lt by lia. set (A := concat (take k segs)). set (B := concat (drop (S k) segs)).
  unfold lenZ in *. replace (Z.to_nat (Z.of_nat (length A) + s)) with (length A + Z.to_nat s)%nat by lia. unfold written.
  replace (Z.to_nat (Z.of_nat (length A) + s)) with (length A + Z.to_nat s)%nat by lia. split_and!.
  - rewrite !length_app. lia.
  - intros j b Hj. pose proof (lookup_lt_Some _ _ _ Hj). rewrite lookup_app_r by lia.
    replace (length A + Z.to_nat s + j - length A)%nat with (Z.to_nat s + j)%nat by lia.
    rewrite lookup_app_l by lia. by apply HI.
  - intros j b Hj [Hv|[Hge Hv]]%lookup_app_Some; [by apply lookup_app_l_Some|].
    rewrite lookup_app_r by lia. apply lookup_app_Some in Hv as [Hv|[Hge' Hv]].
    + apply lookup_app_l_Some. apply HO; [lia|done].
    + rewrite lookup_app_r by lia. rewrite <- Hv. f_equal. lia.
Qed.

Section Files.
Context (fts : fileTorrentImpl).
#[local] Notation fls := (files fts).

Lemma tile_file fs pos fin i e xs : Forall (λ f, 0 ≤ flength f) fls →
  tiles (map flength fls) pos fin ((i, e) :: xs) →
  ∃ f, fls !! Z.to_nat i = Some f ∧ 0 ≤ Start e ∧ 0 ≤ eLength e ∧ Start e + eLength e ≤ flength f ∧
       (0 < eLength e ∨ flength f = 0) ∧ pos + eLength e ≤ fin ∧
       (0 ≤ pos → pos + eLength e ≤ lenZ (filesView fs fls) ∧
        range (filesView fs fls) pos (eLength e) = range (fileView fs f) (Start e) (eLength e)) ∧
       segStart (map flength fls) (Z.to_nat i) + Start e = pos ∧
       tiles (map flength fls) (pos + eLength e) fin xs.
Proof.
  intros Hpos Ht. rewrite <- (lens_filesView fs) in Ht by done.
  destruct (tiles_cons_inv _ _ _ _ _ _ Ht) as (d & Hd & Hs & He & Hle & Hmin & Hz & Hp & Htot & Ht').
  pose proof (tiles_le _ _ _ _ Ht'). clear Ht. rewrite list_lookup_fmap in Hd.
  destruct (fls !! Z.to_nat i) as [f|] eqn:Hf; [|done]. injection Hd as <-. exists f.
  pose proof (proj1 (Forall_lookup _ _) Hpos _ _ Hf) as Hfl. cbn in Hfl. rewrite lenZ_fileView in * by done.
  assert (Hr : range (filesView fs fls) pos (eLength e) = range (fileView fs f) (Start e) (eLength e)).
  { rewrite <- Hp. apply range_concat; [by rewrite list_lookup_fmap, Hf|done|done|by rewrite lenZ_fileView]. }
  rewrite <- (lens_filesView fs) by done. split_and!; try done. intros _. split; [|done]. unfold filesView. lia.
Qed.

Lemma fileRead_run fs xs : filesOk fts fs → ∀ pos fin blen got,
  tiles (map flength fls) pos fin xs → 0 ≤ pos → fin - pos ≤ blen →
  ∃ err, let d := known (range (filesView fs fls) pos (fin - pos)) in
    runCalls (fileReadCb fts fs) xs (Ok (mkRd blen got None)) = Ok (mkRd (blen - lenZ d) (got ++ d) err) ∧
    (err = None ↔ lenZ d = fin - pos).
Proof.
  intros [_ Hpos Hsum H0]. induction xs as [|[i e] xs IH]; intros pos fin blen got Ht Hp Hb; cbn [runCalls].
  - cbn in Ht. subst. exists None. rewrite Z.sub_diag, range_0. cbn. rewrite app_nil_r.
    change (lenZ []) with 0. by rewrite Z.sub_0_r.
  - destruct (tile_file fs _ _ _ _ _ Hpos Ht) as (f & Hf & Hs & He & Hle & Hz & Hfin & Hr & _ & Ht'). clear Ht.
    destruct (Hr Hp) as [Htot Hr']. clear Hr. cbn [fileReadCb rdLen]. rewrite Hf. unfold sliceTo.
    rewrite (proj2 (Z.leb_le 0 _)), (proj2 (Z.leb_le (eLength e) _)) by lia. cbn [andb mbind go_bind].
    assert (Hfs : flength f < 2 ^ 63).
    { eapply Z.le_lt_trans; [|exact Hsum]. apply Zsum_ge; [by apply Forall_map|].
      apply list_elem_of_fmap_2, (list_elem_of_lookup_2 _ _ _ Hf). }
    destruct (readFileAt_spec fs f (eLength e) (Start e) Hs He Hle Hfs) as (err & -> & Herr).
    { intros E. apply H0; [by eapply list_elem_of_lookup_2|]. lia. }
    rewrite <- known_fileView, <- Hr' in * by lia. cbn [rdGot].
    set (d1 := known (range (filesView fs fls) pos (eLength e))) in *. unfold shortErr in Herr.
    assert (Hd : known (range (filesView fs fls) pos (fin - pos)) =
                 if decide (err = None) then d1 ++ known (range (filesView fs fls) (pos + eLength e) (fin - (pos + eLength e))) else d1).
    { replace (fin - pos) with (eLength e + (fin - (pos + eLength e))) by lia. rewrite <- range_app, known_app by lia.
      fold d1. pose proof (lenZ_range (filesView fs fls) pos (eLength e) Hp He Htot) as Hlr. unfold lenZ in *.
      case_decide as E; destruct (Nat.eqb_spec (length d1) (length (range (filesView fs fls) pos (eLength e)))); try done; exfalso; naive_solver lia. }
    destruct err as [e'|].
    + exists (Some e'). rewrite Hd. rewrite decide_False by done. rewrite bool_decide_false by done.
      split; [done|]. split; [done|]. intros E. assert (lenZ d1 ≤ eLength e).
      { pose proof (length_known (range (filesView fs fls) pos (eLength e))). fold d1 in H. unfold lenZ.
        pose proof (lenZ_range (filesView fs fls) pos (eLength e) Hp He Htot). unfold lenZ in *. lia. }
      destruct Herr as [_ Herr]. assert (lenZ d1 = eLength e) by lia. naive_solver.
    + rewrite bool_decide_true by done. assert (Hd1 : lenZ d1 = eLength e) by naive_solver.
      destruct (IH (pos + eLength e) fin (blen - lenZ d1) (got ++ d1) Ht' ltac:(lia) ltac:(lia)) as (err & -> & Hiff).
      exists err. rewrite Hd, decide_True by done. rewrite lenZ_app, <- app_assoc, Hd1. split; [do 2 f_equal; lia|].
      rewrite Hiff. lia.
Qed.

(** What a read of the files answers: the bytes that are there, up to the
    first that is missing, and an error exactly if these are too few. *)
Lemma file_ReadAt_spec fs n off : filesOk fts fs → 0 ≤ off → 0 ≤ n → off + n < 2 ^ 63 →
  ∃ err, file_ReadAt fts fs n off = Ok (known (range (filesView fs fls) off n), err) ∧
         shortErr n (known (range (filesView fs fls) off n)) err.
Proof.
  intros Hok Ho Hn Hb. pose proof Hok as [Hi Hpos Hsum _]. unfold file_ReadAt. rewrite Hi.
  assert (Hnn : Forall (λ l, 0 ≤ l) (map flength fls)) by by apply Forall_map.
  destruct (Locate_tiles _ Hnn Hsum off n Ho Hn Hb) as (xs & -> & Ht).
  assert (Htot : Zsum (map flength fls) = lenZ (filesView fs fls)) by (unfold filesView; by rewrite lenZ_concat, lens_filesView).
  rewrite Htot in Ht. destruct (Z.ltb_spec off (lenZ (filesView fs fls))) as [Hlt|Hge].
  - destruct (fileRead_run fs xs Hok off _ n [] Ht Ho ltac:(lia)) as (err & -> & Hiff). cbn [mbind go_bind rdGot rdLen rdErr app].
    assert (Hr : range (filesView fs fls) off (Z.min (off + n) (lenZ (filesView fs fls)) - off) = range (filesView fs fls) off n).
    { unfold range, lenZ in *. destruct (Z.min_spec (off + n) (Z.of_nat (length (filesView fs fls)))) as [[? ->]|[? ->]];
        [f_equal; lia|]. rewrite !take_ge by (rewrite length_drop; lia). done. }
    rewrite Hr in *. set (d := known _) in *. eexists. split; [done|].
    assert (lenZ d ≤ Z.min (off + n) (lenZ (filesView fs fls)) - off).
    { pose proof (length_known (range (filesView fs fls) off n)) as Hk. fold d in Hk. rewrite <- Hr in Hk at 1.
      pose proof (lenZ_range (filesView fs fls) off (Z.min (off + n) (lenZ (filesView fs fls)) - off)). unfold lenZ in *. rewrite Hr in *. lia. }
    unfold shortErr. destruct (Z.eqb_spec (n - lenZ d) 0), err; cbn; split; intros; try done; try lia; exfalso;
      naive_solver lia.
  - subst xs. cbn [runCalls mbind go_bind rdGot rdLen rdErr]. unfold range. rewrite drop_ge, take_nil by (unfold lenZ in *; lia).
    cbn [known]. eexists. split; [done|]. unfold shortErr. change (lenZ []) with 0. rewrite bool_decide_true, andb_true_r by done.
    destruct (Z.eqb_spec n 0); cbn; split; done || lia.
Qed.

(** What writing needs: no two files have the same path, and all of them can
    be opened. *)
Record writable (fs : FS) : Prop := {
  wa_nodup : NoDup (map path fls);
  wa_open : ∀ f, f ∈ fls → path f ∉ fsBroken fs }.

Lemma filesView_write fs fs' i f c : writable fs → fls !! i = Some f →
  fsBroken fs' = fsBroken fs → fsFiles fs' = <[path f := c]> (fsFiles fs) →
  filesView fs' fls = concat (<[i := fileView fs' f]> (map (fileView fs) fls)).
Proof.
  intros [Hnd _] Hf Hb Hff. unfold filesView. f_equal. apply list_eq. intros j.
  destruct (decide (j = i)) as [->|Hne].
  - rewrite list_lookup_insert_eq by (rewrite length_map; by eapply lookup_lt_Some).
    change (map ?g ?l) with (g <$> l). by rewrite list_lookup_fmap, Hf.
  - rewrite list_lookup_insert_ne by done. change (map ?g ?l) with (g <$> l). rewrite !list_lookup_fmap.
    destruct (fls !! j) as [f'|] eqn:Hf'; [|done]. cbn. f_equal. unfold fileView, contentOf, os_Open.
    rewrite Hb, Hff, lookup_insert_ne; [done|]. intros E. apply Hne.
    eapply (NoDup_lookup (map path fls)); [done|..]; change (map ?g ?l) with (g <$> l); rewrite list_lookup_fmap; [by rewrite Hf'|rewrite Hf; cbn; by rewrite E].
Qed.

Lemma fileWrite_step fs p n i e f : filesOk fts fs → writable fs → fls !! Z.to_nat i = Some f →
  0 ≤ Start e → 0 ≤ eLength e → Start e + eLength e ≤ flength f → eLength e ≤ lenZ p →
  let p1 := take (Z.to_nat (eLength e)) p in
  ∃ fs', fileWriteCb fts (Ok (mkWr fs p n None)) i e =
           (Ok (mkWr fs' (drop (Z.to_nat (eLength e)) p) (n + eLength e) None), true) ∧
         filesOk fts fs' ∧ writable fs' ∧ fsBroken fs' = fsBroken fs ∧
         written (filesView fs fls) (filesView fs' fls) (segStart (map flength fls) (Z.to_nat i) + Start e) p1.
Proof.
  intros Hok Hw Hf Hs He Hle Hp p1. pose proof Hok as [Hi Hpos Hsum H0]. pose proof (list_elem_of_lookup_2 _ _ _ Hf) as Hin.
  assert (Hl1 : lenZ p1 = eLength e) by (unfold p1, lenZ in *; rewrite length_take; lia).
  cbn [fileWriteCb wrFS wrP wrN]. rewrite Hf.
  assert (∃ fs1, os_OpenFile fs (path f) = Good fs1 ∧ (fsBroken fs1 = fsBroken fs ∧ fsUnstat fs1 = fsUnstat fs) ∧
    default [] (fsFiles fs1 !! path f) = contentOf fs (path f) ∧
    ∀ c, <[path f := c]> (fsFiles fs1) = <[path f := c]> (fsFiles fs)) as (fs1 & -> & [Hb1 Hu1] & Hc1 & Hins).
  { unfold os_OpenFile, contentOf, os_Open. rewrite !decide_False by by apply Hw.
    destruct (fsFiles fs !! path f) as [c|] eqn:Hc; eexists; (split; [done|]); cbn.
    - by rewrite Hc. - rewrite lookup_insert_eq. split_and!; [done|done|done|]. intros. apply insert_insert_eq. }
  unfold sliceTo. rewrite (proj2 (Z.leb_le 0 _)), (proj2 (Z.leb_le (eLength e) _)) by lia. cbn [andb].
  fold p1. rewrite Hl1, Z.eqb_refl, Hb1, Hu1, Hc1, Hins. cbn [negb]. rewrite bool_decide_true by done.
  set (c' := f_WriteAt _ _ _). set (fs' := mkFS (<[path f:=c']> (fsFiles fs)) (fsBroken fs) (fsUnstat fs)).
  exists fs'. split; [done|]. split; [|split; [by destruct Hw; split|split; [done|]]].
  - split; [done..|]. intros g Hg Hg0. destruct (H0 g Hg Hg0) as [Hsome Hnb]. split; [|done]. cbn.
    destruct (decide (path f = path g)) as [->|]; [by rewrite lookup_insert_eq|by rewrite lookup_insert_ne].
  - pose proof (proj1 (Forall_lookup _ _) Hpos _ _ Hf) as Hfl. cbn in Hfl.
    rewrite (filesView_write fs fs' (Z.to_nat i) f c' Hw Hf eq_refl eq_refl).
    rewrite <- (lens_filesView fs) by done. apply (written_concat _ _ (fileView fs f)); [|done|by rewrite lenZ_fileView, Hl1|].
    { change (map ?g ?l) with (g <$> l). by rewrite list_lookup_fmap, Hf. }
    assert (Hc' : contentOf fs' (path f) = c').
    { unfold contentOf, os_Open. cbn. rewrite decide_False by by apply Hw. by rewrite lookup_insert_eq. }
    unfold lenZ in *. split_and!; [unfold fileView; by rewrite !length_map| |].
    + intros j b Hj. pose proof (lookup_lt_Some _ _ _ Hj). rewrite lookup_fileView by lia. rewrite Hc'. f_equal.
      by apply f_WriteAt_in.
    + intros k b Hk Hv. pose proof (lookup_lt_Some _ _ _ Hv) as Hlt. unfold fileView in Hlt. rewrite length_map, length_seq in Hlt.
      rewrite lookup_fileView in * by lia. injection Hv as Hv. rewrite Hc'. f_equal. by apply f_WriteAt_out.
Qed.

Lemma fileWrite_run xs : ∀ fs pos fin p n,
  filesOk fts fs → writable fs → tiles (map flength fls) pos fin xs → 0 ≤ pos → fin - pos = lenZ p →
  ∃ fs', runCalls (fileWriteCb fts) xs (Ok (mkWr fs p n None)) = Ok (mkWr fs' [] (n + lenZ p) None) ∧
         filesOk fts fs' ∧ writable fs' ∧ written (filesView fs fls) (filesView fs' fls) pos p.
Proof.
  induction xs as [|[i e] xs IH]; intros fs pos fin p n Hok Hw Ht Hp Hl; cbn [runCalls].
  - cbn in Ht. assert (p = []) as -> by (apply nil_length_inv; unfold lenZ in *; lia).
    change (lenZ []) with 0. rewrite Z.add_0_r. exists fs. split_and!; [done..|apply written_nil].
  - destruct (tile_file fs _ _ _ _ _ (fo_pos _ _ Hok) Ht) as (f & Hf & Hs & He & Hle & _ & Hfin & _ & Hpos & Ht').
    destruct (fileWrite_step fs p n i e f Hok Hw Hf Hs He Hle ltac:(lia)) as (fs1 & -> & Hok1 & Hw1 & _ & Hwr).
    rewrite Hpos in Hwr. set (k := Z.to_nat (eLength e)) in *.
    assert (Hk : lenZ (take k p) = eLength e) by (unfold lenZ in *; rewrite length_take; lia).
    destruct (IH fs1 (pos + eLength e) fin (drop k p) (n + eLength e) Hok1 Hw1 Ht') as (fs' & -> & Hok' & Hw' & Hwr');
      [lia|unfold lenZ in *; rewrite length_drop; lia|].
    exists fs'. split_and!; [|done..|].
    + do 2 f_equal. unfold lenZ in *. rewrite length_drop. lia.
    + rewrite <- (take_drop k p). eapply written_app; [done|done|by rewrite Hk].
Qed.

Lemma file_WriteAt_spec fs p off : filesOk fts fs → writable fs → 0 ≤ off →
  off + lenZ p ≤ Zsum (map flength fls) →
  ∃ fs', file_WriteAt fts fs p off = Ok (fs', lenZ p, None) ∧
         filesOk fts fs' ∧ writable fs' ∧ written (filesView fs fls) (filesView fs' fls) off p.
Proof.
  intros Hok Hw Ho Hl. pose proof Hok as [Hi Hpos Hsum _]. unfold file_WriteAt. rewrite Hi.
  assert (Hp0 : 0 ≤ lenZ p) by (unfold lenZ; lia).
  assert (Hnn : Forall (λ l, 0 ≤ l) (map flength fls)) by by apply Forall_map.
  destruct (Locate_tiles _ Hnn Hsum off (lenZ p) Ho Hp0 ltac:(lia)) as (xs & -> & Ht).
  destruct (Z.ltb_spec off (Zsum (map flength fls))) as [Hlt|Hge].
  - destruct (fileWrite_run xs fs off _ p 0 Hok Hw Ht Ho ltac:(lia)) as (fs' & -> & ? & ? & ?). exists fs'. done.
  - subst xs. assert (p = []) as -> by (apply nil_length_inv; unfold lenZ in *; lia).
    exists fs. split_and!; [done..|apply written_nil].
Qed.
End Files.
