(* ===== verification/PieceStore.v ===== *)
(** Pieces in storage: src/storage/{interface,wrappers,file-piece,file-misc,
    map-piece-completion}.go, the [Piece] methods of file.go and mmap.go, and
    [writeChunk], [hashPiece] and [readAt] of src/torrent.go.

    [SpanStore] is what a backend promises: the torrent's data as one byte
    string, of which bytes may be missing.  The files and the memory maps of
    Storage.v are its instances, and pieces are proved against it.
    [Missinggo] states what is used of the package of that name. *)
From stdpp Require Import base numbers list gmap strings.
From Stdlib Require Import ZArith Lia.
From S2P Require Import Prelude Metainfo Segments Visits SmartBan Storage Crypto.
Open Scope Z_scope.

Class SpanStore (S : Type) : Type := {
  sp_ReadAt : S → Z → Z → go (list Z * option serr);
  sp_WriteAt : S → list Z → Z → go (S * Z * option serr);
  sp_view : S → list (option Z);
  sp_ok : S → Prop;
  sp_size s : sp_ok s → lenZ (sp_view s) < 2 ^ 63;
  sp_read s n off : sp_ok s → 0 ≤ off → 0 ≤ n → off + n < 2 ^ 63 →
    ∃ err, sp_ReadAt s n off = Ok (known (range (sp_view s) off n), err) ∧
           shortErr n (known (range (sp_view s) off n)) err;
  sp_write s p off : sp_ok s → 0 ≤ off → off + lenZ p ≤ lenZ (sp_view s) →
    ∃ s', sp_WriteAt s p off = Ok (s', lenZ p, None) ∧ sp_ok s' ∧ written (sp_view s) (sp_view s') off p }.

(** [missinggo.LimitLen] on a buffer of a length, and
    [missinggo.NewSectionWriter], as far as the code relies on them. *)
Class Missinggo : Type := {
  LimitLen : Z → Z → Z;
  LimitLen_min len max : 0 ≤ len → 0 ≤ max → LimitLen len max = Z.min len max;
  SectionWriter_WriteAt : ∀ {S}, (S → list Z → Z → go (S * Z * option serr)) → Z → Z →
    S → list Z → Z → go (S * Z * option serr);
  SectionWriter_in {S} (w : S → list Z → Z → go (S * Z * option serr)) base len s p off :
    0 ≤ off → off + lenZ p ≤ len → SectionWriter_WriteAt w base len s p off = w s p (base + off) }.

(** [io.SectionReader.ReadAt]. *)
Definition SectionReader_ReadAt (r : Z → Z → go (list Z * option serr)) (base len n off : Z) : go (list Z * option serr) :=
  if (off <? 0) || (len <=? off) then Ok ([], Some SEOF)
  else if len - off <? n then
    '(d, err) ← r (len - off) (base + off);
    Ok (d, if bool_decide (err = None) then Some SEOF else err)
  else r n (base + off).

(** ** map-piece-completion.go *)
Abbreviation PieceKey := (list Z * Z)%type.
Record Completion : Type := mkCompletion { Complete : bool; COk : bool }.

Definition pc_Get (m : gmap PieceKey bool) (pk : PieceKey) : Completion :=
  match m !! pk with Some v => mkCompletion v true | None => mkCompletion false false end.

Definition pc_Set (m : gmap PieceKey bool) (pk : PieceKey) (b : bool) : gmap PieceKey bool := <[pk := b]> m.

(** ** file-misc.go *)
Fixpoint requiredLoop (i : Z) (fis : list Z) (off n : Z) : go (list (Z * Z)) :=
  match fis with
  | [] => Panic "extent exceeds torrent bounds"
  | len :: fis =>
      if len <=? off then requiredLoop (i + 1) fis (i64 (off - len)) n
      else
        let n1 := if len <? i64 (off + n) then i64 (len - off) else n in
        if i64 (n - n1) =? 0 then Ok [(i, i64 (off + n1))]
        else ret ← requiredLoop (i + 1) fis 0 (i64 (n - n1)); Ok ((i, i64 (off + n1)) :: ret)
  end.

Definition extentCompleteRequiredLengths (info : Info) (off n : Z) : go (list (Z * Z)) :=
  if n =? 0 then Ok [] else requiredLoop 0 (map fiLength (UpvertedFiles info)) off n.

(** ** Pieces *)
Section Piece.
Context {S : Type} `{!SpanStore S} `{!Missinggo} (info : Info) (infoHash : list Z).

(** A backend and what it remembers of the completion of pieces. *)
Record PState : Type := mkPS { store : S; completion : gmap PieceKey bool }.

(** [filePieceImpl] and [mmapStoragePiece]: a view on the whole data. *)
Definition impl_ReadAt (st : PState) (i n off : Z) : go (list Z * option serr) :=
  SectionReader_ReadAt (sp_ReadAt (store st)) (Piece_Offset info i) (Piece_Length info i) n off.

Definition impl_WriteAt (st : PState) (i : Z) (p : list Z) (off : Z) : go (PState * Z * option serr) :=
  '(s, n, err) ← SectionWriter_WriteAt sp_WriteAt (Piece_Offset info i) (Piece_Length info i) (store st) p off;
  Ok (mkPS s (completion st), n, err).

Definition MarkComplete (st : PState) (i : Z) : PState := mkPS (store st) (pc_Set (completion st) (infoHash, i) true).
Definition MarkNotComplete (st : PState) (i : Z) : PState := mkPS (store st) (pc_Set (completion st) (infoHash, i) false).

(** [Completion] of mmap.go. *)
Definition mmap_Completion (st : PState) (i : Z) : Completion := pc_Get (completion st) (infoHash, i).

(** ** wrappers.go *)
Definition Piece_WriteAt (st : PState) (i : Z) (b : list Z) (off : Z) : go (PState * Z * option serr) :=
  if Piece_Length info i <? i64 (off + lenZ b) then Panic "write overflows piece"
  else
    let b := take (Z.to_nat (LimitLen (lenZ b) (i64 (Piece_Length info i - off)))) b in
    impl_WriteAt st i b off.

Definition Piece_ReadAt (st : PState) (i n off : Z) : go (PState * list Z * option serr) :=
  if off <? 0 then Ok (st, [], Some SErrInvalid)
  else if Piece_Length info i <=? off then Ok (st, [], Some SEOF)
  else
    let n := LimitLen n (i64 (Piece_Length info i - off)) in
    if n =? 0 then Ok (st, [], None)
    else
      '(d, err) ← impl_ReadAt st i n off;
      if n <? lenZ d then Panic "n"
      else if (lenZ d =? 0) && bool_decide (err = None) then Panic "io.Copy will get stuck"
      else
        let off := i64 (off + lenZ d) in
        let st := if (off <? Piece_Length info i) && bool_decide (err = Some SEOF) then MarkNotComplete st i else st in
        Ok (st, d, err).

(** [io.CopyN] from a section reader of the piece: [left] bytes are still
    wanted, from [off] on; the pieces of data written are collected. *)
Definition bufSize (n : Z) : Z := if n <? 32768 then (if n <? 1 then 1 else n) else 32768.

Fixpoint copyLoop (fuel : nat) (st : PState) (i size left off : Z) (acc : list (list Z)) :
    go (PState * list (list Z) * option serr) :=
  match fuel with
  | O => Panic "out of fuel"
  | Datatypes.S fuel =>
      if left <=? 0 then Ok (st, acc, None)
      else if Piece_Length info i <=? off then Ok (st, acc, None)
      else
        let n := Z.min (Z.min size left) (Piece_Length info i - off) in
        '(st, d, err) ← Piece_ReadAt st i n off;
        let acc := if lenZ d =? 0 then acc else acc ++ [d] in
        match err with
        | Some SEOF => Ok (st, acc, None)
        | Some e => Ok (st, acc, Some e)
        | None => copyLoop fuel st i size (left - lenZ d) (off + lenZ d) acc
        end
  end.

(** [WriteTo], with the writes it makes. *)
Definition WriteTo (st : PState) (i : Z) : go (PState * list (list Z) * option serr) :=
  let n := Piece_Length info i in
  '(st, ws, err) ← copyLoop (Datatypes.S (Z.to_nat n)) st i (bufSize n) n 0 [];
  let written := lenZ (concat ws) in
  Ok (st, ws, if written =? n then None
              else if (written <? n) && bool_decide (err = None) then Some SEOF else err).

(** ** torrent.go *)
Definition writeChunk (st : PState) (piece begin : Z) (data : list Z) : go (PState * option serr) :=
  '(st, n, err) ← Piece_WriteAt st piece data begin;
  Ok (st, if bool_decide (err = None) && negb (n =? lenZ data) then Some SErrShortWrite else err).

(** [hashPiece], for a backend that does not hash itself: the hash, the peers
    that sent differing blocks and the error. *)
Definition hashPiece (st : PState) (c : Cache) (start : Z) (chunkSize : nat) (blockHash : list Z → list Z) (piece : Z) :
    go (PState * list Z * gset Z * option serr) :=
  '(st, ws, err) ← WriteTo st piece;
  let w := Flush blockHash (fold_left (Write blockHash) ws (mkBCW c start ∅ [] chunkSize)) in
  Ok (st, sha1 (concat ws), badPeers w, err).

Fixpoint readAtLoop (fuel : nat) (st : PState) (n off : Z) (acc : list Z) (err : option serr) :
    go (PState * list Z * option serr) :=
  if n =? 0 then Ok (st, acc, err)
  else
    match fuel with
    | O => Panic "out of fuel"
    | Datatypes.S fuel =>
        let i := Z.quot off (PieceLength info) in
        if negb ((0 <=? i) && (i <? NumPieces info)) then Panic "index out of range"
        else
          '(st, d, err) ← Piece_ReadAt st i n (i64 (off - Piece_Offset info i));
          if lenZ d =? 0 then Ok (st, acc, err)
          else readAtLoop fuel st (n - lenZ d) (i64 (off + lenZ d)) (acc ++ d) err
    end.

Definition readAt (st : PState) (n off : Z) : go (PState * list Z * option serr) :=
  readAtLoop (Z.to_nat n) st n off [] None.
End Piece.
Arguments PState : clear implicits.
Arguments mkPS {S} _ _.
Arguments store {S} _.
Arguments completion {S} _.

(** ** Reading and writing a piece *)
Section PieceProofs.
Context {S : Type} `{!SpanStore S} `{!Missinggo} (info : Info) (infoHash : list Z) (Hinfo : info_ok info).
Implicit Types (st : PState S).

(** The backend is in order and as long as the torrent. *)
Definition stOk st : Prop := sp_ok (store st) ∧ lenZ (sp_view (store st)) = TotalLength info.

Definition pieceView st (i : Z) : list (option Z) :=
  range (sp_view (store st)) (Piece_Offset info i) (Piece_Length info i).

Lemma range_range {A} (l : list A) p n o m : 0 ≤ p → 0 ≤ o → 0 ≤ m → o + m ≤ n → range (range l p n) o m = range l (p + o) m.
Proof.
  intros. unfold range. rewrite skipn_firstn_comm, take_take, drop_drop.
  replace (Nat.min _ _) with (Z.to_nat m) by lia. f_equal. f_equal. lia.
Qed.

Lemma Piece_ReadAt_spec st i n off : stOk st → 0 ≤ i < NumPieces info → 0 ≤ off < Piece_Length info i → 0 < n →
  let m := Z.min n (Piece_Length info i - off) in
  let d := known (range (pieceView st i) off m) in
  ∃ st' err, Piece_ReadAt info infoHash st i n off = Ok (st', d, err) ∧ shortErr m d err ∧
    store st' = store st ∧ (err = None → st' = st).
Proof.
  intros [Hok Htot] Hi Hoff Hn m d. destruct (Piece_bounds info Hinfo i Hi) as (Hpo & Hpl & Hin).
  pose proof (sp_size _ Hok) as Hsz. pose proof (io_total _ Hinfo).
  assert (0 ≤ Piece_Offset info i) by (rewrite Hpo; pose proof (io_pl _ Hinfo); nia).
  unfold Piece_ReadAt. rewrite (proj2 (Z.ltb_ge off 0)), (proj2 (Z.leb_gt _ off)) by lia.
  rewrite i64_small, LimitLen_min by lia. fold m. rewrite (proj2 (Z.eqb_neq m 0)) by lia.
  unfold impl_ReadAt, SectionReader_ReadAt.
  rewrite (proj2 (Z.ltb_ge off 0)), (proj2 (Z.leb_gt _ off)), (proj2 (Z.ltb_ge _ m)) by lia. cbn [orb].
  destruct (sp_read (store st) m (Piece_Offset info i + off) Hok ltac:(lia) ltac:(lia) ltac:(lia)) as (err & -> & Herr).
  rewrite <- (range_range _ _ (Piece_Length info i)) in * by lia. fold (pieceView st i) in *. fold d in Herr |- *.
  cbn [mbind go_bind].
  assert (Hd : lenZ d ≤ m).
  { pose proof (length_known (range (pieceView st i) off m)) as Hk. fold d in Hk.
    unfold lenZ, range in *. rewrite length_take in Hk. lia. }
  rewrite (proj2 (Z.ltb_ge m _)) by lia. unfold shortErr in Herr.
  assert (Hstuck : (lenZ d =? 0) && bool_decide (err = None) = false).
  { destruct (Z.eqb_spec (lenZ d) 0); [|done]. rewrite bool_decide_false; [done|]. intros E%Herr. lia. }
  rewrite Hstuck. assert (0 ≤ lenZ d) by (unfold lenZ; lia). rewrite i64_small by lia.
  eexists _, err. split; [done|split; [exact Herr|split]].
  - by case_match.
  - intros ->. rewrite bool_decide_false by done. by rewrite andb_false_r.
Qed.

Lemma Piece_WriteAt_spec st i b off : stOk st → 0 ≤ i < NumPieces info → 0 ≤ off →
  off + lenZ b ≤ Piece_Length info i →
  ∃ s', Piece_WriteAt info st i b off = Ok (mkPS s' (completion st), lenZ b, None) ∧
    stOk (mkPS s' (completion st)) ∧
    written (sp_view (store st)) (sp_view s') (Piece_Offset info i + off) b.
Proof.
  intros [Hok Htot] Hi Hoff Hb. destruct (Piece_bounds info Hinfo i Hi) as (Hpo & Hpl & Hin).
  pose proof (sp_size _ Hok) as Hsz. assert (0 ≤ lenZ b) by (unfold lenZ; lia).
  assert (0 ≤ Piece_Offset info i) by (rewrite Hpo; pose proof (io_pl _ Hinfo); nia).
  unfold Piece_WriteAt, impl_WriteAt. rewrite i64_small, (proj2 (Z.ltb_ge _ _)) by lia.
  rewrite (i64_small (_ - off)), LimitLen_min by lia.
  rewrite (take_ge b) by (unfold lenZ in *; lia). rewrite SectionWriter_in by lia.
  destruct (sp_write (store st) b (Piece_Offset info i + off) Hok ltac:(lia) ltac:(lia)) as (s' & -> & Hok' & Hw).
  cbn [mbind go_bind]. exists s'. split_and!; [done| |done]. split; [done|].
  cbn. rewrite <- Htot. unfold lenZ. by rewrite (proj1 Hw).
Qed.

(** ** A piece that is all there *)
Lemma range_map_Some (D : list Z) o m : range (map Some D) o m = map Some (range D o m).
Proof. unfold range. by rewrite skipn_map, firstn_map. Qed.

Lemma copyLoop_full st i (D : list Z) size : stOk st → 0 ≤ i < NumPieces info →
  pieceView st i = map Some D → lenZ D = Piece_Length info i → 0 < size → ∀ fuel left off acc,
  left = Piece_Length info i - off → 0 ≤ off → 0 ≤ left → (Z.to_nat left < fuel)%nat →
  ∃ ws, copyLoop info infoHash fuel st i size left off acc = Ok (st, acc ++ ws, None) ∧ concat ws = range D off left.
Proof.
  intros Hst Hi Hv HD Hsz. induction fuel as [|fuel IH]; intros left off acc -> Hoff Hl Hf; [lia|]. cbn [copyLoop].
  destruct (Z.leb_spec (Piece_Length info i - off) 0).
  { exists []. rewrite app_nil_r. split; [done|]. replace (_ - off) with 0 by lia. done. }
  rewrite (proj2 (Z.leb_gt _ off)) by lia. set (n := Z.min _ _).
  destruct (Piece_ReadAt_spec st i n off Hst Hi ltac:(lia) ltac:(lia)) as (st' & err & -> & Herr & _ & Hsame).
  rewrite Hv, range_map_Some, (known_full _ _ eq_refl) in *. cbn [mbind go_bind].
  replace (n `min` (Piece_Length info i - off)) with n in * by lia.
  assert (Hn : lenZ (range D off n) = n) by (apply lenZ_range; lia). rewrite Hn in *.
  rewrite (proj2 (Z.eqb_neq n 0)) by lia. assert (err = None) as -> by (by apply Herr). rewrite (Hsame eq_refl).
  destruct (IH (Piece_Length info i - (off + n)) (off + n) (acc ++ [range D off n]) eq_refl) as (ws & Hc & Hws); [lia..|].
  exists (range D off n :: ws). replace (Piece_Length info i - off - n) with (Piece_Length info i - (off + n)) by lia.
  rewrite Hc, <- app_assoc. split; [done|]. cbn [concat]. rewrite Hws, range_app by lia. f_equal. lia.
Qed.

Lemma range_all {A} (l : list A) : range l 0 (lenZ l) = l.
Proof. unfold range, lenZ. rewrite Nat2Z.id. cbn. by rewrite take_ge. Qed.

Lemma WriteTo_full st i (D : list Z) : stOk st → 0 ≤ i < NumPieces info →
  pieceView st i = map Some D → lenZ D = Piece_Length info i →
  ∃ ws, WriteTo info infoHash st i = Ok (st, ws, None) ∧ concat ws = D.
Proof.
  intros Hst Hi Hv HD. destruct (Piece_bounds info Hinfo i Hi) as (_ & Hpl & _).
  assert (Hbuf : 0 < bufSize (Piece_Length info i)) by (unfold bufSize; repeat case_match; lia).
  destruct (copyLoop_full st i D (bufSize (Piece_Length info i)) Hst Hi Hv HD Hbuf
    (Datatypes.S (Z.to_nat (Piece_Length info i))) (Piece_Length info i) 0 []) as (ws & Hc & Hws); [lia..|].
  exists ws. unfold WriteTo. rewrite Hc. cbn [mbind go_bind app]. rewrite <- HD in Hws |- *. rewrite range_all in Hws.
  by rewrite Hws, Z.eqb_refl.
Qed.

(** ** A piece written chunk by chunk *)
Fixpoint writeChunks st (i : Z) (ws : list (Z * list Z)) : go (PState S * option serr) :=
  match ws with
  | [] => Ok (st, None)
  | (begin, data) :: ws =>
      '(st, err) ← writeChunk info st i begin data;
      match err with Some e => Ok (st, Some e) | None => writeChunks st i ws end
  end.

(** The chunks are parts of [D], and every byte of it is in one of them. *)
Definition partsOf (D : list Z) (ws : list (Z * list Z)) : Prop :=
  Forall (λ '(b, d), 0 ≤ b ∧ b + lenZ d ≤ lenZ D ∧ d = range D b (lenZ d)) ws.
Definition covered (ws : list (Z * list Z)) (k : Z) : Prop :=
  Exists (λ '(b, d), b ≤ k < b + lenZ d) ws.

Lemma covered_cons b d ws k : covered ((b, d) :: ws) k ↔ b ≤ k < b + lenZ d ∨ covered ws k.
Proof. unfold covered. by rewrite Exists_cons. Qed.

Lemma writeChunks_spec i D ws : 0 ≤ i < NumPieces info → lenZ D = Piece_Length info i → partsOf D ws → ∀ st (done : Z → Prop),
  stOk st → (∀ k b, done (Z.of_nat k) → D !! k = Some b → sp_view (store st) !! (Z.to_nat (Piece_Offset info i) + k)%nat = Some (Some b)) →
  ∃ st', writeChunks st i ws = Ok (st', None) ∧ stOk st' ∧
    ∀ k b, done (Z.of_nat k) ∨ covered ws (Z.of_nat k) → D !! k = Some b →
      sp_view (store st') !! (Z.to_nat (Piece_Offset info i) + k)%nat = Some (Some b).
Proof.
  intros Hi HD Hws. destruct (Piece_bounds info Hinfo i Hi) as (Hpo & Hpl & Hin).
  assert (H0 : 0 ≤ Piece_Offset info i) by (rewrite Hpo; pose proof (io_pl _ Hinfo); nia).
  induction Hws as [|[b d] ws (Hb & Hle & Hd) _ IH]; intros st have Hst Hhave; cbn [writeChunks].
  { exists st. split_and!; [done..|]. intros k x [Hk|Hk] HDk; [by apply Hhave|]. by apply Exists_nil in Hk. }
  destruct (Piece_WriteAt_spec st i d b Hst Hi Hb ltac:(lia)) as (s' & Hw & Hst' & (HL & HI & HO)).
  unfold writeChunk. rewrite Hw. cbn [mbind go_bind]. rewrite Z.eqb_refl. cbn [negb]. rewrite andb_false_r.
  destruct (IH (mkPS s' (completion st)) (λ k, have k ∨ b ≤ k < b + lenZ d) Hst') as (st' & -> & Hok' & Hall).
  - intros k x Hk HDk. cbn [store].
    destruct (decide (b ≤ Z.of_nat k < b + lenZ d)) as [Hr|Hr].
    + assert (Hdk : d !! (k - Z.to_nat b)%nat = Some x).
      { rewrite Hd, lookup_range by (unfold lenZ in *; lia). rewrite <- HDk. f_equal. lia. }
      apply HI in Hdk. rewrite <- Hdk. f_equal. lia.
    + apply HO; [unfold lenZ in *; lia|]. apply Hhave; [|done]. by destruct Hk.
  - exists st'. split_and!; [done..|]. intros k x. rewrite covered_cons. intros Hk. apply Hall. tauto.
Qed.

Lemma chunks_full i D ws st : 0 ≤ i < NumPieces info → lenZ D = Piece_Length info i → partsOf D ws →
  (∀ k, 0 ≤ k < lenZ D → covered ws k) → stOk st →
  ∃ st', writeChunks st i ws = Ok (st', None) ∧ stOk st' ∧ pieceView st' i = map Some D.
Proof.
  intros Hi HD Hws Hcov Hst. destruct (writeChunks_spec i D ws Hi HD Hws st (λ _, False) Hst ltac:(done)) as (st' & Hw & Hst' & Hall).
  exists st'. split_and!; [done..|]. destruct (Piece_bounds info Hinfo i Hi) as (Hpo & Hpl & Hin).
  assert (H0 : 0 ≤ Piece_Offset info i) by (rewrite Hpo; pose proof (io_pl _ Hinfo); nia).
  destruct Hst' as [_ Hlen]. apply (list_eq_below _ _ (Z.to_nat (Piece_Length info i))).
  - pose proof (lenZ_range (sp_view (store st')) (Piece_Offset info i) (Piece_Length info i)). unfold pieceView, lenZ in *. lia.
  - rewrite length_map. unfold lenZ in HD. lia.
  - intros k x y Hk Hx Hy. change (map Some D) with (Some <$> D) in Hy. rewrite list_lookup_fmap in Hy.
    destruct (D !! k) as [z|] eqn:Hz; [|done]. injection Hy as <-.
    unfold pieceView in Hx. rewrite lookup_range in Hx by done.
    rewrite (Hall k z) in Hx; [by injection Hx as <-| |done]. right. apply Hcov. apply lookup_lt_Some in Hz. unfold lenZ. lia.
Qed.

(** C21.  The chunks of a piece may be written in any order, with overlaps:
    once every byte has been written no write has failed, and [hashPiece]
    answers the SHA-1 hash of the piece, without an error, and blames exactly
    the peers that sent a block with another hash. *)
Theorem downloaded_piece_hashes i D ws st c start chunkSize blockHash :
  0 ≤ i < NumPieces info → lenZ D = Piece_Length info i → partsOf D ws →
  (∀ k, 0 ≤ k < lenZ D → covered ws k) → stOk st →
  (0 < chunkSize)%nat → 0 ≤ start → start + Z.of_nat (length (blocks chunkSize start D)) < 2 ^ 32 →
  ∃ st', writeChunks st i ws = Ok (st', None) ∧
    hashPiece info infoHash st' c start chunkSize blockHash i =
      Ok (st', sha1 D, blamed blockHash c (blocks chunkSize start D), None).
Proof.
  intros Hi HD Hws Hcov Hst Hcs Hs Hb. destruct (chunks_full i D ws st Hi HD Hws Hcov Hst) as (st' & Hw & Hst' & Hv).
  exists st'. split; [done|]. destruct (WriteTo_full st' i D Hst' Hi Hv HD) as (wr & Hwt & Hc).
  unfold hashPiece. rewrite Hwt. cbn [mbind go_bind]. rewrite bcw_blames by (rewrite ?Hc; done). by rewrite Hc.
Qed.

(** ** Reading the torrent across pieces *)
Lemma quot_piece off : 0 ≤ off < TotalLength info →
  let i := Z.quot off (PieceLength info) in
  0 ≤ i < NumPieces info ∧ 0 ≤ off - Piece_Offset info i < Piece_Length info i.
Proof using Hinfo.
  intros Hoff i. pose proof (io_pl _ Hinfo). pose proof (NumPieces_bounds info Hinfo).
  unfold i. rewrite Z.quot_div_nonneg by lia. fold i. set (q := off / PieceLength info) in *.
  pose proof (Z.div_mod off (PieceLength info) ltac:(lia)). pose proof (Z.mod_pos_bound off (PieceLength info) ltac:(lia)).
  fold q in H1. assert (Hq : 0 ≤ q < NumPieces info) by nia. split; [done|].
  destruct (Piece_bounds info Hinfo q Hq) as (-> & _). rewrite Piece_Length_start by done. unfold pieceStart. nia.
Qed.

Lemma readAtLoop_full st : stOk st → ∀ fuel n off acc D,
  0 ≤ off → 0 ≤ n → off + n ≤ TotalLength info → (Z.to_nat n ≤ fuel)%nat →
  range (sp_view (store st)) off n = map Some D →
  readAtLoop info infoHash fuel st n off acc None = Ok (st, acc ++ D, None).
Proof.
  intros Hst. pose proof Hst as [Hok Htot]. pose proof (sp_size _ Hok).
  induction fuel as [|fuel IH]; intros n off acc D Hoff Hn Hle Hf HD; cbn [readAtLoop].
  { assert (n = 0) as -> by lia. rewrite range_0 in HD. destruct D; [|done]. by rewrite app_nil_r. }
  destruct (Z.eqb_spec n 0) as [->|Hn0].
  { rewrite range_0 in HD. destruct D; [|done]. by rewrite app_nil_r. }
  destruct (quot_piece off ltac:(lia)) as [Hi Hrel]. set (i := Z.quot off (PieceLength info)) in *.
  rewrite (proj2 (Z.leb_le 0 i)), (proj2 (Z.ltb_lt i _)) by lia. cbn [andb negb].
  destruct (Piece_bounds info Hinfo i Hi) as (Hpo & Hpl & Hin). pose proof (io_pl _ Hinfo).
  assert (0 ≤ Piece_Offset info i) by (rewrite Hpo; nia). rewrite (i64_small (off - _)) by lia.
  destruct (Piece_ReadAt_spec st i n (off - Piece_Offset info i) Hst Hi Hrel ltac:(lia)) as (st' & err & -> & Herr & _ & Hsame).
  set (m := n `min` _) in *. unfold pieceView in *. rewrite range_range in * by lia.
  replace (Piece_Offset info i + (off - Piece_Offset info i)) with off in * by lia.
  assert (HDm : range (sp_view (store st)) off m = map Some (range D 0 m)).
  { rewrite <- range_map_Some, <- HD, range_range by lia. f_equal. lia. }
  assert (HDl : lenZ D = n).
  { assert (Hl : lenZ (range (sp_view (store st)) off n) = n) by (apply lenZ_range; lia). rewrite HD in Hl.
    unfold lenZ in *. by rewrite length_map in Hl. }
  rewrite (known_full _ _ HDm) in *. assert (Hlm : lenZ (range D 0 m) = m) by (apply lenZ_range; lia).
  cbn [mbind go_bind]. rewrite Hlm in *. rewrite (proj2 (Z.eqb_neq m 0)) by lia.
  assert (err = None) as -> by (by apply Herr; rewrite Hlm). rewrite (Hsame eq_refl), i64_small by lia.
  rewrite (IH _ _ _ (range D m (n - m))) by (lia || (rewrite <- range_map_Some, <- HD, range_range by lia; f_equal; lia)).
  do 3 f_equal. rewrite <- app_assoc. f_equal. replace m with (0 + m) at 2 by lia.
  rewrite range_app by lia. replace (m + (n - m)) with n by lia. by rewrite <- HDl, range_all.
Qed.

(** [readAt] of the torrent reads data that is all there, wherever the
    boundaries between pieces are. *)
Theorem readAt_full st n off D : stOk st → 0 ≤ off → 0 ≤ n → off + n ≤ TotalLength info →
  range (sp_view (store st)) off n = map Some D →
  readAt info infoHash st n off = Ok (st, D, None).
Proof. intros. unfold readAt. rewrite (readAtLoop_full st) with (D := D) by (done || lia). done. Qed.
End PieceProofs.

(** ** The backends *)
#[local] Obligation Tactic := idtac.

#[export] Program Instance mmapStore : SpanStore MMapSpan := {|
  sp_ReadAt := ms_ReadAt;
  sp_WriteAt := ms_WriteAt;
  sp_view ms := map Some (msBytes ms);
  sp_ok := msOk
|}.
Next Obligation. intros ms [_ H]. unfold lenZ in *. by rewrite length_map. Qed.
Next Obligation.
  intros ms n off Hok Ho Hn Hb. cbn beta. rewrite range_map_Some, (known_full _ _ eq_refl).
  rewrite (ms_ReadAt_spec ms n off Hok Ho Hn Hb). cbn beta.
  set (m := Z.max 0 _). assert (Hr : range (msBytes ms) off m = range (msBytes ms) off n).
  { unfold range, lenZ in *. destruct (Z.le_ge_cases (off + n) (Z.of_nat (length (msBytes ms)))).
    - f_equal. lia.
    - rewrite !take_ge by (rewrite length_drop; lia). done. }
  rewrite Hr. eexists. split; [done|]. unfold shortErr.
  assert (lenZ (range (msBytes ms) off n) ≤ n) by (unfold lenZ, range; rewrite length_take; lia).
  destruct (Z.ltb_spec (lenZ (range (msBytes ms) off n)) n); split; done || lia.
Qed.
Next Obligation.
  intros ms p off Hok Ho Hle. cbn beta in *. pose proof (proj2 Hok) as Hsz. unfold lenZ in Hle. rewrite length_map in Hle. fold (lenZ p) in Hle.
  fold (lenZ (msBytes ms)) in Hle. destruct (ms_WriteAt_spec ms p off Hok Ho ltac:(lia)) as (ms' & -> & Hok' & Hb).
  assert (Hp : 0 ≤ lenZ p) by (unfold lenZ; lia).
  replace (Z.max 0 _) with (lenZ p) in * by lia. rewrite Z.ltb_irrefl. exists ms'. split_and!; [done..|].
  unfold lenZ in Hb at 1. rewrite Nat2Z.id, take_ge in Hb by lia. rewrite Hb.
  assert (Hl : (Z.to_nat off + length p ≤ length (msBytes ms))%nat) by (unfold lenZ in *; lia). split_and!.
  - rewrite !length_map. pose proof (lenZ_splice (msBytes ms) p off Ho Hle). unfold lenZ in *. lia.
  - intros j b Hj. change (map Some ?l) with (Some <$> l). rewrite list_lookup_fmap, lookup_splice_in, Hj; [done|lia|].
    by eapply lookup_lt_Some.
  - intros k b Hk. change (map Some ?l) with (Some <$> l). rewrite !list_lookup_fmap. by rewrite lookup_splice_out.
Qed.

Section FileStore.
Context (fts : fileTorrentImpl).

#[export] Program Instance fileStore : SpanStore FS := {|
  sp_ReadAt := file_ReadAt fts;
  sp_WriteAt := file_WriteAt fts;
  sp_view fs := filesView fs (files fts);
  sp_ok fs := filesOk fts fs ∧ writable fts fs
|}.
Next Obligation. intros fs [[? Hpos Hsum _] _]. unfold filesView. by rewrite lenZ_concat, lens_filesView. Qed.
Next Obligation. intros fs n off [Hok _]. by apply file_ReadAt_spec. Qed.
Next Obligation.
  intros fs p off [Hok Hw] Ho Hle. unfold filesView in Hle. rewrite lenZ_concat, lens_filesView in Hle by apply Hok.
  destruct (file_WriteAt_spec fts fs p off Hok Hw Ho Hle) as (fs' & ? & ? & ? & ?). by exists fs'.
Qed.
End FileStore.

(** ** Completion of pieces in files: file-piece.go *)
Section FileCompletion.
Context (fts : fileTorrentImpl) (info : Info) (infoHash : list Z).

Fixpoint lengthsVerified (fs : FS) (ls : list (Z * Z)) : go bool :=
  match ls with
  | [] => Ok true
  | (fileIndex, len) :: ls =>
      match files fts !! Z.to_nat fileIndex with
      | None => Panic "index out of range"
      | Some f =>
          match os_Stat fs (path f) with
          | Bad _ => Ok false
          | Good size => if size <? len then Ok false else lengthsVerified fs ls
          end
      end
  end.

Definition file_Completion (st : PState FS) (i : Z) : go (Completion * PState FS) :=
  let c := pc_Get (completion st) (infoHash, i) in
  verified ← (if Complete c then
                ls ← extentCompleteRequiredLengths info (Piece_Offset info i) (Piece_Length info i);
                lengthsVerified (store st) ls
              else Ok true);
  if negb verified then Ok (mkCompletion false (COk c), MarkNotComplete infoHash st i) else Ok (c, st).

(** The bytes [off, off + n) are all there. *)
Definition allThere (V : list (option Z)) (off n : Z) : Prop :=
  ∀ k, (Z.to_nat off ≤ k < Z.to_nat (off + n))%nat → ∃ b, V !! k = Some (Some b).

Lemma allThere_file fs f off n : 0 ≤ off → 0 < n → off + n ≤ flength f →
  allThere (fileView fs f) off n ↔ off + n ≤ lenZ (contentOf fs (path f)).
Proof.
  intros Ho Hn Hle. unfold lenZ. split.
  - intros H. destruct (H (Z.to_nat (off + n) - 1)%nat ltac:(lia)) as [b Hb].
    rewrite lookup_fileView in Hb by lia. injection Hb as Hb%lookup_lt_Some. lia.
  - intros H k Hk. rewrite lookup_fileView by lia. destruct (lookup_lt_is_Some_2 (contentOf fs (path f)) k) as [b ->]; [lia|by eexists].
Qed.

Lemma allThere_app A B off n : 0 ≤ off → lenZ A ≤ off →
  allThere (A ++ B) off n ↔ allThere B (off - lenZ A) n.
Proof.
  unfold lenZ. intros Ho Hl. split; intros H k Hk.
  - destruct (H (length A + k)%nat ltac:(lia)) as [b Hb]. exists b. rewrite lookup_app_r in Hb by lia.
    rewrite <- Hb. f_equal. lia.
  - rewrite lookup_app_r by lia. apply H. lia.
Qed.

Lemma allThere_split A B off n n1 : 0 ≤ off → 0 ≤ n1 ≤ n → off + n1 = lenZ A ∨ off + n ≤ lenZ A ∧ n1 = n →
  allThere (A ++ B) off n ↔ allThere A off n1 ∧ (n1 < n → allThere B 0 (n - n1)).
Proof.
  unfold lenZ. intros Ho Hn Hc. split.
  - intros H. split.
    + intros k Hk. destruct (H k ltac:(lia)) as [b Hb]. exists b. by rewrite lookup_app_l in Hb by lia.
    + intros Hlt k Hk. destruct (H (length A + k)%nat ltac:(lia)) as [b Hb]. exists b.
      rewrite lookup_app_r in Hb by lia. rewrite <- Hb. f_equal. lia.
  - intros [H1 H2] k Hk. destruct (Nat.lt_ge_cases k (length A)).
    + rewrite lookup_app_l by lia. apply H1. lia.
    + rewrite lookup_app_r by lia. apply H2; lia.
Qed.

Definition lengthOk (fs : FS) (l : list file) (i : Z) (r : Z * Z) : Prop :=
  i ≤ r.1 ∧ 0 < r.2 ∧ ∃ f, l !! Z.to_nat (r.1 - i) = Some f ∧ r.2 ≤ lenZ (contentOf fs (path f)).

Lemma lengthOk_cons fs f l i r : lengthOk fs l (i + 1) r → lengthOk fs (f :: l) i r.
Proof.
  intros (H1 & H2 & g & Hg & Hle). split_and!; [lia|done|]. exists g. split; [|done].
  replace (Z.to_nat (r.1 - i)) with (S (Z.to_nat (r.1 - (i + 1)))) by lia. done.
Qed.

Lemma lengthOk_cons_inv fs f l i r : i + 1 ≤ r.1 → lengthOk fs (f :: l) i r → lengthOk fs l (i + 1) r.
Proof.
  intros Hi (H1 & H2 & g & Hg & Hle). split_and!; [done|done|]. exists g. split; [|done].
  replace (Z.to_nat (r.1 - i)) with (S (Z.to_nat (r.1 - (i + 1)))) in Hg by lia. done.
Qed.

(** The required lengths exist, name files of the torrent, and are met exactly
    if the extent is there. *)
Lemma requiredLoop_spec fs (l : list file) : Forall (λ f, 0 ≤ flength f) l → Zsum (map flength l) < 2 ^ 63 → ∀ i off n,
  0 ≤ off → 0 < n → off + n ≤ Zsum (map flength l) →
  ∃ rs, requiredLoop i (map flength l) off n = Ok rs ∧
        Forall (λ r, i ≤ r.1 < i + lenZ l ∧ 0 < r.2) rs ∧
        (allThere (filesView fs l) off n ↔ Forall (lengthOk fs l i) rs).
Proof.
  induction 1 as [|f l Hf Hl IH]; intros Hs i off n Ho Hn Hle; [cbn in Hle; lia|].
  change (Zsum (map flength (f :: l))) with (flength f + Zsum (map flength l)) in *.
  pose proof (Zsum_Forall_nonneg (map flength l) ltac:(by apply Forall_map)) as Hnn.
  assert (Hmono : ∀ rs, Forall (λ r : Z * Z, i + 1 ≤ r.1 < i + 1 + lenZ l ∧ 0 < r.2) rs →
    Forall (λ r : Z * Z, i ≤ r.1 < i + lenZ (f :: l) ∧ 0 < r.2) rs ∧
    (Forall (lengthOk fs l (i + 1)) rs ↔ Forall (lengthOk fs (f :: l) i) rs)).
  { intros rs Hrs. split; [|split; intros Hx].
    - eapply Forall_impl; [exact Hrs|]. unfold lenZ. cbn. lia.
    - eapply Forall_impl; [exact Hx|]. intros r. apply lengthOk_cons.
    - apply Forall_forall. intros r Hr. rewrite Forall_forall in Hrs, Hx. apply (lengthOk_cons_inv _ f); [|by apply Hx]. by apply Hrs. }
  cbn [map requiredLoop]. change (filesView fs (f :: l)) with (fileView fs f ++ filesView fs l).
  destruct (Z.leb_spec (flength f) off) as [Hskip|Htake].
  - rewrite i64_small by lia. destruct (IH ltac:(lia) (i + 1) (off - flength f) n) as (rs & Hr & Hin & Hiff); [lia..|].
    exists rs. split; [done|]. destruct (Hmono rs Hin) as [? <-]. split; [done|]. rewrite <- Hiff.
    rewrite allThere_app by (rewrite ?lenZ_fileView; lia). by rewrite lenZ_fileView.
  - rewrite (i64_small (off + n)), (i64_small (flength f - off)) by lia.
    set (n1 := if flength f <? off + n then flength f - off else n).
    assert (Hn1 : 0 < n1 ≤ n ∧ (off + n1 = flength f ∨ off + n ≤ flength f ∧ n1 = n))
      by (unfold n1; destruct (Z.ltb_spec (flength f) (off + n)); lia).
    rewrite (i64_small (n - n1)), (i64_small (off + n1)) by lia.
    assert (Hhead : allThere (fileView fs f) off n1 ↔ lengthOk fs (f :: l) i (i, off + n1)).
    { rewrite allThere_file by lia. unfold lengthOk. cbn [fst snd]. rewrite Z.sub_diag. cbn. split.
      - intros. split_and!; [lia..|]. by exists f. - intros (_ & _ & g & [= <-] & ?). done. }
    assert (Hsplit : allThere (fileView fs f ++ filesView fs l) off n ↔
      lengthOk fs (f :: l) i (i, off + n1) ∧ (n1 < n → allThere (filesView fs l) 0 (n - n1))).
    { rewrite <- Hhead. apply allThere_split; rewrite ?lenZ_fileView; lia. }
    setoid_rewrite Hsplit. clear Hsplit.
    destruct (Z.eqb_spec (n - n1) 0) as [Hz|Hz].
    + exists [(i, off + n1)]. split; [done|]. split; [apply Forall_singleton; unfold lenZ; cbn; lia|]. rewrite Forall_singleton.
      split; [tauto|]. intros. split; [done|lia].
    + destruct (IH ltac:(lia) (i + 1) 0 (n - n1)) as (rs & -> & Hin & Hiff); [lia..|]. cbn [mbind go_bind].
      exists ((i, off + n1) :: rs). split; [done|]. destruct (Hmono rs Hin) as [? Hm]. split.
      { apply Forall_cons. split; [unfold lenZ; cbn; lia|done]. }
      rewrite Forall_cons, <- Hm, <- Hiff. split; [intros [? ?]; split; [done|auto with lia]|tauto].
Qed.

Lemma os_Stat_seen fs p :
  match os_Stat fs p with
  | Good size => size = lenZ (contentOf (seenByStat fs) p)
  | Bad _ => contentOf (seenByStat fs) p = []
  end.
Proof.
  unfold os_Stat, contentOf, os_Open, seenByStat. cbn [fsBroken fsFiles]. rewrite (decide_False (P := p ∈ ∅)) by set_solver.
  destruct (decide (p ∈ fsUnstat fs)) as [Hu|Hu].
  - rewrite (proj2 (map_lookup_filter_None _ _ _)); [done|]. right. cbn. auto.
  - destruct (fsFiles fs !! p) as [c|] eqn:Ec.
    + by rewrite (proj2 (map_lookup_filter_Some _ _ _ _) (conj Ec Hu)).
    + rewrite (proj2 (map_lookup_filter_None _ _ _)); [done|by left].
Qed.

(** Files that can be looked at and opened have the contents [os.Stat] sees. *)
Lemma contentOf_seen fs p : p ∉ fsBroken fs → contentOf (seenByStat fs) p ≠ [] → contentOf fs p = contentOf (seenByStat fs) p.
Proof.
  intros Hb. unfold contentOf, os_Open, seenByStat. cbn [fsBroken fsFiles].
  rewrite (decide_False (P := p ∈ ∅)), (decide_False (P := p ∈ fsBroken fs)) by set_solver.
  destruct (filter _ _ !! p) as [c|] eqn:Ec; [|done]. by apply map_lookup_filter_Some in Ec as [-> _].
Qed.

Lemma lengthsVerified_spec fs rs : Forall (λ r, 0 ≤ r.1 < 0 + lenZ (files fts) ∧ 0 < r.2) rs →
  ∃ b, lengthsVerified fs rs = Ok b ∧ (b = true ↔ Forall (lengthOk (seenByStat fs) (files fts) 0) rs).
Proof.
  induction 1 as [|[j len] rs [Hj Hlen] _ IH]; cbn [lengthsVerified fst snd] in *; [by exists true|].
  destruct (lookup_lt_is_Some_2 (files fts) (Z.to_nat j)) as [f Hf]; [unfold lenZ in *; lia|]. rewrite Hf.
  destruct IH as (b & Hb & Hiff).
  assert (Hok : lengthOk (seenByStat fs) (files fts) 0 (j, len) ↔ len ≤ lenZ (contentOf (seenByStat fs) (path f))).
  { unfold lengthOk. cbn [fst snd]. rewrite Z.sub_0_r, Hf. split; [by intros (_ & _ & g & [= <-] & ?)|].
    intros. split_and!; [lia..|]. by exists f. }
  setoid_rewrite Forall_cons. setoid_rewrite Hok. pose proof (os_Stat_seen fs (path f)) as Hs. destruct (os_Stat fs (path f)) as [size|e].
  - rewrite <- Hs. destruct (Z.ltb_spec size len).
    + exists false. split; [done|]. split; [done|]. lia.
    + exists b. split; [done|]. rewrite Hiff. split; [tauto|by intros [_ ?]].
  - exists false. split; [done|]. split; [done|]. rewrite Hs. change (lenZ []) with 0. lia.
Qed.
End FileCompletion.

Lemma sumLengths_Zsum l : Forall (λ f, 0 ≤ fiLength f) l → ∀ r, 0 ≤ r → r + Zsum (map fiLength l) < 2 ^ 63 →
  sumLengths r l = r + Zsum (map fiLength l).
Proof.
  induction 1 as [|f l Hf Hl IH]; intros r Hr Hs; cbn [sumLengths map] in *; [cbn; lia|].
  change (Zsum (fiLength f :: map fiLength l)) with (fiLength f + Zsum (map fiLength l)) in *.
  pose proof (Zsum_Forall_nonneg (map fiLength l) ltac:(by apply Forall_map)). rewrite i64_small by lia. rewrite IH; lia.
Qed.

Lemma TotalLength_Zsum info : Forall (λ l, 0 ≤ l) (map fiLength (UpvertedFiles info)) →
  Zsum (map fiLength (UpvertedFiles info)) < 2 ^ 63 → TotalLength info = Zsum (map fiLength (UpvertedFiles info)).
Proof.
  unfold TotalLength, UpvertedFiles, IsDir. destruct (length (Files info) =? 0)%nat; cbn [negb].
  - intros. cbn. lia.
  - intros Hf Hs. rewrite sumLengths_Zsum; [lia|exact (proj1 (Forall_map _ _ _) Hf)|lia|lia].
Qed.

(** What [os.Stat] sees of files that can be opened can be read. *)
Lemma allThere_seen fs fls off n : 0 ≤ off →
  (∀ f, f ∈ fls → path f ∉ fsBroken fs) → allThere (filesView (seenByStat fs) fls) off n → allThere (filesView fs fls) off n.
Proof.
  intros Ho Hb H. assert (Hv : ∀ k b, filesView (seenByStat fs) fls !! k = Some (Some b) → filesView fs fls !! k = Some (Some b)).
  { clear H. induction fls as [|f fls IH]; [done|]. intros k b. unfold filesView. cbn [map concat]. fold (filesView fs fls) (filesView (seenByStat fs) fls).
    assert (Hl : ∀ fs, length (fileView fs f) = Z.to_nat (flength f)) by (intros; unfold fileView; by rewrite length_map, length_seq).
    destruct (Nat.lt_ge_cases k (Z.to_nat (flength f))).
    - rewrite !lookup_app_l by (rewrite Hl; lia). rewrite !lookup_fileView by lia. intros [= Hk].
      rewrite contentOf_seen; [by rewrite Hk|apply Hb; by left|]. intros E. by rewrite E in Hk.
    - rewrite !lookup_app_r by (rewrite Hl; lia). rewrite !Hl. apply IH. intros g Hg. apply Hb. by right. }
  intros k Hk. destruct (H k Hk) as [b Hkb]. exists b. by apply Hv.
Qed.

(** C22.  [Completion] of a piece in files reports it complete exactly if it
    was marked complete and [os.Stat] finds the files that hold it long enough
    for every byte of it; a wrong mark is corrected.  If the files can be
    opened, every byte of a piece that is reported complete can be read. *)
Theorem completion_backed (fts : fileTorrentImpl) (info : Info) (infoHash : list Z) (st : PState FS) i :
  info_ok info → map flength (files fts) = map fiLength (UpvertedFiles info) →
  Forall (λ f, 0 ≤ flength f) (files fts) → Zsum (map flength (files fts)) < 2 ^ 63 → 0 ≤ i < NumPieces info →
  ∃ c st', file_Completion fts info infoHash st i = Ok (c, st') ∧
    (Complete c = true ↔ completion st !! (infoHash, i) = Some true ∧
       allThere (filesView (seenByStat (store st)) (files fts)) (Piece_Offset info i) (Piece_Length info i)) ∧
    (pc_Get (completion st') (infoHash, i) = c ∧ store st' = store st) ∧
    ((∀ f, f ∈ files fts → path f ∉ fsBroken (store st)) → Complete c = true →
       allThere (filesView (store st) (files fts)) (Piece_Offset info i) (Piece_Length info i)).
Proof.
  intros Hinfo Hfl Hpos Hsum Hi.
  assert (Htot : TotalLength info = Zsum (map flength (files fts))).
  { rewrite Hfl. apply TotalLength_Zsum; rewrite <- Hfl; [by apply Forall_map|done]. }
  destruct (Piece_bounds info Hinfo i Hi) as (Hpo & Hpl & Hin).
  assert (H0 : 0 ≤ Piece_Offset info i) by (rewrite Hpo; pose proof (io_pl _ Hinfo); nia).
  enough (∃ c st', file_Completion fts info infoHash st i = Ok (c, st') ∧
    (Complete c = true ↔ completion st !! (infoHash, i) = Some true ∧
       allThere (filesView (seenByStat (store st)) (files fts)) (Piece_Offset info i) (Piece_Length info i)) ∧
    (pc_Get (completion st') (infoHash, i) = c ∧ store st' = store st)) as (c & st' & Hc & Hiff & Hst).
  { exists c, st'. split; [done|]. split; [done|]. split; [done|]. intros Hb [_ Hall]%Hiff. by apply allThere_seen. }
  unfold file_Completion, pc_Get. destruct (completion st !! (infoHash, i)) as [[]|] eqn:Hc; cbn [Complete COk].
  - unfold extentCompleteRequiredLengths. rewrite (proj2 (Z.eqb_neq _ 0)) by lia. rewrite <- Hfl.
    destruct (requiredLoop_spec (seenByStat (store st)) (files fts) Hpos Hsum 0 (Piece_Offset info i) (Piece_Length info i))
      as (rs & -> & Hrs & Hiff); [lia..|]. cbn [mbind go_bind].
    destruct (lengthsVerified_spec fts (store st) rs Hrs) as (b & -> & Hb). rewrite <- Hiff in Hb. cbn [mbind go_bind].
    destruct b; cbn [negb]; eexists _, _; (split; [reflexivity|]); cbn.
    + rewrite Hc. split; [|done]. split; [|done]. intros _. split; [done|by apply Hb].
    + unfold pc_Set. rewrite lookup_insert_eq. split; [|done]. split; [done|]. intros [_ ?%Hb]. done.
  - eexists _, _. split; [done|]. rewrite Hc. cbn. naive_solver.
  - eexists _, _. split; [done|]. rewrite Hc. cbn. naive_solver.
Qed.

(** ** An example: three files, the second of them empty, in two pieces *)
Module StorageExample.
Definition missinggo : Missinggo.
Proof.
  refine {| LimitLen := Z.min; SectionWriter_WriteAt := λ S w base len s p off, w s p (base + off) |}; done.
Defined.
Definition info : Info := mkInfo 4 (replicate 40 7) "t" "" 0
  [mkFileInfo 3 ["a"] []; mkFileInfo 0 ["b"] []; mkFileInfo 4 ["c"] []].
Definition fts : fileTorrentImpl := newFileTorrentImpl [mkFile "t/a" 3; mkFile "t/b" 0; mkFile "t/c" 4].
Definition fs0 : FS := mkFS {[ "t/b" := [] ]} ∅ ∅.
Definition st0 : PState FS := mkPS fs0 ∅.

Lemma info_valid : info_ok info.
Proof. split; vm_compute; congruence || (split; congruence) || reflexivity. Qed.

Lemma fs_ok fs : is_Some (fsFiles fs !! "t/b"%string) → fsBroken fs = ∅ → filesOk fts fs ∧ writable fts fs.
Proof.
  intros Hb Hn. split; split.
  - done.
  - repeat constructor; done.
  - done.
  - intros f Hf H0. cbn in Hf. rewrite Hn. split; [|set_solver].
    apply elem_of_cons in Hf as [->|[->|[->|[]%elem_of_nil]%elem_of_cons]%elem_of_cons]; done.
  - cbn. repeat constructor; set_solver.
  - rewrite Hn. set_solver.
Qed.

Lemma st0_ok : @stOk _ (fileStore fts) info st0.
Proof. split; [by apply fs_ok|done]. Qed.
End StorageExample.

Lemma downloaded_piece_hashes_witness :
  let _ := fileStore StorageExample.fts in let _ := StorageExample.missinggo in
  ∃ st', writeChunks StorageExample.info StorageExample.st0 0 [(2, [12; 13]); (0, [10; 11; 12])] = Ok (st', None) ∧
    hashPiece StorageExample.info [] st' ∅ 0 2 (λ b, b) 0 =
      Ok (st', sha1 [10; 11; 12; 13], blamed (λ b, b) ∅ (blocks 2 0 [10; 11; 12; 13]), None).
Proof.
  intros F M. apply (downloaded_piece_hashes StorageExample.info [] StorageExample.info_valid 0 [10; 11; 12; 13]);
    [done|done| | |apply StorageExample.st0_ok|lia|lia|done].
  - repeat constructor; done || (unfold lenZ; cbn; lia).
  - intros k Hk. unfold lenZ in Hk. cbn in Hk. rewrite !covered_cons. unfold lenZ. cbn. lia.
Defined.

Lemma readAt_full_witness :
  let _ := fileStore StorageExample.fts in let _ := StorageExample.missinggo in
  let st := mkPS (mkFS {[ "t/a" := [1; 2; 3]; "t/b" := []; "t/c" := [4; 5; 6; 7] ]} ∅ ∅) ∅ in
  readAt StorageExample.info [] st 5 1 = Ok (st, [2; 3; 4; 5; 6], None).
Proof.
  intros F M st. apply (readAt_full StorageExample.info [] StorageExample.info_valid); [|lia|lia|done|done].
  split; [by apply StorageExample.fs_ok|done].
Defined.

Lemma completion_backed_witness :
  let st := mkPS (mkFS {[ "t/a" := [1; 2; 3]; "t/b" := []; "t/c" := [4; 5] ]} {[ "t/b" ]} ∅) {[ ([], 0) := true; ([], 1) := true ]} in
  let st1 := mkPS (store st) {[ ([], 0) := true; ([], 1) := false ]} in
  file_Completion StorageExample.fts StorageExample.info [] st 1 = Ok (mkCompletion false true, st1) ∧
  ∃ c st', file_Completion StorageExample.fts StorageExample.info [] st 1 = Ok (c, st') ∧
    (Complete c = true ↔ completion st !! ([], 1) = Some true ∧
       allThere (filesView (seenByStat (store st)) (files StorageExample.fts)) (Piece_Offset StorageExample.info 1) (Piece_Length StorageExample.info 1)) ∧
    (pc_Get (completion st') ([], 1) = c ∧ store st' = store st) ∧
    ((∀ f, f ∈ files StorageExample.fts → path f ∉ fsBroken (store st)) → Complete c = true →
       allThere (filesView (store st) (files StorageExample.fts)) (Piece_Offset StorageExample.info 1) (Piece_Length StorageExample.info 1)).
Proof.
  intros st st1. split; [vm_compute; reflexivity|].
  apply (completion_backed StorageExample.fts StorageExample.info [] st 1);
    [apply StorageExample.info_valid|done|repeat constructor; done|done|done].
Defined.

(** A file that can be looked at but not opened: the piece is reported
    complete, and cannot be read. *)
Example complete_unreadable :
  let fs := mkFS {[ "t/a" := [1; 2; 3]; "t/b" := []; "t/c" := [4; 5; 6; 7] ]} {[ "t/c" ]} ∅ in
  file_Completion StorageExample.fts StorageExample.info [] (mkPS fs {[ ([], 1) := true ]}) 1 =
    Ok (mkCompletion true true, mkPS fs {[ ([], 1) := true ]}) ∧
  file_ReadAt StorageExample.fts fs 3 4 = Ok ([], Some (SOther "t/c")).
Proof. vm_compute. done. Qed.

(** Reading across a file without data needs that file: when it has been
    removed, the read stops there although all the data is present. *)
Example empty_file_stops_read :
  file_ReadAt StorageExample.fts (mkFS {[ "t/a" := [1; 2; 3]; "t/c" := [4; 5; 6; 7] ]} ∅ ∅) 5 1 = Ok ([2; 3], Some SEOF) ∧
  file_ReadAt StorageExample.fts (mkFS {[ "t/a" := [1; 2; 3]; "t/b" := []; "t/c" := [4; 5; 6; 7] ]} ∅ ∅) 5 1 = Ok ([2; 3; 4; 5; 6], None).
Proof. done. Qed.

(** A short file ends a read with [io.EOF], also within the torrent. *)
Example premature_eof :
  file_ReadAt StorageExample.fts (mkFS {[ "t/a" := [1; 2]; "t/b" := []; "t/c" := [4; 5; 6; 7] ]} ∅ ∅) 3 0 = Ok ([1; 2], Some SEOF).
Proof. done. Qed.

(** Two files of a torrent with the same path overwrite each other. *)
Example same_path_overwrites :
  let fts := newFileTorrentImpl [mkFile "t/a" 2; mkFile "t/a" 2] in
  ∃ fs, file_WriteAt fts (mkFS ∅ ∅ ∅) [1; 2; 3; 4] 0 = Ok (fs, 4, None) ∧ file_ReadAt fts fs 4 0 = Ok ([3; 4; 3; 4], None).
Proof. eexists. split; reflexivity. Qed.
