(* ===== verification/Filepath.v ===== *)
(** File paths: src/storage/{safe-path,file-paths}.go, with the functions of
    package path/filepath they use, for Unix.

    [Clean], [Join] and [Rel] are those of the standard library, working on the
    elements of a path.  What matters of a path is where it leads: its
    [cleanParts], whether it starts at the root and the elements that remain
    when [.], empty elements and [..] are worked out. *)
From stdpp Require Import base numbers list strings sets.
From Stdlib Require Import ZArith Lia Ascii.
From S2P Require Import Prelude.
Open Scope Z_scope.
#[local] Open Scope string_scope.
#[local] Open Scope list_scope.

Definition slash : ascii := "/"%char.

(** [strings.Split(s, "/")] and [strings.Join(elems, "/")]. *)
Fixpoint splitSlash (s : string) : list string :=
  match s with
  | EmptyString => [""]
  | String c s =>
      if Ascii.eqb c slash then "" :: splitSlash s
      else match splitSlash s with x :: xs => String c x :: xs | [] => [String c ""] end
  end.

Definition joinSlash (l : list string) : string := String.concat "/" l.

Definition isRooted (s : string) : bool := match s with String c _ => Ascii.eqb c slash | EmptyString => false end.

(** One element, with the elements so far, the last one first. *)
Definition cleanStep (rooted : bool) (out : list string) (c : string) : list string :=
  if bool_decide (c = "") || bool_decide (c = ".") then out
  else if bool_decide (c = "..") then
    match out with
    | t :: out' => if bool_decide (t = "..") then c :: out else out'
    | [] => if rooted then [] else [c]
    end
  else c :: out.

Definition cleanParts (p : string) : bool * list string :=
  (isRooted p, reverse (fold_left (cleanStep (isRooted p)) (splitSlash p) [])).

Definition printParts (rc : bool * list string) : string :=
  if rc.1 then String slash (joinSlash rc.2)
  else match rc.2 with [] => "." | l => joinSlash l end.

Definition filepath_Clean (p : string) : string := if bool_decide (p = "") then "." else printParts (cleanParts p).

Fixpoint filepath_Join (l : list string) : string :=
  match l with
  | [] => ""
  | e :: l' => if bool_decide (e = "") then filepath_Join l' else filepath_Clean (joinSlash l)
  end.

(** The elements of a cleaned path that [Rel] compares. *)
Definition relElems (s : string) : list string :=
  if bool_decide (s = "") then [] else if bool_decide (s = "/") then [""] else splitSlash s.

Fixpoint stripCommon (b t : list string) : list string * list string :=
  match b, t with
  | x :: b', y :: t' => if bool_decide (x = y) then stripCommon b' t' else (b, t)
  | _, _ => (b, t)
  end.

Definition filepath_Rel (basepath targpath : string) : option string :=
  let base := filepath_Clean basepath in
  let targ := filepath_Clean targpath in
  if bool_decide (targ = base) then Some "."
  else
    let base := if bool_decide (base = ".") then "" else base in
    if negb (bool_decide (isRooted base = isRooted targ)) then None
    else
      match stripCommon (relElems base) (relElems targ) with
      | (x :: b, t) =>
          if bool_decide (x = "..") && negb (bool_decide (t = [])) then None
          else Some (joinSlash (map (λ _, "..") (x :: b) ++ t))
      | ([], t) => Some (joinSlash t)
      end.

(** ** file-paths.go *)
Definition isSubFilepath (base sub : string) : bool :=
  match filepath_Rel base sub with
  | None => false
  | Some rel => negb (bool_decide (rel = "..")) && negb (String.prefix "../" rel)
  end.

(** ** safe-path.go *)
Definition firstComponent (filePath : string) : string := default "" (head (splitSlash filePath)).

Definition ToSafeFilePath (fileInfoComponents : list string) : option string :=
  let safeFilePath := filepath_Join (map filepath_Clean fileInfoComponents) in
  if bool_decide (firstComponent safeFilePath = "..") then None else Some safeFilePath.

(** ** Where a path leads *)
Fixpoint noSlash (s : string) : bool :=
  match s with EmptyString => true | String c s => negb (Ascii.eqb c slash) && noSlash s end.

(** [sub] lies in the directory [base] or is it. *)
Definition inside (base sub : string) : Prop :=
  (cleanParts sub).1 = (cleanParts base).1 ∧
  ∃ rest, (cleanParts sub).2 = (cleanParts base).2 ++ rest ∧ ".." ∉ rest.

Lemma splitSlash_ne s : splitSlash s ≠ [].
Proof. destruct s as [|c s]; [done|]. cbn. destruct (Ascii.eqb c slash); [done|]. by destruct (splitSlash s). Qed.

Lemma splitSlash_noSlash s : Forall (λ c, noSlash c = true) (splitSlash s).
Proof.
  induction s as [|c s IH]; cbn; [by repeat constructor|]. destruct (Ascii.eqb c slash) eqn:E; [by constructor|].
  destruct (splitSlash s); [repeat constructor; cbn; by rewrite E|]. apply Forall_cons in IH as [? ?].
  constructor; [cbn; by rewrite E|done].
Qed.

Lemma splitSlash_one c : noSlash c = true → splitSlash c = [c].
Proof.
  induction c as [|a c IH]; [done|]. cbn [splitSlash noSlash String.append]. intros [Ha Hc]%andb_true_iff.
  destruct (Ascii.eqb a slash); [done|]. by rewrite IH.
Qed.

Lemma splitSlash_app c s : noSlash c = true → splitSlash (c ++ String slash s)%string = c :: splitSlash s.
Proof.
  induction c as [|a c IH]; [done|]. change (String a c +:+ String slash s) with (String a (c +:+ String slash s)).
  cbn [splitSlash noSlash]. intros [Ha Hc]%andb_true_iff.
  destruct (Ascii.eqb a slash); [done|]. by rewrite IH.
Qed.

Lemma split_join l : l ≠ [] → Forall (λ c, noSlash c = true) l → splitSlash (joinSlash l) = l.
Proof.
  intros Hne Hl. induction Hl as [|c l Hc Hl IH]; [done|]. destruct l as [|d l].
  - by apply splitSlash_one.
  - etrans; [exact (splitSlash_app c (joinSlash (d :: l)) Hc)|]. by rewrite IH.
Qed.

(** ** Cleaned elements *)
Definition proper (c : string) : Prop := noSlash c = true ∧ c ≠ "" ∧ c ≠ ".".

(** The stack of elements, the last one first: proper elements, and [..] only
    at the bottom, if at all. *)
Fixpoint stackOk (rooted : bool) (out : list string) : Prop :=
  match out with
  | [] => True
  | c :: out => proper c ∧ stackOk rooted out ∧ (c = ".." → rooted = false ∧ Forall (λ d, d = "..") out)
  end.

Lemma cleanStep_ok r out c : noSlash c = true → stackOk r out → stackOk r (cleanStep r out c).
Proof.
  intros Hc Ho. unfold cleanStep. case_bool_decide as H1; [done|]. case_bool_decide as H2; [done|]. cbn [orb].
  case_bool_decide as H3.
  - subst c. destruct out as [|t out]; [by destruct r|]. destruct Ho as (Ht & Ho & Hdd). case_bool_decide as H4; [|done].
    subst t. cbn. destruct (Hdd eq_refl). split_and!; try done. intros _. split; [done|]. by constructor.
  - cbn. by split_and!.
Qed.

Lemma cleanFold_ok r cs out : Forall (λ c, noSlash c = true) cs → stackOk r out → stackOk r (fold_left (cleanStep r) cs out).
Proof. intros H. revert out. induction H as [|c cs Hc Hcs IH]; intros out Ho; [done|]. cbn. by apply IH, cleanStep_ok. Qed.

Lemma cleanParts_ok p : stackOk (cleanParts p).1 (reverse (cleanParts p).2).
Proof. unfold cleanParts. cbn [fst snd]. rewrite reverse_involutive. apply cleanFold_ok; [apply splitSlash_noSlash|done]. Qed.

(** Pushing elements that are clean already. *)
Lemma cleanStep_push r out c : stackOk r (c :: out) → cleanStep r out c = c :: out.
Proof.
  intros ((Hs & H1 & H2) & Ho & Hdd). unfold cleanStep. rewrite !bool_decide_false by done. cbn [orb].
  case_bool_decide as H3; [|done]. destruct (Hdd H3) as [-> Hf]. subst. destruct out as [|t out]; [done|].
  apply Forall_cons in Hf as [-> _]. done.
Qed.

Lemma cleanFold_push r cs : ∀ out, stackOk r (reverse cs ++ out) → fold_left (cleanStep r) cs out = reverse cs ++ out.
Proof.
  induction cs as [|c cs IH]; intros out Ho; [done|]. cbn [fold_left]. rewrite reverse_cons, <- app_assoc in *. cbn [app] in *.
  assert (Hc : stackOk r (c :: out)).
  { clear IH. induction (reverse cs) as [|d l IHl]; [done|]. destruct Ho as (_ & Ho & _). by apply IHl. }
  rewrite cleanStep_push by done. by apply IH.
Qed.

Lemma stackOk_proper r out : stackOk r out → Forall proper out.
Proof. induction out as [|c out IH]; [constructor|]. intros (? & ?%IH & _). by constructor. Qed.

Lemma stackOk_split r out : stackOk r out →
  ∃ k up, out = up ++ replicate k ".." ∧ ".." ∉ up ∧ (r = true → k = 0%nat).
Proof.
  induction out as [|c out IH]; intros Ho; [exists 0%nat, []; split_and!; [done|apply not_elem_of_nil|done]|]. destruct Ho as (Hc & Ho & Hdd).
  destruct (decide (c = "..")) as [->|Hne].
  - destruct (Hdd eq_refl) as [-> Hf]. exists (S (length out)), []. cbn. split_and!; [|apply not_elem_of_nil|done].
    f_equal. clear -Hf. induction Hf as [|? ? -> ? IH]; [done|]. cbn. by f_equal.
  - destruct (IH Ho) as (k & up & -> & Hup & Hr). exists k, (c :: up). split_and!; [done| |done]. set_solver.
Qed.

Lemma cleanParts_proper p : Forall proper (cleanParts p).2.
Proof. rewrite <- (reverse_involutive (cleanParts p).2). apply Forall_reverse, (stackOk_proper _ _ (cleanParts_ok p)). Qed.

(** Elements of a cleaned path: some [..] and then none. *)
Lemma cleanParts_dots p : ∃ k down, (cleanParts p).2 = replicate k ".." ++ down ∧ ".." ∉ down ∧ ((cleanParts p).1 = true → k = 0%nat).
Proof.
  destruct (stackOk_split _ _ (cleanParts_ok p)) as (k & up & He & Hup & Hr). exists k, (reverse up).
  rewrite <- (reverse_involutive (cleanParts p).2), He, reverse_app, reverse_replicate. split_and!; [done| |done].
  by rewrite elem_of_reverse.
Qed.

Lemma joinSlash_ne l : Forall proper l → joinSlash l = "" → l = [].
Proof. destruct l as [|c [|d l]]; [done|..]; intros ((_ & Hc & _) & _)%Forall_cons; [done|]. by destruct c. Qed.

Lemma joinSlash_rooted l : Forall proper l → isRooted (joinSlash l) = false.
Proof.
  destruct l as [|c l]; [done|]. intros ((Hs & Hc & _) & _)%Forall_cons. destruct c as [|a c]; [done|].
  cbn [noSlash] in Hs. apply andb_true_iff in Hs as [Ha _]. apply negb_true_iff in Ha. by destruct l.
Qed.

Lemma print_split rc : Forall proper rc.2 →
  isRooted (printParts rc) = rc.1 ∧
  splitSlash (printParts rc) = (if rc.1 then [""] else []) ++ match rc.2 with [] => if rc.1 then [""] else ["."] | l => l end.
Proof.
  destruct rc as [r cs]. unfold printParts. cbn [fst snd]. intros Hp.
  assert (Hns : Forall (λ c, noSlash c = true) cs) by (eapply Forall_impl; [exact Hp|]; by intros ? []).
  destruct r; [|destruct cs as [|c cs]; [done|split; [by apply joinSlash_rooted|by apply split_join]]].
  split; [done|]. cbn [splitSlash]. change (Ascii.eqb slash slash) with true. cbn. f_equal.
  destruct cs; [done|by apply split_join].
Qed.

(** Cleaning changes nothing about where a path leads. *)
Lemma cleanParts_print p : cleanParts (printParts (cleanParts p)) = cleanParts p.
Proof.
  destruct (print_split (cleanParts p) (cleanParts_proper p)) as [Hr Hs].
  transitivity ((cleanParts p).1, (cleanParts p).2); [|by destruct (cleanParts p)].
  unfold cleanParts at 1. rewrite Hr, Hs. f_equal.
  rewrite fold_left_app. replace (fold_left _ (if (cleanParts p).1 then [""] else []) []) with (@nil string) by by destruct (cleanParts p).1.
  pose proof (cleanParts_ok p) as Hok. destruct (cleanParts p).2 as [|c cs] eqn:E; [by destruct (cleanParts p).1|].
  rewrite cleanFold_push; rewrite app_nil_r; [by rewrite reverse_involutive|done].
Qed.

Lemma cleanParts_Clean p : cleanParts (filepath_Clean p) = cleanParts p.
Proof. unfold filepath_Clean. case_bool_decide as H; [by subst|apply cleanParts_print]. Qed.

Lemma Clean_print p : filepath_Clean p = printParts (cleanParts p).
Proof. unfold filepath_Clean. case_bool_decide as H; [by subst|done]. Qed.

Lemma printParts_inj p q : printParts (cleanParts p) = printParts (cleanParts q) → cleanParts p = cleanParts q.
Proof. intros H. by rewrite <- (cleanParts_print p), H, cleanParts_print. Qed.

(** ** [isSubFilepath] *)
Lemma stripCommon_spec b t : ∃ c, b = c ++ (stripCommon b t).1 ∧ t = c ++ (stripCommon b t).2 ∧
  match stripCommon b t with (x :: _, y :: _) => x ≠ y | _ => True end.
Proof.
  revert t. induction b as [|x b IH]; intros [|y t]; cbn; try by exists [].
  case_bool_decide as H; [|by exists []]. subst y. destruct (IH t) as (c & Hb & Ht & Hd). exists (x :: c). cbn. by rewrite <- Hb, <- Ht.
Qed.

(** What [isSubFilepath] tests of the relative path. *)
Definition escapes (rel : string) : bool := bool_decide (rel = "..") || String.prefix "../" rel.

Lemma prefix_spec s1 s2 : String.prefix s1 s2 = true ↔ ∃ r, s2 = (s1 ++ r)%string.
Proof.
  revert s2. induction s1 as [|a s1 IH]; intros s2; [split; [by exists s2|by destruct s2]|].
  destruct s2 as [|b s2]; [split; [done|by intros [r Hr]]|]. cbn [String.prefix].
  destruct (ascii_dec a b) as [->|Hne].
  - rewrite IH. split; intros [r Hr]; exists r; [by subst|by injection Hr].
  - split; [done|]. intros [r Hr]. by injection Hr.
Qed.

Lemma head_split_join c l : noSlash c = true → head (splitSlash (joinSlash (c :: l))) = Some c.
Proof.
  intros Hc. destruct l as [|d l]; [cbn [joinSlash String.concat]; by rewrite splitSlash_one|].
  change (joinSlash (c :: d :: l)) with (c ++ String slash (joinSlash (d :: l)))%string. by rewrite splitSlash_app.
Qed.

Lemma escapes_join c l : noSlash c = true → escapes (joinSlash (c :: l)) = bool_decide (c = "..").
Proof.
  intros Hc. pose proof (head_split_join c l Hc) as Hh. apply eq_bool_prop_intro. rewrite bool_decide_spec. unfold escapes.
  rewrite orb_True, bool_decide_spec, Is_true_true, prefix_spec. split.
  - intros [H|[r H]]; rewrite H in Hh; [by injection Hh|].
    change ("../" ++ r)%string with (".." ++ String slash r)%string in Hh. rewrite splitSlash_app in Hh by done. by injection Hh.
  - intros ->. destruct l as [|d l]; [by left|]. right. by exists (joinSlash (d :: l)).
Qed.

Lemma isSub_escapes base sub : isSubFilepath base sub = match filepath_Rel base sub with None => false | Some rel => negb (escapes rel) end.
Proof. unfold isSubFilepath, escapes. destruct (filepath_Rel base sub); [|done]. by rewrite negb_orb. Qed.

Definition rootElem (r : bool) : list string := if r then [""] else [].

Lemma relElems_print rc : Forall proper rc.2 → printParts rc ≠ "." →
  relElems (printParts rc) = rootElem rc.1 ++ rc.2.
Proof.
  intros Hp Hne. destruct (print_split rc Hp) as [Hr Hs]. unfold relElems. destruct rc as [[] cs]; cbn [fst snd rootElem] in *.
  - rewrite bool_decide_false by done. destruct cs as [|c cs]; [done|]. rewrite bool_decide_false; [done|].
    intros E. apply (f_equal splitSlash) in E. rewrite Hs in E. injection E as E _. subst. apply Forall_cons in Hp as [(_ & ? & _) _]. done.
  - destruct cs as [|c cs]; [done|]. rewrite !bool_decide_false; [done|intros E..]; rewrite E in Hs; cbn in Hs;
      injection Hs as <-; apply Forall_cons in Hp as [(? & ? & _) _]; done.
Qed.

Lemma relElems_base p : let c := filepath_Clean p in
  relElems (if bool_decide (c = ".") then "" else c) = rootElem (cleanParts p).1 ++ (cleanParts p).2 ∧
  isRooted (if bool_decide (c = ".") then "" else c) = (cleanParts p).1.
Proof.
  cbn zeta. rewrite Clean_print. pose proof (print_split _ (cleanParts_proper p)) as [Hr Hs].
  case_bool_decide as H; [|split; [by apply relElems_print; [apply cleanParts_proper|]|done]].
  pose proof (cleanParts_proper p) as Hp. destruct (cleanParts p) as [r cs]. cbn [fst snd] in *. rewrite H in Hr, Hs.
  change (isRooted ".") with false in Hr. subst r. change (splitSlash ".") with ["."] in Hs.
  destruct cs as [|c cs]; [done|]. cbn in Hs. simplify_eq Hs. by apply Forall_cons in Hp as [(_ & _ & ?) _].
Qed.

Lemma relElems_targ p : relElems (filepath_Clean p) =
  if bool_decide (cleanParts p = (false, [])) then ["."] else rootElem (cleanParts p).1 ++ (cleanParts p).2.
Proof.
  rewrite Clean_print. case_bool_decide as H; [by rewrite H|]. apply relElems_print; [apply cleanParts_proper|].
  intros E. apply H, (printParts_inj p ""). by rewrite E.
Qed.

Lemma dots_suffix k down cb y t : replicate k ".." ++ down = cb ++ y :: t → ".." ∉ down → y ≠ ".." → ".." ∉ y :: t.
Proof.
  revert cb. induction k as [|k IH]; intros cb H Hd Hy; cbn in H; [subst; set_solver|].
  destruct cb as [|z cb]; injection H as H1 H2; [by subst|]. by apply (IH cb).
Qed.

(** The relative path to something inside. *)
Lemma stripCommon_prefix b rest : stripCommon b (b ++ rest) = ([], rest).
Proof. induction b as [|x b IH]; [by destruct rest|]. cbn. by rewrite bool_decide_true. Qed.

Lemma isSub_inside base sub : isSubFilepath base sub = true ↔ inside base sub.
Proof.
  rewrite isSub_escapes. unfold filepath_Rel.
  destruct (relElems_base base) as [Hb Hrb]. rewrite Hb, Hrb, relElems_targ. clear Hb Hrb.
  assert (Hrt : isRooted (filepath_Clean sub) = (cleanParts sub).1).
  { rewrite Clean_print. apply print_split, cleanParts_proper. }
  rewrite Hrt. clear Hrt.
  case_bool_decide as Heq.
  { rewrite !Clean_print in Heq. apply printParts_inj in Heq. split; [|done]. intros _. unfold inside. rewrite Heq.
    split; [done|]. exists []. rewrite app_nil_r. split; [done|apply not_elem_of_nil]. }
  assert (Hne : cleanParts sub ≠ cleanParts base) by (intros E; apply Heq; by rewrite !Clean_print, E).
  unfold inside. destruct (cleanParts_dots sub) as (k & down & Hdots & Hdown & _).
  pose proof (cleanParts_proper sub) as Hps. pose proof (cleanParts_proper base) as Hpb.
  destruct (cleanParts base) as [rb cb], (cleanParts sub) as [rt ct]. cbn [fst snd] in *.
  case_bool_decide as Hr; cbn [negb]; [subst rt|split; [done|by intros [-> _]]].
  destruct (stripCommon_spec (rootElem rb ++ cb) (if bool_decide ((rb, ct) = (false, [])) then ["."] else rootElem rb ++ ct)) as (c & Hc1 & Hc2 & Hd).
  destruct (stripCommon _ _) as [B' T'] eqn:Hstrip. cbn [fst snd] in *. destruct B' as [|x b].
  - rewrite app_nil_r in Hc1. subst c. split.
    + intros Hesc. split; [done|]. exists T'. case_bool_decide as Hdot.
      * injection Hdot as -> ->. cbn in Hc2. destruct cb as [|z cb]; [done|]. injection Hc2 as <- _.
        by apply Forall_cons in Hpb as [(_ & _ & ?) _].
      * rewrite <- app_assoc in Hc2. apply app_inv_head in Hc2. split; [done|]. destruct T' as [|y t]; [apply not_elem_of_nil|].
        assert (Hy : noSlash y = true).
        { rewrite Hc2 in Hps. apply Forall_app in Hps as [_ [[? _] _]%Forall_cons]. done. }
        rewrite escapes_join in Hesc by done. eapply dots_suffix; [by rewrite <- Hdots|done|]. by case_bool_decide.
    + intros (_ & rest & -> & Hrest). destruct rest as [|y t]; [by rewrite app_nil_r in Hne|].
      rewrite bool_decide_false in Hstrip by (intros E; injection E as _ E; by destruct cb).
      rewrite app_assoc, stripCommon_prefix in Hstrip. injection Hstrip as <-. rewrite escapes_join.
      * rewrite bool_decide_false; [done|]. set_solver.
      * apply Forall_app in Hps as [_ [[? _] _]%Forall_cons]. done.
  - split.
    + destruct (_ && _); [done|]. cbn [map app]. by rewrite escapes_join.
    + intros (_ & rest & -> & Hrest). destruct rest as [|y t]; [by rewrite app_nil_r in Hne|].
      rewrite bool_decide_false in Hstrip by (intros E; injection E as _ E; by destruct cb).
      by rewrite app_assoc, stripCommon_prefix in Hstrip.
Qed.
