(* ===== verification/OpenTorrent.v ===== *)
(** Opening the storage of a torrent: [OpenTorrent] of src/storage/file.go and
    file-deprecated.go, [mMapTorrent] and [mmapFile] of src/storage/mmap.go.

    Here the names in a torrent's info become paths.  Mapping a file is the
    function [MapRegion] of the package mmap-go. *)
From stdpp Require Import base numbers list gmap strings.
From Stdlib Require Import ZArith Lia Ascii.
From S2P Require Import Prelude Metainfo Segments Visits Storage PieceStore Filepath.
#[local] Open Scope string_scope.
#[local] Open Scope list_scope.
Open Scope Z_scope.

(** [Hash.HexString]. *)
Definition hexDigit (z : Z) : ascii := ascii_of_nat (Z.to_nat (if z <? 10 then 48 + z else 87 + z)).

Fixpoint HexString (h : list Z) : string :=
  match h with
  | [] => ""
  | b :: h => String (hexDigit (b / 16)) (String (hexDigit (b mod 16)) (HexString h))
  end.

Definition NoName : string := "-".

(** ** file.go *)
Definition TorrentDirFilePathMaker : Type := string → Info → list Z → string.

Definition defaultPathMaker : TorrentDirFilePathMaker := λ baseDir _ _, baseDir.
Definition infoHashPathMaker : TorrentDirFilePathMaker := λ baseDir _ infoHash, filepath_Join [baseDir; HexString infoHash].

Record NewFileClientOpts : Type := mkFileOpts {
  ClientBaseDir : string;
  FilePathMaker : option (Info → FileInfo → string);
  TorrentDirMaker : option TorrentDirFilePathMaker }.

Record fileClientImpl : Type := mkFileClient {
  baseDir : string;
  filePathMaker : Info → FileInfo → string;
  torrentDirMaker : TorrentDirFilePathMaker }.

Definition NewFileOpts (opts : NewFileClientOpts) : fileClientImpl :=
  mkFileClient (ClientBaseDir opts)
    (default (λ info fi, filepath_Join ((if bool_decide (Name info = NoName) then [] else [Name info]) ++ fiPath fi))
       (FilePathMaker opts))
    (default defaultPathMaker (TorrentDirMaker opts)).

(** [os.Create]: an existing file is truncated. *)
Definition os_Create (fs : FS) (p : string) : result serr FS :=
  if decide (p ∈ fsBroken fs) then Bad (SOther p) else Good (mkFS (<[p := []]> (fsFiles fs)) (fsBroken fs) (fsUnstat fs)).

Inductive openErr : Type :=
| ErrNotSubPath (i : nat) (filePath dir : string)
| ErrEscapesRoot
| ErrIO (e : serr).

Fixpoint openFiles (cl : fileClientImpl) (info : Info) (dir : string) (fs : FS) (i : nat) (fis : list FileInfo) (acc : list file) :
    result openErr (FS * list file) :=
  match fis with
  | [] => Good (fs, acc)
  | fileInfo :: fis =>
      let filePath := filepath_Join [dir; filePathMaker cl info fileInfo] in
      if negb (isSubFilepath dir filePath) then Bad (ErrNotSubPath i filePath dir)
      else
        let f := mkFile filePath (fiLength fileInfo) in
        fs ← (if flength f =? 0 then
                match os_Create fs (path f) with Good fs => Good fs | Bad e => Bad (ErrIO e) end
              else Good fs);
        openFiles cl info dir fs (S i) fis (acc ++ [f])
  end.

Definition file_OpenTorrent (cl : fileClientImpl) (info : Info) (infoHash : list Z) (fs : FS) :
    result openErr (FS * fileTorrentImpl) :=
  let dir := torrentDirMaker cl (baseDir cl) info infoHash in
  '(fs, fls) ← openFiles cl info dir fs 0 (UpvertedFiles info) [];
  Good (fs, mkFileTorrent fls (NewIndex (LengthIterFromUpvertedFiles (UpvertedFiles info)))).

(** ** mmap.go *)
Class MMapLib : Type := {
  MapRegion : list Z → Z → result serr (list Z);
  MapRegion_ok c n : 0 < n ≤ lenZ c → MapRegion c n = Good (take (Z.to_nat n) c) }.

Section MMap.
Context `{!MMapLib}.

(** [mmapFile]: the file is created and grown to [size]; an empty file is not
    mapped. *)
Definition mmapFile (fs : FS) (name : string) (size : Z) : go (result openErr (FS * option (list Z))) :=
  match os_OpenFile fs name with
  | Bad e => Ok (Bad (ErrIO e))
  | Good fs =>
      let c := default [] (fsFiles fs !! name) in
      let c := if lenZ c <? size then c ++ replicate (Z.to_nat (size - lenZ c)) 0 else c in
      let fs := mkFS (<[name := c]> (fsFiles fs)) (fsBroken fs) (fsUnstat fs) in
      if size =? 0 then Ok (Good (fs, None))
      else
        match MapRegion c size with
        | Bad e => Ok (Bad (ErrIO e))
        | Good m => if negb (lenZ m =? size) then Panic "len(ret)" else Ok (Good (fs, Some m))
        end
  end.

Fixpoint mmapFiles (location : string) (md : Info) (fs : FS) (ms : MMapSpan) (fis : list FileInfo) :
    go (result openErr (FS * MMapSpan)) :=
  match fis with
  | [] => Ok (Good (fs, ms_InitIndex ms))
  | miFile :: fis =>
      match ToSafeFilePath (Name md :: fiPath miFile) with
      | None => Ok (Bad ErrEscapesRoot)
      | Some safeName =>
          let fileName := filepath_Join [location; safeName] in
          r ← mmapFile fs fileName (fiLength miFile);
          match r with
          | Bad e => Ok (Bad e)
          | Good (fs, mm) =>
              mmapFiles location md fs (match mm with Some m => ms_Append ms m | None => ms end) fis
          end
      end
  end.

Definition mMapTorrent (fs : FS) (md : Info) (location : string) : go (result openErr (FS * MMapSpan)) :=
  mmapFiles location md fs (mkSpan [] (NewIndex [])) (UpvertedFiles md).
End MMap.

(** ** Where the files are *)
Lemma openFiles_spec cl info dir fis : Forall (λ f, 0 ≤ fiLength f) fis → ∀ fs i acc fs' fls,
  openFiles cl info dir fs i fis acc = Good (fs', fls) →
  (∀ f, f ∈ acc → inside dir (path f) ∧ (flength f = 0 → is_Some (fsFiles fs !! path f) ∧ path f ∉ fsBroken fs)) →
  map flength fls = map flength acc ++ map fiLength fis ∧
  (∀ f, f ∈ fls → inside dir (path f) ∧ (flength f = 0 → is_Some (fsFiles fs' !! path f) ∧ path f ∉ fsBroken fs')).
Proof.
  induction 1 as [|fi fis Hfi Hfis IH]; intros fs i acc fs' fls H Hacc; cbn [openFiles] in H.
  { injection H as <- <-. by rewrite app_nil_r. }
  destruct (isSubFilepath dir _) eqn:Hsub; [|done]. cbn [negb flength path] in H. apply isSub_inside in Hsub.
  set (p := filepath_Join [dir; filePathMaker cl info fi]) in *.
  destruct (fiLength fi =? 0) eqn:Hz.
  - unfold os_Create in H. destruct (decide (p ∈ fsBroken fs)) as [|Hnb]; [done|]. cbn [mbind result_bind] in H.
    apply IH in H as [Hl Hf].
    + split; [|done]. rewrite Hl, map_app, <- app_assoc. done.
    + intros f [Hf|Hf]%elem_of_app; cbn [fsFiles fsBroken].
      * destruct (Hacc f Hf) as [? Hex]. split; [done|]. intros [? ?]%Hex. split; [|done].
        destruct (decide (p = path f)) as [->|]; [by rewrite lookup_insert_eq|by rewrite lookup_insert_ne].
      * apply list_elem_of_singleton in Hf as ->. cbn. split; [done|]. intros _. by rewrite lookup_insert_eq.
  - cbn [mbind result_bind] in H. apply IH in H as [Hl Hf].
    + split; [|done]. rewrite Hl, map_app, <- app_assoc. done.
    + intros f [Hf|Hf]%elem_of_app; [by apply Hacc|]. apply list_elem_of_singleton in Hf as ->. cbn.
      split; [done|]. apply Z.eqb_neq in Hz. lia.
Qed.

(** C23.  Whatever names a torrent has and whatever makes paths of them, the
    files that [OpenTorrent] of the file storage uses lie in the torrent's
    directory, have the lengths of the info, and the empty ones exist: the
    storage is in order for reading. *)
Theorem file_OpenTorrent_confined cl info infoHash fs fs' fts :
  Forall (λ f, 0 ≤ fiLength f) (UpvertedFiles info) → Zsum (map fiLength (UpvertedFiles info)) < 2 ^ 63 →
  file_OpenTorrent cl info infoHash fs = Good (fs', fts) →
  filesOk fts fs' ∧ map flength (files fts) = map fiLength (UpvertedFiles info) ∧
  ∀ f, f ∈ files fts → inside (torrentDirMaker cl (baseDir cl) info infoHash) (path f).
Proof.
  intros Hpos Hsum H. unfold file_OpenTorrent in H. destruct (openFiles _ _ _ _ _ _ _) as [[fs1 fls]|] eqn:Ho; [|done].
  injection H as <- <-. apply openFiles_spec in Ho as [Hl Hf]; [|done|intros f Hf; by apply elem_of_nil in Hf]. cbn in Hl.
  split; [|split; [done|intros f Hin; by apply Hf]]. split; cbn [files segmentLocater].
  - rewrite Hl. done.
  - apply (proj1 (Forall_map flength (λ l, 0 ≤ l) fls)). rewrite Hl. by apply Forall_map.
  - by rewrite Hl.
  - intros f Hin. by apply Hf.
Qed.

(** The maps that [mMapTorrent] makes: together as long as the torrent. *)
Lemma mmapFiles_spec `{!MMapLib} location md fis : Forall (λ f, 0 ≤ fiLength f) fis → ∀ fs ms fs' ms',
  mmapFiles location md fs ms fis = Ok (Good (fs', ms')) →
  spanLocater ms' = NewIndex (map lenZ (mMaps ms')) ∧ lenZ (msBytes ms') = lenZ (msBytes ms) + Zsum (map fiLength fis).
Proof.
  induction 1 as [|fi fis Hfi _ IH]; intros fs ms fs' ms' Hm; cbn [mmapFiles map] in *.
  { injection Hm as <- <-. cbn. split; [done|]. unfold msBytes. cbn. lia. }
  change (Zsum (fiLength fi :: map fiLength fis)) with (fiLength fi + Zsum (map fiLength fis)).
  destruct (ToSafeFilePath _) as [safe|]; [|done]. unfold mmapFile in Hm. destruct (os_OpenFile _ _) as [fs1|]; [|done].
  destruct (Z.eqb_spec (fiLength fi) 0) as [Hz|Hz]; cbn [mbind go_bind] in Hm.
  - apply IH in Hm as [? ->]. split; [done|]. lia.
  - destruct (MapRegion _ _) as [m|]; [|done]. destruct (Z.eqb_spec (lenZ m) (fiLength fi)); [|done]. cbn [negb mbind go_bind] in Hm.
    apply IH in Hm as [? ->]. split; [done|]. unfold msBytes, ms_Append. cbn [mMaps]. rewrite concat_app, lenZ_app. cbn. rewrite app_nil_r. lia.
Qed.

(** Memory mapped storage that was opened is in order, and as long as the
    torrent. *)
Theorem mMapTorrent_ok `{!MMapLib} fs md location fs' ms :
  Forall (λ f, 0 ≤ fiLength f) (UpvertedFiles md) → Zsum (map fiLength (UpvertedFiles md)) < 2 ^ 63 →
  mMapTorrent fs md location = Ok (Good (fs', ms)) → msOk ms ∧ lenZ (msBytes ms) = TotalLength md.
Proof.
  intros Hpos Hsum Hopen. apply mmapFiles_spec in Hopen as [Hi Hl]; [|done]. change (lenZ (msBytes (mkSpan [] (NewIndex [])))) with 0 in Hl.
  rewrite TotalLength_Zsum by (done || by apply Forall_map). split; [split; [done|lia]|lia].
Qed.

(** ** Paths of memory mapped files *)
Lemma splitSlash_join2 a b : splitSlash (a ++ String slash b)%string = splitSlash a ++ splitSlash b.
Proof.
  induction a as [|c a IH]; [done|]. change (String c a ++ String slash b)%string with (String c (a ++ String slash b))%string.
  cbn [splitSlash]. destruct (Ascii.eqb c slash); [by rewrite IH|]. rewrite IH.
  destruct (splitSlash a) as [|x xs] eqn:E; [by apply splitSlash_ne in E|done].
Qed.

Lemma isRooted_app a b : a ≠ "" → isRooted (a ++ b)%string = isRooted a.
Proof. by destruct a. Qed.

(** Elements without [..] only go down. *)
Lemma cleanFold_down r cs : ∀ out, Forall proper cs → ".." ∉ cs → fold_left (cleanStep r) cs out = reverse cs ++ out.
Proof.
  induction cs as [|c cs IH]; intros out Hp Hn; [done|]. apply Forall_cons in Hp as [(_ & H1 & H2) Hp].
  apply not_elem_of_cons in Hn as [Hc Hn]. cbn [fold_left]. unfold cleanStep at 2.
  rewrite !bool_decide_false by done. cbn [orb]. rewrite IH by done. by rewrite reverse_cons, <- app_assoc.
Qed.

Lemma Join_inside location q : location ≠ "" → ".." ∉ (cleanParts q).2 → q = filepath_Clean q →
  inside location (filepath_Join [location; q]).
Proof.
  intros Hl Hn Hq. cbn [filepath_Join]. rewrite bool_decide_false by done. unfold inside. rewrite cleanParts_Clean.
  change (joinSlash [location; q]) with (location ++ String slash q)%string.
  unfold cleanParts at 1 3. cbn [fst snd]. rewrite isRooted_app, splitSlash_join2, fold_left_app by done. split; [done|].
  rewrite Hq, Clean_print. destruct (print_split _ (cleanParts_proper q)) as [_ ->].
  exists (cleanParts q).2. split; [|done]. rewrite fold_left_app. set (out := fold_left _ (splitSlash location) []).
  replace (fold_left _ (if (cleanParts q).1 then [""] else []) out) with out by by destruct (cleanParts q).1.
  pose proof (cleanParts_proper q) as Hp. change (cleanParts location).2 with (reverse out).
  destruct (cleanParts q).2 as [|c cs] eqn:E; [rewrite app_nil_r; by destruct (cleanParts q).1|].
  by rewrite cleanFold_down, reverse_app, reverse_involutive.
Qed.

Lemma Join_clean l : filepath_Join l = "" ∨ filepath_Clean (filepath_Join l) = filepath_Join l.
Proof.
  induction l as [|e l IH]; [by left|]. cbn [filepath_Join]. case_bool_decide; [done|]. right.
  by rewrite (Clean_print (filepath_Clean _)), cleanParts_Clean, <- Clean_print.
Qed.

Lemma Clean_ne p : filepath_Clean p ≠ "".
Proof.
  rewrite Clean_print. pose proof (cleanParts_proper p) as Hp. destruct (cleanParts p) as [[] [|c cs]]; [done..|].
  unfold printParts. cbn [fst snd] in *. intros E%joinSlash_ne; done.
Qed.

Lemma Join_ne comps : comps ≠ [] → filepath_Join (map filepath_Clean comps) ≠ "".
Proof.
  destruct comps as [|c cs]; [done|]. intros _. cbn [map filepath_Join]. rewrite bool_decide_false by apply Clean_ne. apply Clean_ne.
Qed.

(** A cleaned path whose first element is not [..] has none. *)
Lemma firstComponent_down q : q = filepath_Clean q → firstComponent q ≠ ".." → ".." ∉ (cleanParts q).2.
Proof.
  intros Hq Hf. destruct (cleanParts_dots q) as (k & down & Hd & Hn & Hr). rewrite Hd.
  destruct k as [|k]; [done|]. exfalso. apply Hf. unfold firstComponent. rewrite Hq, Clean_print.
  destruct (print_split _ (cleanParts_proper q)) as [_ ->]. destruct (cleanParts q).1; [by specialize (Hr eq_refl)|]. by rewrite Hd.
Qed.

(** With a base directory, the path that memory mapped storage uses for a
    file lies in it, whatever names the torrent has. *)
Theorem mmap_paths_confined location comps safeName :
  location ≠ "" → comps ≠ [] → ToSafeFilePath comps = Some safeName →
  inside location (filepath_Join [location; safeName]).
Proof.
  unfold ToSafeFilePath. intros Hl Hc H. case_bool_decide as Hf; [done|]. injection H as <-.
  destruct (Join_clean (map filepath_Clean comps)) as [E|E]; [by apply Join_ne in E|]. apply Join_inside; [done| |done]. by apply firstComponent_down.
Qed.

Lemma mmap_paths_confined_witness :
  ToSafeFilePath ["a/../b"; "c"] = Some "b/c" ∧ inside "/data" (filepath_Join ["/data"; "b/c"]).
Proof. split; [done|]. apply (mmap_paths_confined "/data" ["a/../b"; "c"] "b/c"); done. Defined.

(** Without one, as the command line program opens it, a torrent with a rooted
    name is mapped outside of the working directory. *)
Example mmap_rooted_escapes :
  ToSafeFilePath ["/etc"; "passwd"] = Some "/etc/passwd" ∧ filepath_Join [""; "/etc/passwd"] = "/etc/passwd" ∧
  ¬ inside "" (filepath_Join [""; "/etc/passwd"]).
Proof. split_and!; [done|done|]. intros [H _]. done. Qed.

Lemma file_OpenTorrent_confined_witness :
  let cl := NewFileOpts (mkFileOpts "/data" None None) in
  let r := file_OpenTorrent cl StorageExample.info [] (mkFS ∅ ∅ ∅) in
  ∃ fs' fts, r = Good (fs', fts) ∧ filesOk fts fs' ∧
    map flength (files fts) = map fiLength (UpvertedFiles StorageExample.info) ∧
    ∀ f, f ∈ files fts → inside "/data" (path f).
Proof.
  intros cl r. eexists _, _. split; [reflexivity|].
  apply (file_OpenTorrent_confined cl StorageExample.info [] (mkFS ∅ ∅ ∅)); [repeat constructor; done|done|done].
Defined.
