(* ===== verification/Reader.v ===== *)
(** Readers of torrent data: src/reader.go, the functions of src/torrent.go and
    src/t.go that keep the pieces readers want, and [File.NewReader].

    A reader looks at the torrent at certain moments.  [TView] is what it sees:
    the completed pieces and the chunks there are; [torrentView] is that view of
    a torrent of Swarm.v.  Waiting is a loop over observations: each gives the
    view at a turn of the loop and what the [select] answers if the reader has
    to wait.  The priorities of pieces are updated through [rtUpdated], the
    list of pieces for which [updatePiecePriority] is called. *)
From stdpp Require Import base numbers list gmap strings.
From Stdlib Require Import ZArith Lia.
From S2P Require Import Prelude Metainfo Geometry SwarmState Swarm Storage PieceStore.
Open Scope Z_scope.

Record TView : Type := mkView { tvComplete : Z → bool; tvHave : Req → bool }.

Definition torrentView (s : Swarm) : TView := mkView (pieceComplete s) (haveChunk s).

Record reader : Type := mkReader {
  rOffset : Z;
  rdLength : Z;
  readaheadFunc : option (Z → Z → Z)  (** of ContiguousReadStartPos and CurrentPos *);
  readahead : Z;
  pos : Z;
  contiguousReadStartPos : Z;
  rPieces : Z * Z;
  reading : bool;
  responsive : bool }.

Definition set_pos (r : reader) (p : Z) : reader :=
  mkReader (rOffset r) (rdLength r) (readaheadFunc r) (readahead r) p (contiguousReadStartPos r) (rPieces r) (reading r) (responsive r).
Definition set_contiguous (r : reader) (p : Z) : reader :=
  mkReader (rOffset r) (rdLength r) (readaheadFunc r) (readahead r) (pos r) p (rPieces r) (reading r) (responsive r).
Definition set_pieces (r : reader) (p : Z * Z) : reader :=
  mkReader (rOffset r) (rdLength r) (readaheadFunc r) (readahead r) (pos r) (contiguousReadStartPos r) p (reading r) (responsive r).
Definition set_reading (r : reader) (b : bool) : reader :=
  mkReader (rOffset r) (rdLength r) (readaheadFunc r) (readahead r) (pos r) (contiguousReadStartPos r) (rPieces r) b (responsive r).
Definition set_responsive (r : reader) (b : bool) : reader :=
  mkReader (rOffset r) (rdLength r) (readaheadFunc r) (readahead r) (pos r) (contiguousReadStartPos r) (rPieces r) (reading r) b.
Definition set_readahead (r : reader) (f : option (Z → Z → Z)) (ra : Z) : reader :=
  mkReader (rOffset r) (rdLength r) f ra (pos r) (contiguousReadStartPos r) (rPieces r) (reading r) (responsive r).

Definition defaultReadaheadFunc (contiguous current : Z) : Z := i64 (current - contiguous).

(** ** How much can be read *)
Section Torrent.
Context (g : Geo).

Definition availDone (max ret : Z) : Z := if max <? 0 then i64 (ret + max) else ret.

Fixpoint availLoop (fuel : nat) (v : TView) (resp : bool) (off max ret : Z) : go Z :=
  if 0 <? max then
    match fuel with
    | O => Panic "out of fuel"
    | S fuel =>
        match offsetRequest g off with
        | None => Ok (availDone max ret)
        | Some req =>
            if negb resp && negb (tvComplete v (rIndex req)) then Ok (availDone max ret)
            else if negb (tvHave v req) then Ok (availDone max ret)
            else
              ro ← requestOffset g req;
              let len1 := i64 (rLength req - i64 (off - ro)) in
              availLoop fuel v resp (i64 (off + len1)) (i64 (max - len1)) (i64 (ret + len1))
        end
    end
  else Ok (availDone max ret).

Definition available (r : reader) (v : TView) (off max : Z) : go Z :=
  availLoop (Z.to_nat max) v (responsive r) (i64 (off + rOffset r)) max 0.

Definition torrentOffset (r : reader) (readerPos : Z) : Z := i64 (rOffset r + readerPos).

(** ** The pieces a reader wants *)
Definition piecesUncached (r : reader) : Z * Z :=
  let ra := match readaheadFunc r with Some f => f (contiguousReadStartPos r) (pos r) | None => readahead r end in
  let ra := if ra <? 1 then 1 else ra in
  let ra := if negb (reading r) then 0 else ra in
  let ra := if i64 (rdLength r - pos r) <? ra then i64 (rdLength r - pos r) else ra in
  byteRegionPieces g (torrentOffset r (pos r)) ra.

(** The torrent's side: its readers, the sets derived from them and the pieces
    whose priority has been updated. *)
Record RT : Type := mkRT {
  rtReaders : gmap nat reader;
  rtNow : gset Z;
  rtReadahead : gset Z;
  rtUpdated : list Z }.

(** [readerPiecePriorities] over [forReaderOffsetPieces]. *)
Definition windowNow (r : reader) : gset Z :=
  let '(b, e) := rPieces r in if e <=? b then ∅ else {[ b ]}.
Definition windowReadahead (r : reader) : gset Z :=
  let '(b, e) := rPieces r in if e <=? b then ∅ else list_to_set (seqZ (b + 1) (e - (b + 1))).

Definition readerPiecePriorities (rs : gmap nat reader) : gset Z * gset Z :=
  map_fold (λ _ r acc, (windowNow r ∪ acc.1, windowReadahead r ∪ acc.2)) (∅, ∅) rs.

Definition updateReaderPieces (t : RT) : RT :=
  let '(now, ra) := readerPiecePriorities (rtReaders t) in
  mkRT (rtReaders t) now ra (rtUpdated t).

(** [updatePiecePriorities]. *)
Definition rtUpdate (t : RT) (begin end_ : Z) : RT :=
  mkRT (rtReaders t) (rtNow t) (rtReadahead t) (rtUpdated t ++ seqZ begin (end_ - begin)).

Definition readersChanged (t : RT) : RT := rtUpdate (updateReaderPieces t) 0 (numPieces g).

Definition readerPosChanged (t : RT) (from to : Z * Z) : RT :=
  if bool_decide (from = to) then t
  else
    let t := updateReaderPieces t in
    let '(l, h) := if to.1 <? from.1 then (to, from) else (from, to) in
    if l.2 <? h.1 then rtUpdate (rtUpdate t l.1 l.2) h.1 h.2
    else rtUpdate t l.1 (if l.2 <? h.2 then h.2 else l.2).

(** The reader lives in its own object; [rtReaders] holds it as long as it is
    registered. *)
Definition storeReader (t : RT) (id : nat) (r : reader) : RT :=
  mkRT (match rtReaders t !! id with Some _ => <[id := r]> (rtReaders t) | None => rtReaders t end)
    (rtNow t) (rtReadahead t) (rtUpdated t).

Definition posChanged (t : RT) (id : nat) (r : reader) : RT * reader :=
  let to := piecesUncached r in
  let from := rPieces r in
  if bool_decide (to = from) then (storeReader t id r, r)
  else
    let r := set_pieces r to in
    (readerPosChanged (storeReader t id r) from to, r).

Definition newReader (t : RT) (id : nat) (offset len : Z) : RT * reader :=
  let r := mkReader offset len (Some defaultReadaheadFunc) 0 0 0 (0, 0) false false in
  posChanged (mkRT (<[id := r]> (rtReaders t)) (rtNow t) (rtReadahead t) (rtUpdated t)) id r.

Definition NewReader (t : RT) (id : nat) : RT * reader := newReader t id 0 (glength g).
Definition File_NewReader (t : RT) (id : nat) (f : File) : RT * reader := newReader t id (fOffset f) (fLength f).

Definition rd_SetResponsive (t : RT) (id : nat) (r : reader) : RT * reader :=
  let r := set_responsive r true in (storeReader t id r, r).
Definition rd_SetNonResponsive (t : RT) (id : nat) (r : reader) : RT * reader :=
  let r := set_responsive r false in (storeReader t id r, r).
Definition SetReadahead (t : RT) (id : nat) (r : reader) (ra : Z) : RT * reader := posChanged t id (set_readahead r None ra).
Definition SetReadaheadFunc (t : RT) (id : nat) (r : reader) (f : option (Z → Z → Z)) : RT * reader :=
  posChanged t id (set_readahead r f (readahead r)).

Inductive Whence : Type := SeekStart | SeekCurrent | SeekEnd | BadWhence.

(** The new position, or an error for a bad whence. *)
Definition Seek (t : RT) (id : nat) (r : reader) (off : Z) (whence : Whence) : RT * reader * option Z :=
  match (match whence with
         | SeekStart => Some off
         | SeekCurrent => Some (i64 (pos r + off))
         | SeekEnd => Some (i64 (rdLength r + off))
         | BadWhence => None
         end) with
  | None => (t, r, None)
  | Some newPos =>
      if newPos =? pos r then (t, r, Some newPos)
      else
        let '(t, r) := posChanged t id (set_contiguous (set_pos (set_reading r false) newPos) newPos) in
        (t, r, Some newPos)
  end.

Definition rd_Close (t : RT) (id : nat) : RT :=
  readersChanged (mkRT (delete id (rtReaders t)) (rtNow t) (rtReadahead t) (rtUpdated t)).

(** ** Reading *)
Inductive rerr : Type :=
| REOF
| RErrUnexpectedEOF
| RClosed
| RCtx
| RDisallowed
| RNetworkingDisabled
| RStorage (e : option serr).

#[export] Instance rerr_eq_dec : EqDecision rerr.
Proof. solve_decision. Defined.

(** What the [select] of [waitAvailable] answers. *)
Inductive wake : Type := WClosed | WCtx | WDisallowed | WNetworkingOff | WDontWait | WCond.

Record Obs : Type := mkObs {
  obView : TView;
  obWake : wake;
  obReadAt : Z → Z → go (list Z * option serr)  (** [t.readAt] *);
  obClosed : bool }.

(** [None]: the reader is still waiting. *)
Fixpoint waitAvailable (r : reader) (pos wanted : Z) (wait : bool) (obs : list Obs) (err : option rerr) :
    go (option (Z * option rerr * Obs * list Obs)) :=
  match obs with
  | [] => Ok None
  | o :: obs =>
      avail ← available r (obView o) pos wanted;
      let i := Z.quot (i64 (rOffset r + pos)) (PieceLength (ginfo g)) in
      if negb ((0 <=? i) && (i <? numPieces g)) then Panic "index out of range"
      else if negb (avail =? 0) then Ok (Some (avail, err, o, obs))
      else
        match obWake o with
        | WClosed => Ok (Some (0, Some RClosed, o, obs))
        | WCtx => Ok (Some (0, Some RCtx, o, obs))
        | WDisallowed => waitAvailable r pos wanted wait obs (Some RDisallowed)
        | WNetworkingOff => Ok (Some (0, Some RNetworkingDisabled, o, obs))
        | WDontWait => if negb wait || (wanted =? 0) then Ok (Some (0, err, o, obs)) else Ok None
        | WCond => waitAvailable r pos wanted wait obs err
        end
  end.

(** The pieces whose completion is checked again when a read has failed. *)
Definition recheck (r : reader) (first : Z) : go (list Z) :=
  if negb (fst (rPieces r) =? first) then Panic "r.pieces.begin"
  else Ok (first :: seqZ (fst (rPieces r) + 1) (snd (rPieces r) - (fst (rPieces r) + 1))).

(** [readOnceAt], with the pieces it rechecks; [limitLen] is
    [missinggo.LimitLen]. *)
Fixpoint readOnceLoop (fuel : nat) (limitLen : Z → Z → Z) (r : reader) (blen pos : Z) (obs : list Obs) (checked : list Z) :
    go (option (list Z * option rerr * list Z)) :=
  match fuel with
  | O => Ok None
  | S fuel =>
      w ← waitAvailable r pos blen true obs None;
      match w with
      | None => Ok None
      | Some (avail, err, o, obs) =>
          if avail =? 0 then Ok (Some ([], err, checked))
          else
            let first := Z.quot (torrentOffset r pos) (PieceLength (ginfo g)) in
            '(d, err) ← obReadAt o (limitLen blen avail) (torrentOffset r pos);
            if negb (lenZ d =? 0) then Ok (Some (d, None, checked))
            else if obClosed o then Ok (Some (d, Some (RStorage err), checked))
            else
              ps ← recheck r first;
              readOnceLoop fuel limitLen r blen pos obs (checked ++ ps)
      end
  end.

Definition readOnceAt (limitLen : Z → Z → Z) (r : reader) (blen pos : Z) (obs : list Obs) :
    go (option (list Z * option rerr * list Z)) :=
  if rdLength r <=? pos then Ok (Some ([], Some REOF, []))
  else readOnceLoop (S (length obs)) limitLen r blen pos obs [].

(** [ReadContext] with a buffer of [blen] bytes. *)
Definition ReadContext (limitLen : Z → Z → Z) (t : RT) (id : nat) (r : reader) (blen : Z) (obs : list Obs) :
    go (option (RT * reader * list Z * option rerr)) :=
  let '(t, r) := if 0 <? blen then posChanged t id (set_reading r true) else (t, r) in
  res ← readOnceAt limitLen r blen (pos r) obs;
  match res with
  | None => Ok None
  | Some (d, err, _) =>
      if lenZ d =? 0 then
        if bool_decide (err = None) && (0 <? blen) then Panic "expected error"
        else Ok (Some (t, r, d, err))
      else
        let '(t, r) := posChanged t id (set_pos r (i64 (pos r + lenZ d))) in
        Ok (Some (t, r, d, if rdLength r <=? pos r then Some REOF
                            else if bool_decide (err = Some REOF) then Some RErrUnexpectedEOF else err))
  end.
End Torrent.

(** ** What is available *)
Section Available.
Context (g : Geo) (Hg : geo_ok g).
#[local] Notation pl := (PieceLength (ginfo g)).
#[local] Notation cs := (chunkSize g).

(** A byte of the torrent that a reader may deliver. *)
Definition byteThere (v : TView) (resp : bool) (x : Z) : bool :=
  match offsetRequest g x with
  | None => false
  | Some req => (resp || tvComplete v (rIndex req)) && tvHave v req
  end.

(** The request of an offset is the request of all the bytes of its chunk. *)
Lemma offsetRequest_chunk off : 0 ≤ off < glength g →
  ∃ req ro, offsetRequest g off = Some req ∧ requestOffset g req = Ok ro ∧
    0 ≤ ro ≤ off ∧ off < ro + rLength req ∧ ro + rLength req ≤ glength g ∧
    ∀ x, ro ≤ x < ro + rLength req → offsetRequest g x = Some req.
Proof using Hg.
  assert (Hcover : ∀ off, 0 ≤ off < glength g → ∃ i c req, 0 ≤ i < numPieces g ∧ 0 ≤ c < pieceNumChunks g i ∧
    req = requestIndexToRequest g (pieceRequestIndexOffset g i + c) ∧ offsetRequest g off = Some req ∧
    requestOffset g req = Ok (i * pl + c * cs) ∧ i * pl + c * cs ≤ off < i * pl + c * cs + rLength req ∧
    0 ≤ c * cs ∧ rLength req ≤ cs ∧ c * cs + rLength req ≤ pl ∧ i * pl + c * cs + rLength req ≤ glength g).
  { clear off. intros off Ho. destruct (offsetRequest_covers g Hg off Ho) as (i & c & Hi & Hc & Hr & Hro & Hin).
    cbn zeta in *. exists i, c, (requestIndexToRequest g (pieceRequestIndexOffset g i + c)).
    assert (Hl : 0 ≤ c * cs ∧ rLength (requestIndexToRequest g (pieceRequestIndexOffset g i + c)) = Z.min cs (pieceLength g i - c * cs) ∧
      c * cs < pieceLength g i).
    { destruct (requestIndex_convert g Hg i c Hi Hc) as (_ & _ & -> & _ & _).
      destruct (chunkIndexSpec_eq g Hg i c Hi Hc) as [-> ?]. cbn [rChunk csLength]. lia. }
    pose proof (pieceLength_min g Hg i Hi). split_and!; try done; lia. }
  intros Ho. destruct (Hcover off Ho) as (i & c & req & Hi & Hc & Hreq & Hr & Hro & Hin & H0 & Hl1 & Hl2 & Hl3).
  pose proof (io_pl _ (go_info g Hg)) as Hpl. pose proof (go_chunk g Hg) as Hcs.
  exists req, (i * pl + c * cs). split_and!; [done|done|nia|lia|lia|lia|].
  intros x Hx. destruct (Hcover x ltac:(nia)) as (i' & c' & req' & Hi' & Hc' & Hreq' & Hr' & _ & Hin' & H0' & Hl1' & Hl2' & _).
  assert (i = i').
  { transitivity (x / pl); [apply (Z.div_unique x pl i (x - i * pl)); [left|]; lia|
      symmetry; apply (Z.div_unique x pl i' (x - i' * pl)); [left|]; lia]. }
  subst i'. assert (c = c').
  { transitivity ((x - i * pl) / cs); [apply (Z.div_unique _ cs c (x - i * pl - c * cs)); [left|]; lia|
      symmetry; apply (Z.div_unique _ cs c' (x - i * pl - c' * cs)); [left|]; lia]. }
  subst c'. rewrite Hr'. by subst.
Qed.

Lemma offsetRequest_out off : off < 0 ∨ glength g ≤ off → offsetRequest g off = None.
Proof.
  intros H. unfold offsetRequest, torrentOffsetRequest.
  destruct (Z.ltb_spec off 0), (Z.leb_spec (glength g) off); cbn; done || lia.
Qed.

Lemma byteThere_chunk v resp off req ro : (∀ x, ro ≤ x < ro + rLength req → offsetRequest g x = Some req) → ∀ x, ro ≤ x < ro + rLength req → ro ≤ off < ro + rLength req →
  byteThere v resp x = byteThere v resp off.
Proof. intros H x Hx Ho. unfold byteThere. by rewrite !H. Qed.

Lemma availLoop_spec v resp fuel : ∀ off max ret,
  0 ≤ off → 0 ≤ ret → max + ret < 2 ^ 62 → - 2 ^ 62 ≤ max → off ≤ 2 ^ 62 →
  (0 < max → off ≤ glength g) → glength g < 2 ^ 62 → (Z.to_nat max ≤ fuel)%nat →
  (max ≤ 0 → - max ≤ ret) →
  ∃ n, availLoop g fuel v resp off max ret = Ok (ret + n) ∧ (max ≤ 0 → n = Z.min 0 max) ∧
    (0 < max → 0 ≤ n ≤ max ∧ (∀ k, 0 ≤ k < n → byteThere v resp (off + k) = true) ∧
                (n < max → byteThere v resp (off + n) = false)).
Proof using Hg.
  induction fuel as [|fuel IH]; intros off max ret Ho Hret Hmr Hmax Hoff Hlen Hg62 Hf Hneg; cbn [availLoop].
  { rewrite (proj2 (Z.ltb_ge 0 max)) by lia. exists (Z.min 0 max). unfold availDone. split_and!; [|done|lia].
    destruct (Z.ltb_spec max 0); [rewrite i64_small by lia|]; f_equal; lia. }
  destruct (Z.ltb_spec 0 max) as [Hpos|Hnpos].
  2:{ exists (Z.min 0 max). unfold availDone. split_and!; [|done|lia].
      destruct (Z.ltb_spec max 0); [rewrite i64_small by lia|]; f_equal; lia. }
  assert (Hstop : byteThere v resp off = false → ∃ n, Ok (availDone max ret) = Ok (ret + n) ∧ (max ≤ 0 → n = Z.min 0 max) ∧
    (0 < max → 0 ≤ n ≤ max ∧ (∀ k, 0 ≤ k < n → byteThere v resp (off + k) = true) ∧ (n < max → byteThere v resp (off + n) = false))).
  { intros Hb. exists 0. unfold availDone. rewrite (proj2 (Z.ltb_ge max 0)) by lia. rewrite Z.add_0_r. split_and!; [done|lia|].
    intros _. split_and!; [lia..|]. intros _. by rewrite Z.add_0_r. }
  destruct (Z.le_gt_cases (glength g) off) as [Hend|Hin].
  { assert (Hb : byteThere v resp off = false) by (unfold byteThere; by rewrite offsetRequest_out by (by right)).
    rewrite offsetRequest_out by (by right). by apply Hstop. }
  destruct (offsetRequest_chunk off ltac:(lia)) as (req & ro & Hr & Hro & Hr0 & Hr1 & Hr2 & Hsame).
  rewrite Hr. unfold byteThere in Hstop. rewrite Hr in Hstop. rewrite <- negb_orb.
  destruct (resp || tvComplete v (rIndex req)) eqn:Hc; cbn [negb andb] in *; [|by apply Hstop].
  destruct (tvHave v req) eqn:Hh; cbn [negb andb] in *; [|by apply Hstop]. clear Hstop.
  assert (Hb : byteThere v resp off = true) by (unfold byteThere; by rewrite Hr, Hc, Hh).
  rewrite Hro. cbn [mbind go_bind]. set (len1 := rLength req - (off - ro)).
  rewrite (i64_small (off - ro)), (i64_small (rLength req - (off - ro))) by lia. fold len1.
  rewrite (i64_small (off + len1)), (i64_small (max - len1)), (i64_small (ret + len1)) by lia.
  destruct (IH (off + len1) (max - len1) (ret + len1)) as (n & -> & Hn1 & Hn2); [lia..|].
  exists (len1 + n). split; [f_equal; lia|]. split; [lia|]. intros _.
  assert (Hfirst : ∀ k, 0 ≤ k < len1 → byteThere v resp (off + k) = true).
  { intros k Hk. rewrite <- Hb. apply (byteThere_chunk v resp off req ro Hsame); lia. }
  destruct (Z.le_gt_cases (max - len1) 0) as [Hm|Hm].
  - specialize (Hn1 Hm). split_and!; [lia|lia| |lia]. intros k Hk. apply Hfirst. lia.
  - destruct (Hn2 Hm) as (Hn3 & Hn4 & Hn5). split_and!; [lia|lia| |].
    + intros k Hk. destruct (Z.lt_ge_cases k len1); [apply Hfirst; lia|].
      replace (off + k) with (off + len1 + (k - len1)) by lia. apply Hn4. lia.
    + intros Hlt. rewrite Z.add_assoc. apply Hn5. lia.
Qed.

Lemma available_spec r v p max :
  0 ≤ p + rOffset r ≤ glength g → 0 ≤ max < 2 ^ 61 → glength g < 2 ^ 61 →
  ∃ n, available g r v p max = Ok n ∧ 0 ≤ n ≤ max ∧
    (∀ k, 0 ≤ k < n → byteThere v (responsive r) (p + rOffset r + k) = true) ∧
    (n < max → byteThere v (responsive r) (p + rOffset r + n) = false).
Proof using Hg.
  intros Hp Hm Hl. unfold available. rewrite i64_small by lia.
  destruct (availLoop_spec v (responsive r) (Z.to_nat max) (p + rOffset r) max 0) as (n & -> & Hn1 & Hn2); [lia..|].
  exists n. split; [done|]. destruct (Z.eq_dec max 0) as [->|]; [|apply Hn2; lia]. rewrite Hn1 by lia. cbn. split_and!; lia.
Qed.
End Available.

(** ** The windows of the readers *)
Section Windows.
Context (g : Geo).

(** What a reader may do, in the order of the code: every operation on the
    torrent's side holds the client lock. *)
Inductive rdOp : Type :=
| OpNew (id : nat) (offset len : Z)
| OpResponsive (id : nat) (b : bool)
| OpReadahead (id : nat) (f : option (Z → Z → Z)) (ra : Z)
| OpSeek (id : nat) (off : Z) (whence : Whence)
| OpReading (id : nat)
| OpAdvance (id : nat) (n : Z)
| OpClose (id : nat).

Definition onReader (t : RT) (id : nat) (f : reader → RT * reader) : RT :=
  match rtReaders t !! id with Some r => (f r).1 | None => t end.

Definition rdStep (t : RT) (op : rdOp) : RT :=
  match op with
  | OpNew id offset len => if decide (rtReaders t !! id = None) then (newReader g t id offset len).1 else t
  | OpResponsive id b => onReader t id (λ r, if b then rd_SetResponsive t id r else rd_SetNonResponsive t id r)
  | OpReadahead id f ra => onReader t id (λ r, match f with None => SetReadahead g t id r ra | Some f => SetReadaheadFunc g t id r (Some f) end)
  | OpSeek id off whence => onReader t id (λ r, (Seek g t id r off whence).1)
  | OpReading id => onReader t id (λ r, posChanged g t id (set_reading r true))
  | OpAdvance id n => onReader t id (λ r, posChanged g t id (set_pos r (i64 (pos r + n))))
  | OpClose id => rd_Close g t id
  end.

Record windowsOk (t : RT) : Prop := {
  wo_cached : ∀ id r, rtReaders t !! id = Some r → rPieces r = piecesUncached g r;
  wo_now : rtNow t = (readerPiecePriorities (rtReaders t)).1;
  wo_readahead : rtReadahead t = (readerPiecePriorities (rtReaders t)).2 }.

Lemma priorities_elem rs i :
  (i ∈ (readerPiecePriorities rs).1 ↔ ∃ id r, rs !! id = Some r ∧ i ∈ windowNow r) ∧
  (i ∈ (readerPiecePriorities rs).2 ↔ ∃ id r, rs !! id = Some r ∧ i ∈ windowReadahead r).
Proof.
  unfold readerPiecePriorities. revert rs. refine (map_fold_weak_ind (λ acc rs, (i ∈ acc.1 ↔ ∃ id r, rs !! id = Some r ∧ i ∈ windowNow r) ∧
    (i ∈ acc.2 ↔ ∃ id r, rs !! id = Some r ∧ i ∈ windowReadahead r)) _ _ _ _).
  - cbn. split; (split; [set_solver|]); intros (id & r & H & _); by rewrite lookup_empty in H.
  - intros id r m acc Hm [IH1 IH2]. cbn [fst snd]. rewrite !elem_of_union, IH1, IH2.
    split; (split; [intros [H|(id' & r' & H & H')]|intros (id' & r' & H & H')]).
    1,4: exists id, r; by rewrite lookup_insert_eq.
    1,3: exists id', r'; rewrite lookup_insert_ne; [done|]; intros ->; by rewrite Hm in H.
    1,2: destruct (decide (id' = id)) as [->|Hne]; [rewrite lookup_insert_eq in H; injection H as <-; by left|
      rewrite lookup_insert_ne in H by done; right; by exists id', r'].
Qed.

Lemma window_range r i : i ∈ windowNow r ∨ i ∈ windowReadahead r → (rPieces r).1 ≤ i < (rPieces r).2.
Proof.
  unfold windowNow, windowReadahead. destruct (rPieces r) as [b e]. cbn. destruct (Z.leb_spec e b); [set_solver|].
  rewrite elem_of_singleton, elem_of_list_to_set, elem_of_seqZ. lia.
Qed.

(** [readerPosChanged] updates every piece of the old and the new window. *)
Lemma posChanged_updates t from to i : from ≠ to →
  from.1 ≤ i < from.2 ∨ to.1 ≤ i < to.2 → i ∈ rtUpdated (readerPosChanged t from to).
Proof.
  intros Hne Hi. unfold readerPosChanged. rewrite bool_decide_false by done. unfold updateReaderPieces.
  destruct (readerPiecePriorities _) as [now ra]. destruct from as [b1 e1], to as [b2 e2]. cbn [fst snd] in *.
  destruct (Z.ltb_spec b2 b1); cbn [fst snd]; case_match eqn:E; unfold rtUpdate; cbn [rtUpdated];
    rewrite ?elem_of_app, !elem_of_seqZ; (apply Z.ltb_lt in E || apply Z.ltb_ge in E); repeat case_match;
    repeat match goal with H : (_ <? _) = true |- _ => apply Z.ltb_lt in H | H : (_ <? _) = false |- _ => apply Z.ltb_ge in H end; lia.
Qed.

Lemma windows_pieces r r0 : rPieces r = rPieces r0 → windowNow r = windowNow r0 ∧ windowReadahead r = windowReadahead r0.
Proof. intros H. unfold windowNow, windowReadahead. by rewrite H. Qed.

Lemma priorities_insert rs id r r0 : rs !! id = Some r0 → rPieces r = rPieces r0 →
  readerPiecePriorities (<[id := r]> rs) = readerPiecePriorities rs.
Proof.
  intros H0 Hp. destruct (windows_pieces r r0 Hp) as [Hn Hr].
  assert (Hiff : ∀ (P : reader → Prop), (P r ↔ P r0) →
    (∃ id' r', <[id:=r]> rs !! id' = Some r' ∧ P r') ↔ (∃ id' r', rs !! id' = Some r' ∧ P r')).
  { intros P HP. split; intros (id' & r' & H & HPr); destruct (decide (id' = id)) as [->|Hne].
    - rewrite lookup_insert_eq in H. injection H as <-. exists id, r0. tauto.
    - rewrite lookup_insert_ne in H by done. by exists id', r'.
    - rewrite H0 in H. injection H as <-. exists id, r. rewrite lookup_insert_eq. tauto.
    - exists id', r'. by rewrite lookup_insert_ne. }
  rewrite (surjective_pairing (readerPiecePriorities (<[id:=r]> rs))), (surjective_pairing (readerPiecePriorities rs)).
  f_equal; apply set_eq; intros i.
  - rewrite !(proj1 (priorities_elem _ i)). apply Hiff. by rewrite Hn.
  - rewrite !(proj2 (priorities_elem _ i)). apply Hiff. by rewrite Hr.
Qed.

(** Only pieces that were updated may have changed their place in the sets. *)
Definition changesUpdated (t t' : RT) : Prop :=
  ∀ i, i ∉ rtUpdated t' → (i ∈ rtNow t ↔ i ∈ rtNow t') ∧ (i ∈ rtReadahead t ↔ i ∈ rtReadahead t').

Lemma rtReaders_posChanged t from to : rtReaders (readerPosChanged t from to) = rtReaders t.
Proof.
  unfold readerPosChanged, updateReaderPieces. destruct (readerPiecePriorities _). case_bool_decide; [done|].
  destruct (to.1 <? from.1); repeat case_match; done.
Qed.

Lemma sets_posChanged t from to : from ≠ to →
  rtNow (readerPosChanged t from to) = (readerPiecePriorities (rtReaders t)).1 ∧
  rtReadahead (readerPosChanged t from to) = (readerPiecePriorities (rtReaders t)).2.
Proof.
  intros Hne. unfold readerPosChanged, updateReaderPieces. rewrite bool_decide_false by done.
  destruct (readerPiecePriorities _). destruct (to.1 <? from.1); repeat case_match; done.
Qed.

Lemma posChanged_ok t id r r0 : rtReaders t !! id = Some r0 → rPieces r = rPieces r0 →
  (∀ id' r', id' ≠ id → rtReaders t !! id' = Some r' → rPieces r' = piecesUncached g r') →
  rtNow t = (readerPiecePriorities (rtReaders t)).1 → rtReadahead t = (readerPiecePriorities (rtReaders t)).2 →
  windowsOk (posChanged g t id r).1 ∧ changesUpdated t (posChanged g t id r).1.
Proof.
  intros H0 Hp Hothers Hnow Hra. unfold posChanged. case_bool_decide as Heq; cbn [fst].
  - unfold storeReader. rewrite H0. split; [|by split].
    split; cbn; rewrite ?(priorities_insert _ _ _ r0) by done; [|done|done].
    intros id' r'. destruct (decide (id' = id)) as [->|Hne]; [rewrite lookup_insert_eq|rewrite lookup_insert_ne by done; by apply Hothers].
    intros [= <-]. done.
  - set (to := piecesUncached g r) in *. set (r1 := set_pieces r to). set (t1 := storeReader t id r1).
    assert (Ht1 : rtReaders t1 = <[id := r1]> (rtReaders t)) by (unfold t1, storeReader; by rewrite H0).
    destruct (sets_posChanged t1 (rPieces r) to) as [Hn1 Hr1]; [done|].
    assert (Hkeep : ∀ i (P : reader → Prop), (∀ r, P r → (rPieces r).1 ≤ i < (rPieces r).2) → i ∉ rtUpdated (readerPosChanged t1 (rPieces r) to) →
      (∃ id' r', rtReaders t !! id' = Some r' ∧ P r') ↔ (∃ id' r', rtReaders t1 !! id' = Some r' ∧ P r')).
    { intros i P HP Hni. rewrite Ht1. split; intros (id' & r' & H & HPr); destruct (decide (id' = id)) as [->|Hne].
      - rewrite H0 in H. injection H as <-. exfalso. apply Hni, posChanged_updates; [done|]. left. rewrite Hp. by apply HP.
      - exists id', r'. by rewrite lookup_insert_ne.
      - rewrite lookup_insert_eq in H. injection H as <-. exfalso. apply Hni, posChanged_updates; [done|]. right. by apply (HP r1).
      - rewrite lookup_insert_ne in H by done. by exists id', r'. }
    split.
    + split; rewrite ?rtReaders_posChanged; [|done|done]. rewrite Ht1. intros id' r'.
      destruct (decide (id' = id)) as [->|Hne]; [rewrite lookup_insert_eq; by intros [= <-]|].
      rewrite lookup_insert_ne by done. by apply Hothers.
    + intros i Hi. rewrite Hn1, Hr1, Hnow, Hra. rewrite !(proj1 (priorities_elem _ i)), !(proj2 (priorities_elem _ i)).
      split; apply (Hkeep i); [|done| |done]; intros r' Hr'; apply window_range; first [by left|by right].
Qed.

Lemma changesUpdated_refl t : changesUpdated t t.
Proof. by intros i. Qed.

Lemma onReader_ok t id f : windowsOk t →
  (∀ r, rtReaders t !! id = Some r → windowsOk (f r).1 ∧ changesUpdated t (f r).1) →
  windowsOk (onReader t id f) ∧ changesUpdated t (onReader t id f).
Proof. intros Ht H. unfold onReader. destruct (rtReaders t !! id); [by apply H|split; [done|apply changesUpdated_refl]]. Qed.

Lemma posChanged_same t id r r0 : windowsOk t → rtReaders t !! id = Some r0 → rPieces r = rPieces r0 →
  windowsOk (posChanged g t id r).1 ∧ changesUpdated t (posChanged g t id r).1.
Proof. intros [Hc Hn Hr] H0 Hp. eapply posChanged_ok; try done. intros id' r' _. apply Hc. Qed.

Lemma storeReader_ok t id r r0 : windowsOk t → rtReaders t !! id = Some r0 → rPieces r = rPieces r0 →
  piecesUncached g r = piecesUncached g r0 → windowsOk (storeReader t id r) ∧ changesUpdated t (storeReader t id r).
Proof.
  intros [Hc Hn Hr] H0 Hp Hu. unfold storeReader. rewrite H0. split; [|by split].
  split; cbn; rewrite ?(priorities_insert _ _ _ r0) by done; [|done|done].
  intros id' r'. destruct (decide (id' = id)) as [->|Hne]; [rewrite lookup_insert_eq; intros [= <-]|rewrite lookup_insert_ne by done; apply Hc].
  rewrite Hp, Hu. by apply (Hc id).
Qed.

Lemma priorities_empty rs id r : rs !! id = None → (rPieces r).2 ≤ (rPieces r).1 →
  readerPiecePriorities (<[id := r]> rs) = readerPiecePriorities rs.
Proof.
  intros H0 Hp.
  assert (Hiff : ∀ (P : reader → Prop), ¬ P r →
    (∃ id' r', <[id:=r]> rs !! id' = Some r' ∧ P r') ↔ (∃ id' r', rs !! id' = Some r' ∧ P r')).
  { intros P HP. split; intros (id' & r' & H & HPr); destruct (decide (id' = id)) as [->|Hne].
    - rewrite lookup_insert_eq in H. by injection H as <-.
    - rewrite lookup_insert_ne in H by done. by exists id', r'.
    - by rewrite H0 in H.
    - exists id', r'. by rewrite lookup_insert_ne. }
  rewrite (surjective_pairing (readerPiecePriorities (<[id:=r]> rs))), (surjective_pairing (readerPiecePriorities rs)).
  f_equal; apply set_eq; intros i.
  - rewrite !(proj1 (priorities_elem _ i)). apply Hiff. intros H. pose proof (window_range r i (or_introl H)). lia.
  - rewrite !(proj2 (priorities_elem _ i)). apply Hiff. intros H. pose proof (window_range r i (or_intror H)). lia.
Qed.

Lemma rdStep_ok t op : windowsOk t →
  windowsOk (rdStep t op) ∧ ∀ i, 0 ≤ i < numPieces g → i ∉ rtUpdated (rdStep t op) →
    (i ∈ rtNow t ↔ i ∈ rtNow (rdStep t op)) ∧ (i ∈ rtReadahead t ↔ i ∈ rtReadahead (rdStep t op)).
Proof.
  intros Ht. assert (Hgen : windowsOk (rdStep t op) ∧ changesUpdated t (rdStep t op) →
    windowsOk (rdStep t op) ∧ ∀ i, 0 ≤ i < numPieces g → i ∉ rtUpdated (rdStep t op) →
    (i ∈ rtNow t ↔ i ∈ rtNow (rdStep t op)) ∧ (i ∈ rtReadahead t ↔ i ∈ rtReadahead (rdStep t op))).
  { intros [? H]. split; [done|]. intros i _. apply H. }
  destruct op as [id offset len|id b|id f ra|id off wh|id|id n|id]; cbn [rdStep] in *.
  - apply Hgen. case_decide as Hn; [|split; [done|apply changesUpdated_refl]]. destruct Ht as [Hc Hnow Hra]. unfold newReader. set (r := mkReader _ _ _ _ _ _ _ _ _).
    set (t0 := mkRT _ _ _ _). cut (windowsOk (posChanged g t0 id r).1 ∧ changesUpdated t0 (posChanged g t0 id r).1); [intros H; exact H|].
    apply (posChanged_ok _ id r r); cbn [t0 rtReaders rtNow rtReadahead]; [apply lookup_insert_eq|done| | |].
    + intros id' r' Hne. rewrite lookup_insert_ne by done. apply Hc.
    + by rewrite priorities_empty by (done || (cbn; lia)).
    + by rewrite priorities_empty by (done || (cbn; lia)).
  - apply Hgen, onReader_ok; [done|]. intros r Hr. destruct b; by apply (storeReader_ok t id _ r).
  - apply Hgen, onReader_ok; [done|]. intros r Hr. destruct f; by apply (posChanged_same t id _ r).
  - apply Hgen, onReader_ok; [done|]. intros r Hr. unfold Seek.
    destruct wh; cbn; try (split; [done|apply changesUpdated_refl]);
      (destruct (_ =? _); [split; [done|apply changesUpdated_refl]|]);
      match goal with |- context [posChanged g t id ?r'] => pose proof (posChanged_same t id r' r Ht Hr eq_refl) as H; by destruct (posChanged g t id r') end.
  - apply Hgen, onReader_ok; [done|]. intros r Hr. by apply (posChanged_same t id _ r).
  - apply Hgen, onReader_ok; [done|]. intros r Hr. by apply (posChanged_same t id _ r).
  - clear Hgen. unfold rd_Close, readersChanged, updateReaderPieces. cbn [rtReaders].
    destruct (readerPiecePriorities (delete id (rtReaders t))) as [now ra] eqn:E. split.
    + split; cbn; rewrite ?E; [|done|done]. intros id' r' [_ H]%lookup_delete_Some. by apply (wo_cached t Ht id').
    + intros i Hi Hni. exfalso. apply Hni. cbn. apply elem_of_app. right. apply elem_of_seqZ. lia.
Qed.

Definition emptyRT : RT := mkRT ∅ ∅ ∅ [].
Definition forgetUpdated (t : RT) : RT := mkRT (rtReaders t) (rtNow t) (rtReadahead t) [].

(** C25.  Whatever readers are opened, moved, configured, read from and closed,
    the torrent's [now] and [readahead] sets are those of the windows the
    readers currently want, and an operation that moves a piece into or out of
    one of these sets updates the priority of that piece. *)
Theorem reader_windows_current ops op :
  let t := fold_left rdStep ops emptyRT in
  let t' := rdStep (forgetUpdated t) op in
  (∀ i, (i ∈ rtNow t ↔ ∃ id r, rtReaders t !! id = Some r ∧ (piecesUncached g r).1 < (piecesUncached g r).2 ∧ i = (piecesUncached g r).1) ∧
        (i ∈ rtReadahead t ↔ ∃ id r, rtReaders t !! id = Some r ∧ (piecesUncached g r).1 < i < (piecesUncached g r).2)) ∧
  (∀ i, 0 ≤ i < numPieces g → i ∉ rtUpdated t' →
     (i ∈ rtNow t ↔ i ∈ rtNow t') ∧ (i ∈ rtReadahead t ↔ i ∈ rtReadahead t')).
Proof.
  intros t t'. assert (Ht : windowsOk t).
  { unfold t. assert (He : windowsOk emptyRT) by (split; [intros id r H; cbn [emptyRT rtReaders] in H; by rewrite lookup_empty in H|done|done]).
    clear t t'. revert He. generalize emptyRT. induction ops as [|o ops IH]; intros t0 H0; [done|]. cbn. apply IH, rdStep_ok, H0. }
  split.
  - intros i. destruct Ht as [Hc -> ->]. rewrite !(proj1 (priorities_elem _ i)), !(proj2 (priorities_elem _ i)).
    assert (Hw : ∀ id r, rtReaders t !! id = Some r → windowNow r = (if (piecesUncached g r).2 <=? (piecesUncached g r).1 then ∅ else {[ (piecesUncached g r).1 ]}) ∧
      windowReadahead r = (if (piecesUncached g r).2 <=? (piecesUncached g r).1 then ∅ else list_to_set (seqZ ((piecesUncached g r).1 + 1) ((piecesUncached g r).2 - ((piecesUncached g r).1 + 1))))).
    { intros id r Hr. unfold windowNow, windowReadahead. rewrite (Hc id r Hr). by destruct (piecesUncached g r). }
    split; split; intros (id & r & Hr & H); exists id, r; (split; [done|]); destruct (Hw id r Hr) as [Hn Hra]; rewrite ?Hn, ?Hra in *;
      destruct (Z.leb_spec (piecesUncached g r).2 (piecesUncached g r).1);
      rewrite ?elem_of_singleton, ?elem_of_list_to_set, ?elem_of_seqZ, ?elem_of_empty in *; try done; lia.
  - apply (rdStep_ok (forgetUpdated t) op). by destruct Ht.
Qed.
End Windows.

(** ** Reading *)
Section Reading.
Context {S : Type} `{!SpanStore S} `{!Missinggo} (g : Geo) (Hg : geo_ok g) (infoHash : list Z).

(** [t.readAt] on a storage. *)
Definition storageReadAt (st : PState S) (n off : Z) : go (list Z * option serr) :=
  '(_, d, err) ← readAt (ginfo g) infoHash st n off; Ok (d, err).

(** What the reader may deliver is in storage, and is part of [D]. *)
Definition backedBy (v : TView) (resp : bool) (st : PState S) (D : list Z) : Prop :=
  stOk (ginfo g) st ∧ lenZ D = glength g ∧
  ∀ k, byteThere g v resp (Z.of_nat k) = true → sp_view (store st) !! k = Some (D !! k).

Lemma backed_range v resp st D off n : backedBy v resp st D → 0 ≤ off → 0 < n →
  (∀ k, 0 ≤ k < n → byteThere g v resp (off + k) = true) →
  off + n ≤ glength g ∧ range (sp_view (store st)) off n = map Some (range D off n).
Proof using Hg.
  intros ([Hok Htot] & HD & Hb) Ho Hn Hall.
  assert (Hle : off + n ≤ glength g).
  { destruct (Z.le_gt_cases (off + n) (glength g)) as [|Hgt]; [done|]. specialize (Hall (n - 1) ltac:(lia)). unfold byteThere in Hall.
    rewrite offsetRequest_out in Hall by (right; lia). done. }
  split; [done|]. rewrite <- (go_len g Hg) in Htot.
  apply (list_eq_below _ _ (Z.to_nat n)).
  - assert (lenZ (range (sp_view (store st)) off n) = n) by (apply lenZ_range; lia). unfold lenZ in *. lia.
  - rewrite length_map. assert (lenZ (range D off n) = n) by (apply lenZ_range; lia). unfold lenZ in *. lia.
  - intros k x y Hk Hx Hy. rewrite lookup_range in Hx by done. change (map Some ?l) with (Some <$> l) in Hy.
    rewrite list_lookup_fmap, lookup_range in Hy by done.
    rewrite (Hb (Z.to_nat off + k)%nat) in Hx.
    + injection Hx as <-. destruct (D !! (Z.to_nat off + k)%nat); [by injection Hy|done].
    + rewrite <- (Hall (Z.of_nat k)) by lia. f_equal. lia.
Qed.

Lemma storageReadAt_full v resp st D off n : backedBy v resp st D → 0 ≤ off → 0 < n →
  (∀ k, 0 ≤ k < n → byteThere g v resp (off + k) = true) →
  storageReadAt st n off = Ok (range D off n, None).
Proof using Hg.
  intros HB Ho Hn Hall. destruct (backed_range v resp st D off n HB Ho Hn Hall) as [Hle Hr].
  unfold storageReadAt, readAt. rewrite (readAtLoop_full (ginfo g) infoHash (go_info g Hg) st) with (D := range D off n); [done|apply HB|lia|lia| |lia|done].
  by rewrite <- (go_len g Hg).
Qed.

Lemma reader_step r v o rest : let p := pos r in
  0 ≤ rOffset r → 0 ≤ p < rdLength r → rOffset r + rdLength r ≤ glength g → glength g < 2 ^ 61 → ∀ blen, 0 < blen < 2 ^ 61 →
  obView o = v → byteThere g v (responsive r) (rOffset r + p) = true →
  ∃ n, 0 < n ≤ blen ∧ (∀ k, 0 ≤ k < n → byteThere g v (responsive r) (rOffset r + p + k) = true) ∧
    (n < blen → byteThere g v (responsive r) (rOffset r + p + n) = false) ∧
    waitAvailable g r p blen true (o :: rest) None = Ok (Some (n, None, o, rest)).
Proof using Hg.
  intros p Ho Hp Hend Hl blen Hb Hv Hfirst.
  destruct (available_spec g Hg r v p blen ltac:(lia) ltac:(lia) Hl) as (n & Ha & Hn & Hall & Hstop).
  rewrite (Z.add_comm p) in Hall, Hstop. exists n. assert (Hn0 : 0 < n).
  { destruct (Z.eq_dec n 0) as [->|]; [|lia]. rewrite Z.add_0_r in Hstop. rewrite Hstop in Hfirst by lia. done. }
  split_and!; [done|lia|done|done|]. cbn [waitAvailable]. rewrite Hv, Ha. cbn [mbind go_bind].
  rewrite i64_small by lia. pose proof (io_pl _ (go_info g Hg)) as Hpl. pose proof (NumPieces_bounds _ (go_info g Hg)) as Hnp.
  rewrite (go_len g Hg) in *. rewrite Z.quot_div_nonneg by lia.
  assert (0 ≤ (rOffset r + p) / PieceLength (ginfo g) < numPieces g).
  { split; [apply Z.div_pos; lia|]. apply Z.div_lt_upper_bound; [done|]. unfold numPieces. lia. }
  rewrite (proj2 (Z.leb_le 0 _)), (proj2 (Z.ltb_lt _ (numPieces g))) by lia. cbn [andb negb].
  by rewrite (proj2 (Z.eqb_neq n 0)) by lia.
Qed.

(** C24.  A read at a position whose byte is there returns at once, however
    the torrent goes on: it delivers the bytes of the torrent from the
    reader's position on, as many as are available without a gap but at most
    as the buffer takes (its own end does not limit a reader), and moves the
    position behind them; the error is EOF exactly at the reader's end. *)
Theorem reader_reads (t : RT) id (r : reader) v st D o rest blen :
  0 ≤ rOffset r → 0 ≤ pos r < rdLength r → rOffset r + rdLength r ≤ glength g → glength g < 2 ^ 61 → 0 < blen < 2 ^ 61 →
  obView o = v → obReadAt o = storageReadAt st → backedBy v (responsive r) st D →
  byteThere g v (responsive r) (rOffset r + pos r) = true →
  ∃ n t' r', ReadContext g LimitLen t id r blen (o :: rest) =
      Ok (Some (t', r', range D (rOffset r + pos r) n, if rdLength r <=? pos r + n then Some REOF else None)) ∧
    pos r' = pos r + n ∧ 0 < n ≤ blen ∧
    (∀ k, 0 ≤ k < n → byteThere g v (responsive r) (rOffset r + pos r + k) = true) ∧
    (n < blen → byteThere g v (responsive r) (rOffset r + pos r + n) = false).
Proof using Hg.
  intros Ho Hp Hend Hl Hb Hv Hrd HB Hfirst. unfold ReadContext. rewrite (proj2 (Z.ltb_lt 0 blen)) by lia.
  destruct (posChanged g t id (set_reading r true)) as [t1 r1] eqn:E1.
  assert (Hr1 : pos r1 = pos r ∧ rOffset r1 = rOffset r ∧ rdLength r1 = rdLength r ∧ responsive r1 = responsive r).
  { unfold posChanged in E1. case_bool_decide; injection E1 as <- <-; done. }
  destruct Hr1 as (Hr1 & Hr2 & Hr3 & Hr4). rewrite <- Hr1, <- Hr2, <- Hr3, <- Hr4 in *. clear Hr1 Hr2 Hr3 Hr4 E1 r.
  rename r1 into r. unfold readOnceAt. rewrite (proj2 (Z.leb_gt _ (pos r))) by lia. cbn [readOnceLoop length].
  destruct (reader_step r v o rest Ho Hp Hend Hl blen Hb Hv Hfirst) as (n & Hn & Hall & Hstop & ->). cbn [mbind go_bind].
  rewrite (proj2 (Z.eqb_neq n 0)) by lia. unfold torrentOffset. rewrite i64_small by lia.
  rewrite Hrd, LimitLen_min by lia. rewrite Z.min_r by lia.
  rewrite (storageReadAt_full v (responsive r) st D) by (done || lia). cbn [mbind go_bind].
  destruct (backed_range v (responsive r) st D (rOffset r + pos r) n HB ltac:(lia) ltac:(lia) Hall) as [Hle _].
  destruct HB as (_ & HD & _). assert (Hlen : lenZ (range D (rOffset r + pos r) n) = n) by (apply lenZ_range; lia).
  rewrite Hlen, (proj2 (Z.eqb_neq n 0)) by lia. cbn [negb mbind go_bind]. rewrite Hlen, (proj2 (Z.eqb_neq n 0)) by lia.
  rewrite i64_small by lia. destruct (posChanged g t1 id (set_pos r (pos r + n))) as [t2 r2] eqn:E2.
  assert (Hr2 : pos r2 = pos r + n ∧ rdLength r2 = rdLength r) by (unfold posChanged in E2; case_bool_decide; injection E2 as <- <-; done).
  destruct Hr2 as [Hr2 Hr3]. exists n, t2, r2. rewrite Hr2, Hr3. rewrite bool_decide_false by done. split_and!; done || lia.
Qed.
End Reading.

(** ** Waiting when downloading is disallowed

    [waitAvailable] notes the error and goes round again: as long as
    downloading stays disallowed the read does not return. *)
Lemma waitAvailable_disallowed g r p wanted obs err :
  Forall (λ o, obWake o = WDisallowed ∧ available g r (obView o) p wanted = Ok 0) obs →
  (0 <=? Z.quot (i64 (rOffset r + p)) (PieceLength (ginfo g))) && (Z.quot (i64 (rOffset r + p)) (PieceLength (ginfo g)) <? numPieces g) = true →
  waitAvailable g r p wanted true obs err = Ok None.
Proof.
  intros Hobs Hi. revert err. induction Hobs as [|o obs [Hw Ha] _ IH]; intros err; [done|]. cbn [waitAvailable].
  rewrite Ha. cbn [mbind go_bind]. rewrite Hi. cbn [negb Z.eqb]. rewrite Hw. apply IH.
Qed.

Theorem disallowed_read_spins g limitLen t id r blen obs :
  0 < blen → pos r < rdLength r →
  (0 <=? Z.quot (i64 (rOffset r + pos r)) (PieceLength (ginfo g))) && (Z.quot (i64 (rOffset r + pos r)) (PieceLength (ginfo g)) <? numPieces g) = true →
  Forall (λ o, obWake o = WDisallowed ∧ available g r (obView o) (pos r) blen = Ok 0) obs →
  ReadContext g limitLen t id r blen obs = Ok None.
Proof.
  intros Hb Hp Hi Hobs. unfold ReadContext. rewrite (proj2 (Z.ltb_lt 0 blen)) by lia.
  destruct (posChanged g t id (set_reading r true)) as [t1 r1] eqn:E1.
  assert (Hr1 : pos r1 = pos r ∧ rOffset r1 = rOffset r ∧ rdLength r1 = rdLength r ∧ responsive r1 = responsive r).
  { unfold posChanged in E1. case_bool_decide; injection E1 as <- <-; done. }
  destruct Hr1 as (Hr1 & Hr2 & Hr3 & Hr4). unfold readOnceAt. rewrite Hr1, Hr3, (proj2 (Z.leb_gt _ (pos r))) by lia. cbn [readOnceLoop].
  rewrite waitAvailable_disallowed; [done| |by rewrite Hr2]. eapply Forall_impl; [exact Hobs|]. intros o [Hw Ha]. split; [done|].
  unfold available in *. by rewrite Hr2, Hr4.
Qed.

(** ** An example *)
Module ReaderExample.
Definition g : Geo := setInfoGeo StorageExample.info 2.
Definition all : TView := mkView (λ _, true) (λ _, true).
Definition st : PState FS := mkPS (mkFS {[ "t/a" := [1; 2; 3]; "t/b" := []; "t/c" := [4; 5; 6; 7] ]} ∅ ∅) ∅.
Definition obs : Obs := mkObs all WCond (let _ := fileStore StorageExample.fts in let _ := StorageExample.missinggo in storageReadAt g [] st) false.
Definition rt : RT * reader := newReader g emptyRT 0 0 3.

Lemma g_ok : geo_ok g.
Proof. split; [apply StorageExample.info_valid|..]; vm_compute; congruence || reflexivity. Qed.
End ReaderExample.

Lemma reader_reads_witness :
  let _ := fileStore StorageExample.fts in let _ := StorageExample.missinggo in
  ∃ n t' r', ReadContext ReaderExample.g LimitLen ReaderExample.rt.1 0 ReaderExample.rt.2 2 [ReaderExample.obs] =
      Ok (Some (t', r', range [1; 2; 3; 4; 5; 6; 7] 0 n, if 3 <=? 0 + n then Some REOF else None)) ∧
    pos r' = 0 + n ∧ 0 < n ≤ 2 ∧
    (∀ k, 0 ≤ k < n → byteThere ReaderExample.g ReaderExample.all false (0 + k) = true) ∧
    (n < 2 → byteThere ReaderExample.g ReaderExample.all false (0 + n) = false).
Proof.
  intros F M. apply (reader_reads ReaderExample.g ReaderExample.g_ok [] ReaderExample.rt.1 0 ReaderExample.rt.2 ReaderExample.all
    ReaderExample.st [1; 2; 3; 4; 5; 6; 7] ReaderExample.obs [] 2); [done|done|done|done|done|done|done| |done].
  split; [split; [by apply StorageExample.fs_ok|done]|]. split; [done|].
  intros k Hk. assert (k < 7)%nat as Hlt.
  { destruct (Nat.lt_ge_cases k 7); [done|]. unfold byteThere in Hk. rewrite offsetRequest_out in Hk; [done|]. right. change (glength ReaderExample.g) with 7. lia. }
  do 7 (destruct k as [|k]; [done|]). lia.
Defined.

Lemma disallowed_read_spins_witness :
  ReadContext ReaderExample.g Z.min ReaderExample.rt.1 0 ReaderExample.rt.2 2
    (replicate 3 (mkObs (mkView (λ _, false) (λ _, false)) WDisallowed (λ _ _, Ok ([], None)) false)) = Ok None.
Proof.
  apply (disallowed_read_spins ReaderExample.g Z.min ReaderExample.rt.1 0 ReaderExample.rt.2 2); [lia|done|done|].
  repeat constructor.
Defined.

(** A reader of the first file, three bytes long, is given five bytes: the
    last two belong to the next file. *)
Definition readResult (x : go (option (RT * reader * list Z * option rerr))) : option (list Z * option rerr) :=
  match x with Ok (Some (_, _, d, err)) => Some (d, err) | _ => None end.

Example file_reader_overreads :
  let rt := File_NewReader ReaderExample.g emptyRT 0 (Geometry.mkFile 0 3) in
  readResult (ReadContext ReaderExample.g Z.min rt.1 0 rt.2 5 [ReaderExample.obs]) = Some ([1; 2; 3; 4; 5], Some REOF).
Proof. vm_compute. reflexivity. Qed.
