(* ===== verification/Percent.v ===== *)
(** Percent encoding as package [net/url] does it ([PathEscape] and
    [QueryEscape]), [strings.ReplaceAll] for one byte and [strings.Join], on
    byte strings; and decoding, against which the encoders of
    src/webseed/request.go and src/tracker/http/http.go are proved. *)
From stdpp Require Import base numbers list strings.
From Stdlib Require Import ZArith Lia.
From S2P Require Import Prelude.
Open Scope Z_scope.

(** The bytes of a string. *)
Fixpoint goBytes (s : string) : list Z :=
  match s with
  | EmptyString => []
  | String c s => Z.of_N (Ascii.N_of_ascii c) :: goBytes s
  end.

Definition upperhex (d : Z) : Z := if d <? 10 then 48 + d else 55 + d.

Inductive encoding : Type := encodePathSegment | encodeQueryComponent.

Definition isAlnum (c : Z) : bool :=
  ((97 <=? c) && (c <=? 122)) || ((65 <=? c) && (c <=? 90)) || ((48 <=? c) && (c <=? 57)).

(** The bytes of [-_.~] and of [$&+,/:;=?@]. *)
Definition unreserved : list Z := [45; 95; 46; 126].
Definition reserved : list Z := [36; 38; 43; 44; 47; 58; 59; 61; 63; 64].

Definition shouldEscape (c : Z) (mode : encoding) : bool :=
  if isAlnum c then false
  else if bool_decide (c ∈ unreserved) then false
  else if bool_decide (c ∈ reserved) then
    match mode with
    | encodePathSegment => bool_decide (c ∈ [47; 59; 44; 63])
    | encodeQueryComponent => true
    end
  else true.

Definition escapeByte (mode : encoding) (c : Z) : list Z :=
  if shouldEscape c mode then
    match mode with
    | encodeQueryComponent => if c =? 32 then [43] else [37; upperhex (c / 16); upperhex (c mod 16)]
    | encodePathSegment => [37; upperhex (c / 16); upperhex (c mod 16)]
    end
  else [c].

Definition escape (mode : encoding) (s : list Z) : list Z := flat_map (escapeByte mode) s.

Definition ReplaceAll (s : list Z) (old : Z) (new : list Z) : list Z :=
  flat_map (λ c, if c =? old then new else [c]) s.

Fixpoint strings_Join (elems : list (list Z)) (sep : Z) : list Z :=
  match elems with
  | [] => []
  | [e] => e
  | e :: es => e ++ sep :: strings_Join es sep
  end.

(** ** Decoding *)
Definition unhex (c : Z) : option Z :=
  if (48 <=? c) && (c <=? 57) then Some (c - 48)
  else if (65 <=? c) && (c <=? 70) then Some (c - 55)
  else if (97 <=? c) && (c <=? 102) then Some (c - 87)
  else None.

Fixpoint unescape (s : list Z) : option (list Z) :=
  match s with
  | [] => Some []
  | 37 :: a :: b :: s => x ← unhex a; y ← unhex b; r ← unescape s; Some (16 * x + y :: r)
  | 37 :: _ => None
  | c :: s => r ← unescape s; Some (c :: r)
  end.

Fixpoint splitOn (sep : Z) (s : list Z) : list (list Z) :=
  match s with
  | [] => [[]]
  | c :: s =>
      if c =? sep then [] :: splitOn sep s
      else match splitOn sep s with
           | w :: ws => (c :: w) :: ws
           | [] => [[c]]
           end
  end.

(** ** Laws *)
Lemma goBytes_ok s : bytes_ok (goBytes s).
Proof.
  induction s as [|c s IH]; cbn; constructor; [|done].
  pose proof (Ascii.N_ascii_bounded c). lia.
Qed.

Lemma unescape_cons c s : c ≠ 37 → unescape (c :: s) = (r ← unescape s; Some (c :: r)).
Proof.
  intros Hc. cbn. destruct c as [|p|p]; try done. do 6 (destruct p; try done).
Qed.

Lemma forall_byte (P : Z → bool) : forallb P (seqZ 0 256) = true → ∀ c, in_u8 c → P c = true.
Proof. intros H c Hc. rewrite forallb_forall in H. apply H, list_elem_of_In, elem_of_seqZ. lia. Qed.

(** What an encoder makes of a byte: itself, or its escape; never one of
    [bad] by itself. *)
Definition encodes (bad : list Z) (c : Z) (e : list Z) : bool :=
  bool_decide (e = [c] ∧ c ∉ bad ∧ c ≠ 37) ||
  bool_decide (e = [37; upperhex (c / 16); upperhex (c mod 16)] ∧ Forall (λ x, x ∉ bad) e ∧
               unhex (upperhex (c / 16)) = Some (c / 16) ∧ unhex (upperhex (c mod 16)) = Some (c mod 16)).

Section Encoder.
Context (bad : list Z) (enc : Z → list Z) (Henc : forallb (λ c, encodes bad c (enc c)) (seqZ 0 256) = true).

Lemma enc_byte c s : in_u8 c → unescape (enc c ++ s) = (r ← unescape s; Some (c :: r)) ∧ Forall (λ x, x ∉ bad) (enc c).
Proof using Henc.
  intros Hc. pose proof (forall_byte _ Henc c Hc) as H. cbv beta in H.
  apply orb_true_iff in H as [(-> & Hb & H37)%bool_decide_eq_true|(He & Hb & H1 & H2)%bool_decide_eq_true].
  - split; [by apply unescape_cons|]. by repeat constructor.
  - rewrite He in *. split; [|done]. cbn [app unescape]. rewrite H1, H2. cbn [mbind option_bind].
    pose proof (Z.div_mod c 16 ltac:(lia)) as Hd. by rewrite <- Hd.
Qed.

(** Decoding gives back what was encoded, and the bytes of [bad] do not occur
    in the code. *)
Lemma enc_roundtrip l : bytes_ok l → unescape (flat_map enc l) = Some l ∧ Forall (λ x, x ∉ bad) (flat_map enc l).
Proof using Henc.
  induction 1 as [|c l Hc Hl [IH1 IH2]]; [done|]. cbn [flat_map].
  destruct (enc_byte c (flat_map enc l) Hc) as [-> Hb]. rewrite IH1. split; [done|]. by apply Forall_app.
Qed.
End Encoder.

Lemma splitOn_none sep s : Forall (λ x, x ≠ sep) s → splitOn sep s = [s].
Proof. induction 1 as [|c s Hc _ IH]; cbn; [done|]. rewrite (proj2 (Z.eqb_neq c sep)) by done. by rewrite IH. Qed.

Lemma splitOn_app sep s t : Forall (λ x, x ≠ sep) s → splitOn sep (s ++ sep :: t) = s :: splitOn sep t.
Proof.
  induction 1 as [|c s Hc _ IH]; cbn; [by rewrite Z.eqb_refl|].
  rewrite (proj2 (Z.eqb_neq c sep)) by done. by rewrite IH.
Qed.

Lemma splitOn_Join sep ws : ws ≠ [] → Forall (Forall (λ x, x ≠ sep)) ws → splitOn sep (strings_Join ws sep) = ws.
Proof.
  intros Hne. induction 1 as [|w ws Hw Hws IH]; [done|]. destruct ws as [|w' ws]; [by apply splitOn_none|].
  change (strings_Join (w :: w' :: ws) sep) with (w ++ sep :: strings_Join (w' :: ws) sep). rewrite splitOn_app by done. by rewrite IH.
Qed.

Lemma flat_map_flat_map {A B C} (f : B → list C) (g : A → list B) l : flat_map f (flat_map g l) = flat_map (λ x, flat_map f (g x)) l.
Proof. induction l as [|x l IH]; [done|]. cbn. by rewrite flat_map_app, IH. Qed.

Lemma elem_of_Join x sep ws : x ∈ strings_Join ws sep → x = sep ∨ ∃ w, w ∈ ws ∧ x ∈ w.
Proof.
  induction ws as [|w ws IH]; [by intros ?%elem_of_nil|]. destruct ws as [|w' ws].
  - intros H. right. exists w. split; [by constructor|done].
  - change (strings_Join (w :: w' :: ws) sep) with (w ++ sep :: strings_Join (w' :: ws) sep).
    rewrite elem_of_app, elem_of_cons. intros [H|[->|H]]; [right; exists w; split; [by constructor|done]|by left|].
    destruct (IH H) as [->|(v & Hv & Hx)]; [by left|right; exists v; split; [by constructor|done]].
Qed.
