(* ===== verification/WebSeed.v ===== *)
(** Web seeds: src/webseed/{request,client}.go, requests for data of the
    torrent made of HTTP servers that have its files (BEP 19).

    Bytes and URLs are byte strings.  What an HTTP request is answered with,
    and whether the request has been cancelled when the answer arrives, are
    parameters; [fileServer] is a server that has the files. *)
From stdpp Require Import base numbers list strings gmap.
From Stdlib Require Import ZArith Lia.
From S2P Require Import Prelude Metainfo Segments Visits Storage Decimal Percent.
Open Scope Z_scope.

(** ** request.go *)
Definition PathEscaper : Type := list (list Z) → list Z.

Definition pathEscByte (c : Z) : list Z := ReplaceAll (escapeByte encodePathSegment c) 43 [37; 50; 66].

Definition defaultPathEscaper : PathEscaper := λ pathComps,
  strings_Join (map (λ comp, ReplaceAll (escape encodePathSegment comp) 43 [37; 50; 66]) pathComps) 47.

Definition EscapePath : PathEscaper := defaultPathEscaper.

Definition trailingPath (infoName : list Z) (fileComps : list (list Z)) (pathEscaper : option PathEscaper) : list Z :=
  default defaultPathEscaper pathEscaper (infoName :: fileComps).

Definition HasSuffixSlash (s : list Z) : bool := bool_decide (last s = Some 47).

Record http_Request : Type := mkHttpReq { reqUrl : list Z; reqRange : option (list Z) }.

Definition bytesEq : list Z := [98; 121; 116; 101; 115; 61].  (** "bytes=" *)

Definition rangeHeader (offset len : Z) : list Z :=
  bytesEq ++ AppendInt offset ++ 45 :: AppendInt (i64 (i64 (offset + len) - 1)).

Definition fileUrl (url : list Z) (info : Info) (f : FileInfo) (pathEscaper : option PathEscaper) : list Z :=
  if HasSuffixSlash url then url ++ trailingPath (goBytes (Name info)) (map goBytes (fiPath f)) pathEscaper else url.

(** [http.NewRequest] fails on a URL that does not parse. *)
Definition newRequest (parses : list Z → bool) (url : list Z) (fileIndex : Z) (info : Info) (offset len : Z)
    (pathEscaper : option PathEscaper) : go (option http_Request) :=
  match UpvertedFiles info !! Z.to_nat fileIndex with
  | None => Panic "index out of range"
  | Some f =>
      let url := fileUrl url info f pathEscaper in
      if negb (parses url) then Ok None
      else Ok (Some (mkHttpReq url
             (if negb (offset =? 0) || negb (len =? fiLength f) then Some (rangeHeader offset len) else None)))
  end.

(** ** client.go *)
Inductive wsErr : Type :=
| WsDo (e : Z)            (** the HTTP client's own *)
| WsCanceled
| WsBody (e : Z)          (** while reading a body *)
| WsEOF
| WsLength (copied expected : Z)
| WsErrBadResponse (status : Z)
| WsErrTooFast.

#[export] Instance wsErr_eq_dec : EqDecision wsErr.
Proof. solve_decision. Defined.

(** A body delivers bytes and then its end, or an error. *)
Record http_Response : Type := mkResp { StatusCode : Z; Body : list Z; BodyErr : option wsErr }.

Record requestPart : Type := mkPart { pReq : http_Request; pExtent : Extent }.

Record Client : Type := mkClient {
  Url : list Z;
  fileIndex : Index;
  wsInfo : option Info;
  wsPieces : gset Z;
  wsPathEscaper : option PathEscaper }.

Definition wsClient0 (url : list Z) (esc : option PathEscaper) : Client := mkClient url (mkIndex []) None ∅ esc.

Definition SetInfo (me : Client) (info : Info) : Client :=
  if negb (HasSuffixSlash (Url me)) && IsDir info then me
  else mkClient (Url me) (NewIndex (LengthIterFromUpvertedFiles (UpvertedFiles info))) (Some info)
         (wsPieces me ∪ list_to_set (seqZ 0 (NumPieces info))) (wsPathEscaper me).

(** [io.Copy] and [io.CopyN] from a body: what was copied, the error and what
    is left of the body. *)
Definition io_Copy (b : list Z * option wsErr) : list Z * option wsErr := b.

Definition io_CopyN (b : list Z * option wsErr) (n : Z) : list Z * option wsErr * (list Z * option wsErr) :=
  if n <=? lenZ b.1 then (take (Z.to_nat n) b.1, None, (drop (Z.to_nat n) b.1, b.2))
  else (b.1, Some (default WsEOF b.2), ([], b.2)).

Definition StatusOK : Z := 200.
Definition StatusPartialContent : Z := 206.
Definition StatusServiceUnavailable : Z := 503.

(** What is appended to the buffer, and the error. *)
Definition recvPartResult (canceled : bool) (part : requestPart) (res : result wsErr http_Response) : list Z * option wsErr :=
  match res with
  | Bad e => ([], Some e)
  | Good resp =>
      if canceled then ([], Some WsCanceled)
      else
        let body := (Body resp, BodyErr resp) in
        let e := pExtent part in
        if StatusCode resp =? StatusPartialContent then
          let '(copied, err) := io_Copy body in
          match err with
          | Some err => (copied, Some err)
          | None => (copied, if negb (lenZ copied =? eLength e) then Some (WsLength (lenZ copied) (eLength e)) else None)
          end
        else if StatusCode resp =? StatusOK then
          if Start e <? 48 * 1024 then
            let '(_, _, body) := io_CopyN body (Start e) in
            let '(copied, err, _) := io_CopyN body (eLength e) in
            (copied, err)
          else ([], Some (WsErrBadResponse (StatusCode resp)))
        else if StatusCode resp =? StatusServiceUnavailable then ([], Some WsErrTooFast)
        else ([], Some (WsErrBadResponse (StatusCode resp)))
  end.

Section Requests.
(** The HTTP client, whether the context is cancelled when part [k] is
    received, and [http.NewRequest]. *)
Context (Do : http_Request → result wsErr http_Response) (canceled : nat → bool) (parses : list Z → bool).

Fixpoint readRequestPartResponses (k : nat) (parts : list requestPart) (buf : list Z) : list Z * option wsErr :=
  match parts with
  | [] => (buf, None)
  | part :: parts =>
      let '(d, err) := recvPartResult (canceled k) part (Do (pReq part)) in
      match err with
      | Some _ => (buf ++ d, err)
      | None => readRequestPartResponses (S k) parts (buf ++ d)
      end
  end.

(** The callback of [NewRequest]. *)
Definition partCb (ws : Client) (st : go (list requestPart)) (i : Z) (e : Extent) : go (list requestPart) * bool :=
  (parts ← st;
   match wsInfo ws with
   | None => Panic "nil pointer dereference"
   | Some info =>
       req ← newRequest parses (Url ws) i info (Start e) (eLength e) (wsPathEscaper ws);
       match req with
       | None => Panic "http.NewRequest"
       | Some req => Ok (parts ++ [mkPart req e])
       end
   end, true).

(** [NewRequest] and the result it delivers. *)
Definition NewRequest (ws : Client) (r : Extent) : go (list Z * option wsErr) :=
  match Locate (fileIndex ws) r (partCb ws) (Ok []) with
  | (Panic w, _) => Panic w
  | (_, false) => Panic "request out of file bounds"
  | (Ok parts, true) => Ok (readRequestPartResponses 0 parts [])
  end.
End Requests.

(** ** A server that has the files

    [root] is what it has under a URL; [ranges] whether it answers requests
    for a range with that range only. *)
Definition stripBytesEq (s : list Z) : option (list Z) :=
  if bool_decide (take 6 s = bytesEq) then Some (drop 6 s) else None.

Definition parseRange (s : list Z) : option (Z * Z) :=
  s ← stripBytesEq s;
  match splitOn 45 s with
  | [a; b] => x ← parseDigits a; y ← parseDigits b; Some (x, y)
  | _ => None
  end.

Definition fileServer (root : list Z → option (list Z)) (ranges : bool) (req : http_Request) : result wsErr http_Response :=
  match root (reqUrl req) with
  | None => Good (mkResp 404 [] None)
  | Some c =>
      match (if ranges then reqRange req else None) with
      | None => Good (mkResp StatusOK c None)
      | Some h =>
          match parseRange h with
          | None => Good (mkResp 400 [] None)
          | Some (a, b) =>
              if (b <? a) || (lenZ c <=? a) then Good (mkResp 416 [] None)
              else Good (mkResp StatusPartialContent (range c a (b + 1 - a)) None)
          end
      end
  end.

(** ** Laws *)
Lemma AppendUint_nodash n : 0 ≤ n → Forall (λ x, x ≠ 45) (AppendUint n).
Proof.
  intros Hn. pose proof (AppendUint_digits n Hn) as H. rewrite forallb_forall in H.
  apply Forall_forall. intros x Hx ->. specialize (H 45). rewrite list_elem_of_In in Hx.
  by specialize (H Hx).
Qed.

Lemma AppendInt_nonneg n : 0 ≤ n → AppendInt n = AppendUint n.
Proof. intros. unfold AppendInt. by rewrite (proj2 (Z.ltb_ge n 0)). Qed.

Lemma parseRange_header off n : 0 ≤ off → 0 < n → off + n < 2 ^ 63 → parseRange (rangeHeader off n) = Some (off, off + n - 1).
Proof.
  intros Ho Hn Hb. unfold rangeHeader. rewrite (i64_small (off + n)), i64_small, !AppendInt_nonneg by lia.
  unfold parseRange, stripBytesEq. change 6%nat with (length bytesEq). rewrite take_app_length, drop_app_length, bool_decide_true by done. cbn [mbind option_bind].
  rewrite splitOn_app by (apply AppendUint_nodash; lia). rewrite splitOn_none by (apply AppendUint_nodash; lia).
  by rewrite !parseDigits_AppendUint by lia.
Qed.

(** The code of a path component, byte by byte. *)
Definition pathEsc (w : string) : list Z := ReplaceAll (escape encodePathSegment (goBytes w)) 43 [37; 50; 66].

Lemma pathEsc_bytes l : ReplaceAll (escape encodePathSegment l) 43 [37; 50; 66] = flat_map pathEscByte l.
Proof. unfold escape, ReplaceAll. rewrite flat_map_flat_map. done. Qed.

(** A part whose answer is accepted has the length asked for. *)
Lemma recvPartResult_length canceled part res d : 0 ≤ Start (pExtent part) → 0 ≤ eLength (pExtent part) →
  recvPartResult canceled part res = (d, None) → lenZ d = eLength (pExtent part).
Proof.
  intros Hs Hl. unfold recvPartResult. destruct res as [resp|]; [|done]. destruct canceled; [done|].
  destruct (StatusCode resp =? StatusPartialContent).
  - cbn. destruct (BodyErr resp); [done|]. destruct (Z.eqb_spec (lenZ (Body resp)) (eLength (pExtent part))); cbn; [|done].
    by intros [= <-].
  - destruct (StatusCode resp =? StatusOK); [|by destruct (StatusCode resp =? StatusServiceUnavailable)].
    destruct (Start (pExtent part) <? 48 * 1024); [|done]. destruct (io_CopyN (Body resp, BodyErr resp) (Start (pExtent part))) as [[a b] body] eqn:E.
    unfold io_CopyN at 1. destruct (Z.leb_spec (eLength (pExtent part)) (lenZ body.1)) as [Hle|]; [|done].
    intros [= <-]. unfold lenZ in *. rewrite length_take. lia.
Qed.

(** What the server answers for a part of file [f] with content [c]. *)
Lemma recv_fileServer root ranges parses url info i f esc c e :
  parses (fileUrl url info f esc) = true → UpvertedFiles info !! Z.to_nat i = Some f → lenZ c = fiLength f → root (fileUrl url info f esc) = Some c →
  fiLength f < 2 ^ 63 → 0 ≤ Start e → 0 ≤ eLength e → Start e + eLength e ≤ fiLength f → (0 < eLength e ∨ fiLength f = 0) →
  ∃ req, newRequest parses url i info (Start e) (eLength e) esc = Ok (Some req) ∧
    recvPartResult false (mkPart req e) (fileServer root ranges req) =
    if negb ranges && (48 * 1024 <=? Start e) then ([], Some (WsErrBadResponse StatusOK))
    else (range c (Start e) (eLength e), None).
Proof.
  intros Hparses Hf Hc Hroot Hmax Hs Hl Hle Hz. unfold newRequest. rewrite Hf, Hparses. cbn [negb].
  set (req := mkHttpReq _ _). exists req. split; [done|].
  assert (Hall : recvPartResult false (mkPart req e) (Good (mkResp StatusOK c None)) =
    if 48 * 1024 <=? Start e then ([], Some (WsErrBadResponse StatusOK)) else (range c (Start e) (eLength e), None)).
  { cbn -[Z.mul]. rewrite Z.ltb_antisym. destruct (48 * 1024 <=? Start e); [reflexivity|].
    cbn [negb]. unfold io_CopyN; cbn [fst snd].
    rewrite (proj2 (Z.leb_le (Start e) _)) by lia. cbn [fst snd].
    rewrite (proj2 (Z.leb_le (eLength e) _)) by (unfold lenZ in *; rewrite length_drop; lia). done. }
  unfold fileServer. cbn [reqUrl reqRange req]. rewrite Hroot.
  destruct ((negb (Start e =? 0) || negb (eLength e =? fiLength f))) eqn:Er.
  - destruct ranges; cbn [negb andb]; [|exact Hall]. destruct Hz as [Hz|Hz].
    2:{ rewrite Hz in *. assert (Start e = 0 ∧ eLength e = 0) as [H1 H2] by lia. by rewrite H1, H2 in Er. }
    rewrite parseRange_header by lia. rewrite (proj2 (Z.ltb_ge _ _)), (proj2 (Z.leb_gt _ _)) by lia. cbn [orb].
    replace (Start e + eLength e - 1 + 1 - Start e) with (eLength e) by lia.
    cbn. rewrite lenZ_range, Z.eqb_refl by lia. done.
  - apply orb_false_iff in Er as [H1%negb_false_iff%Z.eqb_eq H2%negb_false_iff%Z.eqb_eq].
    replace (if ranges then None else None) with (@None (list Z)) by by destruct ranges. rewrite Hall, H1.
    by destruct ranges.
Qed.

Section Client.
Context (info : Info) (url : list Z) (esc : option PathEscaper).
Let files : list FileInfo := UpvertedFiles info.
Let lens : list Z := LengthIterFromUpvertedFiles files.
Context (Hpos : Forall (λ l, 0 ≤ l) lens) (Hsum : Zsum lens < 2 ^ 63)
        (Hurl : HasSuffixSlash url = true ∨ IsDir info = false).
Let ws : Client := SetInfo (wsClient0 url esc) info.

Lemma ws_info : wsInfo ws = Some info ∧ fileIndex ws = NewIndex lens ∧ Url ws = url ∧ wsPathEscaper ws = esc.
Proof using Hurl. unfold ws, SetInfo. cbn [Url wsClient0]. by destruct Hurl as [->| ->]; cbn [negb andb]; [|rewrite andb_false_r]. Qed.

Section AnyServer.
Context (Do : http_Request → result wsErr http_Response) (canceled : nat → bool) (parses : list Z → bool)
        (Hparses : ∀ f, f ∈ files → parses (fileUrl url info f esc) = true).

(** The parts that the callbacks collect. *)
Fixpoint partsOf (xs : list (Z * Extent)) : list requestPart :=
  match xs with
  | [] => []
  | (i, e) :: xs =>
      match newRequest parses url i info (Start e) (eLength e) esc with
      | Ok (Some req) => mkPart req e :: partsOf xs
      | _ => []
      end
  end.

Lemma partCb_run xs pos fin parts : tiles lens pos fin xs →
  runCalls (partCb parses ws) xs (Ok parts) = Ok (parts ++ partsOf xs).
Proof using Hurl Hparses.
  destruct ws_info as (Hi & _ & Hu & He). revert pos parts. induction xs as [|[i e] xs IH]; intros pos parts Ht; cbn [runCalls partsOf].
  { by rewrite app_nil_r. }
  cbn [tiles] in Ht. destruct Ht as (l & _ & Hl & _ & _ & _ & _ & _ & Ht).
  unfold partCb at 1. rewrite Hi, Hu, He. cbn [mbind go_bind]. unfold newRequest.
  unfold lens, LengthIterFromUpvertedFiles in Hl. rewrite list_lookup_fmap in Hl. fold files.
  destruct (files !! Z.to_nat i) as [f|] eqn:Hf; [|done]. rewrite (Hparses f) by (by eapply list_elem_of_lookup_2). cbn [negb mbind go_bind].
  rewrite (IH _ _ Ht), <- app_assoc. done.
Qed.

Lemma NewRequest_parts s n : 0 ≤ s → 0 ≤ n → s < Zsum lens → s + n ≤ Zsum lens →
  ∃ xs, tiles lens s (s + n) xs ∧ NewRequest Do canceled parses ws (mkExtent s n) = Ok (readRequestPartResponses Do canceled 0 (partsOf xs) []).
Proof using Hurl Hparses Hpos Hsum.
  intros Hs Hn Hin Hend. destruct (Locate_tiles lens Hpos Hsum s n Hs Hn ltac:(lia)) as (xs & Hrun & Hxs).
  rewrite (proj2 (Z.ltb_lt s _)), Z.min_l in Hxs by lia. exists xs. split; [done|]. unfold NewRequest.
  destruct ws_info as (_ & -> & _).
  pose proof (Hrun _ (partCb parses ws) (Ok [])) as H1. rewrite (partCb_run xs _ _ [] Hxs) in H1.
  pose proof (Locate_found lens Hpos Hsum (partCb parses ws) s n (Ok []) (λ _ _ _, eq_refl) Hs Hn Hin Hend) as H2.
  destruct (Locate _ _ _ _) as [st ok]. cbn in H1, H2. by subst.
Qed.

Lemma read_length xs : ∀ pos fin k buf d, tiles lens pos fin xs →
  readRequestPartResponses Do canceled k (partsOf xs) buf = (d, None) → lenZ d = lenZ buf + (fin - pos).
Proof using Hparses.
  induction xs as [|[i e] xs IH]; intros pos fin k buf d Ht; cbn [partsOf].
  { cbn in *. intros [= <-]. lia. }
  cbn [tiles] in Ht. destruct Ht as (l & _ & Hl & Hs & He & _ & _ & _ & Ht).
  unfold newRequest. unfold lens, LengthIterFromUpvertedFiles in Hl. rewrite list_lookup_fmap in Hl. fold files.
  destruct (files !! Z.to_nat i) as [f|] eqn:Hf; [|done]. rewrite (Hparses f) by (by eapply list_elem_of_lookup_2). cbn [negb readRequestPartResponses].
  destruct (recvPartResult _ _ _) as [d1 [err|]] eqn:E; [done|]. apply recvPartResult_length in E; [|done..]. cbn in E.
  intros H. rewrite (IH _ _ _ _ _ Ht H), lenZ_app. lia.
Qed.
End AnyServer.

Section Server.
Context (root : list Z → option (list Z)) (ranges : bool) (parses : list Z → bool)
        (Hparses : ∀ f, f ∈ files → parses (fileUrl url info f esc) = true)
        (contents : list (list Z)) (Hlens : map lenZ contents = lens)
        (Hroot : ∀ i f c, files !! i = Some f → contents !! i = Some c → root (fileUrl url info f esc) = Some c)
        (Hranges : ranges = true ∨ Forall (λ l, l ≤ 48 * 1024) lens).

Lemma read_server xs : ∀ pos fin k buf, 0 ≤ pos → tiles lens pos fin xs →
  readRequestPartResponses (fileServer root ranges) (λ _, false) k (partsOf parses xs) buf =
  (buf ++ range (concat contents) pos (fin - pos), None).
Proof using All.
  rewrite <- Hlens. induction xs as [|[i e] xs IH]; intros pos fin k buf H0 Ht; cbn [partsOf].
  { cbn in Ht. subst. by rewrite Z.sub_diag, range_0, app_nil_r. }
  destruct (tiles_cons_inv _ _ _ _ _ _ Ht) as (c & Hc & Hs & He & Hle & _ & Hz & Hp & Htot & Ht').
  pose proof (tiles_le _ _ _ _ Ht') as Hfin.
  assert (Hl : map lenZ contents !! Z.to_nat i = Some (lenZ c)) by (by rewrite list_lookup_fmap, Hc).
  rewrite Hlens in Hl. unfold lens, LengthIterFromUpvertedFiles in Hl. rewrite list_lookup_fmap in Hl.
  destruct (files !! Z.to_nat i) as [f|] eqn:Hf; [|done]. injection Hl as Hl.
  assert (Hmax : lenZ c ≤ Zsum lens).
  { apply Zsum_ge; [done|]. rewrite <- Hlens. apply list_elem_of_fmap. eexists. split; [done|]. by eapply list_elem_of_lookup_2. }
  destruct (recv_fileServer root ranges parses url info i f esc c e (Hparses f ltac:(by eapply list_elem_of_lookup_2)) Hf (eq_sym Hl) (Hroot _ _ _ Hf Hc)
    ltac:(lia) Hs He ltac:(lia) ltac:(lia)) as (req & -> & Hr).
  cbn [readRequestPartResponses WebSeed.pReq]. rewrite Hr.
  replace (negb ranges && (48 * 1024 <=? Start e)) with false.
  2:{ destruct Hranges as [->|Hsm]; [done|]. rewrite Forall_forall in Hsm. specialize (Hsm (lenZ c)).
      rewrite (proj2 (Z.leb_gt _ _)); [by rewrite andb_false_r|].
      assert (lenZ c ≤ 48 * 1024); [|lia]. apply Hsm. rewrite <- Hlens. apply list_elem_of_fmap. eexists. split; [done|]. by eapply list_elem_of_lookup_2. }
  rewrite (IH (pos + eLength e) fin) by (done || lia). f_equal. rewrite <- app_assoc. f_equal.
  pose proof (range_concat contents _ c (Start e) (eLength e) Hc Hs He Hle) as Hrc. rewrite Hp in Hrc.
  rewrite <- Hrc, range_app by lia. f_equal. lia.
Qed.
End Server.
End Client.

(** ** Properties *)

(** C26.  A request to a web seed that has the files of the torrent delivers
    exactly the bytes of the requested extent, across the boundaries of files
    and over files without data; a server that ignores ranges will do as long
    as the files have at most 48 KiB.  The URLs of the files are to be ones
    that [http.NewRequest] parses: one that it does not parse makes the request
    panic ([webseed_bad_url]). *)
Theorem webseed_delivers info url esc root ranges parses contents s n :
  (∀ f, f ∈ UpvertedFiles info → parses (fileUrl url info f esc) = true) →
  HasSuffixSlash url = true ∨ IsDir info = false →
  map lenZ contents = LengthIterFromUpvertedFiles (UpvertedFiles info) → lenZ (concat contents) < 2 ^ 63 →
  (∀ i f c, UpvertedFiles info !! i = Some f → contents !! i = Some c → root (fileUrl url info f esc) = Some c) →
  ranges = true ∨ Forall (λ c, lenZ c ≤ 48 * 1024) contents →
  0 ≤ s → 0 < n → s + n ≤ lenZ (concat contents) →
  NewRequest (fileServer root ranges) (λ _, false) parses (SetInfo (wsClient0 url esc) info) (mkExtent s n) =
  Ok (range (concat contents) s n, None).
Proof.
  intros Hp Hu Hl Hsum Hroot Hr Hs Hn Hend. rewrite lenZ_concat in *.
  assert (Hpos : Forall (λ l, 0 ≤ l) (LengthIterFromUpvertedFiles (UpvertedFiles info))) by (rewrite <- Hl; apply lens_nonneg).
  rewrite Hl in *. destruct (NewRequest_parts info url esc Hpos Hsum Hu (fileServer root ranges) (λ _, false) parses Hp s n)
    as (xs & Ht & ->); try lia. f_equal.
  rewrite (read_server info url esc Hpos Hsum Hu root ranges parses Hp contents Hl Hroot) with (pos := s) (fin := s + n); [|..|lia|done].
  - by rewrite Z.add_simpl_l.
  - destruct Hr as [?|Hr]; [by left|right]. rewrite <- Hl. by apply Forall_map.
Qed.

(** Whatever a web seed answers to a request for data of the torrent, and
    whenever the request is cancelled, what is delivered without an error has
    the length that was asked for; and no answer makes the request panic. *)
Theorem webseed_length info url esc Do canceled parses s n :
  let lens := LengthIterFromUpvertedFiles (UpvertedFiles info) in
  (∀ f, f ∈ UpvertedFiles info → parses (fileUrl url info f esc) = true) →
  HasSuffixSlash url = true ∨ IsDir info = false →
  Forall (λ l, 0 ≤ l) lens → Zsum lens < 2 ^ 63 → 0 ≤ s → 0 < n → s + n ≤ Zsum lens →
  ∃ d err, NewRequest Do canceled parses (SetInfo (wsClient0 url esc) info) (mkExtent s n) = Ok (d, err) ∧
           (err = None → lenZ d = n).
Proof.
  intros lens Hp Hu Hpos Hsum Hs Hn Hend.
  destruct (NewRequest_parts info url esc Hpos Hsum Hu Do canceled parses Hp s n) as (xs & Ht & ->); try (subst lens; lia).
  destruct (readRequestPartResponses _ _ _ _ _) as [d err] eqn:E. exists d, err. split; [done|]. intros ->.
  apply (read_length info url esc Do canceled parses Hp xs _ _ _ _ _ Ht) in E. unfold lenZ at 2 in E. cbn in E. lia.
Qed.

(** The path of a file in a URL determines the file: splitting it at the
    slashes and decoding the parts gives back the name of the torrent and the
    path of the file, whatever bytes they have, and no [+] is left for a server to take for
    a space. *)
Theorem trailingPath_roundtrip infoName fileComps :
  map unescape (splitOn 47 (trailingPath (goBytes infoName) (map goBytes fileComps) None)) =
    map (Some ∘ goBytes) (infoName :: fileComps) ∧
  43 ∉ trailingPath (goBytes infoName) (map goBytes fileComps) None.
Proof.
  unfold trailingPath, defaultPathEscaper; cbn [default from_option id].
  change (goBytes infoName :: map goBytes fileComps) with (map goBytes (infoName :: fileComps)).
  assert (Hne : infoName :: fileComps ≠ []) by done. revert Hne. generalize (infoName :: fileComps) as ws. intros ws Hne.
  assert (Hw : Forall (λ w, unescape (pathEsc w) = Some (goBytes w) ∧ Forall (λ x, x ∉ [47; 43]) (pathEsc w)) ws).
  { apply Forall_true. intros w. unfold pathEsc. rewrite pathEsc_bytes. apply enc_roundtrip, goBytes_ok. vm_compute. reflexivity. }
  rewrite map_map. change (λ x, ReplaceAll _ 43 _) with pathEsc. split.
  - rewrite splitOn_Join.
    + rewrite map_map. apply map_ext_Forall, (Forall_impl _ _ _ Hw). by intros w [-> _].
    + by destruct ws.
    + apply Forall_map, (Forall_impl _ _ _ Hw). intros w [_ Hf]. apply (Forall_impl _ _ _ Hf). intros x Hx ->. apply Hx. by constructor.
  - intros [?|(w & (x & -> & Hx)%list_elem_of_fmap & Hin)]%elem_of_Join; [done|].
    rewrite Forall_forall in Hw. destruct (Hw x Hx) as [_ Hf]. rewrite Forall_forall in Hf. apply (Hf 43 Hin). by do 2 constructor.
Qed.

(** ** An example *)
Module WebSeedExample.
Definition info : Info := mkInfo 4 (replicate 40 0) "t b" "" 0 [mkFileInfo 3 ["a+"] []; mkFileInfo 0 ["e"] []; mkFileInfo 4 ["d"; "c/"] []].
Definition contents : list (list Z) := [[1; 2; 3]; []; [4; 5; 6; 7]].
Definition url : list Z := goBytes "http://s/".
Definition root (u : list Z) : option (list Z) :=
  if bool_decide (u = goBytes "http://s/t%20b/a%2B") then Some [1; 2; 3]
  else if bool_decide (u = goBytes "http://s/t%20b/e") then Some []
  else if bool_decide (u = goBytes "http://s/t%20b/d/c%2F") then Some [4; 5; 6; 7]
  else None.

(** Not every URL parses. *)
Definition parses (u : list Z) : bool := bool_decide (take 7 u = goBytes "http://").

Lemma root_ok i f c : UpvertedFiles info !! i = Some f → contents !! i = Some c → root (fileUrl url info f None) = Some c.
Proof. destruct i as [|[|[|i]]]; cbn; intros [= <-] [= <-]; vm_compute; reflexivity. Qed.
End WebSeedExample.

Lemma webseed_delivers_witness :
  NewRequest (fileServer WebSeedExample.root true) (λ _, false) WebSeedExample.parses
    (SetInfo (wsClient0 WebSeedExample.url None) WebSeedExample.info) (mkExtent 1 5) =
  Ok (range (concat WebSeedExample.contents) 1 5, None).
Proof.
  apply (webseed_delivers WebSeedExample.info WebSeedExample.url None WebSeedExample.root true WebSeedExample.parses WebSeedExample.contents 1 5);
    [|by left|done|done|exact WebSeedExample.root_ok|by left|done..].
  apply Forall_forall. repeat constructor.
Defined.

Lemma webseed_length_witness :
  ∃ d err, NewRequest (λ _, Good (mkResp 200 [9; 9; 9] None)) (λ k, bool_decide (k = 1%nat)) (λ _, true)
    (SetInfo (wsClient0 WebSeedExample.url None) WebSeedExample.info) (mkExtent 1 5) = Ok (d, err) ∧ (err = None → lenZ d = 5).
Proof.
  apply (webseed_length WebSeedExample.info WebSeedExample.url None (λ _, Good (mkResp 200 [9; 9; 9] None)) (λ k, bool_decide (k = 1%nat)) (λ _, true) 1 5);
    [by intros|by left|repeat constructor; done|done|done..].
Defined.

(** What it fetches there, and what a server that ignores ranges, fails or is
    too busy makes of a request. *)
Example webseed_fetches :
  NewRequest (fileServer WebSeedExample.root true) (λ _, false) (λ _, true)
    (SetInfo (wsClient0 WebSeedExample.url None) WebSeedExample.info) (mkExtent 1 5) = Ok ([2; 3; 4; 5; 6], None).
Proof. vm_compute. reflexivity. Qed.

Example webseed_errors :
  let get srv := NewRequest srv (λ _, false) (λ _, true) (SetInfo (wsClient0 WebSeedExample.url None) WebSeedExample.info) (mkExtent 1 5) in
  get (λ _, Good (mkResp 206 [9; 9; 9] None)) = Ok ([9; 9; 9], Some (WsLength 3 2)) ∧
  get (λ _, Good (mkResp 503 [] None)) = Ok ([], Some WsErrTooFast) ∧
  get (λ _, Good (mkResp 200 [9; 9] None)) = Ok ([9], Some WsEOF) ∧
  get (λ _, Good (mkResp 404 [] None)) = Ok ([], Some (WsErrBadResponse 404)).
Proof. vm_compute. done. Qed.

(** A URL that does not parse. *)
Example webseed_bad_url :
  NewRequest (fileServer WebSeedExample.root true) (λ _, false) WebSeedExample.parses
    (SetInfo (wsClient0 (goBytes "s:/") None) WebSeedExample.info) (mkExtent 1 5) = Panic "http.NewRequest".
Proof. vm_compute. reflexivity. Qed.
