(* ===== verification/UdpTracker.v ===== *)
(** The UDP tracker protocol: src/tracker/udp/{protocol,announce,scrape,
    options,timeout,transaction,dispatcher,client}.go and src/tracker/udp.go.

    The wire structures are read and written by [encoding/binary], field by
    field in big-endian order.  [Dispatcher] and the calls that wait for a
    response run concurrently: they are a step relation.  The compact address
    lists are those of the krpc package, a parameter. *)
From stdpp Require Import base numbers list gmap.
From Stdlib Require Import ZArith Lia.
From S2P Require Import Prelude.
Open Scope Z_scope.

(** ** protocol.go, announce.go and scrape.go *)
Definition ActionConnect : Z := 0.
Definition ActionAnnounce : Z := 1.
Definition ActionScrape : Z := 2.
Definition ActionError : Z := 3.

Definition ConnectRequestConnectionId : Z := 0x41727101980.

Definition optionTypeEndOfOptions : Z := 0.
Definition optionTypeNOP : Z := 1.
Definition optionTypeURLData : Z := 2.

Record RequestHeader : Type := mkReqHdr { rqConnectionId : Z; rqAction : Z; rqTransactionId : Z }.
Record ResponseHeader : Type := mkRespHdr { rsAction : Z; rsTransactionId : Z }.
Record AnnounceResponseHeader : Type := mkAnnHdr { Interval : Z; Leechers : Z; Seeders : Z }.
Record ScrapeInfohashResult : Type := mkScrape { scSeeders : Z; scCompleted : Z; scLeechers : Z }.

Record AnnounceRequest : Type := mkAnnounce {
  InfoHash : list Z;
  PeerId : list Z;
  Downloaded : Z;
  Left : Z;
  Uploaded : Z;
  Event : Z;
  IPAddress : Z;
  Key : Z;
  NumWant : Z;
  Port : Z;
  BaselineProvider : bool }.

(** [Write] of each structure; the encoding of a negative number is its two's
    complement. *)
Definition marshalRequestHeader (h : RequestHeader) : list Z :=
  be_encode 8 (rqConnectionId h) ++ be_encode 4 (rqAction h) ++ be_encode 4 (rqTransactionId h).

Definition marshalAnnounce (r : AnnounceRequest) : list Z :=
  InfoHash r ++ PeerId r ++ be_encode 8 (Downloaded r) ++ be_encode 8 (Left r) ++ be_encode 8 (Uploaded r) ++
  be_encode 4 (Event r) ++ be_encode 4 (IPAddress r) ++ be_encode 4 (Key r) ++ be_encode 4 (NumWant r) ++
  be_encode 2 (Port r) ++ [if BaselineProvider r then 1 else 0].

Definition marshalScrape (ihs : list (list Z)) : list Z := concat ihs.

(** [Read]: [n] bytes and the rest. *)
Definition readN (n : nat) (b : list Z) : option (list Z * list Z) :=
  if (length b <? n)%nat then None else Some (take n b, drop n b).

(** A signed integer of [n] bytes. *)
Definition sdecode (b : list Z) : Z :=
  let v := be_decode b in
  if v <? 2 ^ (8 * Z.of_nat (length b) - 1) then v else v - 2 ^ (8 * Z.of_nat (length b)).

Definition readI32 (b : list Z) : option (Z * list Z) := '(x, b) ← readN 4 b; Some (sdecode x, b).

Definition readResponseHeader (b : list Z) : option (ResponseHeader * list Z) :=
  '(a, b) ← readI32 b; '(t, b) ← readI32 b; Some (mkRespHdr a t, b).

Definition readAnnounceResponseHeader (b : list Z) : option (AnnounceResponseHeader * list Z) :=
  '(i, b) ← readI32 b; '(l, b) ← readI32 b; '(s, b) ← readI32 b; Some (mkAnnHdr i l s, b).

Definition readScrapeResult (b : list Z) : option (ScrapeInfohashResult * list Z) :=
  '(s, b) ← readI32 b; '(c, b) ← readI32 b; '(l, b) ← readI32 b; Some (mkScrape s c l, b).

Definition readConnectionResponse (b : list Z) : option Z := '(x, _) ← readN 8 b; Some (be_decode x).

(** ** options.go: the request URI in options of at most 255 bytes *)
Fixpoint Options_Encode (fuel : nat) (RequestUri : list Z) : list Z :=
  match fuel with
  | O => []
  | S fuel =>
      match RequestUri with
      | [] => []
      | _ =>
          let l := Nat.min (length RequestUri) 255 in
          optionTypeURLData :: Z.of_nat l :: take l RequestUri ++ Options_Encode fuel (drop l RequestUri)
      end
  end.

Definition Options_EncodeAll (RequestUri : list Z) : list Z := Options_Encode (length RequestUri) RequestUri.

(** ** timeout.go

    Times are in nanoseconds. *)
Definition Second : Z := 10 ^ 9.
Definition Minute : Z := 60 * Second.
Definition maxTimeout : Z := 3840 * Second.

Fixpoint timeoutLoop (contiguousTimeouts : nat) (d : Z) : Z :=
  match contiguousTimeouts with
  | O => d
  | S n => timeoutLoop n (d * 2)
  end.

Definition timeout (contiguousTimeouts : nat) : Z :=
  timeoutLoop (if (8 <? contiguousTimeouts)%nat then 8 else contiguousTimeouts) (15 * Second).

(** ** dispatcher.go, transaction.go and [request] of client.go *)
Inductive udpErr : Type :=
| UErrorResponse (body : list Z)
| UUnexpectedAction (action : Z)
| UWrite (e : Z)
| UCtx
| UShort               (** a response ends before its structure does *)
| UPeers
| UTooMany (got expected : Z)
| UUnknownTransaction (id : Z).

Section Dispatcher.
(** Network addresses. *)
Context {A : Type}.

Record DispatchedResponse : Type := mkDR { drHeader : ResponseHeader; drBody : list Z; drAddr : A }.

(** What [request] makes of the response it receives. *)
Definition requestResult (action : Z) (dr : DispatchedResponse) : result udpErr (list Z * A) :=
  if rsAction (drHeader dr) =? action then Good (drBody dr, drAddr dr)
  else if rsAction (drHeader dr) =? ActionError then Bad (UErrorResponse (drBody dr))
  else Bad (UUnexpectedAction (rsAction (drHeader dr))).

(** A call of [request] for an action, with its transaction: it waits for its
    channel, has stopped waiting and has to forget the transaction, or has
    returned. *)
Inductive Phase : Type :=
| Waiting (tid action : Z)
| Ending (tid action : Z) (res : result udpErr (list Z * A))
| Ended (tid action : Z) (res : result udpErr (list Z * A)).

(** Calls are numbers.  Each has a channel with room for one response.  A
    reader that dispatches holds the lock for reading; [blocked] is what it is
    trying to send while a channel is full. *)
Record Dispatcher : Type := mkDispatcher {
  transactions : gmap Z nat;
  respChan : gmap nat DispatchedResponse;
  calls : gmap nat Phase;
  blocked : option (nat * DispatchedResponse) }.

Definition Dispatcher0 : Dispatcher := mkDispatcher ∅ ∅ ∅ None.

(** The handler that [request] registers: [respChan <- dr]. *)
Definition sendResponse (d : Dispatcher) (c : nat) (dr : DispatchedResponse) : Dispatcher :=
  match respChan d !! c with
  | None => mkDispatcher (transactions d) (<[c := dr]> (respChan d)) (calls d) None
  | Some _ => mkDispatcher (transactions d) (respChan d) (calls d) (Some (c, dr))
  end.

Definition Dispatch (d : Dispatcher) (b : list Z) (addr : A) : Dispatcher * option udpErr :=
  match readResponseHeader b with
  | None => (d, Some UShort)
  | Some (rh, body) =>
      match transactions d !! rsTransactionId rh with
      | Some c => (sendResponse d c (mkDR rh body addr), None)
      | None => (d, Some (UUnknownTransaction (rsTransactionId rh)))
      end
  end.

Definition forgetTransaction (d : Dispatcher) (id : Z) : Dispatcher :=
  mkDispatcher (delete id (transactions d)) (respChan d) (calls d) (blocked d).

(** [NewTransaction] draws ids until one is free. *)
Fixpoint freshId (d : Dispatcher) (random : list Z) : option Z :=
  match random with
  | [] => None
  | id :: random => match transactions d !! id with Some _ => freshId d random | None => Some id end
  end.

Definition NewTransaction (d : Dispatcher) (c : nat) (action : Z) (random : list Z) : option Dispatcher :=
  id ← freshId d random;
  Some (mkDispatcher (<[id := c]> (transactions d)) (respChan d) (<[c := Waiting id action]> (calls d)) (blocked d)).

(** Steps.  Whoever changes the transactions waits for the reader to be done
    with the lock. *)
Inductive dlabel : Type :=
| LNew (c : nat) (action : Z) (random : list Z)
| LPacket (b : list Z) (addr : A)      (** the reader takes a packet *)
| LUnblock                             (** the reader's pending send succeeds *)
| LReceive (c : nat)                   (** [case dr := <-respChan] *)
| LAbort (c : nat) (e : udpErr)        (** a write error, or [ctx.Done()] *)
| LEnd (c : nat).                      (** [t.End()] *)

Definition dstep (d : Dispatcher) (l : dlabel) : option Dispatcher :=
  match l, blocked d with
  | LNew c action random, None =>
      match calls d !! c with Some _ => None | None => NewTransaction d c action random end
  | LPacket b addr, None => Some (Dispatch d b addr).1
  | LUnblock, Some (c, dr) =>
      match respChan d !! c with Some _ => None | None => Some (sendResponse d c dr) end
  | LReceive c, _ =>
      match calls d !! c, respChan d !! c with
      | Some (Waiting tid action), Some dr =>
          Some (mkDispatcher (transactions d) (delete c (respChan d)) (<[c := Ending tid action (requestResult action dr)]> (calls d)) (blocked d))
      | _, _ => None
      end
  | LAbort c e, _ =>
      match calls d !! c with
      | Some (Waiting tid action) =>
          Some (mkDispatcher (transactions d) (respChan d) (<[c := Ending tid action (Bad e)]> (calls d)) (blocked d))
      | _ => None
      end
  | LEnd c, None =>
      match calls d !! c with
      | Some (Ending tid action res) =>
          let d := forgetTransaction d tid in
          Some (mkDispatcher (transactions d) (respChan d) (<[c := Ended tid action res]> (calls d)) (blocked d))
      | _ => None
      end
  | _, _ => None
  end.

Fixpoint drun (d : Dispatcher) (ls : list dlabel) : option Dispatcher :=
  match ls with
  | [] => Some d
  | l :: ls => d ← dstep d l; drun d ls
  end.
End Dispatcher.
Arguments DispatchedResponse : clear implicits.
Arguments Phase : clear implicits.
Arguments Dispatcher : clear implicits.
Arguments dlabel : clear implicits.

(** ** client.go *)
Record Client : Type := mkUdpClient { connId : Z; connIdIssued : option Z }.

(** One turn of [requestWriter]: the time, what a connect that is made then is
    answered with and when, the error of the write, and whether the context is
    done before the timeout. *)
Record tick : Type := mkTick {
  tkNow : Z;
  tkConnect : result udpErr (list Z);
  tkConnected : Z;
  tkWrite : option udpErr;
  tkDone : bool }.

Definition connIdFresh (cl : Client) (now : Z) : bool :=
  match connIdIssued cl with Some t => now - t <? Minute | None => false end.

Definition connect (cl : Client) (tk : tick) : Client * option udpErr :=
  if connIdFresh cl (tkNow tk) then (cl, None)
  else
    match tkConnect tk with
    | Bad e => (cl, Some e)
    | Good respBody =>
        match readConnectionResponse respBody with
        | None => (cl, Some UShort)
        | Some id => (mkUdpClient id (Some (tkConnected tk)), None)
        end
    end.

Definition connIdForRequest (cl : Client) (action : Z) (tk : tick) : Client * result udpErr Z :=
  if action =? ActionConnect then (cl, Good ConnectRequestConnectionId)
  else
    let '(cl, err) := connect cl tk in
    (cl, match err with Some e => Bad e | None => Good (connId cl) end).

(** The packets written, each with the time that is waited after it, and the
    error it ends with. *)
Fixpoint requestWriter (n : nat) (cl : Client) (action : Z) (body : list Z) (tId : Z) (ticks : list tick) :
    Client * list (list Z * Z) * option udpErr :=
  match ticks with
  | [] => (cl, [], None)
  | tk :: ticks =>
      let '(cl, id) := connIdForRequest cl action tk in
      match id with
      | Bad e => (cl, [], Some e)
      | Good id =>
          let buf := marshalRequestHeader (mkReqHdr id action tId) ++ body in
          match tkWrite tk with
          | Some e => (cl, [], Some e)
          | None =>
              if tkDone tk then (cl, [(buf, timeout n)], Some UCtx)
              else
                let '(cl, sent, err) := requestWriter (S n) cl action body tId ticks in
                (cl, (buf, timeout n) :: sent, err)
          end
      end
  end.

Section Client.
Context {A : Type}.
(** [UnmarshalBinary] of krpc's compact address lists, and the protocol of a
    remote address. *)
Context (UnmarshalIPv4 UnmarshalIPv6 : list Z → option (list (list Z * Z))) (ipv6 : A → bool).

Definition announceBody (req : AnnounceRequest) (RequestUri : list Z) : list Z :=
  marshalAnnounce req ++ Options_EncodeAll RequestUri.

(** [Announce], given what [request] returns. *)
Definition Announce (res : result udpErr (list Z * A)) : result udpErr (AnnounceResponseHeader * list (list Z * Z)) :=
  '(respBody, addr) ← res;
  match readAnnounceResponseHeader respBody with
  | None => Bad UShort
  | Some (respHdr, r) =>
      match (if ipv6 addr then UnmarshalIPv6 r else UnmarshalIPv4 r) with
      | None => Bad UPeers
      | Some peers => Good (respHdr, peers)
      end
  end.

Fixpoint readScrapes (fuel : nat) (r : list Z) : result udpErr (list ScrapeInfohashResult) :=
  match r, fuel with
  | [], _ => Good []
  | _, O => Bad UShort
  | _, S fuel =>
      match readScrapeResult r with
      | None => Bad UShort
      | Some (item, r) => out ← readScrapes fuel r; Good (item :: out)
      end
  end.

Definition Scrape (ihs : list (list Z)) (res : result udpErr (list Z * A)) : result udpErr (list ScrapeInfohashResult) :=
  '(respBody, _) ← res;
  out ← readScrapes (length respBody) respBody;
  if (length ihs <? length out)%nat then Bad (UTooMany (Z.of_nat (length out)) (Z.of_nat (length ihs))) else Good out.
End Client.

(** ** Reading what a client sends, as BEP 15 and BEP 41 have it *)
Fixpoint parseOptions (fuel : nat) (b : list Z) : option (list Z) :=
  match fuel with
  | O => None
  | S fuel =>
      match b with
      | [] => Some []
      | 0 :: _ => Some []
      | 1 :: b => parseOptions fuel b
      | _ :: n :: b =>
          '(d, b) ← readN (Z.to_nat n) b;
          r ← parseOptions fuel b;
          Some (d ++ r)
      | _ => None
      end
  end.

Definition readRequestHeader (b : list Z) : option (RequestHeader * list Z) :=
  '(c, b) ← readN 8 b; '(a, b) ← readI32 b; '(t, b) ← readI32 b; Some (mkReqHdr (be_decode c) a t, b).

(** The 98 bytes of an announce are its header and these 82. *)
Definition readAnnounce (b : list Z) : option (AnnounceRequest * list Z) :=
  '(ih, b) ← readN 20 b; '(id, b) ← readN 20 b;
  '(dl, b) ← readN 8 b; '(le, b) ← readN 8 b; '(ul, b) ← readN 8 b;
  '(ev, b) ← readI32 b; '(ip, b) ← readN 4 b; '(k, b) ← readI32 b; '(nw, b) ← readI32 b; '(po, b) ← readN 2 b;
  Some (mkAnnounce ih id (sdecode dl) (sdecode le) (sdecode ul) ev (be_decode ip) k nw (be_decode po) false, b).

(** ** Laws of the wire format *)
Lemma readN_app n a b : length a = n → readN n (a ++ b) = Some (a, b).
Proof.
  intros <-. unfold readN. rewrite length_app. destruct (Nat.ltb_spec (length a + length b) (length a)); [lia|].
  by rewrite take_app_length, drop_app_length.
Qed.

Lemma readN_be n z b : readN n (be_encode n z ++ b) = Some (be_encode n z, b).
Proof. apply readN_app, length_be_encode. Qed.

Lemma sdecode_encode n z : (0 < n)%nat → - 2 ^ (8 * Z.of_nat n - 1) ≤ z < 2 ^ (8 * Z.of_nat n - 1) → sdecode (be_encode n z) = z.
Proof.
  intros Hn Hz. unfold sdecode. rewrite be_decode_encode_mod, length_be_encode.
  replace (256 ^ Z.of_nat n) with (2 ^ (8 * Z.of_nat n)) by (rewrite (Z.pow_mul_r 2 8) by lia; done).
  assert (H2 : 2 ^ (8 * Z.of_nat n) = 2 * 2 ^ (8 * Z.of_nat n - 1)) by (rewrite <- Z.pow_succ_r by lia; f_equal; lia).
  rewrite H2. set (h := 2 ^ (8 * Z.of_nat n - 1)) in *. clearbody h.
  destruct (Z_lt_le_dec z 0) as [Hneg|Hpos].
  - rewrite <- (Z.mod_add _ 1), Z.mod_small by lia. rewrite (proj2 (Z.ltb_ge _ _)) by lia. lia.
  - rewrite Z.mod_small, (proj2 (Z.ltb_lt _ _)) by lia. done.
Qed.

Lemma readI32_be z b : - 2 ^ 31 ≤ z < 2 ^ 31 → readI32 (be_encode 4 z ++ b) = Some (z, b).
Proof. intros. unfold readI32. rewrite readN_be. cbn [mbind option_bind]. by rewrite sdecode_encode by (cbn; lia). Qed.

Lemma readResponseHeader_be a t b : - 2 ^ 31 ≤ a < 2 ^ 31 → - 2 ^ 31 ≤ t < 2 ^ 31 →
  readResponseHeader (be_encode 4 a ++ be_encode 4 t ++ b) = Some (mkRespHdr a t, b).
Proof. intros Ha Ht. unfold readResponseHeader. rewrite readI32_be by done. cbn [mbind option_bind]. by rewrite readI32_be by done. Qed.

Lemma readScrapeResult_short b x r : readScrapeResult b = Some (x, r) → (length r + 12 = length b)%nat.
Proof.
  unfold readScrapeResult, readI32, readN.
  destruct (Nat.ltb_spec (length b) 4); [done|]. cbn [mbind option_bind].
  destruct (Nat.ltb_spec (length (drop 4 b)) 4) as [|H1]; [done|]. cbn [mbind option_bind].
  destruct (Nat.ltb_spec (length (drop 4 (drop 4 b))) 4) as [|H2]; [done|]. cbn [mbind option_bind].
  intros [= _ <-]. rewrite !length_drop in *. lia.
Qed.

(** *** Options *)
Lemma parseOptions_Encode fuel uri : ∀ f, (length uri ≤ fuel)%nat → (length (Options_Encode fuel uri) < f)%nat →
  parseOptions f (Options_Encode fuel uri) = Some uri.
Proof.
  revert uri. induction fuel as [|fuel IH]; intros uri f Hu Hf.
  { destruct uri; [|cbn in Hu; lia]. destruct f; [cbn in Hf; lia|done]. }
  destruct uri as [|c uri]; cbn [Options_Encode] in *; [destruct f; [cbn in Hf; lia|done]|].
  set (w := c :: uri) in *. set (l := Nat.min (length w) 255) in *. assert (Hl : (0 < l)%nat) by (unfold l, w; cbn [length]; lia).
  assert (Hlw : (l ≤ length w)%nat) by (unfold l; lia).
  destruct f as [|f]; [cbn in Hf; lia|]. cbn [length] in Hf. rewrite length_app, length_take in Hf.
  change (parseOptions (S f) (optionTypeURLData :: Z.of_nat l :: take l w ++ Options_Encode fuel (drop l w))) with
    ('(d, b) ← readN (Z.to_nat (Z.of_nat l)) (take l w ++ Options_Encode fuel (drop l w)); r ← parseOptions f b; Some (d ++ r)).
  rewrite Nat2Z.id, readN_app by (rewrite length_take; lia). cbn [mbind option_bind].
  rewrite IH; [|rewrite length_drop; unfold w in *; cbn [length] in *; lia|lia]. cbn [mbind option_bind]. by rewrite take_drop.
Qed.

(** ** Announces *)
Record announce_ok (r : AnnounceRequest) : Prop := {
  ao_InfoHash : length (InfoHash r) = 20%nat;
  ao_PeerId : length (PeerId r) = 20%nat;
  ao_Downloaded : - 2 ^ 63 ≤ Downloaded r < 2 ^ 63;
  ao_Left : - 2 ^ 63 ≤ Left r < 2 ^ 63;
  ao_Uploaded : - 2 ^ 63 ≤ Uploaded r < 2 ^ 63;
  ao_Event : - 2 ^ 31 ≤ Event r < 2 ^ 31;
  ao_IPAddress : 0 ≤ IPAddress r < 2 ^ 32;
  ao_Key : - 2 ^ 31 ≤ Key r < 2 ^ 31;
  ao_NumWant : - 2 ^ 31 ≤ NumWant r < 2 ^ 31;
  ao_Port : 0 ≤ Port r < 2 ^ 16 }.

Definition withoutBaseline (r : AnnounceRequest) : AnnounceRequest :=
  mkAnnounce (InfoHash r) (PeerId r) (Downloaded r) (Left r) (Uploaded r) (Event r) (IPAddress r) (Key r) (NumWant r) (Port r) false.

Lemma readRequestHeader_be h b : 0 ≤ rqConnectionId h < 2 ^ 64 → - 2 ^ 31 ≤ rqAction h < 2 ^ 31 → - 2 ^ 31 ≤ rqTransactionId h < 2 ^ 31 →
  readRequestHeader (marshalRequestHeader h ++ b) = Some (h, b).
Proof.
  intros Hc Ha Ht. unfold readRequestHeader, marshalRequestHeader. rewrite <- !app_assoc, readN_be. cbn [mbind option_bind].
  rewrite readI32_be by done. cbn [mbind option_bind]. rewrite readI32_be by done. cbn [mbind option_bind].
  rewrite be_decode_encode by (cbn; lia). by destruct h.
Qed.

Lemma readAnnounce_marshal r b : announce_ok r →
  readAnnounce (marshalAnnounce r ++ b) = Some (withoutBaseline r, (if BaselineProvider r then 1 else 0) :: b).
Proof.
  intros []. unfold readAnnounce, marshalAnnounce. rewrite <- !app_assoc.
  do 2 (rewrite readN_app by done; cbn [mbind option_bind]). do 3 (rewrite readN_be; cbn [mbind option_bind]).
  rewrite readI32_be by done. cbn [mbind option_bind]. rewrite readN_be. cbn [mbind option_bind].
  do 2 (rewrite readI32_be by done; cbn [mbind option_bind]). rewrite readN_be. cbn [mbind option_bind].
  rewrite !sdecode_encode, !be_decode_encode by (cbn; lia). done.
Qed.

(** A tracker that reads an announce as BEP 15 and BEP 41 have it finds
    the connection and transaction of the request and all of its fields, but
    takes the flag that ReliableBT appends for the first option: the request
    URI gets through exactly if the client is a baseline provider, and is lost
    otherwise. *)
Theorem announce_request_read id tid req uri :
  0 ≤ id < 2 ^ 64 → - 2 ^ 31 ≤ tid < 2 ^ 31 → announce_ok req →
  ∃ body opts,
    readRequestHeader (marshalRequestHeader (mkReqHdr id ActionAnnounce tid) ++ announceBody req uri) =
      Some (mkReqHdr id ActionAnnounce tid, body) ∧
    readAnnounce body = Some (withoutBaseline req, opts) ∧
    parseOptions (S (length opts)) opts = Some (if BaselineProvider req then uri else []).
Proof.
  intros Hid Ht Hr. unfold announceBody. eexists _, _. split_and!.
  - by apply readRequestHeader_be.
  - by apply readAnnounce_marshal.
  - destruct (BaselineProvider req); [|done].
    transitivity (parseOptions (S (length (Options_EncodeAll uri))) (Options_EncodeAll uri)); [done|].
    unfold Options_EncodeAll. apply parseOptions_Encode; lia.
Qed.

(** ** Sending *)
Lemma timeout_eq n : timeout n = 15 * Second * 2 ^ Z.of_nat (Nat.min n 8).
Proof.
  unfold timeout. destruct (Nat.ltb_spec 8 n); [by rewrite Nat.min_r by lia|]. rewrite Nat.min_l by lia.
  assert (Hl : ∀ k d, timeoutLoop k d = d * 2 ^ Z.of_nat k).
  { induction k as [|k IH]; intros d; cbn [timeoutLoop]; [by rewrite Z.mul_1_r|].
    rewrite IH, Nat2Z.inj_succ, Z.pow_succ_r by lia. lia. }
  apply Hl.
Qed.

(** The connection id of a packet: the protocol's own for a connect, and
    otherwise one that was issued less than a minute before, or just now. *)
Definition connIdUsable (cl : Client) (action id : Z) (tk : tick) : Prop :=
  if action =? ActionConnect then id = ConnectRequestConnectionId
  else
    connId cl = id ∧
    ((∃ t, connIdIssued cl = Some t ∧ tkNow tk - t < Minute) ∨
     (connIdIssued cl = Some (tkConnected tk) ∧
      ∃ body, tkConnect tk = Good body ∧ readConnectionResponse body = Some id)).

Lemma connIdForRequest_usable cl action tk cl' id :
  connIdForRequest cl action tk = (cl', Good id) → connIdUsable cl' action id tk.
Proof.
  unfold connIdForRequest, connIdUsable. destruct (action =? ActionConnect); [by intros [= <- <-]|].
  unfold connect, connIdFresh. destruct (connIdIssued cl) as [t|] eqn:Et; [destruct (Z.ltb_spec (tkNow tk - t) Minute)|].
  { intros [= <- <-]. split; [done|]. left. by exists t. }
  all: destruct (tkConnect tk) as [body|]; [|done]; destruct (readConnectionResponse body) as [i|] eqn:Ei; [|done];
    intros [= <- <-]; (split; [done|]); right; (split; [done|]); by exists body.
Qed.

(** The packets that a request writes carry its action, transaction and
    body, with a connection id that was issued less than a minute before; the
    [k]-th is waited for 15 seconds times two to the power of [k], and none
    longer than 3840 seconds; only an error ends the series. *)
Theorem requestWriter_sends ticks n cl action body tId cl' sent err :
  requestWriter n cl action body tId ticks = (cl', sent, err) →
  (∀ k p w, sent !! k = Some (p, w) →
     w = 15 * Second * 2 ^ Z.of_nat (Nat.min (n + k) 8) ∧ w ≤ maxTimeout ∧
     ∃ tk cl1 id, ticks !! k = Some tk ∧ connIdUsable cl1 action id tk ∧
       p = marshalRequestHeader (mkReqHdr id action tId) ++ body) ∧
  (err = None → length sent = length ticks).
Proof.
  revert n cl cl' sent err. induction ticks as [|tk ticks IH]; intros n cl cl' sent err; cbn [requestWriter].
  { by intros [= <- <- <-]. }
  destruct (connIdForRequest cl action tk) as [cl1 [id|e]] eqn:Ei; [|by intros [= <- <- <-]].
  destruct (tkWrite tk) as [e|]; [by intros [= <- <- <-]|]. apply connIdForRequest_usable in Ei.
  assert (Hmax : ∀ k, 15 * Second * 2 ^ Z.of_nat (Nat.min k 8) ≤ maxTimeout).
  { intros k. pose proof (Z.pow_le_mono_r 2 (Z.of_nat (Nat.min k 8)) 8 ltac:(lia) ltac:(lia)). unfold maxTimeout, Second. lia. }
  assert (Hhere : ∀ p w, (marshalRequestHeader (mkReqHdr id action tId) ++ body, timeout n) = (p, w) →
    w = 15 * Second * 2 ^ Z.of_nat (Nat.min (n + 0) 8) ∧ w ≤ maxTimeout ∧
     ∃ tk0 cl2 id, (tk :: ticks) !! 0%nat = Some tk0 ∧ connIdUsable cl2 action id tk0 ∧ p = marshalRequestHeader (mkReqHdr id action tId) ++ body).
  { intros p w [= <- <-]. rewrite timeout_eq, Nat.add_0_r. split_and!; [done|apply Hmax|]. by exists tk, cl1, id. }
  destruct (tkDone tk).
  - intros [= <- <- <-]. split; [|done]. intros [|k] p w Hk; [|done]. apply Hhere. exact (inj Some _ _ Hk).
  - destruct (requestWriter (S n) cl1 action body tId ticks) as [[cl2 sent2] err2] eqn:Er. intros [= <- <- <-].
    destruct (IH _ _ _ _ _ Er) as [H1 H2]. split; [|intros He; cbn; by rewrite H2].
    intros [|k] p w Hk; [apply Hhere; exact (inj Some _ _ Hk)|].
    replace (n + S k)%nat with (S n + k)%nat by lia. exact (H1 k p w Hk).
Qed.

(** ** Receiving *)
Section Dispatching.
Context {A : Type}.
Implicit Types (d : Dispatcher A) (ls : list (dlabel A)).

(** The transaction and the action of a call. *)
Definition callOf (p : Phase A) : Z * Z :=
  match p with Waiting t a => (t, a) | Ending t a _ => (t, a) | Ended t a _ => (t, a) end.

Definition live (p : Phase A) : bool := match p with Ended _ _ _ => false | _ => true end.

(** A response that came in a packet among [ls]. *)
Definition received ls (dr : DispatchedResponse A) : Prop :=
  ∃ b, LPacket b (drAddr dr) ∈ ls ∧ readResponseHeader b = Some (drHeader dr, drBody dr).

Definition answers ls (p : Phase A) (dr : DispatchedResponse A) : Prop :=
  received ls dr ∧ rsTransactionId (drHeader dr) = (callOf p).1.

Record dispatcherOk ls d : Prop := {
  do_trans t c : transactions d !! t = Some c ↔ ∃ p, calls d !! c = Some p ∧ live p = true ∧ (callOf p).1 = t;
  do_chan c dr : respChan d !! c = Some dr → ∃ p, calls d !! c = Some p ∧ answers ls p dr;
  do_blocked c dr : blocked d = Some (c, dr) → ∃ p, calls d !! c = Some p ∧ answers ls p dr;
  do_result c p body addr : calls d !! c = Some p →
    match p with
    | Waiting _ _ => False
    | Ending _ _ res => res = Good (body, addr)
    | Ended _ _ res => res = Good (body, addr)
    end → received ls (mkDR (mkRespHdr (callOf p).2 (callOf p).1) body addr) }.

Lemma answers_more ls l p dr : answers ls p dr → answers (ls ++ [l]) p dr.
Proof. intros [(b & Hb & Hr) Ht]. split; [|done]. exists b. split; [|done]. apply elem_of_app. by left. Qed.

Lemma received_more ls l dr : received ls dr → received (ls ++ [l]) dr.
Proof. intros (b & Hb & Hr). exists b. split; [|done]. apply elem_of_app. by left. Qed.

(** A call changes its phase and keeps its transaction and action. *)
Lemma dispatcherOk_phase ls d c p p' tr ch bl :
  dispatcherOk ls d → calls d !! c = Some p → callOf p' = callOf p →
  (if live p' then tr = transactions d ∧ live p = true else tr = delete (callOf p).1 (transactions d) ∧ live p = true) →
  (∀ c' dr, ch !! c' = Some dr → respChan d !! c' = Some dr) → bl = blocked d →
  (∀ body addr, match p' with Waiting _ _ => False | Ending _ _ res => res = Good (body, addr) | Ended _ _ res => res = Good (body, addr) end →
     received ls (mkDR (mkRespHdr (callOf p').2 (callOf p').1) body addr)) →
  dispatcherOk ls (mkDispatcher tr ch (<[c := p']> (calls d)) bl).
Proof.
  intros [Htr Hch Hbl Hres] Hc Hcall Htrans Hchan -> Hp'. split; cbn [transactions respChan calls blocked].
  - intros t c'. destruct (live p') eqn:El; destruct Htrans as [-> Hl].
    + rewrite Htr. destruct (decide (c' = c)) as [->|Hne]; [|by rewrite lookup_insert_ne].
      rewrite lookup_insert_eq. split.
      * intros (q & Hq & _ & <-). exists p'. rewrite Hcall. by simplify_eq.
      * intros (q & [= <-] & _ & <-). exists p. by rewrite Hcall.
    + destruct (decide (c' = c)) as [->|Hne].
      * rewrite lookup_insert_eq. split; [|intros (q & [= <-] & ? & _); by rewrite El in *].
        intros [Hn H]%lookup_delete_Some. apply Htr in H as (q & Hq & _ & Ht). simplify_eq.
      * rewrite lookup_insert_ne by done. rewrite lookup_delete_Some, Htr. split; [by intros [_ ?]|]. intros H. split; [|done].
        intros Ht. destruct H as (q & Hq & Hlq & Hqt). apply Hne.
        assert (H1 : transactions d !! t = Some c') by (apply Htr; by exists q).
        assert (H2 : transactions d !! t = Some c) by (apply Htr; by exists p). by simplify_eq.
  - intros c' dr H. destruct (Hch c' dr (Hchan _ _ H)) as (q & Hq & Ha).
    destruct (decide (c' = c)) as [->|Hne]; [|rewrite lookup_insert_ne by done; by exists q].
    rewrite lookup_insert_eq. exists p'. split; [done|]. destruct Ha as [Ha Ht]. split; [done|]. rewrite Hcall. by simplify_eq.
  - intros c' dr H. destruct (Hbl c' dr H) as (q & Hq & Ha).
    destruct (decide (c' = c)) as [->|Hne]; [|rewrite lookup_insert_ne by done; by exists q].
    rewrite lookup_insert_eq. exists p'. split; [done|]. destruct Ha as [Ha Ht]. split; [done|]. rewrite Hcall. by simplify_eq.
  - intros c' q body addr. destruct (decide (c' = c)) as [->|Hne].
    + rewrite lookup_insert_eq. intros [= <-]. apply Hp'.
    + rewrite lookup_insert_ne by done. apply Hres.
Qed.

Lemma dispatcherOk_more ls l d : dispatcherOk ls d → dispatcherOk (ls ++ [l]) d.
Proof.
  intros [Htr Hch Hbl Hres]. split.
  - done.
  - intros c dr H. destruct (Hch c dr H) as (p & Hp & Ha). exists p. split; [done|]. by apply answers_more.
  - intros c dr H. destruct (Hbl c dr H) as (p & Hp & Ha). exists p. split; [done|]. by apply answers_more.
  - intros c p body addr Hp Hr. apply received_more. by apply (Hres c).
Qed.

(** A response on its way to its call. *)
Lemma sendResponse_ok ls d c p dr : dispatcherOk ls d → calls d !! c = Some p → answers ls p dr →
  dispatcherOk ls (sendResponse d c dr).
Proof.
  intros [Htr Hch Hbl Hres] Hp Ha. unfold sendResponse. destruct (respChan d !! c) eqn:Ec; split; cbn [transactions respChan calls blocked]; try done.
  - intros c' dr' [= <- <-]. by exists p.
  - intros c' dr' [[<- <-]|[Hn H]]%lookup_insert_Some; [by exists p|by apply Hch].
Qed.

Lemma dispatcher_step ls d l d' : dispatcherOk ls d → dstep d l = Some d' → dispatcherOk (ls ++ [l]) d'.
Proof.
  intros Hok Hs. destruct l as [c action random|b addr| |c|c e|c]; cbn [dstep] in Hs.
  - destruct (blocked d) as [|] eqn:Eb; [done|]. destruct (calls d !! c) eqn:Ec; [done|].
    unfold NewTransaction in Hs. destruct (freshId d random) as [id|] eqn:Ef; [|done]. injection Hs as <-.
    assert (Hid : transactions d !! id = None).
    { clear Hok Eb. induction random as [|i random IH]; [done|]. cbn in Ef. destruct (transactions d !! i) eqn:Ei; [by apply IH|by simplify_eq]. }
    destruct (dispatcherOk_more ls (LNew c action random) d Hok) as [Htr Hch Hbl Hres]. split; cbn [transactions respChan calls blocked].
    + intros t c'. rewrite lookup_insert_Some, Htr. split.
      * intros [[<- <-]|[Hne (p & Hp & ? & ?)]]; [exists (Waiting id action); by rewrite lookup_insert_eq|].
        exists p. rewrite lookup_insert_ne; [done|]. intros ->. by simplify_eq.
      * intros (p & [[<- <-]|[Hne Hp]]%lookup_insert_Some & Hl & <-); [by left|right]. split; [|by exists p].
        intros ->. assert (transactions d !! (callOf p).1 = Some c') by (apply Htr; by exists p). by simplify_eq.
    + intros c' dr H. destruct (Hch c' dr H) as (p & Hp & Ha). exists p. split; [|done]. rewrite lookup_insert_ne; [done|]. intros ->. by simplify_eq.
    + intros c' dr H. by rewrite Eb in H.
    + intros c' p body addr. destruct (decide (c' = c)) as [->|Hne]; [rewrite lookup_insert_eq; by intros [= <-]|rewrite lookup_insert_ne by done; apply Hres].
  - destruct (blocked d); [done|]. injection Hs as <-. unfold Dispatch.
    destruct (readResponseHeader b) as [[rh body]|] eqn:Er; [|by apply dispatcherOk_more].
    destruct (transactions d !! rsTransactionId rh) as [c|] eqn:Et; [|by apply dispatcherOk_more].
    apply (do_trans _ _ Hok) in Et as (p & Hp & _ & Ht). eapply sendResponse_ok; [by apply dispatcherOk_more|done|].
    split; [|done]. exists b. split; [|done]. apply elem_of_app. right. by constructor.
  - destruct (blocked d) as [[c dr]|] eqn:Eb; [|done]. destruct (respChan d !! c) eqn:Ec; [done|]. injection Hs as <-.
    destruct (do_blocked _ _ Hok c dr Eb) as (p & Hp & Ha).
    eapply sendResponse_ok; [by apply dispatcherOk_more|done|by apply answers_more].
  - destruct (calls d !! c) as [[tid action| |]|] eqn:Ec; try done. destruct (respChan d !! c) as [dr|] eqn:Er; [|done].
    injection Hs as <-. destruct (do_chan _ _ Hok c dr Er) as (p & Hp & (b & Hb & Hrd) & Ht). simplify_eq.
    eapply dispatcherOk_phase; [by apply dispatcherOk_more|done|done|done|by intros c' dr' [_ ?]%lookup_delete_Some|done|].
    intros body addr. unfold requestResult. destruct (Z.eqb_spec (rsAction (drHeader dr)) action) as [<-|]; [|by destruct (_ =? ActionError)].
    intros [= <- <-]. cbn. exists b. split; [apply elem_of_app; by left|]. rewrite Hrd. cbn in *. subst. by destruct (drHeader dr).
  - destruct (calls d !! c) as [[tid action| |]|] eqn:Ec; try done. injection Hs as <-.
    eapply dispatcherOk_phase; [by apply dispatcherOk_more|done|done|done|done|done|done].
  - destruct (blocked d) eqn:Eb; [done|]. destruct (calls d !! c) as [[|tid action res|]|] eqn:Ec; try done. injection Hs as <-.
    eapply dispatcherOk_phase; [by apply dispatcherOk_more|done|done|done|done|done|].
    intros body addr ->. cbn. apply received_more. apply (do_result _ _ Hok c _ body addr Ec). done.
Qed.

Lemma dispatcher_run ls : ∀ ls0 d d', dispatcherOk ls0 d → drun d ls = Some d' → dispatcherOk (ls0 ++ ls) d'.
Proof.
  induction ls as [|l ls IH]; intros ls0 d d' Hok; cbn [drun]; [intros [= <-]; by rewrite app_nil_r|].
  destruct (dstep d l) as [d1|] eqn:Es; [|done]. cbn [mbind option_bind]. intros Hr.
  replace (ls0 ++ l :: ls) with ((ls0 ++ [l]) ++ ls) by by rewrite <- app_assoc.
  eapply IH; [|done]. by eapply dispatcher_step.
Qed.

Lemma dispatcher_init : dispatcherOk [] (Dispatcher0 : Dispatcher A).
Proof.
  split; cbn.
  - intros t c. rewrite lookup_empty. split; [done|]. intros (p & Hp & _). by rewrite lookup_empty in Hp.
  - intros c dr H. by rewrite lookup_empty in H.
  - done.
  - intros c p body addr H. by rewrite lookup_empty in H.
Qed.

(** However calls, packets, timeouts and cancellations interleave, no two
    calls that have not returned share a transaction, and a response that a
    call returns came in a packet with the transaction and the action of that
    call, from the address it reports. *)
Theorem responses_matched ls d : drun Dispatcher0 ls = Some d →
  (∀ c1 c2 p1 p2, calls d !! c1 = Some p1 → calls d !! c2 = Some p2 → live p1 = true → live p2 = true →
     (callOf p1).1 = (callOf p2).1 → c1 = c2) ∧
  (∀ c tid action body addr, calls d !! c = Some (Ended tid action (Good (body, addr))) →
     ∃ b, LPacket b addr ∈ ls ∧ readResponseHeader b = Some (mkRespHdr action tid, body)).
Proof.
  intros Hr. pose proof (dispatcher_run ls [] _ _ dispatcher_init Hr) as Hok. cbn [app] in Hok. split.
  - intros c1 c2 p1 p2 H1 H2 Hl1 Hl2 Ht.
    assert (transactions d !! (callOf p1).1 = Some c1) by (apply (do_trans _ _ Hok); by exists p1).
    assert (transactions d !! (callOf p1).1 = Some c2) by (apply (do_trans _ _ Hok); by exists p2). by simplify_eq.
  - intros c tid action body addr Hc. exact (do_result _ _ Hok c _ body addr Hc eq_refl).
Qed.

(** ** Duplicates

    The reader keeps the lock while it sends on a channel that is full, and a
    call that has stopped receiving needs the lock to return. *)
Definition stuckOn d (c : nat) : Prop :=
  ∃ dr dr', blocked d = Some (c, dr) ∧ respChan d !! c = Some dr' ∧ ∃ t a res, calls d !! c = Some (Ending t a res).

Lemma stuck_step d c l d' : stuckOn d c → dstep d l = Some d' →
  stuckOn d' c ∧ ∀ c' t a res, calls d' !! c' = Some (Ended t a res) → calls d !! c' = Some (Ended t a res).
Proof.
  intros (dr & dr' & Hb & Hch & t & a & res & Hc) Hs. destruct l as [c' action random|b addr| |c'|c' e|c']; cbn [dstep] in Hs; rewrite Hb in Hs; try done.
  - by rewrite Hch in Hs.
  - destruct (calls d !! c') as [[tid action| |]|] eqn:Ec; try done. destruct (respChan d !! c') as [dr1|]; [|done]. injection Hs as <-.
    assert (c' ≠ c) by (intros ->; by rewrite Hc in Ec). split.
    + exists dr, dr'. cbn. split_and!; [by rewrite <- Hb|by rewrite lookup_delete_ne|]. exists t, a, res. by rewrite lookup_insert_ne.
    + cbn. intros c2 t2 a2 r2. destruct (decide (c2 = c')) as [->|]; [by rewrite lookup_insert_eq|by rewrite lookup_insert_ne].
  - destruct (calls d !! c') as [[tid action| |]|] eqn:Ec; try done. injection Hs as <-.
    assert (c' ≠ c) by (intros ->; by rewrite Hc in Ec). split.
    + exists dr, dr'. cbn. split_and!; [by rewrite <- Hb|done|]. exists t, a, res. by rewrite lookup_insert_ne.
    + cbn. intros c2 t2 a2 r2. destruct (decide (c2 = c')) as [->|]; [by rewrite lookup_insert_eq|by rewrite lookup_insert_ne].
Qed.

Lemma stuck_run c ls : ∀ d d', stuckOn d c → drun d ls = Some d' →
  stuckOn d' c ∧ ∀ c' t a res, calls d' !! c' = Some (Ended t a res) → calls d !! c' = Some (Ended t a res).
Proof.
  induction ls as [|l ls IH]; intros d d' Hst; cbn [drun]; [by intros [= <-]|].
  destruct (dstep d l) as [d1|] eqn:Es; [|done]. cbn [mbind option_bind]. intros Hr.
  destruct (stuck_step d c l d1 Hst Es) as [Hst1 H1]. destruct (IH d1 d' Hst1 Hr) as [Hst2 H2]. split; [done|].
  intros c' t a res H. by apply H1, H2.
Qed.

(** Three copies of a response that arrive in a burst, the third before
    the call has returned, stop the client for good: the reader waits on the
    channel of the call with the lock held, the call waits for the lock, and
    no call returns any more, whatever happens. *)
Theorem duplicate_responses_deadlock d c tid action act' b addr body :
  blocked d = None → calls d !! c = Some (Waiting tid action) → transactions d !! tid = Some c → respChan d !! c = None →
  readResponseHeader b = Some (mkRespHdr act' tid, body) →
  ∃ d', drun d [LPacket b addr; LPacket b addr; LReceive c; LUnblock; LPacket b addr] = Some d' ∧
    ∀ ls d'', drun d' ls = Some d'' → blocked d'' ≠ None ∧
      ∀ c' t a res, calls d'' !! c' = Some (Ended t a res) → calls d' !! c' = Some (Ended t a res).
Proof.
  intros Hb Hc Ht Hch Hr. set (dr := mkDR (mkRespHdr act' tid) body addr).
  destruct d as [tr ch cs bl]; cbn [transactions respChan calls blocked] in *; subst bl.
  set (cs' := <[c := Ending tid action (requestResult action dr)]> cs).
  exists (mkDispatcher tr (<[c := dr]> ch) cs' (Some (c, dr))). split.
  - assert (Hd : ∀ ch0 cs0, dstep (mkDispatcher tr ch0 cs0 None) (LPacket b addr) =
      Some (match ch0 !! c with None => mkDispatcher tr (<[c := dr]> ch0) cs0 None | Some _ => mkDispatcher tr ch0 cs0 (Some (c, dr)) end)).
    { intros ch0 cs0. cbn [dstep blocked]. unfold Dispatch. rewrite Hr. cbn [rsTransactionId transactions]. by rewrite Ht. }
    cbn [drun]. rewrite Hd, Hch. cbn [mbind option_bind]. rewrite Hd, lookup_insert_eq. cbn [mbind option_bind].
    cbn [dstep calls respChan]. rewrite Hc, lookup_insert_eq. cbn [mbind option_bind dstep blocked respChan transactions].
    rewrite lookup_delete_eq. cbn [mbind option_bind]. unfold sendResponse. cbn [respChan transactions calls]. rewrite lookup_delete_eq.
    cbn [blocked]. unfold Dispatch. rewrite Hr. cbn [rsTransactionId transactions]. rewrite Ht. unfold sendResponse. cbn [respChan transactions calls].
    rewrite lookup_insert_eq. cbn [fst mbind option_bind]. by rewrite insert_delete_eq, insert_insert_eq.
  - intros ls d'' Hrun. eapply (stuck_run c) in Hrun as [(x & y & Hx & _) H2]; [split; [by rewrite Hx|exact H2]|].
    exists dr, dr. cbn. split_and!; [done|by rewrite lookup_insert_eq|]. eexists _, _, _. by apply lookup_insert_eq.
Qed.
End Dispatching.

(** ** Responses *)
Definition marshalAnnounceResponse (tid : Z) (h : AnnounceResponseHeader) (peers : list Z) : list Z :=
  be_encode 4 ActionAnnounce ++ be_encode 4 tid ++
  be_encode 4 (Interval h) ++ be_encode 4 (Leechers h) ++ be_encode 4 (Seeders h) ++ peers.

Definition marshalScrapeResult (x : ScrapeInfohashResult) : list Z :=
  be_encode 4 (scSeeders x) ++ be_encode 4 (scCompleted x) ++ be_encode 4 (scLeechers x).

Definition in_i32 (z : Z) : Prop := - 2 ^ 31 ≤ z < 2 ^ 31.

Lemma readScrapes_marshal out : Forall (λ x, in_i32 (scSeeders x) ∧ in_i32 (scCompleted x) ∧ in_i32 (scLeechers x)) out →
  ∀ fuel, (length (flat_map marshalScrapeResult out) ≤ fuel)%nat → readScrapes fuel (flat_map marshalScrapeResult out) = Good out.
Proof.
  induction 1 as [|x out (Hs & Hc & Hl) _ IH]; intros fuel Hf; [by destruct fuel|]. cbn [flat_map] in *.
  rewrite length_app in Hf. change (length (marshalScrapeResult x)) with 12%nat in Hf. destruct fuel as [|fuel]; [lia|].
  assert (Hx : readScrapeResult (marshalScrapeResult x ++ flat_map marshalScrapeResult out) = Some (x, flat_map marshalScrapeResult out)).
  { unfold readScrapeResult, marshalScrapeResult. rewrite <- !app_assoc. do 3 (rewrite readI32_be by done; cbn [mbind option_bind]). by destruct x. }
  destruct (marshalScrapeResult x ++ flat_map marshalScrapeResult out) as [|b r] eqn:Eb; [done|].
  cbn [readScrapes]. rewrite Hx, IH by lia. done.
Qed.

Section Delivery.
Context {A : Type} (UnmarshalIPv4 UnmarshalIPv6 : list Z → option (list (list Z * Z))) (ipv6 : A → bool).

(** The tracker's response to an announce is delivered: once it has
    arrived, the call that waits for it can return, its transaction is
    forgotten, and the announce reports the interval, the numbers of leechers
    and seeders and the peers of the response, read in the address family of
    the tracker. *)
Theorem announce_delivers (d : Dispatcher A) c tid h pb peers addr :
  blocked d = None → calls d !! c = Some (Waiting tid ActionAnnounce) → transactions d !! tid = Some c → respChan d !! c = None →
  in_i32 tid → in_i32 (Interval h) → in_i32 (Leechers h) → in_i32 (Seeders h) →
  (if ipv6 addr then UnmarshalIPv6 pb else UnmarshalIPv4 pb) = Some peers →
  ∃ d' res, drun d [LPacket (marshalAnnounceResponse tid h pb) addr; LReceive c; LEnd c] = Some d' ∧
    calls d' !! c = Some (Ended tid ActionAnnounce res) ∧ transactions d' !! tid = None ∧
    Announce UnmarshalIPv4 UnmarshalIPv6 ipv6 res = Good (h, peers).
Proof.
  intros Hb Hc Ht Hch Htid Hi Hl Hs Hp. destruct d as [tr ch cs bl]; cbn [transactions respChan calls blocked] in *; subst bl.
  set (body := be_encode 4 (Interval h) ++ be_encode 4 (Leechers h) ++ be_encode 4 (Seeders h) ++ pb).
  eexists _, (Good (body, addr)). split; [|split; [|split]].
  - cbn [drun dstep blocked mbind option_bind]. unfold Dispatch, marshalAnnounceResponse. rewrite readResponseHeader_be by done.
    cbn [rsTransactionId transactions]. rewrite Ht. unfold sendResponse. cbn [respChan transactions calls]. rewrite Hch.
    cbn [fst calls respChan]. rewrite Hc, lookup_insert_eq. cbn [mbind option_bind blocked calls]. by rewrite lookup_insert_eq.
  - cbn [calls]. by rewrite lookup_insert_eq.
  - cbn. by rewrite lookup_delete_eq.
  - unfold Announce. cbn [mbind result_bind]. unfold body, readAnnounceResponseHeader.
    do 3 (rewrite readI32_be by done; cbn [mbind option_bind]). rewrite Hp. by destruct h.
Qed.
End Delivery.

(** ** An example *)
Module UdpExample.
Definition req (bp : bool) : AnnounceRequest := mkAnnounce (replicate 20 7) (replicate 20 9) 0 (-1) 5 2 0 (-3) (-1) 6881 bp.
Definition waiting : Dispatcher Z := mkDispatcher {[ -5 := 0%nat ]} ∅ {[ 0%nat := Waiting (-5) ActionAnnounce ]} None.
Definition compact4 (b : list Z) : option (list (list Z * Z)) :=
  match b with [] => Some [] | [a; b; c; d; p; q] => Some [([a; b; c; d], 256 * p + q)] | _ => None end.
Definition response : list Z := marshalAnnounceResponse (-5) (mkAnnHdr 1800 3 4) [10; 0; 0; 1; 26; 225].
Definition labels : list (dlabel Z) := [LNew 0 ActionAnnounce [-5]; LPacket response 1; LReceive 0; LEnd 0].
Definition ended : Dispatcher Z := default Dispatcher0 (drun Dispatcher0 labels).
Definition ticks : list tick := [mkTick 0 (Good (be_encode 8 99)) 5 None false; mkTick (70 * Second) (Good (be_encode 8 98)) (71 * Second) None true].

Lemma req_ok bp : announce_ok (req bp).
Proof. split; cbn; done || lia. Qed.
End UdpExample.

Lemma announce_request_read_witness :
  ∃ body opts,
    readRequestHeader (marshalRequestHeader (mkReqHdr 1 ActionAnnounce (-5)) ++ announceBody (UdpExample.req false) [47; 97]) =
      Some (mkReqHdr 1 ActionAnnounce (-5), body) ∧
    readAnnounce body = Some (withoutBaseline (UdpExample.req false), opts) ∧
    parseOptions (S (length opts)) opts = Some [].
Proof. apply (announce_request_read 1 (-5) (UdpExample.req false) [47; 97]); [lia|lia|apply UdpExample.req_ok]. Defined.

Lemma requestWriter_sends_witness :
  (∀ k p w, (requestWriter 0 (mkUdpClient 0 None) ActionAnnounce [] (-5) UdpExample.ticks).1.2 !! k = Some (p, w) →
     w = 15 * Second * 2 ^ Z.of_nat (Nat.min (0 + k) 8) ∧ w ≤ maxTimeout ∧
     ∃ tk cl1 id, UdpExample.ticks !! k = Some tk ∧ connIdUsable cl1 ActionAnnounce id tk ∧
       p = marshalRequestHeader (mkReqHdr id ActionAnnounce (-5)) ++ []) ∧
  (Some UCtx = None → 2%nat = 2%nat).
Proof.
  apply (requestWriter_sends UdpExample.ticks 0 (mkUdpClient 0 None) ActionAnnounce [] (-5) (mkUdpClient 98 (Some (71 * Second)))).
  vm_compute. reflexivity.
Defined.

Lemma responses_matched_witness :
  (∀ c1 c2 p1 p2, calls UdpExample.ended !! c1 = Some p1 → calls UdpExample.ended !! c2 = Some p2 → live p1 = true → live p2 = true →
     (callOf p1).1 = (callOf p2).1 → c1 = c2) ∧
  (∀ c tid action body addr, calls UdpExample.ended !! c = Some (Ended tid action (Good (body, addr))) →
     ∃ b, LPacket b addr ∈ UdpExample.labels ∧ readResponseHeader b = Some (mkRespHdr action tid, body)).
Proof. apply (responses_matched UdpExample.labels UdpExample.ended). vm_compute. reflexivity. Defined.

Lemma duplicate_responses_deadlock_witness :
  ∃ d', drun UdpExample.waiting [LPacket UdpExample.response 1; LPacket UdpExample.response 1; LReceive 0; LUnblock; LPacket UdpExample.response 1] = Some d' ∧
    ∀ ls d'', drun d' ls = Some d'' → blocked d'' ≠ None ∧
      ∀ c' t a res, calls d'' !! c' = Some (Ended t a res) → calls d' !! c' = Some (Ended t a res).
Proof.
  apply (duplicate_responses_deadlock UdpExample.waiting 0 (-5) ActionAnnounce ActionAnnounce UdpExample.response 1 (drop 8 UdpExample.response));
    vm_compute; reflexivity.
Defined.

Lemma announce_delivers_witness :
  ∃ d' res, drun UdpExample.waiting [LPacket (marshalAnnounceResponse (-5) (mkAnnHdr 1800 3 4) [10; 0; 0; 1; 26; 225]) 1; LReceive 0; LEnd 0] = Some d' ∧
    calls d' !! 0%nat = Some (Ended (-5) ActionAnnounce res) ∧ transactions d' !! (-5) = None ∧
    Announce UdpExample.compact4 UdpExample.compact4 (λ _, false) res = Good (mkAnnHdr 1800 3 4, [([10; 0; 0; 1], 6881)]).
Proof.
  apply (announce_delivers UdpExample.compact4 UdpExample.compact4 (λ _, false) UdpExample.waiting 0 (-5) (mkAnnHdr 1800 3 4) [10; 0; 0; 1; 26; 225] [([10; 0; 0; 1], 6881)] 1);
    [done|done|done|done|unfold in_i32; cbn; lia..|done].
Defined.

(** A scrape with more results than were asked for is refused. *)
Example scrape_too_many :
  Scrape (A:=Z) [replicate 20 0] (Good (replicate 24 0, 1)) = Bad (UTooMany 2 1).
Proof. vm_compute. reflexivity. Qed.
