(* ===== verification/Trackers.v ===== *)
(** Announcing to trackers: src/tracker/http/{http,peer,protocol}.go,
    src/tracker/udp.go and src/tracker_scraper.go.

    The textual form of addresses ([net.IP.String], [net.ParseIP]) and krpc's
    compact address lists are parameters. *)
From stdpp Require Import base numbers list gmap strings.
From Stdlib Require Import ZArith Lia.
From S2P Require Import Prelude RequestStrategy Bep40 Peers Decimal Bencode Percent UdpTracker.
Open Scope Z_scope.

(** ** shared.go and announce.go: events *)
Definition EventNone : Z := 0.
Definition EventCompleted : Z := 1.
Definition EventStarted : Z := 2.
Definition EventStopped : Z := 3.

Definition announceEventStrings : list (list Z) := map goBytes [""; "completed"; "started"; "stopped"].

Definition AnnounceEvent_String (e : Z) : list Z :=
  if (e <? 0) || (Z.of_nat (length announceEventStrings) <=? e) then []
  else default [] (announceEventStrings !! Z.to_nat e).

Fixpoint findEvent (text : list Z) (key : Z) (strs : list (list Z)) : option Z :=
  match strs with
  | [] => None
  | str :: strs => if bool_decide (text = str) then Some key else findEvent text (key + 1) strs
  end.

(** [None]: "unknown event". *)
Definition AnnounceEvent_UnmarshalText (text : list Z) : option Z := findEvent text 0 announceEventStrings.

(** ** [url.Values]: the values of each key, and [Encode] *)
Definition Values : Type := list (list Z * list (list Z)).

Fixpoint updValues (q : Values) (key : list Z) (f : list (list Z) → list (list Z)) : Values :=
  match q with
  | [] => [(key, f [])]
  | (k, vs) :: q => if bool_decide (k = key) then (k, f vs) :: q else (k, vs) :: updValues q key f
  end.

Definition Values_Set (q : Values) (key v : list Z) : Values := updValues q key (λ _, [v]).
Definition Values_Add (q : Values) (key v : list Z) : Values := updValues q key (λ vs, vs ++ [v]).

Definition pairs (q : Values) : list (list Z * list Z) := flat_map (λ e, map (pair e.1) e.2) q.

Definition encodePair (e : list Z * list Z) : list Z :=
  escape encodeQueryComponent e.1 ++ 61 :: escape encodeQueryComponent e.2.

Definition Values_Encode (q : Values) : list Z := strings_Join (map encodePair (pairs (sortKeys q))) 38.

(** ** http.go *)
Record AnnounceOpt : Type := mkOpt { ClientIp4 : list Z; ClientIp6 : list Z }.

Section Query.
Context (IP_String : list Z → list Z).

Definition doIp (q : Values) (versionKey : string) (ip : list Z) : Values :=
  if bool_decide (ip = []) then q
  else Values_Add (Values_Set q (goBytes versionKey) (IP_String ip)) (goBytes "ip") (IP_String ip).

Definition leftParam (left : Z) : Z := if left <? 0 then 2 ^ 63 - 1 else left.

Definition announceValues (ar : AnnounceRequest) (opts : AnnounceOpt) : Values :=
  let q := Values_Set [] (goBytes "key") (AppendInt (Key ar)) in
  let q := Values_Set q (goBytes "info_hash") (InfoHash ar) in
  let q := Values_Set q (goBytes "peer_id") (PeerId ar) in
  let q := Values_Set q (goBytes "port") (AppendInt (Port ar)) in
  let q := Values_Set q (goBytes "uploaded") (AppendInt (Uploaded ar)) in
  let q := Values_Set q (goBytes "downloaded") (AppendInt (Downloaded ar)) in
  let q := Values_Set q (goBytes "left") (AppendInt (leftParam (Left ar))) in
  let q := if Event ar =? EventNone then q else Values_Set q (goBytes "event") (AnnounceEvent_String (Event ar)) in
  let q := Values_Set q (goBytes "compact") (goBytes "1") in
  let q := Values_Set q (goBytes "supportcrypto") (goBytes "1") in
  let q := if BaselineProvider ar then Values_Set q (goBytes "baselineProvider") (goBytes "1") else q in
  doIp (doIp q "ipv4" (ClientIp4 opts)) "ipv6" (ClientIp6 opts).

(** The query of the tracker's URL afterwards. *)
Definition setAnnounceParams (RawQuery : list Z) (ar : AnnounceRequest) (opts : AnnounceOpt) : list Z :=
  let qstr := ReplaceAll (Values_Encode (announceValues ar opts)) 43 [37; 50; 48] in
  if bool_decide (RawQuery = []) then qstr else RawQuery ++ 38 :: qstr.

(** Reading a query: pairs of a key and a value, decoded. *)
Definition parsePair (s : list Z) : option (list Z * list Z) :=
  match splitOn 61 s with
  | [k; v] => k ← unescape k; v ← unescape v; Some (k, v)
  | _ => None
  end.

Definition parseQuery (s : list Z) : list (option (list Z * list Z)) := map parsePair (splitOn 38 s).
End Query.

(** ** peer.go and protocol.go: peers in a response *)
Definition dictGet (d : list (list Z * ival)) (key : string) : option ival :=
  match list_find (λ e, e.1 = goBytes key) d with Some (_, e) => Some e.2 | None => None end.

Record HttpPeers : Type := mkHttpPeers { PeersList : list trackerPeer; Compact : bool }.

Inductive peersErr : Type := PBencode (e : derr) | PCompact | PUnsupported.

Section Response.
Context (ParseIP : list Z → list Z).
Context (UnmarshalIPv4 : list Z → option (list (list Z * Z))) (MarshalIPv4 : list (list Z * Z) → list Z).

(** Type assertions panic, and [bencode.Decode] lets a [runtime.Error]
    through. *)
Definition FromDictInterface (d : list (list Z * ival)) : go trackerPeer :=
  match dictGet d "ip" with
  | Some (IStr ip) =>
      id ← match dictGet d "peer id" with
           | None => Ok []
           | Some (IStr id) => Ok id
           | Some _ => Panic "interface conversion"
           end;
      match dictGet d "port" with
      | Some (IInt port) => Ok (mkTPeer (ParseIP ip) port id)
      | _ => Panic "interface conversion"
      end
  | _ => Panic "interface conversion"
  end.

Fixpoint fromList (l : list ival) : go (list trackerPeer) :=
  match l with
  | [] => Ok []
  | IDict d :: l => p ← FromDictInterface d; ps ← fromList l; Ok (p :: ps)
  | _ :: _ => Panic "interface conversion"
  end.

Definition FromNodeAddr (na : list Z * Z) : trackerPeer := mkTPeer na.1 na.2 [].

Definition Peers_UnmarshalBencode (me : HttpPeers) (b : list Z) : go (result peersErr HttpPeers) :=
  match Unmarshal b with
  | Bad e => Ok (Bad (PBencode e))
  | Good (IStr v) =>
      match UnmarshalIPv4 v with
      | None => Ok (Bad PCompact)
      | Some cnas => Ok (Good (mkHttpPeers (PeersList me ++ map FromNodeAddr cnas) true))
      end
  | Good (IList v) => ps ← fromList v; Ok (Good (mkHttpPeers (PeersList me ++ ps) false))
  | Good _ => Ok (Bad PUnsupported)
  end.

Definition peerDict (p : trackerPeer) : ival :=
  IDict [(goBytes "ip", IStr (tIP p)); (goBytes "port", IInt (tPort p)); (goBytes "peer id", IStr (tID p))].

Definition Peers_MarshalBencode (me : HttpPeers) : list Z :=
  if Compact me then Marshal (IStr (MarshalIPv4 (map (λ p, (tIP p, tPort p)) (PeersList me))))
  else Marshal (IList (map peerDict (PeersList me))).

Record HttpResponse : Type := mkHttpResponse {
  FailureReason : list Z;
  hrInterval : Z;
  Complete : Z;
  Incomplete : Z;
  hrPeers : HttpPeers;
  Peers6 : list (list Z * Z);
  hrBaselineProvider : HttpPeers }.

Record AnnounceResponse : Type := mkAnnResp {
  anInterval : Z;
  anLeechers : Z;
  anSeeders : Z;
  anPeers : list trackerPeer;
  anBaselineProvider : trackerPeer }.

Definition noPeer : trackerPeer := mkTPeer [] 0 [].

(** The end of [Client.Announce], from the decoded response on; [None] is a
    failure reason. *)
Definition http_Announce (trackerResponse : HttpResponse) : option AnnounceResponse :=
  if negb (bool_decide (FailureReason trackerResponse = [])) then None
  else Some (mkAnnResp (hrInterval trackerResponse) (Incomplete trackerResponse) (Complete trackerResponse)
         (PeersList (hrPeers trackerResponse) ++ map FromNodeAddr (Peers6 trackerResponse))
         (match PeersList (hrBaselineProvider trackerResponse) with bp :: _ => bp | [] => noPeer end)).

(** [udpClient.Announce] of udp.go: the request it makes and the response. *)
Definition udp_request (req : AnnounceRequest) (opts : AnnounceOpt) : go AnnounceRequest :=
  if (IPAddress req =? 0) && negb (bool_decide (ClientIp4 opts = [])) then
    match To4 (ClientIp4 opts) with
    | None => Panic "index out of range"
    | Some ip4 =>
        Ok (mkAnnounce (InfoHash req) (PeerId req) (Downloaded req) (Left req) (Uploaded req) (Event req)
              (be_decode ip4) (Key req) (NumWant req) (Port req) (BaselineProvider req))
    end
  else Ok req.

Definition udp_response (h : AnnounceResponseHeader) (nas : list (list Z * Z)) : AnnounceResponse :=
  mkAnnResp (Interval h) (Leechers h) (Seeders h) (map FromNodeAddr nas) noPeer.
End Response.

(** ** Laws of queries *)
Definition qEncByte (c : Z) : list Z := ReplaceAll (escapeByte encodeQueryComponent c) 43 [37; 50; 48].

Definition qEnc (s : list Z) : list Z := flat_map qEncByte s.

Lemma ReplaceAll_app s t old new : ReplaceAll (s ++ t) old new = ReplaceAll s old new ++ ReplaceAll t old new.
Proof. apply flat_map_app. Qed.

Lemma ReplaceAll_cons c s old new : c ≠ old → ReplaceAll (c :: s) old new = c :: ReplaceAll s old new.
Proof. intros Hc. cbn. by rewrite (proj2 (Z.eqb_neq c old)). Qed.

Lemma ReplaceAll_Join ws sep old new : sep ≠ old →
  ReplaceAll (strings_Join ws sep) old new = strings_Join (map (λ w, ReplaceAll w old new) ws) sep.
Proof.
  intros Hs. induction ws as [|w ws IH]; [done|]. destruct ws as [|w' ws]; [done|].
  change (strings_Join (w :: w' :: ws) sep) with (w ++ sep :: strings_Join (w' :: ws) sep).
  by rewrite ReplaceAll_app, ReplaceAll_cons, IH by done.
Qed.

Lemma ReplaceAll_escape s : ReplaceAll (escape encodeQueryComponent s) 43 [37; 50; 48] = qEnc s.
Proof. unfold escape, ReplaceAll. by rewrite flat_map_flat_map. Qed.

Lemma qEnc_roundtrip s : bytes_ok s → unescape (qEnc s) = Some s ∧ Forall (λ x, x ∉ [38; 61; 43]) (qEnc s).
Proof. apply enc_roundtrip. vm_compute. reflexivity. Qed.

Lemma splitOn_cat sep s t : splitOn sep (s ++ sep :: t) = splitOn sep s ++ splitOn sep t.
Proof.
  induction s as [|c s IH]; cbn; [by rewrite Z.eqb_refl|]. destruct (c =? sep); [by rewrite IH|]. rewrite IH.
  destruct (splitOn sep s) as [|w ws] eqn:E; [|done]. destruct s; cbn in E; [done|]. destruct (_ =? _); [done|]. by destruct (splitOn sep s).
Qed.

Lemma qEnc_free s y : bytes_ok s → y ∈ [38; 61; 43] → Forall (λ x, x ≠ y) (qEnc s).
Proof. intros [_ H]%qEnc_roundtrip Hy. apply (Forall_impl _ _ _ H). by intros x Hx ->. Qed.

Definition pair_ok (e : list Z * list Z) : Prop := bytes_ok e.1 ∧ bytes_ok e.2.

Lemma parseQuery_encode ps : ps ≠ [] → Forall pair_ok ps →
  parseQuery (ReplaceAll (strings_Join (map encodePair ps) 38) 43 [37; 50; 48]) = map Some ps.
Proof.
  intros Hne Hps. rewrite ReplaceAll_Join, map_map by done. unfold parseQuery.
  assert (Hw : Forall (λ e, ReplaceAll (encodePair e) 43 [37; 50; 48] = qEnc e.1 ++ 61 :: qEnc e.2 ∧
     Forall (λ x, x ≠ 38) (qEnc e.1 ++ 61 :: qEnc e.2) ∧ parsePair (qEnc e.1 ++ 61 :: qEnc e.2) = Some e) ps).
  { apply (Forall_impl _ _ _ Hps). intros [k v] [Hk Hv]. cbn [fst snd] in *.
    destruct (qEnc_roundtrip k Hk) as [Hk1 _]. destruct (qEnc_roundtrip v Hv) as [Hv1 _]. split_and!.
    - unfold encodePair. cbn [fst snd]. rewrite ReplaceAll_app, ReplaceAll_cons, !ReplaceAll_escape by done. done.
    - apply Forall_app. split; [|constructor; [done|]]; (apply qEnc_free; [done|by constructor]).
    - unfold parsePair. rewrite splitOn_app, splitOn_none, Hk1, Hv1; [done|..]; (apply qEnc_free; [done|by do 2 constructor]). }
  rewrite splitOn_Join; [|by destruct ps|].
  - rewrite map_map. apply map_ext_Forall, (Forall_impl _ _ _ Hw). by intros e (-> & _ & ->).
  - apply Forall_map, (Forall_impl _ _ _ Hw). by intros e (Hr & Hf & _); cbn; rewrite Hr.
Qed.

Lemma pairs_sorted q : pairs (sortKeys q) ≡ₚ pairs q.
Proof. unfold pairs. by rewrite sortKeys_perm. Qed.

Lemma AppendInt_bytes n : bytes_ok (AppendInt n).
Proof.
  assert (Hu : ∀ n, 0 ≤ n → bytes_ok (AppendUint n)).
  { intros k Hk. apply Forall_forall. intros c Hc. pose proof (AppendUint_digits k Hk) as Hd. rewrite forallb_forall in Hd.
    rewrite list_elem_of_In in Hc. specialize (Hd c Hc). apply isDigit_range in Hd. lia. }
  unfold AppendInt. destruct (Z.ltb_spec n 0); [constructor; [lia|]|]; apply Hu; lia.
Qed.

Section QueryRead.
Context (IP_String : list Z → list Z) (HIP : ∀ ip, bytes_ok (IP_String ip)).

Definition ipParams (versionKey : string) (ip : list Z) : list (list Z * list Z) :=
  if bool_decide (ip = []) then [] else [(goBytes versionKey, IP_String ip); (goBytes "ip", IP_String ip)].

(** The parameters of an announce. *)
Definition announceParams (ar : AnnounceRequest) (opts : AnnounceOpt) : list (list Z * list Z) :=
  [ (goBytes "key", AppendInt (Key ar)); (goBytes "info_hash", InfoHash ar); (goBytes "peer_id", PeerId ar);
    (goBytes "port", AppendInt (Port ar)); (goBytes "uploaded", AppendInt (Uploaded ar));
    (goBytes "downloaded", AppendInt (Downloaded ar)); (goBytes "left", AppendInt (leftParam (Left ar))) ] ++
  (if Event ar =? EventNone then [] else [(goBytes "event", AnnounceEvent_String (Event ar))]) ++
  [ (goBytes "compact", goBytes "1"); (goBytes "supportcrypto", goBytes "1") ] ++
  (if BaselineProvider ar then [(goBytes "baselineProvider", goBytes "1")] else []) ++
  ipParams "ipv4" (ClientIp4 opts) ++ ipParams "ipv6" (ClientIp6 opts).

Lemma announceValues_pairs ar opts : pairs (announceValues IP_String ar opts) ≡ₚ announceParams ar opts.
Proof.
  unfold announceValues, announceParams, ipParams, doIp.
  destruct (Event ar =? EventNone), (BaselineProvider ar), (bool_decide (ClientIp4 opts = [])), (bool_decide (ClientIp6 opts = []));
    try reflexivity;
    (cbv -[AppendInt InfoHash PeerId Key Port Uploaded Downloaded Left leftParam AnnounceEvent_String Event ClientIp4 ClientIp6];
     repeat apply perm_skip; apply perm_swap).
Qed.

Lemma announceParams_ok ar opts : bytes_ok (InfoHash ar) → bytes_ok (PeerId ar) → Forall pair_ok (announceParams ar opts).
Proof using HIP.
  intros Hih Hid.
  assert (Hg : ∀ k v, bytes_ok v → pair_ok (goBytes k, v)) by (split; [apply goBytes_ok|done]).
  assert (He : ∀ e, bytes_ok (AnnounceEvent_String e)).
  { intros e. unfold AnnounceEvent_String. destruct (_ || _); [constructor|].
    assert (Hs : Forall bytes_ok announceEventStrings) by (apply Forall_map, Forall_true; intros; apply goBytes_ok).
    destruct (announceEventStrings !! Z.to_nat e) as [x|] eqn:Ex; [|constructor]. exact (proj1 (Forall_lookup _ _) Hs _ _ Ex). }
  unfold announceParams, ipParams. rewrite !Forall_app. split_and!.
  - repeat constructor; cbn [fst snd]; try apply goBytes_ok; try apply AppendInt_bytes; done.
  - destruct (Event ar =? EventNone); constructor; [apply Hg, He|constructor].
  - repeat constructor; cbn [fst snd]; lia.
  - destruct (BaselineProvider ar); repeat constructor; cbn [fst snd]; lia.
  - case_bool_decide; repeat constructor; cbn [fst snd]; try apply HIP; lia.
  - case_bool_decide; repeat constructor; cbn [fst snd]; try apply HIP; lia.
Qed.

Lemma Values_Encode_pairs ar opts : pairs (sortKeys (announceValues IP_String ar opts)) ≡ₚ announceParams ar opts.
Proof. by rewrite pairs_sorted, announceValues_pairs. Qed.

(** The query of an announce over HTTP, decoded, has exactly the
    parameters of the request next to those of the tracker's own URL: binary
    hashes and ids byte by byte, [left] in the range trackers accept, and
    [baselineProvider=1] if and only if the client is a baseline provider. *)
Theorem announce_query_read RawQuery ar opts :
  bytes_ok (InfoHash ar) → bytes_ok (PeerId ar) →
  parseQuery (setAnnounceParams IP_String RawQuery ar opts) ≡ₚ
  (if bool_decide (RawQuery = []) then [] else parseQuery RawQuery) ++ map Some (announceParams ar opts).
Proof using HIP.
  intros Hih Hid. pose proof (announceParams_ok ar opts Hih Hid) as Hok.
  assert (Hq : parseQuery (ReplaceAll (Values_Encode (announceValues IP_String ar opts)) 43 [37; 50; 48]) ≡ₚ map Some (announceParams ar opts)).
  { pose proof (Values_Encode_pairs ar opts) as Hp.
    unfold Values_Encode. rewrite parseQuery_encode; [by rewrite Hp| |by rewrite Hp]. intros He. rewrite He in Hp.
    apply Permutation_length in Hp. cbn in Hp. done. }
  unfold setAnnounceParams. case_bool_decide; [exact Hq|]. unfold parseQuery in *. by rewrite splitOn_cat, map_app, Hq.
Qed.
End QueryRead.

(** ** Peers in a response *)
Section PeersLaws.
Context (ParseIP : list Z → list Z) (UnmarshalIPv4 : list Z → option (list (list Z * Z))).

Definition peerWf (v : ival) : bool :=
  match v with
  | IDict d =>
      match dictGet d "ip", dictGet d "port" with Some (IStr _), Some (IInt _) => true | _, _ => false end &&
      match dictGet d "peer id" with None | Some (IStr _) => true | _ => false end
  | _ => false
  end.

Definition peerOf (v : ival) : trackerPeer :=
  match v with
  | IDict d =>
      let str k := match dictGet d k with Some (IStr s) => s | _ => [] end in
      mkTPeer (ParseIP (str "ip")) (match dictGet d "port" with Some (IInt n) => n | _ => 0 end) (str "peer id")
  | _ => noPeer
  end.

Lemma FromDictInterface_spec d :
  FromDictInterface ParseIP d = if peerWf (IDict d) then Ok (peerOf (IDict d)) else Panic "interface conversion".
Proof.
  unfold FromDictInterface, peerWf, peerOf.
  destruct (dictGet d "ip") as [[]|], (dictGet d "peer id") as [[]|], (dictGet d "port") as [[]|]; reflexivity.
Qed.

Lemma fromList_spec l : fromList ParseIP l = if forallb peerWf l then Ok (map peerOf l) else Panic "interface conversion".
Proof.
  induction l as [|v l IH]; [done|]. destruct v as [| | | |d]; try reflexivity. cbn [fromList forallb map].
  rewrite FromDictInterface_spec. destruct (peerWf (IDict d)); [|done]. cbn [andb mbind go_bind]. rewrite IH. by destruct (forallb peerWf l).
Qed.

(** Peers listed in a tracker's response are read in order if each is a
    dictionary with an address, a port and at most one id of the right types;
    any other element of the list makes the client panic. *)
Theorem peers_list_panics me b l : Unmarshal b = Good (IList l) →
  Peers_UnmarshalBencode ParseIP UnmarshalIPv4 me b =
  if forallb peerWf l then Ok (Good (mkHttpPeers (PeersList me ++ map peerOf l) false)) else Panic "interface conversion".
Proof. intros Hb. unfold Peers_UnmarshalBencode. rewrite Hb, fromList_spec. by destruct (forallb peerWf l). Qed.
End PeersLaws.

(** ** tracker_scraper.go *)
Inductive scrapeErr : Type := SLookup (e : Z) | SNoIps | SClientClosed | SNoAcceptableIps | SCtx | SAnnounce (e : Z).

Fixpoint acceptableIp (blocked : list Z → bool) (Scheme : string) (ips : list (list Z)) : option (list Z) :=
  match ips with
  | [] => None
  | ip :: ips =>
      if blocked ip then acceptableIp blocked Scheme ips
      else if bool_decide (Scheme = "udp4") && bool_decide (To4 ip = None) then acceptableIp blocked Scheme ips
      else if bool_decide (Scheme = "udp6") && negb (bool_decide (To4 ip = None)) then acceptableIp blocked Scheme ips
      else Some ip
  end.

Definition getIp (lookup : result Z (list (list Z))) (closed : bool) (blocked : list Z → bool) (Scheme : string) :
    result scrapeErr (list Z) :=
  match lookup with
  | Bad e => Bad (SLookup e)
  | Good ips =>
      if bool_decide (ips = []) then Bad SNoIps
      else if closed then Bad SClientClosed
      else match acceptableIp blocked Scheme ips with Some ip => Good ip | None => Bad SNoAcceptableIps end
  end.

(** The result of an announce; times are in nanoseconds. *)
Record trackerAnnounceResult : Type := mkResult {
  arErr : option scrapeErr;
  NumPeers : Z;
  arInterval : Z;
  arCompleted : Z }.

Section Scraper.
Context `{Multiless} (addrHash : list Z * Z → Z) {T : Type} {BT : GBtree (pitem_Less addrHash) T}.

(** [announce]: [ctxDone] while it waits for its turn with the tracker; the
    result, the peers dialled and the reserve afterwards. *)
Definition scraper_announce (e : PeerEnv) (st : Reserve T) (ctxDone : bool) (ip : result scrapeErr (list Z))
    (res : result Z AnnounceResponse) (now : Z) : go (trackerAnnounceResult * list PeerInfo * Reserve T) :=
  let failed err := Ok (mkResult (Some err) 0 Minute now, [], st) in
  if ctxDone then failed SCtx
  else
    match ip with
    | Bad err => failed err
    | Good _ =>
        match res with
        | Bad err => failed (SAnnounce err)
        | Good res =>
            let bp := anBaselineProvider res in
            let isNew := negb (bool_decide (tIP bp = [])) && (addBaselineProvider st bp).2 in
            '(dialled, st) ← onAnnounced addrHash e st (anPeers res) bp;
            Ok (mkResult None (Z.of_nat (length (anPeers res)) + (if isNew then 1 else 0)) (i64 (anInterval res * Second)) now,
                dialled, st)
        end
    end.
End Scraper.

(** What is known when the wait for the next announce is calculated:
    whether peers are wanted, and, once there is an info, whether it is
    private. *)
Record recalc : Type := mkRecalc { rcWant : bool; rcPrivate : option bool }.

(** [canIgnoreInterval]; without an info it sets the channel that is waited
    for. *)
Definition canIgnoreInterval (rc : recalc) : bool := match rcPrivate rc with Some private => negb private | None => false end.

Definition baseInterval (SmallIntervalAllowed : bool) (ar : trackerAnnounceResult) : Z :=
  if (arInterval ar <? Minute) && negb SmallIntervalAllowed then Minute else arInterval ar.

Definition waitInterval (SmallIntervalAllowed : bool) (ar : trackerAnnounceResult) (rc : recalc) : Z :=
  let interval := baseInterval SmallIntervalAllowed ar in
  if rcWant rc && (Minute <? interval) && canIgnoreInterval rc then Minute else interval.

(** Whether [reconsider] is a channel: [wantPeers], or the one of the info. *)
Definition canReconsider (SmallIntervalAllowed : bool) (ar : trackerAnnounceResult) (rc : recalc) : bool :=
  if rcWant rc then (Minute <? baseInterval SmallIntervalAllowed ar) && bool_decide (rcPrivate rc = None) else true.

(** One turn of [Run]: an announce and how it is waited after it.  Every
    recalculation but the last ends with [reconsider]; then the timer fires,
    some time after it is due, or the torrent is closed. *)
Inductive waitEnd : Type := TimerFires (delay : Z) | TorrentClosed (at_ : Z).

Record turn : Type := mkTurn {
  tnResult : trackerAnnounceResult;
  tnEarlier : list recalc;
  tnLast : recalc;
  tnEnd : waitEnd }.

(** The announces made: event and time; [None] if the turns are impossible. *)
Fixpoint Run (SmallIntervalAllowed : bool) (e : Z) (start : Z) (turns : list turn) : option (list (Z * Z)) :=
  match turns with
  | [] => None
  | tn :: turns =>
      let ar := tnResult tn in
      if (start <=? arCompleted ar) && forallb (canReconsider SmallIntervalAllowed ar) (tnEarlier tn) then
        match tnEnd tn with
        | TorrentClosed at_ => match turns with [] => Some [(e, start); (EventStopped, at_)] | _ => None end
        | TimerFires delay =>
            if 0 <=? delay then
              rest ← Run SmallIntervalAllowed EventNone
                (arCompleted ar + Z.max 0 (waitInterval SmallIntervalAllowed ar (tnLast tn)) + delay) turns;
              Some ((e, start) :: rest)
            else None
        end
      else None
  end.

Lemma Run_spaced small e start turns l : Run small e start turns = Some l →
  length l = S (length turns) ∧ head l = Some (e, start) ∧
  (∀ k ev t, l !! S k = Some (ev, t) → (S k < length turns)%nat → ev = EventNone ∧
     ∃ tn, turns !! k = Some tn ∧ arCompleted (tnResult tn) + waitInterval small (tnResult tn) (tnLast tn) ≤ t) ∧
  (∃ t, last l = Some (EventStopped, t)).
Proof.
  revert e start l. induction turns as [|tn turns IH]; intros e start l; [done|]. cbn [Run].
  destruct ((start <=? _) && _); [|done]. destruct (tnEnd tn) as [delay|at_].
  - destruct (Z.leb_spec 0 delay) as [Hd|]; [|done]. destruct (Run _ _ _ turns) as [rest|] eqn:Er; [|done].
    cbn [mbind option_bind]. intros [= <-]. destruct (IH _ _ _ Er) as (Hl & Hh & Hk & t & Ht). split_and!.
    + cbn. by rewrite Hl.
    + done.
    + intros k ev t' Hlk Hlt. cbn [lookup list_lookup] in Hlk. change (((e, start) :: rest) !! S k) with (rest !! k) in Hlk.
      destruct k as [|k].
      * destruct rest as [|x rest]; [done|]. cbn in Hh. injection Hh as ->. injection Hlk as <- <-. split; [done|]. exists tn. split; [done|]. lia.
      * cbn [length] in Hlt. destruct (Hk k ev t' Hlk ltac:(lia)) as (He & tn' & Htn & Hle). split; [done|]. by exists tn'.
    + exists t. destruct rest; [done|]. done.
  - destruct turns; [|done]. intros [= <-]. split_and!; [done|done| |by exists at_]. intros k ev t _ Hk. cbn in Hk. lia.
Qed.

(** The scraper announces "started" first, "stopped" last, when the
    torrent is closed, and nothing in between; two announces are at least a
    minute apart unless small intervals are allowed, and at least as far
    as the tracker asked for if the torrent is private, has no info yet or
    wants no peers. *)
Theorem announces_spaced small start turns l : Run small EventStarted start turns = Some l →
  length l = S (length turns) ∧ head l = Some (EventStarted, start) ∧ (∃ t, last l = Some (EventStopped, t)) ∧
  ∀ k ev t, l !! S k = Some (ev, t) → (S k < length turns)%nat → ev = EventNone ∧
     ∃ tn, turns !! k = Some tn ∧
       (small = false → arCompleted (tnResult tn) + Minute ≤ t) ∧
       (rcWant (tnLast tn) = false ∨ rcPrivate (tnLast tn) ≠ Some false → arCompleted (tnResult tn) + arInterval (tnResult tn) ≤ t).
Proof.
  intros Hr. destruct (Run_spaced _ _ _ _ _ Hr) as (Hl & Hh & Hk & Ht). split_and!; [done..|].
  intros k ev t Hlk Hlt. destruct (Hk k ev t Hlk Hlt) as (He & tn & Htn & Hle). split; [done|]. exists tn. split; [done|].
  assert (Hm : 0 < Minute) by done. unfold waitInterval, baseInterval in Hle. split.
  - intros ->. cbn [negb] in Hle. rewrite andb_true_r in Hle. destruct (Z.ltb_spec (arInterval (tnResult tn)) Minute).
    + destruct (_ && _ && _); lia.
    + destruct (_ && _ && _); lia.
  - intros Hn. replace (rcWant (tnLast tn) && _ && canIgnoreInterval (tnLast tn)) with false in Hle.
    + destruct (Z.ltb_spec (arInterval (tnResult tn)) Minute); cbn [andb] in Hle; [|lia]. destruct (negb small); lia.
    + unfold canIgnoreInterval. destruct Hn as [->|Hn]; [done|]. destruct (rcPrivate (tnLast tn)) as [[]|]; [|done|]; by rewrite andb_false_r.
Qed.

(** ** Examples *)
Module TrackersExample.
Definition dotted (ip : list Z) : list Z := strings_Join (map AppendInt ip) 46.

Lemma dotted_ok ip : bytes_ok (dotted ip).
Proof.
  unfold dotted. induction ip as [|a ip IH]; [constructor|]. destruct ip as [|b ip]; [apply AppendInt_bytes|].
  change (strings_Join _ 46) with (AppendInt a ++ 46 :: strings_Join (map AppendInt (b :: ip)) 46).
  apply bytes_ok_app. split; [apply AppendInt_bytes|]. by constructor.
Qed.

Definition ar : AnnounceRequest := mkAnnounce [1; 38; 61; 43; 32; 37; 255] [45; 84; 82] 0 (-1) 5 EventStarted 0 (-3) 200 6881 true.
Definition opts : AnnounceOpt := mkOpt [10; 0; 0; 1] [].
Definition result (completed interval : Z) : trackerAnnounceResult := mkResult None 0 interval completed.
Definition turns : list turn :=
  [ mkTurn (result 5 (1800 * Second)) [mkRecalc false None; mkRecalc true None] (mkRecalc true (Some false)) (TimerFires 3);
    mkTurn (result (100 * Second) (1800 * Second)) [] (mkRecalc true (Some true)) (TimerFires 0);
    mkTurn (result (2000 * Second) 0) [] (mkRecalc false (Some true)) (TorrentClosed (2001 * Second)) ].
Definition run : list (Z * Z) := default [] (Run false EventStarted 0 turns).
End TrackersExample.

Example announce_query_ex :
  setAnnounceParams TrackersExample.dotted (goBytes "passkey=x") TrackersExample.ar TrackersExample.opts =
  goBytes "passkey=x&baselineProvider=1&compact=1&downloaded=0&event=started&info_hash=%01%26%3D%2B%20%25%FF&ip=10.0.0.1&ipv4=10.0.0.1&key=-3&left=9223372036854775807&peer_id=-TR&port=6881&supportcrypto=1&uploaded=5".
Proof. vm_compute. reflexivity. Qed.

Lemma announce_query_read_witness :
  parseQuery (setAnnounceParams TrackersExample.dotted [112; 61; 120] TrackersExample.ar TrackersExample.opts) ≡ₚ
  [Some ([112], [120])] ++ map Some (announceParams TrackersExample.dotted TrackersExample.ar TrackersExample.opts).
Proof.
  apply (announce_query_read TrackersExample.dotted TrackersExample.dotted_ok [112; 61; 120] TrackersExample.ar TrackersExample.opts);
    repeat constructor; cbn; lia.
Defined.

(** "li1ee": a list with a number makes the client panic. *)
Lemma peers_list_panics_witness :
  Peers_UnmarshalBencode (λ ip, ip) (λ _, None) (mkHttpPeers [] false) (goBytes "li1ee") = Panic "interface conversion".
Proof. apply (peers_list_panics (λ ip, ip) (λ _, None) (mkHttpPeers [] false) (goBytes "li1ee") [IInt 1]). vm_compute. reflexivity. Defined.

Lemma announces_spaced_witness :
  length TrackersExample.run = 4%nat ∧ head TrackersExample.run = Some (EventStarted, 0) ∧ (∃ t, last TrackersExample.run = Some (EventStopped, t)) ∧
  ∀ k ev t, TrackersExample.run !! S k = Some (ev, t) → (S k < 3)%nat → ev = EventNone ∧
     ∃ tn, TrackersExample.turns !! k = Some tn ∧
       (false = false → arCompleted (tnResult tn) + Minute ≤ t) ∧
       (rcWant (tnLast tn) = false ∨ rcPrivate (tnLast tn) ≠ Some false → arCompleted (tnResult tn) + arInterval (tnResult tn) ≤ t).
Proof. apply (announces_spaced false 0 TrackersExample.turns TrackersExample.run). vm_compute. reflexivity. Defined.

(** Peers written in the form that is not compact carry their addresses as
    bytes, and reading them takes text. *)
Example peers_not_roundtrip :
  Peers_MarshalBencode (λ _, []) (mkHttpPeers [mkTPeer [10; 0; 0; 1] 80 []] false) =
    goBytes "ld2:ip4:" ++ [10; 0; 0; 1] ++ goBytes "7:peer id0:4:porti80eee".
Proof. vm_compute. reflexivity. Qed.
