(* ===== verification/TrackerServer.v ===== *)
(** The tracker's side of an announce: src/tracker/server/server.go.

    An [AnnounceTracker] stores announces and answers with peers.  The
    handler asks upstream trackers for more when it knows too few: an
    operation per info-hash, whose responses arrive one by one while announces
    are served. *)
From stdpp Require Import base numbers list gmap sets.
From Stdlib Require Import ZArith Lia.
From S2P Require Import Prelude Peers UdpTracker Trackers.
Open Scope Z_scope.

(** [netip.AddrPort], which is all a [PeerInfo] has. *)
Definition AddrPort : Type := list Z * Z.

Record GetPeersOpts : Type := mkGetPeersOpts { MaxCount : option Z }.

Record ServerAnnounceResult : Type := mkServerResult {
  saErr : option Z;
  saPeers : list AddrPort;
  saInterval : option Z;
  saLeechers : option Z;
  saSeeders : option Z }.

(** The interface of the same name. *)
Class AnnounceTracker (S : Type) : Type := {
  TrackAnnounce : S → AnnounceRequest → AddrPort → S * option Z;
  GetPeers : S → list Z → GetPeersOpts → AddrPort → ServerAnnounceResult }.

(** What an upstream peer is keyed by: [Peer.String] determines its id, the
    text of its address and its port. *)
Definition peerKey (IP_String : list Z → list Z) (p : trackerPeer) : list Z * list Z * Z := (tID p, IP_String (tIP p), tPort p).

Definition ToNetipAddrPort (p : trackerPeer) : option AddrPort :=
  addr ← AddrFromSlice (tIP p); Some (addr, u16 (tPort p)).

(** [augmentationOperation]: the upstream trackers that have not answered, the
    peers to track and the peers to return. *)
Record Operation : Type := mkOp {
  opInfoHash : list Z;
  pendingUpstreams : nat;
  peersToTrack : gmap (list Z * list Z * Z) trackerPeer;
  retPeers : gset AddrPort }.

(** An announce that is being served, between the peers it got and the wait
    for an operation: the operation that ran at its start, the peers and the
    limit on their number. *)
Record Serving : Type := mkServing {
  svInfoHash : list Z;
  svOp : option nat;
  svRet : ServerAnnounceResult;
  svMaxCount : option Z }.

(** The handler: operations by number, the running ones by info-hash, and the
    announces being served.  [opsLive] are the operations that have not been
    removed. *)
Record AnnounceHandler (S : Type) : Type := mkHandler {
  ahTracker : S;
  ongoingUpstreamAugmentations : gmap (list Z) nat;
  opsLive : gmap nat Operation;
  nextOp : nat;
  serving : gmap nat Serving }.
Arguments mkHandler {S}.
Arguments ahTracker {S}.
Arguments ongoingUpstreamAugmentations {S}.
Arguments opsLive {S}.
Arguments nextOp {S}.
Arguments serving {S}.

(** [addMissing]: the new value of its own variable [orig], and [new]; the
    slice of the caller stays what it was. *)
Definition addMissing (orig : list AddrPort) (new : gset AddrPort) : list AddrPort * gset AddrPort :=
  let new := new ∖ list_to_set orig in
  (orig ++ elements new, new).

Section Handler.
Context {S : Type} `{!AnnounceTracker S} (IP_String : list Z → list Z) (upstreams : nat).

(** [voldemort]. *)
Fixpoint voldemort (peers : list trackerPeer) (toTrack : gmap (list Z * list Z * Z) trackerPeer) (set_ : gset AddrPort) :
    gmap (list Z * list Z * Z) trackerPeer * gset AddrPort :=
  match peers with
  | [] => (toTrack, set_)
  | protoPeer :: peers =>
      let toTrack := <[peerKey IP_String protoPeer := protoPeer]> toTrack in
      match AddrFromSlice (tIP protoPeer) with
      | None => voldemort peers toTrack set_
      | Some addr => voldemort peers toTrack ({[(addr, u16 (tPort protoPeer))]} ∪ set_)
      end
  end.

(** [augmentPeersFromUpstream] starts an operation. *)
Definition augmentPeersFromUpstream (me : AnnounceHandler S) (infoHash : list Z) : AnnounceHandler S * nat :=
  (mkHandler (ahTracker me) (<[infoHash := nextOp me]> (ongoingUpstreamAugmentations me))
     (<[nextOp me := mkOp infoHash upstreams ∅ ∅]> (opsLive me)) (Datatypes.S (nextOp me)) (serving me), nextOp me).

(** The request made of an upstream tracker, and how long it is left alone
    after it has answered. *)
Definition upstreamRequest (peerId infoHash : list Z) : AnnounceRequest :=
  mkAnnounce infoHash peerId 0 0 0 EventNone 0 0 (-1) 0 false.

Definition upstreamInterval (interval : Z) : Z := if interval <? 5 * 60 then 5 * 60 else interval.

(** A response from an upstream tracker; none if it was not asked. *)
Definition upstreamResponse (me : AnnounceHandler S) (id : nat) (peers : list trackerPeer) : option (AnnounceHandler S) :=
  op ← opsLive me !! id;
  match pendingUpstreams op with
  | O => None
  | Datatypes.S pending =>
      let '(toTrack, ret) := voldemort peers (peersToTrack op) (retPeers op) in
      Some (mkHandler (ahTracker me) (ongoingUpstreamAugmentations me)
              (<[id := mkOp (opInfoHash op) pending toTrack ret]> (opsLive me)) (nextOp me) (serving me))
  end.

(** The announces that track upstream peers. *)
Definition trackReq (infoHash : list Z) (peer : trackerPeer) : AnnounceRequest :=
  mkAnnounce infoHash (copyId (tID peer)) 0 (-1) 0 EventStarted 0 0 0 (u16 (tPort peer)) false.

Definition trackAll (s : S) (infoHash : list Z) (peers : list trackerPeer) : S :=
  foldl (λ s peer, match ToNetipAddrPort peer with
                   | Some addrPort => (TrackAnnounce s (trackReq infoHash peer) addrPort).1
                   | None => s
                   end) s peers.

(** All upstream trackers have answered. *)
Definition finishOperation (me : AnnounceHandler S) (id : nat) : option (AnnounceHandler S) :=
  op ← opsLive me !! id;
  match pendingUpstreams op with
  | O =>
      Some (mkHandler (trackAll (ahTracker me) (opInfoHash op) (map snd (map_to_list (peersToTrack op))))
              (delete (opInfoHash op) (ongoingUpstreamAugmentations me)) (delete id (opsLive me)) (nextOp me) (serving me))
  | _ => None
  end.

Definition limitCount (MaxCount : option Z) (NumWant : Z) : option Z :=
  if NumWant =? -1 then MaxCount
  else
    let newCount := u64 NumWant in
    match MaxCount with
    | Some m => Some (if newCount <? m then newCount else m)
    | None => Some newCount
    end.

Definition announceAddr (req : AnnounceRequest) (addr : AddrPort) : AddrPort :=
  if Port req =? 0 then addr else (addr.1, Port req).

(** [Serve] up to the second time it takes the lock: it is done, or goes on. *)
Definition ServeBegin (me : AnnounceHandler S) (req : AnnounceRequest) (addr : AddrPort) (opts : GetPeersOpts) :
    AnnounceHandler S * (ServerAnnounceResult + Serving) :=
  let addr := announceAddr req addr in
  let '(s, err) := TrackAnnounce (ahTracker me) req addr in
  let me := mkHandler s (ongoingUpstreamAugmentations me) (opsLive me) (nextOp me) (serving me) in
  match err with
  | Some e => (me, inl (mkServerResult (Some e) [] None None None))
  | None =>
      let infoHash := InfoHash req in
      let MaxCount := limitCount (MaxCount opts) (NumWant req) in
      let ret := GetPeers (ahTracker me) infoHash (mkGetPeersOpts MaxCount) addr in
      match saErr ret with
      | Some _ => (me, inl ret)
      | None => (me, inr (mkServing infoHash (ongoingUpstreamAugmentations me !! infoHash) ret MaxCount))
      end
  end.

(** The peers [Serve] returns once it has added those of an operation: what
    [addMissing] does to its parameter is lost. *)
Definition withPeers (ret : ServerAnnounceResult) (cur : option (gset AddrPort)) : ServerAnnounceResult :=
  match cur with
  | Some peers => let _ := addMissing (saPeers ret) peers in ret
  | None => ret
  end.

(** The section under the lock: the operation to wait for.  [early]: the peers
    of the operation that ran at the start, and whether it is done. *)
Definition ServeAugment (me : AnnounceHandler S) (sv : Serving) (early : gset AddrPort * bool) :
    AnnounceHandler S * option nat * ServerAnnounceResult :=
  let ret := withPeers (svRet sv) (match svOp sv with Some _ => Some early.1 | None => None end) in
  let op := if early.2 then None else svOp sv in
  if bool_decide (op = None) && (length (saPeers ret) <=? 1)%nat && (0 <? default 1 (svMaxCount sv)) then
    match ongoingUpstreamAugmentations me !! svInfoHash sv with
    | Some id => (me, Some id, ret)
    | None => let '(me, id) := augmentPeersFromUpstream me (svInfoHash sv) in (me, Some id, ret)
    end
  else (me, op, ret).

(** What is returned: [late] are the peers of the operation after the wait. *)
Definition ServeEnd (op : option nat) (ret : ServerAnnounceResult) (late : gset AddrPort) : ServerAnnounceResult :=
  withPeers ret (match op with Some _ => Some late | None => None end).

(** What happens while [Serve] is not holding the lock: other steps of the
    handler, and what is received from the operation it waits for. *)
Record serveRun : Type := mkServeRun {
  srBetween : AnnounceHandler S → AnnounceHandler S;
  srEarly : gset AddrPort * bool;
  srLate : gset AddrPort }.

Definition Serve (run : serveRun) (me : AnnounceHandler S) (req : AnnounceRequest) (addr : AddrPort) (opts : GetPeersOpts) :
    AnnounceHandler S * ServerAnnounceResult :=
  let '(me, ret) := ServeBegin me req addr opts in
  match ret with
  | inl ret => (me, ret)
  | inr sv =>
      let '(me, op, ret) := ServeAugment (srBetween run me) sv (srEarly run) in
      (me, ServeEnd op ret (srLate run))
  end.

Definition set_serving (me : AnnounceHandler S) (m : gmap nat Serving) : AnnounceHandler S :=
  mkHandler (ahTracker me) (ongoingUpstreamAugmentations me) (opsLive me) (nextOp me) m.

(** Steps of the handler; announce [k] begins and passes the locked section. *)
Inductive hlabel : Type :=
| HBegin (k : nat) (req : AnnounceRequest) (addr : AddrPort) (opts : GetPeersOpts)
| HAugment (k : nat) (early : gset AddrPort * bool)
| HResponse (id : nat) (peers : list trackerPeer)
| HFinish (id : nat).

Definition hstep (me : AnnounceHandler S) (l : hlabel) : option (AnnounceHandler S) :=
  match l with
  | HBegin k req addr opts =>
      match serving me !! k with
      | Some _ => None
      | None =>
          match ServeBegin me req addr opts with
          | (me, inl _) => Some me
          | (me, inr sv) => Some (set_serving me (<[k := sv]> (serving me)))
          end
      end
  | HAugment k early =>
      sv ← serving me !! k;
      let '(me, _, _) := ServeAugment me sv early in Some (set_serving me (delete k (serving me)))
  | HResponse id peers => upstreamResponse me id peers
  | HFinish id => finishOperation me id
  end.

Fixpoint hrun (me : AnnounceHandler S) (ls : list hlabel) : option (AnnounceHandler S) :=
  match ls with
  | [] => Some me
  | l :: ls => me ← hstep me l; hrun me ls
  end.

Definition newHandler (s : S) : AnnounceHandler S := mkHandler s ∅ ∅ 0 ∅.

(** ** Laws *)

(** Operations and the table agree, and a live operation has kept every peer
    of the responses [ls] has for it. *)
Record handlerOk (ls : list hlabel) (me : AnnounceHandler S) : Prop := {
  ho_ongoing ih id : ongoingUpstreamAugmentations me !! ih = Some id ↔ ∃ op, opsLive me !! id = Some op ∧ opInfoHash op = ih;
  ho_next id : is_Some (opsLive me !! id) → (id < nextOp me)%nat;
  ho_resp id peers : HResponse id peers ∈ ls → (id < nextOp me)%nat;
  ho_peers id peers p op : HResponse id peers ∈ ls → p ∈ peers → opsLive me !! id = Some op →
    is_Some (peersToTrack op !! peerKey IP_String p) ∧ ∀ a, ToNetipAddrPort p = Some a → a ∈ retPeers op;
  ho_toTrack id op key q : opsLive me !! id = Some op → peersToTrack op !! key = Some q →
    key = peerKey IP_String q ∧ ∃ peers, HResponse id peers ∈ ls ∧ q ∈ peers }.

Lemma voldemort_spec peers : ∀ toTrack set_,
  let r := voldemort peers toTrack set_ in
  (∀ p, p ∈ peers → is_Some (r.1 !! peerKey IP_String p) ∧ ∀ a, ToNetipAddrPort p = Some a → a ∈ r.2) ∧
  (∀ k, is_Some (toTrack !! k) → is_Some (r.1 !! k)) ∧ set_ ⊆ r.2 ∧
  (∀ k q, r.1 !! k = Some q → toTrack !! k = Some q ∨ (k = peerKey IP_String q ∧ q ∈ peers)).
Proof.
  induction peers as [|x peers IH]; intros toTrack set_; cbn [voldemort].
  { split_and!; [by intros p ?%elem_of_nil|done|done|by left]. }
  set (toTrack' := <[peerKey IP_String x := x]> toTrack).
  set (set' := match AddrFromSlice (tIP x) with Some addr => {[(addr, u16 (tPort x))]} ∪ set_ | None => set_ end).
  replace (match AddrFromSlice (tIP x) with None => voldemort peers toTrack' set_ | Some addr => voldemort peers toTrack' ({[(addr, u16 (tPort x))]} ∪ set_) end)
    with (voldemort peers toTrack' set') by (unfold set'; by destruct (AddrFromSlice (tIP x))).
  destruct (IH toTrack' set') as (H1 & H2 & H3 & H4). split_and!.
  - intros p [->|Hp]%elem_of_cons; [|by apply H1]. split.
    + apply H2. unfold toTrack'. rewrite lookup_insert_eq. by eexists.
    + intros a Ha. apply H3. unfold set', ToNetipAddrPort in *. destruct (AddrFromSlice (tIP x)); [|done]. injection Ha as <-. set_solver.
  - intros k Hk. apply H2. unfold toTrack'. destruct (decide (peerKey IP_String x = k)) as [->|]; [rewrite lookup_insert_eq; by eexists|by rewrite lookup_insert_ne].
  - etrans; [|exact H3]. unfold set'. destruct (AddrFromSlice (tIP x)); set_solver.
  - intros k q Hq. destruct (H4 k q Hq) as [H|[-> H]].
    + unfold toTrack' in H. apply lookup_insert_Some in H as [[<- <-]|[_ H]]; [right; split; [done|by constructor]|by left].
    + right. split; [done|]. by constructor.
Qed.

Lemma handlerOk_same ls ls' me me' : handlerOk ls me →
  ongoingUpstreamAugmentations me' = ongoingUpstreamAugmentations me → opsLive me' = opsLive me → nextOp me' = nextOp me →
  (∀ id peers, HResponse id peers ∈ ls' ↔ HResponse id peers ∈ ls) → handlerOk ls' me'.
Proof.
  intros [Ho Hn Hr Hp Ht] H1 H2 H3 Hl. split; rewrite ?H1, ?H2, ?H3; [done|done| | |].
  - intros id peers H%Hl. by eapply Hr.
  - intros id peers p op H%Hl. by eapply Hp.
  - intros id op key q Hop Hq. destruct (Ht id op key q Hop Hq) as (? & peers & ? & ?). split; [done|]. exists peers. by rewrite Hl.
Qed.

Lemma resp_snoc ls l : (∀ id peers, l ≠ HResponse id peers) → ∀ id peers, HResponse id peers ∈ ls ++ [l] ↔ HResponse id peers ∈ ls.
Proof. intros Hl id peers. rewrite elem_of_app, list_elem_of_singleton. split; [intros [?|H]; [done|by destruct (Hl id peers)]|by left]. Qed.

(** An operation starts for an info-hash that has none. *)
Lemma augment_ok ls me ih : handlerOk ls me → ongoingUpstreamAugmentations me !! ih = None →
  handlerOk ls (augmentPeersFromUpstream me ih).1.
Proof.
  intros [Ho Hn Hr Hp Ht] Hih. assert (Hf : opsLive me !! nextOp me = None).
  { destruct (opsLive me !! nextOp me) eqn:E; [|done]. specialize (Hn (nextOp me) ltac:(by eexists)). lia. }
  split; cbn [augmentPeersFromUpstream fst ongoingUpstreamAugmentations opsLive nextOp].
  - intros ih' id. rewrite lookup_insert_Some, Ho. split.
    + intros [[<- <-]|[Hne (op & Hop & Hi)]]; [eexists; by rewrite lookup_insert_eq|].
      exists op. rewrite lookup_insert_ne; [done|]. intros <-. by rewrite Hf in Hop.
    + intros (op & [[<- <-]|[Hne Hop]]%lookup_insert_Some & <-); [by left|right]. split; [|by exists op].
      intros ->. assert (ongoingUpstreamAugmentations me !! opInfoHash op = Some id) by (apply Ho; by exists op). congruence.
  - intros id [op [[<- _]|[_ Hop]]%lookup_insert_Some]; [lia|]. specialize (Hn id ltac:(by eexists)). lia.
  - intros id peers H. specialize (Hr id peers H). lia.
  - intros id peers p op H Hpe [[<- _]|[_ Hop]]%lookup_insert_Some; [specialize (Hr _ _ H); lia|by eapply Hp].
  - intros id op key q [[<- <-]|[_ Hop]]%lookup_insert_Some; [cbn; by rewrite lookup_empty|by apply Ht].
Qed.

Lemma response_ok ls me me' id peers : handlerOk ls me → upstreamResponse me id peers = Some me' →
  handlerOk (ls ++ [HResponse id peers]) me'.
Proof.
  intros [Ho Hn Hr Hp Ht]. unfold upstreamResponse. destruct (opsLive me !! id) as [op|] eqn:Eop; [|done]. cbn [mbind option_bind].
  destruct (pendingUpstreams op); [done|]. destruct (voldemort peers (peersToTrack op) (retPeers op)) as [toTrack ret] eqn:Ev.
  pose proof (voldemort_spec peers (peersToTrack op) (retPeers op)) as Hv. rewrite Ev in Hv. cbn in Hv. destruct Hv as (H1 & H2 & H3 & H4).
  intros [= <-]. split; cbn [ongoingUpstreamAugmentations opsLive nextOp].
  - intros ih id'. rewrite Ho. destruct (decide (id' = id)) as [->|]; [rewrite lookup_insert_eq|by rewrite lookup_insert_ne].
    split; intros (o & Ho' & <-); eexists; (split; [done|]); [|injection Ho' as <-]; by simplify_eq.
  - intros id' [o [[<- _]|[_ Hop]]%lookup_insert_Some]; apply Hn; [by eexists|by eexists].
  - intros id' peers'. rewrite elem_of_app, list_elem_of_singleton. intros [H|[= -> ->]]; [by eapply Hr|apply Hn; by eexists].
  - intros id' peers' p o. rewrite elem_of_app, list_elem_of_singleton. intros H Hpe [[<- <-]|[Hne Hop]]%lookup_insert_Some; cbn.
    + destruct H as [H|[= ->]]; [|by apply H1]. destruct (Hp id peers' p op H Hpe Eop) as [Hk Ha]. split; [by apply H2|].
      intros a Haa. by apply H3, Ha.
    + destruct H as [H|[= ? ?]]; [by eapply Hp|by destruct Hne].
  - intros id' o key q [[<- <-]|[Hne Hop]]%lookup_insert_Some Hq; cbn in *.
    + destruct (H4 key q Hq) as [H|[-> H]].
      * destruct (Ht id op key q Eop H) as (? & peers' & ? & ?). split; [done|]. exists peers'. split; [apply elem_of_app; by left|done].
      * split; [done|]. exists peers. split; [apply elem_of_app; right; by constructor|done].
    + destruct (Ht id' o key q Hop Hq) as (? & peers' & ? & ?). split; [done|]. exists peers'. split; [apply elem_of_app; by left|done].
Qed.

Lemma handler_step ls me l me' : handlerOk ls me → hstep me l = Some me' → handlerOk (ls ++ [l]) me'.
Proof.
  intros Hok Hs. destruct l as [k req addr opts|k early|id peers|id]; cbn [hstep] in Hs.
  - destruct (serving me !! k); [done|]. destruct (ServeBegin me req addr opts) as [me1 r] eqn:Eb.
    assert (Hsame : ongoingUpstreamAugmentations me1 = ongoingUpstreamAugmentations me ∧ opsLive me1 = opsLive me ∧ nextOp me1 = nextOp me).
    { unfold ServeBegin in Eb. destruct (TrackAnnounce _ _ _) as [s [e|]]; [by injection Eb as <- <-|].
      destruct (saErr _); by injection Eb as <- <-. }
    destruct Hsame as (H1 & H2 & H3).
    destruct r; injection Hs as <-; (eapply handlerOk_same; [exact Hok|..|apply resp_snoc; done]); done.
  - destruct (serving me !! k) as [sv|]; [|done]. cbn [mbind option_bind] in Hs.
    destruct (ServeAugment me sv early) as [[me1 o] r] eqn:Ea. injection Hs as <-.
    assert (H1 : handlerOk ls me1).
    { unfold ServeAugment in Ea. destruct (_ && _ && _).
      - destruct (ongoingUpstreamAugmentations me !! svInfoHash sv) eqn:Eo; [by injection Ea as <- _ _|].
        pose proof (augment_ok ls me (svInfoHash sv) Hok Eo) as H. destruct (augmentPeersFromUpstream me (svInfoHash sv)) as [me2 id]. by injection Ea as <- _ _.
      - by injection Ea as <- _ _. }
    eapply handlerOk_same; [exact H1|..|apply resp_snoc; done]; done.
  - by eapply response_ok.
  - unfold finishOperation in Hs. destruct (opsLive me !! id) as [op|] eqn:Eop; [|done]. cbn [mbind option_bind] in Hs.
    destruct (pendingUpstreams op); [|done]. injection Hs as <-. destruct Hok as [Ho Hn Hr Hp Ht].
    assert (Hl : ∀ id' peers, HResponse id' peers ∈ ls ++ [HFinish id] ↔ HResponse id' peers ∈ ls) by (apply resp_snoc; done).
    split; cbn [ongoingUpstreamAugmentations opsLive nextOp].
    + intros ih id'. rewrite lookup_delete_Some, Ho. split.
      * intros [Hne (o & Hop & Hi)]. exists o. split; [|done]. apply lookup_delete_Some. split; [|done]. intros ->. by simplify_eq.
      * intros (o & [Hne Hop]%lookup_delete_Some & <-). split; [|by exists o]. intros Heq. apply Hne.
        assert (Ha : ongoingUpstreamAugmentations me !! opInfoHash o = Some id') by (apply Ho; by exists o).
        assert (Hb : ongoingUpstreamAugmentations me !! opInfoHash op = Some id) by (apply Ho; by exists op). congruence.
    + intros id' [o [_ Hop]%lookup_delete_Some]. apply Hn. by eexists.
    + intros id' peers H%Hl. by eapply Hr.
    + intros id' peers p o H%Hl Hpe [_ Hop]%lookup_delete_Some. by eapply Hp.
    + intros id' o key q [_ Hop]%lookup_delete_Some Hq. destruct (Ht id' o key q Hop Hq) as (? & peers & ? & ?). split; [done|].
      exists peers. by rewrite Hl.
Qed.

Lemma handler_run s ls me : hrun (newHandler s) ls = Some me → handlerOk ls me.
Proof.
  assert (H0 : handlerOk [] (newHandler s)).
  { split; cbn.
    - intros ih id. rewrite lookup_empty. split; [done|]. intros (op & Hop & _). by rewrite lookup_empty in Hop.
    - intros id [op Hop]. by rewrite lookup_empty in Hop.
    - by intros id peers ?%elem_of_nil.
    - by intros id peers p op ?%elem_of_nil.
    - intros id op key q Hop. by rewrite lookup_empty in Hop. }
  change ls with ([] ++ ls) at 2. revert H0. generalize (newHandler s) as me0, (@nil hlabel) as ls0.
  induction ls as [|l ls IH]; intros me0 ls0 H0; cbn [hrun]; [intros [= <-]; by rewrite app_nil_r|].
  destruct (hstep me0 l) as [me1|] eqn:Es; [|done]. cbn [mbind option_bind]. intros Hr.
  replace (ls0 ++ l :: ls) with ((ls0 ++ [l]) ++ ls) by by rewrite <- app_assoc. eapply IH; [|done]. by eapply handler_step.
Qed.

(** The peers that are announced to the tracker, with their addresses. *)
Lemma trackAll_calls ih peers : ∀ s,
  trackAll s ih peers =
  foldl (λ s c, (TrackAnnounce s (trackReq ih c.1) c.2).1) s (omap (λ q, (λ a, (q, a)) <$> ToNetipAddrPort q) peers).
Proof.
  induction peers as [|q peers IH]; intros s; [done|]. cbn [omap list_omap].
  transitivity (trackAll (match ToNetipAddrPort q with
                          | Some a => (TrackAnnounce s (trackReq ih q) a).1 | None => s end) ih peers); [done|].
  rewrite IH. by destruct (ToNetipAddrPort q).
Qed.

(** Finishing an operation. *)
Lemma finish_tracks ls me id me' : handlerOk ls me → finishOperation me id = Some me' →
  ∃ ih tracked,
    ongoingUpstreamAugmentations me !! ih = Some id ∧ ongoingUpstreamAugmentations me' = delete ih (ongoingUpstreamAugmentations me) ∧
    NoDup (map (peerKey IP_String) tracked) ∧
    (∀ key, key ∈ map (peerKey IP_String) tracked ↔ ∃ peers p, HResponse id peers ∈ ls ∧ p ∈ peers ∧ key = peerKey IP_String p) ∧
    (∀ q, q ∈ tracked → ∃ peers, HResponse id peers ∈ ls ∧ q ∈ peers) ∧
    ahTracker me' = foldl (λ s c, (TrackAnnounce s (trackReq ih c.1) c.2).1) (ahTracker me)
                      (omap (λ q, (λ a, (q, a)) <$> ToNetipAddrPort q) tracked).
Proof.
  intros [Ho Hn Hr Hp Ht] Hf. unfold finishOperation in Hf. destruct (opsLive me !! id) as [op|] eqn:Hop; [|done].
  cbn [mbind option_bind] in Hf. destruct (pendingUpstreams op); [|done]. injection Hf as <-.
  set (tracked := map snd (map_to_list (peersToTrack op))). exists (opInfoHash op), tracked.
  assert (Hin : ∀ q, q ∈ tracked ↔ peersToTrack op !! peerKey IP_String q = Some q).
  { intros q. unfold tracked. rewrite list_elem_of_fmap. split.
    - intros ([key q'] & -> & Hq%elem_of_map_to_list). cbn. by destruct (Ht id op key q' Hop Hq) as [<- _].
    - intros Hq. exists (peerKey IP_String q, q). by rewrite elem_of_map_to_list. }
  split; [apply Ho; by exists op|]. split; [done|]. split.
  { unfold tracked. rewrite map_map. erewrite map_ext_in; [apply (NoDup_fst_map_to_list (peersToTrack op))|].
    intros [key q] Hq%list_elem_of_In%elem_of_map_to_list. cbn. symmetry. by destruct (Ht id op key q Hop Hq). }
  split; [|split; [|apply trackAll_calls]].
  - intros key. rewrite list_elem_of_fmap. split.
    + intros (q & -> & Hq%Hin). destruct (Ht id op _ q Hop Hq) as (_ & peers & ? & ?). by exists peers, q.
    + intros (peers & p & H & Hpe & ->). destruct (Hp id peers p op H Hpe Hop) as [[q Hq] _].
      destruct (Ht id op _ q Hop Hq) as [He _]. exists q. split; [done|]. apply Hin. by rewrite <- He.
  - intros q Hq%Hin. destruct (Ht id op _ q Hop Hq) as (_ & peers & ? & ?). by exists peers.
Qed.

(** C27.  However announces and responses of upstream trackers interleave, at
    most one augmentation runs for an info-hash, and every address of the
    responses it has had is among the peers that a waiting announce is given.
    When it finishes, of the peers of its responses one is taken for each
    distinct [String] of a peer, and nothing else; those that have a valid address
    are announced to the tracker, once each, and those without are not; and
    the info-hash is free for another augmentation. *)
Theorem augmentation_exact s ls me : hrun (newHandler s) ls = Some me →
  (∀ id1 id2 op1 op2, opsLive me !! id1 = Some op1 → opsLive me !! id2 = Some op2 → opInfoHash op1 = opInfoHash op2 → id1 = id2) ∧
  (∀ id op peers p a, opsLive me !! id = Some op → HResponse id peers ∈ ls → p ∈ peers → ToNetipAddrPort p = Some a → a ∈ retPeers op) ∧
  (∀ id me', hstep me (HFinish id) = Some me' → ∃ ih tracked,
     ongoingUpstreamAugmentations me !! ih = Some id ∧ ongoingUpstreamAugmentations me' = delete ih (ongoingUpstreamAugmentations me) ∧
     NoDup (map (peerKey IP_String) tracked) ∧
     (∀ key, key ∈ map (peerKey IP_String) tracked ↔ ∃ peers p, HResponse id peers ∈ ls ∧ p ∈ peers ∧ key = peerKey IP_String p) ∧
     (∀ q, q ∈ tracked → ∃ peers, HResponse id peers ∈ ls ∧ q ∈ peers) ∧
     ahTracker me' = foldl (λ s c, (TrackAnnounce s (trackReq ih c.1) c.2).1) (ahTracker me)
                       (omap (λ q, (λ a, (q, a)) <$> ToNetipAddrPort q) tracked)).
Proof.
  intros Hok%handler_run. pose proof Hok as [Ho Hn Hr Hp Ht]. split_and!.
  - intros id1 id2 op1 op2 H1 H2 Hi.
    assert (ongoingUpstreamAugmentations me !! opInfoHash op1 = Some id1) by (apply Ho; by exists op1).
    assert (ongoingUpstreamAugmentations me !! opInfoHash op2 = Some id2) by (apply Ho; by exists op2). congruence.
  - intros id op peers p a Hop H Hpe. by apply (Hp id peers p op).
  - intros id me'. by apply finish_tracks.
Qed.

Lemma ServeAugment_ret me sv early : (ServeAugment me sv early).2 = svRet sv.
Proof.
  unfold ServeAugment, withPeers. destruct (svOp sv); destruct (_ && _ && _); try done;
    (destruct (ongoingUpstreamAugmentations me !! svInfoHash sv); [done|by destruct (augmentPeersFromUpstream _ _)]).
Qed.

(** The peers that an announce is answered with are those of the tracker's
    own store, limited as the announce asked: what an augmentation has found
    is thrown away. *)
Lemma serve_discards_upstream run me req addr opts :
  let '(s, err) := TrackAnnounce (ahTracker me) req (announceAddr req addr) in
  (Serve run me req addr opts).2 =
  match err with
  | Some e => mkServerResult (Some e) [] None None None
  | None => GetPeers s (InfoHash req) (mkGetPeersOpts (limitCount (MaxCount opts) (NumWant req))) (announceAddr req addr)
  end.
Proof.
  unfold Serve, ServeBegin. destruct (TrackAnnounce _ _ _) as [s [e|]]; [done|]. cbn [ahTracker].
  destruct (saErr _); [done|].
  match goal with |- context [ServeAugment ?m ?sv ?e] => pose proof (ServeAugment_ret m sv e) as H; destruct (ServeAugment m sv e) as [[me2 op] r] end.
  cbn [snd svRet] in *. rewrite H. by destruct op.
Qed.
End Handler.

(** ** An example

    The store knows one peer for an info-hash; an upstream tracker knows
    another. *)
Module ServerExample.
#[global] Instance listTracker : AnnounceTracker (list AddrPort) := {|
  TrackAnnounce s _ addr := (s ++ [addr], None);
  GetPeers s _ opts _ := mkServerResult None (match MaxCount opts with Some n => take (Z.to_nat n) s | None => s end) None None None |}.

Definition text (ip : list Z) : list Z := ip.
Definition req : AnnounceRequest := mkAnnounce [1] [2] 0 0 0 EventNone 0 0 (-1) 6881 false.
Definition other : trackerPeer := mkTPeer [10; 0; 0; 2] 80 [].
Definition begin : AnnounceHandler (list AddrPort) * (ServerAnnounceResult + Serving) :=
  ServeBegin (newHandler []) req ([10; 0; 0; 1], 5) (mkGetPeersOpts None).
Definition sv : Serving := match begin.2 with inr sv => sv | inl _ => mkServing [] None (mkServerResult None [] None None None) None end.
Definition augmented : AnnounceHandler (list AddrPort) * option nat * ServerAnnounceResult := ServeAugment 1 begin.1 sv (∅, false).
Definition labels : list hlabel := [HBegin 0 req ([10; 0; 0; 1], 5) (mkGetPeersOpts None); HAugment 0 (∅, false); HResponse 0 [other; other]].
Definition ran : AnnounceHandler (list AddrPort) := default (newHandler []) (hrun text 1 (newHandler []) labels).
End ServerExample.

Lemma augmentation_exact_witness :
  (∃ me', hstep ServerExample.text 1 ServerExample.ran (HFinish 0) = Some me') ∧
  ∀ id me', hstep ServerExample.text 1 ServerExample.ran (HFinish id) = Some me' → ∃ ih tracked,
     ongoingUpstreamAugmentations ServerExample.ran !! ih = Some id ∧
     ongoingUpstreamAugmentations me' = delete ih (ongoingUpstreamAugmentations ServerExample.ran) ∧
     NoDup (map (peerKey ServerExample.text) tracked) ∧
     (∀ key, key ∈ map (peerKey ServerExample.text) tracked ↔
        ∃ peers p, HResponse id peers ∈ ServerExample.labels ∧ p ∈ peers ∧ key = peerKey ServerExample.text p) ∧
     (∀ q, q ∈ tracked → ∃ peers, HResponse id peers ∈ ServerExample.labels ∧ q ∈ peers) ∧
     ahTracker me' = foldl (λ s c, (TrackAnnounce s (trackReq ih c.1) c.2).1) (ahTracker ServerExample.ran)
                       (omap (λ q, (λ a, (q, a)) <$> ToNetipAddrPort q) tracked).
Proof.
  split; [eexists; vm_compute; reflexivity|].
  refine (proj2 (proj2 (augmentation_exact ServerExample.text 1 ([] : list AddrPort) ServerExample.labels ServerExample.ran _))).
  vm_compute. reflexivity.
Defined.

(** The peer found upstream is not among those returned, although the
    operation has been waited for and had it. *)
Example upstream_peer_lost :
  (Serve 1 (mkServeRun id (∅, false) {[ ([10; 0; 0; 2], 80) ]}) (newHandler []) ServerExample.req ([10; 0; 0; 1], 5) (mkGetPeersOpts None)).2 =
  mkServerResult None [([10; 0; 0; 1], 6881)] None None None.
Proof. vm_compute. reflexivity. Qed.

Example tracked_after_finish :
  ahTracker <$> hrun ServerExample.text 1 ServerExample.ran [HFinish 0] = Some [([10; 0; 0; 1], 6881); ([10; 0; 0; 2], 80)].
Proof. vm_compute. reflexivity. Qed.
