(* ===== verification/GoHeap.v ===== *)
(** Package [container/heap] on a slice whose [Less] may panic: what is used
    of it by src/worse-conns.go, and that it delivers the elements in
    order. *)
From stdpp Require Import base numbers list strings.
From Stdlib Require Import ZArith Lia Sorted.
From S2P Require Import Prelude.
Open Scope nat_scope.

Section Heap.
Context {A : Type} (less : A → A → go bool).

Definition swap (l : list A) (i j : nat) : list A :=
  match l !! i, l !! j with
  | Some x, Some y => <[j := x]> (<[i := y]> l)
  | _, _ => l
  end.

Definition lessAt (l : list A) (i j : nat) : go bool :=
  match l !! i, l !! j with
  | Some x, Some y => less x y
  | _, _ => Panic "index out of range"
  end.

(** [j1] is at least twice [i], so [n] units of fuel are enough. *)
Fixpoint down (fuel : nat) (l : list A) (i n : nat) : go (list A) :=
  match fuel with
  | O => Ok l
  | S fuel =>
      let j1 := 2 * i + 1 in
      if n <=? j1 then Ok l
      else
        j ← (if j1 + 1 <? n then b ← lessAt l (j1 + 1) j1; Ok (if b : bool then j1 + 1 else j1) else Ok j1);
        b ← lessAt l j i;
        if b : bool then down fuel (swap l i j) j n else Ok l
  end.

Fixpoint initLoop (k : nat) (l : list A) (n : nat) : go (list A) :=
  match k with
  | O => Ok l
  | S k => l ← down n l k n; initLoop k l n
  end.

Definition heap_Init (l : list A) : go (list A) := initLoop (length l / 2) l (length l).

(** The element, and the slice without it. *)
Definition heap_Pop (l : list A) : go (A * list A) :=
  let n := length l - 1 in
  l ← down n (swap l 0 n) 0 n;
  match l !! n with
  | Some x => Ok (x, take n l)
  | None => Panic "index out of range"
  end.

(** ** Laws *)
Lemma swap_perm l i j : swap l i j ≡ₚ l.
Proof.
  unfold swap. destruct (l !! i) as [x|] eqn:Ei, (l !! j) as [y|] eqn:Ej; [|done..].
  by apply Permutation_insert_swap.
Qed.

Lemma lookup_swap l i j x y : l !! i = Some x → l !! j = Some y → i ≠ j →
  swap l i j !! i = Some y ∧ swap l i j !! j = Some x ∧ ∀ q, q ≠ i → q ≠ j → swap l i j !! q = l !! q.
Proof.
  intros Hi Hj Hne. unfold swap. rewrite Hi, Hj. pose proof (lookup_lt_Some _ _ _ Hi). pose proof (lookup_lt_Some _ _ _ Hj). split_and!.
  - rewrite list_lookup_insert_ne, list_lookup_insert_eq; done.
  - by rewrite list_lookup_insert_eq by (by rewrite length_insert).
  - intros q Hq1 Hq2. by rewrite !list_lookup_insert_ne.
Qed.

(** [less] decides the order [lt] on good elements of different keys. *)
Context {K : Type} (key : A → K) (good : A → Prop) (lt : A → A → bool).
Context (Hless : ∀ x y, good x → good y → key x ≠ key y → less x y = Ok (lt x y)).
Context (Hasym : ∀ x y, lt x y = true → lt y x = false).
Context (Htrans : ∀ x y z, lt y x = false → lt z y = false → lt z x = false).

Definition sortable (l : list A) : Prop := NoDup (key <$> l) ∧ Forall good l.

#[local] Instance sortable_proper : Proper ((≡ₚ) ==> iff) sortable.
Proof. intros l k Hp. unfold sortable. by rewrite Hp. Qed.

(** [x] need not come after [y]. *)
Definition before (x y : A) : Prop := lt y x = false.

Definition child (p c : nat) : Prop := c = 2 * p + 1 ∨ c = 2 * p + 2.

Definition ordered (l : list A) (p c : nat) : Prop := ∀ x y, l !! p = Some x → l !! c = Some y → before x y.

Definition heapFrom (k n : nat) (l : list A) : Prop := ∀ p c, k ≤ p → child p c → c < n → ordered l p c.

(** The heap but for the element at [i], which may have to go down. *)
Definition nearly (k n i : nat) (l : list A) : Prop :=
  (∀ p c, k ≤ p → child p c → c < n → p ≠ i → ordered l p c) ∧
  (∀ p c, k ≤ p → child p i → child i c → c < n → ordered l p c).

Lemma lessAt_ok l i j x y : sortable l → l !! i = Some x → l !! j = Some y → i ≠ j → lessAt l i j = Ok (lt x y).
Proof using Hless.
  intros [Hnd Hg] Hi Hj Hne. unfold lessAt. rewrite Hi, Hj. apply Hless;
    [exact (proj1 (Forall_lookup _ _) Hg _ _ Hi)|exact (proj1 (Forall_lookup _ _) Hg _ _ Hj)|]. intros He. apply Hne.
  apply (NoDup_lookup (key <$> l) i j (key x) Hnd); rewrite list_lookup_fmap; [by rewrite Hi|]. rewrite Hj. cbn. by rewrite He.
Qed.

Lemma nearly_stop k n i l : nearly k n i l → (∀ c, child i c → c < n → ordered l i c) → heapFrom k n l.
Proof. intros [Ha _] Hi p c Hp Hc Hn. destruct (decide (p = i)) as [->|Hne]; [by apply Hi|by apply Ha]. Qed.

(** One step down, to the child [j] that comes first. *)
Lemma nearly_swap k n i j l x y : k ≤ i → nearly k n i l → child i j → j < n → l !! i = Some x → l !! j = Some y →
  before y x → (∀ c, child i c → c < n → ordered l j c) → nearly k n j (swap l i j).
Proof.
  intros Hk [Ha Hb] Hij Hj Hi Hjy Hyx Hmin.
  assert (Hne : i ≠ j) by (unfold child in Hij; lia).
  destruct (lookup_swap l i j x y Hi Hjy Hne) as (Hsi & Hsj & Hso). split.
  - intros p c Hp Hc Hn Hpj u v Hu Hv. destruct (decide (p = i)) as [->|Hpi].
    + rewrite Hsi in Hu. injection Hu as <-. destruct (decide (c = j)) as [->|Hcj].
      * rewrite Hsj in Hv. by injection Hv as <-.
      * rewrite Hso in Hv by (unfold child in Hc; lia). by apply (Hmin c Hc Hn).
    + rewrite Hso in Hu by done. destruct (decide (c = i)) as [->|Hci].
      * rewrite Hsi in Hv. injection Hv as <-. by apply (Hb p j Hp Hc Hij Hj).
      * assert (c ≠ j) by (unfold child in *; lia). rewrite Hso in Hv by done. by apply (Ha p c Hp Hc Hn Hpi).
  - intros p c Hp Hpj Hjc Hn u v Hu Hv. assert (p = i) as -> by (unfold child in *; lia).
    rewrite Hsi in Hu. injection Hu as <-. rewrite Hso in Hv by (unfold child in *; lia). by apply (Ha j c ltac:(unfold child in *; lia) Hjc Hn).
Qed.

Lemma down_spec fuel : ∀ k l i n, n - i ≤ fuel → n ≤ length l → i < length l → sortable l → k ≤ i → nearly k n i l →
  ∃ l', down fuel l i n = Ok l' ∧ heapFrom k n l' ∧ l' ≡ₚ l ∧ ∀ q, n ≤ q → l' !! q = l !! q.
Proof using Hless Hasym Htrans.
  induction fuel as [|fuel IH]; intros k l i n Hf Hn Hil Hnd Hk Hnear; cbn [down].
  { exists l. split_and!; [done| |done|done]. apply (nearly_stop k n i l Hnear). unfold child. intros; lia. }
  destruct (Nat.leb_spec n (2 * i + 1)) as [Hlast|Hj1].
  { exists l. split_and!; [done| |done|done]. apply (nearly_stop k n i l Hnear). unfold child. intros; lia. }
  destruct (lookup_lt_is_Some_2 l i ltac:(lia)) as [x Hx]. destruct (lookup_lt_is_Some_2 l (2 * i + 1) ltac:(lia)) as [y1 Hy1].
  (* the smaller child *)
  assert (Hj : ∃ j y, (if 2 * i + 1 + 1 <? n then b ← lessAt l (2 * i + 1 + 1) (2 * i + 1); Ok (if b : bool then 2 * i + 1 + 1 else 2 * i + 1) else Ok (2 * i + 1)) = Ok j ∧
    child i j ∧ j < n ∧ l !! j = Some y ∧ ∀ c, child i c → c < n → ordered l j c).
  { assert (Hrefl : ∀ u, before u u) by (intros u; unfold before; destruct (lt u u) eqn:E; [by rewrite (Hasym _ _ E) in E|done]).
    destruct (Nat.ltb_spec (2 * i + 1 + 1) n) as [Hj2|Hj2].
    - destruct (lookup_lt_is_Some_2 l (2 * i + 1 + 1) ltac:(lia)) as [y2 Hy2].
      rewrite (lessAt_ok l _ _ y2 y1) by (done || lia). cbn [mbind go_bind]. destruct (lt y2 y1) eqn:E.
      + exists (2 * i + 1 + 1), y2. split_and!; [done|unfold child; lia|lia|done|]. intros c Hc _ u v Hu Hv. simplify_eq.
        destruct Hc as [->|Hc]; [simplify_eq; by apply Hasym|replace c with (2 * i + 1 + 1) in Hv by lia; by simplify_eq].
      + exists (2 * i + 1), y1. split_and!; [done|unfold child; lia|lia|done|]. intros c Hc _ u v Hu Hv. simplify_eq.
        destruct Hc as [->|Hc]; [by simplify_eq|replace c with (2 * i + 1 + 1) in Hv by lia; by simplify_eq].
    - exists (2 * i + 1), y1. split_and!; [done|unfold child; lia|lia|done|]. intros c Hc Hcn u v Hu Hv.
      assert (c = 2 * i + 1) as -> by (unfold child in Hc; lia). by simplify_eq. }
  destruct Hj as (j & y & -> & Hij & Hjn & Hy & Hmin). cbn [mbind go_bind].
  assert (Hne : j ≠ i) by (unfold child in Hij; lia).
  rewrite (lessAt_ok l j i y x) by done. cbn [mbind go_bind]. destruct (lt y x) eqn:E.
  - destruct (IH k (swap l i j) j n) as (l' & Hd & Hh & Hp & Hq).
    + unfold child in Hij; lia.
    + by rewrite (Permutation_length (swap_perm l i j)).
    + rewrite (Permutation_length (swap_perm l i j)). lia.
    + by rewrite (swap_perm l i j).
    + unfold child in Hij; lia.
    + apply (nearly_swap k n i j l x y); try done. by apply Hasym.
    + exists l'. split_and!; [done|done|by rewrite Hp, swap_perm|]. intros q Hqn. rewrite Hq by done.
      apply (lookup_swap l i j x y); (done || unfold child in Hij; lia).
  - exists l. split_and!; [done| |done|done]. apply (nearly_stop k n i l Hnear). intros c Hc Hcn u v Hu Hv. simplify_eq.
    apply (Htrans _ y); [done|]. by apply (Hmin c).
Qed.

Lemma initLoop_spec k : ∀ l, sortable l → k ≤ length l → heapFrom k (length l) l →
  ∃ l', initLoop k l (length l) = Ok l' ∧ heapFrom 0 (length l') l' ∧ l' ≡ₚ l.
Proof using Hless Hasym Htrans.
  induction k as [|k IH]; intros l Hnd Hk Hh; cbn [initLoop]; [by exists l|].
  destruct (down_spec (length l) k l k (length l)) as (l1 & -> & Hh1 & Hp1 & _); try done; try lia.
  { split; [intros p c Hp Hc Hn Hne; apply Hh; [lia|done..]|unfold child; intros; lia]. }
  cbn [mbind go_bind]. rewrite <- (Permutation_length Hp1) in *. destruct (IH l1) as (l' & Hl' & Hh' & Hp'); [by rewrite Hp1|lia|done|].
  exists l'. split_and!; [done|done|by etrans].
Qed.

Lemma heap_Init_spec l : sortable l → ∃ l', heap_Init l = Ok l' ∧ heapFrom 0 (length l') l' ∧ l' ≡ₚ l.
Proof using Hless Hasym Htrans.
  intros Hnd. apply initLoop_spec; [done|apply Nat.Div0.div_le_upper_bound; lia|].
  intros p c Hp [-> | ->] Hc; exfalso; pose proof (Nat.div_mod_eq (length l) 2); pose proof (Nat.mod_upper_bound (length l) 2); lia.
Qed.

(** The root comes before every element. *)
Lemma heap_root n l x : heapFrom 0 n l → n ≤ length l → l !! 0 = Some x → ∀ i y, i < n → l !! i = Some y → before x y.
Proof using Hasym Htrans.
  intros Hh Hn Hx i. induction (lt_wf i) as [i _ IH]. intros y Hi Hy. destruct i as [|i].
  - assert (y = x) as -> by congruence. unfold before. destruct (lt x x) eqn:E; [by rewrite (Hasym _ _ E) in E|done].
  - assert (Hp : ∃ p, child p (S i) ∧ p < S i).
    { exists (i / 2). unfold child. pose proof (Nat.div_mod_eq i 2). pose proof (Nat.mod_upper_bound i 2). lia. }
    destruct Hp as (p & Hc & Hlt). destruct (lookup_lt_is_Some_2 l p ltac:(lia)) as [z Hz].
    apply (Htrans _ z); [apply (IH p Hlt z ltac:(lia) Hz)|by apply (Hh p (S i) ltac:(lia) Hc)].
Qed.

Lemma heap_Pop_spec l : sortable l → l ≠ [] → heapFrom 0 (length l) l →
  ∃ x l', heap_Pop l = Ok (x, l') ∧ l ≡ₚ x :: l' ∧ Forall (before x) l' ∧ heapFrom 0 (length l') l'.
Proof using Hless Hasym Htrans.
  intros Hnd Hne Hh. unfold heap_Pop. set (n := length l - 1).
  assert (Hlen : length l = S n) by (destruct l; [done|cbn in *; lia]).
  destruct (lookup_lt_is_Some_2 l 0 ltac:(lia)) as [x Hx]. destruct (lookup_lt_is_Some_2 l n ltac:(lia)) as [z Hz].
  assert (Hsw : swap l 0 n !! n = Some x ∧ (∀ q, q ≠ 0 → q ≠ n → swap l 0 n !! q = l !! q)).
  { destruct (decide (n = 0)) as [H0|Hn0]; [|by destruct (lookup_swap l 0 n x z) as (_ & ? & ?)].
    unfold swap. rewrite H0, Hx. rewrite !list_insert_id; [|done|by rewrite list_insert_id]. done. }
  destruct Hsw as [Hswn Hswo]. pose proof (swap_perm l 0 n) as Hsp.
  destruct (down_spec n 0 (swap l 0 n) 0 n) as (l1 & -> & Hh1 & Hp1 & Hq1); try lia.
  { rewrite (Permutation_length Hsp). lia. }
  { rewrite (Permutation_length Hsp). lia. }
  { by rewrite Hsp. }
  { split; [|unfold child; intros; lia]. intros p c _ Hc Hn Hp0 u v Hu Hv. unfold child in Hc.
    rewrite Hswo in Hu by lia. rewrite Hswo in Hv by lia. by apply (Hh p c ltac:(lia) Hc ltac:(lia)). }
  cbn [mbind go_bind]. rewrite Hq1, Hswn by lia. exists x, (take n l1).
  assert (Hl1 : length l1 = S n) by (by rewrite (Permutation_length Hp1), (Permutation_length Hsp)).
  assert (Hsplit : l1 = take n l1 ++ [x]).
  { rewrite <- (take_drop n l1) at 1. f_equal. apply list_eq. intros [|i]; rewrite lookup_drop; [by rewrite Nat.add_0_r, Hq1, Hswn by lia|].
    rewrite lookup_ge_None_2 by lia. done. }
  assert (Hperm : l ≡ₚ x :: take n l1).
  { rewrite <- Hsp, <- Hp1. rewrite Hsplit at 1. by rewrite Permutation_app_comm. }
  split_and!; [done|done| |].
  - apply Forall_forall. intros y Hy.
    assert (Hin : y ∈ l) by (rewrite Hperm; by constructor). apply list_elem_of_lookup in Hin as [i Hi].
    apply (heap_root (length l) l x Hh ltac:(lia) Hx i y); [by eapply lookup_lt_Some|done].
  - rewrite length_take, Nat.min_l by lia. intros p c Hp Hc Hn u v Hu Hv.
    apply lookup_take_Some in Hu as [Hu _]. apply lookup_take_Some in Hv as [Hv _]. by apply (Hh1 p c Hp Hc Hn).
Qed.

(** Popping until a heap is empty visits its elements in order. *)
Inductive popped : list A → list A → Prop :=
| popped_nil : popped [] []
| popped_cons l x l' xs : l ≠ [] → heap_Pop l = Ok (x, l') → l ≡ₚ x :: l' → popped l' xs → popped l (x :: xs).

Lemma heap_sorts l : sortable l → heapFrom 0 (length l) l → ∃ xs, popped l xs ∧ xs ≡ₚ l ∧ StronglySorted before xs.
Proof using Hless Hasym Htrans.
  remember (length l) as n eqn:Hn. revert l Hn. induction n as [|n IH]; intros l Hn Hnd Hh.
  - destruct l; [|done]. exists []. split_and!; constructor.
  - assert (Hne : l ≠ []) by (by destruct l). rewrite Hn in Hh.
    destruct (heap_Pop_spec l Hnd Hne Hh) as (x & l' & Hpop & Hp & Hx & Hh').
    destruct (IH l') as (xs & Hxs & Hperm & Hs).
    + apply Permutation_length in Hp. cbn in Hp. lia.
    + rewrite Hp in Hnd. destruct Hnd as [Hnd Hg]. cbn in Hnd. apply NoDup_cons in Hnd as [_ ?]. by apply Forall_cons in Hg as [_ ?].
    + apply Permutation_length in Hp. cbn in Hp. by replace n with (length l') by lia.
    + exists (x :: xs). split_and!; [by econstructor|by rewrite Hp, Hperm|]. constructor; [done|]. by rewrite Hperm.
Qed.
End Heap.
