(* ===== verification/WorseConns.v ===== *)
(** Which connection to give up: src/worse-conns.go, and [worstBadConn] and
    [lastHelpful] of src/torrent.go and src/peerconn.go.

    Times are nanoseconds; the zero [time.Time] is 0.  A pointer is the handle
    of the connection.  What the model of the swarm does not have of a
    connection is in [ConnEnv]. *)
From stdpp Require Import base numbers list gmap strings.
From Stdlib Require Import ZArith Lia Sorted.
From S2P Require Import Prelude RequestStrategy SwarmState Swarm Scenario Bep40 GoHeap.
Open Scope Z_scope.

Record worseConnInput : Type := mkInput {
  Useful : bool;
  LastHelpful : Z;
  CompletedHandshake : Z;
  GetPeerPriority : option Z   (** [None] is an error *);
  Pointer : Z }.

(** [Time.Sub] saturates. *)
Definition timeSub (a b : Z) : Z := Z.max (- 2 ^ 63) (Z.min (2 ^ 63 - 1) (a - b)).

Section Less.
Context `{Multiless}.

(** The function for [LazySameLess], as a computation of its own. *)
Definition lessByPriority (l r : worseConnInput) : Computation :=
  match GetPeerPriority l, GetPeerPriority r with
  | Some a, Some b => ml_Cmp ml_New (if a =? b then 0 else if a <? b then -1 else 1)
  | _, _ => ml_New
  end.

Definition worseConnInput_Less (l r : worseConnInput) : go bool :=
  let c := ml_Int
    (ml_Lazy
      (ml_Cmp
        (ml_Cmp (ml_Bool ml_New (Useful l) (Useful r)) (timeSub (LastHelpful l) (LastHelpful r)))
        (timeSub (CompletedHandshake l) (CompletedHandshake r)))
      (λ _, lessByPriority l r))
    (Pointer l) (Pointer r) in
  if ml_Ok c then Ok (ml_Less c) else Panic "cannot differentiate".
End Less.

(** What else is known of a connection. *)
Record ConnEnv : Type := mkConnEnv {
  completedHandshake : nat → Z;
  remoteIpPort : nat → IpPort;
  localPublicAddr : nat → IpPort }.

Definition lastHelpful (s : Swarm) (p : Peer) : Z :=
  let ret := default 0 (lastUsefulChunkReceived (pCtl p)) in
  let sent := default 0 (lastChunkSent (pCtl p)) in
  if seeding s && (ret <? sent) then sent else ret.

(** [bep40Priority] returns for all addresses made of bytes. *)
Definition peerPriority (e : ConnEnv) (c : nat) : option Z :=
  match bep40Priority (remoteIpPort e c) (localPublicAddr e c) with Ok o => o | Panic _ => None end.

Definition worseConnInputFromPeer (s : Swarm) (e : ConnEnv) (c : nat) (p : Peer) : worseConnInput :=
  mkInput (useful s p) (lastHelpful s p) (completedHandshake e c) (peerPriority e c) (Z.of_nat c).

(** An element of [worseConnSlice]: connection and key. *)
Record worseConn : Type := mkWorse { wcConn : nat; wcPeer : Peer; wcKey : worseConnInput }.

Section Worst.
Context `{Multiless}.

Definition worseConnSlice_Less (x y : worseConn) : go bool := worseConnInput_Less (wcKey x) (wcKey y).

Definition initKeys (s : Swarm) (e : ConnEnv) (cs : list (nat * Peer)) : list worseConn :=
  map (λ c, mkWorse c.1 c.2 (worseConnInputFromPeer s e c.1 c.2)) cs.

(** [appendUnclosedConns], in the order of the map. *)
Definition unclosedConns (mapOrder : gset nat → list nat) (s : Swarm) : list (nat * Peer) :=
  omap (λ c, match peers s !! c with
             | Some p => if peerClosed (pHave p) then None else Some (c, p)
             | None => None
             end) (mapOrder (conns s)).

Definition Minute : Z := 60 * 10 ^ 9.

(** The two reasons for which a connection is bad, when [left] others are
    better. *)
Definition wastes (p : Peer) : bool :=
  (6 <=? ChunksReadWasted (stats p)) && (ChunksReadUseful (stats p) <? ChunksReadWasted (stats p)).

Definition badConn (e : ConnEnv) (maxEstablishedConns now left : Z) (x : worseConn) : bool :=
  wastes (wcPeer x) ||
  (Z.quot (maxEstablishedConns + 1) 2 <=? left) && (Minute <? timeSub now (completedHandshake e (wcConn x))).

Fixpoint worstLoop (fuel : nat) (e : ConnEnv) (maxEstablishedConns now : Z) (wcs : list worseConn) : go (option nat) :=
  match fuel, wcs with
  | _, [] => Ok None
  | O, _ => Panic "out of fuel"
  | S fuel, _ =>
      '(c, wcs) ← heap_Pop worseConnSlice_Less wcs;
      if badConn e maxEstablishedConns now (Z.of_nat (length wcs)) c then Ok (Some (wcConn c))
      else worstLoop fuel e maxEstablishedConns now wcs
  end.

Definition worstBadConn (mapOrder : gset nat → list nat) (s : Swarm) (e : ConnEnv) (maxEstablishedConns now : Z) : go (option nat) :=
  let wcs := initKeys s e (unclosedConns mapOrder s) in
  wcs ← heap_Init worseConnSlice_Less wcs;
  worstLoop (length wcs) e maxEstablishedConns now wcs.
End Worst.

(** ** The order *)
Definition connKey (x : worseConnInput) : list Z :=
  [Z.b2z (Useful x); LastHelpful x; CompletedHandshake x; default 0 (GetPeerPriority x); Pointer x].

(** [x] is worse than [y]. *)
Definition worse (x y : worseConnInput) : bool :=
  match bytes_compare (connKey x) (connKey y) with Lt => true | _ => false end.

Lemma timeSub_sign a b : (timeSub a b ?= 0) = (a ?= b).
Proof. unfold timeSub. destruct (Z.compare_spec a b), (Z.compare_spec (Z.max (- 2 ^ 63) (Z.min (2 ^ 63 - 1) (a - b))) 0); try done; lia. Qed.

Section Order.
Context `{Multiless}.

Lemma lessByPriority_ord l r a b : GetPeerPriority l = Some a → GetPeerPriority r = Some b → ordering (lessByPriority l r) = (a ?= b).
Proof.
  intros Hl Hr. unfold lessByPriority. rewrite Hl, Hr. autorewrite with multiless. cbn.
  destruct (Z.compare_spec a b) as [->|Hab|Hab]; [by rewrite Z.eqb_refl|..]; rewrite (proj2 (Z.eqb_neq a b)) by lia;
    [by rewrite (proj2 (Z.ltb_lt a b)) by lia|by rewrite (proj2 (Z.ltb_ge a b)) by lia].
Qed.

Lemma Less_worse l r : is_Some (GetPeerPriority l) → is_Some (GetPeerPriority r) → Pointer l ≠ Pointer r →
  worseConnInput_Less l r = Ok (worse l r).
Proof.
  intros [a Ha] [b Hb] Hp. unfold worseConnInput_Less, worse. autorewrite with multiless.
  rewrite (lessByPriority_ord l r a b Ha Hb), !timeSub_sign. unfold connKey. rewrite Ha, Hb. cbn.
  destruct (Z.b2z (Useful l) ?= Z.b2z (Useful r)), (LastHelpful l ?= LastHelpful r),
    (CompletedHandshake l ?= CompletedHandshake r), (a ?= b), (Z.compare_spec (Pointer l) (Pointer r)); done || lia.
Qed.

Lemma worse_asym x y : worse x y = true → worse y x = false.
Proof. unfold worse. rewrite (bytes_compare_opp (connKey x)). by destruct (bytes_compare (connKey x) (connKey y)). Qed.

Lemma worse_trans x y z : worse y x = false → worse z y = false → worse z x = false.
Proof.
  unfold worse. intros H1 H2.
  destruct (bytes_compare (connKey z) (connKey x)) eqn:E; try done. exfalso.
  destruct (bytes_compare (connKey y) (connKey x)) eqn:E1; try done.
  - apply bytes_compare_Eq in E1. rewrite E1 in H2. by rewrite E in H2.
  - assert (Hxy : bytes_compare (connKey x) (connKey y) = Lt) by (by rewrite (bytes_compare_opp (connKey y)), E1).
    by rewrite (bytes_compare_trans _ _ _ E Hxy) in H2.
Qed.

(** The first bad connection of a list. *)
Fixpoint firstBad (e : ConnEnv) (maxEstablishedConns now : Z) (l : list worseConn) : option nat :=
  match l with
  | [] => None
  | x :: l => if badConn e maxEstablishedConns now (Z.of_nat (length l)) x then Some (wcConn x) else firstBad e maxEstablishedConns now l
  end.

Lemma popped_length (wcs xs : list worseConn) : popped worseConnSlice_Less wcs xs → length xs = length wcs.
Proof. induction 1 as [|l x l' xs _ _ Hp _ IH]; [done|]. rewrite (Permutation_length Hp). cbn. by rewrite IH. Qed.

Lemma worstLoop_popped e mx now wcs xs : popped worseConnSlice_Less wcs xs → ∀ fuel, (length wcs ≤ fuel)%nat →
  worstLoop fuel e mx now wcs = Ok (firstBad e mx now xs).
Proof.
  induction 1 as [|wcs x wcs' xs Hne Hpop Hperm Hp IH]; intros fuel Hf; [by destruct fuel|].
  apply Permutation_length in Hperm. cbn in Hperm. destruct wcs as [|w wcs]; [done|].
  destruct fuel as [|fuel]; [cbn in Hf; lia|]. cbn [worstLoop firstBad].
  rewrite Hpop. cbn [mbind go_bind]. rewrite (popped_length _ _ Hp). destruct (badConn _ _ _ _ _); [done|]. apply IH. cbn in Hf, Hperm. lia.
Qed.

Section Torrent.
Context (mapOrder : gset nat → list nat) (Horder : ∀ X, mapOrder X ≡ₚ elements X).

Lemma unclosed_nodup s : NoDup (unclosedConns mapOrder s).*1.
Proof using Horder.
  assert (Hnd : NoDup (mapOrder (conns s))) by (rewrite Horder; apply NoDup_elements). revert Hnd. unfold unclosedConns.
  induction (mapOrder (conns s)) as [|c cs IH]; intros [Hc Hnd]%NoDup_cons || intros _; [constructor|].
  cbn [omap list_omap]. destruct (peers s !! c) as [p|]; [|by apply IH]. destruct (peerClosed (pHave p)); [by apply IH|].
  cbn. apply NoDup_cons. split; [|by apply IH]. intros ([c' q] & Heq & Hin)%list_elem_of_fmap. cbn in Heq. subst c'.
  apply list_elem_of_omap in Hin as (d & Hd & Hq). destruct (peers s !! d); [|done]. destruct (peerClosed _); [done|]. by injection Hq as <- <-.
Qed.

(** C28.  When every connection has a priority, [worstBadConn] goes through the
    connections that are not closed from the worst to the best, by a strict
    total order, and answers the first bad one, where a connection is bad if
    it wastes data, or if it is older than a minute and half the quota of
    established connections is better; it never panics. *)
Theorem worstBadConn_worst (s : Swarm) (e : ConnEnv) maxEstablishedConns now :
  (∀ c, is_Some (peerPriority e c)) →
  ∃ xs, xs ≡ₚ initKeys s e (unclosedConns mapOrder s) ∧
    StronglySorted (λ x y, worse (wcKey x) (wcKey y) = true) xs ∧
    worstBadConn mapOrder s e maxEstablishedConns now = Ok (firstBad e maxEstablishedConns now xs).
Proof using Horder.
  intros Hprio. set (wcs := initKeys s e (unclosedConns mapOrder s)).
  set (key := λ x : worseConn, Pointer (wcKey x)). set (good := λ x : worseConn, is_Some (GetPeerPriority (wcKey x))).
  set (lt := λ x y : worseConn, worse (wcKey x) (wcKey y)).
  assert (Hs : sortable key good wcs).
  { split.
    - unfold wcs, initKeys. rewrite <- list_fmap_compose.
      replace (key ∘ (λ c, mkWorse c.1 c.2 (worseConnInputFromPeer s e c.1 c.2)) <$> unclosedConns mapOrder s)
        with (Z.of_nat <$> (unclosedConns mapOrder s).*1) by (rewrite <- list_fmap_compose; done).
      apply NoDup_fmap_2; [apply _|apply unclosed_nodup].
    - apply Forall_map, Forall_true. intros [c p]. apply Hprio. }
  assert (Hless : ∀ x y, good x → good y → key x ≠ key y → worseConnSlice_Less x y = Ok (lt x y)) by (intros x y; apply Less_worse).
  assert (Has : ∀ x y, lt x y = true → lt y x = false) by (intros x y; apply worse_asym).
  assert (Htr : ∀ x y z, lt y x = false → lt z y = false → lt z x = false) by (intros x y z; apply worse_trans).
  destruct (heap_Init_spec _ key good lt Hless Has Htr wcs Hs) as (l & Hl & Hh & Hp).
  assert (Hsl : sortable key good l) by (destruct Hs; split; by rewrite Hp).
  destruct (heap_sorts _ key good lt Hless Has Htr l Hsl Hh) as (xs & Hpop & Hperm & Hsort).
  exists xs. split_and!; [by rewrite Hperm, Hp| |].
  - assert (Hnd : NoDup (key <$> xs)) by (rewrite Hperm; apply Hsl). clear -Hsort Hnd. induction Hsort as [|x xs Hs IH Hx]; constructor.
    + apply IH. cbn in Hnd. by apply NoDup_cons in Hnd as [_ ?].
    + cbn in Hnd. apply NoDup_cons in Hnd as [Hni _]. rewrite Forall_forall in *. intros y Hy. specialize (Hx y Hy).
      unfold before, lt, worse in *. rewrite (bytes_compare_opp (connKey (wcKey x))) in Hx.
      destruct (bytes_compare (connKey (wcKey x)) (connKey (wcKey y))) eqn:E; try done. apply bytes_compare_Eq in E. exfalso. apply Hni.
      apply list_elem_of_fmap. exists y. split; [|done]. unfold key. unfold connKey in E. congruence.
  - unfold worstBadConn. fold wcs. rewrite Hl. cbn [mbind go_bind]. by apply worstLoop_popped.
Qed.
End Torrent.
End Order.

(** ** Examples *)
Module WorseExample.
Definition env : ConnEnv :=
  mkConnEnv (λ c, Z.of_nat c * 10 ^ 9) (λ c, v4 10 0 0 (Z.of_nat c mod 256)) (λ _, v4 10 0 1 7).

(** Peer 0 is a baseline provider. *)
Definition baseline : Swarm :=
  set_peers (alter (λ p, set_pStatic (mkPeerStatic [10] true true (Some 10) (Some 10) true) p) 0%nat (peers exSwarm)) exSwarm.

Lemma env_prio c : is_Some (peerPriority env c).
Proof.
  unfold peerPriority, bep40Priority, bep40PriorityBytes. cbn [remoteIpPort localPublicAddr env].
  destruct (IP_Equal _ _); [by eexists|]. cbn. by eexists.
Qed.
End WorseExample.

Lemma worstBadConn_worst_witness :
  ∃ xs, xs ≡ₚ initKeys exSwarm WorseExample.env (unclosedConns exOrder exSwarm) ∧
    StronglySorted (λ x y, worse (wcKey x) (wcKey y) = true) xs ∧
    worstBadConn exOrder exSwarm WorseExample.env 2 (100 * 10 ^ 9) = Ok (firstBad WorseExample.env 2 (100 * 10 ^ 9) xs).
Proof. apply (worstBadConn_worst exOrder (λ X, reflexivity _) exSwarm WorseExample.env 2 (100 * 10 ^ 9)). exact WorseExample.env_prio. Defined.

(** The connection of the baseline provider is given up like any other. *)
Example baseline_not_exempt : worstBadConn exOrder WorseExample.baseline WorseExample.env 2 (100 * 10 ^ 9) = Ok (Some 0%nat).
Proof. vm_compute. reflexivity. Qed.

(** With a priority that cannot be calculated the order goes round in a
    circle. *)
Example priority_error_cycle :
  let conn prio ptr := mkInput true 5 5 prio ptr in
  let a := conn (Some 1) 30 in let b := conn (Some 5) 10 in let c := conn None 20 in
  worseConnInput_Less a b = Ok true ∧ worseConnInput_Less b c = Ok true ∧ worseConnInput_Less c a = Ok true.
Proof. vm_compute. done. Qed.
