(* ===== verification/Conns.v ===== *)
(** A connection after its handshakes: [runHandshookConn],
    [sendInitialMessages] and [mainReadLoop] of src/client.go and
    src/peerconn.go, [postBitfield], [bitfield], and which of two connections
    to one peer is kept ([hasPreferredNetworkOver], src/peerconn.go and
    src/networks.go).

    The operations are in the monad of SwarmState.v.  What the model of the
    torrent does not have of a connection is its [ConnEnd], and what it does
    not have of the client is [ClientConf].  While the read loop decodes a
    message it does not hold the client lock: what the rest of the client does
    meanwhile is an arbitrary operation. *)
From stdpp Require Import base numbers list strings gmap sorting.
From Stdlib Require Import ZArith Lia Ascii String.
From S2P Require Import Prelude Wire Metainfo Geometry RequestStrategy OrderedBitmap AllocLim SmartBan SwarmState Swarm SwarmWp SwarmReq Metadata Requesting Bep40 Decimal Bencode BencodeTyped Stream Crypto Mse Handshake Scenario.
Open Scope Z_scope.

(** ** networks.go *)
Record network : Type := mkNetwork { Ipv4 : bool; Ipv6 : bool; Udp : bool; Tcp : bool }.

(** [strings.Contains]. *)
Fixpoint strings_Contains (s substr : string) : bool :=
  String.prefix substr s || match s with EmptyString => false | String _ s => strings_Contains s substr end.

Definition parseNetworkString (net : string) : network :=
  mkNetwork (strings_Contains net "4") (strings_Contains net "6") (strings_Contains net "udp") (strings_Contains net "tcp").

(** ** A connection as one end sees it *)
Record ConnEnd : Type := mkConnEnd {
  outgoing : bool;
  Network : string;
  ceRemoteIp : list Z               (** [remoteIp()], empty for nil *);
  PeerExtensionBytes : list Z;
  cePeerID : list Z
}.

Definition utp (cn : ConnEnd) : bool := Udp (parseNetworkString (Network cn)).

Definition ipv6 (cn : ConnEnd) : bool :=
  match To4 (ceRemoteIp cn) with
  | Some _ => false
  | None => Nat.eqb (List.length (ceRemoteIp cn)) 16
  end.

Definition isPreferredDirection (clPeerID : list Z) (cn : ConnEnd) : bool :=
  Bool.eqb (match bytes_compare clPeerID (cePeerID cn) with Lt => true | _ => false end) (outgoing cn).

Definition hasPreferredNetworkOver `{Multiless} (clPeerID : list Z) (l r : ConnEnd) : bool :=
  ml_Less
    (ml_Bool
       (ml_Bool
          (ml_Bool ml_New (isPreferredDirection clPeerID r) (isPreferredDirection clPeerID l))
          (utp l) (utp r))
       (ipv6 r) (ipv6 l)).

(** ** The client *)
Record ClientConf : Type := mkClientConf {
  ccPeerID : list Z;
  Extensions : list Z;
  MinPeerExtensions : list Z;
  ExtendedHandshakeClientVersion : list Z;
  HeaderPolicy : HeaderObfuscationPolicy;
  incomingPeerPort : Z;
  PublicIp4 : list Z;
  PublicIp6 : list Z;
  DisablePEX : bool;
  dhtServer : option Z              (** [dhtPort()] of the last server, if there is one *);
  DropDuplicatePeerIds : bool;
  maxEstablishedConns : Z
}.

(** *** The extended handshake, peer_protocol/extended.go and compactip.go

    A [CompactIp] is marshalled as its shortest form. *)
Definition CompactIp (ip : list Z) : list Z := default ip (To4 ip).

Definition TBytes : rty := TSlice (TUint W8).
Definition VBytes (b : list Z) : rval := VSlice (match b with [] => None | _ => Some (map VUint b) end).

Definition tExtendedHandshake : rty :=
  TStruct [(mkFld (bs "M") (bs "m"), TMap (TInt W64));
           (mkFld (bs "V") (bs "v,omitempty"), TString);
           (mkFld (bs "Reqq") (bs "reqq,omitempty"), TInt W64);
           (mkFld (bs "Encryption") (bs "e,omitempty"), TBool);
           (mkFld (bs "MetadataSize") (bs "metadata_size,omitempty"), TInt W64);
           (mkFld (bs "Port") (bs "p,omitempty"), TInt W64);
           (mkFld (bs "YourIp") (bs "yourip,omitempty"), TBytes);
           (mkFld (bs "Ipv4") (bs "ipv4,omitempty"), TBytes);
           (mkFld (bs "Ipv6") (bs "ipv6,omitempty"), TBytes)].

Definition ourHandshake (conf : ClientConf) (cn : ConnEnd) (metadataSize : Z) : rval :=
  VStruct
    [VMap (Some ((bs "ut_metadata", VInt metadataExtendedId) ::
                 (if DisablePEX conf then [] else [(bs "ut_pex", VInt pexExtendedId)])));
     VStr (ExtendedHandshakeClientVersion conf);
     VInt localClientReqq;
     VBool (Preferred (HeaderPolicy conf) || negb (RequirePreferred (HeaderPolicy conf)));
     VInt metadataSize;
     VInt (incomingPeerPort conf);
     VBytes (CompactIp (ceRemoteIp cn));
     VBytes (CompactIp (default [] (To4 (PublicIp4 conf))));
     VBytes (default [] (To16 (PublicIp6 conf)))].

Section Operations.
Context (mapOrder : gset nat → list nat) (sha1 : list Z → list Z).
Context `{Multiless}.
Context (isEmptyValue : rval → bool)  (** [missinggo.IsEmptyValue] *).
Context (worstBadConn : Swarm → option nat).
Context (ext : nat → Z → list Z → act (option MsgErr)) (conf : ClientConf) (ends : nat → ConnEnd).

(** ** sendInitialMessages *)

(** [bencode.MustMarshal]. *)
Definition MustMarshal (t : rty) (v : rval) : go (list Z) :=
  o ← MarshalTyped isEmptyValue t v;
  match o with Some b => Ok b | None => Panic "MustMarshal" end.

(** [Torrent.bitfield]: a piece beyond the end panics. *)
Definition bitfield (s : Swarm) : go (list bool) :=
  g ← (match geo s with Some g => Ok g | None => Panic "nil info" end);
  if forallb (λ i, (0 <=? i) && (i <? numPieces g)) (ascending (_completedPieces s))
  then Ok (map (λ i, pieceComplete s i) (seqZ 0 (numPieces g)))
  else Panic "index out of range".

Definition postBitfield (c : nat) : act unit :=
  p ← peer c;
  _ ← assert_go (bool_decide (sentHaves (pUp p) = ∅)) "bitfield must be first have-related message sent";
  s ← gets (λ s, s);
  if negb (haveAnyPieces s) then mret tt
  else
    bf ← lift_go (bitfield s);
    _ ← write c (mkMessage false Bitfield 0 0 0 [] bf 0 [] 0);
    on_up c (set_sentHaves (_completedPieces s)).

(** The function literal of [sendInitialMessages]. *)
Definition sendHaves (c : nat) : act unit :=
  p ← peer c;
  s ← gets (λ s, s);
  if fastEnabled s p && haveAllPieces s then
    _ ← write c (typeMsg HaveAll);
    g ← info;
    on_up c (λ x, set_sentHaves (sentHaves x ∪ list_to_set (seqZ 0 (numPieces g))) x)
  else if fastEnabled s p && negb (haveAnyPieces s) then
    _ ← write c (typeMsg HaveNone);
    on_up c (set_sentHaves ∅)
  else postBitfield c.

(** Both ends support an extension. *)
Definition bothSupport (supports : list Z → go bool) (c : nat) : go bool :=
  theirs ← supports (PeerExtensionBytes (ends c));
  if theirs : bool then supports (Extensions conf) else Ok false.

Definition sendInitialMessages (c : nat) : act unit :=
  e ← lift_go (bothSupport SupportsExtended c);
  _ ← when e (
        s ← gets (λ s, s);
        b ← lift_go (MustMarshal tExtendedHandshake
              (ourHandshake conf (ends c) (Z.of_nat (List.length (metadataBytes s)))));
        _ ← write c (extendedMsg HandshakeExtendedID b); mret tt);
  _ ← sendHaves c;
  d ← lift_go (bothSupport SupportsDHT c);
  match d, dhtServer conf with
  | true, Some port => _ ← write c (mkMessage false Wire.Port 0 0 0 [] [] 0 [] port); mret tt
  | _, _ => mret tt
  end.

(** ** mainReadLoop

    A turn of the loop: what others do while the message is decoded, and the
    message, or nothing if decoding fails. *)
Record turn : Type := mkTurn { others : act unit; decoded : option Message }.

Inductive loopEnd : Type :=
| LoopReading              (** still in [Decode] *)
| LoopReturned             (** [nil] *)
| LoopDecodeErr
| LoopErr (e : MsgErr).

Fixpoint mainReadLoop (c : nat) (turns : list turn) : act loopEnd :=
  match turns with
  | [] => mret LoopReading
  | t :: turns =>
      _ ← others t;
      s ← gets (λ s, s);
      p ← peer c;
      if torrentClosed s || peerClosed (pHave p) then mret LoopReturned
      else
        match decoded t with
        | None => mret LoopDecodeErr
        | Some msg =>
            err ← handleMessage mapOrder sha1 ext c msg;
            match err with Some e => mret (LoopErr e) | None => mainReadLoop c turns end
        end
  end.

(** ** runHandshookConn *)
Inductive handshook : Type :=
| HsMinExtensions
| HsSelf (doppleganger : bool)       (** whether the address is recorded *)
| HsAdding (e : AddErr)
| HsLoop (e : loopEnd).

(** The loop over [MinPeerExtensions]. *)
Definition meetsExtensions (cn : ConnEnd) : bool :=
  forallb (λ q, Z.land q.1 q.2 =? q.2) (zip (PeerExtensionBytes cn) (MinPeerExtensions conf)).

Definition addConn (c : nat) : act (option AddErr) :=
  addPeerConn mapOrder (λ l r, hasPreferredNetworkOver (ccPeerID conf) (ends l) (ends r)) worstBadConn
    (DropDuplicatePeerIds conf) (maxEstablishedConns conf) c.

(** What comes before the read loop; nothing if the loop is to start. *)
Definition startConn (c : nat) : act (option handshook) :=
  if negb (meetsExtensions (ends c)) then mret (Some HsMinExtensions)
  else if bool_decide (cePeerID (ends c) = ccPeerID conf) then mret (Some (HsSelf (outgoing (ends c))))
  else
    err ← addConn c;
    match err with
    | Some e => mret (Some (HsAdding e))
    | None => _ ← sendInitialMessages c; mret None
    end.

Definition runHandshookConn (c : nat) (turns : list turn) : act handshook :=
  r ← startConn c;
  match r with
  | Some r => mret r
  | None =>
      e ← mainReadLoop c turns;
      _ ← (match e with LoopReading => mret tt | _ => dropConnection mapOrder c end);
      mret (HsLoop e)
  end.
End Operations.
