(* ===== verification/ConnView.v ===== *)
(** What there is of connections in the state of a torrent, and which
    operations leave it alone; adding and removing connections
    ([addPeerConn] and [deletePeerConn] of src/torrent.go). *)
From stdpp Require Import base numbers list strings gmap sorting.
From Stdlib Require Import ZArith Lia.
From S2P Require Import Prelude Wire Metainfo Geometry RequestStrategy OrderedBitmap AllocLim SmartBan SwarmState Swarm SwarmWp SwarmReq Metadata Requesting Bencode BencodeTyped Handshake Conns.
Open Scope Z_scope.

(** A panic ends a run: what is stated here is about what can go on. *)
Definition any (w : string) : Prop := True.
#[export] Hint Extern 0 (any _) => exact I : frame keeps.

Record cview : Type := mkCView {
  vConns : gset nat;
  vCompleted : gset Z;
  vGeo : option Geo;
  vPieces : nat;
  vPeers : gmap nat (list Z * gset Z)      (** peer id and [sentHaves] *)
}.

Definition connView (s : Swarm) : cview :=
  mkCView (conns s) (_completedPieces s) (geo s) (length (pieces s))
    ((λ p, (PeerID (pStatic p), sentHaves (pUp p))) <$> peers s).

Abbreviation CFrame := (Frame connView any).

(** ** What leaves the view alone

    [cframe] opens the operations it meets, down to the updates of the
    state. *)
Lemma cframe_modify_peer c f :
  (∀ p, PeerID (pStatic (f p)) = PeerID (pStatic p) ∧ sentHaves (pUp (f p)) = sentHaves (pUp p)) →
  CFrame (modify_peer c f).
Proof.
  intros Hf. apply frame_modify. intros s. unfold connView. cbn. f_equal. apply fmap_alter_same.
  intros p. by destruct (Hf p) as [-> ->].
Qed.
Lemma cframe_modify_piece i f : CFrame (modify_piece i f).
Proof.
  unfold modify_piece. frame. apply frame_modify. intros s. unfold connView. cbn. f_equal.
  apply length_alter.
Qed.
Lemma cframe_lift_go {A} (m : go A) : CFrame (lift_go m).
Proof. by apply frame_lift_go. Qed.
#[export] Hint Resolve cframe_modify_piece cframe_lift_go : frame.

Ltac head_of t := lazymatch t with ?f _ => head_of f | _ => t end.

Ltac cframe_step :=
  match goal with
  | |- Frame _ _ (modify_peer _ _) => apply cframe_modify_peer; intros []; split; repeat case_match; reflexivity
  | |- _ => frame_step
  | |- Frame _ _ ?m => let h := head_of m in unfold h
  end.
Ltac cframe := repeat cframe_step.

Lemma cframe_write c m : CFrame (write c m).
Proof. cframe. Qed.
Lemma cframe_updateRequests c r : CFrame (updateRequests c r).
Proof. cframe. Qed.
Lemma cframe_updateExpectingChunks c : CFrame (updateExpectingChunks c).
Proof. cframe. Qed.
#[export] Hint Resolve cframe_write cframe_updateRequests cframe_updateExpectingChunks : frame.
Lemma cframe_deleteRequest c r : CFrame (deleteRequest c r).
Proof. cframe. Qed.
#[export] Hint Resolve cframe_deleteRequest : frame.
Lemma cframe_cancel c r : CFrame (cancel c r).
Proof. cframe. Qed.
#[export] Hint Resolve cframe_cancel : frame.

(** ** Adding and removing connections *)
Definition with_conns (C : gset nat) (v : cview) : cview :=
  mkCView C (vCompleted v) (vGeo v) (vPieces v) (vPeers v).

Definition peerIdOf (s : Swarm) (c : nat) : option (list Z) := PeerID ∘ pStatic <$> peers s !! c.

Lemma peerIdOf_view s c : peerIdOf s c = fst <$> vPeers (connView s) !! c.
Proof. cbn. rewrite lookup_fmap. unfold peerIdOf. by destruct (peers s !! c). Qed.

Lemma peerIdOf_same s s' c : vPeers (connView s') = vPeers (connView s) → peerIdOf s' c = peerIdOf s c.
Proof. intros E. by rewrite !peerIdOf_view, E. Qed.

Section Adding.
Context (mapOrder : gset nat → list nat) (order_all : ∀ b c, c ∈ b ↔ c ∈ mapOrder b).

Lemma cframe_close c : CFrame (close c).
Proof. cframe. Qed.
Lemma cframe_deleteAllRequests c r : CFrame (deleteAllRequests mapOrder c r).
Proof. cframe. Qed.

Lemma deletePeerConn_view c s :
  wp any (deletePeerConn mapOrder c) (λ _ s', connView s' = with_conns (conns s ∖ {[c]}) (connView s)) s.
Proof.
  unfold deletePeerConn. apply wp_bind, wp_peer; [|done]. intros p _. apply wp_bind, wp_assert; [|done]. intros _.
  apply wp_bind, wp_gets, wp_bind, wp_modify. cbv zeta.
  apply (frame_wp connView any _ (λ v, v = with_conns (conns s ∖ {[c]}) (connView s))); [|done].
  pose proof cframe_deleteAllRequests. cframe.
Qed.
#[local] Hint Resolve cframe_close : frame.

(** Closing a connection and taking it out. *)
Lemma close_delete_view c s :
  wp any (_ ← close c; _ ← deletePeerConn mapOrder c; mret tt)
    (λ _ s', connView s' = with_conns (conns s ∖ {[c]}) (connView s)) s.
Proof.
  apply wp_bind. eapply wp_mono; [apply cframe_close|]. cbv beta. intros _ s1 E1.
  apply wp_bind. eapply wp_mono; [apply deletePeerConn_view|]. cbv beta. intros _ s2 E2. apply wp_ret.
  rewrite E2, E1. by rewrite (f_equal vConns E1 : conns s1 = conns s).
Qed.

Lemma wp_assoc2 {A B} (m1 : act unit) (m2 : act A) (f : act B) Q s :
  wp any (_ ← (_ ← m1; _ ← m2; mret tt); f) Q s → wp any (_ ← m1; _ ← m2; f) Q s.
Proof.
  unfold wp, mbind, act_bind. destruct (m1 s) as [[[] s1]|w]; [|done]. by destruct (m2 s1) as [[a s2]|w].
Qed.

(** What is left of the connections after the loop over duplicates. *)
Record deduped (preferred : nat → nat → bool) (c : nat) (l : list nat) (s : Swarm) (b : bool) (C : gset nat) : Prop := {
  dd_sub : C ⊆ conns s;
  dd_gone d : d ∈ conns s → d ∉ C → peerIdOf s d = peerIdOf s c ∧ preferred c d = true;
  dd_done d : b = false → d ∈ l → d ∈ C → peerIdOf s d ≠ peerIdOf s c;
  dd_kept : b = true → ∃ d, d ∈ C ∧ peerIdOf s d = peerIdOf s c ∧ preferred c d = false
}.

Lemma dropDuplicates_view preferred c l s :
  wp any (dropDuplicates mapOrder preferred c l)
    (λ b s', ∃ C, connView s' = with_conns C (connView s) ∧ deduped preferred c l s b C) s.
Proof.
  revert s. induction l as [|c0 l IH]; intros s; cbn [dropDuplicates].
  { apply wp_ret. exists (conns s). split; [done|]. split; [done|done|intros d _ Hd; by apply elem_of_nil in Hd|done]. }
  apply wp_bind, wp_peer; [|done]. intros p Hp. apply wp_bind, wp_peer; [|done]. intros p0 Hp0.
  apply wp_bind, wp_gets.
  assert (Hid : peerIdOf s c0 = peerIdOf s c ↔ PeerID (pStatic p) = PeerID (pStatic p0)).
  { unfold peerIdOf. rewrite Hp, Hp0. cbn. split; [by intros [= ->]|by intros ->]. }
  destruct (bool_decide (c0 ∉ conns s) || _) eqn:E.
  - eapply wp_mono; [apply IH|]. cbv beta. intros b s' (C & EC & [Hsub Hgone Hdone Hkept]). exists C. split; [done|].
    split; [done|done| |done]. intros d Hb [->|Hd]%elem_of_cons HC; [|by apply Hdone].
    apply orb_true_iff in E as [E|E]; [apply bool_decide_eq_true in E; by apply Hsub in HC|].
    apply negb_true_iff, bool_decide_eq_false in E. by rewrite Hid.
  - apply orb_false_iff in E as [E1 E2]. apply bool_decide_eq_false in E1. apply negb_false_iff, bool_decide_eq_true in E2.
    apply Hid in E2. destruct (preferred c c0) eqn:Epref.
    + apply wp_assoc2. apply wp_bind. eapply wp_mono; [apply close_delete_view|]. cbv beta. intros _ s1 E1'.
      eapply wp_mono; [apply IH|]. cbv beta. intros b s' (C & EC & [Hsub Hgone Hdone Hkept]).
      assert (Hc1 : conns s1 = conns s ∖ {[c0]}) by (by apply (f_equal vConns) in E1').
      assert (Hids : ∀ d, peerIdOf s1 d = peerIdOf s d) by (intros d; apply peerIdOf_same; by rewrite E1').
      exists C. split; [by rewrite EC, E1'|]. split.
      * set_solver.
      * intros d Hd HC. destruct (decide (d = c0)) as [->|]; [done|]. rewrite <- !Hids. apply Hgone; set_solver.
      * intros d Hb [->|Hd]%elem_of_cons HC; [set_solver|]. rewrite <- !Hids. by apply Hdone.
      * intros Hb. destruct (Hkept Hb) as (d & ?). exists d. by rewrite <- !Hids.
    + apply wp_ret. exists (conns s). split; [done|]. split; [done|done|done|]. intros _. exists c0.
      split; [by destruct (decide (c0 ∈ conns s))|done].
Qed.

(** [addPeerConn]: on an error, connections may be gone but [c] is not added;
    otherwise [c] joins [C], fewer than the limit.  Only duplicates go, and
    one connection when there are too many. *)
Record added (preferred : nat → nat → bool) (dropDup : bool) (n : Z) (c : nat) (s : Swarm) (r : option AddErr)
    (C : gset nat) : Prop := {
  ad_sub : C ⊆ conns s;
  ad_room : r = None → Z.of_nat (size C) < n;
  ad_unique d : r = None → dropDup = true → d ∈ C → peerIdOf s d ≠ peerIdOf s c;
  ad_gone d : Z.of_nat (size (conns s)) < n → d ∈ conns s → d ∉ C →
    dropDup = true ∧ peerIdOf s d = peerIdOf s c ∧ preferred c d = true;
  ad_kept : r = Some ErrExistingPreferred → ∃ d, d ∈ C ∧ peerIdOf s d = peerIdOf s c ∧ preferred c d = false;
  ad_closed : r = Some ErrTorrentClosed → torrentClosed s = true;
  ad_error e : Z.of_nat (size (conns s)) < n → r = Some e → e ≠ ErrDontWantConns
}.

Definition addedView (c : nat) (s : Swarm) (r : option AddErr) (C : gset nat) : cview :=
  with_conns (match r with None => {[c]} ∪ C | Some _ => C end) (connView s).

Lemma dropDups_view preferred (dropDup : bool) c s :
  wp any (if dropDup then dropDuplicates mapOrder preferred c (mapOrder (conns s)) else mret false)
    (λ b s', ∃ C, connView s' = with_conns C (connView s) ∧ C ⊆ conns s ∧
       (∀ d : nat, d ∈ conns s → d ∉ C → dropDup = true ∧ peerIdOf s d = peerIdOf s c ∧ preferred c d = true) ∧
       (∀ d : nat, b = false → dropDup = true → d ∈ C → peerIdOf s d ≠ peerIdOf s c) ∧
       (b = true → ∃ d : nat, d ∈ C ∧ peerIdOf s d = peerIdOf s c ∧ preferred c d = false)) s.
Proof.
  destruct dropDup.
  - eapply wp_mono; [apply dropDuplicates_view|]. cbv beta. intros b s' (C & EC & [Hsub Hgone Hdone Hkept]).
    exists C. split_and!; [done|done| | |done].
    + intros d Hd HC. split; [done|]. by apply Hgone.
    + intros d Hb _ HC. apply Hdone; [done| |done]. by apply order_all, Hsub.
  - apply wp_ret. exists (conns s). split_and!; try done.
Qed.

Lemma addPeerConn_view preferred worst dropDup n c s :
  wp any (addPeerConn mapOrder preferred worst dropDup n c)
    (λ r s', ∃ C, connView s' = addedView c s r C ∧ added preferred dropDup n c s r C) s.
Proof.
  unfold addPeerConn. apply wp_bind, wp_gets. destruct (torrentClosed s) eqn:Eclosed.
  { apply wp_ret. exists (conns s). split; [done|]. split; try done; intros; congruence. }
  apply wp_bind. eapply wp_mono; [apply (dropDups_view preferred dropDup c s)|]. cbv beta.
  intros b s1 (C & EC & Hsub & Hgone & Hdone & Hkept). destruct b.
  { apply wp_ret. exists C. split; [done|]. split; try done; intros; try congruence; eauto. }
  apply wp_bind, wp_gets. cbv zeta.
  assert (Hc1 : conns s1 = C) by (by apply (f_equal vConns) in EC).
  assert (Hle : Z.of_nat (size C) ≤ Z.of_nat (size (conns s))) by (apply Nat2Z.inj_le, subseteq_size, Hsub).
  assert (Hadd : ∀ D s2, D ⊆ C → (Z.of_nat (size (conns s)) < n → D = C) →
    connView s2 = with_conns D (connView s) →
    wp any (s ← gets (λ s, s);
            _ ← assert_go (Z.of_nat (size (conns s)) <? n) "maxEstablishedConns";
            _ ← modify (λ s, set_conns ({[c]} ∪ conns s) s); mret None)
      (λ r s', ∃ C, connView s' = addedView c s r C ∧ added preferred dropDup n c s r C) s2).
  { intros D s2 HD Hsame E2. assert (Hc2 : conns s2 = D) by (by apply (f_equal vConns) in E2).
    apply wp_bind, wp_gets, wp_bind, wp_assert; [|done]. intros Hn%Z.ltb_lt. rewrite Hc2 in Hn.
    apply wp_bind, wp_modify, wp_ret. exists D. split.
    - unfold addedView, connView, with_conns. cbn. by injection E2 as -> -> -> -> ->.
    - split; [set_solver|done| | |done|done|done].
      + intros d _ Hdd Hd. apply Hdone; [done|done|set_solver].
      + intros d Hn'. rewrite (Hsame Hn'). apply Hgone. }
  rewrite Hc1. destruct (n <=? Z.of_nat (size C)) eqn:En; [|apply (Hadd C); auto].
  apply Z.leb_le in En. destruct (worst s1) as [d|] eqn:Ew.
  - apply wp_assoc2. apply wp_bind. eapply wp_mono; [apply close_delete_view|]. cbv beta. intros _ s2 E2.
    apply (Hadd (C ∖ {[d]})); [set_solver|lia|]. by rewrite E2, EC, Hc1.
  - apply wp_ret. exists C. split; [done|]. split; try done; intros; lia.
Qed.
End Adding.

