(* ===== verification/Duplicates.v ===== *)
(** Two connections to one peer: which of them [addPeerConn] keeps, and that
    both ends keep the same one. *)
From stdpp Require Import base numbers list strings gmap sorting.
From Stdlib Require Import ZArith Lia.
From S2P Require Import Prelude Wire Metainfo Geometry RequestStrategy OrderedBitmap AllocLim SmartBan SwarmState Swarm SwarmWp SwarmReq Metadata Requesting Scenario Bencode BencodeTyped Handshake Conns ConnView.
Open Scope Z_scope.

(** ** Two connections to one peer *)
Section Duplicates.
Context `{Multiless}.

Lemma preferred_spec me l r :
  hasPreferredNetworkOver me l r = true ↔
  let dl := isPreferredDirection me l in let dr := isPreferredDirection me r in
  (dl = true ∧ dr = false) ∨
  (dl = dr ∧ ((utp l = false ∧ utp r = true) ∨
              (utp l = utp r ∧ ipv6 l = true ∧ ipv6 r = false))).
Proof.
  unfold hasPreferredNetworkOver. rewrite ml_Less_ord, !ml_Bool_ord, ml_New_ord. cbn [then_compare].
  destruct (isPreferredDirection me l), (isPreferredDirection me r), (utp l), (utp r), (ipv6 l), (ipv6 r); cbn;
    naive_solver.
Qed.

(** The two ends of one connection. *)
Record mirrored (a b : ConnEnd) (idA idB : list Z) : Prop := {
  mi_dir : outgoing a = negb (outgoing b);
  mi_utp : utp a = utp b;
  mi_ipv6 : ipv6 a = ipv6 b;
  mi_idA : cePeerID a = idB;
  mi_idB : cePeerID b = idA
}.

Lemma direction_agrees a b idA idB :
  mirrored a b idA idB → idA ≠ idB → isPreferredDirection idA a = isPreferredDirection idB b.
Proof.
  intros [Hd _ _ Ha Hb] Hne. unfold isPreferredDirection. rewrite Ha, Hb, Hd, (bytes_compare_opp idA idB).
  destruct (bytes_compare idA idB) eqn:E; cbn; [by apply bytes_compare_Eq in E|by destruct (outgoing b)..].
Qed.

Lemma preference_agrees xA xB yA yB idA idB :
  mirrored xA xB idA idB → mirrored yA yB idA idB → idA ≠ idB →
  hasPreferredNetworkOver idA yA xA = hasPreferredNetworkOver idB yB xB.
Proof.
  intros Hx Hy Hne. apply eq_true_iff_eq. rewrite !preferred_spec. cbv zeta.
  rewrite (direction_agrees _ _ _ _ Hx Hne), (direction_agrees _ _ _ _ Hy Hne),
    (mi_utp _ _ _ _ Hx), (mi_utp _ _ _ _ Hy), (mi_ipv6 _ _ _ _ Hx), (mi_ipv6 _ _ _ _ Hy). done.
Qed.

Lemma preference_asym me l r : hasPreferredNetworkOver me l r = true → hasPreferredNetworkOver me r l = false.
Proof.
  intros Hl. apply not_true_iff_false. intros Hr. apply preferred_spec in Hl, Hr. cbv zeta in *.
  destruct_or?; destruct_and?; destruct_or?; destruct_and?; congruence.
Qed.

(** Connections opened from different sides are always decided. *)
Lemma opposite_decided me l r :
  cePeerID l = cePeerID r → outgoing l = negb (outgoing r) →
  hasPreferredNetworkOver me r l = negb (hasPreferredNetworkOver me l r).
Proof.
  intros Hid Ho. apply eq_true_iff_eq. rewrite negb_true_iff, <- not_true_iff_false, !preferred_spec. cbv zeta.
  assert (Hd : isPreferredDirection me l = negb (isPreferredDirection me r)).
  { unfold isPreferredDirection. rewrite Hid, Ho. by destruct (bytes_compare me (cePeerID r)), (outgoing r). }
  rewrite Hd. destruct (isPreferredDirection me r); cbn; naive_solver.
Qed.

(** At one end: [x] is connected, [y] is added. *)
Record oneDuplicate (conf : ClientConf) (s : Swarm) (x y : nat) : Prop := {
  od_open : torrentClosed s = false;
  od_dedup : DropDuplicatePeerIds conf = true;
  od_room : Z.of_nat (size (conns s)) < maxEstablishedConns conf;
  od_x : x ∈ conns s;
  od_y : y ∉ conns s;
  od_same : peerIdOf s y = peerIdOf s x;
  od_only d : d ∈ conns s → peerIdOf s d = peerIdOf s x → d = x
}.

Context (mapOrder : gset nat → list nat) (order_all : ∀ b c, c ∈ b ↔ c ∈ mapOrder b).

Lemma addConn_duplicate worst conf ends s x y r s' :
  oneDuplicate conf s x y → addConn mapOrder worst conf ends y s = Ok (r, s') →
  conns s' = if hasPreferredNetworkOver (ccPeerID conf) (ends y) (ends x) then {[y]} ∪ conns s ∖ {[x]} else conns s.
Proof.
  intros [Hop Hdd Hroom Hx Hy Hsame Honly] E.
  pose proof (addPeerConn_view mapOrder order_all
    (λ l r, hasPreferredNetworkOver (ccPeerID conf) (ends l) (ends r)) worst
    (DropDuplicatePeerIds conf) (maxEstablishedConns conf) y s) as Hv.
  unfold wp in Hv. unfold addConn in E. rewrite E in Hv. destruct Hv as (C & EC & [Hsub _ Huniq Hgone Hkept Hclosed Herr]).
  specialize (Hgone) as Hg. assert (HC : ∀ d, d ∈ conns s → d ≠ x → d ∈ C).
  { intros d Hd Hne. destruct (decide (d ∈ C)) as [|Hn]; [done|]. destruct (Hgone d Hroom Hd Hn) as (_ & Hid & _).
    destruct Hne. apply Honly; congruence. }
  assert (Ec : conns s' = match r with None => {[y]} ∪ C | Some _ => C end)
    by (unfold addedView in EC; by apply (f_equal vConns) in EC).
  rewrite Ec. destruct (hasPreferredNetworkOver _ _ _) eqn:Ep.
  - destruct r as [e|].
    + exfalso. destruct e; [rewrite Hclosed in Hop; done| |by eapply Herr].
      destruct (Hkept eq_refl) as (d & Hd & Hid & Hf). assert (d = x) as -> by (apply Honly; [set_solver|congruence]). congruence.
    + assert (Hxc : x ∉ C) by (intros Hxc; by eapply (Huniq x)). f_equal. set_solver.
  - assert (Hxc : x ∈ C). { destruct (decide (x ∈ C)) as [|Hn]; [done|]. destruct (Hgone x Hroom Hx Hn) as (_ & _ & ?). congruence. }
    destruct r as [e|]; [|by destruct (Huniq x eq_refl Hdd Hxc)].
    apply set_eq. intros d. split; [apply Hsub|]. intros Hd. destruct (decide (d = x)) as [->|]; auto.
Qed.

(** C29. When two clients connect to each other at the same time, each from its
    own side, and both refuse duplicate peer ids, they keep the same one of the
    two connections, whichever of them each client has handled first, and give
    up the other; neither connection is lost at both ends. *)
Theorem duplicate_connections_agree worstA worstB confA confB endsA endsB sA sB xA yA xB yB rA rB sA' sB' :
  ccPeerID confA ≠ ccPeerID confB →
  mirrored (endsA xA) (endsB xB) (ccPeerID confA) (ccPeerID confB) →
  mirrored (endsA yA) (endsB yB) (ccPeerID confA) (ccPeerID confB) →
  outgoing (endsA xA) = negb (outgoing (endsA yA)) →
  oneDuplicate confA sA xA yA → addConn mapOrder worstA confA endsA yA sA = Ok (rA, sA') →
  (oneDuplicate confB sB xB yB ∧ addConn mapOrder worstB confB endsB yB sB = Ok (rB, sB')) ∨
  (oneDuplicate confB sB yB xB ∧ addConn mapOrder worstB confB endsB xB sB = Ok (rB, sB')) →
  (xA ∈ conns sA' ↔ xB ∈ conns sB') ∧ (yA ∈ conns sA' ↔ yB ∈ conns sB') ∧ (xA ∈ conns sA' ↔ yA ∉ conns sA').
Proof.
  intros Hne Hx Hy Hdir HA EA HB. pose proof (addConn_duplicate _ _ _ _ _ _ _ _ HA EA) as Ec.
  pose proof (preference_agrees _ _ _ _ _ _ Hx Hy Hne) as Hpref.
  pose proof (opposite_decided (ccPeerID confA) (endsA xA) (endsA yA)) as Hop.
  rewrite Hop in Ec by (done || by rewrite (mi_idA _ _ _ _ Hx), (mi_idA _ _ _ _ Hy)).
  rewrite Hop in Hpref by (done || by rewrite (mi_idA _ _ _ _ Hx), (mi_idA _ _ _ _ Hy)).
  destruct HA as [_ _ _ HxA HyA _ _].
  destruct HB as [[HB EB]|[HB EB]]; pose proof (addConn_duplicate _ _ _ _ _ _ _ _ HB EB) as EcB;
    destruct HB as [_ _ _ HxB HyB _ _].
  - rewrite <- Hpref in EcB. rewrite Ec, EcB. destruct (hasPreferredNetworkOver _ _ _); cbn; set_solver.
  - rewrite (opposite_decided _ (endsB yB) (endsB xB)) in EcB.
    2: by rewrite (mi_idB _ _ _ _ Hx), (mi_idB _ _ _ _ Hy).
    2: { pose proof (mi_dir _ _ _ _ Hx). pose proof (mi_dir _ _ _ _ Hy). destruct (outgoing (endsA xA)), (outgoing (endsA yA)), (outgoing (endsB xB)), (outgoing (endsB yB)); done. }
    rewrite <- Hpref in EcB.
    rewrite Ec, EcB. destruct (hasPreferredNetworkOver _ _ _); cbn; set_solver.
Qed.
End Duplicates.

(** *** Two clients, [1] and [2]: connection 0 was opened by the first,
    connection 1 by the second. *)
Module DuplicateExample.
Definition conf (id : Z) : ClientConf :=
  mkClientConf [id] [0; 0; 0; 0; 0; 0; 0; 4] [] [] (mkPolicy false false) 6881 [] [] true None true 50.

Definition ends (me other : Z) (dialled : nat) (c : nat) : ConnEnd :=
  mkConnEnd (Nat.eqb c dialled) "tcp4" [10; 0; 0; other] [0; 0; 0; 0; 0; 0; 0; 4] [other].

(** Both connections lead to [other]; [c] is already there. *)
Definition side (other : Z) (c : nat) : Swarm :=
  set_conns {[c]}
    (set_peers (<[0%nat := newConnection (exStatic other) 1000000]>
                 (<[1%nat := newConnection (exStatic other) 1000000]> ∅))
       (newTorrentOpt exConfig (λ _, (false, true)) 100)).

Definition add (me other : Z) (dialled c : nat) (s : Swarm) : go (option AddErr * Swarm) :=
  addConn exOrder (λ _, None) (conf me) (ends me other dialled) c s.

Definition finalOf (r : go (option AddErr * Swarm)) : option AddErr * Swarm :=
  match r with Ok q => q | Panic _ => (None, side 0 0) end.

Lemma dupOrder_all (b : gset nat) c : c ∈ b ↔ c ∈ exOrder b.
Proof. unfold exOrder. by rewrite elem_of_elements. Defined.
End DuplicateExample.

Import DuplicateExample.

Lemma side_duplicate other c d : c ≠ d → (c ≤ 1)%nat → (d ≤ 1)%nat → ∀ me, oneDuplicate (conf me) (side other c) c d.
Proof.
  intros Hne Hc Hd me. split; try done.
  - change (conns (side other c)) with ({[c]} : gset nat). rewrite size_singleton. done.
  - cbn. set_solver.
  - cbn. set_solver.
  - destruct c as [|[|]], d as [|[|]]; try lia; reflexivity.
  - cbn. set_solver.
Defined.

Lemma duplicate_connections_agree_witness :
  let sA := (finalOf (add 1 2 0 1 (side 2 0))).2 in let sB := (finalOf (add 2 1 1 0 (side 1 1))).2 in
  (0%nat ∈ conns sA ↔ 0%nat ∈ conns sB) ∧ (1%nat ∈ conns sA ↔ 1%nat ∈ conns sB) ∧ (0%nat ∈ conns sA ↔ 1%nat ∉ conns sA).
Proof.
  cbv zeta.
  apply (duplicate_connections_agree exOrder dupOrder_all (λ _, None) (λ _, None) (conf 1) (conf 2) (ends 1 2 0) (ends 2 1 1)
    (side 2 0) (side 1 1) 0 1 0 1 (finalOf (add 1 2 0 1 (side 2 0))).1 (finalOf (add 2 1 1 0 (side 1 1))).1).
  - done.
  - by split.
  - by split.
  - done.
  - apply side_duplicate; lia.
  - vm_compute. reflexivity.
  - right. split; [apply side_duplicate; lia|vm_compute; reflexivity].
Defined.
