(* ===== verification/ConnSystem.v ===== *)
(** The connections of a torrent over the runs of the client: which there are,
    and what they have been told of our pieces. *)
From stdpp Require Import base numbers list strings gmap sorting.
From Stdlib Require Import ZArith Lia.
From S2P Require Import Prelude Wire Metainfo Geometry RequestStrategy OrderedBitmap AllocLim SmartBan SwarmState Swarm SwarmWp SwarmReq Metadata Requesting Scenario System Bencode BencodeTyped Handshake Conns ConnView.
Open Scope Z_scope.

(** ** The invariant of the connections

    [E c i] says that connection [c] has not been told of piece [i] yet: while
    the piece is being completed, while the connection has just been added. *)
Section Told.
Context (mapOrder : gset nat → list nat) (order_all : ∀ b c, c ∈ b ↔ c ∈ mapOrder b).
Context (dropDup : bool) (n : Z).

Record connsOkV (E : nat → Z → Prop) (v : cview) : Prop := {
  co_known c : c ∈ vConns v → is_Some (vPeers v !! c);
  co_unique c d p q : dropDup = true → c ∈ vConns v → d ∈ vConns v →
    vPeers v !! c = Some p → vPeers v !! d = Some q → p.1 = q.1 → c = d;
  co_bound : vConns v ≠ ∅ → Z.of_nat (size (vConns v)) ≤ n;
  co_range i : i ∈ vCompleted v → 0 ≤ i < Z.of_nat (vPieces v);
  co_pieces : vPieces v = match vGeo v with Some g => Z.to_nat (numPieces g) | None => O end;
  co_told c q i : c ∈ vConns v → vPeers v !! c = Some q → i ∈ vCompleted v → ¬ E c i → i ∈ q.2
}.

Definition connsOk (E : nat → Z → Prop) (s : Swarm) : Prop := connsOkV E (connView s).

Abbreviation CKeeps E := (Keeps (connsOk E) any).

Lemma cframe_keeps {A} (m : act A) E : CFrame m → CKeeps E m.
Proof. by apply (frame_keeps (connsOk E) any connView (connsOkV E)). Qed.

Lemma connsOk_shrink E C v : C ⊆ vConns v → connsOkV E v → connsOkV E (with_conns C v).
Proof.
  intros Hs [Hk Hu Hb Hr Hp Ht]. split; cbn; [auto|eauto| |done|done|eauto].
  intros HC. transitivity (Z.of_nat (size (vConns v))); [apply Nat2Z.inj_le, subseteq_size, Hs|]. apply Hb. set_solver.
Qed.

Lemma deletePeerConn_ckeeps c E : CKeeps E (deletePeerConn mapOrder c).
Proof.
  intros s Hs. eapply wp_mono; [apply deletePeerConn_view|]. cbv beta. intros _ s' E'. unfold connsOk. rewrite E'.
  apply connsOk_shrink; [set_solver|done].
Qed.

Lemma on_up_view c f s :
  connView (set_peers (alter (λ p, set_pUp (f (pUp p)) p) c (peers s)) s) =
  mkCView (conns s) (_completedPieces s) (geo s) (length (pieces s))
    ((λ p, (PeerID (pStatic p), sentHaves (pUp p))) <$> alter (λ p, set_pUp (f (pUp p)) p) c (peers s)).
Proof. done. Qed.

(** A connection is told more. *)
Lemma sentHaves_more c f E s :
  (∀ u, sentHaves u ⊆ sentHaves (f u)) → connsOk E s → wp any (on_up c f) (λ _, connsOk E) s.
Proof.
  intros Hf Hs. apply wp_modify. unfold connsOk in *. rewrite on_up_view. destruct Hs as [Hk Hu Hb Hr Hp Ht]. cbn in *.
  assert (Hl : ∀ d q, ((λ p, (PeerID (pStatic p), sentHaves (pUp p))) <$> alter (λ p, set_pUp (f (pUp p)) p) c (peers s)) !! d = Some q →
            ∃ q0, ((λ p, (PeerID (pStatic p), sentHaves (pUp p))) <$> peers s) !! d = Some q0 ∧ q0.1 = q.1 ∧ q0.2 ⊆ q.2).
  { intros d q. rewrite !lookup_fmap. destruct (decide (d = c)) as [->|]; [rewrite lookup_alter_eq|by rewrite lookup_alter_ne; eauto].
    destruct (peers s !! c); [|done]. cbn. intros [= <-]. eexists. split; [done|]. cbn. auto. }
  split; cbn; [|intros d e p q Hdd Hd He Hp1 Hq1 Hpq| done|done|done|].
  - intros d Hd. destruct (Hk d Hd) as [q Hq]. rewrite lookup_fmap in *. destruct (decide (d = c)) as [->|].
    + rewrite lookup_alter_eq. destruct (peers s !! c); [|done]. by eexists.
    + rewrite lookup_alter_ne by done. by rewrite Hq.
  - apply Hl in Hp1 as (p0 & ? & ? & _), Hq1 as (q0 & ? & ? & _). eapply (Hu d e); eauto; congruence.
  - intros d q i Hd Hq Hi HE. apply Hl in Hq as (q0 & Hq0 & _ & Hsub). apply Hsub. by eapply Ht.
Qed.

Lemma have_ckeeps c i E : CKeeps E (have c i).
Proof.
  unfold have. apply keeps_bind; [apply cframe_keeps; frame|]. intros p. case_match; [apply keeps_ret|].
  apply keeps_bind; [apply cframe_keeps; frame|]. intros _ s Hs. apply sentHaves_more; [|done].
  intros u. cbn. set_solver.
Qed.

Lemma connsOk_mono (E E' : nat → Z → Prop) s :
  (∀ c i, c ∈ conns s → i ∈ _completedPieces s → E c i → E' c i) → connsOk E s → connsOk E' s.
Proof.
  intros HE [Hk Hu Hb Hr Hp Ht]. split; try done. intros c q i Hc Hq Hi HE'. eapply Ht; eauto.
Qed.

Lemma have_tells c i E s :
  connsOk E s → wp any (have c i) (λ _, connsOk (λ d j, E d j ∧ ¬ (d = c ∧ j = i))) s.
Proof.
  intros Hs. assert (Hhas : ∀ s', connsOk E s' → (∀ p, peers s' !! c = Some p → i ∈ sentHaves (pUp p)) →
    connsOk (λ d j, E d j ∧ ¬ (d = c ∧ j = i)) s').
  { intros s' [Hk Hu Hb Hr Hp Ht] Hi. split; try done. cbn in *. intros d q j Hd Hq Hj HE.
    destruct (decide (d = c ∧ j = i)) as [[-> ->]|]; [|eapply Ht; eauto; tauto].
    rewrite lookup_fmap in Hq. destruct (peers s' !! c) as [p|] eqn:Ec; [|done]. injection Hq as <-. by apply Hi. }
  unfold have. apply wp_bind, wp_peer; [|done]. intros p Hp. case_bool_decide as Hin.
  { apply wp_ret, Hhas; [done|]. intros p' Hp'. congruence. }
  apply wp_bind. eapply wp_mono; [by apply (cframe_keeps _ E (cframe_write _ _))|]. cbv beta. intros _ s1 Hs1.
  assert (Hw : wp any (on_up c (λ x, set_sentHaves ({[i]} ∪ sentHaves x) x)) (λ _, connsOk E) s1)
    by (apply sentHaves_more; [intros u; cbn; set_solver|done]).
  unfold wp, on_up, modify_peer, modify in *. apply Hhas; [done|]. intros p'. cbn. rewrite lookup_alter_eq.
  destruct (peers s1 !! c); [|done]. cbn. intros [= <-]. cbn. set_solver.
Qed.

Lemma cframe_firstNotHashing l : CFrame (firstNotHashing l).
Proof. induction l as [|i l IH]; cbn [firstNotHashing]; frame. Qed.
Lemma cframe_updatePiecePriority i r : CFrame (updatePiecePriority mapOrder i r).
Proof. cframe. Qed.
#[local] Hint Resolve cframe_firstNotHashing cframe_updatePiecePriority : frame.
Lemma cframe_tryCreatePieceHasher : CFrame (tryCreatePieceHasher mapOrder).
Proof. cframe. Qed.
#[local] Hint Resolve cframe_tryCreatePieceHasher : frame.
Lemma cframe_hasherLoop k : CFrame (hasherLoop mapOrder k).
Proof. induction k as [|k IH]; cbn [hasherLoop]; frame. Qed.
#[local] Hint Resolve cframe_hasherLoop : frame.

(** [ckeeps] opens an operation down to what is known to keep the
    invariant. *)
Ltac ckeeps_step :=
  keeps_step ltac:(first
    [ solve [apply cframe_keeps; cframe_step; frame]
    | match goal with |- Keeps _ _ ?m => let h := head_of m in unfold h end ]).
Ltac ckeeps := repeat ckeeps_step.

#[local] Hint Resolve deletePeerConn_ckeeps have_ckeeps : keeps.

Lemma dropConnection_ckeeps c E : CKeeps E (dropConnection mapOrder c).
Proof. ckeeps. Qed.
#[local] Hint Resolve dropConnection_ckeeps : keeps.
Lemma maybeDrop_ckeeps c E : CKeeps E (maybeDropMutuallyCompletePeer mapOrder c).
Proof. ckeeps. Qed.
#[local] Hint Resolve maybeDrop_ckeeps : keeps.

(** Everyone is told of a piece. *)
Lemma tell_all i l s :
  connsOk (λ d j, j = i ∧ d ∈ l) s →
  wp any (forEach l (λ c, cs ← gets conns;
            when (bool_decide (c ∈ cs)) (_ ← have c i; maybeDropMutuallyCompletePeer mapOrder c)))
    (λ _, connsOk (λ _ _, False)) s.
Proof.
  revert s. induction l as [|c l IH]; intros s Hs; cbn [forEach].
  { apply wp_ret. eapply connsOk_mono; [|done]. cbv beta. intros d j _ _ [_ Hl]. by apply elem_of_nil in Hl. }
  apply wp_bind, wp_bind, wp_gets. apply wp_when; intros Hc; [|apply bool_decide_eq_false in Hc].
  - apply wp_bind. eapply wp_mono; [by apply have_tells|]. cbv beta. intros _ s1 Hs1.
    eapply wp_mono; [by apply maybeDrop_ckeeps|]. cbv beta. intros _ s2 Hs2.
    apply IH. eapply connsOk_mono; [|done]. cbv beta. intros d j _ _ [[-> [->|Hd]%elem_of_cons] Hn]; [by destruct Hn|done].
  - apply IH. eapply connsOk_mono; [|done]. cbv beta. intros d j Hd _ [-> [->|Hl]%elem_of_cons]; done.
Qed.

Abbreviation Told := (λ (_ : nat) (_ : Z), False).

Lemma onPieceCompleted_tells i s :
  connsOk (λ _ j, j = i) s → wp any (onPieceCompleted mapOrder i) (λ _, connsOk Told) s.
Proof.
  intros Hs. unfold onPieceCompleted. apply wp_bind.
  assert (H1 : CKeeps (λ _ j, j = i) (pendAllChunkSpecs i)) by (apply cframe_keeps; cframe).
  eapply wp_mono; [by apply H1|]. cbv beta. intros _ s1 Hs1. apply wp_bind.
  assert (H2 : CKeeps (λ _ j, j = i) (cancelRequestsForPiece i)) by (apply cframe_keeps; cframe).
  eapply wp_mono; [by apply H2|]. cbv beta. intros _ s2 Hs2. unfold iterPeers. apply wp_bind, wp_gets, tell_all.
  eapply connsOk_mono; [|done]. cbv beta. intros d j Hd _ ->. split; [done|]. by apply order_all.
Qed.

Lemma completed_view s X E :
  connsOk E s → (∀ i, i ∈ X → 0 ≤ i < Z.of_nat (length (pieces s))) →
  connsOk (λ c j, E c j ∨ j ∉ _completedPieces s) (set__completedPieces X s).
Proof.
  intros [Hk Hu Hb Hr Hp Ht] HX. split; try done. cbn. intros c q i Hc Hq Hi HE.
  destruct (decide (i ∈ _completedPieces s)); [|tauto]. eapply Ht; eauto.
Qed.

Lemma pieceCompletionChanged_tells i r s :
  connsOk (λ _ j, j = i) s → wp any (pieceCompletionChanged mapOrder i r) (λ _, connsOk Told) s.
Proof.
  intros Hs. unfold pieceCompletionChanged. apply wp_bind, wp_gets, wp_bind.
  eapply (wp_mono _ _ (λ _, connsOk Told)).
  - unfold pieceComplete. case_bool_decide as Hi; [by apply onPieceCompleted_tells|].
    assert (H1 : CKeeps Told (onIncompletePiece mapOrder i)) by (apply cframe_keeps; cframe).
    apply H1. eapply connsOk_mono; [|done]. cbv beta. by intros d j _ Hj ->.
  - cbv beta. intros _ s1. apply cframe_keeps. frame.
Qed.

Lemma updatePieceCompletion_ckeeps i : CKeeps Told (updatePieceCompletion mapOrder i).
Proof.
  intros s Hs. unfold updatePieceCompletion, piece. apply wp_bind. unfold wp at 1.
  destruct (if 0 <=? i then pieces s !! Z.to_nat i else None) as [p|] eqn:Ep; [|done].
  assert (Hi : 0 ≤ i < Z.of_nat (length (pieces s))).
  { destruct (0 <=? i) eqn:E0; [|done]. apply lookup_lt_Some in Ep. lia. }
  apply wp_bind, wp_gets, wp_bind. eapply wp_mono; [by apply (frame_wp connView any _ (λ v, v = connView s)); [apply cframe_modify_piece|]|].
  cbv beta. intros _ s1 E1. assert (Hs1 : connsOk Told s1) by (unfold connsOk; by rewrite E1).
  assert (Hl : length (pieces s1) = length (pieces s)) by (by apply (f_equal vPieces) in E1).
  assert (Hc : _completedPieces s1 = _completedPieces s) by (by apply (f_equal vCompleted) in E1).
  apply wp_bind. set (u := pieceCompleteUncached s i).
  eapply (wp_mono _ _ (λ _ s', connsOk (λ _ j, j = i) s' ∧ (pieceComplete s i = u.1 → connsOk Told s'))).
  - assert (Hmod : connsOk (λ c j, False ∨ j ∉ _completedPieces s1)
      (set__completedPieces (if u.1 then {[i]} ∪ _completedPieces s1 else _completedPieces s1 ∖ {[i]}) s1)).
    { apply completed_view; [done|]. rewrite Hl, Hc. intros j Hj. pose proof (co_range _ _ Hs1 j) as Hr. cbn in Hr.
      rewrite Hl, Hc in Hr. destruct u.1; set_solver. }
    assert (Hgoal : ∀ s', connView s' = connView (set__completedPieces (if u.1 then {[i]} ∪ _completedPieces s1 else _completedPieces s1 ∖ {[i]}) s1) →
       connsOk (λ _ j, j = i) s' ∧ (pieceComplete s i = u.1 → connsOk Told s')).
    { intros s' E'. assert (Hs' : connsOk (λ c j, False ∨ j ∉ _completedPieces s1) s') by (unfold connsOk; by rewrite E').
      assert (Hc' : _completedPieces s' = if u.1 then {[i]} ∪ _completedPieces s1 else _completedPieces s1 ∖ {[i]})
        by (by apply (f_equal vCompleted) in E').
      split; [|intros Hsame]; (eapply connsOk_mono; [|done]); cbv beta; intros c j _ Hj [[]|Hn]; rewrite Hc' in Hj.
      - destruct u.1; set_solver.
      - rewrite Hc in *. unfold pieceComplete in Hsame. destruct u.1; [apply bool_decide_eq_true in Hsame|]; set_solver. }
    destruct u.1.
    + apply wp_bind, wp_modify. eapply wp_mono; [apply (frame_wp connView any openNewConns
        (λ v, v = connView (set__completedPieces ({[i]} ∪ _completedPieces s1) s1))); [cframe|done]|]. cbv beta. intros _ s'. apply Hgoal.
    + apply wp_modify. by apply Hgoal.
  - cbv beta. intros _ s2 [Hs2 Hsame]. apply wp_bind.
    assert (HV : CFrame (updatePieceRequestOrder i)) by cframe.
    eapply (wp_mono _ _ (λ _ s', connsOk (λ _ j, j = i) s' ∧ (pieceComplete s i = u.1 → connsOk Told s'))).
    { eapply wp_mono; [apply HV|]. cbv beta. intros _ s3 E3. unfold connsOk. by rewrite E3. }
    cbv beta. intros _ s3 [Hs3 Hsame3]. apply wp_bind, wp_when.
    + intros _. eapply wp_mono; [by apply pieceCompletionChanged_tells|]. cbv beta. intros _ s4 Hs4. by apply wp_ret.
    + intros Hch. apply wp_ret, Hsame3. apply negb_false_iff, bool_decide_eq_true in Hch. exact (f_equal fst Hch).
Qed.
#[local] Hint Resolve updatePieceCompletion_ckeeps : keeps.

(** *** Getting the info *)
Lemma onSetInfo_ckeeps b : CKeeps Told (onSetInfo mapOrder b).
Proof. ckeeps. Qed.

Lemma connsOk_info g l s :
  connsOk Told s → geo s = None → length l = Z.to_nat (numPieces g) → connsOk Told (set_geo (Some g) (set_pieces l s)).
Proof.
  intros [Hk Hu Hb Hr Hp Ht] Hg Hl. cbn in Hp. rewrite Hg in Hp. split; try done.
  intros i Hi. pose proof (Hr i Hi) as H0. cbn in H0. lia.
Qed.

(** An error leaves the torrent without its info. *)
Definition infoResult (ok : bool) (s : Swarm) : Prop := connsOk Told s ∧ (ok = false → geo s = None).

Lemma setInfo_ckeeps inf size o s :
  connsOk Told s → geo s = None → wp any (setInfo inf size o) infoResult s.
Proof.
  intros Hs Hg. unfold setInfo. destruct (validateInfo inf); [by apply wp_ret|].
  assert (Hgo : wp any (_ ← when (bool_decide (o = Some true)) (modify (set_hasStorage true));
      _ ← modify (λ s, set_geo (Some (setInfoGeo inf size))
             (set_pieces (map (makePiece (initFiles inf) (setInfoGeo inf size)) (seqZ 0 (numPieces (setInfoGeo inf size)))) s));
      mret true) infoResult s).
  { apply wp_bind. eapply (wp_mono _ _ (λ _ s', connsOk Told s' ∧ geo s' = None)).
    - apply wp_when; intros _; [apply wp_modify|]; done.
    - cbv beta. intros _ s1 [Hs1 Hg1]. apply wp_bind, wp_modify, wp_ret. split; [|done].
      apply connsOk_info; [done|done|]. by rewrite length_map, length_seqZ. }
  destruct o as [[]|]; [done|by apply wp_ret|done].
Qed.

Context (hashOk : list Z → bool) (parseInfo : list Z → option Info).
Context (chunk : Z) (openTorrent : option bool) (noCheck : bool).

Lemma setInfoBytesLocked_info b s :
  connsOk Told s → wp any (setInfoBytesLocked mapOrder hashOk parseInfo chunk openTorrent noCheck b)
    (λ ok s', connsOk Told s' ∧ (geo s = None → ok = false → geo s' = None)) s.
Proof.
  intros Hs. unfold setInfoBytesLocked. destruct (hashOk b); cbn [negb]; [|by apply wp_ret].
  destruct (parseInfo b) as [inf|]; [|by apply wp_ret].
  apply wp_bind, wp_modify, wp_bind, wp_gets. case_match eqn:Ei; [by apply wp_ret|].
  apply wp_bind. eapply wp_mono; [apply setInfo_ckeeps; [done|by unfold haveInfo in Ei; destruct (geo _)]|].
  cbv beta. intros ok s1 [Hs1 Hok]. destruct ok; cbn [negb]; [|apply wp_ret; auto].
  apply wp_bind. eapply wp_mono; [by apply onSetInfo_ckeeps|]. cbv beta. intros _ s2 Hs2. by apply wp_ret.
Qed.

Lemma setInfoBytesLocked_ckeeps b :
  CKeeps Told (setInfoBytesLocked mapOrder hashOk parseInfo chunk openTorrent noCheck b).
Proof. intros s Hs. eapply wp_mono; [by apply setInfoBytesLocked_info|]. by intros ? ? []. Qed.

Lemma maybeCompleteMetadata_ckeeps :
  CKeeps Told (maybeCompleteMetadata mapOrder hashOk parseInfo chunk openTorrent noCheck).
Proof.
  intros s Hs. unfold maybeCompleteMetadata. apply wp_bind, wp_gets. destruct (haveInfo s) eqn:Ei; [by apply wp_ret|].
  destruct (haveAllMetadataPieces s); cbn [negb]; [|by apply wp_ret].
  apply wp_bind. eapply wp_mono; [by apply setInfoBytesLocked_info|]. cbv beta. intros ok s1 [Hs1 Hok].
  destruct ok; cbn [negb]; [by apply wp_ret|]. unfold haveInfo in Ei.
  assert (Hg : geo s1 = None) by (apply Hok; [by destruct (geo s)|done]).
  apply wp_bind, wp_modify, wp_ret. destruct Hs1 as [Hk Hu Hb Hr Hp Ht]. cbn in Hp. rewrite Hg in Hp. by split.
Qed.
#[local] Hint Resolve maybeCompleteMetadata_ckeeps : keeps.

Lemma cframe_pendingMetadata c l : CFrame (pendingMetadata c l).
Proof. induction l as [|i l IH]; cbn [pendingMetadata]; cframe. Qed.
#[local] Hint Resolve cframe_pendingMetadata : frame.

Lemma onReadExtendedMsg_ckeeps decodeHandshake decodeMetadata marshalMetadata shuffle pexRecv c id b :
  CKeeps Told (onReadExtendedMsg mapOrder decodeHandshake decodeMetadata marshalMetadata hashOk parseInfo shuffle pexRecv
    chunk openTorrent noCheck c id b).
Proof.
  assert (Hh : ∀ d, CKeeps Told (onExtendedHandshake mapOrder marshalMetadata shuffle c d)) by (intros d; apply cframe_keeps; cframe).
  assert (Hg : CKeeps Told (gotMetadataExtensionMsg mapOrder decodeMetadata marshalMetadata hashOk parseInfo chunk openTorrent noCheck c b)) by ckeeps.
  unfold onReadExtendedMsg. ckeeps.
Qed.

(** *** Everything else *)
Context (sha1 : list Z → list Z) (pieceOrder : Z → Z).
Context `{Multiless} `{Heap}.

Lemma handleMessage_ckeeps ext c m :
  (∀ c id b, CKeeps Told (ext c id b)) → CKeeps Told (handleMessage mapOrder sha1 ext c m).
Proof. intros Hext. unfold handleMessage, unitErr. ckeeps. Qed.

Lemma cframe_uploadLoop k f c : CFrame (uploadLoop k f c).
Proof. induction k as [|k IH]; cbn [uploadLoop]; cframe. Qed.
#[local] Hint Resolve cframe_uploadLoop : frame.

Lemma cframe_requestLoop k g c ps heap : CFrame (requestLoop pieceOrder k g c ps heap).
Proof. revert heap. induction k as [|k IH]; intros heap; cbn [requestLoop]; cframe. Qed.
#[local] Hint Resolve cframe_requestLoop : frame.

Lemma applyRequestState_ckeeps c next : CKeeps Told (applyRequestState pieceOrder c next).
Proof. ckeeps. Qed.
Lemma pieceHasher_ckeeps i b l e : CKeeps Told (pieceHasher mapOrder i b l e).
Proof. ckeeps. Qed.
Lemma pieceMarked_ckeeps i : CKeeps Told (pieceMarked mapOrder i).
Proof. ckeeps. Qed.
Lemma peerRequestDataReader_ckeeps c r id b : CKeeps Told (peerRequestDataReader mapOrder c r id b).
Proof. ckeeps. Qed.

(** *** A new connection *)
Abbreviation NotYet c := (λ (d : nat) (_ : Z), d = c).

Lemma cview_alter c f s d q :
  ((λ p, (PeerID (pStatic p), sentHaves (pUp p))) <$> alter (λ p, set_pUp (f (pUp p)) p) c (peers s)) !! d = Some q →
  ∃ p, peers s !! d = Some p ∧ q.1 = PeerID (pStatic p) ∧
       q.2 = if decide (d = c) then sentHaves (f (pUp p)) else sentHaves (pUp p).
Proof.
  rewrite lookup_fmap. destruct (decide (d = c)) as [->|]; [rewrite lookup_alter_eq|rewrite lookup_alter_ne by done];
    destruct (peers s !! _) as [p|]; try done; cbn; intros [= <-]; eauto.
Qed.

Lemma on_up_tells c f s :
  connsOk (NotYet c) s → (∀ p, peers s !! c = Some p → _completedPieces s ⊆ sentHaves (f (pUp p))) →
  wp any (on_up c f) (λ _, connsOk Told) s.
Proof.
  intros Hs Hf. apply wp_modify. unfold connsOk in *. rewrite on_up_view. destruct Hs as [Hk Hu Hb Hr Hp Ht]. cbn in *.
  assert (Hold : ∀ d p, peers s !! d = Some p →
    ((λ p, (PeerID (pStatic p), sentHaves (pUp p))) <$> peers s) !! d = Some (PeerID (pStatic p), sentHaves (pUp p)))
    by (intros d p Hd; by rewrite lookup_fmap, Hd).
  split; cbn; [|intros d e p q Hdd Hd He Hp1 Hq1 Hpq|done|done|done|].
  - intros d Hd. destruct (Hk d Hd) as [q Hq]. rewrite lookup_fmap in Hq. destruct (peers s !! d) as [p|] eqn:Ed; [|done].
    rewrite lookup_fmap. destruct (decide (d = c)) as [->|]; [rewrite lookup_alter_eq|rewrite lookup_alter_ne by done];
      rewrite Ed; by eexists.
  - apply cview_alter in Hp1 as (p0 & E1 & ? & _), Hq1 as (q0 & E2 & ? & _). eapply (Hu d e); eauto. cbn. congruence.
  - intros d q i Hd (p & Ed & _ & ->)%cview_alter Hi _. destruct (decide (d = c)) as [->|Hne]; [by apply (Hf p Ed)|].
    by apply (Ht d _ i Hd (Hold d p Ed) Hi).
Qed.

Lemma sendHaves_tells c s : connsOk (NotYet c) s → wp any (sendHaves c) (λ _, connsOk Told) s.
Proof.
  intros Hs. unfold sendHaves. apply wp_bind, wp_peer; [|done]. intros p Hp. apply wp_bind, wp_gets.
  assert (Hw : ∀ m (Q : unit → Swarm → Prop) (f : act unit),
    (∀ s', connsOk (NotYet c) s' → _completedPieces s' = _completedPieces s → geo s' = geo s → wp any f Q s') →
    wp any (_ ← write c m; f) Q s).
  { intros m Q f Hf. apply wp_bind. eapply wp_mono; [apply cframe_write|]. cbv beta. intros _ s' E'.
    apply Hf; [unfold connsOk; by rewrite E'|by apply (f_equal vCompleted) in E'|by apply (f_equal vGeo) in E']. }
  destruct (fastEnabled s p && haveAllPieces s) eqn:Ea; [|destruct (fastEnabled s p && negb (haveAnyPieces s)) eqn:En].
  - apply Hw. intros s' Hs' Ec Eg. apply wp_bind, wp_info; [|done]. intros g Hg. apply on_up_tells; [done|].
    intros p' _ i Hi. pose proof (co_range _ _ Hs' i Hi) as Hr. pose proof (co_pieces _ _ Hs') as Hn. cbn in *.
    rewrite Hg in Hn. apply elem_of_union_r, elem_of_list_to_set, elem_of_seqZ. lia.
  - apply andb_true_iff in En as [_ En]. apply Hw. intros s' Hs' Ec Eg. apply on_up_tells; [done|]. intros p' _. rewrite Ec.
    unfold haveAnyPieces in En. rewrite negb_involutive in En. apply bool_decide_eq_true in En. by rewrite En.
  - unfold postBitfield. apply wp_bind, wp_peer; [|done]. intros p' _. apply wp_bind, wp_assert; [|done]. intros _.
    apply wp_bind, wp_gets. destruct (haveAnyPieces s) eqn:Eh; cbn [negb].
    + apply wp_bind. eapply wp_mono; [apply cframe_lift_go|]. cbv beta. intros bf s1 E1.
      apply wp_bind. eapply wp_mono; [apply cframe_write|]. cbv beta. intros _ s2 E2. rewrite E1 in E2.
      apply on_up_tells; [unfold connsOk; by rewrite E2|]. intros p2 _. by rewrite (f_equal vCompleted E2 : _completedPieces s2 = _completedPieces s).
    + apply wp_ret. unfold haveAnyPieces in Eh. apply negb_false_iff, bool_decide_eq_true in Eh.
      eapply connsOk_mono; [|done]. cbv beta. intros d i _ Hi _. rewrite Eh in Hi. set_solver.
Qed.

Lemma sendInitialMessages_tells isEmpty conf ends c s :
  connsOk (NotYet c) s → wp any (sendInitialMessages isEmpty conf ends c) (λ _, connsOk Told) s.
Proof.
  intros Hs. unfold sendInitialMessages. apply wp_bind. eapply wp_mono; [apply cframe_lift_go|]. cbv beta. intros e s1 E1.
  apply wp_bind. eapply (wp_mono _ _ (λ _ s', connView s' = connView s)).
  { rewrite <- E1. assert (Hf : CFrame (when e (
        s ← gets (λ s, s);
        b ← lift_go (MustMarshal isEmpty tExtendedHandshake
              (ourHandshake conf (ends c) (Z.of_nat (List.length (metadataBytes s)))));
        _ ← write c (extendedMsg HandshakeExtendedID b); mret tt))) by frame. apply Hf. }
  cbv beta. intros _ s2 E2. apply wp_bind. eapply wp_mono; [apply sendHaves_tells; unfold connsOk; by rewrite E2|].
  cbv beta. intros _ s3. apply cframe_keeps. frame.
Qed.

Lemma startConn_ckeeps isEmpty worst conf ends c s :
  DropDuplicatePeerIds conf = dropDup → maxEstablishedConns conf = n → is_Some (peers s !! c) →
  connsOk Told s → wp any (startConn mapOrder isEmpty worst conf ends c) (λ _, connsOk Told) s.
Proof.
  intros Hdd Hn [p Hp] Hs. unfold startConn. case_match; [by apply wp_ret|]. case_bool_decide; [by apply wp_ret|].
  apply wp_bind. unfold addConn. eapply wp_mono; [apply (addPeerConn_view mapOrder order_all)|]. cbv beta.
  intros r s1 (C & E1 & [Hsub Hroom Huniq _ _ _ _]).
  pose proof (connsOk_shrink Told C (connView s) Hsub Hs) as HC. destruct r as [e|].
  { apply wp_ret. unfold connsOk. by rewrite E1. }
  apply wp_bind. eapply wp_mono; [apply sendInitialMessages_tells|by intros; apply wp_ret].
  unfold connsOk. rewrite E1. destruct HC as [Hk Hu Hb Hr Hpi Ht]. rewrite Hdd in Huniq. specialize (Hroom eq_refl). rewrite Hn in Hroom. cbn in *.
  assert (Hc : ((λ p, (PeerID (pStatic p), sentHaves (pUp p))) <$> peers s) !! c = Some (PeerID (pStatic p), sentHaves (pUp p)))
    by (by rewrite lookup_fmap, Hp).
  assert (Hid : ∀ d q, dropDup = true → d ∈ C → ((λ p, (PeerID (pStatic p), sentHaves (pUp p))) <$> peers s) !! d = Some q →
      q.1 ≠ PeerID (pStatic p)).
  { intros d q Hd HC Hq Heq. apply (Huniq d eq_refl Hd HC). rewrite !peerIdOf_view. cbn. rewrite Hq, Hc. cbn. congruence. }
  split; cbn; try done.
  - intros d [->%elem_of_singleton|Hd]%elem_of_union; [by rewrite Hc|auto].
  - intros d e q1 q2 Hd [->%elem_of_singleton|HdC]%elem_of_union [->%elem_of_singleton|HeC]%elem_of_union Hq1 Hq2 Heq; [done| | |eauto].
    + rewrite Hc in Hq1. injection Hq1 as <-. by destruct (Hid e q2 Hd HeC Hq2).
    + rewrite Hc in Hq2. injection Hq2 as <-. by destruct (Hid d q1 Hd HdC Hq1).
  - intros _. pose proof (size_union_alt ({[c]} : gset nat) C) as Hsz. rewrite size_singleton in Hsz.
    assert (size (C ∖ {[c]}) ≤ size C)%nat by (apply subseteq_size; set_solver). lia.
  - intros d q i [->%elem_of_singleton|Hd]%elem_of_union Hq Hi Hne; [by destruct (Hne eq_refl)|]. apply (Ht d q i Hd Hq Hi); by intros [].
Qed.
End Told.

(** ** Runs

    As in System.v, but a connection is added by [startConn], which is what
    the client does under its lock once the handshakes are over. *)
Inductive cop : Type :=
| Base (o : op)
| Connect (c : nat).

Definition cop_ok (o : cop) : Prop :=
  match o with Base (OpAddPeerConn _ _ _ _ _) => False | _ => True end.

Section Runs.
Context (mapOrder : gset nat → list nat) (order_all : ∀ b c, c ∈ b ↔ c ∈ mapOrder b).
Context (sha1 : list Z → list Z) (pieceOrder : Z → Z).
Context `{Multiless} `{Heap}.
Context (decodeHandshake : list Z → option ExtendedHandshakeMessage).
Context (decodeMetadata : list Z → option ExtendedMetadataRequestMsg).
Context (marshalMetadata : ExtendedMetadataRequestMsg → list Z).
Context (hashOk : list Z → bool) (parseInfo : list Z → option Info).
Context (shuffle : list Z → list Z).
Context (pexRecv : nat → list Z → option MsgErr).
Context (chunk : Z) (openTorrent : option bool) (noCheck : bool).
Context (isEmptyValue : rval → bool) (worst : Swarm → option nat) (conf : ClientConf) (ends : nat → ConnEnd).

Definition base : op → act unit :=
  exec mapOrder sha1 pieceOrder decodeHandshake decodeMetadata marshalMetadata hashOk parseInfo shuffle pexRecv
    chunk openTorrent noCheck.

Definition cexec (o : cop) : act unit :=
  match o with
  | Base o => base o
  | Connect c => _ ← peer c; discard (startConn mapOrder isEmptyValue worst conf ends c)
  end.

Inductive connected : Swarm → Prop :=
| connected_new cf completion now : connected (newTorrentOpt cf completion now)
| connected_step s s' o : connected s → cop_ok o → cexec o s = Ok (tt, s') → connected s'.

Abbreviation connsTold := (connsOk (DropDuplicatePeerIds conf) (maxEstablishedConns conf) (λ _ _, False)).

Lemma addPeer_told c st k : Keeps connsTold any (addPeer c st k).
Proof.
  intros s Hs. unfold addPeer. apply wp_bind, wp_gets. destruct (peers s !! c) eqn:Ec; [by apply wp_ret|].
  apply wp_modify. destruct Hs as [Hk Hu Hb Hr Hp Ht].
  assert (Hc : ∀ d, d ∈ conns s → d ≠ c). { intros d Hd ->. destruct (Hk c Hd) as [q Hq]. cbn in Hq. by rewrite lookup_fmap, Ec in Hq. }
  split; cbn in *; try done.
  - intros d Hd. rewrite fmap_insert, lookup_insert_ne by (intros <-; by apply (Hc c)). auto.
  - intros d e p q Hdd Hd He. rewrite !fmap_insert, !lookup_insert_ne by (intros <-; by apply (Hc c)). eauto.
  - intros d q i Hd. rewrite fmap_insert, lookup_insert_ne by (intros <-; by apply (Hc c)). eauto.
Qed.

Lemma base_told o : cop_ok (Base o) → Keeps connsTold any (base o).
Proof.
  pose proof (onReadExtendedMsg_ckeeps mapOrder order_all (DropDuplicatePeerIds conf) (maxEstablishedConns conf) hashOk parseInfo
    chunk openTorrent noCheck decodeHandshake decodeMetadata marshalMetadata shuffle pexRecv) as Hext.
  pose proof (setInfoBytesLocked_ckeeps mapOrder order_all (DropDuplicatePeerIds conf) (maxEstablishedConns conf) hashOk parseInfo
    chunk openTorrent noCheck) as Hinfo.
  pose proof (updatePieceCompletion_ckeeps mapOrder order_all) as Hcomp.
  assert (Hf : ∀ A (m : act A), CFrame m → Keeps connsTold any m) by (intros A m; apply cframe_keeps).
  assert (Hd : ∀ A (m : act A), Keeps connsTold any m → Keeps connsTold any (discard m)).
  { intros A m Hm. apply keeps_bind; [done|]. intros a. apply keeps_ret. }
  intros Ho. destruct o; cbn [base exec]; try done; unfold base; cbn [exec]; try apply Hd;
    first [ solve [auto using addPeer_told, handleMessage_ckeeps, pieceHasher_ckeeps, pieceMarked_ckeeps,
              applyRequestState_ckeeps, peerRequestDataReader_ckeeps, dropConnection_ckeeps]
          | apply Hf; pose proof cframe_uploadLoop; pose proof (cframe_hasherLoop mapOrder);
            pose proof cframe_firstNotHashing; solve [cframe]
          | idtac ].
Qed.

Lemma connected_told s : connected s → connsTold s.
Proof.
  induction 1 as [cf completion now|s s' o _ Hs Ho E].
  { split; cbn; try done; intros *; set_solver. }
  destruct o as [o|c].
  - pose proof (base_told o Ho s Hs) as Hw. unfold wp in Hw. cbn [cexec] in E. by rewrite E in Hw.
  - assert (Hw : wp any (cexec (Connect c)) (λ _, connsTold) s).
    { cbn [cexec]. apply wp_bind, wp_peer; [|done]. intros p Hp. apply wp_bind.
      eapply wp_mono; [by apply startConn_ckeeps|]. cbv beta. intros r s1 Hs1. by apply wp_ret. }
    unfold wp in Hw. by rewrite E in Hw.
Qed.

(** C30. In every state that the client can reach, each connection of the
    torrent has been told of every piece the torrent has, by the initial
    messages or by a Have; there are never more connections than
    [maxEstablishedConns]; and if duplicate peer ids are refused, no two
    connections have the same peer id. *)
Theorem connections_told s :
  connected s →
  (∀ c p i, c ∈ conns s → peers s !! c = Some p → i ∈ _completedPieces s → i ∈ sentHaves (pUp p)) ∧
  (conns s = ∅ ∨ Z.of_nat (size (conns s)) ≤ maxEstablishedConns conf) ∧
  (DropDuplicatePeerIds conf = true → ∀ c d, c ∈ conns s → d ∈ conns s → peerIdOf s c = peerIdOf s d → c = d).
Proof.
  intros [Hk Hu Hb Hr Hp Ht]%connected_told. split_and!.
  - intros c p i Hc Ep Hi. apply (Ht c (PeerID (pStatic p), sentHaves (pUp p)) i Hc); [|done|by intros []].
    cbn. by rewrite lookup_fmap, Ep.
  - destruct (decide (conns s = ∅)); [by left|right]. by apply Hb.
  - intros Hdd c d Hc Hd. rewrite !peerIdOf_view. destruct (Hk c Hc) as [p Hpc], (Hk d Hd) as [q Hqd].
    rewrite Hpc, Hqd. cbn. intros [= E]. by apply (Hu c d p q).
Qed.
End Runs.

(** *** A run: a connection while there are no pieces, then one is found
    complete and a second connection follows. *)
Module ConnExample.
Definition conf : ClientConf :=
  mkClientConf [1] [0; 0; 0; 0; 0; 0; 0; 4] [] [] (mkPolicy false false) 6881 [] [] true None true 50.
Definition ends (c : nat) : ConnEnd := mkConnEnd (Nat.even c) "tcp4" [10; 0; 0; Z.of_nat c] [0; 0; 0; 0; 0; 0; 0; 4] [Z.of_nat c + 2].

Definition run : cop → act unit :=
  cexec exOrder exHash (λ i, i) (λ _, None) (λ _, None) (λ _, []) (λ _, true) exParseInfo id (λ _ _, None)
    16384 (Some true) true (λ _, false) (λ _, None) conf ends.

Definition ops : list cop :=
  [ Base (OpNewConnection 0 (exStatic 2) 1000000); Connect 0;
    Base (OpSetInfoBytes [1]);
    Base (OpStorage (λ i, (i =? 1, true))); Base (OpUpdateCompletion 1);
    Base (OpNewConnection 1 (exStatic 3) 1000000); Connect 1 ].

Definition final : Swarm := finalState (forEach ops run) (newTorrentOpt exConfig (λ _, (false, true)) 100).

Lemma exOrder_all (b : gset nat) c : c ∈ b ↔ c ∈ exOrder b.
Proof. unfold exOrder. by rewrite elem_of_elements. Defined.
End ConnExample.

Import ConnExample.

Lemma connected_run `{Multiless} `{Heap} mapOrder sha1 po dh dm mm ho pi sh pr ch ot nc ie w cf en l : ∀ s s',
  connected mapOrder sha1 po dh dm mm ho pi sh pr ch ot nc ie w cf en s → Forall cop_ok l →
  forEach l (cexec mapOrder sha1 po dh dm mm ho pi sh pr ch ot nc ie w cf en) s = Ok (tt, s') →
  connected mapOrder sha1 po dh dm mm ho pi sh pr ch ot nc ie w cf en s'.
Proof.
  induction l as [|o l IH]; intros s s' Hs Hl E; cbn [forEach] in E; [by injection E as <-|].
  apply Forall_cons in Hl as [Ho Hl]. unfold mbind, act_bind in E.
  destruct (cexec _ _ _ _ _ _ _ _ _ _ _ _ _ _ _ _ _ o s) as [[[] s1]|?] eqn:E1; [|done].
  apply (IH s1); [|done|done]. by eapply connected_step.
Qed.

Lemma connections_told_witness :
  conns final = {[0%nat; 1%nat]} ∧ _completedPieces final = {[1]} ∧
  (∀ c p i, c ∈ conns final → peers final !! c = Some p → i ∈ _completedPieces final → i ∈ sentHaves (pUp p)).
Proof.
  split; [vm_compute; reflexivity|]. split; [vm_compute; reflexivity|].
  assert (Hrun : forEach ops run (newTorrentOpt exConfig (λ _, (false, true)) 100) = Ok (tt, final))
    by (vm_compute; reflexivity).
  refine (proj1 (connections_told exOrder exOrder_all exHash (λ i, i) (λ _, None) (λ _, None) (λ _, []) (λ _, true) exParseInfo id
    (λ _ _, None) 16384 (Some true) true (λ _, false) (λ _, None) conf ends final _)).
  eapply connected_run; [apply connected_new| |exact Hrun]. repeat constructor.
Defined.
