(* ===== verification/InitialMessages.v ===== *)
(** What a peer learns from our initial messages: [sendHaves] at one end and
    [handleMessage] at the other. *)
From stdpp Require Import base numbers list strings gmap sorting.
From Stdlib Require Import ZArith Lia.
From S2P Require Import Prelude Wire Metainfo Geometry RequestStrategy OrderedBitmap AllocLim SmartBan SwarmState Swarm SwarmWp SwarmReq Metadata Requesting Desired Availability Scenario Conns.
Open Scope Z_scope.

(** The receiving torrent is open, has the info, and has a new connection from
    which nothing has arrived; if it drops peers that are as complete as it
    is, it is not complete itself. *)
Record listening (g : Geo) (d : nat) (t : Swarm) : Prop := {
  li_geo : geo t = Some g;
  li_pieces : length (pieces t) = Z.to_nat (numPieces g);
  li_order i : hasStorage t = true → 0 ≤ i < numPieces g → is_Some (order t !! i);
  li_open : torrentClosed t = false;
  li_peer : ∃ q, peers t !! d = Some q ∧ peerClosed (pHave q) = false;
  li_mutual : DropMutuallyCompletePeers (cfg t) && haveAllPieces t = false
}.

Definition have_of (t : Swarm) (d : nat) : option HaveSide := pHave <$> peers t !! d.

(** An operation that succeeds, keeps the torrent listening, and leaves what
    is known of the peer as it is. *)
Definition quiet {A} (g : Geo) (d : nat) (m : act A) : Prop :=
  ∀ t, listening g d t → wp never m (λ _ t', listening g d t' ∧ have_of t' d = have_of t d) t.

Section Receive.
Context (g : Geo) (d : nat).

Lemma quiet_ret {A} (a : A) : quiet g d (mret a).
Proof. intros t Ht. by apply wp_ret. Qed.

Lemma quiet_bind {A B} (m : act A) (f : A → act B) : quiet g d m → (∀ a, quiet g d (f a)) → quiet g d (m ≫= f).
Proof.
  intros Hm Hf t Ht. apply wp_bind. eapply wp_mono; [by apply Hm|]. cbv beta. intros a t1 [Ht1 E1].
  eapply wp_mono; [by apply Hf|]. cbv beta. intros b t2 [Ht2 E2]. by rewrite E2.
Qed.

Lemma quiet_gets {A} (f : Swarm → A) : quiet g d (gets f).
Proof. intros t Ht. by apply wp_gets. Qed.

Lemma quiet_when b m : quiet g d m → quiet g d (when b m).
Proof. destruct b; [done|]. intros _. apply quiet_ret. Qed.

Lemma quiet_forEach {A} (l : list A) f : (∀ x, x ∈ l → quiet g d (f x)) → quiet g d (forEach l f).
Proof.
  induction l as [|x l IH]; intros Hf; cbn [forEach]; [apply quiet_ret|].
  apply quiet_bind; [apply Hf; by left|]. intros _. apply IH. intros y Hy. apply Hf. by right.
Qed.

(** Changes to the torrent outside of what matters here. *)
Lemma quiet_modify f :
  (∀ t, geo (f t) = geo t ∧ length (pieces (f t)) = length (pieces t) ∧ hasStorage (f t) = hasStorage t ∧
        order (f t) = order t ∧ torrentClosed (f t) = torrentClosed t ∧ cfg (f t) = cfg t ∧
        _completedPieces (f t) = _completedPieces t ∧ pHave <$> peers (f t) = pHave <$> peers t) →
  quiet g d (modify f).
Proof.
  intros Hf t Ht. destruct (Hf t) as (E1 & E2 & E3 & E4 & E5 & E6 & E7 & E8). apply wp_modify.
  assert (Eh : have_of (f t) d = have_of t d) by (unfold have_of; by rewrite <- !lookup_fmap, E8).
  split; [|done]. destruct Ht as [Hg Hp Ho Hop (q & Hq & Hc) Hm]. split; rewrite ?E1, ?E2, ?E3, ?E4, ?E5, ?E6; try done.
  - unfold have_of in Eh. rewrite Hq in Eh. cbn in Eh. destruct (peers (f t) !! d) as [q'|]; [|done].
    injection Eh as Eh. exists q'. by rewrite Eh.
  - unfold haveAllPieces. by rewrite E1, E7.
Qed.

Lemma quiet_on_ctl c f : quiet g d (on_ctl c f).
Proof. apply quiet_modify. intros t. cbn. split_and!; try done. by apply fmap_alter_same. Qed.

Lemma quiet_peer : quiet g d (peer d).
Proof. intros t Ht. destruct (li_peer _ _ _ Ht) as (q & Hq & _). apply wp_peer; [done|congruence]. Qed.

Lemma quiet_updateRequests r : quiet g d (updateRequests d r).
Proof.
  unfold updateRequests. apply quiet_bind; [apply quiet_peer|]. intros p. repeat case_match; try apply quiet_ret. apply quiet_on_ctl.
Qed.

Lemma quiet_raise n : quiet g d (raisePeerMinPieces d n).
Proof. apply quiet_on_ctl. Qed.

Lemma quiet_maybeDrop o : quiet g d (maybeDropMutuallyCompletePeer o d).
Proof.
  intros t Ht. unfold maybeDropMutuallyCompletePeer. apply wp_bind, wp_gets, wp_bind.
  destruct (li_peer _ _ _ Ht) as (q & Hq & _). apply wp_peer; [intros p _|congruence].
  pose proof (li_mutual _ _ _ Ht) as Hm. destruct (DropMutuallyCompletePeers (cfg t)), (haveAllPieces t); try done; by apply wp_ret.
Qed.

Lemma quiet_order i : 0 ≤ i < numPieces g → quiet g d (updatePieceRequestOrder i).
Proof.
  intros Hi t Ht. unfold updatePieceRequestOrder. apply wp_bind, wp_gets. destruct (hasStorage t) eqn:Es; cbn [negb]; [|by apply wp_ret].
  pose proof Ht as [Hg Hp Ho Hop Hq Hm]. apply wp_bind, wp_info; [|congruence]. intros g' Hg'. apply wp_bind.
  unfold wp at 1, piece. rewrite (proj2 (Z.leb_le 0 i)) by lia.
  destruct (pieces t !! Z.to_nat i) as [x|] eqn:Ex; [|apply lookup_ge_None in Ex; lia].
  apply wp_bind, wp_gets. destruct (Ho i Es Hi) as [o Eo]. rewrite Eo. apply wp_modify. split; [|done].
  split; cbn; try done. intros j _ Hj. destruct (decide (j = i)) as [->|]; [rewrite lookup_insert_eq; by eexists|].
  rewrite lookup_insert_ne by done. by apply Ho.
Qed.

Lemma quiet_inc i : 0 ≤ i < numPieces g → quiet g d (incPieceAvailability i).
Proof.
  intros Hi t Ht. unfold incPieceAvailability. apply wp_bind, wp_gets. unfold haveInfo. rewrite (li_geo _ _ _ Ht).
  pose proof (li_pieces _ _ _ Ht) as Hp.
  assert (Hpiece : ∀ t', length (pieces t') = length (pieces t) → ∃ x, piece i t' = Ok (x, t')).
  { intros t' Hl. unfold piece. rewrite (proj2 (Z.leb_le 0 i)) by lia.
    destruct (pieces t' !! Z.to_nat i) as [x|] eqn:Ex; [by eexists|apply lookup_ge_None in Ex; lia]. }
  destruct (Hpiece t eq_refl) as [x Ex]. apply wp_bind. unfold wp at 1. rewrite Ex. apply wp_bind.
  unfold modify_piece. apply wp_bind. unfold wp at 1. rewrite Ex.
  eapply wp_mono; [apply (quiet_modify (λ s, set_pieces (alter (set_relativeAvailability (relativeAvailability x + 1)) (Z.to_nat i) (pieces s)) s)); [|done]|].
  { intros t'. cbn. split_and!; try done. apply length_alter. }
  cbv beta. intros _ t1 [Ht1 E1]. eapply wp_mono; [by apply quiet_order|]. cbv beta. intros _ t2 [Ht2 E2]. by rewrite E2.
Qed.

(** *** The handlers, on a new connection *)
Lemma wp_on_have f Q t h :
  listening g d t → have_of t d = Some h → peerClosed (f h) = false →
  (∀ t', listening g d t' → have_of t' d = Some (f h) → Q tt t') → wp never (on_have d f) Q t.
Proof.
  intros Ht Hh Hf HQ. apply wp_modify. pose proof Ht as [Hg Hp Ho Hop (q & Hq & Hc) Hm]. unfold have_of in Hh.
  rewrite Hq in Hh. injection Hh as <-. apply HQ.
  - split; try done. cbn. exists (set_pHave (f (pHave q)) q). by rewrite lookup_alter_eq, Hq.
  - unfold have_of. cbn. by rewrite lookup_alter_eq, Hq.
Qed.

Abbreviation Nothing := (mkHaveSide ∅ false false).

Lemma onPeerHasAllPieces_new o t :
  listening g d t → have_of t d = Some Nothing →
  wp never (onPeerHasAllPieces o d) (λ _ t', listening g d t' ∧ have_of t' d = Some (mkHaveSide ∅ true false)) t.
Proof.
  intros Ht Hh. unfold onPeerHasAllPieces. apply wp_bind, wp_gets, wp_bind.
  destruct (li_peer _ _ _ Ht) as (q & Hq & _). apply wp_peer; [intros p Hp|congruence].
  assert (Ep : pHave p = Nothing). { unfold have_of in Hh. rewrite Hp in Hh. by injection Hh as ->. }
  rewrite Ep. cbn [_peerPieces]. apply wp_bind. eapply wp_mono; [apply quiet_when; [|done]|].
  { apply quiet_forEach. intros x Hx%elem_of_ascending. set_solver. }
  cbv beta. intros _ t1 [Ht1 E1]. apply wp_bind. unfold addConnWithAllPieces.
  eapply wp_mono; [apply quiet_modify; [|done]; by intros|]. cbv beta. intros _ t2 [Ht2 E2].
  apply wp_bind. apply (wp_on_have _ _ _ Nothing); [done|by rewrite E2, E1|done|]. intros t3 Ht3 E3.
  apply wp_bind, wp_gets, wp_bind. eapply wp_mono; [apply quiet_when; [apply quiet_updateRequests|done]|].
  cbv beta. intros _ t4 [Ht4 E4]. eapply wp_mono; [by apply quiet_maybeDrop|]. cbv beta. intros _ t5 [Ht5 E5].
  split; [done|]. by rewrite E5, E4, E3.
Qed.

Lemma peerSentHaveNone_new o t :
  listening g d t → have_of t d = Some Nothing →
  wp never (peerSentHaveNone o d) (λ e t', e = None ∧ listening g d t' ∧ have_of t' d = Some Nothing) t.
Proof.
  intros Ht Hh. unfold peerSentHaveNone. apply wp_bind. destruct (li_peer _ _ _ Ht) as (q & Hq & _).
  apply wp_peer; [intros p Hp|congruence].
  assert (Ep : pHave p = Nothing). { unfold have_of in Hh. rewrite Hp in Hh. by injection Hh as ->. }
  rewrite Ep. cbn [peerSentHaveAll negb]. apply wp_bind. unfold when, decPeerPieceAvailability, deleteConnWithAllPieces.
  apply wp_bind, wp_bind, wp_gets, wp_bind. eapply wp_mono; [apply quiet_modify; [|done]; by intros|].
  cbv beta. intros _ t1 [Ht1 E1]. apply wp_ret.
  eapply (wp_mono _ _ (λ _ t', listening g d t' ∧ have_of t' d = Some Nothing)).
  - case_bool_decide; [apply wp_ret; by rewrite E1|]. apply wp_bind, wp_gets. case_match; [apply wp_ret; by rewrite E1|].
    apply wp_bind. destruct (li_peer _ _ _ Ht1) as (q1 & Hq1 & _). apply wp_peer; [intros p1 Hp1|congruence].
    assert (Ep1 : pHave p1 = Nothing). { rewrite Hh in E1. unfold have_of in E1. rewrite Hp1 in E1. by injection E1. }
    rewrite Ep1. cbn [_peerPieces]. eapply wp_mono; [apply quiet_forEach; [|done]|].
    { intros x Hx%elem_of_ascending. set_solver. }
    cbv beta. intros _ t2 [Ht2 E2]. by rewrite E2, E1.
  - cbv beta. intros _ t2 [Ht2 E2]. apply wp_bind. apply (wp_on_have _ _ _ Nothing); [done|done|done|].
    intros t3 Ht3 E3. apply wp_bind. eapply wp_mono; [by apply quiet_maybeDrop|]. cbv beta. intros _ t4 [Ht4 E4].
    apply wp_ret. by rewrite E4.
Qed.

Lemma elem_of_boolSliceToBitmap bf i : i ∈ boolSliceToBitmap bf ↔ ∃ j : nat, i = Z.of_nat j ∧ bf !! j = Some true.
Proof.
  unfold boolSliceToBitmap. rewrite elem_of_list_to_set, list_elem_of_omap. split.
  - intros ([j b] & Hj%list_elem_of_lookup & Hb). destruct Hj as [k Hk]. rewrite list_lookup_imap in Hk.
    destruct (bf !! k) as [x|] eqn:E; [|done]. injection Hk as <- <-. cbn in Hb. destruct x; [|done]. injection Hb as <-. eauto.
  - intros (j & -> & Hj). exists (j, true). split; [|done]. apply list_elem_of_lookup. exists j. by rewrite list_lookup_imap, Hj.
Qed.

Lemma symdiff_empty (b : gset Z) : symdiff b ∅ = b ∧ symdiff ∅ b = b.
Proof. split; apply set_eq; intros x; rewrite elem_of_symdiff; set_solver. Qed.

Lemma peerSentBitfield_new o bf t :
  listening g d t → have_of t d = Some Nothing → (length bf mod 8 = 0)%nat → numPieces g ≤ Z.of_nat (length bf) →
  let bm := boolSliceToBitmap (take (Z.to_nat (numPieces g)) bf) in
  wp never (peerSentBitfield o d bf) (λ e t', e = None ∧ listening g d t' ∧
    have_of t' d = Some (if Z.of_nat (size bm) =? numPieces g then mkHaveSide ∅ true false else mkHaveSide bm false false)) t.
Proof.
  intros Ht Hh H8 Hlen bm. unfold peerSentBitfield. apply wp_bind, wp_assert; [intros _|by rewrite (proj2 (Nat.eqb_eq _ _) H8)].
  apply wp_bind. eapply wp_mono; [by apply quiet_raise|]. cbv beta. intros _ t1 [Ht1 E1].
  apply wp_bind, wp_gets. cbv zeta. rewrite (li_geo _ _ _ Ht1).
  assert (Ebf : (if numPieces g <? Z.of_nat (length bf) then take (Z.to_nat (numPieces g)) bf else bf) = take (Z.to_nat (numPieces g)) bf).
  { destruct (numPieces g <? Z.of_nat (length bf)) eqn:El; [done|]. rewrite take_ge; [done|lia]. }
  rewrite Ebf. fold bm. destruct (Z.of_nat (size bm) =? numPieces g).
  { apply wp_bind. eapply wp_mono; [apply onPeerHasAllPieces_new; [done|by rewrite E1]|]. cbv beta. intros _ t2 Ht2. by apply wp_ret. }
  apply wp_bind. eapply wp_mono; [apply quiet_when; [apply quiet_raise|done]|]. cbv beta. intros _ t2 [Ht2 E2].
  apply wp_bind. destruct (li_peer _ _ _ Ht2) as (q & Hq & _). apply wp_peer; [intros p Hp|congruence].
  assert (Ep : pHave p = Nothing). { rewrite E1, Hh in E2. unfold have_of in E2. rewrite Hp in E2. by injection E2. }
  rewrite Ep. cbn [peerSentHaveAll _peerPieces]. rewrite (proj1 (symdiff_empty bm)). apply wp_bind, wp_ret.
  apply wp_bind. apply (wp_on_have _ _ _ Nothing); [done|by rewrite E2, E1|done|]. intros t3 Ht3 E3.
  change (set_peerSentHaveAll false Nothing) with Nothing in E3.
  assert (Hq3 : quiet g d (forEach (ascending bm) (λ x,
      if bool_decide (x ∈ (∅ : gset Z)) then decPieceAvailability x else incPieceAvailability x))).
  { apply quiet_forEach. intros x Hx%elem_of_ascending. apply elem_of_boolSliceToBitmap in Hx as (j & -> & Hj).
    rewrite bool_decide_eq_false_2 by set_solver. apply quiet_inc. apply lookup_lt_Some in Hj. rewrite length_take in Hj. lia. }
  apply wp_bind. unfold applyBitfield. apply wp_bind. destruct (li_peer _ _ _ Ht3) as (q3 & Hpq3 & _).
  apply wp_peer; [intros p3 Hp3|congruence].
  assert (Ep3 : pHave p3 = Nothing). { unfold have_of in E3. rewrite Hp3 in E3. by injection E3. }
  rewrite Ep3. cbn [_peerPieces]. apply wp_bind, wp_gets, wp_bind.
  eapply wp_mono; [by apply Hq3|]. cbv beta. intros _ t4 [Ht4 E4]. apply wp_ret.
  apply wp_bind. apply (wp_on_have _ _ _ Nothing); [done|by rewrite E4|done|]. intros t5 Ht5 E5.
  cbn [set__peerPieces _peerPieces peerSentHaveAll peerClosed] in E5. rewrite (proj2 (symdiff_empty bm)) in E5.
  apply wp_bind. eapply wp_mono; [apply quiet_when; [apply quiet_updateRequests|done]|]. cbv beta. intros _ t6 [Ht6 E6].
  apply wp_bind. eapply wp_mono; [by apply quiet_maybeDrop|]. cbv beta. intros _ t7 [Ht7 E7]. apply wp_ret.
  split_and!; [done|done|]. by rewrite E7, E6, E5.
Qed.
End Receive.

(** ** The sender *)

(** What is announced: the constructor of the have-related message, if any. *)
Definition initialHaves (s : Swarm) (g : Geo) (p : Peer) : list AMsg :=
  if fastEnabled s p && haveAllPieces s then [ASimple HaveAll]
  else if fastEnabled s p && negb (haveAnyPieces s) then [ASimple HaveNone]
  else if negb (haveAnyPieces s) then []
  else [ABitfield (map (pieceComplete s) (seqZ 0 (numPieces g)))].

Definition inRange (g : Geo) (b : gset Z) : Prop := ∀ i, i ∈ b → 0 ≤ i < numPieces g.

Lemma full_range g b :
  inRange g b → Z.of_nat (size b) = numPieces g → b = list_to_set (seqZ 0 (numPieces g)).
Proof.
  intros Hr Hs. apply leibniz_equiv, set_subseteq_size_equiv.
  - intros i Hi. apply elem_of_list_to_set, elem_of_seqZ. apply Hr in Hi. lia.
  - rewrite size_list_to_set by apply NoDup_seqZ. rewrite length_seqZ. lia.
Qed.

Lemma wf_initialHaves s g p : Forall wf_amsg (initialHaves s g p).
Proof. unfold initialHaves. repeat case_match; repeat constructor. Qed.

(** Writing one message. *)
Lemma wp_write a c Q s p :
  wf_amsg a → a ≠ AKeepalive → peers s !! c = Some p →
  (∀ b s' p', peers s' !! c = Some p' → writeBuffer p' = writeBuffer p ++ [concr a] → pUp p' = pUp p →
     geo s' = geo s → _completedPieces s' = _completedPieces s → Q b s') →
  wp never (write c (concr a)) Q s.
Proof.
  intros Hwf Hk Hp HQ. unfold write. apply wp_bind, wp_assert; [intros _|by rewrite MarshalBinary_frame].
  apply wp_bind, wp_modify, wp_bind. apply wp_peer; cbn; rewrite lookup_alter_eq, Hp; [|done]. intros p1 [= <-].
  apply wp_bind. unfold allStats. apply wp_bind, wp_modify, wp_modify, wp_ret. cbn.
  eapply HQ; cbn; rewrite ?lookup_alter_eq, ?Hp; done.
Qed.

Lemma wp_sent c f Q s p :
  peers s !! c = Some p →
  (∀ s', peers s' !! c = Some (set_pUp (f (pUp p)) p) → Q tt s') → wp never (on_up c f) Q s.
Proof. intros Hp HQ. apply wp_modify, HQ. cbn. by rewrite lookup_alter_eq, Hp. Qed.

Lemma bitfield_ok s g :
  geo s = Some g → inRange g (_completedPieces s) → bitfield s = Ok (map (pieceComplete s) (seqZ 0 (numPieces g))).
Proof.
  intros Hg Hr. unfold bitfield. rewrite Hg. cbn.
  destruct (forallb _ _) eqn:E; [done|]. exfalso. apply not_true_iff_false in E. apply E, forallb_forall.
  intros i Hi%list_elem_of_In%elem_of_ascending%Hr. lia.
Qed.

Lemma sendHaves_writes s c p g :
  peers s !! c = Some p → sentHaves (pUp p) = ∅ → geo s = Some g → inRange g (_completedPieces s) →
  wp never (sendHaves c) (λ _ s', ∃ p', peers s' !! c = Some p' ∧
    writeBuffer p' = writeBuffer p ++ map concr (initialHaves s g p) ∧ sentHaves (pUp p') = _completedPieces s) s.
Proof.
  intros Hp Hsent Hg Hr. unfold sendHaves, initialHaves. apply wp_bind. apply wp_peer; [|congruence]. intros p0 Hp0.
  assert (p0 = p) as -> by congruence. apply wp_bind, wp_gets.
  destruct (fastEnabled s p && haveAllPieces s) eqn:Ea; [|destruct (fastEnabled s p && negb (haveAnyPieces s)) eqn:En].
  - apply wp_bind. apply (wp_write (ASimple HaveAll) c _ _ p); [done..|]. intros b s1 p1 Hp1 Hb1 Hu1 Hg1 Hc1.
    apply wp_bind, wp_info; [|congruence]. intros g' Hg'. assert (g' = g) as -> by congruence.
    apply (wp_sent _ _ _ _ p1); [done|]. intros s2 Hp2. eexists. split; [done|]. split; [exact Hb1|].
    cbn. rewrite Hu1, Hsent. apply andb_true_iff in Ea as [_ Ea]. unfold haveAllPieces in Ea. rewrite Hg in Ea. apply Z.eqb_eq in Ea.
    rewrite (full_range g (_completedPieces s)) at 1 by done. set_solver.
  - apply wp_bind. apply (wp_write (ASimple HaveNone) c _ _ p); [done..|]. intros b s1 p1 Hp1 Hb1 Hu1 Hg1 Hc1.
    apply (wp_sent _ _ _ _ p1); [done|]. intros s2 Hp2. eexists. split; [done|]. split; [exact Hb1|].
    apply andb_true_iff in En as [_ En]. unfold haveAnyPieces in En. rewrite negb_involutive in En. by apply bool_decide_eq_true in En.
  - unfold postBitfield. apply wp_bind. apply wp_peer; [|congruence]. intros p1 Hp1. assert (p1 = p) as -> by congruence.
    apply wp_bind, wp_assert; [intros _|by rewrite bool_decide_eq_true_2]. apply wp_bind, wp_gets.
    destruct (haveAnyPieces s) eqn:Eh; cbn [negb].
    + apply wp_bind. unfold wp at 1, lift_go. rewrite (bitfield_ok s g) by done. apply wp_bind.
      apply (wp_write (ABitfield (map (pieceComplete s) (seqZ 0 (numPieces g)))) c _ _ p); [done..|].
      intros b s1 p2 Hp2 Hb2 Hu2 Hg2 Hc2. apply (wp_sent _ _ _ _ p2); [done|]. intros s2 Hp3. eexists. split; [done|].
      split; [exact Hb2|exact Hc2 || done].
    + apply wp_ret. exists p. split; [done|]. split; [by rewrite app_nil_r|].
      unfold haveAnyPieces in Eh. apply negb_false_iff, bool_decide_eq_true in Eh. by rewrite Hsent, Eh.
Qed.

(** ** Both ends *)

(** What is known of a peer after the messages. *)
Definition knows (g : Geo) (t : Swarm) (d : nat) (has : Z → bool) : Prop :=
  ∃ q, peers t !! d = Some q ∧ ∀ i, 0 ≤ i < numPieces g → peerHasPiece t q i = has i.

Lemma knows_of g d t h has :
  listening g d t → have_of t d = Some h →
  (∀ i, 0 ≤ i < numPieces g →
     (peerSentHaveAll h || (Z.of_nat (size (_peerPieces h)) =? numPieces g) || bool_decide (i ∈ _peerPieces h)) = has i) →
  knows g t d has.
Proof.
  intros Ht Hh Hhas. destruct (li_peer _ _ _ Ht) as (q & Hq & _). exists q. split; [done|]. intros i Hi.
  unfold have_of in Hh. rewrite Hq in Hh. injection Hh as <-. rewrite <- (Hhas i Hi).
  unfold peerHasPiece, peerHasAllPieces. rewrite (li_geo _ _ _ Ht).
  destruct (peerSentHaveAll (pHave q)); cbn; [done|]. by destruct (_ =? _).
Qed.

Section Both.
Context (mapOrder : gset nat → list nat) (sha1 : list Z → list Z) (ext : nat → Z → list Z → act (option MsgErr)).
Context (g : Geo) (d : nat).

Abbreviation Nothing := (mkHaveSide ∅ false false).

(** A message of the decoder, handled by a connection from which nothing has
    arrived; what the handler does is given for each of the three. *)
Lemma handle_new m t Q :
  listening g d t → have_of t d = Some Nothing → Keepalive m = false →
  (∀ q, peers t !! d = Some q → FastExtension (Type_ m) && negb (fastEnabled t q) = false) →
  (∀ t', listening g d t' → have_of t' d = Some Nothing →
     (Type_ m = HaveAll → wp never (onPeerHasAllPieces mapOrder d) (λ _, Q) t') ∧
     (Type_ m = HaveNone → wp never (peerSentHaveNone mapOrder d) (λ e t', e = None ∧ Q t') t') ∧
     (Type_ m = Bitfield → wp never (peerSentBitfield mapOrder d (BitfieldBits m)) (λ e t', e = None ∧ Q t') t')) →
  Type_ m ∈ [HaveAll; HaveNone; Bitfield] →
  wp never (handleMessage mapOrder sha1 ext d m) (λ e t', e = None ∧ Q t') t.
Proof.
  intros Ht Hh Hk Hf HQ Hty. unfold handleMessage. apply wp_bind. destruct (li_peer _ _ _ Ht) as (q & Hq & Hc).
  apply wp_peer; [intros p Hp|congruence]. assert (p = q) as -> by congruence. apply wp_bind, wp_gets.
  rewrite (li_open _ _ _ Ht), Hc. cbn [orb]. apply wp_bind. eapply wp_mono; [by apply (quiet_on_ctl g d)|].
  cbv beta. intros _ t1 [Ht1 E1]. rewrite Hk, (Hf q Hq). rewrite Hh in E1. destruct (HQ t1 Ht1 E1) as (H1 & H2 & H3).
  assert (Hcase : Type_ m = HaveAll ∨ Type_ m = HaveNone ∨ Type_ m = Bitfield) by set_solver.
  destruct Hcase as [E|[E|E]]; rewrite E; cbn -[wp].
  - unfold unitErr. apply wp_bind. eapply wp_mono; [by apply H1|]. cbv beta. intros _ t2 Ht2. by apply wp_ret.
  - by apply H2.
  - by apply H3.
Qed.

Definition wireTurn (a : AMsg) : turn := mkTurn (mret tt) (Some (concr (received a))).

Lemma loop_one a t Q :
  listening g d t →
  wp never (handleMessage mapOrder sha1 ext d (concr (received a))) (λ e t', e = None ∧ Q t') t →
  wp never (mainReadLoop mapOrder sha1 ext d (map wireTurn [a])) (λ e t', e = LoopReading ∧ Q t') t.
Proof.
  intros Ht Hw. cbn [map mainReadLoop wireTurn others decoded]. apply wp_bind, wp_ret, wp_bind, wp_gets, wp_bind.
  destruct (li_peer _ _ _ Ht) as (q & Hq & Hc). apply wp_peer; [intros q' Hq'|congruence].
  assert (q' = q) as -> by congruence. rewrite (li_open _ _ _ Ht), Hc. cbn [orb]. apply wp_bind.
  eapply wp_mono; [exact Hw|]. cbv beta. intros e t' [-> Hkn]. by apply wp_ret.
Qed.

Lemma no_pieces s i : haveAnyPieces s = false → pieceComplete s i = false.
Proof.
  intros He. unfold haveAnyPieces in He. apply negb_false_iff, bool_decide_eq_true in He. unfold pieceComplete. rewrite He.
  apply bool_decide_eq_false. set_solver.
Qed.

Lemma nothing_known s t :
  haveAnyPieces s = false → listening g d t → have_of t d = Some Nothing → knows g t d (pieceComplete s).
Proof.
  intros He Ht Hh. apply (knows_of _ _ _ _ _ Ht Hh). intros i Hi. rewrite no_pieces by done. cbn [peerSentHaveAll _peerPieces orb].
  rewrite size_empty, bool_decide_eq_false_2 by set_solver. rewrite orb_false_r. apply Z.eqb_neq. lia.
Qed.

Lemma all_pieces s i :
  geo s = Some g → inRange g (_completedPieces s) → haveAllPieces s = true → 0 ≤ i < numPieces g → pieceComplete s i = true.
Proof.
  intros Hg Hr Ha Hi. unfold haveAllPieces in Ha. rewrite Hg in Ha. apply Z.eqb_eq in Ha. apply bool_decide_eq_true.
  rewrite (full_range g _ Hr Ha). apply elem_of_list_to_set, elem_of_seqZ. lia.
Qed.

Lemma bitfield_bitmap s :
  inRange g (_completedPieces s) → boolSliceToBitmap (map (pieceComplete s) (seqZ 0 (numPieces g))) = _completedPieces s.
Proof.
  intros Hr. apply set_eq. intros i. rewrite elem_of_boolSliceToBitmap. split.
  - intros (j & -> & Hj). rewrite list_lookup_fmap in Hj. destruct (seqZ 0 (numPieces g) !! j) as [x|] eqn:Ex; [|done].
    apply lookup_seqZ in Ex as [-> _]. injection Hj as Hj. unfold pieceComplete in Hj. by apply bool_decide_eq_true in Hj.
  - intros Hi. pose proof (Hr i Hi). exists (Z.to_nat i). split; [lia|]. rewrite list_lookup_fmap.
    rewrite (proj2 (lookup_seqZ 0 (numPieces g) (Z.to_nat i) i)) by lia. cbn. unfold pieceComplete. by rewrite bool_decide_eq_true_2.
Qed.

Lemma padded_whole bf : (length (bf ++ padding bf) mod 8 = 0)%nat.
Proof.
  unfold padding. rewrite length_app, length_replicate. pose proof (Nat.div_mod_eq (length bf + 7) 8).
  pose proof (Nat.mod_upper_bound (length bf + 7) 8 ltac:(lia)).
  replace (length bf + (8 * ((length bf + 7) / 8) - length bf))%nat with (((length bf + 7) / 8) * 8)%nat by lia.
  apply Nat.Div0.mod_mul.
Qed.

Lemma bitfield_understood s t :
  geo s = Some g → inRange g (_completedPieces s) → listening g d t → have_of t d = Some Nothing →
  wp never (handleMessage mapOrder sha1 ext d (concr (received (ABitfield (map (pieceComplete s) (seqZ 0 (numPieces g)))))))
    (λ e t', e = None ∧ knows g t' d (pieceComplete s)) t.
Proof.
  intros Hg Hr Ht Hh. apply handle_new; [done|done|done|done| |set_solver].
  intros t1 Ht1 Hh1. split_and!; [done|done|intros _]. set (bf := map (pieceComplete s) (seqZ 0 (numPieces g))).
  assert (Hlen : length bf = Z.to_nat (numPieces g)) by (unfold bf; by rewrite length_map, length_seqZ).
  change (BitfieldBits (concr (received (ABitfield bf)))) with (bf ++ padding bf).
  eapply wp_mono; [apply (peerSentBitfield_new g d mapOrder); [done|done|apply padded_whole|rewrite length_app; lia]|].
  rewrite take_app_length' by done. unfold bf. rewrite bitfield_bitmap by done.
  cbv beta. intros e t2 (-> & Ht2 & Hh2). split; [done|]. apply (knows_of _ _ _ _ _ Ht2 Hh2). intros i Hi.
  destruct (Z.of_nat (size (_completedPieces s)) =? numPieces g) eqn:Es; cbn [peerSentHaveAll _peerPieces orb]; [|by rewrite Es].
  symmetry. apply all_pieces; try done. unfold haveAllPieces. by rewrite Hg.
Qed.

(** C31. What we announce is what the peer learns: when [sendInitialMessages]
    announces our pieces on a new connection, at most one message is written,
    all our pieces are recorded as announced, and a peer that has nothing of
    us yet and reads that message as it comes out of its decoder knows of
    every piece exactly whether we have it.  Neither end panics and the
    connection stays. *)
Theorem initial_messages_understood s c p t :
  peers s !! c = Some p → sentHaves (pUp p) = ∅ → geo s = Some g → inRange g (_completedPieces s) →
  listening g d t → have_of t d = Some Nothing →
  (∀ q, peers t !! d = Some q → fastEnabled t q = fastEnabled s p) →
  ∃ l, Forall wf_amsg l ∧ (length l ≤ 1)%nat ∧
    wp never (sendHaves c) (λ _ s', ∃ p', peers s' !! c = Some p' ∧
      writeBuffer p' = writeBuffer p ++ map concr l ∧ sentHaves (pUp p') = _completedPieces s) s ∧
    wp never (mainReadLoop mapOrder sha1 ext d (map wireTurn l))
      (λ e t', e = LoopReading ∧ knows g t' d (pieceComplete s)) t.
Proof.
  intros Hp Hsent Hg Hr Ht Hh Hfast. exists (initialHaves s g p).
  split; [apply wf_initialHaves|]. split; [unfold initialHaves; repeat case_match; cbn; lia|].
  split; [by apply sendHaves_writes|].
  unfold initialHaves.
  destruct (fastEnabled s p && haveAllPieces s) eqn:Ea; [|destruct (fastEnabled s p && negb (haveAnyPieces s)) eqn:En].
  - apply andb_true_iff in Ea as [Ef Ea]. apply loop_one; [done|]. apply handle_new; [done|done|done| | |set_solver].
    { intros q Hq. rewrite (Hfast q Hq), Ef. apply andb_false_r. }
    intros t1 Ht1 Hh1. split_and!; [intros _|done|done].
    eapply wp_mono; [by apply onPeerHasAllPieces_new|]. cbv beta. intros _ t2 [Ht2 Hh2].
    apply (knows_of _ _ _ _ _ Ht2 Hh2). intros i Hi. by rewrite all_pieces.
  - apply andb_true_iff in En as [Ef En]. apply negb_true_iff in En. apply loop_one; [done|].
    apply handle_new; [done|done|done| | |set_solver].
    { intros q Hq. rewrite (Hfast q Hq), Ef. apply andb_false_r. }
    intros t1 Ht1 Hh1. split_and!; [done|intros _|done].
    eapply wp_mono; [by apply peerSentHaveNone_new|]. cbv beta. intros e t2 (-> & Ht2 & Hh2). split; [done|]. by apply nothing_known.
  - destruct (haveAnyPieces s) eqn:Eh; cbn [negb]; [by apply loop_one, bitfield_understood|].
    cbn [map mainReadLoop]. apply wp_ret. split; [done|]. by apply nothing_known.
Qed.
End Both.

(** *** The concrete torrent tells what it has, piece 1, to an empty one. *)
Definition exTelling : Swarm :=
  set__completedPieces {[1]} (finalState (_ ← setInfo exampleInfo 16384 (Some true); onSetInfo exOrder true) exFresh).
Definition exListening : Swarm := finalState (_ ← setInfo exampleInfo 16384 (Some true); onSetInfo exOrder true) exFresh.
Definition exTeller : Peer := default (newConnection (exStatic 10) 1000000) (peers exTelling !! 0%nat).

Lemma exListening_ok : listening exampleGeo 1 exListening.
Proof.
  split; try (vm_compute; reflexivity).
  - intros i _ Hi. assert (Hi' : i ∈ seqZ 0 (numPieces exampleGeo)) by (apply elem_of_seqZ; lia).
    assert (Hall : forallb (λ i, match order exListening !! i with Some _ => true | None => false end) (seqZ 0 (numPieces exampleGeo)) = true)
      by (vm_compute; reflexivity).
    apply list_elem_of_In in Hi'. rewrite forallb_forall in Hall. specialize (Hall i Hi'). cbv beta in Hall.
    destruct (order exListening !! i); [by eexists|done].
  - eexists. split; [vm_compute; reflexivity|vm_compute; reflexivity].
Defined.

Lemma initial_messages_understood_witness :
  ∃ l, Forall wf_amsg l ∧ (length l ≤ 1)%nat ∧
    wp never (sendHaves 0) (λ _ s', ∃ p', peers s' !! 0%nat = Some p' ∧
      writeBuffer p' = writeBuffer exTeller ++ map concr l ∧ sentHaves (pUp p') = _completedPieces exTelling) exTelling ∧
    wp never (mainReadLoop exOrder exHash exExt 1 (map wireTurn l))
      (λ e t', e = LoopReading ∧ knows exampleGeo t' 1 (pieceComplete exTelling)) exListening.
Proof.
  apply (initial_messages_understood exOrder exHash exExt exampleGeo 1 exTelling 0 exTeller exListening).
  - vm_compute. reflexivity.
  - vm_compute. reflexivity.
  - vm_compute. reflexivity.
  - change (_completedPieces exTelling) with ({[1]} : gset Z). intros i ->%elem_of_singleton.
    change (numPieces exampleGeo) with 3. lia.
  - apply exListening_ok.
  - vm_compute. reflexivity.
  - intros q Hq. pose proof (f_equal (fmap (fastEnabled exListening)) Hq) as E.
    vm_compute in E. injection E as E. exact (eq_sym E).
Defined.
