(* ===== verification/Accept.v ===== *)
(** Which connections are accepted and how peers are dialled: [rejectAccepted],
    the accept limiter, [DialFirst] and [reducedDialTimeout] of src/client.go.

    Bans, the block list and the addresses of ourselves are in [PeerEnv] of
    Peers.v.  [net.IP.String] is represented as in [addrString] there. *)
From stdpp Require Import base numbers list strings gmap.
From Stdlib Require Import ZArith Lia.
From S2P Require Import Prelude RequestStrategy Bep40 Peers.
Open Scope Z_scope.

(** ** The accept limiter *)

(** The key of an address: [ip.String()]. *)
Definition ipStr (ip : list Z) : list Z := match To16 ip with Some x => x | None => ip end.

Definition maskIpForAcceptLimiting (ip : list Z) : list Z :=
  match To4 ip with
  | Some ip4 => IP_Mask ip4 (CIDRMask 24 4)
  | None => ip
  end.

(** A nil map is an empty one. *)
Definition acceptLimiter : Type := gmap (list Z) Z.

Definition onBadAccept (m : acceptLimiter) (addr : ipPortAddr) : acceptLimiter :=
  let '(ipa, ok) := tryIpPortFromNetAddr addr in
  if negb ok then m
  else
    let ip := ipStr (maskIpForAcceptLimiting (aIP ipa)) in
    <[ip := default 0 (m !! ip) + 1]> m.

Definition clearAcceptLimits : acceptLimiter := ∅.

Definition rateLimitAccept (DisableAcceptRateLimiting : bool) (m : acceptLimiter) (ip : list Z) : bool :=
  if DisableAcceptRateLimiting then false
  else 0 <? default 0 (m !! ipStr (maskIpForAcceptLimiting ip)).

(** ** rejectAccepted *)
Record AcceptConf : Type := mkAcceptConf {
  AlwaysWantConns : bool;
  DisableIPv4Peers : bool;
  DisableIPv4 : bool;
  DisableIPv6 : bool;
  DisableAcceptRateLimiting : bool
}.

Inductive rejectErr : Type :=
| RejDontWant
| RejIPv4Peers
| RejIPv4
| RejIPv6
| RejRateLimited
| RejBadSource.

(** [Client.wantConns]; the torrents in any order. *)
Definition client_wantConns (conf : AcceptConf) (torrents : list PeerEnv) : bool :=
  if AlwaysWantConns conf then true else existsb wantConns torrents.

Definition rejectAccepted (conf : AcceptConf) (torrents : list PeerEnv) (m : acceptLimiter) (e : PeerEnv) (ra : ipPortAddr) :
    go (option rejectErr) :=
  let rip := aIP ra in
  if negb (client_wantConns conf torrents) then Ok (Some RejDontWant)
  else if bool_decide (rip = []) then Ok None
  else if DisableIPv4Peers conf && bool_decide (is_Some (To4 rip)) then Ok (Some RejIPv4Peers)
  else if DisableIPv4 conf && Nat.eqb (length rip) 4 then Ok (Some RejIPv4)
  else if DisableIPv6 conf && Nat.eqb (length rip) 16 && negb (bool_decide (is_Some (To4 rip))) then Ok (Some RejIPv6)
  else if rateLimitAccept (DisableAcceptRateLimiting conf) m rip then Ok (Some RejRateLimited)
  else
    bad ← badPeerIPPort e rip (aPort ra);
    Ok (if bad : bool then Some RejBadSource else None).

(** ** Dialling

    The results arrive in some order; [left] counts those that are still to
    come. *)
Section DialFirst.
Context {Conn Dialer : Type}.

Record DialResult : Type := mkDialResult { drConn : option Conn; drDialer : Dialer }.

(** The loop that waits: what it has, and the results that come later. *)
Fixpoint waitConn (res : option DialResult) (arrivals : list DialResult) : option DialResult * list DialResult :=
  match arrivals with
  | [] => (res, [])
  | r :: arrivals =>
      match drConn r with
      | Some _ => (Some r, arrivals)
      | None => waitConn (Some r) arrivals
      end
  end.

(** The result and the connections that are closed afterwards. *)
Definition DialFirst (arrivals : list DialResult) : option Conn * list Conn :=
  let '(res, later) := waitConn None arrivals in
  (match res with Some r => drConn r | None => None end, omap drConn later).

(** [DialFirst] loses no connection: it returns the first that is
    established, and every other one that is established is closed, once.
    It returns none only if no dialer succeeded. *)
Theorem dialFirst_exact arrivals :
  omap drConn arrivals = option_list (DialFirst arrivals).1 ++ (DialFirst arrivals).2.
Proof.
  unfold DialFirst. assert (H : ∀ res, match res with Some r => drConn r = None | None => True end →
    omap drConn arrivals =
    option_list (match (waitConn res arrivals).1 with Some r => drConn r | None => None end) ++ omap drConn (waitConn res arrivals).2).
  { induction arrivals as [|r l IH]; intros res Hres; cbn.
    - destruct res as [r|]; [by rewrite Hres|done].
    - destruct (drConn r) as [c|] eqn:E; cbn; [by rewrite E|by apply IH]. }
  specialize (H None I). by destruct (waitConn None arrivals).
Qed.
End DialFirst.

(** Durations; the division by the limit panics if it is zero. *)
Definition reducedDialTimeout (minDialTimeout max halfOpenLimit pendingPeers : Z) : go Z :=
  if halfOpenLimit =? 0 then Panic "integer divide by zero"
  else
    let d := Z.quot (pendingPeers + halfOpenLimit) halfOpenLimit in
    if d =? 0 then Panic "integer divide by zero"
    else
      let ret := Z.quot max d in
      Ok (if ret <? minDialTimeout then minDialTimeout else ret).

(** ** What the limiter does *)

(** The same /24 for IPv4 addresses in either form, the same address for
    IPv6. *)
Definition sameNet (a b : list Z) : Prop :=
  match To4 a, To4 b with
  | Some x, Some y => take 3 x = take 3 y
  | None, None => length a = 16%nat ∧ a = b
  | _, _ => False
  end.

Definition ip_ok (ip : list Z) : Prop := bytes_ok ip ∧ (length ip = 4%nat ∨ length ip = 16%nat).

(** The limiter after bad accepts ([Some]) and clearings ([None]). *)
Definition limiterStep (m : acceptLimiter) (e : option ipPortAddr) : acceptLimiter :=
  match e with Some a => onBadAccept m a | None => clearAcceptLimits end.

Definition sinceClear (es : list (option ipPortAddr)) : list ipPortAddr :=
  foldl (λ l e, match e with Some a => a :: l | None => [] end) [] es.

Lemma To4_length ip x : To4 ip = Some x → length x = 4%nat.
Proof.
  unfold To4. destruct (Nat.eqb (length ip) 4) eqn:E; [intros [= <-]; by apply Nat.eqb_eq|].
  destruct (_ && _) eqn:E2; [|done]. intros [= <-]. apply andb_true_iff in E2 as [E2%Nat.eqb_eq _]. rewrite length_drop. lia.
Qed.

Lemma To4_bytes ip x : To4 ip = Some x → bytes_ok ip → bytes_ok x.
Proof.
  unfold To4. destruct (Nat.eqb _ _); [by intros [= <-]|]. destruct (_ && _); [|done]. intros [= <-]. apply Forall_drop.
Qed.

Lemma mask24 x : bytes_ok x → length x = 4%nat → IP_Mask x (CIDRMask 24 4) = take 3 x ++ [0].
Proof.
  intros Hb Hl. destruct x as [|a [|b [|c [|d [|]]]]]; try done. repeat (apply Forall_cons in Hb as [? Hb]).
  change (CIDRMask 24 4) with [255; 255; 255; 0]. cbn.
  assert (H255 : ∀ z, 0 ≤ z < 256 → Z.land z 255 = z) by (intros z Hz; change 255 with (Z.ones 8); rewrite Z.land_ones, Z.mod_small; lia).
  rewrite !H255, Z.land_0_r by done. done.
Qed.

(** The key of an address. *)
Lemma limit_key ip : ip_ok ip →
  ipStr (maskIpForAcceptLimiting ip) =
  match To4 ip with Some x => v4InV6Prefix ++ take 3 x ++ [0] | None => ip end.
Proof.
  intros [Hb Hl]. unfold maskIpForAcceptLimiting. destruct (To4 ip) as [x|] eqn:E.
  - pose proof (To4_length _ _ E) as Hx. rewrite mask24 by eauto using To4_bytes. unfold ipStr, To16.
    by rewrite length_app, length_take, Hx.
  - unfold ipStr, To16. unfold To4 in E. destruct (Nat.eqb (length ip) 4) eqn:E4; [done|].
    apply Nat.eqb_neq in E4. by rewrite (proj2 (Nat.eqb_eq (length ip) 16)) by lia.
Qed.

Lemma not_v4_prefix ip y : To4 ip = None → length ip = 16%nat → ip ≠ v4InV6Prefix ++ y.
Proof.
  intros E Hl ->. unfold To4 in E. rewrite Hl in E. cbn [Nat.eqb andb] in E.
  change (take 12 (v4InV6Prefix ++ y)) with v4InV6Prefix in E. by rewrite bool_decide_eq_true_2 in E.
Qed.

Lemma key_sameNet a b : ip_ok a → ip_ok b →
  ipStr (maskIpForAcceptLimiting a) = ipStr (maskIpForAcceptLimiting b) ↔ sameNet a b.
Proof.
  intros Ha Hb. rewrite !limit_key by done. unfold sameNet.
  assert (H16 : ∀ ip, ip_ok ip → To4 ip = None → length ip = 16%nat).
  { intros ip [_ [Hl|Hl]] E; [|done]. unfold To4 in E. by rewrite (proj2 (Nat.eqb_eq _ _) Hl) in E. }
  destruct (To4 a) as [x|] eqn:Ea, (To4 b) as [y|] eqn:Eb.
  - split; [|by intros ->]. intros E%(inj (app v4InV6Prefix)). by apply app_inj_2 in E as [? _].
  - split; [|done]. intros E. by destruct (not_v4_prefix b (take 3 x ++ [0]) Eb (H16 b Hb Eb)).
  - split; [|done]. intros E. by destruct (not_v4_prefix a (take 3 y ++ [0]) Ea (H16 a Ha Ea)).
  - split; [intros ->; auto|by intros [_ ->]].
Qed.

(** A bad accept is counted under the 16-byte form of its address. *)
Definition countedIp (a : ipPortAddr) : list Z := match To16 (aIP a) with Some ip => ip | None => [] end.

Lemma onBadAccept_lookup (m : acceptLimiter) a k :
  onBadAccept m a !! k =
  let ka := ipStr (maskIpForAcceptLimiting (countedIp a)) in
  if decide (ka = k) then Some (default 0 (m !! ka) + 1) else m !! k.
Proof.
  cbv zeta. change (onBadAccept m a) with
    (<[ipStr (maskIpForAcceptLimiting (countedIp a)) := default 0 (m !! ipStr (maskIpForAcceptLimiting (countedIp a))) + 1]> m : gmap (list Z) Z).
  case_decide as Ek; [rewrite <- Ek; apply lookup_insert_eq|by apply lookup_insert_ne].
Qed.

Lemma limiter_counts es ip : ip_ok ip →
  0 <? default 0 (foldl limiterStep ∅ es !! ipStr (maskIpForAcceptLimiting ip)) = true ↔
  ∃ a, a ∈ sinceClear es ∧ ipStr (maskIpForAcceptLimiting (countedIp a)) = ipStr (maskIpForAcceptLimiting ip).
Proof.
  intros Hip. set (k := ipStr (maskIpForAcceptLimiting ip)). unfold sinceClear.
  assert (Hge : 0 ≤ default 0 (foldl limiterStep ∅ es !! k) ∧
    (0 < default 0 (foldl limiterStep ∅ es !! k) ↔
     ∃ a, a ∈ foldl (λ l e, match e with Some a => a :: l | None => [] end) [] es ∧ ipStr (maskIpForAcceptLimiting (countedIp a)) = k)).
  { induction es as [|e es IH] using rev_ind.
    { assert (E0 : (foldl limiterStep ∅ [] : acceptLimiter) !! k = None) by apply lookup_empty. rewrite E0. cbn. split; [lia|]. split; [lia|]. intros (a & Ha & _). by apply elem_of_nil in Ha. }
    rewrite !foldl_app. cbn [foldl]. destruct e as [a|]; cbn [limiterStep].
    - rewrite onBadAccept_lookup. cbv zeta. case_decide as Ek.
      + rewrite Ek. cbn. destruct IH as [IH _]. split; [lia|]. split; [|lia]. intros _. exists a. split; [by left|done].
      + destruct IH as [IH0 IH]. split; [done|]. rewrite IH. split.
        * intros (b & Hb & Ek'). exists b. split; [by right|done].
        * intros (b & [->|Hb]%elem_of_cons & Ek'); [done|by exists b].
    - assert (E0 : clearAcceptLimits !! k = None) by apply lookup_empty. rewrite E0. cbn. split; [lia|]. split; [lia|]. intros (a & Ha & _). by apply elem_of_nil in Ha. }
  rewrite Z.ltb_lt. apply Hge.
Qed.

(** After any sequence of bad accepts and clearings of the limits, a
    connection from an address is refused by the limiter exactly if one of
    the bad accepts since the last clearing came from the same network: the
    same /24 for IPv4, in either form of the address, the same address for
    IPv6. *)
Theorem bad_accepts_limited es ip :
  ip_ok ip → Forall (λ e, match e with Some a => bytes_ok (aIP a) | None => True end) es →
  rateLimitAccept false (foldl limiterStep ∅ es) ip = true ↔
  ∃ a, a ∈ sinceClear es ∧ sameNet (countedIp a) ip.
Proof.
  intros Hip Hes. unfold rateLimitAccept. rewrite limiter_counts by done.
  assert (Hb : ∀ a, a ∈ sinceClear es → bytes_ok (aIP a)).
  { unfold sinceClear. induction es as [|e es IH] using rev_ind; intros a; [by intros Ha%elem_of_nil|].
    apply Forall_app in Hes as [Hes He]. apply Forall_cons in He as [He _]. rewrite foldl_app. cbn [foldl].
    destruct e as [b|]; [|by intros Ha%elem_of_nil]. intros [->|Ha]%elem_of_cons; [exact He|by apply IH]. }
  assert (Hk : ∀ a, a ∈ sinceClear es →
    ipStr (maskIpForAcceptLimiting (countedIp a)) = ipStr (maskIpForAcceptLimiting ip) ↔ sameNet (countedIp a) ip).
  { intros a Ha. specialize (Hb a Ha). unfold countedIp, To16. destruct (Nat.eqb (length (aIP a)) 4) eqn:E4;
      [|destruct (Nat.eqb (length (aIP a)) 16) eqn:E16].
    - apply key_sameNet; [|done]. apply Nat.eqb_eq in E4. split; [|right; rewrite length_app, E4; done].
      apply Forall_app. split; [by repeat constructor|done].
    - apply key_sameNet; [|done]. split; [done|right; by apply Nat.eqb_eq].
    - rewrite (limit_key ip Hip). change (ipStr (maskIpForAcceptLimiting [])) with ([] : list Z). unfold sameNet. cbn [To4 length Nat.eqb andb].
      destruct Hip as [_ Hl].
      destruct (To4 ip) as [x|]; cbn; [split; [discriminate|intros []]|]. split; [intros <-; cbn in Hl; lia|by intros []]. }
  split; intros (a & Ha & E); exists a; (split; [done|]); by apply Hk.
Qed.

Module AcceptExample.
Definition addr (d : Z) : ipPortAddr := mkAddr [192; 168; 7; d] 6881.
Definition es : list (option ipPortAddr) := [Some (addr 1); None; Some (addr 2)].
End AcceptExample.

Lemma bad_accepts_limited_witness :
  rateLimitAccept false (foldl limiterStep ∅ AcceptExample.es) (v4InV6Prefix ++ [192; 168; 7; 9]) = true ↔
  ∃ a, a ∈ sinceClear AcceptExample.es ∧ sameNet (countedIp a) (v4InV6Prefix ++ [192; 168; 7; 9]).
Proof.
  apply (bad_accepts_limited AcceptExample.es (v4InV6Prefix ++ [192; 168; 7; 9])).
  - split; [by_decide|by right].
  - repeat constructor; lia.
Defined.

Example same24_refused :
  rateLimitAccept false (foldl limiterStep ∅ AcceptExample.es) (v4InV6Prefix ++ [192; 168; 7; 9]) = true ∧
  rateLimitAccept false (foldl limiterStep ∅ AcceptExample.es) [192; 168; 8; 9] = false.
Proof. by vm_compute. Qed.

(** ** The dial timeout *)

(** With a positive limit of half-open connections the timeout is at least
    the minimum, at most the nominal one unless that is below the minimum, and
    nominal when no peers are pending beyond the limit; it never divides by
    zero. *)
Theorem dialTimeout_bounds minT maxT limit pending :
  0 < limit → 0 ≤ pending → 0 ≤ maxT →
  ∃ ret, reducedDialTimeout minT maxT limit pending = Ok ret ∧ minT ≤ ret ≤ Z.max minT maxT ∧
    (pending < limit → ret = Z.max minT maxT) ∧ (minT < ret → ret * (pending + limit) ≤ maxT * limit + ret * (limit - 1)).
Proof.
  intros Hl Hp Hm. unfold reducedDialTimeout. rewrite (proj2 (Z.eqb_neq limit 0)) by lia.
  rewrite (Z.quot_div_nonneg (pending + limit)) by lia. set (k := (pending + limit) / limit).
  assert (Hk : 1 ≤ k) by (apply Z.div_le_lower_bound; lia).
  assert (Hkl : k * limit ≤ pending + limit < (k + 1) * limit).
  { pose proof (Z.div_mod (pending + limit) limit ltac:(lia)). pose proof (Z.mod_pos_bound (pending + limit) limit Hl). unfold k. nia. }
  rewrite (proj2 (Z.eqb_neq k 0)) by lia. rewrite Z.quot_div_nonneg by lia. set (r := maxT / k).
  assert (Hr : k * r ≤ maxT < k * r + k).
  { pose proof (Z.div_mod maxT k ltac:(lia)). pose proof (Z.mod_pos_bound maxT k ltac:(lia)). unfold r. lia. }
  assert (0 ≤ r) by (apply Z.div_pos; lia).
  eexists. split; [reflexivity|]. destruct (r <? minT) eqn:E; [apply Z.ltb_lt in E|apply Z.ltb_ge in E].
  - split_and!; [lia|lia| |lia]. intros Hpl. assert (k = 1) by nia. subst k. nia.
  - split_and!; [lia|nia| |]; intros Hlt; [assert (k = 1) by nia; nia|nia].
Qed.

Lemma dialTimeout_bounds_witness : ∃ ret, reducedDialTimeout 3 20 25 60 = Ok ret ∧ 3 ≤ ret ≤ Z.max 3 20 ∧
    (60 < 25 → ret = Z.max 3 20) ∧ (3 < ret → ret * (60 + 25) ≤ 20 * 25 + ret * (25 - 1)).
Proof. apply (dialTimeout_bounds 3 20 25 60); lia. Defined.
