(* ===== verification/MsgWriter.v ===== *)
(** The goroutine that writes to a peer: src/peer-conn-msg-writer.go.

    [run] is a state machine: its lines outside of the critical section are
    steps of their own, and the rest of the client runs between them.  The
    package chansync is the class [BroadcastCond]: what is used of
    [chansync.BroadcastCond].  What [fillWriteBuffer] does to the buffer is
    calls of [write], like those of anyone else. *)
From stdpp Require Import base numbers list strings relations.
From Stdlib Require Import ZArith Lia.
From S2P Require Import Prelude Wire.
Open Scope Z_scope.

(** [Signaled] answers a channel that is closed by the next [Broadcast]. *)
Class BroadcastCond (C Ch : Type) : Type := {
  newCond : C;
  Signaled : C → Ch;
  Broadcast : C → C;
  closedChan : C → Ch → bool;
  issued : C → Ch → Prop;
  issued_Signaled c : issued c (Signaled c);
  issued_Broadcast c ch : issued c ch → issued (Broadcast c) ch;
  closed_Broadcast c ch : issued c ch → closedChan (Broadcast c) ch = true;
  open_Signaled c : closedChan c (Signaled c) = false
}.

(** Generations are a model. *)
#[export, program] Instance generations : BroadcastCond nat nat := {|
  newCond := O;
  Signaled c := c;
  Broadcast := S;
  closedChan c ch := Nat.ltb ch c;
  issued c ch := (ch ≤ c)%nat
|}.
Next Obligation. intros; cbn in *; lia. Qed.
Next Obligation. intros; cbn in *; lia. Qed.
Next Obligation. intros c ch Hc. by apply Nat.ltb_lt, Nat.lt_succ_r. Qed.
Next Obligation. intros. apply Nat.ltb_irrefl. Qed.

Definition keepaliveMsg : Message := concr AKeepalive.

Definition maxWrite : nat := Z.to_nat (2 ^ 16 - 1).

Lemma maxWrite_eq : Z.of_nat maxWrite = 65535.
Proof. by unfold maxWrite; rewrite Z2Nat.id. Qed.
#[global] Opaque maxWrite.

Section Writer.
Context {C Ch : Type} `{!BroadcastCond C Ch} (keepAliveTimeout : Z).

(** Where [run] is: at the top of the loop, in [fillWriteBuffer], after
    [keepAlive()], in the [select], in the loop that writes, returned (after
    an error or because the connection is closed). *)
Inductive phase : Type :=
| AtTop
| Filling
| Keeping (keepAlive : bool)
| Selecting (writeCond : Ch)
| Writing
| Returned (failed : bool).

Record writer : Type := mkWriter {
  wPhase : phase;
  wBuf : list Z             (** [writeBuffer] *);
  wFront : list Z           (** [frontBuf] *);
  wSent : list (list Z)     (** what [w.Write] has been given *);
  wLog : list Message       (** what has been put into the buffer so far *);
  wCond : C;
  wClosed : bool;
  wNow : Z;
  lastWrite : Z;
  wTimer : option Z         (** when the timer fires *);
  wFired : bool             (** a value is in [keepAliveTimer.C] *)
}.

Definition set_phase (v : phase) (s : writer) : writer :=
  mkWriter v (wBuf s) (wFront s) (wSent s) (wLog s) (wCond s) (wClosed s) (wNow s) (lastWrite s) (wTimer s) (wFired s).

Definition newWriter (now : Z) : writer :=
  mkWriter AtTop [] [] [] [] newCond false now now (Some (now + keepAliveTimeout)) false.

(** [writeBuffer.Write(msg.MustMarshalBinary())]. *)
Definition append (m : Message) (s : writer) : writer :=
  mkWriter (wPhase s) (wBuf s ++ (MarshalBinary m).1) (wFront s) (wSent s) (wLog s ++ [m]) (wCond s) (wClosed s)
    (wNow s) (lastWrite s) (wTimer s) (wFired s).

Definition tickle (s : writer) : writer :=
  mkWriter (wPhase s) (wBuf s) (wFront s) (wSent s) (wLog s) (Broadcast (wCond s)) (wClosed s)
    (wNow s) (lastWrite s) (wTimer s) (wFired s).

(** [write]; the result is [!writeBufferFull()]. *)
Definition msgWriter_write (m : Message) (s : writer) : go (bool * writer) :=
  if negb (MarshalBinary m).2 then Panic "MustMarshalBinary"
  else
    let s := tickle (append m s) in
    Ok (negb (2 ^ 15 <=? Z.of_nat (length (wBuf s))), s).

(** The critical section of the loop. *)
Definition decideWrite (keepAlive : bool) (s : writer) : writer :=
  let s := if bool_decide (wBuf s = []) && (keepAliveTimeout <=? wNow s - lastWrite s) && keepAlive
           then append keepaliveMsg s else s in
  if bool_decide (wBuf s = []) then set_phase (Selecting (Signaled (wCond s))) s
  else mkWriter Writing (wFront s) (wBuf s) (wSent s) (wLog s) (wCond s) (wClosed s) (wNow s) (lastWrite s)
         (wTimer s) (wFired s).

(** One [w.Write] that succeeds.  Resetting a timer that has fired may or may
    not take the value out of its channel. *)
Definition writeNext (keepFired : bool) (s : writer) : writer :=
  let next := take maxWrite (wFront s) in
  let front := drop maxWrite (wFront s) in
  let sent := wSent s ++ [next] in
  match front with
  | [] => mkWriter AtTop (wBuf s) [] sent (wLog s) (wCond s) (wClosed s) (wNow s) (wNow s)
            (Some (wNow s + keepAliveTimeout)) (keepFired && wFired s)
  | _ => mkWriter Writing (wBuf s) front sent (wLog s) (wCond s) (wClosed s) (wNow s) (lastWrite s) (wTimer s) (wFired s)
  end.

(** One that writes [n] bytes and fails. *)
Definition writeFails (n : nat) (s : writer) : writer :=
  mkWriter (Returned true) (wBuf s) (drop n (wFront s)) (wSent s ++ [take n (wFront s)]) (wLog s) (wCond s) (wClosed s)
    (wNow s) (lastWrite s) (wTimer s) (wFired s).

(** The steps of [run]. *)
Inductive runStep : writer → writer → Prop :=
| run_return s : wPhase s = AtTop → wClosed s = true → runStep s (set_phase (Returned false) s)
| run_fill s : wPhase s = AtTop → wClosed s = false → runStep s (set_phase Filling s)
| run_keepAlive s b : wPhase s = Filling → runStep s (set_phase (Keeping b) s)
| run_decide s b : wPhase s = Keeping b → runStep s (decideWrite b s)
| run_woken s ch : wPhase s = Selecting ch → closedChan (wCond s) ch = true → runStep s (set_phase AtTop s)
| run_closed s ch : wPhase s = Selecting ch → wClosed s = true → runStep s (set_phase AtTop s)
| run_timer s ch : wPhase s = Selecting ch → wFired s = true →
    runStep s (mkWriter AtTop (wBuf s) (wFront s) (wSent s) (wLog s) (wCond s) (wClosed s) (wNow s) (lastWrite s) (wTimer s) false)
| run_write s b : wPhase s = Writing → runStep s (writeNext b s).

(** The steps of everything else. *)
Inductive otherStep : writer → writer → Prop :=
| other_write s m b s' : msgWriter_write m s = Ok (b, s') → otherStep s s'
| other_tickle s : otherStep s (tickle s)
| other_close s : otherStep s
    (mkWriter (wPhase s) (wBuf s) (wFront s) (wSent s) (wLog s) (wCond s) true (wNow s) (lastWrite s) (wTimer s) (wFired s))
| other_tick s now : wNow s ≤ now → otherStep s
    (mkWriter (wPhase s) (wBuf s) (wFront s) (wSent s) (wLog s) (wCond s) (wClosed s) now (lastWrite s) (wTimer s) (wFired s))
| other_fire s t : wTimer s = Some t → t ≤ wNow s → otherStep s
    (mkWriter (wPhase s) (wBuf s) (wFront s) (wSent s) (wLog s) (wCond s) (wClosed s) (wNow s) (lastWrite s) None true)
| other_writeFails s n : wPhase s = Writing → (n ≤ Nat.min maxWrite (length (wFront s)))%nat → otherStep s (writeFails n s).

Inductive written (now : Z) : writer → Prop :=
| written_start : written now (newWriter now)
| written_run s s' : written now s → runStep s s' → written now s'
| written_other s s' : written now s → otherStep s s' → written now s'.

(** ** Nothing is lost, reordered or forgotten *)
Lemma concat_snoc {A} (l : list (list A)) x : concat (l ++ [x]) = concat l ++ x.
Proof. by rewrite concat_app; cbn; rewrite app_nil_r. Qed.

Definition bytesOf (l : list Message) : list Z := concat (map (λ m, (MarshalBinary m).1) l).

#[local] Arguments bytesOf : simpl never.
#[local] Arguments MarshalBinary : simpl never.

Record writerOk (s : writer) : Prop := {
  wk_flow : concat (wSent s) ++ wFront s ++ wBuf s = bytesOf (wLog s);
  wk_chunks : Forall (λ b, (length b ≤ maxWrite)%nat) (wSent s);
  wk_front : match wPhase s with Writing => wFront s ≠ [] | Returned true => True | _ => wFront s = [] end;
  wk_woken ch : wPhase s = Selecting ch →
    issued (wCond s) ch ∧ (wBuf s ≠ [] → closedChan (wCond s) ch = true);
  wk_log : Forall (λ m, (MarshalBinary m).2 = true) (wLog s)
}.

Lemma bytesOf_snoc l m : bytesOf (l ++ [m]) = bytesOf l ++ (MarshalBinary m).1.
Proof. unfold bytesOf. rewrite map_app. cbn [map]. by rewrite concat_snoc. Qed.

Lemma append_ok m s : (MarshalBinary m).2 = true → match wPhase s with Selecting _ => False | _ => True end →
  writerOk s → writerOk (append m s).
Proof.
  intros Hm Hp [Hf Hc Hfr Hw Hl]. split; cbn.
  - by rewrite bytesOf_snoc, <- Hf, !app_assoc.
  - done.
  - done.
  - intros ch E. by rewrite E in Hp.
  - by apply Forall_app_2; [|apply Forall_singleton].
Qed.

Lemma write_ok m s b s' : msgWriter_write m s = Ok (b, s') → writerOk s → writerOk s'.
Proof.
  unfold msgWriter_write. destruct (MarshalBinary m).2 eqn:Em; [|done]. cbn [negb]. cbv zeta.
  intros [= _ <-] [Hf Hc Hfr Hw Hl]. split; cbn.
  - by rewrite bytesOf_snoc, <- Hf, !app_assoc.
  - done.
  - done.
  - intros ch E. destruct (Hw ch E) as [Hi _]. split; [by apply issued_Broadcast|]. intros _. by apply closed_Broadcast.
  - by apply Forall_app_2; [|apply Forall_singleton].
Qed.

Lemma keepalive_marshals : (MarshalBinary keepaliveMsg).2 = true.
Proof. reflexivity. Qed.

Lemma decide_ok b s : wPhase s = Keeping b → writerOk s → writerOk (decideWrite b s).
Proof.
  intros Hp Hs. unfold decideWrite.
  set (s1 := if bool_decide (wBuf s = []) && _ && _ then append keepaliveMsg s else s).
  assert (Hs1 : writerOk s1 ∧ wPhase s1 = Keeping b).
  { unfold s1. destruct (_ && _); [|done]. split; [|done]. apply append_ok; [done|by rewrite Hp|done]. }
  clearbody s1. destruct Hs1 as [[Hf Hc Hfr Hw Hl] Hp1]. rewrite Hp1 in Hfr. case_bool_decide as Eb.
  - split; cbn; try done. intros ch [= <-]. split; [apply issued_Signaled|by rewrite Eb].
  - split; cbn; try done. rewrite Hfr, app_nil_r. by rewrite Hfr in Hf.
Qed.

Lemma writeNext_ok b s : wPhase s = Writing → writerOk s → writerOk (writeNext b s).
Proof.
  intros Hp [Hf Hc Hfr Hw Hl]. unfold writeNext.
  assert (Hsent : Forall (λ b, (length b ≤ maxWrite)%nat) (wSent s ++ [take maxWrite (wFront s)])).
  { apply Forall_app_2; [done|]. apply Forall_singleton. rewrite length_take. lia. }
  assert (Hflow : concat (wSent s ++ [take maxWrite (wFront s)]) ++ drop maxWrite (wFront s) ++ wBuf s = bytesOf (wLog s)).
  { rewrite concat_snoc, <- Hf, <- app_assoc. f_equal. by rewrite app_assoc, take_drop. }
  destruct (drop maxWrite (wFront s)) as [|z l] eqn:Ed; split; cbn; done.
Qed.

Lemma runStep_ok s s' : runStep s s' → writerOk s → writerOk s'.
Proof.
  intros Hst Hs. pose proof Hs as [Hf Hc Hfr Hw Hl]. destruct Hst as [s Hp _|s Hp _|s b Hp|s b Hp|s ch Hp _|s ch Hp _|s ch Hp _|s b Hp];
    try (rewrite Hp in Hfr; split; cbn; try done; intros; discriminate).
  - by apply decide_ok.
  - by apply writeNext_ok.
Qed.

Lemma otherStep_ok s s' : otherStep s s' → writerOk s → writerOk s'.
Proof.
  intros Hst Hs. pose proof Hs as [Hf Hc Hfr Hw Hl].
  destruct Hst as [s m b s' E|s|s|s now _|s t _ _|s n Hp Hn]; try (by split); [by eapply write_ok| |].
  - split; cbn; try done. intros ch E. destruct (Hw ch E) as [Hi _]. split; [by apply issued_Broadcast|]. intros _. by apply closed_Broadcast.
  - split; cbn; try done.
    + rewrite concat_snoc, <- Hf, <- app_assoc. f_equal. by rewrite app_assoc, take_drop.
    + apply Forall_app_2; [done|]. apply Forall_singleton. rewrite length_take. lia.
Qed.

Lemma written_ok now s : written now s → writerOk s.
Proof.
  induction 1 as [|s s' _ Hs Hst|s s' _ Hs Hst]; [by split|by eapply runStep_ok|by eapply otherStep_ok].
Qed.

Lemma decide_cases b s :
  wFront s = [] →
  ∃ l, wLog (decideWrite b s) = wLog s ++ l ∧ wClosed (decideWrite b s) = wClosed s ∧
  ((∃ ch, wPhase (decideWrite b s) = Selecting ch ∧ wBuf (decideWrite b s) = [] ∧ wFront (decideWrite b s) = []) ∨
   wPhase (decideWrite b s) = Writing).
Proof.
  intros Hf. unfold decideWrite.
  set (s1 := if bool_decide (wBuf s = []) && _ && _ then append keepaliveMsg s else s).
  assert (Hs1 : ∃ l, wLog s1 = wLog s ++ l ∧ wClosed s1 = wClosed s ∧ wFront s1 = []).
  { unfold s1. destruct (_ && _); [by exists [keepaliveMsg]|]. exists []. by rewrite app_nil_r. }
  clearbody s1. destruct Hs1 as (l & El & Ec & Ef). exists l. case_bool_decide as Eb; cbn; split_and!; try done; [left|by right].
  by eexists.
Qed.

(** ** The writer gets everything out *)
Lemma drain_front s :
  wPhase s = Writing →
  ∃ s', rtc runStep s s' ∧ wPhase s' = AtTop ∧ wBuf s' = wBuf s ∧ wFront s' = [] ∧ wLog s' = wLog s ∧ wClosed s' = wClosed s.
Proof.
  remember (length (wFront s)) as k eqn:Hk. revert s Hk. induction k as [k IH] using lt_wf_ind. intros s Hk Hp.
  destruct (drop maxWrite (wFront s)) as [|z l] eqn:Ed.
  - exists (writeNext false s). split; [apply rtc_once; by constructor|]. unfold writeNext. by rewrite Ed.
  - assert (Hlt : (length (drop maxWrite (wFront s)) < k)%nat).
    { pose proof (f_equal length Ed) as El. rewrite length_drop in *. cbn in El. pose proof maxWrite_eq. lia. }
    assert (E1 : wPhase (writeNext false s) = Writing ∧ wFront (writeNext false s) = drop maxWrite (wFront s) ∧
      wBuf (writeNext false s) = wBuf s ∧ wLog (writeNext false s) = wLog s ∧ wClosed (writeNext false s) = wClosed s)
      by (unfold writeNext; by rewrite Ed).
    destruct E1 as (E1 & E2 & E3 & E4 & E5).
    destruct (IH (length (drop maxWrite (wFront s))) Hlt (writeNext false s) ltac:(by rewrite E2) E1) as (s' & Hr & H1 & H2 & H3 & H4 & H5).
    exists s'. split; [eapply rtc_l; [by constructor|done]|]. split_and!; congruence.
Qed.

Lemma drain_top s :
  wPhase s = AtTop → wClosed s = false → wBuf s ≠ [] → wFront s = [] →
  ∃ s', rtc runStep s s' ∧ wPhase s' = AtTop ∧ wBuf s' = [] ∧ wFront s' = [] ∧ wLog s' = wLog s ∧ wClosed s' = false.
Proof.
  intros Hp Hc Hb Hf. set (s1 := set_phase Filling s). set (s2 := set_phase (Keeping false) s1). set (s3 := decideWrite false s2).
  assert (E3 : wPhase s3 = Writing ∧ wBuf s3 = [] ∧ wLog s3 = wLog s ∧ wClosed s3 = wClosed s).
  { unfold s3, decideWrite. rewrite andb_false_r. cbn. rewrite bool_decide_eq_false_2 by done. by rewrite Hf. }
  destruct E3 as (Hp3 & Hb3 & Hl3 & Hc3).
  destruct (drain_front s3 Hp3) as (s' & Hr & H1 & H2 & H3 & H4 & H5). exists s'. split; [|split_and!; congruence].
  eapply rtc_l; [by apply run_fill|]. eapply rtc_l; [by apply (run_keepAlive _ false)|].
  eapply rtc_l; [by apply run_decide|]. done.
Qed.

(** C32. The writer sends exactly what is put into its buffer, in order: at any
    time the bytes written so far, the rest of the front buffer and the write
    buffer are the messages appended so far, one after the other, and no write
    is longer than 65535 bytes.  No wake-up is lost: when it waits although
    there is something to write, its channel is closed.  As long as the
    connection is open and no write has failed, its own steps alone get
    everything out. *)
Theorem writer_sends now s :
  written now s →
  concat (wSent s) ++ wFront s ++ wBuf s = bytesOf (wLog s) ∧
  Forall (λ b, Z.of_nat (length b) ≤ 65535) (wSent s) ∧
  (∀ ch, wPhase s = Selecting ch → wBuf s ≠ [] → closedChan (wCond s) ch = true) ∧
  (wClosed s = false → (∀ b, wPhase s ≠ Returned b) →
   ∃ s', rtc runStep s s' ∧ bytesOf (wLog s) `prefix_of` concat (wSent s')).
Proof.
  intros Hs%written_ok. pose proof Hs as [Hf Hc Hfr Hw Hl]. split_and!; [done| |intros ch Hp; by apply Hw|].
  { eapply Forall_impl; [exact Hc|]. cbv beta. intros b Hb. pose proof maxWrite_eq. lia. }
  intros Hcl Hret.
  assert (Hend : ∀ s', rtc runStep s s' → wBuf s' = [] → wFront s' = [] → bytesOf (wLog s) `prefix_of` bytesOf (wLog s') →
    ∃ s', rtc runStep s s' ∧ bytesOf (wLog s) `prefix_of` concat (wSent s')).
  { intros s' Hr Hb' Hf' Hpre. exists s'. split; [done|]. assert (Hs' : writerOk s') by (clear -Hr Hs BroadcastCond0; induction Hr; eauto using runStep_ok).
    pose proof (wk_flow s' Hs') as E. by rewrite Hb', Hf', !app_nil_r in E; rewrite E. }
  assert (Htop : ∀ s1, rtc runStep s s1 → wPhase s1 = AtTop → wClosed s1 = false → wFront s1 = [] →
    bytesOf (wLog s) `prefix_of` bytesOf (wLog s1) → ∃ s', rtc runStep s s' ∧ bytesOf (wLog s) `prefix_of` concat (wSent s')).
  { intros s1 Hr Hp1 Hc1 Hf1 Hl1. destruct (decide (wBuf s1 = [])) as [Hb|Hb]; [by apply (Hend s1)|].
    destruct (drain_top s1 Hp1 Hc1 Hb Hf1) as (s2 & Hr2 & _ & Hb2 & Hf2 & Hl2 & _).
    apply (Hend s2); [by etrans|done|done|by rewrite Hl2]. }
  assert (Hkeep : ∀ b s1, rtc runStep s s1 → wPhase s1 = Keeping b → wClosed s1 = false → wFront s1 = [] → wLog s1 = wLog s →
    ∃ s', rtc runStep s s' ∧ bytesOf (wLog s) `prefix_of` concat (wSent s')).
  { intros b s1 Hr Hp1 Hc1 Hf1 Hl1. destruct (decide_cases b s1 Hf1) as (l & El & Ec & Hcase).
    assert (Hr2 : rtc runStep s (decideWrite b s1)) by (eapply rtc_r; [done|by apply run_decide]).
    assert (Hpre : bytesOf (wLog s) `prefix_of` bytesOf (wLog (decideWrite b s1))).
    { rewrite El, Hl1. unfold bytesOf. rewrite map_app, concat_app. by apply prefix_app_r. }
    destruct Hcase as [(ch & Hp2 & Hb2 & Hf2)|Hp2]; [by apply (Hend (decideWrite b s1))|].
    destruct (drain_front _ Hp2) as (s3 & Hr3 & H1 & H2 & H3 & H4 & H5).
    apply (Htop s3); [by etrans|done|congruence|done|by rewrite H4]. }
  destruct (wPhase s) as [| |b|ch| |b] eqn:Hp; [by apply (Htop s)| | | | |by destruct (Hret b)].
  - apply (Hkeep false (set_phase (Keeping false) s)); try done. by apply rtc_once, run_keepAlive.
  - by apply (Hkeep b s).
  - destruct (decide (wBuf s = [])) as [Hb|Hb]; [by apply (Hend s)|].
    apply (Htop (set_phase AtTop s)); try done. apply rtc_once, (run_woken _ ch); [done|]. by apply Hw.
  - destruct (drain_front s Hp) as (s3 & Hr3 & H1 & H2 & H3 & H4 & H5). apply (Htop s3); try done; [congruence|by rewrite H4].
Qed.
End Writer.

(** *** A run: a message is queued while the writer waits. *)
Module WriterExample.
Definition msg : Message := concr (ASimple Interested).
Definition waiting : writer (C := nat) (Ch := nat) := set_phase (Selecting O) (newWriter 120 0).
Definition queued : writer (C := nat) (Ch := nat) := tickle (append msg waiting).

Lemma queued_written : written 120 0 queued.
Proof.
  eapply written_other; [|by apply (other_write waiting msg true queued)].
  change waiting with (decideWrite 120 false (set_phase (Keeping false) (set_phase Filling (newWriter 120 0) : writer (C := nat) (Ch := nat)))).
  eapply written_run; [|by apply run_decide]. eapply written_run; [|by apply run_keepAlive].
  eapply written_run; [|by apply run_fill]. apply written_start.
Defined.
End WriterExample.

Lemma writer_sends_witness :
  wBuf WriterExample.queued = [0; 0; 0; 1; 2] ∧
  ∃ s', rtc (runStep 120) WriterExample.queued s' ∧ bytesOf (wLog WriterExample.queued) `prefix_of` concat (wSent s').
Proof.
  split; [vm_compute; reflexivity|].
  destruct (writer_sends 120 0 WriterExample.queued WriterExample.queued_written) as (_ & _ & _ & H).
  apply H; [reflexivity|intros b; discriminate].
Defined.
