(* ===== verification/UdpServer.v ===== *)
(** A tracker over UDP: src/tracker/udp/server/server.go, composed with the
    client of UdpTracker.v and the announce handler of TrackerServer.v.

    The store of connection ids is the class [ConnectionTracker]; krpc's
    compact address lists and what [SendResponse] answers are parameters.
    The text of an address is represented as in Accept.v: [net.Addr.String]
    and [netip.ParseAddrPort] of a [*net.UDPAddr] without a zone. *)
From stdpp Require Import base numbers list gmap.
From Stdlib Require Import ZArith Lia.
From S2P Require Import Prelude Bep40 Peers UdpTracker Trackers TrackerServer Accept.
Open Scope Z_scope.

Inductive AddrFamily : Type := AddrFamilyIpv4 | AddrFamilyIpv6.

(** [RequestSourceAddr]: the address and port of a [*net.UDPAddr]. *)
Definition RequestSourceAddr : Type := list Z * Z.

Definition sourceString (a : RequestSourceAddr) : list Z * Z := (ipStr a.1, a.2).

(** [netip.ParseAddrPort] of that text: an IPv4 address in IPv6 form prints as
    an IPv4 address. *)
Definition ParseAddrPort (s : list Z * Z) : option AddrPort :=
  if Nat.eqb (length s.1) 16 && (0 <=? s.2) && (s.2 <? 2 ^ 16)
  then Some (match To4 s.1 with Some ip => ip | None => s.1 end, s.2) else None.

Class ConnectionTracker (C : Type) : Type := {
  ct_Add : C → list Z * Z → Z → C * option Z;
  ct_Check : C → list Z * Z → Z → result Z bool;
  ct_Check_Add c c' a id : ct_Add c a id = (c', None) → ct_Check c' a id = Good true }.

(** A set of pairs is one. *)
#[export, program] Instance pairTracker : ConnectionTracker (gset (list Z * Z * Z)) := {|
  ct_Add c a id := ({[(a, id)]} ∪ c, None);
  ct_Check c a id := Good (bool_decide ((a, id) ∈ c)) |}.
Next Obligation. intros c c' a id [= <-]. f_equal. apply bool_decide_eq_true. set_solver. Qed.

Inductive serverErr : Type :=
| SHeader
| SUnimplemented (action : Z)
| SRecording (e : Z)
| SChecking (e : Z)
| SIncorrectId (id : Z)
| SRequest
| SSource
| SServe (e : Z)
| SCompact
| SSend (e : Z)
| SShortWrite.

(** [udp.Read] into the structure: one byte more than BEP 15 has. *)
Definition readAnnounceRequest (b : list Z) : option (AnnounceRequest * list Z) :=
  '(r, b) ← readAnnounce b; '(bp, b) ← readN 1 b;
  Some (mkAnnounce (InfoHash r) (PeerId r) (Downloaded r) (Left r) (Uploaded r) (Event r) (IPAddress r) (Key r)
          (NumWant r) (Port r) (negb (bool_decide (bp = [0]))), b).

(** [Addr.As16]. *)
Definition As16 (ip : list Z) : list Z := match To16 ip with Some x => x | None => replicate 16 0 end.

(** The node address of a peer, if it is of the family; behind its guard
    [As4] does not panic. *)
Definition nodeAddr (family : AddrFamily) (p : AddrPort) : option (list Z * Z) :=
  match family with
  | AddrFamilyIpv4 => ip ← To4 p.1; Some (ip, p.2)
  | AddrFamilyIpv6 => Some (As16 p.1, p.2)
  end.

Definition familyMaxCount (family : AddrFamily) : Z := match family with AddrFamilyIpv4 => 150 | AddrFamilyIpv6 => 50 end.

Section Server.
Context {C S : Type} `{!ConnectionTracker C} `{!AnnounceTracker S} (upstreams : nat).
Context (CompactMarshal : AddrFamily → list (list Z * Z) → option (list Z)).

Record Server : Type := mkServer { ConnTracker : C; sAnnounce : AnnounceHandler S }.

(** What the rest of the world does during a request: the random connection
    id, the other steps of the handler, and the result of [SendResponse]. *)
Record requestRun : Type := mkRun {
  rrConnId : Z;
  rrServe : serveRun (S := S);
  rrSend : list Z → result Z Z }.

(** [SendResponse]: the error, and what has been sent. *)
Definition sendResponsePacket (run : requestRun) (b : list Z) : option serverErr :=
  match rrSend run b with
  | Bad e => Some (SSend e)
  | Good n => if n <? Z.of_nat (length b) then Some SShortWrite else None
  end.

Definition marshalResponseHeader (h : ResponseHeader) : list Z := be_encode 4 (rsAction h) ++ be_encode 4 (rsTransactionId h).

(** Each handler returns the server, the packets it gave to [SendResponse] and
    the error. *)
Definition handleConnect (run : requestRun) (me : Server) (source : RequestSourceAddr) (tid : Z) :
    Server * list (list Z) * option serverErr :=
  let connId := rrConnId run in
  let '(c, err) := ct_Add (ConnTracker me) (sourceString source) connId in
  let me := mkServer c (sAnnounce me) in
  match err with
  | Some e => (me, [], Some (SRecording e))
  | None =>
      let buf := marshalResponseHeader (mkRespHdr ActionConnect tid) ++ be_encode 8 connId in
      (me, [buf], sendResponsePacket run buf)
  end.

(** [handleAnnounce] up to the call of [Serve]. *)
Definition announceCall (me : Server) (family : AddrFamily) (source : RequestSourceAddr) (connId : Z) (r : list Z) :
    result serverErr (AnnounceRequest * AddrPort * GetPeersOpts) :=
  match ct_Check (ConnTracker me) (sourceString source) connId with
  | Bad e => Bad (SChecking e)
  | Good false => Bad (SIncorrectId connId)
  | Good true =>
      match readAnnounceRequest r with
      | None => Bad SRequest
      | Some (req, _) =>
          match ParseAddrPort (sourceString source) with
          | None => Bad SSource
          | Some addr => Good (req, addr, mkGetPeersOpts (Some (familyMaxCount family)))
          end
      end
  end.

(** The response to what [Serve] returned. *)
Definition announceResponse (family : AddrFamily) (tid : Z) (res : ServerAnnounceResult) : result serverErr (list Z) :=
  match saErr res with
  | Some e => Bad (SServe e)
  | None =>
      match CompactMarshal family (omap (nodeAddr family) (saPeers res)) with
      | None => Bad SCompact
      | Some b =>
          Good (marshalResponseHeader (mkRespHdr ActionAnnounce tid) ++
                be_encode 4 (default (5 * 60) (saInterval res)) ++
                be_encode 4 (default 0 (saLeechers res)) ++ be_encode 4 (default 0 (saSeeders res)) ++ b)
      end
  end.

Definition handleAnnounce (run : requestRun) (me : Server) (family : AddrFamily) (source : RequestSourceAddr)
    (connId tid : Z) (r : list Z) : Server * list (list Z) * option serverErr :=
  match announceCall me family source connId r with
  | Bad e => (me, [], Some e)
  | Good (req, addr, opts) =>
      let '(h, res) := Serve upstreams (rrServe run) (sAnnounce me) req addr opts in
      let me := mkServer (ConnTracker me) h in
      match announceResponse family tid res with
      | Bad e => (me, [], Some e)
      | Good buf => (me, [buf], sendResponsePacket run buf)
      end
  end.

Definition HandleRequest (run : requestRun) (me : Server) (family : AddrFamily) (source : RequestSourceAddr) (body : list Z) :
    Server * list (list Z) * option serverErr :=
  match readRequestHeader body with
  | None => (me, [], Some SHeader)
  | Some (h, r) =>
      if rqAction h =? ActionConnect then handleConnect run me source (rqTransactionId h)
      else if rqAction h =? ActionAnnounce then handleAnnounce run me family source (rqConnectionId h) (rqTransactionId h) r
      else (me, [], Some (SUnimplemented (rqAction h)))
  end.
End Server.

(** ** Reading what clients write *)
Lemma readAnnounceRequest_marshal r b : announce_ok r → readAnnounceRequest (marshalAnnounce r ++ b) = Some (r, b).
Proof.
  intros Hr. unfold readAnnounceRequest. rewrite readAnnounce_marshal by done. cbn [mbind option_bind].
  change ((if BaselineProvider r then 1 else 0) :: b) with ([if BaselineProvider r then 1 else 0] ++ b).
  rewrite readN_app by done. cbn [mbind option_bind]. destruct r as [? ? ? ? ? ? ? ? ? ? []]; done.
Qed.

Lemma readN_length n b x r : readN n b = Some (x, r) → (length b = n + length r)%nat.
Proof.
  unfold readN. destruct (Nat.ltb_spec (length b) n); [done|]. intros [= <- <-]. rewrite length_drop. lia.
Qed.

Lemma readI32_length b x r : readI32 b = Some (x, r) → (length b = 4 + length r)%nat.
Proof. unfold readI32. destruct (readN 4 b) as [[y s]|] eqn:E; [|done]. intros [= _ <-]. by apply readN_length in E. Qed.

Lemma readRequestHeader_length b h r : readRequestHeader b = Some (h, r) → (length b = 16 + length r)%nat.
Proof.
  unfold readRequestHeader. destruct (readN 8 b) as [[c b1]|] eqn:E1; [|done]. cbn [mbind option_bind].
  destruct (readI32 b1) as [[a b2]|] eqn:E2; [|done]. cbn [mbind option_bind].
  destruct (readI32 b2) as [[t b3]|] eqn:E3; [|done]. cbn [mbind option_bind]. intros [= _ <-].
  apply readN_length in E1. apply readI32_length in E2, E3. lia.
Qed.

Lemma length_responseHeader h : length (marshalResponseHeader h) = 8%nat.
Proof. unfold marshalResponseHeader. by rewrite length_app, !length_be_encode. Qed.

(** A call of the client that waits for the response to an action. *)
Record awaits {A} (d : Dispatcher A) (c : nat) (tid action : Z) : Prop := {
  aw_reader : blocked d = None;
  aw_call : calls d !! c = Some (Waiting tid action);
  aw_transaction : transactions d !! tid = Some c;
  aw_chan : respChan d !! c = None }.

Lemma response_delivered {A} (d : Dispatcher A) c tid action body addr :
  awaits d c tid action → in_i32 tid → in_i32 action →
  ∃ d', drun d [LPacket (marshalResponseHeader (mkRespHdr action tid) ++ body) addr; LReceive c; LEnd c] = Some d' ∧
    calls d' !! c = Some (Ended tid action (Good (body, addr))) ∧ transactions d' !! tid = None.
Proof.
  intros [Hb Hc Ht Hch] Htid Ha. destruct d as [tr ch cs bl]; cbn [transactions respChan calls blocked] in *; subst bl.
  eexists. split; [|split].
  - cbn [drun dstep blocked mbind option_bind]. unfold Dispatch, marshalResponseHeader. rewrite <- app_assoc. cbn [rsAction rsTransactionId].
    rewrite readResponseHeader_be by done. cbn [rsTransactionId transactions]. rewrite Ht. unfold sendResponse. cbn [respChan transactions calls].
    rewrite Hch. cbn [fst calls respChan]. rewrite Hc, lookup_insert_eq. cbn [mbind option_bind blocked calls]. rewrite lookup_insert_eq.
    unfold requestResult. cbn [drHeader rsAction drBody drAddr]. by rewrite Z.eqb_refl.
  - cbn [calls]. by rewrite lookup_insert_eq.
  - cbn. by rewrite lookup_delete_eq.
Qed.

Section Sessions.
Context {C S A : Type} `{!ConnectionTracker C} `{!AnnounceTracker S} (upstreams : nat).
Context (CompactMarshal : AddrFamily → list (list Z * Z) → option (list Z)).
Context (UnmarshalIPv4 UnmarshalIPv6 : list Z → option (list (list Z * Z))) (ipv6 : A → bool).

Definition compactOk (family : AddrFamily) (na : list Z * Z) : Prop :=
  length na.1 = (match family with AddrFamilyIpv4 => 4 | AddrFamilyIpv6 => 16 end)%nat ∧ 0 ≤ na.2 < 2 ^ 16.

Definition isIpv6 (family : AddrFamily) : bool := match family with AddrFamilyIpv4 => false | AddrFamilyIpv6 => true end.

(** Compact address lists can be read back. *)
Hypothesis compact_roundtrip : ∀ family l, Forall (compactOk family) l →
  ∃ b, CompactMarshal family l = Some b ∧ (if isIpv6 family then UnmarshalIPv6 b else UnmarshalIPv4 b) = Some l.

Lemma nodeAddr_ok family p na : nodeAddr family p = Some na → 0 ≤ p.2 < 2 ^ 16 → compactOk family na.
Proof.
  destruct family; cbn.
  - destruct (To4 p.1) as [ip|] eqn:E; [|done]. cbn. intros [= <-] Hp. split; [by apply To4_length in E|done].
  - intros [= <-] Hp. split; [|done]. cbn. unfold As16, To16. destruct (Nat.eqb_spec (length p.1) 4) as [El|]; [cbn; by rewrite El|].
    by destruct (Nat.eqb_spec (length p.1) 16).
Qed.


Lemma connect_granted run (me : Server) family source tid c :
  in_i32 tid → ct_Add (ConnTracker me) (sourceString source) (rrConnId run) = (c, None) →
  (∀ b, rrSend run b = Good (Z.of_nat (length b))) →
  HandleRequest upstreams CompactMarshal run me family source (marshalRequestHeader (mkReqHdr ConnectRequestConnectionId ActionConnect tid)) =
  (mkServer c (sAnnounce me), [marshalResponseHeader (mkRespHdr ActionConnect tid) ++ be_encode 8 (rrConnId run)], None : option serverErr).
Proof.
  intros Ht Hc Hsend. unfold HandleRequest. rewrite <- (app_nil_r (marshalRequestHeader _)).
  rewrite readRequestHeader_be by (done || cbn; lia). cbn [rqAction rqTransactionId]. rewrite Z.eqb_refl.
  unfold handleConnect. rewrite Hc. unfold sendResponsePacket. rewrite Hsend, Z.ltb_irrefl. done.
Qed.

Definition isConnect (body : list Z) : bool :=
  match readRequestHeader body with Some (h, _) => rqAction h =? ActionConnect | None => false end.

(** C34. An announce without a connection id that was given to its source, and
    every request that is neither an announce nor a connect, leaves the server
    as it is and is not answered by any packet.  A connect makes nothing known
    to the tracker: the fresh connection id is recorded for its source and, if
    that succeeds, sent in one packet that is not longer than the request.  So
    the server cannot be used to amplify traffic towards a forged source. *)
Theorem no_amplification run (me me' : Server) family source body sent err :
  HandleRequest upstreams CompactMarshal run me family source body = (me', sent, err) →
  (∀ h r, readRequestHeader body = Some (h, r) → rqAction h = ActionAnnounce →
     ct_Check (ConnTracker me) (sourceString source) (rqConnectionId h) ≠ Good true) →
  if isConnect body then
    ∃ c failed, ct_Add (ConnTracker me) (sourceString source) (rrConnId run) = (c, failed) ∧ me' = mkServer c (sAnnounce me) ∧
      match failed with
      | Some _ => sent = [] ∧ is_Some err
      | None => ∃ p, sent = [p] ∧ (length p ≤ length body)%nat ∧ drop 8 p = be_encode 8 (rrConnId run)
      end
  else me' = me ∧ sent = [] ∧ is_Some err.
Proof.
  unfold HandleRequest, isConnect. destruct (readRequestHeader body) as [[h r]|] eqn:Eh; [|by intros [= <- <- <-] _].
  intros H Hid. specialize (Hid h r eq_refl). apply readRequestHeader_length in Eh. destruct (Z.eqb_spec (rqAction h) ActionConnect) as [Ea|Ea].
  - unfold handleConnect in H. destruct (ct_Add _ _ _) as [c [e|]]; injection H as <- <- <-; eexists c, _; (split_and!; [done..|]); [done|].
    exists (marshalResponseHeader (mkRespHdr ActionConnect (rqTransactionId h)) ++ be_encode 8 (rrConnId run)).
    split; [done|]. split; [|rewrite drop_app_length'; [done|by rewrite length_responseHeader]].
    rewrite length_app, length_responseHeader, length_be_encode. lia.
  - destruct (Z.eqb_spec (rqAction h) ActionAnnounce) as [Eb|Eb]; [|by injection H as <- <- <-].
    specialize (Hid Eb). unfold handleAnnounce, announceCall in H.
    destruct (ct_Check _ _ _) as [[]|e]; [done|..]; by injection H as <- <- <-.
Qed.

(** An announce of 98 bytes, as BEP 15 has it, is refused. *)
Lemma bep15_announce_refused run (me : Server) family source id tid req body :
  0 ≤ id < 2 ^ 64 → in_i32 tid → readAnnounce body = Some (req, []) →
  ct_Check (ConnTracker me) (sourceString source) id = Good true →
  HandleRequest upstreams CompactMarshal run me family source (marshalRequestHeader (mkReqHdr id ActionAnnounce tid) ++ body) = (me, [], Some SRequest).
Proof.
  intros Hid Ht Hb Hc. unfold HandleRequest. rewrite readRequestHeader_be by (done || cbn; lia). cbn.
  unfold handleAnnounce, announceCall. rewrite Hc. unfold readAnnounceRequest. by rewrite Hb.
Qed.

(** C33. A client that connects to this server and announces gets what the
    tracker knows: the server grants it a connection id, takes the announce
    that the client writes with that id for exactly the request the client
    made, the flag of ReliableBT included, and passes it on to the tracker;
    and the response, delivered to the call that waits for it, gives the
    client the interval and the counts of the tracker and its peers of the
    server's address family, all of them in order. *)
Theorem announce_served run0 run1 (me : Server) family source addr a c0 tid0 tid1 req uri s' (d0 d1 : Dispatcher A) k0 k1 :
  ParseAddrPort (sourceString source) = Some addr → ipv6 a = isIpv6 family →
  ct_Add (ConnTracker me) (sourceString source) (rrConnId run0) = (c0, None) → 0 ≤ rrConnId run0 < 2 ^ 64 →
  (∀ b, rrSend run0 b = Good (Z.of_nat (length b))) → (∀ b, rrSend run1 b = Good (Z.of_nat (length b))) →
  in_i32 tid0 → in_i32 tid1 → announce_ok req →
  TrackAnnounce (ahTracker (sAnnounce me)) req (announceAddr req addr) = (s', None) →
  let ret := GetPeers s' (InfoHash req) (mkGetPeersOpts (limitCount (Some (familyMaxCount family)) (NumWant req))) (announceAddr req addr) in
  let hdr := mkAnnHdr (default 300 (saInterval ret)) (default 0 (saLeechers ret)) (default 0 (saSeeders ret)) in
  saErr ret = None → in_i32 (Interval hdr) → in_i32 (Leechers hdr) → in_i32 (Seeders hdr) →
  Forall (λ p, 0 ≤ p.2 < 2 ^ 16) (saPeers ret) →
  awaits d0 k0 tid0 ActionConnect → awaits d1 k1 tid1 ActionAnnounce →
  ∃ p0 me1 d0' respBody,
    HandleRequest upstreams CompactMarshal run0 me family source (marshalRequestHeader (mkReqHdr ConnectRequestConnectionId ActionConnect tid0)) =
      (me1, [p0], None) ∧
    drun d0 [LPacket p0 a; LReceive k0; LEnd k0] = Some d0' ∧
    calls d0' !! k0 = Some (Ended tid0 ActionConnect (Good (respBody, a))) ∧
    ∀ cl tk, connIdFresh cl (tkNow tk) = false → tkConnect tk = Good respBody → tkWrite tk = None → tkDone tk = true →
      ∃ p1 w cl' p2 me2 d1' res,
        requestWriter 0 cl ActionAnnounce (announceBody req uri) tid1 [tk] = (cl', [(p1, w)], Some UCtx) ∧
        HandleRequest upstreams CompactMarshal run1 me1 family source p1 = (me2, [p2], None) ∧
        sAnnounce me2 = (Serve upstreams (rrServe run1) (sAnnounce me) req addr (mkGetPeersOpts (Some (familyMaxCount family)))).1 ∧
        drun d1 [LPacket p2 a; LReceive k1; LEnd k1] = Some d1' ∧
        calls d1' !! k1 = Some (Ended tid1 ActionAnnounce res) ∧
        Announce UnmarshalIPv4 UnmarshalIPv6 ipv6 res = Good (hdr, omap (nodeAddr family) (saPeers ret)).
Proof using All.
  intros Haddr Hv6 Hadd Hid Hs0 Hs1 Ht0 Ht1 Hreq Htrack ret hdr Herr Hi Hl Hse Hports Hw0 Hw1.
  pose proof (connect_granted run0 me family source tid0 c0 Ht0 Hadd Hs0) as Hc.
  destruct (response_delivered d0 k0 tid0 ActionConnect (be_encode 8 (rrConnId run0)) a Hw0 Ht0) as (d0' & Hd0 & Hcall0 & _); [by split|].
  eexists _, _, d0', _. split; [exact Hc|]. split; [exact Hd0|]. split; [exact Hcall0|].
  intros cl tk Hfresh Hconn Hwr Hdone.
  pose proof (serve_discards_upstream upstreams (rrServe run1) (sAnnounce me) req addr (mkGetPeersOpts (Some (familyMaxCount family)))) as Hserve.
  rewrite Htrack in Hserve. change (GetPeers s' _ _ _) with ret in Hserve.
  destruct (compact_roundtrip family (omap (nodeAddr family) (saPeers ret))) as (b & Hb & Hub).
  { apply Forall_forall. intros na (p & Hp & Hna)%list_elem_of_omap. apply (nodeAddr_ok _ _ _ Hna). by apply (proj1 (Forall_forall _ _) Hports). }
  assert (Hresp : announceResponse CompactMarshal family tid1 ret =
     Good (marshalResponseHeader (mkRespHdr ActionAnnounce tid1) ++ be_encode 4 (Interval hdr) ++ be_encode 4 (Leechers hdr) ++ be_encode 4 (Seeders hdr) ++ b)).
  { unfold announceResponse. by rewrite Herr, Hb. }
  destruct (response_delivered d1 k1 tid1 ActionAnnounce (be_encode 4 (Interval hdr) ++ be_encode 4 (Leechers hdr) ++ be_encode 4 (Seeders hdr) ++ b) a Hw1 Ht1)
    as (d1' & Hd1 & Hcall1 & _); [by split|].
  eexists _, _, _, _, (mkServer c0 (Serve upstreams (rrServe run1) (sAnnounce me) req addr (mkGetPeersOpts (Some (familyMaxCount family)))).1), d1', _.
  split; [|split; [|split; [done|split; [exact Hd1|split; [exact Hcall1|]]]]].
  - cbn [requestWriter]. unfold connIdForRequest, connect. cbn. rewrite Hfresh, Hconn. unfold readConnectionResponse.
    rewrite <- (app_nil_r (be_encode 8 _)), readN_be. cbn [mbind option_bind]. rewrite Hwr, Hdone. done.
  - unfold HandleRequest, announceBody. rewrite be_decode_encode by (cbn; lia). rewrite readRequestHeader_be by (done || cbn; lia). cbn [rqAction rqConnectionId rqTransactionId].
    change (ActionAnnounce =? ActionConnect) with false. rewrite Z.eqb_refl. cbv iota.
    unfold handleAnnounce, announceCall. cbn [ConnTracker sAnnounce connId]. rewrite (ct_Check_Add _ _ _ _ Hadd), readAnnounceRequest_marshal, Haddr by done.
    destruct (Serve _ _ _ _ _ _) as [h res]. cbn [snd fst] in *. subst res. rewrite Hresp. unfold sendResponsePacket. by rewrite Hs1, Z.ltb_irrefl.
  - unfold Announce. cbn [mbind result_bind]. unfold readAnnounceResponseHeader. do 3 (rewrite readI32_be by done; cbn [mbind option_bind]).
    rewrite Hv6, Hub. done.
Qed.
End Sessions.

(** ** An example *)
Module UdpServerExample.
Definition marshal (_ : AddrFamily) (l : list (list Z * Z)) : option (list Z) :=
  Some (flat_map (λ na, na.1 ++ be_encode 2 na.2) l).

Fixpoint unmarshal (n fuel : nat) (b : list Z) : option (list (list Z * Z)) :=
  match b, fuel with
  | [], _ => Some []
  | _, O => None
  | _, S fuel => '(ip, b) ← readN n b; '(port, b) ← readN 2 b; r ← unmarshal n fuel b; Some ((ip, be_decode port) :: r)
  end.

Definition unmarshalAll (n : nat) (b : list Z) : option (list (list Z * Z)) := unmarshal n (length b) b.

Lemma unmarshal_marshal family n l : n = (match family with AddrFamilyIpv4 => 4 | AddrFamilyIpv6 => 16 end)%nat →
  Forall (compactOk family) l → ∃ b, marshal family l = Some b ∧ unmarshalAll n b = Some l.
Proof.
  intros Hn Hl. eexists. split; [done|]. unfold unmarshalAll.
  enough (H : ∀ fuel, (length (flat_map (λ na, na.1 ++ be_encode 2 na.2) l) ≤ fuel)%nat →
    unmarshal n fuel (flat_map (λ na, na.1 ++ be_encode 2 na.2) l) = Some l) by (by apply H).
  induction Hl as [|[ip port] l [Hip Hport] _ IH]; intros fuel Hf; [by destruct fuel|]. cbn [fst snd] in *.
  cbn [flat_map fst snd] in *. rewrite !length_app, length_be_encode in Hf.
  destruct fuel as [|fuel]; [lia|]. destruct ((ip ++ be_encode 2 port) ++ _) as [|z r] eqn:Ez.
  { apply (f_equal length) in Ez. rewrite !length_app, length_be_encode in Ez. cbn in Ez. lia. }
  cbn [unmarshal]. rewrite <- Ez, <- app_assoc, readN_app by (etransitivity; [exact Hip|by symmetry]). cbn [mbind option_bind].
  rewrite readN_be. cbn [mbind option_bind]. rewrite IH by lia. cbn. by rewrite be_decode_encode by (cbn; lia).
Qed.

Lemma roundtrip family l : Forall (compactOk family) l →
  ∃ b, marshal family l = Some b ∧ (if isIpv6 family then unmarshalAll 16 b else unmarshalAll 4 b) = Some l.
Proof. intros Hl. destruct family; by apply (unmarshal_marshal _ _ _ eq_refl Hl). Qed.

Definition store : list AddrPort := [([10; 0; 0; 7], 80); (replicate 16 7, 81)].
Definition server : Server (C := gset (list Z * Z * Z)) (S := list AddrPort) := mkServer ∅ (newHandler store).
Definition run (cid : Z) : requestRun (S := list AddrPort) :=
  mkRun cid (mkServeRun id (∅, false) ∅) (λ b, Good (Z.of_nat (length b))).
Definition source : RequestSourceAddr := (v4InV6Prefix ++ [10; 0; 0; 1], 4000).
Definition waitingFor (tid action : Z) : Dispatcher Z := mkDispatcher {[ tid := 0%nat ]} ∅ {[ 0%nat := Waiting tid action ]} None.

End UdpServerExample.

Lemma announce_served_witness :
  ∃ p2 d1' res,
    drun (UdpServerExample.waitingFor (-6) ActionAnnounce) [LPacket p2 1; LReceive 0; LEnd 0] = Some d1' ∧
    calls d1' !! 0%nat = Some (Ended (-6) ActionAnnounce res) ∧
    Announce (UdpServerExample.unmarshalAll 4) (UdpServerExample.unmarshalAll 16) (λ _, false) res =
      Good (mkAnnHdr 300 0 0, [([10; 0; 0; 7], 80); ([10; 0; 0; 1], 6881)]).
Proof.
  destruct (announce_served 0 UdpServerExample.marshal (UdpServerExample.unmarshalAll 4) (UdpServerExample.unmarshalAll 16) (λ _, false)
      UdpServerExample.roundtrip (UdpServerExample.run 77) (UdpServerExample.run 78) UdpServerExample.server AddrFamilyIpv4
      UdpServerExample.source ([10; 0; 0; 1], 4000) 1 {[ (sourceString UdpServerExample.source, 77) ]} 5 (-6) (UdpExample.req true) [47; 97]
      (UdpServerExample.store ++ [([10; 0; 0; 1], 6881)])
      (UdpServerExample.waitingFor 5 ActionConnect) (UdpServerExample.waitingFor (-6) ActionAnnounce) 0 0) as (p0 & me1 & d0' & body & _ & _ & _ & H);
    try (done || (split; cbn; done || lia) || lia).
  - repeat constructor; cbn; lia.
  - destruct (H (mkUdpClient 0 None) (mkTick 0 (Good body) 1 None true)) as (p1 & w & cl' & p2 & me2 & d1' & res & _ & _ & _ & Hd & Hc & Ha); try done.
    exists p2, d1', res. split; [exact Hd|split; [exact Hc|exact Ha]].
Defined.

(** A request with a connection id that was never given out. *)
Definition forged : list Z := marshalRequestHeader (mkReqHdr 3 ActionAnnounce 9) ++ marshalAnnounce (UdpExample.req false).

Lemma no_amplification_witness :
  isConnect forged = false ∧
  (HandleRequest 0 UdpServerExample.marshal (UdpServerExample.run 77) UdpServerExample.server AddrFamilyIpv4 UdpServerExample.source forged).1 =
    (UdpServerExample.server, []).
Proof.
  split; [vm_compute; reflexivity|].
  destruct (HandleRequest 0 UdpServerExample.marshal (UdpServerExample.run 77) UdpServerExample.server AddrFamilyIpv4 UdpServerExample.source forged)
    as [[me' sent] err] eqn:E.
  apply (no_amplification 0 UdpServerExample.marshal (UdpServerExample.run 77) UdpServerExample.server me' AddrFamilyIpv4 UdpServerExample.source forged) in E.
  - destruct E as (-> & -> & _). reflexivity.
  - intros h r Hh Ha. assert (rqConnectionId h = 3) as ->. { revert Hh. vm_compute. by intros [= <- _]. }
    vm_compute. discriminate.
Defined.
