(* ===== verification/HttpServer.v ===== *)
(** A tracker over HTTP: src/tracker/http/server/server.go and the bencoded
    response of src/tracker/http/protocol.go, composed with the client of
    Trackers.v.

    Numbers in a query are read as [strconv.ParseUint] and [ParseInt] read them
    in base 0.  The address of the client ([RequestHost], or the host of
    [RemoteAddr]) and krpc's compact address lists are parameters. *)
From stdpp Require Import base numbers list gmap strings.
From Stdlib Require Import ZArith Lia.
From S2P Require Import Prelude Peers Decimal Bencode BencodeTyped TypedRoundTrip Percent UdpTracker Trackers TrackerServer UdpServer.
Open Scope Z_scope.

(** ** [strconv], base 0 *)
Inductive parsedNum : Type := NOk (n : Z) | NRange (max : Z) | NSyntax.

Definition lower (c : Z) : Z := Z.lor c 32.

(** A digit of any base. *)
Definition digitVal (c : Z) : option Z :=
  if isDigit c then Some (c - 48)
  else if (97 <=? lower c) && (lower c <=? 122) then Some (lower c - 97 + 10)
  else None.

Fixpoint uintLoop (base maxVal : Z) (s : list Z) (n : Z) : parsedNum :=
  match s with
  | [] => NOk n
  | c :: s =>
      if c =? 95 then uintLoop base maxVal s n
      else
        match digitVal c with
        | None => NSyntax
        | Some d =>
            if base <=? d then NSyntax
            else
              let n1 := n * base + d in
              if maxVal <? n1 then NRange maxVal else uintLoop base maxVal s n1
        end
  end.

(** The base of a number by its prefix, and the rest of it. *)
Definition basePrefix (s : list Z) : Z * list Z :=
  match s with
  | 48 :: c :: d :: t =>
      if lower c =? 98 then (2, d :: t) else if lower c =? 111 then (8, d :: t) else if lower c =? 120 then (16, d :: t)
      else (8, c :: d :: t)
  | 48 :: t => (8, t)
  | _ => (10, s)
  end.

(** [underscoreOK]: underscores only between digits, or after the prefix. *)
Inductive saw : Type := SawStart | SawDigit | SawUnder | SawOther.

Fixpoint underscoreLoop (hex : bool) (i : saw) (s : list Z) : bool :=
  match s with
  | [] => match i with SawUnder => false | _ => true end
  | c :: s =>
      if isDigit c || (hex && (97 <=? lower c) && (lower c <=? 102)) then underscoreLoop hex SawDigit s
      else if c =? 95 then match i with SawDigit => underscoreLoop hex SawUnder s | _ => false end
      else match i with SawUnder => false | _ => underscoreLoop hex SawOther s end
  end.

Definition underscoreOK (s : list Z) : bool :=
  let s := match s with c :: t => if (c =? 45) || (c =? 43) then t else s | [] => s end in
  match s with
  | 48 :: c :: t =>
      if (lower c =? 98) || (lower c =? 111) || (lower c =? 120) then underscoreLoop (lower c =? 120) SawDigit t
      else underscoreLoop false SawStart s
  | _ => underscoreLoop false SawStart s
  end.

(** [ParseUint(s, 0, bitSize)]. *)
Definition ParseUint0 (s : list Z) (bitSize : Z) : parsedNum :=
  match s with
  | [] => NSyntax
  | _ =>
      let '(base, t) := basePrefix s in
      match uintLoop base (2 ^ bitSize - 1) t 0 with
      | NOk n => if existsb (Z.eqb 95) t && negb (underscoreOK s) then NSyntax else NOk n
      | r => r
      end
  end.

(** [ParseInt(s, 0, 64)], or nothing for an error. *)
Definition ParseInt0 (s : list Z) : option Z :=
  let '(neg, t) := match s with 43 :: t => (false, t) | 45 :: t => (true, t) | _ => (false, s) end in
  match ParseUint0 t 64 with
  | NOk un =>
      if negb neg && (2 ^ 63 <=? un) then None
      else if neg && (2 ^ 63 <? un) then None
      else Some (if neg then - un else un)
  | _ => None
  end.

(** ** [url.ParseQuery] *)
Definition QueryUnescape (s : list Z) : option (list Z) := unescape (map (λ c, if c =? 43 then 32 else c) s).

Fixpoint cut (sep : Z) (s : list Z) : list Z * list Z :=
  match s with
  | [] => ([], [])
  | c :: s => if c =? sep then ([], s) else let '(a, b) := cut sep s in (c :: a, b)
  end.

Definition queryPair (s : list Z) : option (list Z * list Z) :=
  if existsb (Z.eqb 59) s then None
  else
    match s with
    | [] => None
    | _ => let '(k, v) := cut 61 s in k ← QueryUnescape k; v ← QueryUnescape v; Some (k, v)
    end.

Definition ParseQuery (s : list Z) : list (list Z * list Z) := omap queryPair (splitOn 38 s).

(** [Values.Get]. *)
Definition vs_Get (vs : list (list Z * list Z)) (key : string) : list Z :=
  match filter (λ e, e.1 = goBytes key) vs with e :: _ => e.2 | [] => [] end.

(** ** protocol.go: the response as a bencoded struct *)
Definition fieldOf (name key : string) : fld := mkFld (bs name) (bs key).

(** [Peers], [krpc.CompactIPv6NodeAddrs]: types that encode themselves. *)
Definition tHttpResponse : rty :=
  TStruct [(fieldOf "FailureReason" "failure reason", TString); (fieldOf "Interval" "interval", TInt W32);
           (fieldOf "TrackerId" "tracker id", TString); (fieldOf "Complete" "complete", TInt W32);
           (fieldOf "Incomplete" "incomplete", TInt W32); (fieldOf "Peers" "peers", TRaw);
           (fieldOf "Peers6" "peers6", TRaw); (fieldOf "BaselineProvider" "baselineProvider", TRaw)].

Section Protocol.
Context (isEmptyValue : rval → bool) (ParseIP : list Z → list Z).
Context (MarshalIPv4 MarshalIPv6 : list (list Z * Z) → list Z).
Context (UnmarshalIPv4 UnmarshalIPv6 : list Z → option (list (list Z * Z))).

Definition httpResponseVal (r : HttpResponse) : rval :=
  VStruct [VStr (FailureReason r); VInt (hrInterval r); VStr []; VInt (Complete r); VInt (Incomplete r);
           VRaw (Peers_MarshalBencode MarshalIPv4 (hrPeers r)); VRaw (Marshal (IStr (MarshalIPv6 (Peers6 r))));
           VRaw (Peers_MarshalBencode MarshalIPv4 (hrBaselineProvider r))].

Definition encodeHttpResponse (r : HttpResponse) : go (option (list Z)) := MarshalTyped isEmptyValue tHttpResponse (httpResponseVal r).

(** A field that decodes itself; nothing is called for an absent one. *)
Definition decodePeers (b : list Z) : go (option HttpPeers) :=
  if bool_decide (b = []) then Ok (Some (mkHttpPeers [] false))
  else
    r ← Peers_UnmarshalBencode ParseIP UnmarshalIPv4 (mkHttpPeers [] false) b;
    Ok (match r with Good p => Some p | Bad _ => None end).

Definition decodePeers6 (b : list Z) : option (list (list Z * Z)) :=
  if bool_decide (b = []) then Some []
  else match Unmarshal b with Good (IStr s) => UnmarshalIPv6 s | _ => None end.

(** Trailing bytes are accepted; [None] is an error. *)
Definition decodeHttpResponse (b : list Z) : go (option HttpResponse) :=
  match UnmarshalTyped tHttpResponse (zero tHttpResponse) b with
  | UGood (VStruct [VStr f; VInt i; VStr _; VInt c; VInt n; VRaw p; VRaw p6; VRaw bp])
  | UTrailing (VStruct [VStr f; VInt i; VStr _; VInt c; VInt n; VRaw p; VRaw p6; VRaw bp]) _ =>
      p ← decodePeers p;
      bp ← decodePeers bp;
      Ok (p ← p; p6 ← decodePeers6 p6; bp ← bp; Some (mkHttpResponse f i c n p p6 bp))
  | _ => Ok None
  end.
End Protocol.

(** ** server.go *)
Section Server.
Context {S : Type} `{!AnnounceTracker S} (upstreams : nat).

Definition is4 (p : AddrPort) : bool := Nat.eqb (length p.1) 4.
Definition is6 (p : AddrPort) : bool := Nat.eqb (length p.1) 16.

Definition serverResponse (res : ServerAnnounceResult) : HttpResponse :=
  mkHttpResponse [] (default (5 * 60) (saInterval res)) (default 0 (saSeeders res)) (default 0 (saLeechers res))
    (mkHttpPeers (map FromNodeAddr (filter (λ p, is4 p = true) (saPeers res))) true)
    (filter (λ p, is6 p = true) (saPeers res)) (mkHttpPeers [] false).

(** [unmarshalQueryKeyToArray]. *)
Definition unmarshalQueryKeyToArray (key : string) (query : list (list Z * list Z)) : option (list Z) :=
  let str := vs_Get query key in
  if Nat.eqb (length str) 20 then Some str else None.

Inductive httpError : Type :=
| BadRequest
| BadGateway
| InternalServerError.

(** The request that is passed on, with the address it comes from. *)
Definition announceOf (rawQuery : list Z) (host : option (list Z)) : result httpError (AnnounceRequest * AddrPort) :=
  let vs := ParseQuery rawQuery in
  match AnnounceEvent_UnmarshalText (vs_Get vs "event") with
  | None => Bad BadRequest
  | Some event =>
      match unmarshalQueryKeyToArray "info_hash" vs, unmarshalQueryKeyToArray "peer_id" vs, host with
      | Some infoHash, Some peerId, Some addr =>
          let port := match ParseUint0 (vs_Get vs "port") 16 with NOk n => n | NRange n => n | NSyntax => 0 end in
          let left := match ParseInt0 (vs_Get vs "left") with Some n => n | None => -1 end in
          Good (mkAnnounce infoHash peerId 0 left 0 event 0 0 (-1) (u16 port) false, (addr, u16 port))
      | Some _, Some _, None => Bad BadGateway
      | _, _, _ => Bad BadRequest
      end
  end.

(** [ServeHTTP]: an error status, or the response. *)
Definition ServeHTTP (run : serveRun) (me : AnnounceHandler S) (rawQuery : list Z) (host : option (list Z)) :
    AnnounceHandler S * result httpError HttpResponse :=
  match announceOf rawQuery host with
  | Bad e => (me, Bad e)
  | Good (req, addrPort) =>
      let '(me, res) := Serve upstreams run me req addrPort (mkGetPeersOpts (Some 200)) in
      (me, match saErr res with Some _ => Bad InternalServerError | None => Good (serverResponse res) end)
  end.
End Server.

Example base0_numbers :
  ParseUint0 (goBytes "0x1F") 16 = NOk 31 ∧ ParseUint0 (goBytes "010") 16 = NOk 8 ∧ ParseUint0 (goBytes "70000") 16 = NRange 65535 ∧
  ParseUint0 (goBytes "1_000") 16 = NOk 1000 ∧ ParseUint0 (goBytes "1__0") 16 = NSyntax ∧ ParseUint0 (goBytes "0") 16 = NOk 0 ∧
  ParseInt0 (goBytes "-0b11") = Some (-3) ∧ ParseInt0 (goBytes "9223372036854775808") = None.
Proof. vm_compute. done. Qed.

(** ** Numbers of the client *)
Lemma digitVal_dec c : isDigit c = true → digitVal c = Some (c - 48).
Proof. intros H. unfold digitVal. by rewrite H. Qed.

Lemma foldl_digits_ge s : ∀ n, 0 ≤ n → forallb isDigit s = true → n ≤ foldl (λ a c, a * 10 + (c - 48)) n s.
Proof.
  induction s as [|c s IH]; intros n Hn; cbn [foldl forallb]; [lia|]. intros [Hc%isDigit_range Hs]%andb_true_iff.
  specialize (IH (n * 10 + (c - 48)) ltac:(lia) Hs). lia.
Qed.

Lemma uintLoop_dec maxVal s : ∀ n, 0 ≤ n → forallb isDigit s = true → foldl (λ a c, a * 10 + (c - 48)) n s ≤ maxVal →
  uintLoop 10 maxVal s n = NOk (foldl (λ a c, a * 10 + (c - 48)) n s).
Proof.
  induction s as [|c s IH]; intros n Hn; cbn [foldl forallb uintLoop]; [done|]. intros [Hc Hs]%andb_true_iff Hmax.
  rewrite digitVal_dec by done. apply isDigit_range in Hc. rewrite (proj2 (Z.eqb_neq _ _)), (proj2 (Z.leb_gt _ _)) by lia.
  pose proof (foldl_digits_ge s (n * 10 + (c - 48)) ltac:(lia) Hs) as Hge. cbv zeta. rewrite (proj2 (Z.ltb_ge _ _)) by lia.
  apply IH; [lia|done|done].
Qed.

Lemma ParseUint0_AppendUint n bitSize : 0 ≤ n < 2 ^ bitSize → ParseUint0 (AppendUint n) bitSize = NOk n.
Proof.
  intros [H0 Hn]. pose proof (AppendUint_digits n H0) as Hd. pose proof (AppendUint_value n H0) as Hv.
  destruct (AppendUint_head n H0) as (c & t & E & Hc & Hz). unfold ParseUint0. rewrite E in *.
  destruct (Z.eqb_spec c 48) as [->|Hne].
  - assert (n = 0) as -> by auto. rewrite AppendUint_small in E by lia. injection E as <-. done.
  - assert (Hb : basePrefix (c :: t) = (10, c :: t)).
    { unfold basePrefix. destruct c as [|p|p]; try done. repeat (destruct p as [p|p|]; try done). }
    rewrite Hb, uintLoop_dec; [|lia|done|unfold digitsValue in Hv; rewrite Hv; lia].
    unfold digitsValue in Hv. rewrite Hv.
    replace (existsb (Z.eqb 95) (c :: t)) with false; [done|]. symmetry. apply not_true_iff_false. intros (x & Hx & Ex)%existsb_exists.
    apply Z.eqb_eq in Ex as <-. rewrite forallb_forall in Hd. specialize (Hd 95 Hx). by vm_compute in Hd.
Qed.

Lemma ParseInt0_AppendInt n : 0 ≤ n < 2 ^ 63 → ParseInt0 (AppendInt n) = Some n.
Proof.
  intros Hn. unfold AppendInt. rewrite (proj2 (Z.ltb_ge _ _)) by lia. unfold ParseInt0.
  destruct (AppendUint_head n) as (c & t & E & Hc & _); [lia|]. pose proof (ParseUint0_AppendUint n 64 ltac:(lia)) as Hp. rewrite E in *.
  assert (Hs : (match c :: t with 43 :: t => (false, t) | 45 :: t => (true, t) | _ => (false, c :: t) end) = (false, c :: t)).
  { destruct c as [|p|p]; try done. repeat (destruct p as [p|p|]; try done; try lia). }
  rewrite Hs, Hp. cbn [negb andb]. rewrite (proj2 (Z.leb_gt _ _)) by lia. done.
Qed.

(** ** The query of the client *)
Lemma qEnc_clean s : bytes_ok s → unescape (qEnc s) = Some s ∧ Forall (λ x, x ∉ [38; 61; 43; 59]) (qEnc s).
Proof. apply enc_roundtrip. vm_compute. reflexivity. Qed.

Lemma QueryUnescape_qEnc s : bytes_ok s → QueryUnescape (qEnc s) = Some s.
Proof.
  intros [Hu Hf]%qEnc_clean. unfold QueryUnescape. replace (map _ (qEnc s)) with (qEnc s); [done|].
  symmetry. rewrite <- (map_id (qEnc s)) at 2. apply map_ext_Forall, (Forall_impl _ _ _ Hf).
  intros x Hx. rewrite (proj2 (Z.eqb_neq x 43)); [done|]. intros ->. set_solver.
Qed.

Lemma cut_app sep a b : Forall (λ x, x ≠ sep) a → cut sep (a ++ sep :: b) = (a, b).
Proof.
  induction 1 as [|c a Hc _ IH]; cbn; [by rewrite Z.eqb_refl|]. by rewrite (proj2 (Z.eqb_neq c sep)), IH by done.
Qed.

Lemma qEnc_no s y : bytes_ok s → y ∈ [38; 61; 43; 59] → Forall (λ x, x ≠ y) (qEnc s).
Proof. intros [_ H]%qEnc_clean Hy. apply (Forall_impl _ _ _ H). by intros x Hx ->. Qed.

Lemma queryPair_parts k v k' v' :
  Forall (λ x, x ≠ 59) (k ++ 61 :: v) → Forall (λ x, x ≠ 61) k → QueryUnescape k = Some k' → QueryUnescape v = Some v' →
  queryPair (k ++ 61 :: v) = Some (k', v').
Proof.
  intros Hall Hk Ek Ev. unfold queryPair.
  replace (existsb (Z.eqb 59) (k ++ 61 :: v)) with false.
  2: { symmetry. apply not_true_iff_false. intros (x & Hx & Ex)%existsb_exists. apply Z.eqb_eq in Ex as <-. apply list_elem_of_In in Hx.
       by apply (proj1 (Forall_forall _ _) Hall 59 Hx). }
  rewrite cut_app, Ek, Ev by done. by destruct k.
Qed.

Lemma queryPair_enc k v : bytes_ok k → bytes_ok v → queryPair (qEnc k ++ 61 :: qEnc v) = Some (k, v).
Proof.
  intros Hk Hv. apply queryPair_parts; [|apply qEnc_no; [done|set_solver]|by apply QueryUnescape_qEnc..].
  apply Forall_app. split; [|constructor; [done|]]; (apply qEnc_no; [done|set_solver]).
Qed.

Lemma ParseQuery_encode ps : ps ≠ [] → Forall pair_ok ps →
  ParseQuery (ReplaceAll (strings_Join (map encodePair ps) 38) 43 [37; 50; 48]) = ps.
Proof.
  intros Hne Hps. rewrite ReplaceAll_Join, map_map by done. unfold ParseQuery.
  assert (Hw : Forall (λ e, ReplaceAll (encodePair e) 43 [37; 50; 48] = qEnc e.1 ++ 61 :: qEnc e.2 ∧
     Forall (λ x, x ≠ 38) (qEnc e.1 ++ 61 :: qEnc e.2) ∧ queryPair (qEnc e.1 ++ 61 :: qEnc e.2) = Some e) ps).
  { apply (Forall_impl _ _ _ Hps). intros [k v] [Hk Hv]. cbn [fst snd] in *. split_and!.
    - unfold encodePair. cbn [fst snd]. by rewrite ReplaceAll_app, ReplaceAll_cons, !ReplaceAll_escape by done.
    - apply Forall_app. split; [|constructor; [done|]]; (apply qEnc_no; [done|set_solver]).
    - by apply queryPair_enc. }
  rewrite splitOn_Join; [|by destruct ps|].
  - clear Hne Hps. induction Hw as [|e ps (E & _ & Hq) _ IH]; [done|]. cbn [map]. rewrite E. change (omap queryPair (?x :: ?l)) with
      (match queryPair x with Some y => y :: omap queryPair l | None => omap queryPair l end). rewrite Hq. f_equal. exact IH.
  - apply Forall_map, (Forall_impl _ _ _ Hw). by intros e (Hr & Hf & _); cbn; rewrite Hr.
Qed.

Lemma vs_Get_perm pre ps ps' key v : ps ≡ₚ ps' →
  filter (λ e, e.1 = goBytes key) pre = [] → filter (λ e, e.1 = goBytes key) ps' = v →
  (length v ≤ 1)%nat → vs_Get (pre ++ ps) key = default [] (snd <$> head v).
Proof.
  intros Hp Hpre <- Hl. unfold vs_Get. rewrite filter_app, Hpre. cbn [app].
  assert (E : filter (λ e, e.1 = goBytes key) ps ≡ₚ filter (λ e, e.1 = goBytes key) ps') by (by rewrite Hp).
  destruct (filter _ ps') as [|e [|]]; [|..|cbn in Hl; lia].
  - apply Permutation_nil_r in E. by rewrite E.
  - apply Permutation_singleton_r in E. by rewrite E.
Qed.

(** Parameters of the tracker's own URL do not clash with what the server
    reads. *)
Definition serverKeys : list string := ["event"; "info_hash"; "peer_id"; "port"; "left"]%string.

Definition noClash (RawQuery : list Z) : Prop :=
  Forall (λ key, filter (λ e, e.1 = goBytes key) (ParseQuery RawQuery) = []) serverKeys.

Section Announcing.
Context (IP_String : list Z → list Z) (HIP : ∀ ip, bytes_ok (IP_String ip)).

Lemma ParseQuery_announce RawQuery ar opts : bytes_ok (InfoHash ar) → bytes_ok (PeerId ar) →
  ∃ ps, ps ≡ₚ announceParams IP_String ar opts ∧
    ParseQuery (setAnnounceParams IP_String RawQuery ar opts) = ParseQuery RawQuery ++ ps.
Proof using HIP.
  intros Hih Hid. pose proof (announceParams_ok IP_String HIP ar opts Hih Hid) as Hok.
  pose proof (Values_Encode_pairs IP_String ar opts) as Hp. exists (pairs (sortKeys (announceValues IP_String ar opts))). split; [done|].
  assert (Hne : pairs (sortKeys (announceValues IP_String ar opts)) ≠ []).
  { intros He. rewrite He in Hp. apply Permutation_length in Hp. cbn in Hp. done. }
  assert (Hq := ParseQuery_encode _ Hne ltac:(by rewrite Hp)).
  unfold setAnnounceParams. case_bool_decide as Hr; [subst RawQuery; exact Hq|].
  unfold ParseQuery in *. unfold Values_Encode. by rewrite splitOn_cat, omap_app, Hq.
Qed.

(** What the server finds under a key. *)
Lemma announce_Get RawQuery ar opts key v : bytes_ok (InfoHash ar) → bytes_ok (PeerId ar) → noClash RawQuery → key ∈ serverKeys →
  filter (λ e, e.1 = goBytes key) (announceParams IP_String ar opts) = v → (length v ≤ 1)%nat →
  vs_Get (ParseQuery (setAnnounceParams IP_String RawQuery ar opts)) key = default [] (snd <$> head v).
Proof using HIP.
  intros Hih Hid Hn Hk Hv Hl. destruct (ParseQuery_announce RawQuery ar opts Hih Hid) as (ps & Hp & ->).
  rewrite (vs_Get_perm _ _ _ key v Hp); [done|by apply (proj1 (Forall_forall _ _) Hn)|done|done].
Qed.

Lemma findEvent_String e : 0 ≤ e ≤ 3 → AnnounceEvent_UnmarshalText (AnnounceEvent_String e) = Some e.
Proof.
  intros He. assert (e = 0 ∨ e = 1 ∨ e = 2 ∨ e = 3) as [-> | [-> | [-> | ->]]] by lia; by vm_compute.
Qed.

(** The server takes the announce of a client for what it is. *)
Lemma announceOf_client RawQuery ar opts host :
  announce_ok ar → bytes_ok (InfoHash ar) → bytes_ok (PeerId ar) → 0 ≤ Event ar ≤ 3 → noClash RawQuery →
  announceOf (setAnnounceParams IP_String RawQuery ar opts) (Some host) =
  Good (mkAnnounce (InfoHash ar) (PeerId ar) 0 (leftParam (Left ar)) 0 (Event ar) 0 0 (-1) (Port ar) false, (host, Port ar)).
Proof using HIP.
  intros Hok Hih Hid Hev Hn. unfold announceOf, unmarshalQueryKeyToArray.
  assert (Hget : ∀ key v, key ∈ serverKeys → filter (λ e, e.1 = goBytes key) (announceParams IP_String ar opts) = [(goBytes key, v)] →
    vs_Get (ParseQuery (setAnnounceParams IP_String RawQuery ar opts)) key = v).
  { intros key v Hk Hf. by rewrite (announce_Get RawQuery ar opts key _ Hih Hid Hn Hk Hf) by (cbn; lia). }
  assert (Hparams : filter (λ e, e.1 = goBytes "info_hash") (announceParams IP_String ar opts) = [(goBytes "info_hash", InfoHash ar)] ∧
    filter (λ e, e.1 = goBytes "peer_id") (announceParams IP_String ar opts) = [(goBytes "peer_id", PeerId ar)] ∧
    filter (λ e, e.1 = goBytes "port") (announceParams IP_String ar opts) = [(goBytes "port", AppendInt (Port ar))] ∧
    filter (λ e, e.1 = goBytes "left") (announceParams IP_String ar opts) = [(goBytes "left", AppendInt (leftParam (Left ar)))] ∧
    filter (λ e, e.1 = goBytes "event") (announceParams IP_String ar opts) =
      if Event ar =? EventNone then [] else [(goBytes "event", AnnounceEvent_String (Event ar))]).
  { unfold announceParams, ipParams.
    destruct (Event ar =? EventNone), (BaselineProvider ar), (bool_decide (ClientIp4 opts = [])), (bool_decide (ClientIp6 opts = []));
      split_and!; reflexivity. }
  destruct Hparams as (H1 & H2 & H3 & H4 & H5).
  assert (Hin : Forall (λ key, key ∈ serverKeys) serverKeys) by (apply Forall_forall; done).
  unfold serverKeys in Hin at 2. rewrite !Forall_cons in Hin. destruct Hin as (Ke & Ki & Kp & Ko & Kl & _).
  rewrite (Hget _ _ Ki H1), (Hget _ _ Kp H2), (Hget _ _ Ko H3), (Hget _ _ Kl H4).
  assert (Hevent : AnnounceEvent_UnmarshalText (vs_Get (ParseQuery (setAnnounceParams IP_String RawQuery ar opts)) "event") = Some (Event ar)).
  { rewrite (announce_Get RawQuery ar opts "event" _ Hih Hid Hn Ke H5) by (destruct (_ =? _); cbn; lia).
    destruct (Z.eqb_spec (Event ar) EventNone) as [E|E]; cbn [head fmap option_fmap option_map default snd]; [rewrite E; by vm_compute|].
    by apply findEvent_String. }
  destruct Hok. rewrite Hevent, ao_InfoHash, ao_PeerId. cbn [Nat.eqb].
  assert (Hleft : 0 ≤ leftParam (Left ar) < 2 ^ 63) by (unfold leftParam; destruct (Z.ltb_spec (Left ar) 0); lia).
  assert (Hport : ParseUint0 (AppendInt (Port ar)) 16 = NOk (Port ar)).
  { unfold AppendInt. rewrite (proj2 (Z.ltb_ge _ _)) by lia. by apply ParseUint0_AppendUint. }
  rewrite Hport, ParseInt0_AppendInt by done. cbn [Nat.eqb]. unfold u16. rewrite Z.mod_small by lia. done.
Qed.
End Announcing.

(** ** The response *)
Section Responses.
Context (isEmptyValue : rval → bool) (ParseIP : list Z → list Z).
Context (MarshalIPv4 MarshalIPv6 : list (list Z * Z) → list Z).
Context (UnmarshalIPv4 UnmarshalIPv6 : list Z → option (list (list Z * Z))).

Definition addrsOk (n : nat) (l : list (list Z * Z)) : Prop := Forall (λ na, length na.1 = n ∧ 0 ≤ na.2 < 2 ^ 16) l.

(** Compact address lists can be read back. *)
Hypothesis compact4 : ∀ l, addrsOk 4 l → UnmarshalIPv4 (MarshalIPv4 l) = Some l.
Hypothesis compact6 : ∀ l, addrsOk 16 l → UnmarshalIPv6 (MarshalIPv6 l) = Some l.

Lemma reflect_raw s : s ≠ [] → reflectTyped isEmptyValue TRaw (VRaw s) = Ok (Some s).
Proof. by destruct s. Qed.

Lemma Marshal_ne v : Marshal v ≠ [].
Proof. apply reflectValue_ne. Qed.

Lemma response_marshals f i t c n p p6 bp : p ≠ [] → p6 ≠ [] → bp ≠ [] →
  ∃ b, MarshalTyped isEmptyValue tHttpResponse (VStruct [VStr f; VInt i; VStr t; VInt c; VInt n; VRaw p; VRaw p6; VRaw bp]) = Ok (Some b).
Proof.
  intros Hp Hp6 Hbp. unfold MarshalTyped, tHttpResponse. rewrite reflect_struct.
  match goal with |- context [makeEncodeFields ?fs] => let e := eval vm_compute in (makeEncodeFields fs) in change (makeEncodeFields fs) with e end.
  cbn [map fst snd andb zip_with lookup list_lookup default from_option id reflectTyped].
  fold (reflectTyped isEmptyValue TRaw (VRaw p)) (reflectTyped isEmptyValue TRaw (VRaw p6)) (reflectTyped isEmptyValue TRaw (VRaw bp)).
  rewrite !reflect_raw by done. eexists. reflexivity.
Qed.

Lemma decodePeers_compact l : addrsOk 4 l → strOk (MarshalIPv4 l) →
  decodePeers ParseIP UnmarshalIPv4 (Peers_MarshalBencode MarshalIPv4 (mkHttpPeers (map FromNodeAddr l) true)) =
  Ok (Some (mkHttpPeers (map FromNodeAddr l) true)).
Proof using compact4.
  intros Hl Hs. unfold decodePeers, Peers_MarshalBencode. cbn [Compact PeersList].
  rewrite map_map. rewrite (map_ext_Forall _ id); [|apply Forall_true; by intros []]. rewrite map_id.
  rewrite bool_decide_false by apply Marshal_ne. unfold Peers_UnmarshalBencode.
  rewrite Unmarshal_complete by (constructor; exact Hs). by rewrite compact4.
Qed.

Lemma decodePeers_none : decodePeers ParseIP UnmarshalIPv4 (Peers_MarshalBencode MarshalIPv4 (mkHttpPeers [] false)) = Ok (Some (mkHttpPeers [] false)).
Proof. by vm_compute. Qed.

Lemma decodePeers6_compact l : addrsOk 16 l → strOk (MarshalIPv6 l) → decodePeers6 UnmarshalIPv6 (Marshal (IStr (MarshalIPv6 l))) = Some l.
Proof using compact6.
  intros Hl Hs. unfold decodePeers6. rewrite bool_decide_false by apply Marshal_ne.
  rewrite Unmarshal_complete by (constructor; exact Hs). by apply compact6.
Qed.

Lemma response_wf i c n p p6 : in_i32 i → in_i32 c → in_i32 n → (∃ x, ival_ok 0 x ∧ p = Marshal x) → (∃ x, ival_ok 0 x ∧ p6 = Marshal x) →
  wfv tHttpResponse (VStruct [VStr []; VInt i; VStr []; VInt c; VInt n; VRaw p; VRaw p6; VRaw (Marshal (IList []))]).
Proof.
  assert (H32 : ∀ z, in_i32 z → inRangeInt W32 z = true).
  { intros z Hz. unfold inRangeInt, in_i32 in *. cbn -[Z.pow]. apply andb_true_iff. rewrite Z.leb_le, Z.ltb_lt. lia. }
  assert (H0 : strOk []) by (unfold strOk, maxLen, DefaultDecodeMaxStrLen; cbn; lia).
  intros Hi Hc Hn Hp Hp6. cbn. split_and!; auto. right. exists (IList []). split; [by constructor|done].
Qed.

(** What the server writes, the client reads. *)
Lemma response_roundtrip res :
  in_i32 (default 300 (saInterval res)) → in_i32 (default 0 (saSeeders res)) → in_i32 (default 0 (saLeechers res)) →
  Forall (λ p, 0 ≤ p.2 < 2 ^ 16) (saPeers res) →
  strOk (MarshalIPv4 (filter (λ p, is4 p = true) (saPeers res))) → strOk (MarshalIPv6 (filter (λ p, is6 p = true) (saPeers res))) →
  ∃ b, encodeHttpResponse isEmptyValue MarshalIPv4 MarshalIPv6 (serverResponse res) = Ok (Some b) ∧
    decodeHttpResponse ParseIP UnmarshalIPv4 UnmarshalIPv6 b = Ok (Some (serverResponse res)).
Proof using All.
  intros Hi Hs Hl Hports Hs4 Hs6.
  assert (Hok : ∀ n, addrsOk n (filter (λ p : AddrPort, Nat.eqb (length p.1) n = true) (saPeers res))).
  { intros n. apply Forall_forall. intros p [Hp%Nat.eqb_eq Hin]%list_elem_of_filter. split; [done|]. by apply (proj1 (Forall_forall _ _) Hports). }
  pose proof (Hok 4%nat) as H4. pose proof (Hok 16%nat) as H6.
  set (val := httpResponseVal MarshalIPv4 MarshalIPv6 (serverResponse res)).
  destruct (response_marshals [] (default (5 * 60) (saInterval res)) [] (default 0 (saSeeders res)) (default 0 (saLeechers res))
    (Peers_MarshalBencode MarshalIPv4 (hrPeers (serverResponse res))) (Marshal (IStr (MarshalIPv6 (Peers6 (serverResponse res)))))
    (Marshal (IList []))) as (b & Hb); [apply Marshal_ne..|].
  exists b. split; [exact Hb|]. unfold decodeHttpResponse.
  destruct (all_good isEmptyValue tHttpResponse val b) as [_ Hr]; [by vm_compute| |exact Hb|].
  { apply response_wf; try done.
    - eexists. split; [|reflexivity]. constructor. cbn [PeersList hrPeers serverResponse]. rewrite map_map.
      rewrite (map_ext_Forall _ id); [|apply Forall_true; by intros []]. by rewrite map_id.
    - eexists. split; [|reflexivity]. by constructor. }
  rewrite (UnmarshalTyped_reads _ _ _ Hr). unfold val, httpResponseVal, tHttpResponse. rewrite canonT_struct.
  match goal with |- context [zip_with ?f ?a ?b] => change (zip_with f a b) with b end.
  cbn [serverResponse hrPeers Peers6 hrBaselineProvider FailureReason hrInterval Complete Incomplete].
  rewrite decodePeers_compact, decodePeers_none by done. cbn [mbind go_bind option_bind]. by rewrite decodePeers6_compact.
Qed.
End Responses.

(** ** Client and server together *)
Section Session.
Context {S : Type} `{!AnnounceTracker S} (upstreams : nat).
Context (IP_String ParseIP : list Z → list Z) (HIP : ∀ ip, bytes_ok (IP_String ip)).
Context (isEmptyValue : rval → bool) (MarshalIPv4 MarshalIPv6 : list (list Z * Z) → list Z).
Context (UnmarshalIPv4 UnmarshalIPv6 : list Z → option (list (list Z * Z))).
Hypothesis compact4 : ∀ l, addrsOk 4 l → UnmarshalIPv4 (MarshalIPv4 l) = Some l.
Hypothesis compact6 : ∀ l, addrsOk 16 l → UnmarshalIPv6 (MarshalIPv6 l) = Some l.

(** C36. Of the query a client makes over HTTP, this server reads the info-hash,
    the peer id, the port, the event and the bytes left, whatever other
    parameters the URL has, and nothing else (not the key, the counts of bytes,
    [NumWant] or its being a baseline provider).  To the announce it has read,
    the client gets what the tracker answers: the response, bencoded and decoded, gives it the interval and the
    counts of the tracker, and the tracker's IPv4 peers and then its IPv6
    peers, all of them in order. *)
Theorem http_announce_served run (me : AnnounceHandler S) RawQuery ar opts host s' :
  announce_ok ar → bytes_ok (InfoHash ar) → bytes_ok (PeerId ar) → 0 ≤ Event ar ≤ 3 → noClash RawQuery →
  let req := mkAnnounce (InfoHash ar) (PeerId ar) 0 (leftParam (Left ar)) 0 (Event ar) 0 0 (-1) (Port ar) false in
  TrackAnnounce (ahTracker me) req (host, Port ar) = (s', None) →
  let ret := GetPeers s' (InfoHash ar) (mkGetPeersOpts (Some 200)) (host, Port ar) in
  saErr ret = None → in_i32 (default 300 (saInterval ret)) → in_i32 (default 0 (saSeeders ret)) → in_i32 (default 0 (saLeechers ret)) →
  Forall (λ p, 0 ≤ p.2 < 2 ^ 16) (saPeers ret) →
  strOk (MarshalIPv4 (filter (λ p, is4 p = true) (saPeers ret))) → strOk (MarshalIPv6 (filter (λ p, is6 p = true) (saPeers ret))) →
  ∃ me' response body decoded,
    ServeHTTP upstreams run me (setAnnounceParams IP_String RawQuery ar opts) (Some host) = (me', Good response) ∧
    me' = (Serve upstreams run me req (host, Port ar) (mkGetPeersOpts (Some 200))).1 ∧
    encodeHttpResponse isEmptyValue MarshalIPv4 MarshalIPv6 response = Ok (Some body) ∧
    decodeHttpResponse ParseIP UnmarshalIPv4 UnmarshalIPv6 body = Ok (Some decoded) ∧
    http_Announce decoded =
      Some (mkAnnResp (default 300 (saInterval ret)) (default 0 (saLeechers ret)) (default 0 (saSeeders ret))
              (map FromNodeAddr (filter (λ p, is4 p = true) (saPeers ret)) ++ map FromNodeAddr (filter (λ p, is6 p = true) (saPeers ret)))
              noPeer).
Proof using All.
  intros Hok Hih Hid Hev Hn req Htrack ret Herr Hi Hs Hl Hports Hs4 Hs6.
  assert (Haddr : announceAddr req (host, Port ar) = (host, Port ar)) by (unfold announceAddr; by destruct (_ =? _)).
  pose proof (serve_discards_upstream upstreams run me req (host, Port ar) (mkGetPeersOpts (Some 200))) as Hserve.
  rewrite Haddr, Htrack in Hserve. change (GetPeers s' _ _ _) with ret in Hserve.
  destruct (response_roundtrip isEmptyValue ParseIP MarshalIPv4 MarshalIPv6 UnmarshalIPv4 UnmarshalIPv6 compact4 compact6 ret Hi Hs Hl Hports Hs4 Hs6)
    as (b & Hb & Hd).
  exists (Serve upstreams run me req (host, Port ar) (mkGetPeersOpts (Some 200))).1, (serverResponse ret), b, (serverResponse ret).
  split; [|split; [done|split; [exact Hb|split; [exact Hd|reflexivity]]]].
  unfold ServeHTTP. rewrite announceOf_client by done. fold req. destruct (Serve _ _ _ _ _ _) as [h res]. cbn [snd fst] in *. subst res. by rewrite Herr.
Qed.
End Session.

(** ** An example: a tracker with a key in its URL *)
Module HttpServerExample.
Definition marshal (l : list (list Z * Z)) : list Z := flat_map (λ na, na.1 ++ be_encode 2 na.2) l.

Lemma compact4 l : addrsOk 4 l → UdpServerExample.unmarshalAll 4 (marshal l) = Some l.
Proof. intros Hl. by destruct (UdpServerExample.unmarshal_marshal AddrFamilyIpv4 4 l eq_refl Hl) as (b & [= <-] & H). Qed.

Lemma compact6 l : addrsOk 16 l → UdpServerExample.unmarshalAll 16 (marshal l) = Some l.
Proof. intros Hl. by destruct (UdpServerExample.unmarshal_marshal AddrFamilyIpv6 16 l eq_refl Hl) as (b & [= <-] & H). Qed.

Definition text (ip : list Z) : list Z := goBytes "10.0.0.1".
Definition opts : AnnounceOpt := mkOpt [10; 0; 0; 1] [].
Definition handler : AnnounceHandler (list AddrPort) := newHandler UdpServerExample.store.
Definition served : list AddrPort := UdpServerExample.store ++ [([10; 0; 0; 1], 6881)].
End HttpServerExample.

Lemma http_announce_served_witness :
  ∃ me' response body decoded,
    ServeHTTP 0 (mkServeRun id (∅, false) ∅) HttpServerExample.handler
      (setAnnounceParams HttpServerExample.text (goBytes "key=secret&passkey=a%2Bb") (UdpExample.req true) HttpServerExample.opts)
      (Some [10; 0; 0; 1]) = (me', Good response) ∧
    encodeHttpResponse RoundTripExample.isEmpty HttpServerExample.marshal HttpServerExample.marshal response = Ok (Some body) ∧
    decodeHttpResponse id (UdpServerExample.unmarshalAll 4) (UdpServerExample.unmarshalAll 16) body = Ok (Some decoded) ∧
    http_Announce decoded =
      Some (mkAnnResp 300 0 0 [mkTPeer [10; 0; 0; 7] 80 []; mkTPeer [10; 0; 0; 1] 6881 []; mkTPeer (replicate 16 7) 81 []] noPeer).
Proof.
  destruct (http_announce_served 0 HttpServerExample.text id ltac:(intros; apply goBytes_ok) RoundTripExample.isEmpty
    HttpServerExample.marshal HttpServerExample.marshal (UdpServerExample.unmarshalAll 4) (UdpServerExample.unmarshalAll 16)
    HttpServerExample.compact4 HttpServerExample.compact6 (mkServeRun id (∅, false) ∅) HttpServerExample.handler
    (goBytes "key=secret&passkey=a%2Bb") (UdpExample.req true) HttpServerExample.opts [10; 0; 0; 1] HttpServerExample.served)
    as (me' & r & b & d & H1 & _ & H2 & H3 & H4).
  - apply UdpExample.req_ok.
  - by_decide.
  - by_decide.
  - cbn. lia.
  - repeat constructor; vm_compute; reflexivity.
  - reflexivity.
  - reflexivity.
  - unfold in_i32. cbn. lia.
  - unfold in_i32. cbn. lia.
  - unfold in_i32. cbn. lia.
  - repeat constructor; cbn; lia.
  - unfold strOk. vm_compute. discriminate.
  - unfold strOk. vm_compute. discriminate.
  - exists me', r, b, d. split; [exact H1|split; [exact H2|split; [exact H3|exact H4]]].
Defined.
