(* ===== verification/WebseedPeer.v ===== *)
(** The peer of a web seed: src/webseed-peer.go, with what it uses of
    [Peer] in src/peerconn.go (request, cancel, remoteRejectedRequest and the
    part of receiveChunk that is about requests).

    Requesters are goroutines that share the lock of the client; the lines
    between two unlocks are a step.  What becomes of the bytes of a chunk is in
    Swarm.v, fetching them in WebSeed.v.  A request stands for its index, and
    [t.requestState] is not repeated here. *)
From stdpp Require Import base numbers list strings gmap sets.
From Stdlib Require Import ZArith Lia.
From S2P Require Import Prelude.
Open Scope Z_scope.

(** Where a requester is: about to iterate over the requests (at [start], or
    woken), waiting for the result of a fetch, writing the chunk without the
    lock, after the result has been handled, in one of the sleeps, in
    [requesterCond.Wait], or returned. *)
Inductive rphase : Type :=
| Looking
| Fetching (r : Z)
| Storing (r : Z)
| Handled (r : Z)
| Sleeping
| Idle
| Exited.

Record webseedPeer : Type := mkWebseedPeer {
  Requests : gset Z;
  Cancelled : gset Z;
  validReceiveChunks : gmap Z nat;
  activeRequests : gset Z;
  requesters : gmap nat rphase;
  wsClosed : bool               (** [ws.peer.closed] *);
  wsTorrentClosed : bool        (** [ws.peer.t.closed] *)
}.

(** [addWebSeed]: [maxRequests] requesters. *)
Definition newWebseedPeer (maxRequests : nat) : webseedPeer :=
  mkWebseedPeer ∅ ∅ ∅ ∅ (list_to_map (map (λ k, (k, Looking)) (seq 0 maxRequests))) false false.

Definition set_requesters (m : gmap nat rphase) (s : webseedPeer) : webseedPeer :=
  mkWebseedPeer (Requests s) (Cancelled s) (validReceiveChunks s) (activeRequests s) m (wsClosed s) (wsTorrentClosed s).
Definition set_requests (R : gset Z) (s : webseedPeer) : webseedPeer :=
  mkWebseedPeer R (Cancelled s) (validReceiveChunks s) (activeRequests s) (requesters s) (wsClosed s) (wsTorrentClosed s).
Definition set_cancelled (R : gset Z) (s : webseedPeer) : webseedPeer :=
  mkWebseedPeer (Requests s) R (validReceiveChunks s) (activeRequests s) (requesters s) (wsClosed s) (wsTorrentClosed s).
Definition set_active (R : gset Z) (s : webseedPeer) : webseedPeer :=
  mkWebseedPeer (Requests s) (Cancelled s) (validReceiveChunks s) R (requesters s) (wsClosed s) (wsTorrentClosed s).
Definition set_valid (v : gmap Z nat) (s : webseedPeer) : webseedPeer :=
  mkWebseedPeer (Requests s) (Cancelled s) v (activeRequests s) (requesters s) (wsClosed s) (wsTorrentClosed s).
Definition set_closed (torrent : bool) (s : webseedPeer) : webseedPeer :=
  mkWebseedPeer (Requests s) (Cancelled s) (validReceiveChunks s) (activeRequests s) (requesters s) true (torrent || wsTorrentClosed s).

(** Moves a requester. *)
Definition goTo (k : nat) (p : rphase) (s : webseedPeer) : webseedPeer := set_requesters (<[k := p]> (requesters s)) s.

Definition validCount (s : webseedPeer) (r : Z) : nat := default O (validReceiveChunks s !! r).

(** [decExpectedChunkReceive]. *)
Definition decExpectedChunkReceive (s : webseedPeer) (r : Z) : go webseedPeer :=
  match validCount s r with
  | O => Panic "decExpectedChunkReceive"
  | S O => Ok (set_valid (delete r (validReceiveChunks s)) s)
  | S n => Ok (set_valid (<[r := n]> (validReceiveChunks s)) s)
  end.

(** [requesterCond.Signal] wakes a requester that waits, if there is one;
    which one is given. *)
Definition Signal (woken : option nat) (s : webseedPeer) : webseedPeer :=
  match woken with Some k => goTo k Looking s | None => s end.

Definition isIdle (p : rphase) : bool := match p with Idle => true | _ => false end.

Definition wakes (woken : option nat) (s : webseedPeer) : Prop :=
  match woken with
  | Some k => requesters s !! k = Some Idle
  | None => map_Forall (λ _ p, isIdle p = false) (requesters s)
  end.

#[export] Instance wakes_dec woken s : Decision (wakes woken s).
Proof. destruct woken as [k|]; cbn; [destruct (requesters s !! k) as [[]|]; first [by left|by right]|apply _]. Defined.

Definition Broadcast (s : webseedPeer) : webseedPeer :=
  set_requesters ((λ p, if isIdle p then Looking else p) <$> requesters s) s.

(** [Peer.request] as [mustRequest] calls it, which panics on its errors, and
    [webseedPeer._request].  [limit] is the value of [nominalMaxRequests]. *)
Definition request (limit : nat) (woken : option nat) (r : Z) (s : webseedPeer) : go webseedPeer :=
  if bool_decide (r ∈ Cancelled s) then Panic "request is cancelled and waiting acknowledgement"
  else if wsClosed s then Panic "requesting when connection is closed"
  else if bool_decide (r ∈ Requests s) then Ok s
  else if bool_decide (limit ≤ size (Requests s))%nat then Panic "too many outstanding requests"
  else
    let s := set_requests ({[r]} ∪ Requests s) s in
    let s := set_valid (<[r := S (validCount s r)]> (validReceiveChunks s)) s in
    Ok (Signal woken s).

(** [webseedPeer._cancel]. *)
Definition _cancel (r : Z) (s : webseedPeer) : bool := bool_decide (r ∈ activeRequests s).

Definition cancel (r : Z) (s : webseedPeer) : go webseedPeer :=
  if negb (bool_decide (r ∈ Requests s)) then Panic "request not existing should have been guarded"
  else
    let s := set_requests (Requests s ∖ {[r]}) s in
    if _cancel r s then
      if bool_decide (r ∈ Cancelled s) then Panic "request already cancelled"
      else Ok (set_cancelled ({[r]} ∪ Cancelled s) s)
    else Ok s.

Fixpoint cancelEach (l : list Z) (s : webseedPeer) : go webseedPeer :=
  match l with [] => Ok s | r :: l => s ← cancel r s; cancelEach l s end.

Definition cancelAllRequests (s : webseedPeer) : go webseedPeer := cancelEach (elements (Requests s)) s.

(** Deletes the request, or its cancellation; nothing if it is neither. *)
Definition takeRequest (r : Z) (s : webseedPeer) : option webseedPeer :=
  if bool_decide (r ∈ Requests s) then Some (set_requests (Requests s ∖ {[r]}) s)
  else if bool_decide (r ∈ Cancelled s) then Some (set_cancelled (Cancelled s ∖ {[r]}) s)
  else None.

Definition remoteRejectedRequest (r : Z) (s : webseedPeer) : go (bool * webseedPeer) :=
  match takeRequest r s with
  | None => Ok (false, s)
  | Some s => s ← decExpectedChunkReceive s r; Ok (true, s)
  end.

(** [receiveChunk] up to where it unlocks: whether the chunk was expected. *)
Definition receiveRequested (r : Z) (s : webseedPeer) : go (option webseedPeer) :=
  match validCount s r with
  | O => Ok None
  | _ =>
      s ← decExpectedChunkReceive s r;
      Ok (Some (match takeRequest r s with Some s => s | None => s end))
  end.

(** The result of a fetch: an error (a cancelled one too), or bytes, which are
    wanted or not. *)
Inductive fetchResult : Type := FetchErr | FetchRedundant | FetchUseful.

(** [requestResultHandler]. *)
Definition requestResultHandler (k : nat) (r : Z) (result : fetchResult) (s : webseedPeer) : go webseedPeer :=
  if wsTorrentClosed s then Ok (goTo k (Handled r) s)
  else
    match result with
    | FetchErr =>
        '(ok, s) ← remoteRejectedRequest r s;
        if ok : bool then Ok (goTo k (Handled r) s) else Panic "invalid reject"
    | _ =>
        s1 ← receiveRequested r s;
        match s1 with
        | None => Panic "received unexpected chunk"
        | Some s => Ok (goTo k (match result with FetchUseful => Storing r | _ => Handled r end) s)
        end
    end.

Definition onClose (s : webseedPeer) : go webseedPeer := s ← cancelAllRequests s; Ok (Broadcast s).

(** [Peer.close], when the torrent closes or for another reason. *)
Definition close (torrent : bool) (s : webseedPeer) : go webseedPeer :=
  let s' := set_closed torrent s in
  if wsClosed s then Ok s' else onClose s'.

(** The steps of the requesters and of the rest of the client.  A request is
    made only if it is not cancelled, the peer is open and there is room, which
    [getDesiredRequestState], [maybeUpdateActualRequestState] and
    [applyRequestState] see to. *)
Inductive wlabel : Type :=
| WRequest (limit : nat) (r : Z) (woken : option nat)
| WCancel (r : Z)
| WStart (k : nat) (r : Z)
| WWait (k : nat)
| WExit (k : nat)
| WResult (k : nat) (result : fetchResult)
| WStored (k : nat)
| WDelete (k : nat)
| WAwake (k : nat)
| WClose (torrent : bool).

Definition startable (s : webseedPeer) : gset Z := Requests s ∖ activeRequests s.

Definition wstep (s : webseedPeer) (l : wlabel) : option (go webseedPeer) :=
  match l with
  | WRequest limit r woken =>
      if bool_decide (r ∉ Cancelled s ∧ wsClosed s = false ∧ size (Requests s) + size (Cancelled s) < limit ∧ wakes woken s)%nat
      then Some (request limit woken r s) else None
  | WCancel r => if bool_decide (r ∈ Requests s) then Some (cancel r s) else None
  | WStart k r =>
      match requesters s !! k with
      | Some Looking =>
          if negb (wsClosed s) && bool_decide (r ∈ startable s)
          then Some (Ok (goTo k (Fetching r) (set_active ({[r]} ∪ activeRequests s) s))) else None
      | _ => None
      end
  | WWait k =>
      match requesters s !! k with
      | Some Looking => if negb (wsClosed s) && bool_decide (startable s = ∅) then Some (Ok (goTo k Idle s)) else None
      | _ => None
      end
  | WExit k =>
      match requesters s !! k with
      | Some Looking => if wsClosed s then Some (Ok (goTo k Exited s)) else None
      | _ => None
      end
  | WResult k result =>
      match requesters s !! k with Some (Fetching r) => Some (requestResultHandler k r result s) | _ => None end
  | WStored k =>
      match requesters s !! k with Some (Storing r) => Some (Ok (goTo k (Handled r) s)) | _ => None end
  | WDelete k =>
      match requesters s !! k with
      | Some (Handled r) => Some (Ok (goTo k Sleeping (set_active (activeRequests s ∖ {[r]}) s)))
      | _ => None
      end
  | WAwake k => match requesters s !! k with Some Sleeping => Some (Ok (goTo k Looking s)) | _ => None end
  | WClose torrent => Some (close torrent s)
  end.

Inductive reachable (n : nat) : webseedPeer → Prop :=
| reachable_new : reachable n (newWebseedPeer n)
| reachable_step s l s' : reachable n s → wstep s l = Some (Ok s') → reachable n s'.

(** ** Counting requesters *)

Definition countOf (P : rphase → bool) (m : gmap nat rphase) : nat := size (filter (λ kp, P kp.2 = true) m).

Lemma countOf_goTo P m k p q :
  m !! k = Some p → (countOf P (<[k := q]> m) + (if P p then 1 else 0) = countOf P m + (if P q then 1 else 0))%nat.
Proof.
  intros Hk. unfold countOf. rewrite <- (insert_delete_id m k p Hk), insert_insert_eq.
  set (m' := delete k m). assert (Hm : m' !! k = None) by apply lookup_delete_eq.
  assert (Hf : filter (λ kp : nat * rphase, P kp.2 = true) m' !! k = None)
    by (apply map_lookup_filter_None_2; auto).
  assert (E : ∀ x, size (filter (λ kp : nat * rphase, P kp.2 = true) (<[k := x]> m'))
                 = ((if P x then 1 else 0) + size (filter (λ kp : nat * rphase, P kp.2 = true) m'))%nat).
  { intros x. destruct (P x) eqn:Px.
    - rewrite map_filter_insert_True by done. rewrite map_size_insert_None by done. lia.
    - rewrite map_filter_insert_False by (cbn; congruence). rewrite delete_id by done. lia. }
  rewrite !E. lia.
Qed.

Lemma countOf_pos P m k p : m !! k = Some p → P p = true → (0 < countOf P m)%nat.
Proof.
  intros Hk HP. unfold countOf. destruct (size _) eqn:E; [|lia].
  apply map_size_empty_inv in E.
  assert (H : filter (λ kp : nat * rphase, P kp.2 = true) m !! k = Some p) by (apply map_lookup_filter_Some_2; auto).
  rewrite E, lookup_empty in H. done.
Qed.

Lemma countOf_ex P m : (0 < countOf P m)%nat → ∃ k p, m !! k = Some p ∧ P p = true.
Proof.
  unfold countOf. intros H.
  destruct (map_choose (filter (λ kp : nat * rphase, P kp.2 = true) m)) as (k & p & Hk).
  { intros E. rewrite E, map_size_empty in H. lia. }
  apply map_lookup_filter_Some in Hk as [? ?]. eauto.
Qed.

(** ** The requests at work *)

(** The request a requester has in [activeRequests]. *)
Definition busyWith (p : rphase) : option Z :=
  match p with Fetching r | Storing r | Handled r => Some r | _ => None end.

Definition isAwake (p : rphase) : bool := match p with Looking | Sleeping => true | _ => false end.

(** [activeRequests] holds the requests the requesters are at, one each. *)
Definition busyOk (A : gset Z) (m : gmap nat rphase) : Prop :=
  (∀ r, r ∈ A ↔ ∃ k p, m !! k = Some p ∧ busyWith p = Some r)
  ∧ (∀ j k p q r, m !! j = Some p → m !! k = Some q → busyWith p = Some r → busyWith q = Some r → j = k).

Lemma busy_goTo A m k p q :
  busyOk A m → m !! k = Some p →
  (∀ r, busyWith q = Some r → busyWith p = Some r ∨ r ∉ A) →
  busyOk ((A ∖ match busyWith p with Some r => {[r]} | None => ∅ end) ∪ match busyWith q with Some r => {[r]} | None => ∅ end)
    (<[k := q]> m).
Proof.
  intros [HA H1] Hk Hq. split.
  - intros r. rewrite elem_of_union, elem_of_difference, HA. split.
    + intros [[(j & x & Hj & Hx) Hn]|Hr].
      * assert (j ≠ k). { intros ->. rewrite Hk in Hj. simplify_eq. rewrite Hx in Hn. set_solver. }
        exists j, x. by rewrite lookup_insert_ne.
      * destruct (busyWith q) as [r'|] eqn:E; [|set_solver]. apply elem_of_singleton in Hr as ->.
        exists k, q. by rewrite lookup_insert_eq.
    + intros (j & x & Hj & Hx). apply lookup_insert_Some in Hj as [[-> ->]|[Hne Hj]].
      * right. rewrite Hx. set_solver.
      * left. split; [by exists j, x|]. destruct (busyWith p) as [r'|] eqn:E; [|set_solver].
        intros Hr%elem_of_singleton. subst r'. by apply Hne, (H1 k j p x r).
  - assert (Hx : ∀ j x r, k ≠ j → m !! j = Some x → busyWith x = Some r → busyWith q = Some r → False).
    { intros j x r Hne Hj Hxr Hqr. destruct (Hq r Hqr) as [Hp|Hn].
      - by apply Hne, (H1 k j p x r).
      - apply Hn, HA. by exists j, x. }
    intros i j x y r [[<- <-]|[Hi Hi']]%lookup_insert_Some [[<- <-]|[Hj Hj']]%lookup_insert_Some Hxr Hyr; eauto; exfalso; eauto.
Qed.

Lemma busy_same A A' m m' : A = A' → m = m' → busyOk A m → busyOk A' m'.
Proof. by intros -> ->. Qed.

Lemma busy_move A m k p q : busyOk A m → m !! k = Some p → busyWith q = busyWith p → busyOk A (<[k := q]> m).
Proof.
  intros H Hk E. eapply busy_same; [|done|apply (busy_goTo A m k p q H Hk); rewrite E; auto].
  rewrite E. destruct (busyWith p) as [r|] eqn:Ep; [|set_solver].
  assert (r ∈ A) by (apply H; by exists k, p). apply set_eq. intros x. destruct (decide (x = r)); set_solver.
Qed.

Lemma busy_fmap A m (f : rphase → rphase) : (∀ p, busyWith (f p) = busyWith p) → busyOk A m → busyOk A (f <$> m).
Proof.
  intros Hf [HA H1]. split.
  - intros r. rewrite HA. split.
    + intros (k & p & Hk & Hp). exists k, (f p). by rewrite lookup_fmap, Hk, Hf.
    + intros (k & p & Hk & Hp). rewrite lookup_fmap in Hk. destruct (m !! k) as [p'|] eqn:E; simplify_eq/=.
      exists k, p'. by rewrite Hf in Hp.
  - intros j k p q r Hj Hk. rewrite lookup_fmap in Hj, Hk.
    destruct (m !! j) as [p'|] eqn:Ej, (m !! k) as [q'|] eqn:Ek; simplify_eq/=. rewrite !Hf. eauto.
Qed.

(** ** The invariant *)

Record requestsOk (s : webseedPeer) : Prop := mkRequestsOk {
  ok_valid : ∀ r, r ∈ Requests s ∪ Cancelled s → validCount s r ≠ O;
  ok_disjoint : Requests s ## Cancelled s;
  ok_fetching : ∀ k r, requesters s !! k = Some (Fetching r) → r ∈ Requests s ∪ Cancelled s;
  ok_busy : busyOk (activeRequests s) (requesters s)
}.

Record wsOk (s : webseedPeer) : Prop := mkWsOk {
  ok_requests :> requestsOk s;
  ok_wake : countOf isIdle (requesters s) = O ∨ (size (startable s) ≤ countOf isAwake (requesters s))%nat;
  ok_closed : wsClosed s = true → Requests s = ∅ ∧ countOf isIdle (requesters s) = O;
  ok_open : wsClosed s = false → wsTorrentClosed s = false ∧ ∀ k, requesters s !! k ≠ Some Exited
}.

Lemma validCount_insert s r n x :
  validCount (set_valid (<[r := n]> (validReceiveChunks s)) s) x = if decide (x = r) then n else validCount s x.
Proof.
  unfold validCount. cbn. destruct (decide (x = r)) as [->|Hne];
    [by rewrite lookup_insert_eq|by rewrite lookup_insert_ne by congruence].
Qed.

Lemma decCount_spec s r :
  validCount s r ≠ O →
  ∃ v, decExpectedChunkReceive s r = Ok (set_valid v s)
    ∧ ∀ x, validCount (set_valid v s) x = if decide (x = r) then pred (validCount s r) else validCount s x.
Proof.
  intros H. unfold decExpectedChunkReceive. destruct (validCount s r) as [|[|n]] eqn:E; [done| |].
  - eexists. split; [done|]. intros x. unfold validCount. cbn. destruct (decide (x = r)) as [->|Hne];
      [by rewrite lookup_delete_eq|by rewrite lookup_delete_ne by congruence].
  - eexists. split; [done|]. intros x. apply validCount_insert.
Qed.

Lemma wakes_idle s : wakes None s → countOf isIdle (requesters s) = O.
Proof.
  intros H. destruct (countOf isIdle (requesters s)) eqn:E; [done|].
  destruct (countOf_ex isIdle (requesters s)) as (k & p & Hk & Hp); [lia|].
  rewrite (H k p Hk) in Hp. done.
Qed.

(** ** The operations keep it *)

Lemma requestsOk_goTo s k p q :
  requestsOk s → requesters s !! k = Some p → busyWith q = busyWith p → (∀ r, q ≠ Fetching r) →
  requestsOk (goTo k q s).
Proof.
  intros [H1 H2 H3 H4] Hk Hb Hq. split; cbn; eauto using busy_move.
  intros j r [[-> E]|[_ Hj]]%lookup_insert_Some; [by destruct (Hq r)|eauto].
Qed.

Lemma request_requestsOk limit s r :
  requestsOk s → r ∉ Cancelled s → wsClosed s = false → (size (Requests s) + size (Cancelled s) < limit)%nat →
  ∃ s', (∀ woken, request limit woken r s = Ok (if bool_decide (r ∈ Requests s) then s else Signal woken s'))
    ∧ requestsOk s' ∧ Requests s' = {[r]} ∪ Requests s ∧ Cancelled s' = Cancelled s ∧ activeRequests s' = activeRequests s
    ∧ requesters s' = requesters s ∧ wsClosed s' = false ∧ wsTorrentClosed s' = wsTorrentClosed s.
Proof.
  intros [H1 H2 H3 H4] Hc Hcl Hroom.
  exists (set_valid (<[r := S (validCount s r)]> (validReceiveChunks s)) (set_requests ({[r]} ∪ Requests s) s)).
  split_and!; [|split; cbn|done..].
  - intros woken. unfold request. rewrite (bool_decide_eq_false_2 (r ∈ Cancelled s)), Hcl by done.
    destruct (bool_decide_reflect (r ∈ Requests s)); [done|]. rewrite bool_decide_eq_false_2 by lia. done.
  - intros x Hx.
    change (validCount (set_valid (<[r:=S (validCount s r)]> (validReceiveChunks s)) s) x ≠ O).
    rewrite validCount_insert. case_decide; [done|]. apply H1. set_solver.
  - set_solver.
  - intros k x Hk. specialize (H3 k x Hk). set_solver.
  - done.
Qed.

Lemma cancel_requestsOk s r :
  requestsOk s → r ∈ Requests s →
  ∃ s', cancel r s = Ok s' ∧ requestsOk s' ∧ Requests s' = Requests s ∖ {[r]}
    ∧ Cancelled s' = (if bool_decide (r ∈ activeRequests s) then {[r]} ∪ Cancelled s else Cancelled s)
    ∧ activeRequests s' = activeRequests s
    ∧ requesters s' = requesters s ∧ wsClosed s' = wsClosed s ∧ wsTorrentClosed s' = wsTorrentClosed s.
Proof.
  intros [H1 H2 H3 H4] Hr. unfold cancel, _cancel. rewrite (bool_decide_eq_true_2 (r ∈ Requests s)) by done. cbn.
  destruct (bool_decide_reflect (r ∈ activeRequests s)) as [Ha|Ha].
  - rewrite bool_decide_eq_false_2 by set_solver. eexists. split; [done|].
    split_and!; [split; cbn|done..]; [|set_solver| |done].
    + intros x Hx. apply H1. set_solver.
    + intros k x Hk. specialize (H3 k x Hk). destruct (decide (x = r)); set_solver.
  - eexists. split; [done|]. split_and!; [split; cbn|done..]; [|set_solver| |done].
    + intros x Hx. apply H1. set_solver.
    + intros k x Hk. assert (x ≠ r).
      { intros ->. apply Ha, H4. exists k, (Fetching r). done. }
      specialize (H3 k x Hk). set_solver.
Qed.

Lemma cancelEach_requestsOk l s :
  requestsOk s → NoDup l → (∀ r, r ∈ l → r ∈ Requests s) →
  ∃ s', cancelEach l s = Ok s' ∧ requestsOk s' ∧ Requests s' = Requests s ∖ list_to_set l
    ∧ activeRequests s' = activeRequests s ∧ Cancelled s ⊆ Cancelled s'
    ∧ requesters s' = requesters s ∧ wsClosed s' = wsClosed s ∧ wsTorrentClosed s' = wsTorrentClosed s.
Proof.
  revert s. induction l as [|r l IH]; intros s Hok Hnd Hl; cbn [cancelEach].
  - exists s. split_and!; try done. set_solver.
  - apply NoDup_cons in Hnd as [Hn Hnd].
    destruct (cancel_requestsOk s r) as (s1 & -> & Hok1 & E1 & E1' & E2 & E3 & E4 & E5); [done|apply Hl; set_solver|].
    destruct (IH s1) as (s2 & E & Hok2 & F1 & F2 & F3 & F4 & F5 & F6); [done..| |].
    { intros x Hx. rewrite E1. assert (x ∈ Requests s) by (apply Hl; set_solver). set_solver. }
    exists s2. cbn. rewrite E. split_and!; [done|done| |congruence| |congruence..].
    + rewrite F1, E1. set_solver.
    + etrans; [|exact F3]. rewrite E1'. case_bool_decide; set_solver.
Qed.

Lemma cancelAllRequests_requestsOk s :
  requestsOk s →
  ∃ s', cancelAllRequests s = Ok s' ∧ requestsOk s' ∧ Requests s' = ∅
    ∧ activeRequests s' = activeRequests s ∧ Cancelled s ⊆ Cancelled s'
    ∧ requesters s' = requesters s ∧ wsClosed s' = wsClosed s ∧ wsTorrentClosed s' = wsTorrentClosed s.
Proof.
  intros Hok. destruct (cancelEach_requestsOk (elements (Requests s)) s) as (s' & E & H1 & H2 & H3);
    [done|apply NoDup_elements|set_solver|].
  exists s'. split_and!; try done; try apply H3. rewrite H2. set_solver.
Qed.

Lemma decExpected_set s1 s r v :
  validReceiveChunks s1 = validReceiveChunks s → decExpectedChunkReceive s r = Ok (set_valid v s) →
  decExpectedChunkReceive s1 r = Ok (set_valid v s1).
Proof.
  unfold decExpectedChunkReceive, validCount, set_valid. intros ->. destruct (default 0%nat _) as [|[|n]]; congruence.
Qed.

(** The result of the fetch of [r] by requester [k] finds its request, whether
    it is an error or a chunk. *)
Lemma result_requestsOk s k r :
  requestsOk s → requesters s !! k = Some (Fetching r) →
  ∃ s', remoteRejectedRequest r s = Ok (true, s') ∧ receiveRequested r s = Ok (Some s')
    ∧ (∀ q, (∀ x, q ≠ Fetching x) → busyWith q = Some r → requestsOk (goTo k q s'))
    ∧ Requests s' = Requests s ∖ {[r]} ∧ Cancelled s' = Cancelled s ∖ {[r]} ∧ activeRequests s' = activeRequests s
    ∧ requesters s' = requesters s ∧ wsClosed s' = wsClosed s ∧ wsTorrentClosed s' = wsTorrentClosed s.
Proof.
  intros [H1 H2 H3 H4] Hk. pose proof (H3 k r Hk) as Hr. pose proof (H1 r Hr) as Hv.
  destruct (decCount_spec s r Hv) as (v & Ev & Hx).
  set (s' := set_valid v (set_cancelled (Cancelled s ∖ {[r]}) (set_requests (Requests s ∖ {[r]}) s))).
  assert (Et : ∀ s1, Requests s1 = Requests s → Cancelled s1 = Cancelled s →
    takeRequest r s1 = Some (set_cancelled (Cancelled s ∖ {[r]}) (set_requests (Requests s ∖ {[r]}) s1))).
  { intros [R C v1 A m c t]; cbn. intros -> ->. unfold takeRequest, set_requests, set_cancelled. cbn.
    destruct (bool_decide_reflect (r ∈ Requests s)).
    - repeat f_equal. set_solver.
    - rewrite bool_decide_eq_true_2 by set_solver. repeat f_equal. set_solver. }
  exists s'. split_and!; try done.
  - unfold remoteRejectedRequest. rewrite (Et s) by done. rewrite (decExpected_set _ s r v); done.
  - unfold receiveRequested. rewrite Ev. cbn. rewrite (Et (set_valid v s)) by done. destruct (validCount s r); done.
  - intros q Hq Hqb. split; cbn.
    + intros x Hxx. change (validCount (set_valid v s) x ≠ O). rewrite Hx. rewrite decide_False by set_solver.
      apply H1. set_solver.
    + set_solver.
    + intros j x [[-> E]|[Hne Hj]]%lookup_insert_Some; [by destruct (Hq x)|].
      assert (x ≠ r). { intros ->. apply Hne. by apply (proj2 H4 k j (Fetching r) (Fetching r) r). }
      specialize (H3 j x Hj). set_solver.
    + eapply busy_move; eauto.
Qed.

(** ** Every step keeps the invariant, and none panics *)

Lemma startable_size s s' : startable s' ⊆ startable s → (size (startable s') ≤ size (startable s))%nat.
Proof. apply subseteq_size. Qed.

(** A requester moves; it neither starts nor stops waiting. *)
Lemma wsOk_goTo s s' k p q :
  wsOk s → requesters s !! k = Some p → isIdle p = false → isIdle q = false →
  requestsOk (goTo k q s') → requesters s' = requesters s →
  (wsClosed s = false →
    (size (startable s') + (if isAwake p then 1 else 0) ≤ size (startable s) + (if isAwake q then 1 else 0))%nat) →
  (wsClosed s = true → Requests s' = ∅) → (q = Exited → wsClosed s = true) →
  wsClosed s' = wsClosed s → wsTorrentClosed s' = wsTorrentClosed s → wsOk (goTo k q s').
Proof.
  intros [Hr Hw Hc Ho] Hk Hp Hq Hok Em Hs HR Hx Ec Et.
  pose proof (countOf_goTo isIdle _ k p q Hk) as Ei. pose proof (countOf_goTo isAwake _ k p q Hk) as Ea.
  rewrite Hp, Hq in Ei.
  split; [done|..]; cbn; rewrite Em.
  - destruct (wsClosed s) eqn:Hcl; [destruct (Hc eq_refl); left; lia|].
    specialize (Hs eq_refl). unfold startable in *. cbn. destruct Hw; [left|right]; lia.
  - rewrite Ec. intros Hcl. destruct (Hc Hcl) as [_ Hi]. split; [auto|lia].
  - rewrite Ec, Et. intros Hcl. destruct (Ho Hcl) as [Ht He]. split; [done|].
    intros j [[-> E]|[_ Hj]]%lookup_insert_Some; [|by apply (He j)]. rewrite Hx in Hcl by done. done.
Qed.

Lemma wsOk_same s s' :
  wsOk s → requestsOk s' → requesters s' = requesters s → Requests s' ⊆ Requests s → activeRequests s' = activeRequests s →
  wsClosed s' = wsClosed s → wsTorrentClosed s' = wsTorrentClosed s → wsOk s'.
Proof.
  intros [Hr Hw Hc Ho] Hok Em HR HA Ec Et. split; [done|..]; rewrite ?Em, ?Ec, ?Et; [|intros H; specialize (Hc H)|done].
  - assert (size (startable s') ≤ size (startable s))%nat by (apply subseteq_size; unfold startable; set_solver). lia.
  - split; [|apply Hc]. set_solver.
Qed.

Lemma request_wsOk limit woken s r :
  wsOk s → r ∉ Cancelled s → wsClosed s = false → (size (Requests s) + size (Cancelled s) < limit)%nat → wakes woken s →
  ∃ s', request limit woken r s = Ok s' ∧ wsOk s'.
Proof.
  intros Hok Hc Hcl Hroom Hw.
  destruct (request_requestsOk limit s r) as (s' & E & Hr & ER & EC & EA & Em & Ec & Et); [apply Hok|done..|].
  rewrite E. eexists. split; [done|]. case_bool_decide as Hin; [done|].
  assert (Hsz : (size (startable s') ≤ S (size (startable s)))%nat).
  { etrans; [apply (subseteq_size _ ({[r]} ∪ startable s)); unfold startable; rewrite ER, EA; set_solver|].
    rewrite size_union_alt, size_singleton. cbn. apply le_n_S, subseteq_size. set_solver. }
  destruct woken as [k|]; cbn [Signal wakes] in *.
  - pose proof (countOf_goTo isIdle _ k Idle Looking Hw) as Ei. pose proof (countOf_goTo isAwake _ k Idle Looking Hw) as Ea.
    cbn in Ei, Ea. destruct (ok_wake s Hok) as [H0|H0]; [lia|].
    split; cbn; rewrite ?Em; [|right; unfold startable in *; cbn; lia|by rewrite Ec|].
    + apply (requestsOk_goTo s' k Idle Looking Hr); [by rewrite Em|done..].
    + intros _. destruct (ok_open s Hok Hcl) as [Ho He]. rewrite Et. split; [done|].
      intros j [[-> E']|[_ Hj]]%lookup_insert_Some; [done|by apply (He j)].
  - apply wakes_idle in Hw. split; cbn; rewrite ?Em; [done|by left|by rewrite Ec|].
    rewrite Et. intros _. apply ok_open; done.
Qed.

Lemma Broadcast_requestsOk s : requestsOk s → requestsOk (Broadcast s).
Proof.
  intros [H1 H2 H3 H4]. split; try done.
  - cbn. intros k r Hk. rewrite lookup_fmap in Hk. apply (H3 k). destruct (requesters s !! k) as [[]|]; cbn in Hk; congruence.
  - cbn. apply busy_fmap; [by intros []|done].
Qed.

Lemma Broadcast_idle s : countOf isIdle (requesters (Broadcast s)) = O.
Proof.
  destruct (countOf isIdle _) eqn:E; [done|].
  destruct (countOf_ex isIdle (requesters (Broadcast s))) as (k & p & Hk & Hp); [lia|].
  cbn in Hk. rewrite lookup_fmap in Hk. destruct (requesters s !! k) as [[]|]; simplify_eq/=.
Qed.

Lemma close_wsOk torrent s : wsOk s → ∃ s', close torrent s = Ok s' ∧ wsOk s'.
Proof.
  intros [[H1 H2 H3 H4] Hw Hc Ho]. unfold close. destruct (wsClosed s) eqn:Hcl.
  { eexists. split; [done|]. split; [by split|done|cbn; auto|done]. }
  destruct (cancelAllRequests_requestsOk (set_closed torrent s)) as (s' & E & Hr & ER & _ & _ & _ & Ec & Et); [by split|].
  unfold onClose. rewrite E. cbn. eexists. split; [done|].
  split; [by apply Broadcast_requestsOk|left; apply Broadcast_idle|intros _; split; [done|apply Broadcast_idle]|].
  cbn. by rewrite Ec.
Qed.

Lemma result_wsOk s k r result :
  wsOk s → requesters s !! k = Some (Fetching r) → ∃ s', requestResultHandler k r result s = Ok s' ∧ wsOk s'.
Proof.
  intros Hok Hk. unfold requestResultHandler.
  assert (Hmove : ∀ q s', (q = Handled r ∨ q = Storing r) → requestsOk (goTo k q s') → requesters s' = requesters s →
    Requests s' ⊆ Requests s → startable s' ⊆ startable s →
    wsClosed s' = wsClosed s → wsTorrentClosed s' = wsTorrentClosed s → wsOk (goTo k q s')).
  { intros q s' Hq Hr Em HR Hs Ec Et. apply subseteq_size in Hs.
    apply (wsOk_goTo s s' k (Fetching r) q); try done; [by destruct Hq as [->| ->]|intros _; destruct Hq as [->| ->]; cbn; lia| |].
    - intros Hcl. destruct (ok_closed s Hok Hcl). set_solver.
    - by destruct Hq as [->| ->]. }
  destruct (wsTorrentClosed s) eqn:Ht.
  { eexists. split; [done|]. apply Hmove; try done; [by left|]. apply (requestsOk_goTo s k (Fetching r)); try done. apply Hok. }
  destruct (result_requestsOk s k r) as (s' & E1 & E2 & Hr & ER & EC & EA & Em & Ec & Et); [apply Hok|done|].
  assert (Hs : startable s' ⊆ startable s) by (unfold startable; rewrite ER, EA; set_solver).
  destruct result; rewrite ?E1, ?E2; cbn; eexists; (split; [done|]); apply Hmove; try done; try (by left); try (by right);
    try (by apply Hr); try set_solver; congruence.
Qed.

Lemma start_wsOk s k r :
  wsOk s → requesters s !! k = Some Looking → r ∈ startable s →
  wsOk (goTo k (Fetching r) (set_active ({[r]} ∪ activeRequests s) s)).
Proof.
  intros Hok Hk H. pose proof Hok as [[H1 H2 H3 H4] _ _ _]. unfold startable in H.
  apply (wsOk_goTo s _ k Looking); try done; [|intros _|cbn; apply ok_closed, Hok].
  - split; try done; cbn.
    + intros j x [[-> E]|[_ Hj]]%lookup_insert_Some; [set_solver|by apply (H3 j)].
    + eapply busy_same; [|done|apply (busy_goTo _ _ k Looking (Fetching r) H4 Hk)]; [cbn; set_solver|].
      intros x [= ->]. right. set_solver.
  - cbn. rewrite Nat.add_0_r. assert (E : startable (set_active ({[r]} ∪ activeRequests s) s) = startable s ∖ {[r]})
      by (unfold startable; cbn; set_solver).
    rewrite E, size_difference by (unfold startable; set_solver). rewrite size_singleton.
    assert (size (startable s) ≠ O) by (apply size_non_empty_iff; unfold startable; set_solver). lia.
Qed.

Lemma wait_wsOk s k :
  wsOk s → requesters s !! k = Some Looking → wsClosed s = false → startable s = ∅ → wsOk (goTo k Idle s).
Proof.
  intros Hok Hk Hcl H. split; cbn.
  - apply (requestsOk_goTo s k Looking); try done. apply Hok.
  - right. unfold startable in *. cbn. rewrite H, size_empty. lia.
  - congruence.
  - intros _. destruct (ok_open s Hok Hcl) as [Ho He]. split; [done|].
    intros j [[-> E']|[_ Hj]]%lookup_insert_Some; [done|by apply (He j)].
Qed.

Lemma delete_wsOk s k r :
  wsOk s → requesters s !! k = Some (Handled r) → wsOk (goTo k Sleeping (set_active (activeRequests s ∖ {[r]}) s)).
Proof.
  intros Hok Hk. pose proof Hok as [[H1 H2 H3 H4] _ _ _].
  apply (wsOk_goTo s _ k (Handled r)); try done; [|intros _|cbn; apply ok_closed, Hok].
  - split; try done; cbn.
    + intros j x [[-> E]|[_ Hj]]%lookup_insert_Some; [done|by apply (H3 j)].
    + eapply busy_same; [|done|apply (busy_goTo _ _ k (Handled r) Sleeping H4 Hk)]; [cbn; set_solver|done].
  - cbn. rewrite Nat.add_0_r, Nat.add_1_r, <- Nat.add_1_l.
    etrans; [apply (subseteq_size _ ({[r]} ∪ startable s))|].
    + unfold startable. cbn. intros x. destruct (decide (x = r)); set_solver.
    + rewrite size_union_alt, size_singleton. cbn. apply le_n_S, subseteq_size. set_solver.
Qed.

(** A requester goes on without touching the requests. *)
Lemma goOn_wsOk s k p q :
  wsOk s → requesters s !! k = Some p → isIdle p = false → isIdle q = false → busyWith q = busyWith p →
  (∀ r, q ≠ Fetching r) → (wsClosed s = false → isAwake p = true → isAwake q = true) → (q = Exited → wsClosed s = true) →
  wsOk (goTo k q s).
Proof.
  intros Hok Hk Hp Hq Hb Hf Ha Hx. apply (wsOk_goTo s s k p); try done.
  - apply (requestsOk_goTo s k p); try done. apply Hok.
  - intros Hcl. specialize (Ha Hcl). destruct (isAwake p); [rewrite Ha by done|]; lia.
  - apply ok_closed, Hok.
Qed.

Lemma wstep_wsOk s l res : wsOk s → wstep s l = Some res → ∃ s', res = Ok s' ∧ wsOk s'.
Proof.
  intros Hok. destruct l as [limit r woken|r|k r|k|k|k result|k|k|k|torrent]; cbn [wstep];
    try (destruct (requesters s !! k) as [[]|] eqn:Hk; try done).
  - case_bool_decide as H; [|done]. intros [= <-]. destruct H as (? & ? & ? & ?). by apply request_wsOk.
  - case_bool_decide as H; [|done]. intros [= <-].
    destruct (cancel_requestsOk s r Hok H) as (s' & -> & Hr' & ER & _ & EA & Em & Ec & Et).
    eexists. split; [done|]. apply (wsOk_same s); try done. set_solver.
  - destruct (negb _ && _) eqn:H; [|done]. intros [= <-]. apply andb_true_iff in H as [_ H%bool_decide_eq_true].
    eauto using start_wsOk.
  - destruct (negb _ && _) eqn:H; [|done]. intros [= <-].
    apply andb_true_iff in H as [Hcl%negb_true_iff H%bool_decide_eq_true]. eauto using wait_wsOk.
  - destruct (wsClosed s) eqn:Hcl; [|done]. intros [= <-]. eexists. split; [done|]. eapply goOn_wsOk; eauto; congruence.
  - intros [= <-]. by apply result_wsOk.
  - intros [= <-]. eexists. split; [done|]. by eapply goOn_wsOk.
  - intros [= <-]. eauto using delete_wsOk.
  - intros [= <-]. eexists. split; [done|]. by eapply goOn_wsOk.
  - intros [= <-]. by apply close_wsOk.
Qed.

Lemma new_wsOk n : wsOk (newWebseedPeer n).
Proof.
  assert (Hl : ∀ k p, requesters (newWebseedPeer n) !! k = Some p → p = Looking).
  { cbn. intros k p Hk%elem_of_list_to_map_2. apply list_elem_of_fmap in Hk as (? & ? & ?). by simplify_eq. }
  split; [split|..]; cbn [Requests Cancelled activeRequests wsClosed wsTorrentClosed newWebseedPeer] in *; try done.
  - intros k r Hk%Hl. done.
  - split; [|intros j k p q r Hj%Hl; by subst].
    intros r. split; [set_solver|]. intros (k & p & ->%Hl & ?). done.
  - right. assert (startable (newWebseedPeer n) = ∅) as -> by (unfold startable; set_solver). rewrite size_empty. lia.
  - intros _. split; [done|]. intros k Hk%Hl. done.
Qed.

Lemma reachable_wsOk n s : reachable n s → wsOk s.
Proof.
  induction 1 as [|s l s' _ IH Hs]; [apply new_wsOk|].
  destruct (wstep_wsOk s l _ IH Hs) as (s1 & [= ->] & H). done.
Qed.

(** The requesters stay the same. *)
Lemma wstep_dom n s l s' :
  wsOk s → wstep s l = Some (Ok s') → dom (requesters s) = set_seq 0 n → dom (requesters s') = set_seq 0 n.
Proof.
  intros Hok.
  assert (Hg : ∀ k p q s1, requesters s !! k = Some p → requesters s1 = requesters s →
    dom (requesters s) = set_seq 0 n → dom (requesters (goTo k q s1)) = (set_seq 0 n : gset nat)).
  { intros k p q s1 Hk Em E. cbn. rewrite dom_insert_L, Em, E. apply elem_of_dom_2 in Hk. set_solver. }
  destruct l as [limit r woken|r|k r|k|k|k result|k|k|k|torrent]; cbn [wstep];
    try (destruct (requesters s !! k) as [[]|] eqn:Hk; try done).
  - case_bool_decide as H; [|done]. intros [= E] Hd. destruct H as (Hc & Hcl & Hroom & Hw).
    destruct (request_requestsOk limit s r) as (s1 & E' & _ & _ & _ & _ & Em & _); [apply Hok|done..|].
    rewrite E' in E. case_bool_decide; simplify_eq; [done|]. destruct woken as [k|]; cbn [Signal]; [|congruence].
    by apply (Hg k Idle).
  - case_bool_decide as H; [|done]. intros [= E] Hd.
    destruct (cancel_requestsOk s r Hok H) as (s1 & E' & _ & _ & _ & _ & Em & _). simplify_eq. congruence.
  - destruct (negb _ && _); [|done]. intros [= <-]. by eapply Hg.
  - destruct (negb _ && _); [|done]. intros [= <-]. by eapply Hg.
  - destruct (wsClosed s); [|done]. intros [= <-]. by eapply Hg.
  - intros [= E]. unfold requestResultHandler in E.
    destruct (result_requestsOk s k r) as (s1 & E1 & E2 & _ & _ & _ & _ & Em & _); [apply Hok|done|].
    rewrite E1, E2 in E. destruct (wsTorrentClosed s); [simplify_eq; by eapply Hg|].
    destruct result; cbn in E; simplify_eq; by eapply Hg.
  - intros [= <-]. by eapply Hg.
  - intros [= <-]. by eapply Hg.
  - intros [= <-]. by eapply Hg.
  - intros [= E] Hd. unfold close in E. destruct (wsClosed s); [by simplify_eq|].
    destruct (cancelAllRequests_requestsOk (set_closed torrent s)) as (s1 & E' & _ & _ & _ & _ & Em & _);
      [by destruct Hok as [[] _ _ _]; split|].
    unfold onClose in E. rewrite E' in E. cbn in E. simplify_eq. cbn. rewrite dom_fmap_L, Em. done.
Qed.

Lemma reachable_dom n s : reachable n s → dom (requesters s) = set_seq 0 n.
Proof.
  induction 1 as [|s l s' Hr IH Hs]; [|eauto using wstep_dom, reachable_wsOk].
  cbn. rewrite dom_list_to_map_L. change (list_fmap _ _ fst) with (map (@fst nat rphase)). rewrite map_map. cbn. rewrite map_id.
  apply list_to_set_seq.
Qed.

(** ** Properties *)

Inductive runs : webseedPeer → list wlabel → webseedPeer → Prop :=
| runs_nil s : runs s [] s
| runs_cons s l s1 ls s2 : wstep s l = Some (Ok s1) → runs s1 ls s2 → runs s (l :: ls) s2.

(** The steps requester [k] makes itself. *)
Definition stepOf (k : nat) (l : wlabel) : Prop :=
  match l with WStart j _ | WWait j | WExit j | WResult j _ | WStored j | WDelete j | WAwake j => j = k | _ => False end.

Lemma wruns_reachable n s ls s' : reachable n s → runs s ls s' → reachable n s'.
Proof. intros Hs Hr. induction Hr; [done|]. eauto using reachable_step. Qed.

Ltac run_steps := repeat (econstructor; [vm_compute; reflexivity|]); constructor.

Lemma run_start s k r :
  requesters s !! k = Some Looking → wsClosed s = false → r ∈ startable s →
  ∃ s', runs s [WStart k r] s' ∧ requesters s' !! k = Some (Fetching r).
Proof.
  intros Hk Hc Hr. exists (goTo k (Fetching r) (set_active ({[r]} ∪ activeRequests s) s)). split; [|cbn; apply lookup_insert_eq].
  econstructor; [|constructor]. cbn. rewrite Hk, Hc, bool_decide_eq_true_2 by done. done.
Qed.

Lemma run_sleeping s k r :
  requesters s !! k = Some Sleeping → wsClosed s = false → r ∈ startable s →
  ∃ s', runs s [WAwake k; WStart k r] s' ∧ requesters s' !! k = Some (Fetching r).
Proof.
  intros Hk Hc Hr. destruct (run_start (goTo k Looking s) k r) as (s' & ? & ?); [apply lookup_insert_eq|done..|].
  exists s'. split; [|done]. econstructor; [cbn; by rewrite Hk|done].
Qed.

Lemma run_handled s k x r :
  requesters s !! k = Some (Handled x) → wsClosed s = false → r ∈ startable s →
  ∃ s', runs s [WDelete k; WAwake k; WStart k r] s' ∧ requesters s' !! k = Some (Fetching r).
Proof.
  intros Hk Hc Hr. destruct (run_sleeping (goTo k Sleeping (set_active (activeRequests s ∖ {[x]}) s)) k r) as (s' & ? & ?);
    [apply lookup_insert_eq|done|unfold startable in *; cbn; set_solver|].
  exists s'. split; [|done]. econstructor; [cbn; by rewrite Hk|done].
Qed.

(** A requester that does not wait can get to any request nobody is at. *)
Lemma run_busy s k p r :
  wsOk s → requesters s !! k = Some p → p ≠ Idle → wsClosed s = false → r ∈ startable s →
  ∃ ls s', (length ls ≤ 4)%nat ∧ Forall (stepOf k) ls ∧ runs s ls s' ∧ requesters s' !! k = Some (Fetching r).
Proof.
  intros Hok Hk Hp Hc Hr. destruct (ok_open s Hok Hc) as [Ht He]. destruct p as [|x|x|x| | |]; [| | | | |done|by destruct (He k)].
  - destruct (run_start s k r) as (s' & ? & ?); [done..|]. exists [WStart k r], s'. split_and!; [cbn; lia|by repeat constructor|done|done].
  - destruct (result_requestsOk s k x) as (s1 & E1 & _ & _ & ER & _ & EA & _ & Ec & _); [apply Hok|done|].
    destruct (run_handled (goTo k (Handled x) s1) k x r) as (s' & ? & ?);
      [apply lookup_insert_eq|cbn; congruence| |].
    { assert (x ∈ activeRequests s) by (apply Hok; by exists k, (Fetching x)).
      unfold startable in *. cbn. rewrite ER, EA. set_solver. }
    exists [WResult k FetchErr; WDelete k; WAwake k; WStart k r], s'. split_and!; [cbn; lia|by repeat constructor| |done].
    econstructor; [|done]. cbn. rewrite Hk. unfold requestResultHandler. by rewrite Ht, E1.
  - destruct (run_handled (goTo k (Handled x) s) k x r) as (s' & ? & ?); [apply lookup_insert_eq|done..|].
    exists [WStored k; WDelete k; WAwake k; WStart k r], s'. split_and!; [cbn; lia|by repeat constructor| |done].
    econstructor; [cbn; by rewrite Hk|done].
  - destruct (run_handled s k x r) as (s' & ? & ?); [done..|].
    exists [WDelete k; WAwake k; WStart k r], s'. split_and!; [cbn; lia|by repeat constructor|done|done].
  - destruct (run_sleeping s k r) as (s' & ? & ?); [done..|].
    exists [WAwake k; WStart k r], s'. split_and!; [cbn; lia|by repeat constructor|done|done].
Qed.

(** C37.  Nothing the requesters, the request strategy and the closing of the
    peer do makes it panic: a result always finds its request, nothing is
    cancelled twice, and no two requesters fetch the same request at once. *)
Theorem webseed_steps_safe (n : nat) (s : webseedPeer) :
  reachable n s →
  (∀ l res, wstep s l = Some res → ∃ s', res = Ok s')
  ∧ (∀ j k r, requesters s !! j = Some (Fetching r) → requesters s !! k = Some (Fetching r) → j = k)
  ∧ (wsClosed s = true → Requests s = ∅ ∧ ∀ k, requesters s !! k ≠ Some Idle).
Proof.
  intros H%reachable_wsOk. split_and!.
  - intros l res Hl. destruct (wstep_wsOk s l res H Hl) as (s' & ? & _). eauto.
  - intros j k r Hj Hk. by eapply (proj2 (ok_busy s H) j k).
  - intros Hc. destruct (ok_closed s H Hc) as [? Hi]. split; [done|]. intros k Hk.
    pose proof (countOf_pos isIdle _ k Idle Hk eq_refl). lia.
Qed.

(** C38.  No wakeup is lost: while the peer is open and a requester waits, there
    are as many requesters awake as requests nobody is at; so some requester
    can always get to each of them by itself, in four steps at most. *)
Theorem webseed_no_lost_wakeup (n : nat) (s : webseedPeer) (r : Z) :
  reachable n s → (0 < n)%nat → wsClosed s = false → r ∈ startable s →
  (∀ k, requesters s !! k = Some Idle → (size (startable s) ≤ countOf isAwake (requesters s))%nat)
  ∧ ∃ k ls s', (length ls ≤ 4)%nat ∧ Forall (stepOf k) ls ∧ runs s ls s' ∧ requesters s' !! k = Some (Fetching r).
Proof.
  intros Hr Hn Hc Hs. pose proof (reachable_wsOk n s Hr) as H. split.
  - intros k Hk. pose proof (countOf_pos isIdle _ k Idle Hk eq_refl). destruct (ok_wake s H); lia.
  - assert (∃ k p, requesters s !! k = Some p ∧ p ≠ Idle) as (k & p & Hk & Hp); [|exists k; by eapply run_busy].
    destruct (ok_wake s H) as [Hi|Ha].
    + destruct (requesters s !! O) as [p|] eqn:E.
      * exists O, p. split; [done|]. intros ->. pose proof (countOf_pos isIdle _ O Idle E eq_refl). lia.
      * apply not_elem_of_dom in E. rewrite (reachable_dom n s Hr), elem_of_set_seq in E. lia.
    + destruct (countOf_ex isAwake (requesters s)) as (k & p & Hk & Hp); [|exists k, p; split; [done|by intros ->]].
      assert (size (startable s) ≠ O) by (apply size_non_empty_iff; set_solver). lia.
Qed.

Lemma webseed_steps_safe_witness :
  ∃ s, reachable 2 s ∧ requesters s !! 0%nat = Some (Fetching 7)
    ∧ (∀ res, wstep s (WResult 0 FetchUseful) = Some res → ∃ s', res = Ok s')
    ∧ requesters s !! 1%nat ≠ Some (Fetching 7).
Proof.
  assert (H : ∃ s, runs (newWebseedPeer 2) [WRequest 4 7 None; WStart 0 7] s ∧ requesters s !! 0%nat = Some (Fetching 7)).
  { eexists. split; [run_steps|]. vm_compute. done. }
  destruct H as (s & Hr & H0). assert (Hs : reachable 2 s) by (eapply wruns_reachable, Hr; constructor).
  destruct (webseed_steps_safe 2 s Hs) as (Hp & H1 & _).
  exists s. split_and!; [done|done|by intros res; apply Hp|]. intros Hk. discriminate (H1 0%nat 1%nat 7 H0 Hk).
Defined.

Lemma webseed_no_lost_wakeup_witness :
  ∃ s, reachable 2 s ∧ 8 ∈ startable s ∧ requesters s !! 1%nat = Some Idle
    ∧ ∃ k ls s', (length ls ≤ 4)%nat ∧ Forall (stepOf k) ls ∧ runs s ls s' ∧ requesters s' !! k = Some (Fetching 8).
Proof.
  assert (H : ∃ s, runs (newWebseedPeer 2) [WWait 0; WWait 1; WRequest 4 8 (Some 0%nat)] s
    ∧ wsClosed s = false ∧ 8 ∈ startable s ∧ requesters s !! 1%nat = Some Idle).
  { eexists. split; [run_steps|].
    split_and!; [done| |vm_compute; reflexivity]. apply (bool_decide_eq_true_1 _). vm_compute. reflexivity. }
  destruct H as (s & Hr & Hc & Hs & Hi).
  assert (Hs2 : reachable 2 s) by (eapply wruns_reachable, Hr; constructor).
  exists s. split_and!; [done..|].
  apply (webseed_no_lost_wakeup 2 s 8); [done|lia|done|done].
Defined.

(** ** A request that is forgotten *)

(** A request is made again after its result has been handled and before its
    requester deletes it from [activeRequests], and then cancelled: the peer
    waits for a result that was delivered before, and does not request it
    again. *)
Definition forgottenRun : list wlabel :=
  [WRequest 4 7 None; WStart 0 7; WResult 0 FetchErr; WRequest 4 7 None; WCancel 7; WDelete 0].

Lemma forgotten_step s l s' r :
  wsOk s → r ∈ Cancelled s → r ∉ activeRequests s → wstep s l = Some (Ok s') →
  r ∈ Cancelled s' ∧ r ∉ activeRequests s'.
Proof.
  intros Hok Hc Ha. destruct l as [limit x woken|x|k x|k|k|k result|k|k|k|torrent]; cbn [wstep];
    try (destruct (requesters s !! k) as [[]|] eqn:Hk; try done).
  - case_bool_decide as H; [|done]. intros [= E]. destruct H as (Hxc & Hcl & Hroom & Hw).
    destruct (request_requestsOk limit s x) as (s1 & E' & _ & _ & EC & EA & _); [apply Hok|done..|].
    rewrite E' in E. case_bool_decide; simplify_eq; [done|]. destruct woken as [k|]; cbn; by rewrite ?EC, ?EA.
  - case_bool_decide as H; [|done]. intros [= E].
    destruct (cancel_requestsOk s x Hok H) as (s1 & E' & _ & _ & EC & EA & _). rewrite E' in E. simplify_eq. rewrite EC, EA.
    case_bool_decide; set_solver.
  - destruct (negb _ && _) eqn:H; [|done]. intros [= <-]. apply andb_true_iff in H as [_ H%bool_decide_eq_true].
    cbn. split; [done|]. pose proof (ok_disjoint s Hok). unfold startable in H. set_solver.
  - destruct (negb _ && _); [|done]. by intros [= <-].
  - destruct (wsClosed s); [|done]. by intros [= <-].
  - rename r0 into x. assert (x ∈ activeRequests s) by (apply Hok; by exists k, (Fetching x)).
    intros [= E]. unfold requestResultHandler in E.
    destruct (result_requestsOk s k x) as (s1 & E1 & E2 & _ & _ & EC & EA & _); [apply Hok|done|].
    rewrite E1, E2 in E. destruct (wsTorrentClosed s); [by simplify_eq|].
    destruct result; cbn in E; simplify_eq; cbn; rewrite EC, EA; set_solver.
  - by intros [= <-].
  - intros [= <-]. cbn. set_solver.
  - by intros [= <-].
  - intros [= E]. unfold close in E. destruct (wsClosed s); [by simplify_eq|].
    destruct (cancelAllRequests_requestsOk (set_closed torrent s)) as (s1 & E' & _ & _ & EA & EC & _);
      [by destruct Hok as [[] _ _ _]; split|].
    unfold onClose in E. rewrite E' in E. cbn in E. simplify_eq. cbn. rewrite EA. cbn in *. set_solver.
Qed.

Theorem cancelled_request_forgotten :
  ∃ s, reachable 1 s ∧ wsClosed s = false ∧ activeRequests s = ∅
    ∧ ∀ ls s', runs s ls s' → 7 ∈ Cancelled s' ∧ ∀ k, requesters s' !! k ≠ Some (Fetching 7).
Proof.
  assert (H : ∃ s, runs (newWebseedPeer 1) forgottenRun s ∧ wsClosed s = false ∧ activeRequests s = ∅ ∧ 7 ∈ Cancelled s).
  { eexists. split; [run_steps|]. vm_compute. done. }
  destruct H as (s & Hr & Hcl & HA & HC). assert (Hs : reachable 1 s) by (eapply wruns_reachable, Hr; constructor).
  exists s. split_and!; try done. intros ls s' Hls.
  assert (Hn : 7 ∉ activeRequests s) by set_solver. clear Hr Hcl HA.
  induction Hls as [s|s l s1 ls s2 Hl _ IH].
  - split; [done|]. intros k Hk. apply Hn. apply (ok_busy s (reachable_wsOk 1 s Hs)). by exists k, (Fetching 7).
  - destruct (forgotten_step s l s1 7 (reachable_wsOk 1 s Hs) HC Hn Hl). apply IH; eauto using reachable_step.
Qed.
