(* ===== verification/Magnet.v ===== *)
(** Magnet links and torrent specifications: src/metainfo/magnet.go,
    src/types/infohash/infohash.go, [MetaInfo.Magnet] of
    src/metainfo/metainfo.go, [TorrentSpecFromMagnetUri] of src/spec.go and
    [addTrackers] of src/torrent.go.

    Of package net/url, what a magnet link goes through is written out; whether
    the authority and the path of a link with slashes after its scheme are
    accepted is a parameter.  [hex.Decode] and [base32.Decode] are written out. *)
From stdpp Require Import base numbers list gmap strings.
From Stdlib Require Import ZArith Lia.
From S2P Require Import Prelude Metainfo Decimal Bencode Percent OpenTorrent Trackers HttpServer.
Open Scope Z_scope.

(** ** [url.Values] *)
Definition valuesOf (q : Values) (key : list Z) : list (list Z) :=
  match list_find (λ e, e.1 = key) q with Some (_, e) => e.2 | None => [] end.

Definition valuesGet (q : Values) (key : list Z) : list Z := default [] (head (valuesOf q key)).
Definition valuesDel (q : Values) (key : list Z) : Values := List.filter (λ e, negb (bool_decide (e.1 = key))) q.
Definition addPair (q : Values) (e : list Z * list Z) : Values := Values_Add q e.1 e.2.

(** [URL.Query]. *)
Definition Query (rawQuery : list Z) : Values := foldl addPair [] (ParseQuery rawQuery).

(** ** Decoders *)
Fixpoint hexDecode (s : list Z) : option (list Z) :=
  match s with
  | [] => Some []
  | a :: b :: s => x ← unhex a; y ← unhex b; r ← hexDecode s; Some (Z.lor (Z.shiftl x 4) y :: r)
  | _ => None
  end.

(** The value of a character of [base32.StdEncoding]. *)
Definition base32Val (c : Z) : option Z :=
  if (65 <=? c) && (c <=? 90) then Some (c - 65)
  else if (50 <=? c) && (c <=? 55) then Some (c - 24)
  else None.

(** The bytes eight characters stand for. *)
Definition quantumByte (d : list Z) (k : nat) : Z :=
  let at_ i := default 0 (d !! i) in
  u8 match k with
     | 0 => Z.lor (Z.shiftl (at_ 0) 3) (Z.shiftr (at_ 1) 2)
     | 1 => Z.lor (Z.lor (Z.shiftl (at_ 1) 6) (Z.shiftl (at_ 2) 1)) (Z.shiftr (at_ 3) 4)
     | 2 => Z.lor (Z.shiftl (at_ 3) 4) (Z.shiftr (at_ 4) 1)
     | 3 => Z.lor (Z.lor (Z.shiftl (at_ 4) 7) (Z.shiftl (at_ 5) 2)) (Z.shiftr (at_ 6) 3)
     | _ => Z.lor (Z.shiftl (at_ 6) 5) (at_ 7)
     end%nat.

(** How many bytes [dlen] characters give. *)
Definition quantumLen (dlen : nat) : nat :=
  match dlen with 8 => 5 | 7 => 4 | 5 => 3 | 4 => 2 | 2 => 1 | _ => 0 end%nat.

(** The characters of a quantum: nothing for a corrupt input; whether padding
    ended it, and the rest of the input. *)
Fixpoint quantum (j : nat) (dbuf : list Z) (fuel : nat) (src : list Z) : option (list Z * bool * list Z) :=
  match fuel with
  | O => Some (dbuf, false, src)
  | S fuel =>
      match src with
      | [] => None
      | c :: src =>
          if (c =? 61) && (2 <=? j)%nat && (length src <? 8)%nat then
            if (length src + j <? 7)%nat then None
            else if negb (forallb (Z.eqb 61) (take (7 - j) src)) then None
            else if bool_decide (j ∈ [1; 3; 6]%nat) then None
            else Some (dbuf, true, src)
          else d ← base32Val c; quantum (S j) (dbuf ++ [d]) fuel src
      end
  end.

Fixpoint base32Quanta (fuel : nat) (src : list Z) : option (list Z) :=
  match fuel with
  | O => Some []
  | S fuel =>
      match src with
      | [] => Some []
      | _ =>
          '(dbuf, end_, src) ← quantum 0 [] 8 src;
          r ← (if end_ : bool then Some [] else base32Quanta fuel src);
          Some (map (quantumByte dbuf) (seq 0 (quantumLen (length dbuf))) ++ r)
      end
  end.

(** [base32.StdEncoding.Decode]: line breaks are skipped. *)
Definition base32Decode (s : list Z) : option (list Z) :=
  let src := filter (λ c, c ≠ 13 ∧ c ≠ 10) s in base32Quanta (length src) src.

(** ** infohash.go *)
Definition Size : nat := 20.

Definition FromHexString (s : list Z) : option (list Z) :=
  if negb (Nat.eqb (length s) (2 * Size)) then None else hexDecode s.

(** ** magnet.go *)
Record Magnet : Type := mkMagnet {
  mInfoHash : list Z;
  mTrackers : list (list Z);
  mDisplayName : list Z;
  Params : Values
}.

Definition xtPrefix : list Z := goBytes "urn:btih:".

(** [Magnet.String]; [URL.String] puts the query after [magnet:?]. *)
Definition Magnet_String (m : Magnet) : list Z :=
  let vs := foldl (λ vs tr, Values_Add vs (goBytes "tr") tr) (Params m) (mTrackers m) in
  let vs := if bool_decide (mDisplayName m = []) then vs else Values_Add vs (goBytes "dn") (mDisplayName m) in
  let rawQuery := goBytes "xt=" ++ xtPrefix ++ goBytes (HexString (mInfoHash m)) in
  goBytes "magnet:?" ++ rawQuery ++ (if bool_decide (vs = []) then [] else 38 :: Values_Encode vs).

Definition dropFirst (vs : Values) (key : list Z) : Values :=
  match valuesOf vs key with
  | [] | [_] => valuesDel vs key
  | _ :: sl => updValues vs key (λ _, sl)
  end.

Definition stripPrefix (p s : list Z) : option (list Z) :=
  if bool_decide (take (length p) s = p) then Some (drop (length p) s) else None.

(** Nothing for an error. *)
Definition parseInfohash (xt : list Z) : go (option (list Z)) :=
  match stripPrefix xtPrefix xt with
  | None => Ok None
  | Some encoded =>
      let decode :=
        if Nat.eqb (length encoded) 40 then Some hexDecode
        else if Nat.eqb (length encoded) 32 then Some base32Decode else None in
      match decode with
      | None => Ok None
      | Some decode =>
          match decode encoded with
          | None => Ok None
          | Some ih => if Nat.eqb (length ih) Size then Ok (Some ih) else Panic "n != 20"
          end
      end
  end.

(** ** [url.Parse] *)
Inductive schemeRes : Type := SNone | SErr | SScheme (scheme rest : list Z).

Definition isLetter (c : Z) : bool := ((97 <=? c) && (c <=? 122)) || ((65 <=? c) && (c <=? 90)).

Fixpoint getScheme (first : bool) (acc s : list Z) : schemeRes :=
  match s with
  | [] => SNone
  | c :: s =>
      if isLetter c then getScheme false (acc ++ [c]) s
      else if isDigit c || bool_decide (c ∈ [43; 45; 46]) then
        if first then SNone else getScheme false (acc ++ [c]) s
      else if c =? 58 then if first then SErr else SScheme acc s
      else SNone
  end.

Definition toLower (c : Z) : Z := if (65 <=? c) && (c <=? 90) then c + 32 else c.

Section ParseUri.
Context (hierOk : list Z → bool).

(** The scheme and the raw query of a URL with a scheme; nothing for an error
    or no scheme. *)
Definition parseURL (rawURL : list Z) : option (list Z * list Z) :=
  let '(u, frag) := cut 35 rawURL in
  if existsb (λ c, (c <? 32) || (c =? 127)) u then None
  else
    match getScheme true [] u with
    | SScheme scheme rest =>
        let '(rest, rawQuery) := cut 63 rest in
        if match rest with 47 :: _ => negb (hierOk rest) | _ => false end then None
        else match unescape frag with None => None | Some _ => Some (map toLower scheme, rawQuery) end
    | _ => None
    end.

Definition ParseMagnetUri (uri : list Z) : go (option Magnet) :=
  match parseURL uri with
  | None => Ok None
  | Some (scheme, rawQuery) =>
      if bool_decide (scheme ≠ goBytes "magnet") then Ok None
      else
        let q := Query rawQuery in
        ih ← parseInfohash (valuesGet q (goBytes "xt"));
        match ih with
        | None => Ok None
        | Some ih =>
            let q := dropFirst q (goBytes "xt") in
            let dn := valuesGet q (goBytes "dn") in
            let q := dropFirst q (goBytes "dn") in
            let trackers := valuesOf q (goBytes "tr") in
            Ok (Some (mkMagnet ih trackers dn (valuesDel q (goBytes "tr"))))
        end
  end.
End ParseUri.

(** ** metainfo.go *)

(** The info hash is given, or is that of the metainfo. *)
Definition MetaInfo_Magnet (announceList : list (list string)) (announce : string) (urlList : list (list Z))
    (infoHash : list Z) (info : option Info) : Magnet :=
  mkMagnet infoHash (map goBytes (DistinctValues (UpvertedAnnounceList announceList announce)))
    (match info with Some i => goBytes (BestName i) | None => [] end) [(goBytes "ws", urlList)].

(** ** spec.go *)
Record TorrentSpec : Type := mkSpec {
  spTrackers : list (list (list Z));
  spInfoHash : list Z;
  spDisplayName : list Z;
  Webseeds : list (list Z);
  PeerAddrs : list (list Z);
  Sources : list (list Z)
}.

Definition TorrentSpecFromMagnetUri (hierOk : list Z → bool) (uri : list Z) : go (option TorrentSpec) :=
  m ← ParseMagnetUri hierOk uri;
  Ok (m ← m;
      Some (mkSpec [mTrackers m] (mInfoHash m) (mDisplayName m)
              (valuesOf (Params m) (goBytes "ws")) (valuesOf (Params m) (goBytes "x.pe"))
              (valuesOf (Params m) (goBytes "xs") ++ valuesOf (Params m) (goBytes "as")))).

(** ** torrent.go: announce lists *)
Fixpoint appendMissing (old ret new : list (list Z)) : list (list Z) :=
  match new with
  | [] => ret
  | n :: new => appendMissing old (if bool_decide (n ∈ old) then ret else ret ++ [n]) new
  end.

Definition appendMissingStrings (old new : list (list Z)) : list (list Z) := appendMissing old old new.

Definition appendMissingTrackerTiers (existing : list (list (list Z))) (minNumTiers : nat) : list (list (list Z)) :=
  existing ++ replicate (minNumTiers - length existing) [].

Fixpoint addTiers (tierIndex : nat) (announceList full : list (list (list Z))) : list (list (list Z)) :=
  match announceList with
  | [] => full
  | trackerURLs :: announceList =>
      addTiers (S tierIndex) announceList (alter (λ tier, appendMissingStrings tier trackerURLs) tierIndex full)
  end.

(** The announce list of the torrent's metainfo afterwards. *)
Definition addTrackers (full announceList : list (list (list Z))) : list (list (list Z)) :=
  addTiers 0 announceList (appendMissingTrackerTiers full (length announceList)).

(** ** Values by key *)
Lemma valuesOf_cons e q key : valuesOf (e :: q) key = if bool_decide (e.1 = key) then e.2 else valuesOf q key.
Proof.
  unfold valuesOf. cbn. destruct (decide (e.1 = key)) as [H|H].
  - by rewrite bool_decide_eq_true_2.
  - rewrite bool_decide_eq_false_2 by done. by destruct (list_find _ q) as [[]|].
Qed.

Lemma valuesOf_upd q k f key : valuesOf (updValues q k f) key = if bool_decide (key = k) then f (valuesOf q k) else valuesOf q key.
Proof.
  induction q as [|[k' vs] q IH]; cbn [updValues].
  - rewrite valuesOf_cons. cbn. repeat case_bool_decide; congruence.
  - destruct (bool_decide_reflect (k' = k)); rewrite !valuesOf_cons; cbn [fst snd]; rewrite ?IH; repeat case_bool_decide; congruence.
Qed.

Lemma valuesOf_del q k key : valuesOf (valuesDel q k) key = if bool_decide (key = k) then [] else valuesOf q key.
Proof.
  induction q as [|[k' vs] q IH]; [by destruct (bool_decide _)|]. cbn [valuesDel List.filter fst]. fold (valuesDel q k).
  destruct (bool_decide_reflect (k' = k)); cbn [negb]; rewrite !valuesOf_cons, ?IH; cbn [fst snd]; repeat case_bool_decide; congruence.
Qed.

Lemma valuesOf_dropFirst q k key :
  valuesOf (dropFirst q k) key = if bool_decide (key = k) then tail (valuesOf q k) else valuesOf q key.
Proof. unfold dropFirst. destruct (valuesOf q k) as [|v [|w l]] eqn:E; rewrite ?valuesOf_del, ?valuesOf_upd; done. Qed.

(** The values of a key in a list of pairs. *)
Definition valuesIn (l : list (list Z * list Z)) (key : list Z) : list (list Z) := map snd (filter (λ e, e.1 = key) l).

Lemma valuesIn_app l l' key : valuesIn (l ++ l') key = valuesIn l key ++ valuesIn l' key.
Proof. unfold valuesIn. by rewrite filter_app, map_app. Qed.

Lemma valuesOf_adds l : ∀ q key, valuesOf (foldl addPair q l) key = valuesOf q key ++ valuesIn l key.
Proof.
  induction l as [|[k v] l IH]; intros q key; [by rewrite app_nil_r|]. cbn [foldl]. rewrite IH.
  unfold addPair, Values_Add, valuesIn. cbn [fst snd]. rewrite valuesOf_upd, filter_cons. cbn [fst].
  destruct (bool_decide_reflect (key = k)) as [->|H].
  - rewrite decide_True by done. cbn [map snd]. by rewrite <- app_assoc.
  - by rewrite decide_False by congruence.
Qed.

Lemma valuesOf_Query s key : valuesOf (Query s) key = valuesIn (ParseQuery s) key.
Proof. apply (valuesOf_adds _ []). Qed.

Lemma valuesOf_missing q key : key ∉ q.*1 → valuesOf q key = [].
Proof.
  induction q as [|e q IH]; [done|]. cbn. rewrite not_elem_of_cons, valuesOf_cons. intros [Hn Hq].
  rewrite bool_decide_eq_false_2 by congruence. auto.
Qed.

Lemma valuesOf_elem q key vs : NoDup q.*1 → (key, vs) ∈ q → valuesOf q key = vs.
Proof.
  induction q as [|[k ws] q IH]; [set_solver|]. cbn. rewrite NoDup_cons, elem_of_cons, valuesOf_cons. cbn.
  intros [Hn Hd] [[= -> ->]|H]; [by rewrite bool_decide_eq_true_2|].
  rewrite bool_decide_eq_false_2; [auto|]. intros ->. apply Hn, list_elem_of_fmap. by exists (key, vs).
Qed.

Lemma valuesOf_perm q q' key : q ≡ₚ q' → NoDup q.*1 → valuesOf q key = valuesOf q' key.
Proof.
  intros Hp Hd. destruct (decide (key ∈ q.*1)) as [H|H].
  - apply list_elem_of_fmap in H as ([k vs] & -> & Hin). rewrite (valuesOf_elem q _ vs) by done.
    symmetry. apply valuesOf_elem; [by rewrite <- Hp|]. by rewrite <- Hp.
  - rewrite !valuesOf_missing; [done| |done]. by rewrite <- Hp.
Qed.

Lemma valuesIn_pairs q key : NoDup q.*1 → valuesIn (pairs q) key = valuesOf q key.
Proof.
  assert (Hv : ∀ k vs, valuesIn (map (pair k) vs) key = if bool_decide (k = key) then vs else []).
  { intros k vs. unfold valuesIn. induction vs as [|v vs IH]; [by destruct (bool_decide _)|]. cbn [map]. rewrite filter_cons.
    cbn [fst]. destruct (decide (k = key)) as [H|H]; case_bool_decide; try done. cbn. congruence. }
  induction q as [|[k vs] q IH]; [done|]. rewrite fmap_cons, NoDup_cons. intros [Hn Hd].
  change (pairs ((k, vs) :: q)) with (map (pair k) vs ++ pairs q). rewrite valuesIn_app, Hv, valuesOf_cons. cbn [fst snd]. rewrite (IH Hd).
  destruct (bool_decide_reflect (k = key)) as [->|]; [|done]. rewrite valuesOf_missing by done. by rewrite app_nil_r.
Qed.

Lemma upd_keys q k f : NoDup q.*1 → NoDup (updValues q k f).*1.
Proof.
  assert (Hin : ∀ q x, x ∈ (updValues q k f).*1 → x = k ∨ x ∈ q.*1).
  { clear. induction q as [|[k' vs] q IH]; cbn; [set_solver|]. intros x. case_bool_decide; cbn; [set_solver|].
    rewrite elem_of_cons. intros [->|H']; [set_solver|]. apply IH in H' as [->|]; set_solver. }
  induction q as [|[k' vs] q IH]; cbn; [intros _; by apply NoDup_singleton|].
  rewrite NoDup_cons. intros [Hn Hd]. case_bool_decide; cbn; apply NoDup_cons; [done|]. split; [|auto].
  by intros [->|]%Hin.
Qed.

(** ** Queries as [Values.Encode] writes them *)
Definition plusDec (c : Z) : Z := if c =? 43 then 32 else c.

Lemma map_flat_map {A B C} (f : B → C) (g : A → list B) l : map f (flat_map g l) = flat_map (λ x, map f (g x)) l.
Proof. induction l; cbn; [done|]. rewrite map_app. congruence. Qed.

Lemma QueryUnescape_escape s : bytes_ok s → QueryUnescape (escape encodeQueryComponent s) = Some s.
Proof.
  intros Hs. unfold QueryUnescape, escape. change (λ c : Z, if c =? 43 then 32 else c) with plusDec. rewrite map_flat_map.
  apply (enc_roundtrip [38]); [vm_compute; reflexivity|done].
Qed.

(** What an escaped string can hold. *)
Definition queryChar (c : Z) : bool := (33 <=? c) && (c <=? 126) && bool_decide (c ∉ [35; 38; 59; 61; 63]).

Lemma escape_chars s : bytes_ok s → forallb queryChar (escape encodeQueryComponent s) = true.
Proof.
  induction 1 as [|c s Hc _ IH]; [done|]. change (escape encodeQueryComponent (c :: s)) with (escapeByte encodeQueryComponent c ++ escape encodeQueryComponent s).
  rewrite forallb_app, IH, andb_true_r.
  apply (forall_byte (λ c, forallb queryChar (escapeByte encodeQueryComponent c))); [vm_compute; reflexivity|done].
Qed.

Lemma queryChar_not c y : queryChar c = true → y ∈ [35; 38; 59; 61; 63] → c ≠ y.
Proof. unfold queryChar. rewrite !andb_true_iff, bool_decide_eq_true. intros [_ H] Hy ->. done. Qed.

Lemma queryChars_not s y : forallb queryChar s = true → y ∈ [35; 38; 59; 61; 63] → Forall (λ x, x ≠ y) s.
Proof.
  intros H Hy. apply Forall_forall. intros x Hx%list_elem_of_In. rewrite forallb_forall in H. eauto using queryChar_not.
Qed.

Lemma queryPair_chars k v k' v' :
  forallb queryChar k = true → forallb queryChar v = true → QueryUnescape k = Some k' → QueryUnescape v = Some v' →
  queryPair (k ++ 61 :: v) = Some (k', v').
Proof.
  intros Hk Hv Ek Ev. apply queryPair_parts; try done; [|apply queryChars_not; [done|set_solver]].
  apply Forall_app. split; [|constructor; [done|]]; (apply queryChars_not; [done|set_solver]).
Qed.

Lemma encodePair_read e : pair_ok e →
  queryPair (encodePair e) = Some e ∧ Forall (λ x, x ≠ 38) (encodePair e) ∧ Forall (λ x, 33 ≤ x ≤ 126 ∧ x ≠ 35) (encodePair e).
Proof.
  destruct e as [k v]. intros [Hk Hv]. unfold encodePair. cbn [fst snd] in *.
  pose proof (escape_chars k Hk) as Ck. pose proof (escape_chars v Hv) as Cv.
  assert (Hr : ∀ s, forallb queryChar s = true → Forall (λ x, 33 ≤ x ≤ 126 ∧ x ≠ 35) s).
  { intros s Hs. apply Forall_forall. intros x Hx%list_elem_of_In. rewrite forallb_forall in Hs. specialize (Hs x Hx).
    split; [unfold queryChar in Hs; lia|]. eapply queryChar_not; [done|set_solver]. }
  split_and!.
  - apply queryPair_chars; auto using QueryUnescape_escape.
  - apply Forall_app. split; [|constructor; [done|]]; (apply queryChars_not; [done|set_solver]).
  - apply Forall_app. split; [|constructor; [lia|]]; auto.
Qed.

Lemma Forall_Join (P : Z → Prop) sep ws : P sep → Forall (Forall P) ws → Forall P (strings_Join ws sep).
Proof.
  intros Hs Hw. apply Forall_forall. intros x [->|(w & Hin & Hx)]%elem_of_Join; [done|].
  rewrite Forall_forall in Hw. specialize (Hw w Hin). rewrite Forall_forall in Hw. auto.
Qed.

(** What follows the encoding of [ps] in a query is read after them. *)
Lemma ParseQuery_pairs ps : Forall pair_ok ps → ParseQuery (strings_Join (map encodePair ps) 38) = ps.
Proof.
  intros Hps. destruct (decide (ps = [])) as [->|Hne]; [done|]. unfold ParseQuery.
  rewrite splitOn_Join; [|by destruct ps|].
  - clear Hne. induction Hps as [|e ps He _ IH]; [done|]. cbn [map]. change (omap queryPair (?x :: ?l)) with
      (match queryPair x with Some y => y :: omap queryPair l | None => omap queryPair l end).
    rewrite (proj1 (encodePair_read e He)). f_equal. exact IH.
  - apply Forall_map, (Forall_impl _ _ _ Hps). intros e He. apply encodePair_read, He.
Qed.

Lemma ParseQuery_cat s t : ParseQuery (s ++ 38 :: t) = ParseQuery s ++ ParseQuery t.
Proof. unfold ParseQuery. by rewrite splitOn_cat, omap_app. Qed.

(** ** Info hashes in links *)
Definition hexChar (c : Z) : bool := match unhex c with Some _ => queryChar c && negb (c =? 37) && negb (c =? 43) && (c <? 128) | None => false end.

Definition hexByteOk (b : Z) : bool :=
  let s := goBytes (HexString [b]) in
  bool_decide (hexDecode s = Some [b]) && bool_decide (length s = 2%nat) && forallb hexChar s.

Lemma hex_byte b : in_u8 b →
  hexDecode (goBytes (HexString [b])) = Some [b] ∧ length (goBytes (HexString [b])) = 2%nat ∧ forallb hexChar (goBytes (HexString [b])) = true.
Proof.
  intros Hb. assert (H : hexByteOk b = true) by (apply (forall_byte hexByteOk); [vm_compute; reflexivity|done]).
  unfold hexByteOk in H. rewrite !andb_true_iff, !bool_decide_eq_true in H. tauto.
Qed.

Lemma hex_roundtrip h : bytes_ok h →
  hexDecode (goBytes (HexString h)) = Some h ∧ length (goBytes (HexString h)) = (2 * length h)%nat ∧ forallb hexChar (goBytes (HexString h)) = true.
Proof.
  induction 1 as [|b h Hb _ (IH1 & IH2 & IH3)]; [done|]. destruct (hex_byte b Hb) as (H1 & H2 & H3).
  change (goBytes (HexString (b :: h))) with (goBytes (HexString [b]) ++ goBytes (HexString h)).
  destruct (goBytes (HexString [b])) as [|x [|y [|]]]; try done. cbn [app hexDecode] in *.
  rewrite IH1, length_cons, length_cons, IH2. split_and!; [|cbn; lia|].
  - destruct (unhex x); [|done]. destruct (unhex y); [|done]. cbn in *. by simplify_eq.
  - cbn [forallb] in *. rewrite IH3. destruct (hexChar x), (hexChar y); done.
Qed.

Lemma plain_unescape s : Forall (λ c, c ≠ 37 ∧ c ≠ 43) s → QueryUnescape s = Some s.
Proof.
  unfold QueryUnescape. induction 1 as [|c s [H1 H2] _ IH]; [done|]. cbn [map]. rewrite (proj2 (Z.eqb_neq c 43)) by done.
  rewrite unescape_cons, IH by done. done.
Qed.

Definition xtValue (h : list Z) : list Z := xtPrefix ++ goBytes (HexString h).

Lemma xtValue_chars h : bytes_ok h →
  forallb queryChar (xtValue h) = true ∧ QueryUnescape (xtValue h) = Some (xtValue h).
Proof.
  intros Hh. destruct (hex_roundtrip h Hh) as (_ & _ & H3). unfold xtValue. split.
  - rewrite forallb_app, andb_true_iff. split; [done|]. apply forallb_forall. intros x Hx. rewrite forallb_forall in H3.
    specialize (H3 x Hx). unfold hexChar in H3. destruct (unhex x); [|done]. by destruct (queryChar x).
  - apply plain_unescape, Forall_app. split; [by repeat constructor|]. apply Forall_forall. intros x Hx%list_elem_of_In.
    rewrite forallb_forall in H3. specialize (H3 x Hx). unfold hexChar in H3. destruct (unhex x); [|done]. lia.
Qed.

Lemma parseInfohash_xtValue h : bytes_ok h → length h = Size → parseInfohash (xtValue h) = Ok (Some h).
Proof.
  intros Hh Hl. destruct (hex_roundtrip h Hh) as (H1 & H2 & _). unfold parseInfohash, xtValue, stripPrefix.
  rewrite take_app_length, bool_decide_eq_true_2, drop_app_length by done. rewrite H2, Hl. cbn [Nat.mul Nat.add Nat.eqb Size].
  by rewrite H1, Hl.
Qed.

Lemma ParseQuery_xt h : bytes_ok h → ParseQuery (goBytes "xt=" ++ xtValue h) = [(goBytes "xt", xtValue h)].
Proof.
  intros Hh. destruct (xtValue_chars h Hh) as [Hc Hu].
  assert (E : goBytes "xt=" ++ xtValue h = goBytes "xt" ++ 61 :: xtValue h) by done. rewrite E.
  unfold ParseQuery. rewrite splitOn_none.
  - change (omap queryPair [?x]) with (match queryPair x with Some y => [y] | None => [] end).
    by rewrite (queryPair_chars _ _ (goBytes "xt") (xtValue h)).
  - apply Forall_app. split; [by repeat constructor|]. constructor; [done|]. apply queryChars_not; [done|set_solver].
Qed.

(** ** Links *)
Lemma cut_none sep s : Forall (λ x, x ≠ sep) s → cut sep s = (s, []).
Proof. induction 1 as [|c s Hc _ IH]; [done|]. cbn. by rewrite (proj2 (Z.eqb_neq c sep)), IH by done. Qed.

Lemma parseURL_magnet hierOk rq : Forall (λ x, 33 ≤ x ≤ 126 ∧ x ≠ 35) rq →
  parseURL hierOk (goBytes "magnet:?" ++ rq) = Some (goBytes "magnet", rq).
Proof.
  intros Hrq. unfold parseURL. rewrite cut_none.
  2: { apply Forall_app. split; [by repeat constructor|]. apply (Forall_impl _ _ _ Hrq). by intros x []. }
  replace (existsb _ (goBytes "magnet:?" ++ rq)) with false; [done|]. symmetry. rewrite existsb_app. cbn.
  apply not_true_iff_false. intros (x & Hx%list_elem_of_In & Ex)%existsb_exists.
  rewrite Forall_forall in Hrq. specialize (Hrq x Hx). lia.
Qed.

(** The values [Magnet.String] encodes. *)
Definition linkValues (m : Magnet) : Values :=
  let vs := foldl addPair (Params m) (map (pair (goBytes "tr")) (mTrackers m)) in
  if bool_decide (mDisplayName m = []) then vs else addPair vs (goBytes "dn", mDisplayName m).

Definition valuesOk (q : Values) : Prop := NoDup q.*1 ∧ Forall (λ e, bytes_ok e.1 ∧ Forall bytes_ok e.2) q.

Lemma upd_ok q k f : valuesOk q → bytes_ok k → (∀ vs, Forall bytes_ok vs → Forall bytes_ok (f vs)) → valuesOk (updValues q k f).
Proof.
  intros [Hd Hq] Hk Hf. split; [by apply upd_keys|]. clear Hd.
  induction Hq as [|[k' vs] q [Hk' Hvs] Hq IH]; cbn [updValues]; [repeat constructor; [done|apply Hf; constructor]|].
  case_bool_decide; constructor; cbn [fst snd] in *; auto.
Qed.

Lemma add_ok q e : valuesOk q → pair_ok e → valuesOk (addPair q e).
Proof. intros Hq [Hk Hv]. apply upd_ok; [done..|]. intros vs Hvs. apply Forall_app. split; [done|]. by constructor. Qed.

Lemma adds_ok l : ∀ q, valuesOk q → Forall pair_ok l → valuesOk (foldl addPair q l).
Proof. induction l as [|e l IH]; [done|]. intros q Hq [He Hl]%Forall_cons. cbn. apply IH; [by apply add_ok|done]. Qed.

Lemma pairs_ok q : valuesOk q → Forall pair_ok (pairs q).
Proof.
  intros [_ Hq]. unfold pairs. induction Hq as [|[k vs] q [Hk Hvs] _ IH]; [constructor|]. cbn [flat_map fst snd] in *.
  apply Forall_app. split; [|done]. apply Forall_map, (Forall_impl _ _ _ Hvs). by split.
Qed.

Definition magnetOk (m : Magnet) : Prop :=
  bytes_ok (mInfoHash m) ∧ length (mInfoHash m) = Size ∧ Forall bytes_ok (mTrackers m) ∧ bytes_ok (mDisplayName m)
  ∧ valuesOk (Params m) ∧ valuesOf (Params m) (goBytes "tr") = [] ∧ valuesOf (Params m) (goBytes "dn") = [].

Lemma foldl_map_tr trs q : foldl (λ vs tr, Values_Add vs (goBytes "tr") tr) q trs = foldl addPair q (map (pair (goBytes "tr")) trs).
Proof. revert q. induction trs; cbn; auto. Qed.

Lemma Magnet_String_spec m :
  Magnet_String m = goBytes "magnet:?" ++ (goBytes "xt=" ++ xtValue (mInfoHash m)) ++
    (if bool_decide (linkValues m = []) then [] else 38 :: Values_Encode (linkValues m)).
Proof. unfold Magnet_String, linkValues, xtValue. rewrite foldl_map_tr. by rewrite <- !app_assoc. Qed.

Lemma linkValues_ok m : magnetOk m → valuesOk (linkValues m).
Proof.
  intros (_ & _ & Ht & Hd & Hp & _). unfold linkValues. assert (Hg : ∀ s, bytes_ok (goBytes s)) by apply goBytes_ok.
  assert (H : valuesOk (foldl addPair (Params m) (map (pair (goBytes "tr")) (mTrackers m)))).
  { apply adds_ok; [done|]. apply Forall_map, (Forall_impl _ _ _ Ht). intros tr Htr. split; [apply Hg|done]. }
  case_bool_decide; [done|]. apply add_ok; [done|]. split; [apply Hg|done].
Qed.

Lemma linkValues_of m key : magnetOk m →
  valuesOf (linkValues m) key =
    if bool_decide (key = goBytes "tr") then mTrackers m
    else if bool_decide (key = goBytes "dn") then if bool_decide (mDisplayName m = []) then [] else [mDisplayName m]
    else valuesOf (Params m) key.
Proof.
  intros (_ & _ & _ & _ & _ & Ht & Hd). unfold linkValues.
  assert (Htr : valuesIn (map (pair (goBytes "tr")) (mTrackers m)) key = if bool_decide (key = goBytes "tr") then mTrackers m else []).
  { unfold valuesIn. induction (mTrackers m) as [|tr l IH]; [by destruct (bool_decide _)|]. cbn [map]. rewrite filter_cons.
    cbn [fst]. destruct (decide _), (bool_decide_reflect (key = goBytes "tr")); try congruence. cbn [map snd]. by rewrite IH. }
  assert (E : valuesOf (foldl addPair (Params m) (map (pair (goBytes "tr")) (mTrackers m))) key =
    if bool_decide (key = goBytes "tr") then mTrackers m else valuesOf (Params m) key).
  { rewrite valuesOf_adds, Htr. case_bool_decide as Hk; [by rewrite Hk, Ht|by rewrite app_nil_r]. }
  destruct (bool_decide (mDisplayName m = [])).
  - rewrite E. repeat case_bool_decide; congruence.
  - change (addPair ?q ?e) with (foldl addPair q [e]). rewrite valuesOf_adds, E. unfold valuesIn. rewrite filter_cons. cbn [fst].
    destruct (decide (goBytes "dn" = key)) as [<-|Hk].
    + rewrite bool_decide_eq_false_2 by done. by rewrite Hd, bool_decide_eq_true_2.
    + rewrite app_nil_r. case_bool_decide; [done|]. by rewrite bool_decide_eq_false_2 by congruence.
Qed.

Lemma link_query m : magnetOk m →
  ∃ rq, Magnet_String m = goBytes "magnet:?" ++ rq ∧ Forall (λ x, 33 ≤ x ≤ 126 ∧ x ≠ 35) rq
    ∧ ∀ key, valuesOf (Query rq) key = valuesIn [(goBytes "xt", xtValue (mInfoHash m))] key ++ valuesOf (linkValues m) key.
Proof.
  intros Hm. pose proof (linkValues_ok m Hm) as [Hd Hok]. destruct Hm as (Hih & _). rewrite Magnet_String_spec.
  eexists. split; [reflexivity|].
  assert (Hx : Forall (λ x, 33 ≤ x ≤ 126 ∧ x ≠ 35) (goBytes "xt=" ++ xtValue (mInfoHash m))).
  { apply Forall_app. split; [repeat constructor; done|]. destruct (xtValue_chars _ Hih) as [Hc _].
    apply Forall_forall. intros x Hx%list_elem_of_In. rewrite forallb_forall in Hc. specialize (Hc x Hx).
    split; [unfold queryChar in Hc; lia|]. eapply queryChar_not; [done|set_solver]. }
  assert (Hp : Forall pair_ok (pairs (sortKeys (linkValues m)))) by (rewrite pairs_sorted; by apply pairs_ok).
  case_bool_decide as He.
  - rewrite app_nil_r, He. split; [done|]. intros key. by rewrite valuesOf_Query, ParseQuery_xt, app_nil_r.
  - split.
    + apply Forall_app. split; [done|]. constructor; [lia|]. apply Forall_Join; [lia|].
      apply Forall_map, (Forall_impl _ _ _ Hp). intros e H. by apply encodePair_read.
    + intros key. rewrite valuesOf_Query, ParseQuery_cat, ParseQuery_xt by done. unfold Values_Encode.
      rewrite ParseQuery_pairs, valuesIn_app by done. f_equal.
      rewrite valuesIn_pairs by (by rewrite sortKeys_perm). symmetry. apply valuesOf_perm; [by rewrite sortKeys_perm|done].
Qed.

Lemma magnet_read hierOk m : magnetOk m →
  ∃ m', ParseMagnetUri hierOk (Magnet_String m) = Ok (Some m') ∧ mInfoHash m' = mInfoHash m ∧ mTrackers m' = mTrackers m
    ∧ mDisplayName m' = mDisplayName m ∧ ∀ key, valuesOf (Params m') key = valuesOf (Params m) key.
Proof.
  intros Hm. destruct (link_query m Hm) as (rq & -> & Hrq & Hq). pose proof Hm as (Hih & Hl & _ & _ & _ & Ht & Hd).
  unfold ParseMagnetUri. rewrite parseURL_magnet, bool_decide_eq_false_2 by (try done; intros []; done).
  assert (Hv : ∀ key, valuesOf (Query rq) key = (if bool_decide (key = goBytes "xt") then [xtValue (mInfoHash m)] else [])
      ++ valuesOf (linkValues m) key).
  { intros key. rewrite Hq. unfold valuesIn. rewrite filter_cons. cbn [fst].
    destruct (decide (goBytes "xt" = key)), (bool_decide_reflect (key = goBytes "xt")); try congruence; done. }
  assert (Hxt : valuesGet (Query rq) (goBytes "xt") = xtValue (mInfoHash m)) by (unfold valuesGet; by rewrite Hv).
  rewrite Hxt, parseInfohash_xtValue by done.
  eexists. split; [reflexivity|]. cbn [mInfoHash mTrackers mDisplayName Params mbind go_bind].
  split_and!; [done| | |intros key; rewrite valuesOf_del; destruct (bool_decide_reflect (key = goBytes "tr")) as [->|Hk]; [done|]];
    unfold valuesGet; rewrite !valuesOf_dropFirst, !Hv, !linkValues_of by done.
  - done.
  - cbn. by destruct (bool_decide_reflect (mDisplayName m = [])).
  - rewrite (bool_decide_eq_false_2 (key = goBytes "tr")) by done.
    destruct (bool_decide_reflect (key = goBytes "dn")) as [->|Hn]; [rewrite Hd; cbn; by destruct (mDisplayName m)|].
    destruct (bool_decide_reflect (key = goBytes "xt")) as [->|Hx]; done.
Qed.

(** C39. A magnet link read back is the magnet it was written from: the info
    hash, the trackers in their order, the display name and all values of every
    other parameter; so the torrent added from the link has them. *)
Theorem magnet_roundtrip hierOk m : magnetOk m →
  (∃ m', ParseMagnetUri hierOk (Magnet_String m) = Ok (Some m') ∧ mInfoHash m' = mInfoHash m ∧ mTrackers m' = mTrackers m
    ∧ mDisplayName m' = mDisplayName m ∧ ∀ key, valuesOf (Params m') key = valuesOf (Params m) key)
  ∧ TorrentSpecFromMagnetUri hierOk (Magnet_String m) =
      Ok (Some (mkSpec [mTrackers m] (mInfoHash m) (mDisplayName m) (valuesOf (Params m) (goBytes "ws"))
        (valuesOf (Params m) (goBytes "x.pe")) (valuesOf (Params m) (goBytes "xs") ++ valuesOf (Params m) (goBytes "as")))).
Proof.
  intros Hm. destruct (magnet_read hierOk m Hm) as (m' & E & E1 & E2 & E3 & E4). split; [by exists m'|].
  unfold TorrentSpecFromMagnetUri. rewrite E. cbn [mbind go_bind option_bind]. by rewrite E1, E2, E3, !E4.
Qed.

(** ** Base 32 *)
Definition base32Digits (ds : list Z) : Z := fold_left (λ acc d, acc * 32 + d) ds 0.

Definition digitsOf (s ds : list Z) : Prop := Forall2 (λ c d, base32Val c = Some d) s ds.

Lemma base32Val_range c d : base32Val c = Some d → 0 ≤ d < 32 ∧ c ∉ [10; 13; 61].
Proof.
  unfold base32Val. intros H.
  assert (Hr : 65 ≤ c ≤ 90 ∧ d = c - 65 ∨ 50 ≤ c ≤ 55 ∧ d = c - 24).
  { destruct (_ && _) eqn:E1 in H; [|destruct (_ && _) eqn:E2 in H]; simplify_eq; lia. }
  split; [lia|]. rewrite !not_elem_of_cons. split_and!; [lia..|]. apply not_elem_of_nil.
Qed.

Lemma quantum_chars cs ds src : digitsOf cs ds →
  ∀ j dbuf, quantum j dbuf (length cs) (cs ++ src) = Some (dbuf ++ ds, false, src).
Proof.
  induction 1 as [|c d cs ds Hc _ IH]; intros j dbuf; [by rewrite app_nil_r|]. cbn [length app quantum].
  destruct (base32Val_range c d Hc) as [_ Hn]. rewrite (proj2 (Z.eqb_neq c 61)) by (intros ->; set_solver). cbn [andb].
  rewrite Hc. cbn. rewrite IH. by rewrite <- app_assoc.
Qed.

Definition five : list Z := seqZ 0 32.

Lemma forall_five (P : Z → bool) : forallb P five = true → ∀ d, 0 ≤ d < 32 → P d = true.
Proof. intros H d Hd. rewrite forallb_forall in H. apply H, list_elem_of_In, elem_of_seqZ. lia. Qed.

Lemma forall_five2 (P : Z → Z → bool) : forallb (λ a, forallb (P a) five) five = true →
  ∀ a b, 0 ≤ a < 32 → 0 ≤ b < 32 → P a b = true.
Proof. intros H a b Ha Hb. apply (forall_five (P a)); [|done]. apply (forall_five (λ a, forallb (P a) five)); done. Qed.

Lemma forall_five3 (P : Z → Z → Z → bool) : forallb (λ a, forallb (λ b, forallb (P a b) five) five) five = true →
  ∀ a b c, 0 ≤ a < 32 → 0 ≤ b < 32 → 0 ≤ c < 32 → P a b c = true.
Proof. intros H a b c Ha Hb Hc. apply (forall_five (P a b)); [|done]. apply (forall_five2 (λ a b, forallb (P a b) five)); done. Qed.

Definition quantumBytes (ds : list Z) : list Z := map (quantumByte ds) (seq 0 (quantumLen (length ds))).

Lemma quantumBytes_eq d0 d1 d2 d3 d4 d5 d6 d7 : Forall (λ d, 0 ≤ d < 32) [d0; d1; d2; d3; d4; d5; d6; d7] →
  quantumBytes [d0; d1; d2; d3; d4; d5; d6; d7] =
  [8 * d0 + d1 / 4; 64 * (d1 mod 4) + 2 * d2 + d3 / 16; 16 * (d3 mod 16) + d4 / 2;
   128 * (d4 mod 2) + 4 * d5 + d6 / 8; 32 * (d6 mod 8) + d7].
Proof.
  rewrite !Forall_cons. intros (H0 & H1 & H2 & H3 & H4 & H5 & H6 & H7 & _).
  unfold quantumBytes, quantumByte. cbn [length quantumLen seq map default lookup list_lookup].
  repeat f_equal; cbn -[Z.lor Z.shiftl Z.shiftr Z.modulo Z.div Z.mul Z.add u8].
  - apply Z.eqb_eq, (forall_five2 (λ a b, u8 (Z.lor (Z.shiftl a 3) (Z.shiftr b 2)) =? 8 * a + b / 4)); [vm_compute; reflexivity|done..].
  - apply Z.eqb_eq, (forall_five3 (λ a b c, u8 (Z.lor (Z.lor (Z.shiftl a 6) (Z.shiftl b 1)) (Z.shiftr c 4)) =? 64 * (a mod 4) + 2 * b + c / 16));
      [vm_compute; reflexivity|done..].
  - apply Z.eqb_eq, (forall_five2 (λ a b, u8 (Z.lor (Z.shiftl a 4) (Z.shiftr b 1)) =? 16 * (a mod 16) + b / 2)); [vm_compute; reflexivity|done..].
  - apply Z.eqb_eq, (forall_five3 (λ a b c, u8 (Z.lor (Z.lor (Z.shiftl a 7) (Z.shiftl b 2)) (Z.shiftr c 3)) =? 128 * (a mod 2) + 4 * b + c / 8));
      [vm_compute; reflexivity|done..].
  - apply Z.eqb_eq, (forall_five2 (λ a b, u8 (Z.lor (Z.shiftl a 5) b) =? 32 * (a mod 8) + b)); [vm_compute; reflexivity|done..].
Qed.

Lemma digits_acc l : ∀ a, fold_left (λ acc b, acc * 32 + b) l a = a * 32 ^ Z.of_nat (length l) + base32Digits l.
Proof.
  unfold base32Digits. induction l as [|x l IH]; intros a; cbn [fold_left length]; [lia|].
  rewrite IH, (IH (0 * 32 + x)). rewrite Nat2Z.inj_succ, Z.pow_succ_r by lia. ring.
Qed.

Lemma quantumBytes_value ds : length ds = 8%nat → Forall (λ d, 0 ≤ d < 32) ds →
  be_decode (quantumBytes ds) = base32Digits ds ∧ length (quantumBytes ds) = 5%nat ∧ bytes_ok (quantumBytes ds).
Proof.
  intros Hl Hd. do 8 (destruct ds as [|? ds]; [done|]). destruct ds; [|done].
  rewrite quantumBytes_eq by done. rewrite !Forall_cons in Hd. destruct Hd as (? & ? & ? & ? & ? & ? & ? & ? & _).
  split_and!; [unfold be_decode, base32Digits; cbn [fold_left]; Z.to_euclidean_division_equations; lia|done|].
  repeat (constructor; [split; Z.to_euclidean_division_equations; lia|]). constructor.
Qed.

Lemma digits_range s ds : digitsOf s ds → Forall (λ d, 0 ≤ d < 32) ds.
Proof. induction 1 as [|c d s ds Hc _ IH]; [constructor|]. constructor; [by apply base32Val_range in Hc as [? _]|done]. Qed.

Lemma be_decode_app a b : be_decode (a ++ b) = be_decode a * 256 ^ Z.of_nat (length b) + be_decode b.
Proof. unfold be_decode at 1. rewrite fold_left_app. apply fold_be_acc. Qed.

Lemma base32Digits_app a b : base32Digits (a ++ b) = base32Digits a * 32 ^ Z.of_nat (length b) + base32Digits b.
Proof. unfold base32Digits at 1. rewrite fold_left_app. apply digits_acc. Qed.

Lemma base32Quanta_step fuel s ds src : digitsOf s ds → length s = 8%nat →
  base32Quanta (S fuel) (s ++ src) = (r ← base32Quanta fuel src; Some (quantumBytes ds ++ r)).
Proof.
  intros Hs Hl. pose proof (quantum_chars s ds src Hs 0 []) as Hq. rewrite Hl in Hq.
  cbn [base32Quanta]. destruct (s ++ src) as [|c t] eqn:E; [by destruct s|]. rewrite Hq. done.
Qed.

Lemma base32Quanta_value n : ∀ fuel s ds, (n ≤ fuel)%nat → length s = (8 * n)%nat → digitsOf s ds →
  ∃ b, base32Quanta fuel s = Some b ∧ be_decode b = base32Digits ds ∧ length b = (5 * n)%nat ∧ bytes_ok b.
Proof.
  induction n as [|n IH]; intros fuel s ds Hf Hl Hs.
  - destruct s; [|done]. apply Forall2_nil_inv_l in Hs as ->. exists []. destruct fuel; split_and!; done || constructor.
  - destruct fuel as [|fuel]; [lia|]. rewrite <- (take_drop 8 s) in Hs |- *.
    apply Forall2_app_inv_l in Hs as (ds1 & ds2 & H1 & H2 & ->).
    assert (L1 : length (take 8 s) = 8%nat) by (rewrite length_take; lia).
    assert (L2 : length (drop 8 s) = (8 * n)%nat) by (rewrite length_drop; lia).
    destruct (IH fuel (drop 8 s) ds2) as (b & Eb & Vb & Lb & Ob); [lia|done..|].
    pose proof (Forall2_length _ _ _ H1) as L3. pose proof (Forall2_length _ _ _ H2) as L4.
    destruct (quantumBytes_value ds1) as (Vq & Lq & Oq); [congruence|by eapply digits_range|].
    exists (quantumBytes ds1 ++ b). rewrite (base32Quanta_step _ _ ds1), Eb by done. split_and!; [done| | |].
    + rewrite be_decode_app, base32Digits_app, Vq, Vb, Lb, <- L4, L2.
      replace (Z.of_nat (5 * n)) with (5 * Z.of_nat n) by lia. replace (Z.of_nat (8 * n)) with (8 * Z.of_nat n) by lia.
      rewrite !Z.pow_mul_r by lia. done.
    + rewrite length_app, Lq, Lb. lia.
    + by apply Forall_app.
Qed.

(** The two encodings of an info hash in a link are of the same number: 32
    characters of base 32 give the 20 bytes of their value, as the 40
    hexadecimal digits of these bytes do. *)
Theorem infohash_encodings_agree s ds : digitsOf s ds → length s = 32%nat →
  ∃ ih, parseInfohash (xtPrefix ++ s) = Ok (Some ih) ∧ length ih = Size ∧ be_decode ih = base32Digits ds
    ∧ parseInfohash (xtPrefix ++ goBytes (HexString ih)) = Ok (Some ih).
Proof.
  intros Hs Hl. destruct (base32Quanta_value 4 32 s ds) as (b & Eb & Vb & Lb & Ob); [lia|done..|].
  exists b. split_and!; [|done|done|by apply parseInfohash_xtValue].
  unfold parseInfohash, stripPrefix. rewrite take_app_length, bool_decide_eq_true_2, drop_app_length, Hl by done.
  cbn [Nat.eqb]. unfold base32Decode. replace (filter _ s) with s; [by rewrite Hl, Eb, Lb|].
  clear - Hs. induction Hs as [|c d s ds Hc _ IH]; [done|]. apply base32Val_range in Hc as [_ Hn]. rewrite filter_cons, decide_True; [congruence|].
  rewrite !not_elem_of_cons in Hn. tauto.
Qed.

(** ** Announce lists *)
Lemma appendMissing_spec old new : ∀ ret, appendMissing old ret new = ret ++ filter (λ n, n ∉ old) new.
Proof.
  induction new as [|n new IH]; intros ret; cbn [appendMissing]; [by rewrite app_nil_r|]. rewrite IH, filter_cons.
  case_bool_decide as H; [by rewrite decide_False by tauto|]. rewrite decide_True by done. by rewrite <- app_assoc.
Qed.

Lemma appendMissingStrings_spec old new : appendMissingStrings old new = old ++ filter (λ n, n ∉ old) new.
Proof. apply appendMissing_spec. Qed.

Lemma appendMissingStrings_idem old new : appendMissingStrings (appendMissingStrings old new) new = appendMissingStrings old new.
Proof.
  rewrite (appendMissingStrings_spec (appendMissingStrings old new)).
  assert (E : filter (λ n, n ∉ appendMissingStrings old new) new = []); [|by rewrite E, app_nil_r].
  apply elem_of_nil_inv. intros n. rewrite list_elem_of_filter, appendMissingStrings_spec, elem_of_app, list_elem_of_filter.
  destruct (decide (n ∈ old)); tauto.
Qed.

Lemma addTiers_lookup al : ∀ k full i,
  addTiers k al full !! i = (λ tier, match (if (k <=? i)%nat then al !! (i - k)%nat else None) with Some u => appendMissingStrings tier u | None => tier end) <$> full !! i.
Proof.
  induction al as [|u al IH]; intros k full i; cbn [addTiers].
  - destruct (k <=? i)%nat; destruct (full !! i); done.
  - rewrite IH. destruct (Nat.lt_trichotomy i k) as [H|[->|H]].
    + rewrite list_lookup_alter_ne by lia. rewrite (proj2 (Nat.leb_gt _ _)), (proj2 (Nat.leb_gt _ _)) by lia. done.
    + rewrite list_lookup_alter_eq, (proj2 (Nat.leb_gt _ _)), Nat.leb_refl, Nat.sub_diag by lia. cbn. by destruct (full !! k).
    + rewrite list_lookup_alter_ne, !(proj2 (Nat.leb_le _ _)) by lia. replace (i - k)%nat with (S (i - S k)) by lia. done.
Qed.

Lemma addTiers_length al : ∀ k full, length (addTiers k al full) = length full.
Proof. induction al as [|u al IH]; intros k full; cbn; [done|]. by rewrite IH, length_alter. Qed.

Lemma addTrackers_length full al : length (addTrackers full al) = Nat.max (length full) (length al).
Proof. unfold addTrackers, appendMissingTrackerTiers. rewrite addTiers_length, length_app, length_replicate. lia. Qed.

Lemma addTrackers_lookup full al i : (i < Nat.max (length full) (length al))%nat →
  addTrackers full al !! i = Some (appendMissingStrings (default [] (full !! i)) (default [] (al !! i))).
Proof.
  intros Hi. unfold addTrackers. rewrite addTiers_lookup, Nat.sub_0_r. cbn [Nat.leb].
  assert (E : appendMissingTrackerTiers full (length al) !! i = Some (default [] (full !! i))).
  { unfold appendMissingTrackerTiers. destruct (decide (i < length full)%nat) as [H|H].
    - rewrite lookup_app_l by done. by destruct (lookup_lt_is_Some_2 full i H) as [t ->].
    - rewrite lookup_app_r by lia. rewrite (lookup_ge_None_2 full) by lia. apply lookup_replicate. split; [done|lia]. }
  rewrite E. cbn. destruct (al !! i); [done|]. by rewrite appendMissingStrings_spec, app_nil_r.
Qed.

(** Adding trackers keeps every tier of the torrent as it begins, puts
    what is new of each tier after it in its order, and adds nothing the second
    time. *)
Theorem addTrackers_merges full al :
  (∀ i tier, addTrackers full al !! i = Some tier →
     ∃ new, tier = default [] (full !! i) ++ new ∧ sublist new (default [] (al !! i))
       ∧ ∀ u, u ∈ tier ↔ u ∈ default [] (full !! i) ∨ u ∈ default [] (al !! i))
  ∧ length (addTrackers full al) = Nat.max (length full) (length al)
  ∧ addTrackers (addTrackers full al) al = addTrackers full al.
Proof.
  split_and!; [|apply addTrackers_length|].
  - intros i tier Ht. rewrite addTrackers_lookup in Ht by (rewrite <- addTrackers_length; by eapply lookup_lt_Some). simplify_eq.
    rewrite appendMissingStrings_spec. eexists. split; [done|]. split; [apply sublist_filter|].
    intros u. rewrite elem_of_app, list_elem_of_filter. destruct (decide (u ∈ default [] (full !! i))); tauto.
  - apply list_eq_same_length with (n := Nat.max (length full) (length al)); [|by rewrite !addTrackers_length; lia|].
    { by rewrite addTrackers_length. }
    intros i x y Hi. rewrite !addTrackers_lookup by (rewrite ?addTrackers_length; lia). cbn.
    rewrite appendMissingStrings_idem. congruence.
Qed.

(** ** Examples *)
Module MagnetExample.

Definition link : Magnet :=
  mkMagnet (replicate 20 200) [goBytes "udp://a:1"; goBytes "http://b/ann?x=1&y"] (goBytes "a name") [(goBytes "ws", [goBytes "http://w/"]); (goBytes "xs", [[]])].

Lemma link_ok : magnetOk link.
Proof.
  unfold magnetOk, link. cbn [mInfoHash mTrackers mDisplayName Params].
  assert (Hb : ∀ l, Forall (λ s, bytes_ok (goBytes s)) l) by (intros l; apply Forall_true, goBytes_ok).
  split_and!; [apply Forall_replicate; lia|done| |apply goBytes_ok| |done|done].
  - apply (proj2 (Forall_map _ _ ["udp://a:1"; "http://b/ann?x=1&y"]%string)), Hb.
  - split; [repeat constructor; set_solver|]. repeat constructor; cbn [fst snd]; lia.
Qed.

Definition zbase32 : list Z := Eval vm_compute in goBytes "MFRGGZDFMZTWQ2LKNNWG23TPOBYXE43U".

Definition zdigits : list Z := Eval vm_compute in omap base32Val zbase32.

Lemma zbase32_digits : digitsOf zbase32 zdigits.
Proof. unfold zbase32, zdigits. repeat (apply Forall2_cons; split; [vm_compute; reflexivity|]). by apply Forall2_nil. Qed.

(** A link whose hash ends in padding stops the client. *)
Lemma padded_infohash_panics hierOk :
  ParseMagnetUri hierOk (goBytes "magnet:?xt=urn:btih:MFRGGZDFMZTWQ2LKNNWG23TPOBYXE43=") = Panic "n != 20".
Proof. vm_compute. reflexivity. Qed.

(** Two display names change places each time a link is read and written. *)
Lemma display_names_swap hierOk :
  let uri names := goBytes "magnet:?xt=urn:btih:0000000000000000000000000000000000000000" ++ goBytes names in
  ∃ m, ParseMagnetUri hierOk (uri "&dn=a&dn=b") = Ok (Some m) ∧ Magnet_String m = uri "&dn=b&dn=a".
Proof. eexists. split; vm_compute; reflexivity. Qed.

(** Trackers repeated in a tier that is added are all kept. *)
Lemma repeated_tracker_kept : addTrackers [] [[goBytes "u"; goBytes "u"]] = [[goBytes "u"; goBytes "u"]].
Proof. vm_compute. reflexivity. Qed.

End MagnetExample.

Lemma magnet_roundtrip_witness :
  ∃ m', ParseMagnetUri (λ _, true) (Magnet_String MagnetExample.link) = Ok (Some m') ∧ mTrackers m' = mTrackers MagnetExample.link.
Proof.
  destruct (magnet_roundtrip (λ _, true) MagnetExample.link MagnetExample.link_ok) as [(m' & ? & _ & ? & _) _]. by exists m'.
Defined.

Lemma infohash_encodings_agree_witness :
  ∃ ih, parseInfohash (xtPrefix ++ MagnetExample.zbase32) = Ok (Some ih) ∧ length ih = Size.
Proof.
  destruct (infohash_encodings_agree MagnetExample.zbase32 MagnetExample.zdigits MagnetExample.zbase32_digits eq_refl) as (ih & H1 & H2 & _).
  exists ih. exact (conj H1 H2).
Defined.
