(* ===== verification/ResourcePieces.v ===== *)
(** Storage over named resources: src/storage/piece-resource.go.

    [ResourceProvider] states what is used of [resource.Provider] of the package
    missinggo and of the optional interfaces [SizedPutter] and
    [ConsecutiveChunkReader].  Every operation may fail at any time; what is
    stated is what its success means.  [NewInstance] succeeds for every name.
    Of two operations on a piece, one happens after the other, except at the end of
    the file, where the lock itself is modelled. *)
From stdpp Require Import base numbers list gmap strings sorting.
From Stdlib Require Import ZArith Lia Ascii.
From S2P Require Import Prelude Metainfo Decimal Percent Segments Visits Storage PieceStore Filepath OpenTorrent.
Open Scope Z_scope.

(** A directory that holds only instances. *)
Definition flat (view : gmap string (list Z)) (dir : string) : Prop :=
  ∀ name, is_Some (view !! joinSlash [dir; name]) → noSlash name = true.

(** A piece as consecutive chunks from [pos] on. *)
Fixpoint consecutive (pos : Z) (cs : list (Z * list Z)) : Prop :=
  match cs with
  | [] => True
  | (off, d) :: cs => off = pos ∧ d ≠ [] ∧ consecutive (pos + lenZ d) cs
  end.

(** The string of bytes. *)
Fixpoint ofBytes (l : list Z) : string :=
  match l with [] => EmptyString | c :: l => String (Ascii.ascii_of_N (Z.to_N c)) (ofBytes l) end.

Definition FormatInt (n : Z) : string := ofBytes (AppendInt n).

(** The chunks in a directory are those of a list. *)
Definition holdsChunks (view : gmap string (list Z)) (dir : string) (cs : list (Z * list Z)) : Prop :=
  (∀ off d, (off, d) ∈ cs → view !! joinSlash [dir; FormatInt off] = Some d)
  ∧ ∀ name, noSlash name = true → is_Some (view !! joinSlash [dir; name]) → ∃ off d, (off, d) ∈ cs ∧ name = FormatInt off.

(** What a reader gives: bytes, and then an error or the end. *)
Abbreviation readerBytes := (list Z * option serr)%type.

(** A read of [D] with a buffer of [len] bytes at [off]: never anything else,
    without an error the whole buffer. *)
Definition readsPrefix (D : list Z) (len off : Z) (r : readerBytes) : Prop :=
  r.1 `prefix_of` range D off len ∧ (r.2 = None → lenZ r.1 = len).

(** ... and with [io.EOF] all there is, as [io.ReaderAt] has it. *)
Definition readsPart (D : list Z) (len off : Z) (r : readerBytes) : Prop :=
  readsPrefix D len off r ∧ (r.2 = Some SEOF → r.1 = range D off len).

(** A stream of [D]: it may break off, with an error. *)
Definition streams (D : list Z) (r : readerBytes) : Prop := r.1 `prefix_of` D ∧ (r.2 = None → r.1 = D).

(** [res_view]: what each instance holds.  Storing from a stream that breaks
    off is an error. *)
Class ResourceProvider (S : Type) : Type := {
  res_view : S → gmap string (list Z);
  res_Get : S → string → result serr readerBytes;
  res_ReadAt : S → string → Z → Z → list Z * option serr;
  res_Put : S → string → readerBytes → S * Z * option serr;
  res_PutSized : option (S → string → readerBytes → Z → S * Z * option serr);
  res_Stat : S → string → result serr Z;
  res_Delete : S → string → S * option serr;
  res_Readdirnames : S → string → result serr (list string);
  res_ReadConsecutiveChunks : option (S → string → result serr readerBytes);
  res_get s n r : res_Get s n = Good r → ∃ c, res_view s !! n = Some c ∧ streams c r;
  res_readAt s n c len off : res_view s !! n = Some c → 0 ≤ off → 0 ≤ len → readsPart c len off (res_ReadAt s n len off);
  res_put s n c s' k : res_Put s n (c, None) = (s', k, None) → res_view s' = <[n := c]> (res_view s) ∧ k = lenZ c;
  res_put_broken s n c e s' k err : res_Put s n (c, Some e) = (s', k, err) → err ≠ None;
  res_put_frame s n r s' k err n' : res_Put s n r = (s', k, err) → n' ≠ n → res_view s' !! n' = res_view s !! n';
  res_putSized f s n c s' k : res_PutSized = Some f → f s n (c, None) (lenZ c) = (s', k, None) → res_view s' = <[n := c]> (res_view s) ∧ k = lenZ c;
  res_putSized_broken f s n c e len s' k err : res_PutSized = Some f → f s n (c, Some e) len = (s', k, err) → err ≠ None;
  res_putSized_frame f s n r len s' k err n' :
    res_PutSized = Some f → f s n r len = (s', k, err) → n' ≠ n → res_view s' !! n' = res_view s !! n';
  res_stat s n z : res_Stat s n = Good z → ∃ c, res_view s !! n = Some c ∧ z = lenZ c;
  res_delete s n s' : res_Delete s n = (s', None) → res_view s' = delete n (res_view s);
  res_delete_frame s n s' err n' : res_Delete s n = (s', err) → n' ≠ n → res_view s' !! n' = res_view s !! n';
  res_names s dir l : flat (res_view s) dir → res_Readdirnames s dir = Good l →
    NoDup l ∧ ∀ name, name ∈ l ↔ is_Some (res_view s !! joinSlash [dir; name]);
  res_consecutive f s dir cs r : res_ReadConsecutiveChunks = Some f → flat (res_view s) dir → holdsChunks (res_view s) dir cs →
    consecutive 0 cs → f s (dir ++ "/")%string = Good r → streams (concat (map snd cs)) r }.

Record ResourcePiecesOpts : Type := mkResOpts { LeaveIncompleteChunks : bool; NoSizedPuts : bool }.

(** A chunk and the name of its instance. *)
Definition chunk : Type := Z * string.

Section Piece.
Context {S : Type} `{!ResourceProvider S} (opts : ResourcePiecesOpts).
(** [s.mp.Hash()] and [s.mp.Length()]. *)
Context (hash : list Z) (mpLength : Z).

Definition completedInstancePath : string := filepath_Join ["completed"; HexString hash].
Definition incompleteDirPath : string := filepath_Join ["incompleted"; HexString hash].
Definition chunkPath (name : string) : string := filepath_Join [incompleteDirPath; name].

Definition res_Completion (s : S) : Completion :=
  mkCompletion (match res_Stat s completedInstancePath with Good size => size =? mpLength | Bad _ => false end) true.

Definition mustIsComplete (s : S) : go bool :=
  let completion := res_Completion s in
  if negb (COk completion) then Panic "must know complete definitively" else Ok (Complete completion).

(** [getChunks]: those of the directory in the order of their offsets. *)
Fixpoint namedChunks (names : list string) : go (list chunk) :=
  match names with
  | [] => Ok []
  | n :: names =>
      match ParseInt (goBytes n) with
      | NumOk offset => cs ← namedChunks names; Ok ((offset, chunkPath n) :: cs)
      | _ => Panic "strconv.ParseInt"
      end
  end.

Definition byOffset (a b : chunk) : Prop := a.1 ≤ b.1.

#[local] Instance byOffset_dec : RelDecision byOffset := λ a b, Z_le_dec a.1 b.1.

Definition getChunks (s : S) : go (list chunk) :=
  match res_Readdirnames s incompleteDirPath with
  | Bad _ => Ok []
  | Good names => cs ← namedChunks names; Ok (merge_sort byOffset cs)
  end.

(** [chunks.ReadAt] with a buffer of a length. *)
Fixpoint chunks_ReadAt (s : S) (me : list chunk) (blen off : Z) : list Z * option serr :=
  match me with
  | [] => ([], Some SEOF)
  | (offset, i) :: me =>
      if off <? offset then chunks_ReadAt s me blen off
      else
        let '(d, err) := res_ReadAt s i blen (off - offset) in
        if lenZ d =? blen then (d, None)
        else
          match err with
          | None | Some SEOF => let '(d', err) := chunks_ReadAt s me (blen - lenZ d) (off + lenZ d) in (d ++ d', err)
          | Some e => (d, Some e)
          end
  end.

Definition piece_ReadAt (s : S) (blen off : Z) : go (list Z * option serr) :=
  complete ← mustIsComplete s;
  if complete : bool then Ok (res_ReadAt s completedInstancePath blen off)
  else cs ← getChunks s; Ok (chunks_ReadAt s cs blen off).

(** [PutSized] where the instance has it and it may be used, or [Put]. *)
Definition put (sized : bool) (s : S) (n : string) (r : readerBytes) (len : Z) : S * Z * option serr :=
  match res_PutSized with
  | Some f => if sized then f s n r len else res_Put s n r
  | None => res_Put s n r
  end.

Definition piece_WriteAt (s : S) (b : list Z) (off : Z) : S * Z * option serr :=
  put true s (chunkPath (FormatInt off)) (b, None) (lenZ b).

(** Reading a section reader to its end, in blocks of [size]. *)
Fixpoint copySection (fuel : nat) (rd : Z → Z → go (list Z * option serr)) (size left off : Z) (acc : list Z) :
    go (list Z * option serr) :=
  match fuel with
  | O => Ok (acc, None)
  | Datatypes.S fuel =>
      if left <=? 0 then Ok (acc, None)
      else
        '(d, err) ← rd (Z.min size left) off;
        match err with
        | None => copySection fuel rd size (left - lenZ d) (off + lenZ d) (acc ++ d)
        | Some SEOF => Ok (acc ++ d, None)
        | Some e => Ok (acc ++ d, Some e)
        end
  end.

(** The block size is that of [io.Copy]. *)
Definition copyAll (rd : Z → Z → go (list Z * option serr)) : go (list Z * option serr) :=
  copySection (Datatypes.S (Z.to_nat mpLength)) rd 32768 mpLength 0 [].

Definition deleteAll (s : S) (cs : list chunk) : S := foldl (λ s c, (res_Delete s c.2).1) s cs.

(** The reader of the chunks. *)
Definition incompleteReader (s : S) (cs : list chunk) : go (result serr readerBytes) :=
  match res_ReadConsecutiveChunks with
  | Some f => Ok (f s (incompleteDirPath ++ "/")%string)
  | None => r ← copyAll (λ blen off, Ok (chunks_ReadAt s cs blen off)); Ok (Good r)
  end.

Definition piece_MarkComplete (s : S) : go (S * option serr) :=
  incompleteChunks ← getChunks s;
  r ← incompleteReader s incompleteChunks;
  match r with
  | Bad e => Ok (s, Some e)
  | Good r =>
      let '(s', _, err) := put (negb (NoSizedPuts opts)) s completedInstancePath r mpLength in
      Ok (if bool_decide (err = None) && negb (LeaveIncompleteChunks opts) then deleteAll s' incompleteChunks else s', err)
  end.

Definition piece_MarkNotComplete (s : S) : S * option serr := res_Delete s completedInstancePath.

(** [WriteTo]: the bytes written. *)
Definition piece_WriteTo (s : S) : go (list Z * option serr) :=
  complete ← mustIsComplete s;
  if complete : bool then
    match res_Get s completedInstancePath with Bad e => Ok ([], Some e) | Good r => Ok r end
  else
    match res_ReadConsecutiveChunks with
    | Some f => match f s (incompleteDirPath ++ "/")%string with Bad e => Ok ([], Some e) | Good r => Ok r end
    | None => copyAll (piece_ReadAt s)
    end.

(** The writes of chunks one after the other, up to an error. *)
Fixpoint writeAll (s : S) (ws : list (Z * list Z)) : S * option serr :=
  match ws with
  | [] => (s, None)
  | (off, d) :: ws =>
      match piece_WriteAt s d off with
      | (s', _, None) => writeAll s' ws
      | (s', _, Some e) => (s', Some e)
      end
  end.
End Piece.

(** ** Names *)
Lemma goBytes_ofBytes l : bytes_ok l → goBytes (ofBytes l) = l.
Proof.
  induction 1 as [|c l Hc _ IH]; [done|]. cbn [ofBytes goBytes]. rewrite IH, Ascii.N_ascii_embedding by lia. f_equal. lia.
Qed.

Lemma Clean_proper l : l ≠ [] → Forall proper l → ".." ∉ l → filepath_Clean (joinSlash l) = joinSlash l.
Proof.
  intros Hne Hp Hn. unfold filepath_Clean. rewrite bool_decide_false by (intros E; by apply joinSlash_ne in E).
  unfold cleanParts. rewrite joinSlash_rooted by done. rewrite split_join; [|done|by eapply Forall_impl; [exact Hp|intros ? []]].
  rewrite cleanFold_down, app_nil_r, reverse_involutive by done. unfold printParts. cbn [fst snd]. by destruct l.
Qed.

Definition plainName (c : string) : Prop := proper c ∧ c ≠ "..".

Lemma Clean_plain l : l ≠ [] → Forall plainName l → filepath_Clean (joinSlash l) = joinSlash l.
Proof.
  intros Hne Hl. apply Clean_proper; [done|by eapply Forall_impl; [exact Hl|intros ? []]|].
  intros Hin. rewrite Forall_forall in Hl. by destruct (Hl _ Hin).
Qed.

Lemma Join_two a b : plainName a → plainName b → filepath_Join [a; b] = joinSlash [a; b].
Proof.
  intros Ha Hb. cbn [filepath_Join]. rewrite bool_decide_false by apply Ha. apply Clean_plain; [done|auto using Forall_cons_2, Forall_nil_2].
Qed.

Lemma append_assoc (a b c : string) : (a ++ (b ++ c) = (a ++ b) ++ c)%string.
Proof. induction a as [|x a IH]; [done|]. change (String x (a ++ (b ++ c)) = String x ((a ++ b) ++ c))%string. by rewrite IH. Qed.

Lemma joinSlash_assoc a b c : joinSlash [joinSlash [a; b]; c] = joinSlash [a; b; c].
Proof. unfold joinSlash. cbn [String.concat]. by rewrite <- !append_assoc. Qed.

Lemma Join_three a b c : plainName a → plainName b → plainName c →
  filepath_Join [joinSlash [a; b]; c] = joinSlash [joinSlash [a; b]; c].
Proof.
  intros Ha Hb Hc. cbn [filepath_Join]. rewrite bool_decide_false.
  - rewrite joinSlash_assoc. apply Clean_plain; [done|auto using Forall_cons_2, Forall_nil_2].
  - intros E. apply joinSlash_ne in E; [done|]. destruct Ha, Hb. auto using Forall_cons_2, Forall_nil_2.
Qed.

Lemma join_inj dir a b : joinSlash [dir; a] = joinSlash [dir; b] → a = b.
Proof. unfold joinSlash. cbn [String.concat]. intros H. apply (inj (String.append dir)) in H. by injection H. Qed.

Definition hexDigitOk (z : Z) : bool := negb (Ascii.eqb (hexDigit z) slash) && negb (Ascii.eqb (hexDigit z) "."%char).

Lemma hexDigit_ok z : 0 ≤ z < 16 → hexDigitOk z = true.
Proof.
  intros Hz. assert (H : forallb hexDigitOk (seqZ 0 16) = true) by (vm_compute; reflexivity).
  rewrite forallb_forall in H. apply H, list_elem_of_In, elem_of_seqZ. lia.
Qed.

Lemma HexString_plain h : bytes_ok h → h ≠ [] → plainName (HexString h).
Proof.
  intros Hh Hne. assert (Hs : noSlash (HexString h) = true).
  { clear Hne. induction Hh as [|b h Hb _ IH]; [done|]. cbn [HexString noSlash]. rewrite IH.
    pose proof (hexDigit_ok (b / 16) ltac:(Z.div_mod_to_equations; lia)) as H1.
    pose proof (hexDigit_ok (b mod 16) ltac:(Z.div_mod_to_equations; lia)) as H2.
    unfold hexDigitOk in *. destruct (Ascii.eqb _ slash); [done|]. by destruct (Ascii.eqb (hexDigit (b mod 16)) slash). }
  destruct Hh as [|b h Hb _]; [done|]. pose proof (hexDigit_ok (b / 16) ltac:(Z.div_mod_to_equations; lia)) as H1.
  unfold hexDigitOk in H1. rewrite andb_true_iff, !negb_true_iff, !Ascii.eqb_neq in H1. destruct H1 as [_ H1].
  unfold plainName, proper. cbn [HexString] in *. split_and!; [exact Hs|discriminate| |]; intros E; injection E; congruence.
Qed.

Lemma AppendUint_bytes n : 0 ≤ n → bytes_ok (AppendUint n) ∧ Forall (λ c, 48 ≤ c ≤ 57) (AppendUint n).
Proof.
  intros Hn. pose proof (AppendUint_digits n Hn) as Hd. rewrite forallb_forall in Hd.
  split; apply Forall_forall; intros c Hc; rewrite list_elem_of_In in Hc; apply Hd, isDigit_range in Hc; lia.
Qed.

Lemma FormatInt_parse n : 0 ≤ n < 2 ^ 63 → ParseInt (goBytes (FormatInt n)) = NumOk n.
Proof.
  intros Hn. unfold FormatInt. rewrite goBytes_ofBytes.
  - unfold ParseInt. rewrite parseNumeral_AppendInt. by rewrite (proj2 (Z.leb_le _ _)), (proj2 (Z.ltb_lt _ _)) by lia.
  - unfold AppendInt. rewrite (proj2 (Z.ltb_ge n 0)) by lia. apply AppendUint_bytes. lia.
Qed.

Lemma FormatInt_inj m n : 0 ≤ m < 2 ^ 63 → 0 ≤ n < 2 ^ 63 → FormatInt m = FormatInt n → m = n.
Proof. intros Hm Hn E. pose proof (FormatInt_parse m Hm) as H1. rewrite E, FormatInt_parse in H1 by done. congruence. Qed.

Lemma digit_ascii c : 48 ≤ c ≤ 57 → Ascii.ascii_of_N (Z.to_N c) ≠ slash ∧ Ascii.ascii_of_N (Z.to_N c) ≠ "."%char.
Proof.
  intros Hc. split; intros E; apply (f_equal Ascii.N_of_ascii) in E; rewrite Ascii.N_ascii_embedding in E by lia; cbn in E; lia.
Qed.

Lemma FormatInt_plain n : 0 ≤ n → plainName (FormatInt n).
Proof.
  intros Hn. unfold FormatInt, AppendInt. rewrite (proj2 (Z.ltb_ge n 0)) by lia.
  destruct (AppendUint_bytes n Hn) as [_ Hd]. pose proof (parseDigits_AppendUint n Hn) as Hp.
  destruct Hd as [|c s Hc Hs]; [done|]. destruct (digit_ascii c Hc) as [H1 H2].
  unfold plainName, proper. cbn [ofBytes]. split_and!; [|discriminate|intros E; injection E; congruence..].
  assert (Hns : ∀ s, Forall (λ c, 48 ≤ c ≤ 57) s → noSlash (ofBytes s) = true).
  { clear. induction 1 as [|c s Hc _ IH]; [done|]. cbn [ofBytes noSlash]. rewrite IH. destruct (digit_ascii c Hc) as [H _].
    by rewrite (proj2 (Ascii.eqb_neq _ _)). }
  apply (Hns (c :: s)). by constructor.
Qed.

Lemma completed_plain : plainName "completed".
Proof. unfold plainName, proper. by split_and!. Qed.

Lemma incompleted_plain : plainName "incompleted".
Proof. unfold plainName, proper. by split_and!. Qed.

(** ** A piece and its chunks *)
Section PieceLaws.
Context {S : Type} `{!ResourceProvider S} (opts : ResourcePiecesOpts) (hash : list Z) (mpLength : Z).
Context (Hhash : bytes_ok hash) (Hne : hash ≠ []) (Hlen : 0 < mpLength < 2 ^ 63).

Local Notation completed := (completedInstancePath hash).
Local Notation dir := (incompleteDirPath hash).

Lemma hex_plain : plainName (HexString hash).
Proof. by apply HexString_plain. Qed.

Lemma dir_eq : dir = joinSlash ["incompleted"; HexString hash].
Proof. apply Join_two; [apply incompleted_plain|apply hex_plain]. Qed.

Lemma completed_eq : completed = joinSlash ["completed"; HexString hash].
Proof. apply Join_two; [apply completed_plain|apply hex_plain]. Qed.

Lemma chunkPath_eq off : 0 ≤ off → chunkPath hash (FormatInt off) = joinSlash [dir; FormatInt off].
Proof.
  intros Hoff. unfold chunkPath. rewrite dir_eq. apply Join_three; [apply incompleted_plain|apply hex_plain|by apply FormatInt_plain].
Qed.

Lemma completed_not_chunk name : completed ≠ joinSlash [dir; name].
Proof. rewrite completed_eq, dir_eq. done. Qed.

(** What the instances of the chunks hold. *)
Record chunksAre (s : S) (cs : list (Z * list Z)) : Prop := {
  ca_flat : flat (res_view s) dir;
  ca_holds : holdsChunks (res_view s) dir cs
}.

Definition offsetsOk (cs : list (Z * list Z)) : Prop := Forall (λ c, 0 ≤ c.1 < 2 ^ 63) cs.

Definition namedOf (c : Z * list Z) : chunk := (c.1, chunkPath hash (FormatInt c.1)).

Lemma consecutive_sorted pos cs : consecutive pos cs → StronglySorted (λ a b, a.1 < b.1) cs ∧ Forall (λ c, pos ≤ c.1) cs.
Proof.
  revert pos. induction cs as [|[off d] cs IH]; intros pos; cbn; [repeat constructor|]. intros (-> & Hd & Hc).
  destruct (IH _ Hc) as [Hs Hf]. assert (0 < lenZ d) by (destruct d; [done|unfold lenZ; cbn; lia]).
  split; constructor; cbn; try done; try lia; (eapply Forall_impl; [exact Hf|]); cbn; lia.
Qed.

Lemma consecutive_offsets cs : ∀ pos, 0 ≤ pos → consecutive pos cs → pos + lenZ (concat (map snd cs)) < 2 ^ 63 → offsetsOk cs.
Proof.
  induction cs as [|[off d] cs IH]; intros pos Hp; cbn; [constructor|]. intros (-> & Hd & Hc) Hl.
  rewrite lenZ_app in Hl. assert (0 ≤ lenZ (concat (map snd cs))) by (unfold lenZ; lia).
  assert (0 ≤ lenZ d) by (unfold lenZ; lia). constructor; [cbn; lia|]. apply (IH (pos + lenZ d)); [lia|done|lia].
Qed.

Lemma namedChunks_spec l : Forall (λ o, 0 ≤ o < 2 ^ 63) l →
  namedChunks hash (map FormatInt l) = Ok (map (λ o, (o, chunkPath hash (FormatInt o))) l).
Proof. induction 1 as [|o l Ho _ IH]; [done|]. cbn [map namedChunks]. by rewrite FormatInt_parse, IH by done. Qed.

Lemma chunk_names s cs names : chunksAre s cs → NoDup (map fst cs) → offsetsOk cs →
  res_Readdirnames s dir = Good names → ∃ l, names = map FormatInt l ∧ l ≡ₚ map fst cs.
Proof.
  intros [Hfl [H1 H2]] Hnd Hoff Hn. destruct (res_names s dir names Hfl Hn) as [Hnn Hin].
  assert (Hp : names ≡ₚ map FormatInt (map fst cs)).
  { apply NoDup_Permutation; [done| |].
    - apply NoDup_fmap_2_strong; [|done]. intros x y (a & -> & Ha)%list_elem_of_fmap (b & -> & Hb)%list_elem_of_fmap E.
      unfold offsetsOk in Hoff. rewrite Forall_forall in Hoff. apply FormatInt_inj in E; auto.
    - intros name. rewrite Hin. split.
      + intros Hs. destruct (H2 name (Hfl name Hs) Hs) as (off & d & Hc & ->). apply list_elem_of_fmap.
        exists off. split; [done|]. apply list_elem_of_fmap. by exists (off, d).
      + intros (off & -> & ([o d] & -> & Hc)%list_elem_of_fmap)%list_elem_of_fmap. cbn [fst]. rewrite (H1 o d Hc). eauto. }
  apply Permutation_map_inv in Hp as (l & El & Hl). by exists l.
Qed.

Lemma offsets_nodup (cs : list (Z * list Z)) : StronglySorted (λ a b, a.1 < b.1) cs → NoDup (map fst cs).
Proof.
  induction 1 as [|c cs Hs IH Hf]; cbn; constructor; [|done].
  intros (c' & E & Hin)%list_elem_of_fmap. rewrite Forall_forall in Hf. specialize (Hf c' Hin). lia.
Qed.

(** The chunks, or none if the names of the directory cannot be read. *)
Lemma getChunks_spec s cs : chunksAre s cs → consecutive 0 cs → offsetsOk cs →
  getChunks hash s = Ok (match res_Readdirnames s dir with Good _ => map namedOf cs | Bad _ => [] end).
Proof.
  intros Hca Hcons Hoff. destruct (consecutive_sorted 0 cs Hcons) as [Hs _].
  pose proof (offsets_nodup cs Hs) as Hnd.
  unfold getChunks. destruct (res_Readdirnames s dir) as [names|e] eqn:En.
  - destruct (chunk_names s cs names Hca Hnd Hoff En) as (l & -> & Hl).
    assert (Hlo : Forall (λ o, 0 ≤ o < 2 ^ 63) l) by (rewrite Hl; apply Forall_map; exact Hoff).
    rewrite namedChunks_spec by done. cbn [mbind go_bind]. f_equal.
    set (f := λ o, (o, chunkPath hash (FormatInt o))).
    assert (El : map namedOf cs = map f (map fst cs)) by (rewrite map_map; done).
    rewrite El. apply (StronglySorted_unique_strong byOffset).
    + intros x1 x2. rewrite !merge_sort_Permutation, !list_elem_of_fmap.
      intros (o1 & -> & _) (o2 & -> & _). unfold byOffset, f. cbn. intros ? ?. assert (o1 = o2) as -> by lia. done.
    + apply Sorted_StronglySorted; [intros a b c; unfold byOffset; lia|]. apply Sorted_merge_sort. intros a b. unfold byOffset. lia.
    + clear - Hs. induction Hs as [|c cs Hs IH Hf]; cbn; constructor; [done|]. apply Forall_map, Forall_map.
      eapply Forall_impl; [exact Hf|]. unfold byOffset. cbn. lia.
    + rewrite merge_sort_Permutation. by apply Permutation_map.
  - done.
Qed.

(** Reading the chunks is reading what they make up. *)
Lemma range_split {A} (d D : list A) off n : 0 ≤ off → 0 ≤ n →
  range (d ++ D) off n = range d off n ++ range D (Z.max 0 (off - lenZ d)) (n - lenZ (range d off n)).
Proof.
  intros Ho Hn. unfold range, lenZ. rewrite drop_app, take_app, length_take, length_drop. f_equal.
  f_equal; [lia|]. f_equal. lia.
Qed.

(** ... one chunk after the other. *)
Lemma range_prefix {A} (d D : list A) off n k : k `prefix_of` range d off n → k `prefix_of` range (d ++ D) off n.
Proof.
  intros H. etrans; [exact H|]. unfold range. rewrite drop_app, take_app. by apply prefix_app_r.
Qed.

Lemma readsPart_full D len off r : readsPart D len off r → r.2 = None → r.1 = range D off len.
Proof.
  intros [[Hp Hn] _] E. apply prefix_length_eq; [done|]. specialize (Hn E). unfold lenZ, range in *. rewrite length_take. lia.
Qed.

Lemma chunks_ReadAt_spec s cs : ∀ pos, consecutive pos cs →
  (∀ off d, (off, d) ∈ cs → res_view s !! chunkPath hash (FormatInt off) = Some d) →
  ∀ blen off, pos ≤ off → 0 ≤ blen →
  let r := chunks_ReadAt s (map namedOf cs) blen off in
  readsPart (concat (map snd cs)) blen (off - pos) r ∧ (0 < blen → lenZ r.1 = blen → r.2 = None).
Proof.
  induction cs as [|[o d] cs IH]; intros pos; cbn [consecutive].
  - intros _ _ blen off _ Hb. cbn. unfold readsPart, readsPrefix, range. rewrite drop_nil, take_nil. cbn.
    split_and!; try done. unfold lenZ. cbn. lia.
  - intros (-> & Hd & Hc) Hv blen off Hp Hb. cbn [map chunks_ReadAt namedOf fst].
    rewrite (proj2 (Z.ltb_ge off pos)) by lia. pose proof (Hv pos d ltac:(set_solver)) as Hd'.
    pose proof (res_readAt s _ d blen (off - pos) Hd' ltac:(lia) Hb) as Hr.
    destruct (res_ReadAt s _ blen (off - pos)) as [got err] eqn:Er. pose proof Hr as [[Hpre Hfull] Heof]. cbn [fst snd] in *.
    pose proof (prefix_length _ _ Hpre) as Hgl. cbn [snd concat].
    assert (Hgl2 : lenZ got ≤ blen) by (unfold lenZ, range in *; rewrite length_take in Hgl; lia).
    destruct (Z.eqb_spec (lenZ got) blen) as [E|E].
    { cbn zeta. split; [|done]. split; [|done]. split; [by apply range_prefix|done]. }
    destruct err as [e|]; [|by specialize (Hfull eq_refl)].
    destruct (decide (e = SEOF)) as [->|He].
    2:{ replace (match e with SEOF => _ | _ => _ end) with (got, Some e) by (by destruct e). cbn zeta. split; [|by intros _ ?].
        split; [|by intros [= ->]]. split; [by apply range_prefix|done]. }
    specialize (Heof eq_refl). clear Hpre Hfull Hgl.
    assert (Hend : lenZ d ≤ off + lenZ got - pos).
    { rewrite Heof in *. unfold lenZ, range in *. rewrite length_take, length_drop in *. lia. }
    destruct (IH (pos + lenZ d) Hc (λ o d' H, Hv o d' ltac:(set_solver)) (blen - lenZ got) (off + lenZ got)) as [[[H1 H2] H3] H4]; [lia..|].
    destruct (chunks_ReadAt s _ _ _) as [d' err]. cbn [fst snd] in *.
    assert (Hx : range (d ++ concat (map snd cs)) (off - pos) blen =
      got ++ range (concat (map snd cs)) (off + lenZ got - (pos + lenZ d)) (blen - lenZ got)).
    { rewrite range_split, <- Heof by lia. f_equal. destruct (Z.eq_dec (lenZ got) 0) as [E0|E0]; [f_equal; lia|]. f_equal.
      rewrite Heof in E0 |- *. unfold lenZ, range in *. rewrite length_take, length_drop in *. lia. }
    unfold readsPart, readsPrefix. cbn [fst snd]. rewrite Hx, lenZ_app. split; [split; [split|]|].
    + by apply prefix_app.
    + intros He. rewrite (H2 He). lia.
    + intros He. by rewrite (H3 He).
    + intros. apply H4; lia.
Qed.

(** A reader of [D], and one that may also end before the end. *)
Definition readerOf (rd : Z → Z → go readerBytes) (D : list Z) : Prop :=
  ∀ blen off, 0 < blen → 0 ≤ off → ∃ r, rd blen off = Ok r ∧ readsPart D blen off r ∧ (lenZ r.1 = blen → r.2 = None).

Definition prefixReader (rd : Z → Z → go readerBytes) (D : list Z) : Prop :=
  ∀ blen off, 0 < blen → 0 ≤ off → ∃ r, rd blen off = Ok r ∧ readsPrefix D blen off r.

Lemma reader_prefix rd D : readerOf rd D → prefixReader rd D.
Proof. intros H blen off Hb Ho. destruct (H blen off Hb Ho) as (r & ? & [? _] & _). eauto. Qed.

Lemma take_range {A} (D : list A) off n k : 0 ≤ off → 0 ≤ n → k `prefix_of` range D off n →
  (take (Z.to_nat off) D ++ k) `prefix_of` D ∧ take (Z.to_nat off) D ++ range D off n = take (Z.to_nat (off + n)) D.
Proof.
  intros Ho Hn Hk. assert (E : take (Z.to_nat off) D ++ range D off n = take (Z.to_nat (off + n)) D).
  { rewrite Z2Nat.inj_add by done. unfold range. by rewrite take_take_drop. }
  split; [|done]. etrans; [apply prefix_app, Hk|]. rewrite E. apply prefix_take.
Qed.

Lemma copySection_prefix rd D size : prefixReader rd D → 0 < size → ∀ fuel off, 0 ≤ off ≤ lenZ D →
  ∃ r, copySection fuel rd size (lenZ D - off) off (take (Z.to_nat off) D) = Ok r ∧ r.1 `prefix_of` D.
Proof.
  intros Hrd Hsz fuel. induction fuel as [|fuel IH]; intros off Ho; cbn [copySection].
  { eexists. split; [done|]. apply prefix_take. }
  destruct (Z.leb_spec (lenZ D - off) 0) as [Hz|Hz]; [eexists; split; [done|]; apply prefix_take|].
  set (n := Z.min size (lenZ D - off)). destruct (Hrd n off) as ([d err] & -> & [Hp Hn]); [lia..|]. cbn [mbind go_bind fst snd] in *.
  destruct (take_range D off n d ltac:(lia) ltac:(lia) Hp) as [Hpre Hfull].
  destruct err as [e|].
  - exists (take (Z.to_nat off) D ++ d, match e with SEOF => None | e => Some e end). split; [by destruct e|done].
  - specialize (Hn eq_refl).
    assert (d = range D off n) as ->.
    { apply prefix_length_eq; [done|]. unfold lenZ, range in *. rewrite length_take. lia. }
    rewrite Hfull, Hn. replace (lenZ D - off - n) with (lenZ D - (off + n)) by lia. apply IH. lia.
Qed.

Lemma copySection_exact rd D size : readerOf rd D → 0 < size → ∀ fuel off, 0 ≤ off ≤ lenZ D → (Z.to_nat (lenZ D - off) < fuel)%nat →
  ∃ r, copySection fuel rd size (lenZ D - off) off (take (Z.to_nat off) D) = Ok r ∧ (r.2 = None → r.1 = D)
    ∧ ((∀ blen off r, 0 ≤ blen → rd blen off = Ok r → r.2 = None ∨ r.2 = Some SEOF) → r.2 = None).
Proof.
  intros Hrd Hsz fuel. induction fuel as [|fuel IH]; intros off Ho Hf; [lia|]. cbn [copySection].
  destruct (Z.leb_spec (lenZ D - off) 0) as [Hz|Hz].
  { eexists. split; [done|]. split; [|done]. cbn. intros _. apply take_ge. unfold lenZ in *. lia. }
  set (n := Z.min size (lenZ D - off)). destruct (Hrd n off) as ([d err] & Er & Hpart & Hone); [lia..|].
  pose proof Hpart as [[Hp Hn] Heof]. rewrite Er. cbn [mbind go_bind fst snd] in *.
  assert (Hl : lenZ (range D off n) = n) by (apply lenZ_range; lia).
  destruct err as [e|].
  - assert (He : e ≠ SEOF) by (intros ->; rewrite (Heof eq_refl) in Hone; by specialize (Hone Hl)).
    exists (take (Z.to_nat off) D ++ d, Some e). split; [by destruct e|]. split; [done|].
    intros Hok. destruct (Hok n off _ ltac:(lia) Er) as [?|[= ?]]; done.
  - specialize (Hn eq_refl). assert (d = range D off n) as -> by (by apply (readsPart_full D n off (d, None))).
    destruct (take_range D off n _ ltac:(lia) ltac:(lia) Hp) as [_ ->].
    rewrite Hn. replace (lenZ D - off - n) with (lenZ D - (off + n)) by lia. apply IH; [lia|]. unfold lenZ in *. lia.
Qed.

Lemma copyAll_prefix rd D : prefixReader rd D → lenZ D = mpLength → ∃ r, copyAll mpLength rd = Ok r ∧ r.1 `prefix_of` D.
Proof.
  intros Hrd Hl. unfold copyAll. rewrite <- Hl.
  pose proof (copySection_prefix rd D 32768 Hrd ltac:(lia) (Datatypes.S (Z.to_nat (lenZ D))) 0) as H. rewrite Z.sub_0_r in H.
  apply H. unfold lenZ. lia.
Qed.

Lemma copyAll_exact rd D : readerOf rd D → lenZ D = mpLength →
  ∃ r, copyAll mpLength rd = Ok r ∧ streams D r
    ∧ ((∀ blen off r, 0 ≤ blen → rd blen off = Ok r → r.2 = None ∨ r.2 = Some SEOF) → r.2 = None).
Proof.
  intros Hrd Hl. destruct (copyAll_prefix rd D (reader_prefix rd D Hrd) Hl) as (r & E & Hp). exists r. split; [done|].
  unfold copyAll in E. rewrite <- Hl in E.
  pose proof (copySection_exact rd D 32768 Hrd ltac:(lia) (Datatypes.S (Z.to_nat (lenZ D))) 0) as H. rewrite Z.sub_0_r in H.
  destruct H as (r' & E' & H1 & H2); [unfold lenZ; lia|unfold lenZ; lia|].
  change (take (Z.to_nat 0) D) with (@nil Z) in E'. assert (r = r') as -> by congruence. split; [split|]; done.
Qed.

Definition tilesPiece (cs : list (Z * list Z)) (D : list Z) : Prop :=
  consecutive 0 cs ∧ concat (map snd cs) = D ∧ lenZ D = mpLength.

Lemma tiles_offsets cs D : tilesPiece cs D → offsetsOk cs.
Proof. intros (Hc & E & Hl). apply (consecutive_offsets cs 0); [lia|done|]. rewrite E, Hl. lia. Qed.

Lemma chunks_there s cs D : chunksAre s cs → tilesPiece cs D →
  ∀ off d, (off, d) ∈ cs → res_view s !! chunkPath hash (FormatInt off) = Some d.
Proof.
  intros [_ [H1 _]] Ht off d Hin. pose proof (tiles_offsets cs D Ht) as Ho. unfold offsetsOk in Ho.
  rewrite Forall_forall in Ho. specialize (Ho _ Hin). rewrite chunkPath_eq by (cbn in Ho; lia). auto.
Qed.

Lemma chunks_reader s cs D : chunksAre s cs → tilesPiece cs D → readerOf (λ blen off, Ok (chunks_ReadAt s (map namedOf cs) blen off)) D.
Proof.
  intros Hca Ht blen off Hb Ho. pose proof Ht as (Hc & E & _). eexists. split; [done|].
  destruct (chunks_ReadAt_spec s cs 0 Hc (chunks_there s cs _ Hca Ht) blen off) as (H1 & H2); [lia..|].
  rewrite Z.sub_0_r, E in H1. split; [done|]. by apply H2.
Qed.

(** ** Writing the chunks *)
Definition isComplete (s : S) (c : list Z) : Prop := res_view s !! completed = Some c ∧ lenZ c = mpLength.

(** No instance of the length of the piece under the name of the completed one. *)
Definition notComplete (s : S) : Prop := ∀ c, res_view s !! completed = Some c → lenZ c ≠ mpLength.

Lemma Completion_false s : notComplete s → Complete (res_Completion hash mpLength s) = false.
Proof.
  intros Hn. unfold res_Completion. cbn [Complete]. destruct (res_Stat s completed) as [z|e] eqn:Ez; [|done].
  apply res_stat in Ez as (c & Hc & ->). apply Z.eqb_neq. by apply Hn.
Qed.

(** A piece that is reported complete has an instance of its length. *)
Lemma Completion_true s : Complete (res_Completion hash mpLength s) = true → ∃ c, isComplete s c.
Proof.
  unfold res_Completion. cbn [Complete]. destruct (res_Stat s completed) as [z|e] eqn:Ez; [|done].
  apply res_stat in Ez as (c & Hc & ->). intros E%Z.eqb_eq. by exists c.
Qed.

Lemma mustIsComplete_spec s : mustIsComplete hash mpLength s = Ok (Complete (res_Completion hash mpLength s)).
Proof. done. Qed.

Lemma put_ok sized s n c s' k : put sized s n (c, None) (lenZ c) = (s', k, None) → res_view s' = <[n := c]> (res_view s) ∧ k = lenZ c.
Proof. unfold put. destruct res_PutSized eqn:E; [destruct sized|]; eauto using res_put, res_putSized. Qed.

Lemma put_broken sized s n c e len s' k err : put sized s n (c, Some e) len = (s', k, err) → err ≠ None.
Proof. unfold put. destruct res_PutSized eqn:E; [destruct sized|]; eauto using res_put_broken, res_putSized_broken. Qed.

Lemma put_frame sized s n r len s' k err n' : put sized s n r len = (s', k, err) → n' ≠ n → res_view s' !! n' = res_view s !! n'.
Proof. unfold put. destruct res_PutSized eqn:E; [destruct sized|]; eauto using res_put_frame, res_putSized_frame. Qed.

Lemma WriteAt_chunks s cs d off s' k : chunksAre s cs → 0 ≤ off < 2 ^ 63 → off ∉ map fst cs → offsetsOk cs →
  piece_WriteAt hash s d off = (s', k, None) → k = lenZ d ∧ chunksAre s' ((off, d) :: cs) ∧ (notComplete s → notComplete s').
Proof.
  intros [Hf [H1 H2]] Ho Hn Hoff Hw. unfold piece_WriteAt in Hw. apply put_ok in Hw as [Hv ->].
  rewrite chunkPath_eq in Hv by lia. split; [done|]. split; [split|].
  - intros name. rewrite Hv. intros [x Hx]. apply lookup_insert_Some in Hx as [[E _]|[_ Hx]].
    + apply join_inj in E as <-. apply FormatInt_plain. lia.
    + apply Hf. eauto.
  - rewrite Hv. split.
    + intros o e [[= -> ->]|Hin]%elem_of_cons; [by rewrite lookup_insert_eq|]. rewrite lookup_insert_ne; [auto|].
      intros E%join_inj. unfold offsetsOk in Hoff. rewrite Forall_forall in Hoff.
      apply FormatInt_inj in E; [|done|by apply (Hoff (o, e))]. subst. apply Hn, list_elem_of_fmap. by exists (o, e).
    + intros name Hns [x Hx]. apply lookup_insert_Some in Hx as [[E <-]|[_ Hx]].
      * apply join_inj in E as <-. exists off, d. set_solver.
      * destruct (H2 name Hns) as (o & e & ? & ->); [eauto|]. exists o, e. set_solver.
  - intros Hnc c. rewrite Hv, lookup_insert_ne by (apply not_eq_sym, completed_not_chunk). apply Hnc.
Qed.

Lemma writeAll_chunks ws : ∀ s cs s', chunksAre s cs → offsetsOk (ws ++ cs) → NoDup (map fst (ws ++ cs)) →
  writeAll hash s ws = (s', None) → notComplete s → chunksAre s' (reverse ws ++ cs) ∧ notComplete s'.
Proof.
  induction ws as [|[off d] ws IH]; intros s cs s' Hca Ho Hnd Hw Hnc; cbn [writeAll] in Hw; [by simplify_eq|].
  destruct (piece_WriteAt hash s d off) as [[s1 k] [e|]] eqn:E; [done|].
  cbn [app map] in *. apply Forall_cons in Ho as [Ho Hos]. apply NoDup_cons in Hnd as [Hn Hnd].
  rewrite map_app in Hn. apply not_elem_of_app in Hn as [Hn1 Hn2].
  destruct (WriteAt_chunks s cs d off s1 k) as (-> & Hca1 & Hnc1); [done|done|done|by apply Forall_app in Hos as [_ ?]|done|].
  rewrite reverse_cons, <- app_assoc. apply (IH s1); [done| | |done|by apply Hnc1].
  - apply Forall_app in Hos as [? ?]. apply Forall_app. split; [done|]. by constructor.
  - rewrite map_app. cbn [app map fst]. rewrite <- Permutation_middle. apply NoDup_cons.
    split; [rewrite elem_of_app; tauto|by rewrite <- map_app].
Qed.

Lemma chunksAre_perm s cs cs' : cs ≡ₚ cs' → chunksAre s cs → chunksAre s cs'.
Proof.
  intros Hp [Hf [H1 H2]]. split; [done|]. split.
  - intros off d Hin. apply H1. by rewrite Hp.
  - intros name Hn Hs. destruct (H2 name Hn Hs) as (o & e & Hin & ->). exists o, e. by rewrite <- Hp.
Qed.

(** ** What a piece gives *)

(** Reading, with whatever failures: of a piece that is not complete, and of one
    that is. *)
Lemma incomplete_ReadAt s cs D blen off : chunksAre s cs → notComplete s → tilesPiece cs D → 0 ≤ off → 0 ≤ blen →
  ∃ r, piece_ReadAt hash mpLength s blen off = Ok r ∧ readsPrefix D blen off r.
Proof.
  intros Hca Hn Ht Ho Hb. unfold piece_ReadAt. rewrite mustIsComplete_spec, Completion_false by done.
  pose proof Ht as (Hc & E & _). cbn [mbind go_bind]. rewrite (getChunks_spec s cs) by (try done; by eapply tiles_offsets).
  eexists. split; [done|]. destruct (res_Readdirnames s dir).
  - destruct (chunks_ReadAt_spec s cs 0 Hc (chunks_there s cs D Hca Ht) blen off) as [[H _] _]; [lia..|]. by rewrite E, Z.sub_0_r in H.
  - split; [apply prefix_nil|done].
Qed.

Lemma complete_ReadAt s D blen off : isComplete s D → Complete (res_Completion hash mpLength s) = true → 0 ≤ off → 0 ≤ blen →
  ∃ r, piece_ReadAt hash mpLength s blen off = Ok r ∧ readsPart D blen off r.
Proof.
  intros Hc Hcc Ho Hb. unfold piece_ReadAt. rewrite mustIsComplete_spec, Hcc. cbn [mbind go_bind].
  eexists. split; [done|]. by apply res_readAt; [apply Hc|..].
Qed.

Lemma incomplete_WriteTo s cs D : chunksAre s cs → notComplete s → tilesPiece cs D →
  ∃ r, piece_WriteTo hash mpLength s = Ok r ∧ r.1 `prefix_of` D.
Proof.
  intros Hca Hn Ht. pose proof Hca as [Hf Hh]. pose proof Ht as (Hc & E & Hl). unfold piece_WriteTo.
  rewrite mustIsComplete_spec, Completion_false by done. cbn [mbind go_bind]. destruct res_ReadConsecutiveChunks as [f|] eqn:Ef.
  - destruct (f s _) as [r|e] eqn:Er; [|eexists; split; [done|apply prefix_nil]].
    eexists. split; [done|]. destruct (res_consecutive f s dir cs r Ef Hf Hh Hc Er) as [H _]. by rewrite E in H.
  - apply copyAll_prefix; [|done]. intros blen off Hb Ho. apply (incomplete_ReadAt s cs D); [done..|lia].
Qed.

Lemma complete_WriteTo s D : isComplete s D → Complete (res_Completion hash mpLength s) = true →
  ∃ r, piece_WriteTo hash mpLength s = Ok r ∧ r.1 `prefix_of` D.
Proof.
  intros [Hv _] Hcc. unfold piece_WriteTo. rewrite mustIsComplete_spec, Hcc. cbn [mbind go_bind].
  destruct (res_Get s completed) as [r|e] eqn:Er; [|eexists; split; [done|apply prefix_nil]].
  eexists. split; [done|]. apply res_get in Er as (c & Hc & [Hp _]). by simplify_eq.
Qed.

Lemma deleteAll_frame cs : ∀ s n, n ∉ map snd cs → res_view (deleteAll s cs) !! n = res_view s !! n.
Proof.
  induction cs as [|c cs IH]; intros s n; [done|]. cbn [map]. rewrite not_elem_of_cons. intros [Hn Hcs].
  change (deleteAll s (c :: cs)) with (deleteAll (res_Delete s c.2).1 cs). rewrite IH by done.
  destruct (res_Delete s c.2) as [s' err] eqn:E. by apply (res_delete_frame s c.2 s' err).
Qed.

(** The reader that [MarkComplete] stores from. *)
Lemma incompleteReader_spec s cs D : chunksAre s cs → tilesPiece cs D →
  ∃ r, incompleteReader hash mpLength s (map namedOf cs) = Ok r ∧ ∀ r', r = Good r' → streams D r'.
Proof.
  intros Hca Ht. pose proof Hca as [Hf Hh]. pose proof Ht as (Hc & E & Hl). unfold incompleteReader.
  destruct res_ReadConsecutiveChunks as [f|] eqn:Ef.
  - eexists. split; [done|]. intros r' Er. rewrite <- E. by apply (res_consecutive f s dir cs r' Ef).
  - destruct (copyAll_exact _ D (chunks_reader s cs D Hca Ht) Hl) as (r & -> & Hs & _). eexists. split; [done|]. by intros r' [= <-].
Qed.

(** Without the names of the chunks it is empty, unless the provider itself
    reads consecutive chunks. *)
Lemma unnamedReader_spec s cs D : chunksAre s cs → tilesPiece cs D →
  ∃ r, incompleteReader hash mpLength s [] = Ok r ∧ ∀ r', r = Good r' → streams D r' ∨ r' = ([], None).
Proof.
  intros Hca Ht. destruct (incompleteReader_spec s cs D Hca Ht) as (r & E & Hr). unfold incompleteReader in *.
  destruct res_ReadConsecutiveChunks as [f|]; [exists r; split; [done|]; intros r' Hr'; left; by apply Hr|].
  exists (Good ([], None)). split; [|intros r' [= <-]; by right].
  unfold copyAll. cbn [copySection chunks_ReadAt]. by rewrite (proj2 (Z.leb_gt _ _)) by lia.
Qed.

Lemma put_chunks sized s cs r s1 k err : chunksAre s cs → put sized s completed r mpLength = (s1, k, err) → chunksAre s1 cs.
Proof.
  intros [Hf [H1 H2]] Hp.
  assert (Hfr : ∀ name, res_view s1 !! joinSlash [dir; name] = res_view s !! joinSlash [dir; name]).
  { intros name. apply (put_frame _ _ _ _ _ _ _ _ _ Hp). apply not_eq_sym, completed_not_chunk. }
  split; [intros name; rewrite Hfr; apply Hf|]. split; [intros o d Hin; rewrite Hfr; auto|intros name; rewrite Hfr; apply H2].
Qed.

(** Storing a stream under the name of the completed instance. *)
Lemma put_completed sized s D r s1 k : lenZ D = mpLength → streams D r →
  put sized s completed r mpLength = (s1, k, None) → isComplete s1 D.
Proof.
  intros Hl [_ Hs] Hp. destruct r as [b [e|]]; [by apply put_broken in Hp|]. cbn [fst snd] in Hs. rewrite (Hs eq_refl), <- Hl in Hp.
  apply put_ok in Hp as [Hv _]. split; [by rewrite Hv, lookup_insert_eq|done].
Qed.

Lemma deleteAll_complete s cs D : offsetsOk cs → isComplete s D → isComplete (deleteAll s (map namedOf cs)) D.
Proof.
  intros Ho [Hv Hl]. split; [|done]. rewrite deleteAll_frame; [done|]. rewrite map_map. intros ([o d] & Ec & Hin)%list_elem_of_fmap.
  unfold offsetsOk in Ho. rewrite Forall_forall in Ho. specialize (Ho _ Hin). cbn [namedOf snd fst] in *.
  rewrite chunkPath_eq in Ec by lia. by apply completed_not_chunk in Ec.
Qed.

Definition unsized : Prop := res_PutSized (S := S) = None ∨ NoSizedPuts opts = true.

Lemma put_unsized s n r len : unsized → put (negb (NoSizedPuts opts)) s n r len = res_Put s n r.
Proof. unfold put. intros [->|Hn]; [done|]. rewrite Hn. by destruct res_PutSized. Qed.

(** Marking a piece complete, with whatever failures. *)
Lemma MarkComplete_spec s cs D : chunksAre s cs → tilesPiece cs D →
  ∃ s' err, piece_MarkComplete opts hash mpLength s = Ok (s', err)
    ∧ (err ≠ None → chunksAre s' cs)
    ∧ (err = None → isComplete s' D ∨
         (∃ e, res_Readdirnames s dir = Bad e) ∧ chunksAre s' cs ∧ (unsized → res_view s' !! completed = Some [])).
Proof.
  intros Hca Ht. pose proof Ht as (Hc & E & Hl). pose proof (tiles_offsets cs D Ht) as Ho. unfold piece_MarkComplete.
  rewrite (getChunks_spec s cs) by done. cbn [mbind go_bind]. destruct (res_Readdirnames s dir) as [names|e0] eqn:En.
  - destruct (incompleteReader_spec s cs D Hca Ht) as ([r|e] & -> & Hr); cbn [mbind go_bind];
      [|do 2 eexists; split; [done|]; split; [by intros _|done]].
    destruct (put _ s completed r mpLength) as [[s1 k] err] eqn:Ep. do 2 eexists. split; [done|]. split.
    + intros He. rewrite bool_decide_eq_false_2 by done. by apply (put_chunks _ _ _ _ _ _ _ Hca Ep).
    + intros ->. left. pose proof (put_completed _ _ D _ _ _ Hl (Hr r eq_refl) Ep) as Hd.
      rewrite bool_decide_eq_true_2 by done. destruct (LeaveIncompleteChunks opts); cbn [negb andb]; [done|by apply deleteAll_complete].
  - destruct (unnamedReader_spec s cs D Hca Ht) as ([r|e] & -> & Hr); cbn [mbind go_bind];
      [|do 2 eexists; split; [done|]; split; [by intros _|done]].
    destruct (put _ s completed r mpLength) as [[s1 k] err] eqn:Ep.
    assert (Hs1 : (if bool_decide (err = None) && negb (LeaveIncompleteChunks opts) then deleteAll s1 [] else s1) = s1)
      by (by destruct (_ && _)).
    rewrite Hs1. exists s1, err. pose proof (put_chunks _ _ _ _ _ _ _ Hca Ep) as Hca1. split; [done|]. split; [done|].
    intros ->. destruct (Hr r eq_refl) as [Hst| ->]; [left; by apply (put_completed _ _ D _ _ _ Hl Hst Ep)|right].
    split; [eauto|]. split; [done|]. intros Hu. rewrite put_unsized in Ep by done. apply res_put in Ep as [Hv _].
    by rewrite Hv, lookup_insert_eq.
Qed.

(** ** When reads succeed *)

(** No read of the provider fails in this state; the names of a directory
    without instances need not be readable. *)
Record readable (s : S) : Prop := {
  rd_stat n c : res_view s !! n = Some c → ∃ z, res_Stat s n = Good z;
  rd_get n c : res_view s !! n = Some c → ∃ b, res_Get s n = Good (b, None);
  rd_readAt n c len off : res_view s !! n = Some c → 0 ≤ off → 0 ≤ len →
    (res_ReadAt s n len off).2 = None ∨ (res_ReadAt s n len off).2 = Some SEOF;
  rd_names e name : res_Readdirnames s dir = Bad e → res_view s !! joinSlash [dir; name] = None;
  rd_consecutive f : res_ReadConsecutiveChunks = Some f → ∃ b, f s (dir ++ "/")%string = Good (b, None) }.

Lemma readable_names s cs D : readable s → chunksAre s cs → tilesPiece cs D → ∃ names, res_Readdirnames s dir = Good names.
Proof.
  intros Hr [_ [H1 _]] (_ & E & Hl). destruct (res_Readdirnames s dir) as [names|e] eqn:En; [by eexists|].
  destruct cs as [|[off d] cs]; [|by specialize (H1 off d ltac:(set_solver)); rewrite (rd_names s Hr e) in H1].
  rewrite <- E in Hl. unfold lenZ in Hl. cbn in Hl. lia.
Qed.

Lemma chunks_ReadAt_readable s cs : readable s →
  (∀ off d, (off, d) ∈ cs → res_view s !! chunkPath hash (FormatInt off) = Some d) →
  ∀ blen off, 0 ≤ blen → (chunks_ReadAt s (map namedOf cs) blen off).2 = None ∨ (chunks_ReadAt s (map namedOf cs) blen off).2 = Some SEOF.
Proof.
  intros Hr. induction cs as [|[o d] cs IH]; intros Hv blen off Hb; [by right|]. cbn [map chunks_ReadAt namedOf fst].
  assert (Hv' : ∀ off d, (off, d) ∈ cs → res_view s !! chunkPath hash (FormatInt off) = Some d) by (intros; apply Hv; set_solver).
  destruct (Z.ltb_spec off o) as [|Ho]; [by apply IH|]. pose proof (Hv o d ltac:(set_solver)) as Hd.
  pose proof (rd_readAt s Hr _ d blen (off - o) Hd ltac:(lia) Hb) as He.
  pose proof (res_readAt s _ d blen (off - o) Hd ltac:(lia) Hb) as [[Hp _] _].
  destruct (res_ReadAt s _ blen (off - o)) as [got err]. cbn [fst snd] in *.
  apply prefix_length in Hp. unfold range in Hp. rewrite length_take in Hp.
  destruct (lenZ got =? blen); [by left|].
  specialize (IH Hv' (blen - lenZ got) (off + lenZ got) ltac:(unfold lenZ in *; lia)).
  destruct He as [->| ->]; by destruct (chunks_ReadAt s _ _ _).
Qed.

(** All of what was asked for, or all there is and [io.EOF]. *)
Definition readsAll (D : list Z) (len off : Z) (r : readerBytes) : Prop :=
  r.1 = range D off len ∧ (lenZ r.1 < len → r.2 = Some SEOF).

Lemma readsPart_all D len off r : readsPart D len off r → r.2 = None ∨ r.2 = Some SEOF → readsAll D len off r.
Proof.
  intros H He. assert (E : r.1 = range D off len) by (destruct He as [He|He]; [by apply readsPart_full|by apply H]).
  split; [done|]. intros Hs. destruct He as [He|He]; [|done]. destruct H as [[_ Hn] _]. specialize (Hn He). lia.
Qed.

Lemma readable_Completion s c : readable s → res_view s !! completed = Some c →
  Complete (res_Completion hash mpLength s) = (lenZ c =? mpLength).
Proof.
  intros Hr Hv. unfold res_Completion. cbn [Complete]. destruct (rd_stat s Hr _ c Hv) as [z Hz]. rewrite Hz.
  apply res_stat in Hz as (c' & Hc' & ->). by simplify_eq.
Qed.

(** What a piece gives when no read fails. *)
Definition gives (s : S) (D : list Z) : Prop :=
  piece_WriteTo hash mpLength s = Ok (D, None) ∧
  ∀ blen off, 0 ≤ blen → 0 ≤ off → ∃ r, piece_ReadAt hash mpLength s blen off = Ok r ∧ readsAll D blen off r.

Lemma complete_gives s D : readable s → isComplete s D → Complete (res_Completion hash mpLength s) = true ∧ gives s D.
Proof.
  intros Hr [Hv Hl]. assert (Hcc : Complete (res_Completion hash mpLength s) = true) by (rewrite (readable_Completion s D), Hl; [apply Z.eqb_refl|done..]).
  split; [done|]. split.
  - unfold piece_WriteTo. rewrite mustIsComplete_spec, Hcc. cbn [mbind go_bind]. destruct (rd_get s Hr _ D Hv) as [b Hb]. rewrite Hb.
    apply res_get in Hb as (c & Hc & [_ Hs]). specialize (Hs eq_refl). cbn in Hs. by simplify_eq.
  - intros blen off Hb Ho. destruct (complete_ReadAt s D blen off (conj Hv Hl) Hcc Ho Hb) as (r & E & Hp). exists r. split; [done|].
    apply readsPart_all; [done|]. unfold piece_ReadAt in E. rewrite mustIsComplete_spec, Hcc in E. injection E as <-.
    by apply (rd_readAt s Hr _ D).
Qed.

Lemma incomplete_gives s cs D : readable s → chunksAre s cs → notComplete s → tilesPiece cs D → gives s D.
Proof.
  intros Hr Hca Hn Ht. pose proof Ht as (Hc & E & Hl). pose proof Hca as [Hf Hh]. destruct (readable_names s cs D Hr Hca Ht) as [names Hnm].
  assert (Hrd : ∀ blen off, piece_ReadAt hash mpLength s blen off = Ok (chunks_ReadAt s (map namedOf cs) blen off)).
  { intros blen off. unfold piece_ReadAt. rewrite mustIsComplete_spec, Completion_false by done. cbn [mbind go_bind].
    rewrite (getChunks_spec s cs) by (try done; by eapply tiles_offsets). by rewrite Hnm. }
  split.
  - unfold piece_WriteTo. rewrite mustIsComplete_spec, Completion_false by done. cbn [mbind go_bind].
    destruct res_ReadConsecutiveChunks as [f|] eqn:Ef.
    + destruct (rd_consecutive s Hr f Ef) as [b Hb]. rewrite Hb. destruct (res_consecutive f s dir cs _ Ef Hf Hh Hc Hb) as [_ Hs].
      specialize (Hs eq_refl). cbn in Hs. by rewrite Hs, E.
    + assert (Hro : readerOf (piece_ReadAt hash mpLength s) D)
        by (intros blen off Hb Ho; rewrite Hrd; by apply (chunks_reader s cs)).
      destruct (copyAll_exact _ D Hro Hl) as ([b e] & -> & [_ Hs] & He). cbn [fst snd] in *.
      assert (e = None) as ->; [|by rewrite (Hs eq_refl)]. apply He. intros blen off r Hb. rewrite Hrd. intros [= <-].
      apply chunks_ReadAt_readable; [done|by apply (chunks_there s cs D)|done].
  - intros blen off Hb Ho. eexists. rewrite Hrd. split; [done|].
    destruct (chunks_ReadAt_spec s cs 0 Hc (chunks_there s cs D Hca Ht) blen off) as [H _]; [lia..|]. rewrite E, Z.sub_0_r in H.
    apply readsPart_all; [done|]. apply chunks_ReadAt_readable; [done|by apply (chunks_there s cs D)|done].
Qed.

(** The chunks after they have been written. *)
Lemma written_chunks s0 ws cs D s :
  flat (res_view s0) dir → (∀ name, res_view s0 !! joinSlash [dir; name] = None) → notComplete s0 →
  ws ≡ₚ cs → tilesPiece cs D → writeAll hash s0 ws = (s, None) → chunksAre s cs ∧ notComplete s.
Proof.
  intros Hf He Hn Hp Ht Hw. pose proof (tiles_offsets cs D Ht) as Ho. pose proof Ht as (Hc & _ & _).
  assert (H0 : chunksAre s0 []) by (split; [done|split; [set_solver|intros name _ []; by rewrite He in *]]).
  destruct (writeAll_chunks ws s0 [] s) as [Hca Hnc]; [done| | |done|done|].
  { rewrite app_nil_r. unfold offsetsOk. by rewrite Hp. }
  { rewrite app_nil_r, Hp. destruct (consecutive_sorted 0 cs Hc) as [Hs _]. by apply offsets_nodup. }
  rewrite app_nil_r in Hca. split; [|done]. apply (chunksAre_perm s (reverse ws) cs); [by rewrite reverse_Permutation|done].
Qed.

(** C40. A piece whose chunks have been written, in any order, gives the bytes
    written when no read of the provider fails: [ReadAt] at every offset and
    [WriteTo] before the piece is marked complete and after it.  Marking it
    never panics; if it fails the chunks are still there, and if it succeeds the
    completed instance holds the piece. *)
Theorem resource_piece_stored s0 ws cs D s :
  flat (res_view s0) dir → (∀ name, res_view s0 !! joinSlash [dir; name] = None) → notComplete s0 →
  ws ≡ₚ cs → tilesPiece cs D → writeAll hash s0 ws = (s, None) → readable s →
  Complete (res_Completion hash mpLength s) = false ∧ gives s D
  ∧ ∃ s' err, piece_MarkComplete opts hash mpLength s = Ok (s', err)
      ∧ (err ≠ None → chunksAre s' cs)
      ∧ (err = None → isComplete s' D
          ∧ (readable s' → Complete (res_Completion hash mpLength s') = true ∧ gives s' D)).
Proof.
  intros Hf He Hn Hp Ht Hw Hr. destruct (written_chunks s0 ws cs D s Hf He Hn Hp Ht Hw) as [Hca Hnc].
  split; [by apply Completion_false|]. split; [by apply (incomplete_gives s cs)|].
  destruct (MarkComplete_spec s cs D Hca Ht) as (s' & err & E & Hbad & Hok). exists s', err. split; [done|]. split; [done|].
  intros Herr. destruct (Hok Herr) as [Hd|[[e Hbn] _]].
  - split; [done|]. intros Hr'. by apply complete_gives.
  - destruct (readable_names s cs D Hr Hca Ht) as [names Hnm]. congruence.
Qed.

(** C20. Whatever reads of the provider fail, a piece whose chunks have been
    written never panics and never gives wrong bytes: [ReadAt] gives a prefix of
    the range asked for, and all of the buffer if it returns no error; [WriteTo]
    gives a prefix of the piece; and marking the piece complete either fails
    with the chunks still there, or stores the piece, or, if the names of the
    chunks could not be read, leaves the chunks and (without sized puts) stores
    an empty instance; so that after a success a piece that is reported complete
    holds the bytes written, and gives nothing else. *)
Theorem resource_failures_safe s0 ws cs D s :
  flat (res_view s0) dir → (∀ name, res_view s0 !! joinSlash [dir; name] = None) → notComplete s0 →
  ws ≡ₚ cs → tilesPiece cs D → writeAll hash s0 ws = (s, None) →
  (∃ r, piece_WriteTo hash mpLength s = Ok r ∧ r.1 `prefix_of` D)
  ∧ (∀ blen off, 0 ≤ blen → 0 ≤ off → ∃ r, piece_ReadAt hash mpLength s blen off = Ok r ∧ readsPrefix D blen off r)
  ∧ ∃ s' err, piece_MarkComplete opts hash mpLength s = Ok (s', err)
      ∧ (err ≠ None → chunksAre s' cs)
      ∧ (err = None → isComplete s' D ∨
           (∃ e, res_Readdirnames s dir = Bad e) ∧ chunksAre s' cs ∧ (unsized → res_view s' !! completed = Some []))
      ∧ (err = None → unsized → Complete (res_Completion hash mpLength s') = true →
           isComplete s' D ∧ (∃ r, piece_WriteTo hash mpLength s' = Ok r ∧ r.1 `prefix_of` D)
           ∧ ∀ blen off, 0 ≤ blen → 0 ≤ off → ∃ r, piece_ReadAt hash mpLength s' blen off = Ok r ∧ readsPart D blen off r).
Proof.
  intros Hf He Hn Hp Ht Hw. destruct (written_chunks s0 ws cs D s Hf He Hn Hp Ht Hw) as [Hca Hnc].
  split; [by apply (incomplete_WriteTo s cs)|]. split; [intros; by apply (incomplete_ReadAt s cs)|].
  destruct (MarkComplete_spec s cs D Hca Ht) as (s' & err & E & Hbad & Hok). exists s', err. split; [done|]. split; [done|]. split; [done|].
  intros Herr Hu Hcc. assert (Hd : isComplete s' D).
  { destruct (Hok Herr) as [Hd|(_ & _ & Hemp)]; [done|]. specialize (Hemp Hu). destruct (Completion_true s' Hcc) as (c & Hc & Hl).
    simplify_eq. change (lenZ []) with 0 in Hl. lia. }
  split; [done|]. split; [by apply complete_WriteTo|]. intros. by apply complete_ReadAt.
Qed.
End PieceLaws.

(** ** The lock of a piece *)

(** A reader of an incomplete piece takes the lock in [ReadAt] (or [WriteTo]) and
    again in [Completion]; [MarkComplete] takes it for writing.  A
    [sync.RWMutex] lets no reader in once a writer waits. *)
Inductive readerPhase : Type := RStart | RHoldsOnce | RHoldsTwice | RHoldsOnceMore | RDone.
Inductive writerPhase : Type := WStart | WWaits | WHolds | WDone.

Definition holding (r : readerPhase) : bool := match r with RStart | RDone => false | _ => true end.
Definition admits (w : writerPhase) : bool := match w with WStart | WDone => true | _ => false end.

Definition readerStep (st : readerPhase * writerPhase) : option (readerPhase * writerPhase) :=
  let '(r, w) := st in
  match r with
  | RStart => if admits w then Some (RHoldsOnce, w) else None
  | RHoldsOnce => if admits w then Some (RHoldsTwice, w) else None
  | RHoldsTwice => Some (RHoldsOnceMore, w)
  | RHoldsOnceMore => Some (RDone, w)
  | RDone => None
  end.

Definition writerStep (st : readerPhase * writerPhase) : option (readerPhase * writerPhase) :=
  let '(r, w) := st in
  match w with
  | WStart => Some (r, WWaits)
  | WWaits => if holding r then None else Some (r, WHolds)
  | WHolds => Some (r, WDone)
  | WDone => None
  end.

(** Marking a piece complete between the two locks of a reader stops both for
    good. *)
Theorem nested_read_lock_deadlocks :
  ∃ st, (st ← readerStep (RStart, WStart); writerStep st) = Some st
    ∧ readerStep st = None ∧ writerStep st = None ∧ st.1 ≠ RDone ∧ st.2 ≠ WDone.
Proof. exists (RHoldsOnce, WWaits). by vm_compute. Qed.

(** ** A provider in memory *)
Module ResourceExample.

Abbreviation Mem := (gmap string (list Z)).

Fixpoint dropPrefix (p s : string) : option string :=
  match p, s with
  | EmptyString, _ => Some s
  | String a p, String b s => if Ascii.eqb a b then dropPrefix p s else None
  | _, EmptyString => None
  end.

Definition namesIn (m : Mem) (dir : string) : list string :=
  elements (list_to_set (omap (dropPrefix (dir ++ "/")) (elements (dom m))) : gset string).

Lemma dropPrefix_spec p s r : dropPrefix p s = Some r ↔ s = (p ++ r)%string.
Proof.
  revert s. induction p as [|a p IH]; intros s; cbn [dropPrefix].
  - split; [by intros [= ->]|intros ->; done].
  - destruct s as [|b s]; [split; intros H; discriminate H|]. destruct (Ascii.eqb_spec a b) as [->|Hn].
    + rewrite IH. split; [intros ->; done|]. change (String b p ++ r)%string with (String b (p ++ r)). by intros [= ->].
    + split; [done|]. change (String a p ++ r)%string with (String a (p ++ r)). intros [= ? ?]. congruence.
Qed.

Lemma namesIn_spec m dir name : name ∈ namesIn m dir ↔ is_Some (m !! joinSlash [dir; name]).
Proof.
  unfold namesIn. rewrite elem_of_elements, elem_of_list_to_set, list_elem_of_omap.
  assert (Ej : joinSlash [dir; name] = ((dir ++ "/") ++ name)%string) by (unfold joinSlash; cbn [String.concat]; by rewrite <- append_assoc).
  rewrite Ej. split.
  - intros (k & Hk & ->%dropPrefix_spec). by apply elem_of_dom, elem_of_elements.
  - intros H. exists ((dir ++ "/") ++ name)%string. split; [by apply elem_of_elements, elem_of_dom|by apply dropPrefix_spec].
Qed.

(** What the instances hold, and whether the names in a directory can be
    read. *)
Record Provider : Type := mkProvider { pvMem : Mem; pvNames : bool }.

Definition mem_Get (m : Mem) (n : string) : result serr readerBytes :=
  match m !! n with Some c => Good (c, None) | None => Bad SNotExist end.

Definition mem_ReadAt (m : Mem) (n : string) (len off : Z) : list Z * option serr :=
  match m !! n with Some c => f_ReadAt c len off | None => ([], Some SNotExist) end.

Definition mem_Put (p : Provider) (n : string) (r : readerBytes) : Provider * Z * option serr :=
  match r.2 with None => (mkProvider (<[n := r.1]> (pvMem p)) (pvNames p), lenZ r.1, None) | Some e => (p, 0, Some e) end.

#[export] Program Instance memProvider : ResourceProvider Provider := {|
  res_view := pvMem;
  res_Get p := mem_Get (pvMem p);
  res_ReadAt p := mem_ReadAt (pvMem p);
  res_Put := mem_Put;
  res_PutSized := None;
  res_Stat p n := match pvMem p !! n with Some c => Good (lenZ c) | None => Bad SNotExist end;
  res_Delete p n := (mkProvider (delete n (pvMem p)) (pvNames p), None);
  res_Readdirnames p dir := if pvNames p then Good (namesIn (pvMem p) dir) else Bad (SOther dir);
  res_ReadConsecutiveChunks := None |}.
Next Obligation.
  intros p n r. unfold mem_Get. cbn. destruct (pvMem p !! n) as [c|] eqn:E; [|done]. intros [= <-]. exists c. done.
Qed.
Next Obligation.
  intros p n c len off H Ho Hl. cbn in *. unfold mem_ReadAt, f_ReadAt. rewrite H, (proj2 (Z.ltb_ge off 0)) by lia.
  fold (range c off len). unfold readsPart, readsPrefix. cbn [fst snd]. destruct (Z.ltb_spec (lenZ (range c off len)) len) as [|Hlt]; [done|].
  split; [|done]. split; [done|]. intros _. unfold lenZ, range in *. rewrite length_take in *. lia.
Qed.
Next Obligation. intros p n c p' k. unfold mem_Put. cbn. by intros [= <- <-]. Qed.
Next Obligation. intros p n c e p' k err. unfold mem_Put. cbn. by intros [= _ _ <-]. Qed.
Next Obligation. intros p n [c [e|]] p' k err n'; unfold mem_Put; cbn; intros [= <- <- <-] Hn; [done|]. cbn. by rewrite lookup_insert_ne. Qed.
Next Obligation. done. Qed.
Next Obligation. done. Qed.
Next Obligation. done. Qed.
Next Obligation. intros p n z. cbn. destruct (pvMem p !! n) as [c|] eqn:E; [|done]. intros [= <-]. by exists c. Qed.
Next Obligation. intros p n p'. cbn. by intros [= <-]. Qed.
Next Obligation. intros p n p' err n'. cbn. intros [= <- <-] Hn. cbn. by rewrite lookup_delete_ne. Qed.
Next Obligation. intros p dir l _. cbn. destruct (pvNames p); [|done]. intros [= <-]. split; [apply NoDup_elements|apply namesIn_spec]. Qed.
Next Obligation. done. Qed.

Lemma readable_provider hash m : readable hash (mkProvider m true).
Proof.
  split; cbn; unfold mem_Get, mem_ReadAt, f_ReadAt; [..|done|done].
  - intros n c ->. by eexists.
  - intros n c ->. by eexists.
  - intros n c len off -> Ho _. rewrite (proj2 (Z.ltb_ge off 0)) by lia. cbn. destruct (_ <? _); auto.
Qed.

Definition hash : list Z := [171; 205].
Definition ws : list (Z * list Z) := [(4, [5; 6]); (0, [1; 2; 3; 4])].
Definition empty (names : bool) : Provider := mkProvider ∅ names.
Definition written (names : bool) : Provider := (writeAll hash (empty names) ws).1.

Lemma empty_ok names :
  flat (res_view (empty names)) (incompleteDirPath hash) ∧
  (∀ name, res_view (empty names) !! joinSlash [incompleteDirPath hash; name] = None) ∧ notComplete hash 6 (empty names).
Proof.
  split_and!; [intros name [c Hc]|intros name|intros c Hc]; cbn in *; rewrite ?lookup_empty in *; done.
Qed.

Lemma ws_tiles : ws ≡ₚ reverse ws ∧ tilesPiece 6 (reverse ws) [1; 2; 3; 4; 5; 6].
Proof. split; [by rewrite reverse_Permutation|by vm_compute]. Qed.
End ResourceExample.

Import ResourceExample.

Lemma resource_piece_stored_witness :
  piece_WriteTo hash 6 (written true) = Ok ([1; 2; 3; 4; 5; 6], None)
  ∧ ∃ s', piece_MarkComplete (mkResOpts false false) hash 6 (written true) = Ok (s', None)
      ∧ Complete (res_Completion hash 6 s') = true ∧ piece_WriteTo hash 6 s' = Ok ([1; 2; 3; 4; 5; 6], None).
Proof.
  destruct (empty_ok true) as (H1 & H2 & H3). destruct ws_tiles as [H4 H5].
  destruct (resource_piece_stored (mkResOpts false false) hash 6 ltac:(repeat constructor; lia) ltac:(done) ltac:(lia)
    (empty true) ws (reverse ws) [1; 2; 3; 4; 5; 6] (written true) H1 H2 H3 H4 H5 ltac:(vm_compute; reflexivity)
    (readable_provider hash _)) as (_ & [Hw _] & s' & err & Hm & _ & Hok).
  split; [exact Hw|]. assert (Hv : ∃ m, piece_MarkComplete (mkResOpts false false) hash 6 (written true) = Ok (mkProvider m true, None))
    by (eexists; vm_compute; reflexivity).
  destruct Hv as [m Hv]. assert (s' = mkProvider m true ∧ err = None) as [-> ->] by (split; congruence).
  exists (mkProvider m true). destruct (Hok eq_refl) as [_ Hg]. destruct (Hg (readable_provider hash m)) as (H6 & H7 & _).
  exact (conj Hm (conj H6 H7)).
Defined.

Lemma resource_failures_safe_witness :
  ∃ s', piece_MarkComplete (mkResOpts false false) hash 6 (written false) = Ok (s', None) ∧
    chunksAre hash s' (reverse ws) ∧ res_view s' !! completedInstancePath hash = Some [].
Proof.
  destruct (empty_ok false) as (H1 & H2 & H3). destruct ws_tiles as [H4 H5].
  destruct (resource_failures_safe (mkResOpts false false) hash 6 ltac:(repeat constructor; lia) ltac:(done) ltac:(lia)
    (empty false) ws (reverse ws) [1; 2; 3; 4; 5; 6] (written false) H1 H2 H3 H4 H5 ltac:(vm_compute; reflexivity))
    as (_ & _ & s' & err & Hm & _ & Hok & _).
  assert (Hv : ∃ m, piece_MarkComplete (mkResOpts false false) hash 6 (written false) = Ok (mkProvider m false, None) ∧
    m !! completedInstancePath hash = Some []) by (eexists; split; vm_compute; reflexivity).
  destruct Hv as (m & Hv & Hc). assert (s' = mkProvider m false ∧ err = None) as [-> ->] by (split; congruence).
  exists (mkProvider m false). split; [exact Hm|]. destruct (Hok eq_refl) as [[Hd _]|(_ & Hca & He)].
  - change (m !! completedInstancePath hash = Some [1; 2; 3; 4; 5; 6]) in Hd. rewrite Hc in Hd. discriminate Hd.
  - split; [exact Hca|]. apply He. by left.
Defined.

(** [getChunks] drops the error of [Readdirnames], so marking a piece complete
    succeeds having stored nothing, and a read finds the end of the file. *)
Example unnamed_chunks_lost :
  (∃ m, piece_MarkComplete (mkResOpts false false) hash 6 (written false) = Ok (mkProvider m false, None) ∧
    m !! completedInstancePath hash = Some []) ∧
  piece_ReadAt hash 6 (written false) 6 0 = Ok ([], Some SEOF) ∧
  piece_WriteTo hash 6 (written false) = Ok ([], None).
Proof. split_and!; [eexists; split; vm_compute; reflexivity|vm_compute; reflexivity..]. Qed.
